(* ===== verification/_CoqProject ===== *)
-Q . S2P
LocalHold.v
Prelude.v
Text.v
Floats.v
Parsing.v
Errors.v
Types.v
Validation.v
Lists.v
StoreTypes.v
Consolidation.v
RerankerSettings.v
Ranking.v
Context.v
EmbeddingSettings.v
Store.v
Membership.v
Crud.v
ContextAdmin.v
Admin.v
LegacyScopes.v
Revisions.v
Operations.v
Vectors.v
Integrity.v
Authorization.v
Concurrency.v
Accounting.v
Query.v
Search.v
Stats.v
Governance.v
Maintenance.v
Hierarchy.v
Systems.v
ContextSelect.v
Selection.v
ContextReads.v
ServerTypes.v
Resilience.v
BackgroundTasks.v
Config.v
RerankerModels.v
RerankerArtifacts.v
RerankerRuntime.v
Settings.v
HttpTransport.v
EmbeddingClient.v
EmbeddingStatus.v
Engine.v
EngineConsolidation.v
EngineSearch.v
Programs.v
Orchestrator.v
EngineWrites.v
Foreground.v
Server.v
ServerContexts.v
ServerSelection.v
ServerCreate.v
ServerScopes.v
ScopeKeys.v
ServerSearch.v
ServerWrites.v
ServerAdmin.v
ServerEffects.v
Attribution.v
Compensation.v
ProgramLogic.v
StoreFacts.v
EmbeddingSafety.v
EmbeddingGuarantees.v
