(* ===== verification/LocalHold.v ===== *)
(** * LocalHold: a verification development for the LocalHold memory server

    LocalHold ([src/src/], Rust) is a memory store for AI agents: an MCP server
    over an engine, over a store (SQLite or PostgreSQL) with governed contexts,
    an embedding provider and an optional reranker. This library models the
    core of the program as executable definitions and proves what makes it
    correct. Each definition is translated from the source it is named after.

    ** The parts and the files that model them

    - [Prelude.v]: results, strings, machine integers, automation.
      [Text.v]: case folding, trimming, UTF-8 text operations of the standard
      library. [Floats.v]: binary64 and binary32 as [spec_float], [total_cmp],
      clamping. [Parsing.v]: numbers, booleans and IP addresses from text.
      [Lists.v]: comparators, stable sorting, deduplication.
    - [Errors.v] ([error.rs]), [Types.v] ([types.rs]): identities, enums and
      their parsers, access policies, redaction, memory records.
      [Validation.v] ([validation.rs]): input normalisation and limits.
      [StoreTypes.v] ([store/mod.rs]): the data the store traits exchange.
    - [Consolidation.v] ([consolidation.rs]): cosine similarity, union-find,
      duplicate groups. [Ranking.v] ([ordering.rs], [fusion.rs],
      [scoring.rs]): orders, reciprocal-rank fusion, composite scores,
      duplicate suppression.
    - [Context.v] ([context.rs]): governed contexts, policy evaluation,
      ancestors, durable identities, similarity of names.
    - [Store.v] ([store/schema.rs], [store/sqlite.rs]): the tables as finite
      maps, triggers and cascades, transactions with rollback.
      [Membership.v] ([store/context_store.rs]): visibility, use and
      memberships of contexts. [Crud.v] ([store/crud.rs]): every writing
      operation of a memory, claims, uses, supersession.
      [Admin.v] ([store/admin.rs]): eviction, metadata upsert and backfill,
      reassignment of legacy scopes. [LegacyScopes.v] ([store/admin.rs],
      [store/context_store.rs]): legacy scopes registered as private contexts
      and taken back when nothing refers to them.
    - [Revisions.v], [Operations.v], [Vectors.v], [Integrity.v],
      [Authorization.v], [Concurrency.v], [Accounting.v], [Maintenance.v]: the
      theorems about the store, over arbitrary sequences of its operations.
    - [Query.v] ([store/query.rs]): the SQL
      condition of a filter, [LIKE], the ordered pages, the paged scan,
      listing. [Search.v] ([store/search.rs]): text search, full-text
      search and vector search over the parameters [Fts] and [VectorIndex].
      [Stats.v] ([store/query.rs], [store/admin.rs]): the statistics and the
      metadata migration report.
    - [ContextAdmin.v] ([store/context_store.rs]): creating, moving, archiving,
      describing and granting contexts, kinds and policies. [Governance.v]:
      who can change what. [Hierarchy.v]: the context tables stay
      well-formed, together with the memory tables. [Systems.v]: histories of
      both kinds of operations. [ContextSelect.v] and [Selection.v]: the
      contexts a selection covers. [ContextReads.v]: the readers of contexts,
      records, memberships, policies, grants, audit events and registered
      legacy scopes.
    - [Resilience.v] ([embedding/retry.rs], [embedding/resilient.rs]): retries
      and the availability of the embedding provider. [EmbeddingClient.v]
      ([embedding/openai.rs], [embedding/noop.rs], [embedding/factory.rs]):
      the client of the endpoint and what the configuration makes of it.
      [EmbeddingStatus.v] ([embedding/status.rs], [store/schema.rs]): the
      report on the embedding storage of a SQLite file.
    - [BackgroundTasks.v] ([background_tasks.rs]): admission and shutdown of
      background work.
    - [Config.v] ([config/mod.rs]): the limits, their defaults and their
      validation, the defaults of search. [RerankerSettings.v] and
      [EmbeddingSettings.v] ([config/embedding.rs]): the sections of the
      reranker and of the embedding provider. [Settings.v]
      ([config/mod.rs], [main.rs]): the whole configuration, from the file and
      the environment through normalisation and validation to the server's
      authorization settings. [HttpTransport.v] ([http_transport.rs]): what
      a request passes before the tools see it, and the capped table of
      sessions.
    - [RerankerModels.v] ([reranker/policy.rs],
      [reranker/download.rs], [reranker/operator.rs]): the policy of the
      reranker, its pinned model files with their cache and download, over a
      file system that may refuse any call, and the reports on them.
      [RerankerArtifacts.v]: what holds of those files.
      [RerankerRuntime.v] ([reranker/onnx.rs], [reranker/resilient.rs],
      [reranker/runtime.rs]): sessions, inference, availability and start-up.
    - [Engine.v] ([engine.rs]): the operations the server calls, over the
      store: the fields of a new memory and of an update, bulk operations,
      maintenance, uses. [EngineConsolidation.v]: discovery of duplicates
      over the similarity graph and the merge of each group.
      [EngineSearch.v]: the search pipeline, from the first stage through
      scoring, reranking and suppression to the recorded impression.
    - [ServerTypes.v] ([server/params.rs], [server/mod.rs], [http_auth.rs]):
      who calls, the structured errors and warnings, the views of memories and
      the cards made of them. [Server.v] ([server/mod.rs]): the tools that
      read and forget memories and the maintenance tools, over the engine.
      [ServerContexts.v]: the resolution of governed contexts and the tools
      [context_resolve] and [context_create]. [ServerSelection.v] and
      [ServerCreate.v]: what holds of them. [ServerScopes.v]: legacy scopes,
      their resolution and the contexts made for them and taken back;
      [ScopeKeys.v]: what the expansion of scope keys answers.
      [ServerSearch.v]: [recall] and [brief]. [ServerWrites.v]: [remember],
      [remember_many], [revise] and [handoff]. [ServerAdmin.v]: the admin
      tools that filter or list.
    - [Programs.v]: concurrent programs over what the embedding orchestrator
      shares, and the running server. [Orchestrator.v]
      ([embedding/orchestrator/], [embedding/batch.rs]): the store-then-embed
      operations and their background tasks. [EngineWrites.v]: the engine's
      storing, updating and re-embedding on top of it. [Foreground.v]: such a
      program inside the session of a tool. [ServerEffects.v]: a logic of what
      a tool may do to the tables, [Attribution.v] and [Compensation.v]: in
      whose name the writing tools act and what a failed one leaves.
      [ProgramLogic.v]: what
      a program may do and the invariant of a server whose requests keep to
      it. [StoreFacts.v]: what a transaction tells its caller.
      [EmbeddingSafety.v]: every request keeps to it. [EmbeddingGuarantees.v]:
      what follows.

    ** State

    A table is a [gmap] from its key to a row record ([Store.MemoryRow] for
    [memories] and so on), a JSON column is the value it encodes, a timestamp
    is an instant in nanoseconds. SQL comparisons of timestamps compare RFC
    3339 texts; those agree with the instants for the years 0 to 9999. An
    operation is a function in the monad [Store.tx] (state and error), and
    [with_conn] runs it as one transaction: an error restores the tables.
    SQLite serialises writers, so a concurrent history of the store is a
    sequence of operations ([Operations.run_all]); what can happen between two
    operations of one client is any such sequence. Revision counters are
    integers without wrap-around (an [i64] that counts edits).

    The engine runs several transactions for one request, and other clients
    write between them. [Engine.engine] is a monad over a session: the tables,
    the clock readings still to come and a schedule that holds, for each call
    the engine will make, the operations of others on memories and contexts
    that run before it. The theorems about the engine quantify over the
    session, so they hold for every interleaving at the grain of transactions.
    A tool of the server ([Server.tool]) is an engine computation that may
    also end in a structured tool error or a protocol error. Calls that the
    code joins ([tokio::try_join!]) run in the order they are written.

    The provider wrapper and the background tasks are shared by threads; there
    the model is a step relation whose steps are the accesses of the shared
    atomics, and the theorems hold for every interleaving. The sessions of
    the HTTP transport are another one ([HttpTransport.step]): its steps are
    the calls to the inner session manager and the sections under the mutex
    of the activity map.

    The embedding orchestrator runs requests and tasks that share the store,
    the provider, two sets under mutexes and the task set. [Programs.prog] is
    the code cut at these accesses; [Programs.step] lets a request arrive, any
    thread make its next access, another session run any operation, or the
    shutdown take the tasks, drain them, or at its deadline collect the active
    claims, release them and drop the tasks. A spawn and an admission may be
    refused at any time, which covers what [BackgroundTasks.v] does with them.
    A request that has arrived is not cancelled.

    ** The theorems

    - What a client may rely on across operations: [revision_contract],
      [no_lost_update]; besides, [reembed_claims], [vector_matches_content].
    - Embedding as a concurrent system: [embeddings_belong_to_content] (a
      stored vector is the provider's answer to the content the memory has
      now), [no_lease_left_behind], [one_worker_per_embedding],
      [stored_memory_is_embedded]; besides, [thread_ends].
    - Well-formed tables: [store_integrity], and with the context tables
      [system_integrity].
    - Governance: [context_governance] (a context disappears only when its
      owner takes back one nothing refers to); [selection_exact].
    - Access: [write_access_required]; besides, [reassign_scope_spec],
      [redaction_noninterference], [bulk_delete_spec], [evict_expired_spec],
      [access_level_spec], [authorized_delete_spec].
    - Policy: [operator_policy_ceilings]; besides,
      [identity_fingerprint_separates], [context_is_ancestor_spec].
    - Algorithms against reference definitions: [duplicate_groups_correct];
      besides, [rrf_reference], [scope_expansion],
      [suppression_is_selection], [composite_scoring_total_ranking], [get_batch_is_get],
      [records_batch_is_single].
    - Queries and search: [listing_noninterference] (what a caller may not see
      does not influence what it gets), [list_is_reference],
      [count_is_reference] (the statistics count what a listing shows),
      [vector_search_nearest], [fts_search_is_reference]; besides,
      [fts_query_is_literal], [text_search_agrees], [migration_report_agrees].
    - The engine, with others writing meanwhile: [search_contract],
      [consolidation_merges_what_it_found] (a member that changed since the
      discovery is left alone), [consolidation_dry_run_exact].
    - The tools of the server: [tools_check_the_caller] (who may call),
      [read_reveals_only_the_view] (nothing of the stored memory but the
      caller's view shows in the answer), [forget_contract], [context_selection_contract] (the resolution ends,
      never broadens the request, and keeps to the policies); besides,
      [read_many_is_reads], [create_candidates_agree] (the duplicates a caller
      confirms are those the store checks), [membership_readers_agree];
      [candidate_named_twice] shows that a candidate may be listed twice.
    - The writing tools, with others writing meanwhile: [writes_are_attributed]
      (all that a tool does to the tables is done in the name of the caller
      the transport names, whatever label the request carries); without
      others, [failed_write_is_undone] (an error leaves no memory and no
      context behind). [revise_fails_after_its_commit] shows the exception, a
      [revise] that answers an error although its update is done, and
      [expansion_skipped] a filter whose expansion is dropped.
    - Concurrency of the provider and of the shutdown:
      [resilient_availability], [embed_retry_contract],
      [embedding_answer_contract] (every text gets its own vector, and a wrong
      answer is not asked for again), [drained_shutdown_is_final], [shutdown_is_woken]; besides,
      [resilient_call_budget]; [timeout_reset_can_be_lost] shows a run in
      which the recovery after a timed-out shutdown is lost.
    - The reranker: [reranker_artifacts_are_pinned] (it runs on the files its
      configuration pins, whatever the disk and the network do),
      [reranker_starts_as_configured] (on the provider it asks for); besides,
      [inference_scores_every_document], [validated_configuration_resolves],
      [bundled_library_is_unique].
    - The HTTP front: [http_requests_are_authenticated] (with a loaded
      configuration no request reaches the tools without the token and the
      principal it asks for), [session_table_contract] (the cap holds, and unless
      sessions are restored each is watched and its streams are counted
      exactly, for every interleaving); besides,
      [sweep_closes_abandoned]; [reaper_may_close_active_stream] shows a run
      in which a session is closed that has just become active.
    - The configuration: [loaded_configuration_is_safe] (limits, weights,
      endpoint and authorization of whatever loads),
      [environment_is_read_completely] (no override is lost);
      [ipv6_loopback_is_refused] shows a local endpoint that is not accepted.
    - The embedding report: [status_report_is_truthful] (exit code 0 means
      that every memory has its vector, under the configured profile).
    - Data: [enum_text_roundtrip]; besides, [entity_new_normal_form],
      [ttl_expiry_exact], [record_use_spec].

    ** Parameters

    What the code takes from other packages is a class or an argument:
    [Render] (ULID and debug texts), [Chrono] (RFC 3339), [UnicodeCase]
    (Unicode lower case), [UrlLib], [Sha256Lib], the libm functions [exp2] and
    [ln_1p], random jitter and the clock readings. The engines inside SQLite
    are parameters with their documented behaviour as laws: [Fts] (the [MATCH]
    operator and its ranking) and [VectorIndex] (nearest neighbours); the
    rows a [LIMIT] without an order keeps are the parameter [limit_rows], the
    order in which a [HashSet] is iterated is [hash_order];
    [CosineDistance] is the distance function of sqlite-vec. What the engine
    is given is a class as well: [SearchProviders] (the query embedding,
    whether full-text search is available, the reranker), and [try_seconds]
    (a duration from a binary64 number of seconds). [SqlitePages] answers the
    size of the database file. For the reranker, [DiskWorld] says which call
    to the file system fails, what the network answers and in which order a
    directory is listed, [RerankerFeatures] which features were compiled in,
    and [OnnxLib] is the ONNX runtime with the tokenizer. [Settings.v] takes
    the files, the TOML parser, the variables of the process, the text of a
    URL error and what is a log filter or a URL authority as arguments. [EmbeddingClient.v] takes the
    HTTP exchange, the JSON decoder and the parser of HTTP dates.
    The inner session manager of [HttpTransport.v] appears as steps.
    Each has a concrete instance for the witnesses. The embedding provider is
    the relation [answers] between a text and the vectors it may answer; a
    batch of the right length is answered text by text. What a tool's program
    meets (the provider, the admission, the in-flight set, the task set) is
    [Surroundings]. Claim tokens and the ids of new memories and contexts are
    ULIDs, arguments of the operations: where a theorem needs them to be new,
    it says so.

    ** Fuel

    [uf_find] runs on one more than the number of elements and
    [context_is_ancestor] on one more than the number of records; the theorems
    show that both suffice. [retry_transient] needs one more than
    [max_retries]. The paged scan runs on [scan_fuel], the pages its cap
    on scanned rows admits and one more; the adaptive vector search on [search_fuel] rounds, which its
    cap on the number of rounds bounds. [chain] runs on one more than the
    number of contexts, the walks of [ContextSelect] on two more, and
    [closure] needs a round per row. [expand_frontier] runs on two more than
    the number of candidates, each of which enters the frontier of a component
    at most once. Other recursion is structural; a program ([Programs.prog])
    is a well-founded tree and needs no fuel.

    ** Not modelled

    The PostgreSQL store (a second implementation of the same traits in SQL
    of another dialect), schema migration and backup (SQL text and file
    copies), SQLite opening and leases (operating-system locks), the HTTP
    server and the MCP session protocol behind [http_transport.rs], terminal
    UI, command line and diagnostics (input and output around the engine). FTS5, BM25, the sqlite-vec index and the
    ONNX runtime are engines of other packages. The admission gate of the
    reranker ([reranker/gate.rs]), the rendering of the model reports and the
    timing of the reranker's probe task are not modelled.
    Of the embedding report the inspection of PostgreSQL and the rendering,
    and the semaphore of [embedding/limited.rs], are not modelled; nor is the
    configuration report of [config/operator.rs]. The JSON schemas of the tools and their router are not
    modelled. *)
From stdpp Require Import base.
