(* ===== verification/Text.v ===== *)
(** * Text: Rust strings

    A Rust [str] is its UTF-8 byte sequence, a [String.string] here, so that
    [len()] is the byte length and the derived ordering is the byte order.
    [trim] removes the encodings of the Unicode White_Space characters, the
    set [char::is_whitespace] tests. The Unicode case mapping is the class
    [UnicodeCase]: a total function with the law the code relies on (on ASCII
    text it is ASCII case folding). *)
From Stdlib Require Import ZArith Lia.
From stdpp Require Import base list option strings pretty.
From S2P Require Import Prelude.

Definition bytes (s : string) : list Ascii.ascii := String.list_ascii_of_string s.
Definition of_bytes (l : list Ascii.ascii) : string := String.string_of_list_ascii l.

Lemma of_bytes_bytes s : of_bytes (bytes s) = s.
Proof. apply String.string_of_list_ascii_of_string. Qed.
Lemma bytes_of_bytes l : bytes (of_bytes l) = l.
Proof. apply String.list_ascii_of_string_of_list_ascii. Qed.

#[export] Instance bytes_inj : Inj (=) (=) bytes.
Proof. intros s1 s2 H. by rewrite <-(of_bytes_bytes s1), H, of_bytes_bytes. Qed.

(** [str::len]: the number of bytes. *)
Definition byte_len (s : string) : Z := len (bytes s).

Definition byte (n : N) : Ascii.ascii := Ascii.ascii_of_N n.
Definition byte_val (c : Ascii.ascii) : N := Ascii.N_of_ascii c.

(** [str::is_empty]. *)
Definition str_is_empty (s : string) : bool :=
  match s with EmptyString => true | _ => false end.

Definition starts_with (p l : list Ascii.ascii) : bool := bool_decide (take (length p) l = p).

(** [str::strip_prefix] on bytes. *)
Fixpoint strip_prefix (p l : list Ascii.ascii) : option (list Ascii.ascii) :=
  match p, l with
  | [], _ => Some l
  | a :: p', b :: l' => if Ascii.eqb a b then strip_prefix p' l' else None
  | _ :: _, [] => None
  end.

Lemma strip_prefix_Some p l r : strip_prefix p l = Some r ↔ l = p ++ r.
Proof.
  revert l; induction p as [|a p IH]; intros l; cbn; [naive_solver|].
  destruct l as [|b l]; [naive_solver|].
  destruct (Ascii.eqb_spec a b) as [->|Hne]; [rewrite IH; naive_solver | naive_solver].
Qed.

(** The UTF-8 encodings of the White_Space characters: U+0009..U+000D,
    U+0020, U+0085, U+00A0, U+1680, U+2000..U+200A, U+2028, U+2029, U+202F,
    U+205F, U+3000. *)
Definition white_space : list (list Ascii.ascii) :=
  map (λ n, [byte n]) [9; 10; 11; 12; 13; 32]%N ++
  map (λ n, [byte 194; byte n]) [133; 160]%N ++
  [[byte 225; byte 154; byte 128]] ++
  map (λ n, [byte 226; byte 128; byte n])
      [128; 129; 130; 131; 132; 133; 134; 135; 136; 137; 138; 168; 169; 175]%N ++
  [[byte 226; byte 129; byte 159]; [byte 227; byte 128; byte 128]].

(** Strip the first of the given encodings that is a prefix. *)
Fixpoint strip_one (encs : list (list Ascii.ascii)) (l : list Ascii.ascii) : option (list Ascii.ascii) :=
  match encs with
  | [] => None
  | p :: encs' => match strip_prefix p l with Some r => Some r | None => strip_one encs' l end
  end.

(** Strip as many as possible; [fuel = length l] is enough because every
    encoding is non-empty. *)
Fixpoint strip_all (encs : list (list Ascii.ascii)) (fuel : nat) (l : list Ascii.ascii) : list Ascii.ascii :=
  match fuel with
  | O => l
  | S fuel' => match strip_one encs l with Some r => strip_all encs fuel' r | None => l end
  end.

Definition trim_start_bytes (l : list Ascii.ascii) : list Ascii.ascii :=
  strip_all white_space (length l) l.
Definition trim_end_bytes (l : list Ascii.ascii) : list Ascii.ascii :=
  rev (strip_all (map (@rev _) white_space) (length l) (rev l)).

(** [str::trim]. *)
Definition trim (s : string) : string :=
  of_bytes (trim_end_bytes (trim_start_bytes (bytes s))).

(** [s.trim().is_empty()]. *)
Definition is_blank (s : string) : bool := str_is_empty (trim s).

Arguments trim : simpl never.
Arguments is_blank : simpl never.

Lemma strip_one_Some encs l r :
  strip_one encs l = Some r → ∃ p, p ∈ encs ∧ l = p ++ r.
Proof.
  induction encs as [|p encs IH]; cbn; [done|].
  destruct (strip_prefix p l) as [r'|] eqn:Hp.
  - intros [= ->]. apply strip_prefix_Some in Hp. exists p. split; [left | done].
  - intros H. destruct (IH H) as (q & Hq & ->). exists q. split; [by right | done].
Qed.

Lemma strip_one_None encs l : strip_one encs l = None ↔ ∀ p r, p ∈ encs → l ≠ p ++ r.
Proof.
  induction encs as [|p encs IH]; cbn.
  - split; [|done]. intros _ p r Hp. by apply elem_of_nil in Hp.
  - destruct (strip_prefix p l) as [r'|] eqn:Hp.
    + apply strip_prefix_Some in Hp. split; [done|]. intros H. by destruct (H p r'); [left|].
    + rewrite IH. split; intros H q r.
      * intros [->|Hq]%elem_of_cons; [|by apply H].
        intros ->. rewrite (proj2 (strip_prefix_Some p (p ++ r) r)) in Hp; done.
      * intros Hq. apply H. by right.
Qed.

Lemma strip_all_suffix encs n l : ∃ p, l = p ++ strip_all encs n l.
Proof.
  revert l; induction n as [|n IH]; intros l; cbn; [by exists []|].
  destruct (strip_one encs l) as [r|] eqn:Hr; [|by exists []].
  destruct (strip_one_Some _ _ _ Hr) as (p & _ & ->).
  destruct (IH r) as [q Hq]. exists (p ++ q). rewrite <-app_assoc. by f_equal.
Qed.

Lemma strip_all_fixed encs n l :
  Forall (λ p, p ≠ []) encs → (length l ≤ n)%nat → strip_one encs (strip_all encs n l) = None.
Proof.
  intros Hne. revert l; induction n as [|n IH]; intros l Hl; cbn.
  - destruct l; [|cbn in Hl; lia]. apply strip_one_None. intros p r Hp Heq.
    rewrite Forall_forall in Hne. apply Hne in Hp. destruct p; done.
  - destruct (strip_one encs l) as [r|] eqn:Hr; [|done].
    apply IH. destruct (strip_one_Some _ _ _ Hr) as (p & Hp & ->).
    rewrite Forall_forall in Hne. apply Hne in Hp. destruct p; [done|].
    rewrite length_app in Hl. cbn in Hl. lia.
Qed.

Lemma strip_all_id encs n l : strip_one encs l = None → strip_all encs n l = l.
Proof. destruct n; cbn; [done|]. by intros ->. Qed.

Lemma white_space_nonempty : Forall (λ p, p ≠ []) white_space.
Proof. repeat constructor; discriminate. Qed.
Lemma white_space_rev_nonempty : Forall (λ p, p ≠ []) (map (@rev _) white_space).
Proof. repeat constructor; discriminate. Qed.

(** Trimming keeps a contiguous part of the string. *)
Lemma trim_infix s : ∃ p q, bytes s = p ++ bytes (trim s) ++ q.
Proof.
  unfold trim. rewrite bytes_of_bytes.
  destruct (strip_all_suffix white_space (length (bytes s)) (bytes s)) as [p Hp].
  fold (trim_start_bytes (bytes s)) in Hp.
  set (m := trim_start_bytes (bytes s)) in *.
  destruct (strip_all_suffix (map (@rev _) white_space) (length m) (rev m)) as [q Hq].
  exists p, (rev q). rewrite Hp. f_equal.
  rewrite <-(rev_involutive m) at 1. rewrite Hq, rev_app_distr. done.
Qed.

Lemma trim_no_leading s : strip_one white_space (bytes (trim s)) = None.
Proof.
  pose proof (strip_all_fixed white_space (length (bytes s)) (bytes s) white_space_nonempty (le_n _)) as H.
  fold (trim_start_bytes (bytes s)) in H. unfold trim. rewrite bytes_of_bytes.
  set (m := trim_start_bytes (bytes s)) in *.
  destruct (strip_all_suffix (map (@rev _) white_space) (length m) (rev m)) as [q Hq].
  apply strip_one_None. intros p r Hp Heq. rewrite strip_one_None in H.
  apply (H p (r ++ rev q)); [done|].
  rewrite <-(rev_involutive m), Hq, rev_app_distr. fold (trim_end_bytes m).
  unfold trim_end_bytes in *. rewrite Heq. by rewrite <-app_assoc.
Qed.

Lemma trim_no_trailing s : strip_one (map (@rev _) white_space) (rev (bytes (trim s))) = None.
Proof.
  unfold trim, trim_end_bytes. rewrite bytes_of_bytes, rev_involutive.
  apply strip_all_fixed; [apply white_space_rev_nonempty | rewrite length_rev; done].
Qed.

(** [trim] is idempotent: a trimmed value is its own normal form. *)
Lemma trim_idemp s : trim (trim s) = trim s.
Proof.
  unfold trim at 1. unfold trim_start_bytes. rewrite strip_all_id by apply trim_no_leading.
  unfold trim_end_bytes. rewrite strip_all_id by apply trim_no_trailing.
  rewrite rev_involutive. apply of_bytes_bytes.
Qed.

Lemma trim_len s : byte_len (trim s) ≤ byte_len s.
Proof.
  destruct (trim_infix s) as (p & q & H). unfold byte_len. rewrite H, !len_app.
  pose proof (len_nonneg p). pose proof (len_nonneg q). lia.
Qed.

Lemma trim_same_len s : byte_len (trim s) = byte_len s → trim s = s.
Proof.
  destruct (trim_infix s) as (p & q & H). unfold byte_len. rewrite H, !len_app. intros Hl.
  pose proof (len_nonneg p). pose proof (len_nonneg q). unfold len in *.
  destruct p; [|cbn in *; lia]. destruct q; [|cbn in *; lia].
  apply bytes_inj. rewrite H. cbn. by rewrite app_nil_r.
Qed.

Lemma str_is_empty_true s : str_is_empty s = true ↔ s = "".
Proof. by destruct s. Qed.
Lemma str_is_empty_false s : str_is_empty s = false ↔ s ≠ "".
Proof. destruct s; cbn; naive_solver. Qed.

#[export] Hint Rewrite trim_idemp : lh_rw.
#[export] Hint Resolve trim_len : localhold.

(** ** Case *)

Definition is_ascii_upper (c : Ascii.ascii) : bool :=
  (65 <=? byte_val c)%N && (byte_val c <=? 90)%N.
Definition ascii_lower (c : Ascii.ascii) : Ascii.ascii :=
  if is_ascii_upper c then byte (byte_val c + 32) else c.

(** [str::to_ascii_lowercase]. *)
Definition to_ascii_lowercase (s : string) : string := of_bytes (map ascii_lower (bytes s)).

(** [str::is_ascii]. *)
Definition is_ascii (s : string) : bool := forallb (λ c, byte_val c <? 128)%N (bytes s).

Lemma ascii_lower_not_upper c : is_ascii_upper (ascii_lower c) = false.
Proof. destruct c as [[] [] [] [] [] [] [] []]; reflexivity. Qed.
Lemma ascii_lower_idemp c : ascii_lower (ascii_lower c) = ascii_lower c.
Proof. unfold ascii_lower at 1. by rewrite ascii_lower_not_upper. Qed.
Lemma to_ascii_lowercase_idemp s : to_ascii_lowercase (to_ascii_lowercase s) = to_ascii_lowercase s.
Proof.
  unfold to_ascii_lowercase. rewrite bytes_of_bytes, map_map.
  f_equal. apply map_ext, ascii_lower_idemp.
Qed.
#[export] Hint Rewrite to_ascii_lowercase_idemp : lh_rw.

(** [str::to_lowercase] maps through the Unicode tables of the Rust standard
    library, which the model does not copy: the interface keeps the mapping
    abstract and states what the code relies on. *)
Class UnicodeCase := {
  to_lowercase : string → string;
  to_lowercase_ascii : ∀ s, is_ascii s = true → to_lowercase s = to_ascii_lowercase s;
}.

(** The instance for ASCII text, used where a theorem is applied to concrete
    strings. *)
#[local] Instance AsciiCase : UnicodeCase :=
  {| to_lowercase := to_ascii_lowercase; to_lowercase_ascii _ _ := eq_refl |}.

(** ** Splitting and joining *)

Fixpoint concat_with (sep : string) (l : list string) : string :=
  match l with
  | [] => ""
  | [x] => x
  | x :: l' => (x ++ sep ++ concat_with sep l')%string
  end.

(** [str::split(c)] for a single-byte separator. *)
Fixpoint split_bytes (c : Ascii.ascii) (l cur : list Ascii.ascii) : list (list Ascii.ascii) :=
  match l with
  | [] => [rev cur]
  | a :: l' => if Ascii.eqb a c then rev cur :: split_bytes c l' [] else split_bytes c l' (a :: cur)
  end.
Definition split_on (c : Ascii.ascii) (s : string) : list string :=
  map of_bytes (split_bytes c (bytes s) []).

(** Is [p] a contiguous part of [l] ([str::contains])? *)
Fixpoint is_infix (p l : list Ascii.ascii) : bool :=
  match strip_prefix p l with
  | Some _ => true
  | None => match l with [] => false | _ :: l' => is_infix p l' end
  end.
Definition str_contains (s p : string) : bool := is_infix (bytes p) (bytes s).

Lemma is_infix_true p l : is_infix p l = true ↔ ∃ a b, l = a ++ p ++ b.
Proof.
  induction l as [|c l IH]; cbn.
  - destruct (strip_prefix p []) as [r|] eqn:Hp.
    + apply strip_prefix_Some in Hp. split; [|done]. intros _. by exists [], r.
    + split; [done|]. intros (a & b & H). destruct a, p; naive_solver.
  - destruct (strip_prefix p (c :: l)) as [r|] eqn:Hp.
    + apply strip_prefix_Some in Hp. split; [|done]. intros _. by exists [], r.
    + rewrite IH. split.
      * intros (a & b & ->). by exists (c :: a), b.
      * intros (a & b & H). destruct a as [|a0 a]; cbn in H.
        -- by rewrite (proj2 (strip_prefix_Some p (c :: l) b)) in Hp.
        -- injection H as -> H. by exists a, b.
Qed.
