(* ===== verification/Floats.v ===== *)
(** * Floats: IEEE-754 binary64 and binary32

    The code's [f64] and [f32] values are [spec_float]s of the Standard
    Library, the executable IEEE-754 model, at precision 53 (emax 1024) and
    24 (emax 128). There is one NaN: the Rust reference leaves the sign and
    payload of an arithmetic NaN unspecified. [total_cmp] is written like
    the library's, as an integer comparison of the sign-adjusted bits. *)
From Stdlib Require Import ZArith Lia.
From Stdlib Require Export Floats.SpecFloat.
From stdpp Require Import base list option.
From S2P Require Import Prelude.

Abbreviation f64 := spec_float.

#[export] Instance spec_float_eq_dec : EqDecision spec_float.
Proof. solve_decision. Defined.

Definition fadd : f64 → f64 → f64 := SFadd 53 1024.
Definition fsub : f64 → f64 → f64 := SFsub 53 1024.
Definition fmul : f64 → f64 → f64 := SFmul 53 1024.
Definition fdiv : f64 → f64 → f64 := SFdiv 53 1024.
Definition fsqrt : f64 → f64 := SFsqrt 53 1024.
Definition fltb : f64 → f64 → bool := SFltb.
Definition fleb : f64 → f64 → bool := SFleb.
Definition feqb : f64 → f64 → bool := SFeqb.

(** [n as f64], rounded to nearest even. *)
Definition f64_of_Z (n : Z) : f64 := binary_normalize 53 1024 n 0 false.
(** The literal [n/d]: the correctly rounded quotient (both exactly
    representable). *)
Definition f64_lit (n d : Z) : f64 := fdiv (f64_of_Z n) (f64_of_Z d).

Arguments fadd : simpl never.
Arguments fsub : simpl never.
Arguments fmul : simpl never.
Arguments fdiv : simpl never.
Arguments fltb : simpl never.
Arguments fleb : simpl never.
Arguments feqb : simpl never.
Arguments f64_of_Z : simpl never.
Arguments f64_lit : simpl never.

Definition f0 : f64 := S754_zero false.
Definition f1 : f64 := f64_of_Z 1.

Definition is_finite (f : f64) : bool :=
  match f with S754_zero _ | S754_finite _ _ _ => true | _ => false end.
Definition is_nan (f : f64) : bool :=
  match f with S754_nan => true | _ => false end.

(** [f64::clamp]: keeps NaN, and [-0.0] when the lower bound is [0.0]. *)
Definition fclamp (x lo hi : f64) : f64 :=
  let x := if fltb x lo then lo else x in
  if fltb hi x then hi else x.

(** [f64::max] and [f64::min]: the other operand of a NaN. *)
Definition fmax (a b : f64) : f64 :=
  if is_nan a then b else if is_nan b then a else if fltb a b then b else a.
Definition fmin (a b : f64) : f64 :=
  if is_nan a then b else if is_nan b then a else if fltb b a then b else a.

(** The magnitude bits of a canonical binary64 value: a uniform formula for
    normal and subnormal numbers, since the implicit bit is in the mantissa. *)
Definition f64_magnitude (f : f64) : Z :=
  match f with
  | S754_zero _ => 0
  | S754_finite _ m e => (e + 1074) * 2 ^ 52 + Z.pos m
  | S754_infinity _ => 2047 * 2 ^ 52
  | S754_nan => 2047 * 2 ^ 52 + 2 ^ 51
  end.
Definition f64_sign (f : f64) : bool :=
  match f with
  | S754_zero s | S754_infinity s | S754_finite s _ _ => s
  | S754_nan => false
  end.
(** The key [total_cmp] compares: [bits ^ ((bits >> 63) as u64 >> 1)] of the
    sign-magnitude bits as an [i64]. *)
Definition total_key (f : f64) : Z :=
  if f64_sign f then - f64_magnitude f - 1 else f64_magnitude f.
Definition total_cmp (a b : f64) : comparison := Z.compare (total_key a) (total_key b).

(** A value the arithmetic produces: canonical mantissa and exponent. *)
Definition f64_valid (f : f64) : bool := valid_binary 53 1024 f.

Lemma f64_valid_finite s m e :
  f64_valid (S754_finite s m e) = true →
  -1074 ≤ e ≤ 971 ∧ Z.pos m < 2 ^ 53 ∧ (e = -1074 ∨ 2 ^ 52 ≤ Z.pos m).
Proof.
  unfold f64_valid, valid_binary, bounded, canonical_mantissa. rewrite andb_true_iff.
  intros [Hc Hb]. apply Zeq_bool_eq in Hc. apply Z.leb_le in Hb.
  unfold fexp, SpecFloat.emin in Hc. 
  assert (Hd : 2 ^ (Z.pos (digits2_pos m) - 1) ≤ Z.pos m < 2 ^ Z.pos (digits2_pos m)).
  { clear. induction m as [m IH|m IH|]; cbn [digits2_pos].
    - rewrite Pos2Z.inj_succ. replace (Z.succ (Z.pos (digits2_pos m)) - 1) with (Z.succ (Z.pos (digits2_pos m) - 1)) by lia.
      rewrite !Z.pow_succ_r by lia. lia.
    - rewrite Pos2Z.inj_succ. replace (Z.succ (Z.pos (digits2_pos m)) - 1) with (Z.succ (Z.pos (digits2_pos m) - 1)) by lia.
      rewrite !Z.pow_succ_r by lia. lia.
    - cbn. lia. }
  set (d := Z.pos (digits2_pos m)) in *.
  assert (1 ≤ d) by (unfold d; lia).
  split; [lia|]. split.
  - eapply Z.lt_le_trans; [apply Hd|]. apply Z.pow_le_mono_r; lia.
  - destruct (decide (e = -1074)); [by left|right].
    etransitivity; [|apply Hd]. apply Z.pow_le_mono_r; lia.
Qed.

Lemma f64_magnitude_bounds f :
  f64_valid f = true → 0 ≤ f64_magnitude f < 2 ^ 63.
Proof.
  destruct f as [s|s| |s m e]; intros H; [cbn; lia..|].
  apply f64_valid_finite in H. cbn -[Z.mul Z.pow]. lia.
Qed.

(** The bits determine the value. *)
Lemma total_key_inj a b :
  f64_valid a = true → f64_valid b = true → total_key a = total_key b → a = b.
Proof.
  intros Ha Hb. pose proof (f64_magnitude_bounds a Ha). pose proof (f64_magnitude_bounds b Hb).
  unfold total_key. intros Hk.
  assert (Hs : f64_sign a = f64_sign b).
  { destruct (f64_sign a), (f64_sign b); try done; lia. }
  assert (Hm : f64_magnitude a = f64_magnitude b) by (rewrite Hs in Hk; destruct (f64_sign b); lia).
  clear Hk H H0.
  destruct a as [s|s| |s m e], b as [s'|s'| |s' m' e'];
    repeat match goal with H : f64_valid (S754_finite _ _ _) = true |- _ => apply f64_valid_finite in H end;
    cbn -[Z.mul Z.pow f64_valid] in *; subst; try done; try lia.
  assert (e = e') by (destruct (decide (e = -1074)), (decide (e' = -1074)); lia).
  subst. f_equal. lia.
Qed.

Lemma total_cmp_antisym a b : total_cmp b a = CompOpp (total_cmp a b).
Proof. apply Z.compare_antisym. Qed.
Lemma total_cmp_refl a : total_cmp a a = Eq.
Proof. apply Z.compare_refl. Qed.
Lemma total_cmp_trans a b c o : total_cmp a b = o → total_cmp b c = o → total_cmp a c = o.
Proof.
  unfold total_cmp. destruct o; rewrite ?Z.compare_eq_iff, ?Z.compare_lt_iff, ?Z.compare_gt_iff; lia.
Qed.
Lemma total_cmp_eq a b :
  f64_valid a = true → f64_valid b = true → total_cmp a b = Eq → a = b.
Proof. unfold total_cmp. rewrite Z.compare_eq_iff. apply total_key_inj. Qed.

(** Clamping a finite value gives a value that is neither below the lower nor
    above the upper bound. *)
Lemma fltb_irrefl x : fltb x x = false.
Proof.
  destruct x as [s|s| |s m e]; try done; [by destruct s|].
  unfold fltb, SFltb, SFcompare. destruct s; rewrite Z.compare_refl, Pos.compare_refl; done.
Qed.

Lemma fleb_not_fltb a b : fleb a b = true → fltb b a = false.
Proof.
  unfold fleb, fltb, SFleb, SFltb, SFcompare. destruct a as [[]|[]| |[] m e], b as [[]|[]| |[] m' e']; try done.
  all: change (PosDef.Pos.compare_cont Eq m m') with (Pos.compare m m').
  all: change (PosDef.Pos.compare_cont Eq m' m) with (Pos.compare m' m).
  all: rewrite (Z.compare_antisym e' e), (Pos.compare_antisym m' m).
  all: by destruct (Z.compare e' e), (Pos.compare m' m).
Qed.

Lemma fclamp_bounds x lo hi :
  fltb hi lo = false →
  fltb (fclamp x lo hi) lo = false ∧ fltb hi (fclamp x lo hi) = false.
Proof.
  intros Hb. unfold fclamp.
  destruct (fltb x lo) eqn:Hlo.
  - rewrite Hb. split; [apply fltb_irrefl | done].
  - destruct (fltb hi x) eqn:Hhi; [|done]. split; [done | apply fltb_irrefl].
Qed.

(** ** binary32 *)

Definition f32_mul : spec_float → spec_float → spec_float := SFmul 24 128.
Definition f32_add : spec_float → spec_float → spec_float := SFadd 24 128.
Definition f32_sqrt : spec_float → spec_float := SFsqrt 24 128.
Definition f32_div : spec_float → spec_float → spec_float := SFdiv 24 128.
Definition f32_of_Z (n : Z) : spec_float := binary_normalize 24 128 n 0 false.
(** [x as f64]: exact widening. *)
Definition f32_to_f64 (x : spec_float) : f64 :=
  match x with
  | S754_finite s m e => binary_normalize 53 1024 (if s then Z.neg m else Z.pos m) e s
  | _ => x
  end.

Example f64_lit_half : f64_lit 1 2 = S754_finite false 4503599627370496 (-53).
Proof. reflexivity. Qed.

(** ** Fused multiply-add, minus, 1e-9 and other operations *)

(** The exact value of a finite number is [mantissa * 2^exponent]. *)
Definition exact_of (f : f64) : option (Z * Z) :=
  match f with
  | S754_zero _ => Some (0, 0)
  | S754_finite s m e => Some (if s then Z.neg m else Z.pos m, e)
  | _ => None
  end.

(** [a.mul_add(b, c)]: [a * b + c] rounded once. Special values and exact
    zeros behave as in the two-step computation. *)
Definition fma (a b c : f64) : f64 :=
  match exact_of a, exact_of b, exact_of c with
  | Some (ma, ea), Some (mb, eb), Some (mc, ec) =>
      if ma * mb =? 0 then fadd (fmul a b) c
      else
        let ep := ea + eb in
        let e := Z.min ep ec in
        let m := ma * mb * 2 ^ (ep - e) + mc * 2 ^ (ec - e) in
        binary_normalize 53 1024 m e false
  | Some _, Some _, None => c
  | _, _, _ => fadd (fmul a b) c
  end.
Arguments fma : simpl never.

Definition fopp (x : f64) : f64 := SFopp x.
Definition f_neg_infinity : f64 := S754_infinity true.
(** [f64::EPSILON] = 2^-52. *)
Definition f_epsilon : f64 := S754_finite false 4503599627370496 (-104).
(** The literal [1e-9]: both 1 and 10^9 are exact, so the quotient is the
    correctly rounded literal. *)
Definition f_1em9 : f64 := f64_lit 1 1000000000.

Example fma_rounds_once :
  fma (f64_of_Z 3) (f64_lit 1 2) (f64_of_Z 1) = f64_lit 5 2.
Proof. vm_compute. reflexivity. Qed.
