(* ===== verification/Parsing.v ===== *)
(** * Parsing: the standard library's [FromStr] and number formats

    Unsigned integers, booleans, binary64 numbers (correctly rounded) and IP
    addresses, as the configuration reads them from text, and binary64 numbers
    printed with a fixed number of decimals. *)
From Stdlib Require Import ZArith Lia.
From stdpp Require Import base list option strings pretty.
From S2P Require Import Prelude Text Floats.

(** ** Integers and booleans *)

(** [char::to_digit]. *)
Definition to_digit (radix : Z) (c : Ascii.ascii) : option Z :=
  let n := Z.of_N (byte_val c) in
  let d := if (48 <=? n) && (n <=? 57) then n - 48
           else if (97 <=? n) && (n <=? 122) then n - 87
           else if (65 <=? n) && (n <=? 90) then n - 55 else 36 in
  if d <? radix then Some d else None.
(** The digits, with the overflow checks of the accumulation. *)
Fixpoint parse_digits (max : Z) (l : list Ascii.ascii) (value : Z) : option Z :=
  match l with
  | [] => Some value
  | c :: l => d ← to_digit 10 c;
              if value * 10 + d <=? max then parse_digits max l (value * 10 + d) else None
  end.
(** [u16], [u32], [u64] and [usize], by their largest value. *)
Definition parse_uint (max : Z) (s : string) : option Z :=
  match bytes s with
  | [] => None
  | c :: l => if Ascii.eqb c (byte 43) then if bool_decide (l = []) then None else parse_digits max l 0
              else parse_digits max (c :: l) 0
  end.
Definition parse_bool (s : string) : option bool :=
  if String.eqb s "true" then Some true else if String.eqb s "false" then Some false else None.

(** ** Binary64 *)

(** The value [mantissa * 10 ^ exponent], rounded to nearest even: a quotient
    of more than 55 bits with a sticky last bit rounds like the exact one. *)
Definition f64_of_decimal (negative : bool) (mantissa exponent : Z) : f64 :=
  if mantissa =? 0 then S754_zero negative
  else
    let signed n := if negative then - n else n in
    if 0 <=? exponent then binary_normalize 53 1024 (signed (mantissa * 10 ^ exponent)) 0 negative
    else
      let divisor := 10 ^ (- exponent) in
      let shift := Z.max 0 (Z.log2 divisor - Z.log2 mantissa + 64) in
      let '(q, r) := Z.div_eucl (Z.shiftl mantissa shift) divisor in
      binary_normalize 53 1024 (signed (2 * q + (if r =? 0 then 0 else 1))) (- (shift + 1)) negative.
Fixpoint decimal_digits (l : list Ascii.ascii) (value count : Z) : Z * Z * list Ascii.ascii :=
  match l with
  | c :: l' => match to_digit 10 c with
               | Some d => decimal_digits l' (value * 10 + d) (count + 1)
               | None => (value, count, l)
               end
  | [] => (value, count, [])
  end.
(** An exponent of more than five digits no longer grows. *)
Fixpoint exponent_digits (l : list Ascii.ascii) (value : Z) : Z * list Ascii.ascii :=
  match l with
  | c :: l' => match to_digit 10 c with
               | Some d => exponent_digits l' (if value <? 65536 then value * 10 + d else value)
               | None => (value, l)
               end
  | [] => (value, [])
  end.
Definition parse_scientific (l : list Ascii.ascii) : option (Z * list Ascii.ascii) :=
  let '(negative, l) := match l with
    | c :: l' => if Ascii.eqb c (byte 45) then (true, l') else if Ascii.eqb c (byte 43) then (false, l') else (false, l)
    | [] => (false, [])
    end in
  match l with
  | c :: _ => match to_digit 10 c with
              | Some _ => let '(e, rest) := exponent_digits l 0 in Some (if negative then - e else e, rest)
              | None => None
              end
  | [] => None
  end.
Definition parse_number (l : list Ascii.ascii) : option (Z * Z) :=
  let '(mantissa, int_digits, rest) := decimal_digits l 0 0 in
  let '(mantissa, fraction_digits, rest) := match rest with
    | c :: rest' => if Ascii.eqb c (byte 46)
                    then let '(m, n, r) := decimal_digits rest' mantissa int_digits in (m, n - int_digits, r)
                    else (mantissa, 0, rest)
    | [] => (mantissa, 0, [])
    end in
  if int_digits + fraction_digits =? 0 then None
  else match rest with
       | [] => Some (mantissa, - fraction_digits)
       | c :: rest => if Ascii.eqb (ascii_lower c) (byte 101) then
                        '(e, rest) ← parse_scientific rest;
                        if bool_decide (rest = []) then Some (mantissa, e - fraction_digits) else None
                      else None
       end.
Definition parse_f64 (s : string) : option f64 :=
  let '(negative, l) := match bytes s with
    | c :: l' => if Ascii.eqb c (byte 45) then (true, l') else if Ascii.eqb c (byte 43) then (false, l') else (false, bytes s)
    | [] => (false, [])
    end in
  match parse_number l with
  | Some (mantissa, exponent) => Some (f64_of_decimal negative mantissa exponent)
  | None => let name := to_ascii_lowercase (of_bytes l) in
            if String.eqb name "nan" then Some S754_nan
            else if String.eqb name "inf" || String.eqb name "infinity" then Some (S754_infinity negative)
            else None
  end.

Example parse_f64_literals :
  map parse_f64 ["0.7"; "1e-3"; "-2.5E2"; "180"; ".5"; "4."; "1e400"; "-0"; "Infinity"; "."; "1e"; "0x1"; ""]
  = [Some (f64_lit 7 10); Some (f64_lit 1 1000); Some (f64_of_Z (-250)); Some (f64_of_Z 180); Some (f64_lit 1 2); Some (f64_of_Z 4);
     Some (S754_infinity false); Some (S754_zero true); Some (S754_infinity false); None; None; None; None].
Proof. vm_compute. reflexivity. Qed.

(** [{:.n}]: the exact value rounded to [n] decimals, half to even. *)
Definition div_half_even (n d : Z) : Z :=
  let '(q, r) := Z.div_eucl n d in
  match Z.compare (2 * r) d with Lt => q | Gt => q + 1 | Eq => if Z.even q then q else q + 1 end.
Definition zeros (n : nat) : string := of_bytes (replicate n (byte 48)).
Definition fixed_digits (digits : nat) (scaled : Z) : string :=
  let unit := 10 ^ Z.of_nat digits in
  let fraction := pretty (scaled mod unit) in
  pretty (scaled / unit) +:+ (if (digits =? 0)%nat then "" else "." +:+ zeros (digits - String.length fraction) +:+ fraction).
Definition f64_fixed (digits : nat) (f : f64) : string :=
  let sign (negative : bool) := if negative then "-" else "" in
  match f with
  | S754_nan => "NaN"
  | S754_infinity s => sign s +:+ "inf"
  | S754_zero s => sign s +:+ fixed_digits digits 0
  | S754_finite s m e =>
      let n := Z.pos m * 10 ^ Z.of_nat digits in
      sign s +:+ fixed_digits digits (if 0 <=? e then Z.shiftl n e else div_half_even n (Z.shiftl 1 (- e)))
  end.

Example f64_fixed_texts :
  [f64_fixed 1 (f64_lit 985 10); f64_fixed 6 (f64_lit 9 10); f64_fixed 1 (f64_lit 1 4); f64_fixed 1 (f64_lit (-3) 4); f64_fixed 3 (f64_of_Z 1000)]
  = ["98.5"; "0.900000"; "0.2"; "-0.8"; "1000.000"].
Proof. vm_compute. reflexivity. Qed.

(** ** IP addresses *)

Inductive IpAddr := V4 (octets : list Z) | V6 (segments : list Z).
#[export] Instance ip_addr_eq_dec : EqDecision IpAddr.
Proof. solve_decision. Defined.
(** What remains after a value, or nothing read. *)
Definition text_reader (A : Type) : Type := list Ascii.ascii → option (A * list Ascii.ascii).

Definition read_given_char (c : Ascii.ascii) : text_reader unit := λ l,
  match l with c' :: l => if Ascii.eqb c c' then Some ((), l) else None | [] => None end.
(** The separator comes before every part but the first. *)
Definition read_separator {A} (sep : Ascii.ascii) (index : nat) (inner : text_reader A) : text_reader A := λ l,
  match index with
  | O => inner l
  | S _ => '(_, l) ← read_given_char sep l; inner l
  end.
Fixpoint read_digits (radix max : Z) (max_digits : nat) (l : list Ascii.ascii) (value : Z) (count : nat) : option (Z * nat * list Ascii.ascii) :=
  match l with
  | c :: l' => match to_digit radix c with
               | Some d => if max <? value * radix + d then None
                           else if (max_digits <? S count)%nat then None
                           else read_digits radix max max_digits l' (value * radix + d) (S count)
               | None => Some (value, count, l)
               end
  | [] => Some (value, count, [])
  end.
Definition read_number (radix max : Z) (max_digits : nat) (allow_zero_prefix : bool) : text_reader Z := λ l,
  let has_leading_zero := match l with c :: _ => Ascii.eqb c (byte 48) | [] => false end in
  '(value, count, rest) ← read_digits radix max max_digits l 0 0;
  if (count =? 0)%nat then None
  else if negb allow_zero_prefix && has_leading_zero && (1 <? count)%nat then None
  else Some (value, rest).
Fixpoint read_octets (n index : nat) : text_reader (list Z) := λ l,
  match n with
  | O => Some ([], l)
  | S n => '(octet, l) ← read_separator (byte 46) index (read_number 10 255 3 false) l;
           '(octets, l) ← read_octets n (S index) l;
           Some (octet :: octets, l)
  end.
Definition read_ipv4_addr : text_reader (list Z) := read_octets 4 0.
Definition COLON : Ascii.ascii := byte 58.
(** At most [n] groups, and whether the last two are an IPv4 address. *)
Fixpoint read_groups (n index : nat) (l : list Ascii.ascii) : list Z * bool * list Ascii.ascii :=
  match n with
  | O => ([], false, l)
  | S n =>
      match (if (1 <=? n)%nat then read_separator COLON index read_ipv4_addr l else None) with
      | Some ([a; b; c; d], l) => ([a * 256 + b; c * 256 + d], true, l)
      | _ => match read_separator COLON index (read_number 16 65535 4 true) l with
             | Some (group, l) => let '(groups, ipv4, l) := read_groups n (S index) l in (group :: groups, ipv4, l)
             | None => ([], false, l)
             end
      end
  end.
Definition read_ipv6_addr : text_reader (list Z) := λ l,
  let '(head, head_ipv4, l) := read_groups 8 0 l in
  if (length head =? 8)%nat then Some (head, l)
  else if (head_ipv4 : bool) then None
  else
    '(_, l) ← read_given_char COLON l;
    '(_, l) ← read_given_char COLON l;
    let '(tail, _, l) := read_groups (8 - (length head + 1)) 0 l in
    Some (head ++ replicate (8 - length head - length tail) 0 ++ tail, l).
Definition parse_ip_addr (s : string) : option IpAddr :=
  '(address, rest) ← (match read_ipv4_addr (bytes s) with
                      | Some (octets, rest) => Some (V4 octets, rest)
                      | None => '(segments, rest) ← read_ipv6_addr (bytes s); Some (V6 segments, rest)
                      end);
  if bool_decide (rest = []) then Some address else None.
Definition is_loopback (address : IpAddr) : bool :=
  match address with
  | V4 octets => bool_decide (head octets = Some 127)
  | V6 segments => bool_decide (segments = [0; 0; 0; 0; 0; 0; 0; 1])
  end.

Example parse_ip_addresses :
  map parse_ip_addr ["127.0.0.1"; "127.0.0.01"; "::1"; "1::"; "::"; "::ffff:1.2.3.4"; "1:2:3:4:5:6:7:8"; "[::1]"; "1.2.3"; "256.1.1.1"; "12345::"]
  = [Some (V4 [127; 0; 0; 1]); None; Some (V6 [0; 0; 0; 0; 0; 0; 0; 1]); Some (V6 [1; 0; 0; 0; 0; 0; 0; 0]); Some (V6 [0; 0; 0; 0; 0; 0; 0; 0]);
     Some (V6 [0; 0; 0; 0; 0; 65535; 258; 772]); Some (V6 [1; 2; 3; 4; 5; 6; 7; 8]); None; None; None; None].
Proof. vm_compute. reflexivity. Qed.

(** ** Facts *)

Lemma parse_digits_bounds max l value n : 0 ≤ value → parse_digits max l value = Some n → value ≤ n ∧ (l ≠ [] → n ≤ max).
Proof.
  revert value. induction l as [|c l IH]; intros value Hv; cbn; [by intros [= <-]|].
  destruct (to_digit 10 c) as [d|] eqn:Ed; cbn; [|done]. case_match eqn:Em; [|done]. apply Z.leb_le in Em.
  assert (0 ≤ d).
  { unfold to_digit in Ed. pose proof (N2Z.is_nonneg (byte_val c)). repeat case_match; simplify_eq; try lia.
    all: rewrite ?andb_true_iff, ?Z.leb_le in *; lia. }
  intros Hp. destruct (IH (value * 10 + d)) as [Hle Hmax]; [lia|done|]. split; [lia|]. intros _. destruct l as [|c' l]; [|by apply Hmax].
  injection Hp as <-. done.
Qed.
Lemma parse_uint_bounds max s n : parse_uint max s = Some n → 0 ≤ n ≤ max.
Proof.
  unfold parse_uint. destruct (bytes s) as [|c l] eqn:E; [done|]. case_match.
  - case_bool_decide; [done|]. intros Hp. destruct (parse_digits_bounds max l 0 n) as [? Hm]; [lia|done|]. split; [done|]. by apply Hm.
  - intros Hp. destruct (parse_digits_bounds max (c :: l) 0 n) as [? Hm]; [lia|done|]. split; [done|]. by apply Hm.
Qed.
