(* ===== verification/Errors.v ===== *)
(** * Errors: the error types of [src/src/error.rs]

    Boxed error sources are kept as their message. *)
From Stdlib Require Import ZArith.
From stdpp Require Import base strings option.
From S2P Require Import Prelude.

Record ValidationError := { ve_field : string; ve_message : string }.
#[export] Instance ValidationError_eq_dec : EqDecision ValidationError.
Proof. solve_decision. Defined.
Definition validation_error_new (field message : string) : ValidationError :=
  {| ve_field := field; ve_message := message |}.

Module StoreError.
Inductive t :=
| Database (source : string)
| Serialization (source : string)
| NotFound (what : string)
| Conflict (what : string)
| MigrationFailed (step source : string).
#[global] Instance eq_dec : EqDecision t.
Proof. solve_decision. Defined.
End StoreError.

Module EmbeddingError.
(** Durations are nanoseconds. *)
Inductive t :=
| Transient (source : string)
| RateLimited (source : string) (retry_after : option Z)
| Permanent (source : string)
| Disabled.
#[global] Instance eq_dec : EqDecision t.
Proof. solve_decision. Defined.
Definition retry_after (e : t) : option Z :=
  match e with
  | RateLimited _ retry_after => retry_after
  | Transient _ | Permanent _ | Disabled => None
  end.
Definition is_retryable (e : t) : bool :=
  match e with Transient _ | RateLimited _ _ => true | _ => false end.
(** The [Display] text the [#[error]] attributes derive. *)
Definition to_string (e : t) : string :=
  match e with
  | Transient source => "transient embedding error: " +:+ source
  | RateLimited source _ => "embedding provider rate limited the request: " +:+ source
  | Permanent source => "permanent embedding error: " +:+ source
  | Disabled => "embedding is disabled"
  end.
End EmbeddingError.

Module EngineError.
Inductive t :=
| Config (source : string)
| Validation (e : ValidationError)
| Store (e : StoreError.t)
| EmbeddingUnavailable (what : string)
| SearchUnavailable (what : string)
| Embedding (e : EmbeddingError.t)
| ShuttingDown.
#[global] Instance eq_dec : EqDecision t.
Proof. solve_decision. Defined.
End EngineError.

(** The [Display] texts the [#[error]] attributes derive. *)
Definition validation_error_text (e : ValidationError) : string := ve_field e +:+ ": " +:+ ve_message e.
Definition store_error_text (e : StoreError.t) : string :=
  match e with
  | StoreError.Database source => "database error: " +:+ source
  | StoreError.Serialization source => "serialization error: " +:+ source
  | StoreError.NotFound what => "not found: " +:+ what
  | StoreError.Conflict what => "conflict: " +:+ what
  | StoreError.MigrationFailed step _ => "migration " +:+ step +:+ " failed"
  end.
Definition engine_error_text (e : EngineError.t) : string :=
  match e with
  | EngineError.Config source => "config error: " +:+ source
  | EngineError.Validation e => validation_error_text e
  | EngineError.Store e => store_error_text e
  | EngineError.EmbeddingUnavailable what => "embedding unavailable: " +:+ what
  | EngineError.SearchUnavailable what => "search unavailable: " +:+ what
  | EngineError.Embedding e => EmbeddingError.to_string e
  | EngineError.ShuttingDown => "server is shutting down"
  end.
