(* ===== verification/Types.v ===== *)
(** * Types: the domain types of [src/src/types.rs]

    Identities, classification enums with their parsers, the access policy
    and its evaluation, redaction and wire sanitisation, memories,
    provenance, metadata, updates, filters and results. Timestamps are
    instants ([DateTime], nanoseconds since the epoch); ULIDs are their
    128-bit value. *)
From Stdlib Require Import ZArith Lia.
From stdpp Require Import base list option strings.
From S2P Require Import Prelude Text Floats.

Abbreviation DateTime := Z.
Abbreviation MemoryId := N.
Abbreviation ContextId := N.

(** [ParseEnumError(format!("<what>: {other:?}"))]: the message prefix and the
    offending text. *)
Record ParseEnumError := { pe_what : string; pe_other : string }.

Definition normalize_context_key `{UnicodeCase} (value : string) : string :=
  to_lowercase (trim value).

(** ** Classification enums *)

Module MemoryType.
Inductive t := Semantic | Episodic | Procedural.
#[global] Instance eq_dec : EqDecision t.
Proof. solve_decision. Defined.
Definition default : t := Semantic.
Definition to_string (m : t) : string :=
  match m with
  | Semantic => "semantic"
  | Episodic => "episodic"
  | Procedural => "procedural"
  end.
Definition from_str (s : string) : result ParseEnumError t :=
  if String.eqb s "semantic" then Ok Semantic
  else if String.eqb s "episodic" then Ok Episodic
  else if String.eqb s "procedural" then Ok Procedural
  else Err {| pe_what := "unknown memory type"; pe_other := s |}.
End MemoryType.

Module SearchMode.
Inductive t := Auto | Semantic | Text | Keyword | Hybrid.
#[global] Instance eq_dec : EqDecision t.
Proof. solve_decision. Defined.
Definition to_string (m : t) : string :=
  match m with
  | Auto => "auto"
  | Semantic => "semantic"
  | Text => "text"
  | Keyword => "keyword"
  | Hybrid => "hybrid"
  end.
Definition from_str (s : string) : result ParseEnumError t :=
  let s := trim s in
  if String.eqb s "auto" || String.eqb s "" then Ok Auto
  else if String.eqb s "semantic" then Ok Semantic
  else if String.eqb s "text" then Ok Text
  else if String.eqb s "keyword" then Ok Keyword
  else if String.eqb s "hybrid" then Ok Hybrid
  else Err {| pe_what := "unknown search mode"; pe_other := s |}.
End SearchMode.

Module AuditAction.
Inductive t :=
| Store | Update | Delete | Supersede | BulkDelete | BulkUpdate | Consolidate | Reassign.
#[global] Instance eq_dec : EqDecision t.
Proof. solve_decision. Defined.
Definition to_string (a : t) : string :=
  match a with
  | Store => "store"
  | Update => "update"
  | Delete => "delete"
  | Supersede => "supersede"
  | BulkDelete => "bulk_delete"
  | BulkUpdate => "bulk_update"
  | Consolidate => "consolidate"
  | Reassign => "reassign"
  end.
Definition from_str (s : string) : result ParseEnumError t :=
  if String.eqb s "store" then Ok Store
  else if String.eqb s "update" then Ok Update
  else if String.eqb s "delete" then Ok Delete
  else if String.eqb s "supersede" then Ok Supersede
  else if String.eqb s "bulk_delete" then Ok BulkDelete
  else if String.eqb s "bulk_update" then Ok BulkUpdate
  else if String.eqb s "consolidate" then Ok Consolidate
  else if String.eqb s "reassign" then Ok Reassign
  else Err {| pe_what := "unknown audit action"; pe_other := s |}.
End AuditAction.

Module RedactableField.
Inductive t :=
| Content | Tags | Provenance | Entities | Importance | ExpiresAt
| Unknown (s : string).
#[global] Instance eq_dec : EqDecision t.
Proof. solve_decision. Defined.
Definition to_string (f : t) : string :=
  match f with
  | Content => "content"
  | Tags => "tags"
  | Provenance => "provenance"
  | Entities => "entities"
  | Importance => "importance"
  | ExpiresAt => "expires_at"
  | Unknown s => s
  end.
(** Parsing cannot fail: an unrecognised name is kept as [Unknown]. *)
Definition from_str (s : string) : t :=
  if String.eqb s "content" then Content
  else if String.eqb s "tags" then Tags
  else if String.eqb s "provenance" then Provenance
  else if String.eqb s "entities" then Entities
  else if String.eqb s "importance" then Importance
  else if String.eqb s "expires_at" then ExpiresAt
  else Unknown s.
Definition serialize (f : t) : string := to_string f.
Definition deserialize (s : string) : t := from_str s.
End RedactableField.

Module AccessLevel.
Inductive t := Full | Redacted | Denied.
#[global] Instance eq_dec : EqDecision t.
Proof. solve_decision. Defined.
Definition to_string (l : t) : string :=
  match l with Full => "full" | Redacted => "redacted" | Denied => "denied" end.
End AccessLevel.

Module AccessPolicy.
Inductive t :=
| Public
| Restricted (allowed : list string)
| Redacted (visible_fields : list RedactableField.t).
#[global] Instance eq_dec : EqDecision t.
Proof. solve_decision. Defined.
Definition default : t := Public.
Definition to_string (p : t) : string :=
  match p with Public => "public" | Restricted _ => "restricted" | Redacted _ => "redacted" end.
End AccessPolicy.

Module WriteOutcome.
Inductive t := Applied | NotFound | Denied.
#[global] Instance eq_dec : EqDecision t.
Proof. solve_decision. Defined.
Definition to_string (o : t) : string :=
  match o with Applied => "applied" | NotFound => "not_found" | Denied => "denied" end.
End WriteOutcome.

(** ** Validated strings *)

(** [AgentId::new], [ConversationKey::new] and [EntityType::new] share one
    shape: trim and reject the blank string. *)
Module AgentId.
Record t := mk { as_str : string }.
Definition new (s : string) : option t :=
  let trimmed := trim s in if str_is_empty trimmed then None else Some (mk trimmed).
Definition try_from (s : string) : result string t := ok_or "agent ID cannot be blank" (new s).
End AgentId.

Module ConversationKey.
Record t := mk { as_str : string }.
Definition new (s : string) : option t :=
  let trimmed := trim s in if str_is_empty trimmed then None else Some (mk trimmed).
Definition try_from (s : string) : result string t := ok_or "conversation key cannot be blank" (new s).
End ConversationKey.

Module EntityType.
Record t := mk { as_str : string }.
#[global] Instance eq_dec : EqDecision t.
Proof. solve_decision. Defined.
Definition new (s : string) : option t :=
  let trimmed := trim s in if str_is_empty trimmed then None else Some (mk trimmed).
Definition try_from (s : string) : result string t := ok_or "entity type cannot be blank" (new s).
End EntityType.

Record Entity := { e_name : string; e_type : EntityType.t }.
#[export] Instance Entity_eq_dec : EqDecision Entity.
Proof. solve_decision. Defined.

(** ** Scores *)

Module Importance.
Record t := mk { value : f64 }.
Definition DEFAULT : t := mk (f64_lit 1 2).
(** [clamp_importance] of validation.rs. *)
Definition clamp_importance (v : f64) : f64 :=
  if negb (is_finite v) then f64_lit 1 2 else fclamp v f0 f1.
Definition new (v : f64) : t := mk (clamp_importance v).
End Importance.

Module Confidence.
Record t := mk { value : f64 }.
Definition DEFAULT : t := mk (f64_lit 8 10).
Definition new (v : f64) : t :=
  if negb (is_finite v) then DEFAULT
  else mk (if fltb v f0 then f0 else if fltb f1 v then f1 else v).
End Confidence.

(** ** Memories *)

Record Provenance := {
  source_agent : option string;
  source_conversation : option string;
  origin_conversation : option string;
  source_user : option string;
}.
#[export] Instance Provenance_eq_dec : EqDecision Provenance.
Proof. solve_decision. Defined.
Definition provenance_default : Provenance :=
  {| source_agent := None; source_conversation := None; origin_conversation := None; source_user := None |}.

Record Memory := {
  m_id : MemoryId;
  m_content : string;
  m_tags : list string;
  m_provenance : Provenance;
  m_access_policy : AccessPolicy.t;
  m_created_at : DateTime;
  m_updated_at : DateTime;
  m_record_revision : Z;
  m_expires_at : option DateTime;
  m_has_embedding : bool;
  m_memory_type : MemoryType.t;
  m_importance : Importance.t;
  m_confidence : Confidence.t;
  m_impression_count : Z;
  m_last_impressed_at : option DateTime;
  m_superseded_by : option MemoryId;
  m_activity_mass : f64;
  m_last_used_at : option DateTime;
  m_entities : list Entity;
  m_was_redacted : bool;
}.

(** [Some("")] and whitespace-only callers count as unauthenticated. *)
Definition normalize_caller (caller : option string) : option string :=
  match caller with Some s => if is_blank s then None else Some s | None => None end.

(** [xs.iter().any(|a| a == caller)]. *)
Definition any_eq (caller : string) (xs : list string) : bool :=
  existsb (λ a, String.eqb a caller) xs.

Definition is_owner (p : Provenance) (caller : string) : bool :=
  bool_decide (source_agent p = Some caller).

Definition check_access_level (m : Memory) (caller : option string) : AccessLevel.t :=
  let caller := normalize_caller caller in
  match m_access_policy m with
  | AccessPolicy.Public => AccessLevel.Full
  | AccessPolicy.Restricted allowed =>
      match caller with
      | None => AccessLevel.Denied
      | Some caller =>
          if is_owner (m_provenance m) caller || any_eq caller allowed
          then AccessLevel.Full else AccessLevel.Denied
      end
  | AccessPolicy.Redacted _ =>
      match caller with
      | None => AccessLevel.Denied
      | Some caller =>
          if is_owner (m_provenance m) caller then AccessLevel.Full else AccessLevel.Redacted
      end
  end.

(** [visible_fields.contains(field)]. *)
Definition fields_contain (f : RedactableField.t) (l : list RedactableField.t) : bool :=
  existsb (λ g, bool_decide (g = f)) l.

Definition field_visible_in_view (m : Memory) (field : RedactableField.t) : bool :=
  if negb (m_was_redacted m) then true
  else match m_access_policy m with
       | AccessPolicy.Redacted visible_fields => fields_contain field visible_fields
       | AccessPolicy.Public | AccessPolicy.Restricted _ => true
       end.

Definition content_searchable_by (m : Memory) (caller : option string) : bool :=
  match check_access_level m caller with
  | AccessLevel.Full => true
  | AccessLevel.Redacted =>
      match m_access_policy m with
      | AccessPolicy.Redacted visible_fields => fields_contain RedactableField.Content visible_fields
      | AccessPolicy.Public | AccessPolicy.Restricted _ => false
      end
  | AccessLevel.Denied => false
  end.

Definition write_access_allowed (p : Provenance) (policy : AccessPolicy.t) (caller : string) : bool :=
  let owner := source_agent p in
  let is_owner := bool_decide (owner = Some caller) in
  match policy with
  | AccessPolicy.Public => match owner with None => true | Some _ => is_owner end
  | AccessPolicy.Redacted _ => is_owner
  | AccessPolicy.Restricted allowed => is_owner || any_eq caller allowed
  end.

Definition has_write_access (m : Memory) (caller : string) : bool :=
  write_access_allowed (m_provenance m) (m_access_policy m) caller.

Definition optimistic_revision (m : Memory) : option Z :=
  if m_was_redacted m then None else Some (m_record_revision m).

Definition visible_slice (p : AccessPolicy.t) : list RedactableField.t :=
  match p with
  | AccessPolicy.Redacted visible_fields => visible_fields
  | AccessPolicy.Public | AccessPolicy.Restricted _ => []
  end.

Definition redacted (m : Memory) : Memory :=
  let has_field f := fields_contain f (visible_slice (m_access_policy m)) in
  {| m_content := if has_field RedactableField.Content then m_content m else "[redacted]";
     m_tags := if has_field RedactableField.Tags then m_tags m else [];
     m_provenance := if has_field RedactableField.Provenance then m_provenance m else provenance_default;
     m_expires_at := if has_field RedactableField.ExpiresAt then m_expires_at m else None;
     m_entities := if has_field RedactableField.Entities then m_entities m else [];
     m_importance := m_importance m;
     m_confidence := m_confidence m;
     m_updated_at := m_updated_at m;
     m_record_revision := 0;
     m_superseded_by := m_superseded_by m;
     m_activity_mass := m_activity_mass m;
     m_last_used_at := m_last_used_at m;
     m_id := m_id m;
     m_access_policy := m_access_policy m;
     m_created_at := m_created_at m;
     m_has_embedding := m_has_embedding m;
     m_memory_type := m_memory_type m;
     m_impression_count := 0;
     m_last_impressed_at := None;
     m_was_redacted := true |}.

Definition sanitize_for_wire (m : Memory) : Memory :=
  if m_was_redacted m then
    {| m_id := m_id m; m_content := m_content m; m_tags := m_tags m;
       m_provenance := m_provenance m; m_access_policy := m_access_policy m;
       m_created_at := m_created_at m;
       m_updated_at := m_created_at m;
       m_record_revision := m_record_revision m;
       m_expires_at := m_expires_at m; m_has_embedding := m_has_embedding m;
       m_memory_type := m_memory_type m; m_importance := m_importance m;
       m_confidence := Confidence.DEFAULT;
       m_impression_count := m_impression_count m;
       m_last_impressed_at := m_last_impressed_at m;
       m_superseded_by := None;
       m_activity_mass := f0;
       m_last_used_at := None;
       m_entities := m_entities m; m_was_redacted := m_was_redacted m |}
  else m.

Definition apply_access_policy (m : Memory) (caller : option string) : option Memory :=
  match check_access_level m caller with
  | AccessLevel.Full => Some m
  | AccessLevel.Redacted => Some (redacted m)
  | AccessLevel.Denied => None
  end.

(** ** Metadata, tombstones, updates and filters *)

Record ScopeDefinition := {
  sd_scope_key : string;
  sd_display_name : string;
  sd_description : option string;
  sd_aliases : list string;
  sd_matchers : list string;
  sd_parent : option string;
  sd_related : list string;
}.
Definition scope_definition_new (scope_key display_name : string) : ScopeDefinition :=
  {| sd_scope_key := scope_key; sd_display_name := display_name; sd_description := None;
     sd_aliases := []; sd_matchers := []; sd_parent := None; sd_related := [] |}.

Record MemoryMetadata := {
  md_memory_id : MemoryId;
  md_scope_key : option string;
  md_summary : option string;
  md_agent_label : option string;
  md_created_by_principal : option string;
  md_quality_flags : list string;
  md_schema_version : Z;
}.
#[export] Instance MemoryMetadata_eq_dec : EqDecision MemoryMetadata.
Proof. solve_decision. Defined.

Record MetadataPatch := {
  mp_scope_key : option string;
  mp_summary : option string;
  mp_clear_summary : bool;
  mp_agent_label : option string;
  mp_clear_agent_label : bool;
}.

Definition is_none {A} (o : option A) : bool := match o with None => true | Some _ => false end.
Definition is_some {A} (o : option A) : bool := match o with Some _ => true | None => false end.

Definition metadata_patch_is_empty (p : MetadataPatch) : bool :=
  is_none (mp_scope_key p) && is_none (mp_summary p) && negb (mp_clear_summary p)
  && is_none (mp_agent_label p) && negb (mp_clear_agent_label p).

Record MemoryTombstone := {
  ts_memory_id : MemoryId;
  ts_provenance : Provenance;
  ts_access_policy : AccessPolicy.t;
  ts_deleted_at : DateTime;
  ts_deleted_by_principal : option string;
}.

Definition tombstone_from_memory (m : Memory) (deleted_at : DateTime) (by_ : option string) : MemoryTombstone :=
  {| ts_memory_id := m_id m; ts_provenance := m_provenance m;
     ts_access_policy := m_access_policy m; ts_deleted_at := deleted_at;
     ts_deleted_by_principal := by_ |}.

Definition tombstone_check_access_level (t : MemoryTombstone) (caller : option string) : AccessLevel.t :=
  let caller := normalize_caller caller in
  match ts_access_policy t with
  | AccessPolicy.Public => AccessLevel.Full
  | AccessPolicy.Restricted allowed =>
      match caller with
      | None => AccessLevel.Denied
      | Some caller =>
          if is_owner (ts_provenance t) caller || any_eq caller allowed
          then AccessLevel.Full else AccessLevel.Denied
      end
  | AccessPolicy.Redacted _ =>
      match caller with
      | None => AccessLevel.Denied
      | Some caller =>
          if is_owner (ts_provenance t) caller then AccessLevel.Full else AccessLevel.Redacted
      end
  end.

Record MemoryUpdate := {
  mu_content : option string;
  mu_tags : option (list string);
  mu_access_policy : option AccessPolicy.t;
  mu_importance : option Importance.t;
  mu_expires_at : option (option DateTime);
  mu_confidence : option Confidence.t;
  mu_source_conversation : option string;
  mu_entities : option (list Entity);
}.
Definition memory_update_default : MemoryUpdate :=
  {| mu_content := None; mu_tags := None; mu_access_policy := None; mu_importance := None;
     mu_expires_at := None; mu_confidence := None; mu_source_conversation := None; mu_entities := None |}.

Record QueryContext := { qc_principal : option string }.

Record TimeRange := { tr_after : option DateTime; tr_before : option DateTime }.

Record MemoryFilter := {
  mf_context_ids : option (list ContextId);
  mf_legacy_context_ids_any : option (list ContextId);
  mf_explicit_context_filter : bool;
  mf_tags : option (list string);
  mf_agent_label : option string;
  mf_scope : option string;
  mf_origin_scope : option string;
  mf_scopes_any : option (list string);
  mf_time_range : option TimeRange;
  mf_text_search : option string;
  mf_has_embedding : option bool;
  mf_limit : option Z;
  mf_memory_type : option MemoryType.t;
  mf_include_superseded : option bool;
  mf_entity : option string;
  mf_entities_any : option (list string);
  mf_entity_type : option string;
}.
Definition memory_filter_default : MemoryFilter :=
  {| mf_context_ids := None; mf_legacy_context_ids_any := None; mf_explicit_context_filter := false;
     mf_tags := None; mf_agent_label := None; mf_scope := None; mf_origin_scope := None;
     mf_scopes_any := None; mf_time_range := None; mf_text_search := None; mf_has_embedding := None;
     mf_limit := None; mf_memory_type := None; mf_include_superseded := None; mf_entity := None;
     mf_entities_any := None; mf_entity_type := None |}.

Record ScoreBreakdown := {
  sb_query_relevance : f64;
  sb_importance : f64;
  sb_freshness : f64;
  sb_activity : f64;
  sb_confidence : f64;
}.

Record SearchResult := {
  sr_memory : Memory;
  sr_distance : option f64;
  sr_retrieval_score : option f64;
  sr_reranker_score : option f64;
  sr_composite_score : option f64;
  sr_score_breakdown : option ScoreBreakdown;
}.
Definition search_result_from (m : Memory) : SearchResult :=
  {| sr_memory := m; sr_distance := None; sr_retrieval_score := None; sr_reranker_score := None;
     sr_composite_score := None; sr_score_breakdown := None |}.

(** JSON values of audit details; object fields are a finite map as in
    [serde_json::Map]. *)
Inductive Json :=
| JNull
| JBool (b : bool)
| JNum (n : Z)
| JFloat (v : f64)
| JStr (s : string)
| JArr (l : list Json)
| JObj (fields : list (string * Json)).

Record AuditDraft := {
  ad_action : AuditAction.t;
  ad_caller_agent : option string;
  ad_timestamp : DateTime;
  ad_details : option Json;
}.

(** The entry read back from the log has the draft's fields. *)
Record AuditEntry := {
  ae_action : AuditAction.t;
  ae_caller_agent : option string;
  ae_timestamp : DateTime;
  ae_details : option Json;
}.

Record AuthorizedUpdateOutcome := {
  ao_outcome : WriteOutcome.t;
  ao_reembed_revision : option Z;
}.

(** ** Theorems *)

(** Every enum prints to a text its parser reads back. *)
Lemma memory_type_roundtrip t : MemoryType.from_str (MemoryType.to_string t) = Ok t.
Proof. by destruct t. Qed.
Lemma search_mode_roundtrip t : SearchMode.from_str (SearchMode.to_string t) = Ok t.
Proof. by destruct t. Qed.
Lemma audit_action_roundtrip t : AuditAction.from_str (AuditAction.to_string t) = Ok t.
Proof. by destruct t. Qed.

Lemma if_eqb_inv {A} (s k : string) (a b c : A) :
  (if String.eqb s k then a else b) = c → (s = k ∧ a = c) ∨ (s ≠ k ∧ b = c).
Proof. destruct (String.eqb_spec s k); naive_solver. Qed.

(** A parser written as a chain of string comparisons: case analysis on which
    key matched. *)
Ltac eqb_chain H :=
  repeat (apply if_eqb_inv in H; destruct H as [[-> H]|[? H]]; [try (simpl in *; simplify_eq; done)|]).

Lemma memory_type_parse_inv s t : MemoryType.from_str s = Ok t → MemoryType.to_string t = s.
Proof. unfold MemoryType.from_str. intros H. eqb_chain H. done. Qed.
Lemma audit_action_parse_inv s t : AuditAction.from_str s = Ok t → AuditAction.to_string t = s.
Proof. unfold AuditAction.from_str. intros H. eqb_chain H. done. Qed.

Lemma redactable_field_roundtrip s : RedactableField.to_string (RedactableField.from_str s) = s.
Proof.
  unfold RedactableField.from_str.
  repeat match goal with |- context [String.eqb s ?k] => destruct (String.eqb_spec s k); [by subst|] end.
  done.
Qed.

(** The validated newtypes. *)
Lemma agent_id_new_spec s :
  AgentId.new s = (if is_blank s then None else Some (AgentId.mk (trim s))).
Proof. done. Qed.

Lemma entity_type_new_idemp s e :
  EntityType.new s = Some e → EntityType.new (EntityType.as_str e) = Some e.
Proof.
  unfold EntityType.new. destruct (str_is_empty (trim s)) eqn:He; [done|].
  intros [= <-]. cbn. rewrite trim_idemp, He. done.
Qed.

Lemma importance_new_clamped v :
  let x := Importance.value (Importance.new v) in
  is_finite x = true ∧ fltb x f0 = false ∧ fltb f1 x = false.
Proof.
  cbn. unfold Importance.clamp_importance. destruct (is_finite v) eqn:Hv; cbn [negb]; [|done].
  split; [|by apply fclamp_bounds].
  unfold fclamp. destruct (fltb v f0); [done|]. by destruct (fltb f1 v).
Qed.

Lemma confidence_new_clamped v :
  let x := Confidence.value (Confidence.new v) in
  is_finite x = true ∧ fltb x f0 = false ∧ fltb f1 x = false.
Proof.
  cbn. unfold Confidence.new. destruct (is_finite v) eqn:Hv; cbn [negb]; [|done].
  cbn. destruct (fltb v f0) eqn:?; [done|]. by destruct (fltb f1 v) eqn:?.
Qed.

(** ** Access policy *)

Lemma any_eq_true c l : any_eq c l = true ↔ c ∈ l.
Proof.
  unfold any_eq. rewrite existsb_exists. split.
  - intros (x & Hx & Heq). apply String.eqb_eq in Heq. subst. by apply list_elem_of_In.
  - intros H. exists c. split; [by apply list_elem_of_In | apply String.eqb_refl].
Qed.

Lemma fields_contain_true f l : fields_contain f l = true ↔ f ∈ l.
Proof.
  unfold fields_contain. rewrite existsb_exists. split.
  - intros (x & Hx & Heq). apply bool_decide_eq_true in Heq. subst. by apply list_elem_of_In.
  - intros H. exists f. split; [by apply list_elem_of_In | by apply bool_decide_eq_true].
Qed.

Lemma is_owner_true p c : is_owner p c = true ↔ source_agent p = Some c.
Proof. apply bool_decide_eq_true. Qed.

Lemma normalize_caller_Some c s : normalize_caller c = Some s ↔ c = Some s ∧ is_blank s = false.
Proof.
  destruct c as [x|]; cbn; [|split; [done|by intros []]].
  destruct (is_blank x) eqn:Hx; split.
  - done.
  - intros [[= ->] ?]. congruence.
  - intros [= ->]. done.
  - by intros [-> _].
Qed.

(** A tombstone answers read requests exactly as the live memory did. *)
Lemma tombstone_same_access m at_ by_ caller :
  tombstone_check_access_level (tombstone_from_memory m at_ by_) caller = check_access_level m caller.
Proof. reflexivity. Qed.

(** Writers are full readers: a named caller that may write may read every
    field. *)
Lemma write_implies_full_read m c :
  is_blank c = false → has_write_access m c = true → check_access_level m (Some c) = AccessLevel.Full.
Proof.
  intros Hb. unfold has_write_access, write_access_allowed, check_access_level.
  cbn [normalize_caller]. rewrite Hb. unfold is_owner.
  destruct (m_access_policy m); cbv zeta; [done|..]; intros Hw; by rewrite Hw.
Qed.

(** Redaction is a projection, and reaches everything the policy hides. *)
Lemma if_idemp {A} (b : bool) (x y : A) : (if b then (if b then x else y) else y) = if b then x else y.
Proof. by destruct b. Qed.

Lemma redacted_idemp m : redacted (redacted m) = redacted m.
Proof. unfold redacted. cbn. rewrite !if_idemp. done. Qed.

Definition visible_of (m : Memory) (f : RedactableField.t) : bool :=
  fields_contain f (visible_slice (m_access_policy m)).

(** The relation "an unauthorised reader may not tell apart": equal policy and
    always-visible fields, and equal redactable fields where the policy keeps
    them visible. *)
Record same_visible (m1 m2 : Memory) : Prop := {
  sv_id : m_id m1 = m_id m2;
  sv_policy : m_access_policy m1 = m_access_policy m2;
  sv_created : m_created_at m1 = m_created_at m2;
  sv_embedding : m_has_embedding m1 = m_has_embedding m2;
  sv_type : m_memory_type m1 = m_memory_type m2;
  sv_importance : m_importance m1 = m_importance m2;
  sv_content : visible_of m1 RedactableField.Content = true → m_content m1 = m_content m2;
  sv_tags : visible_of m1 RedactableField.Tags = true → m_tags m1 = m_tags m2;
  sv_provenance : visible_of m1 RedactableField.Provenance = true → m_provenance m1 = m_provenance m2;
  sv_entities : visible_of m1 RedactableField.Entities = true → m_entities m1 = m_entities m2;
  sv_expires : visible_of m1 RedactableField.ExpiresAt = true → m_expires_at m1 = m_expires_at m2;
}.

(** What a caller receives over the wire for one memory. *)
Definition wire_view (m : Memory) (caller : option string) : option Memory :=
  sanitize_for_wire <$> apply_access_policy m caller.

Lemma if_visible_eq {A} (b : bool) (x y d : A) :
  (b = true → x = y) → (if b then x else d) = if b then y else d.
Proof. destruct b; [by intros -> |done]. Qed.

Lemma redacted_wire_eq m1 m2 :
  same_visible m1 m2 → sanitize_for_wire (redacted m1) = sanitize_for_wire (redacted m2).
Proof.
  intros [Hid Hp Hc He Ht Hi Hco Hta Hpr Hen Hex].
  unfold sanitize_for_wire, redacted, visible_of in *; cbn. rewrite <-Hp.
  rewrite Hid, Hc, He, Ht, Hi.
  f_equal; by apply if_visible_eq.
Qed.

(** An unauthorised reader learns nothing about hidden fields: when two
    memories agree on the always-visible fields and on every redactable field
    the policy keeps visible, and the caller is entitled to the redacted view of
    both, the two responses it receives over the wire are equal. Content, tags,
    provenance, entities, expiry, the record revision, the use statistics, the
    confidence, the update time and the supersession link of a memory can
    therefore not be inferred from its redacted view. *)
Theorem redaction_noninterference m1 m2 caller :
  same_visible m1 m2 →
  check_access_level m1 caller = AccessLevel.Redacted →
  check_access_level m2 caller = AccessLevel.Redacted →
  wire_view m1 caller = wire_view m2 caller.
Proof.
  intros Hs H1 H2. unfold wire_view, apply_access_policy. rewrite H1, H2. cbn.
  f_equal. by apply redacted_wire_eq.
Qed.

Definition sample_memory (content : string) (owner : option string) (policy : AccessPolicy.t) : Memory :=
  {| m_id := 7%N; m_content := content; m_tags := ["t"];
     m_provenance := {| source_agent := owner; source_conversation := None;
                        origin_conversation := None; source_user := None |};
     m_access_policy := policy; m_created_at := 10; m_updated_at := 20; m_record_revision := 3;
     m_expires_at := None; m_has_embedding := false; m_memory_type := MemoryType.Semantic;
     m_importance := Importance.DEFAULT; m_confidence := Confidence.DEFAULT;
     m_impression_count := 4; m_last_impressed_at := None; m_superseded_by := None;
     m_activity_mass := f0; m_last_used_at := None; m_entities := []; m_was_redacted := false |}.

Lemma redaction_noninterference_witness :
  let p := AccessPolicy.Redacted [RedactableField.Tags] in
  m_content (sample_memory "secret" (Some "ann") p) ≠ m_content (sample_memory "other" (Some "eve") p) ∧
  wire_view (sample_memory "secret" (Some "ann") p) (Some "bob") =
  wire_view (sample_memory "other" (Some "eve") p) (Some "bob").
Proof.
  split; [discriminate|].
  apply (redaction_noninterference _ _ (Some "bob")); [|vm_compute; reflexivity|vm_compute; reflexivity].
  split; vm_compute; congruence.
Defined.

(** The access decision, in full: a caller is identified by a non-blank
    name; public memories are readable by everybody, restricted ones exactly by
    the named owner and allow-listed agents, redacted ones in full exactly by
    the named owner, in part by any other named caller, and a caller without a
    name (or with a blank one) is denied everything that is not public. *)
Theorem access_level_spec m caller :
  (check_access_level m caller = AccessLevel.Full ↔
     m_access_policy m = AccessPolicy.Public ∨
     ∃ s, caller = Some s ∧ is_blank s = false ∧
       (source_agent (m_provenance m) = Some s ∨
        ∃ allowed, m_access_policy m = AccessPolicy.Restricted allowed ∧ s ∈ allowed)) ∧
  (check_access_level m caller = AccessLevel.Redacted ↔
     ∃ s visible, caller = Some s ∧ is_blank s = false ∧
       m_access_policy m = AccessPolicy.Redacted visible ∧
       source_agent (m_provenance m) ≠ Some s).
Proof.
  unfold check_access_level.
  destruct (normalize_caller caller) as [s|] eqn:Hc.
  - apply normalize_caller_Some in Hc as [-> Hb].
    pose proof (is_owner_true (m_provenance m) s) as Ho.
    destruct (m_access_policy m) as [|allowed|vis] eqn:Hp; [naive_solver| |].
    + pose proof (any_eq_true s allowed).
      destruct (is_owner _ _), (any_eq _ _); cbn; naive_solver.
    + destruct (is_owner _ _); naive_solver.
  - assert (Hn : ∀ s, caller = Some s → is_blank s = false → False)
      by (intros s -> Hb; cbn in Hc; by rewrite Hb in Hc).
    destruct (m_access_policy m) eqn:Hp; naive_solver.
Qed.

