(* ===== verification/Validation.v ===== *)
(** * Validation: the input checks of [src/src/validation.rs]

    Pure functions on strings and lists; lengths are byte lengths. The
    chrono operations a TTL conversion uses are parameters. *)
From Stdlib Require Import ZArith Lia.
From stdpp Require Import base list option strings pretty.
From S2P Require Import Prelude Text Floats Errors Types.

Abbreviation validated A := (result ValidationError A).

Definition verr {A} (field message : string) : validated A := Err (validation_error_new field message).

(** ** Expiry *)

Section Ttl.
(** chrono: [TimeDelta::try_seconds] and [DateTime::checked_add_signed]. *)
Context (try_seconds : Z → option Z) (checked_add_signed : DateTime → Z → option DateTime).

Definition ttl_seconds_to_expiry (ttl_seconds : Z) (now : DateTime) : validated DateTime :=
  ttl_i64 ← ok_or (validation_error_new "ttl_seconds" "value is too large: out of range integral type conversion attempted")
              (i64_try_from ttl_seconds);
  duration ← ok_or (validation_error_new "ttl_seconds" "value is out of range") (try_seconds ttl_i64);
  ok_or (validation_error_new "ttl_seconds" "value causes timestamp overflow") (checked_add_signed now duration).
End Ttl.

(** ** Strings *)

Definition validate_optional_non_empty (field_name : string) (value : option string) : validated unit :=
  match value with
  | Some s => bail_if (is_blank s) (validation_error_new field_name "cannot be empty when provided")
  | None => Ok ()
  end.

Definition validate_optional_string_array (field_name : string) (values : option (list string)) : validated unit :=
  match values with
  | Some items => bail_if (existsb is_blank items) (validation_error_new field_name "cannot contain empty values")
  | None => Ok ()
  end.

Definition validate_string_array (field_name : string) (values : list string) : validated unit :=
  validate_optional_string_array field_name (Some values).

Definition normalize_optional_non_empty (field_name : string) (value : option string) : validated (option string) :=
  _ ← validate_optional_non_empty field_name value;
  Ok ((λ v, if byte_len (trim v) =? byte_len v then v else trim v) <$> value).

Definition normalize_non_empty (field_name : string) (value : string) : validated string :=
  _ ← validate_optional_non_empty field_name (Some value);
  let trimmed := trim value in
  if byte_len trimmed =? byte_len value then Ok value else Ok trimmed.

Definition validate_content_length (content : string) (max_content_length : Z) : validated unit :=
  bail_if (max_content_length <? byte_len content)
    (validation_error_new "content"
      ("exceeds maximum length of " ++ pretty max_content_length ++ " bytes (got "
        ++ pretty (byte_len content) ++ ")")).

Definition validate_batch_len (field_name : string) (n max_batch_size : Z) : validated unit :=
  _ ← bail_if (n =? 0) (validation_error_new field_name "cannot be empty");
  bail_if (max_batch_size <? n)
    (validation_error_new field_name ("exceeds maximum batch size of " ++ pretty max_batch_size)).

Definition validate_tags (field_name : string) (tags : list string) (max_tags max_tag_length : Z) : validated unit :=
  _ ← bail_if (max_tags <? len tags)
        (validation_error_new field_name
          ("exceeds maximum of " ++ pretty max_tags ++ " tags (got " ++ pretty (len tags) ++ ")"));
  try_for_each (λ tag,
    bail_if (max_tag_length <? byte_len tag)
      (validation_error_new field_name
        ("contains a tag exceeding maximum length of " ++ pretty max_tag_length
          ++ " bytes (got " ++ pretty (byte_len tag) ++ ")"))) tags.

Definition normalize_optional_string_array (field_name : string) (values : option (list string))
    : validated (option (list string)) :=
  _ ← validate_optional_string_array field_name values;
  Ok (map trim <$> values).

(** ** Entities *)

(** [bytes().any(|byte| byte <= 0x1F)]. *)
Definition has_ascii_control (s : string) : bool :=
  existsb (λ c, byte_val c <=? 31)%N (bytes s).

Definition normalize_entity_parts (name entity_type : string) : validated (string * EntityType.t) :=
  let name := trim name in
  _ ← bail_if (str_is_empty name) (validation_error_new "entities" "entity name cannot be empty");
  let entity_type := trim entity_type in
  _ ← bail_if (str_is_empty entity_type) (validation_error_new "entities" "entity type cannot be empty");
  _ ← bail_if (has_ascii_control name)
        (validation_error_new "entities" "entity name cannot contain ASCII control characters");
  _ ← bail_if (has_ascii_control entity_type)
        (validation_error_new "entities" "entity type cannot contain ASCII control characters");
  entity_type ← ok_or (validation_error_new "entities" "entity type cannot be empty") (EntityType.new entity_type);
  Ok (name, entity_type).

(** [Entity::new] of types.rs. *)
Definition entity_new (name entity_type : string) : option Entity :=
  match normalize_entity_parts name entity_type with
  | Ok (name, entity_type) => Some {| e_name := name; e_type := entity_type |}
  | Err _ => None
  end.

Definition validate_entities_with_limits (entities : list Entity) (max_entities max_entity_field_length : Z)
    : validated unit :=
  _ ← bail_if (max_entities <? len entities)
        (validation_error_new "entities"
          ("exceeds maximum of " ++ pretty max_entities ++ " entities (got " ++ pretty (len entities) ++ ")"));
  try_for_each (λ entity,
    _ ← normalize_entity_parts (e_name entity) (EntityType.as_str (e_type entity));
    _ ← bail_if (max_entity_field_length <? byte_len (e_name entity))
          (validation_error_new "entities"
            ("entity name exceeds maximum length of " ++ pretty max_entity_field_length
              ++ " bytes (got " ++ pretty (byte_len (e_name entity)) ++ ")"));
    bail_if (max_entity_field_length <? byte_len (EntityType.as_str (e_type entity)))
      (validation_error_new "entities"
        ("entity type exceeds maximum length of " ++ pretty max_entity_field_length
          ++ " bytes (got " ++ pretty (byte_len (EntityType.as_str (e_type entity))) ++ ")"))) entities.

Definition normalize_entities (entities : list Entity) : list Entity :=
  map (λ e, {| e_name := trim (e_name e); e_type := e_type e |}) entities.

Definition validate_non_blank (field_name value : string) : validated unit :=
  bail_if (is_blank value) (validation_error_new field_name "cannot be blank").

(** ** Distances *)

Definition MAX_DISTANCE_UPPER_BOUND : f64 := f64_of_Z 10.

Definition validate_max_distance (max_distance : option f64) : validated unit :=
  match max_distance with
  | Some d =>
      _ ← bail_if (negb (is_finite d) || fltb d f0)
            (validation_error_new "max_distance" "must be a finite non-negative number");
      bail_if (fltb MAX_DISTANCE_UPPER_BOUND d)
        (validation_error_new "max_distance"
          "exceeds maximum of 10 (typical L2 distance range for normalized vectors is 0.0–2.0)")
  | None => Ok ()
  end.

(** ** Theorems *)

Lemma is_blank_trim s : is_blank (trim s) = is_blank s.
Proof. unfold is_blank. by rewrite trim_idemp. Qed.

(** Re-allocating only when trimming changes the length never changes the
    result. *)
Lemma trim_when_longer v : (if byte_len (trim v) =? byte_len v then v else trim v) = trim v.
Proof.
  destruct (byte_len (trim v) =? byte_len v) eqn:He; [|done].
  apply Z.eqb_eq in He. symmetry. by apply trim_same_len.
Qed.

Lemma normalize_non_empty_Ok f s v :
  normalize_non_empty f s = Ok v ↔ is_blank s = false ∧ v = trim s.
Proof.
  unfold normalize_non_empty. cbn. unfold bail_if.
  destruct (is_blank s) eqn:Hb; cbn; [split; [done|by intros [? _]]|].
  pose proof (trim_when_longer s) as Ht.
  destruct (byte_len (trim s) =? byte_len s); (split; [intros [= <-]; done|intros [_ ->]]); congruence.
Qed.

Lemma normalize_optional_non_empty_Ok f o r :
  normalize_optional_non_empty f o = Ok r ↔
  r = trim <$> o ∧ ∀ s, o = Some s → is_blank s = false.
Proof.
  unfold normalize_optional_non_empty. destruct o as [s|]; cbn; [|naive_solver].
  unfold bail_if. destruct (is_blank s) eqn:Hb; cbn.
  - split; [done|]. intros [_ H]. specialize (H s eq_refl). congruence.
  - rewrite trim_when_longer. split; [intros [= <-]; split; [done|]; by intros ? [= <-]|].
    by intros [-> _].
Qed.

Lemma try_map_trim_nonblank l : existsb is_blank (map trim l) = existsb is_blank l.
Proof. induction l as [|x l IH]; cbn; [done|]. by rewrite is_blank_trim, IH. Qed.

Lemma normalize_entity_parts_Ok n t n' t' :
  normalize_entity_parts n t = Ok (n', t') ↔
  n' = trim n ∧ EntityType.as_str t' = trim t ∧ is_blank n = false ∧ is_blank t = false ∧
  has_ascii_control (trim n) = false ∧ has_ascii_control (trim t) = false.
Proof.
  unfold normalize_entity_parts, is_blank. unfold bail_if.
  destruct (str_is_empty (trim n)) eqn:Hn; cbn; [by split; [|intros (? & ? & ? & ?)]|].
  destruct (str_is_empty (trim t)) eqn:Ht; cbn; [by split; [|intros (? & ? & ? & ? & ?)]|].
  destruct (has_ascii_control (trim n)) eqn:Hcn; cbn; [by split; [|intros (? & ? & ? & ? & ? & ?)]|].
  destruct (has_ascii_control (trim t)) eqn:Hct; cbn; [by split; [|intros (? & ? & ? & ? & ? & ?)]|].
  unfold EntityType.new. rewrite trim_idemp, Ht. cbn. destruct t' as [t']; cbn.
  split; [intros [= <- <-]; done|]. intros (-> & -> & _). done.
Qed.

(** Entities are stored in normal form: an entity that the constructor
    accepts has a trimmed, non-empty name and type without ASCII control
    characters, the constructor maps it to itself, normalisation leaves it
    alone, and it passes the list validation with every limit its lengths
    meet. *)
Theorem entity_new_normal_form name entity_type e max_len :
  entity_new name entity_type = Some e →
  byte_len (e_name e) ≤ max_len → byte_len (EntityType.as_str (e_type e)) ≤ max_len →
  e_name e = trim name ∧ is_blank (e_name e) = false ∧
  EntityType.as_str (e_type e) = trim entity_type ∧
  has_ascii_control (e_name e) = false ∧
  entity_new (e_name e) (EntityType.as_str (e_type e)) = Some e ∧
  normalize_entities [e] = [e] ∧
  validate_entities_with_limits [e] 1 max_len = Ok ().
Proof.
  unfold entity_new. destruct (normalize_entity_parts name entity_type) as [[n t]|] eqn:Hp; [|done].
  intros [= <-] Hl1 Hl2; cbn in *. apply normalize_entity_parts_Ok in Hp as (-> & Ht & Hn & Hb & Hc1 & Hc2).
  assert (Hagain : normalize_entity_parts (trim name) (EntityType.as_str t) = Ok (trim name, t)).
  { apply normalize_entity_parts_Ok. rewrite Ht, !is_blank_trim, !trim_idemp. done. }
  rewrite Hagain. split_and!; try done.
  - by rewrite is_blank_trim.
  - unfold normalize_entities; cbn. by rewrite trim_idemp.
  - unfold validate_entities_with_limits, bail_if; cbn. rewrite Hagain; cbn.
    rewrite (proj2 (Z.ltb_ge _ _) Hl1), (proj2 (Z.ltb_ge _ _) Hl2). done.
Qed.

Lemma entity_new_normal_form_witness :
  ∃ e, entity_new "  Alice " " person" = Some e ∧ normalize_entities [e] = [e] ∧
       validate_entities_with_limits [e] 1 256 = Ok ().
Proof.
  eexists. split; [vm_compute; reflexivity|].
  eapply (entity_new_normal_form "  Alice " " person" _ 256); vm_compute; congruence.
Defined.

(** A TTL becomes an expiry only when nothing overflows, and then the
    expiry is exactly that many seconds after now: given chrono's contract
    (a constructed [TimeDelta] of [s] seconds has that length, a successful
    addition is exact), acceptance implies the seconds fit an [i64] and the
    expiry is [now + ttl]; a TTL above [i64::MAX] is always rejected. *)
Theorem ttl_expiry_exact
    (try_seconds : Z → option Z) (checked_add_signed : DateTime → Z → option DateTime)
    (Hsec : ∀ s d, try_seconds s = Some d → d = s * 1000000000)
    (Hadd : ∀ t d t', checked_add_signed t d = Some t' → t' = t + d) ttl now :
  (∀ t, ttl_seconds_to_expiry try_seconds checked_add_signed ttl now = Ok t →
        ttl ≤ i64_max ∧ t = now + ttl * 1000000000) ∧
  (i64_max < ttl → ∃ e, ttl_seconds_to_expiry try_seconds checked_add_signed ttl now = Err e ∧
                        ve_field e = "ttl_seconds").
Proof.
  unfold ttl_seconds_to_expiry, i64_try_from. split.
  - intros t H. simpl_res.
    destruct (ttl <=? i64_max) eqn:Hle; [|done]. apply Z.leb_le in Hle. simplify_eq.
    match goal with Hs : try_seconds _ = _ |- _ => apply Hsec in Hs end.
    apply Hadd in H. by subst.
  - intros Hgt. rewrite (proj2 (Z.leb_gt _ _) Hgt). by eexists.
Qed.

Lemma ttl_expiry_exact_witness :
  let secs s := Some (s * 1000000000) in
  let add t d := Some (t + d) in
  ttl_seconds_to_expiry secs add 60 5 = Ok 60000000005 ∧
  (∀ t, ttl_seconds_to_expiry secs add 60 5 = Ok t → 60 ≤ i64_max ∧ t = 5 + 60 * 1000000000).
Proof.
  split; [reflexivity|].
  apply (ttl_expiry_exact (λ s, Some (s * 1000000000)) (λ t d, Some (t + d))); congruence.
Defined.
