(* ===== verification/Lists.v ===== *)
(** * Lists: comparators, stable sorting and the other iterator operations

    Comparators are functions into [comparison], as Rust's [Ordering]; the
    class [TotalPreorder] states what [sort_by] requires of one, with
    instances for the combinators the code uses ([then_with], [reverse],
    comparison of a key). *)
From Stdlib Require Import ZArith Lia Sorting.Sorted.
From stdpp Require Import base list option sets gmap.
From S2P Require Import Prelude Floats.

(** ** Comparators *)

Class TotalPreorder {A} (cmp : A → A → comparison) : Prop := {
  cmp_antisym : ∀ x y, cmp y x = CompOpp (cmp x y);
  cmp_trans : ∀ x y z, cmp x y ≠ Gt → cmp y z ≠ Gt → cmp x z ≠ Gt;
}.

Arguments cmp_antisym {A} cmp {_} x y.
Arguments cmp_trans {A} cmp {_} x y z.

(** [Ordering::then_with]. *)
Definition then_with {A} (c1 c2 : A → A → comparison) (x y : A) : comparison :=
  match c1 x y with Eq => c2 x y | o => o end.
(** [|a, b| cmp(b, a)]. *)
Definition cmp_desc {A} (c : A → A → comparison) (x y : A) : comparison := c y x.
(** Comparison of a key. *)
Definition cmp_on {A B} (f : A → B) (c : B → B → comparison) (x y : A) : comparison := c (f x) (f y).

Section laws.
Context {A : Type} (cmp : A → A → comparison) `{!TotalPreorder cmp}.

Lemma cmp_refl x : cmp x x = Eq.
Proof. pose proof (cmp_antisym cmp x x) as H. destruct (cmp x x); done. Qed.
Lemma cmp_total x y : cmp x y ≠ Gt ∨ cmp y x ≠ Gt.
Proof. rewrite (cmp_antisym cmp x y). destruct (cmp x y); cbn; auto. Qed.
Lemma cmp_Lt_trans x y z : cmp x y = Lt → cmp y z ≠ Gt → cmp x z = Lt.
Proof.
  intros Hxy Hyz.
  assert (cmp x z ≠ Gt) by (apply (cmp_trans cmp x y z); [by rewrite Hxy | done]).
  destruct (cmp x z) eqn:Hxz; [|done|done].
  exfalso. apply (cmp_trans cmp y z x); [done| |by rewrite (cmp_antisym cmp x y), Hxy].
  by rewrite (cmp_antisym cmp x z), Hxz.
Qed.
Lemma cmp_Lt_trans' x y z : cmp x y ≠ Gt → cmp y z = Lt → cmp x z = Lt.
Proof.
  intros Hxy Hyz.
  assert (cmp x z ≠ Gt) by (apply (cmp_trans cmp x y z); [done | by rewrite Hyz]).
  destruct (cmp x z) eqn:Hxz; [|done|done].
  exfalso. apply (cmp_trans cmp z x y); [|done|by rewrite (cmp_antisym cmp y z), Hyz].
  by rewrite (cmp_antisym cmp x z), Hxz.
Qed.
Lemma cmp_Eq_trans x y z : cmp x y = Eq → cmp y z = Eq → cmp x z = Eq.
Proof.
  intros Hxy Hyz. pose proof (cmp_antisym cmp x y) as H1. pose proof (cmp_antisym cmp y z) as H2.
  rewrite Hxy in H1. rewrite Hyz in H2. cbn in H1, H2.
  assert (Ha : cmp x z ≠ Gt) by (apply (cmp_trans cmp x y z); congruence).
  assert (Hb : cmp z x ≠ Gt) by (apply (cmp_trans cmp z y x); congruence).
  rewrite (cmp_antisym cmp x z) in Hb. destruct (cmp x z); done.
Qed.
End laws.

#[export] Instance Z_compare_total : TotalPreorder Z.compare.
Proof.
  split; [intros; apply Z.compare_antisym|]. intros x y z.
  rewrite !Z.compare_gt_iff. lia.
Qed.
#[export] Instance N_compare_total : TotalPreorder N.compare.
Proof.
  split; [intros; apply N.compare_antisym|]. intros x y z.
  rewrite !N.compare_gt_iff. lia.
Qed.
Lemma string_compare_trans a b c :
  String.compare a b ≠ Gt → String.compare b c ≠ Gt → String.compare a c ≠ Gt.
Proof.
  revert b c. induction a as [|x a IH]; intros [|y b] [|z c]; cbn; try done. unfold Ascii.compare. intros H1 H2.
  destruct (N.compare_spec (Ascii.N_of_ascii x) (Ascii.N_of_ascii y)) as [Hxy|Hxy|], (N.compare_spec (Ascii.N_of_ascii y) (Ascii.N_of_ascii z))
    as [Hyz|Hyz|], (N.compare_spec (Ascii.N_of_ascii x) (Ascii.N_of_ascii z)) as [Hxz|Hxz|Hxz]; try done; try lia. by apply (IH b c).
Qed.
#[export] Instance string_compare_total : TotalPreorder String.compare.
Proof. split; [intros; apply String.compare_antisym|apply string_compare_trans]. Qed.
#[export] Instance total_cmp_total : TotalPreorder total_cmp.
Proof.
  split; [apply total_cmp_antisym|]. intros x y z. unfold total_cmp.
  rewrite !Z.compare_gt_iff. lia.
Qed.
#[export] Instance cmp_desc_total {A} (c : A → A → comparison) :
  TotalPreorder c → TotalPreorder (cmp_desc c).
Proof.
  intros H. split; unfold cmp_desc; [intros; apply (cmp_antisym c)|].
  intros x y z Hxy Hyz. by apply (cmp_trans c z y x).
Qed.
#[export] Instance cmp_on_total {A B} (f : A → B) (c : B → B → comparison) :
  TotalPreorder c → TotalPreorder (cmp_on f c).
Proof.
  intros H. split; unfold cmp_on; [intros; apply (cmp_antisym c)|].
  intros x y z. apply (cmp_trans c).
Qed.
#[export] Instance then_with_total {A} (c1 c2 : A → A → comparison) :
  TotalPreorder c1 → TotalPreorder c2 → TotalPreorder (then_with c1 c2).
Proof.
  intros H1 H2. split; unfold then_with.
  - intros x y. rewrite (cmp_antisym c1 x y).
    destruct (c1 x y); cbn; [apply (cmp_antisym c2)|done|done].
  - intros x y z Hxy Hyz.
    destruct (c1 x y) eqn:Exy; [| |done].
    + destruct (c1 y z) eqn:Eyz; [| |done].
      * rewrite (cmp_Eq_trans c1 x y z) by done. by apply (cmp_trans c2 x y z).
      * rewrite (cmp_Lt_trans' c1 x y z); [done| |done]. by rewrite Exy.
    + rewrite (cmp_Lt_trans c1 x y z); [done|done|]. by destruct (c1 y z).
Qed.

#[global] Typeclasses Opaque then_with cmp_desc cmp_on total_cmp.

(** ** Stable sorting *)

Fixpoint insert_by {A} (cmp : A → A → comparison) (x : A) (l : list A) : list A :=
  match l with
  | [] => [x]
  | y :: l' => match cmp x y with Gt => y :: insert_by cmp x l' | _ => x :: l end
  end.

(** [slice::sort_by]: a stable sort. For a total preorder the stably sorted
    permutation is unique, so the algorithm does not matter. *)
Fixpoint sort_by {A} (cmp : A → A → comparison) (l : list A) : list A :=
  match l with
  | [] => []
  | x :: l' => insert_by cmp x (sort_by cmp l')
  end.

(** [Iterator::max_by]: the last of the greatest elements. *)
Fixpoint max_by_from {A} (cmp : A → A → comparison) (best : A) (l : list A) : A :=
  match l with
  | [] => best
  | x :: l' => max_by_from cmp (match cmp best x with Gt => best | _ => x end) l'
  end.
Definition max_by {A} (cmp : A → A → comparison) (l : list A) : option A :=
  match l with [] => None | x :: l' => Some (max_by_from cmp x l') end.

Section sorting.
Context {A : Type} (cmp : A → A → comparison).

Lemma insert_by_perm x l : insert_by cmp x l ≡ₚ x :: l.
Proof.
  induction l as [|y l IH]; cbn; [done|].
  destruct (cmp x y); [done|done|]. rewrite IH. apply perm_swap.
Qed.
Lemma sort_by_perm l : sort_by cmp l ≡ₚ l.
Proof. induction l as [|x l IH]; cbn; [done|]. by rewrite insert_by_perm, IH. Qed.
Lemma sort_by_length l : length (sort_by cmp l) = length l.
Proof. apply Permutation_length, sort_by_perm. Qed.
Lemma elem_of_sort_by x l : x ∈ sort_by cmp l ↔ x ∈ l.
Proof. by rewrite sort_by_perm. Qed.

Lemma max_by_from_in best l : max_by_from cmp best l ∈ best :: l.
Proof.
  revert best; induction l as [|x l IH]; intros best; cbn; [left|].
  specialize (IH (match cmp best x with Gt => best | _ => x end)).
  rewrite elem_of_cons in IH. rewrite !elem_of_cons.
  destruct IH as [->|]; [|by auto]. destruct (cmp best x); auto.
Qed.
Lemma max_by_in l x : max_by cmp l = Some x → x ∈ l.
Proof. destruct l as [|y l]; cbn; [done|]. intros [= <-]. apply max_by_from_in. Qed.

Context `{!TotalPreorder cmp}.

Let le x y := cmp x y ≠ Gt.

Lemma insert_by_sorted x l : StronglySorted le l → StronglySorted le (insert_by cmp x l).
Proof.
  induction 1 as [|y l Hl IH Hy]; cbn; [repeat constructor|].
  destruct (cmp x y) eqn:E.
  - constructor; [by constructor|]. constructor; [by unfold le; rewrite E|].
    revert Hy. apply List.Forall_impl. intros z Hz. apply (cmp_trans cmp x y z); [by rewrite E|done].
  - constructor; [by constructor|]. constructor; [by unfold le; rewrite E|].
    revert Hy. apply List.Forall_impl. intros z Hz. apply (cmp_trans cmp x y z); [by rewrite E|done].
  - constructor; [done|]. rewrite insert_by_perm. constructor; [|done].
    unfold le. by rewrite (cmp_antisym cmp x y), E.
Qed.
Lemma sort_by_sorted l : StronglySorted le (sort_by cmp l).
Proof. induction l as [|x l IH]; cbn; [constructor|]. by apply insert_by_sorted. Qed.

Lemma sorted_unique l k :
  StronglySorted le l → StronglySorted le k → l ≡ₚ k →
  (∀ x y, x ∈ l → y ∈ l → cmp x y = Eq → x = y) → l = k.
Proof.
  intros Hl. revert k; induction Hl as [|x l Hl IH Hx]; intros k Hk Hp Heq.
  - by apply Permutation_nil in Hp.
  - destruct Hk as [|y k Hk Hy]; [by apply Permutation_sym, Permutation_nil in Hp|].
    assert (x = y) as ->.
    { assert (Hyl : y ∈ x :: l) by (rewrite Hp; left).
      assert (Hxk : x ∈ y :: k) by (rewrite <-Hp; left).
      rewrite elem_of_cons in Hyl, Hxk.
      destruct Hyl as [->|Hyl]; [done|]. destruct Hxk as [->|Hxk]; [done|].
      rewrite list.Forall_forall in Hx, Hy. apply Hx in Hyl as H1. apply Hy in Hxk as H2. unfold le in *.
      apply Heq; [left | by right |].
      rewrite (cmp_antisym cmp x y) in H2. destruct (cmp x y); done. }
    f_equal. apply IH; [done|by apply Permutation_cons_inv in Hp|].
    intros ????. apply Heq; by right.
Qed.

(** Sorting forgets the order of the input when the comparator separates the
    elements: a list collected from a hash map sorts deterministically. *)
Lemma sort_by_proper l k :
  l ≡ₚ k → (∀ x y, x ∈ l → y ∈ l → cmp x y = Eq → x = y) → sort_by cmp l = sort_by cmp k.
Proof.
  intros Hp Heq. apply sorted_unique; [apply sort_by_sorted..| |].
  - by rewrite !sort_by_perm.
  - intros x y. rewrite !elem_of_sort_by. apply Heq.
Qed.

Lemma max_by_from_ge best l x : x ∈ best :: l → cmp x (max_by_from cmp best l) ≠ Gt.
Proof.
  revert x best; induction l as [|y l IH]; intros x best Hx; cbn.
  - apply elem_of_cons in Hx as [->|Hx%elem_of_nil]; [|done]. by rewrite (cmp_refl cmp).
  - set (b := match cmp best y with Gt => best | _ => y end).
    assert (Hb : cmp best b ≠ Gt ∧ cmp y b ≠ Gt).
    { unfold b. destruct (cmp best y) eqn:E; rewrite ?(cmp_refl cmp); (split; [|]); try done; try congruence.
      by rewrite (cmp_antisym cmp best y), E. }
    rewrite !elem_of_cons in Hx. destruct Hx as [->|[->|Hx]].
    + apply (cmp_trans cmp _ b); [apply Hb|]. apply IH. left.
    + apply (cmp_trans cmp _ b); [apply Hb|]. apply IH. left.
    + apply IH. by right.
Qed.
Lemma max_by_ge l m x : max_by cmp l = Some m → x ∈ l → cmp x m ≠ Gt.
Proof. destruct l as [|y l]; cbn; [done|]. intros [= <-]. apply max_by_from_ge. Qed.
End sorting.

(** [Vec::truncate]. *)
Definition truncate {A} (n : Z) (l : list A) : list A := take (Z.to_nat n) l.

Lemma truncate_nil {A} (n : Z) : truncate n (@nil A) = [].
Proof. unfold truncate. apply take_nil. Qed.
Lemma truncate_len {A} n (l : list A) : 0 ≤ n → len (truncate n l) ≤ n.
Proof. intros. unfold len, truncate. rewrite length_take. lia. Qed.
Lemma elem_of_truncate {A} n (l : list A) x : x ∈ truncate n l → x ∈ l.
Proof. intros H. unfold truncate in H. rewrite <-(take_drop (Z.to_nat n) l). apply elem_of_app. by left. Qed.

(** Keep the first occurrence of each element, the
    [filter(|x| seen.insert(x))] idiom. *)
Fixpoint dedup_from {A} `{EqDecision A} (seen l : list A) : list A :=
  match l with
  | [] => []
  | x :: l' => if decide (x ∈ seen) then dedup_from seen l' else x :: dedup_from (x :: seen) l'
  end.
Definition dedup {A} `{EqDecision A} (l : list A) : list A := dedup_from [] l.

Lemma elem_of_dedup_from {A} `{EqDecision A} (seen l : list A) x :
  x ∈ dedup_from seen l ↔ x ∈ l ∧ x ∉ seen.
Proof.
  revert seen; induction l as [|y l IH]; intros seen; cbn; [set_solver|].
  destruct (decide (y ∈ seen)); [rewrite IH; set_solver|].
  rewrite elem_of_cons, IH. destruct (decide (x = y)); set_solver.
Qed.
Lemma elem_of_dedup {A} `{EqDecision A} (l : list A) x : x ∈ dedup l ↔ x ∈ l.
Proof. unfold dedup. rewrite elem_of_dedup_from. set_solver. Qed.
Lemma NoDup_dedup_from {A} `{EqDecision A} (seen l : list A) : NoDup (dedup_from seen l).
Proof.
  revert seen; induction l as [|y l IH]; intros seen; cbn; [constructor|].
  destruct (decide (y ∈ seen)); [apply IH|]. constructor; [|apply IH].
  rewrite elem_of_dedup_from. set_solver.
Qed.
Lemma NoDup_dedup {A} `{EqDecision A} (l : list A) : NoDup (dedup l).
Proof. apply NoDup_dedup_from. Qed.
Lemma dedup_NoDup {A} `{EqDecision A} (l : list A) : NoDup l → dedup l = l.
Proof.
  unfold dedup. assert (Hg : ∀ seen, (∀ x, x ∈ l → x ∉ seen) → NoDup l → dedup_from seen l = l).
  { induction l as [|y l IH]; intros seen Hs Hn; cbn; [done|].
    destruct (decide (y ∈ seen)) as [Hy|Hy]; [by apply Hs in Hy; [|left]|].
    inversion Hn; subst. f_equal. apply IH; [|done]. set_solver. }
  intros. apply Hg; set_solver.
Qed.
#[export] Hint Resolve NoDup_dedup truncate_len : localhold.

Lemma size_list_to_set_le {A} `{Countable A} (l : list A) : (size (list_to_set l : gset A) ≤ length l)%nat.
Proof.
  induction l as [|x l IH]; [done|]. cbn [list_to_set length].
  pose proof (size_union_alt ({[x]} : gset A) (list_to_set l)) as Hs. rewrite size_singleton in Hs.
  assert (size (list_to_set l ∖ {[x]} : gset A) ≤ size (list_to_set l : gset A))%nat
    by (apply subseteq_size; set_solver).
  lia.
Qed.
(** A map has at most as many entries as a list covering its keys. *)
Lemma map_to_list_length_le {K V} `{Countable K} (m : gmap K V) (l : list K) :
  (∀ k, is_Some (m !! k) → k ∈ l) → (length (map_to_list m) ≤ length l)%nat.
Proof.
  intros Hm. rewrite length_map_to_list, <-size_dom. etransitivity; [|apply (size_list_to_set_le l)].
  apply subseteq_size. intros k Hk%elem_of_dom. apply elem_of_list_to_set. by apply Hm.
Qed.
Lemma truncate_all {A} n (l : list A) : len l ≤ n → truncate n l = l.
Proof. intros. apply firstn_all2. unfold len in *. lia. Qed.
Lemma NoDup_truncate {A} n (l : list A) : NoDup l → NoDup (truncate n l).
Proof. intros H. unfold truncate. rewrite <-(take_drop (Z.to_nat n) l) in H. by apply NoDup_app in H as [? _]. Qed.
Lemma map_truncate {A B} (f : A → B) n l : map f (truncate n l) = truncate n (map f l).
Proof. unfold truncate. symmetry. apply firstn_map. Qed.

Lemma omap_map {A B C} (f : A → B) (g : B → option C) (l : list A) : omap g (map f l) = omap (λ x, g (f x)) l.
Proof. induction l as [|x l IH]; cbn; [done|]. by destruct (g (f x)); rewrite IH. Qed.

#[export] Instance filter_bool_perm {A} (g : A → bool) : Proper ((≡ₚ) ==> (≡ₚ)) (List.filter g).
Proof.
  intros l k Hp. induction Hp; cbn; [done| | |by etrans].
  - destruct (g x); [by constructor|done].
  - destruct (g x), (g y); try done. constructor.
Qed.
Lemma elem_of_List_filter {A} (g : A → bool) (l : list A) x : x ∈ List.filter g l ↔ x ∈ l ∧ g x = true.
Proof. by rewrite list_elem_of_In, filter_In, <- list_elem_of_In. Qed.
Lemma NoDup_map_filter {A B} (f : A → B) (g : A → bool) (l : list A) : NoDup (map f l) → NoDup (map f (List.filter g l)).
Proof.
  induction l as [|x l IH]; cbn; [done|]. intros [Hx Hnd]%NoDup_cons. destruct (g x); cbn; [|by apply IH].
  apply NoDup_cons. split; [|by apply IH]. intros (y & Hy & [Hin _]%elem_of_List_filter)%list_elem_of_fmap.
  apply Hx, list_elem_of_fmap. by exists y.
Qed.
Lemma NoDup_omap_fst {K A B} (g : K * A → option B) (key : B → K) (l : list (K * A)) :
  (∀ p b, g p = Some b → key b = fst p) → NoDup l.*1 → NoDup (map key (omap g l)).
Proof.
  intros Hk. induction l as [|p l IH]; cbn; [constructor|]. intros [Hp Hn]%NoDup_cons.
  destruct (g p) as [b|] eqn:Hg; cbn; [|by apply IH]. apply NoDup_cons. split; [|by apply IH].
  rewrite (Hk _ _ Hg). intros (b' & Hb' & Hin)%list_elem_of_fmap. apply list_elem_of_omap in Hin as (q & Hq & Hg').
  apply Hp. rewrite Hb', (Hk _ _ Hg'). by apply list_elem_of_fmap_2.
Qed.
Lemma insert_by_map {A B} (f : A → B) (cmp : B → B → comparison) x l :
  map f (insert_by (λ x y, cmp (f x) (f y)) x l) = insert_by cmp (f x) (map f l).
Proof. induction l as [|y l IH]; cbn; [done|]. destruct (cmp (f x) (f y)); cbn; congruence. Qed.
Lemma sort_by_map {A B} (f : A → B) (cmp : B → B → comparison) l :
  map f (sort_by (λ x y, cmp (f x) (f y)) l) = sort_by cmp (map f l).
Proof. induction l as [|x l IH]; cbn; [done|]. by rewrite insert_by_map, IH. Qed.
Lemma filter_none {A} (g : A → bool) (l : list A) : (∀ x, x ∈ l → g x = false) → List.filter g l = [].
Proof.
  induction l as [|x l IH]; intros Hl; cbn; [done|]. rewrite (Hl x) by left. apply IH. intros y Hy. apply Hl. by right.
Qed.
Lemma filter_all {A} (g : A → bool) (l : list A) : (∀ x, x ∈ l → g x = true) → List.filter g l = l.
Proof.
  induction l as [|x l IH]; intros Hl; cbn; [done|]. rewrite (Hl x) by left.
  f_equal. apply IH. intros y Hy. apply Hl. by right.
Qed.
