(* ===== verification/StoreTypes.v ===== *)
(** * StoreTypes: the data of [src/src/store/mod.rs] the components share

    Candidates, claims, authorization envelopes and outcomes, and the audit
    draft of an update. *)
From Stdlib Require Import ZArith Lia.
From stdpp Require Import base list option strings.
From S2P Require Import Prelude Text Floats Errors Types.

Record MemoryWithEmbedding := {
  we_memory : Memory;
  we_embedding : option (list spec_float);
  we_context_ids : list ContextId;
}.

Record ConsolidationSnapshot := {
  cs_memory_id : MemoryId;
  cs_record_revision : Z;
  cs_context_ids : list ContextId;
}.
Definition consolidation_snapshot_from (c : MemoryWithEmbedding) : ConsolidationSnapshot :=
  {| cs_memory_id := m_id (we_memory c);
     cs_record_revision := m_record_revision (we_memory c);
     cs_context_ids := we_context_ids c |}.

Record EmbeddingProfile := {
  pr_provider : string;
  pr_endpoint : string;
  pr_model : string;
  pr_dimensions : Z;
}.
#[export] Instance EmbeddingProfile_eq_dec : EqDecision EmbeddingProfile.
Proof. solve_decision. Defined.
Definition openai_compatible (endpoint model : string) (dimensions : Z) : EmbeddingProfile :=
  {| pr_provider := "openai_compatible"; pr_endpoint := endpoint; pr_model := model; pr_dimensions := dimensions |}.

Record ReembedClaim := {
  rc_id : MemoryId;
  rc_content : string;
  rc_embedding_revision : Z;
  rc_claim_token : string;
}.

Module ReembedClaimScope.
Inductive t := Recovery | Authorized (principal : string).
Definition principal (s : t) : option string :=
  match s with Recovery => None | Authorized p => Some p end.
End ReembedClaimScope.

Module ExpiredCleanupScope.
Inductive t := All (actor : string) | Authorized (actor : string).
Definition actor (s : t) : string := match s with All a | Authorized a => a end.
Definition authorization_principal (s : t) : option string :=
  match s with All _ => None | Authorized a => Some a end.
End ExpiredCleanupScope.

Record MemoryAuthorizationEnvelope := {
  env_id : MemoryId;
  env_provenance : Provenance;
  env_access_policy : AccessPolicy.t;
}.
Definition envelope_has_write_access (e : MemoryAuthorizationEnvelope) (principal : string) : bool :=
  write_access_allowed (env_provenance e) (env_access_policy e) principal.
Definition envelope_from_memory (m : Memory) : MemoryAuthorizationEnvelope :=
  {| env_id := m_id m; env_provenance := m_provenance m; env_access_policy := m_access_policy m |}.

Record BulkAuthOutcome := { bo_applied_ids : list MemoryId; bo_denied : Z }.
Record ReassignScopeOutcome := { ro_applied_ids : list MemoryId }.
Record RecordUseOutcome := {
  ru_recorded_ids : list MemoryId;
  ru_recorded : Z;
  ru_denied : Z;
  ru_not_found : Z;
}.

(** [serde_json::Map::insert]: replace the value of an existing key in
    place, append a new one. *)
Fixpoint json_insert (k : string) (v : Json) (fields : list (string * Json)) : list (string * Json) :=
  match fields with
  | [] => [(k, v)]
  | (k', v') :: rest => if String.eqb k' k then (k, v) :: rest else (k', v') :: json_insert k v rest
  end.

Fixpoint json_get (k : string) (fields : list (string * Json)) : option Json :=
  match fields with
  | [] => None
  | (k', v) :: rest => if String.eqb k' k then Some v else json_get k rest
  end.

Definition audit_details_with_old_content_hash (details : option Json) (old_content_hash : string) : Json :=
  match details with
  | Some (JObj fields) => JObj (json_insert "old_content_hash" (JStr old_content_hash) fields)
  | Some value => JObj [("old_content_hash", JStr old_content_hash); ("details", value)]
  | None => JObj [("old_content_hash", JStr old_content_hash)]
  end.

Lemma json_get_insert_eq k v l : json_get k (json_insert k v l) = Some v.
Proof.
  induction l as [|[k' v'] l IH]; cbn; [by rewrite String.eqb_refl|].
  destruct (String.eqb k' k) eqn:E; cbn; [by rewrite String.eqb_refl | by rewrite E].
Qed.
Lemma json_get_insert_ne k k' v l : k ≠ k' → json_get k' (json_insert k v l) = json_get k' l.
Proof.
  intros Hne. induction l as [|[k0 v0] l IH]; cbn.
  - by destruct (String.eqb_spec k k').
  - destruct (String.eqb_spec k0 k) as [->|]; cbn; [by destruct (String.eqb_spec k k')|].
    by rewrite IH.
Qed.
