(* ===== verification/Consolidation.v ===== *)
(** * Consolidation: duplicate groups, [src/src/consolidation.rs]

    Cosine similarity, union-find with path halving and union by rank, and
    the clustering of neighbour pairs into groups. Array accesses are
    lookups, so an out-of-range index (a panic in the code) is [None]; the
    find loop runs on fuel [length parent + 1], and [uf_find_total] shows both
    never happen. *)
From Stdlib Require Import ZArith Lia Relations.
From stdpp Require Import base list option strings gmap sets.
From S2P Require Import Prelude Text Floats Lists Errors Types StoreTypes.

Definition effective_time (m : Memory) : DateTime :=
  match m_last_used_at m with Some t => t | None => m_updated_at m end.
Definition cmp_duplicate_representative : Memory → Memory → comparison :=
  then_with (cmp_on effective_time Z.compare)
    (then_with (cmp_on m_updated_at Z.compare) (cmp_on m_id N.compare)).

Record DuplicateGroup := {
  dg_representative_id : MemoryId;
  dg_member_ids : list MemoryId;
  dg_similarity : f64;
  dg_member_count : Z;
}.

Record ConsolidateResult := {
  cr_groups : list DuplicateGroup;
  cr_merged : bool;
  cr_candidate_count : Z;
  cr_capped : bool;
}.

(** ** Similarity *)

Definition f32_zero : spec_float := S754_zero false.
(** The literal [1e-12_f32], correctly rounded: 9223372 * 2^-63 (the quotient of the exact
    integers 1 and 10^12 would round the divisor, so the mantissa is written out). *)
Definition f32_1em12 : spec_float := S754_finite false 9223372 (-63).

Definition cosine_step (acc : spec_float * spec_float * spec_float) (xy : spec_float * spec_float) :=
  let '(dot, norm_a, norm_b) := acc in
  let '(x, y) := xy in
  (f32_add dot (f32_mul x y), f32_add norm_a (f32_mul x x), f32_add norm_b (f32_mul y y)).

Definition cosine_similarity (a b : list spec_float) : f64 :=
  if negb (length a =? length b)%nat || (length a =? 0)%nat then f0
  else
    let '(dot, norm_a, norm_b) := foldl cosine_step (f32_zero, f32_zero, f32_zero) (zip a b) in
    let denom := f32_mul (f32_sqrt norm_a) (f32_sqrt norm_b) in
    if SFltb denom f32_1em12 then f0
    else
      let result := f32_div dot denom in
      if is_nan result then f0 else f32_to_f64 result.

(** ** Union-find *)

Fixpoint uf_find_loop (fuel : nat) (parent : list nat) (root : nat) : option (list nat * nat) :=
  match fuel with
  | O => None
  | S fuel' =>
      p ← parent !! root;
      if (p =? root)%nat then Some (parent, root)
      else
        g ← parent !! p;
        let parent := <[root := g]> parent in
        root' ← parent !! root;
        uf_find_loop fuel' parent root'
  end.

Definition uf_find (parent : list nat) (i : nat) : option (list nat * nat) :=
  uf_find_loop (S (length parent)) parent i.

Arguments uf_find : simpl never.

Definition uf_union (parent rank : list nat) (a b : nat) : option (list nat * list nat) :=
  '(parent, ra) ← uf_find parent a;
  '(parent, rb) ← uf_find parent b;
  if (ra =? rb)%nat then Some (parent, rank)
  else
    ka ← rank !! ra;
    kb ← rank !! rb;
    match Nat.compare ka kb with
    | Lt => Some (<[ra := rb]> parent, rank)
    | Gt => Some (<[rb := ra]> parent, rank)
    | Eq => Some (<[rb := ra]> parent, <[ra := S ka]> rank)
    end.

(** ** Groups *)

Definition build_duplicate_group (memories : list MemoryWithEmbedding) (members : list nat)
    (average_similarity : f64) : option DuplicateGroup :=
  ms ← mapM (λ idx, memories !! idx) members;
  representative ← max_by (cmp_on we_memory cmp_duplicate_representative) ms;
  Some {| dg_representative_id := m_id (we_memory representative);
          dg_member_ids := sort_by N.compare (map (λ m, m_id (we_memory m)) ms);
          dg_similarity := average_similarity;
          dg_member_count := len members |}.

Record NeighborPair := { np_id_a : MemoryId; np_id_b : MemoryId; np_similarity : f64 }.

(** The id-to-index map: a later duplicate id overwrites an earlier one. *)
Definition id_to_idx (memories : list MemoryWithEmbedding) : gmap MemoryId nat :=
  foldl (λ acc im, <[m_id (we_memory im.2) := im.1]> acc) ∅ (zip (seq 0 (length memories)) memories).

(** One iteration of the pair loop. *)
Definition union_pair (idx : gmap MemoryId nat) (st : list nat * list nat * list (nat * nat * f64))
    (pair : NeighborPair) : option (list nat * list nat * list (nat * nat * f64)) :=
  let '(parent, rank, sims) := st in
  match idx !! np_id_a pair, idx !! np_id_b pair with
  | Some i, Some j =>
      if (i =? j)%nat then Some st
      else
        '(parent, rank) ← uf_union parent rank i j;
        let '(lo, hi) := if (i <? j)%nat then (i, j) else (j, i) in
        Some (parent, rank, sims ++ [(lo, hi, np_similarity pair)])
  | _, _ => Some st
  end.

Fixpoint fold_option {A S} (f : S → A → option S) (s : S) (l : list A) : option S :=
  match l with
  | [] => Some s
  | x :: l' => s' ← f s x; fold_option f s' l'
  end.

(** [group_members.entry(root).or_default().push(i)]. *)
Definition collect_member (st : list nat * gmap nat (list nat)) (i : nat)
    : option (list nat * gmap nat (list nat)) :=
  let '(parent, groups) := st in
  '(parent, root) ← uf_find parent i;
  Some (parent, <[root := default [] (groups !! root) ++ [i]]> groups).

Definition collect_similarity (st : list nat * gmap nat (f64 * Z)) (e : nat * nat * f64)
    : option (list nat * gmap nat (f64 * Z)) :=
  let '(parent, sims) := st in
  let '(i, _, similarity) := e in
  '(parent, root) ← uf_find parent i;
  let '(sum, count) := default (f0, 0) (sims !! root) in
  Some (parent, <[root := (fadd sum similarity, saturating_add count 1)]> sims).

Definition cmp_group : DuplicateGroup → DuplicateGroup → comparison :=
  then_with (cmp_desc (cmp_on dg_member_count Z.compare))
    (then_with (cmp_desc (cmp_on dg_similarity total_cmp))
       (cmp_desc (cmp_on dg_representative_id N.compare))).

Definition group_of_entry (memories : list MemoryWithEmbedding) (sims : gmap nat (f64 * Z))
    (e : nat * list nat) : option DuplicateGroup :=
  let '(sum, count) := default (f0, 0) (sims !! e.1) in
  let average_similarity := if 0 <? count then fdiv sum (f64_of_Z count) else f0 in
  build_duplicate_group memories e.2 average_similarity.

Definition find_duplicate_groups_from_pairs (memories : list MemoryWithEmbedding)
    (pairs : list NeighborPair) (max_groups : Z) : option (list DuplicateGroup) :=
  let n := length memories in
  if (n <? 2)%nat || (length pairs =? 0)%nat then Some []
  else
    let idx := id_to_idx memories in
    '(parent, rank, sims) ← fold_option (union_pair idx) (seq 0 n, replicate n O, []) pairs;
    '(parent, members) ← fold_option collect_member (parent, ∅) (seq 0 n);
    '(parent, group_similarities) ← fold_option collect_similarity (parent, ∅) sims;
    groups ← mapM (group_of_entry memories group_similarities)
               (List.filter (λ e, 2 <=? len e.2) (map_to_list members));
    Some (truncate max_groups (sort_by cmp_group groups)).

(** ** Union-find: invariant *)

(** Ranks strictly increase along parent links that are not self links; all
    links stay in range. *)
Record uf_wf (parent rank : list nat) : Prop := {
  uf_len : length parent = length rank;
  uf_link : ∀ i p, parent !! i = Some p → p ≠ i →
    ∃ ri rp, rank !! i = Some ri ∧ rank !! p = Some rp ∧ (ri < rp)%nat;
}.

(** [rep parent i r]: following parent links from [i] ends at the root [r]. *)
Inductive rep (parent : list nat) : nat → nat → Prop :=
| rep_root i : parent !! i = Some i → rep parent i i
| rep_step i p r : parent !! i = Some p → p ≠ i → rep parent p r → rep parent i r.

Lemma rep_functional parent i r r' : rep parent i r → rep parent i r' → r = r'.
Proof.
  induction 1 as [i Hi|i p r Hi Hne _ IH]; inversion 1 as [? Hi'|? p' ? Hi' Hne' Hr']; subst;
    rewrite Hi in Hi'; simplify_eq; auto.
Qed.
Lemma rep_is_root parent i r : rep parent i r → parent !! r = Some r.
Proof. by induction 1. Qed.
Lemma rep_lt parent i r : rep parent i r → (i < length parent)%nat.
Proof. destruct 1 as [? H|? ? ? H]; by apply lookup_lt_Some in H. Qed.

(** The nodes of a greater rank bound the number of links left to follow. *)
Definition above (rank : list nat) (k : nat) : nat := length (List.filter (λ r, k <? r)%nat rank).

Lemma above_lt rank j k : (j < k)%nat → k ∈ rank → (above rank k < above rank j)%nat.
Proof.
  intros Hjk. unfold above. induction rank as [|r rank IH]; [intros []%elem_of_nil|].
  intros Hin. cbn [List.filter].
  assert (Hle : (length (List.filter (λ r, k <? r)%nat rank) ≤ length (List.filter (λ r, j <? r)%nat rank))%nat).
  { clear - Hjk. induction rank as [|r rank IH]; cbn [List.filter]; [done|].
    destruct (Nat.ltb_spec k r), (Nat.ltb_spec j r); cbn [length]; lia. }
  apply elem_of_cons in Hin as [<-|Hin].
  - rewrite Nat.ltb_irrefl, (proj2 (Nat.ltb_lt _ _) Hjk). cbn [length]. lia.
  - specialize (IH Hin). destruct (Nat.ltb_spec k r), (Nat.ltb_spec j r); cbn [length]; lia.
Qed.
Lemma above_le_length rank k : (above rank k ≤ length rank)%nat.
Proof.
  unfold above. induction rank as [|r rank IH]; cbn [List.filter]; [done|].
  destruct (k <? r)%nat; cbn [length]; lia.
Qed.

Section find.
Context (rank : list nat).

Lemma wf_rank parent i p : uf_wf parent rank → parent !! i = Some p → ∃ ri, rank !! i = Some ri.
Proof.
  intros [Hl _] Hi. apply lookup_lt_Some in Hi. rewrite Hl in Hi. by apply lookup_lt_is_Some_2.
Qed.

(** Links of a well-formed forest stay in range. *)
Lemma wf_parent parent i p : uf_wf parent rank → parent !! i = Some p → ∃ g, parent !! p = Some g.
Proof.
  intros Hwf Hi. destruct (decide (p = i)) as [->|Hne]; [by exists i|].
  destruct (uf_link _ _ Hwf i p Hi Hne) as (_ & rp & _ & Hp & _).
  apply lookup_lt_Some in Hp. rewrite <-(uf_len _ _ Hwf) in Hp. by apply lookup_lt_is_Some_2.
Qed.

(** Every node of a well-formed forest has a representative. *)
Lemma rep_total parent i : uf_wf parent rank → (i < length parent)%nat → ∃ r, rep parent i r.
Proof.
  intros Hwf. remember (above rank (default O (rank !! i))) as n eqn:Hn.
  revert i Hn; induction (lt_wf n) as [n _ IH]; intros i Hn Hi.
  apply lookup_lt_is_Some_2 in Hi as [p Hp].
  destruct (decide (p = i)) as [->|Hne]; [exists i; by constructor|].
  destruct (uf_link _ _ Hwf i p Hp Hne) as (ri & rp & Hri & Hrp & Hlt).
  destruct (IH (above rank rp)) with (i := p) as [r Hr].
  - subst n. rewrite Hri; cbn. apply above_lt; [done|]. by eapply list_elem_of_lookup_2.
  - by rewrite Hrp.
  - apply lookup_lt_Some in Hrp. by rewrite (uf_len _ _ Hwf).
  - exists r. by econstructor.
Qed.

(** One step of path halving. *)
Lemma halve_wf parent i p g :
  uf_wf parent rank → parent !! i = Some p → p ≠ i → parent !! p = Some g →
  uf_wf (<[i := g]> parent) rank.
Proof.
  intros Hwf Hi Hne Hp. split; [by rewrite length_insert, (uf_len _ _ Hwf)|].
  intros j q Hj Hqj. destruct (decide (i = j)) as [<-|Hij].
  - rewrite list_lookup_insert_eq in Hj by (by eapply lookup_lt_Some). simplify_eq.
    destruct (uf_link _ _ Hwf i p Hi Hne) as (ri & rp & ? & ? & ?).
    destruct (decide (q = p)) as [->|Hqp]; [by exists ri, rp|].
    destruct (uf_link _ _ Hwf p q Hp Hqp) as (rp' & rq & ? & ? & ?). simplify_eq.
    exists ri, rq. split_and!; [done|done|lia].
  - rewrite list_lookup_insert_ne in Hj by done. by apply (uf_link _ _ Hwf).
Qed.

(** Halving keeps every representative. *)
Lemma halve_rep parent i p g j r :
  uf_wf parent rank → parent !! i = Some p → p ≠ i → parent !! p = Some g →
  rep (<[i := g]> parent) j r ↔ rep parent j r.
Proof.
  intros Hwf Hi Hne Hp.
  assert (Hgi : g ≠ i).
  { destruct (decide (g = p)) as [->|Hgp]; [done|]. intros ->.
    destruct (uf_link _ _ Hwf i p Hi Hne) as (ri & rp & ? & ? & ?).
    destruct (uf_link _ _ Hwf p i Hp Hgp) as (? & ? & ? & ? & ?). simplify_eq. lia. }
  assert (Hto : ∀ j r, rep (<[i := g]> parent) j r → rep parent j r).
  { clear j r. induction 1 as [j Hj|j q r Hj Hqj _ IH].
    - destruct (decide (i = j)) as [<-|Hij].
      + rewrite list_lookup_insert_eq in Hj by (by eapply lookup_lt_Some). by simplify_eq.
      + rewrite list_lookup_insert_ne in Hj by done. by constructor.
    - destruct (decide (i = j)) as [<-|Hij].
      + rewrite list_lookup_insert_eq in Hj by (by eapply lookup_lt_Some). simplify_eq.
        apply (rep_step _ i p); [done..|].
        destruct (decide (q = p)) as [->|Hqp]; [done|]. by apply (rep_step _ p q).
      + rewrite list_lookup_insert_ne in Hj by done. by apply (rep_step _ j q). }
  split; [apply Hto|]. intros Hr.
  destruct (rep_total (<[i := g]> parent) j) as [r' Hr'].
  - by eapply halve_wf.
  - rewrite length_insert. by eapply rep_lt.
  - rewrite (rep_functional _ _ _ _ Hr (Hto _ _ Hr')). done.
Qed.

Lemma uf_find_loop_spec fuel parent i :
  uf_wf parent rank → (i < length parent)%nat →
  (above rank (default O (rank !! i)) < fuel)%nat →
  ∃ parent' r, uf_find_loop fuel parent i = Some (parent', r) ∧ uf_wf parent' rank ∧
    rep parent i r ∧ ∀ j s, rep parent' j s ↔ rep parent j s.
Proof.
  revert parent i; induction fuel as [|fuel IH]; intros parent i Hwf Hi Hf; [lia|]. cbn.
  apply lookup_lt_is_Some_2 in Hi as [p Hp]. rewrite Hp; cbn.
  destruct (Nat.eqb_spec p i) as [->|Hne].
  - exists parent, i. split_and!; [done|done|by constructor|done].
  - destruct (wf_parent _ _ _ Hwf Hp) as [g Hg]. rewrite Hg; cbn.
    rewrite list_lookup_insert_eq by (by eapply lookup_lt_Some). cbn.
    pose proof (halve_wf _ _ _ _ Hwf Hp Hne Hg) as Hwf'.
    assert (Hmono : ∃ ri rg, rank !! i = Some ri ∧ rank !! g = Some rg ∧ (ri < rg)%nat).
    { destruct (uf_link _ _ Hwf' i g) as (ri & rg & ? & ? & ?); [| |by exists ri, rg].
      - apply list_lookup_insert_eq. by eapply lookup_lt_Some.
      - intros ->. destruct (uf_link _ _ Hwf i p Hp Hne) as (? & ? & ? & ? & ?).
        destruct (uf_link _ _ Hwf p i Hg) as (? & ? & ? & ? & ?); [done|]. simplify_eq. lia. }
    destruct Hmono as (ri & rg & Hri & Hrg & Hlt).
    destruct (IH (<[i := g]> parent) g) as (parent' & r & Hfind & Hwf'' & Hr & Hrep); [done| | |].
    + rewrite length_insert, (uf_len _ _ Hwf). by eapply lookup_lt_Some.
    + rewrite Hri in Hf. rewrite Hrg. cbn in *.
      assert (above rank rg < above rank ri)%nat; [|lia].
      apply above_lt; [done|]. by eapply list_elem_of_lookup_2.
    + exists parent', r. split_and!; [done|done| |].
      * apply (halve_rep _ _ _ _ _ _ Hwf Hp Hne Hg) in Hr. apply (rep_step _ i p); [done..|].
        destruct (decide (g = p)) as [->|Hgp]; [done|]. by apply (rep_step _ p g).
      * intros j s. rewrite Hrep. by eapply halve_rep.
Qed.

(** [uf_find] terminates without an out-of-range access, returns the
    representative, and compresses paths without changing any
    representative. *)
Lemma uf_find_total parent i :
  uf_wf parent rank → (i < length parent)%nat →
  ∃ parent' r, uf_find parent i = Some (parent', r) ∧ uf_wf parent' rank ∧
    rep parent i r ∧ ∀ j s, rep parent' j s ↔ rep parent j s.
Proof.
  intros Hwf Hi. apply uf_find_loop_spec; [done..|].
  rewrite (uf_len _ _ Hwf). pose proof (above_le_length rank (default O (rank !! i))). lia.
Qed.
End find.

(** Linking one root under another merges exactly their two classes. *)
Lemma link_rep parent rank x y i s :
  uf_wf parent rank → x ≠ y → parent !! x = Some x → parent !! y = Some y →
  rep (<[x := y]> parent) i s ↔ ∃ r, rep parent i r ∧ s = (if decide (r = x) then y else r).
Proof.
  intros Hwf Hxy Hx Hy.
  assert (Hfrom : ∀ i r, rep parent i r → rep (<[x := y]> parent) i (if decide (r = x) then y else r)).
  { clear i s. induction 1 as [i Hi|i p r Hi Hne _ IH].
    - destruct (decide (i = x)) as [->|Hix].
      + apply (rep_step _ x y); [|done|].
        * apply list_lookup_insert_eq. by eapply lookup_lt_Some.
        * constructor. by rewrite list_lookup_insert_ne.
      + constructor. by rewrite list_lookup_insert_ne.
    - apply (rep_step _ i p); [|done|done].
      rewrite list_lookup_insert_ne; [done|]. intros ->. congruence. }
  split.
  - intros Hs. destruct (rep_total rank parent i Hwf) as [r Hr].
    + apply rep_lt in Hs. by rewrite length_insert in Hs.
    + exists r. split; [done|]. by eapply rep_functional; [|apply Hfrom].
  - intros (r & Hr & ->). by apply Hfrom.
Qed.

Lemma link_wf parent rank x y kx ky :
  uf_wf parent rank → parent !! x = Some x → parent !! y = Some y →
  rank !! x = Some kx → rank !! y = Some ky → (kx < ky)%nat →
  uf_wf (<[x := y]> parent) rank.
Proof.
  intros Hwf Hx Hy Hkx Hky Hlt. split; [by rewrite length_insert, (uf_len _ _ Hwf)|].
  intros i p Hi Hne. destruct (decide (x = i)) as [<-|Hix].
  - rewrite list_lookup_insert_eq in Hi by (by eapply lookup_lt_Some). simplify_eq. by exists kx, ky.
  - rewrite list_lookup_insert_ne in Hi by done. by apply (uf_link _ _ Hwf).
Qed.

Lemma link_wf_eq parent rank x y k :
  uf_wf parent rank → x ≠ y → parent !! x = Some x → parent !! y = Some y →
  rank !! x = Some k → rank !! y = Some k →
  uf_wf (<[x := y]> parent) (<[y := S k]> rank).
Proof.
  intros Hwf Hxy Hx Hy Hkx Hky. split; [by rewrite !length_insert, (uf_len _ _ Hwf)|].
  intros i p Hi Hne. destruct (decide (x = i)) as [<-|Hix].
  - rewrite list_lookup_insert_eq in Hi by (by eapply lookup_lt_Some). simplify_eq.
    exists k, (S k). rewrite list_lookup_insert_ne, list_lookup_insert_eq by (done || by eapply lookup_lt_Some).
    split_and!; [done|done|lia].
  - rewrite list_lookup_insert_ne in Hi by done.
    destruct (uf_link _ _ Hwf i p Hi Hne) as (ri & rp & Hri & Hrp & Hlt).
    assert (i ≠ y) by congruence.
    rewrite (list_lookup_insert_ne _ y i) by done.
    destruct (decide (p = y)) as [->|Hpy].
    + exists ri, (S k). rewrite list_lookup_insert_eq by (by eapply lookup_lt_Some).
      simplify_eq. split_and!; [done|done|lia].
    + exists ri, rp. by rewrite list_lookup_insert_ne.
Qed.

(** Two nodes are in the same class. *)
Definition same (parent : list nat) (i j : nat) : Prop := ∃ r, rep parent i r ∧ rep parent j r.

Lemma same_sym parent i j : same parent i j → same parent j i.
Proof. intros (r & ? & ?). by exists r. Qed.
Lemma same_trans parent i j k : same parent i j → same parent j k → same parent i k.
Proof.
  intros (r & Hi & Hj) (s & Hj' & Hk). exists r. split; [done|].
  by rewrite (rep_functional _ _ _ _ Hj Hj').
Qed.

Lemma link_same parent rank x y i j :
  uf_wf parent rank → x ≠ y → parent !! x = Some x → parent !! y = Some y →
  same (<[x := y]> parent) i j ↔
  same parent i j ∨ (rep parent i x ∧ rep parent j y) ∨ (rep parent i y ∧ rep parent j x).
Proof.
  intros Hwf Hne Hx Hy. unfold same. split.
  - intros (s & Hi & Hj).
    apply (link_rep _ _ _ _ _ _ Hwf Hne Hx Hy) in Hi as (r1 & Hi & ->).
    apply (link_rep _ _ _ _ _ _ Hwf Hne Hx Hy) in Hj as (r2 & Hj & Heq).
    destruct (decide (r1 = x)), (decide (r2 = x)); subst; auto.
    + left. by exists x.
    + left. by exists r2.
  - setoid_rewrite (link_rep _ _ _ _ _ _ Hwf Hne Hx Hy).
    intros [(r & Hi & Hj)|[[Hi Hj]|[Hi Hj]]].
    + eexists. split; [by exists r | by exists r].
    + exists y. split; [exists x|exists y]; (split; [done|]).
      * by rewrite decide_True.
      * by rewrite decide_False by congruence.
    + exists y. split; [exists y|exists x]; (split; [done|]).
      * by rewrite decide_False by congruence.
      * by rewrite decide_True.
Qed.

(** Union succeeds on indices in range, keeps the forest well formed and
    merges exactly the classes of its two arguments. *)
Lemma uf_union_total parent rank a b :
  uf_wf parent rank → (a < length parent)%nat → (b < length parent)%nat →
  ∃ parent' rank', uf_union parent rank a b = Some (parent', rank') ∧ uf_wf parent' rank' ∧
    length parent' = length parent ∧
    ∀ i j, same parent' i j ↔
      same parent i j ∨ (same parent i a ∧ same parent b j) ∨ (same parent i b ∧ same parent a j).
Proof.
  intros Hwf Ha Hb. unfold uf_union.
  destruct (uf_find_total rank parent a Hwf Ha) as (p1 & ra & -> & Hwf1 & Hra & Hp1). cbn.
  assert (Hl1 : length p1 = length parent) by (rewrite (uf_len _ _ Hwf1), (uf_len _ _ Hwf); done).
  destruct (uf_find_total rank p1 b Hwf1) as (p2 & rb & -> & Hwf2 & Hrb & Hp2); [by rewrite Hl1|]. cbn.
  assert (Hl2 : length p2 = length parent) by (rewrite (uf_len _ _ Hwf2), (uf_len _ _ Hwf); done).
  assert (Hrep : ∀ j s, rep p2 j s ↔ rep parent j s) by (intros; by rewrite Hp2, Hp1).
  assert (Hsame : ∀ i j, same p2 i j ↔ same parent i j)
    by (intros i j; unfold same; by setoid_rewrite Hrep).
  apply Hp1 in Hrb.
  assert (Hmerge : ∀ i j, (rep parent i ra ∧ rep parent j rb) ↔ (same parent i a ∧ same parent b j)).
  { intros i j. unfold same. split.
    - intros [? ?]. split; [by exists ra | by exists rb].
    - intros [(r & Hi & Hr) (s & Hs & Hj)].
      rewrite (rep_functional _ _ _ _ Hra Hr), (rep_functional _ _ _ _ Hrb Hs). done. }
  assert (Hmerge' : ∀ i j, (rep parent i rb ∧ rep parent j ra) ↔ (same parent i b ∧ same parent a j)).
  { intros i j. unfold same. split.
    - intros [? ?]. split; [by exists rb | by exists ra].
    - intros [(r & Hi & Hr) (s & Hs & Hj)].
      rewrite (rep_functional _ _ _ _ Hra Hs), (rep_functional _ _ _ _ Hrb Hr). done. }
  assert (Hroot_a : p2 !! ra = Some ra) by (eapply rep_is_root; by apply Hrep).
  assert (Hroot_b : p2 !! rb = Some rb) by (eapply rep_is_root; by apply Hrep).
  destruct (Nat.eqb_spec ra rb) as [<-|Hne].
  - exists p2, rank. split_and!; [done|done|done|]. intros i j. rewrite Hsame, <-Hmerge, <-Hmerge'.
    split; [by left|]. intros [?|[[? ?]|[? ?]]]; [done|by exists ra|by exists ra].
  - destruct (wf_rank _ _ _ _ Hwf2 Hroot_a) as [ka Hka]. destruct (wf_rank _ _ _ _ Hwf2 Hroot_b) as [kb Hkb].
    rewrite Hka, Hkb. cbn [mbind option_bind].
    assert (Hgo : ∀ x y r', (x = ra ∧ y = rb) ∨ (x = rb ∧ y = ra) → uf_wf (<[x := y]> p2) r' →
      length (<[x := y]> p2) = length parent ∧
      ∀ i j, same (<[x := y]> p2) i j ↔
        same parent i j ∨ (same parent i a ∧ same parent b j) ∨ (same parent i b ∧ same parent a j)).
    { intros x y r' Hxy _. split; [by rewrite length_insert|]. intros i j.
      rewrite (link_same p2 rank) by (destruct Hxy as [[-> ->]|[-> ->]]; done || by apply not_eq_sym).
      rewrite Hsame, !Hrep, <-Hmerge, <-Hmerge'. destruct Hxy as [[-> ->]|[-> ->]]; tauto. }
    destruct (Nat.compare_spec ka kb) as [->|Hlt|Hlt].
    + pose proof (link_wf_eq p2 rank rb ra kb Hwf2 (not_eq_sym Hne) Hroot_b Hroot_a Hkb Hka) as Hw.
      destruct (Hgo rb ra _ (or_intror (conj eq_refl eq_refl)) Hw) as [? ?]. by eexists _, _.
    + pose proof (link_wf p2 rank ra rb ka kb Hwf2 Hroot_a Hroot_b Hka Hkb Hlt) as Hw.
      destruct (Hgo ra rb _ (or_introl (conj eq_refl eq_refl)) Hw) as [? ?]. by eexists _, _.
    + pose proof (link_wf p2 rank rb ra kb ka Hwf2 Hroot_b Hroot_a Hkb Hka Hlt) as Hw.
      destruct (Hgo rb ra _ (or_intror (conj eq_refl eq_refl)) Hw) as [? ?]. by eexists _, _.
Qed.

(** ** Clustering *)

Abbreviation rst R := (clos_refl_sym_trans nat R).

Lemma rst_mono (R S : nat → nat → Prop) i j : (∀ x y, R x y → S x y) → rst R i j → rst S i j.
Proof. intros HS. induction 1; eauto using rst_step, rst_refl, rst_sym, rst_trans. Qed.

(** The index pairs that a list of neighbour pairs names. *)
Definition edge (idx : gmap MemoryId nat) (pairs : list NeighborPair) (i j : nat) : Prop :=
  ∃ p, p ∈ pairs ∧ idx !! np_id_a p = Some i ∧ idx !! np_id_b p = Some j.

(** The classes of a forest are the components of a relation on [0..n-1]. *)
Definition classes (n : nat) (parent : list nat) (R : nat → nat → Prop) : Prop :=
  ∀ i j, same parent i j ↔ (i < n)%nat ∧ (j < n)%nat ∧ rst R i j.

Lemma classes_union n parent parent' R a b :
  (∀ x y, R x y → (x < n)%nat ∧ (y < n)%nat) → (a < n)%nat → (b < n)%nat →
  classes n parent R →
  (∀ i j, same parent' i j ↔
     same parent i j ∨ (same parent i a ∧ same parent b j) ∨ (same parent i b ∧ same parent a j)) →
  classes n parent' (λ x y, R x y ∨ (x = a ∧ y = b)).
Proof.
  intros HR Ha Hb Hc Hu i j.
  assert (Hlift : ∀ i j, rst R i j → rst (λ x y, R x y ∨ (x = a ∧ y = b)) i j)
    by (intros ??; apply rst_mono; auto).
  assert (Hab : rst (λ x y, R x y ∨ (x = a ∧ y = b)) a b) by (apply rst_step; auto).
  split.
  - rewrite Hu, !(Hc _ _). intros [(?&?&?)|[[(?&?&?) (?&?&?)]|[(?&?&?) (?&?&?)]]]; (split_and!; [done|done|]).
    + auto.
    + eapply rst_trans; [by apply Hlift|]. eapply rst_trans; [exact Hab|by apply Hlift].
    + eapply rst_trans; [by apply Hlift|]. eapply rst_trans; [apply rst_sym; exact Hab|by apply Hlift].
  - intros (Hi & Hj & Hr).
    assert (Hrefl : ∀ x, (x < n)%nat → same parent' x x).
    { intros x Hx. apply Hu. left. apply Hc. split_and!; [done|done|apply rst_refl]. }
    assert (Hor : i = j ∨ same parent' i j).
    { clear Hi Hj. induction Hr as [x y [Hxy|[-> ->]]|x|x y _ IH|x y z _ IH1 _ IH2].
      - right. apply Hu. left. apply Hc. destruct (HR _ _ Hxy). split_and!; [done|done|by apply rst_step].
      - right. apply Hu. right. left.
        split; apply Hc; (split_and!; [done|done|apply rst_refl]).
      - by left.
      - destruct IH as [->|IH]; [by left|right; by apply same_sym].
      - destruct IH1 as [->|IH1], IH2 as [->|IH2]; eauto using same_trans. }
    destruct Hor as [->|]; [by apply Hrefl|done].
Qed.

Lemma classes_ext n parent R S : (∀ x y, R x y ↔ S x y) → classes n parent R → classes n parent S.
Proof.
  intros HRS Hc i j. rewrite (Hc i j).
  split; intros (? & ? & Hr); (split_and!; [done|done|]); (eapply rst_mono; [|exact Hr]); naive_solver.
Qed.

Definition union_inv (n : nat) (R : nat → nat → Prop) (st : list nat * list nat * list (nat * nat * f64)) : Prop :=
  let '(parent, rank, sims) := st in
  uf_wf parent rank ∧ length parent = n ∧ classes n parent R ∧
  Forall (λ e : nat * nat * f64, (e.1.1 < n)%nat) sims.

Lemma classes_init n : classes n (seq 0 n) (λ _ _, False).
Proof.
  assert (Hself : ∀ i r, rep (seq 0 n) i r ↔ i = r ∧ (i < n)%nat).
  { intros i r. split.
    - induction 1 as [i Hi|i p r Hi Hne _ _]; apply lookup_seq in Hi as [? ?]; [done|]. cbn in *; lia.
    - intros [<- Hi]. constructor. apply lookup_seq. lia. }
  intros i j. unfold same. setoid_rewrite Hself. split.
  - intros (r & [-> ?] & [-> _]). split_and!; [done|done|apply rst_refl].
  - intros (Hi & Hj & Hr). assert (i = j) as ->; [|by exists j].
    clear Hi Hj. induction Hr; congruence || done.
Qed.

Lemma union_inv_init n : union_inv n (λ _ _, False) (seq 0 n, replicate n O, []).
Proof.
  split_and!; [|by rewrite length_seq|apply classes_init|constructor].
  split; [by rewrite length_seq, length_replicate|].
  intros i p Hi Hne. apply lookup_seq in Hi. cbn in *. lia.
Qed.

Lemma union_pair_total n idx R st p :
  (∀ x i, idx !! x = Some i → (i < n)%nat) → (∀ x y, R x y → (x < n)%nat ∧ (y < n)%nat) →
  union_inv n R st →
  ∃ st', union_pair idx st p = Some st' ∧ union_inv n (λ x y, R x y ∨ edge idx [p] x y) st'.
Proof.
  intros Hidx HR. destruct st as [[parent rank] sims]. intros (Hwf & Hl & Hc & Hs).
  assert (Hedge : ∀ x y, edge idx [p] x y ↔ idx !! np_id_a p = Some x ∧ idx !! np_id_b p = Some y).
  { intros x y. unfold edge. split; [intros (q & Hq & ? & ?); apply list_elem_of_singleton in Hq; by subst|].
    intros [? ?]. exists p. split_and!; [left|done|done]. }
  assert (Hskip : (∀ x y, edge idx [p] x y → x = y ∧ (x < n)%nat) →
    union_inv n (λ x y, R x y ∨ edge idx [p] x y) (parent, rank, sims)).
  { intros He. split_and!; [done|done| |done]. intros i j. rewrite (Hc i j).
    split; intros (? & ? & Hr); (split_and!; [done|done|]).
    - eapply rst_mono; [|exact Hr]. auto.
    - clear - Hr He. induction Hr as [x y [Hxy|Hxy]| |x y _ IH|x y z _ IH1 _ IH2].
      + by apply rst_step.
      + apply He in Hxy as [-> _]. apply rst_refl.
      + apply rst_refl.
      + by apply rst_sym.
      + by eapply rst_trans. }
  unfold union_pair.
  destruct (idx !! np_id_a p) as [i|] eqn:Ei; [destruct (idx !! np_id_b p) as [j|] eqn:Ej|].
  - destruct (Nat.eqb_spec i j) as [<-|Hij].
    + eexists. split; [done|]. apply Hskip. intros x y (? & ?)%Hedge. simplify_eq. eauto.
    + apply Hidx in Ei as Hi. apply Hidx in Ej as Hj.
      destruct (uf_union_total parent rank i j Hwf) as (parent' & rank' & -> & Hwf' & Hl' & Hu); [lia|lia|].
      cbn [mbind option_bind]. destruct (i <? j)%nat eqn:Hlt; (eexists; split; [done|]).
      all: split_and!; [done|by rewrite Hl'| |apply Forall_app; split; [exact Hs|constructor; [cbn; lia|constructor]]].
      all: eapply classes_ext; [|by apply (classes_union n parent parent' R i j)].
      all: intros x y; rewrite Hedge; split; (intros [?|[? ?]]; [by left|right; split; congruence]).
  - eexists. split; [done|]. apply Hskip. intros x y (? & ?)%Hedge. congruence.
  - eexists. split; [done|]. apply Hskip. intros x y (? & ?)%Hedge. congruence.
Qed.

Lemma union_pairs_total n idx R st pairs :
  (∀ x i, idx !! x = Some i → (i < n)%nat) → (∀ x y, R x y → (x < n)%nat ∧ (y < n)%nat) →
  union_inv n R st →
  ∃ st', fold_option (union_pair idx) st pairs = Some st' ∧
    union_inv n (λ x y, R x y ∨ edge idx pairs x y) st'.
Proof.
  intros Hidx. revert R st; induction pairs as [|p pairs IH]; intros R st HR Hinv; cbn.
  - eexists. split; [done|]. destruct st as [[parent rank] sims].
    destruct Hinv as (? & ? & Hc & ?). split_and!; [done|done| |done].
    eapply classes_ext; [|exact Hc]. intros x y. split; [auto|].
    intros [?|(q & Hq & _)]; [done|by apply elem_of_nil in Hq].
  - destruct (union_pair_total n idx R st p Hidx HR Hinv) as (st1 & -> & Hinv1). cbn.
    assert (HR1 : ∀ x y, R x y ∨ edge idx [p] x y → (x < n)%nat ∧ (y < n)%nat).
    { intros x y [?|(q & _ & ? & ?)]; [by apply HR|]. eauto. }
    destruct (IH _ _ HR1 Hinv1) as (st' & Hst' & Hinv').
    exists st'. split; [done|]. destruct st' as [[parent rank] sims].
    destruct Hinv' as (? & ? & Hc & ?). split_and!; [done|done| |done].
    eapply classes_ext; [|exact Hc]. intros x y. unfold edge.
    split.
    + intros [[?|(q & ->%list_elem_of_singleton & ?)]|(q & ? & ?)]; [by left|right; exists p; split; [left|done]|].
      right. exists q. split; [by right|done].
    + intros [?|(q & [->|Hq]%elem_of_cons & ?)]; [by auto|left; right; exists p; split; [left|done]|].
      right. by exists q.
Qed.

(** ** Collecting the groups *)

Section collect.
Context (parent0 rank : list nat).
Context (Hwf0 : uf_wf parent0 rank).

(** The representative, as a function. *)
Definition root_of (i : nat) : nat :=
  match uf_find parent0 i with Some (_, r) => r | None => O end.

(** A later state of the same forest. *)
Definition equiv_forest (parent : list nat) : Prop :=
  uf_wf parent rank ∧ ∀ j s, rep parent j s ↔ rep parent0 j s.

Lemma rep_root_of i : (i < length parent0)%nat → rep parent0 i (root_of i).
Proof.
  intros Hi. unfold root_of.
  destruct (uf_find_total rank parent0 i Hwf0 Hi) as (p & r & -> & _ & Hr & _). done.
Qed.

Lemma equiv_forest_refl : equiv_forest parent0.
Proof. by split. Qed.

Lemma equiv_find parent i :
  equiv_forest parent → (i < length parent0)%nat →
  ∃ parent', uf_find parent i = Some (parent', root_of i) ∧ equiv_forest parent'.
Proof.
  intros [Hwf Heq] Hi.
  destruct (uf_find_total rank parent i Hwf) as (p & r & Hf & Hwf' & Hr & Heq').
  { by rewrite (uf_len _ _ Hwf), <-(uf_len _ _ Hwf0). }
  exists p. rewrite Hf. apply Heq in Hr.
  rewrite (rep_functional _ _ _ _ Hr (rep_root_of i Hi)).
  split; [done|]. split; [done|]. intros j s. by rewrite Heq', Heq.
Qed.

Definition class_members (r : nat) (l : list nat) : list nat := List.filter (λ i, root_of i =? r)%nat l.

Definition members_inv (done_ : list nat) (groups : gmap nat (list nat)) : Prop :=
  ∀ r, default [] (groups !! r) = class_members r done_ ∧ groups !! r ≠ Some [].

Lemma class_members_app r l k : class_members r (l ++ k) = class_members r l ++ class_members r k.
Proof. apply List.filter_app. Qed.
Lemma elem_of_class_members r l i : i ∈ class_members r l ↔ i ∈ l ∧ root_of i = r.
Proof.
  unfold class_members. rewrite !list_elem_of_In, List.filter_In, Nat.eqb_eq. done.
Qed.

Lemma collect_members_total l done_ parent groups :
  equiv_forest parent → (∀ i, i ∈ l → (i < length parent0)%nat) → members_inv done_ groups →
  ∃ parent' groups', fold_option collect_member (parent, groups) l = Some (parent', groups') ∧
    equiv_forest parent' ∧ members_inv (done_ ++ l) groups'.
Proof.
  revert done_ parent groups; induction l as [|i l IH]; intros done_ parent groups He Hl Hinv; cbn.
  - exists parent, groups. by rewrite app_nil_r.
  - destruct (equiv_find parent i He) as (parent' & -> & He'); [apply Hl; left|]. cbn.
    destruct (IH (done_ ++ [i]) parent' (<[root_of i := default [] (groups !! root_of i) ++ [i]]> groups))
      as (p'' & g'' & Hf & ? & Hinv'); [done|intros; apply Hl; by right| |].
    + intros r. rewrite class_members_app. destruct (decide (root_of i = r)) as [<-|Hne].
      * rewrite lookup_insert_eq. cbn. rewrite Nat.eqb_refl. destruct (Hinv (root_of i)) as [-> _].
        split; [done|]. intros [= H]. by apply app_nil in H as [_ ?].
      * rewrite lookup_insert_ne by done. cbn. rewrite (proj2 (Nat.eqb_neq _ _) Hne), app_nil_r. apply Hinv.
    + exists p'', g''. split_and!; [done|done|]. by rewrite <-app_assoc in Hinv'.
Qed.

Lemma collect_similarity_total l parent sims :
  equiv_forest parent → Forall (λ e : nat * nat * f64, (e.1.1 < length parent0)%nat) l →
  ∃ parent' sims', fold_option collect_similarity (parent, sims) l = Some (parent', sims').
Proof.
  intros He Hl. revert parent sims He; induction Hl as [|[[i j] s] l Hi _ IH]; intros parent sims He; cbn.
  - by exists parent, sims.
  - destruct (equiv_find parent i He Hi) as (parent' & -> & He'). cbn.
    destruct (default (f0, 0) (sims !! root_of i)) as [sum count]. by apply IH.
Qed.

(** An entry of the final map lists a class, in index order. *)
Lemma members_inv_entry l groups r ms :
  members_inv l groups → groups !! r = Some ms → ms = class_members r l ∧ ms ≠ [].
Proof.
  intros Hinv Hr. destruct (Hinv r) as [Hm Hne]. rewrite Hr in Hm, Hne. cbn in Hm.
  split; [done|]. intros ->. by apply Hne.
Qed.
Lemma members_inv_find l groups i :
  members_inv l groups → i ∈ l → groups !! root_of i = Some (class_members (root_of i) l).
Proof.
  intros Hinv Hi. destruct (Hinv (root_of i)) as [Hm _].
  destruct (groups !! root_of i) as [ms|] eqn:E; cbn in Hm; [by subst|].
  assert (Hin : i ∈ class_members (root_of i) l) by (by apply elem_of_class_members).
  rewrite <-Hm in Hin. by apply elem_of_nil in Hin.
Qed.
Lemma same_root_of i j : (i < length parent0)%nat → (j < length parent0)%nat →
  same parent0 i j ↔ root_of i = root_of j.
Proof.
  intros Hi Hj. apply rep_root_of in Hi, Hj. split.
  - intros (r & Hri & Hrj).
    by rewrite (rep_functional _ _ _ _ Hi Hri), (rep_functional _ _ _ _ Hj Hrj).
  - intros Heq. exists (root_of i). split; [done|]. by rewrite Heq.
Qed.
End collect.

(** ** The ids *)

Definition memory_ids (memories : list MemoryWithEmbedding) : list MemoryId :=
  map (λ m, m_id (we_memory m)) memories.

(** The links between memories that a list of neighbour pairs gives, and
    being duplicates of one another: connected by such links. *)
Definition dup_edge (memories : list MemoryWithEmbedding) (pairs : list NeighborPair) (x y : MemoryId) : Prop :=
  x ∈ memory_ids memories ∧ y ∈ memory_ids memories ∧
  ∃ p, p ∈ pairs ∧ np_id_a p = x ∧ np_id_b p = y.
Definition duplicates (memories : list MemoryWithEmbedding) (pairs : list NeighborPair) : MemoryId → MemoryId → Prop :=
  clos_refl_sym_trans MemoryId (dup_edge memories pairs).

Lemma id_to_idx_foldl (l : list (nat * MemoryWithEmbedding)) (acc : gmap MemoryId nat) x i :
  foldl (λ acc im, <[m_id (we_memory im.2) := im.1]> acc) acc l !! x = Some i →
  (∃ m, (i, m) ∈ l ∧ m_id (we_memory m) = x) ∨ acc !! x = Some i.
Proof.
  revert acc; induction l as [|[k m] l IH]; intros acc; cbn; [auto|].
  intros [(m' & ? & ?)|H]%IH; [left; exists m'; split; [by right|done]|].
  destruct (decide (m_id (we_memory m) = x)) as [<-|Hne].
  - rewrite lookup_insert_eq in H. simplify_eq. left. exists m. split; [left|done].
  - rewrite lookup_insert_ne in H by done. by right.
Qed.

Lemma id_to_idx_foldl_mono (l : list (nat * MemoryWithEmbedding)) (acc : gmap MemoryId nat) x :
  is_Some (acc !! x) ∨ (∃ i m, (i, m) ∈ l ∧ m_id (we_memory m) = x) →
  is_Some (foldl (λ acc im, <[m_id (we_memory im.2) := im.1]> acc) acc l !! x).
Proof.
  revert acc; induction l as [|[k m] l IH]; intros acc; cbn.
  - intros [?|(? & ? & []%elem_of_nil & _)]. done.
  - intros H. apply IH. destruct (decide (m_id (we_memory m) = x)) as [<-|Hne].
    + left. rewrite lookup_insert_eq. done.
    + destruct H as [H|(i & m' & Hin & Hx)].
      * left. by rewrite lookup_insert_ne.
      * right. exists i, m'. apply elem_of_cons in Hin as [[= -> ->]|Hin]; [done|done].
Qed.

Lemma elem_of_zip_seq {A} (l : list A) i x : (i, x) ∈ zip (seq 0 (length l)) l ↔ l !! i = Some x.
Proof.
  rewrite list_elem_of_lookup. setoid_rewrite lookup_zip_Some. split.
  - intros (k & [Hk _]%lookup_seq & Hx). cbn in Hk. by subst.
  - intros Hx. exists i. split; [|done]. apply lookup_seq. split; [done|]. by eapply lookup_lt_Some.
Qed.

Lemma id_to_idx_Some memories x i :
  id_to_idx memories !! x = Some i → memory_ids memories !! i = Some x.
Proof.
  unfold id_to_idx. intros [(m & Hm & <-)|H]%id_to_idx_foldl; [|by rewrite lookup_empty in H].
  apply elem_of_zip_seq in Hm. unfold memory_ids. by rewrite list_lookup_fmap, Hm.
Qed.
Lemma id_to_idx_lt memories x i : id_to_idx memories !! x = Some i → (i < length memories)%nat.
Proof.
  intros H%id_to_idx_Some%lookup_lt_Some. unfold memory_ids in H. by rewrite length_map in H.
Qed.
Lemma id_to_idx_NoDup memories x i :
  NoDup (memory_ids memories) → memory_ids memories !! i = Some x → id_to_idx memories !! x = Some i.
Proof.
  intros Hnd Hi.
  assert (Hs : is_Some (id_to_idx memories !! x)).
  { apply id_to_idx_foldl_mono. right. unfold memory_ids in Hi. rewrite list_lookup_fmap in Hi.
    destruct (memories !! i) as [m|] eqn:Hm; [|done]. cbn in Hi. simplify_eq.
    exists i, m. split; [by apply elem_of_zip_seq|done]. }
  destruct Hs as [j Hj]. rewrite Hj. f_equal.
  apply id_to_idx_Some in Hj. by eapply NoDup_lookup.
Qed.

Lemma edge_dup_edge memories pairs i j x y :
  memory_ids memories !! i = Some x → memory_ids memories !! j = Some y →
  edge (id_to_idx memories) pairs i j → dup_edge memories pairs x y.
Proof.
  intros Hx Hy (p & Hp & Hi%id_to_idx_Some & Hj%id_to_idx_Some).
  rewrite Hx in Hi. rewrite Hy in Hj. simplify_eq.
  split_and!; [by eapply list_elem_of_lookup_2..|by exists p].
Qed.

(** Index components and id components agree when ids are distinct. *)
Lemma rst_duplicates memories pairs i j x y :
  NoDup (memory_ids memories) →
  memory_ids memories !! i = Some x → memory_ids memories !! j = Some y →
  rst (edge (id_to_idx memories) pairs) i j ↔ duplicates memories pairs x y.
Proof.
  intros Hnd Hx Hy. split.
  - intros Hr. revert x y Hx Hy.
    assert (Hb : ∀ i j, rst (edge (id_to_idx memories) pairs) i j →
      i = j ∨ ∃ x y, memory_ids memories !! i = Some x ∧ memory_ids memories !! j = Some y ∧
                     duplicates memories pairs x y).
    { clear. induction 1 as [i j (p & Hp & Hi & Hj)|i|i j _ IH|i j k _ IH1 _ IH2].
      - right. apply id_to_idx_Some in Hi as Hi', Hj as Hj'. exists (np_id_a p), (np_id_b p).
        split_and!; [done|done|]. apply rst_step. eapply edge_dup_edge; [done|done|by exists p].
      - by left.
      - destruct IH as [->|(x & y & ? & ? & ?)]; [by left|right]. exists y, x. split_and!; [done|done|by apply rst_sym].
      - destruct IH1 as [->|(x & y & ? & ? & ?)]; [done|].
        destruct IH2 as [<-|(y' & z & ? & ? & ?)]; [right; by exists x, y|right]. simplify_eq.
        exists x, z. split_and!; [done|done|by eapply rst_trans]. }
    intros x y Hx Hy. destruct (Hb _ _ Hr) as [->|(x' & y' & ? & ? & ?)]; simplify_eq; [apply rst_refl|done].
  - intros Hd.
    assert (Hb : x = y ∨ ∃ i j, memory_ids memories !! i = Some x ∧ memory_ids memories !! j = Some y ∧
                                rst (edge (id_to_idx memories) pairs) i j).
    { clear Hx Hy i j. induction Hd as [x y (Hx & Hy & p & Hp & <- & <-)|x|x y _ IH|x y z _ IH1 _ IH2].
      - right. apply list_elem_of_lookup in Hx as [i Hi], Hy as [j Hj]. exists i, j.
        split_and!; [done|done|]. apply rst_step. exists p.
        split_and!; [done|by apply id_to_idx_NoDup..].
      - by left.
      - destruct IH as [->|(i & j & ? & ? & ?)]; [by left|right]. exists j, i. split_and!; [done|done|by apply rst_sym].
      - destruct IH1 as [->|(i & j & ? & Hj & ?)]; [done|].
        destruct IH2 as [<-|(j' & k & Hj' & ? & ?)]; [right; by exists i, j|right].
        assert (j = j') as <- by (by eapply NoDup_lookup).
        exists i, k. split_and!; [done|done|by eapply rst_trans]. }
    destruct Hb as [->|(i' & j' & Hi & Hj & ?)].
    + assert (i = j) as -> by (by eapply NoDup_lookup). apply rst_refl.
    + assert (i = i') as <- by (by eapply NoDup_lookup).
      assert (j = j') as <- by (by eapply NoDup_lookup). done.
Qed.

(** What one group records of the index class it was built from. *)
Record group_of (memories : list MemoryWithEmbedding) (members : list nat) (g : DuplicateGroup) : Prop := {
  go_count : dg_member_count g = len members;
  go_length : len (dg_member_ids g) = len members;
  go_members : ∀ x, x ∈ dg_member_ids g ↔ ∃ i, i ∈ members ∧ memory_ids memories !! i = Some x;
  go_representative : ∃ m, m ∈ memories ∧ m_id (we_memory m) = dg_representative_id g ∧
    dg_representative_id g ∈ dg_member_ids g ∧
    ∀ i m', i ∈ members → memories !! i = Some m' →
      cmp_duplicate_representative (we_memory m') (we_memory m) ≠ Gt;
}.

#[export] Instance cmp_duplicate_representative_total : TotalPreorder cmp_duplicate_representative.
Proof. unfold cmp_duplicate_representative. apply _. Qed.
#[export] Instance cmp_group_total : TotalPreorder cmp_group.
Proof. unfold cmp_group. apply _. Qed.

Lemma build_duplicate_group_total memories members avg :
  members ≠ [] → (∀ i, i ∈ members → (i < length memories)%nat) →
  ∃ g, build_duplicate_group memories members avg = Some g ∧ group_of memories members g.
Proof.
  intros Hne Hlt. unfold build_duplicate_group.
  destruct (mapM (λ idx, memories !! idx) members) as [ms|] eqn:Hms.
  2:{ apply mapM_None, Exists_exists in Hms as (i & Hi & Hn). apply lookup_ge_None in Hn.
      apply Hlt in Hi. lia. }
  cbn. pose proof Hms as Hf%mapM_Some.
  assert (Hl : length ms = length members) by (symmetry; by eapply Forall2_length).
  destruct ms as [|m0 ms']; [by destruct members|].
  destruct (max_by (cmp_on we_memory cmp_duplicate_representative) (m0 :: ms')) as [m|] eqn:Hmax; [|done].
  remember (m0 :: ms') as ms eqn:Hmseq. clear Hmseq m0 ms'.
  cbn. eexists. split; [done|].
  assert (Hmem : ∀ m, m ∈ ms ↔ ∃ i, i ∈ members ∧ memories !! i = Some m).
  { intros m1. split.
    - intros [k Hk]%list_elem_of_lookup. destruct (Forall2_lookup_r _ _ _ _ _ Hf Hk) as (i & Hi & ?).
      exists i. split; [by eapply list_elem_of_lookup_2|done].
    - intros (i & [k Hk]%list_elem_of_lookup & Hm1).
      destruct (Forall2_lookup_l _ _ _ _ _ Hf Hk) as (m2 & Hk2 & Hm2).
      rewrite Hm1 in Hm2. injection Hm2 as <-. by eapply list_elem_of_lookup_2. }
  assert (Hids : ∀ x, x ∈ sort_by N.compare (map (λ m, m_id (we_memory m)) ms) ↔
                 ∃ i, i ∈ members ∧ memory_ids memories !! i = Some x).
  { intros x. rewrite elem_of_sort_by, list_elem_of_fmap. unfold memory_ids. split.
    - intros (m1 & -> & (i & ? & Hm1)%Hmem). exists i. by rewrite list_lookup_fmap, Hm1.
    - intros (i & Hi & Hx). rewrite list_lookup_fmap in Hx.
      destruct (memories !! i) as [m1|] eqn:E; [|done]. cbn in Hx.
      injection Hx as <-. exists m1. split; [done|]. apply Hmem. by exists i. }
  split; cbn [dg_member_count dg_member_ids dg_representative_id].
  - done.
  - unfold len. rewrite sort_by_length, length_map. by rewrite Hl.
  - exact Hids.
  - exists m. apply max_by_in in Hmax as Hin. apply Hmem in Hin as (i & Hi & Hm). split_and!.
    + by eapply list_elem_of_lookup_2.
    + done.
    + apply Hids. exists i. split; [done|]. unfold memory_ids. by rewrite list_lookup_fmap, Hm.
    + intros j m' Hj Hm'. eapply (max_by_ge (cmp_on we_memory cmp_duplicate_representative)); [done|].
      apply Hmem. eauto.
Qed.

(** The members of a group: the component of one of them. *)
Definition component (n : nat) (R : nat → nat → Prop) (i : nat) (members : list nat) : Prop :=
  (i < n)%nat ∧ ∀ j, j ∈ members ↔ (j < n)%nat ∧ rst R i j.

Lemma class_members_component parent rank n R i :
  uf_wf parent rank → length parent = n → classes n parent R → (i < n)%nat →
  component n R i (class_members parent (root_of parent i) (seq 0 n)).
Proof.
  intros Hwf Hl Hc Hi. split; [done|]. intros j. rewrite elem_of_class_members, elem_of_seq.
  split.
  - intros [[_ Hj] Hr]. split; [lia|].
    apply (same_root_of parent rank Hwf) in Hr; [|lia|lia]. apply same_sym, Hc in Hr as (_ & _ & ?). done.
  - intros [Hj Hr]. split; [lia|]. symmetry.
    apply (same_root_of parent rank Hwf); [lia|lia|]. by apply Hc.
Qed.

Lemma groups_size_le parent n (members : gmap nat (list nat)) :
  members_inv parent (seq 0 n) members → (length (map_to_list members) ≤ n)%nat.
Proof.
  intros Hinv. transitivity (length (map (root_of parent) (seq 0 n))); [|by rewrite length_map, length_seq]. apply map_to_list_length_le. intros r [ms Hr].
  destruct (members_inv_entry _ _ _ _ _ Hinv Hr) as [-> Hne].
  destruct (class_members parent r (seq 0 n)) as [|i l] eqn:E; [done|].
  assert (Hi : i ∈ class_members parent r (seq 0 n)) by (rewrite E; left).
  apply elem_of_class_members in Hi as [Hi <-]. apply list_elem_of_fmap. eauto.
Qed.

(** The clustering at the level of indices: the call always succeeds, and the
    groups before truncation are exactly the components of at least two
    memories. *)
Lemma find_groups_components memories pairs max_groups :
  let R := edge (id_to_idx memories) pairs in
  let n := length memories in
  ∃ gs, find_duplicate_groups_from_pairs memories pairs max_groups
          = Some (truncate max_groups (sort_by cmp_group gs)) ∧
    (length gs ≤ n)%nat ∧
    (∀ g, g ∈ gs → ∃ i members, component n R i members ∧ 2 ≤ len members ∧ group_of memories members g) ∧
    (∀ i j, (i < n)%nat → (j < n)%nat → i ≠ j → rst R i j →
       ∃ g members, g ∈ gs ∧ component n R i members ∧ group_of memories members g).
Proof.
  cbn zeta. set (idx := id_to_idx memories). set (n := length memories).
  unfold find_duplicate_groups_from_pairs. fold n idx.
  destruct ((n <? 2)%nat || (length pairs =? 0)%nat) eqn:Hearly.
  { exists []. split; [by cbn; rewrite truncate_nil|]. split; [cbn; lia|]. split; [intros g Hg; by apply elem_of_nil in Hg|].
    intros i j Hi Hj Hne Hr. exfalso. apply orb_true_iff in Hearly as [Hn%Nat.ltb_lt|Hp%Nat.eqb_eq]; [lia|].
    apply nil_length_inv in Hp. subst pairs. apply Hne. clear -Hr. induction Hr as [x y (p & []%elem_of_nil & _)| | |]; congruence. }
  destruct (union_pairs_total n idx (λ _ _, False) (seq 0 n, replicate n O, []) pairs)
    as ([[parent rank] sims] & -> & Hwf & Hl & Hc0 & Hs).
  { intros x i. apply id_to_idx_lt. } { done. } { apply union_inv_init. }
  assert (Hc : classes n parent (edge idx pairs)).
  { eapply classes_ext; [|exact Hc0]. cbn. tauto. }
  cbn [mbind option_bind].
  destruct (collect_members_total parent rank Hwf (seq 0 n) [] parent ∅)
    as (parent1 & members & -> & He1 & Hinv); [apply equiv_forest_refl; done| |done|].
  { intros i Hi. apply elem_of_seq in Hi. lia. }
  cbn [mbind option_bind app] in *. rewrite <-Hl in Hs.
  destruct (collect_similarity_total parent rank Hwf sims parent1 ∅ He1 Hs) as (parent2 & group_sims & ->).
  cbn [mbind option_bind].
  set (big := List.filter (λ e : nat * list nat, 2 <=? len e.2) (map_to_list members)).
  assert (Hbig : ∀ e, e ∈ big → ∃ i, (i < n)%nat ∧ component n (edge idx pairs) i e.2 ∧ 2 ≤ len e.2).
  { intros [r ms] He. unfold big in He. apply list_elem_of_In, List.filter_In in He as [He Hlen].
    apply Z.leb_le in Hlen. apply list_elem_of_In, elem_of_map_to_list in He.
    destruct (members_inv_entry _ _ _ _ _ Hinv He) as [-> Hne].
    destruct (class_members parent r (seq 0 n)) as [|i l] eqn:E; [done|].
    assert (Hi : i ∈ class_members parent r (seq 0 n)) by (rewrite E; left).
    apply elem_of_class_members in Hi as [Hi <-]. apply elem_of_seq in Hi.
    exists i. rewrite <-E in *. split_and!; [lia| |done].
    apply (class_members_component parent rank); (done || lia). }
  assert (Hbuild : ∀ e, e ∈ big → ∃ g, group_of_entry memories group_sims e = Some g ∧ group_of memories e.2 g).
  { intros e He. destruct (Hbig e He) as (i & Hi & [_ Hm] & Hlen). unfold group_of_entry.
    destruct (default (f0, 0) (group_sims !! e.1)) as [sum count].
    apply build_duplicate_group_total.
    - intros E. rewrite E, len_nil in Hlen. lia.
    - intros j Hj. by apply Hm in Hj as [? _]. }
  destruct (mapM (group_of_entry memories group_sims) big) as [gs|] eqn:Hgs.
  2:{ apply mapM_None, Exists_exists in Hgs as (e & He & Hn).
      destruct (Hbuild e He) as (g & Hg & _). congruence. }
  cbn. apply mapM_Some in Hgs. exists gs. split_and!.
  - done.
  - rewrite <-(Forall2_length _ _ _ Hgs). unfold big.
    etransitivity; [apply List.filter_length_le|]. by eapply groups_size_le.
  - intros g Hg. apply list_elem_of_lookup in Hg as [k Hk].
    destruct (Forall2_lookup_r _ _ _ _ _ Hgs Hk) as (e & He & Hbg).
    apply list_elem_of_lookup_2 in He. destruct (Hbuild e He) as (g' & Hg' & Hgo).
    rewrite Hbg in Hg'. injection Hg' as <-.
    destruct (Hbig e He) as (i & _ & ? & ?). by exists i, e.2.
  - intros i j Hi Hj Hne Hr.
    assert (Hin : (root_of parent i, class_members parent (root_of parent i) (seq 0 n)) ∈ big).
    { unfold big. apply list_elem_of_In, List.filter_In. split.
      - apply list_elem_of_In, elem_of_map_to_list. apply (members_inv_find parent); [done|].
        apply elem_of_seq. lia.
      - cbn [snd]. apply Z.leb_le.
        destruct (class_members_component parent rank n _ i Hwf Hl Hc Hi) as [_ Hm].
        assert (H1 : i ∈ class_members parent (root_of parent i) (seq 0 n)) by (apply Hm; split; [done|apply rst_refl]).
        assert (H2 : j ∈ class_members parent (root_of parent i) (seq 0 n)) by (apply Hm; done).
        destruct (class_members parent (root_of parent i) (seq 0 n)) as [|x [|y l]]; rewrite ?len_cons.
        + by apply elem_of_nil in H1.
        + apply list_elem_of_singleton in H1, H2. congruence.
        + pose proof (len_nonneg l). lia. }
    destruct (Hbuild _ Hin) as (g & Hg & Hgo).
    apply list_elem_of_lookup in Hin as [k Hk].
    destruct (Forall2_lookup_l _ _ _ _ _ Hgs Hk) as (g' & Hg' & Hbg).
    rewrite Hbg in Hg. injection Hg as <-.
    exists g', (class_members parent (root_of parent i) (seq 0 n)).
    split_and!; [by eapply list_elem_of_lookup_2| |done].
    apply (class_members_component parent rank); done.
Qed.

(** ** The theorems about consolidation *)

Lemma memory_ids_lookup_lt memories i x : memory_ids memories !! i = Some x → (i < length memories)%nat.
Proof. intros H%lookup_lt_Some. unfold memory_ids in H. by rewrite length_map in H. Qed.

(** The ids of a group built from a component. *)
Lemma component_ids memories pairs i members g x y :
  NoDup (memory_ids memories) →
  component (length memories) (edge (id_to_idx memories) pairs) i members →
  group_of memories members g → x ∈ dg_member_ids g →
  y ∈ dg_member_ids g ↔ y ∈ memory_ids memories ∧ duplicates memories pairs x y.
Proof.
  intros Hnd [Hi Hm] Hg Hx. rewrite (go_members _ _ _ Hg) in Hx. destruct Hx as (k & Hk & Hx).
  apply Hm in Hk as [_ Hik]. rewrite (go_members _ _ _ Hg). split.
  - intros (j & Hj & Hy). apply Hm in Hj as [_ Hij]. split; [by eapply list_elem_of_lookup_2|].
    apply (rst_duplicates memories pairs k j); [done..|].
    eapply rst_trans; [apply rst_sym; exact Hik|exact Hij].
  - intros [[j Hy]%list_elem_of_lookup Hd]. exists j. split; [|done].
    apply Hm. split; [by eapply memory_ids_lookup_lt|].
    eapply rst_trans; [exact Hik|]. by apply (rst_duplicates memories pairs k j x y).
Qed.

Lemma duplicate_groups_classes memories pairs max_groups
    (Hnd : NoDup (memory_ids memories)) (Hmax : 0 ≤ max_groups) :
  ∃ groups, find_duplicate_groups_from_pairs memories pairs max_groups = Some groups ∧
    len groups ≤ max_groups ∧
    (∀ g, g ∈ groups →
       2 ≤ dg_member_count g ∧ len (dg_member_ids g) = dg_member_count g ∧
       dg_representative_id g ∈ dg_member_ids g ∧
       ∀ x, x ∈ dg_member_ids g →
         ∀ y, y ∈ dg_member_ids g ↔ y ∈ memory_ids memories ∧ duplicates memories pairs x y) ∧
    (len memories ≤ max_groups →
     ∀ x y, x ∈ memory_ids memories → y ∈ memory_ids memories → x ≠ y →
       duplicates memories pairs x y →
       ∃ g, g ∈ groups ∧ x ∈ dg_member_ids g ∧ y ∈ dg_member_ids g).
Proof.
  destruct (find_groups_components memories pairs max_groups) as (gs & Hf & Hlen & Hall & Hex).
  eexists. split; [exact Hf|]. split_and!.
  - by apply truncate_len.
  - intros g Hg%elem_of_truncate%elem_of_sort_by. destruct (Hall g Hg) as (i & ms & Hc & H2 & Hgo).
    destruct (go_representative _ _ _ Hgo) as (m & _ & _ & Hrep & _).
    rewrite (go_count _ _ _ Hgo), (go_length _ _ _ Hgo). split_and!; [done|done|done|].
    intros x Hx y. by eapply component_ids.
  - intros Hle x y [i Hx]%list_elem_of_lookup [j Hy]%list_elem_of_lookup Hne Hd.
    destruct (Hex i j) as (g & ms & Hg & Hc & Hgo).
    + by eapply memory_ids_lookup_lt.
    + by eapply memory_ids_lookup_lt.
    + intros ->. congruence.
    + by apply (rst_duplicates memories pairs i j x y).
    + exists g. split.
      * rewrite truncate_all; [by apply elem_of_sort_by|].
        unfold len in *. rewrite sort_by_length. lia.
      * assert (Hxg : x ∈ dg_member_ids g).
        { apply (go_members _ _ _ Hgo). exists i. split; [|done]. apply Hc.
          split; [by eapply memory_ids_lookup_lt|apply rst_refl]. }
        split; [done|]. apply (component_ids memories pairs i ms g x y Hnd Hc Hgo Hxg).
        split; [by eapply list_elem_of_lookup_2|done].
Qed.

(** C22. Duplicate clustering is correct and never fails. For candidates with
    distinct ids and any list of neighbour pairs, the clustering terminates
    without an out-of-range access and returns at most [max_groups] groups;
    every group has at least two members, its members are exactly the
    duplicate class of each of them (the memories connected to it through
    pairs of candidates), and its representative is one of them; and when the
    limit is at least the number of candidates, any two distinct duplicates
    are in a common group. *)
Theorem duplicate_groups_correct memories pairs max_groups
    (Hnd : NoDup (memory_ids memories)) (Hmax : 0 ≤ max_groups) :
  ∃ groups, find_duplicate_groups_from_pairs memories pairs max_groups = Some groups ∧
    len groups ≤ max_groups ∧
    (∀ g, g ∈ groups →
       2 ≤ dg_member_count g ∧ len (dg_member_ids g) = dg_member_count g ∧
       dg_representative_id g ∈ dg_member_ids g ∧
       ∀ x, x ∈ dg_member_ids g →
         ∀ y, y ∈ dg_member_ids g ↔ y ∈ memory_ids memories ∧ duplicates memories pairs x y) ∧
    (len memories ≤ max_groups →
     ∀ x y, x ∈ memory_ids memories → y ∈ memory_ids memories → x ≠ y →
       duplicates memories pairs x y →
       ∃ g, g ∈ groups ∧ x ∈ dg_member_ids g ∧ y ∈ dg_member_ids g).
Proof. by apply duplicate_groups_classes. Qed.

Definition sample_candidate (id : MemoryId) (updated_at : DateTime) : MemoryWithEmbedding :=
  {| we_memory :=
       {| m_id := id; m_content := "c"; m_tags := []; m_provenance := provenance_default;
          m_access_policy := AccessPolicy.Public; m_created_at := 0; m_updated_at := updated_at;
          m_record_revision := 0; m_expires_at := None; m_has_embedding := true;
          m_memory_type := MemoryType.Semantic; m_importance := Importance.DEFAULT;
          m_confidence := Confidence.DEFAULT; m_impression_count := 0; m_last_impressed_at := None;
          m_superseded_by := None; m_activity_mass := f0; m_last_used_at := None; m_entities := [];
          m_was_redacted := false |};
     we_embedding := None; we_context_ids := [] |}.
Definition sample_pair (a b : MemoryId) : NeighborPair :=
  {| np_id_a := a; np_id_b := b; np_similarity := f1 |}.

Example sample_groups :
  (map (λ g, (dg_representative_id g, dg_member_ids g))) <$>
    find_duplicate_groups_from_pairs
      (map (λ i, sample_candidate i (Z.of_N i)) [1; 2; 3; 4; 5; 6]%N)
      [sample_pair 1 4; sample_pair 6 4; sample_pair 2 3; sample_pair 2 9]%N 10
  = Some [(6, [1; 4; 6]); (3, [2; 3])]%N.
Proof. vm_compute. reflexivity. Qed.

Lemma duplicate_groups_correct_witness :
  let memories := map (λ i, sample_candidate i (Z.of_N i)) [1; 2; 3]%N in
  let pairs := [sample_pair 1 3]%N in
  ∃ groups, find_duplicate_groups_from_pairs memories pairs 5 = Some groups ∧
    ∃ g, g ∈ groups ∧ (1%N ∈ dg_member_ids g) ∧ (3%N ∈ dg_member_ids g).
Proof.
  destruct (duplicate_groups_correct (map (λ i, sample_candidate i (Z.of_N i)) [1; 2; 3]%N) [sample_pair 1 3]%N 5)
    as (groups & Hf & _ & _ & Hall).
  - cbn. apply NoDup_ListNoDup. repeat constructor; cbn; intuition discriminate.
  - discriminate.
  - exists groups. split; [exact Hf|]. apply Hall.
    + discriminate.
    + cbn. repeat constructor.
    + cbn. repeat constructor.
    + discriminate.
    + apply rst_step. split; [|split]; [cbn; repeat constructor..|].
      eexists. split; [left|]. split; reflexivity.
Defined.
