(* ===== verification/RerankerSettings.v ===== *)
(** * RerankerSettings: the configuration of the reranker

    [RerankerConfig] of [src/src/config/mod.rs] with its defaults and its
    validation. *)
From Stdlib Require Import ZArith Lia.
From stdpp Require Import base list option strings.
From S2P Require Import Prelude Text Floats Errors Types.

Definition in_quotes (s : string) : string := of_bytes [byte 34] +:+ s +:+ of_bytes [byte 34].

Module RerankerExecutionProvider.
Inductive t := Auto | Cpu | Cuda.
#[global] Instance eq_dec : EqDecision t.
Proof. solve_decision. Defined.
Definition to_string (p : t) : string := match p with Auto => "auto" | Cpu => "cpu" | Cuda => "cuda" end.
Definition from_str (value : string) : result ParseEnumError t :=
  if String.eqb value "auto" then Ok Auto
  else if String.eqb value "cpu" then Ok Cpu
  else if String.eqb value "cuda" then Ok Cuda
  else Err {| pe_what := "unknown reranker execution provider"; pe_other := value |}.
End RerankerExecutionProvider.
Module RerankerPrecision.
Inductive t := Fp32 | Fp16.
#[global] Instance eq_dec : EqDecision t.
Proof. solve_decision. Defined.
Definition to_string (p : t) : string := match p with Fp32 => "fp32" | Fp16 => "fp16" end.
Definition from_str (value : string) : result ParseEnumError t :=
  if String.eqb value "fp32" then Ok Fp32
  else if String.eqb value "fp16" then Ok Fp16
  else Err {| pe_what := "unknown reranker precision"; pe_other := value |}.
End RerankerPrecision.

Definition DEFAULT_RERANKER_MODEL : string := "cross-encoder/ms-marco-MiniLM-L-6-v2".
Definition DEFAULT_RERANKER_MODEL_CANONICAL : string := "cross-encoder/ms-marco-MiniLM-L6-v2".
Definition DEFAULT_RERANKER_REVISION : string := "c5ee24cb16019beea0893ab7796b1df96625c6b8".
Definition is_builtin_default_reranker_model (model : string) : bool :=
  String.eqb model DEFAULT_RERANKER_MODEL || String.eqb model DEFAULT_RERANKER_MODEL_CANONICAL.

Record RerankerConfig := {
  rcf_enabled : bool;
  rcf_execution_provider : RerankerExecutionProvider.t;
  rcf_precision : RerankerPrecision.t;
  rcf_required : bool;
  rcf_model : string;
  rcf_revision : string;
  rcf_model_path : string;
  rcf_model_sha256 : string;
  rcf_tokenizer_sha256 : string;
  rcf_pool_size : Z;
  rcf_blend_weight : f64;
  rcf_cache_dir : string;
}.
Definition reranker_config_default : RerankerConfig :=
  {| rcf_enabled := false; rcf_execution_provider := RerankerExecutionProvider.Auto; rcf_precision := RerankerPrecision.Fp32;
     rcf_required := false; rcf_model := DEFAULT_RERANKER_MODEL; rcf_revision := ""; rcf_model_path := ""; rcf_model_sha256 := "";
     rcf_tokenizer_sha256 := ""; rcf_pool_size := 50; rcf_blend_weight := f64_lit 7 10; rcf_cache_dir := "~/.cache/localhold/models" |}.

Definition validate_reranker_config (c : RerankerConfig) : result EngineError.t unit :=
  let fp16 := bool_decide (rcf_precision c = RerankerPrecision.Fp16) in
  let empty := str_is_empty in
  _ ← bail_if (rcf_pool_size c =? 0) (EngineError.Config "reranker.pool_size must be greater than zero");
  _ ← bail_if (negb (is_finite (rcf_blend_weight c)) || negb (fleb f0 (rcf_blend_weight c) && fleb (rcf_blend_weight c) f1))
        (EngineError.Config "reranker.blend_weight must be a finite number in [0, 1]");
  _ ← bail_if (rcf_required c && negb (rcf_enabled c)) (EngineError.Config "reranker.required = true requires reranker.enabled = true");
  _ ← bail_if (fp16 && negb (bool_decide (rcf_execution_provider c = RerankerExecutionProvider.Cuda)))
        (EngineError.Config ("reranker.precision = " +:+ in_quotes "fp16" +:+ " requires reranker.execution_provider = " +:+ in_quotes "cuda"
           +:+ "; auto fallback and CPU execution are not supported"));
  _ ← bail_if (fp16 && empty (rcf_model_path c)
               && (negb (is_builtin_default_reranker_model (rcf_model c))
                   || negb (empty (rcf_revision c)) && negb (String.eqb (rcf_revision c) DEFAULT_RERANKER_REVISION)
                   || negb (empty (rcf_model_sha256 c)) || negb (empty (rcf_tokenizer_sha256 c))))
        (EngineError.Config "the managed fp16 reranker artifact requires the builtin model and pins; use model_path for a custom FP16 artifact");
  if rcf_enabled c && empty (rcf_model_path c) then
    if is_builtin_default_reranker_model (rcf_model c) then
      let custom_revision := negb (empty (rcf_revision c)) && negb (String.eqb (rcf_revision c) DEFAULT_RERANKER_REVISION) in
      bail_if (custom_revision && (empty (rcf_model_sha256 c) || empty (rcf_tokenizer_sha256 c)))
        (EngineError.Config "overriding reranker.revision on the builtin model requires explicit model_sha256 and tokenizer_sha256")
    else
      _ ← bail_if (empty (rcf_revision c)) (EngineError.Config "reranker.revision must be set for custom auto-downloaded models");
      _ ← bail_if (empty (rcf_model_sha256 c)) (EngineError.Config "reranker.model_sha256 must be set for custom auto-downloaded models");
      bail_if (empty (rcf_tokenizer_sha256 c)) (EngineError.Config "reranker.tokenizer_sha256 must be set for custom auto-downloaded models")
  else Ok ().
