(* ===== verification/Ranking.v ===== *)
(** * Ranking: deterministic ordering, rank fusion and composite scoring

    [src/src/ordering.rs], [src/src/fusion.rs] and [src/src/scoring.rs]. The
    scores are computed in binary64; the libm functions [exp2] and [ln_1p]
    are parameters. Timestamps are nanoseconds. *)
From Stdlib Require Import ZArith Lia.
From Stdlib Require Import Sorting.Sorted.
From stdpp Require Import base list option strings gmap sets.
From S2P Require Import Prelude Text Floats Lists Errors Types StoreTypes RerankerSettings Consolidation.

(** ** Ordering *)

Definition valid_updated_at (m : Memory) (now : DateTime) : option DateTime :=
  if m_updated_at m <=? now then Some (m_updated_at m)
  else if m_created_at m <=? now then Some (m_created_at m)
  else None.

Definition valid_last_used_at (m : Memory) (now : DateTime) : option DateTime :=
  match m_last_used_at m with
  | Some t => if t <=? now then Some t else None
  | None => None
  end.

Definition cmp_f64_desc (a b : f64) : comparison := total_cmp b a.

Definition cmp_optional_datetime_desc (a b : option DateTime) : comparison :=
  match a, b with
  | Some a, Some b => Z.compare b a
  | Some _, None => Lt
  | None, Some _ => Gt
  | None, None => Eq
  end.

Definition composite_or_min (r : SearchResult) : f64 :=
  default f_neg_infinity (sr_composite_score r).

Definition cmp_search_result_score_desc (now : DateTime) : SearchResult → SearchResult → comparison :=
  then_with (cmp_on composite_or_min cmp_f64_desc)
    (then_with (cmp_on (λ r, valid_updated_at (sr_memory r) now) cmp_optional_datetime_desc)
       (cmp_desc (cmp_on (λ r, m_id (sr_memory r)) N.compare))).

Definition cmp_distance (a b : option f64) : comparison :=
  match a, b with
  | Some a, Some b => total_cmp a b
  | Some _, None => Lt
  | None, Some _ => Gt
  | None, None => Eq
  end.
Definition cmp_search_result_distance_asc : SearchResult → SearchResult → comparison :=
  then_with (cmp_on sr_distance cmp_distance) (cmp_on (λ r, m_id (sr_memory r)) N.compare).

#[export] Instance cmp_f64_desc_total : TotalPreorder cmp_f64_desc.
Proof. change cmp_f64_desc with (cmp_desc total_cmp). apply _. Qed.
#[export] Instance cmp_optional_datetime_desc_total : TotalPreorder cmp_optional_datetime_desc.
Proof.
  split.
  - intros [x|] [y|]; cbn; try done. apply Z.compare_antisym.
  - intros [x|] [y|] [z|]; cbn; try done. rewrite !Z.compare_gt_iff. lia.
Qed.
#[export] Instance cmp_distance_total : TotalPreorder cmp_distance.
Proof.
  split.
  - intros [x|] [y|]; cbn; try done. apply total_cmp_antisym.
  - intros [x|] [y|] [z|]; cbn; try done. apply (cmp_trans total_cmp).
Qed.
#[export] Instance cmp_score_total now : TotalPreorder (cmp_search_result_score_desc now).
Proof. unfold cmp_search_result_score_desc. apply _. Qed.
#[export] Instance cmp_distance_asc_total : TotalPreorder cmp_search_result_distance_asc.
Proof. unfold cmp_search_result_distance_asc. apply _. Qed.

(** ** Reciprocal rank fusion *)

Record FusedResult := {
  fr_result : SearchResult;
  fr_rrf_score : f64;
  fr_match_sources : list SearchMode.t;
}.

(** The map entry while accumulating has the fields of the final result. *)
Record FusionEntry := {
  fe_result : SearchResult;
  fe_rrf_score : f64;
  fe_sources : list SearchMode.t;
}.

Definition accumulate_one (k weight : f64) (source : SearchMode.t)
    (entries : gmap MemoryId FusionEntry) (ranked : nat * SearchResult) : gmap MemoryId FusionEntry :=
  let '(rank, sr) := ranked in
  let score := fdiv weight (fadd (fadd k (f64_of_Z (Z.of_nat rank))) f1) in
  let id := m_id (sr_memory sr) in
  let entry := default {| fe_result := sr; fe_rrf_score := f0; fe_sources := [] |} (entries !! id) in
  <[id := {| fe_result := fe_result entry;
             fe_rrf_score := fadd (fe_rrf_score entry) score;
             fe_sources := if bool_decide (source ∈ fe_sources entry) then fe_sources entry
                           else fe_sources entry ++ [source] |}]> entries.

Definition accumulate_rrf (entries : gmap MemoryId FusionEntry) (results : list SearchResult)
    (k weight : f64) (source : SearchMode.t) : gmap MemoryId FusionEntry :=
  foldl (accumulate_one k weight source) entries (zip (seq 0 (length results)) results).

Definition cmp_fused : FusedResult → FusedResult → comparison :=
  then_with (cmp_on fr_rrf_score cmp_f64_desc)
    (cmp_desc (cmp_on (λ f, m_id (sr_memory (fr_result f))) N.compare)).

Definition fused_of_entry (e : FusionEntry) : FusedResult :=
  {| fr_result := fe_result e; fr_rrf_score := fe_rrf_score e; fr_match_sources := fe_sources e |}.

Definition reciprocal_rank_fusion (semantic_results fts_results : list SearchResult)
    (k : Z) (semantic_weight fts_weight : f64) (limit : Z) : list FusedResult :=
  let k_f64 := f64_of_Z k in
  let entries := accumulate_rrf ∅ semantic_results k_f64 semantic_weight SearchMode.Semantic in
  let entries := accumulate_rrf entries fts_results k_f64 fts_weight SearchMode.Keyword in
  let fused := map (λ e, fused_of_entry e.2) (map_to_list entries) in
  truncate limit (sort_by cmp_fused fused).

(** ** Composite scoring *)

Record SearchConfig := {
  sc_rrf_k : Z;
  sc_rrf_semantic_weight : f64;
  sc_rrf_keyword_weight : f64;
  sc_default_mode : SearchMode.t;
  sc_semantic_candidate_k : Z;
  sc_keyword_candidate_k : Z;
  sc_rerank_top_m : Z;
  sc_relevance_weight : f64;
  sc_activity_weight : f64;
  sc_importance_weight : f64;
  sc_activity_half_life_hours : f64;
  sc_activity_saturation : f64;
  sc_freshness_weight : f64;
  sc_freshness_half_life_semantic_days : f64;
  sc_freshness_half_life_episodic_days : f64;
  sc_freshness_half_life_procedural_days : f64;
  sc_confidence_weight : f64;
  sc_relevance_floor : f64;
  sc_relevance_floor_penalty : f64;
  sc_superseded_penalty : f64;
  sc_reranker : RerankerConfig;
  sc_duplicate_suppression_enabled : bool;
  sc_duplicate_suppression_lambda : f64;
}.

(** [signed_duration_since(..).num_seconds() as f64]: whole seconds, towards
    zero. *)
Definition num_seconds_f64 (now earlier : DateTime) : f64 :=
  f64_of_Z (Z.quot (now - earlier) 1000000000).

Section Scoring.
(** libm. *)
Context (exp2 ln_1p : f64 → f64).

Definition decay_mass (mass : f64) (last_used_at : option DateTime) (now : DateTime) (half_life_hours : f64) : f64 :=
  match last_used_at with
  | None => f0
  | Some lu =>
      let delta_hours := fdiv (num_seconds_f64 now lu) (f64_of_Z 3600) in
      fmul mass (exp2 (fdiv (fopp (fmax delta_hours f0)) (fmax half_life_hours f_1em9)))
  end.

Definition freshness_score (updated_at now : DateTime) (half_life_days : f64) : f64 :=
  let delta_days := fdiv (num_seconds_f64 now updated_at) (f64_of_Z 86400) in
  exp2 (fdiv (fopp (fmax delta_days f0)) (fmax half_life_days f_1em9)).

Definition memory_freshness_score (m : Memory) (now : DateTime) (half_life_days : f64) : f64 :=
  match valid_updated_at m now with
  | None => f0
  | Some updated_at => freshness_score updated_at now half_life_days
  end.

Definition freshness_half_life (t : MemoryType.t) (config : SearchConfig) : f64 :=
  match t with
  | MemoryType.Semantic => sc_freshness_half_life_semantic_days config
  | MemoryType.Episodic => sc_freshness_half_life_episodic_days config
  | MemoryType.Procedural => sc_freshness_half_life_procedural_days config
  end.

Definition distance_bounds (results : list SearchResult) : option (f64 * f64) :=
  foldl (λ acc d,
    Some (match acc with
          | None => (d, d)
          | Some (mn, mx) => (fmin mn d, fmax mx d)
          end)) None (omap sr_distance results).

Definition normalized_stage_one_score (distance : option f64) (bounds : option (f64 * f64)) : f64 :=
  match distance, bounds with
  | Some distance, Some (min_dist, max_dist) =>
      let span := fsub max_dist min_dist in
      if fleb span f_epsilon then f1
      else
        let normalized := fclamp (fdiv (fsub distance min_dist) span) f0 f1 in
        fsub f1 normalized
  | _, _ => f64_lit 1 2
  end.

Definition with_retrieval_score (r : SearchResult) (s : option f64) : SearchResult :=
  {| sr_memory := sr_memory r; sr_distance := sr_distance r; sr_retrieval_score := s;
     sr_reranker_score := sr_reranker_score r; sr_composite_score := sr_composite_score r;
     sr_score_breakdown := sr_score_breakdown r |}.

Definition seed_retrieval_scores (results : list SearchResult) : list SearchResult :=
  let bounds := distance_bounds results in
  map (λ r, match sr_retrieval_score r with
            | Some _ => r
            | None => with_retrieval_score r (Some (normalized_stage_one_score (sr_distance r) bounds))
            end) results.

Definition query_relevance (r : SearchResult) (blend_weight : f64) : f64 :=
  let stage_one := default f0 (sr_retrieval_score r) in
  match sr_reranker_score r with
  | None => stage_one
  | Some reranker_score => fma blend_weight reranker_score (fmul (fsub f1 blend_weight) stage_one)
  end.

(** The body of the scoring loop. *)
Definition score_result (now : DateTime) (config : SearchConfig) (r : SearchResult) : SearchResult :=
  let half_life_hours := fmax (sc_activity_half_life_hours config) f_1em9 in
  let m_sat := fmax (sc_activity_saturation config) f_1em9 in
  let m := sr_memory r in
  let relevance := query_relevance r (rcf_blend_weight (sc_reranker config)) in
  let decayed_mass := decay_mass (m_activity_mass m) (valid_last_used_at m now) now half_life_hours in
  let activity := fmin (fdiv (ln_1p decayed_mass) (ln_1p m_sat)) f1 in
  let importance := Importance.value (m_importance m) in
  let freshness := memory_freshness_score m now (freshness_half_life (m_memory_type m) config) in
  let confidence := Confidence.value (m_confidence m) in
  let composite :=
    fma (sc_relevance_weight config) relevance
      (fma (sc_importance_weight config) importance
        (fma (sc_freshness_weight config) freshness
          (fma (sc_activity_weight config) activity
            (fmul (sc_confidence_weight config) confidence)))) in
  let composite := if fltb relevance (sc_relevance_floor config)
                   then fmul composite (sc_relevance_floor_penalty config) else composite in
  let composite := match m_superseded_by m with
                   | Some _ => fmul composite (sc_superseded_penalty config)
                   | None => composite
                   end in
  {| sr_memory := m; sr_distance := sr_distance r; sr_retrieval_score := sr_retrieval_score r;
     sr_reranker_score := sr_reranker_score r; sr_composite_score := Some composite;
     sr_score_breakdown := Some {| sb_query_relevance := relevance; sb_importance := importance;
                                   sb_freshness := freshness; sb_activity := activity;
                                   sb_confidence := confidence |} |}.

Definition apply_composite_scoring (results : list SearchResult) (now : DateTime) (config : SearchConfig)
    : list SearchResult :=
  match results with
  | [] => []
  | _ => sort_by (cmp_search_result_score_desc now)
           (map (score_result now config) (seed_retrieval_scores results))
  end.
End Scoring.

(** ** Duplicate suppression *)

Definition with_composite_score (r : SearchResult) (s : option f64) : SearchResult :=
  {| sr_memory := sr_memory r; sr_distance := sr_distance r; sr_retrieval_score := sr_retrieval_score r;
     sr_reranker_score := sr_reranker_score r; sr_composite_score := s;
     sr_score_breakdown := sr_score_breakdown r |}.

Definition max_similarity (embeddings : gmap MemoryId (list spec_float)) (results : list SearchResult)
    (selected : list nat) (emb_i : list spec_float) : f64 :=
  foldl fmax f0
    (omap (λ j, r ← results !! j; emb_j ← embeddings !! m_id (sr_memory r);
                Some (cosine_similarity emb_i emb_j)) selected).

(** One iteration of the selection loop: the results (scores of earlier items
    already lowered) and the selected indices. *)
Definition suppress_step (embeddings : gmap MemoryId (list spec_float)) (lambda : f64)
    (st : list SearchResult * list nat) (i : nat) : list SearchResult * list nat :=
  let '(results, selected) := st in
  match results !! i with
  | None => st
  | Some r =>
      match embeddings !! m_id (sr_memory r) with
      | None => (results, selected ++ [i])
      | Some emb_i =>
          let max_sim := max_similarity embeddings results selected emb_i in
          let penalty := fmul (fmul lambda max_sim) (f64_of_Z 100) in
          match sr_composite_score r with
          | Some score =>
              let score := fsub score penalty in
              let results := <[i := with_composite_score r (Some score)]> results in
              if fltb f0 score then (results, selected ++ [i]) else (results, selected)
          | None => (results, selected ++ [i])
          end
      end
  end.

(** [slice::swap]. *)
Definition swap {A} (i j : nat) (l : list A) : list A :=
  match l !! i, l !! j with
  | Some x, Some y => <[i := y]> (<[j := x]> l)
  | _, _ => l
  end.

(** The in-place compaction loop: move each selected element to the next
    write position by swapping. *)
Definition compact_step {A} (st : list A * nat) (read_pos : nat) : list A * nat :=
  let '(l, write_pos) := st in
  (if (write_pos =? read_pos)%nat then l else swap write_pos read_pos l, S write_pos).
Definition compact {A} (selected : list nat) (l : list A) : list A :=
  let '(l, write_pos) := foldl compact_step (l, O) selected in take write_pos l.

Definition apply_duplicate_suppression (results : list SearchResult)
    (embeddings : gmap MemoryId (list spec_float)) (lambda : f64) (now : DateTime) : list SearchResult :=
  if fleb lambda f0 || (length results <? 2)%nat then results
  else
    let '(results, selected) :=
      foldl (suppress_step embeddings lambda) (results, []) (seq 0 (length results)) in
    sort_by (cmp_search_result_score_desc now) (compact selected results).

(** ** Fusion: reference semantics *)

(** The contributions of one ranked list to one document: a term per rank at
    which it occurs. *)
Definition contributions (k weight : f64) (id : MemoryId) (ranked : list (nat * SearchResult)) : list f64 :=
  omap (λ rs : nat * SearchResult,
    if bool_decide (m_id (sr_memory rs.2) = id)
    then Some (fdiv weight (fadd (fadd k (f64_of_Z (Z.of_nat rs.1))) f1)) else None) ranked.

Definition occurs (id : MemoryId) (results : list SearchResult) : Prop :=
  ∃ r, r ∈ results ∧ m_id (sr_memory r) = id.

(** What an entry of the map records once the lists were accumulated. *)
Record entry_ok (k weight : f64) (source : SearchMode.t) (entries entries' : gmap MemoryId FusionEntry)
    (ranked : list (nat * SearchResult)) (id : MemoryId) : Prop := {
  eo_dom : is_Some (entries' !! id) ↔ is_Some (entries !! id) ∨ ∃ rs, rs ∈ ranked ∧ m_id (sr_memory rs.2) = id;
  eo_score : ∀ e, entries' !! id = Some e →
    fe_rrf_score e = foldl fadd (default f0 (fe_rrf_score <$> entries !! id)) (contributions k weight id ranked);
  eo_sources : ∀ e s, entries' !! id = Some e →
    (s ∈ fe_sources e ↔ (∃ e0, entries !! id = Some e0 ∧ s ∈ fe_sources e0) ∨
                         (s = source ∧ ∃ rs, rs ∈ ranked ∧ m_id (sr_memory rs.2) = id));
  eo_result : ∀ e, entries' !! id = Some e → m_id (sr_memory (fe_result e)) = id ∧
    ((∃ e0, entries !! id = Some e0 ∧ fe_result e0 = fe_result e) ∨ ∃ rs, rs ∈ ranked ∧ rs.2 = fe_result e);
}.

Definition ids_consistent (entries : gmap MemoryId FusionEntry) : Prop :=
  ∀ id e, entries !! id = Some e → m_id (sr_memory (fe_result e)) = id.

Lemma accumulate_one_other k w src entries n sr id :
  m_id (sr_memory sr) ≠ id → accumulate_one k w src entries (n, sr) !! id = entries !! id.
Proof. intros H. cbn. by rewrite lookup_insert_ne. Qed.

Lemma accumulate_one_consistent k w src entries rs :
  ids_consistent entries → ids_consistent (accumulate_one k w src entries rs).
Proof.
  destruct rs as [n sr]. intros Hc id e. destruct (decide (m_id (sr_memory sr) = id)) as [<-|Hne].
  - cbn. rewrite lookup_insert_eq. intros [= <-]. cbn.
    destruct (entries !! m_id (sr_memory sr)) as [e0|] eqn:E; cbn; [by apply Hc|done].
  - rewrite accumulate_one_other by done. apply Hc.
Qed.

Lemma accumulate_foldl k w src ranked entries id :
  ids_consistent entries →
  entry_ok k w src entries (foldl (accumulate_one k w src) entries ranked) ranked id.
Proof.
  revert entries; induction ranked as [|[n sr] ranked IH]; intros entries Hc.
  - cbn. split; cbn.
    + split; [by left|]. by intros [?|(? & []%elem_of_nil & _)].
    + by intros e ->.
    + intros e s ->. split; [intros; left; eauto|]. by intros [(? & [= <-] & ?)|(_ & ? & []%elem_of_nil & _)].
    + intros e He. split; [by apply Hc|]. left. eauto.
  - cbn [foldl]. pose proof (accumulate_one_consistent k w src entries (n, sr) Hc) as Hc'.
    destruct (IH _ Hc') as [Hd Hs Hsrc Hr]. clear IH.
    destruct (decide (m_id (sr_memory sr) = id)) as [Hid|Hne].
    + assert (Hl : accumulate_one k w src entries (n, sr) !! id = Some
        {| fe_result := default sr (fe_result <$> entries !! id);
           fe_rrf_score := fadd (default f0 (fe_rrf_score <$> entries !! id))
                             (fdiv w (fadd (fadd k (f64_of_Z (Z.of_nat n))) f1));
           fe_sources := (let s0 := default [] (fe_sources <$> entries !! id) in
                          if bool_decide (src ∈ s0) then s0 else s0 ++ [src]) |}).
      { cbn. rewrite Hid, lookup_insert_eq. by destruct (entries !! id). }
      rewrite Hl in Hd, Hs, Hsrc, Hr. split.
      * rewrite Hd. split; [|intros _; left; by eexists].
        intros _. right. exists (n, sr). split; [left|done].
      * intros e He. rewrite (Hs e He). cbn. rewrite bool_decide_true by done. done.
      * intros e s He. rewrite (Hsrc e s He). split.
        -- intros [(e0 & [= <-] & Hin)|(-> & rs & ? & ?)].
           ++ cbn in Hin.
              assert (Hin' : s ∈ default [] (fe_sources <$> entries !! id) ∨ s = src)
                by (case_bool_decide; [by left|apply elem_of_app in Hin as [?|?%list_elem_of_singleton]; auto]).
              destruct Hin' as [Hin'| ->].
              ** left. destruct (entries !! id) as [e0|]; [by exists e0|by apply elem_of_nil in Hin'].
              ** right. split; [done|]. exists (n, sr). split; [left|done].
           ++ right. split; [done|]. exists rs. split; [by right|done].
        -- intros Hin. left. eexists. split; [done|]. cbn.
           destruct Hin as [(e0 & -> & Hin)|(-> & _)]; cbn.
           ++ case_bool_decide; [done|]. apply elem_of_app. by left.
           ++ case_bool_decide; [done|]. apply elem_of_app. right. left.
      * intros e He. destruct (Hr e He) as [Hi [(e0 & [= <-] & Hres)|(rs & ? & ?)]]; (split; [done|]).
        -- cbn in Hres. destruct (entries !! id) as [e0|]; cbn in Hres; [left; eauto|].
           right. exists (n, sr). split; [left|done].
        -- right. exists rs. split; [by right|done].
    + rewrite accumulate_one_other in Hd, Hs, Hsrc, Hr by done. split.
      * rewrite Hd. split; (intros [?|(rs & Hin & ?)]; [by left|right]).
        -- exists rs. split; [by right|done].
        -- apply elem_of_cons in Hin as [->|?]; [done|]. eauto.
      * intros e He. rewrite (Hs e He). cbn. by rewrite bool_decide_false.
      * intros e s He. rewrite (Hsrc e s He). split; (intros [?|(-> & rs & Hin & ?)]; [by left|right; split; [done|]]).
        -- exists rs. split; [by right|done].
        -- apply elem_of_cons in Hin as [->|?]; [done|]. eauto.
      * intros e He. destruct (Hr e He) as [Hi [?|(rs & ? & ?)]]; (split; [done|]); [by left|right].
        exists rs. split; [by right|done].
Qed.

Definition ranked_list (results : list SearchResult) : list (nat * SearchResult) :=
  zip (seq 0 (length results)) results.

Lemma elem_of_ranked results r : (∃ rs, rs ∈ ranked_list results ∧ rs.2 = r) ↔ r ∈ results.
Proof.
  split.
  - intros ([n r'] & H & <-). apply elem_of_zip_seq in H. by eapply list_elem_of_lookup_2.
  - intros [i Hi]%list_elem_of_lookup. exists (i, r). split; [by apply elem_of_zip_seq|done].
Qed.
Lemma occurs_ranked id results :
  (∃ rs, rs ∈ ranked_list results ∧ m_id (sr_memory rs.2) = id) ↔ occurs id results.
Proof.
  split.
  - intros (rs & H & <-). exists rs.2. split; [|done]. apply elem_of_ranked. by exists rs.
  - intros (r & Hr & <-). apply elem_of_ranked in Hr as (rs & ? & <-). by exists rs.
Qed.

Lemma contributions_none k w i results : ¬ occurs i results → contributions k w i (ranked_list results) = [].
Proof.
  intros Hno. rewrite <-occurs_ranked in Hno. unfold contributions.
  induction (ranked_list results) as [|rs l IH]; cbn; [done|].
  rewrite bool_decide_false; [apply IH|].
  - intros (rs' & ? & ?). apply Hno. exists rs'. split; [by right|done].
  - intros Hid. apply Hno. exists rs. split; [left|done].
Qed.

Lemma sorted_truncate {A} (R : A → A → Prop) n l : StronglySorted R l → StronglySorted R (truncate n l).
Proof.
  unfold truncate. intros H. generalize (Z.to_nat n). clear n.
  induction H as [|x l Hl IH Hx]; intros [|m]; cbn; constructor; [apply IH|].
  rewrite list.Forall_forall in *. intros y Hy. apply Hx. rewrite <-(take_drop m l). apply elem_of_app. by left.
Qed.

Lemma accumulate_consistent k w src results entries :
  ids_consistent entries → ids_consistent (accumulate_rrf entries results k w src).
Proof.
  unfold accumulate_rrf. generalize (zip (seq 0 (length results)) results).
  intros l. revert entries. induction l as [|rs l IH]; intros entries Hc; [done|].
  by apply IH, accumulate_one_consistent.
Qed.

(** The map after both lists. *)
Lemma fusion_entries semantic fts kf sw fw :
  let entries := accumulate_rrf (accumulate_rrf ∅ semantic kf sw SearchMode.Semantic) fts kf fw SearchMode.Keyword in
  ids_consistent entries ∧
  (∀ i, is_Some (entries !! i) ↔ occurs i semantic ∨ occurs i fts) ∧
  (∀ i e, entries !! i = Some e →
     (fe_result e ∈ semantic ∨ fe_result e ∈ fts) ∧
     fe_rrf_score e = foldl fadd f0
       (contributions kf sw i (ranked_list semantic) ++ contributions kf fw i (ranked_list fts)) ∧
     (∀ s, s ∈ fe_sources e ↔
        (s = SearchMode.Semantic ∧ occurs i semantic) ∨ (s = SearchMode.Keyword ∧ occurs i fts))).
Proof.
  cbn zeta.
  assert (H0 : ids_consistent ∅) by (intros i e; by rewrite lookup_empty).
  pose proof (accumulate_consistent kf sw SearchMode.Semantic semantic ∅ H0) as H1.
  pose proof (accumulate_consistent kf fw SearchMode.Keyword fts _ H1) as H2.
  set (e1 := accumulate_rrf ∅ semantic kf sw SearchMode.Semantic) in *.
  assert (Ha : ∀ i, entry_ok kf sw SearchMode.Semantic ∅ e1 (ranked_list semantic) i)
    by (intros i; by apply accumulate_foldl).
  assert (Hb : ∀ i, entry_ok kf fw SearchMode.Keyword e1
    (accumulate_rrf e1 fts kf fw SearchMode.Keyword) (ranked_list fts) i)
    by (intros i; by apply accumulate_foldl).
  split_and!; [done| |].
  - intros i. rewrite (eo_dom _ _ _ _ _ _ _ (Hb i)), (eo_dom _ _ _ _ _ _ _ (Ha i)), !occurs_ranked.
    rewrite lookup_empty. split; [intros [[[? ?]|?]|?]; auto; done|]. intros [?|?]; auto.
  - intros i e He.
    assert (Hsem : ∀ e0, e1 !! i = Some e0 →
      fe_rrf_score e0 = foldl fadd f0 (contributions kf sw i (ranked_list semantic)) ∧
      (∀ s, s ∈ fe_sources e0 ↔ s = SearchMode.Semantic ∧ occurs i semantic) ∧ fe_result e0 ∈ semantic).
    { intros e0 He0. split_and!.
      - rewrite (eo_score _ _ _ _ _ _ _ (Ha i) e0 He0). by rewrite lookup_empty.
      - intros s. rewrite (eo_sources _ _ _ _ _ _ _ (Ha i) e0 s He0), occurs_ranked, lookup_empty.
        split; [by intros [(? & ? & _)|?]|by right].
      - destruct (eo_result _ _ _ _ _ _ _ (Ha i) e0 He0) as [_ [(? & Hn & _)|(rs & ? & <-)]].
        + by rewrite lookup_empty in Hn.
        + apply elem_of_ranked. by exists rs. }
    assert (Hocc : is_Some (e1 !! i) ↔ occurs i semantic).
    { rewrite (eo_dom _ _ _ _ _ _ _ (Ha i)), occurs_ranked, lookup_empty.
      split; [intros [[? ?]|?]; done|by right]. }
    split_and!.
    + destruct (eo_result _ _ _ _ _ _ _ (Hb i) e He) as [_ [(e0 & He0 & <-)|(rs & ? & <-)]].
      * left. by apply Hsem.
      * right. apply elem_of_ranked. by exists rs.
    + rewrite (eo_score _ _ _ _ _ _ _ (Hb i) e He), foldl_app. f_equal.
      destruct (e1 !! i) as [e0|] eqn:E; cbn; [by apply Hsem|].
      assert (Hno : ¬ occurs i semantic) by (rewrite <-Hocc; by intros [? ?]).
      rewrite (contributions_none kf sw i semantic Hno). done.
    + intros s. rewrite (eo_sources _ _ _ _ _ _ _ (Hb i) e s He), occurs_ranked. split.
      * intros [(e0 & He0 & Hs)|?]; [left; by apply (Hsem e0 He0)|by right].
      * intros [[-> Ho]|?]; [|by right]. left. apply Hocc in Ho as Ho'. destruct Ho' as [e0 He0].
        exists e0. split; [done|]. by apply (Hsem e0 He0).
Qed.

Lemma rrf_spec semantic fts k sw fw limit (Hlimit : 0 ≤ limit) :
  let out := reciprocal_rank_fusion semantic fts k sw fw limit in
  let kf := f64_of_Z k in
  let id f := m_id (sr_memory (fr_result f)) in
  len out ≤ limit ∧ NoDup (map id out) ∧
  StronglySorted (λ a b, cmp_fused a b ≠ Gt) out ∧
  (∀ f, f ∈ out →
     (fr_result f ∈ semantic ∨ fr_result f ∈ fts) ∧
     fr_rrf_score f = foldl fadd f0
       (contributions kf sw (id f) (ranked_list semantic) ++ contributions kf fw (id f) (ranked_list fts)) ∧
     (∀ s, s ∈ fr_match_sources f ↔
        (s = SearchMode.Semantic ∧ occurs (id f) semantic) ∨ (s = SearchMode.Keyword ∧ occurs (id f) fts))) ∧
  (len semantic + len fts ≤ limit →
     ∀ i, occurs i semantic ∨ occurs i fts → ∃ f, f ∈ out ∧ id f = i).
Proof.
  cbn zeta. set (kf := f64_of_Z k). set (id := λ f, m_id (sr_memory (fr_result f))).
  unfold reciprocal_rank_fusion. fold kf.
  destruct (fusion_entries semantic fts kf sw fw) as (Hcons & Hdom & Hentry).
  set (entries := accumulate_rrf (accumulate_rrf ∅ semantic kf sw SearchMode.Semantic) fts kf fw SearchMode.Keyword) in *.
  set (fused := map (λ e, fused_of_entry e.2) (map_to_list entries)).
  assert (Hin : ∀ f, f ∈ fused ↔ ∃ i e, entries !! i = Some e ∧ f = fused_of_entry e ∧ id f = i).
  { intros f. unfold fused. rewrite list_elem_of_fmap. split.
    - intros ([i e] & -> & He%elem_of_map_to_list). exists i, e. split_and!; [done|done|by apply Hcons].
    - intros (i & e & He & -> & _). exists (i, e). split; [done|]. by apply elem_of_map_to_list. }
  split_and!.
  - by apply truncate_len.
  - rewrite map_truncate. apply NoDup_truncate. rewrite (sort_by_perm cmp_fused fused).
    unfold fused. rewrite map_map. rewrite (map_ext_in _ fst); [apply NoDup_fst_map_to_list|].
    intros [i e] He%list_elem_of_In%elem_of_map_to_list. by apply Hcons.
  - apply sorted_truncate, sort_by_sorted. apply _.
  - intros f Hf%elem_of_truncate%elem_of_sort_by%Hin. destruct Hf as (i & e & He & -> & Hi).
    destruct (Hentry i e He) as (Hres & Hscore & Hsrc). rewrite Hi. by split_and!.
  - intros Hle i Hi. apply Hdom in Hi as [e He]. exists (fused_of_entry e).
    split; [|by apply Hcons]. rewrite truncate_all.
    + apply elem_of_sort_by, Hin. exists i, e. split_and!; [done|done|by apply Hcons].
    + unfold len in *. rewrite sort_by_length. unfold fused. rewrite length_map.
      enough (length (map_to_list entries) ≤ length (semantic ++ fts))%nat as Hl by (rewrite length_app in Hl; lia).
      rewrite <-(length_map (λ r, m_id (sr_memory r))). apply map_to_list_length_le.
      intros j Hj%Hdom. rewrite map_app, elem_of_app, !list_elem_of_fmap.
      destruct Hj as [(r & ? & <-)|(r & ? & <-)]; eauto.
Qed.

(** Rank fusion computes the reciprocal-rank sum. The fused list has at
    most [limit] results, one per document, in descending order of score (ties
    by descending id); each result occurs in one of the input lists, its score
    is the sum, in rank order and semantic list first, of
    [weight / (k + rank + 1)] over its occurrences, and its match sources are
    exactly the lists it occurs in; and with room for all, every document of
    either list is returned. *)
Theorem rrf_reference semantic fts k sw fw limit (Hlimit : 0 ≤ limit) :
  let out := reciprocal_rank_fusion semantic fts k sw fw limit in
  let kf := f64_of_Z k in
  let id f := m_id (sr_memory (fr_result f)) in
  len out ≤ limit ∧ NoDup (map id out) ∧
  StronglySorted (λ a b, cmp_fused a b ≠ Gt) out ∧
  (∀ f, f ∈ out →
     (fr_result f ∈ semantic ∨ fr_result f ∈ fts) ∧
     fr_rrf_score f = foldl fadd f0
       (contributions kf sw (id f) (ranked_list semantic) ++ contributions kf fw (id f) (ranked_list fts)) ∧
     (∀ s, s ∈ fr_match_sources f ↔
        (s = SearchMode.Semantic ∧ occurs (id f) semantic) ∨ (s = SearchMode.Keyword ∧ occurs (id f) fts))) ∧
  (len semantic + len fts ≤ limit →
     ∀ i, occurs i semantic ∨ occurs i fts → ∃ f, f ∈ out ∧ id f = i).
Proof. by apply rrf_spec. Qed.

Definition sample_result (id : MemoryId) (score : option f64) : SearchResult :=
  {| sr_memory := we_memory (sample_candidate id 0); sr_distance := None; sr_retrieval_score := None;
     sr_reranker_score := None; sr_composite_score := score; sr_score_breakdown := None |}.

Example rrf_example :
  let out := reciprocal_rank_fusion [sample_result 1 None; sample_result 2 None]
               [sample_result 3 None; sample_result 2 None] 60 f1 f1 10 in
  (map (λ f, m_id (sr_memory (fr_result f))) out = [2; 3; 1])%N ∧
  map fr_match_sources out =
    [[SearchMode.Semantic; SearchMode.Keyword]; [SearchMode.Keyword]; [SearchMode.Semantic]].
Proof. vm_compute. split; reflexivity. Qed.

Lemma rrf_reference_witness :
  ∃ f, f ∈ reciprocal_rank_fusion [sample_result 1 None] [sample_result 3 None] 60 f1 f1 10 ∧
       m_id (sr_memory (fr_result f)) = 3%N.
Proof.
  apply (rrf_reference [sample_result 1 None] [sample_result 3 None] 60 f1 f1 10).
  - discriminate.
  - discriminate.
  - right. exists (sample_result 3 None). split; [left|reflexivity].
Defined.

(** ** Compaction by swaps is selection *)

Lemma length_swap {A} i j (l : list A) : length (swap i j l) = length l.
Proof. unfold swap. destruct (l !! i), (l !! j); by rewrite ?length_insert. Qed.
Lemma lookup_swap_l {A} i j (l : list A) : (i < length l)%nat → (j < length l)%nat → swap i j l !! i = l !! j.
Proof.
  intros Hi Hj. unfold swap. apply lookup_lt_is_Some_2 in Hi as Hx. destruct Hx as [x Hx].
  apply lookup_lt_is_Some_2 in Hj as Hy. destruct Hy as [y Hy]. rewrite Hx, Hy.
  apply list_lookup_insert_eq. by rewrite length_insert.
Qed.
Lemma lookup_swap_ne {A} i j k (l : list A) : k ≠ i → k ≠ j → swap i j l !! k = l !! k.
Proof.
  intros. unfold swap. destruct (l !! i), (l !! j); [|done..]. by rewrite !list_lookup_insert_ne.
Qed.

(** Reading positions ascend from the write position. *)
Lemma compact_loop {A} (selected : list nat) (l : list A) w :
  StronglySorted lt selected → Forall (λ i, (w ≤ i < length l)%nat) selected →
  ∃ l', foldl compact_step (l, w) selected = (l', (w + length selected)%nat) ∧
    take (w + length selected) l' = take w l ++ omap (λ i, l !! i) selected.
Proof.
  revert l w; induction selected as [|r selected IH]; intros l w Hs Hb.
  - exists l. cbn. by rewrite Nat.add_0_r, app_nil_r.
  - inversion Hs as [|? ? Hs' Hr]; subst. inversion Hb as [|? ? [Hw Hl] Hb']; subst.
    set (l1 := if (w =? r)%nat then l else swap w r l).
    assert (Hlen : length l1 = length l) by (unfold l1; destruct (w =? r)%nat; [done|apply length_swap]).
    assert (Hw1 : l1 !! w = l !! r).
    { unfold l1. destruct (Nat.eqb_spec w r) as [->|]; [done|]. apply lookup_swap_l; lia. }
    assert (Hrest : ∀ k, k ≠ w → k ≠ r → l1 !! k = l !! k).
    { intros k ??. unfold l1. destruct (w =? r)%nat; [done|by apply lookup_swap_ne]. }
    rewrite list.Forall_forall in Hr, Hb'.
    destruct (IH l1 (S w) Hs') as (l' & Hf & Ht).
    { rewrite list.Forall_forall. intros i Hi. rewrite Hlen. specialize (Hr i Hi). specialize (Hb' i Hi). cbn in *. lia. }
    exists l'. cbn [foldl compact_step]. fold l1. rewrite Hf.
    replace (w + length (r :: selected))%nat with (S w + length selected)%nat by (cbn; lia).
    split; [done|]. rewrite Ht.
    apply lookup_lt_is_Some_2 in Hl as [x Hx]. rewrite Hx in Hw1.
    rewrite (take_S_r _ _ x Hw1), <-app_assoc.
    assert (Htake : take w l1 = take w l).
    { apply list_eq. intros k. destruct (decide (k < w)%nat).
      - rewrite !lookup_take_lt by lia. apply Hrest; lia.
      - rewrite !lookup_take_ge by lia. done. }
    rewrite Htake. cbn [omap list_omap]. rewrite Hx. cbn. f_equal. f_equal.
    assert (Hext : ∀ i, i ∈ selected → l1 !! i = l !! i) by (intros i Hi; specialize (Hr i Hi); apply Hrest; lia).
    clear -Hext. induction selected as [|i s IHs]; cbn; [done|].
    rewrite Hext by left. rewrite IHs; [done|]. intros j Hj. apply Hext. by right.
Qed.

Lemma compact_select {A} (selected : list nat) (l : list A) :
  StronglySorted lt selected → Forall (λ i, (i < length l)%nat) selected →
  compact selected l = omap (λ i, l !! i) selected.
Proof.
  intros Hs Hb. unfold compact. destruct (compact_loop selected l 0 Hs) as (l' & -> & Ht).
  - eapply List.Forall_impl; [|exact Hb]. intros i Hi; cbn in *; lia.
  - exact Ht.
Qed.

(** ** Suppression keeps a selection of the scored results *)

Definition same_item (r r' : SearchResult) : Prop := with_composite_score r None = with_composite_score r' None.

Record suppress_inv (results0 : list SearchResult) (i : nat) (st : list SearchResult * list nat) : Prop := {
  si_len : length st.1 = length results0;
  si_item : Forall2 same_item st.1 results0;
  si_sorted : StronglySorted lt st.2;
  si_bound : Forall (λ j, (j < i)%nat) st.2;
  si_untouched : ∀ j, (i ≤ j)%nat → st.1 !! j = results0 !! j;
}.

Lemma sorted_snoc l (i : nat) : StronglySorted lt l → Forall (λ j, (j < i)%nat) l → StronglySorted lt (l ++ [i]).
Proof.
  induction 1 as [|x l Hl IH Hx]; intros Hb; cbn; [repeat constructor|].
  inversion Hb; subst. constructor; [by apply IH|]. apply Forall_app. split; [done|by repeat constructor].
Qed.

Lemma suppress_step_inv embeddings lambda results0 i st :
  (i < length results0)%nat → suppress_inv results0 i st → suppress_inv results0 (S i) (suppress_step embeddings lambda st i).
Proof.
  destruct st as [results selected]. intros Hi [Hl Hit Hs Hb Hu]; cbn [fst snd] in *.
  assert (Hb' : Forall (λ j, (j < S i)%nat) selected) by (eapply List.Forall_impl; [|exact Hb]; intros k Hk; cbn in *; lia).
  assert (Hs' : StronglySorted lt (selected ++ [i])) by (by apply sorted_snoc).
  assert (Hbs : Forall (λ j, (j < S i)%nat) (selected ++ [i])) by (apply Forall_app; split; [done|repeat constructor]).
  assert (Hu' : ∀ j, (S i ≤ j)%nat → results !! j = results0 !! j) by (intros; apply Hu; lia).
  cbn [suppress_step]. destruct (results !! i) as [r|] eqn:Hr; [|by split].
  destruct (embeddings !! m_id (sr_memory r)) as [emb|]; [|by split].
  destruct (sr_composite_score r) as [score|]; [|by split].
  set (score' := fsub score _).
  assert (Hnew : length (<[i := with_composite_score r (Some score')]> results) = length results0 ∧
    Forall2 same_item (<[i := with_composite_score r (Some score')]> results) results0 ∧
    ∀ j, (S i ≤ j)%nat → <[i := with_composite_score r (Some score')]> results !! j = results0 !! j).
  { split_and!.
    - by rewrite length_insert.
    - destruct (Forall2_lookup_l _ _ _ _ _ Hit Hr) as (r0 & Hr0 & Hsame).
      rewrite <-(list_insert_id results0 i r0 Hr0). apply Forall2_insert; [done|]. done.
    - intros j Hj. rewrite list_lookup_insert_ne by lia. by apply Hu'. }
  destruct Hnew as (? & ? & ?). destruct (fltb f0 score'); by split.
Qed.

Lemma suppress_fold_inv embeddings lambda results0 n :
  (n ≤ length results0)%nat →
  suppress_inv results0 n (foldl (suppress_step embeddings lambda) (results0, []) (seq 0 n)).
Proof.
  induction n as [|n IH]; intros Hn.
  - cbn. split; cbn; [done| |constructor|constructor|done].
    clear. induction results0; constructor; done.
  - rewrite seq_S, foldl_app. cbn [foldl Nat.add]. apply suppress_step_inv; [lia|]. apply IH. lia.
Qed.

Lemma suppression_selects results embeddings lambda now
    (Hlambda : fleb lambda f0 = false) (Hlen : (2 ≤ length results)%nat) :
  ∃ scored selected,
    apply_duplicate_suppression results embeddings lambda now =
      sort_by (cmp_search_result_score_desc now) (omap (λ i, scored !! i) selected) ∧
    Forall2 same_item scored results ∧
    StronglySorted lt selected ∧ Forall (λ i, (i < length results)%nat) selected ∧
    (length (apply_duplicate_suppression results embeddings lambda now) ≤ length results)%nat ∧
    StronglySorted (λ a b, cmp_search_result_score_desc now a b ≠ Gt)
      (apply_duplicate_suppression results embeddings lambda now).
Proof.
  unfold apply_duplicate_suppression. rewrite Hlambda. rewrite (proj2 (Nat.ltb_ge _ _) Hlen). cbn [orb].
  pose proof (suppress_fold_inv embeddings lambda results (length results) (le_n _)) as [Hl Hi Hs Hb _].
  destruct (foldl _ _ _) as [scored selected] eqn:E. cbn [fst snd] in *. clear E.
  rewrite (compact_select selected scored Hs) by (by rewrite Hl).
  exists scored, selected. split_and!; [done|done|done|done| |apply sort_by_sorted; apply _].
  rewrite sort_by_length. transitivity (length selected).
  - clear. induction selected as [|i s IH]; cbn; [done|]. destruct (scored !! i); cbn; lia.
  - clear -Hs Hb. assert (Hg : ∀ m, StronglySorted lt selected → Forall (λ i, (m ≤ i < length results)%nat) selected →
      (length selected ≤ length results - m)%nat).
    { clear. induction selected as [|i s IH]; intros m Hs Hb; cbn; [lia|].
      inversion Hs as [|? ? Hs' Hi]; subst. inversion Hb as [|? ? Hm Hb']; subst.
      specialize (IH (S i) Hs'). rewrite list.Forall_forall in *.
      assert (length s ≤ length results - S i)%nat; [|lia].
      apply IH. intros j Hj. specialize (Hi j Hj). specialize (Hb' j Hj). cbn in *. lia. }
    specialize (Hg 0%nat Hs). rewrite Nat.sub_0_r in Hg.
    apply Hg. eapply List.Forall_impl; [|exact Hb]. intros k Hk; cbn in *; lia.
Qed.

(** The in-place diversity pass is a selection. When it is enabled
    ([lambda > 0], at least two results) its output, for whatever embeddings,
    is the stable descending sort of the selected results; the selection is a
    strictly increasing list of input positions, so no result is duplicated or
    invented, every output item is an input item with only its composite score
    changed, and the swap loop equals picking the selected positions. *)
Theorem suppression_is_selection results embeddings lambda now
    (Hlambda : fleb lambda f0 = false) (Hlen : (2 ≤ length results)%nat) :
  ∃ scored selected,
    apply_duplicate_suppression results embeddings lambda now =
      sort_by (cmp_search_result_score_desc now) (omap (λ i, scored !! i) selected) ∧
    Forall2 same_item scored results ∧
    StronglySorted lt selected ∧ Forall (λ i, (i < length results)%nat) selected ∧
    (length (apply_duplicate_suppression results embeddings lambda now) ≤ length results)%nat ∧
    StronglySorted (λ a b, cmp_search_result_score_desc now a b ≠ Gt)
      (apply_duplicate_suppression results embeddings lambda now).
Proof. by apply suppression_selects. Qed.

Lemma suppression_is_selection_witness :
  let rs := [sample_result 1 (Some (f64_of_Z 50)); sample_result 2 (Some (f64_of_Z 5))] in
  let emb := {[1%N := [f32_of_Z 1; f32_of_Z 2]; 2%N := [f32_of_Z 1; f32_of_Z 2]]} : gmap MemoryId (list spec_float) in
  map (λ r, m_id (sr_memory r)) (apply_duplicate_suppression rs emb (f64_lit 1 10) 0) = [1%N] ∧
  StronglySorted (λ a b, cmp_search_result_score_desc 0 a b ≠ Gt)
    (apply_duplicate_suppression rs emb (f64_lit 1 10) 0).
Proof.
  split; [vm_compute; reflexivity|].
  destruct (suppression_is_selection
    [sample_result 1 (Some (f64_of_Z 50)); sample_result 2 (Some (f64_of_Z 5))]
    {[1%N := [f32_of_Z 1; f32_of_Z 2]; 2%N := [f32_of_Z 1; f32_of_Z 2]]} (f64_lit 1 10) 0)
    as (scored & selected & _ & _ & _ & _ & _ & Hs); [vm_compute; reflexivity|cbn; lia|exact Hs].
Defined.

(** ** Composite scoring *)

Lemma score_result_memory exp2 ln_1p now config r :
  sr_memory (score_result exp2 ln_1p now config r) = sr_memory r.
Proof. done. Qed.
Lemma seed_memories results : map sr_memory (seed_retrieval_scores results) = map sr_memory results.
Proof.
  unfold seed_retrieval_scores. rewrite map_map. apply map_ext. intros r. by destruct (sr_retrieval_score r).
Qed.

Lemma composite_perm exp2 ln_1p results now config :
  map sr_memory (apply_composite_scoring exp2 ln_1p results now config) ≡ₚ map sr_memory results.
Proof.
  unfold apply_composite_scoring. destruct results as [|r rs]; [done|].
  rewrite (sort_by_perm _ (map _ _)), map_map. cbn [score_result sr_memory].
  etransitivity; [|rewrite <-(seed_memories (r :: rs)); reflexivity]. done.
Qed.

Lemma seed_scored results :
  Forall (λ r, is_some (sr_retrieval_score r) = true) results → seed_retrieval_scores results = results.
Proof.
  unfold seed_retrieval_scores. generalize (distance_bounds results). intros b.
  induction 1 as [|r rs Hr _ IH]; cbn; [done|]. rewrite IH. by destruct (sr_retrieval_score r).
Qed.

(** Composite scoring is a deterministic total ranking. Whatever the libm
    functions return, the output holds exactly the input memories, each with a
    composite score and a breakdown, in descending order of the documented
    key (score, valid update time, id); and for results of distinct memories
    whose retrieval score is known the output does not depend on the order in
    which the backends returned them. *)
Theorem composite_scoring_total_ranking exp2 ln_1p results now config :
  let out := apply_composite_scoring exp2 ln_1p results now config in
  map sr_memory out ≡ₚ map sr_memory results ∧
  Forall (λ r, is_some (sr_composite_score r) = true ∧ is_some (sr_score_breakdown r) = true) out ∧
  StronglySorted (λ a b, cmp_search_result_score_desc now a b ≠ Gt) out ∧
  (∀ results', results ≡ₚ results' →
     NoDup (map (λ r, m_id (sr_memory r)) results) →
     Forall (λ r, is_some (sr_retrieval_score r) = true) results →
     apply_composite_scoring exp2 ln_1p results' now config = out).
Proof.
  cbn zeta. split_and!.
  - apply composite_perm.
  - unfold apply_composite_scoring. destruct results as [|r rs]; [constructor|].
    rewrite (sort_by_perm _ (map _ _)). apply List.Forall_map, List.Forall_forall. done.
  - unfold apply_composite_scoring. destruct results as [|r rs]; [constructor|].
    apply sort_by_sorted, _.
  - intros results' Hp Hnd Hsc.
    assert (Hsc' : Forall (λ r, is_some (sr_retrieval_score r) = true) results') by (by rewrite <-Hp).
    unfold apply_composite_scoring.
    destruct results as [|r rs]; [by apply Permutation_nil in Hp as ->|].
    destruct results' as [|r' rs']; [by apply Permutation_sym, Permutation_nil in Hp|].
    rewrite (seed_scored _ Hsc), (seed_scored _ Hsc'). symmetry. apply sort_by_proper; [apply _| |].
    + by rewrite Hp.
    + intros x y Hx Hy Hxy. apply list_elem_of_fmap in Hx as (x0 & -> & Hx), Hy as (y0 & -> & Hy).
      assert (Hid : m_id (sr_memory x0) = m_id (sr_memory y0)).
      { unfold cmp_search_result_score_desc, then_with, cmp_on, cmp_desc in Hxy. cbn [score_result sr_memory] in Hxy.
        destruct (cmp_f64_desc _ _); [|done|done]. destruct (cmp_optional_datetime_desc _ _); [|done|done].
        by apply N.compare_eq_iff in Hxy. }
      enough (x0 = y0) by (by subst).
      apply list_elem_of_lookup in Hx as [i Hi], Hy as [j Hj].
      assert (Hi' : map (λ r, m_id (sr_memory r)) (r :: rs) !! i = Some (m_id (sr_memory x0))) by (by rewrite list_lookup_fmap, Hi).
      assert (Hj' : map (λ r, m_id (sr_memory r)) (r :: rs) !! j = Some (m_id (sr_memory x0))) by (by rewrite list_lookup_fmap, Hj, Hid).
      pose proof (NoDup_lookup _ _ _ _ Hnd Hi' Hj') as <-. congruence.
Qed.
