(* ===== verification/Context.v ===== *)
(** * Context: governed contexts, [src/src/context.rs]

    Kinds, lifecycle, references and their limits, the layered context
    policy and its evaluation, the ancestor walk, durable identities and the
    duplicate-similarity score. The [url] and [sha2] crates are the classes
    [UrlLib] and [Sha256Lib]. *)
From Stdlib Require Import ZArith Lia.
From stdpp Require Import base list option strings pretty gmap sets relations.
From S2P Require Import Prelude Text Floats Lists Errors Types.

Definition LEGACY_SYSTEM_PRINCIPAL : string := "@localhold/legacy-system".
Definition LEGACY_ALL_PRINCIPALS_GRANT : string := "*".
Definition OPERATOR_PRINCIPAL : string := "operator".
Definition UNRESOLVED_CONTEXT_KEY : string := "inbox/unresolved".
Definition MAX_CONTEXT_REFS : Z := 32.
Definition MAX_CONTEXT_HINTS : Z := 32.
Definition MAX_CONTEXT_SURFACE_LEN : Z := 512.
Definition MAX_CONTEXT_DISPLAY_NAME_LEN : Z := 256.
Definition MAX_CONTEXT_DESCRIPTION_LEN : Z := 4096.
Definition MAX_CONTEXT_IDENTITY_VALUE_LEN : Z := 4096.
Definition MAX_CONTEXT_CONFIRMATIONS : Z := 5.
Definition MAX_EFFECTIVE_CONTEXTS : Z := 512.

Abbreviation checked A := (result string A).

(** [Option<&str>.map(str::trim).filter(|v| !v.is_empty())]. *)
Definition trimmed_non_empty (o : option string) : option string :=
  match o with
  | Some v => if str_is_empty (trim v) then None else Some (trim v)
  | None => None
  end.

Definition effective_legacy_scope_key (metadata_scope provenance_scope : option string) : option string :=
  match trimmed_non_empty metadata_scope with
  | Some v => Some v
  | None => trimmed_non_empty provenance_scope
  end.

(** ** Legacy scopes *)

Definition validate_legacy_scope_key (value : string) : checked unit :=
  bail_if (is_blank value || (MAX_CONTEXT_SURFACE_LEN <? byte_len value))
    "scope key must be non-empty and at most 512 bytes".

Definition slash : Ascii.ascii := byte 47.

(** [rsplit('/').find(|part| !part.is_empty())]. *)
Definition legacy_scope_display_name (value : string) : string :=
  let v := trim value in
  match List.find (λ part, negb (str_is_empty part)) (rev (split_on slash v)) with
  | Some part => part
  | None => v
  end.

Definition validate_implicit_legacy_context_key (value : string) : checked unit :=
  _ ← validate_legacy_scope_key value;
  bail_if (MAX_CONTEXT_DISPLAY_NAME_LEN <? byte_len (legacy_scope_display_name value))
    "implicit compatibility context display name must be at most 256 bytes".

Definition validate_legacy_scope_definition (scope : ScopeDefinition) : checked unit :=
  _ ← validate_legacy_scope_key (sd_scope_key scope);
  _ ← bail_if (is_blank (sd_display_name scope) || (MAX_CONTEXT_DISPLAY_NAME_LEN <? byte_len (sd_display_name scope)))
        "display_name must be non-empty and at most 256 bytes";
  _ ← bail_if (match sd_description scope with
               | Some v => MAX_CONTEXT_DESCRIPTION_LEN <? byte_len v
               | None => false end)
        "description accepts at most 4096 bytes";
  _ ← bail_if ((MAX_CONTEXT_REFS <? len (sd_aliases scope)) || (MAX_CONTEXT_REFS <? len (sd_related scope))
               || (MAX_CONTEXT_HINTS <? len (sd_matchers scope)))
        "aliases and related accept at most 32 entries; matchers accepts at most 32";
  _ ← bail_if (existsb (λ v, is_blank v || (MAX_CONTEXT_SURFACE_LEN <? byte_len v)) (sd_aliases scope ++ sd_matchers scope))
        "scope aliases and matchers must be non-empty and at most 512 bytes";
  _ ← try_for_each validate_implicit_legacy_context_key (sd_related scope);
  match sd_parent scope with
  | Some parent => validate_implicit_legacy_context_key parent
  | None => Ok ()
  end.

(** ** Kinds and lifecycle *)

Module ContextKind.
Record t := mk { as_str : string }.
#[global] Instance eq_dec : EqDecision t.
Proof. solve_decision. Defined.
#[global] Instance countable : Countable t.
Proof. refine (inj_countable' as_str mk _). by intros []. Defined.
Definition CUSTOM : string := "custom".
Definition DOMAIN : string := "domain".
Definition ORGANIZATION : string := "organization".
Definition PROJECT : string := "project".

Definition valid_byte (c : Ascii.ascii) : bool :=
  let n := byte_val c in
  ((97 <=? n) && (n <=? 122) || (48 <=? n) && (n <=? 57) || (n =? 45) || (n =? 95))%N.
Definition new (value : string) : result string t :=
  let value := to_ascii_lowercase (trim value) in
  let valid := negb (str_is_empty value) && (byte_len value <=? 64) && forallb valid_byte (bytes value) in
  if negb valid then Err "context kind must contain 1-64 lowercase ASCII letters, digits, '-' or '_'"
  else Ok (mk value).

(** [split_once('/')]: the prefix, when there is a separator. *)
Definition prefix_of (s : string) : string :=
  match split_on slash s with p :: _ :: _ => p | _ => "" end.
Definition from_legacy_scope `{UnicodeCase} (key : string) : t :=
  let prefix := prefix_of (normalize_context_key key) in
  if String.eqb prefix PROJECT then mk PROJECT
  else if String.eqb prefix DOMAIN then mk DOMAIN
  else if String.eqb prefix ORGANIZATION || String.eqb prefix "org" then mk ORGANIZATION
  else mk CUSTOM.
Definition custom : t := mk CUSTOM.
Definition cmp (a b : t) : comparison := String.compare (as_str a) (as_str b).
End ContextKind.

Module ContextLifecycle.
Inductive t := Active | Archived.
#[global] Instance eq_dec : EqDecision t.
Proof. solve_decision. Defined.
Definition to_string (l : t) : string := match l with Active => "active" | Archived => "archived" end.
Definition from_str (s : string) : result ParseEnumError t :=
  if String.eqb s "active" then Ok Active
  else if String.eqb s "archived" then Ok Archived
  else Err {| pe_what := "unknown context lifecycle"; pe_other := s |}.
End ContextLifecycle.

Record ContextDefinition := {
  cd_id : ContextId;
  cd_kind : ContextKind.t;
  cd_key : string;
  cd_display_name : string;
  cd_description : option string;
  cd_owner_principal : string;
  cd_guidance : option string;
  cd_parent_id : option ContextId;
  cd_lifecycle : ContextLifecycle.t;
  cd_frozen : bool;
  cd_created_at : DateTime;
  cd_updated_at : DateTime;
}.
#[export] Instance ContextDefinition_eq_dec : EqDecision ContextDefinition.
Proof. solve_decision. Defined.

Record ContextIdentity := {
  ci_scheme : string;
  ci_namespace : option string;
  ci_fingerprint : string;
  ci_redacted_label : string;
}.
#[export] Instance ContextIdentity_eq_dec : EqDecision ContextIdentity.
Proof. solve_decision. Defined.

Record ContextIdentityInput := { cii_scheme : string; cii_value : string; cii_namespace : option string }.

Definition validate_identity_input_limits (input : ContextIdentityInput) : checked unit :=
  _ ← bail_if (32 <? byte_len (cii_scheme input)) "context identity scheme is too long";
  _ ← bail_if (MAX_CONTEXT_IDENTITY_VALUE_LEN <? byte_len (cii_value input))
        "context identity value accepts at most 4096 bytes";
  bail_if (match cii_namespace input with Some ns => 128 <? byte_len ns | None => false end)
    "context identity namespace accepts at most 128 bytes".

(** ** References and envelopes *)

Record ContextReference := {
  cr_id : option ContextId;
  cr_kind : option ContextKind.t;
  cr_key : option string;
  cr_identity : option ContextIdentityInput;
}.

Definition reference_error : string :=
  "a context ref must contain exactly one locator: id, kind+key, or kind+identity".
Definition context_reference_validate (r : ContextReference) : checked unit :=
  match cr_id r, cr_kind r, cr_key r, cr_identity r with
  | Some _, None, None, None => Ok ()
  | None, Some _, None, Some identity => validate_identity_input_limits identity
  | None, Some _, Some key, None =>
      if negb (is_blank key) && (byte_len key <=? MAX_CONTEXT_SURFACE_LEN) then Ok () else Err reference_error
  | _, _, _, _ => Err reference_error
  end.

Module ContextExactLookup.
Inductive t :=
| Id (id : ContextId)
| Key (kind : option ContextKind.t) (normalized_key : string)
| Identity (kind : ContextKind.t) (identity : ContextIdentity).
End ContextExactLookup.

Record ContextEnvelope := {
  ce_refs : list ContextReference;
  ce_hints : list string;
  ce_include_descendants : bool;
  ce_allow_unresolved : bool;
}.
Definition validate_limits (e : ContextEnvelope) : checked unit :=
  _ ← bail_if (MAX_CONTEXT_REFS <? len (ce_refs e)) "context.refs accepts at most 32 entries";
  _ ← bail_if (MAX_CONTEXT_HINTS <? len (ce_hints e)) "context.hints accepts at most 32 entries";
  _ ← try_for_each context_reference_validate (ce_refs e);
  bail_if (existsb (λ h, MAX_CONTEXT_SURFACE_LEN <? byte_len h) (ce_hints e))
    "each context hint accepts at most 512 bytes".

Record ContextDescriptor := {
  cdx_id : ContextId; cdx_kind : ContextKind.t; cdx_key : string; cdx_display_name : string;
}.
Definition context_descriptor_from (c : ContextDefinition) : ContextDescriptor :=
  {| cdx_id := cd_id c; cdx_kind := cd_kind c; cdx_key := cd_key c; cdx_display_name := cd_display_name c |}.

Record ContextRecord := {
  cxr_context : ContextDefinition;
  cxr_aliases : list string;
  cxr_identities : list ContextIdentity;
  cxr_hints : list string;
}.

Record ContextKindDefinition := {
  ckd_kind : ContextKind.t;
  ckd_display_name : string;
  ckd_builtin : bool;
  ckd_enabled : bool;
  ckd_created_at : DateTime;
  ckd_updated_at : DateTime;
}.
Record ContextKindDraft := {
  ckf_kind : ContextKind.t; ckf_display_name : string; ckf_enabled : bool;
}.

(** ** Policies *)

Module ContextPolicyLayer.
Inductive t := Operator | Principal.
#[global] Instance eq_dec : EqDecision t.
Proof. solve_decision. Defined.
Definition to_string (l : t) : string := match l with Operator => "operator" | Principal => "principal" end.
Definition from_str (s : string) : result ParseEnumError t :=
  if String.eqb s "operator" then Ok Operator
  else if String.eqb s "principal" then Ok Principal
  else Err {| pe_what := "unknown context policy layer"; pe_other := s |}.
End ContextPolicyLayer.

Record ContextKindPolicy := {
  kp_allowed : option bool;
  kp_required : option bool;
  kp_allowed_companion_kinds : option (list ContextKind.t);
  kp_allowed_identity_schemes : option (list string);
  kp_agent_creation : option bool;
  kp_require_identity : option bool;
  kp_default_context_id : option ContextId;
  kp_include_descendants : option bool;
  kp_guidance : option string;
}.
Definition context_kind_policy_default : ContextKindPolicy :=
  {| kp_allowed := None; kp_required := None; kp_allowed_companion_kinds := None;
     kp_allowed_identity_schemes := None; kp_agent_creation := None; kp_require_identity := None;
     kp_default_context_id := None; kp_include_descendants := None; kp_guidance := None |}.

Definition normalize_scheme (s : string) : string := to_ascii_lowercase (trim s).
Definition known_scheme (s : string) : bool :=
  String.eqb s "git_remote" || String.eqb s "uri" || String.eqb s "namespaced_id".

Fixpoint validate_identity_schemes_from (unique : gset string) (schemes : list string) : checked unit :=
  match schemes with
  | [] => Ok ()
  | scheme :: rest =>
      let normalized := normalize_scheme scheme in
      if negb (known_scheme normalized) then Err "allowed_identity_schemes contains an unsupported scheme"
      else if bool_decide (normalized ∈ unique) then Err "allowed_identity_schemes must be unique"
      else validate_identity_schemes_from ({[normalized]} ∪ unique) rest
  end.
Definition validate_identity_schemes (schemes : list string) : checked unit :=
  validate_identity_schemes_from ∅ schemes.

(** [values.iter().any(|v| !unique.insert(v))]. *)
Definition has_duplicates {A} `{EqDecision A} (l : list A) : bool := negb (bool_decide (NoDup l)).

Definition context_kind_policy_validate (p : ContextKindPolicy) : checked unit :=
  _ ← match kp_allowed_identity_schemes p with Some s => validate_identity_schemes s | None => Ok () end;
  _ ← match kp_allowed_companion_kinds p with
      | Some kinds => bail_if (has_duplicates kinds) "allowed_companion_kinds must be unique"
      | None => Ok ()
      end;
  match kp_guidance p with
  | Some g => bail_if (is_blank g) "policy guidance cannot be blank"
  | None => Ok ()
  end.

Record ContextKindPolicyRecord := {
  kpr_layer : ContextPolicyLayer.t;
  kpr_principal : string;
  kpr_kind : ContextKind.t;
  kpr_policy : ContextKindPolicy;
  kpr_updated_at : DateTime;
}.
Record ContextKindPolicyDraft := {
  kpd_layer : ContextPolicyLayer.t;
  kpd_principal : string;
  kpd_kind : ContextKind.t;
  kpd_policy : ContextKindPolicy;
}.

(** [BTreeMap<String, ContextKindPolicy>]: distinct keys in ascending order. *)
Record ContextAnchorPolicy := { ap_kinds : list (string * ContextKindPolicy) }.
Definition anchor_get (kind : string) (p : ContextAnchorPolicy) : option ContextKindPolicy :=
  snd <$> List.find (λ kv, String.eqb (fst kv) kind) (ap_kinds p).

Definition context_anchor_policy_validate (p : ContextAnchorPolicy) : checked unit :=
  try_for_each (λ kv : string * ContextKindPolicy,
    normalized ← ContextKind.new (fst kv);
    _ ← bail_if (negb (String.eqb (ContextKind.as_str normalized) (fst kv)))
          "anchor policy kind keys must already be normalized";
    context_kind_policy_validate (snd kv)) (ap_kinds p).

Record ContextAnchorPolicyRecord := {
  apr_anchor_context_id : ContextId;
  apr_principal : string;
  apr_policy : ContextAnchorPolicy;
  apr_updated_at : DateTime;
}.
Record ContextAnchorPolicyDraft := {
  apd_anchor_context_id : ContextId; apd_principal : string; apd_policy : ContextAnchorPolicy;
}.
Record ContextDefinitionPatch := {
  cdp_display_name : string;
  cdp_description : option string;
  cdp_guidance : option string;
  cdp_aliases : list string;
  cdp_identities : list ContextIdentity;
  cdp_resolver_hints : list string;
}.

Record EffectiveContextPolicy := {
  ep_kind : ContextKind.t;
  ep_allowed : bool;
  ep_required : bool;
  ep_allowed_companion_kinds : option (list ContextKind.t);
  ep_allowed_identity_schemes : list string;
  ep_agent_creation : bool;
  ep_require_identity : bool;
  ep_default_context_id : option ContextId;
  ep_include_descendants : bool;
  ep_guidance : list string;
  ep_ambiguities : list string;
}.

(** ** Policy evaluation *)

Definition default_identity_schemes : gset string := {["git_remote"; "namespaced_id"; "uri"]}.
Definition normalized_scheme_set (values : list string) : gset string :=
  list_to_set (map normalize_scheme values).

Definition intersect_optional_kind_set (current : option (gset ContextKind.t)) (next : option (list ContextKind.t))
    : option (gset ContextKind.t) :=
  match next with
  | None => current
  | Some next =>
      let next : gset ContextKind.t := list_to_set next in
      Some (match current with None => next | Some current => current ∩ next end)
  end.

(** [merge_anchor_bool]: the new target and the ambiguity it reports. The set
    of the values has 0, 1 or 2 elements. *)
Definition merge_anchor_bool (field : string) (values : list bool) (target : bool) (ambiguities : list string)
    : bool * list string :=
  match existsb id values, existsb negb values with
  | false, false => (target, ambiguities)
  | true, false => (true, ambiguities)
  | false, true => (false, ambiguities)
  | true, true =>
      (target, ambiguities ++ [("active anchor policies specify conflicting " ++ field ++ " values")%string])
  end.

Definition is_opt (b : bool) (o : option bool) : bool := bool_decide (o = Some b).

(** The merge state after the operator and principal layers. *)
Record merge_state := {
  ms_allowed : bool;
  ms_required : bool;
  ms_agent_creation : bool;
  ms_require_identity : bool;
  ms_default_context_id : option ContextId;
  ms_include_descendants : bool;
  ms_guidance : list string;
  ms_companions : option (gset ContextKind.t);
  ms_schemes : gset string;
  ms_ambiguities : list string;
}.

Section merge.
Context (kind : ContextKind.t) (operator : option ContextKindPolicy).

Definition op {A} (f : ContextKindPolicy → option A) : option A := operator ≫= f.
Definition default_project : bool := String.eqb (ContextKind.as_str kind) ContextKind.PROJECT.
Definition operator_allowed : bool := default true (op kp_allowed).
Definition operator_creation_ceiling : bool := negb (is_opt false (op kp_agent_creation)).
Definition operator_identity_required : bool := is_opt true (op kp_require_identity).

Definition operator_layer : merge_state :=
  {| ms_allowed := operator_allowed;
     ms_required := default false (op kp_required);
     ms_agent_creation := default default_project (op kp_agent_creation);
     ms_require_identity := default default_project (op kp_require_identity);
     ms_default_context_id := op kp_default_context_id;
     ms_include_descendants := default false (op kp_include_descendants);
     ms_guidance := option_list (trimmed_non_empty (op kp_guidance));
     ms_companions := list_to_set <$> op kp_allowed_companion_kinds;
     ms_schemes := match op kp_allowed_identity_schemes with
                   | None => default_identity_schemes
                   | Some s => normalized_scheme_set s
                   end;
     ms_ambiguities := [] |}.

Definition restrict_schemes (schemes : gset string) (o : option (list string)) : gset string :=
  match o with Some s => schemes ∩ normalized_scheme_set s | None => schemes end.

Definition principal_layer (s : merge_state) (policy : ContextKindPolicy) : merge_state :=
  let allowed := if is_opt false (kp_allowed policy) then false else ms_allowed s in
  let allowed := if operator_allowed then default allowed (kp_allowed policy) else allowed in
  {| ms_allowed := allowed;
     ms_required := if is_opt true (op kp_required) then ms_required s
                    else default (ms_required s) (kp_required policy);
     ms_agent_creation := if operator_creation_ceiling
                          then default (ms_agent_creation s) (kp_agent_creation policy) else false;
     ms_require_identity := if operator_identity_required then ms_require_identity s
                            else default (ms_require_identity s) (kp_require_identity policy);
     ms_default_context_id := match kp_default_context_id policy with
                              | Some d => Some d
                              | None => ms_default_context_id s
                              end;
     ms_include_descendants := default (ms_include_descendants s) (kp_include_descendants policy);
     ms_guidance := ms_guidance s ++ option_list (trimmed_non_empty (kp_guidance policy));
     ms_companions := intersect_optional_kind_set (ms_companions s) (kp_allowed_companion_kinds policy);
     ms_schemes := restrict_schemes (ms_schemes s) (kp_allowed_identity_schemes policy);
     ms_ambiguities := ms_ambiguities s |}.

(** The loop over the anchors: companion kinds, schemes and guidance. *)
Definition anchor_sets (s : merge_state) (policy : ContextKindPolicy) : merge_state :=
  {| ms_allowed := ms_allowed s; ms_required := ms_required s; ms_agent_creation := ms_agent_creation s;
     ms_require_identity := ms_require_identity s; ms_default_context_id := ms_default_context_id s;
     ms_include_descendants := ms_include_descendants s;
     ms_guidance := match trimmed_non_empty (kp_guidance policy) with
                    | Some v => if any_eq v (ms_guidance s) then ms_guidance s else ms_guidance s ++ [v]
                    | None => ms_guidance s
                    end;
     ms_companions := intersect_optional_kind_set (ms_companions s) (kp_allowed_companion_kinds policy);
     ms_schemes := restrict_schemes (ms_schemes s) (kp_allowed_identity_schemes policy);
     ms_ambiguities := ms_ambiguities s |}.

Definition anchor_layer (s : merge_state) (anchors : list ContextKindPolicy) : merge_state :=
  match anchors with
  | [] => s
  | _ =>
      let '(required, amb) := merge_anchor_bool "required" (omap kp_required anchors) (ms_required s) (ms_ambiguities s) in
      let '(require_identity, amb) :=
        merge_anchor_bool "require_identity" (omap kp_require_identity anchors) (ms_require_identity s) amb in
      let '(include_descendants, amb) :=
        merge_anchor_bool "include_descendants" (omap kp_include_descendants anchors) (ms_include_descendants s) amb in
      let allowed :=
        if existsb (λ p, is_opt false (kp_allowed p)) anchors then false
        else if operator_allowed && existsb (λ p, is_opt true (kp_allowed p)) anchors then true
        else ms_allowed s in
      let agent_creation :=
        if existsb (λ p, is_opt false (kp_agent_creation p)) anchors || negb operator_creation_ceiling then false
        else if existsb (λ p, is_opt true (kp_agent_creation p)) anchors then true
        else ms_agent_creation s in
      let anchor_defaults : gset ContextId := list_to_set (omap kp_default_context_id anchors) in
      let '(default_context_id, amb) :=
        match elements anchor_defaults with
        | [] => (ms_default_context_id s, amb)
        | [d] => (Some d, amb)
        | _ => (ms_default_context_id s,
                amb ++ ["active anchor policies specify conflicting default_context_id values"])
        end in
      foldl anchor_sets
        {| ms_allowed := allowed; ms_required := required; ms_agent_creation := agent_creation;
           ms_require_identity := require_identity; ms_default_context_id := default_context_id;
           ms_include_descendants := include_descendants; ms_guidance := ms_guidance s;
           ms_companions := ms_companions s; ms_schemes := ms_schemes s; ms_ambiguities := amb |} anchors
  end.

Definition evaluate_context_policy (principal : option ContextKindPolicy) (anchors : list ContextKindPolicy)
    : EffectiveContextPolicy :=
  let s := operator_layer in
  let s := match principal with Some policy => principal_layer s policy | None => s end in
  let s := anchor_layer s anchors in
  {| ep_kind := kind;
     ep_allowed := if operator_allowed then ms_allowed s else false;
     ep_required := if is_opt true (op kp_required) then true else ms_required s;
     ep_allowed_companion_kinds := (λ v, sort_by ContextKind.cmp (elements v)) <$> ms_companions s;
     ep_allowed_identity_schemes := sort_by String.compare (elements (ms_schemes s));
     ep_agent_creation := if operator_creation_ceiling then ms_agent_creation s else false;
     ep_require_identity := if operator_identity_required then true else ms_require_identity s;
     ep_default_context_id := ms_default_context_id s;
     ep_include_descendants := ms_include_descendants s;
     ep_guidance := ms_guidance s;
     ep_ambiguities := ms_ambiguities s |}.
End merge.

(** ** Ancestors *)

Definition parent_map (records : list ContextRecord) : gmap ContextId (option ContextId) :=
  foldl (λ acc r, <[cd_id (cxr_context r) := cd_parent_id (cxr_context r)]> acc) ∅ records.

(** [by_id.get(&id).copied().flatten()]. *)
Definition parent_of (by_id : gmap ContextId (option ContextId)) (id : ContextId) : option ContextId :=
  by_id !! id ≫= (λ p, p).

Fixpoint ancestor_loop (fuel : nat) (by_id : gmap ContextId (option ContextId)) (ancestor_id : ContextId)
    (visited : gset ContextId) (cursor : option ContextId) : option bool :=
  match fuel with
  | O => None
  | S fuel' =>
      match cursor with
      | None => Some false
      | Some context_id =>
          if bool_decide (context_id = ancestor_id) then Some true
          else if bool_decide (context_id ∈ visited) then Some false
          else ancestor_loop fuel' by_id ancestor_id ({[context_id]} ∪ visited) (parent_of by_id context_id)
      end
  end.

(** The walk visits each id at most once: [size by_id + 2] steps are enough
    ([context_is_ancestor_spec]). *)
Definition context_is_ancestor (records : list ContextRecord) (ancestor_id descendant_id : ContextId) : bool :=
  let by_id := parent_map records in
  default false (ancestor_loop (S (S (size by_id))) by_id ancestor_id ∅ (parent_of by_id descendant_id)).

(** ** The effective policy of a kind *)

Definition disabled_guidance (kind : ContextKind.t) : string :=
  ("Context kind " ++ ContextKind.as_str kind ++ " is disabled by the operator.")%string.

Definition evaluate_effective_context_policy (kind : ContextKind.t) (kinds : list ContextKindDefinition)
    (kind_policies : list ContextKindPolicyRecord) (anchor_policies : list ContextAnchorPolicyRecord)
    (records : list ContextRecord) (active_context_ids : list ContextId) : EffectiveContextPolicy :=
  let layer l := kpr_policy <$>
    List.find (λ r, bool_decide (kpr_layer r = l) && bool_decide (kpr_kind r = kind)) kind_policies in
  let operator := layer ContextPolicyLayer.Operator in
  let principal := layer ContextPolicyLayer.Principal in
  let anchor_records := List.filter (λ r,
    existsb (N.eqb (apr_anchor_context_id r)) active_context_ids
    && is_some (anchor_get (ContextKind.as_str kind) (apr_policy r))) anchor_policies in
  let anchor_ids := map apr_anchor_context_id anchor_records in
  let anchor_records := List.filter (λ candidate,
    negb (existsb (λ other_id, negb (N.eqb other_id (apr_anchor_context_id candidate))
                               && context_is_ancestor records (apr_anchor_context_id candidate) other_id)
            anchor_ids)) anchor_records in
  let anchors := omap (λ r, anchor_get (ContextKind.as_str kind) (apr_policy r)) anchor_records in
  let effective := evaluate_context_policy kind operator principal anchors in
  let disabled := match List.find (λ d, bool_decide (ckd_kind d = kind)) kinds with
                  | None => true
                  | Some definition => negb (ckd_enabled definition)
                  end in
  if disabled then
    {| ep_kind := ep_kind effective; ep_allowed := false; ep_required := ep_required effective;
       ep_allowed_companion_kinds := ep_allowed_companion_kinds effective;
       ep_allowed_identity_schemes := ep_allowed_identity_schemes effective;
       ep_agent_creation := ep_agent_creation effective; ep_require_identity := ep_require_identity effective;
       ep_default_context_id := ep_default_context_id effective;
       ep_include_descendants := ep_include_descendants effective;
       ep_guidance := ep_guidance effective ++ [disabled_guidance kind];
       ep_ambiguities := ep_ambiguities effective |}
  else effective.

(** ** Policy theorems *)

Lemma is_opt_true b o : is_opt b o = true ↔ o = Some b.
Proof. apply bool_decide_eq_true. Qed.

Lemma elem_of_restrict s o x :
  x ∈ restrict_schemes s o ↔ x ∈ s ∧ ∀ l, o = Some l → x ∈ normalized_scheme_set l.
Proof.
  destruct o as [l|]; cbn; [rewrite elem_of_intersection|]; (split; [intros H|intros [H1 H2]]).
  - destruct H. split; [done|]. by intros ? [= <-].
  - split; [done|]. by apply H2.
  - split; [done|]. discriminate.
  - done.
Qed.

(** A companion-kind restriction admits a kind when it is unrestricted or
    lists it; the merge is the conjunction. *)
Definition admits (o : option (gset ContextKind.t)) (k : ContextKind.t) : Prop :=
  ∀ s, o = Some s → k ∈ s.
Lemma admits_intersect cur next k :
  admits (intersect_optional_kind_set cur next) k ↔ admits cur k ∧ (∀ l, next = Some l → k ∈ l).
Proof.
  unfold admits, intersect_optional_kind_set. destruct next as [l|]; [|split; [intros H; split; [done|discriminate]|by intros []]].
  destruct cur as [c|]; split.
  - intros H. specialize (H _ eq_refl). apply elem_of_intersection in H as [H1 H2%elem_of_list_to_set].
    split; [by intros ? [= <-]|by intros ? [= <-]].
  - intros [H1 H2] ? [= <-]. apply elem_of_intersection. split; [by apply H1|]. apply elem_of_list_to_set. by apply H2.
  - intros H. specialize (H _ eq_refl). apply elem_of_list_to_set in H.
    split; [discriminate|by intros ? [= <-]].
  - intros [_ H2] ? [= <-]. apply elem_of_list_to_set. by apply H2.
Qed.
Lemma restricted_intersect cur next :
  is_some (intersect_optional_kind_set cur next) = is_some cur || is_some next.
Proof. destruct cur, next; done. Qed.

(** What the anchor loop does to the set-valued fields. *)
Lemma anchor_fold_schemes anchors s x :
  x ∈ ms_schemes (foldl anchor_sets s anchors) ↔
  x ∈ ms_schemes s ∧ ∀ a l, a ∈ anchors → kp_allowed_identity_schemes a = Some l → x ∈ normalized_scheme_set l.
Proof.
  revert s; induction anchors as [|a anchors IH]; intros s; cbn [foldl].
  - split; [|by intros []]. intros H. split; [done|]. by intros ? ? []%elem_of_nil.
  - rewrite IH. cbn [anchor_sets ms_schemes]. rewrite elem_of_restrict. split.
    + intros [[Hs Ha] Hl]. split; [done|]. intros b l [->|Hb]%elem_of_cons; [apply Ha|by apply Hl].
    + intros [Hs Hl]. split_and!; [done| |].
      * intros l. apply Hl. left.
      * intros b l Hb. apply Hl. by right.
Qed.
Lemma anchor_fold_admits anchors s k :
  admits (ms_companions (foldl anchor_sets s anchors)) k ↔
  admits (ms_companions s) k ∧ ∀ a l, a ∈ anchors → kp_allowed_companion_kinds a = Some l → k ∈ l.
Proof.
  revert s; induction anchors as [|a anchors IH]; intros s; cbn [foldl].
  - split; [|by intros []]. intros H. split; [done|]. by intros ? ? []%elem_of_nil.
  - rewrite IH. cbn [anchor_sets ms_companions]. rewrite admits_intersect. split.
    + intros [[Hs Ha] Hl]. split; [done|]. intros b l [->|Hb]%elem_of_cons; [apply Ha|by apply Hl].
    + intros [Hs Hl]. split_and!; [done| |].
      * intros l. apply Hl. left.
      * intros b l Hb. apply Hl. by right.
Qed.
Lemma anchor_fold_restricted anchors s :
  is_some (ms_companions (foldl anchor_sets s anchors)) =
  is_some (ms_companions s) || existsb (λ a, is_some (kp_allowed_companion_kinds a)) anchors.
Proof.
  revert s; induction anchors as [|a anchors IH]; intros s; cbn [foldl existsb]; [by rewrite orb_false_r|].
  rewrite IH. cbn [anchor_sets ms_companions]. by rewrite restricted_intersect, orb_assoc.
Qed.
Lemma anchor_fold_scalars anchors s :
  let s' := foldl anchor_sets s anchors in
  ms_allowed s' = ms_allowed s ∧ ms_required s' = ms_required s ∧ ms_agent_creation s' = ms_agent_creation s ∧
  ms_require_identity s' = ms_require_identity s ∧ ms_default_context_id s' = ms_default_context_id s ∧
  ms_include_descendants s' = ms_include_descendants s ∧ ms_ambiguities s' = ms_ambiguities s.
Proof. cbn zeta. revert s; induction anchors as [|a anchors IH]; intros s; cbn [foldl]; [done|].
  destruct (IH (anchor_sets s a)) as (-> & -> & -> & -> & -> & -> & ->). done.
Qed.

(** The fields of the anchor layer, one at a time. *)
Lemma anchor_layer_fields operator s anchors :
  anchors ≠ [] →
  ∃ s0, anchor_layer operator s anchors = foldl anchor_sets s0 anchors ∧
    ms_allowed s0 = (if existsb (λ p, is_opt false (kp_allowed p)) anchors then false
                     else if operator_allowed operator && existsb (λ p, is_opt true (kp_allowed p)) anchors then true
                     else ms_allowed s) ∧
    ms_schemes s0 = ms_schemes s ∧ ms_companions s0 = ms_companions s.
Proof.
  intros Hne. unfold anchor_layer. destruct anchors as [|a anchors]; [done|].
  repeat case_match; simplify_eq; eexists; (split; [done|]); cbn; done.
Qed.

Lemma elem_of_sorted_set {A} `{Countable A} (cmp : A → A → comparison) (s : gset A) x :
  x ∈ sort_by cmp (elements s) ↔ x ∈ s.
Proof. by rewrite elem_of_sort_by, elem_of_elements. Qed.

(** The schemes and companions after every layer. *)
Lemma final_schemes kind operator principal anchors x :
  x ∈ ep_allowed_identity_schemes (evaluate_context_policy kind operator principal anchors) ↔
  x ∈ ms_schemes (operator_layer kind operator) ∧
  (∀ p l, principal = Some p → kp_allowed_identity_schemes p = Some l → x ∈ normalized_scheme_set l) ∧
  (∀ a l, a ∈ anchors → kp_allowed_identity_schemes a = Some l → x ∈ normalized_scheme_set l).
Proof.
  unfold evaluate_context_policy. cbn [ep_allowed_identity_schemes]. rewrite elem_of_sorted_set.
  set (s1 := match principal with Some p => _ | None => _ end).
  assert (H1 : x ∈ ms_schemes s1 ↔ x ∈ ms_schemes (operator_layer kind operator) ∧
    (∀ p l, principal = Some p → kp_allowed_identity_schemes p = Some l → x ∈ normalized_scheme_set l)).
  { unfold s1. destruct principal as [p|].
    - cbn [principal_layer ms_schemes]. rewrite elem_of_restrict. split; intros [? Hp]; (split; [done|]).
      + intros ? l [= <-]. apply Hp.
      + intros l. by apply Hp.
    - split; [intros H; split; [done|discriminate]|by intros []]. }
  enough (x ∈ ms_schemes (anchor_layer operator s1 anchors) ↔ x ∈ ms_schemes s1 ∧
    (∀ a l, a ∈ anchors → kp_allowed_identity_schemes a = Some l → x ∈ normalized_scheme_set l)) by tauto.
  destruct anchors as [|a anchors].
  - cbn [anchor_layer]. split; [|by intros []]. intros H; split; [done|]. by intros ? ? []%elem_of_nil.
  - destruct (anchor_layer_fields operator s1 (a :: anchors)) as (s0 & -> & _ & Hs & _); [done|].
    by rewrite anchor_fold_schemes, Hs.
Qed.

Lemma final_companions kind operator principal anchors k :
  (∀ l, ep_allowed_companion_kinds (evaluate_context_policy kind operator principal anchors) = Some l → k ∈ l) ↔
  (∀ l, op operator kp_allowed_companion_kinds = Some l → k ∈ l) ∧
  (∀ p l, principal = Some p → kp_allowed_companion_kinds p = Some l → k ∈ l) ∧
  (∀ a l, a ∈ anchors → kp_allowed_companion_kinds a = Some l → k ∈ l).
Proof.
  unfold evaluate_context_policy. cbn [ep_allowed_companion_kinds].
  set (s1 := match principal with Some p => _ | None => _ end).
  set (s2 := anchor_layer operator s1 anchors).
  assert (H2 : (∀ l, (λ v, sort_by ContextKind.cmp (elements v)) <$> ms_companions s2 = Some l → k ∈ l) ↔
               admits (ms_companions s2) k).
  { unfold admits. destruct (ms_companions s2) as [c|]; cbn; [|split; discriminate]. split.
    - intros H ? [= <-]. apply (elem_of_sorted_set ContextKind.cmp). by apply H.
    - intros H ? [= <-]. apply elem_of_sorted_set. by apply H. }
  rewrite H2.
  assert (H0 : admits (ms_companions (operator_layer kind operator)) k ↔
               ∀ l, op operator kp_allowed_companion_kinds = Some l → k ∈ l).
  { unfold admits. cbn [operator_layer ms_companions].
    destruct (op operator kp_allowed_companion_kinds) as [l|]; cbn; [|split; discriminate]. split.
    - intros H ? [= <-]. apply (elem_of_list_to_set (C:=gset ContextKind.t)). by apply H.
    - intros H ? [= <-]. apply elem_of_list_to_set. by apply H. }
  assert (H1 : admits (ms_companions s1) k ↔ (∀ l, op operator kp_allowed_companion_kinds = Some l → k ∈ l) ∧
               (∀ p l, principal = Some p → kp_allowed_companion_kinds p = Some l → k ∈ l)).
  { unfold s1. destruct principal as [p|].
    - cbn [principal_layer ms_companions]. rewrite admits_intersect, H0. split; intros [? Hp]; (split; [done|]).
      + intros ? l [= <-]. apply Hp.
      + intros l. by apply Hp.
    - rewrite H0. split; [intros H; split; [done|discriminate]|by intros []]. }
  enough (admits (ms_companions s2) k ↔ admits (ms_companions s1) k ∧
    (∀ a l, a ∈ anchors → kp_allowed_companion_kinds a = Some l → k ∈ l)) by tauto.
  unfold s2. destruct anchors as [|a anchors].
  - cbn [anchor_layer]. split; [|by intros []]. intros H; split; [done|]. by intros ? ? []%elem_of_nil.
  - destruct (anchor_layer_fields operator s1 (a :: anchors)) as (s0 & -> & _ & _ & Hs); [done|].
    by rewrite anchor_fold_admits, Hs.
Qed.

(** C21. Operator denials are ceilings. Whatever the principal and the active
    anchors say: a kind the operator denies stays denied, creation by agents it
    denies stays denied, a required kind or required identity stays required;
    an anchor denial of the kind always wins; and the accepted identity schemes
    and companion kinds are exactly those that every layer that restricts them
    admits (so lower layers can only narrow them). *)
Theorem operator_policy_ceilings kind operator principal anchors :
  let e := evaluate_context_policy kind operator principal anchors in
  (op operator kp_allowed = Some false → ep_allowed e = false) ∧
  (op operator kp_agent_creation = Some false → ep_agent_creation e = false) ∧
  (op operator kp_required = Some true → ep_required e = true) ∧
  (op operator kp_require_identity = Some true → ep_require_identity e = true) ∧
  ((∃ a, a ∈ anchors ∧ kp_allowed a = Some false) → ep_allowed e = false) ∧
  (∀ x, x ∈ ep_allowed_identity_schemes e ↔
     x ∈ ms_schemes (operator_layer kind operator) ∧
     (∀ p l, principal = Some p → kp_allowed_identity_schemes p = Some l → x ∈ normalized_scheme_set l) ∧
     (∀ a l, a ∈ anchors → kp_allowed_identity_schemes a = Some l → x ∈ normalized_scheme_set l)) ∧
  (∀ k, (∀ l, ep_allowed_companion_kinds e = Some l → k ∈ l) ↔
     (∀ l, op operator kp_allowed_companion_kinds = Some l → k ∈ l) ∧
     (∀ p l, principal = Some p → kp_allowed_companion_kinds p = Some l → k ∈ l) ∧
     (∀ a l, a ∈ anchors → kp_allowed_companion_kinds a = Some l → k ∈ l)).
Proof.
  cbn zeta. split_and!.
  - intros H. cbn. unfold operator_allowed. by rewrite H.
  - intros H. cbn. unfold operator_creation_ceiling. by rewrite (proj2 (is_opt_true _ _) H).
  - intros H. cbn. by rewrite (proj2 (is_opt_true _ _) H).
  - intros H. cbn. unfold operator_identity_required. by rewrite (proj2 (is_opt_true _ _) H).
  - intros (a & Ha & Hd). unfold evaluate_context_policy. cbn [ep_allowed].
    destruct (operator_allowed operator); [|done].
    set (s1 := match principal with Some p => _ | None => _ end).
    destruct (anchor_layer_fields operator s1 anchors) as (s0 & -> & Hal & _).
    { intros ->. by apply elem_of_nil in Ha. }
    destruct (anchor_fold_scalars anchors s0) as [-> _]. rewrite Hal.
    rewrite (proj2 (existsb_exists _ _)); [done|]. exists a. split; [by apply list_elem_of_In|by apply is_opt_true].
  - intros x. apply final_schemes.
  - intros k. apply final_companions.
Qed.

(** ** The ancestor walk *)

Definition parent_rel (by_id : gmap ContextId (option ContextId)) (c p : ContextId) : Prop :=
  parent_of by_id c = Some p.

(** Reaching [a] from the cursor by zero or more parent links. *)
Definition reaches (by_id : gmap ContextId (option ContextId)) (cursor : option ContextId) (a : ContextId) : Prop :=
  ∃ c, cursor = Some c ∧ rtc (parent_rel by_id) c a.

Lemma reaches_step by_id c a :
  reaches by_id (Some c) a ↔ c = a ∨ reaches by_id (parent_of by_id c) a.
Proof.
  unfold reaches. split.
  - intros (? & [= <-] & Hr). destruct Hr as [c|c p a Hp Hr]; [by left|right]. by exists p.
  - intros [->|(p & Hp & Hr)]; [exists a; split; [done|apply rtc_refl]|].
    exists c. split; [done|]. by eapply rtc_l.
Qed.

(** The visited ids are closed under parents up to the cursor and avoid the
    ancestor. *)
Definition walk_inv (by_id : gmap ContextId (option ContextId)) (a : ContextId) (visited : gset ContextId)
    (cursor : option ContextId) : Prop :=
  a ∉ visited ∧ ∀ v, v ∈ visited → ∀ p, parent_rel by_id v p → p ∈ visited ∨ cursor = Some p.

Lemma visited_closed by_id a visited c :
  walk_inv by_id a visited (Some c) → c ∈ visited → ¬ reaches by_id (Some c) a.
Proof.
  intros [Ha Hc] Hv (? & [= <-] & Hr).
  apply Ha. clear Ha. revert Hv. revert Hc. induction Hr as [x|x y z Hxy _ IH]; intros Hc Hv; [done|].
  assert (Hy : y ∈ visited).
  { destruct (Hc x Hv y Hxy) as [|[= ->]]; done. }
  apply IH; [|done]. intros v Hvv p Hp. destruct (Hc v Hvv p Hp) as [|[= ->]]; by left.
Qed.

Lemma ancestor_loop_spec fuel by_id a visited cursor :
  walk_inv by_id a visited cursor →
  (S (size (dom by_id ∖ visited)) < fuel)%nat ∨ (cursor = None ∧ (0 < fuel)%nat) →
  ∃ b, ancestor_loop fuel by_id a visited cursor = Some b ∧ (b = true ↔ reaches by_id cursor a).
Proof.
  revert visited cursor; induction fuel as [|fuel IH]; intros visited cursor Hinv Hf; [lia|].
  cbn. destruct cursor as [c|].
  2:{ exists false. split; [done|]. split; [done|]. by intros (? & ? & _). }
  case_bool_decide as Hca.
  { exists true. split; [done|]. split; [|done]. intros _. exists c. split; [done|]. subst. apply rtc_refl. }
  case_bool_decide as Hvis.
  { exists false. split; [done|]. split; [done|]. intros Hr. by destruct (visited_closed _ _ _ _ Hinv Hvis Hr). }
  destruct Hf as [Hf|[? _]]; [|done].
  destruct (IH ({[c]} ∪ visited) (parent_of by_id c)) as (b & Hb & Hiff).
  - destruct Hinv as [Ha Hc]. split; [set_solver|].
    intros v [->%elem_of_singleton|Hv]%elem_of_union p Hp; [by right|].
    destruct (Hc v Hv p Hp) as [|[= ->]]; left; set_solver.
  - destruct (parent_of by_id c) as [p|] eqn:Hp; [left|right; split; [done|lia]].
    assert (Hdom : c ∈ dom by_id).
    { apply elem_of_dom. unfold parent_of in Hp. destruct (by_id !! c); [by eexists|done]. }
    assert (Hlt : (size (dom by_id ∖ ({[c]} ∪ visited)) < size (dom by_id ∖ visited))%nat)
      by (apply subset_size; set_solver).
    lia.
  - exists b. split; [done|]. rewrite Hiff, reaches_step. split; [by right|]. by intros [->|].
Qed.

(** The ancestor walk decides ancestry and always terminates: on any set
    of records, parent cycles included, it answers [true] exactly when a
    non-empty chain of parent links leads from the descendant to the
    ancestor. *)
Theorem context_is_ancestor_spec records ancestor descendant :
  context_is_ancestor records ancestor descendant = true ↔
  tc (parent_rel (parent_map records)) descendant ancestor.
Proof.
  unfold context_is_ancestor. set (by_id := parent_map records).
  destruct (ancestor_loop_spec (S (S (size by_id))) by_id ancestor ∅ (parent_of by_id descendant))
    as (b & -> & Hb).
  - split; [set_solver|]. intros v []%elem_of_empty.
  - left. rewrite difference_empty_L, size_dom. lia.
  - cbn. rewrite Hb. unfold reaches. split.
    + intros (p & Hp & Hr). by eapply tc_rtc_r; [apply tc_once|].
    + intros Ht. inversion Ht as [? ? Hp|? p ? Hp Hr]; subst; eexists; (split; [exact Hp|]);
        eauto using rtc_refl, tc_rtc.
Qed.

(** ** Durable identities *)

(** The [url] crate, as far as identities use it. *)
Class UrlLib := {
  Url : Type;
  url_parse : string → option Url;
  url_scheme : Url → string;
  url_host_str : Url → option string;
  url_port : Url → option Z;
  url_path : Url → string;
  url_username : Url → string;
  url_password : Url → option string;
  url_query : Url → option string;
  url_fragment : Url → option string;
  url_set_username : string → Url → Url;
  url_set_password : option string → Url → Url;
  url_set_query : option string → Url → Url;
  url_set_fragment : option string → Url → Url;
  url_to_string : Url → string;
}.

(** The [sha2] crate: a digest of bytes. *)
Class Sha256Lib := { sha256 : list Ascii.ascii → list Ascii.ascii }.

Definition HEX : list Ascii.ascii := bytes "0123456789abcdef".
Definition hex_digit (n : N) : Ascii.ascii := nth (N.to_nat n) HEX (byte 48).
Definition hex_byte (b : Ascii.ascii) : list Ascii.ascii :=
  [hex_digit (N.shiftr (byte_val b) 4); hex_digit (N.land (byte_val b) 15)].
Definition hex_lower (bs : list Ascii.ascii) : string := of_bytes (flat_map hex_byte bs).

Definition is_ascii_alphanumeric (c : Ascii.ascii) : bool :=
  let n := byte_val c in
  ((97 <=? n) && (n <=? 122) || (65 <=? n) && (n <=? 90) || (48 <=? n) && (n <=? 57))%N.
Definition valid_namespace (value : string) : bool :=
  (byte_len value <=? 128)
  && forallb (λ c, is_ascii_alphanumeric c
                   || existsb (N.eqb (byte_val c)) [46; 95; 45; 47; 58]%N) (bytes value).

(** [str::trim_matches('/')]. *)
Fixpoint drop_while (c : Ascii.ascii) (l : list Ascii.ascii) : list Ascii.ascii :=
  match l with [] => [] | a :: l' => if Ascii.eqb a c then drop_while c l' else l end.
Definition trim_matches (c : Ascii.ascii) (s : string) : string :=
  of_bytes (rev (drop_while c (rev (drop_while c (bytes s))))).

(** [str::split_once(c)]. *)
Fixpoint split_once_bytes (c : Ascii.ascii) (l acc : list Ascii.ascii) : option (list Ascii.ascii * list Ascii.ascii) :=
  match l with
  | [] => None
  | a :: l' => if Ascii.eqb a c then Some (rev acc, l') else split_once_bytes c l' (a :: acc)
  end.
Definition split_once (c : Ascii.ascii) (s : string) : option (string * string) :=
  match split_once_bytes c (bytes s) [] with
  | Some (a, b) => Some (of_bytes a, of_bytes b)
  | None => None
  end.

(** Remove a [.git] suffix, in any ASCII case. *)
Definition strip_git_suffix (path : string) : string :=
  let l := bytes path in
  let suffix_start := (length l - 4)%nat in
  if String.eqb (to_ascii_lowercase (of_bytes (drop suffix_start l))) ".git"
  then of_bytes (take suffix_start l) else path.

Section identity.
Context `{UL : UrlLib} `{Sha256Lib}.

Definition normalize_git_remote (raw : string) : checked (string * string) :=
  let raw := trim raw in
  _ ← bail_if (str_is_empty raw) "git_remote value cannot be blank";
  parsed ←
    (if str_contains raw "://"
     then ok_or "git_remote must be an absolute remote URL" (url_parse raw)
     else
       '(authority, path) ←
         match split_once (byte 58) raw with
         | Some (authority, path) =>
             if str_contains authority "@" && negb (str_is_empty path) then Ok (authority, path)
             else Err "git_remote must be an absolute URL or SSH scp-style remote"
         | None => Err "git_remote must be an absolute URL or SSH scp-style remote"
         end;
       ok_or "git_remote SSH form is invalid" (url_parse ("ssh://" ++ authority ++ "/" ++ path)));
  _ ← bail_if (String.eqb (url_scheme parsed) "file") "local paths are resolver hints, not durable identities";
  host ← ok_or "git_remote requires a host" (url_host_str parsed);
  let host := to_ascii_lowercase host in
  let path := strip_git_suffix (trim_matches slash (url_path parsed)) in
  _ ← bail_if (str_is_empty path) "git_remote requires a repository path";
  let authority := match url_port parsed with
                   | None => host
                   | Some port => (host ++ ":" ++ pretty port)%string
                   end in
  Ok ((authority ++ "/" ++ path)%string, (authority ++ "/…#")%string).

Definition normalize_uri (raw : string) : checked (string * string) :=
  parsed ← ok_or "uri must be absolute" (url_parse (trim raw));
  let scheme := url_scheme parsed in
  _ ← bail_if (negb (String.eqb scheme "https" || String.eqb scheme "ssh" || String.eqb scheme "git"))
        "uri scheme is not allowed by the default identity policy";
  _ ← bail_if (negb (str_is_empty (url_username parsed)) || is_some (url_password parsed)
               || is_some (url_query parsed) || is_some (url_fragment parsed))
        "uri credentials, query, and fragment are not permitted";
  _ ← bail_if (is_none (url_host_str parsed)) "uri requires an authority host";
  let parsed := url_set_username "" parsed in
  let parsed := url_set_password None parsed in
  let parsed := url_set_query None parsed in
  let parsed := url_set_fragment None parsed in
  let canonical := url_to_string parsed in
  let host := default "host" (url_host_str parsed) in
  Ok (canonical, (url_scheme parsed ++ "://" ++ host ++ "/…#")%string).

Definition nul : string := of_bytes [byte 0].

(** The canonical text, the label prefix and the stored namespace. *)
Definition canonical_identity (scheme : string) (namespace : option string) (value : string)
    : checked (string * string * option string) :=
  if String.eqb scheme "git_remote" then
    _ ← bail_if (is_some namespace) "git_remote does not accept namespace";
    '(canonical, label) ← normalize_git_remote value;
    Ok (canonical, label, None)
  else if String.eqb scheme "uri" then
    _ ← bail_if (is_some namespace) "uri does not accept namespace";
    '(canonical, label) ← normalize_uri value;
    Ok (canonical, label, None)
  else if String.eqb scheme "namespaced_id" then
    namespace ← ok_or "namespaced_id requires namespace" namespace;
    _ ← bail_if (negb (valid_namespace namespace) || is_blank value)
          "namespaced_id requires a valid namespace and non-empty opaque value";
    Ok ((namespace ++ nul ++ trim value)%string, (namespace ++ ":…")%string, Some namespace)
  else Err "unsupported context identity scheme".

Definition fingerprint_of (scheme canonical : string) : string :=
  hex_lower (sha256 (bytes (scheme ++ nul ++ canonical))).

Definition normalize_context_identity (input : ContextIdentityInput) : checked ContextIdentity :=
  _ ← validate_identity_input_limits input;
  let scheme := to_ascii_lowercase (trim (cii_scheme input)) in
  let namespace := trimmed_non_empty (cii_namespace input) in
  '(canonical, label_prefix, stored_namespace) ← canonical_identity scheme namespace (cii_value input);
  let fingerprint := fingerprint_of scheme canonical in
  let redacted_label := (label_prefix ++ of_bytes (take 8 (bytes fingerprint)))%string in
  Ok {| ci_scheme := scheme; ci_namespace := stored_namespace; ci_fingerprint := fingerprint;
        ci_redacted_label := redacted_label |}.
End identity.

(** ** Remaining records *)

Record ContextGrant := {
  cg_context_id : ContextId; cg_grantee_principal : string; cg_granted_by : string; cg_created_at : DateTime;
}.
Record MemoryContext := { mcx_memory_id : MemoryId; mcx_context : ContextDefinition; mcx_ordinal : Z }.

Record ContextCreateDraft := {
  ccd_id : ContextId;
  ccd_kind : ContextKind.t;
  ccd_key : string;
  ccd_normalized_key : string;
  ccd_display_name : string;
  ccd_description : option string;
  ccd_owner_principal : string;
  ccd_guidance : option string;
  ccd_parent_id : option ContextId;
  ccd_aliases : list (string * string);
  ccd_identities : list ContextIdentity;
  ccd_resolver_hints : list string;
  ccd_confirm_distinct_from : list ContextId;
  ccd_enforce_fuzzy_confirmation : bool;
  ccd_frozen : bool;
}.

Record ContextAuditDraft := {
  cad_actor_principal : string;
  cad_action : string;
  cad_context_id : option ContextId;
  cad_memory_id : option MemoryId;
  cad_details : option Json;
}.
Definition context_audit_draft_new (actor_principal action : string) : ContextAuditDraft :=
  {| cad_actor_principal := actor_principal; cad_action := action; cad_context_id := None;
     cad_memory_id := None; cad_details := None |}.
Definition with_context (d : ContextAuditDraft) (context_id : ContextId) : ContextAuditDraft :=
  {| cad_actor_principal := cad_actor_principal d; cad_action := cad_action d;
     cad_context_id := Some context_id; cad_memory_id := cad_memory_id d; cad_details := cad_details d |}.
Record ContextAuditEvent := {
  cae_id : Z;
  cae_actor_principal : string;
  cae_action : string;
  cae_context_id : option ContextId;
  cae_memory_id : option MemoryId;
  cae_timestamp : DateTime;
  cae_details : option Json;
}.

(** ** Duplicate similarity *)

Section similarity.
Context `{UnicodeCase}.

Definition create_draft_private (id : ContextId) (kind : ContextKind.t) (key display_name owner_principal : string)
    : ContextCreateDraft :=
  {| ccd_id := id; ccd_kind := kind; ccd_key := key; ccd_normalized_key := normalize_context_key key;
     ccd_display_name := display_name; ccd_description := None; ccd_owner_principal := owner_principal;
     ccd_guidance := None; ccd_parent_id := None; ccd_aliases := []; ccd_identities := [];
     ccd_resolver_hints := []; ccd_confirm_distinct_from := []; ccd_enforce_fuzzy_confirmation := false;
     ccd_frozen := false |}.

(** [split(|c| !c.is_ascii_alphanumeric())], keeping the non-empty parts: the
    bytes of a non-ASCII character separate too. *)
Fixpoint token_bytes (l cur : list Ascii.ascii) : list (list Ascii.ascii) :=
  match l with
  | [] => [rev cur]
  | a :: l' => if is_ascii_alphanumeric a then token_bytes l' (a :: cur) else rev cur :: token_bytes l' []
  end.
Definition context_tokens (value : string) : gset string :=
  list_to_set (List.filter (λ t, negb (str_is_empty t))
    (map of_bytes (token_bytes (bytes (normalize_context_key value)) []))).

(** [str::chars] of valid UTF-8: a character is a leading byte and its
    continuation bytes [10xxxxxx]. *)
Definition is_continuation (c : Ascii.ascii) : bool := (N.land (byte_val c) 192 =? 128)%N.
Fixpoint chars_bytes (l : list Ascii.ascii) : list (list Ascii.ascii) :=
  match l with
  | [] => []
  | a :: l' =>
      match chars_bytes l' with
      | c :: cs => match c with
                   | b :: _ => if is_continuation b then (a :: c) :: cs else [a] :: c :: cs
                   | [] => [a] :: cs
                   end
      | [] => [[a]]
      end
  end.
(** [slice::windows(3)], each window collected into a string. *)
Fixpoint windows3 (cs : list (list Ascii.ascii)) : list (list Ascii.ascii) :=
  match cs with
  | a :: (b :: c :: _) as rest => (a ++ b ++ c) :: windows3 rest
  | _ => []
  end.
Definition context_trigrams (value : string) : gset string :=
  let normalized := normalize_context_key value in
  let chars := chars_bytes (bytes normalized) in
  if (length chars <? 3)%nat then
    if negb (str_is_empty normalized) then {[normalized]} else ∅
  else list_to_set (map of_bytes (windows3 chars)).

Definition normalized_set_overlap (left right : gset string) : f64 :=
  let denominator := Nat.max (size left) (size right) in
  if (denominator =? 0)%nat then f0
  else fdiv (f64_of_Z (Z.of_nat (size (left ∩ right)))) (f64_of_Z (Z.of_nat denominator)).

Record ContextSimilarityQuery := { sq_tokens : gset string; sq_trigrams : gset string }.
Definition similarity_query_new (query : string) : ContextSimilarityQuery :=
  {| sq_tokens := context_tokens query; sq_trigrams := context_trigrams query |}.
Definition similarity_score (q : ContextSimilarityQuery) (key display_name : string) (aliases : list string) : f64 :=
  foldl fmax f0 (map (λ surface,
    fmax (normalized_set_overlap (sq_tokens q) (context_tokens surface))
         (normalized_set_overlap (sq_trigrams q) (context_trigrams surface))) (key :: display_name :: aliases)).
Definition context_duplicate_similarity (query key display_name : string) (aliases : list string) : f64 :=
  similarity_score (similarity_query_new query) key display_name aliases.
End similarity.

Example windows3_example :
  windows3 (chars_bytes (bytes "né…x")) = map bytes ["né…"; "é…x"].
Proof. vm_compute. reflexivity. Qed.

(** ** Identity theorems *)

Lemma hex_byte_inj a b : hex_byte a = hex_byte b → a = b.
Proof.
  assert (Hdec : ∀ c, match hex_byte c with
    | [x; y] => byte (N.of_nat (default 0%nat (fst <$> list_find (λ d, d = x) HEX)) * 16
                      + N.of_nat (default 0%nat (fst <$> list_find (λ d, d = y) HEX)))
    | _ => byte 0 end = c) by (intros [[] [] [] [] [] [] [] []]; vm_compute; reflexivity).
  intros Heq. rewrite <-(Hdec a), <-(Hdec b), Heq. done.
Qed.

Lemma hex_lower_inj l k : hex_lower l = hex_lower k → l = k.
Proof.
  unfold hex_lower. intros H. apply (f_equal bytes) in H. rewrite !bytes_of_bytes in H.
  revert k H; induction l as [|a l IH]; intros [|b k]; cbn [flat_map]; try done.
  intros H. change (hex_byte a ++ flat_map hex_byte l = hex_byte b ++ flat_map hex_byte k) in H.
  apply app_inj_1 in H as [Ha Hl]; [|done]. f_equal; [by apply hex_byte_inj|by apply IH].
Qed.

Lemma bytes_app s t : bytes (s ++ t)%string = bytes s ++ bytes t.
Proof.
  induction s as [|c s IH]; [done|].
  change (c :: bytes (s ++ t)%string = c :: bytes s ++ bytes t). by rewrite IH.
Qed.

(** Splitting at the first NUL is unambiguous. *)
Definition no_nul (s : string) : Prop := byte 0 ∉ bytes s.

Lemma nul_split_inj a b x y :
  no_nul a → no_nul b → (a ++ nul ++ x)%string = (b ++ nul ++ y)%string → a = b ∧ x = y.
Proof.
  unfold no_nul. intros Ha Hb H. apply (f_equal bytes) in H. rewrite !bytes_app in H.
  assert (Hg : ∀ la lb : list Ascii.ascii, byte 0 ∉ la → byte 0 ∉ lb → la ++ bytes nul ++ bytes x = lb ++ bytes nul ++ bytes y →
    la = lb ∧ bytes x = bytes y).
  { clear. induction la as [|c la IH]; intros [|d lb] Ha Hb H; cbn in H.
    - by injection H as ?.
    - injection H as <- _. exfalso. apply Hb. left.
    - injection H as -> _. exfalso. apply Ha. left.
    - injection H as -> H. destruct (IH lb) as [-> ?]; [set_solver|set_solver|done|done]. }
  destruct (Hg _ _ Ha Hb H) as [H1 H2]. by apply bytes_inj in H1, H2.
Qed.

Lemma valid_namespace_no_nul s : valid_namespace s = true → no_nul s.
Proof.
  unfold valid_namespace, no_nul. rewrite andb_true_iff, forallb_forall. intros [_ H] Hin.
  apply list_elem_of_In in Hin. apply H in Hin. vm_compute in Hin. done.
Qed.

Section identity_theorems.
Context `{UL : UrlLib} `{SH : Sha256Lib}.

Lemma canonical_scheme_no_nul scheme ns v r :
  canonical_identity scheme ns v = Ok r → no_nul scheme.
Proof.
  unfold canonical_identity. intros H.
  repeat match type of H with context [String.eqb scheme ?k] =>
    destruct (String.eqb_spec scheme k) as [->|]; [intros Hin; vm_compute in Hin; set_solver|] end.
  done.
Qed.

(** Fingerprints identify: two inputs that normalise to identities with the
    same fingerprint either have the same scheme and the same canonical text,
    or exhibit a SHA-256 collision; and for opaque namespaced ids the canonical
    text determines the namespace and the trimmed value, so distinct
    (namespace, value) pairs cannot share a fingerprint without a collision. *)
Theorem identity_fingerprint_separates i1 i2 r1 r2 :
  normalize_context_identity i1 = Ok r1 → normalize_context_identity i2 = Ok r2 →
  ci_fingerprint r1 = ci_fingerprint r2 →
  (∃ x y, x ≠ y ∧ sha256 x = sha256 y) ∨
  (ci_scheme r1 = ci_scheme r2 ∧
   (ci_scheme r1 = "namespaced_id"%string →
    ci_namespace r1 = ci_namespace r2 ∧ trim (cii_value i1) = trim (cii_value i2))).
Proof.
  unfold normalize_context_identity. intros H1 H2 Hfp. simpl_res.
  destruct x0 as [[c2 l2] n2], x2 as [[c1 l1] n1]. simpl_res. cbn [ci_fingerprint ci_scheme ci_namespace] in *.
  apply hex_lower_inj in Hfp.
  set (s1 := to_ascii_lowercase (trim (cii_scheme i1))) in *. set (s2 := to_ascii_lowercase (trim (cii_scheme i2))) in *.
  destruct (decide (bytes (s1 ++ nul ++ c1)%string = bytes (s2 ++ nul ++ c2)%string)) as [Heq|Hne];
    [right|left; by exists (bytes (s1 ++ nul ++ c1)%string), (bytes (s2 ++ nul ++ c2)%string)].
  apply (inj bytes) in Heq.
  apply nul_split_inj in Heq as [Hs Hc]; [|by eapply canonical_scheme_no_nul..].
  split; [done|]. intros Hn. rewrite <-Hs, Hn in *. unfold canonical_identity in *. cbn in *.
  simpl_res.
  repeat match goal with H : _ || _ = false |- _ => apply orb_false_iff in H as [?%negb_false_iff ?] end.
  match goal with H : (?a ++ String Ascii.zero "" ++ ?x)%string = (?b ++ _ ++ ?y)%string |- _ =>
    change (String Ascii.zero "") with nul in H; apply nul_split_inj in H as [-> ?] end;
    [done|by apply valid_namespace_no_nul..].
Qed.
End identity_theorems.

(** Concrete stand-ins for the crates, for the witness: an unparsed URL and
    the identity digest. *)
Definition plain_url : UrlLib := {|
  Url := string; url_parse s := Some s; url_scheme _ := "https"%string; url_host_str _ := None;
  url_port _ := None; url_path s := s; url_username _ := ""%string; url_password _ := None;
  url_query _ := None; url_fragment _ := None; url_set_username _ u := u; url_set_password _ u := u;
  url_set_query _ u := u; url_set_fragment _ u := u; url_to_string u := u |}.
Definition plain_digest : Sha256Lib := {| sha256 l := l |}.

Lemma identity_fingerprint_separates_witness :
  let i1 := {| cii_scheme := " Namespaced_ID"; cii_value := " 42 "; cii_namespace := Some "jira" |} in
  let i2 := {| cii_scheme := "namespaced_id"; cii_value := "42"; cii_namespace := Some " jira" |} in
  ∃ r1 r2, @normalize_context_identity plain_url plain_digest i1 = Ok r1 ∧
    @normalize_context_identity plain_url plain_digest i2 = Ok r2 ∧
    ((∃ x y : list Ascii.ascii, x ≠ y ∧ x = y) ∨
     (ci_scheme r1 = ci_scheme r2 ∧
      (ci_scheme r1 = "namespaced_id"%string →
       ci_namespace r1 = ci_namespace r2 ∧ trim " 42 " = trim "42"))).
Proof.
  eexists _, _. split; [vm_compute; reflexivity|]. split; [vm_compute; reflexivity|].
  apply (@identity_fingerprint_separates plain_url plain_digest
    {| cii_scheme := " Namespaced_ID"; cii_value := " 42 "; cii_namespace := Some "jira" |}
    {| cii_scheme := "namespaced_id"; cii_value := "42"; cii_namespace := Some " jira" |});
    vm_compute; reflexivity.
Defined.
