(* ===== verification/EmbeddingSettings.v ===== *)
(** * EmbeddingSettings: the configuration of the embedding provider

    [EmbeddingConfig] of [src/src/config/embedding.rs]: defaults, overrides
    by the environment, normalisation and validation. The URL parser is a
    parameter; a header of the documentation matters here: it gives an IPv6
    host between brackets. *)
From Stdlib Require Import ZArith Lia.
From stdpp Require Import base list option strings gmap.
From S2P Require Import Prelude Text Parsing Errors Types Context.

(** ** Overrides by the environment *)

Abbreviation env_map := (gmap string string).
Definition malformed_env_override (var : string) : EngineError.t := EngineError.Config (var +:+ " environment override is malformed").
Definition apply_parsed_env {T} (env : env_map) (var : string) (from_str : string → option T) (target : T) : result EngineError.t T :=
  match env !! var with
  | Some v => ok_or (malformed_env_override var) (from_str v)
  | None => Ok target
  end.
(** [if let Some(v) = env.get(var) { target = v }]. *)
Definition env_or (env : env_map) (var target : string) : string := default target (env !! var).
Definition env_or_option (env : env_map) (var : string) (target : option string) : option string :=
  match env !! var with Some v => Some v | None => target end.

(** ** Data *)

Definition DEFAULT_EMBEDDING_DIMENSIONS : Z := 768.
Module OpenAiAuthMode.
Inductive t := Bearer | ApiKey.
#[global] Instance eq_dec : EqDecision t.
Proof. solve_decision. Defined.
Definition to_string (m : t) : string := match m with Bearer => "bearer" | ApiKey => "api_key" end.
Definition from_str (value : string) : result ParseEnumError t :=
  if String.eqb value "bearer" then Ok Bearer
  else if String.eqb value "api_key" then Ok ApiKey
  else Err {| pe_what := "unknown OpenAI-compatible auth mode"; pe_other := value |}.
End OpenAiAuthMode.
Module EmbeddingHealthCheck.
Inductive t := Models | Disabled.
#[global] Instance eq_dec : EqDecision t.
Proof. solve_decision. Defined.
Definition to_string (c : t) : string := match c with Models => "models" | Disabled => "disabled" end.
Definition from_str (value : string) : result ParseEnumError t :=
  if String.eqb value "models" then Ok Models
  else if String.eqb value "disabled" then Ok Disabled
  else Err {| pe_what := "unknown embedding health check"; pe_other := value |}.
End EmbeddingHealthCheck.

Record OpenAiCompatibleConfig := {
  oc_base_url : string;
  oc_model : string;
  oc_api_key : option string;
  oc_auth_mode : OpenAiAuthMode.t;
  oc_send_dimensions : bool;
  oc_health_check : EmbeddingHealthCheck.t;
  oc_allow_insecure_http : bool;
}.
Definition openai_compatible_config_default : OpenAiCompatibleConfig :=
  {| oc_base_url := "http://127.0.0.1:8000/v1"; oc_model := "nomic-embed-text"; oc_api_key := None; oc_auth_mode := OpenAiAuthMode.Bearer;
     oc_send_dimensions := false; oc_health_check := EmbeddingHealthCheck.Models; oc_allow_insecure_http := false |}.
Module EmbeddingConfig.
Inductive t :=
| OpenAiCompatible (dimensions : Z) (openai_compatible : OpenAiCompatibleConfig)
| Noop (dimensions : Z).
Definition default : t := Noop DEFAULT_EMBEDDING_DIMENSIONS.
Definition dimensions (c : t) : Z := match c with OpenAiCompatible dimensions _ | Noop dimensions => dimensions end.
Definition openai_compatible (c : t) : option OpenAiCompatibleConfig := match c with OpenAiCompatible _ o => Some o | Noop _ => None end.
End EmbeddingConfig.

(** ** Normalisation *)

(** [str::trim_end_matches('/')]. *)
Definition trim_end_slashes (s : string) : string := of_bytes (rev (drop_while (byte 47) (rev (bytes s)))).
(** [as_deref().map(str::trim).filter(|s| !s.is_empty())]. *)
Definition trimmed_or_none (o : option string) : option string :=
  s ← o; if str_is_empty (trim s) then None else Some (trim s).
Definition normalize_embedding_config (c : EmbeddingConfig.t) : EmbeddingConfig.t :=
  match c with
  | EmbeddingConfig.OpenAiCompatible dimensions o =>
      EmbeddingConfig.OpenAiCompatible dimensions
        {| oc_base_url := trim_end_slashes (trim (oc_base_url o)); oc_model := trim (oc_model o); oc_api_key := trimmed_or_none (oc_api_key o);
           oc_auth_mode := oc_auth_mode o; oc_send_dimensions := oc_send_dimensions o; oc_health_check := oc_health_check o;
           oc_allow_insecure_http := oc_allow_insecure_http o |}
  | EmbeddingConfig.Noop _ => c
  end.

(** ** Validation *)

Definition is_loopback_host (host : string) : bool :=
  String.eqb (to_ascii_lowercase host) "localhost"
  || match parse_ip_addr host with Some address => is_loopback address | None => false end.

Section validation.
Context `{UrlLib} (url_error : string → string).
Definition validate_openai_compatible_config (c : OpenAiCompatibleConfig) : result EngineError.t unit :=
  let base_url := trim (oc_base_url c) in
  _ ← bail_if (negb (starts_with (bytes "http://") (bytes base_url)) && negb (starts_with (bytes "https://") (bytes base_url)))
        (EngineError.Config "embedding.openai_compatible.base_url must start with http:// or https://");
  parsed ← ok_or (EngineError.Config ("embedding.openai_compatible.base_url is invalid: " +:+ url_error base_url)) (url_parse base_url);
  host ← ok_or (EngineError.Config "embedding.openai_compatible.base_url must include a host") (url_host_str parsed);
  _ ← bail_if (negb (str_is_empty (url_username parsed)) || is_some (url_password parsed))
        (EngineError.Config "embedding.openai_compatible.base_url must not contain credentials; use embedding.openai_compatible.api_key");
  _ ← bail_if (is_some (url_query parsed) || is_some (url_fragment parsed))
        (EngineError.Config "embedding.openai_compatible.base_url must not contain a query string or fragment");
  _ ← bail_if (String.eqb (url_scheme parsed) "http" && negb (oc_allow_insecure_http c) && negb (is_loopback_host host))
        (EngineError.Config
           "embedding.openai_compatible.base_url must use https for non-loopback hosts; set allow_insecure_http = true only for a trusted network");
  bail_if (is_blank (oc_model c)) (EngineError.Config "embedding.openai_compatible.model must not be empty").
Definition validate_embedding_config (c : EmbeddingConfig.t) : result EngineError.t unit :=
  _ ← bail_if (EmbeddingConfig.dimensions c =? 0) (EngineError.Config "embedding dimensions must be greater than zero");
  match c with
  | EmbeddingConfig.OpenAiCompatible _ o => validate_openai_compatible_config o
  | EmbeddingConfig.Noop _ => Ok ()
  end.
End validation.

Definition PROVIDER_KEYS : list string :=
  ["LOCALHOLD_EMBEDDING_BASE_URL"; "LOCALHOLD_EMBEDDING_MODEL"; "LOCALHOLD_EMBEDDING_API_KEY"; "LOCALHOLD_EMBEDDING_AUTH_MODE";
   "LOCALHOLD_EMBEDDING_SEND_DIMENSIONS"; "LOCALHOLD_EMBEDDING_HEALTH_CHECK"; "LOCALHOLD_EMBEDDING_ALLOW_INSECURE_HTTP"].
Definition apply_embedding_env (c : EmbeddingConfig.t) (env : env_map) : result EngineError.t EmbeddingConfig.t :=
  let c := match c with
           | EmbeddingConfig.Noop dimensions =>
               if existsb (λ key, is_some (env !! key)) PROVIDER_KEYS
               then EmbeddingConfig.OpenAiCompatible dimensions openai_compatible_config_default else c
           | EmbeddingConfig.OpenAiCompatible _ _ => c
           end in
  match c with
  | EmbeddingConfig.OpenAiCompatible dimensions o =>
      let base_url := env_or env "LOCALHOLD_EMBEDDING_BASE_URL" (oc_base_url o) in
      let model := env_or env "LOCALHOLD_EMBEDDING_MODEL" (oc_model o) in
      let api_key := env_or_option env "LOCALHOLD_EMBEDDING_API_KEY" (oc_api_key o) in
      auth_mode ← apply_parsed_env env "LOCALHOLD_EMBEDDING_AUTH_MODE" (λ v, res_ok (OpenAiAuthMode.from_str v)) (oc_auth_mode o);
      send_dimensions ← apply_parsed_env env "LOCALHOLD_EMBEDDING_SEND_DIMENSIONS" parse_bool (oc_send_dimensions o);
      health_check ← apply_parsed_env env "LOCALHOLD_EMBEDDING_HEALTH_CHECK" (λ v, res_ok (EmbeddingHealthCheck.from_str v)) (oc_health_check o);
      allow_insecure_http ← apply_parsed_env env "LOCALHOLD_EMBEDDING_ALLOW_INSECURE_HTTP" parse_bool (oc_allow_insecure_http o);
      dimensions ← apply_parsed_env env "LOCALHOLD_EMBEDDING_DIMENSIONS" (parse_uint usize_max) dimensions;
      Ok (EmbeddingConfig.OpenAiCompatible dimensions
            {| oc_base_url := base_url; oc_model := model; oc_api_key := api_key; oc_auth_mode := auth_mode; oc_send_dimensions := send_dimensions;
               oc_health_check := health_check; oc_allow_insecure_http := allow_insecure_http |})
  | EmbeddingConfig.Noop dimensions =>
      dimensions ← apply_parsed_env env "LOCALHOLD_EMBEDDING_DIMENSIONS" (parse_uint usize_max) dimensions;
      Ok (EmbeddingConfig.Noop dimensions)
  end.

(** ** Facts *)

Section facts.
Context `{UrlLib} (url_error : string → string).

(** Plain HTTP stays on this host: what is sent unencrypted goes to a
    loopback address unless the operator allows it, and neither the URL nor
    what a log shows of it carries credentials. *)
Lemma validated_endpoint_is_private c : validate_openai_compatible_config url_error c = Ok () →
  ∃ url host, url_parse (trim (oc_base_url c)) = Some url ∧ url_host_str url = Some host
    ∧ url_username url = "" ∧ url_password url = None ∧ url_query url = None ∧ url_fragment url = None
    ∧ (url_scheme url = "http" → oc_allow_insecure_http c = false → is_loopback_host host = true)
    ∧ trim (oc_model c) ≠ "".
Proof.
  unfold validate_openai_compatible_config. intros ([] & _ & Hv)%bind_Ok. revert Hv.
  destruct (url_parse _) as [url|] eqn:Eu; cbn [ok_or mbind result_bind]; [|done].
  destruct (url_host_str url) as [host|] eqn:Eh; cbn [ok_or mbind result_bind]; [|done].
  intros ([] & Hcred%bail_if_Ok & Hv)%bind_Ok. revert Hv. intros ([] & Hquery%bail_if_Ok & Hv)%bind_Ok. revert Hv.
  intros ([] & Hhttp%bail_if_Ok & Hmodel%bail_if_Ok)%bind_Ok. exists url, host.
  apply orb_false_iff in Hcred as [Hu%negb_false_iff Hp]. apply orb_false_iff in Hquery as [Hq Hf].
  split_and!; [done|done|by apply str_is_empty_true| | | | |].
  - by destruct (url_password url).
  - by destruct (url_query url).
  - by destruct (url_fragment url).
  - intros Hs Ha. rewrite Hs, Ha in Hhttp. cbn in Hhttp. by apply negb_false_iff in Hhttp.
  - intros Ht. unfold is_blank in Hmodel. by rewrite Ht in Hmodel.
Qed.

(** A loopback address of IPv6 is not recognised in the form the URL parser
    gives it. *)
Lemma ipv6_loopback_is_refused c url : trim (oc_base_url c) = "http://[::1]:8000/v1" → oc_allow_insecure_http c = false →
  url_parse "http://[::1]:8000/v1" = Some url → url_scheme url = "http" → url_host_str url = Some "[::1]" →
  parse_ip_addr "::1" = Some (V6 [0; 0; 0; 0; 0; 0; 0; 1]) ∧ is_ok (validate_openai_compatible_config url_error c) = false.
Proof.
  intros Hb Ha Hu Hs Hh. split; [vm_compute; reflexivity|]. destruct (validate_openai_compatible_config url_error c) as [[]|] eqn:E; [|done].
  apply validated_endpoint_is_private in E as (url' & host & Hu' & Hh' & _ & _ & _ & _ & Hloop & _). rewrite Hb in Hu'. simplify_eq.
  specialize (Hloop Hs Ha). vm_compute in Hloop. discriminate.
Qed.
End facts.
