(* ===== verification/Store.v ===== *)
(** * Store: the SQLite tables of [src/src/store/schema.rs] and the transaction
    monad the store's operations run in

    A table is a finite map keyed by its primary key (a list where rows are
    only appended). JSON and timestamp columns hold the value they encode:
    timestamps are compared as instants, which is the order of their RFC 3339
    texts for years 0 to 9999. [tx] is a computation inside
    [sqlite_write_tx]: state passing with the store error; [with_conn] runs it
    and keeps the old tables when it fails, as dropping the transaction does.
    Foreign keys with ON DELETE CASCADE and the AFTER DELETE trigger of the
    schema are part of [delete_memory]. The FTS5 index is derived from the
    content column by triggers and has no state of its own here. *)
From Stdlib Require Import ZArith Lia.
From stdpp Require Import base list option strings gmap sets countable pretty.
From S2P Require Import Prelude Text Floats Errors Types Context StoreTypes.

(** ** Tables *)

#[export] Instance EntityType_countable : Countable EntityType.t :=
  inj_countable' EntityType.as_str EntityType.mk (λ t, match t with EntityType.mk _ => eq_refl end).
#[export] Instance Entity_countable : Countable Entity :=
  inj_countable' (λ e, (e_name e, e_type e)) (λ p, {| e_name := fst p; e_type := snd p |})
    (λ e, match e with Build_Entity _ _ => eq_refl end).

(** A row of [memories]; the primary key [id] is the key of the table. *)
Record MemoryRow := mkRow {
  r_content : string;
  r_tags : list string;
  r_provenance : Provenance;
  r_access_policy : AccessPolicy.t;
  r_created_at : DateTime;
  r_expires_at : option DateTime;
  r_has_embedding : bool;
  r_memory_type : MemoryType.t;
  r_importance : f64;
  r_impression_count : Z;
  r_last_impressed_at : option DateTime;
  r_superseded_by : option MemoryId;
  r_activity_mass : f64;
  r_last_used_at : option DateTime;
  r_updated_at : DateTime;
  r_confidence : f64;
  r_record_revision : Z;
  r_embedding_revision : Z;
  r_embedding_claimed_at : option DateTime;
  r_embedding_claim_token : option string;
}.

(** Column assignments. *)
Definition set_content (v : string) (r : MemoryRow) : MemoryRow := mkRow v (r_tags r) (r_provenance
    r) (r_access_policy r) (r_created_at r) (r_expires_at r) (r_has_embedding r) (r_memory_type r)
    (r_importance r) (r_impression_count r) (r_last_impressed_at r) (r_superseded_by r)
    (r_activity_mass r) (r_last_used_at r) (r_updated_at r) (r_confidence r) (r_record_revision r)
    (r_embedding_revision r) (r_embedding_claimed_at r) (r_embedding_claim_token r).
Definition set_tags (v : list string) (r : MemoryRow) : MemoryRow := mkRow (r_content r) v
    (r_provenance r) (r_access_policy r) (r_created_at r) (r_expires_at r) (r_has_embedding r)
    (r_memory_type r) (r_importance r) (r_impression_count r) (r_last_impressed_at r)
    (r_superseded_by r) (r_activity_mass r) (r_last_used_at r) (r_updated_at r) (r_confidence r)
    (r_record_revision r) (r_embedding_revision r) (r_embedding_claimed_at r)
    (r_embedding_claim_token r).
Definition set_provenance (v : Provenance) (r : MemoryRow) : MemoryRow := mkRow (r_content r)
    (r_tags r) v (r_access_policy r) (r_created_at r) (r_expires_at r) (r_has_embedding r)
    (r_memory_type r) (r_importance r) (r_impression_count r) (r_last_impressed_at r)
    (r_superseded_by r) (r_activity_mass r) (r_last_used_at r) (r_updated_at r) (r_confidence r)
    (r_record_revision r) (r_embedding_revision r) (r_embedding_claimed_at r)
    (r_embedding_claim_token r).
Definition set_access_policy (v : AccessPolicy.t) (r : MemoryRow) : MemoryRow := mkRow (r_content r)
    (r_tags r) (r_provenance r) v (r_created_at r) (r_expires_at r) (r_has_embedding r)
    (r_memory_type r) (r_importance r) (r_impression_count r) (r_last_impressed_at r)
    (r_superseded_by r) (r_activity_mass r) (r_last_used_at r) (r_updated_at r) (r_confidence r)
    (r_record_revision r) (r_embedding_revision r) (r_embedding_claimed_at r)
    (r_embedding_claim_token r).
Definition set_expires_at (v : option DateTime) (r : MemoryRow) : MemoryRow := mkRow (r_content r)
    (r_tags r) (r_provenance r) (r_access_policy r) (r_created_at r) v (r_has_embedding r)
    (r_memory_type r) (r_importance r) (r_impression_count r) (r_last_impressed_at r)
    (r_superseded_by r) (r_activity_mass r) (r_last_used_at r) (r_updated_at r) (r_confidence r)
    (r_record_revision r) (r_embedding_revision r) (r_embedding_claimed_at r)
    (r_embedding_claim_token r).
Definition set_has_embedding (v : bool) (r : MemoryRow) : MemoryRow := mkRow (r_content r) (r_tags
    r) (r_provenance r) (r_access_policy r) (r_created_at r) (r_expires_at r) v (r_memory_type r)
    (r_importance r) (r_impression_count r) (r_last_impressed_at r) (r_superseded_by r)
    (r_activity_mass r) (r_last_used_at r) (r_updated_at r) (r_confidence r) (r_record_revision r)
    (r_embedding_revision r) (r_embedding_claimed_at r) (r_embedding_claim_token r).
Definition set_importance (v : f64) (r : MemoryRow) : MemoryRow := mkRow (r_content r) (r_tags r)
    (r_provenance r) (r_access_policy r) (r_created_at r) (r_expires_at r) (r_has_embedding r)
    (r_memory_type r) v (r_impression_count r) (r_last_impressed_at r) (r_superseded_by r)
    (r_activity_mass r) (r_last_used_at r) (r_updated_at r) (r_confidence r) (r_record_revision r)
    (r_embedding_revision r) (r_embedding_claimed_at r) (r_embedding_claim_token r).
Definition set_impression_count (v : Z) (r : MemoryRow) : MemoryRow := mkRow (r_content r) (r_tags
    r) (r_provenance r) (r_access_policy r) (r_created_at r) (r_expires_at r) (r_has_embedding r)
    (r_memory_type r) (r_importance r) v (r_last_impressed_at r) (r_superseded_by r)
    (r_activity_mass r) (r_last_used_at r) (r_updated_at r) (r_confidence r) (r_record_revision r)
    (r_embedding_revision r) (r_embedding_claimed_at r) (r_embedding_claim_token r).
Definition set_last_impressed_at (v : option DateTime) (r : MemoryRow) : MemoryRow := mkRow
    (r_content r) (r_tags r) (r_provenance r) (r_access_policy r) (r_created_at r) (r_expires_at r)
    (r_has_embedding r) (r_memory_type r) (r_importance r) (r_impression_count r) v (r_superseded_by
    r) (r_activity_mass r) (r_last_used_at r) (r_updated_at r) (r_confidence r) (r_record_revision
    r) (r_embedding_revision r) (r_embedding_claimed_at r) (r_embedding_claim_token r).
Definition set_superseded_by (v : option MemoryId) (r : MemoryRow) : MemoryRow := mkRow (r_content
    r) (r_tags r) (r_provenance r) (r_access_policy r) (r_created_at r) (r_expires_at r)
    (r_has_embedding r) (r_memory_type r) (r_importance r) (r_impression_count r)
    (r_last_impressed_at r) v (r_activity_mass r) (r_last_used_at r) (r_updated_at r) (r_confidence
    r) (r_record_revision r) (r_embedding_revision r) (r_embedding_claimed_at r)
    (r_embedding_claim_token r).
Definition set_activity_mass (v : f64) (r : MemoryRow) : MemoryRow := mkRow (r_content r) (r_tags r)
    (r_provenance r) (r_access_policy r) (r_created_at r) (r_expires_at r) (r_has_embedding r)
    (r_memory_type r) (r_importance r) (r_impression_count r) (r_last_impressed_at r)
    (r_superseded_by r) v (r_last_used_at r) (r_updated_at r) (r_confidence r) (r_record_revision r)
    (r_embedding_revision r) (r_embedding_claimed_at r) (r_embedding_claim_token r).
Definition set_last_used_at (v : option DateTime) (r : MemoryRow) : MemoryRow := mkRow (r_content r)
    (r_tags r) (r_provenance r) (r_access_policy r) (r_created_at r) (r_expires_at r)
    (r_has_embedding r) (r_memory_type r) (r_importance r) (r_impression_count r)
    (r_last_impressed_at r) (r_superseded_by r) (r_activity_mass r) v (r_updated_at r) (r_confidence
    r) (r_record_revision r) (r_embedding_revision r) (r_embedding_claimed_at r)
    (r_embedding_claim_token r).
Definition set_updated_at (v : DateTime) (r : MemoryRow) : MemoryRow := mkRow (r_content r) (r_tags
    r) (r_provenance r) (r_access_policy r) (r_created_at r) (r_expires_at r) (r_has_embedding r)
    (r_memory_type r) (r_importance r) (r_impression_count r) (r_last_impressed_at r)
    (r_superseded_by r) (r_activity_mass r) (r_last_used_at r) v (r_confidence r) (r_record_revision
    r) (r_embedding_revision r) (r_embedding_claimed_at r) (r_embedding_claim_token r).
Definition set_confidence (v : f64) (r : MemoryRow) : MemoryRow := mkRow (r_content r) (r_tags r)
    (r_provenance r) (r_access_policy r) (r_created_at r) (r_expires_at r) (r_has_embedding r)
    (r_memory_type r) (r_importance r) (r_impression_count r) (r_last_impressed_at r)
    (r_superseded_by r) (r_activity_mass r) (r_last_used_at r) (r_updated_at r) v (r_record_revision
    r) (r_embedding_revision r) (r_embedding_claimed_at r) (r_embedding_claim_token r).
Definition set_record_revision (v : Z) (r : MemoryRow) : MemoryRow := mkRow (r_content r) (r_tags r)
    (r_provenance r) (r_access_policy r) (r_created_at r) (r_expires_at r) (r_has_embedding r)
    (r_memory_type r) (r_importance r) (r_impression_count r) (r_last_impressed_at r)
    (r_superseded_by r) (r_activity_mass r) (r_last_used_at r) (r_updated_at r) (r_confidence r) v
    (r_embedding_revision r) (r_embedding_claimed_at r) (r_embedding_claim_token r).
Definition set_embedding_revision (v : Z) (r : MemoryRow) : MemoryRow := mkRow (r_content r) (r_tags
    r) (r_provenance r) (r_access_policy r) (r_created_at r) (r_expires_at r) (r_has_embedding r)
    (r_memory_type r) (r_importance r) (r_impression_count r) (r_last_impressed_at r)
    (r_superseded_by r) (r_activity_mass r) (r_last_used_at r) (r_updated_at r) (r_confidence r)
    (r_record_revision r) v (r_embedding_claimed_at r) (r_embedding_claim_token r).
Definition set_embedding_claimed_at (v : option DateTime) (r : MemoryRow) : MemoryRow := mkRow
    (r_content r) (r_tags r) (r_provenance r) (r_access_policy r) (r_created_at r) (r_expires_at r)
    (r_has_embedding r) (r_memory_type r) (r_importance r) (r_impression_count r)
    (r_last_impressed_at r) (r_superseded_by r) (r_activity_mass r) (r_last_used_at r) (r_updated_at
    r) (r_confidence r) (r_record_revision r) (r_embedding_revision r) v (r_embedding_claim_token
    r).
Definition set_embedding_claim_token (v : option string) (r : MemoryRow) : MemoryRow := mkRow
    (r_content r) (r_tags r) (r_provenance r) (r_access_policy r) (r_created_at r) (r_expires_at r)
    (r_has_embedding r) (r_memory_type r) (r_importance r) (r_impression_count r)
    (r_last_impressed_at r) (r_superseded_by r) (r_activity_mass r) (r_last_used_at r) (r_updated_at
    r) (r_confidence r) (r_record_revision r) (r_embedding_revision r) (r_embedding_claimed_at r) v.

(** A row of [memory_audit_log], without its AUTOINCREMENT id (its position). *)
Record AuditRow := {
  au_memory_id : MemoryId;
  au_action : string;
  au_caller_agent : option string;
  au_timestamp : DateTime;
  au_details : option Json;
}.

(** The context tables. Aliases and hints are keyed by their normalized text,
    identities by scheme, namespace and fingerprint; a kind policy by layer,
    principal and kind, with the time of its last change; a relation by the
    contexts it leads from and to and its name. *)
Record ContextRegistry := mkRegistry {
  reg_kinds : gmap string ContextKindDefinition;
  reg_contexts : gmap ContextId ContextDefinition;
  reg_grants : gmap (ContextId * string) ContextGrant;
  reg_aliases : gmap (ContextId * string) string;
  reg_identities : gmap (ContextId * (string * string * string)) string;
  reg_hints : gmap (ContextId * string) string;
  reg_kind_policies : gmap (string * string * string) (ContextKindPolicy * DateTime);
  reg_anchor_policies : gmap (ContextId * string) (ContextAnchorPolicy * DateTime);
  reg_relations : gmap (ContextId * (ContextId * string)) DateTime;
}.
Definition empty_registry : ContextRegistry := mkRegistry ∅ ∅ ∅ ∅ ∅ ∅ ∅ ∅ ∅.

(** [st_vectors] is [memory_embedding_map] joined with [memory_embeddings];
    [st_memberships] is [memory_contexts] in ordinal order. The numbers of
    [context_audit_events] are never given out again: a deleted row leaves a
    gap. *)
Record Store := mkStore {
  st_memories : gmap MemoryId MemoryRow;
  st_vectors : gmap MemoryId (list f64);
  st_entities : gmap MemoryId (gset Entity);
  st_metadata : gmap MemoryId MemoryMetadata;
  st_memberships : gmap MemoryId (list ContextId);
  st_audit : list AuditRow;
  st_tombstones : gmap MemoryId MemoryTombstone;
  st_profile : option EmbeddingProfile;
  st_registry : ContextRegistry;
  st_context_audit : list (option ContextAuditEvent);
}.
Definition empty_store : Store := mkStore ∅ ∅ ∅ ∅ ∅ [] ∅ None empty_registry [].
Definition context_audit_rows (s : Store) : list ContextAuditEvent := omap id (st_context_audit s).

Definition on_memories (f : gmap MemoryId MemoryRow → gmap MemoryId MemoryRow) (s : Store) : Store
    := mkStore (f (st_memories s)) (st_vectors s) (st_entities s) (st_metadata s) (st_memberships s)
    (st_audit s) (st_tombstones s) (st_profile s) (st_registry s) (st_context_audit s).
Definition on_vectors (f : gmap MemoryId (list f64) → gmap MemoryId (list f64)) (s : Store) : Store
    := mkStore (st_memories s) (f (st_vectors s)) (st_entities s) (st_metadata s) (st_memberships s)
    (st_audit s) (st_tombstones s) (st_profile s) (st_registry s) (st_context_audit s).
Definition on_entities (f : gmap MemoryId (gset Entity) → gmap MemoryId (gset Entity)) (s : Store) :
    Store := mkStore (st_memories s) (st_vectors s) (f (st_entities s)) (st_metadata s)
    (st_memberships s) (st_audit s) (st_tombstones s) (st_profile s) (st_registry s)
    (st_context_audit s).
Definition on_metadata (f : gmap MemoryId MemoryMetadata → gmap MemoryId MemoryMetadata) (s : Store)
    : Store := mkStore (st_memories s) (st_vectors s) (st_entities s) (f (st_metadata s))
    (st_memberships s) (st_audit s) (st_tombstones s) (st_profile s) (st_registry s)
    (st_context_audit s).
Definition on_memberships (f : gmap MemoryId (list ContextId) → gmap MemoryId (list ContextId)) (s :
    Store) : Store := mkStore (st_memories s) (st_vectors s) (st_entities s) (st_metadata s) (f
    (st_memberships s)) (st_audit s) (st_tombstones s) (st_profile s) (st_registry s)
    (st_context_audit s).
Definition on_audit (f : list AuditRow → list AuditRow) (s : Store) : Store := mkStore (st_memories
    s) (st_vectors s) (st_entities s) (st_metadata s) (st_memberships s) (f (st_audit s))
    (st_tombstones s) (st_profile s) (st_registry s) (st_context_audit s).
Definition on_tombstones (f : gmap MemoryId MemoryTombstone → gmap MemoryId MemoryTombstone) (s :
    Store) : Store := mkStore (st_memories s) (st_vectors s) (st_entities s) (st_metadata s)
    (st_memberships s) (st_audit s) (f (st_tombstones s)) (st_profile s) (st_registry s)
    (st_context_audit s).
Definition on_profile (f : option EmbeddingProfile → option EmbeddingProfile) (s : Store) : Store :=
    mkStore (st_memories s) (st_vectors s) (st_entities s) (st_metadata s) (st_memberships s)
    (st_audit s) (st_tombstones s) (f (st_profile s)) (st_registry s) (st_context_audit s).
Definition on_registry (f : ContextRegistry → ContextRegistry) (s : Store) : Store := mkStore
    (st_memories s) (st_vectors s) (st_entities s) (st_metadata s) (st_memberships s) (st_audit s)
    (st_tombstones s) (st_profile s) (f (st_registry s)) (st_context_audit s).
Definition on_context_audit (f : list (option ContextAuditEvent) → list (option ContextAuditEvent)) (s : Store) :
    Store := mkStore (st_memories s) (st_vectors s) (st_entities s) (st_metadata s) (st_memberships
    s) (st_audit s) (st_tombstones s) (st_profile s) (st_registry s) (f (st_context_audit s)).

(** ** Transactions *)

Definition tx (A : Type) : Type := Store → result StoreError.t (A * Store).
#[export] Instance tx_ret : MRet tx := λ A a s, Ok (a, s).
#[export] Instance tx_bind : MBind tx := λ A B k m s,
  match m s with Ok (a, s') => k a s' | Err e => Err e end.
Definition throw {A} (e : StoreError.t) : tx A := λ _, Err e.
Definition reads {A} (f : Store → A) : tx A := λ s, Ok (f s, s).
Definition writes (f : Store → Store) : tx unit := λ s, Ok ((), f s).
Definition of_result {A} (r : result StoreError.t A) : tx A := λ s,
  match r with Ok a => Ok (a, s) | Err e => Err e end.
Definition throw_if (c : bool) (e : StoreError.t) : tx unit := if c then throw e else mret ().
Definition when_some {A} (o : option A) (f : A → tx unit) : tx unit :=
  match o with Some a => f a | None => mret () end.

(** [for x in l { acc = step(acc, x)?; }]. *)
Fixpoint tx_fold {A S} (f : S → A → tx S) (s : S) (l : list A) : tx S :=
  match l with
  | [] => mret s
  | x :: l' => s' ← f s x; tx_fold f s' l'
  end.
(** [l.iter().map(f).collect::<Result<Vec<_>, _>>()]. *)
Fixpoint tx_map {A B} (f : A → tx B) (l : list A) : tx (list B) :=
  match l with
  | [] => mret []
  | x :: l' => y ← f x; ys ← tx_map f l'; mret (y :: ys)
  end.

(** Run a transaction on the connection: an error rolls it back. *)
Definition with_conn {A} (m : tx A) (s : Store) : result StoreError.t A * Store :=
  match m s with Ok (a, s') => (Ok a, s') | Err e => (Err e, s) end.

(** ULID text, from the [ulid] crate, and the [{:?}] text of a string. *)
Class Render := { ulid : N → string; debug_str : string → string }.

(** ** Reasoning about transactions *)

Lemma tx_bind_Ok {A B} (m : tx A) (k : A → tx B) s r :
  (m ≫= k) s = Ok r ↔ ∃ a s', m s = Ok (a, s') ∧ k a s' = Ok r.
Proof.
  unfold mbind, tx_bind. destruct (m s) as [[a s']|e].
  - split; [by eauto | by intros (? & ? & [= <- <-] & ?)].
  - split; [done | by intros (? & ? & ? & _)].
Qed.
Lemma tx_bind_run {A B} (m : tx A) (k : A → tx B) s a s' : m s = Ok (a, s') → (m ≫= k) s = k a s'.
Proof. intros Hm. unfold mbind, tx_bind. by rewrite Hm. Qed.
Lemma throw_if_Ok c e s r : throw_if c e s = Ok r ↔ c = false ∧ r = ((), s).
Proof. destruct c; cbn; split; [done | by intros [? _] | by intros [= <-] | by intros [_ ->]]. Qed.
Lemma of_result_Ok {A} (x : result StoreError.t A) s r : of_result x s = Ok r ↔ ∃ a, x = Ok a ∧ r = (a, s).
Proof.
  unfold of_result. destruct x; split; try done; [by intros [= <-]; eauto | by intros (? & [= ->] & ->) | by intros (? & ? & _)].
Qed.
Lemma reads_Ok {A} (f : Store → A) s r : reads f s = Ok r ↔ r = (f s, s).
Proof. unfold reads. split; [by intros [= <-] | by intros ->]. Qed.
Lemma writes_Ok f s r : writes f s = Ok r ↔ r = ((), f s).
Proof. unfold writes. split; [by intros [= <-] | by intros ->]. Qed.
Lemma tx_ret_Ok {A} (a : A) s r : (mret a : tx A) s = Ok r ↔ r = (a, s).
Proof. unfold mret, tx_ret. split; [by intros [= <-] | by intros ->]. Qed.

(** Symbolic execution: decompose a successful run into its statements. *)
Ltac inv_tx1 :=
  match goal with
  | H : (_ ≫= _) _ = Ok _ |- _ => apply tx_bind_Ok in H; destruct H as (? & ? & ? & H)
  | H : throw_if _ _ _ = Ok _ |- _ => apply throw_if_Ok in H; destruct H as [? H]; try (injection H as H; subst)
  | H : of_result _ _ = Ok _ |- _ => apply of_result_Ok in H; destruct H as (? & ? & H); try (injection H as H; subst)
  | H : reads _ _ = Ok _ |- _ => apply reads_Ok in H; try (injection H as H; subst)
  | H : writes _ _ = Ok _ |- _ => apply writes_Ok in H; try (injection H as H; subst)
  | H : mret _ _ = Ok _ |- _ => apply tx_ret_Ok in H; try (injection H as H; subst)
  | H : throw _ _ = Ok _ |- _ => discriminate H
  | H : Err _ = Ok _ |- _ => discriminate H
  | H : Ok _ = Ok _ |- _ => injection H as H; subst
  | H : (_, _) = (_, _) |- _ => injection H as H; subst
  | u : unit |- _ => destruct u
  end.
Ltac inv_tx := repeat (inv_tx1; cbn beta iota zeta in * ).

(** A transaction whose effect, when it succeeds, lies in a preorder [R]. *)
Definition steps (R : relation Store) {A} (m : tx A) : Prop := ∀ s a s', m s = Ok (a, s') → R s s'.

Create HintDb steps.

Section steps.
Context (R : relation Store) `{!PreOrder R}.
Lemma steps_ret {A} (a : A) : steps R (mret a).
Proof. intros s b s' H. inv_tx. reflexivity. Qed.
Lemma steps_throw {A} e : steps R (throw e : tx A).
Proof. intros s b s' H. inv_tx. Qed.
Lemma steps_reads {A} (f : Store → A) : steps R (reads f).
Proof. intros s b s' H. inv_tx. reflexivity. Qed.
Lemma steps_of_result {A} (r : result StoreError.t A) : steps R (of_result r).
Proof. intros s b s' H. inv_tx. reflexivity. Qed.
Lemma steps_throw_if c e : steps R (throw_if c e).
Proof. intros s b s' H. inv_tx. reflexivity. Qed.
Lemma steps_writes f : (∀ s, R s (f s)) → steps R (writes f).
Proof. intros Hf s b s' H. inv_tx. apply Hf. Qed.
Lemma steps_bind {A B} (m : tx A) (k : A → tx B) : steps R m → (∀ a, steps R (k a)) → steps R (m ≫= k).
Proof. intros Hm Hk s b s' H. inv_tx. etrans; [by eapply Hm | by eapply Hk]. Qed.
Lemma steps_when_some {A} (o : option A) f : (∀ a, o = Some a → steps R (f a)) → steps R (when_some o f).
Proof. destruct o; cbn; intros Hf; [by apply Hf | apply steps_ret]. Qed.
Lemma steps_fold {A S} (f : S → A → tx S) l : (∀ s x, steps R (f s x)) → ∀ s, steps R (tx_fold f s l).
Proof.
  intros Hf. induction l as [|x l IH]; intros s; cbn; [apply steps_ret | apply steps_bind; auto].
Qed.
Lemma steps_fold_in {A S} (f : S → A → tx S) l : (∀ s x, x ∈ l → steps R (f s x)) → ∀ s, steps R (tx_fold f s l).
Proof.
  induction l as [|x l IH]; intros Hf s; cbn; [apply steps_ret|].
  apply steps_bind; [apply Hf, list_elem_of_here|]. intros s'. apply IH. intros y z Hz. by apply Hf, list_elem_of_further.
Qed.
Lemma steps_map {A B} (f : A → tx B) l : (∀ x, x ∈ l → steps R (f x)) → steps R (tx_map f l).
Proof.
  induction l as [|x l IH]; intros Hf; cbn; [apply steps_ret|].
  apply steps_bind; [apply Hf; left | intros y].
  apply steps_bind; [apply IH; intros; apply Hf; by right | intros; apply steps_ret].
Qed.
End steps.

Lemma steps_weaken (R R' : relation Store) {A} (m : tx A) : (∀ s s', R s s' → R' s s') → steps R m → steps R' m.
Proof. intros HR Hm s a s' H. by eapply HR, Hm. Qed.

#[export] Hint Resolve steps_ret steps_throw steps_reads steps_of_result steps_throw_if : steps.

(** Walk through the statements of a transaction. *)
Ltac steps_tac :=
  repeat (cbn beta iota zeta; match goal with
  | |- ∀ _, _ => intro
  | |- steps _ (_ ≫= _) => apply steps_bind; [try typeclasses eauto | | intros ?]
  | |- steps _ (when_some _ _) => apply steps_when_some; [try typeclasses eauto | intros ? ?]
  | |- steps _ (tx_fold _ _ _) => apply steps_fold; [try typeclasses eauto | intros ? ?]
  | |- steps _ (tx_map _ _) => apply steps_map; [try typeclasses eauto | intros ? ?]
  | |- steps _ (match ?x with _ => _ end) => destruct x eqn:?
  | |- steps _ (writes _) => first [solve [eauto with steps typeclass_instances] | apply steps_writes; intros ?]
  | |- steps _ _ => solve [eauto with steps typeclass_instances]
  end).

(** [with_conn]: an error leaves the tables as they were. *)
Lemma with_conn_Ok {A} (m : tx A) s a s' : with_conn m s = (Ok a, s') ↔ m s = Ok (a, s').
Proof.
  unfold with_conn. destruct (m s) as [[a0 s0]|e]; [|done].
  split; [by intros [= -> ->] | by intros [= -> ->]].
Qed.
Lemma with_conn_Err {A} (m : tx A) s e s' : with_conn m s = (Err e, s') → s' = s.
Proof. unfold with_conn. destruct (m s) as [[a0 s0]|e']; [done | by intros [= <- <-]]. Qed.
Lemma steps_with_conn (R : relation Store) `{!PreOrder R} {A} (m : tx A) s :
  steps R m → R s (snd (with_conn m s)).
Proof.
  intros Hm. unfold with_conn. destruct (m s) as [[a s']|e] eqn:E; cbn; [by eapply Hm | reflexivity].
Qed.
