(* ===== verification/Membership.v ===== *)
(** * Membership: governed context memberships of memories, the SQLite part of
    [src/src/store/context_store.rs] the memory writers call

    Visibility and use of a context, explicit grantees, and the insertion and
    replacement of a memory's ordered memberships with the compatibility
    scope they mirror into metadata and provenance. *)
From Stdlib Require Import ZArith Lia.
From stdpp Require Import base list option strings gmap sets.
From S2P Require Import Prelude Text Floats Errors Types Context StoreTypes Store.

Definition ANONYMOUS_PRINCIPAL : string := "anonymous".

Definition is_reserved_principal (principal : string) : bool :=
  String.eqb principal OPERATOR_PRINCIPAL || String.eqb principal LEGACY_SYSTEM_PRINCIPAL
  || String.eqb principal LEGACY_ALL_PRINCIPALS_GRANT || String.eqb principal ANONYMOUS_PRINCIPAL.

Definition normalize_explicit_grantee (grantee : string) : result StoreError.t string :=
  let grantee := trim grantee in
  if str_is_empty grantee || is_reserved_principal grantee
  then Err (StoreError.Conflict "ordinary context grants require one explicit non-reserved principal")
  else Ok grantee.

Fixpoint normalize_explicit_grantees_from (unique : gset string) (grantees : list string)
    : result StoreError.t (list string) :=
  match grantees with
  | [] => Ok []
  | g :: rest =>
      g ← normalize_explicit_grantee g;
      if bool_decide (g ∈ unique) then Err (StoreError.Conflict "context grant principals must be unique")
      else gs ← normalize_explicit_grantees_from ({[g]} ∪ unique) rest; Ok (g :: gs)
  end.
Definition normalize_explicit_grantees (grantees : list string) : result StoreError.t (list string) :=
  normalize_explicit_grantees_from ∅ grantees.

(** [context_visible_sql]: owner, or granted to the principal or to everyone. *)
Definition context_visible (reg : ContextRegistry) (id : ContextId) (c : ContextDefinition) (principal : string) : bool :=
  String.eqb (cd_owner_principal c) principal
  || is_some (reg_grants reg !! (id, principal))
  || is_some (reg_grants reg !! (id, LEGACY_ALL_PRINCIPALS_GRANT)).

Definition fetch_context_authorized (context_id : ContextId) (principal : string) : tx (option ContextDefinition) :=
  reads (λ s, c ← reg_contexts (st_registry s) !! context_id;
              if context_visible (st_registry s) context_id c principal then Some c else None).

Definition context_usable (reg : ContextRegistry) (id : ContextId) (principal : string) (require_active : bool) : bool :=
  match reg_contexts reg !! id with
  | None => false
  | Some c =>
      match reg_kinds reg !! ContextKind.as_str (cd_kind c) with
      | None => false
      | Some k =>
          ckd_enabled k
          && (negb require_active || bool_decide (cd_lifecycle c = ContextLifecycle.Active))
          && context_visible reg id c principal
      end
  end.
Definition context_use_allowed (id : ContextId) (principal : string) (require_active : bool) : tx bool :=
  reads (λ s, context_usable (st_registry s) id principal require_active).

Definition validate_audit_actor (audit : ContextAuditDraft) (principal : string) : result StoreError.t unit :=
  _ ← bail_if (is_blank principal || is_blank (cad_actor_principal audit))
        (StoreError.Conflict "context audit actor and authorized principal cannot be blank");
  bail_if (negb (String.eqb (cad_actor_principal audit) principal))
    (StoreError.Conflict "context audit actor must match the authorized principal").

(** The AUTOINCREMENT id counts the rows; no operation of the model deletes
    one. *)
Definition insert_context_audit (audit : ContextAuditDraft) (context_id : option ContextId)
    (memory_id : option MemoryId) (now : DateTime) : tx unit :=
  writes (on_context_audit (λ log, log ++ [Some
    {| cae_id := len log + 1; cae_actor_principal := cad_actor_principal audit; cae_action := cad_action audit;
       cae_context_id := context_id; cae_memory_id := memory_id; cae_timestamp := now;
       cae_details := cad_details audit |}])).

Definition memberships_of (s : Store) (id : MemoryId) : list ContextId := default [] (st_memberships s !! id).

(** One row of [memory_contexts]. The primary key and the unique ordinal are
    constraints of the table; the writers number the rows from 0, so a row is
    accepted exactly at the next ordinal. *)
Definition insert_membership (memory_id : MemoryId) (row : nat * ContextId) : tx unit := λ s,
  let cur := memberships_of s memory_id in
  if bool_decide (fst row = length cur ∧ snd row ∉ cur
                  ∧ is_Some (st_memories s !! memory_id)
                  ∧ is_Some (reg_contexts (st_registry s) !! snd row))
  then Ok ((), on_memberships <[memory_id := cur ++ [snd row]]> s)
  else Err (StoreError.Database "constraint failed: memory_contexts").

Section membership.
Context `{Render}.

Definition require_usable (preserved : gset ContextId) (principal : string) (context_id : ContextId) : tx unit :=
  let require_active := negb (bool_decide (context_id ∈ preserved)) in
  ok ← context_use_allowed context_id principal require_active;
  throw_if (negb ok)
    (StoreError.Conflict ("context " +:+ ulid context_id +:+ " is unavailable, archived, or not granted to principal "
                          +:+ debug_str principal)).

Definition primary_scope (context_ids : list ContextId) : tx string := λ s,
  match context_ids with
  | [] => Ok (UNRESOLVED_CONTEXT_KEY, s)
  | primary :: _ =>
      match reg_contexts (st_registry s) !! primary with
      | Some c => Ok (cd_key c, s)
      | None => Err (StoreError.Database "Query returned no rows")
      end
  end.

Definition insert_memory_contexts_sqlite (memory_id : MemoryId) (context_ids : list ContextId) (principal : string)
    (compatibility_scope : string) (audit : ContextAuditDraft) (now : DateTime) (preserved : gset ContextId) : tx unit :=
  _ ← of_result (validate_audit_actor audit principal);
  _ ← throw_if (has_duplicates context_ids) (StoreError.Conflict "memory context memberships must be unique");
  _ ← tx_fold (λ _, require_usable preserved principal) () context_ids;
  expected_scope ← primary_scope context_ids;
  _ ← throw_if (negb (String.eqb compatibility_scope expected_scope))
        (StoreError.Conflict ("compatibility scope " +:+ debug_str compatibility_scope
           +:+ " does not match primary governed context " +:+ debug_str expected_scope));
  _ ← tx_fold (λ _, insert_membership memory_id) () (imap pair context_ids);
  insert_context_audit audit None (Some memory_id) now.

Definition insert_initial_memory_contexts_sqlite (memory_id : MemoryId) (context_ids : list ContextId)
    (principal compatibility_scope : string) (audit : ContextAuditDraft) (now : DateTime) : tx unit :=
  insert_memory_contexts_sqlite memory_id context_ids principal compatibility_scope audit now ∅.

Definition set_source_conversation (scope : string) (p : Provenance) : Provenance :=
  {| source_agent := source_agent p; source_conversation := Some scope;
     origin_conversation := origin_conversation p; source_user := source_user p |}.
Definition set_scope_key (scope : string) (m : MemoryMetadata) : MemoryMetadata :=
  {| md_memory_id := md_memory_id m; md_scope_key := Some scope; md_summary := md_summary m;
     md_agent_label := md_agent_label m; md_created_by_principal := md_created_by_principal m;
     md_quality_flags := md_quality_flags m; md_schema_version := md_schema_version m |}.

Definition replace_memory_contexts_sqlite_tx (memory_id : MemoryId) (context_ids : list ContextId)
    (principal compatibility_scope : string) (audit : ContextAuditDraft) (now : DateTime) : tx unit :=
  preserved ← reads (λ s, list_to_set (memberships_of s memory_id) : gset ContextId);
  _ ← writes (on_memberships (delete memory_id));
  _ ← insert_memory_contexts_sqlite memory_id context_ids principal compatibility_scope audit now preserved;
  _ ← writes (on_metadata (alter (set_scope_key compatibility_scope) memory_id));
  writes (on_memories (alter (λ r, set_provenance (set_source_conversation compatibility_scope (r_provenance r)) r)
                        memory_id)).

(** [SELECT owner_principal, frozen FROM contexts WHERE id = ?]. *)
Definition context_owner_state (context_id : ContextId) : tx (option (string * bool)) :=
  reads (λ s, (λ c, (cd_owner_principal c, cd_frozen c)) <$> reg_contexts (st_registry s) !! context_id).

Definition require_mutable_owned_context (context_id : ContextId) (principal : string) : tx unit :=
  st ← context_owner_state context_id;
  match st with
  | None => throw (StoreError.NotFound ("context not found: " +:+ ulid context_id))
  | Some (owner, frozen) =>
      if negb (String.eqb owner principal)
      then throw (StoreError.Conflict ("principal " +:+ debug_str principal +:+ " does not own context " +:+ ulid context_id))
      else throw_if frozen
             (StoreError.Conflict ("context " +:+ ulid context_id +:+ " is a frozen legacy compatibility context"))
  end.
End membership.
