(* ===== verification/Crud.v ===== *)
(** * Crud: the memory operations of [src/src/store/crud.rs] (and
    [set_embedding_impl] of [store/admin.rs])

    Each operation is a transaction over the tables of Store.v, run by
    [with_conn]. The clock reading [now], the claim token and the configured
    embedding dimensions are arguments, as the code takes them from the store
    before the transaction starts. [exp2] is the libm function of
    [decay_mass]. *)
From Stdlib Require Import ZArith Lia.
From stdpp Require Import base list option strings gmap sets pretty.
From S2P Require Import Prelude Text Floats Lists Errors Types Validation Context StoreTypes Ranking Store Membership.

Definition EMBEDDING_CLAIM_LEASE_SECS : Z := 300.
Definition SQLITE_MAX_CHUNK : nat := 900.

(** ** Content fingerprint *)

Definition FNV_OFFSET : Z := 0xcbf29ce484222325.
Definition FNV_PRIME : Z := 0x100000001b3.
Definition wrapping_mul_u64 (a b : Z) : Z := (a * b) mod 2 ^ 64.
Definition fnv1a_hash (data : list Ascii.ascii) : Z :=
  fold_left (λ hash byte, wrapping_mul_u64 (Z.lxor hash (Z.of_N (byte_val byte))) FNV_PRIME) data FNV_OFFSET.

(** [{:016x}]: sixteen lower-case hexadecimal digits. *)
Fixpoint hex_digits (n : nat) (z : Z) : list Ascii.ascii :=
  match n with
  | O => []
  | S n' => hex_digits n' (Z.shiftr z 4) ++ [hex_digit (Z.to_N (Z.land z 15))]
  end.
Definition content_hash (content : string) : string := of_bytes (hex_digits 16 (fnv1a_hash (bytes content))).

(** ** Reading rows *)

Definition row_to_memory (id : MemoryId) (r : MemoryRow) : Memory :=
  {| m_id := id; m_content := r_content r; m_tags := r_tags r; m_provenance := r_provenance r;
     m_access_policy := r_access_policy r; m_created_at := r_created_at r; m_updated_at := r_updated_at r;
     m_record_revision := r_record_revision r; m_expires_at := r_expires_at r;
     m_has_embedding := r_has_embedding r; m_memory_type := r_memory_type r;
     m_importance := Importance.new (r_importance r); m_confidence := Confidence.new (r_confidence r);
     m_impression_count := r_impression_count r; m_last_impressed_at := r_last_impressed_at r;
     m_superseded_by := r_superseded_by r; m_activity_mass := r_activity_mass r;
     m_last_used_at := r_last_used_at r; m_entities := []; m_was_redacted := false |}.

Definition fetch_row (id : MemoryId) : tx (option MemoryRow) := reads (λ s, st_memories s !! id).
Definition fetch_memory_by_id (id : MemoryId) : tx (option Memory) :=
  reads (λ s, row_to_memory id <$> st_memories s !! id).

(** The entity rows of one memory; SQL leaves their order open. *)
Definition entities_of (s : Store) (id : MemoryId) : list Entity := elements (default ∅ (st_entities s !! id)).
Definition with_entities (l : list Entity) (m : Memory) : Memory :=
  {| m_id := m_id m; m_content := m_content m; m_tags := m_tags m; m_provenance := m_provenance m;
     m_access_policy := m_access_policy m; m_created_at := m_created_at m; m_updated_at := m_updated_at m;
     m_record_revision := m_record_revision m; m_expires_at := m_expires_at m; m_has_embedding := m_has_embedding m;
     m_memory_type := m_memory_type m; m_importance := m_importance m; m_confidence := m_confidence m;
     m_impression_count := m_impression_count m; m_last_impressed_at := m_last_impressed_at m;
     m_superseded_by := m_superseded_by m; m_activity_mass := m_activity_mass m; m_last_used_at := m_last_used_at m;
     m_entities := l; m_was_redacted := m_was_redacted m |}.
Definition hydrate_entities_single (id : MemoryId) : tx (list Entity) := reads (λ s, entities_of s id).

(** [hydrate_entities_batch]: the map holds the memories that have entities. *)
Definition hydrate_entities_batch (ids : list MemoryId) : tx (gmap MemoryId (list Entity)) :=
  reads (λ s, list_to_map (omap (λ id, pair id <$> match entities_of s id with [] => None | l => Some l end) ids)).
Definition hydrate_entities_for_memories (memories : list Memory) : tx (list Memory) :=
  if bool_decide (memories = []) then mret memories
  else entity_map ← hydrate_entities_batch (map m_id memories);
       mret (map (λ m, match entity_map !! m_id m with Some l => with_entities l m | None => m end) memories).

Definition is_expired (now : DateTime) (m : Memory) : bool :=
  match m_expires_at m with Some exp => exp <=? now | None => false end.

Definition get_by_id (id : MemoryId) (caller : option string) (now : DateTime) : tx (option Memory) :=
  mem ← fetch_memory_by_id id;
  match mem with
  | None => mret None
  | Some mem =>
      if is_expired now mem then mret None
      else entities ← hydrate_entities_single id;
           mret (apply_access_policy (with_entities entities mem) caller)
  end.

(** Rows whose id is listed, each once; the result is keyed by id. *)
Definition get_batch_by_ids (ids : list MemoryId) (caller : option string) (now : DateTime) : tx (gmap MemoryId Memory) :=
  if bool_decide (ids = []) then mret ∅
  else
    memories ← reads (λ s, omap (λ id, row_to_memory id <$> st_memories s !! id) (remove_dups ids));
    let memories := List.filter (λ m, negb (is_expired now m)) memories in
    memories ← hydrate_entities_for_memories memories;
    mret (list_to_map (omap (λ m, (λ visible, (m_id visible, visible)) <$> apply_access_policy m caller) memories)).

(** ** Vectors ([store/vector]) *)

Definition find_non_finite (embedding : list f64) : option nat :=
  fst <$> list_find (λ v, is_finite v = false) embedding.

Definition validate_embedding_vector (embedding : list f64) (dimensions : Z) : result StoreError.t unit :=
  if negb (len embedding =? dimensions)
  then Err (StoreError.Conflict ("embedding dimension mismatch: expected " +:+ pretty dimensions +:+ ", got "
                                 +:+ pretty (len embedding)))
  else match find_non_finite embedding with
       | Some idx => Err (StoreError.Conflict ("embedding contains non-finite value at index " +:+ pretty idx))
       | None => Ok ()
       end.

Definition profile_mismatch (existing configured : EmbeddingProfile) : StoreError.t :=
  let text p := pr_provider p +:+ " model '" +:+ pr_model p +:+ "' at '" +:+ pr_endpoint p +:+ "' with "
                +:+ pretty (pr_dimensions p) +:+ " dimensions" in
  StoreError.Conflict ("embedding profile mismatch: database uses " +:+ text existing
    +:+ ", but config selects " +:+ text configured
    +:+ "; run `hold embeddings reindex --yes` to rebuild all vectors").
Definition ensure_embedding_profile_matches (expected : EmbeddingProfile) : tx unit :=
  current ← reads st_profile;
  match current with
  | None => throw (StoreError.Conflict
      "embedding profile was removed while this server was running; restart before writing vectors")
  | Some current => throw_if (negb (bool_decide (current = expected)))
      (profile_mismatch current expected)
  end.

(** ** Inserting rows *)

(** [PreparedMemoryRow]: the row to insert, its vector and its entities. *)
Record PreparedMemoryRow := {
  pm_id : MemoryId;
  pm_row : MemoryRow;
  pm_embedding : option (list f64);
  pm_entities : list Entity;
}.
Definition from_memory (memory : Memory) (embedding : option (list f64)) : PreparedMemoryRow :=
  {| pm_id := m_id memory;
     pm_row := mkRow (m_content memory) (m_tags memory) (m_provenance memory) (m_access_policy memory)
       (m_created_at memory) (m_expires_at memory) (is_some embedding) (m_memory_type memory)
       (Importance.value (m_importance memory)) (m_impression_count memory) (m_last_impressed_at memory)
       (m_superseded_by memory) (m_activity_mass memory) (m_last_used_at memory) (m_updated_at memory)
       (Confidence.value (m_confidence memory)) (m_record_revision memory) 0 None None;
     pm_embedding := embedding;
     pm_entities := m_entities memory |}.

(** The foreign keys of the dependent tables require the memory's row. *)
Definition require_row (id : MemoryId) : tx unit := λ s,
  match st_memories s !! id with
  | Some _ => Ok ((), s)
  | None => Err (StoreError.Database "FOREIGN KEY constraint failed")
  end.

Definition insert_entities (id : MemoryId) (entities : list Entity) : tx unit :=
  if bool_decide (entities = []) then mret ()
  else _ ← require_row id;
       writes (on_entities (λ t, <[id := default ∅ (t !! id) ∪ list_to_set entities]> t)).
Definition replace_entities (id : MemoryId) (entities : list Entity) : tx unit :=
  _ ← writes (on_entities (delete id));
  insert_entities id entities.

(** [INSERT INTO memory_audit_log]. *)
Definition insert_audit_entry (memory_id : MemoryId) (action : string) (principal : option string)
    (timestamp : DateTime) (details : option Json) : tx unit :=
  writes (on_audit (λ log, log ++ [
    {| au_memory_id := memory_id; au_action := action; au_caller_agent := principal;
       au_timestamp := timestamp; au_details := details |}])).
Definition insert_audit_draft (memory_id : MemoryId) (audit : AuditDraft) : tx unit :=
  insert_audit_entry memory_id (AuditAction.to_string (ad_action audit)) (ad_caller_agent audit)
    (ad_timestamp audit) (ad_details audit).
Definition insert_optional_audit_draft (memory_id : MemoryId) (audit : option AuditDraft) : tx unit :=
  when_some audit (insert_audit_draft memory_id).

(** [usize_to_i64] of store/query.rs. *)
Definition usize_to_i64 (value : Z) (context : string) : result StoreError.t Z :=
  match i64_try_from value with
  | Some v => Ok v
  | None => Err (StoreError.Database (context +:+ " " +:+ pretty value
                +:+ " exceeds i64 range: out of range integral type conversion attempted"))
  end.

Definition audit_entry_of (r : AuditRow) : result StoreError.t AuditEntry :=
  match AuditAction.from_str (au_action r) with
  | Ok action => Ok {| ae_action := action; ae_caller_agent := au_caller_agent r;
                       ae_timestamp := au_timestamp r; ae_details := au_details r |}
  | Err e => Err (StoreError.Database (pe_what e +:+ ": " +:+ pe_other e))
  end.
Definition query_audit_log (memory_id : MemoryId) (limit : Z) : tx (list AuditEntry) :=
  limit_i64 ← of_result (usize_to_i64 limit "audit log limit");
  rows ← reads (λ s, truncate limit_i64 (List.filter (λ r, bool_decide (au_memory_id r = memory_id)) (st_audit s)));
  of_result (try_map audit_entry_of rows).

(** ** Deleting rows *)

(** [trg_memory_clear_superseded_by]. *)
Definition clear_superseded_by (old : MemoryId) (r : MemoryRow) : MemoryRow :=
  if bool_decide (r_superseded_by r = Some old)
  then set_record_revision (r_record_revision r + 1) (set_superseded_by None r)
  else r.

(** [DELETE FROM memories WHERE id = ?] with the cascades and the trigger. *)
Definition delete_memory (id : MemoryId) : tx bool := λ s,
  match st_memories s !! id with
  | None => Ok (false, s)
  | Some _ =>
      Ok (true,
        on_memories (λ t, clear_superseded_by id <$> delete id t)
          (on_vectors (delete id) (on_entities (delete id) (on_metadata (delete id)
            (on_memberships (delete id) s)))))
  end.

(** [INSERT INTO memory_tombstones … ON CONFLICT DO UPDATE]. *)
Definition insert_authorization_tombstone (memory : MemoryAuthorizationEnvelope) (deleted_at : DateTime)
    (deleted_by : option string) : tx unit :=
  writes (on_tombstones <[env_id memory :=
    {| ts_memory_id := env_id memory; ts_provenance := env_provenance memory;
       ts_access_policy := env_access_policy memory; ts_deleted_at := deleted_at;
       ts_deleted_by_principal := deleted_by |}]>).
Definition insert_tombstone (memory : Memory) (deleted_at : DateTime) (deleted_by : option string) : tx unit :=
  insert_authorization_tombstone (envelope_from_memory memory) deleted_at deleted_by.
Definition fetch_tombstone_by_id (id : MemoryId) : tx (option MemoryTombstone) :=
  reads (λ s, st_tombstones s !! id).

Definition apply_delete (id : MemoryId) (deleted_at : DateTime) : tx bool :=
  existing ← fetch_memory_by_id id;
  match existing with
  | None => mret false
  | Some existing =>
      _ ← insert_tombstone existing deleted_at None;
      delete_memory id
  end.

Definition apply_authorized_delete (id : MemoryId) (principal : string) (deleted_at : DateTime)
    (audit : option AuditDraft) : tx WriteOutcome.t :=
  existing ← fetch_memory_by_id id;
  match existing with
  | None => mret WriteOutcome.NotFound
  | Some existing =>
      if negb (has_write_access existing principal) then mret WriteOutcome.Denied
      else
        _ ← insert_tombstone existing deleted_at (Some principal);
        affected ← delete_memory id;
        if affected : bool
        then _ ← insert_optional_audit_draft (m_id existing) audit; mret WriteOutcome.Applied
        else mret WriteOutcome.NotFound
  end.

Fixpoint chunks_fuel {A} (fuel n : nat) (l : list A) : list (list A) :=
  match fuel, l with
  | S f, _ :: _ => take n l :: chunks_fuel f n (drop n l)
  | _, _ => []
  end.
(** [ids.chunks(n)], for a positive [n]. *)
Definition chunks {A} (n : nat) (l : list A) : list (list A) := chunks_fuel (length l) n l.

Definition bulk_delete_one (principal : string) (deleted_at : DateTime) (audit : option AuditDraft)
    (acc : BulkAuthOutcome) (id : MemoryId) : tx BulkAuthOutcome :=
  mem ← fetch_memory_by_id id;
  match mem with
  | None => mret acc
  | Some mem =>
      if negb (has_write_access mem principal)
      then mret {| bo_applied_ids := bo_applied_ids acc; bo_denied := saturating_add (bo_denied acc) 1 |}
      else
        _ ← insert_tombstone mem deleted_at (Some principal);
        affected ← delete_memory id;
        if affected : bool
        then _ ← insert_optional_audit_draft id audit;
             mret {| bo_applied_ids := bo_applied_ids acc ++ [id]; bo_denied := bo_denied acc |}
        else mret acc
  end.
Definition bulk_outcome_empty : BulkAuthOutcome := {| bo_applied_ids := []; bo_denied := 0 |}.
Definition bulk_delete_ids (ids : list MemoryId) (principal : string) (deleted_at : DateTime)
    (audit : option AuditDraft) : tx BulkAuthOutcome :=
  if bool_decide (ids = []) then mret bulk_outcome_empty
  else tx_fold (tx_fold (bulk_delete_one principal deleted_at audit)) bulk_outcome_empty (chunks SQLITE_MAX_CHUNK ids).

(** ** Updating rows *)

(** [UPDATE memories SET … WHERE id = ?]: the number of rows affected is 0 or
    1, the id being the primary key. *)
Definition update_row (id : MemoryId) (f : MemoryRow → MemoryRow) : tx bool := λ s,
  match st_memories s !! id with
  | None => Ok (false, s)
  | Some _ => Ok (true, on_memories (alter f id) s)
  end.

Definition increment_record_revision_conn `{Render} (id : MemoryId) (action : string) : tx unit :=
  affected ← update_row id (λ r, set_record_revision (r_record_revision r + 1) r);
  throw_if (negb affected) (StoreError.Conflict ("memory " +:+ ulid id +:+ " changed while " +:+ action)).

(** chrono: [checked_add_signed], [checked_sub_signed] (nanoseconds) and
    [DateTime::MIN_UTC]. *)
Class Chrono := {
  checked_add_signed : DateTime → Z → option DateTime;
  checked_sub_signed : DateTime → Z → option DateTime;
  min_utc : DateTime;
  checked_add_signed_exact t d t' : checked_add_signed t d = Some t' → t' = t + d;
  checked_sub_signed_exact t d t' : checked_sub_signed t d = Some t' → t' = t - d;
}.

(** [previous + 1µs] unless that overflows chrono's range. *)
Definition next_memory_revision `{Chrono} (now previous : DateTime) : DateTime :=
  match checked_add_signed previous 1000 with
  | Some minimum => Z.max now minimum
  | None => now
  end.

Definition has_column_updates (u : MemoryUpdate) : bool :=
  is_some (mu_content u) || is_some (mu_tags u) || is_some (mu_access_policy u) || is_some (mu_importance u)
  || is_some (mu_expires_at u) || is_some (mu_confidence u) || is_some (mu_source_conversation u).

(** One assignment of the SET clause; the increments read the old row, and no
    column is assigned twice. *)
Inductive set_item :=
| SetContent (v : string)
| ClearHasEmbedding
| BumpEmbeddingRevision
| ClearClaimedAt
| ClearClaimToken
| SetTags (v : list string)
| SetAccessPolicy (v : AccessPolicy.t)
| SetImportance (v : f64)
| SetExpiresAt (v : option DateTime)
| SetConfidence (v : f64)
| SetSourceConversation (v : string)
| SetUpdatedAt (v : DateTime)
| BumpRecordRevision.

Definition exec_item (i : set_item) : MemoryRow → MemoryRow :=
  match i with
  | SetContent v => set_content v
  | ClearHasEmbedding => set_has_embedding false
  | BumpEmbeddingRevision => λ r, set_embedding_revision (r_embedding_revision r + 1) r
  | ClearClaimedAt => set_embedding_claimed_at None
  | ClearClaimToken => set_embedding_claim_token None
  | SetTags v => set_tags v
  | SetAccessPolicy v => set_access_policy v
  | SetImportance v => set_importance v
  | SetExpiresAt v => set_expires_at v
  | SetConfidence v => set_confidence v
  | SetSourceConversation v => λ r, set_provenance (set_source_conversation v (r_provenance r)) r
  | SetUpdatedAt v => set_updated_at v
  | BumpRecordRevision => λ r, set_record_revision (r_record_revision r + 1) r
  end.
Definition exec_set (items : list set_item) (r : MemoryRow) : MemoryRow := fold_left (λ r i, exec_item i r) items r.

Definition push_some {A} (o : option A) (f : A → list set_item) : list set_item :=
  match o with Some a => f a | None => [] end.

Definition build_set_clause (u : MemoryUpdate) (now : DateTime) : list set_item :=
  push_some (mu_content u) (λ content,
    [SetContent content; ClearHasEmbedding; BumpEmbeddingRevision; ClearClaimedAt; ClearClaimToken])
  ++ push_some (mu_tags u) (λ tags, [SetTags tags])
  ++ push_some (mu_access_policy u) (λ policy, [SetAccessPolicy policy])
  ++ push_some (mu_importance u) (λ importance, [SetImportance (Importance.value importance)])
  ++ push_some (mu_expires_at u) (λ expires_at, [SetExpiresAt expires_at])
  ++ push_some (mu_confidence u) (λ confidence, [SetConfidence (Confidence.value confidence)])
  ++ push_some (mu_source_conversation u) (λ scope, [SetSourceConversation scope])
  ++ push_some (mu_content u) (λ _, [SetUpdatedAt now])
  ++ (if has_column_updates u then [BumpRecordRevision] else []).

Definition update_outcome (o : WriteOutcome.t) (rev : option Z) : AuthorizedUpdateOutcome :=
  {| ao_outcome := o; ao_reembed_revision := rev |}.

(** The rows the UPDATE of [apply_update_inner] affects. *)
Definition update_columns (id : MemoryId) (u : MemoryUpdate) (now : DateTime) : tx bool :=
  match build_set_clause u now with
  | [] =>
      if is_some (mu_entities u)
      then update_row id (λ r, set_record_revision (r_record_revision r + 1) r)
      else reads (λ s, is_some (st_memories s !! id))
  | items => update_row id (exec_set items)
  end.

Definition select_embedding_revision (id : MemoryId) : tx Z := λ s,
  match st_memories s !! id with
  | Some r => Ok (r_embedding_revision r, s)
  | None => Err (StoreError.Database "Query returned no rows")
  end.

Definition apply_update_inner (id : MemoryId) (u : MemoryUpdate) (now : DateTime) : tx AuthorizedUpdateOutcome :=
  affected ← update_columns id u now;
  if negb affected then mret (update_outcome WriteOutcome.NotFound None)
  else
    reembed_revision ←
      (if is_some (mu_content u)
       then _ ← writes (on_vectors (delete id)); rev ← select_embedding_revision id; mret (Some rev)
       else mret None);
    _ ← when_some (mu_entities u) (replace_entities id);
    mret (update_outcome WriteOutcome.Applied reembed_revision).

(** ** Metadata *)

Definition validate_metadata_memory_id `{Render} (memory_id : MemoryId) (metadata : MemoryMetadata)
    : result StoreError.t unit :=
  bail_if (negb (md_memory_id metadata =? memory_id)%N)
    (StoreError.Conflict ("metadata memory_id (" +:+ ulid (md_memory_id metadata) +:+ ") must match memory id ("
                          +:+ ulid memory_id +:+ ")")).

(** The UPSERT keeps the principal first recorded. *)
Definition upsert_metadata_row (new : MemoryMetadata) (old : option MemoryMetadata) : MemoryMetadata :=
  {| md_memory_id := md_memory_id new; md_scope_key := md_scope_key new; md_summary := md_summary new;
     md_agent_label := md_agent_label new;
     md_created_by_principal :=
       match old ≫= md_created_by_principal with
       | Some p => Some p
       | None => md_created_by_principal new
       end;
     md_quality_flags := md_quality_flags new; md_schema_version := md_schema_version new |}.
Definition upsert_metadata_conn (metadata : MemoryMetadata) : tx unit :=
  _ ← require_row (md_memory_id metadata);
  writes (on_metadata (λ t,
    <[md_memory_id metadata := upsert_metadata_row metadata (t !! md_memory_id metadata)]> t)).
(** The [memory_id] column is the key of the row. *)
Definition with_memory_id (id : MemoryId) (m : MemoryMetadata) : MemoryMetadata :=
  {| md_memory_id := id; md_scope_key := md_scope_key m; md_summary := md_summary m;
     md_agent_label := md_agent_label m; md_created_by_principal := md_created_by_principal m;
     md_quality_flags := md_quality_flags m; md_schema_version := md_schema_version m |}.
Definition get_metadata_conn (id : MemoryId) : tx (option MemoryMetadata) :=
  reads (λ s, with_memory_id id <$> st_metadata s !! id).

Definition first_some {A} (a b : option A) : option A := match a with Some _ => a | None => b end.

(** [merge_metadata_patch] of store/mod.rs. *)
Definition merge_metadata_patch `{UnicodeCase} (memory_id : MemoryId) (patch : MetadataPatch)
    (existing : option MemoryMetadata) (fallback_scope : option string) (principal : string) : MemoryMetadata :=
  let scope_key := first_some (first_some (mp_scope_key patch) (existing ≫= md_scope_key)) fallback_scope in
  let quality_flags := match existing with Some m => md_quality_flags m | None => [] end in
  let quality_flags := List.filter (λ flag, negb (String.eqb flag "missing_scope")) quality_flags in
  let quality_flags :=
    if match scope_key with
       | None => true
       | Some key => String.eqb (normalize_context_key key) UNRESOLVED_CONTEXT_KEY
       end
    then quality_flags ++ ["missing_scope"] else quality_flags in
  {| md_memory_id := memory_id;
     md_scope_key := scope_key;
     md_summary := if mp_clear_summary patch then None else first_some (mp_summary patch) (existing ≫= md_summary);
     md_agent_label := if mp_clear_agent_label patch then None
                       else first_some (mp_agent_label patch) (existing ≫= md_agent_label);
     md_created_by_principal := first_some (existing ≫= md_created_by_principal) (Some principal);
     md_quality_flags := quality_flags;
     md_schema_version := 1 |}.

(** [update_audit_draft_for_locked_memory] of store/mod.rs. *)
Definition update_audit_draft_for_locked_memory (audit : AuditDraft) (u : MemoryUpdate) (existing : Memory) : AuditDraft :=
  match mu_content u with
  | None => audit
  | Some _ =>
      {| ad_action := ad_action audit; ad_caller_agent := ad_caller_agent audit; ad_timestamp := ad_timestamp audit;
         ad_details := Some (audit_details_with_old_content_hash (ad_details audit)
                               (content_hash (m_content existing))) |}
  end.

(** ** The compatibility scope of a memory: the key of its primary context *)

Definition compatibility_scope_key_of (s : Store) (id : MemoryId) : string :=
  match memberships_of s id with
  | [] => UNRESOLVED_CONTEXT_KEY
  | primary :: _ =>
      match reg_contexts (st_registry s) !! primary with
      | Some c => cd_key c
      | None => UNRESOLVED_CONTEXT_KEY
      end
  end.
Definition compatibility_scope_key (id : MemoryId) : tx string := reads (λ s, compatibility_scope_key_of s id).

Definition differs (o : option string) (expected : string) : bool :=
  match o with Some scope => negb (String.eqb scope expected) | None => false end.

Definition validate_compatibility_cache_update (id : MemoryId) (u : MemoryUpdate) (patch : option MetadataPatch) : tx unit :=
  let patch_scope := patch ≫= mp_scope_key in
  if is_none (mu_source_conversation u) && is_none patch_scope then mret ()
  else
    expected_scope ← compatibility_scope_key id;
    _ ← throw_if (differs (mu_source_conversation u) expected_scope)
          (StoreError.Conflict "provenance compatibility scope must match the primary governed context; replace governed memberships instead");
    throw_if (differs patch_scope expected_scope)
      (StoreError.Conflict "metadata compatibility scope must match the primary governed context; replace governed memberships instead").

(** ** Operations of [SqliteStore] *)

Section operations.
Context `{Render, UnicodeCase, Chrono} (dimensions : Z).

(** [VectorIndex::upsert]. *)
Definition upsert_vector (id : MemoryId) (embedding : list f64) : tx unit :=
  _ ← of_result (validate_embedding_vector embedding dimensions);
  _ ← require_row id;
  writes (on_vectors <[id := embedding]>).

(** [PreparedMemoryRow::insert]. *)
Definition insert_row (p : PreparedMemoryRow) : tx unit := λ s,
  match st_memories s !! pm_id p with
  | Some _ => Err (StoreError.Database "UNIQUE constraint failed: memories.id")
  | None => Ok ((), on_memories <[pm_id p := pm_row p]> s)
  end.
Definition insert (p : PreparedMemoryRow) : tx MemoryId :=
  _ ← insert_row p;
  _ ← when_some (pm_embedding p) (upsert_vector (pm_id p));
  _ ← insert_entities (pm_id p) (pm_entities p);
  mret (pm_id p).

Definition mark_superseded (old_id new_id : MemoryId) : tx bool :=
  existing ← fetch_memory_by_id old_id;
  match existing with
  | None => mret false
  | Some existing =>
      if is_some (m_superseded_by existing)
      then throw (StoreError.Conflict ("memory " +:+ ulid old_id +:+ " is already superseded"))
      else
        affected ← update_row old_id (λ r, set_record_revision (r_record_revision r + 1)
                                              (set_superseded_by (Some new_id) r));
        if affected : bool then mret true
        else throw (StoreError.Conflict ("memory " +:+ ulid old_id +:+ " changed while superseding"))
  end.

Definition validate_superseded_exists (supersedes_id : MemoryId) : tx unit :=
  exists_ ← reads (λ s, is_some (st_memories s !! supersedes_id));
  throw_if (negb exists_) (StoreError.NotFound ("superseded memory not found: " +:+ ulid supersedes_id)).

Definition insert_prepared_with_optional_supersession_and_audit (prepared : PreparedMemoryRow)
    (supersedes_id : option MemoryId) (audit : option AuditDraft) : tx MemoryId :=
  _ ← when_some supersedes_id validate_superseded_exists;
  id ← insert prepared;
  _ ← when_some supersedes_id (λ sid, _ ← mark_superseded sid id; mret ());
  _ ← insert_optional_audit_draft id audit;
  mret id.

Definition store_audited_impl (memory : Memory) (embedding : option (list f64)) (audit : option AuditDraft) : tx MemoryId :=
  id ← insert (from_memory memory embedding);
  _ ← insert_optional_audit_draft id audit;
  mret id.
Definition store_impl (memory : Memory) (embedding : option (list f64)) : tx MemoryId :=
  store_audited_impl memory embedding None.

Definition store_with_supersession_audited_impl (memory : Memory) (embedding : option (list f64))
    (supersedes_id : MemoryId) (audit : option AuditDraft) : tx MemoryId :=
  _ ← validate_superseded_exists supersedes_id;
  id ← insert (from_memory memory embedding);
  _ ← mark_superseded supersedes_id id;
  _ ← insert_optional_audit_draft id audit;
  mret id.

Definition store_with_metadata_audited_impl (memory : Memory) (embedding : option (list f64))
    (supersedes_id : option MemoryId) (metadata : MemoryMetadata) (audit : option AuditDraft) : tx MemoryId :=
  _ ← of_result (validate_metadata_memory_id (m_id memory) metadata);
  id ← insert_prepared_with_optional_supersession_and_audit (from_memory memory embedding) supersedes_id audit;
  _ ← upsert_metadata_conn metadata;
  mret id.

(** A governed write needs matching compatibility scopes and a principal. *)
Definition metadata_scope (metadata : MemoryMetadata) : string := default UNRESOLVED_CONTEXT_KEY (md_scope_key metadata).
Definition source_principal (memory : Memory) : option string :=
  match source_agent (m_provenance memory) with
  | Some p => if is_blank p then None else Some p
  | None => None
  end.
Definition validate_governed_write (memory : Memory) (metadata : MemoryMetadata) : result StoreError.t string :=
  _ ← validate_metadata_memory_id (m_id memory) metadata;
  _ ← bail_if (negb (bool_decide (source_conversation (m_provenance memory) = Some (metadata_scope metadata))))
        (StoreError.Conflict "memory provenance and metadata compatibility scope must match");
  ok_or (StoreError.Conflict "governed memory writes require a source principal") (source_principal memory).

Definition store_with_metadata_contexts_audited_impl (memory : Memory) (embedding : option (list f64))
    (supersedes_id : option MemoryId) (metadata : MemoryMetadata) (context_ids : list ContextId)
    (audit : AuditDraft) (context_audit : ContextAuditDraft) (now : DateTime) : tx MemoryId :=
  principal ← of_result (validate_governed_write memory metadata);
  id ← insert_prepared_with_optional_supersession_and_audit (from_memory memory embedding) supersedes_id (Some audit);
  _ ← upsert_metadata_conn metadata;
  _ ← insert_initial_memory_contexts_sqlite id context_ids principal (metadata_scope metadata) context_audit now;
  mret id.

Definition audit_len_mismatch (expected actual : Z) : StoreError.t :=
  StoreError.Conflict ("audit length (" +:+ pretty actual +:+ ") must match memories length (" +:+ pretty expected +:+ ")").
Definition metadata_len_mismatch (expected actual : Z) : StoreError.t :=
  StoreError.Conflict ("metadata length (" +:+ pretty actual +:+ ") must match memories length (" +:+ pretty expected +:+ ")").
Definition supersedes_len_mismatch (expected actual : Z) : StoreError.t :=
  StoreError.Conflict ("supersedes length (" +:+ pretty actual +:+ ") must match memories length (" +:+ pretty expected +:+ ")").

Definition check_len {A} (mismatch : Z → Z → StoreError.t) (expected : Z) (l : list A) : tx unit :=
  throw_if (negb (len l =? expected)) (mismatch expected (len l)).
Definition prepare (m : MemoryWithEmbedding) : PreparedMemoryRow := from_memory (we_memory m) (we_embedding m).

Definition store_batch_audited_impl (memories : list MemoryWithEmbedding) (audits : option (list AuditDraft)) : tx (list MemoryId) :=
  _ ← when_some audits (check_len audit_len_mismatch (len memories));
  tx_map (λ p : nat * PreparedMemoryRow,
      id ← insert (snd p);
      _ ← insert_optional_audit_draft id (audits ≫= λ items, items !! fst p);
      mret id)
    (imap pair (map prepare memories)).

Definition batch_store_with_supersession_and_audit (prepared : list PreparedMemoryRow)
    (supersedes : list (option MemoryId)) (audits : option (list AuditDraft)) : tx (list MemoryId) :=
  _ ← when_some audits (check_len audit_len_mismatch (len prepared));
  tx_map (λ p : nat * PreparedMemoryRow,
      let supersedes_id := mjoin (supersedes !! fst p) in
      _ ← when_some supersedes_id validate_superseded_exists;
      id ← insert (snd p);
      _ ← when_some supersedes_id (λ sid, _ ← mark_superseded sid id; mret ());
      _ ← when_some audits (λ audits,
            match audits !! fst p with
            | Some audit => insert_audit_draft id audit
            | None => throw (audit_len_mismatch (len prepared) (len audits))
            end);
      mret id)
    (imap pair prepared).
Definition store_batch_with_supersession_audited_impl (memories : list MemoryWithEmbedding)
    (supersedes : list (option MemoryId)) (audits : option (list AuditDraft)) : tx (list MemoryId) :=
  _ ← check_len supersedes_len_mismatch (len memories) supersedes;
  _ ← when_some audits (check_len audit_len_mismatch (len memories));
  batch_store_with_supersession_and_audit (map prepare memories) supersedes audits.

Definition store_batch_with_metadata_audited_impl (memories : list MemoryWithEmbedding)
    (supersedes : list (option MemoryId)) (metadata : list MemoryMetadata) (audits : option (list AuditDraft))
    : tx (list MemoryId) :=
  _ ← check_len metadata_len_mismatch (len memories) metadata;
  _ ← check_len supersedes_len_mismatch (len memories) supersedes;
  _ ← when_some audits (check_len audit_len_mismatch (len memories));
  _ ← of_result (try_for_each (λ p : MemoryWithEmbedding * MemoryMetadata,
        validate_metadata_memory_id (m_id (we_memory (fst p))) (snd p)) (zip memories metadata));
  tx_map (λ p : nat * PreparedMemoryRow,
      id ← insert_prepared_with_optional_supersession_and_audit (snd p) (mjoin (supersedes !! fst p))
             (audits ≫= λ items, items !! fst p);
      match metadata !! fst p with
      | None => throw (metadata_len_mismatch (len memories) (len metadata))
      | Some item => _ ← upsert_metadata_conn item; mret id
      end)
    (imap pair (map prepare memories)).

(** The six lists of a governed batch, item by item. The lengths were checked,
    so the indexing of the code does not leave the lists. *)
Fixpoint zip_governed (memories : list MemoryWithEmbedding) (supersedes : list (option MemoryId))
    (metadata : list MemoryMetadata) (context_ids : list (list ContextId)) (audits : list AuditDraft)
    (context_audits : list ContextAuditDraft)
    : list (MemoryWithEmbedding * option MemoryId * MemoryMetadata * list ContextId * AuditDraft * ContextAuditDraft) :=
  match memories, supersedes, metadata, context_ids, audits, context_audits with
  | m :: ms, s :: ss, d :: ds, c :: cs, a :: as_, x :: xs => (m, s, d, c, a, x) :: zip_governed ms ss ds cs as_ xs
  | _, _, _, _, _, _ => []
  end.
Definition store_batch_with_metadata_contexts_audited_impl (memories : list MemoryWithEmbedding)
    (supersedes : list (option MemoryId)) (metadata : list MemoryMetadata) (context_ids : list (list ContextId))
    (audits : list AuditDraft) (context_audits : list ContextAuditDraft) (now : DateTime) : tx (list MemoryId) :=
  let expected := len memories in
  _ ← throw_if (negb ((len supersedes =? expected) && (len metadata =? expected) && (len context_ids =? expected)
                      && (len audits =? expected) && (len context_audits =? expected)))
        (StoreError.Conflict "governed batch companion lengths must match memories");
  _ ← of_result (try_for_each (λ p : MemoryWithEmbedding * MemoryMetadata,
        _ ← validate_governed_write (we_memory (fst p)) (snd p); Ok ()) (zip memories metadata));
  tx_map (λ '(m, supersedes_id, metadata, context_ids, audit, context_audit),
      principal ← of_result (ok_or (StoreError.Conflict "governed memory writes require a source principal")
                               (source_principal (we_memory m)));
      id ← insert_prepared_with_optional_supersession_and_audit (prepare m) supersedes_id (Some audit);
      _ ← upsert_metadata_conn metadata;
      _ ← insert_initial_memory_contexts_sqlite id context_ids principal (metadata_scope metadata) context_audit now;
      mret id)
    (zip_governed memories supersedes metadata context_ids audits context_audits).

(** *** Updates *)

Definition apply_update (id : MemoryId) (u : MemoryUpdate) (now : DateTime) : tx AuthorizedUpdateOutcome :=
  if negb (has_column_updates u) && is_none (mu_entities u)
  then
    exists_ ← reads (λ s, is_some (st_memories s !! id));
    mret (update_outcome (if exists_ : bool then WriteOutcome.Applied else WriteOutcome.NotFound) None)
  else
    existing ← fetch_memory_by_id id;
    match existing with
    | None => mret (update_outcome WriteOutcome.NotFound None)
    | Some existing =>
        _ ← validate_compatibility_cache_update id u None;
        apply_update_inner id u (next_memory_revision now (m_updated_at existing))
    end.
Definition update_impl (id : MemoryId) (u : MemoryUpdate) (now : DateTime) : tx bool :=
  outcome ← apply_update id u now;
  mret (bool_decide (ao_outcome outcome = WriteOutcome.Applied)).

(** The prefix of every authorized operation: read the row in the transaction
    and refuse a missing row or a caller without write access. *)
Definition authorize {A} (id : MemoryId) (principal : string) (refused : WriteOutcome.t → A) (k : Memory → tx A) : tx A :=
  existing ← fetch_memory_by_id id;
  match existing with
  | None => mret (refused WriteOutcome.NotFound)
  | Some existing =>
      if negb (has_write_access existing principal) then mret (refused WriteOutcome.Denied) else k existing
  end.
Definition refused_update (o : WriteOutcome.t) : AuthorizedUpdateOutcome := update_outcome o None.

Definition audit_update (audit : AuditDraft) (u : MemoryUpdate) (existing : Memory) : tx unit :=
  insert_audit_draft (m_id existing) (update_audit_draft_for_locked_memory audit u existing).

Definition update_authorized_audited_impl (id : MemoryId) (u : MemoryUpdate) (principal : string) (now : DateTime)
    (audit : option AuditDraft) : tx AuthorizedUpdateOutcome :=
  authorize id principal refused_update (λ existing,
    _ ← validate_compatibility_cache_update id u None;
    outcome ← apply_update_inner id u (next_memory_revision now (m_updated_at existing));
    _ ← (if bool_decide (ao_outcome outcome = WriteOutcome.Applied)
         then when_some audit (λ audit, audit_update audit u existing) else mret ());
    mret outcome).

Definition upsert_merged_metadata (id : MemoryId) (patch : MetadataPatch) (existing : Memory) (principal : string) : tx unit :=
  existing_metadata ← get_metadata_conn id;
  upsert_metadata_conn
    (merge_metadata_patch id patch existing_metadata (source_conversation (m_provenance existing)) principal).

Definition metadata_only (u : MemoryUpdate) (patch : option MetadataPatch) : bool :=
  is_some patch && negb (has_column_updates u) && is_none (mu_entities u).

Definition apply_authorized_update_with_metadata (id : MemoryId) (u : MemoryUpdate) (patch : option MetadataPatch)
    (principal : string) (now : DateTime) (audit : option AuditDraft) : tx AuthorizedUpdateOutcome :=
  authorize id principal refused_update (λ existing,
    _ ← validate_compatibility_cache_update id u patch;
    outcome ← apply_update_inner id u (next_memory_revision now (m_updated_at existing));
    _ ← (if bool_decide (ao_outcome outcome = WriteOutcome.Applied)
         then
           _ ← when_some patch (λ patch, upsert_merged_metadata id patch existing principal);
           _ ← (if metadata_only u patch then increment_record_revision_conn id "saving" else mret ());
           when_some audit (λ audit, audit_update audit u existing)
         else mret ());
    mret outcome).

Definition replace_governed (id : MemoryId) (u : MemoryUpdate) (patch : option MetadataPatch)
    (context_ids : list ContextId) (principal : string) (context_audit : option ContextAuditDraft)
    (revision_at : DateTime) : tx unit :=
  context_audit ← of_result (ok_or (StoreError.Conflict "governed membership replacement requires a context audit")
                               context_audit);
  compatibility_scope ← of_result (ok_or
    (StoreError.Conflict "membership replacement requires a compatibility scope metadata patch")
    (patch ≫= mp_scope_key));
  _ ← throw_if (negb (bool_decide (mu_source_conversation u = Some compatibility_scope)))
        (StoreError.Conflict "membership replacement requires matching provenance and metadata compatibility scopes");
  replace_memory_contexts_sqlite_tx id context_ids principal compatibility_scope context_audit revision_at.

Definition apply_authorized_update_with_metadata_contexts (id : MemoryId) (u : MemoryUpdate)
    (patch : option MetadataPatch) (context_ids : option (list ContextId)) (principal : string) (now : DateTime)
    (audit : AuditDraft) (context_audit : option ContextAuditDraft) : tx AuthorizedUpdateOutcome :=
  _ ← throw_if (negb (Bool.eqb (is_some context_ids) (is_some context_audit)))
        (StoreError.Conflict "governed membership replacement requires exactly one context audit");
  authorize id principal refused_update (λ existing,
    _ ← (if is_none context_ids then validate_compatibility_cache_update id u patch else mret ());
    let revision_at := next_memory_revision now (m_updated_at existing) in
    outcome ← apply_update_inner id u revision_at;
    _ ← (if bool_decide (ao_outcome outcome = WriteOutcome.Applied)
         then
           _ ← when_some patch (λ patch, upsert_merged_metadata id patch existing principal);
           _ ← (if metadata_only u patch then increment_record_revision_conn id "saving" else mret ());
           _ ← when_some context_ids (λ context_ids,
                 replace_governed id u patch context_ids principal context_audit revision_at);
           audit_update audit u existing
         else mret ());
    mret outcome).

(** The key of the primary context, for the optimistic replacement. *)
Definition replacement_scope (context_ids : list ContextId) : tx string :=
  match context_ids with
  | [] => mret UNRESOLVED_CONTEXT_KEY
  | primary :: _ =>
      key ← reads (λ s, cd_key <$> reg_contexts (st_registry s) !! primary);
      of_result (ok_or (StoreError.Conflict ("primary context " +:+ ulid primary +:+ " does not exist")) key)
  end.
Definition new_metadata (id : MemoryId) (principal : string) : MemoryMetadata :=
  {| md_memory_id := id; md_scope_key := None; md_summary := None; md_agent_label := None;
     md_created_by_principal := Some principal; md_quality_flags := []; md_schema_version := 1 |}.

Definition write_embedding (id : MemoryId) (embedding : list f64) (profile : option EmbeddingProfile) : tx unit :=
  _ ← when_some profile ensure_embedding_profile_matches;
  _ ← upsert_vector id embedding;
  affected ← update_row id (set_has_embedding true);
  throw_if (negb affected) (StoreError.Conflict ("memory " +:+ ulid id +:+ " changed while saving")).

Definition replace_governed_if_unmodified (id : MemoryId) (context_ids : list ContextId) (principal : string)
    (context_audit : option ContextAuditDraft) (revision_at : DateTime) : tx unit :=
  context_audit ← of_result (ok_or (StoreError.Conflict "optimistic membership replacement requires a context audit")
                               context_audit);
  compatibility_scope ← replacement_scope context_ids;
  metadata ← get_metadata_conn id;
  _ ← upsert_metadata_conn (set_scope_key compatibility_scope (default (new_metadata id principal) metadata));
  replace_memory_contexts_sqlite_tx id context_ids principal compatibility_scope context_audit revision_at.

Definition apply_authorized_update_if_unmodified_with_metadata (id : MemoryId) (expected_revision : Z)
    (u : MemoryUpdate) (patch : option MetadataPatch) (context_ids : option (list ContextId))
    (embedding : option (list f64)) (profile : option EmbeddingProfile) (principal : string) (now : DateTime)
    (audit : AuditDraft) (context_audit : option ContextAuditDraft) : tx AuthorizedUpdateOutcome :=
  _ ← throw_if (is_some embedding && is_none (mu_content u))
        (StoreError.Conflict "a replacement embedding requires replacement content");
  _ ← when_some embedding (λ e, of_result (validate_embedding_vector e dimensions));
  _ ← throw_if (negb (Bool.eqb (is_some context_ids) (is_some context_audit)))
        (StoreError.Conflict "optimistic membership replacement requires a matching context audit");
  authorize id principal refused_update (λ existing,
    _ ← throw_if (negb (m_record_revision existing =? expected_revision))
          (StoreError.Conflict ("memory " +:+ ulid id +:+ " changed after it was opened"));
    _ ← (if is_none context_ids then validate_compatibility_cache_update id u patch else mret ());
    let revision_at := next_memory_revision now (m_updated_at existing) in
    outcome ← apply_update_inner id u revision_at;
    outcome ← match embedding with
              | None => mret outcome
              | Some e => _ ← write_embedding id e profile; mret (update_outcome (ao_outcome outcome) None)
              end;
    _ ← when_some patch (λ patch, upsert_merged_metadata id patch existing principal);
    _ ← (if (is_some patch || is_some context_ids) && negb (has_column_updates u) && is_none (mu_entities u)
         then increment_record_revision_conn id "saving" else mret ());
    _ ← when_some context_ids (λ context_ids,
          replace_governed_if_unmodified id context_ids principal context_audit revision_at);
    _ ← insert_audit_draft id (update_audit_draft_for_locked_memory audit u existing);
    mret outcome).

Definition apply_authorized_delete_if_unmodified (id : MemoryId) (expected_revision : Z) (principal : string)
    (deleted_at : DateTime) (audit : AuditDraft) : tx WriteOutcome.t :=
  authorize id principal (λ o, o) (λ existing,
    _ ← throw_if (negb (m_record_revision existing =? expected_revision))
          (StoreError.Conflict ("memory " +:+ ulid id +:+ " changed after it was opened"));
    _ ← insert_tombstone existing deleted_at (Some principal);
    affected ← delete_memory id;
    _ ← throw_if (negb affected) (StoreError.Conflict ("memory " +:+ ulid id +:+ " changed while deleting"));
    _ ← insert_audit_draft id audit;
    mret WriteOutcome.Applied).

Definition bulk_update_one (u : MemoryUpdate) (principal : string) (now : DateTime) (audit : option AuditDraft)
    (acc : BulkAuthOutcome) (id : MemoryId) : tx BulkAuthOutcome :=
  mem ← fetch_memory_by_id id;
  match mem with
  | None => mret acc
  | Some mem =>
      if negb (has_write_access mem principal)
      then mret {| bo_applied_ids := bo_applied_ids acc; bo_denied := saturating_add (bo_denied acc) 1 |}
      else
        _ ← validate_compatibility_cache_update id u None;
        outcome ← apply_update_inner id u (next_memory_revision now (m_updated_at mem));
        if bool_decide (ao_outcome outcome = WriteOutcome.Applied)
        then _ ← insert_optional_audit_draft id audit;
             mret {| bo_applied_ids := bo_applied_ids acc ++ [id]; bo_denied := bo_denied acc |}
        else mret acc
  end.
Definition bulk_update_ids (ids : list MemoryId) (u : MemoryUpdate) (principal : string) (now : DateTime)
    (audit : option AuditDraft) : tx BulkAuthOutcome :=
  if bool_decide (ids = []) then mret bulk_outcome_empty
  else tx_fold (tx_fold (bulk_update_one u principal now audit)) bulk_outcome_empty (chunks SQLITE_MAX_CHUNK ids).

(** *** Re-embedding claims *)

Definition list_for_reembed_impl (limit : Z) : tx (list (MemoryId * string * Z)) :=
  limit_i64 ← of_result (usize_to_i64 limit "reembed limit");
  reads (λ s,
    let rows := List.filter (λ p : MemoryId * MemoryRow, negb (r_has_embedding (snd p))) (map_to_list (st_memories s)) in
    let sorted := sort_by (then_with (cmp_on (λ p, r_created_at (snd p)) Z.compare) (cmp_on fst N.compare)) rows in
    map (λ p, (fst p, r_content (snd p), r_embedding_revision (snd p))) (truncate limit_i64 sorted)).

Definition lease_free (expired_before : DateTime) (r : MemoryRow) : bool :=
  match r_embedding_claimed_at r with None => true | Some t => t <=? expired_before end.

(** The authorization disjunction of the claim's SQL. *)
Definition claim_scope_sql (scope_principal : option string) (r : MemoryRow) : bool :=
  match scope_principal with
  | None => true
  | Some p =>
      bool_decide (source_agent (r_provenance r) = Some p)
      || match r_access_policy r with
         | AccessPolicy.Public => is_none (source_agent (r_provenance r))
         | AccessPolicy.Restricted allowed => any_eq p allowed
         | AccessPolicy.Redacted _ => false
         end
  end.

Definition claim_candidate (scope : ReembedClaimScope.t) (expired_before : DateTime) (p : MemoryId * MemoryRow) : bool :=
  negb (r_has_embedding (snd p)) && lease_free expired_before (snd p)
  && claim_scope_sql (ReembedClaimScope.principal scope) (snd p).
Definition cmp_oldest : MemoryId * MemoryRow → MemoryId * MemoryRow → comparison :=
  then_with (cmp_on (λ p, r_created_at (snd p)) Z.compare) (cmp_on fst N.compare).
Definition claim_candidates (scope : ReembedClaimScope.t) (expired_before : DateTime) (limit : Z)
    (t : gmap MemoryId MemoryRow) : list (MemoryId * MemoryRow) :=
  truncate limit (sort_by cmp_oldest (List.filter (claim_candidate scope expired_before) (map_to_list t))).

(** The UPDATE joins the frozen candidates; RETURNING yields the claimed rows
    (in an order SQL leaves open, here the candidates' order). *)
Definition claim_for_reembed_conn (scope : ReembedClaimScope.t) (limit : Z) (now expired_before : DateTime)
    (claim_token : string) : tx (list ReembedClaim) :=
  limit_i64 ← of_result (usize_to_i64 limit "reembed limit");
  candidates ← reads (λ s, claim_candidates scope expired_before limit_i64 (st_memories s));
  _ ← tx_fold (λ _ p,
        _ ← update_row (fst p) (λ r,
              if negb (r_has_embedding r) && (r_embedding_revision r =? r_embedding_revision (snd p))
                 && lease_free expired_before r
              then set_embedding_claim_token (Some claim_token) (set_embedding_claimed_at (Some now) r)
              else r);
        mret ()) () candidates;
  mret (map (λ p, {| rc_id := fst p; rc_content := r_content (snd p);
                     rc_embedding_revision := r_embedding_revision (snd p); rc_claim_token := claim_token |}) candidates).

(** One second is 10^9 nanoseconds. *)
Definition claim_for_reembed_with_scope_impl (scope : ReembedClaimScope.t) (limit : Z) (now : DateTime)
    (claim_token : string) : tx (list ReembedClaim) :=
  if limit =? 0 then mret []
  else
    let expired_before := default min_utc (checked_sub_signed now (EMBEDDING_CLAIM_LEASE_SECS * 1000000000)) in
    claim_for_reembed_conn scope limit now expired_before claim_token.

Definition release_embedding_claim_impl (id : MemoryId) (expected_revision : Z) (claim_token : string) : tx bool := λ s,
  match st_memories s !! id with
  | None => Ok (false, s)
  | Some r =>
      if negb (r_has_embedding r) && (r_embedding_revision r =? expected_revision)
         && bool_decide (r_embedding_claim_token r = Some claim_token)
      then Ok (true, on_memories (alter (λ r, set_embedding_claim_token None (set_embedding_claimed_at None r)) id) s)
      else Ok (false, s)
  end.

(** [set_embedding_impl] of store/admin.rs. *)
Definition set_embedding_impl (id : MemoryId) (embedding : list f64) (expected_revision : Z)
    (active_profile : option EmbeddingProfile) : tx unit :=
  _ ← of_result (validate_embedding_vector embedding dimensions);
  _ ← when_some active_profile ensure_embedding_profile_matches;
  current ← reads (λ s, r_embedding_revision <$> st_memories s !! id);
  match current with
  | None => throw (StoreError.NotFound ("memory not found: " +:+ ulid id))
  | Some current =>
      _ ← throw_if (negb (current =? expected_revision))
            (StoreError.Conflict ("embedding revision mismatch for " +:+ ulid id +:+ ": expected "
               +:+ pretty expected_revision +:+ ", current " +:+ pretty current));
      _ ← upsert_vector id embedding;
      affected ← update_row id (λ r, set_embedding_claim_token None (set_embedding_claimed_at None
                                        (set_has_embedding true r)));
      throw_if (negb affected)
        (StoreError.Conflict ("embedding revision changed while writing embedding for " +:+ ulid id))
  end.

(** *** Impressions and uses *)

Definition record_search_impression_impl (ids : list MemoryId) (now : DateTime) : tx unit :=
  if bool_decide (ids = []) then mret ()
  else tx_fold (λ _ id,
         _ ← update_row id (λ r, set_last_impressed_at (Some now) (set_impression_count (r_impression_count r + 1) r));
         mret ()) () ids.

Inductive RecordUseStatus := Recorded | UseDenied | UseNotFound.
Definition record_use_default : RecordUseOutcome :=
  {| ru_recorded_ids := []; ru_recorded := 0; ru_denied := 0; ru_not_found := 0 |}.
Definition accumulate_record_use_outcome (o : RecordUseOutcome) (id : MemoryId) (status : RecordUseStatus) : RecordUseOutcome :=
  match status with
  | Recorded => {| ru_recorded_ids := ru_recorded_ids o ++ [id]; ru_recorded := saturating_add (ru_recorded o) 1;
                   ru_denied := ru_denied o; ru_not_found := ru_not_found o |}
  | UseDenied => {| ru_recorded_ids := ru_recorded_ids o; ru_recorded := ru_recorded o;
                    ru_denied := saturating_add (ru_denied o) 1; ru_not_found := ru_not_found o |}
  | UseNotFound => {| ru_recorded_ids := ru_recorded_ids o; ru_recorded := ru_recorded o;
                      ru_denied := ru_denied o; ru_not_found := saturating_add (ru_not_found o) 1 |}
  end.

Variable exp2 : f64 → f64.

Definition used_mass (m : Memory) (now : DateTime) (event_weight half_life : f64) : f64 :=
  fadd (decay_mass exp2 (m_activity_mass m) (m_last_used_at m) now half_life) event_weight.

Definition update_single_memory_use (id : MemoryId) (principal : string) (now : DateTime)
    (event_weight half_life : f64) : tx RecordUseStatus :=
  memory ← fetch_memory_by_id id;
  match memory with
  | None => mret UseNotFound
  | Some memory =>
      if is_expired now memory || negb (bool_decide (check_access_level memory (Some principal) = AccessLevel.Full))
      then mret UseDenied
      else
        _ ← update_row id (λ r, set_last_used_at (Some now)
                                  (set_activity_mass (used_mass memory now event_weight half_life) r));
        mret Recorded
  end.

Definition record_memory_use_impl (ids : list MemoryId) (principal : string) (event_weight : f64) (now : DateTime)
    (half_life : f64) : tx RecordUseOutcome :=
  if bool_decide (ids = []) then mret record_use_default
  else tx_fold (λ acc id,
         status ← update_single_memory_use id principal now event_weight half_life;
         mret (accumulate_record_use_outcome acc id status)) record_use_default (dedup ids).

(** *** Supersession *)

Definition mark_superseded_by_impl (id superseded_by : MemoryId) : tx bool := mark_superseded id superseded_by.

Definition mark_superseded_by_authorized_audited_impl (id superseded_by : MemoryId) (principal : string)
    (audit : option AuditDraft) : tx WriteOutcome.t :=
  authorize id principal (λ o, o) (λ existing,
    marked ← mark_superseded id superseded_by;
    if marked : bool
    then _ ← insert_optional_audit_draft (m_id existing) audit; mret WriteOutcome.Applied
    else mret WriteOutcome.NotFound).

Definition consolidation_context_profile (id : MemoryId) : tx (list ContextId) := reads (λ s, memberships_of s id).

Definition mark_superseded_if_unchanged (member representative : ConsolidationSnapshot) (principal : string)
    (audit : AuditDraft) : tx WriteOutcome.t :=
  _ ← throw_if (cs_memory_id member =? cs_memory_id representative)%N
        (StoreError.Conflict "a consolidation representative cannot supersede itself");
  _ ← throw_if (negb (bool_decide (cs_context_ids member = cs_context_ids representative)))
        (StoreError.Conflict "consolidation candidates must have identical ordered context profiles");
  existing_member ← fetch_memory_by_id (cs_memory_id member);
  existing_representative ← fetch_memory_by_id (cs_memory_id representative);
  match existing_member, existing_representative with
  | Some existing_member, Some existing_representative =>
      if negb (has_write_access existing_member principal) then mret WriteOutcome.Denied
      else
        member_context_ids ← consolidation_context_profile (cs_memory_id member);
        representative_context_ids ← consolidation_context_profile (cs_memory_id representative);
        _ ← throw_if (negb (m_record_revision existing_member =? cs_record_revision member)
                      || negb (m_record_revision existing_representative =? cs_record_revision representative)
                      || negb (bool_decide (member_context_ids = cs_context_ids member))
                      || negb (bool_decide (representative_context_ids = cs_context_ids representative)))
              (StoreError.Conflict "consolidation candidates changed after discovery");
        marked ← mark_superseded (cs_memory_id member) (cs_memory_id representative);
        if marked : bool
        then _ ← insert_audit_draft (m_id existing_member) audit; mret WriteOutcome.Applied
        else mret WriteOutcome.NotFound
  | _, _ => mret WriteOutcome.NotFound
  end.

Definition get_for_reembed_impl (id : MemoryId) (principal : string) : tx (option (string * Z)) :=
  authorize id principal (λ _, None) (λ existing,
    revision ← select_embedding_revision id;
    mret (Some (m_content existing, revision))).
End operations.
