(* ===== verification/ContextAdmin.v ===== *)
(** * ContextAdmin: administration of governed contexts, the SQLite part of
    [src/src/store/context_store.rs]

    Creation with its exact and fuzzy duplicate checks, reparenting, lifecycle,
    grants, definition replacement, kinds and policies, and the replacement of
    a memory's memberships. Each function is one transaction over the tables
    of Store.v. *)
From Stdlib Require Import ZArith Lia.
From stdpp Require Import base list option strings gmap sets pretty.
From S2P Require Import Prelude Text Floats Lists Errors Types Validation Context StoreTypes Ranking Store Membership Crud.

(** ** Tables *)

Definition on_kinds f := on_registry (λ g, mkRegistry (f (reg_kinds g)) (reg_contexts g) (reg_grants g)
  (reg_aliases g) (reg_identities g) (reg_hints g) (reg_kind_policies g) (reg_anchor_policies g) (reg_relations g)).
Definition on_contexts f := on_registry (λ g, mkRegistry (reg_kinds g) (f (reg_contexts g)) (reg_grants g)
  (reg_aliases g) (reg_identities g) (reg_hints g) (reg_kind_policies g) (reg_anchor_policies g) (reg_relations g)).
Definition on_grants f := on_registry (λ g, mkRegistry (reg_kinds g) (reg_contexts g) (f (reg_grants g))
  (reg_aliases g) (reg_identities g) (reg_hints g) (reg_kind_policies g) (reg_anchor_policies g) (reg_relations g)).
Definition on_aliases f := on_registry (λ g, mkRegistry (reg_kinds g) (reg_contexts g) (reg_grants g)
  (f (reg_aliases g)) (reg_identities g) (reg_hints g) (reg_kind_policies g) (reg_anchor_policies g) (reg_relations g)).
Definition on_identities f := on_registry (λ g, mkRegistry (reg_kinds g) (reg_contexts g) (reg_grants g)
  (reg_aliases g) (f (reg_identities g)) (reg_hints g) (reg_kind_policies g) (reg_anchor_policies g) (reg_relations g)).
Definition on_hints f := on_registry (λ g, mkRegistry (reg_kinds g) (reg_contexts g) (reg_grants g) (reg_aliases g)
  (reg_identities g) (f (reg_hints g)) (reg_kind_policies g) (reg_anchor_policies g) (reg_relations g)).
Definition on_kind_policies f := on_registry (λ g, mkRegistry (reg_kinds g) (reg_contexts g) (reg_grants g)
  (reg_aliases g) (reg_identities g) (reg_hints g) (f (reg_kind_policies g)) (reg_anchor_policies g) (reg_relations g)).
Definition on_anchor_policies f := on_registry (λ g, mkRegistry (reg_kinds g) (reg_contexts g) (reg_grants g)
  (reg_aliases g) (reg_identities g) (reg_hints g) (reg_kind_policies g) (f (reg_anchor_policies g)) (reg_relations g)).
Definition on_relations f := on_registry (λ g, mkRegistry (reg_kinds g) (reg_contexts g) (reg_grants g)
  (reg_aliases g) (reg_identities g) (reg_hints g) (reg_kind_policies g) (reg_anchor_policies g) (f (reg_relations g))).

(** [DELETE … WHERE context_id = ?]. *)
Definition without_context {K V} `{Countable K} (id : ContextId) (m : gmap (ContextId * K) V) : gmap (ContextId * K) V :=
  filter (λ kv, fst (fst kv) ≠ id) m.

Definition set_parent (parent : option ContextId) (now : DateTime) (c : ContextDefinition) : ContextDefinition :=
  {| cd_id := cd_id c; cd_kind := cd_kind c; cd_key := cd_key c; cd_display_name := cd_display_name c;
     cd_description := cd_description c; cd_owner_principal := cd_owner_principal c; cd_guidance := cd_guidance c;
     cd_parent_id := parent; cd_lifecycle := cd_lifecycle c; cd_frozen := cd_frozen c;
     cd_created_at := cd_created_at c; cd_updated_at := now |}.
Definition set_lifecycle (l : ContextLifecycle.t) (now : DateTime) (c : ContextDefinition) : ContextDefinition :=
  {| cd_id := cd_id c; cd_kind := cd_kind c; cd_key := cd_key c; cd_display_name := cd_display_name c;
     cd_description := cd_description c; cd_owner_principal := cd_owner_principal c; cd_guidance := cd_guidance c;
     cd_parent_id := cd_parent_id c; cd_lifecycle := l; cd_frozen := cd_frozen c;
     cd_created_at := cd_created_at c; cd_updated_at := now |}.
Definition set_texts (display_name : string) (description guidance : option string) (now : DateTime)
    (c : ContextDefinition) : ContextDefinition :=
  {| cd_id := cd_id c; cd_kind := cd_kind c; cd_key := cd_key c; cd_display_name := display_name;
     cd_description := description; cd_owner_principal := cd_owner_principal c; cd_guidance := guidance;
     cd_parent_id := cd_parent_id c; cd_lifecycle := cd_lifecycle c; cd_frozen := cd_frozen c;
     cd_created_at := cd_created_at c; cd_updated_at := now |}.

(** [UPDATE contexts … WHERE id = ?], with whether a row changed. *)
Definition update_context (id : ContextId) (f : ContextDefinition → ContextDefinition) : tx bool := λ s,
  match reg_contexts (st_registry s) !! id with
  | None => Ok (false, s)
  | Some _ => Ok (true, on_contexts (alter f id) s)
  end.

Definition is_hex_digit (c : Ascii.ascii) : bool :=
  let n := byte_val (ascii_lower c) in ((48 <=? n) && (n <=? 57) || (97 <=? n) && (n <=? 102))%N.
(** [char::is_control] of a UTF-8 character: C0, DEL and C1. *)
Definition is_control (char : list Ascii.ascii) : bool :=
  match char with
  | [c] => (byte_val c <? 32)%N || (byte_val c =? 127)%N
  | [c; d] => (byte_val c =? 194)%N && (byte_val d <? 160)%N
  | _ => false
  end.
Definition namespace_column (i : ContextIdentity) : string := default "" (ci_namespace i).
Definition identity_key (i : ContextIdentity) : string * string * string :=
  (ci_scheme i, namespace_column i, ci_fingerprint i).

Definition some_context (reg : ContextRegistry) (p : ContextId → ContextDefinition → bool) : bool :=
  existsb (λ '(id, c), p id c) (map_to_list (reg_contexts reg)).
Definition same_kind (k : ContextKind.t) (c : ContextDefinition) : bool := bool_decide (cd_kind c = k).

Section admin.
Context `{Render, UnicodeCase}.

(** ** Validation *)

Definition validate_identity (i : ContextIdentity) : result StoreError.t unit :=
  _ ← bail_if (negb (known_scheme (ci_scheme i)))
        (StoreError.Conflict ("unsupported context identity scheme " +:+ debug_str (ci_scheme i)));
  let namespaced := String.eqb (ci_scheme i) "namespaced_id" in
  _ ← bail_if (namespaced && match ci_namespace i with Some n => str_is_empty n | None => true end)
        (StoreError.Conflict "namespaced_id requires a non-empty namespace");
  _ ← bail_if (negb namespaced && is_some (ci_namespace i))
        (StoreError.Conflict ("identity scheme " +:+ debug_str (ci_scheme i) +:+ " does not accept a namespace"));
  _ ← bail_if (negb (byte_len (ci_fingerprint i) =? 64) || negb (forallb is_hex_digit (bytes (ci_fingerprint i))))
        (StoreError.Conflict "context identity fingerprint must be a 64-character hexadecimal SHA-256 digest");
  bail_if (is_blank (ci_redacted_label i) || (MAX_CONTEXT_DISPLAY_NAME_LEN <? byte_len (ci_redacted_label i))
           || existsb is_control (chars_bytes (bytes (ci_redacted_label i))))
    (StoreError.Conflict "context identity redacted label cannot be blank").

Definition too_long (limit : Z) (o : option string) : bool :=
  match o with Some v => limit <? byte_len v | None => false end.

Definition validate_definition_patch_surfaces (p : ContextDefinitionPatch) : result StoreError.t unit :=
  _ ← bail_if (is_blank (cdp_display_name p) || (MAX_CONTEXT_DISPLAY_NAME_LEN <? byte_len (cdp_display_name p)))
        (StoreError.Conflict "context display name is blank or too long");
  _ ← bail_if (too_long MAX_CONTEXT_DESCRIPTION_LEN (cdp_description p) || too_long MAX_CONTEXT_DESCRIPTION_LEN (cdp_guidance p))
        (StoreError.Conflict "context description or guidance exceeds the supported length");
  _ ← bail_if ((MAX_CONTEXT_REFS <? len (cdp_aliases p)) || (MAX_CONTEXT_REFS <? len (cdp_identities p))
               || (MAX_CONTEXT_HINTS <? len (cdp_resolver_hints p)))
        (StoreError.Conflict "context aliases, identities, or hints exceed protocol limits");
  bail_if (existsb (λ v, MAX_CONTEXT_SURFACE_LEN <? byte_len v) (cdp_aliases p ++ cdp_resolver_hints p))
    (StoreError.Conflict "context alias or hint exceeds the supported length").

Fixpoint validate_draft_aliases (seen : gset string) (aliases : list (string * string)) : result StoreError.t unit :=
  match aliases with
  | [] => Ok ()
  | (alias, normalized) :: rest =>
      _ ← bail_if (is_blank alias || (MAX_CONTEXT_SURFACE_LEN <? byte_len alias)
                   || negb (String.eqb normalized (normalize_context_key alias)) || bool_decide (normalized ∈ seen))
            (StoreError.Conflict "context aliases must be non-empty, normalized, and unique");
      validate_draft_aliases ({[normalized]} ∪ seen) rest
  end.

Definition validate_create_draft (d : ContextCreateDraft) (audit : ContextAuditDraft) : result StoreError.t unit :=
  _ ← validate_audit_actor audit (ccd_owner_principal d);
  _ ← bail_if (is_blank (ccd_key d) || (MAX_CONTEXT_SURFACE_LEN <? byte_len (ccd_key d))
               || negb (String.eqb (ccd_normalized_key d) (normalize_context_key (ccd_key d))))
        (StoreError.Conflict "context key and normalized_key are inconsistent");
  _ ← bail_if (is_blank (ccd_display_name d) || (MAX_CONTEXT_DISPLAY_NAME_LEN <? byte_len (ccd_display_name d)))
        (StoreError.Conflict "context display name cannot be blank");
  _ ← bail_if (too_long MAX_CONTEXT_DESCRIPTION_LEN (ccd_description d) || too_long MAX_CONTEXT_DESCRIPTION_LEN (ccd_guidance d))
        (StoreError.Conflict "context description or guidance exceeds the supported length");
  _ ← bail_if (is_blank (ccd_owner_principal d)) (StoreError.Conflict "context owner principal cannot be blank");
  _ ← bail_if (ccd_frozen d && negb (String.eqb (ccd_owner_principal d) LEGACY_SYSTEM_PRINCIPAL))
        (StoreError.Conflict "only the legacy system principal may create frozen compatibility contexts");
  _ ← bail_if (bool_decide (ccd_parent_id d = Some (ccd_id d))) (StoreError.Conflict "a context cannot be its own parent");
  _ ← bail_if ((MAX_CONTEXT_REFS <? len (ccd_aliases d)) || (MAX_CONTEXT_HINTS <? len (ccd_resolver_hints d))
               || (MAX_CONTEXT_CONFIRMATIONS <? len (ccd_confirm_distinct_from d)))
        (StoreError.Conflict "context aliases, hints, or confirmations exceed protocol limits");
  _ ← validate_draft_aliases ∅ (ccd_aliases d);
  _ ← bail_if (existsb (λ hint, is_blank hint || (MAX_CONTEXT_SURFACE_LEN <? byte_len hint)) (ccd_resolver_hints d))
        (StoreError.Conflict "context resolver hints must be non-empty and bounded");
  try_for_each validate_identity (ccd_identities d).

(** [Vec::dedup_by_key] on the first component. *)
Fixpoint dedup_by_id {A} (l : list (ContextId * A)) : list (ContextId * A) :=
  match l with
  | x :: l' => match dedup_by_id l' with
               | y :: r => if bool_decide (fst x = fst y) then x :: r else x :: y :: r
               | [] => [x]
               end
  | [] => []
  end.
Fixpoint dedup_adjacent (l : list ContextId) : list ContextId :=
  match l with
  | x :: ((y :: _) as l') => if bool_decide (x = y) then dedup_adjacent l' else x :: dedup_adjacent l'
  | _ => l
  end.

Definition f_0_72 : f64 := f64_lit 72 100.
(** Similar contexts, best first. *)
Definition fuzzy_candidates (d : ContextCreateDraft) (existing : list (ContextId * string * string * list string)) :
    list ContextId :=
  let similarity := similarity_query_new (ccd_key d +:+ " " +:+ ccd_display_name d) in
  let current := omap (λ '(id, key, display_name, aliases),
    let is_exact := String.eqb (normalize_context_key key) (ccd_normalized_key d) in
    let score := similarity_score similarity key display_name aliases in
    if negb is_exact && fleb f_0_72 score then Some (id, (key, score)) else None) existing in
  let sorted := sort_by (then_with (cmp_desc (cmp_on (λ x, snd (snd x)) total_cmp))
                  (then_with (cmp_on (λ x, fst (snd x)) String.compare) (cmp_on fst N.compare))) current in
  map fst (truncate MAX_CONTEXT_CONFIRMATIONS (dedup_by_id sorted)).

Definition validate_fuzzy_confirmation (d : ContextCreateDraft)
    (existing : list (ContextId * string * string * list string)) : result StoreError.t unit :=
  if negb (ccd_enforce_fuzzy_confirmation d) then Ok ()
  else
    bail_if (negb (bool_decide (sort_by N.compare (fuzzy_candidates d existing)
                                = dedup_adjacent (sort_by N.compare (ccd_confirm_distinct_from d)))))
      (StoreError.Conflict "fuzzy context candidates changed; resolve candidates and submit a fresh confirm_distinct_from set").

(** ** Creation *)

Definition aliases_of (reg : ContextRegistry) (id : ContextId) : list string :=
  map snd (sort_by (cmp_on fst String.compare)
    (omap (λ '((c, normalized), alias), if bool_decide (c = id) then Some (normalized, alias) else None)
       (map_to_list (reg_aliases reg)))).

(** An exact key, alias or identity of the same kind that the owner sees. *)
Definition exact_key_or_alias (reg : ContextRegistry) (d : ContextCreateDraft) : bool :=
  some_context reg (λ id c, same_kind (ccd_kind d) c && context_visible reg id c (ccd_owner_principal d)
    && (String.eqb (normalize_context_key (cd_key c)) (ccd_normalized_key d)
        || is_some (reg_aliases reg !! (id, ccd_normalized_key d)))).
Definition exact_identity (reg : ContextRegistry) (d : ContextCreateDraft) (i : ContextIdentity) : bool :=
  some_context reg (λ id c, same_kind (ccd_kind d) c && context_visible reg id c (ccd_owner_principal d)
    && is_some (reg_identities reg !! (id, identity_key i))).
Definition existing_contexts (reg : ContextRegistry) (d : ContextCreateDraft) :
    list (ContextId * string * string * list string) :=
  omap (λ '(id, c),
    if same_kind (ccd_kind d) c && bool_decide (cd_lifecycle c = ContextLifecycle.Active)
       && context_visible reg id c (ccd_owner_principal d)
    then Some (id, cd_key c, cd_display_name c, aliases_of reg id) else None) (map_to_list (reg_contexts reg)).
Definition same_owner_key (owner : string) (kind : ContextKind.t) (normalized_key : string) (c : ContextDefinition) : bool :=
  String.eqb (cd_owner_principal c) owner && same_kind kind c
  && String.eqb (normalize_context_key (cd_key c)) normalized_key.
Definition duplicate_context (reg : ContextRegistry) (d : ContextCreateDraft) : bool :=
  some_context reg (λ id c, bool_decide (id = ccd_id d)
    || same_owner_key (ccd_owner_principal d) (ccd_kind d) (ccd_normalized_key d) c).

(** The INSERT statements, with the constraints of their tables. *)
Definition constraint (ok : ContextRegistry → bool) (table : string) : tx unit := λ s,
  if ok (st_registry s) then Ok ((), s) else Err (StoreError.Database ("constraint failed: " +:+ table)).
Definition context_constraints (c : ContextDefinition) (reg : ContextRegistry) : bool :=
  is_none (reg_contexts reg !! cd_id c) && is_some (reg_kinds reg !! ContextKind.as_str (cd_kind c))
  && match cd_parent_id c with Some p => is_some (reg_contexts reg !! p) && bool_decide (p ≠ cd_id c) | None => true end
  && negb (some_context reg (λ _, same_owner_key (cd_owner_principal c) (cd_kind c) (normalize_context_key (cd_key c)))).
Definition insert_context (c : ContextDefinition) : tx unit :=
  _ ← constraint (context_constraints c) "contexts"; writes (on_contexts <[cd_id c := c]>).
(** The foreign key of the tables about a context. *)
Definition context_exists (id : ContextId) (reg : ContextRegistry) : bool := is_some (reg_contexts reg !! id).
Definition insert_alias (id : ContextId) (a : string * string) : tx unit :=
  _ ← constraint (λ reg, context_exists id reg && is_none (reg_aliases reg !! (id, snd a))) "context_aliases";
  writes (on_aliases <[(id, snd a) := fst a]>).
(** An identity belongs to one context of an owner and kind. *)
Definition insert_identity (id : ContextId) (owner : string) (kind : ContextKind.t) (i : ContextIdentity) : tx unit :=
  _ ← constraint (λ reg, context_exists id reg
        && negb (some_context reg (λ other c, String.eqb (cd_owner_principal c) owner && same_kind kind c
                                              && is_some (reg_identities reg !! (other, identity_key i)))))
        "context_identities";
  writes (on_identities <[(id, identity_key i) := ci_redacted_label i]>).
Definition insert_hint (id : ContextId) (h : string * string) : tx unit :=
  _ ← constraint (λ reg, context_exists id reg && is_none (reg_hints reg !! (id, snd h))) "context_resolver_hints";
  writes (on_hints <[(id, snd h) := fst h]>).

(** The hints with a new non-empty normal form. *)
Fixpoint new_hints (seen : gset string) (hints : list string) : list (string * string) :=
  match hints with
  | [] => []
  | hint :: rest =>
      let normalized := normalize_context_key hint in
      if str_is_empty normalized || bool_decide (normalized ∈ seen) then new_hints seen rest
      else (hint, normalized) :: new_hints ({[normalized]} ∪ seen) rest
  end.

Definition created_context (d : ContextCreateDraft) (now : DateTime) : ContextDefinition :=
  {| cd_id := ccd_id d; cd_kind := ccd_kind d; cd_key := ccd_key d; cd_display_name := ccd_display_name d;
     cd_description := ccd_description d; cd_owner_principal := ccd_owner_principal d; cd_guidance := ccd_guidance d;
     cd_parent_id := ccd_parent_id d; cd_lifecycle := ContextLifecycle.Active; cd_frozen := ccd_frozen d;
     cd_created_at := now; cd_updated_at := now |}.

Definition parent_unavailable (parent : ContextId) : StoreError.t :=
  StoreError.Conflict ("parent context " +:+ ulid parent +:+ " is unavailable, archived, or not granted").

Definition create_context_conn (d : ContextCreateDraft) (audit : ContextAuditDraft) (now : DateTime) : tx ContextDefinition :=
  _ ← of_result (validate_create_draft d audit);
  let kind := ContextKind.as_str (ccd_kind d) in
  kind_row ← reads (λ s, reg_kinds (st_registry s) !! kind);
  enabled ← match kind_row with
            | Some k => mret (ckd_enabled k)
            | None => throw (StoreError.Conflict ("unknown context kind " +:+ debug_str kind))
            end;
  _ ← throw_if (negb enabled) (StoreError.Conflict ("context kind " +:+ debug_str kind +:+ " is disabled"));
  _ ← when_some (ccd_parent_id d) (λ parent,
        ok ← context_use_allowed parent (ccd_owner_principal d) true; throw_if (negb ok) (parent_unavailable parent));
  exact ← reads (λ s, exact_key_or_alias (st_registry s) d || existsb (exact_identity (st_registry s) d) (ccd_identities d));
  _ ← throw_if exact (StoreError.Conflict "exact visible context key, alias, or identity already exists");
  existing ← reads (λ s, existing_contexts (st_registry s) d);
  _ ← of_result (validate_fuzzy_confirmation d existing);
  duplicate ← reads (λ s, duplicate_context (st_registry s) d);
  _ ← throw_if duplicate (StoreError.Conflict "context ID or owner/kind/key already exists");
  let c := created_context d now in
  _ ← insert_context c;
  _ ← tx_fold (λ _, insert_alias (ccd_id d)) () (ccd_aliases d);
  _ ← tx_fold (λ _, insert_identity (ccd_id d) (ccd_owner_principal d) (ccd_kind d)) () (ccd_identities d);
  _ ← tx_fold (λ _, insert_hint (ccd_id d)) () (new_hints ∅ (ccd_resolver_hints d));
  _ ← insert_context_audit audit (Some (ccd_id d)) None now;
  mret c.

(** ** Changes *)

(** The ids of the contexts on the parent chain: the recursive query with
    UNION stops at an id it has seen. Every turn sees a new row, so one more
    turn than there are rows is enough. *)
Fixpoint chain (fuel : nat) (contexts : gmap ContextId ContextDefinition) (seen : gset ContextId)
    (cursor : option ContextId) : gset ContextId :=
  match fuel, cursor with
  | S fuel', Some id =>
      if bool_decide (id ∈ seen) then seen
      else match contexts !! id with
           | None => seen
           | Some c => chain fuel' contexts ({[id]} ∪ seen) (cd_parent_id c)
           end
  | _, _ => seen
  end.
Definition ancestors_or_self (reg : ContextRegistry) (id : ContextId) : gset ContextId :=
  chain (S (size (reg_contexts reg))) (reg_contexts reg) ∅ (Some id).

Definition changed_during (context_id : ContextId) (what : string) : StoreError.t :=
  StoreError.Conflict ("context " +:+ ulid context_id +:+ " changed during " +:+ what +:+ " update").

Definition set_context_parent_conn (context_id : ContextId) (parent_id : option ContextId) (principal : string)
    (audit : ContextAuditDraft) (now : DateTime) : tx unit :=
  _ ← of_result (validate_audit_actor audit principal);
  _ ← require_mutable_owned_context context_id principal;
  _ ← throw_if (bool_decide (parent_id = Some context_id)) (StoreError.Conflict "a context cannot be its own parent");
  _ ← when_some parent_id (λ parent,
        ok ← context_use_allowed parent principal true;
        _ ← throw_if (negb ok) (parent_unavailable parent);
        cycle ← reads (λ s, bool_decide (context_id ∈ ancestors_or_self (st_registry s) parent));
        throw_if cycle (StoreError.Conflict ("setting context " +:+ ulid context_id +:+ " parent to " +:+ ulid parent
                                             +:+ " would create a hierarchy cycle")));
  changed ← update_context context_id (set_parent parent_id now);
  _ ← throw_if (negb changed) (changed_during context_id "parent");
  insert_context_audit audit (Some context_id) None now.

Definition set_context_lifecycle_conn (context_id : ContextId) (lifecycle : ContextLifecycle.t) (principal : string)
    (audit : ContextAuditDraft) (now : DateTime) : tx unit :=
  _ ← of_result (validate_audit_actor audit principal);
  _ ← require_mutable_owned_context context_id principal;
  changed ← update_context context_id (set_lifecycle lifecycle now);
  _ ← throw_if (negb changed) (changed_during context_id "lifecycle");
  insert_context_audit audit (Some context_id) None now.

Definition granted (context_id : ContextId) (principal : string) (now : DateTime) (grantee : string) : ContextGrant :=
  {| cg_context_id := context_id; cg_grantee_principal := grantee; cg_granted_by := principal; cg_created_at := now |}.

Definition grant_context_use_conn (context_id : ContextId) (grantee_principal principal : string)
    (audit : ContextAuditDraft) (now : DateTime) : tx unit :=
  _ ← of_result (validate_audit_actor audit principal);
  grantee ← of_result (normalize_explicit_grantee grantee_principal);
  _ ← require_mutable_owned_context context_id principal;
  _ ← constraint (context_exists context_id) "context_grants";
  _ ← writes (on_grants <[(context_id, grantee) := granted context_id principal now grantee]>);
  insert_context_audit audit (Some context_id) None now.

Definition revoke_context_use (context_id : ContextId) (grantee_principal principal : string)
    (audit : ContextAuditDraft) (now : DateTime) : tx unit :=
  _ ← of_result (validate_audit_actor audit principal);
  grantee ← of_result (normalize_explicit_grantee grantee_principal);
  _ ← require_mutable_owned_context context_id principal;
  _ ← writes (on_grants (delete (context_id, grantee)));
  insert_context_audit audit (Some context_id) None now.

Definition insert_grant (context_id : ContextId) (principal : string) (now : DateTime) (grantee : string) : tx unit :=
  _ ← constraint (λ reg, context_exists context_id reg && is_none (reg_grants reg !! (context_id, grantee))) "context_grants";
  writes (on_grants <[(context_id, grantee) := granted context_id principal now grantee]>).

Definition replace_context_grants (context_id : ContextId) (grantee_principals : list string) (principal : string)
    (audit : ContextAuditDraft) (now : DateTime) : tx unit :=
  grantees ← of_result (normalize_explicit_grantees grantee_principals);
  _ ← of_result (validate_audit_actor audit principal);
  _ ← require_mutable_owned_context context_id principal;
  _ ← writes (on_grants (without_context context_id));
  _ ← tx_fold (λ _, insert_grant context_id principal now) () grantees;
  insert_context_audit audit (Some context_id) None now.

(** The aliases and hints of a patch with their normal forms; both texts
    must be non-empty and the normal forms distinct. *)
Fixpoint normalize_surfaces (error : string) (seen : gset string) (texts : list string) :
    result StoreError.t (list (string * string)) :=
  match texts with
  | [] => Ok []
  | text :: rest =>
      let text := trim text in
      let normalized := normalize_context_key text in
      if str_is_empty text || str_is_empty normalized || bool_decide (normalized ∈ seen)
      then Err (StoreError.Conflict error)
      else l ← normalize_surfaces error ({[normalized]} ∪ seen) rest; Ok ((text, normalized) :: l)
  end.
Fixpoint validate_patch_identities (seen : gset (string * option string * string)) (l : list ContextIdentity) :
    result StoreError.t unit :=
  match l with
  | [] => Ok ()
  | i :: rest =>
      _ ← validate_identity i;
      let key := (ci_scheme i, ci_namespace i, ci_fingerprint i) in
      _ ← bail_if (bool_decide (key ∈ seen)) (StoreError.Conflict "context identities must be unique");
      validate_patch_identities ({[key]} ∪ seen) rest
  end.

Definition update_context_definition (context_id : ContextId) (p : ContextDefinitionPatch) (principal : string)
    (audit : ContextAuditDraft) (now : DateTime) : tx unit :=
  _ ← of_result (validate_audit_actor audit principal);
  _ ← of_result (validate_definition_patch_surfaces p);
  let display_name := trim (cdp_display_name p) in
  aliases ← of_result (normalize_surfaces "context aliases must be non-empty and unique after normalization" ∅ (cdp_aliases p));
  _ ← of_result (validate_patch_identities ∅ (cdp_identities p));
  hints ← of_result (normalize_surfaces "context resolver hints must be non-empty and unique after normalization" ∅
                       (cdp_resolver_hints p));
  _ ← require_mutable_owned_context context_id principal;
  row ← reads (λ s, reg_contexts (st_registry s) !! context_id);
  '(owner, kind) ← match row with
                   | Some c => mret (cd_owner_principal c, cd_kind c)
                   | None => throw (StoreError.Database "Query returned no rows")
                   end;
  _ ← update_context context_id
        (set_texts display_name (trimmed_non_empty (cdp_description p)) (trimmed_non_empty (cdp_guidance p)) now);
  _ ← writes (on_aliases (without_context context_id));
  _ ← tx_fold (λ _, insert_alias context_id) () aliases;
  _ ← writes (on_identities (without_context context_id));
  _ ← tx_fold (λ _, insert_identity context_id owner kind) () (cdp_identities p);
  _ ← writes (on_hints (without_context context_id));
  _ ← tx_fold (λ _, insert_hint context_id) () hints;
  insert_context_audit audit (Some context_id) None now.

(** ** Kinds and policies *)

Definition require_operator (what principal : string) : tx unit :=
  throw_if (negb (String.eqb principal OPERATOR_PRINCIPAL))
    (StoreError.Conflict (what +:+ " requires principal " +:+ debug_str OPERATOR_PRINCIPAL)).

(** An upsert keeps what the conflict clause does not name. *)
Definition upsert_kind (d : ContextKindDraft) (display_name : string) (now : DateTime)
    (old : option ContextKindDefinition) : ContextKindDefinition :=
  {| ckd_kind := ckf_kind d; ckd_display_name := display_name;
     ckd_builtin := match old with Some k => ckd_builtin k | None => false end; ckd_enabled := ckf_enabled d;
     ckd_created_at := match old with Some k => ckd_created_at k | None => now end; ckd_updated_at := now |}.
Definition upsert_context_kind (d : ContextKindDraft) (principal : string) (audit : ContextAuditDraft)
    (now : DateTime) : tx unit :=
  _ ← of_result (validate_audit_actor audit principal);
  _ ← require_operator "context kind mutation" principal;
  let display_name := trim (ckf_display_name d) in
  _ ← throw_if (str_is_empty display_name) (StoreError.Conflict "context kind display name cannot be blank");
  _ ← writes (on_kinds (partial_alter (λ old, Some (upsert_kind d display_name now old)) (ContextKind.as_str (ckf_kind d))));
  insert_context_audit audit None None now.

Definition validate_policy_default_sqlite (kind : ContextKind.t) (policy : ContextKindPolicy) (principal : string) : tx unit :=
  kind_row ← reads (λ s, reg_kinds (st_registry s) !! ContextKind.as_str kind);
  _ ← throw_if (is_none kind_row) (StoreError.Conflict ("unknown context kind " +:+ debug_str (ContextKind.as_str kind)));
  when_some (kp_default_context_id policy) (λ default_id,
    default_kind ← reads (λ s,
      c ← reg_contexts (st_registry s) !! default_id;
      if bool_decide (cd_lifecycle c = ContextLifecycle.Active) then Some (cd_kind c) else None);
    _ ← throw_if (negb (bool_decide (default_kind = Some kind)))
          (StoreError.Conflict "policy default_context_id must reference an active context of the same kind");
    if str_is_empty principal then mret ()
    else ok ← context_use_allowed default_id principal true;
         throw_if (negb ok)
           (StoreError.Conflict "principal policy default_context_id is not authorized for that principal")).

Definition policy_error (r : checked unit) : result StoreError.t unit := map_err StoreError.Conflict r.

Definition stored_policy_principal (d : ContextKindPolicyDraft) (principal : string) : tx string :=
  match kpd_layer d with
  | ContextPolicyLayer.Operator =>
      _ ← throw_if (negb (str_is_empty (kpd_principal d))) (StoreError.Conflict "operator policy principal must be empty");
      _ ← require_operator "operator policy mutation" principal;
      mret ""
  | ContextPolicyLayer.Principal =>
      _ ← throw_if (negb (String.eqb (kpd_principal d) principal))
            (StoreError.Conflict "a principal policy may only customize its own principal");
      mret principal
  end.
Definition upsert_context_kind_policy (d : ContextKindPolicyDraft) (principal : string) (audit : ContextAuditDraft)
    (now : DateTime) : tx unit :=
  _ ← of_result (validate_audit_actor audit principal);
  _ ← of_result (policy_error (context_kind_policy_validate (kpd_policy d)));
  stored ← stored_policy_principal d principal;
  _ ← validate_policy_default_sqlite (kpd_kind d) (kpd_policy d) stored;
  _ ← writes (on_kind_policies
        <[(ContextPolicyLayer.to_string (kpd_layer d), stored, ContextKind.as_str (kpd_kind d)) := (kpd_policy d, now)]>);
  insert_context_audit audit None None now.

Definition validate_anchor_kind (principal : string) (kv : string * ContextKindPolicy) : tx unit :=
  kind ← of_result (map_err StoreError.Serialization (ContextKind.new (fst kv)));
  validate_policy_default_sqlite kind (snd kv) principal.
Definition upsert_context_anchor_policy (d : ContextAnchorPolicyDraft) (principal : string)
    (audit : ContextAuditDraft) (now : DateTime) : tx unit :=
  _ ← of_result (validate_audit_actor audit principal);
  _ ← throw_if (negb (String.eqb (apd_principal d) principal))
        (StoreError.Conflict "an anchor policy may only customize its own principal");
  _ ← of_result (policy_error (context_anchor_policy_validate (apd_policy d)));
  ok ← context_use_allowed (apd_anchor_context_id d) principal true;
  _ ← throw_if (negb ok) (StoreError.Conflict "anchor context is unavailable, archived, or not granted");
  _ ← tx_fold (λ _, validate_anchor_kind principal) () (ap_kinds (apd_policy d));
  _ ← constraint (context_exists (apd_anchor_context_id d)) "context_anchor_overrides";
  _ ← writes (on_anchor_policies <[(apd_anchor_context_id d, principal) := (apd_policy d, now)]>);
  insert_context_audit audit (Some (apd_anchor_context_id d)) None now.

(** ** The memberships of a memory *)

Definition rewrite_memberships (memory_id : MemoryId) (context_ids : list ContextId) : tx unit :=
  _ ← writes (on_memberships (delete memory_id));
  tx_fold (λ _, insert_membership memory_id) () (imap pair context_ids).
Definition rewrite_scope (memory_id : MemoryId) (primary_key : string) : tx unit :=
  _ ← writes (on_metadata (alter (set_scope_key primary_key) memory_id));
  _ ← update_row memory_id (λ r, set_record_revision (r_record_revision r + 1)
        (set_provenance (set_source_conversation primary_key (r_provenance r)) r));
  mret ().

Definition replace_memory_contexts_conn (memory_id : MemoryId) (context_ids : list ContextId) (principal : string)
    (audit : ContextAuditDraft) (now : DateTime) : tx WriteOutcome.t :=
  _ ← of_result (validate_audit_actor audit principal);
  _ ← throw_if (has_duplicates context_ids) (StoreError.Conflict "memory context memberships must be unique");
  memory ← fetch_memory_by_id memory_id;
  match memory with
  | None => mret WriteOutcome.NotFound
  | Some m =>
      if negb (write_access_allowed (m_provenance m) (m_access_policy m) principal) then mret WriteOutcome.Denied
      else
        preserved ← reads (λ s, list_to_set (memberships_of s memory_id) : gset ContextId);
        _ ← tx_fold (λ _, require_usable preserved principal) () context_ids;
        _ ← rewrite_memberships memory_id context_ids;
        primary_key ← primary_scope context_ids;
        _ ← rewrite_scope memory_id primary_key;
        _ ← insert_context_audit audit None (Some memory_id) now;
        mret WriteOutcome.Applied
  end.
End admin.
