(* ===== verification/Admin.v ===== *)
(** * Admin: maintenance of the memory tables, [src/src/store/admin.rs]

    Eviction of expired memories, the metadata upsert and backfill, and the
    reassignment of memories to another legacy scope, which may create the
    private context of that scope. Each is one transaction over the tables of
    Store.v. [fresh] is the id a call of [ContextId::new] returns. *)
From Stdlib Require Import ZArith Lia.
From stdpp Require Import base list option strings gmap sets pretty.
From S2P Require Import Prelude Text Floats Lists Errors Types Validation Context StoreTypes Ranking Store Membership Crud ContextAdmin.

Section admin.
Context `{Render, UnicodeCase}.

(** ** Eviction *)

(** The condition on authorization of the query; [None] is the operator's
    cleanup of everything. *)
Definition expiry_authorized_sql (principal : option string) (r : MemoryRow) : bool :=
  match principal with
  | None => true
  | Some p =>
      bool_decide (source_agent (r_provenance r) = Some p)
      || match r_access_policy r with
         | AccessPolicy.Public => is_none (source_agent (r_provenance r))
         | AccessPolicy.Restricted allowed => existsb (String.eqb p) allowed
         | AccessPolicy.Redacted _ => false
         end
  end.
Definition expired_row (now : DateTime) (principal : option string) (p : MemoryId * MemoryRow) : bool :=
  match r_expires_at (snd p) with
  | Some at_ => (at_ <=? now) && expiry_authorized_sql principal (snd p)
  | None => false
  end.
Definition cmp_expiry : MemoryId * MemoryRow → MemoryId * MemoryRow → comparison :=
  then_with (cmp_on (λ p, default 0 (r_expires_at (snd p))) Z.compare) (cmp_on fst N.compare).
Definition envelope_of_row (p : MemoryId * MemoryRow) : MemoryAuthorizationEnvelope :=
  {| env_id := fst p; env_provenance := r_provenance (snd p); env_access_policy := r_access_policy (snd p) |}.

Definition evict_one (scope : ExpiredCleanupScope.t) (now : DateTime) (audit : AuditDraft) (deleted : Z)
    (memory : MemoryAuthorizationEnvelope) : tx Z :=
  if match ExpiredCleanupScope.authorization_principal scope with
     | Some p => negb (envelope_has_write_access memory p)
     | None => false
     end
  then mret deleted
  else
    _ ← insert_authorization_tombstone memory now (Some (ExpiredCleanupScope.actor scope));
    affected ← delete_memory (env_id memory);
    if affected : bool
    then _ ← insert_audit_draft (env_id memory) audit; mret (saturating_add deleted 1)
    else mret deleted.
Definition evict_expired_conn (now : DateTime) (scope : ExpiredCleanupScope.t) (audit : AuditDraft) : tx Z :=
  expired ← reads (λ s, map envelope_of_row (sort_by cmp_expiry
              (List.filter (expired_row now (ExpiredCleanupScope.authorization_principal scope)) (map_to_list (st_memories s)))));
  tx_fold (evict_one scope now audit) 0 expired.
Definition evict_expired_impl (principal : string) (audit : AuditDraft) (now : DateTime) : tx Z :=
  evict_expired_conn now (ExpiredCleanupScope.Authorized principal) audit.
Definition evict_expired_all_impl (principal : string) (audit : AuditDraft) (now : DateTime) : tx Z :=
  evict_expired_conn now (ExpiredCleanupScope.All principal) audit.

(** ** Metadata *)

Definition upsert_metadata_audited_impl (metadata : MemoryMetadata) (audit : option AuditDraft) : tx unit :=
  let id := md_memory_id metadata in
  existing ← fetch_memory_by_id id;
  existing ← of_result (ok_or (StoreError.NotFound ("memory not found: " +:+ ulid id)) existing);
  expected_scope ← compatibility_scope_key id;
  _ ← throw_if (negb (bool_decide (md_scope_key metadata = Some expected_scope))
                || negb (bool_decide (source_conversation (m_provenance existing) = Some expected_scope)))
        (StoreError.Conflict "metadata and provenance compatibility scopes must match the memory's primary governed context; replace governed memberships instead");
  _ ← upsert_metadata_conn metadata;
  _ ← increment_record_revision_conn id "updating metadata";
  insert_optional_audit_draft id audit.

Definition get_metadata_batch_impl (ids : list MemoryId) : tx (gmap MemoryId MemoryMetadata) :=
  if bool_decide (ids = []) then mret ∅
  else reads (λ s, map_imap (λ id m, if bool_decide (id ∈ ids) then Some (with_memory_id id m) else None) (st_metadata s)).

(** *** Backfill of missing metadata *)

Record MigrationCandidate := {
  mc_id : MemoryId;
  mc_content : string;
  mc_source_agent : option string;
  mc_primary_context_key : option string;
}.
Record PreparedMigrationMetadata := {
  pg_id : MemoryId;
  pg_scope_key : string;
  pg_agent_label : option string;
  pg_unresolved_scope : bool;
  pg_oversized : bool;
  pg_code_derived : bool;
}.
Record MetadataMigrationOutcome := {
  mo_candidate_count : Z;
  mo_skipped_existing : Z;
  mo_migrated : Z;
  mo_unresolved_scope : Z;
  mo_missing_summary : Z;
  mo_oversized : Z;
  mo_code_derived : Z;
}.
Definition LARGE_CONTENT_WARNING_THRESHOLD_BYTES : Z := 4000.

Definition migration_candidate (s : Store) (p : MemoryId * MemoryRow) : MigrationCandidate :=
  {| mc_id := fst p; mc_content := r_content (snd p); mc_source_agent := source_agent (r_provenance (snd p));
     mc_primary_context_key := i ← head (memberships_of s (fst p)); cd_key <$> reg_contexts (st_registry s) !! i |}.
Definition load_metadata_migration_candidates (s : Store) : list MigrationCandidate :=
  map (migration_candidate s)
    (sort_by cmp_oldest (List.filter (λ p, is_none (st_metadata s !! fst p)) (map_to_list (st_memories s)))).

(** [str::lines]: the parts between line feeds without a final empty one,
    each without a final carriage return. *)
Definition strip_carriage_return (l : list Ascii.ascii) : list Ascii.ascii :=
  match rev l with c :: l' => if Ascii.eqb c (byte 13) then rev l' else l | [] => l end.
Definition lines (s : string) : list (list Ascii.ascii) :=
  let parts := split_bytes (byte 10) (bytes s) [] in
  map strip_carriage_return (match rev parts with [] :: earlier => rev earlier | _ => parts end).
Definition looks_code_derived (content : string) : bool :=
  str_contains content "```"
  || existsb (λ line, starts_with (bytes "fn ") (trim_start_bytes line) || starts_with (bytes "impl ") (trim_start_bytes line))
       (take 20 (lines content)).
Definition prepare_metadata_migration_metadata (c : MigrationCandidate) : PreparedMigrationMetadata :=
  let scope_key := default UNRESOLVED_CONTEXT_KEY (mc_primary_context_key c) in
  {| pg_id := mc_id c; pg_scope_key := scope_key; pg_agent_label := mc_source_agent c;
     pg_unresolved_scope := String.eqb scope_key UNRESOLVED_CONTEXT_KEY;
     pg_oversized := LARGE_CONTENT_WARNING_THRESHOLD_BYTES <? byte_len (mc_content c);
     pg_code_derived := looks_code_derived (mc_content c) |}.
Definition count_prepared_rows (rows : list PreparedMigrationMetadata) (predicate : PreparedMigrationMetadata → bool) : Z :=
  Z.min (len (List.filter predicate rows)) u64_max.
Definition metadata_migration_outcome (candidate_count skipped_existing : Z) (rows : list PreparedMigrationMetadata) : MetadataMigrationOutcome :=
  {| mo_candidate_count := candidate_count; mo_skipped_existing := skipped_existing; mo_migrated := 0;
     mo_unresolved_scope := count_prepared_rows rows pg_unresolved_scope; mo_missing_summary := candidate_count;
     mo_oversized := count_prepared_rows rows pg_oversized; mo_code_derived := count_prepared_rows rows pg_code_derived |}.
Definition prepare_metadata_migration (s : Store) : list PreparedMigrationMetadata * MetadataMigrationOutcome :=
  let candidates := load_metadata_migration_candidates s in
  let rows := map prepare_metadata_migration_metadata candidates in
  (rows, metadata_migration_outcome (len candidates) (Z.of_nat (size (st_metadata s))) rows).
Definition migration_quality_flags (unresolved_scope oversized code_derived : bool) : list string :=
  ["missing_summary"] ++ (if unresolved_scope then ["missing_scope"] else [])
  ++ (if oversized then ["oversized_content"] else []) ++ (if code_derived then ["possible_code_dump"] else []).

Definition migrated_metadata (row : PreparedMigrationMetadata) : MemoryMetadata :=
  {| md_memory_id := pg_id row; md_scope_key := Some (pg_scope_key row); md_summary := None;
     md_agent_label := pg_agent_label row; md_created_by_principal := None;
     md_quality_flags := migration_quality_flags (pg_unresolved_scope row) (pg_oversized row) (pg_code_derived row);
     md_schema_version := 1 |}.
(** [INSERT … ON CONFLICT(memory_id) DO NOTHING]: were there rows inserted? *)
Definition insert_missing_metadata (metadata : MemoryMetadata) : tx bool :=
  existing ← reads (λ s, is_some (st_metadata s !! md_memory_id metadata));
  if existing : bool then mret false
  else
    _ ← require_row (md_memory_id metadata);
    _ ← writes (on_metadata <[md_memory_id metadata := metadata]>);
    mret true.
Definition insert_metadata_migration_row (audit : option AuditDraft) (migrated : Z) (row : PreparedMigrationMetadata) : tx Z :=
  inserted ← insert_missing_metadata (migrated_metadata row);
  if inserted : bool
  then
    _ ← increment_record_revision_conn (pg_id row) "migrating metadata";
    _ ← insert_optional_audit_draft (pg_id row) audit;
    mret (saturating_add migrated 1)
  else mret (saturating_add migrated 0).
Definition with_migrated (n : Z) (o : MetadataMigrationOutcome) : MetadataMigrationOutcome :=
  {| mo_candidate_count := mo_candidate_count o; mo_skipped_existing := mo_skipped_existing o; mo_migrated := n;
     mo_unresolved_scope := mo_unresolved_scope o; mo_missing_summary := mo_missing_summary o;
     mo_oversized := mo_oversized o; mo_code_derived := mo_code_derived o |}.
Definition migrate_metadata_audited_impl (dry_run : bool) (audit : option AuditDraft) : tx MetadataMigrationOutcome :=
  preparation ← reads prepare_metadata_migration;
  if dry_run then mret (snd preparation)
  else
    migrated ← tx_fold (insert_metadata_migration_row audit) 0 (fst preparation);
    mret (with_migrated migrated (snd preparation)).

(** ** Reassigning a legacy scope *)

Definition in_quotes (s : string) : string := of_bytes ([byte 34] ++ bytes s ++ [byte 34]).
(** [rsplit('/').find(|part| !part.is_empty()).unwrap_or(key)]. *)
Definition raw_display_name (key : string) : string :=
  match List.find (λ part, negb (str_is_empty part)) (rev (split_on slash key)) with
  | Some part => part
  | None => key
  end.
Definition blank_scope : StoreError.t := StoreError.Conflict "legacy scope key cannot be blank or inbox/unresolved".
Definition owned_custom (reg : ContextRegistry) (principal normalized : string) : option (ContextId * ContextDefinition) :=
  head (List.filter (λ p, same_owner_key principal ContextKind.custom normalized (snd p)) (map_to_list (reg_contexts reg))).
(** The active visible contexts with that key, in the order of their ids. *)
Definition matching_contexts (reg : ContextRegistry) (principal normalized : string) : list ContextId :=
  sort_by N.compare (map fst (List.filter (λ p, String.eqb (normalize_context_key (cd_key (snd p))) normalized
    && bool_decide (cd_lifecycle (snd p) = ContextLifecycle.Active) && context_visible reg (fst p) (snd p) principal)
    (map_to_list (reg_contexts reg)))).
Definition private_legacy_context (fresh : ContextId) (key principal : string) (now : DateTime) : ContextDefinition :=
  {| cd_id := fresh; cd_kind := ContextKind.custom; cd_key := trim key; cd_display_name := raw_display_name key;
     cd_description := Some "Private compatibility context created by legacy scope administration";
     cd_owner_principal := principal; cd_guidance := Some "Migrate this workflow to governed context IDs.";
     cd_parent_id := None; cd_lifecycle := ContextLifecycle.Active; cd_frozen := false; cd_created_at := now; cd_updated_at := now |}.
Definition legacy_audit (principal action : string) (details : Json) : ContextAuditDraft :=
  {| cad_actor_principal := principal; cad_action := action; cad_context_id := None; cad_memory_id := None;
     cad_details := Some details |}.

Definition resolve_or_create_private_legacy_context (fresh : ContextId) (key principal : string) (now : DateTime) : tx ContextId :=
  _ ← of_result (map_err StoreError.Conflict (validate_implicit_legacy_context_key key));
  let normalized := normalize_context_key key in
  _ ← throw_if (str_is_empty normalized || String.eqb normalized UNRESOLVED_CONTEXT_KEY) blank_scope;
  custom_enabled ← reads (λ s, match reg_kinds (st_registry s) !! ContextKind.CUSTOM with Some k => ckd_enabled k | None => false end);
  _ ← throw_if (negb custom_enabled) (StoreError.Conflict ("context kind " +:+ in_quotes ContextKind.CUSTOM +:+ " is disabled"));
  owned ← reads (λ s, owned_custom (st_registry s) principal normalized);
  match owned with
  | Some (id, c) =>
      if bool_decide (cd_lifecycle c = ContextLifecycle.Active) then mret id
      else throw (StoreError.Conflict "legacy scope is archived; reactivate it in the TUI before using legacy administration")
  | None =>
      matches ← reads (λ s, matching_contexts (st_registry s) principal normalized);
      match matches with
      | [id] => mret id
      | _ :: _ :: _ =>
          throw (StoreError.Conflict ("legacy scope " +:+ debug_str key
            +:+ " matches multiple governed contexts; select an exact context before reassigning"))
      | [] =>
          _ ← insert_context (private_legacy_context fresh key principal now);
          _ ← insert_context_audit (legacy_audit principal "legacy_scope_context_created" (JObj [("legacy_scope_key", JStr key)]))
                (Some fresh) None now;
          mret fresh
      end
  end.

Record ReassignScopeApply := {
  ra_from_scope : string;
  ra_to_scope : string;
  ra_origin_conversation : option string;
  ra_principal : string;
  ra_now : DateTime;
  ra_audit : option AuditDraft;
}.
Definition reassigned_origin (p : Provenance) : option string := first_some (origin_conversation p) (source_conversation p).
Definition in_scope (params : ReassignScopeApply) (r : MemoryRow) : bool :=
  bool_decide (source_conversation (r_provenance r) = Some (ra_from_scope params))
  && match ra_origin_conversation params with
     | Some origin => bool_decide (reassigned_origin (r_provenance r) = Some origin)
     | None => true
     end.
Definition writable_by (principal : string) (id : MemoryId) : tx bool :=
  memory ← fetch_memory_by_id id;
  mret (match memory with Some m => has_write_access m principal | None => false end).

Definition move_provenance (scope : string) (p : Provenance) : Provenance :=
  {| source_agent := source_agent p; source_conversation := Some scope; origin_conversation := reassigned_origin p;
     source_user := source_user p |}.
(** The memberships with the target in front, each context once. *)
Definition moved_memberships (target : ContextId) (context_ids : list ContextId) : list ContextId :=
  match context_ids with
  | [] => [target]
  | _ :: rest => dedup (target :: rest)
  end.
Definition move_memberships (params : ReassignScopeApply) (target : ContextId) (scope : string) (id : MemoryId) : tx unit :=
  context_ids ← reads (λ s, moved_memberships target (memberships_of s id));
  _ ← rewrite_memberships id context_ids;
  insert_context_audit (legacy_audit (ra_principal params) "legacy_scope_reassigned"
      (JObj [("from_scope", JStr (ra_from_scope params)); ("to_scope", JStr scope);
             ("preserved_companion_contexts", JNum (saturating_sub (len context_ids) 1))]))
    (Some target) (Some id) (ra_now params).
Definition reassign_chunk (params : ReassignScopeApply) (target : ContextId) (scope : string) (chunk : list MemoryId) : tx unit :=
  _ ← tx_fold (λ _ id, _ ← update_row id (λ r, set_provenance (move_provenance scope (r_provenance r)) r); mret ()) () chunk;
  _ ← tx_fold (λ _ id, increment_record_revision_conn id "reassigning scope") () chunk;
  _ ← tx_fold (λ _ id, writes (on_metadata (alter (set_scope_key scope) id))) () chunk;
  _ ← tx_fold (λ _, move_memberships params target scope) () chunk;
  tx_fold (λ _ id, insert_optional_audit_draft id (ra_audit params)) () chunk.

(** [scan] is the order in which SQLite returns the selected rows. *)
Definition apply_reassign_scope (fresh : ContextId) (scan : list MemoryId → list MemoryId) (params : ReassignScopeApply) :
    tx ReassignScopeOutcome :=
  applied_ids ← reads (λ s, scan (map fst (List.filter (λ p, in_scope params (snd p)) (map_to_list (st_memories s)))));
  authorized_ids ← tx_fold (λ acc id, ok ← writable_by (ra_principal params) id; mret (if ok : bool then acc ++ [id] else acc)) [] applied_ids;
  if bool_decide (authorized_ids = []) then mret {| ro_applied_ids := [] |}
  else
    target ← resolve_or_create_private_legacy_context fresh (ra_to_scope params) (ra_principal params) (ra_now params);
    scope ← primary_scope [target];
    _ ← tx_fold (λ _, reassign_chunk params target scope) () (chunks SQLITE_MAX_CHUNK authorized_ids);
    mret {| ro_applied_ids := authorized_ids |}.
End admin.
