(* ===== verification/LegacyScopes.v ===== *)
(** * LegacyScopes: scopes as compatibility contexts, [src/src/store/admin.rs]

    A legacy scope is registered as a private custom context with its aliases,
    matchers, parent and related scopes; a context created only for a legacy
    request is taken back when the request fails and nothing refers to it
    ([rollback_unreferenced_legacy_context] of context_store.rs). *)
From Stdlib Require Import ZArith.
From stdpp Require Import base list option strings gmap sets pretty.
From S2P Require Import Prelude Text Floats Lists Errors Types Validation Context StoreTypes Ranking Store Membership Crud ContextAdmin Admin.

Section legacy.
Context `{Render, UnicodeCase}.

(** ** Registration *)

(** A visible context with that key or alias. *)
Definition visible_key_or_alias (reg : ContextRegistry) (principal normalized : string) : bool :=
  some_context reg (λ id c, (String.eqb (normalize_context_key (cd_key c)) normalized || is_some (reg_aliases reg !! (id, normalized)))
                            && context_visible reg id c principal).
Definition legacy_scope_context (fresh : ContextId) (key : string) (display_name description : option string) (principal : string)
    (now : DateTime) : ContextDefinition :=
  {| cd_id := fresh; cd_kind := ContextKind.custom; cd_key := trim key;
     cd_display_name := default (raw_display_name key) display_name;
     cd_description := first_some description (Some "Private compatibility context created by legacy scope administration");
     cd_owner_principal := principal; cd_guidance := Some "Migrate this workflow to governed context IDs.";
     cd_parent_id := None; cd_lifecycle := ContextLifecycle.Active; cd_frozen := false; cd_created_at := now; cd_updated_at := now |}.
Definition described (display_name : string) (description : option string) (now : DateTime) (c : ContextDefinition) : ContextDefinition :=
  set_texts display_name description (cd_guidance c) now c.

(** The principal's context for the key, described anew, or a new one. *)
Definition ensure_private_legacy_scope_context (fresh : ContextId) (key : string) (display_name description : option string)
    (principal : string) (now : DateTime) : tx ContextId :=
  let normalized := normalize_context_key key in
  _ ← throw_if (str_is_empty normalized || String.eqb normalized UNRESOLVED_CONTEXT_KEY) blank_scope;
  existing ← reads (λ s, owned_custom (st_registry s) principal normalized);
  match existing with
  | Some (id, c) =>
      _ ← throw_if (cd_frozen c || negb (same_kind ContextKind.custom c))
            (StoreError.Conflict "legacy scope administration can update only principal-owned mutable custom contexts");
      _ ← throw_if (negb (bool_decide (cd_lifecycle c = ContextLifecycle.Active)))
            (StoreError.Conflict "legacy scope is archived; reactivate it in the TUI before using legacy administration");
      _ ← match display_name with
          | Some display_name => _ ← update_context id (described display_name description now); mret ()
          | None => mret ()
          end;
      mret id
  | None =>
      visible_foreign ← reads (λ s, visible_key_or_alias (st_registry s) principal normalized);
      _ ← throw_if visible_foreign
            (StoreError.Conflict "legacy scope key already belongs to another visible governed context key or alias and cannot be overridden");
      _ ← insert_context (legacy_scope_context fresh key display_name description principal now);
      _ ← insert_context_audit (legacy_audit principal "legacy_scope_context_created" (JObj [("legacy_scope_key", JStr key)]))
            (Some fresh) None now;
      mret fresh
  end.

Definition LEGACY_RELATED : string := "legacy_related".
Definition is_legacy_relation (from : ContextId) (kv : (ContextId * (ContextId * string)) * DateTime) : Prop :=
  fst (fst kv) = from ∧ snd (snd (fst kv)) = LEGACY_RELATED.
#[export] Instance is_legacy_relation_dec from kv : Decision (is_legacy_relation from kv).
Proof. unfold is_legacy_relation. apply _. Defined.
(** [INSERT OR IGNORE INTO context_relations]. *)
Definition insert_relation (from to : ContextId) (now : DateTime) : tx unit :=
  _ ← constraint (λ reg, context_exists from reg && context_exists to reg) "context_relations";
  writes (on_relations (partial_alter (λ old, Some (default now old)) (from, (to, LEGACY_RELATED)))).
Definition relate (context_id : ContextId) (principal : string) (now : DateTime) (related : ContextId * string) : tx unit :=
  related_id ← ensure_private_legacy_scope_context (fst related) (snd related) None (Some "Legacy compatibility scope") principal now;
  if bool_decide (related_id = context_id) then mret () else insert_relation context_id related_id now.

(** [fresh] are the ids of the contexts the registration may create: for the
    scope, its parent and its related scopes. *)
Definition register_legacy_scope_context (fresh : nat → ContextId) (scope : ScopeDefinition) (now : DateTime) (principal : string) : tx unit :=
  _ ← of_result (map_err StoreError.Conflict (validate_legacy_scope_definition scope));
  context_id ← ensure_private_legacy_scope_context (fresh 0%nat) (sd_scope_key scope) (Some (sd_display_name scope)) (sd_description scope)
                 principal now;
  parent_id ← match sd_parent scope with
              | Some key =>
                  parent ← ensure_private_legacy_scope_context (fresh 1%nat) key None (Some "Legacy compatibility scope") principal now;
                  mret (Some parent)
              | None => mret None
              end;
  _ ← throw_if (bool_decide (parent_id = Some context_id))
        (StoreError.Conflict "a legacy compatibility scope cannot be its own parent");
  _ ← when_some parent_id (λ parent,
        cycle ← reads (λ s, bool_decide (context_id ∈ ancestors_or_self (st_registry s) parent));
        throw_if cycle (StoreError.Conflict ("legacy scope " +:+ debug_str (sd_scope_key scope)
          +:+ " parent would create a context hierarchy cycle")));
  _ ← update_context context_id (set_parent parent_id now);
  _ ← writes (on_aliases (without_context context_id));
  _ ← tx_fold (λ _, insert_alias context_id) () (new_hints ∅ (sd_aliases scope));
  _ ← writes (on_hints (without_context context_id));
  _ ← tx_fold (λ _, insert_hint context_id) () (new_hints ∅ (sd_matchers scope));
  _ ← writes (on_relations (filter (λ kv, ¬ is_legacy_relation context_id kv)));
  _ ← tx_fold (λ _, relate context_id principal now) () (imap (λ i related, (fresh (2 + i)%nat, related)) (sd_related scope));
  insert_context_audit (legacy_audit principal "legacy_scope_register" (JObj [("legacy_scope_key", JStr (sd_scope_key scope))]))
    (Some context_id) None now.

(** ** Taking a context back *)

Definition about_context (id : ContextId) (e : ContextAuditEvent) : bool := bool_decide (cae_context_id e = Some id).
Definition created_for_legacy (principal : string) (e : ContextAuditEvent) : bool :=
  String.eqb (cae_actor_principal e) principal && String.eqb (cae_action e) "legacy_scope_context_created" && is_none (cae_memory_id e).
Definition has_rows {K V} `{Countable K} (id : ContextId) (m : gmap (ContextId * K) V) : bool :=
  existsb (λ kv, bool_decide (fst (fst kv) = id)) (map_to_list m).
Definition defaults_to (id : ContextId) (p : ContextKindPolicy) : bool := bool_decide (kp_default_context_id p = Some id).

(** Nothing but its creation for a legacy request is about the context. *)
Definition unreferenced_legacy (s : Store) (id : ContextId) (principal : string) : bool :=
  let reg := st_registry s in
  match reg_contexts reg !! id with
  | None => false
  | Some c =>
      String.eqb (cd_owner_principal c) principal && same_kind ContextKind.custom c && negb (cd_frozen c)
      && negb (existsb (λ kv : MemoryId * list ContextId, bool_decide (id ∈ snd kv)) (map_to_list (st_memberships s)))
      && negb (some_context reg (λ _ child, bool_decide (cd_parent_id child = Some id)))
      && negb (has_rows id (reg_grants reg))
      && negb (existsb (λ kv, bool_decide (fst (fst kv) = id) || bool_decide (fst (snd (fst kv)) = id)) (map_to_list (reg_relations reg)))
      && negb (has_rows id (reg_aliases reg)) && negb (has_rows id (reg_identities reg)) && negb (has_rows id (reg_hints reg))
      && negb (has_rows id (reg_anchor_policies reg))
      && negb (existsb (λ kv, defaults_to id (fst (snd kv))) (map_to_list (reg_kind_policies reg)))
      && negb (existsb (λ kv, existsb (λ p, defaults_to id (snd p)) (ap_kinds (fst (snd kv)))) (map_to_list (reg_anchor_policies reg)))
      && bool_decide (length (List.filter (about_context id) (context_audit_rows s)) = 1%nat)
      && existsb (created_for_legacy principal) (List.filter (about_context id) (context_audit_rows s))
  end.
Definition drop_creation_audit (id : ContextId) (principal : string) (row : option ContextAuditEvent) : option ContextAuditEvent :=
  e ← row; if about_context id e && created_for_legacy principal e then None else Some e.
Definition rollback_unreferenced_legacy_context (id : ContextId) (principal : string) : tx bool :=
  removed ← reads (λ s, unreferenced_legacy s id principal);
  if removed : bool then
    _ ← writes (on_contexts (delete id));
    _ ← writes (on_context_audit (map (drop_creation_audit id principal)));
    mret true
  else mret false.
End legacy.
