(* ===== verification/Revisions.v ===== *)
(** * Revisions: what the revision counters of a memory promise

    [record_revision] advances with every change of what a user sees of a
    memory, and [embedding_revision] with every change of its content. The
    two preorders [keeps] (operations that insert no memory) and [grows]
    (operations that delete none) carry the promise through transactions;
    [evolves] is what both say about a memory present before and after. *)
From Stdlib Require Import ZArith Lia.
From stdpp Require Import base list option strings gmap sets relations.
From S2P Require Import Prelude Text Floats Lists Errors Types Validation Context StoreTypes Store Membership Crud ContextAdmin Admin.

(** What a user sees of a memory, with its row. *)
Definition visible (s : Store) (id : MemoryId) (r : MemoryRow) :=
  ((r_content r, r_tags r, r_provenance r, r_access_policy r, r_expires_at r),
   (r_importance r, r_confidence r, r_superseded_by r),
   (default ∅ (st_entities s !! id), st_metadata s !! id, memberships_of s id)).

(** [b], later than [a], of the same memory. *)
Definition row_le (a b : MemoryRow) : Prop :=
  r_record_revision a ≤ r_record_revision b
  ∧ r_embedding_revision a ≤ r_embedding_revision b
  ∧ (r_embedding_revision a = r_embedding_revision b → r_content a = r_content b).

(** The whole snapshot of a memory. *)
Definition snap_le (s s' : Store) (id : MemoryId) (a b : MemoryRow) : Prop :=
  row_le a b ∧ (r_record_revision a = r_record_revision b → visible s id a = visible s' id b).

Definition evolves (s s' : Store) : Prop := ∀ id a b,
  st_memories s !! id = Some a → st_memories s' !! id = Some b → snap_le s s' id a b.
Definition keeps (s s' : Store) : Prop :=
  (∀ id, st_memories s !! id = None → st_memories s' !! id = None) ∧ evolves s s'.
(** Nothing is deleted; the memories of [ids] may be new, all others evolve. *)
Definition grows_but (ids : gset MemoryId) (s s' : Store) : Prop := ∀ id a,
  st_memories s !! id = Some a → ∃ b, st_memories s' !! id = Some b ∧ (id ∉ ids → snap_le s s' id a b).
Notation grows := (grows_but ∅).

(** Only the memory [id] changes, and its counters do not go back. *)
Definition same_at (id : MemoryId) (s s' : Store) : Prop :=
  st_memories s !! id = st_memories s' !! id
  ∧ default ∅ (st_entities s !! id) = default ∅ (st_entities s' !! id)
  ∧ st_metadata s !! id = st_metadata s' !! id ∧ memberships_of s id = memberships_of s' id.
Definition only (id : MemoryId) (s s' : Store) : Prop :=
  (∀ j, j ≠ id → same_at j s s')
  ∧ match st_memories s !! id, st_memories s' !! id with
    | Some a, Some b => row_le a b
    | None, None => True
    | _, _ => False
    end.
(** … and the record revision has advanced. *)
Definition bumps (id : MemoryId) (s s' : Store) : Prop :=
  ∀ a b, st_memories s !! id = Some a → st_memories s' !! id = Some b → r_record_revision a < r_record_revision b.

#[export] Instance row_le_preorder : PreOrder row_le.
Proof.
  split; [intros a; unfold row_le; split_and!; lia || done|].
  intros a b c (?&?&Hab) (?&?&Hbc). split_and!; [lia|lia|]. intros. rewrite Hab by lia. apply Hbc; lia.
Qed.
Lemma snap_le_refl s id a : snap_le s s id a a.
Proof. split; [reflexivity | done]. Qed.
Lemma snap_le_trans s s' s'' id a b c : snap_le s s' id a b → snap_le s' s'' id b c → snap_le s s'' id a c.
Proof.
  intros [H1 V1] [H2 V2]. split; [by etrans|]. destruct H1 as (?&_), H2 as (?&_).
  intros. rewrite V1 by lia. apply V2; lia.
Qed.
#[export] Instance same_at_equiv id : Equivalence (same_at id).
Proof.
  split; unfold same_at.
  - done.
  - intros s s' (?&?&?&?). done.
  - intros s s' s'' (->&->&->&->) (->&->&->&->). done.
Qed.
Lemma same_at_snap s s' id a b :
  same_at id s s' → st_memories s !! id = Some a → st_memories s' !! id = Some b → snap_le s s' id a b.
Proof.
  intros (Hm&He&Hd&Hc) Ha Hb. assert (a = b) as -> by congruence.
  split; [reflexivity|]. unfold visible. rewrite He, Hd, Hc. done.
Qed.

#[export] Instance keeps_preorder : PreOrder keeps.
Proof.
  split.
  - intros s. split; [done|]. intros id a b Ha Hb. assert (a = b) as -> by congruence. apply snap_le_refl.
  - intros s s' s'' [N1 E1] [N2 E2]. split; [auto|]. intros id a c Ha Hc.
    destruct (st_memories s' !! id) as [b|] eqn:Hb; [|by rewrite N2 in Hc].
    by eapply snap_le_trans; [eapply E1 | eapply E2].
Qed.
#[export] Instance grows_but_preorder ids : PreOrder (grows_but ids).
Proof.
  split.
  - intros s id a Ha. exists a. split; [done|]. intros _. apply snap_le_refl.
  - intros s s' s'' G1 G2 id a Ha. destruct (G1 _ _ Ha) as (b & Hb & H1). destruct (G2 _ _ Hb) as (c & Hc & H2).
    exists c. split; [done|]. intros Hid. eapply snap_le_trans; eauto.
Qed.
#[export] Instance only_preorder id : PreOrder (only id).
Proof.
  split.
  - intros s. split; [reflexivity|]. destruct (st_memories s !! id); [reflexivity | done].
  - intros s s' s'' [A1 B1] [A2 B2]. split.
    + intros j Hj. etrans; [by apply A1 | by apply A2].
    + destruct (st_memories s !! id), (st_memories s' !! id), (st_memories s'' !! id); try done. by etrans.
Qed.

Lemma keeps_evolves s s' : keeps s s' → evolves s s'.
Proof. by intros [_ H]. Qed.
Lemma grows_evolves s s' : grows s s' → evolves s s'.
Proof. intros G id a b Ha Hb. destruct (G _ _ Ha) as (b' & Hb' & H). simplify_eq. apply H. set_solver. Qed.
Lemma same_evolves s s' : (∀ id, same_at id s s') → keeps s s'.
Proof.
  intros H. split.
  - intros id Hn. destruct (H id) as (<-&_). done.
  - intros id a b Ha Hb. by eapply same_at_snap.
Qed.

(** A change of one memory that advances its revision, or changes nothing. *)
Lemma only_keeps id s s' : only id s s' → bumps id s s' ∨ same_at id s s' → keeps s s'.
Proof.
  intros [Ho Hi] Hb. split.
  - intros j Hj. destruct (decide (j = id)) as [->|]; [|by destruct (Ho j) as (<-&_)].
    rewrite Hj in Hi. by destruct (st_memories s' !! id).
  - intros j a b Ha Hb'. destruct (decide (j = id)) as [->|]; [|by eapply same_at_snap; [apply Ho| |]].
    rewrite Ha, Hb' in Hi. destruct Hb as [Hb|Hs]; [|by eapply same_at_snap].
    split; [done|]. specialize (Hb _ _ Ha Hb'). lia.
Qed.
Lemma only_grows id s s' : only id s s' → bumps id s s' ∨ same_at id s s' → grows s s'.
Proof.
  intros Ho Hb j a Ha. destruct (only_keeps _ _ _ Ho Hb) as [_ He].
  destruct (st_memories s' !! j) as [b|] eqn:Hj; [exists b; auto|]. exfalso.
  destruct Ho as [Hs Hi]. destruct (decide (j = id)) as [->|]; [by rewrite Ha, Hj in Hi|].
  destruct (Hs j) as (E&_); [done|]. congruence.
Qed.
Lemma bumps_only id s s' s'' : only id s s' → bumps id s s' → only id s' s'' → bumps id s s''.
Proof.
  intros [_ H1] Hb [_ H2] a c Ha Hc. rewrite Ha in H1. destruct (st_memories s' !! id) as [b|] eqn:Eb; [|done].
  rewrite Hc in H2. destruct H2 as (?&_). specialize (Hb _ _ Ha Eb). lia.
Qed.
Lemma only_bumps id s s' s'' : only id s s' → only id s' s'' → bumps id s' s'' → bumps id s s''.
Proof.
  intros [_ H1] [_ H2] Hb a c Ha Hc. rewrite Ha in H1. destruct (st_memories s' !! id) as [b|] eqn:Eb; [|done].
  destruct H1 as (?&_). specialize (Hb _ _ Eb Hc). lia.
Qed.
Lemma only_grows_but id s s' : only id s s' → grows_but {[id]} s s'.
Proof.
  intros [Ho Hi] j a Ha. destruct (decide (j = id)) as [->|].
  - rewrite Ha in Hi. destruct (st_memories s' !! id) as [b|]; [|done]. exists b. split; [done|]. set_solver.
  - destruct (Ho j) as (E&R); [done|]. exists a. split; [congruence|]. intros _. eapply same_at_snap; [|done|congruence].
    by split.
Qed.
Lemma grows_but_new id s s' : grows_but {[id]} s s' → st_memories s !! id = None → grows s s'.
Proof.
  intros G Hn j a Ha. destruct (G _ _ Ha) as (b & Hb & H). exists b. split; [done|]. intros _. apply H.
  intros ->%elem_of_singleton. congruence.
Qed.

(** ** The statements *)

(** Statements on tables a user does not see. *)
Definition quiet (s s' : Store) : Prop := ∀ id, same_at id s s'.
#[export] Instance quiet_preorder : PreOrder quiet.
Proof. split; [intros s id; reflexivity | intros s s' s'' H1 H2 id; etrans; [apply H1 | apply H2]]. Qed.
Lemma quiet_only id s s' : quiet s s' → only id s s'.
Proof.
  intros Q. split; [by intros|]. destruct (Q id) as (<-&_). destruct (st_memories s !! id); [reflexivity | done].
Qed.
Lemma steps_quiet_only id {A} (m : tx A) : steps quiet m → steps (only id) m.
Proof. apply steps_weaken, quiet_only. Qed.
Lemma quiet_keeps s s' : quiet s s' → keeps s s'.
Proof. apply same_evolves. Qed.

Lemma quiet_audit f : steps quiet (writes (on_audit f)).
Proof. apply steps_writes. intros s id. done. Qed.
Lemma quiet_context_audit f : steps quiet (writes (on_context_audit f)).
Proof. apply steps_writes. intros s id. done. Qed.
Lemma quiet_vectors f : steps quiet (writes (on_vectors f)).
Proof. apply steps_writes. intros s id. done. Qed.
Lemma quiet_tombstones f : steps quiet (writes (on_tombstones f)).
Proof. apply steps_writes. intros s id. done. Qed.
#[export] Hint Resolve quiet_audit quiet_context_audit quiet_vectors quiet_tombstones : steps.

Lemma quiet_require_row id : steps quiet (require_row id).
Proof. intros s u s' H. unfold require_row in H. destruct (st_memories s !! id); [|done]. inv_tx. reflexivity. Qed.
#[export] Hint Resolve quiet_require_row : steps.
Lemma quiet_audit_draft id a : steps quiet (insert_audit_draft id a).
Proof. apply quiet_audit. Qed.
Lemma quiet_optional_audit id a : steps quiet (insert_optional_audit_draft id a).
Proof. unfold insert_optional_audit_draft. steps_tac. Qed.
Lemma quiet_tombstone m at_ by_ : steps quiet (insert_tombstone m at_ by_).
Proof. apply quiet_tombstones. Qed.
Lemma quiet_select_revision id : steps quiet (select_embedding_revision id).
Proof. intros s u s' H. unfold select_embedding_revision in H. destruct (st_memories s !! id); [|done]. inv_tx. reflexivity. Qed.
Lemma quiet_upsert_vector dims id v : steps quiet (upsert_vector dims id v).
Proof. unfold upsert_vector. steps_tac. Qed.
Lemma quiet_profile p : steps quiet (ensure_embedding_profile_matches p).
Proof. unfold ensure_embedding_profile_matches. steps_tac. Qed.
Lemma quiet_compatibility id u p : steps quiet (validate_compatibility_cache_update id u p).
Proof. unfold validate_compatibility_cache_update, compatibility_scope_key. steps_tac. Qed.
#[export] Hint Resolve quiet_audit_draft quiet_optional_audit quiet_tombstone quiet_select_revision
  quiet_upsert_vector quiet_profile quiet_compatibility : steps.
#[export] Hint Resolve steps_quiet_only | 10 : steps.

Lemma steps_only_row id f : (∀ r, row_le r (f r)) → steps (only id) (update_row id f).
Proof.
  intros Hf s b s' H. unfold update_row in H. destruct (st_memories s !! id) as [r|] eqn:E; inv_tx; [|reflexivity].
  split.
  - intros j Hj. split_and!; cbn; [by rewrite lookup_alter_ne|done..].
  - cbn. rewrite lookup_alter_eq, E. cbn. apply Hf.
Qed.
Lemma only_entities id f s :
  (∀ t j, j ≠ id → f t !! j = t !! j) → only id s (on_entities f s).
Proof.
  intros Hf. split.
  - intros j Hj. split_and!; cbn; [done|by rewrite Hf|done..].
  - cbn. destruct (st_memories s !! id); [reflexivity | done].
Qed.
Lemma only_metadata id f s :
  (∀ t j, j ≠ id → f t !! j = t !! j) → only id s (on_metadata f s).
Proof.
  intros Hf. split.
  - intros j Hj. split_and!; cbn; [done|done|by rewrite Hf|done].
  - cbn. destruct (st_memories s !! id); [reflexivity | done].
Qed.
Lemma only_memberships id f s :
  (∀ t j, j ≠ id → f t !! j = t !! j) → only id s (on_memberships f s).
Proof.
  intros Hf. split.
  - intros j Hj. split_and!; cbn; [done..|]. unfold memberships_of. cbn. by rewrite Hf.
  - cbn. destruct (st_memories s !! id); [reflexivity | done].
Qed.

Lemma only_insert_entities id l : steps (only id) (insert_entities id l).
Proof. unfold insert_entities. steps_tac. apply only_entities. intros t j Hj. by rewrite lookup_insert_ne. Qed.
#[export] Hint Resolve only_insert_entities : steps.
Lemma only_replace_entities id l : steps (only id) (replace_entities id l).
Proof. unfold replace_entities. steps_tac. apply only_entities. intros t j Hj. by rewrite lookup_delete_ne. Qed.
Lemma only_upsert_metadata md : steps (only (md_memory_id md)) (upsert_metadata_conn md).
Proof. unfold upsert_metadata_conn. steps_tac. apply only_metadata. intros t j Hj. by rewrite lookup_insert_ne. Qed.
#[export] Hint Resolve only_replace_entities : steps.

Lemma only_insert_membership id row : steps (only id) (insert_membership id row).
Proof.
  intros s u s' H. unfold insert_membership in H. destruct (bool_decide _); inv_tx.
  apply only_memberships. intros t j Hj. by rewrite lookup_insert_ne.
Qed.
#[export] Hint Resolve only_insert_membership : steps.
Section with_render.
Context `{Render}.
Lemma quiet_require_usable pr p c : steps quiet (require_usable pr p c).
Proof. unfold require_usable, context_use_allowed. steps_tac. Qed.
Lemma quiet_primary_scope l : steps quiet (primary_scope l).
Proof.
  intros s a s' H1. unfold primary_scope in H1. destruct l as [|c l]; [inv_tx; reflexivity|].
  destruct (reg_contexts (st_registry s) !! c); inv_tx. reflexivity.
Qed.
#[local] Hint Resolve quiet_require_usable quiet_primary_scope : steps.
Lemma only_insert_memberships id cs p sc a now pr :
  steps (only id) (insert_memory_contexts_sqlite id cs p sc a now pr).
Proof. unfold insert_memory_contexts_sqlite, insert_context_audit. steps_tac. Qed.
#[local] Hint Resolve only_insert_memberships : steps.
Lemma only_replace_memberships id cs p sc a now :
  steps (only id) (replace_memory_contexts_sqlite_tx id cs p sc a now).
Proof.
  unfold replace_memory_contexts_sqlite_tx. steps_tac.
  - apply only_memberships. intros t j Hj. by rewrite lookup_delete_ne.
  - apply only_metadata. intros t j Hj. by rewrite lookup_alter_ne.
  - split.
    + intros j Hj. split_and!; cbn; [by rewrite lookup_alter_ne|done..].
    + cbn. rewrite lookup_alter_eq. destruct (st_memories s !! id); [|done]. cbn. split_and!; cbn; lia || done.
Qed.
Lemma only_increment id action : steps (only id) (increment_record_revision_conn id action).
Proof.
  unfold increment_record_revision_conn. steps_tac. apply steps_only_row. intros r. split_and!; cbn; lia || done.
Qed.
End with_render.
#[export] Hint Resolve quiet_require_usable quiet_primary_scope only_insert_memberships only_replace_memberships
  only_increment : steps.

(** ** Updates *)

(** The row an update leaves: the given columns, the bookkeeping of a content
    change, one step of the record revision. *)
Definition revised_row (u : MemoryUpdate) (now : DateTime) (r : MemoryRow) : MemoryRow :=
  let content := is_some (mu_content u) in
  mkRow (default (r_content r) (mu_content u)) (default (r_tags r) (mu_tags u))
    (match mu_source_conversation u with Some sc => set_source_conversation sc (r_provenance r) | None => r_provenance r end)
    (default (r_access_policy r) (mu_access_policy u)) (r_created_at r) (default (r_expires_at r) (mu_expires_at u))
    (if content then false else r_has_embedding r) (r_memory_type r)
    (from_option Importance.value (r_importance r) (mu_importance u)) (r_impression_count r)
    (r_last_impressed_at r) (r_superseded_by r) (r_activity_mass r) (r_last_used_at r)
    (if content then now else r_updated_at r) (from_option Confidence.value (r_confidence r) (mu_confidence u))
    (r_record_revision r + (if has_column_updates u || is_some (mu_entities u) then 1 else 0))
    (r_embedding_revision r + (if content then 1 else 0))
    (if content then None else r_embedding_claimed_at r) (if content then None else r_embedding_claim_token r).

#[global] Arguments revised_row : simpl never.

Definition replaced_entities (id : MemoryId) (o : option (list Entity)) (t : gmap MemoryId (gset Entity)) :=
  match o with
  | None => t
  | Some [] => delete id t
  | Some l => <[id := list_to_set l]> (delete id t)
  end.
Definition updated_store (id : MemoryId) (u : MemoryUpdate) (now : DateTime) (r : MemoryRow) (s : Store) : Store :=
  on_entities (replaced_entities id (mu_entities u))
    (on_vectors (if is_some (mu_content u) then delete id else λ t, t)
      (on_memories <[id := revised_row u now r]> s)).

Lemma mkRow_eta r : r = mkRow (r_content r) (r_tags r) (r_provenance r) (r_access_policy r) (r_created_at r)
  (r_expires_at r) (r_has_embedding r) (r_memory_type r) (r_importance r) (r_impression_count r)
  (r_last_impressed_at r) (r_superseded_by r) (r_activity_mass r) (r_last_used_at r) (r_updated_at r)
  (r_confidence r) (r_record_revision r) (r_embedding_revision r) (r_embedding_claimed_at r)
  (r_embedding_claim_token r).
Proof. by destruct r. Qed.

Lemma exec_set_revised u now r :
  has_column_updates u = true → exec_set (build_set_clause u now) r = revised_row u now r.
Proof.
  destruct u as [[?|] [?|] [?|] [?|] [?|] [?|] [?|] ?]; unfold has_column_updates; cbn;
    intros ?; try discriminate; unfold revised_row; cbn; rewrite ?Z.add_0_r; reflexivity.
Qed.
Lemma build_set_clause_nil u now : build_set_clause u now = [] ↔ has_column_updates u = false.
Proof. destruct u as [[?|] [?|] [?|] [?|] [?|] [?|] [?|] ?]; unfold has_column_updates; cbn; done. Qed.

Lemma alter_as_insert {A} (f : A → A) (t : gmap MemoryId A) id a :
  t !! id = Some a → alter f id t = <[id := f a]> t.
Proof.
  intros Ha. apply map_eq. intros j. destruct (decide (j = id)) as [->|].
  - by rewrite lookup_alter_eq, lookup_insert_eq, Ha.
  - by rewrite lookup_alter_ne, lookup_insert_ne.
Qed.
Lemma update_row_Some id f s r :
  st_memories s !! id = Some r → update_row id f s = Ok (true, on_memories <[id := f r]> s).
Proof.
  intros Hr. unfold update_row. rewrite Hr. do 2 f_equal. unfold on_memories. by erewrite alter_as_insert.
Qed.

Lemma update_columns_Some id u now s r :
  st_memories s !! id = Some r →
  update_columns id u now s = Ok (true, on_memories <[id := revised_row u now r]> s).
Proof.
  intros Hr. unfold update_columns. destruct (has_column_updates u) eqn:Hc.
  - destruct (build_set_clause u now) as [|i l] eqn:Hb; [by apply build_set_clause_nil in Hb; congruence|].
    rewrite (update_row_Some _ _ _ _ Hr), <- Hb, exec_set_revised by done. done.
  - rewrite (proj2 (build_set_clause_nil u now) Hc).
    destruct u as [[?|] [?|] [?|] [?|] [?|] [?|] [?|] [?|]]; unfold has_column_updates in Hc; cbn in Hc; try discriminate; cbn.
    + rewrite (update_row_Some _ _ _ _ Hr). unfold revised_row; cbn. rewrite Z.add_0_r. done.
    + unfold reads. rewrite Hr. do 2 f_equal. unfold revised_row; cbn. rewrite !Z.add_0_r, <- mkRow_eta.
      destruct s. unfold on_memories; cbn in *. by rewrite insert_id.
Qed.

Lemma apply_update_inner_None id u now s :
  st_memories s !! id = None → apply_update_inner id u now s = Ok (update_outcome WriteOutcome.NotFound None, s).
Proof.
  intros Hn. unfold apply_update_inner, update_columns.
  destruct (build_set_clause u now); [destruct (is_some (mu_entities u))|];
    cbn; unfold update_row, reads, mbind, tx_bind; by rewrite Hn.
Qed.
Lemma replace_entities_run id l s r :
  st_memories s !! id = Some r → replace_entities id l s = Ok ((), on_entities (replaced_entities id (Some l)) s).
Proof.
  intros Hr. unfold replace_entities, insert_entities, require_row, writes, mbind, tx_bind. cbn.
  destruct l as [|e l]; cbn; [done|]. rewrite Hr. do 2 f_equal. unfold on_entities; cbn.
  rewrite lookup_delete_eq; cbn. by rewrite (left_id_L ∅ (∪)).
Qed.
(** The update of an existing row never fails and its effect is
    [updated_store]. *)
Lemma apply_update_inner_Some id u now s r :
  st_memories s !! id = Some r →
  apply_update_inner id u now s =
    Ok (update_outcome WriteOutcome.Applied (if is_some (mu_content u) then Some (r_embedding_revision r + 1) else None),
        updated_store id u now r s).
Proof.
  intros Hr. unfold apply_update_inner, mbind, tx_bind. rewrite (update_columns_Some _ _ _ _ _ Hr). cbn.
  unfold updated_store. destruct (mu_content u) as [c|] eqn:Hc; cbn.
  - unfold select_embedding_revision. cbn. rewrite lookup_insert_eq. cbn.
    assert (r_embedding_revision (revised_row u now r) = r_embedding_revision r + 1) as -> by (unfold revised_row; rewrite Hc; done).
    destruct (mu_entities u) as [l|]; cbn; [|done].
    erewrite replace_entities_run; [done|]. cbn. apply lookup_insert_eq.
  - destruct (mu_entities u) as [l|]; cbn; [|done].
    erewrite replace_entities_run; [done|]. cbn. apply lookup_insert_eq.
Qed.

(** ** The operations *)

Definition touches_row (u : MemoryUpdate) : bool := has_column_updates u || is_some (mu_entities u).

Lemma revised_row_le u now r : row_le r (revised_row u now r).
Proof.
  unfold row_le, revised_row; cbn. split_and!.
  - destruct (has_column_updates u || _); lia.
  - destruct (is_some _); lia.
  - destruct (mu_content u); cbn; [lia | done].
Qed.
Lemma updated_only id u now s r : st_memories s !! id = Some r → only id s (updated_store id u now r s).
Proof.
  intros Hr. split.
  - intros j Hj. split_and!; cbn; [by rewrite lookup_insert_ne| |done|done].
    destruct (mu_entities u) as [[|e l]|]; cbn; [by rewrite lookup_delete_ne|by rewrite lookup_insert_ne, lookup_delete_ne|done].
  - cbn. rewrite Hr, lookup_insert_eq. apply revised_row_le.
Qed.
Lemma updated_bumps id u now s r :
  st_memories s !! id = Some r → touches_row u = true → bumps id s (updated_store id u now r s).
Proof.
  intros Hr Ht a b Ha Hb. cbn in Hb. rewrite lookup_insert_eq in Hb. simplify_eq.
  unfold revised_row; cbn. unfold touches_row in Ht. rewrite Ht. lia.
Qed.
Lemma untouched u : touches_row u = false → mu_content u = None ∧ mu_tags u = None ∧ mu_access_policy u = None
  ∧ mu_importance u = None ∧ mu_expires_at u = None ∧ mu_confidence u = None ∧ mu_source_conversation u = None
  ∧ mu_entities u = None.
Proof.
  unfold touches_row, has_column_updates.
  destruct u as [[?|] [?|] [?|] [?|] [?|] [?|] [?|] [?|]]; cbn; try discriminate. done.
Qed.
Lemma revised_row_untouched u now r : touches_row u = false → revised_row u now r = r.
Proof.
  intros Ht. pose proof (untouched u Ht) as (H1&H2&H3&H4&H5&H6&H7&H8). unfold touches_row in Ht.
  unfold revised_row. rewrite Ht, H1, H2, H3, H4, H5, H6, H7; cbn. rewrite !Z.add_0_r. by destruct r.
Qed.
Lemma updated_same id u now s r :
  st_memories s !! id = Some r → touches_row u = false → updated_store id u now r s = s.
Proof.
  intros Hr Ht. pose proof (untouched u Ht) as (H1&_&_&_&_&_&_&H8).
  unfold updated_store. rewrite revised_row_untouched, H1, H8 by done. cbn.
  destruct s; unfold on_entities, on_vectors, on_memories; cbn in *. by rewrite insert_id.
Qed.

(** Forward reading of [apply_update_inner] in a successful run. *)
Lemma apply_update_inner_inv id u now s o s' :
  apply_update_inner id u now s = Ok (o, s') →
  match st_memories s !! id with
  | None => o = update_outcome WriteOutcome.NotFound None ∧ s' = s
  | Some r => ao_outcome o = WriteOutcome.Applied ∧ s' = updated_store id u now r s
  end.
Proof.
  destruct (st_memories s !! id) as [r|] eqn:Hr.
  - rewrite (apply_update_inner_Some _ _ _ _ _ Hr). by intros [= <- <-].
  - rewrite (apply_update_inner_None _ _ _ _ Hr). by intros [= <- <-].
Qed.

Lemma apply_update_inner_keeps id u now : steps keeps (apply_update_inner id u now).
Proof.
  intros s o s' H. apply apply_update_inner_inv in H. destruct (st_memories s !! id) as [r|] eqn:Hr.
  - destruct H as [_ ->]. apply (only_keeps id); [by apply updated_only|].
    destruct (touches_row u) eqn:Ht; [left; by apply updated_bumps|].
    right. by rewrite updated_same.
  - destruct H as [_ ->]. reflexivity.
Qed.
Lemma steps_quiet_keeps {A} (m : tx A) : steps quiet m → steps keeps m.
Proof. apply steps_weaken, quiet_keeps. Qed.
#[export] Hint Resolve apply_update_inner_keeps : steps.
#[export] Hint Resolve steps_quiet_keeps | 10 : steps.

(** A change of the columns no user edits. *)
Definition invisible (f : MemoryRow → MemoryRow) : Prop := ∀ r s id, row_le r (f r) ∧ visible s id r = visible s id (f r).
Lemma keeps_alter f id s : invisible f → keeps s (on_memories (alter f id) s).
Proof.
  intros Hf. split.
  - intros j Hj. cbn. destruct (decide (j = id)) as [->|]; [by rewrite lookup_alter_eq, Hj | by rewrite lookup_alter_ne].
  - intros j a b Ha Hb. cbn in Hb. destruct (decide (j = id)) as [->|].
    + rewrite lookup_alter_eq, Ha in Hb. cbn in Hb. simplify_eq. destruct (Hf a s id) as [? Hv].
      split; [done|]. intros _. exact Hv.
    + rewrite lookup_alter_ne in Hb by done. assert (a = b) as -> by congruence. split; [reflexivity | done].
Qed.
Lemma keeps_row f id : invisible f → steps keeps (update_row id f).
Proof.
  intros Hf s b s' H. unfold update_row in H. destruct (st_memories s !! id); inv_tx; [by apply keeps_alter | reflexivity].
Qed.
Ltac solve_invisible := intros ? ? ?; split; [split_and!; cbn; lia || done | reflexivity].

Lemma keeps_delete id : steps keeps (delete_memory id).
Proof.
  intros s b s' H. unfold delete_memory in H. destruct (st_memories s !! id) as [r0|] eqn:Hr; inv_tx; [|reflexivity].
  split.
  - intros j Hj. cbn. rewrite lookup_fmap. destruct (decide (j = id)) as [->|];
      [by rewrite lookup_delete_eq | by rewrite lookup_delete_ne, Hj].
  - intros j a b Ha Hb. cbn in Hb. rewrite lookup_fmap in Hb.
    destruct (decide (j = id)) as [->|]; [by rewrite lookup_delete_eq in Hb|].
    rewrite lookup_delete_ne, Ha in Hb by done. cbn in Hb. simplify_eq.
    unfold clear_superseded_by. case_bool_decide; cbn.
    + split; [split_and!; cbn; lia || done | cbn; lia].
    + split; [reflexivity|]. intros _. unfold visible, memberships_of; cbn. by rewrite !lookup_delete_ne.
Qed.
#[export] Hint Resolve keeps_delete : steps.

Section keeps_ops.
Context `{Render, UnicodeCase, Chrono} (dimensions : Z).

Lemma keeps_mark_superseded old new : steps keeps (mark_superseded old new).
Proof.
  unfold mark_superseded, fetch_memory_by_id. steps_tac. intros s b s' Hs.
  apply (only_keeps old); [eapply steps_only_row; [|exact Hs]; intros r; split_and!; cbn; lia || done|].
  unfold update_row in Hs. destruct (st_memories s !! old) as [r|] eqn:Hr; inv_tx; [left | right; reflexivity].
  intros a b Ha Hb. cbn in Hb. rewrite lookup_alter_eq, Ha in Hb. cbn in Hb. simplify_eq. cbn. lia.
Qed.
#[local] Hint Resolve keeps_mark_superseded : steps.
#[local] Hint Unfold fetch_memory_by_id : steps.

Lemma keeps_authorize {A} id p r (k : Memory → tx A) : (∀ m, steps keeps (k m)) → steps keeps (authorize id p r k).
Proof. intros Hk. unfold authorize, fetch_memory_by_id. steps_tac. Qed.

Lemma keeps_apply_update id u now : steps keeps (apply_update id u now).
Proof. unfold apply_update, fetch_memory_by_id. steps_tac. Qed.
Lemma keeps_update_authorized id u p now a : steps keeps (update_authorized_audited_impl id u p now a).
Proof. apply keeps_authorize. intros m. unfold audit_update. steps_tac. Qed.
Lemma keeps_apply_delete id t : steps keeps (apply_delete id t).
Proof. unfold apply_delete, fetch_memory_by_id. steps_tac. Qed.
Lemma keeps_authorized_delete id p t a : steps keeps (apply_authorized_delete id p t a).
Proof. unfold apply_authorized_delete, fetch_memory_by_id. steps_tac. Qed.
Lemma keeps_delete_if_unmodified id rev p t a : steps keeps (apply_authorized_delete_if_unmodified id rev p t a).
Proof. apply keeps_authorize. intros m. steps_tac. Qed.
Lemma keeps_bulk_delete ids p t a : steps keeps (bulk_delete_ids ids p t a).
Proof. unfold bulk_delete_ids, bulk_delete_one, fetch_memory_by_id. steps_tac. Qed.
Lemma keeps_bulk_update ids u p now a : steps keeps (bulk_update_ids ids u p now a).
Proof. unfold bulk_update_ids, bulk_update_one, fetch_memory_by_id. steps_tac. Qed.
Lemma keeps_claim scope limit now before token : steps keeps (claim_for_reembed_conn scope limit now before token).
Proof.
  unfold claim_for_reembed_conn. steps_tac. apply keeps_row. intros r s0 id. destruct (_ && _); [|split; reflexivity].
  split; [split_and!; cbn; lia || done | reflexivity].
Qed.
#[local] Hint Resolve keeps_claim : steps.
Lemma keeps_claim_scope scope limit now token : steps keeps (claim_for_reembed_with_scope_impl scope limit now token).
Proof. unfold claim_for_reembed_with_scope_impl. steps_tac. Qed.
Lemma keeps_release id rev token : steps keeps (release_embedding_claim_impl id rev token).
Proof.
  intros s b s' Hs. unfold release_embedding_claim_impl in Hs. destruct (st_memories s !! id); [|inv_tx; reflexivity].
  destruct (_ && _); inv_tx; [|reflexivity]. apply keeps_alter. solve_invisible.
Qed.
Lemma keeps_set_embedding id v rev profile : steps keeps (set_embedding_impl dimensions id v rev profile).
Proof. unfold set_embedding_impl. steps_tac. apply keeps_row. solve_invisible. Qed.
Lemma keeps_impression ids now : steps keeps (record_search_impression_impl ids now).
Proof. unfold record_search_impression_impl. steps_tac. apply keeps_row. solve_invisible. Qed.
Lemma keeps_memory_use exp2 ids p w now h : steps keeps (record_memory_use_impl exp2 ids p w now h).
Proof.
  unfold record_memory_use_impl, update_single_memory_use, fetch_memory_by_id. steps_tac. apply keeps_row. solve_invisible.
Qed.
Lemma keeps_supersede id by_ p a : steps keeps (mark_superseded_by_authorized_audited_impl id by_ p a).
Proof. apply keeps_authorize. intros m. steps_tac. Qed.
Lemma keeps_consolidate member representative p a : steps keeps (mark_superseded_if_unchanged member representative p a).
Proof. unfold mark_superseded_if_unchanged, fetch_memory_by_id, consolidation_context_profile. steps_tac. Qed.
End keeps_ops.

(** ** Authorized updates with metadata and memberships *)

Lemma authorize_inv {A} id p refused (k : Memory → tx A) s a s' :
  authorize id p refused k s = Ok (a, s') →
  (st_memories s !! id = None ∧ a = refused WriteOutcome.NotFound ∧ s' = s)
  ∨ ∃ r, st_memories s !! id = Some r ∧
     (has_write_access (row_to_memory id r) p = false ∧ a = refused WriteOutcome.Denied ∧ s' = s
      ∨ has_write_access (row_to_memory id r) p = true ∧ k (row_to_memory id r) s = Ok (a, s')).
Proof.
  unfold authorize, fetch_memory_by_id. intros H. inv_tx.
  destruct (st_memories s !! id) as [r|]; cbn in *; [right; exists r | left; by inv_tx].
  split; [done|]. destruct (has_write_access _ p); cbn in *; [by right | left; by inv_tx].
Qed.

Lemma validate_compatibility_inv id u p s x s' :
  validate_compatibility_cache_update id u p s = Ok (x, s') → s' = s.
Proof.
  unfold validate_compatibility_cache_update, compatibility_scope_key. intros H.
  destruct (_ && _); inv_tx; reflexivity.
Qed.

Lemma optional_validate_inv (c : bool) id u p s x s' :
  (if c then validate_compatibility_cache_update id u p else mret ()) s = Ok (x, s') → s' = s.
Proof. destruct c; [apply validate_compatibility_inv | intros H; by inv_tx]. Qed.

Section metadata_ops.
Context `{Render, UnicodeCase, Chrono} (dimensions : Z).

Lemma increment_bumps id action s x s' : increment_record_revision_conn id action s = Ok (x, s') → bumps id s s'.
Proof.
  unfold increment_record_revision_conn. intros H2. inv_tx. unfold update_row in *.
  destruct (st_memories s !! id) as [r|] eqn:Hr; inv_tx; [|done].
  intros a b Ha Hb. cbn in Hb. rewrite lookup_alter_eq, Ha in Hb. cbn in Hb. simplify_eq. cbn. lia.
Qed.
Lemma only_upsert_merged id patch m p : steps (only id) (upsert_merged_metadata id patch m p).
Proof.
  unfold upsert_merged_metadata, get_metadata_conn. apply steps_bind; [typeclasses eauto | apply steps_reads; typeclasses eauto |].
  intros md. exact (only_upsert_metadata (merge_metadata_patch id patch md _ p)).
Qed.
Lemma only_replace_governed id u patch cs p ca at_ : steps (only id) (replace_governed id u patch cs p ca at_).
Proof. unfold replace_governed. steps_tac. Qed.
Lemma only_write_embedding id e profile : steps (only id) (write_embedding dimensions id e profile).
Proof. unfold write_embedding. steps_tac. apply steps_only_row. intros r. split_and!; cbn; lia || done. Qed.
Lemma quiet_audit_update a u m : steps quiet (audit_update a u m).
Proof. unfold audit_update. eauto with steps. Qed.
Lemma md_memory_id_set_scope sc md : md_memory_id (set_scope_key sc md) = md_memory_id md.
Proof. done. Qed.
#[local] Hint Resolve only_upsert_merged only_replace_governed only_write_embedding quiet_audit_update : steps.

(** The change composed of the row update and what follows it. *)
Lemma keeps_after_update id u now r s s1 s' :
  st_memories s !! id = Some r → s1 = updated_store id u now r s → only id s1 s' →
  (touches_row u = false → bumps id s1 s' ∨ same_at id s1 s') → keeps s s'.
Proof.
  intros Hr -> Ho Hb. pose proof (updated_only id u now s r Hr) as Hupd.
  apply (only_keeps id); [by etrans|]. destruct (touches_row u) eqn:Ht.
  - left. eapply bumps_only; [done | by apply updated_bumps | done].
  - destruct (Hb eq_refl) as [Hb'|Hs]; [left; by eapply only_bumps|]. right.
    by rewrite (updated_same _ _ _ _ _ Hr Ht) in Hs.
Qed.

Lemma touches_metadata_only u patch : touches_row u = false → metadata_only u patch = is_some patch.
Proof.
  unfold touches_row, metadata_only. intros [-> He]%orb_false_iff. destruct (mu_entities u); [done|].
  cbn. by rewrite !andb_true_r.
Qed.

(** Read the statements of an authorized update up to the row update; the
    remaining statements are left as hypothesis [Hrest]. *)
Ltac start_update :=
  match goal with Hrun : authorize _ _ _ _ _ = Ok _ |- _ => apply authorize_inv in Hrun;
  destruct Hrun as [(?&?&->)|(r & Hr & [(?&?&->)|(_ & Hk)])] end; [reflexivity..|];
  inv_tx;
  repeat match goal with
  | Hv : (if _ then validate_compatibility_cache_update _ _ _ else _) _ = Ok _ |- _ =>
      apply optional_validate_inv in Hv; subst
  | Hv : validate_compatibility_cache_update _ _ _ _ = _ |- _ => apply validate_compatibility_inv in Hv; subst
  | Hv : mret _ _ = Ok _ |- _ => apply tx_ret_Ok in Hv; injection Hv as ->
  end;
  match goal with Hi : apply_update_inner ?id ?u ?now ?s = _, Hr : st_memories ?s !! ?id = Some ?r |- _ =>
    apply apply_update_inner_inv in Hi; rewrite Hr in Hi; destruct Hi as [? ->];
    rewrite ?bool_decide_eq_true_2 in * by assumption;
    refine (keeps_after_update id u now r s _ _ Hr eq_refl _ _);
    set (s1 := updated_store id u now r s) in *; clearbody s1
  end.
Ltac only_last := match goal with H : _ ?s = Ok _ |- only ?id ?s _ => refine ((_ : steps (only id) _) _ _ _ H); clear H; steps_tac end.
(** Chain the statements of a run from one state to the next. *)
Ltac only_stmt Hs id := let T := type of Hs in
  match T with ?m ?a = Ok (_, ?b) => refine ((_ : steps (only id) m) _ _ _ Hs); steps_tac end.
Ltac only_chain :=
  match goal with
  | |- only _ ?a ?a => reflexivity
  | Hs : _ ?a = Ok (_, ?b) |- only ?id ?a ?c => transitivity b; [by only_stmt Hs id | only_chain]
  end.
Ltac bump_chain :=
  match goal with
  | Hi : increment_record_revision_conn ?id _ ?a = Ok (_, ?b) |- bumps ?id ?a ?c =>
      apply (bumps_only id a b c); [by only_stmt Hi id | by eapply increment_bumps | only_chain]
  | Hs : _ ?a = Ok (_, ?b) |- bumps ?id ?a ?c =>
      apply (only_bumps id a b c); [by only_stmt Hs id | only_chain | bump_chain]
  end.

Ltac quiet_chain :=
  match goal with
  | |- same_at ?id ?a ?c => cut (quiet a c); [by intros Hq; apply Hq | quiet_chain]
  | |- quiet ?a ?a => reflexivity
  | Hs : ?m ?a = Ok (_, ?b) |- quiet ?a ?c =>
      transitivity b; [refine ((_ : steps quiet m) _ _ _ Hs); by steps_tac | quiet_chain]
  end.

Lemma keeps_update_with_metadata id u patch p now audit :
  steps keeps (apply_authorized_update_with_metadata id u patch p now audit).
Proof.
  unfold apply_authorized_update_with_metadata. intros s o s' Hrun. start_update; [by only_last|].
  intros Ht. rewrite (touches_metadata_only _ _ Ht) in *. destruct patch as [patch|]; cbn in *; inv_tx.
  - left. bump_chain.
  - right. quiet_chain.
Qed.

Lemma keeps_update_with_metadata_contexts id u patch cs p now audit ca :
  steps keeps (apply_authorized_update_with_metadata_contexts id u patch cs p now audit ca).
Proof.
  unfold apply_authorized_update_with_metadata_contexts. apply steps_bind; [typeclasses eauto|..]; [steps_tac|intros _].
  intros s o s' Hrun. start_update; [by only_last|].
  intros Ht. rewrite (touches_metadata_only _ _ Ht) in *. destruct patch as [patch|]; cbn in *; inv_tx.
  - left. bump_chain.
  - destruct cs as [cs|]; cbn in *; inv_tx; [|right; quiet_chain].
    unfold replace_governed in *. inv_tx. done.
Qed.

Lemma quiet_replacement_scope cs : steps quiet (replacement_scope cs).
Proof. unfold replacement_scope. steps_tac. Qed.
Lemma only_replace_if_unmodified id cs p ca at_ : steps (only id) (replace_governed_if_unmodified id cs p ca at_).
Proof.
  unfold replace_governed_if_unmodified, get_metadata_conn. intros s x s' Hrun. inv_tx.
  match goal with Hs : replacement_scope _ _ = Ok (?sc, ?s1) |- only _ _ _ =>
    transitivity s1; [apply quiet_only; by eapply quiet_replacement_scope|] end.
  match goal with Hs : upsert_metadata_conn ?md _ = Ok (_, ?s2) |- only _ _ _ =>
    assert (md_memory_id md = id) as Hid by (by destruct (st_metadata _ !! id));
    transitivity s2; [rewrite <- Hid; by eapply only_upsert_metadata|] end.
  only_chain.
Qed.
#[local] Hint Resolve only_replace_if_unmodified : steps.

(** The stages of an optimistic update in a successful run. *)
Definition if_unmodified_stages id rev u patch cs (e : option (list f64)) profile p now audit ca r s o s' : Prop :=
  let m := row_to_memory id r in
  let at_ := next_memory_revision now (m_updated_at m) in
  r_record_revision r = rev ∧ is_some e && is_none (mu_content u) = false
  ∧ ∃ o1 s2 s3 s4 s5,
    (match e with
     | None => mret o1
     | Some e => write_embedding dimensions id e profile ≫= λ _, mret (update_outcome (ao_outcome o1) None)
     end) (updated_store id u at_ r s) = Ok (o, s2)
    ∧ ao_outcome o1 = WriteOutcome.Applied
    ∧ when_some patch (λ patch, upsert_merged_metadata id patch m p) s2 = Ok ((), s3)
    ∧ (if (is_some patch || is_some cs) && negb (has_column_updates u) && is_none (mu_entities u)
       then increment_record_revision_conn id "saving" else mret ()) s3 = Ok ((), s4)
    ∧ when_some cs (λ cs, replace_governed_if_unmodified id cs p ca at_) s4 = Ok ((), s5)
    ∧ insert_audit_draft id (update_audit_draft_for_locked_memory audit u m) s5 = Ok ((), s').
Lemma update_if_unmodified_inv id rev u patch cs e profile p now audit ca s o s' :
  apply_authorized_update_if_unmodified_with_metadata dimensions id rev u patch cs e profile p now audit ca s = Ok (o, s') →
  (st_memories s !! id = None ∧ o = refused_update WriteOutcome.NotFound ∧ s' = s)
  ∨ ∃ r, st_memories s !! id = Some r ∧
    (has_write_access (row_to_memory id r) p = false ∧ o = refused_update WriteOutcome.Denied ∧ s' = s
     ∨ has_write_access (row_to_memory id r) p = true
       ∧ if_unmodified_stages id rev u patch cs e profile p now audit ca r s o s').
Proof.
  unfold apply_authorized_update_if_unmodified_with_metadata. intros Hrun.
  apply tx_bind_Ok in Hrun as ([]&?&Hc&Hrun). apply throw_if_Ok in Hc as [He [= ->]].
  apply tx_bind_Ok in Hrun as ([]&s0&Hv&Hrun).
  assert (s0 = s) as -> by (destruct e; cbn in Hv; by inv_tx). clear Hv.
  apply tx_bind_Ok in Hrun as ([]&?&Hc&Hrun). apply throw_if_Ok in Hc as [_ [= ->]].
  apply authorize_inv in Hrun as [?|(r & Hr & [?|(Hacc & Hk)])]; [by left|right; exists r; auto..].
  split; [done|]. right. split; [done|]. inv_tx.
  match goal with Hv : (if _ then _ else _) _ = _ |- _ => apply optional_validate_inv in Hv; subst end.
  match goal with Hi : apply_update_inner _ _ _ _ = _ |- _ => apply apply_update_inner_inv in Hi; rewrite Hr in Hi; destruct Hi as [? ->] end.
  split; [cbn in *; lia|]. split; [done|]. do 5 eexists. repeat (split; [eassumption|]). eassumption.
Qed.

Lemma keeps_update_if_unmodified id rev u patch cs e profile p now audit ca :
  steps keeps (apply_authorized_update_if_unmodified_with_metadata dimensions id rev u patch cs e profile p now audit ca).
Proof.
  intros s o s' [(?&?&->)|(r & Hr & [(?&?&->)|(_ & _ & He & o1 & s2 & s3 & s4 & s5 & H2 & _ & H3 & H4 & H5 & H6)])]%update_if_unmodified_inv;
    [reflexivity..|].
  refine (keeps_after_update id u (next_memory_revision now (m_updated_at (row_to_memory id r))) r s _ s' Hr eq_refl _ _);
    [only_chain|]. intros Ht.
  assert (e = None) as -> by (destruct (untouched u Ht) as (Hn&_); rewrite Hn, andb_true_r in He; by destruct e).
  assert (negb (has_column_updates u) && is_none (mu_entities u) = true) as Hg.
  { unfold touches_row in Ht. apply orb_false_iff in Ht as [-> ?]. by destruct (mu_entities u). }
  rewrite <- andb_assoc, Hg, andb_true_r in *.
  destruct (is_some patch || is_some cs) eqn:Hpc; inv_tx.
  - left. bump_chain.
  - right. apply orb_false_iff in Hpc as [? ?]. destruct patch, cs; try done; cbn in *. inv_tx. quiet_chain.
Qed.
End metadata_ops.

(** ** Insertions *)

Lemma grows_but_mono ids s s' : grows s s' → grows_but ids s s'.
Proof. intros G id a Ha. destruct (G _ _ Ha) as (b & Hb & Hs). exists b. split; [done|]. intros _. apply Hs. set_solver. Qed.
Lemma quiet_grows s s' : quiet s s' → grows s s'.
Proof.
  intros Q id a Ha. exists a. destruct (Q id) as (E&R). split; [congruence|]. intros _.
  eapply same_at_snap; [apply Q | done | congruence].
Qed.
Lemma steps_quiet_grows ids {A} (m : tx A) : steps quiet m → steps (grows_but ids) m.
Proof. apply steps_weaken. intros ??. by intros ?%quiet_grows%(grows_but_mono ids). Qed.
Lemma steps_only_grows id {A} (m : tx A) : steps (only id) m → steps (grows_but {[id]}) m.
Proof. apply steps_weaken, only_grows_but. Qed.
#[export] Hint Resolve steps_quiet_grows steps_only_grows | 10 : steps.

Section grows_ops.
Context `{Render, UnicodeCase, Chrono} (dimensions : Z).

Lemma grows_mark_superseded ids old new : steps (grows_but ids) (mark_superseded old new).
Proof.
  apply (steps_weaken grows); [intros ??; apply grows_but_mono|].
  unfold mark_superseded, fetch_memory_by_id. steps_tac. intros s b s' Hs.
  apply (only_grows old); [eapply steps_only_row; [|exact Hs]; intros r; split_and!; cbn; lia || done|].
  unfold update_row in Hs. destruct (st_memories s !! old) as [r|] eqn:Hr; inv_tx; [left | right; reflexivity].
  intros a b Ha Hb. cbn in Hb. rewrite lookup_alter_eq, Ha in Hb. cbn in Hb. simplify_eq. cbn. lia.
Qed.
#[local] Hint Resolve grows_mark_superseded : steps.

Lemma grows_insert_row p : steps (grows_but {[pm_id p]}) (insert_row p).
Proof.
  intros s x s' Hs. unfold insert_row in Hs. destruct (st_memories s !! pm_id p) eqn:Hn; inv_tx.
  intros j a Ha. exists a. cbn. assert (j ≠ pm_id p) by congruence. rewrite lookup_insert_ne by done.
  split; [done|]. intros _. split; [reflexivity | done].
Qed.
#[local] Hint Resolve grows_insert_row : steps.

(** What a successful insertion says of the states before and after. *)
Definition inserts (id : MemoryId) (s s' : Store) : Prop :=
  st_memories s !! id = None ∧ grows_but {[id]} s s'.
Lemma insert_inv p s id s' : insert dimensions p s = Ok (id, s') → id = pm_id p ∧ inserts id s s'.
Proof.
  unfold insert. intros Hr. assert (steps (grows_but {[pm_id p]}) (insert dimensions p)) as Hg by (unfold insert; steps_tac).
  specialize (Hg _ _ _ Hr). inv_tx. split; [done|]. split; [|done].
  unfold insert_row in *. by destruct (st_memories s !! pm_id p).
Qed.
Lemma inserts_grows id s s' : inserts id s s' → grows s s'.
Proof. intros [Hn Hg]. by eapply grows_but_new. Qed.
Lemma inserts_then id s s' s'' : inserts id s s' → grows_but {[id]} s' s'' → inserts id s s''.
Proof. intros [Hn Hg] Hg'. split; [done | by etrans]. Qed.

Lemma validate_superseded_inv sid s x s' : validate_superseded_exists sid s = Ok (x, s') → s' = s.
Proof. unfold validate_superseded_exists. intros Hs. by inv_tx. Qed.
Lemma optional_superseded_inv o s x s' : when_some o validate_superseded_exists s = Ok (x, s') → s' = s.
Proof. destruct o; cbn; [apply validate_superseded_inv | intros Hs; by inv_tx]. Qed.

Lemma insert_prepared_inv p sup a s id s' :
  insert_prepared_with_optional_supersession_and_audit dimensions p sup a s = Ok (id, s') →
  id = pm_id p ∧ inserts id s s'.
Proof.
  unfold insert_prepared_with_optional_supersession_and_audit. intros Hr. inv_tx.
  match goal with Hv : when_some sup validate_superseded_exists _ = _ |- _ => apply optional_superseded_inv in Hv as -> end.
  match goal with Hi : insert _ _ _ = _ |- _ => apply insert_inv in Hi as [-> Hi] end.
  split; [done|]. eapply inserts_then; [done|].
  match goal with Hw : when_some sup _ ?a = Ok (_, ?b), Ha : insert_optional_audit_draft _ _ ?b = Ok (_, ?c) |- grows_but _ ?a ?c =>
    transitivity b; [refine ((_ : steps (grows_but _) _) _ _ _ Hw) | refine ((_ : steps (grows_but _) _) _ _ _ Ha)]; steps_tac end.
Qed.

Ltac insert_start :=
  inv_tx;
  repeat match goal with
  | Hv : when_some _ validate_superseded_exists _ = _ |- _ => apply optional_superseded_inv in Hv; subst
  | Hv : validate_superseded_exists _ _ = _ |- _ => apply validate_superseded_inv in Hv; subst
  | Hi : insert _ _ _ = _ |- _ => apply insert_inv in Hi as [-> Hi]
  | Hi : insert_prepared_with_optional_supersession_and_audit _ _ _ _ _ = _ |- _ => apply insert_prepared_inv in Hi as [-> Hi]
  end.
Ltac grow_chain :=
  match goal with
  | |- grows_but _ ?a ?a => reflexivity
  | Hs : ?m ?a = Ok (_, ?b) |- grows_but ?ids ?a ?c =>
      transitivity b; [refine ((_ : steps (grows_but ids) m) _ _ _ Hs); by steps_tac | grow_chain]
  end.
Ltac insert_done := eapply inserts_grows, inserts_then; [eassumption | grow_chain].

Lemma grows_store m e a : steps grows (store_audited_impl dimensions m e a).
Proof. unfold store_audited_impl. intros s x s' Hr. insert_start. insert_done. Qed.
Lemma grows_store_with_supersession m e sup a : steps grows (store_with_supersession_audited_impl dimensions m e sup a).
Proof. unfold store_with_supersession_audited_impl. intros s x s' Hr. insert_start. insert_done. Qed.

Lemma validate_metadata_memory_id_Ok id md u : validate_metadata_memory_id id md = Ok u → md_memory_id md = id.
Proof. unfold validate_metadata_memory_id. intros Hb%bail_if_Ok. by apply negb_false_iff, N.eqb_eq in Hb. Qed.
Lemma validate_governed_Ok m md p : validate_governed_write m md = Ok p →
  md_memory_id md = m_id m ∧ source_conversation (m_provenance m) = Some (metadata_scope md)
  ∧ source_principal m = Some p.
Proof.
  unfold validate_governed_write. intros Hb. simpl_res. split_and!; [by eapply validate_metadata_memory_id_Ok| |done].
  by apply negb_false_iff, bool_decide_eq_true in H3.
Qed.
Lemma upsert_metadata_grows md id : md_memory_id md = id → steps (grows_but {[id]}) (upsert_metadata_conn md).
Proof. intros <-. apply steps_only_grows, only_upsert_metadata. Qed.
#[local] Hint Extern 1 (steps (grows_but _) (upsert_metadata_conn _)) => (apply upsert_metadata_grows; assumption) : steps.
#[local] Hint Unfold insert_initial_memory_contexts_sqlite : steps.

Lemma grows_store_with_metadata m e sup md a : steps grows (store_with_metadata_audited_impl dimensions m e sup md a).
Proof.
  unfold store_with_metadata_audited_impl. intros s x s' Hr. insert_start.
  match goal with Hv : validate_metadata_memory_id _ _ = Ok _ |- _ => apply validate_metadata_memory_id_Ok in Hv end.
  insert_done.
Qed.
Lemma grows_store_governed m e sup md cs a ca now :
  steps grows (store_with_metadata_contexts_audited_impl dimensions m e sup md cs a ca now).
Proof.
  unfold store_with_metadata_contexts_audited_impl, insert_initial_memory_contexts_sqlite. intros s x s' Hr. insert_start.
  match goal with Hv : validate_governed_write _ _ = Ok _ |- _ => apply validate_governed_Ok in Hv as (?&_) end.
  insert_done.
Qed.
Lemma grows_store_batch ms audits : steps grows (store_batch_audited_impl dimensions ms audits).
Proof. unfold store_batch_audited_impl, check_len. steps_tac. intros s y s' Hr. insert_start. insert_done. Qed.
Lemma grows_store_batch_superseding ms sup audits : steps grows (store_batch_with_supersession_audited_impl dimensions ms sup audits).
Proof.
  unfold store_batch_with_supersession_audited_impl, batch_store_with_supersession_and_audit, check_len.
  do 3 (apply steps_bind; [typeclasses eauto | steps_tac | intros _]).
  apply steps_map; [typeclasses eauto|]. intros x _ s y s' Hr. insert_start. insert_done.
Qed.

Lemma zip_lookup_ids (ms : list MemoryWithEmbedding) (mds : list MemoryMetadata) u :
  try_for_each (λ p, validate_metadata_memory_id (m_id (we_memory (fst p))) (snd p)) (zip ms mds) = Ok u →
  ∀ i m md, ms !! i = Some m → mds !! i = Some md → md_memory_id md = m_id (we_memory m).
Proof.
  destruct u. intros Hf%try_for_each_Ok i m md Hm Hd.
  assert (zip ms mds !! i = Some (m, md)) as Hz by (apply lookup_zip_with_Some; eauto).
  eapply Forall_lookup_1 in Hf; [|exact Hz]. by apply validate_metadata_memory_id_Ok in Hf.
Qed.
Lemma steps_after_check (R : relation Store) `{!PreOrder R} {A B} (r : result StoreError.t A) (m : tx B) :
  (∀ a, r = Ok a → steps R m) → steps R (_ ← of_result r; m).
Proof. intros Hm s b s' Hr. inv_tx. by eapply Hm. Qed.

Lemma grows_store_batch_with_metadata ms sup mds audits :
  steps grows (store_batch_with_metadata_audited_impl dimensions ms sup mds audits).
Proof.
  unfold store_batch_with_metadata_audited_impl, check_len.
  do 3 (apply steps_bind; [typeclasses eauto | steps_tac | intros _]).
  apply steps_after_check; [typeclasses eauto|]. intros u Hids. apply steps_map; [typeclasses eauto|].
  intros p (i & pr & -> & Hp)%elem_of_lookup_imap_1 s y s' Hr. insert_start. cbn in *.
  rewrite list_lookup_fmap in Hp. destruct (ms !! i) as [m|] eqn:Hm; cbn in Hp; simplify_eq.
  destruct (mds !! i) as [md|] eqn:Hd; insert_start.
  pose proof (zip_lookup_ids _ _ _ Hids _ _ _ Hm Hd). insert_done.
Qed.

Lemma elem_of_zip_governed ms ss ds cs as_ xs m s d c a x :
  (m, s, d, c, a, x) ∈ zip_governed ms ss ds cs as_ xs → (m, d) ∈ zip ms ds.
Proof.
  revert ss ds cs as_ xs. induction ms as [|m0 ms IH]; intros [|s0 ss] [|d0 ds] [|c0 cs] [|a0 as_] [|x0 xs]; cbn;
    rewrite ?elem_of_nil, ?elem_of_cons; try done.
  intros [[= -> -> -> -> -> ->]|Hin]; [by left | right; by eapply IH].
Qed.
Lemma grows_store_batch_governed ms sup mds cs audits cas now :
  steps grows (store_batch_with_metadata_contexts_audited_impl dimensions ms sup mds cs audits cas now).
Proof.
  unfold store_batch_with_metadata_contexts_audited_impl, insert_initial_memory_contexts_sqlite.
  apply steps_bind; [typeclasses eauto | steps_tac | intros _].
  apply steps_after_check; [typeclasses eauto|]. intros [] Hv%try_for_each_Ok. apply steps_map; [typeclasses eauto|].
  intros [[[[[m sid] md] cx] a] ca] Hin%elem_of_zip_governed s y s' Hr.
  rewrite list.Forall_forall in Hv. specialize (Hv _ Hin). cbn in Hv. simpl_res.
  match goal with Hg : validate_governed_write _ _ = Ok _ |- _ => apply validate_governed_Ok in Hg as (?&_) end.
  insert_start. insert_done.
Qed.
End grows_ops.

(** ** Maintenance *)

(** Only the memories of [ids] change, and their counters do not go back. *)
Definition only_these (ids : gset MemoryId) (s s' : Store) : Prop :=
  ∀ id, same_at id s s' ∨ (id ∈ ids
    ∧ match st_memories s !! id, st_memories s' !! id with
      | Some a, Some b => row_le a b
      | None, None => True
      | _, _ => False
      end).
Lemma same_row_le id s s' : same_at id s s' →
  match st_memories s !! id, st_memories s' !! id with Some a, Some b => row_le a b | None, None => True | _, _ => False end.
Proof. intros (<-&_). destruct (st_memories s !! id); [reflexivity|done]. Qed.
#[export] Instance only_these_preorder ids : PreOrder (only_these ids).
Proof.
  split; [intros s id; by left|]. intros s s' s'' Ha Hb id.
  destruct (Ha id) as [Sa|[Hid Ra]], (Hb id) as [Sb|[Hid' Rb]]; [left; by etrans|right..]; (split; [assumption|]).
  - destruct Sa as (->&_). done.
  - destruct Sb as (<-&_). done.
  - destruct (st_memories s !! id), (st_memories s' !! id), (st_memories s'' !! id); try done. by etrans.
Qed.
Lemma quiet_these ids s s' : quiet s s' → only_these ids s s'.
Proof. intros Hq id. left. apply Hq. Qed.
Lemma only_only_these ids id s s' : id ∈ ids → only id s s' → only_these ids s s'.
Proof. intros Hid [Ho Hi] j. destruct (decide (j = id)) as [->|Hj]; [by right|left; by apply Ho]. Qed.
Lemma bumps_these ids id s s' s'' : bumps id s s' → only_these ids s' s'' → bumps id s s''.
Proof.
  intros Hb Ho a c Ha Hc. pose proof (Ho id) as Hi. rewrite Hc in Hi.
  destruct (st_memories s' !! id) as [b|] eqn:Eb; [specialize (Hb _ _ Ha Eb)|destruct Hi as [(E&_)|[_ []]]; congruence].
  destruct Hi as [(E&_)|[_ (?&_)]]; [assert (b = c) as -> by congruence|]; lia.
Qed.
Lemma these_bumps ids id s s' s'' : only_these ids s s' → bumps id s' s'' → bumps id s s''.
Proof.
  intros Ho Hb a c Ha Hc. pose proof (Ho id) as Hi. rewrite Ha in Hi.
  destruct (st_memories s' !! id) as [b|] eqn:Eb; [specialize (Hb _ _ Eb Hc)|destruct Hi as [(E&_)|[_ []]]; congruence].
  destruct Hi as [(E&_)|[_ (?&_)]]; [assert (a = b) as -> by congruence|]; lia.
Qed.
Lemma these_keeps ids s s' : only_these ids s s' → (∀ id, id ∈ ids → bumps id s s') → keeps s s'.
Proof.
  intros Ho Hb. split.
  - intros id Hn. destruct (Ho id) as [(E&_)|[_ Hi]]; [congruence|]. rewrite Hn in Hi. by destruct (st_memories s' !! id).
  - intros id a b Ha Hb'. destruct (Ho id) as [Hs|[Hid Hi]]; [by eapply same_at_snap|].
    rewrite Ha, Hb' in Hi. split; [done|]. specialize (Hb id Hid _ _ Ha Hb'). lia.
Qed.

Lemma concat_chunks_fuel {A} fuel n (l : list A) :
  (0 < n)%nat → (length l ≤ fuel)%nat → concat (chunks_fuel fuel n l) = l.
Proof.
  revert l. induction fuel as [|fuel IH]; intros [|x l] Hn Hl; cbn [chunks_fuel]; try done; [cbn in Hl; lia|].
  cbn [concat]. rewrite IH; [apply take_drop|done|]. rewrite length_drop. cbn in *. lia.
Qed.
Lemma concat_chunks {A} n (l : list A) : (0 < n)%nat → concat (chunks n l) = l.
Proof. intros Hn. by apply concat_chunks_fuel. Qed.
Lemma elem_of_chunk {A} n (l k : list A) x : (0 < n)%nat → k ∈ chunks n l → x ∈ k → x ∈ l.
Proof.
  intros Hn Hk Hx. rewrite <- (concat_chunks n l) by done. apply list_elem_of_In, in_concat. exists k.
  by rewrite <- !list_elem_of_In.
Qed.

Section maintenance.
Context `{Render, UnicodeCase}.

Lemma quiet_insert_context c : steps quiet (insert_context c).
Proof.
  unfold insert_context, constraint. intros s u s' Hs. inv_tx.
  match goal with Hc : (if ?b then _ else _) = _ |- _ => destruct b; inv_tx end. done.
Qed.
Lemma quiet_context_audit_row a c m now : steps quiet (insert_context_audit a c m now).
Proof. unfold insert_context_audit. steps_tac. Qed.
Lemma quiet_writable_by p id : steps quiet (writable_by p id).
Proof. unfold writable_by, fetch_memory_by_id. steps_tac. Qed.
#[local] Hint Resolve quiet_insert_context quiet_context_audit_row quiet_writable_by : steps.
Lemma quiet_resolve_legacy fresh key p now : steps quiet (resolve_or_create_private_legacy_context fresh key p now).
Proof. unfold resolve_or_create_private_legacy_context. steps_tac. Qed.
Lemma quiet_tombstone_envelope m at_ by_ : steps quiet (insert_authorization_tombstone m at_ by_).
Proof. unfold insert_authorization_tombstone. eauto with steps. Qed.
#[local] Hint Resolve quiet_resolve_legacy quiet_tombstone_envelope : steps.

Lemma keeps_evict scope now a : steps keeps (evict_expired_conn now scope a).
Proof. unfold evict_expired_conn, evict_one. steps_tac. Qed.

(** A change of one memory followed by the increment of its revision. *)
Lemma increment_keeps id action s s0 x s' :
  only id s s0 → increment_record_revision_conn id action s0 = Ok (x, s') → keeps s s'.
Proof.
  intros Ho Hi. apply (only_keeps id); [etrans; [exact Ho|by eapply only_increment]|]. left.
  eapply only_bumps; [exact Ho|by eapply only_increment|by eapply increment_bumps].
Qed.
Lemma keeps_optional_audit id a : steps keeps (insert_optional_audit_draft id a).
Proof. eauto with steps. Qed.
Lemma keeps_upsert_metadata md a : steps keeps (upsert_metadata_audited_impl md a).
Proof.
  unfold upsert_metadata_audited_impl, fetch_memory_by_id, compatibility_scope_key. intros s u s' Hs. inv_tx.
  match goal with Hi : increment_record_revision_conn _ _ _ = Ok (_, ?s2) |- _ =>
    transitivity s2; [|by eapply keeps_optional_audit]; eapply increment_keeps, Hi; by eapply only_upsert_metadata end.
Qed.

Lemma insert_missing_metadata_inv md s b s' : insert_missing_metadata md s = Ok (b, s') →
  if b then only (md_memory_id md) s s' else s' = s.
Proof.
  unfold insert_missing_metadata. intros Hs. inv_tx. destruct (is_some _); inv_tx; [done|].
  match goal with Hr : require_row _ _ = Ok (_, ?s1) |- _ => transitivity s1; [apply quiet_only; by eapply quiet_require_row|] end.
  apply only_metadata. intros t j Hj. by rewrite lookup_insert_ne.
Qed.
Lemma keeps_migration_row a n row : steps keeps (insert_metadata_migration_row a n row).
Proof.
  unfold insert_metadata_migration_row. intros s u s' Hs. inv_tx.
  match goal with Hi : insert_missing_metadata _ _ = Ok (?b, _) |- _ => apply insert_missing_metadata_inv in Hi; destruct b; inv_tx end;
    [|subst; reflexivity].
  match goal with Hi : increment_record_revision_conn _ _ _ = Ok (_, ?s2) |- _ =>
    transitivity s2; [by eapply increment_keeps|by eapply keeps_optional_audit] end.
Qed.
#[local] Hint Resolve keeps_migration_row : steps.
Lemma keeps_migrate dry a : steps keeps (migrate_metadata_audited_impl dry a).
Proof. unfold migrate_metadata_audited_impl. steps_tac. Qed.

(** Reassignment: every stage of a chunk touches the memories of the chunk
    only, and one of the stages advances every revision. *)
Lemma these_fold {A} ids (f : A → MemoryId → tx A) acc chunk :
  (∀ x id, id ∈ ids → steps (only_these ids) (f x id)) → (∀ id, id ∈ chunk → id ∈ ids) → steps (only_these ids) (tx_fold f acc chunk).
Proof. intros Hf Hin. apply steps_fold_in; [typeclasses eauto|]. intros x id Hid. by apply Hf, Hin. Qed.
Lemma steps_only_these ids id {A} (m : tx A) : id ∈ ids → steps (only id) m → steps (only_these ids) m.
Proof. intros Hid. apply steps_weaken. intros ??. by apply only_only_these. Qed.
Lemma steps_quiet_these ids {A} (m : tx A) : steps quiet m → steps (only_these ids) m.
Proof. apply steps_weaken, quiet_these. Qed.
Lemma only_move_memberships params target scope id : steps (only id) (move_memberships params target scope id).
Proof.
  unfold move_memberships, rewrite_memberships. steps_tac.
  apply only_memberships. intros t j Hj. by rewrite lookup_delete_ne.
Qed.
Lemma increments_bump action chunk s u s' id :
  tx_fold (λ _ id, increment_record_revision_conn id action) () chunk s = Ok (u, s') → id ∈ chunk → bumps id s s'.
Proof.
  revert s. induction chunk as [|x l IH]; intros s Hs Hid; [by apply elem_of_nil in Hid|].
  cbn [tx_fold] in Hs. apply tx_bind_Ok in Hs as ([] & s1 & H1' & Hs).
  assert (Ho : ∀ j l s u s', tx_fold (λ _ id, increment_record_revision_conn id action) () l s = Ok (u, s') → only_these (list_to_set (j :: l)) s s').
  { clear. intros j l s u s'. apply these_fold; [|intros i Hi; apply elem_of_list_to_set; by right].
    intros x i Hi. by eapply steps_only_these, only_increment. }
  destruct (decide (id = x)) as [->|Hne].
  - eapply bumps_these; [by eapply increment_bumps|by eapply (Ho x)].
  - apply elem_of_cons in Hid as [|Hid]; [done|]. eapply these_bumps; [|by eapply IH].
    eapply (only_only_these {[x]} x); [set_solver|by eapply only_increment].
Qed.
Lemma reassign_chunk_stages params target scope chunk s u s' (ids := list_to_set chunk : gset MemoryId) :
  reassign_chunk params target scope chunk s = Ok (u, s') →
  ∃ s1 s2 u2, only_these ids s s1
    ∧ tx_fold (λ _ id, increment_record_revision_conn id "reassigning scope") () chunk s1 = Ok (u2, s2)
    ∧ only_these ids s1 s2 ∧ only_these ids s2 s'.
Proof.
  unfold reassign_chunk. intros Hs.
  assert (Hin : ∀ id, id ∈ chunk → id ∈ ids) by (intros id Hid; by apply elem_of_list_to_set).
  apply tx_bind_Ok in Hs as ([] & s1 & E1 & Hs). apply tx_bind_Ok in Hs as ([] & s2 & E2 & Hs).
  apply tx_bind_Ok in Hs as ([] & s3 & E3 & Hs). apply tx_bind_Ok in Hs as ([] & s4 & E4 & Hs).
  exists s1, s2, (). split_and!; [|done| |].
  - refine (these_fold ids _ _ chunk _ Hin _ _ _ E1). intros x id Hid. apply (steps_only_these _ id); [done|].
    apply steps_bind; [typeclasses eauto| |intros ?; apply steps_ret; typeclasses eauto].
    apply steps_only_row. intros r. split_and!; cbn; lia || done.
  - refine (these_fold ids _ _ chunk _ Hin _ _ _ E2). intros x id Hid. by apply (steps_only_these _ id), only_increment.
  - transitivity s3; [|transitivity s4].
    + refine (these_fold ids _ _ chunk _ Hin _ _ _ E3). intros x id Hid. apply (steps_only_these _ id); [done|].
      apply steps_writes. intros s0. apply only_metadata. intros t j Hj. by rewrite lookup_alter_ne.
    + refine (these_fold ids _ _ chunk _ Hin _ _ _ E4). intros x id Hid. apply (steps_only_these _ id); [done|].
      apply only_move_memberships.
    + refine (these_fold ids _ _ chunk _ Hin _ _ _ Hs). intros x id Hid. apply steps_quiet_these, quiet_optional_audit.
Qed.
Lemma these_reassign_chunk params target scope chunk : steps (only_these (list_to_set chunk)) (reassign_chunk params target scope chunk).
Proof. intros s u s' (s1 & s2 & _ & O1 & _ & O2 & O3)%reassign_chunk_stages. by etrans; [|etrans]. Qed.
Lemma keeps_reassign_chunk params target scope chunk : steps keeps (reassign_chunk params target scope chunk).
Proof.
  intros s u s' Hs. pose proof (reassign_chunk_stages _ _ _ _ _ _ _ Hs) as (s1 & s2 & u2 & O1 & E & _ & O2).
  apply (these_keeps (list_to_set chunk)); [by eapply these_reassign_chunk|]. intros id Hid%elem_of_list_to_set.
  eapply these_bumps; [exact O1|]. eapply bumps_these; [by eapply increments_bump|exact O2].
Qed.
#[local] Hint Resolve keeps_reassign_chunk : steps.
Lemma writable_by_run p id s : writable_by p id s =
  Ok (match st_memories s !! id with Some r => has_write_access (row_to_memory id r) p | None => false end, s).
Proof. unfold writable_by, fetch_memory_by_id, mbind, tx_bind, reads. cbn. by destruct (st_memories s !! id). Qed.
(** The memories selected may be written by the principal. *)
Lemma authorized_ids_inv p l acc s ids s' :
  tx_fold (λ acc id, ok ← writable_by p id; mret (if ok : bool then acc ++ [id] else acc)) acc l s = Ok (ids, s') →
  s' = s ∧ ∀ id, id ∈ ids → id ∈ acc ∨ ∃ r, st_memories s !! id = Some r ∧ has_write_access (row_to_memory id r) p = true.
Proof.
  revert acc. induction l as [|x l IH]; intros acc Hs; cbn [tx_fold] in Hs; [inv_tx; split; [done|by left]|].
  apply tx_bind_Ok in Hs as (acc1 & s1 & Hone & Hs). apply tx_bind_Ok in Hone as (ok & s2 & Hok & Hret).
  rewrite writable_by_run in Hok. inv_tx. apply IH in Hs as [-> Hin]. split; [done|].
  intros id Hid. destruct (Hin id Hid) as [Ha|?]; [|by right]. revert Ha. destruct (st_memories _ !! x) as [r|] eqn:Hx; [|by left].
  destruct (has_write_access _ p) eqn:Hw; [|by left]. intros [?| ->%list_elem_of_singleton]%elem_of_app; [by left|right; eauto].
Qed.
Lemma keeps_reassign fresh scan params : steps keeps (apply_reassign_scope fresh scan params).
Proof. unfold apply_reassign_scope. steps_tac. Qed.
End maintenance.
