(* ===== verification/Operations.v ===== *)
(** * Operations: the memory store as a transition system

    [operation] lists the writing operations of Crud.v, [run] executes one as
    [with_conn] does, and the theorems speak about every sequence of them:
    what the revision counters promise, that a vector always belongs to the
    content it was computed from, and the well-formedness of the tables. *)
From Stdlib Require Import ZArith Lia.
From stdpp Require Import base list option strings gmap sets pretty.
From S2P Require Import Prelude Text Floats Lists Errors Types Context StoreTypes Ranking Store Membership Crud ContextAdmin Admin Revisions.

Inductive operation :=
| OpStore (m : Memory) (e : option (list f64)) (a : option AuditDraft)
| OpStoreSuperseding (m : Memory) (e : option (list f64)) (sup : MemoryId) (a : option AuditDraft)
| OpStoreWithMetadata (m : Memory) (e : option (list f64)) (sup : option MemoryId) (md : MemoryMetadata) (a : option AuditDraft)
| OpStoreGoverned (m : Memory) (e : option (list f64)) (sup : option MemoryId) (md : MemoryMetadata)
    (cs : list ContextId) (a : AuditDraft) (ca : ContextAuditDraft) (now : DateTime)
| OpStoreBatch (ms : list MemoryWithEmbedding) (a : option (list AuditDraft))
| OpStoreBatchSuperseding (ms : list MemoryWithEmbedding) (sup : list (option MemoryId)) (a : option (list AuditDraft))
| OpStoreBatchWithMetadata (ms : list MemoryWithEmbedding) (sup : list (option MemoryId)) (mds : list MemoryMetadata)
    (a : option (list AuditDraft))
| OpStoreBatchGoverned (ms : list MemoryWithEmbedding) (sup : list (option MemoryId)) (mds : list MemoryMetadata)
    (cs : list (list ContextId)) (a : list AuditDraft) (ca : list ContextAuditDraft) (now : DateTime)
| OpUpdate (id : MemoryId) (u : MemoryUpdate) (now : DateTime)
| OpUpdateAuthorized (id : MemoryId) (u : MemoryUpdate) (p : string) (now : DateTime) (a : option AuditDraft)
| OpUpdateWithMetadata (id : MemoryId) (u : MemoryUpdate) (patch : option MetadataPatch) (p : string) (now : DateTime)
    (a : option AuditDraft)
| OpUpdateGoverned (id : MemoryId) (u : MemoryUpdate) (patch : option MetadataPatch) (cs : option (list ContextId))
    (p : string) (now : DateTime) (a : AuditDraft) (ca : option ContextAuditDraft)
| OpUpdateIfUnmodified (id : MemoryId) (rev : Z) (u : MemoryUpdate) (patch : option MetadataPatch)
    (cs : option (list ContextId)) (e : option (list f64)) (profile : option EmbeddingProfile) (p : string)
    (now : DateTime) (a : AuditDraft) (ca : option ContextAuditDraft)
| OpDelete (id : MemoryId) (at_ : DateTime)
| OpDeleteAuthorized (id : MemoryId) (p : string) (at_ : DateTime) (a : option AuditDraft)
| OpDeleteIfUnmodified (id : MemoryId) (rev : Z) (p : string) (at_ : DateTime) (a : AuditDraft)
| OpBulkDelete (ids : list MemoryId) (p : string) (at_ : DateTime) (a : option AuditDraft)
| OpBulkUpdate (ids : list MemoryId) (u : MemoryUpdate) (p : string) (now : DateTime) (a : option AuditDraft)
| OpClaim (scope : ReembedClaimScope.t) (limit : Z) (now : DateTime) (token : string)
| OpRelease (id : MemoryId) (rev : Z) (token : string)
| OpSetEmbedding (id : MemoryId) (e : list f64) (rev : Z) (profile : option EmbeddingProfile)
| OpImpression (ids : list MemoryId) (now : DateTime)
| OpMemoryUse (ids : list MemoryId) (p : string) (weight : f64) (now : DateTime) (half_life : f64)
| OpMarkSuperseded (id by_ : MemoryId)
| OpSupersede (id by_ : MemoryId) (p : string) (a : option AuditDraft)
| OpConsolidate (member representative : ConsolidationSnapshot) (p : string) (a : AuditDraft)
| OpWriteAudit (id : MemoryId) (action : AuditAction.t) (p : option string) (at_ : DateTime) (details : option Json)
| OpEvict (scope : ExpiredCleanupScope.t) (now : DateTime) (a : AuditDraft)
| OpUpsertMetadata (md : MemoryMetadata) (a : option AuditDraft)
| OpMigrateMetadata (dry_run : bool) (a : option AuditDraft)
| OpReassignScope (fresh : ContextId) (scan : list MemoryId → list MemoryId) (params : ReassignScopeApply).

Section operations.
Context `{Render, UnicodeCase, Chrono} (dimensions : Z) (exp2 : f64 → f64).

Definition forget {A} (m : tx A) : tx unit := _ ← m; mret ().
Definition op_tx (o : operation) : tx unit :=
  match o with
  | OpStore m e a => forget (store_audited_impl dimensions m e a)
  | OpStoreSuperseding m e sup a => forget (store_with_supersession_audited_impl dimensions m e sup a)
  | OpStoreWithMetadata m e sup md a => forget (store_with_metadata_audited_impl dimensions m e sup md a)
  | OpStoreGoverned m e sup md cs a ca now =>
      forget (store_with_metadata_contexts_audited_impl dimensions m e sup md cs a ca now)
  | OpStoreBatch ms a => forget (store_batch_audited_impl dimensions ms a)
  | OpStoreBatchSuperseding ms sup a => forget (store_batch_with_supersession_audited_impl dimensions ms sup a)
  | OpStoreBatchWithMetadata ms sup mds a => forget (store_batch_with_metadata_audited_impl dimensions ms sup mds a)
  | OpStoreBatchGoverned ms sup mds cs a ca now =>
      forget (store_batch_with_metadata_contexts_audited_impl dimensions ms sup mds cs a ca now)
  | OpUpdate id u now => forget (update_impl id u now)
  | OpUpdateAuthorized id u p now a => forget (update_authorized_audited_impl id u p now a)
  | OpUpdateWithMetadata id u patch p now a => forget (apply_authorized_update_with_metadata id u patch p now a)
  | OpUpdateGoverned id u patch cs p now a ca =>
      forget (apply_authorized_update_with_metadata_contexts id u patch cs p now a ca)
  | OpUpdateIfUnmodified id rev u patch cs e profile p now a ca =>
      forget (apply_authorized_update_if_unmodified_with_metadata dimensions id rev u patch cs e profile p now a ca)
  | OpDelete id at_ => forget (apply_delete id at_)
  | OpDeleteAuthorized id p at_ a => forget (apply_authorized_delete id p at_ a)
  | OpDeleteIfUnmodified id rev p at_ a => forget (apply_authorized_delete_if_unmodified id rev p at_ a)
  | OpBulkDelete ids p at_ a => forget (bulk_delete_ids ids p at_ a)
  | OpBulkUpdate ids u p now a => forget (bulk_update_ids ids u p now a)
  | OpClaim scope limit now token => forget (claim_for_reembed_with_scope_impl scope limit now token)
  | OpRelease id rev token => forget (release_embedding_claim_impl id rev token)
  | OpSetEmbedding id e rev profile => set_embedding_impl dimensions id e rev profile
  | OpImpression ids now => record_search_impression_impl ids now
  | OpMemoryUse ids p weight now half_life => forget (record_memory_use_impl exp2 ids p weight now half_life)
  | OpMarkSuperseded id by_ => forget (mark_superseded_by_impl id by_)
  | OpSupersede id by_ p a => forget (mark_superseded_by_authorized_audited_impl id by_ p a)
  | OpConsolidate member representative p a => forget (mark_superseded_if_unchanged member representative p a)
  | OpWriteAudit id action p at_ details => insert_audit_entry id (AuditAction.to_string action) p at_ details
  | OpEvict scope now a => forget (evict_expired_conn now scope a)
  | OpUpsertMetadata md a => upsert_metadata_audited_impl md a
  | OpMigrateMetadata dry_run a => forget (migrate_metadata_audited_impl dry_run a)
  | OpReassignScope fresh scan params => forget (apply_reassign_scope fresh scan params)
  end.
Definition run (s : Store) (o : operation) : Store := snd (with_conn (op_tx o) s).
Definition run_all (s : Store) (os : list operation) : Store := fold_left run os s.

Lemma steps_forget R `{!PreOrder R} {A} (m : tx A) : steps R m → steps R (forget m).
Proof. intros Hm. unfold forget. apply steps_bind; [done|exact Hm|]. intros. by apply steps_ret. Qed.

Lemma keeps_update id u now : steps keeps (update_impl id u now).
Proof. unfold update_impl. apply steps_bind; [typeclasses eauto | apply keeps_apply_update | intros; apply steps_ret; typeclasses eauto]. Qed.

(** Every operation either inserts no memory or deletes none. *)
Lemma op_keeps_or_grows o : steps keeps (op_tx o) ∨ steps grows (op_tx o).
Proof.
  destruct o; unfold op_tx;
    [ right; apply (steps_forget _), grows_store
    | right; apply (steps_forget _), grows_store_with_supersession
    | right; apply (steps_forget _), grows_store_with_metadata
    | right; apply (steps_forget _), grows_store_governed
    | right; apply (steps_forget _), grows_store_batch
    | right; apply (steps_forget _), grows_store_batch_superseding
    | right; apply (steps_forget _), grows_store_batch_with_metadata
    | right; apply (steps_forget _), grows_store_batch_governed
    | left; apply (steps_forget _), keeps_update
    | left; apply (steps_forget _), keeps_update_authorized
    | left; apply (steps_forget _), keeps_update_with_metadata
    | left; apply (steps_forget _), keeps_update_with_metadata_contexts
    | left; apply (steps_forget _), keeps_update_if_unmodified
    | left; apply (steps_forget _), keeps_apply_delete
    | left; apply (steps_forget _), keeps_authorized_delete
    | left; apply (steps_forget _), keeps_delete_if_unmodified
    | left; apply (steps_forget _), keeps_bulk_delete
    | left; apply (steps_forget _), keeps_bulk_update
    | left; apply (steps_forget _), keeps_claim_scope
    | left; apply (steps_forget _), keeps_release
    | left; apply keeps_set_embedding
    | left; apply keeps_impression
    | left; apply (steps_forget _), keeps_memory_use
    | left; apply (steps_forget _), keeps_mark_superseded
    | left; apply (steps_forget _), keeps_supersede
    | left; apply (steps_forget _), keeps_consolidate
    | left; apply steps_quiet_keeps, quiet_audit
    | left; apply (steps_forget _), keeps_evict
    | left; apply keeps_upsert_metadata
    | left; apply (steps_forget _), keeps_migrate
    | left; apply (steps_forget _), keeps_reassign ].
Qed.
Lemma run_evolves s o : evolves s (run s o).
Proof.
  unfold run. destruct (op_keeps_or_grows o) as [Hk|Hg].
  - apply keeps_evolves. by apply (steps_with_conn keeps).
  - apply grows_evolves. by apply (steps_with_conn grows).
Qed.

(** A memory that exists all along a sequence of operations. *)
Definition alive (id : MemoryId) (s : Store) (os : list operation) : Prop :=
  ∀ n, is_Some (st_memories (run_all s (take n os)) !! id).
Lemma alive_cons id s o os : alive id s (o :: os) ↔ is_Some (st_memories s !! id) ∧ alive id (run s o) os.
Proof.
  split.
  - intros Ha. split; [apply (Ha 0%nat)|]. intros n. apply (Ha (S n)).
  - intros [H0' Ha] [|n]; [done|]. apply (Ha n).
Qed.
Lemma run_all_evolves os s id a b :
  alive id s os → st_memories s !! id = Some a → st_memories (run_all s os) !! id = Some b →
  snap_le s (run_all s os) id a b.
Proof.
  revert s a. induction os as [|o os IH]; intros s a Hal Ha Hb; cbn in *.
  - assert (a = b) as -> by congruence. apply snap_le_refl.
  - apply alive_cons in Hal as [_ Hal]. destruct (Hal 0%nat) as [c Hc]. cbn in Hc.
    apply (snap_le_trans _ (run s o) _ _ _ c); [by eapply run_evolves | by eapply IH].
Qed.

(** *** Claims and vectors *)

Lemma sort_filter_lookup (f : MemoryId * MemoryRow → bool) cmp n (t : gmap MemoryId MemoryRow) id r :
  (id, r) ∈ truncate n (sort_by cmp (List.filter f (map_to_list t))) → t !! id = Some r ∧ f (id, r) = true.
Proof.
  intros Hin%elem_of_truncate. apply elem_of_sort_by in Hin. apply list_elem_of_In, List.filter_In in Hin as [Hin Hf].
  split; [|done]. by apply elem_of_map_to_list, list_elem_of_In.
Qed.
Lemma claim_conn_inv scope limit now before token s claims s' :
  claim_for_reembed_conn scope limit now before token s = Ok (claims, s') →
  claims = map (λ p, {| rc_id := fst p; rc_content := r_content (snd p);
                        rc_embedding_revision := r_embedding_revision (snd p); rc_claim_token := token |})
             (claim_candidates scope before limit (st_memories s)).
Proof.
  unfold claim_for_reembed_conn. intros Hr. inv_tx. unfold usize_to_i64, i64_try_from in *.
  match goal with Hl : match (if ?c then _ else _) with _ => _ end = _ |- _ => destruct c; simplify_eq end. done.
Qed.
Lemma claim_reads scope limit now token s claims s' c :
  claim_for_reembed_with_scope_impl scope limit now token s = Ok (claims, s') → c ∈ claims →
  ∃ r, st_memories s !! rc_id c = Some r ∧ r_content r = rc_content c
       ∧ r_embedding_revision r = rc_embedding_revision c ∧ r_has_embedding r = false.
Proof.
  unfold claim_for_reembed_with_scope_impl. intros Hr Hc. destruct (limit =? 0); [inv_tx; by apply not_elem_of_nil in Hc|].
  cbn zeta in Hr. apply claim_conn_inv in Hr. subst claims.
  apply list_elem_of_fmap in Hc as ([id r] & -> & Hin). cbn. apply sort_filter_lookup in Hin as [Hl Hf].
  exists r. split_and!; try done. unfold claim_candidate in Hf. cbn in Hf. by destruct (r_has_embedding r).
Qed.
Lemma set_embedding_inv id v rev profile s x s' :
  set_embedding_impl dimensions id v rev profile s = Ok (x, s') →
  ∃ r, st_memories s !! id = Some r ∧ r_embedding_revision r = rev
    ∧ validate_embedding_vector v dimensions = Ok ()
    ∧ s' = on_memories (alter (λ r, set_embedding_claim_token None (set_embedding_claimed_at None (set_has_embedding true r))) id)
             (on_vectors <[id := v]> s).
Proof.
  unfold set_embedding_impl. intros Hr. inv_tx.
  assert (x3 = s) as ->.
  { destruct profile; cbn in *; inv_tx; [|done]. unfold ensure_embedding_profile_matches in *. inv_tx.
    destruct (st_profile _); inv_tx; done. }
  destruct (st_memories s !! id) as [r|] eqn:Hid; cbn in *; [|inv_tx].
  inv_tx. unfold upsert_vector, update_row in *. inv_tx. unfold require_row in *. rewrite Hid in *. inv_tx. cbn in *.
  rewrite Hid in *. inv_tx. exists r. split_and!; try done. lia.
Qed.

(** A vector always belongs to the content it was computed from. If a
    claim handed out content [rc_content c] for embedding, then whatever
    operations follow, writing a vector under the claim's revision succeeds
    only while the memory still has exactly that content; the stored vector is
    the one written and the memory is marked as embedded. An intervening
    content update makes the write fail instead. *)
Theorem vector_matches_content scope limit now token s claims s1 c os v profile s' :
  claim_for_reembed_with_scope_impl scope limit now token s = Ok (claims, s1) → c ∈ claims →
  alive (rc_id c) s1 os →
  set_embedding_impl dimensions (rc_id c) v (rc_embedding_revision c) profile (run_all s1 os) = Ok ((), s') →
  ∃ b, st_memories s' !! rc_id c = Some b ∧ r_content b = rc_content c ∧ r_has_embedding b = true
       ∧ st_vectors s' !! rc_id c = Some v ∧ validate_embedding_vector v dimensions = Ok ().
Proof.
  intros Hclaim Hc Hal Hset.
  destruct (claim_reads _ _ _ _ _ _ _ _ Hclaim Hc) as (a & Ha & Hcont & Hrev & _).
  destruct (Hal 0%nat) as [a1 Ha1]. cbn in Ha1.
  destruct (keeps_claim_scope _ _ _ _ _ _ _ Hclaim) as [_ He1]. destruct (He1 _ _ _ Ha Ha1) as [(_&Hle1&Heq1) _].
  apply set_embedding_inv in Hset as (b & Hb & Hrb & Hv & ->).
  destruct (run_all_evolves _ _ _ _ _ Hal Ha1 Hb) as [(_&Hle&Heq) _].
  eexists. cbn. rewrite lookup_alter_eq, Hb, lookup_insert_eq. split_and!; [done| |done..].
  cbn. rewrite <- Heq, <- Heq1; [done|lia|lia].
Qed.
End operations.

(** ** Concrete runs *)

Definition plain_render : Render := {| ulid n := pretty n; debug_str s := s |}.
#[program] Definition plain_chrono : Chrono :=
  {| checked_add_signed t d := Some (t + d); checked_sub_signed t d := Some (t - d); min_utc := -8334601228800000000000 |}.
Next Obligation. intros ??? [= <-]. done. Qed.
Next Obligation. intros ??? [= <-]. done. Qed.
#[local] Existing Instance plain_render.
#[local] Existing Instance plain_chrono.
#[local] Existing Instance AsciiCase.

Definition edited : Memory := sample_memory "first" (Some "ann") AccessPolicy.Public.
Definition sample_store : Store := run 1 (λ x, x) empty_store (OpStore edited None None).
Definition sample_edit : MemoryUpdate :=
  {| mu_content := Some "edited"; mu_tags := Some ["t"]; mu_access_policy := None; mu_importance := None;
     mu_expires_at := None; mu_confidence := None; mu_source_conversation := None;
     mu_entities := Some [{| e_name := "n"; e_type := EntityType.mk "person" |}] |}.
Definition sample_ops : list operation :=
  [OpImpression [m_id edited] 5; OpUpdate (m_id edited) sample_edit 6].

Ltac solve_alive := intros [|[|[|n]]]; cbn -[run]; vm_compute; eexists; reflexivity.

Definition sample_claims := claim_for_reembed_with_scope_impl ReembedClaimScope.Recovery 10 7 "token" sample_store.
Definition claimed_store : Store := match sample_claims with Ok (_, s) => s | Err _ => sample_store end.
Definition sample_claim : ReembedClaim :=
  {| rc_id := m_id edited; rc_content := "first"; rc_embedding_revision := 0; rc_claim_token := "token" |}.
Definition embedded_store : Store :=
  match set_embedding_impl 1 (m_id edited) [f1] 0 None
          (run_all 1 (λ x, x) claimed_store [OpImpression [m_id edited] 8]) with
  | Ok (_, s) => s | Err _ => sample_store end.

Lemma vector_matches_content_witness :
  sample_claims = Ok ([sample_claim], claimed_store)
  ∧ ∃ b, st_memories embedded_store !! rc_id sample_claim = Some b ∧ r_content b = rc_content sample_claim
       ∧ r_has_embedding b = true ∧ st_vectors embedded_store !! rc_id sample_claim = Some [f1]
       ∧ validate_embedding_vector [f1] 1 = Ok ().
Proof.
  split; [vm_compute; reflexivity|].
  apply (vector_matches_content 1 (λ x, x) ReembedClaimScope.Recovery 10 7 "token" sample_store [sample_claim]
           claimed_store sample_claim [OpImpression [m_id edited] 8] [f1] None embedded_store).
  - vm_compute. reflexivity.
  - left.
  - intros [|[|n]]; cbn -[run]; vm_compute; eexists; reflexivity.
  - vm_compute. reflexivity.
Defined.
