(* ===== verification/Vectors.v ===== *)
(** * Vectors: the vector table follows the memories

    A memory's flag [has_embedding], its row in the vector table and its
    re-embedding lease move together. [vector_ok] says how, with two
    parameters: which vectors are [right] for a content, and which leases are
    [allowed]. Every operation of the store preserves it when the vectors it
    writes are right and the leases it takes are allowed ([writes_right]).
    Integrity.v asks nothing of vectors and leases beyond this; the
    orchestrator asks that vectors come from the provider's answer to the
    memory's content and that leases have an owner. *)
From Stdlib Require Import ZArith Lia.
From stdpp Require Import base list option strings gmap sets pretty.
From S2P Require Import Prelude Text Floats Lists Errors Types Context StoreTypes Ranking Store Membership Crud ContextAdmin Admin Revisions Operations.

Section vectors.
Context `{Render, UnicodeCase, Chrono} (dimensions : Z) (exp2 : f64 → f64).
Context (right : string → list f64 → Prop) (allowed : MemoryId → Z → string → Prop).

Definition good_vector (v : list f64) : Prop := len v = dimensions ∧ Forall (λ x, is_finite x = true) v.
Definition unleased (r : MemoryRow) : Prop := r_embedding_claimed_at r = None ∧ r_embedding_claim_token r = None.
Definition lease_ok (id : MemoryId) (r : MemoryRow) : Prop :=
  ∀ token, r_embedding_claim_token r = Some token → allowed id (r_embedding_revision r) token.

(** The vector table agrees with the row of the memory. *)
Definition vector_ok (s : Store) (id : MemoryId) : Prop :=
  match st_memories s !! id, st_vectors s !! id with
  | Some r, Some v => r_has_embedding r = true ∧ unleased r ∧ good_vector v ∧ right (r_content r) v
  | Some r, None => r_has_embedding r = false ∧ lease_ok id r
  | None, v => v = None
  end.

Definition keeps_vectors (s s' : Store) : Prop := (∀ id, vector_ok s id) → (∀ id, vector_ok s' id).
#[local] Instance keeps_vectors_preorder : PreOrder keeps_vectors.
Proof. split; [intros s Hs; exact Hs | intros s s' s'' H1' H2' Hs; auto]. Qed.

(** *** Vectors *)

Definition same_vectors (s s' : Store) : Prop := st_memories s = st_memories s' ∧ st_vectors s = st_vectors s'.
#[local] Instance same_vectors_preorder : PreOrder same_vectors.
Proof. split; [done | intros s s' s'' [H1' H2'] [H3' H4']; split; congruence]. Qed.
Lemma same_keeps_vectors s s' : same_vectors s s' → keeps_vectors s s'.
Proof. intros [Hm Hv] Hok id. specialize (Hok id). unfold vector_ok in *. by rewrite Hm, Hv in Hok. Qed.
Lemma steps_same_vectors {A} (m : tx A) : steps same_vectors m → steps keeps_vectors m.
Proof. apply steps_weaken, same_keeps_vectors. Qed.
#[local] Hint Resolve steps_same_vectors | 10 : steps.

Lemma same_vectors_audit f : steps same_vectors (writes (on_audit f)).
Proof. by apply steps_writes. Qed.
Lemma same_vectors_context_audit f : steps same_vectors (writes (on_context_audit f)).
Proof. by apply steps_writes. Qed.
Lemma same_vectors_tombstones f : steps same_vectors (writes (on_tombstones f)).
Proof. by apply steps_writes. Qed.
Lemma same_vectors_entities f : steps same_vectors (writes (on_entities f)).
Proof. by apply steps_writes. Qed.
Lemma same_vectors_metadata f : steps same_vectors (writes (on_metadata f)).
Proof. by apply steps_writes. Qed.
Lemma same_vectors_memberships f : steps same_vectors (writes (on_memberships f)).
Proof. by apply steps_writes. Qed.
Lemma same_vectors_require_row id : steps same_vectors (require_row id).
Proof. intros s u s' Hs. unfold require_row in Hs. destruct (st_memories s !! id); [|done]. inv_tx. reflexivity. Qed.
Lemma same_vectors_membership id row : steps same_vectors (insert_membership id row).
Proof. intros s u s' Hs. unfold insert_membership in Hs. destruct (bool_decide _); inv_tx. done. Qed.
Lemma same_vectors_scope l : steps same_vectors (primary_scope l).
Proof.
  intros s u s' Hs. unfold primary_scope in Hs. destruct l as [|c l]; [inv_tx; reflexivity|].
  destruct (reg_contexts (st_registry s) !! c); inv_tx. reflexivity.
Qed.
#[local] Hint Resolve same_vectors_audit same_vectors_context_audit same_vectors_tombstones same_vectors_entities
  same_vectors_metadata same_vectors_memberships same_vectors_require_row same_vectors_membership same_vectors_scope : steps.

(** A row change that leaves content, flag and lease alone. *)
Definition vector_neutral (f : MemoryRow → MemoryRow) : Prop :=
  ∀ r, r_has_embedding (f r) = r_has_embedding r ∧ r_embedding_claimed_at (f r) = r_embedding_claimed_at r
       ∧ r_embedding_claim_token (f r) = r_embedding_claim_token r
       ∧ r_content (f r) = r_content r ∧ r_embedding_revision (f r) = r_embedding_revision r.
Lemma keeps_vectors_alter f id s : vector_neutral f → keeps_vectors s (on_memories (alter f id) s).
Proof.
  intros Hf Hok j. specialize (Hok j). unfold vector_ok, unleased, lease_ok in *. cbn.
  destruct (decide (j = id)) as [->|]; [rewrite lookup_alter_eq | by rewrite lookup_alter_ne].
  destruct (st_memories s !! id) as [r|]; cbn; [|done]. destruct (Hf r) as (->&->&->&->&->). done.
Qed.
Lemma keeps_vectors_row f id : vector_neutral f → steps keeps_vectors (update_row id f).
Proof.
  intros Hf s b s' Hs. unfold update_row in Hs.
  destruct (st_memories s !! id); inv_tx; [by apply keeps_vectors_alter | reflexivity].
Qed.
Lemma keeps_vectors_delete id : steps keeps_vectors (delete_memory id).
Proof.
  intros s b s' Hs Hok j. specialize (Hok j). unfold delete_memory in Hs.
  destruct (st_memories s !! id) as [r0|]; inv_tx; [|done]. unfold vector_ok, unleased, lease_ok in *. cbn.
  rewrite lookup_fmap. destruct (decide (j = id)) as [->|]; [by rewrite !lookup_delete_eq|].
  rewrite !lookup_delete_ne by done. destruct (st_memories s !! j) as [r|]; cbn; [|done].
  unfold clear_superseded_by. by case_bool_decide.
Qed.
#[local] Hint Resolve keeps_vectors_delete : steps.

(** The row update: a content change removes flag, lease and vector. *)
Lemma keeps_vectors_updated id u now r s :
  st_memories s !! id = Some r → keeps_vectors s (updated_store id u now r s).
Proof.
  intros Hr Hok j. specialize (Hok j). unfold vector_ok, unleased, lease_ok in *. cbn.
  destruct (decide (j = id)) as [->|].
  - rewrite lookup_insert_eq. rewrite Hr in Hok. unfold revised_row; cbn.
    destruct (mu_content u); cbn; [by rewrite lookup_delete_eq | by rewrite Z.add_0_r].
  - rewrite lookup_insert_ne by done. destruct (mu_content u); cbn; [by rewrite lookup_delete_ne | done].
Qed.
Lemma keeps_vectors_update_inner id u now : steps keeps_vectors (apply_update_inner id u now).
Proof.
  intros s o s' Hs%apply_update_inner_inv. destruct (st_memories s !! id) as [r|] eqn:Hr; destruct Hs as [_ ->].
  - by apply keeps_vectors_updated.
  - reflexivity.
Qed.
#[local] Hint Resolve keeps_vectors_update_inner : steps.

Lemma validate_embedding_good v : validate_embedding_vector v dimensions = Ok () → good_vector v.
Proof.
  unfold validate_embedding_vector, find_non_finite. destruct (len v =? dimensions) eqn:El; [|done]. cbn.
  destruct (list_find _ v) as [p|] eqn:E; [done|]. intros _. split; [lia|].
  apply list_find_None in E. eapply List.Forall_impl; [|exact E]. intros x Hx. cbn in Hx. by destruct (is_finite x).
Qed.

(** Writing a vector for a row without a lease and setting its flag. *)
Lemma vectors_after_embedding id v s r f :
  st_memories s !! id = Some r → good_vector v → right (r_content (f r)) v →
  r_has_embedding (f r) = true → unleased (f r) →
  (∀ j, vector_ok s j) → ∀ j, vector_ok (on_memories (alter f id) (on_vectors <[id := v]> s)) j.
Proof.
  intros Hr Hv Hw Hf Hl Hok j. specialize (Hok j). unfold vector_ok in *. cbn. destruct (decide (j = id)) as [->|].
  - rewrite lookup_alter_eq, Hr, lookup_insert_eq. cbn. done.
  - by rewrite lookup_alter_ne, lookup_insert_ne.
Qed.
Lemma keeps_vectors_set_embedding id v rev profile s x s' :
  (∀ r, st_memories s !! id = Some r → r_embedding_revision r = rev → right (r_content r) v) →
  set_embedding_impl dimensions id v rev profile s = Ok (x, s') → keeps_vectors s s'.
Proof.
  intros Hw Hs Hok. apply set_embedding_inv in Hs as (r & Hr & Hrev & Hv & ->).
  eapply vectors_after_embedding; [done | by apply validate_embedding_good | exact (Hw r Hr Hrev) | done..].
Qed.

Ltac solve_neutral := intros ?; split_and!; reflexivity.

Lemma keeps_vectors_mark old new : steps keeps_vectors (mark_superseded old new).
Proof. unfold mark_superseded, fetch_memory_by_id. steps_tac. apply keeps_vectors_row. solve_neutral. Qed.
Lemma keeps_vectors_increment id action : steps keeps_vectors (increment_record_revision_conn id action).
Proof. unfold increment_record_revision_conn. steps_tac. apply keeps_vectors_row. solve_neutral. Qed.
Lemma same_vectors_insert_entities id l : steps same_vectors (insert_entities id l).
Proof. unfold insert_entities. steps_tac. Qed.
Lemma same_vectors_upsert_metadata md : steps same_vectors (upsert_metadata_conn md).
Proof. unfold upsert_metadata_conn. steps_tac. Qed.
Lemma same_vectors_compatibility id u p : steps same_vectors (validate_compatibility_cache_update id u p).
Proof. unfold validate_compatibility_cache_update, compatibility_scope_key. steps_tac. Qed.
#[local] Hint Resolve keeps_vectors_mark keeps_vectors_increment same_vectors_insert_entities
  same_vectors_upsert_metadata same_vectors_compatibility : steps.
Lemma same_vectors_insert_contexts id cs p sc a now pr : steps same_vectors (insert_memory_contexts_sqlite id cs p sc a now pr).
Proof. unfold insert_memory_contexts_sqlite, require_usable, context_use_allowed, insert_context_audit. steps_tac. Qed.
#[local] Hint Resolve same_vectors_insert_contexts : steps.
Lemma keeps_vectors_replace_contexts id cs p sc a now : steps keeps_vectors (replace_memory_contexts_sqlite_tx id cs p sc a now).
Proof. unfold replace_memory_contexts_sqlite_tx. steps_tac. apply keeps_vectors_alter. solve_neutral. Qed.
#[local] Hint Resolve keeps_vectors_replace_contexts : steps.
Lemma same_vectors_audit_draft id a : steps same_vectors (insert_audit_draft id a).
Proof. apply same_vectors_audit. Qed.
Lemma same_vectors_optional_audit id a : steps same_vectors (insert_optional_audit_draft id a).
Proof. unfold insert_optional_audit_draft, insert_audit_draft, insert_audit_entry. steps_tac. Qed.
Lemma same_vectors_tombstone m at_ by_ : steps same_vectors (insert_tombstone m at_ by_).
Proof. apply same_vectors_tombstones. Qed.
#[local] Hint Resolve same_vectors_audit_draft same_vectors_optional_audit same_vectors_tombstone : steps.

(** Row insertion with its vector. *)
Definition prepared_ok (p : PreparedMemoryRow) : Prop :=
  r_has_embedding (pm_row p) = is_some (pm_embedding p) ∧ unleased (pm_row p)
  ∧ ∀ v, pm_embedding p = Some v → right (r_content (pm_row p)) v.
Definition right_for (content : string) (e : option (list f64)) : Prop := ∀ v, e = Some v → right content v.
Lemma from_memory_ok m e : right_for (m_content m) e → prepared_ok (from_memory m e).
Proof. done. Qed.
Lemma upsert_vector_inv id v s x s' : upsert_vector dimensions id v s = Ok (x, s') →
  good_vector v ∧ is_Some (st_memories s !! id) ∧ s' = on_vectors <[id := v]> s.
Proof.
  unfold upsert_vector. intros Hs. inv_tx. unfold require_row in *.
  destruct (st_memories s !! id) eqn:E; inv_tx. split_and!; [|done|done].
  by apply validate_embedding_good.
Qed.
Lemma keeps_vectors_insert p : prepared_ok p → steps keeps_vectors (insert dimensions p).
Proof.
  intros (Hp & Hl & Hw). unfold insert. intros s id s' Hs Hok. inv_tx. unfold insert_row in *.
  destruct (st_memories s !! pm_id p) eqn:Hn; inv_tx.
  match goal with He : insert_entities _ _ ?a = Ok (_, _) |- _ => apply same_vectors_insert_entities in He; eapply same_keeps_vectors; [exact He|] end.
  intros j. specialize (Hok j) as Hj. unfold vector_ok in *.
  destruct (pm_embedding p) as [v|] eqn:Hv; cbn in *.
  - match goal with Hu : upsert_vector _ _ _ _ = Ok _ |- _ => apply upsert_vector_inv in Hu as (Hg & _ & ->) end. cbn.
    destruct (decide (j = pm_id p)) as [->|]; [rewrite !lookup_insert_eq; auto | by rewrite !lookup_insert_ne].
  - inv_tx. cbn. destruct (decide (j = pm_id p)) as [->|]; [|by rewrite lookup_insert_ne].
    rewrite lookup_insert_eq, Hp. rewrite Hn in Hj. rewrite Hj. split; [done|]. intros token Ht. by destruct Hl as [_ Hl]; rewrite Hl in Ht.
Qed.
Lemma keeps_vectors_insert_memory m e : right_for (m_content m) e → steps keeps_vectors (insert dimensions (from_memory m e)).
Proof. intros Hw. by apply keeps_vectors_insert, from_memory_ok. Qed.
#[local] Hint Resolve keeps_vectors_insert_memory : steps.
Lemma same_vectors_superseded sid : steps same_vectors (validate_superseded_exists sid).
Proof. unfold validate_superseded_exists. steps_tac. Qed.
#[local] Hint Resolve same_vectors_superseded : steps.
Lemma keeps_vectors_insert_prepared p sup a : prepared_ok p →
  steps keeps_vectors (insert_prepared_with_optional_supersession_and_audit dimensions p sup a).
Proof.
  intros Hp. pose proof (keeps_vectors_insert p Hp).
  unfold insert_prepared_with_optional_supersession_and_audit. steps_tac.
Qed.

(** Leases are only taken on and released from rows without embedding. *)
Lemma keeps_vectors_lease f id s :
  (∀ r, st_memories s !! id = Some r →
     r_has_embedding (f r) = r_has_embedding r ∧ (r_has_embedding r = true → f r = r) ∧ (lease_ok id r → lease_ok id (f r))) →
  keeps_vectors s (on_memories (alter f id) s).
Proof.
  intros Hf Hok j. specialize (Hok j). unfold vector_ok in *. cbn.
  destruct (decide (j = id)) as [->|]; [rewrite lookup_alter_eq | by rewrite lookup_alter_ne].
  destruct (st_memories s !! id) as [r|]; cbn; [|done]. destruct (Hf r eq_refl) as (Hh & He & Hl).
  destruct (st_vectors s !! id); [destruct Hok as [Ht ?]; by rewrite He|].
  rewrite Hh. destruct Hok. auto.
Qed.
Lemma keeps_vectors_claim scope limit now before token s x s' :
  (∀ id r, st_memories s !! id = Some r → r_has_embedding r = false → allowed id (r_embedding_revision r) token) →
  claim_for_reembed_conn scope limit now before token s = Ok (x, s') → keeps_vectors s s'.
Proof.
  intros Hal Hs. unfold claim_for_reembed_conn in Hs. inv_tx.
  match goal with Hf : tx_fold ?f _ (claim_candidates _ _ ?n _) _ = _ |- _ =>
    refine (steps_fold_in keeps_vectors f (claim_candidates scope before n (st_memories s)) _ _ _ _ _ Hf) end.
  intros [] [id r] Hin. apply sort_filter_lookup in Hin as [Hr Hc].
  apply steps_bind; [typeclasses eauto | | intros; apply steps_ret; typeclasses eauto].
  intros s0 b s1 Hu. unfold update_row in Hu. cbn in Hu.
  case_match; inv_tx; [|intros ?; done]. apply keeps_vectors_lease. intros r1 _.
  destruct (r_has_embedding r1) eqn:E; cbn; [by rewrite E|]. case_match eqn:Hg; [|by rewrite E]. cbn. rewrite E.
  split_and!; [done..|]. intros _ t [= <-]. cbn. unfold claim_candidate in Hc. cbn in Hc.
  apply andb_true_iff in Hg as [->%Z.eqb_eq _]. apply (Hal id r Hr). by destruct (r_has_embedding r).
Qed.
Lemma keeps_vectors_release id rev token : steps keeps_vectors (release_embedding_claim_impl id rev token).
Proof.
  intros s b s' Hs Hok. unfold release_embedding_claim_impl in Hs.
  destruct (st_memories s !! id) as [r|] eqn:Hr; [|by inv_tx].
  destruct (r_has_embedding r) eqn:E; cbn in Hs; [by inv_tx|]. destruct (_ && _); inv_tx; [|done].
  intros j. specialize (Hok j). unfold vector_ok in *. cbn.
  destruct (decide (j = id)) as [->|]; [rewrite lookup_alter_eq, Hr | by rewrite lookup_alter_ne].
  rewrite Hr, E in Hok. cbn. destruct (st_vectors s !! id); [by destruct Hok | done].
Qed.

(** *** Every operation keeps the vector table right *)

Lemma steps_authorize R `{!PreOrder R} {A} id p r (k : Memory → tx A) :
  (∀ m, steps R (k m)) → steps R (authorize id p r k).
Proof. intros Hk. unfold authorize, fetch_memory_by_id. steps_tac. Qed.

Lemma same_vectors_profile p : steps same_vectors (ensure_embedding_profile_matches p).
Proof. unfold ensure_embedding_profile_matches. steps_tac. Qed.
Lemma same_vectors_upsert_merged id patch m p : steps same_vectors (upsert_merged_metadata id patch m p).
Proof. unfold upsert_merged_metadata, get_metadata_conn. steps_tac. Qed.
Lemma same_vectors_audit_update a u m : steps same_vectors (audit_update a u m).
Proof. unfold audit_update. eauto with steps. Qed.
#[local] Hint Resolve same_vectors_profile same_vectors_upsert_merged same_vectors_audit_update : steps.
Lemma keeps_vectors_replace_governed id u patch cs p ca at_ : steps keeps_vectors (replace_governed id u patch cs p ca at_).
Proof. unfold replace_governed. steps_tac. Qed.
Lemma keeps_vectors_replace_if_unmodified id cs p ca at_ :
  steps keeps_vectors (replace_governed_if_unmodified id cs p ca at_).
Proof. unfold replace_governed_if_unmodified, replacement_scope, get_metadata_conn. steps_tac. Qed.
#[local] Hint Resolve keeps_vectors_replace_governed keeps_vectors_replace_if_unmodified : steps.

Lemma keeps_vectors_write_embedding id e profile s s' r u0 :
  st_memories s !! id = Some r → unleased r → right (r_content r) e →
  write_embedding dimensions id e profile s = Ok (u0, s') → keeps_vectors s s'.
Proof.
  intros Hr Hl He Hw Hok. unfold write_embedding in Hw. inv_tx.
  assert (same_vectors s x0) as [Em Ev].
  { match goal with Hs : when_some profile _ s = Ok (_, x0) |- _ => refine ((_ : steps same_vectors _) _ _ _ Hs) end. steps_tac. }
  match goal with Hu : upsert_vector _ _ _ _ = Ok _ |- _ => apply upsert_vector_inv in Hu as (Hg & _ & ->) end.
  unfold update_row in *. cbn in *. rewrite <- Em, Hr in *. inv_tx. 
  eapply vectors_after_embedding; [rewrite <- Em; exact Hr | done | exact He | done | done |].
  eapply same_keeps_vectors; [by split | done].
Qed.

Lemma keeps_vectors_if_unmodified id rev u patch cs e profile p now audit ca :
  (∀ c, mu_content u = Some c → right_for c e) →
  steps keeps_vectors
    (apply_authorized_update_if_unmodified_with_metadata dimensions id rev u patch cs e profile p now audit ca).
Proof.
  intros Hw s o s' [(?&?&->)|(r & Hr & [(?&?&->)|(_ & _ & He & o1 & s2 & s3 & s4 & s5 & H2 & _ & H3 & H4 & H5 & H6)])]%update_if_unmodified_inv;
    [reflexivity..|].
  transitivity s2.
  - transitivity (updated_store id u (next_memory_revision now (m_updated_at (row_to_memory id r))) r s).
    { by apply keeps_vectors_updated. }
    destruct e as [e|]; inv_tx; [|reflexivity].
    destruct (mu_content u) as [c|] eqn:Hc; [|done].
    eapply keeps_vectors_write_embedding; [cbn; apply lookup_insert_eq| | |eassumption];
      unfold unleased, revised_row; cbn; rewrite Hc; [done | by apply Hw].
  - transitivity s3; [refine ((_ : steps keeps_vectors _) _ _ _ H3); steps_tac|].
    transitivity s4; [refine ((_ : steps keeps_vectors _) _ _ _ H4); steps_tac|].
    transitivity s5; [refine ((_ : steps keeps_vectors _) _ _ _ H5); steps_tac|].
    refine ((_ : steps keeps_vectors _) _ _ _ H6); steps_tac.
Qed.
Lemma keeps_vectors_update_with_metadata id u patch p now audit :
  steps keeps_vectors (apply_authorized_update_with_metadata id u patch p now audit).
Proof. apply steps_authorize; [typeclasses eauto|]. intros m. steps_tac. Qed.
Lemma keeps_vectors_update_governed id u patch cs p now audit ca :
  steps keeps_vectors (apply_authorized_update_with_metadata_contexts id u patch cs p now audit ca).
Proof.
  unfold apply_authorized_update_with_metadata_contexts. apply steps_bind; [typeclasses eauto | steps_tac | intros _].
  apply steps_authorize; [typeclasses eauto|]. intros m. steps_tac.
Qed.
Lemma keeps_vectors_update id u now : steps keeps_vectors (update_impl id u now).
Proof. unfold update_impl, apply_update, fetch_memory_by_id. steps_tac. Qed.
Lemma keeps_vectors_update_authorized id u p now a : steps keeps_vectors (update_authorized_audited_impl id u p now a).
Proof. apply steps_authorize; [typeclasses eauto|]. intros m. steps_tac. Qed.
Lemma keeps_vectors_apply_delete id t : steps keeps_vectors (apply_delete id t).
Proof. unfold apply_delete, fetch_memory_by_id. steps_tac. Qed.
Lemma keeps_vectors_authorized_delete id p t a : steps keeps_vectors (apply_authorized_delete id p t a).
Proof. unfold apply_authorized_delete, fetch_memory_by_id. steps_tac. Qed.
Lemma keeps_vectors_delete_if_unmodified id rev p t a : steps keeps_vectors (apply_authorized_delete_if_unmodified id rev p t a).
Proof. apply steps_authorize; [typeclasses eauto|]. intros m. steps_tac. Qed.
Lemma keeps_vectors_bulk_delete ids p t a : steps keeps_vectors (bulk_delete_ids ids p t a).
Proof. unfold bulk_delete_ids, bulk_delete_one, fetch_memory_by_id. steps_tac. Qed.
Lemma keeps_vectors_bulk_update ids u p now a : steps keeps_vectors (bulk_update_ids ids u p now a).
Proof. unfold bulk_update_ids, bulk_update_one, fetch_memory_by_id. steps_tac. Qed.
Lemma keeps_vectors_impression ids now : steps keeps_vectors (record_search_impression_impl ids now).
Proof. unfold record_search_impression_impl. steps_tac. apply keeps_vectors_row. solve_neutral. Qed.
Lemma keeps_vectors_memory_use ids p w now h : steps keeps_vectors (record_memory_use_impl exp2 ids p w now h).
Proof.
  unfold record_memory_use_impl, update_single_memory_use, fetch_memory_by_id. steps_tac.
  apply keeps_vectors_row. solve_neutral.
Qed.
Lemma keeps_vectors_supersede id by_ p a : steps keeps_vectors (mark_superseded_by_authorized_audited_impl id by_ p a).
Proof. apply steps_authorize; [typeclasses eauto|]. intros m. steps_tac. Qed.
Lemma keeps_vectors_consolidate member representative p a : steps keeps_vectors (mark_superseded_if_unchanged member representative p a).
Proof. unfold mark_superseded_if_unchanged, fetch_memory_by_id, consolidation_context_profile. steps_tac. Qed.

Lemma keeps_vectors_prepared m e sup a : right_for (m_content m) e →
  steps keeps_vectors (insert_prepared_with_optional_supersession_and_audit dimensions (from_memory m e) sup a).
Proof. intros Hw. by apply keeps_vectors_insert_prepared, from_memory_ok. Qed.
#[local] Hint Resolve keeps_vectors_prepared : steps.

Lemma keeps_vectors_store m e a : right_for (m_content m) e → steps keeps_vectors (store_audited_impl dimensions m e a).
Proof. intros Hw. unfold store_audited_impl. steps_tac. Qed.
Lemma keeps_vectors_store_superseding m e sup a : right_for (m_content m) e →
  steps keeps_vectors (store_with_supersession_audited_impl dimensions m e sup a).
Proof. intros Hw. unfold store_with_supersession_audited_impl. steps_tac. Qed.
Lemma keeps_vectors_store_metadata m e sup md a : right_for (m_content m) e →
  steps keeps_vectors (store_with_metadata_audited_impl dimensions m e sup md a).
Proof. intros Hw. unfold store_with_metadata_audited_impl. steps_tac. Qed.
Lemma keeps_vectors_store_governed m e sup md cs a ca now : right_for (m_content m) e →
  steps keeps_vectors (store_with_metadata_contexts_audited_impl dimensions m e sup md cs a ca now).
Proof. intros Hw. unfold store_with_metadata_contexts_audited_impl, insert_initial_memory_contexts_sqlite. steps_tac. Qed.

(** A batch walks through prepared rows. *)
Definition right_batch (ms : list MemoryWithEmbedding) : Prop :=
  Forall (λ m, right_for (m_content (we_memory m)) (we_embedding m)) ms.
Lemma elem_of_prepared (ms : list MemoryWithEmbedding) x : right_batch ms → x ∈ imap pair (map prepare ms) → prepared_ok (snd x).
Proof.
  intros Hms (i & p & -> & Hp)%elem_of_lookup_imap_1. cbn. rewrite list_lookup_fmap in Hp.
  destruct (ms !! i) as [m|] eqn:Hm; cbn in Hp; simplify_eq. apply from_memory_ok. by eapply Forall_lookup_1 in Hms.
Qed.
Lemma keeps_vectors_batch (ms : list MemoryWithEmbedding) (f : nat * PreparedMemoryRow → tx MemoryId) :
  right_batch ms →
  (∀ x, prepared_ok (snd x) → steps keeps_vectors (insert dimensions (snd x)) → steps keeps_vectors (f x)) →
  steps keeps_vectors (tx_map f (imap pair (map prepare ms))).
Proof.
  intros Hms Hf. apply steps_map; [typeclasses eauto|]. intros x Hx%elem_of_prepared; [|done].
  apply Hf; [done | by apply keeps_vectors_insert].
Qed.
Lemma keeps_vectors_store_batch ms audits : right_batch ms → steps keeps_vectors (store_batch_audited_impl dimensions ms audits).
Proof.
  intros Hms. unfold store_batch_audited_impl, check_len. apply steps_bind; [typeclasses eauto | steps_tac | intros _].
  apply keeps_vectors_batch; [done|]. intros x Hx Hi. steps_tac.
Qed.
Lemma keeps_vectors_store_batch_superseding ms sup audits : right_batch ms →
  steps keeps_vectors (store_batch_with_supersession_audited_impl dimensions ms sup audits).
Proof.
  intros Hms.
  unfold store_batch_with_supersession_audited_impl, batch_store_with_supersession_and_audit, check_len.
  do 3 (apply steps_bind; [typeclasses eauto | steps_tac | intros _]).
  apply keeps_vectors_batch; [done|]. intros x Hx Hi. steps_tac.
Qed.
Lemma keeps_vectors_store_batch_metadata ms sup mds audits : right_batch ms →
  steps keeps_vectors (store_batch_with_metadata_audited_impl dimensions ms sup mds audits).
Proof.
  intros Hms. unfold store_batch_with_metadata_audited_impl, check_len.
  do 4 (apply steps_bind; [typeclasses eauto | steps_tac | intros _]).
  apply keeps_vectors_batch; [done|]. intros x Hx Hi. pose proof (λ a b, keeps_vectors_insert_prepared _ a b Hx). steps_tac.
Qed.
Lemma zip_governed_memories ms ss ds cs as_ xs p : p ∈ zip_governed ms ss ds cs as_ xs → p.1.1.1.1.1 ∈ ms.
Proof.
  revert ss ds cs as_ xs. induction ms as [|m ms IH]; intros [|? ?] [|? ?] [|? ?] [|? ?] [|? ?]; cbn;
    try by intros ?%not_elem_of_nil.
  intros [->|Hp]%elem_of_cons; [left|right; by eapply IH].
Qed.
Lemma keeps_vectors_store_batch_governed ms sup mds cs audits cas now : right_batch ms →
  steps keeps_vectors (store_batch_with_metadata_contexts_audited_impl dimensions ms sup mds cs audits cas now).
Proof.
  intros Hms. unfold store_batch_with_metadata_contexts_audited_impl, insert_initial_memory_contexts_sqlite.
  do 2 (apply steps_bind; [typeclasses eauto | steps_tac | intros _]).
  apply steps_map; [typeclasses eauto|]. intros [[[[[m ?] ?] ?] ?] ?] Hin%zip_governed_memories. cbn in Hin.
  eapply Forall_forall in Hms; [|exact Hin]. unfold prepare. steps_tac.
Qed.

(** Maintenance. *)
Lemma same_vectors_insert_context c : steps same_vectors (insert_context c).
Proof. unfold insert_context, constraint. intros s u s' Hs. inv_tx. by match goal with Hc : (if ?b then _ else _) = _ |- _ => destruct b; inv_tx end. Qed.
Lemma same_vectors_envelope m at_ by_ : steps same_vectors (insert_authorization_tombstone m at_ by_).
Proof. apply same_vectors_tombstones. Qed.
Lemma same_vectors_context_row a c m now : steps same_vectors (insert_context_audit a c m now).
Proof. apply same_vectors_context_audit. Qed.
Lemma same_vectors_writable p id : steps same_vectors (writable_by p id).
Proof. unfold writable_by, fetch_memory_by_id. steps_tac. Qed.
#[local] Hint Resolve same_vectors_insert_context same_vectors_envelope same_vectors_context_row same_vectors_writable : steps.
Lemma keeps_vectors_evict scope now a : steps keeps_vectors (evict_expired_conn now scope a).
Proof. unfold evict_expired_conn, evict_one. steps_tac. Qed.
Lemma keeps_vectors_upsert_metadata md a : steps keeps_vectors (upsert_metadata_audited_impl md a).
Proof. unfold upsert_metadata_audited_impl, fetch_memory_by_id, compatibility_scope_key. steps_tac. Qed.
Lemma keeps_vectors_migrate dry a : steps keeps_vectors (migrate_metadata_audited_impl dry a).
Proof. unfold migrate_metadata_audited_impl, insert_metadata_migration_row, insert_missing_metadata. steps_tac. Qed.
Lemma keeps_vectors_reassign fresh scan params : steps keeps_vectors (apply_reassign_scope fresh scan params).
Proof.
  unfold apply_reassign_scope, resolve_or_create_private_legacy_context, reassign_chunk, move_memberships, rewrite_memberships.
  steps_tac. apply keeps_vectors_row. solve_neutral.
Qed.

(** The vectors an operation writes are right for the content they are
    written for, and the leases it takes are allowed. *)
Definition writes_right (s : Store) (o : operation) : Prop :=
  match o with
  | OpStore m e _ | OpStoreSuperseding m e _ _ | OpStoreWithMetadata m e _ _ _ | OpStoreGoverned m e _ _ _ _ _ _ =>
      right_for (m_content m) e
  | OpStoreBatch ms _ | OpStoreBatchSuperseding ms _ _ | OpStoreBatchWithMetadata ms _ _ _
  | OpStoreBatchGoverned ms _ _ _ _ _ _ => right_batch ms
  | OpUpdateIfUnmodified _ _ u _ _ e _ _ _ _ _ => ∀ c, mu_content u = Some c → right_for c e
  | OpSetEmbedding id v rev _ =>
      ∀ r, st_memories s !! id = Some r → r_embedding_revision r = rev → right (r_content r) v
  | OpClaim _ _ _ token =>
      ∀ id r, st_memories s !! id = Some r → r_has_embedding r = false → allowed id (r_embedding_revision r) token
  | _ => True
  end.

Lemma forget_Ok {A} (m : tx A) s x s' : forget m s = Ok (x, s') → ∃ a, m s = Ok (a, s').
Proof. unfold forget. intros Hm. inv_tx. eauto. Qed.
Lemma keeps_vectors_claim_scope scope limit now token s x s' :
  (∀ id r, st_memories s !! id = Some r → r_has_embedding r = false → allowed id (r_embedding_revision r) token) →
  claim_for_reembed_with_scope_impl scope limit now token s = Ok (x, s') → keeps_vectors s s'.
Proof.
  intros Hal Hs. unfold claim_for_reembed_with_scope_impl in Hs. destruct (limit =? 0); [by inv_tx|].
  by eapply keeps_vectors_claim.
Qed.
Lemma op_keeps_vectors o s x s' : writes_right s o → op_tx dimensions exp2 o s = Ok (x, s') → keeps_vectors s s'.
Proof.
  intros Hw Hop. destruct o; unfold op_tx in Hop; cbn [writes_right] in Hw; try (apply forget_Ok in Hop as [? Hop]); revert Hop;
    [ by apply keeps_vectors_store | by apply keeps_vectors_store_superseding | by apply keeps_vectors_store_metadata
    | by apply keeps_vectors_store_governed | by apply keeps_vectors_store_batch | by apply keeps_vectors_store_batch_superseding
    | by apply keeps_vectors_store_batch_metadata | by apply keeps_vectors_store_batch_governed
    | apply keeps_vectors_update | apply keeps_vectors_update_authorized | apply keeps_vectors_update_with_metadata
    | apply keeps_vectors_update_governed | by apply keeps_vectors_if_unmodified | apply keeps_vectors_apply_delete
    | apply keeps_vectors_authorized_delete | apply keeps_vectors_delete_if_unmodified | apply keeps_vectors_bulk_delete
    | apply keeps_vectors_bulk_update | by apply keeps_vectors_claim_scope | apply keeps_vectors_release
    | by apply keeps_vectors_set_embedding | apply keeps_vectors_impression | apply keeps_vectors_memory_use
    | apply keeps_vectors_mark | apply keeps_vectors_supersede | apply keeps_vectors_consolidate
    | apply steps_same_vectors, same_vectors_audit
    | apply keeps_vectors_evict | apply keeps_vectors_upsert_metadata | apply keeps_vectors_migrate | apply keeps_vectors_reassign ].
Qed.
Lemma run_keeps_vectors o s : writes_right s o → keeps_vectors s (run dimensions exp2 s o).
Proof.
  intros Hw. unfold run, with_conn. destruct (op_tx dimensions exp2 o s) as [[u s']|e] eqn:E; cbn; [|reflexivity].
  by eapply op_keeps_vectors.
Qed.
End vectors.

Lemma right_for_mono (right right' : string → list f64 → Prop) c e :
  (∀ c v, right c v → right' c v) → right_for right c e → right_for right' c e.
Proof. intros Hr Hw v Hv. auto. Qed.
Lemma writes_right_mono (right right' : string → list f64 → Prop) (allowed allowed' : MemoryId → Z → string → Prop) s o :
  (∀ c v, right c v → right' c v) → (∀ id rev token, allowed id rev token → allowed' id rev token) →
  writes_right right allowed s o → writes_right right' allowed' s o.
Proof.
  intros Hr Ha. destruct o; cbn; try done; try by apply right_for_mono.
  1-4: intros Hms; eapply Forall_impl; [exact Hms | intros m; by apply right_for_mono].
  - intros Hu c Hc. eapply right_for_mono; [done|]. by apply Hu.
  - intros Hc id r Hid Hn. eauto.
  - intros Hc r Hid Hn. eauto.
Qed.
Lemma vector_ok_mono dimensions (right right' : string → list f64 → Prop) (allowed allowed' : MemoryId → Z → string → Prop) s id :
  (∀ c v, right c v → right' c v) →
  (∀ r token, st_memories s !! id = Some r → r_embedding_claim_token r = Some token →
     allowed id (r_embedding_revision r) token → allowed' id (r_embedding_revision r) token) →
  vector_ok dimensions right allowed s id → vector_ok dimensions right' allowed' s id.
Proof.
  intros Hr Ha. unfold vector_ok, lease_ok. destruct (st_memories s !! id) as [r|], (st_vectors s !! id); try done.
  - intros (?&?&?&?). auto.
  - intros [? Hl]. split; [done|]. intros token Ht. by apply Ha, Hl.
Qed.
