(* ===== verification/Integrity.v ===== *)
(** * Integrity: the well-formedness of the tables

    [wf] says that the vector table and the [has_embedding] flags agree, that
    stored vectors have the configured dimension and only finite components,
    that an embedded memory carries no re-embedding lease, that dependent rows
    have their memory, and that memberships are distinct registered contexts.
    Every operation preserves it. *)
From Stdlib Require Import ZArith Lia.
From stdpp Require Import base list option strings gmap sets pretty.
From S2P Require Import Prelude Text Floats Lists Errors Types Context StoreTypes Ranking Store Membership Crud ContextAdmin Admin Revisions Operations Vectors.

Section integrity.
Context `{Render, UnicodeCase, Chrono} (dimensions : Z) (exp2 : f64 → f64).

(** The vector table agrees with the rows; nothing is asked of a vector's
    values or of who holds a lease. *)
Definition any_vector (content : string) (v : list f64) : Prop := True.
Definition any_lease (id : MemoryId) (revision : Z) (token : string) : Prop := True.
#[local] Abbreviation vector_ok := (vector_ok dimensions any_vector any_lease).
#[local] Abbreviation keeps_vectors := (keeps_vectors dimensions any_vector any_lease).

(** Dependent rows have their memory, memberships are distinct contexts. *)
Definition dependents_ok (s : Store) (id : MemoryId) : Prop :=
  (st_memories s !! id = None →
     st_entities s !! id = None ∧ st_metadata s !! id = None ∧ st_memberships s !! id = None)
  ∧ NoDup (memberships_of s id)
  ∧ Forall (λ c, is_Some (reg_contexts (st_registry s) !! c)) (memberships_of s id).
Definition wf (s : Store) : Prop := (∀ id, vector_ok s id) ∧ (∀ id, dependents_ok s id).

(** Preservation as a preorder on states. *)
Definition keeps_dependents (s s' : Store) : Prop := (∀ id, dependents_ok s id) → (∀ id, dependents_ok s' id).
#[local] Instance keeps_dependents_preorder : PreOrder keeps_dependents.
Proof. split; [intros s Hs; exact Hs | intros s s' s'' H1' H2' Hs; auto]. Qed.

(** *** Dependent rows *)

(** The rows present and the tables [dependents_ok] reads are the same. *)
Definition same_dependents (s s' : Store) : Prop :=
  (∀ id, st_memories s !! id = None ↔ st_memories s' !! id = None)
  ∧ st_entities s = st_entities s' ∧ st_metadata s = st_metadata s' ∧ st_memberships s = st_memberships s'
  ∧ st_registry s = st_registry s'.
#[local] Instance same_dependents_preorder : PreOrder same_dependents.
Proof.
  split; [done|]. intros s s' s'' (Hm&He&Hd&Hc&Hr) (Hm'&He'&Hd'&Hc'&Hr').
  split; [intros id; by rewrite Hm|]. split_and!; congruence.
Qed.
Lemma same_keeps_dependents s s' : same_dependents s s' → keeps_dependents s s'.
Proof.
  intros (Hm&He&Hd&Hc&Hr) Hok id. destruct (Hok id) as (H1'&H2'&H3'). unfold dependents_ok, memberships_of in *.
  rewrite <- He, <- Hd, <- Hc, <- Hr. split; [|done]. intros Hn. apply H1', Hm, Hn.
Qed.
Lemma steps_same_dependents {A} (m : tx A) : steps same_dependents m → steps keeps_dependents m.
Proof. apply steps_weaken, same_keeps_dependents. Qed.
#[local] Hint Resolve steps_same_dependents | 10 : steps.
Lemma same_dependents_audit f : steps same_dependents (writes (on_audit f)).
Proof. by apply steps_writes. Qed.
Lemma same_dependents_context_audit f : steps same_dependents (writes (on_context_audit f)).
Proof. by apply steps_writes. Qed.
Lemma same_dependents_tombstones f : steps same_dependents (writes (on_tombstones f)).
Proof. by apply steps_writes. Qed.
Lemma same_dependents_vectors f : steps same_dependents (writes (on_vectors f)).
Proof. by apply steps_writes. Qed.
Lemma same_dependents_require_row id : steps same_dependents (require_row id).
Proof. intros s u s' Hs. unfold require_row in Hs. destruct (st_memories s !! id); [|done]. inv_tx. reflexivity. Qed.
Lemma same_dependents_scope l : steps same_dependents (primary_scope l).
Proof.
  intros s u s' Hs. unfold primary_scope in Hs. destruct l as [|c l]; [inv_tx; reflexivity|].
  destruct (reg_contexts (st_registry s) !! c); inv_tx. reflexivity.
Qed.
Lemma same_dependents_revision id : steps same_dependents (select_embedding_revision id).
Proof. intros s u s' Hs. unfold select_embedding_revision in Hs. destruct (st_memories s !! id); [|done]. inv_tx. reflexivity. Qed.
#[local] Hint Resolve same_dependents_audit same_dependents_context_audit same_dependents_tombstones
  same_dependents_vectors same_dependents_require_row same_dependents_scope same_dependents_revision : steps.
Lemma same_dependents_alter f id s : same_dependents s (on_memories (alter f id) s).
Proof.
  split; [|done]. intros j. cbn. destruct (decide (j = id)) as [->|]; [rewrite lookup_alter_eq | by rewrite lookup_alter_ne].
  by destruct (st_memories s !! id).
Qed.
Lemma same_dependents_row id f : steps same_dependents (update_row id f).
Proof.
  intros s b s' Hs. unfold update_row in Hs. destruct (st_memories s !! id); inv_tx; [apply same_dependents_alter | reflexivity].
Qed.
#[local] Hint Resolve same_dependents_row : steps.
Lemma same_dependents_tombstone m at_ by_ : steps same_dependents (insert_tombstone m at_ by_).
Proof. apply same_dependents_tombstones. Qed.
Lemma same_dependents_audit_draft id a : steps same_dependents (insert_audit_draft id a).
Proof. apply same_dependents_audit. Qed.
Lemma same_dependents_optional_audit id a : steps same_dependents (insert_optional_audit_draft id a).
Proof. unfold insert_optional_audit_draft, insert_audit_draft, insert_audit_entry. steps_tac. Qed.
Lemma same_dependents_audit_update a u m : steps same_dependents (audit_update a u m).
Proof. apply same_dependents_audit. Qed.
Lemma same_dependents_compatibility id u p : steps same_dependents (validate_compatibility_cache_update id u p).
Proof. unfold validate_compatibility_cache_update, compatibility_scope_key. steps_tac. Qed.
Lemma same_dependents_superseded sid : steps same_dependents (validate_superseded_exists sid).
Proof. unfold validate_superseded_exists. steps_tac. Qed.
Lemma same_dependents_profile p : steps same_dependents (ensure_embedding_profile_matches p).
Proof. unfold ensure_embedding_profile_matches. steps_tac. Qed.
#[local] Hint Resolve same_dependents_tombstone same_dependents_audit_draft same_dependents_optional_audit
  same_dependents_audit_update same_dependents_compatibility same_dependents_superseded same_dependents_profile : steps.
Lemma same_dependents_upsert_vector id v : steps same_dependents (upsert_vector dimensions id v).
Proof. unfold upsert_vector. steps_tac. Qed.
Lemma same_dependents_mark old new : steps same_dependents (mark_superseded old new).
Proof. unfold mark_superseded, fetch_memory_by_id. steps_tac. Qed.
Lemma same_dependents_increment id action : steps same_dependents (increment_record_revision_conn id action).
Proof. unfold increment_record_revision_conn. steps_tac. Qed.
#[local] Hint Resolve same_dependents_upsert_vector same_dependents_mark same_dependents_increment : steps.

Lemma keeps_dependents_delete id : steps keeps_dependents (delete_memory id).
Proof.
  intros s b s' Hs Hok j. destruct (Hok j) as (Hn&Hd&Hr). unfold delete_memory in Hs.
  destruct (st_memories s !! id) as [r0|]; inv_tx; [|done]. unfold dependents_ok, memberships_of in *. cbn.
  rewrite lookup_fmap. destruct (decide (j = id)) as [->|].
  - rewrite !lookup_delete_eq. cbn. split_and!; [done | constructor | done].
  - rewrite !lookup_delete_ne by done. split; [|done]. intros Hx. apply Hn. by destruct (st_memories s !! j).
Qed.
Lemma keeps_dependents_insert_row p : steps keeps_dependents (insert_row p).
Proof.
  intros s b s' Hs Hok j. destruct (Hok j) as (Hn&Hr). unfold insert_row in Hs.
  destruct (st_memories s !! pm_id p) as [r0|]; inv_tx. split; [|done]. cbn. intros Hx. apply Hn.
  by apply lookup_insert_None in Hx as [? _].
Qed.
#[local] Hint Resolve keeps_dependents_delete keeps_dependents_insert_row : steps.

(** A change of a dependent table at a memory that exists. *)
Lemma keeps_dependents_entities f id s : is_Some (st_memories s !! id) → (∀ t j, j ≠ id → f t !! j = t !! j) →
  keeps_dependents s (on_entities f s).
Proof.
  intros [r Hr] Hf Hok j. destruct (Hok j) as (Hn&Hd). split; [|done]. cbn. intros Hx.
  rewrite Hf; [by apply Hn | congruence].
Qed.
Lemma keeps_dependents_metadata f id s : is_Some (st_memories s !! id) → (∀ t j, j ≠ id → f t !! j = t !! j) →
  keeps_dependents s (on_metadata f s).
Proof.
  intros [r Hr] Hf Hok j. destruct (Hok j) as (Hn&Hd). split; [|done]. cbn. intros Hx.
  rewrite Hf; [by apply Hn | congruence].
Qed.
Lemma require_row_inv id s x s' : require_row id s = Ok (x, s') → is_Some (st_memories s !! id) ∧ s' = s.
Proof. unfold require_row. intros Hs. destruct (st_memories s !! id) eqn:E; inv_tx. eauto. Qed.
Lemma keeps_dependents_insert_entities id l : steps keeps_dependents (insert_entities id l).
Proof.
  unfold insert_entities. intros s x s' Hs. case_bool_decide; inv_tx; [reflexivity|].
  match goal with Hr : require_row _ _ = _ |- _ => apply require_row_inv in Hr as [? ->] end.
  apply (keeps_dependents_entities _ id); [done|]. intros t j Hj. by rewrite lookup_insert_ne.
Qed.
Lemma keeps_dependents_upsert_metadata md : steps keeps_dependents (upsert_metadata_conn md).
Proof.
  unfold upsert_metadata_conn. intros s x s' Hs. inv_tx.
  match goal with Hr : require_row _ _ = _ |- _ => apply require_row_inv in Hr as [? ->] end.
  apply (keeps_dependents_metadata _ (md_memory_id md)); [done|]. intros t j Hj. by rewrite lookup_insert_ne.
Qed.
Lemma keeps_dependents_delete_entities id : steps keeps_dependents (writes (on_entities (delete id))).
Proof.
  apply steps_writes. intros s Hok j. destruct (Hok j) as (Hn&Hd). split; [|done]. cbn. intros Hx.
  destruct (Hn Hx) as (?&?&?). split_and!; [|done..]. apply lookup_delete_None. by right.
Qed.
#[local] Hint Resolve keeps_dependents_insert_entities keeps_dependents_upsert_metadata keeps_dependents_delete_entities : steps.
Lemma keeps_dependents_replace_entities id l : steps keeps_dependents (replace_entities id l).
Proof. unfold replace_entities. steps_tac. Qed.
#[local] Hint Resolve keeps_dependents_replace_entities : steps.
Lemma keeps_dependents_update_inner id u now : steps keeps_dependents (apply_update_inner id u now).
Proof. unfold apply_update_inner, update_columns. steps_tac. Qed.
Lemma keeps_dependents_delete_memberships id : steps keeps_dependents (writes (on_memberships (delete id))).
Proof.
  apply steps_writes. intros s Hok j. destruct (Hok j) as (Hn&Hd&Hr). unfold dependents_ok, memberships_of in *; cbn.
  destruct (decide (j = id)) as [->|]; [rewrite lookup_delete_eq | by rewrite lookup_delete_ne].
  cbn. split_and!; [|constructor|done]. intros Hx. by destruct (Hn Hx) as (?&?&_).
Qed.
Lemma keeps_dependents_insert_membership id row : steps keeps_dependents (insert_membership id row).
Proof.
  intros s x s' Hs Hok j. destruct (Hok j) as (Hn&Hd&Hr). unfold insert_membership in Hs.
  case_bool_decide as Hc; inv_tx. destruct Hc as (_ & Hnew & [r Hrow] & Hreg).
  unfold dependents_ok. destruct (decide (j = id)) as [->|].
  - assert (memberships_of (on_memberships <[id:=memberships_of s id ++ [row.2]]> s) id = memberships_of s id ++ [row.2]) as ->.
    { unfold memberships_of at 1. cbn. by rewrite lookup_insert_eq. }
    cbn. split_and!; [congruence| |apply list.Forall_app; split; [done | by constructor]].
    apply NoDup_app. split_and!; [done| |apply NoDup_singleton]. intros c Hc ->%list_elem_of_singleton. done.
  - unfold memberships_of in *. cbn. rewrite lookup_insert_ne by done. done.
Qed.
#[local] Hint Resolve keeps_dependents_update_inner keeps_dependents_delete_memberships keeps_dependents_insert_membership : steps.
Lemma keeps_dependents_insert_contexts id cs p sc a now pr : steps keeps_dependents (insert_memory_contexts_sqlite id cs p sc a now pr).
Proof. unfold insert_memory_contexts_sqlite, require_usable, context_use_allowed, insert_context_audit. steps_tac. Qed.
#[local] Hint Resolve keeps_dependents_insert_contexts : steps.
Lemma keeps_dependents_replace_contexts id cs p sc a now :
  steps keeps_dependents (replace_memory_contexts_sqlite_tx id cs p sc a now).
Proof.
  unfold replace_memory_contexts_sqlite_tx. steps_tac.
  - intros Hok j. destruct (Hok j) as (Hn&Hd). split; [|done]. cbn. intros Hx. destruct (Hn Hx) as (?&Hmd&?).
    split_and!; [done| |done]. destruct (decide (j = id)) as [->|]; [by rewrite lookup_alter_eq, Hmd | by rewrite lookup_alter_ne].
  - apply same_keeps_dependents, same_dependents_alter.
Qed.
#[local] Hint Resolve keeps_dependents_replace_contexts : steps.

Lemma keeps_dependents_replace_governed id u patch cs p ca at_ : steps keeps_dependents (replace_governed id u patch cs p ca at_).
Proof. unfold replace_governed. steps_tac. Qed.
Lemma keeps_dependents_replace_if_unmodified id cs p ca at_ :
  steps keeps_dependents (replace_governed_if_unmodified id cs p ca at_).
Proof. unfold replace_governed_if_unmodified, replacement_scope, get_metadata_conn. steps_tac. Qed.
Lemma keeps_dependents_upsert_merged id patch m p : steps keeps_dependents (upsert_merged_metadata id patch m p).
Proof. unfold upsert_merged_metadata, get_metadata_conn. steps_tac. Qed.
Lemma keeps_dependents_write_embedding id e profile : steps keeps_dependents (write_embedding dimensions id e profile).
Proof. unfold write_embedding. steps_tac. Qed.
Lemma keeps_dependents_insert p : steps keeps_dependents (insert dimensions p).
Proof. unfold insert. steps_tac. Qed.
#[local] Hint Resolve keeps_dependents_replace_governed keeps_dependents_replace_if_unmodified
  keeps_dependents_upsert_merged keeps_dependents_write_embedding keeps_dependents_insert : steps.
Lemma keeps_dependents_insert_prepared p sup a :
  steps keeps_dependents (insert_prepared_with_optional_supersession_and_audit dimensions p sup a).
Proof. unfold insert_prepared_with_optional_supersession_and_audit. steps_tac. Qed.
#[local] Hint Resolve keeps_dependents_insert_prepared : steps.
Lemma keeps_dependents_claim scope limit now before token : steps keeps_dependents (claim_for_reembed_conn scope limit now before token).
Proof. unfold claim_for_reembed_conn. steps_tac. Qed.
#[local] Hint Resolve keeps_dependents_claim : steps.
Lemma keeps_dependents_release id rev token : steps keeps_dependents (release_embedding_claim_impl id rev token).
Proof.
  intros s b s' Hs. unfold release_embedding_claim_impl in Hs. destruct (st_memories s !! id); [|by inv_tx].
  destruct (_ && _); inv_tx; [apply same_keeps_dependents, same_dependents_alter | reflexivity].
Qed.

Lemma keeps_dependents_insert_context c : steps keeps_dependents (insert_context c).
Proof.
  unfold insert_context, constraint. intros s u s' Hs. inv_tx. match goal with Hc : (if ?b then _ else _) = _ |- _ => destruct b; inv_tx end.
  intros Hok j. destruct (Hok j) as (Hn & Hd & Hr). split_and!; [done..|]. eapply Forall_impl; [exact Hr|]. cbn. intros i Hi.
  destruct (decide (i = cd_id c)) as [->|]; [rewrite lookup_insert_eq; eauto|by rewrite lookup_insert_ne].
Qed.
Lemma same_dependents_envelope m at_ by_ : steps same_dependents (insert_authorization_tombstone m at_ by_).
Proof. apply same_dependents_tombstones. Qed.
Lemma same_dependents_context_row a c m now : steps same_dependents (insert_context_audit a c m now).
Proof. apply same_dependents_context_audit. Qed.
Lemma same_dependents_writable p id : steps same_dependents (writable_by p id).
Proof. unfold writable_by, fetch_memory_by_id. steps_tac. Qed.
Lemma keeps_dependents_metadata_alter f id : steps keeps_dependents (writes (on_metadata (alter f id))).
Proof.
  apply steps_writes. intros s Hok j. destruct (Hok j) as (Hn&Hd). split; [|done]. cbn. intros Hx. destruct (Hn Hx) as (?&Hmd&?).
  split_and!; [done| |done]. destruct (decide (j = id)) as [->|]; [by rewrite lookup_alter_eq, Hmd | by rewrite lookup_alter_ne].
Qed.
Lemma keeps_dependents_missing md : steps keeps_dependents (insert_missing_metadata md).
Proof.
  unfold insert_missing_metadata. intros s x s' Hs. inv_tx. destruct (is_some _); inv_tx; [done|].
  match goal with Hr : require_row _ _ = _ |- _ => apply require_row_inv in Hr as [? ->] end.
  apply (keeps_dependents_metadata _ (md_memory_id md)); [done|]. intros t j Hj. by rewrite lookup_insert_ne.
Qed.
#[local] Hint Resolve keeps_dependents_insert_context same_dependents_envelope same_dependents_context_row same_dependents_writable
  keeps_dependents_metadata_alter keeps_dependents_missing : steps.

Lemma op_keeps_dependents o : steps keeps_dependents (op_tx dimensions exp2 o).
Proof.
  destruct o; unfold op_tx; try (apply (steps_forget _));
    [ unfold store_audited_impl; steps_tac | unfold store_with_supersession_audited_impl; steps_tac
    | unfold store_with_metadata_audited_impl; steps_tac
    | unfold store_with_metadata_contexts_audited_impl, insert_initial_memory_contexts_sqlite; steps_tac
    | unfold store_batch_audited_impl, check_len; steps_tac
    | unfold store_batch_with_supersession_audited_impl, batch_store_with_supersession_and_audit, check_len; steps_tac
    | unfold store_batch_with_metadata_audited_impl, check_len; steps_tac
    | unfold store_batch_with_metadata_contexts_audited_impl, insert_initial_memory_contexts_sqlite; steps_tac
    | unfold update_impl, apply_update, fetch_memory_by_id; steps_tac
    | apply (steps_authorize _); intros; steps_tac
    | apply (steps_authorize _); intros; steps_tac
    | unfold apply_authorized_update_with_metadata_contexts; apply (steps_bind _); [steps_tac | intros _; apply (steps_authorize _); intros; steps_tac]
    | unfold apply_authorized_update_if_unmodified_with_metadata;
      do 3 (apply (steps_bind _); [steps_tac | intros _]); apply (steps_authorize _); intros; steps_tac
    | unfold apply_delete, fetch_memory_by_id; steps_tac
    | unfold apply_authorized_delete, fetch_memory_by_id; steps_tac
    | apply (steps_authorize _); intros; steps_tac
    | unfold bulk_delete_ids, bulk_delete_one, fetch_memory_by_id; steps_tac
    | unfold bulk_update_ids, bulk_update_one, fetch_memory_by_id; steps_tac
    | unfold claim_for_reembed_with_scope_impl; steps_tac
    | apply keeps_dependents_release
    | unfold set_embedding_impl; steps_tac
    | unfold record_search_impression_impl; steps_tac
    | unfold record_memory_use_impl, update_single_memory_use, fetch_memory_by_id; steps_tac
    | unfold mark_superseded_by_impl; steps_tac
    | apply (steps_authorize _); intros; steps_tac
    | unfold mark_superseded_if_unchanged, fetch_memory_by_id, consolidation_context_profile; steps_tac
    | apply steps_same_dependents, same_dependents_audit
    | unfold evict_expired_conn, evict_one; steps_tac
    | unfold upsert_metadata_audited_impl, fetch_memory_by_id, compatibility_scope_key; steps_tac
    | unfold migrate_metadata_audited_impl, insert_metadata_migration_row; steps_tac
    | unfold apply_reassign_scope, resolve_or_create_private_legacy_context, reassign_chunk, move_memberships, rewrite_memberships; steps_tac ].
Qed.

Lemma any_writes_right s o : writes_right any_vector any_lease s o.
Proof. destruct o; cbn; try done; apply list.Forall_forall; done. Qed.
Lemma run_wf s o : wf s → wf (run dimensions exp2 s o).
Proof.
  intros [Hv Hd]. unfold run. split.
  - apply run_keeps_vectors; [apply any_writes_right | exact Hv].
  - by apply (steps_with_conn keeps_dependents _ _ (op_keeps_dependents o)).
Qed.

(** C2. Integrity of the tables is an invariant: from a well-formed store
    (the empty one, with whatever contexts are registered, is well-formed),
    every sequence of operations, failing ones included, leads to a
    well-formed store. In particular a vector is stored exactly for the
    memories flagged as embedded, has the configured dimension and finite
    components, never coexists with a re-embedding lease, and no vector,
    entity, metadata or membership row outlives its memory. *)
Theorem store_integrity s os : wf s → wf (run_all dimensions exp2 s os).
Proof. revert s. induction os as [|o os IH]; intros s Hs; cbn; [done|]. by apply IH, run_wf. Qed.

Lemma empty_store_wf registry profile : wf (on_profile (λ _, profile) (on_registry (λ _, registry) empty_store)).
Proof. split; [intros id; done|]. intros id. split; [done|]. split; [constructor | constructor]. Qed.
End integrity.

Lemma store_integrity_witness : wf 1 (run_all (H := plain_render) (H0 := AsciiCase) (H1 := plain_chrono) 1 (λ x, x) empty_store
  [OpStore edited (Some [f1]) None; OpUpdate (m_id edited) sample_edit 6; OpDelete (m_id edited) 7]).
Proof. apply (store_integrity (H := plain_render)). apply (empty_store_wf 1 empty_registry None). Defined.
