(* ===== verification/Authorization.v ===== *)
(** * Authorization: what a caller may change, and what an operation does when
    it is allowed

    [shielded] says that a memory a principal may not write is untouched, but
    for the [superseded_by] reference that the deletion of another memory
    clears. The theorems below give the outcome of the authorized operations
    on every branch. *)
From Stdlib Require Import ZArith Lia.
From stdpp Require Import base list option strings gmap sets pretty.
From S2P Require Import Prelude Text Floats Lists Errors Types Context StoreTypes Ranking Store Membership Crud ContextAdmin Admin Revisions Operations.

Section authorization.
Context `{Render, UnicodeCase, Chrono} (dimensions : Z) (exp2 : f64 → f64).

(** The operations that write on behalf of a principal. *)
Definition op_writer (o : operation) : option string :=
  match o with
  | OpUpdateAuthorized _ _ p _ _ | OpUpdateWithMetadata _ _ _ p _ _ | OpUpdateGoverned _ _ _ _ p _ _ _
  | OpUpdateIfUnmodified _ _ _ _ _ _ _ p _ _ _ | OpDeleteAuthorized _ p _ _ | OpDeleteIfUnmodified _ _ p _ _
  | OpBulkDelete _ p _ _ | OpBulkUpdate _ _ p _ _ | OpSupersede _ _ p _ | OpConsolidate _ _ p _ => Some p
  | OpEvict (ExpiredCleanupScope.Authorized p) _ _ => Some p
  | OpReassignScope _ _ params => Some (ra_principal params)
  | _ => None
  end.

Definition writable (s : Store) (id : MemoryId) (p : string) : bool :=
  match st_memories s !! id with Some r => has_write_access (row_to_memory id r) p | None => false end.

(** The row after the deletion of other memories. *)
Definition maybe_cleared (r r' : MemoryRow) : Prop :=
  r' = r ∨ ∃ x, r_superseded_by r = Some x ∧ r' = clear_superseded_by x r.
Definition shielded (id : MemoryId) (p : string) (s s' : Store) : Prop :=
  ∀ r, st_memories s !! id = Some r → has_write_access (row_to_memory id r) p = false →
    ∃ r', st_memories s' !! id = Some r' ∧ maybe_cleared r r'
      ∧ default ∅ (st_entities s !! id) = default ∅ (st_entities s' !! id)
      ∧ st_metadata s !! id = st_metadata s' !! id ∧ memberships_of s id = memberships_of s' id.

Lemma maybe_cleared_access id p r r' :
  maybe_cleared r r' → has_write_access (row_to_memory id r') p = has_write_access (row_to_memory id r) p.
Proof. intros [->|(x & _ & ->)]; [done|]. unfold clear_superseded_by. by case_bool_decide. Qed.
Lemma maybe_cleared_trans r r' r'' : maybe_cleared r r' → maybe_cleared r' r'' → maybe_cleared r r''.
Proof.
  intros [->|(x & Hx & ->)] [->|(y & Hy & ->)]; [by left|right; eauto|right; eauto|].
  unfold clear_superseded_by in Hy. rewrite bool_decide_eq_true_2 in Hy by done. done.
Qed.
#[local] Instance shielded_preorder id p : PreOrder (shielded id p).
Proof.
  split.
  - intros s r Hr _. exists r. split_and!; [done|by left|done..].
  - intros s s' s'' H1' H2' r Hr Hacc. destruct (H1' r Hr Hacc) as (r' & Hr' & Hc & He & Hd & Hm).
    destruct (H2' r' Hr') as (r'' & Hr'' & Hc' & He' & Hd' & Hm'); [by rewrite (maybe_cleared_access _ _ _ _ Hc)|].
    exists r''. split_and!; [done|by eapply maybe_cleared_trans|congruence..].
Qed.

Lemma same_at_shielded id p s s' : same_at id s s' → shielded id p s s'.
Proof. intros (Em & Ee & Ed & Ec) r Hr _. exists r. split_and!; [congruence|by left|done..]. Qed.
Lemma quiet_shielded id p {A} (m : tx A) : steps quiet m → steps (shielded id p) m.
Proof. apply steps_weaken. intros s s' Hq. apply same_at_shielded, Hq. Qed.
Lemma only_shielded id p j {A} (m : tx A) : j ≠ id → steps (only j) m → steps (shielded id p) m.
Proof. intros Hj. apply steps_weaken. intros s s' [Ho _]. by apply same_at_shielded, Ho. Qed.
Lemma delete_shielded id p j : j ≠ id → steps (shielded id p) (delete_memory j).
Proof.
  intros Hj s b s' Hs r Hr _. unfold delete_memory in Hs. destruct (st_memories s !! j); inv_tx.
  - exists (clear_superseded_by j r). cbn. unfold memberships_of; cbn.
    rewrite lookup_fmap, !lookup_delete_ne, Hr by done. split_and!; [done| |done..].
    unfold maybe_cleared. destruct (decide (r_superseded_by r = Some j)); [right; eauto|left].
    unfold clear_superseded_by. by rewrite bool_decide_eq_false_2.
  - exists r. split_and!; [done|by left|done..].
Qed.
Lemma only_update_inner j u now : steps (only j) (apply_update_inner j u now).
Proof.
  intros s o s' Hs%apply_update_inner_inv. destruct (st_memories s !! j) as [r|] eqn:Hr; destruct Hs as [_ ->].
  - by apply updated_only.
  - reflexivity.
Qed.
Lemma only_mark_superseded j new : steps (only j) (mark_superseded j new).
Proof.
  unfold mark_superseded, fetch_memory_by_id. steps_tac. apply steps_only_row. intros r. split_and!; cbn; lia || done.
Qed.
#[local] Hint Resolve quiet_shielded | 10 : steps.
#[local] Hint Resolve only_shielded delete_shielded only_update_inner only_mark_superseded only_upsert_merged
  only_replace_governed only_replace_if_unmodified only_write_embedding quiet_audit_update : steps.

(** An authorized operation on [j] leaves a memory its caller may not write
    alone, whether that is [j] or another. *)
Lemma authorize_shielded {A} id p j refused (k : Memory → tx A) :
  (j ≠ id → ∀ m, steps (shielded id p) (k m)) → steps (shielded id p) (authorize j p refused k).
Proof.
  intros Hk s a s' [(_&_&->)|(r & Hr & [(_&_&->)|(Hacc & Hrun)])]%authorize_inv; [reflexivity..|].
  destruct (decide (j = id)) as [->|Hj]; [|by eapply Hk].
  intros r0 Hr0 Hd. simplify_eq. congruence.
Qed.

Lemma bulk_delete_shielded id p t a acc j : steps (shielded id p) (bulk_delete_one p t a acc j).
Proof.
  unfold bulk_delete_one, fetch_memory_by_id. intros s o s' Hrun. inv_tx.
  destruct (st_memories s !! j) as [r|] eqn:Hr; cbn in *; [|by inv_tx].
  destruct (has_write_access _ p) eqn:Hacc; cbn in *; [|inv_tx; reflexivity].
  destruct (decide (j = id)) as [->|Hj]; [intros r0 Hr0 Hd; simplify_eq; congruence|].
  revert Hrun. match goal with |- ?m s = _ → _ => generalize s o s'; change (steps (shielded id p) m) end. steps_tac.
Qed.
Lemma bulk_update_shielded id p u now a acc j : steps (shielded id p) (bulk_update_one u p now a acc j).
Proof.
  unfold bulk_update_one, fetch_memory_by_id. intros s o s' Hrun. inv_tx.
  destruct (st_memories s !! j) as [r|] eqn:Hr; cbn in *; [|by inv_tx].
  destruct (has_write_access _ p) eqn:Hacc; cbn in *; [|inv_tx; reflexivity].
  destruct (decide (j = id)) as [->|Hj]; [intros r0 Hr0 Hd; simplify_eq; congruence|].
  revert Hrun. match goal with |- ?m s = _ → _ => generalize s o s'; change (steps (shielded id p) m) end. steps_tac.
Qed.
#[local] Hint Resolve bulk_delete_shielded bulk_update_shielded : steps.

Lemma if_unmodified_shielded id p j rev u patch cs e profile now audit ca :
  steps (shielded id p)
    (apply_authorized_update_if_unmodified_with_metadata dimensions j rev u patch cs e profile p now audit ca).
Proof.
  unfold apply_authorized_update_if_unmodified_with_metadata.
  do 3 (apply (steps_bind _); [steps_tac | intros _]). apply authorize_shielded. intros Hj m. steps_tac.
Qed.
Lemma consolidate_shielded id p member representative a :
  steps (shielded id p) (mark_superseded_if_unchanged member representative p a).
Proof.
  unfold mark_superseded_if_unchanged, fetch_memory_by_id, consolidation_context_profile. intros s o s' Hrun. inv_tx.
  destruct (st_memories s !! cs_memory_id member) as [r|] eqn:Hr; cbn in *; [|by inv_tx].
  destruct (st_memories s !! cs_memory_id representative) as [r'|] eqn:Hr'; cbn in *; [|by inv_tx].
  destruct (has_write_access _ p) eqn:Hacc; cbn in *; [|inv_tx; reflexivity].
  destruct (decide (cs_memory_id member = id)) as [<-|Hj]; [intros r0 Hr0 Hd; simplify_eq; congruence|].
  revert Hrun. match goal with |- ?m s = _ → _ => generalize s o s'; change (steps (shielded id p) m) end. steps_tac.
Qed.

(** Eviction decides on the rows it has read. *)
Lemma evict_shielded id p now a : steps (shielded id p) (evict_expired_conn now (ExpiredCleanupScope.Authorized p) a).
Proof.
  unfold evict_expired_conn. intros s o s' Hs. apply tx_bind_Ok in Hs as (l & s1 & [= -> ->]%reads_Ok & Hs).
  intros r Hr Hd. refine ((_ : steps (shielded id p) _) _ _ _ Hs r Hr Hd). clear Hs. apply (steps_fold_in _).
  intros n e ((j & row) & -> & Hin)%list_elem_of_fmap. rewrite (elem_of_sort_by cmp_expiry) in Hin.
  apply list_elem_of_In, filter_In, proj1, list_elem_of_In, elem_of_map_to_list in Hin.
  destruct (decide (j = id)) as [->|Hj]; [|unfold evict_one, insert_authorization_tombstone; steps_tac].
  unfold evict_one. cbn. simplify_eq. unfold envelope_has_write_access. cbn.
  change (write_access_allowed _ _ p) with (has_write_access (row_to_memory id r) p). rewrite Hd. apply (steps_ret _).
Qed.
Lemma reassign_shielded id fresh scan params : steps (shielded id (ra_principal params)) (apply_reassign_scope fresh scan params).
Proof.
  unfold apply_reassign_scope. intros s o s' Hs. apply tx_bind_Ok in Hs as (l & s1 & [= -> ->]%reads_Ok & Hs).
  apply tx_bind_Ok in Hs as (ids & s2 & [-> Hids]%authorized_ids_inv & Hs). intros r Hr Hd.
  assert (Hni : id ∉ ids).
  { intros [?%elem_of_nil|(r' & Hr' & Hw)]%Hids; [done|]. simplify_eq. congruence. }
  refine ((_ : steps (shielded id (ra_principal params)) _) _ _ _ Hs r Hr Hd). clear Hs.
  assert (Hchunk : ∀ c scope l, l ∈ chunks SQLITE_MAX_CHUNK ids → steps (shielded id (ra_principal params)) (reassign_chunk params c scope l)).
  { intros c scope k Hk. eapply steps_weaken; [|apply these_reassign_chunk]. intros t t' Ho. apply same_at_shielded.
    destruct (Ho id) as [|[Hin%elem_of_list_to_set _]]; [done|]. exfalso. apply Hni. eapply elem_of_chunk; [|done..]. unfold SQLITE_MAX_CHUNK. lia. }
  case_bool_decide; [apply (steps_ret _)|]. apply (steps_bind _); [apply quiet_shielded, quiet_resolve_legacy|intros c].
  apply (steps_bind _); [apply quiet_shielded, quiet_primary_scope|intros scope].
  apply (steps_bind _); [|intros ?; apply (steps_ret _)]. apply (steps_fold_in _). intros ? k Hk. by apply Hchunk.
Qed.

Lemma op_shielded id p o : op_writer o = Some p → steps (shielded id p) (op_tx dimensions exp2 o).
Proof.
  destruct o; try done; try (destruct scope; [done|]); intros [= <-]; apply (steps_forget _).
  - apply authorize_shielded. intros Hj m. steps_tac.
  - apply authorize_shielded. intros Hj m. steps_tac.
  - unfold apply_authorized_update_with_metadata_contexts. apply (steps_bind _); [steps_tac | intros _].
    apply authorize_shielded. intros Hj m. steps_tac.
  - apply if_unmodified_shielded.
  - apply (authorize_shielded id _ id0 (λ o, o)). intros Hj m. steps_tac.
  - apply authorize_shielded. intros Hj m. steps_tac.
  - unfold bulk_delete_ids. steps_tac.
  - unfold bulk_update_ids. steps_tac.
  - apply authorize_shielded. intros Hj m. steps_tac.
  - apply consolidate_shielded.
  - apply evict_shielded.
  - apply reassign_shielded.
Qed.

(** C8. Access control of every authorized operation, single, bulk,
    optimistic, governed or consolidating: a memory that the acting principal
    has no write access to is exactly the same afterwards (columns, entities,
    metadata, memberships, revisions, leases), whether the operation targets
    it or not and whether it succeeds or fails. The one exception is the
    trigger of the schema: when the operation deletes the memory that had
    superseded it, its [superseded_by] reference is cleared and its revision
    advances. *)
Theorem write_access_required o p s id r :
  op_writer o = Some p → st_memories s !! id = Some r → has_write_access (row_to_memory id r) p = false →
  ∃ r', st_memories (run dimensions exp2 s o) !! id = Some r'
    ∧ (r' = r ∨ ∃ x, r_superseded_by r = Some x
         ∧ r' = set_record_revision (r_record_revision r + 1) (set_superseded_by None r))
    ∧ default ∅ (st_entities s !! id) = default ∅ (st_entities (run dimensions exp2 s o) !! id)
    ∧ st_metadata s !! id = st_metadata (run dimensions exp2 s o) !! id
    ∧ memberships_of s id = memberships_of (run dimensions exp2 s o) id.
Proof.
  intros Ho Hr Hacc. pose proof (steps_with_conn (shielded id p) _ s (op_shielded id p o Ho)) as Hs.
  destruct (Hs r Hr Hacc) as (r' & Hr' & Hc & Hrest). exists r'. split; [done|]. split; [|done].
  destruct Hc as [->|(x & Hx & ->)]; [by left|]. right. exists x. split; [done|].
  unfold clear_superseded_by. by rewrite bool_decide_eq_true_2.
Qed.

(** ** Deletion *)

(** The store after the authorized deletion of a memory. *)
Definition deleted_store (id : MemoryId) (r : MemoryRow) (p : option string) (at_ : DateTime) (s : Store) : Store :=
  on_memories (λ t, clear_superseded_by id <$> delete id t)
    (on_vectors (delete id) (on_entities (delete id) (on_metadata (delete id) (on_memberships (delete id)
      (on_tombstones <[id := tombstone_from_memory (row_to_memory id r) at_ p]> s))))).
Definition audited (id : MemoryId) (a : AuditDraft) : Store → Store :=
  on_audit (λ log, log ++ [{| au_memory_id := id; au_action := AuditAction.to_string (ad_action a);
    au_caller_agent := ad_caller_agent a; au_timestamp := ad_timestamp a; au_details := ad_details a |}]).

Lemma delete_memory_Some id s r : st_memories s !! id = Some r →
  delete_memory id s = Ok (true, on_memories (λ t, clear_superseded_by id <$> delete id t)
    (on_vectors (delete id) (on_entities (delete id) (on_metadata (delete id) (on_memberships (delete id) s))))).
Proof. intros Hr. unfold delete_memory. by rewrite Hr. Qed.

(** Authorized deletion, on every branch. A missing memory is reported
    and a caller without write access denied, with no effect. Otherwise the
    deletion always succeeds: the memory goes with its vector, entities,
    metadata and memberships, no other memory refers to it any more, a
    tombstone keeps its provenance and policy (so the access decision on the
    deleted memory stays the one it had, for every caller), and exactly the
    given audit entry is appended. *)
Theorem authorized_delete_spec id p at_ audit s :
  with_conn (apply_authorized_delete id p at_ audit) s =
    match st_memories s !! id with
    | None => (Ok WriteOutcome.NotFound, s)
    | Some r =>
        if has_write_access (row_to_memory id r) p
        then (Ok WriteOutcome.Applied,
              (match audit with Some a => audited id a | None => λ s, s end) (deleted_store id r (Some p) at_ s))
        else (Ok WriteOutcome.Denied, s)
    end
  ∧ (∀ r, let s' := deleted_store id r (Some p) at_ s in
      st_memories s' !! id = None ∧ st_vectors s' !! id = None ∧ st_entities s' !! id = None
      ∧ st_metadata s' !! id = None ∧ st_memberships s' !! id = None
      ∧ (∀ j r', st_memories s' !! j = Some r' → r_superseded_by r' ≠ Some id)
      ∧ ∃ t, st_tombstones s' !! id = Some t
          ∧ ∀ caller, tombstone_check_access_level t caller = check_access_level (row_to_memory id r) caller).
Proof.
  split.
  - unfold with_conn, apply_authorized_delete, fetch_memory_by_id, mbind, tx_bind, reads. cbn.
    destruct (st_memories s !! id) as [r|] eqn:Hr; cbn; [|done].
    destruct (has_write_access (row_to_memory id r) p); cbn; [|done].
    unfold insert_tombstone, insert_authorization_tombstone, writes. cbn.
    erewrite delete_memory_Some by (cbn; exact Hr). destruct audit as [a|]; done.
  - intros r s'. unfold s', deleted_store. cbn. rewrite lookup_fmap, !lookup_delete_eq, lookup_insert_eq. cbn.
    split_and!; try done.
    + intros j r' Hj. rewrite lookup_fmap in Hj. apply fmap_Some in Hj as (r0 & _ & ->).
      unfold clear_superseded_by. case_bool_decide; [done | done].
    + eexists. split; [done|]. intros caller. apply tombstone_same_access.
Qed.
End authorization.

#[local] Existing Instance plain_render.
#[local] Existing Instance plain_chrono.
#[local] Existing Instance AsciiCase.
Definition from_memory_row (m : Memory) : MemoryRow := pm_row (from_memory m None).
Lemma write_access_required_witness :
  ∃ r r', st_memories sample_store !! m_id edited = Some r
    ∧ has_write_access (row_to_memory (m_id edited) r) "bob" = false
    ∧ st_memories (run 1 (λ x, x) sample_store (OpDeleteAuthorized (m_id edited) "bob" 9 None)) !! m_id edited = Some r'.
Proof.
  eexists.
  destruct (write_access_required 1 (λ x, x) (OpDeleteAuthorized (m_id edited) "bob" 9 None) "bob" sample_store
    (m_id edited) (from_memory_row edited)) as (r' & Hr' & _); [reflexivity | vm_compute; reflexivity | vm_compute; reflexivity |].
  exists r'. split; [vm_compute; reflexivity|]. split; [vm_compute; reflexivity | exact Hr'].
Defined.
