(* ===== verification/Concurrency.v ===== *)
(** * Concurrency: optimistic saves and re-embedding leases

    What protects concurrent writers from each other when their transactions
    interleave: the expected revision of an optimistic save or deletion, and
    the lease of a re-embedding claim. *)
From Stdlib Require Import ZArith Lia Sorting.Sorted.
From stdpp Require Import base list option strings gmap sets pretty.
From S2P Require Import Prelude Text Floats Lists Errors Types Context StoreTypes Ranking Store Membership Crud Revisions Operations.

Section optimistic.
Context `{Render, UnicodeCase, Chrono} (dimensions : Z) (exp2 : f64 → f64).

(** An edit changes something a user sees. *)
Definition edits (u : MemoryUpdate) (patch : option MetadataPatch) (cs : option (list ContextId)) : bool :=
  touches_row u || is_some patch || is_some cs.

Lemma stages_bump id rev u patch cs e profile p now audit ca r s o s' :
  st_memories s !! id = Some r →
  if_unmodified_stages dimensions id rev u patch cs e profile p now audit ca r s o s' →
  edits u patch cs = true → bumps id s s'.
Proof.
  intros Hr (_ & He & o1 & s2 & s3 & s4 & s5 & H2 & _ & H3 & H4 & H5 & H6) Hed.
  set (at_ := next_memory_revision now (m_updated_at (row_to_memory id r))) in *.
  assert (only id (updated_store id u at_ r s) s2) as Ho2.
  { destruct e as [e|]; inv_tx; [by eapply only_write_embedding | reflexivity]. }
  assert (only id s2 s3) as Ho3.
  { destruct patch; cbn in *; [by eapply only_upsert_merged | by inv_tx]. }
  assert (only id s3 s4) as Ho34.
  { match type of H4 with (if ?c then _ else _) _ = _ => destruct c end; [by eapply only_increment | inv_tx; reflexivity]. }
  assert (only id s4 s') as Ho4.
  { transitivity s5; [|by apply quiet_only; eapply quiet_audit_draft].
    destruct cs; cbn in *; [by eapply only_replace_if_unmodified | by inv_tx]. }
  pose proof (updated_only id u at_ s r Hr) as Hu.
  destruct (touches_row u) eqn:Ht.
  - eapply bumps_only; [done | by apply updated_bumps |].
    etrans; [done|]. etrans; [done|]. by etrans.
  - unfold edits in Hed. rewrite Ht in Hed. cbn in Hed. unfold touches_row in Ht.
    apply orb_false_iff in Ht as [Hc Hent]. rewrite Hed, Hc in H4. cbn in H4.
    assert (is_none (mu_entities u) = true) as Hn by (by destruct (mu_entities u)). rewrite Hn in H4.
    assert (bumps id s3 s') by (eapply bumps_only; [done | by eapply increment_bumps | done]).
    assert (only id s3 s') by (by etrans). assert (only id s s3) by (etrans; [done|]; by etrans).
    by eapply only_bumps.
Qed.

(** C14. No lost update. Once an optimistic save that edits anything was
    applied under an expected revision, no later optimistic save or deletion
    under the same expected revision is applied, by whatever principal and
    however many operations of other clients lie between, while the memory
    exists. *)
Theorem no_lost_update id rev u patch cs e profile p now audit ca s o s1 os :
  apply_authorized_update_if_unmodified_with_metadata dimensions id rev u patch cs e profile p now audit ca s = Ok (o, s1) →
  ao_outcome o = WriteOutcome.Applied → edits u patch cs = true → alive dimensions exp2 id s1 os →
  (∀ u' patch' cs' e' profile' p' now' audit' ca' o' s2,
     apply_authorized_update_if_unmodified_with_metadata dimensions id rev u' patch' cs' e' profile' p' now' audit' ca'
       (run_all dimensions exp2 s1 os) = Ok (o', s2) → ao_outcome o' ≠ WriteOutcome.Applied)
  ∧ (∀ p' at_ audit' o' s2,
     apply_authorized_delete_if_unmodified id rev p' at_ audit' (run_all dimensions exp2 s1 os) = Ok (o', s2) →
     o' ≠ WriteOutcome.Applied).
Proof.
  intros Hrun Ha Hed Hal.
  apply update_if_unmodified_inv in Hrun as [(_&->&_)|(r & Hr & [(_&->&_)|(_ & Hst)])]; [done..|].
  pose proof (stages_bump _ _ _ _ _ _ _ _ _ _ _ _ _ _ _ Hr Hst Hed) as Hb.
  destruct Hst as [Hrev _]. destruct (Hal 0%nat) as [r1 Hr1]. cbn in Hr1. specialize (Hb _ _ Hr Hr1).
  destruct (Hal (length os)) as [r2 Hr2]. rewrite firstn_all in Hr2.
  destruct (run_all_evolves _ _ _ _ _ _ _ Hal Hr1 Hr2) as [(Hle&_) _].
  split.
  - intros u' patch' cs' e' profile' p' now' audit' ca' o' s2 Hrun'.
    apply update_if_unmodified_inv in Hrun' as [(_&->&_)|(r3 & Hr3 & [(_&->&_)|(_ & Heq & _)])]; [done..|].
    simplify_eq. lia.
  - intros p' at_ audit' o' s2 Hrun'. unfold apply_authorized_delete_if_unmodified in Hrun'.
    apply authorize_inv in Hrun' as [(_&->&_)|(r3 & Hr3 & [(_&->&_)|(_ & Hk)])]; [done..|].
    inv_tx. simplify_eq. cbn in *. lia.
Qed.
End optimistic.

(** ** Leases *)

Section leases.
Context `{Render, UnicodeCase, Chrono}.

Definition leased (now : DateTime) (token : string) (r : MemoryRow) : MemoryRow :=
  set_embedding_claim_token (Some token) (set_embedding_claimed_at (Some now) r).

(** The authorization condition written in SQL is the one the code evaluates
    on decoded memories. *)
Lemma claim_scope_sql_spec p r id : claim_scope_sql (Some p) r = has_write_access (row_to_memory id r) p.
Proof.
  unfold claim_scope_sql, has_write_access, write_access_allowed. cbn.
  destruct (r_access_policy r); [|done|by rewrite orb_false_r].
  destruct (source_agent (r_provenance r)); cbn; [by rewrite orb_false_r | by rewrite orb_true_r].
Qed.

Lemma lease_fold before now token l s :
  NoDup (map fst l) →
  (∀ id r, (id, r) ∈ l → st_memories s !! id = Some r ∧ r_has_embedding r = false ∧ lease_free before r = true) →
  ∃ s', tx_fold (λ _ p,
        _ ← update_row (fst p) (λ r,
              if negb (r_has_embedding r) && (r_embedding_revision r =? r_embedding_revision (snd p))
                 && lease_free before r
              then leased now token r else r);
        mret ()) () l s = Ok ((), s')
    ∧ (∀ id r, (id, r) ∈ l → st_memories s' !! id = Some (leased now token r))
    ∧ (∀ id, id ∉ map fst l → st_memories s' !! id = st_memories s !! id).
Proof.
  revert s. induction l as [|[id0 r0] l IH]; intros s Hnd Hl; cbn.
  - exists s. split; [done|]. split; [intros id r Hin; by apply not_elem_of_nil in Hin | done].
  - apply NoDup_cons in Hnd as [Hni Hnd]. destruct (Hl id0 r0) as (Hr0 & He0 & Hf0); [left|].
    set (s1 := on_memories <[id0:=leased now token r0]> s).
    rewrite (tx_bind_run _ _ s () s1).
    2: { unfold mbind, tx_bind. rewrite (update_row_Some _ _ _ _ Hr0). cbn. by rewrite He0, Z.eqb_refl, Hf0. }
    assert (∀ id r, (id, r) ∈ l → id ≠ id0) as Hne.
    { intros id r Hin ->. apply Hni. apply list_elem_of_fmap. by exists (id0, r). }
    destruct (IH s1 Hnd) as (s' & Hs' & Hin & Hout).
    { intros id r Hin. cbn. rewrite lookup_insert_ne by (intros <-; by eapply Hne). apply Hl. by right. }
    exists s'. split; [exact Hs'|]. split.
    + intros id r [[= -> ->]|Hi]%elem_of_cons; [|by apply Hin].
      rewrite Hout by done. cbn. apply lookup_insert_eq.
    + intros id Hid. apply not_elem_of_cons in Hid as [Hid1 Hid2]. rewrite Hout by done. cbn. by rewrite lookup_insert_ne.
Qed.

Lemma cmp_oldest_total : TotalPreorder cmp_oldest.
Proof. unfold cmp_oldest. typeclasses eauto. Qed.

Lemma candidates_NoDup scope before limit t : NoDup (map fst (claim_candidates scope before limit t)).
Proof.
  unfold claim_candidates. rewrite map_truncate. apply NoDup_truncate.
  rewrite (Permutation_map fst (sort_by_perm cmp_oldest _)).
  apply NoDup_map_filter. exact (NoDup_fst_map_to_list t).
Qed.
Lemma sorted_take_drop {A} (R : A → A → Prop) n l x y :
  Sorted.StronglySorted R l → x ∈ take n l → y ∈ drop n l → R x y.
Proof.
  revert n. induction l as [|z l IH]; intros [|n] Hs Hx Hy; cbn in *; try by apply not_elem_of_nil in Hx.
  apply Sorted.StronglySorted_inv in Hs as [Hs Hz]. apply elem_of_cons in Hx as [->|Hx]; [|by eapply IH].
  rewrite list.Forall_forall in Hz. apply Hz. rewrite <- (take_drop n l). apply elem_of_app. by right.
Qed.

Definition claim_of (token : string) (p : MemoryId * MemoryRow) : ReembedClaim :=
  {| rc_id := fst p; rc_content := r_content (snd p); rc_embedding_revision := r_embedding_revision (snd p);
     rc_claim_token := token |}.
Lemma candidate_inv scope before limit t id r :
  (id, r) ∈ claim_candidates scope before limit t → t !! id = Some r ∧ claim_candidate scope before (id, r) = true.
Proof. apply sort_filter_lookup. Qed.
Lemma candidate_parts scope before id r : claim_candidate scope before (id, r) = true →
  r_has_embedding r = false ∧ lease_free before r = true
  ∧ claim_scope_sql (ReembedClaimScope.principal scope) r = true.
Proof. unfold claim_candidate. cbn. intros [[?%negb_true_iff ?]%andb_true_iff ?]%andb_true_iff. done. Qed.

(** A claim never fails; its claims are the candidates, which get the lease. *)
Lemma claim_run scope limit now token s :
  0 ≤ limit ≤ i64_max →
  let before := default min_utc (checked_sub_signed now (EMBEDDING_CLAIM_LEASE_SECS * 1000000000)) in
  let cands := claim_candidates scope before limit (st_memories s) in
  ∃ s', claim_for_reembed_with_scope_impl scope limit now token s = Ok (map (claim_of token) cands, s')
    ∧ (∀ id r, (id, r) ∈ cands → st_memories s' !! id = Some (leased now token r))
    ∧ (∀ id, id ∉ map fst cands → st_memories s' !! id = st_memories s !! id).
Proof.
  intros Hlim before cands. unfold claim_for_reembed_with_scope_impl. destruct (Z.eqb_spec limit 0) as [->|Hne].
  - exists s. split; [done|]. split; [intros id r Hin; by apply not_elem_of_nil in Hin | done].
  - fold before. cbn zeta. unfold claim_for_reembed_conn.
    rewrite (tx_bind_run _ _ s limit s).
    2: { unfold usize_to_i64, i64_try_from. rewrite (proj2 (Z.leb_le _ _)) by lia. done. }
    rewrite (tx_bind_run _ _ s cands s) by done.
    destruct (lease_fold before now token cands s) as (s' & Hs' & Hin & Hout).
    + apply candidates_NoDup.
    + intros id r [Hl (?&?&_)%candidate_parts]%candidate_inv. done.
    + exists s'. split; [|done]. by rewrite (tx_bind_run _ _ s () s' Hs').
Qed.

(** What a successful claim did. *)
Lemma claim_inv scope limit now token s claims s' :
  claim_for_reembed_with_scope_impl scope limit now token s = Ok (claims, s') →
  ∃ cands : list (MemoryId * MemoryRow), claims = map (claim_of token) cands ∧ NoDup (map fst cands)
    ∧ (∀ id r, (id, r) ∈ cands → st_memories s !! id = Some r ∧ r_has_embedding r = false
         ∧ st_memories s' !! id = Some (leased now token r))
    ∧ (∀ id, id ∉ map fst cands → st_memories s' !! id = st_memories s !! id).
Proof.
  intros Hrun. unfold claim_for_reembed_with_scope_impl in Hrun. destruct (limit =? 0).
  { inv_tx. exists []. split_and!; [done|constructor| |done]. intros id r Hin. by apply not_elem_of_nil in Hin. }
  unfold claim_for_reembed_conn in Hrun. inv_tx.
  match goal with Hf : tx_fold _ _ (claim_candidates ?sc ?be ?n _) _ = _ |- _ =>
    set (before := be) in *; set (cands := claim_candidates sc before n (st_memories s)) in *;
    destruct (lease_fold before now token cands s) as (s1 & Hs1 & Hin & Hout) end.
  - apply candidates_NoDup.
  - intros id r [Hl (?&?&_)%candidate_parts]%candidate_inv. done.
  - match type of Hs1 with ?run = _ => match goal with Hf : _ = Ok ((), ?s2) |- ∃ _, _ ∧ _ ∧ (∀ _ _, _ → _ ∧ _ ∧ st_memories ?s2 !! _ = _) ∧ _ =>
      change (run = Ok ((), s2)) in Hf; rewrite Hs1 in Hf; injection Hf as -> end end.
    exists cands. split_and!; [done|apply candidates_NoDup| |done].
    intros id r Hc. pose proof Hc as [Hl (?&?&_)%candidate_parts]%candidate_inv. split_and!; [done..|]. by apply Hin.
Qed.

(** Re-embedding claims. A claim takes at most [limit] distinct memories,
    each without an embedding, with no unexpired lease, and, when the scope
    names a principal, writable by it; they are the oldest such memories: if
    one is left out, the limit is used up and every claimed one comes before
    it. The claimed rows carry the lease afterwards and no other row changes.
    While a lease stands, no other claim of any scope gets the memory before
    the lease of 300 s is over: no two workers embed it at the same time. *)
Theorem reembed_claims scope limit now token s claims s' :
  0 ≤ limit ≤ i64_max → claim_for_reembed_with_scope_impl scope limit now token s = Ok (claims, s') →
  let before := default min_utc (checked_sub_signed now (EMBEDDING_CLAIM_LEASE_SECS * 1000000000)) in
  NoDup (map rc_id claims) ∧ len claims ≤ limit
  ∧ (∀ c, c ∈ claims → ∃ r, st_memories s !! rc_id c = Some r
       ∧ rc_content c = r_content r ∧ rc_embedding_revision c = r_embedding_revision r ∧ rc_claim_token c = token
       ∧ r_has_embedding r = false ∧ lease_free before r = true
       ∧ (∀ p, ReembedClaimScope.principal scope = Some p → has_write_access (row_to_memory (rc_id c) r) p = true)
       ∧ st_memories s' !! rc_id c = Some (leased now token r))
  ∧ (∀ id, id ∉ map rc_id claims → st_memories s' !! id = st_memories s !! id)
  ∧ (∀ id r, st_memories s !! id = Some r → claim_candidate scope before (id, r) = true → id ∉ map rc_id claims →
       len claims = limit ∧ ∀ c rc, c ∈ claims → st_memories s !! rc_id c = Some rc → cmp_oldest (rc_id c, rc) (id, r) ≠ Gt)
  ∧ (∀ scope2 limit2 now2 token2 s2 claims2 s2' c r2, c ∈ claims →
       st_memories s2 !! rc_id c = Some r2 → r_embedding_claimed_at r2 = Some now →
       default min_utc (checked_sub_signed now2 (EMBEDDING_CLAIM_LEASE_SECS * 1000000000)) < now →
       claim_for_reembed_with_scope_impl scope2 limit2 now2 token2 s2 = Ok (claims2, s2') →
       rc_id c ∉ map rc_id claims2).
Proof.
  intros Hlim Hrun before.
  destruct (claim_run scope limit now token s Hlim) as (s0 & Hrun0 & Hin & Hout).
  fold before in Hrun0, Hin, Hout. rewrite Hrun in Hrun0. injection Hrun0 as -> ->. clear Hrun.
  set (cands := claim_candidates scope before limit (st_memories s)) in *.
  assert (map rc_id (map (claim_of token) cands) = map fst cands) as Hids by (rewrite map_map; done).
  rewrite Hids. split; [apply candidates_NoDup|]. split.
  { unfold len. rewrite length_map. apply truncate_len; lia. }
  split.
  { intros c (p & -> & Hp)%list_elem_of_fmap. destruct p as [id r]. cbn.
    destruct (candidate_inv _ _ _ _ _ _ Hp) as [Hr (He & Hf & Hsc)%candidate_parts]. exists r.
    split_and!; [done..| |by apply Hin].
    intros p Hp'. rewrite Hp' in Hsc. by rewrite <- claim_scope_sql_spec. }
  split; [done|]. split.
  { intros id r Hr Hc Hni.
    set (all := sort_by cmp_oldest (List.filter (claim_candidate scope before) (map_to_list (st_memories s)))) in *.
    assert (cands = take (Z.to_nat limit) all) as Hcands by done.
    assert ((id, r) ∈ all) as Hall.
    { apply elem_of_sort_by, list_elem_of_In, List.filter_In. split; [|done]. by apply list_elem_of_In, elem_of_map_to_list. }
    assert ((id, r) ∈ drop (Z.to_nat limit) all) as Hdrop.
    { rewrite <- (take_drop (Z.to_nat limit) all) in Hall. apply elem_of_app in Hall as [Ht|?]; [|done].
      exfalso. apply Hni. apply list_elem_of_fmap. exists (id, r). by rewrite Hcands. }
    split.
    - unfold len. rewrite length_map, Hcands, length_take.
      assert (Z.to_nat limit < length all)%nat; [|lia].
      apply list_elem_of_lookup in Hdrop as [k Hk]. rewrite lookup_drop in Hk. apply lookup_lt_Some in Hk. lia.
    - intros c rc (p & -> & Hp)%list_elem_of_fmap Hrc. destruct p as [id0 r0]. cbn in *.
      destruct (candidate_inv _ _ _ _ _ _ Hp) as [Hr0 _]. assert (rc = r0) as -> by congruence.
      rewrite Hcands in Hp. refine (sorted_take_drop (λ x y, cmp_oldest x y ≠ Gt) _ all (id0, r0) (id, r) _ Hp Hdrop).
      pose proof cmp_oldest_total. apply (sort_by_sorted cmp_oldest). }
  intros scope2 limit2 now2 token2 s2 claims2 s2' c r2 _ Hr2 Hl Hnow Hrun2 Hin2.
  apply list_elem_of_fmap in Hin2 as (c2 & Heq & Hc2).
  unfold claim_for_reembed_with_scope_impl in Hrun2. destruct (limit2 =? 0); [inv_tx; by apply not_elem_of_nil in Hc2|].
  apply claim_conn_inv in Hrun2. subst claims2.
  apply list_elem_of_fmap in Hc2 as ([id3 r3] & -> & Hp3). cbn in Heq.
  destruct (candidate_inv _ _ _ _ _ _ Hp3) as [Hr3 (_ & Hf3 & _)%candidate_parts].
  rewrite <- Heq, Hr2 in Hr3. simplify_eq. unfold lease_free in Hf3. rewrite Hl in Hf3. lia.
Qed.
End leases.

(** ** Concrete runs *)

#[local] Existing Instance plain_render.
#[local] Existing Instance plain_chrono.
#[local] Existing Instance AsciiCase.

Definition sample_audit : AuditDraft :=
  {| ad_action := AuditAction.Update; ad_caller_agent := Some "ann"; ad_timestamp := 6; ad_details := None |}.
Definition saved := apply_authorized_update_if_unmodified_with_metadata 1 (m_id edited) 3 sample_edit None None None None
  "ann" 6 sample_audit None sample_store.
Definition saved_store : Store := match saved with Ok (_, s) => s | Err _ => sample_store end.

Lemma no_lost_update_witness :
  saved = Ok (update_outcome WriteOutcome.Applied (Some 1), saved_store)
  ∧ (∀ p' at_ audit' o' s2,
     apply_authorized_delete_if_unmodified (m_id edited) 3 p' at_ audit'
       (run_all 1 (λ x, x) saved_store [OpImpression [m_id edited] 8]) = Ok (o', s2) →
     o' ≠ WriteOutcome.Applied).
Proof.
  split; [vm_compute; reflexivity|].
  refine (proj2 (no_lost_update 1 (λ x, x) (m_id edited) 3 sample_edit None None None None "ann" 6 sample_audit None
    sample_store (update_outcome WriteOutcome.Applied (Some 1)) saved_store [OpImpression [m_id edited] 8] _ _ _ _)).
  - vm_compute. reflexivity.
  - reflexivity.
  - reflexivity.
  - intros [|[|n]]; cbn -[run]; vm_compute; eexists; reflexivity.
Defined.

Lemma reembed_claims_witness :
  claim_for_reembed_with_scope_impl (ReembedClaimScope.Authorized "ann") 10 7 "token" sample_store
    = Ok ([sample_claim], claimed_store)
  ∧ ∃ r, st_memories claimed_store !! m_id edited = Some (leased 7 "token" r)
      ∧ has_write_access (row_to_memory (m_id edited) r) "ann" = true.
Proof.
  split; [vm_compute; reflexivity|].
  destruct (reembed_claims (ReembedClaimScope.Authorized "ann") 10 7 "token" sample_store [sample_claim] claimed_store)
    as (_ & _ & Hc & _); [unfold i64_max; lia | vm_compute; reflexivity |].
  destruct (Hc sample_claim) as (r & _ & _ & _ & _ & _ & _ & Hp & Hl); [left|].
  exists r. split; [exact Hl | by apply (Hp "ann")].
Defined.
