(* ===== verification/Accounting.v ===== *)
(** * Accounting: reads in batches, bulk deletion and use recording

    The batch operations against their per-memory meaning: a batch read is
    the single reads, a bulk deletion deletes exactly the writable memories
    named and counts the rest, a use is recorded once per memory and only for
    full readers. *)
From Stdlib Require Import ZArith Lia.
From stdpp Require Import base list option strings gmap sets pretty.
From S2P Require Import Prelude Text Floats Lists Errors Types Context StoreTypes Ranking Store Membership Crud Revisions Operations Authorization.

(** ** Batch reads *)

(** A map collected from the results of a partial function. *)
Lemma lookup_collect {A} (f : MemoryId → option A) ids i :
  (list_to_map (omap (λ id, pair id <$> f id) ids) : gmap MemoryId A) !! i = if decide (i ∈ ids) then f i else None.
Proof.
  induction ids as [|x ids IH]; [by rewrite decide_False by apply not_elem_of_nil|]. cbn.
  destruct (f x) as [v|] eqn:Hx; cbn.
  - destruct (decide (i = x)) as [->|Hne].
    + rewrite lookup_insert_eq, decide_True by left. done.
    + rewrite lookup_insert_ne, IH by done. repeat case_decide; set_solver.
  - rewrite IH. destruct (decide (i = x)) as [->|Hne].
    + rewrite Hx. repeat case_decide; done.
    + repeat case_decide; set_solver.
Qed.
Lemma omap_filter {A B} (f : A → option B) g (l : list A) :
  List.filter g (omap f l) = omap (λ x, y ← f x; if g y then Some y else None) l.
Proof. induction l as [|x l IH]; cbn; [done|]. destruct (f x); cbn; [|done]. destruct (g b); by rewrite IH. Qed.
Lemma map_omap {A B C} (f : A → option B) (g : B → C) (l : list A) : map g (omap f l) = omap (λ x, g <$> f x) l.
Proof. induction l as [|x l IH]; cbn; [done|]. destruct (f x); cbn; by rewrite IH. Qed.
Lemma omap_omap {A B C} (f : A → option B) (g : B → option C) (l : list A) : omap g (omap f l) = omap (λ x, f x ≫= g) l.
Proof. induction l as [|x l IH]; cbn; [done|]. destruct (f x); cbn; [destruct (g b)|]; by rewrite IH. Qed.

(** The memory of an id, unexpired, before the access policy. *)
Definition live_memory (s : Store) (now : DateTime) (id : MemoryId) : option Memory :=
  m ← row_to_memory id <$> st_memories s !! id;
  if negb (is_expired now m) then Some m else None.
Lemma live_memory_id s now id m : live_memory s now id = Some m → m_id m = id ∧ m_entities m = [].
Proof. unfold live_memory. destruct (st_memories s !! id); cbn; [|done]. by case_match; intros [= <-]. Qed.
Lemma with_no_entities m : m_entities m = [] → with_entities [] m = m.
Proof. destruct m; cbn; by intros ->. Qed.
Lemma apply_access_policy_id m caller m' : apply_access_policy m caller = Some m' → m_id m' = m_id m.
Proof. unfold apply_access_policy. by case_match; intros [= <-]. Qed.

Lemma hydrate_run s memories :
  (∀ m, m ∈ memories → m_entities m = []) →
  hydrate_entities_for_memories memories s = Ok (map (λ m, with_entities (entities_of s (m_id m)) m) memories, s).
Proof.
  intros Hm. unfold hydrate_entities_for_memories. case_bool_decide as Hn; [by subst|].
  unfold mbind, tx_bind, hydrate_entities_batch, reads. cbn. unfold mret, tx_ret. do 2 f_equal.
  apply map_ext_in. intros m Hin%list_elem_of_In.
  rewrite lookup_collect, decide_True by (apply list_elem_of_fmap; eauto).
  destruct (entities_of s (m_id m)) eqn:E; [by rewrite with_no_entities by auto | done].
Qed.

(** A batch read is the single reads: for every id asked for, the result
    holds exactly what [get_by_id] returns for that caller at that time
    (nothing for a missing, expired or inaccessible memory, the redacted view
    where the policy says so, entities included), and nothing else; neither
    read changes the store or fails. *)
Theorem get_batch_is_get ids caller now s :
  ∃ m, get_batch_by_ids ids caller now s = Ok (m, s)
    ∧ ∀ id, (id ∈ ids → get_by_id id caller now s = Ok (m !! id, s)) ∧ (id ∉ ids → m !! id = None).
Proof.
  set (view := λ id, live_memory s now id ≫= λ m, apply_access_policy (with_entities (entities_of s id) m) caller).
  assert (∀ id, get_by_id id caller now s = Ok (view id, s)) as Hget.
  { intros id. unfold get_by_id, fetch_memory_by_id, hydrate_entities_single, view, live_memory, mbind, tx_bind, reads.
    cbn. destruct (st_memories s !! id); cbn; [|done]. by destruct (is_expired _ _). }
  exists (list_to_map (omap (λ id, pair id <$> view id) (remove_dups ids))). split.
  - unfold get_batch_by_ids. case_bool_decide as Hn; [by subst|].
    unfold mbind at 1, tx_bind at 1, reads. rewrite omap_filter.
    match goal with |- context [hydrate_entities_for_memories ?l] =>
      change l with (omap (live_memory s now) (remove_dups ids)) end.
    rewrite (tx_bind_run _ _ s _ s) by (apply hydrate_run; intros m (id & _ & Hm)%list_elem_of_omap; exact (proj2 (live_memory_id _ _ _ _ Hm))).
    unfold mret, tx_ret. do 3 f_equal. rewrite map_omap, omap_omap. apply list_omap_ext, Forall_Forall2_diag, list.Forall_forall.
    intros id _. unfold view. destruct (live_memory s now id) as [m|] eqn:Hm; cbn; [|done].
    destruct (live_memory_id _ _ _ _ Hm) as [-> _].
    destruct (apply_access_policy _ caller) as [m'|] eqn:Ha; cbn; [|done].
    apply apply_access_policy_id in Ha. rewrite Ha. cbn. by destruct (live_memory_id _ _ _ _ Hm) as [-> _].
  - intros id. rewrite lookup_collect. split; intros Hid.
    + rewrite decide_True by (by apply elem_of_remove_dups). apply Hget.
    + rewrite decide_False; [done|]. by rewrite elem_of_remove_dups.
Qed.

(** ** Chunked loops *)

Lemma tx_fold_app {A S} (f : S → A → tx S) l k st s :
  tx_fold f st (l ++ k) s = (st' ← tx_fold f st l; tx_fold f st' k) s.
Proof.
  revert st s. induction l as [|x l IH]; intros st s; cbn; [done|].
  unfold mbind, tx_bind. destruct (f st x s) as [[st' s']|e]; [|done]. rewrite IH. done.
Qed.
(** Chunking does not change a loop. *)
Lemma tx_fold_chunks {A S} (f : S → A → tx S) n l st s :
  (0 < n)%nat → tx_fold (tx_fold f) st (chunks n l) s = tx_fold f st l s.
Proof.
  intros Hn. rewrite <- (concat_chunks n l) at 2 by done. generalize (chunks n l). intros ls. revert st s.
  induction ls as [|c ls IH]; intros st s; cbn; [done|]. rewrite tx_fold_app.
  unfold mbind, tx_bind. destruct (tx_fold f st c s) as [[st' s']|e]; [apply IH | done].
Qed.

(** ** Bulk deletion *)

(** The loop from an accumulator: what was added to the result and what the
    store looks like. *)
Record bulk_deleted (ids : list MemoryId) (p : string) (at_ : DateTime) (audit : option AuditDraft)
    (s s' : Store) (gone : list MemoryId) (denied : Z) : Prop := {
  bd_nodup : NoDup gone;
  bd_gone id : id ∈ gone ↔ id ∈ ids ∧ writable s id p = true;
  bd_denied : denied = len (List.filter (λ id, is_some (st_memories s !! id) && negb (writable s id p)) ids);
  bd_deleted id : id ∈ gone → st_memories s' !! id = None ∧ is_Some (st_tombstones s' !! id);
  bd_kept id r : st_memories s !! id = Some r → id ∉ gone →
    ∃ r', st_memories s' !! id = Some r' ∧ maybe_cleared r r';
  bd_tombstones id : is_Some (st_tombstones s !! id) → is_Some (st_tombstones s' !! id);
  bd_new id : st_memories s !! id = None → st_memories s' !! id = None;
  bd_audit : st_audit s' = st_audit s ++
    flat_map (λ id, match audit with
                    | Some a => [{| au_memory_id := id; au_action := AuditAction.to_string (ad_action a);
                                    au_caller_agent := ad_caller_agent a; au_timestamp := ad_timestamp a;
                                    au_details := ad_details a |}]
                    | None => [] end) gone;
}.
Definition bulk_add (acc : BulkAuthOutcome) (gone : list MemoryId) (denied : Z) : BulkAuthOutcome :=
  {| bo_applied_ids := bo_applied_ids acc ++ gone; bo_denied := Z.min (bo_denied acc + denied) u64_max |}.

Definition purged (id : MemoryId) (r : MemoryRow) (p : string) (at_ : DateTime) (audit : option AuditDraft) (s : Store) : Store :=
  (match audit with Some a => audited id a | None => λ s, s end) (deleted_store id r (Some p) at_ s).
Lemma bulk_delete_one_run p at_ audit acc id s :
  bulk_delete_one p at_ audit acc id s =
    match st_memories s !! id with
    | None => Ok (acc, s)
    | Some r =>
        if writable s id p
        then Ok ({| bo_applied_ids := bo_applied_ids acc ++ [id]; bo_denied := bo_denied acc |}, purged id r p at_ audit s)
        else Ok ({| bo_applied_ids := bo_applied_ids acc; bo_denied := saturating_add (bo_denied acc) 1 |}, s)
    end.
Proof.
  unfold bulk_delete_one, fetch_memory_by_id, writable, mbind, tx_bind, reads. cbn.
  destruct (st_memories s !! id) as [r|] eqn:Hr; cbn; [|done].
  destruct (has_write_access (row_to_memory id r) p); cbn; [|done].
  unfold insert_tombstone, insert_authorization_tombstone, writes. cbn.
  erewrite delete_memory_Some by (cbn; exact Hr). by destruct audit.
Qed.

Lemma purged_writable id r p at_ audit s j :
  st_memories s !! id = Some r → writable (purged id r p at_ audit s) j p = writable s j p && negb (bool_decide (j = id)).
Proof.
  intros Hr. unfold writable. assert (st_memories (purged id r p at_ audit s) = clear_superseded_by id <$> delete id (st_memories s)) as ->
    by (by destruct audit). rewrite lookup_fmap. case_bool_decide as Hj.
  - subst. rewrite lookup_delete_eq. cbn. by rewrite andb_false_r.
  - rewrite lookup_delete_ne by done. rewrite andb_true_r. destruct (st_memories s !! j) as [r'|]; cbn; [|done].
    unfold clear_superseded_by. by case_bool_decide.
Qed.

Lemma maybe_clear_one x r : maybe_cleared r (clear_superseded_by x r).
Proof.
  unfold maybe_cleared. destruct (decide (r_superseded_by r = Some x)); [right; eauto | left].
  unfold clear_superseded_by. by rewrite bool_decide_eq_false_2.
Qed.
Lemma purged_memories id r p at_ audit s :
  st_memories (purged id r p at_ audit s) = clear_superseded_by id <$> delete id (st_memories s).
Proof. by destruct audit. Qed.
Lemma purged_tombstones id r p at_ audit s :
  st_tombstones (purged id r p at_ audit s) = <[id := tombstone_from_memory (row_to_memory id r) at_ (Some p)]> (st_tombstones s).
Proof. by destruct audit. Qed.
Definition denials (s : Store) (p : string) (ids : list MemoryId) : Z :=
  len (List.filter (λ id, is_some (st_memories s !! id) && negb (writable s id p)) ids).

Lemma bulk_deleted_nil p at_ audit s : bulk_deleted [] p at_ audit s s [] 0.
Proof.
  split; try done.
  - constructor.
  - intros id. split; [by intros ?%not_elem_of_nil | by intros [?%not_elem_of_nil _]].
  - by intros id ?%not_elem_of_nil.
  - intros id r Hr _. exists r. split; [done | by left].
  - by rewrite app_nil_r.
Qed.
(** An id that is missing or not writable changes nothing. *)
Lemma bulk_deleted_skip x ids p at_ audit s s' gone denied :
  writable s x p = false → bulk_deleted ids p at_ audit s s' gone denied →
  bulk_deleted (x :: ids) p at_ audit s s' gone (if is_some (st_memories s !! x) then denied + 1 else denied).
Proof.
  intros Hx []. split; try done.
  - intros id. rewrite bd_gone0, elem_of_cons. split; [naive_solver|]. intros [[->|?] ?]; [congruence | done].
  - cbn. rewrite Hx, andb_true_r. destruct (is_some _); [|done]. rewrite len_cons. lia.
Qed.
(** A writable one is deleted. *)
Lemma bulk_deleted_step x r ids p at_ audit s s' gone denied :
  st_memories s !! x = Some r → writable s x p = true →
  bulk_deleted ids p at_ audit (purged x r p at_ audit s) s' gone denied →
  bulk_deleted (x :: ids) p at_ audit s s' (x :: gone) denied.
Proof.
  intros Hr Hw []. set (s1 := purged x r p at_ audit s) in *.
  assert (∀ id, writable s1 id p = writable s id p && negb (bool_decide (id = x))) as Hw1 by (intros; by apply purged_writable).
  assert (st_memories s1 !! x = None) as Hx1 by (unfold s1; rewrite purged_memories, lookup_fmap, lookup_delete_eq; done).
  assert (∀ id, id ≠ x → st_memories s1 !! id = clear_superseded_by x <$> st_memories s !! id) as Hne
    by (intros; unfold s1; by rewrite purged_memories, lookup_fmap, lookup_delete_ne).
  assert (is_Some (st_tombstones s1 !! x)) as Htx by (unfold s1; rewrite purged_tombstones, lookup_insert_eq; eauto).
  split.
  - apply NoDup_cons. split; [|done]. rewrite bd_gone0, Hw1, bool_decide_eq_true_2, andb_false_r by done. naive_solver.
  - intros id. rewrite !elem_of_cons, bd_gone0, Hw1, andb_true_iff. case_bool_decide as Hid; cbn.
    + subst id. split; [intros _; split; [by left | done] | intros _; by left].
    + split; [intros [?|(? & ? & _)]; [done | split; [by right | done]] | intros [[?|?] ?]; [done | by right]].
  - rewrite bd_denied0. f_equal. cbn. rewrite Hw, andb_false_r. apply List.filter_ext. intros id.
    rewrite Hw1. case_bool_decide as Hid; cbn.
    + subst id. rewrite Hx1, Hw. cbn. by rewrite andb_false_r.
    + rewrite Hne, andb_true_r by done. by destruct (st_memories s !! id).
  - intros id [->|Hin]%elem_of_cons; [split; auto | by apply bd_deleted0].
  - intros id r0 Hr0 [Hid Hni]%not_elem_of_cons.
    destruct (bd_kept0 id (clear_superseded_by x r0)) as (r' & Hr' & Hc); [by rewrite Hne, Hr0|done|].
    exists r'. split; [done|]. eapply maybe_cleared_trans; [apply maybe_clear_one | exact Hc].
  - intros id Ht. apply bd_tombstones0. unfold s1. rewrite purged_tombstones.
    destruct (decide (id = x)) as [->|]; [rewrite lookup_insert_eq; eauto | by rewrite lookup_insert_ne].
  - intros id Hn. apply bd_new0. destruct (decide (id = x)) as [->|]; [done | by rewrite Hne, Hn].
  - rewrite bd_audit0. cbn. rewrite app_assoc. f_equal. by destruct audit; cbn; rewrite ?app_nil_r.
Qed.

Lemma bulk_delete_fold p at_ audit ids : ∀ acc s, 0 ≤ bo_denied acc ≤ u64_max →
  ∃ gone denied s', tx_fold (bulk_delete_one p at_ audit) acc ids s = Ok (bulk_add acc gone denied, s')
    ∧ bulk_deleted ids p at_ audit s s' gone denied.
Proof.
  induction ids as [|x ids IH]; intros acc s Hacc; cbn [tx_fold].
  - exists [], 0, s. split; [|apply bulk_deleted_nil]. unfold bulk_add, mret, tx_ret.
    rewrite app_nil_r, Z.add_0_r, Z.min_l by lia. by destruct acc.
  - pose proof (bulk_delete_one_run p at_ audit acc x s) as Hone.
    destruct (st_memories s !! x) as [r|] eqn:Hx; [destruct (writable s x p) eqn:Hw|].
    + rewrite (tx_bind_run _ _ _ _ _ Hone).
      destruct (IH {| bo_applied_ids := bo_applied_ids acc ++ [x]; bo_denied := bo_denied acc |} (purged x r p at_ audit s) Hacc)
        as (gone & denied & s' & Hrun & Hb).
      exists (x :: gone), denied, s'. split; [|by eapply bulk_deleted_step].
      rewrite Hrun. unfold bulk_add. cbn. by rewrite <- app_assoc.
    + rewrite (tx_bind_run _ _ _ _ _ Hone).
      destruct (IH {| bo_applied_ids := bo_applied_ids acc; bo_denied := saturating_add (bo_denied acc) 1 |} s)
        as (gone & denied & s' & Hrun & Hb); [unfold saturating_add; cbn; lia|].
      pose proof (bulk_deleted_skip x ids p at_ audit s s' gone denied Hw Hb) as Hb'. rewrite Hx in Hb'. cbn in Hb'.
      exists gone, (denied + 1), s'. split; [|done]. rewrite Hrun. unfold bulk_add, saturating_add; cbn.
      do 3 f_equal. assert (0 ≤ denied) by (rewrite (bd_denied _ _ _ _ _ _ _ _ Hb); apply len_nonneg). lia.
    + rewrite (tx_bind_run _ _ _ _ _ Hone). destruct (IH acc s Hacc) as (gone & denied & s' & Hrun & Hb).
      assert (writable s x p = false) as Hw by (unfold writable; by rewrite Hx).
      pose proof (bulk_deleted_skip x ids p at_ audit s s' gone denied Hw Hb) as Hb'. rewrite Hx in Hb'. cbn in Hb'.
      exists gone, denied, s'. done.
Qed.

(** Bulk deletion. It never fails, and it deletes exactly the memories
    named that exist and that the caller may write, each once even if named
    repeatedly, counting as denied the (saturating) number of names that exist
    but are not writable. The deleted ones leave tombstones and one audit
    entry each, in order; every other memory stays (only references to
    deleted ones are cleared), and nothing is created. *)
Theorem bulk_delete_spec ids p at_ audit s :
  ∃ gone s', bulk_delete_ids ids p at_ audit s =
      Ok ({| bo_applied_ids := gone; bo_denied := Z.min (denials s p ids) u64_max |}, s')
    ∧ bulk_deleted ids p at_ audit s s' gone (denials s p ids).
Proof.
  unfold bulk_delete_ids. case_bool_decide as Hn; [subst; exists [], s; split; [done | apply bulk_deleted_nil]|].
  rewrite tx_fold_chunks by (unfold SQLITE_MAX_CHUNK; lia).
  destruct (bulk_delete_fold p at_ audit ids bulk_outcome_empty s) as (gone & denied & s' & Hrun & Hb);
    [unfold u64_max; cbn; lia|].
  assert (denied = denials s p ids) as -> by exact (bd_denied _ _ _ _ _ _ _ _ Hb).
  exists gone, s'. split; [|done]. rewrite Hrun. done.
Qed.

(** ** Recording uses *)

Lemma dedup_le {A} `{EqDecision A} (l : list A) : (length (dedup l) ≤ length l)%nat.
Proof.
  apply (submseteq_length (dedup l) l), NoDup_submseteq; [apply NoDup_dedup|]. intros x. by rewrite elem_of_dedup.
Qed.

Section uses.
Variable exp2 : f64 → f64.

(** Full readers of an unexpired memory may record its use. *)
Definition usable (s : Store) (p : string) (now : DateTime) (id : MemoryId) : bool :=
  match st_memories s !! id with
  | Some r => negb (is_expired now (row_to_memory id r))
              && bool_decide (check_access_level (row_to_memory id r) (Some p) = AccessLevel.Full)
  | None => false
  end.
Definition present (s : Store) (id : MemoryId) : bool := is_some (st_memories s !! id).
Definition used_row (id : MemoryId) (now : DateTime) (w h : f64) (r : MemoryRow) : MemoryRow :=
  set_last_used_at (Some now) (set_activity_mass (used_mass exp2 (row_to_memory id r) now w h) r).

Definition use_status (s : Store) (p : string) (now : DateTime) (id : MemoryId) : RecordUseStatus :=
  if usable s p now id then Recorded else if present s id then UseDenied else UseNotFound.
Lemma update_single_use_run p now w h id s :
  update_single_memory_use exp2 id p now w h s =
    Ok (use_status s p now id,
        match st_memories s !! id with
        | Some r => if usable s p now id then on_memories <[id := used_row id now w h r]> s else s
        | None => s
        end).
Proof.
  unfold update_single_memory_use, fetch_memory_by_id, use_status, usable, present, mbind, tx_bind, reads. cbn.
  destruct (st_memories s !! id) as [r|] eqn:Hr; cbn; [|done].
  destruct (is_expired now (row_to_memory id r)); cbn; [done|].
  destruct (bool_decide _); cbn; [|done]. rewrite (update_row_Some _ _ _ _ Hr). cbn. done.
Qed.
Lemma usable_used p now w h id j r s :
  st_memories s !! id = Some r → usable (on_memories <[id := used_row id now w h r]> s) p now j = usable s p now j.
Proof.
  intros Hr. unfold usable. cbn. destruct (decide (j = id)) as [->|]; [by rewrite lookup_insert_eq, Hr | by rewrite lookup_insert_ne].
Qed.

Definition count_status (s : Store) (p : string) (now : DateTime) (st : RecordUseStatus → bool) (l : list MemoryId) : Z :=
  len (List.filter (λ id, st (use_status s p now id)) l).
Definition is_denied (st : RecordUseStatus) : bool := match st with UseDenied => true | _ => false end.
Definition is_not_found (st : RecordUseStatus) : bool := match st with UseNotFound => true | _ => false end.

Lemma record_use_fold p now w h l : ∀ acc s,
  NoDup l → 0 ≤ ru_recorded acc → 0 ≤ ru_denied acc → 0 ≤ ru_not_found acc →
  ru_recorded acc + ru_denied acc + ru_not_found acc + len l ≤ u64_max →
  ∃ s', tx_fold (λ acc id,
         status ← update_single_memory_use exp2 id p now w h;
         mret (accumulate_record_use_outcome acc id status)) acc l s =
    Ok ({| ru_recorded_ids := ru_recorded_ids acc ++ List.filter (usable s p now) l;
           ru_recorded := ru_recorded acc + len (List.filter (usable s p now) l);
           ru_denied := ru_denied acc + count_status s p now is_denied l;
           ru_not_found := ru_not_found acc + count_status s p now is_not_found l |}, s')
    ∧ (∀ id, st_memories s' !! id =
         if bool_decide (id ∈ l) && usable s p now id then used_row id now w h <$> st_memories s !! id
         else st_memories s !! id).
Proof.
  induction l as [|x l IH]; intros acc s Hnd H1 H2 H3 Hsum; cbn [tx_fold].
  - exists s. split; [|done]. unfold mret, tx_ret. cbn. rewrite app_nil_r, !Z.add_0_r. by destruct acc.
  - apply NoDup_cons in Hnd as [Hx Hnd]. rewrite len_cons in Hsum. pose proof (len_nonneg l).
    erewrite tx_bind_run; [|erewrite tx_bind_run by apply update_single_use_run; reflexivity].
    set (s1 := match st_memories s !! x with Some r => if usable s p now x then on_memories <[x:=used_row x now w h r]> s else s | None => s end).
    assert (∀ id, usable s1 p now id = usable s p now id) as Hu1.
    { intros id. unfold s1. destruct (st_memories s !! x) eqn:E; [|done]. destruct (usable s p now x); [by apply usable_used | done]. }
    assert (∀ id, present s1 id = present s id) as Hp1.
    { intros id. unfold s1, present. destruct (st_memories s !! x) eqn:E; [|done]. destruct (usable s p now x); [|done].
      cbn. destruct (decide (id = x)) as [->|]; [by rewrite lookup_insert_eq, E | by rewrite lookup_insert_ne]. }
    assert (∀ f l, count_status s1 p now f l = count_status s p now f l) as Hc1.
    { intros f k. unfold count_status. f_equal. apply List.filter_ext. intros id. unfold use_status. by rewrite Hu1, Hp1. }
    set (acc1 := accumulate_record_use_outcome acc x (use_status s p now x)).
    assert (ru_recorded acc1 = ru_recorded acc + (if usable s p now x then 1 else 0)
      ∧ ru_denied acc1 = ru_denied acc + (if is_denied (use_status s p now x) then 1 else 0)
      ∧ ru_not_found acc1 = ru_not_found acc + (if is_not_found (use_status s p now x) then 1 else 0)
      ∧ ru_recorded_ids acc1 = ru_recorded_ids acc ++ (if usable s p now x then [x] else [])) as (Er & Ed & En & Ei).
    { unfold acc1, use_status. destruct (usable s p now x); [|destruct (present s x)]; cbn;
        unfold saturating_add; rewrite ?app_nil_r; split_and!; lia || done. }
    destruct (IH acc1 s1 Hnd) as (s' & Hrun & Hrows).
    { rewrite Er. destruct (usable s p now x); lia. } { rewrite Ed. destruct (is_denied _); lia. }
    { rewrite En. destruct (is_not_found _); lia. }
    { rewrite Er, Ed, En. unfold use_status. destruct (usable s p now x); [cbn; lia|]. destruct (present s x); cbn; lia. }
    exists s'. split.
    + rewrite Hrun, Ei, Er, Ed, En, !Hc1. assert (List.filter (usable s1 p now) l = List.filter (usable s p now) l) as ->
        by (apply List.filter_ext; intros; apply Hu1).
      do 2 f_equal. unfold count_status. cbn. destruct (usable s p now x) eqn:Eu; cbn.
      * f_equal; [by rewrite <- app_assoc | rewrite len_cons; lia | |]; unfold use_status; rewrite Eu; cbn; lia.
      * rewrite app_nil_r. f_equal; [lia| |]; unfold use_status; rewrite Eu; destruct (present s x); cbn; rewrite ?len_cons; lia.
    + intros id. rewrite Hrows, Hu1. destruct (decide (id = x)) as [->|Hne].
      * rewrite (bool_decide_eq_false_2 (x ∈ l)), (bool_decide_eq_true_2 (x ∈ x :: l)) by (done || left). cbn.
        unfold s1. destruct (usable s p now x) eqn:Eu; [|destruct (st_memories s !! x) eqn:Ex; cbn; congruence].
        unfold usable in Eu. destruct (st_memories s !! x) as [r|] eqn:Er'; [|done]. cbn. by rewrite lookup_insert_eq.
      * assert (st_memories s1 !! id = st_memories s !! id) as ->.
        { unfold s1. destruct (st_memories s !! x); [|done]. destruct (usable s p now x); [|done]. cbn. by rewrite lookup_insert_ne. }
        assert (bool_decide (id ∈ x :: l) = bool_decide (id ∈ l)) as ->; [|done].
        apply bool_decide_ext. rewrite elem_of_cons. split; [by intros [?|?] | by right].
Qed.

Lemma use_partition s p now l :
  len (List.filter (usable s p now) l) + count_status s p now is_denied l + count_status s p now is_not_found l = len l.
Proof.
  unfold count_status. induction l as [|x l IH]; cbn; [done|]. rewrite len_cons.
  destruct (usable s p now x) eqn:E1; [|destruct (present s x) eqn:E2];
    (assert (use_status s p now x = _) as -> by (unfold use_status; rewrite E1, ?E2; reflexivity));
    cbn; rewrite ?len_cons; lia.
Qed.
Lemma use_not_found s p now id : is_not_found (use_status s p now id) = negb (present s id).
Proof. unfold use_status, usable, present. destruct (st_memories s !! id); cbn; [|done]. by destruct (_ && _). Qed.

(** Recording uses. It never fails; each distinct id counts exactly
    once, however often it is repeated in the request, as recorded, denied or
    not found. It is recorded exactly for the unexpired memories the principal
    reads in full (redacted readers cannot raise the activity of what they do
    not see), whose decayed activity mass and last use are then updated from
    the values before the call; nothing else in any row changes. *)
Theorem record_use_spec ids p w now h s :
  len ids ≤ u64_max →
  ∃ o s', record_memory_use_impl exp2 ids p w now h s = Ok (o, s')
    ∧ ru_recorded_ids o = List.filter (usable s p now) (dedup ids)
    ∧ ru_recorded o = len (ru_recorded_ids o)
    ∧ ru_recorded o + ru_denied o + ru_not_found o = len (dedup ids)
    ∧ ru_not_found o = len (List.filter (λ id, negb (present s id)) (dedup ids))
    ∧ (∀ id, st_memories s' !! id =
         if bool_decide (id ∈ ids) && usable s p now id then used_row id now w h <$> st_memories s !! id
         else st_memories s !! id).
Proof.
  intros Hlen. unfold record_memory_use_impl. case_bool_decide as Hn.
  { subst. exists record_use_default, s. split_and!; try done. }
  destruct (record_use_fold p now w h (dedup ids) record_use_default s) as (s' & Hrun & Hrows); [apply NoDup_dedup|cbn; lia..| |].
  { cbn. unfold len in *. pose proof (dedup_le ids). lia. }
  eexists _, s'. split; [exact Hrun|]. cbn. split_and!; try done.
  - rewrite <- (use_partition s p now (dedup ids)). lia.
  - unfold count_status. rewrite Z.add_0_l. f_equal. apply List.filter_ext. intros id. apply use_not_found.
  - intros id. rewrite Hrows. assert (bool_decide (id ∈ dedup ids) = bool_decide (id ∈ ids)) as ->; [|done].
    apply bool_decide_ext, elem_of_dedup.
Qed.
End uses.

#[local] Existing Instance plain_render.
#[local] Existing Instance plain_chrono.
#[local] Existing Instance AsciiCase.
Lemma record_use_spec_witness :
  len [m_id edited; m_id edited; 1%N] ≤ u64_max
  ∧ ∃ o s', record_memory_use_impl (λ x, x) [m_id edited; m_id edited; 1%N] "ann" f1 50 f1 sample_store = Ok (o, s')
    ∧ ru_recorded_ids o = [m_id edited] ∧ ru_not_found o = 1.
Proof.
  split; [unfold u64_max, len; cbn; lia|].
  destruct (record_use_spec (λ x, x) [m_id edited; m_id edited; 1%N] "ann" f1 50 f1 sample_store)
    as (o & s' & Hrun & Hids & _ & _ & Hnf & _); [unfold u64_max, len; cbn; lia|].
  exists o, s'. split; [exact Hrun|]. split; [rewrite Hids | rewrite Hnf]; vm_compute; reflexivity.
Defined.
