(* ===== verification/Query.v ===== *)
(** * Query: filtered listing and counting, [src/src/store/query.rs] with
    [list_with_paging] of [store/admin.rs]

    [where_clause] is the condition [WhereClause::from_filter] builds, read as
    a predicate on a row of [memories]; [fetch_page] is the ordered page
    query. The rows that survive SQL are filtered again in Rust on what the
    caller may see ([apply_access_policy_for_filter]). *)
From Stdlib Require Import ZArith Lia.
From Stdlib Require Import Sorting.Sorted.
From stdpp Require Import base list option strings gmap sets pretty.
From S2P Require Import Prelude Text Floats Lists Errors Types Context StoreTypes Ranking Store Membership Crud Revisions Operations Accounting.

Definition OVERFETCH_FACTOR : Z := 4.
Definition MAX_VEC_CANDIDATES : Z := 1000.
Definition MAX_SCAN_ROWS : Z := 10000.
Definition DEFAULT_LIST_LIMIT : Z := 100.
Definition COUNT_PAGE_SIZE : Z := 500.
Definition USIZE_MAX : Z := 2 ^ 64 - 1.

(** ** Text matching *)

Definition BACKSLASH : Ascii.ascii := byte 92.
Definition PERCENT : Ascii.ascii := byte 37.
Definition UNDERSCORE : Ascii.ascii := byte 95.

Definition escape_like_bytes (l : list Ascii.ascii) : list Ascii.ascii :=
  flat_map (λ c, if Ascii.eqb c BACKSLASH || Ascii.eqb c PERCENT || Ascii.eqb c UNDERSCORE
                 then [BACKSLASH; c] else [c]) l.
Definition escape_like (s : string) : string := of_bytes (escape_like_bytes (bytes s)).

(** [x LIKE pattern ESCAPE '\']: [%] stands for any text, [_] for one
    character (a lead byte and its continuation bytes), an escaped character
    for itself; letters compare without ASCII case. *)
Definition same_letter (c d : Ascii.ascii) : bool := Ascii.eqb (ascii_lower c) (ascii_lower d).
Definition is_continuation (c : Ascii.ascii) : bool := (128 <=? byte_val c)%N && (byte_val c <? 192)%N.
Fixpoint drop_continuation (l : list Ascii.ascii) : list Ascii.ascii :=
  match l with c :: l' => if is_continuation c then drop_continuation l' else l | [] => [] end.
Fixpoint like (p l : list Ascii.ascii) {struct p} : bool :=
  match p with
  | [] => match l with [] => true | _ => false end
  | c :: p' =>
      if Ascii.eqb c PERCENT then
        (fix any (l : list Ascii.ascii) : bool :=
           like p' l || match l with [] => false | _ :: l' => any l' end) l
      else if Ascii.eqb c UNDERSCORE then
        match l with [] => false | _ :: l' => like p' (drop_continuation l') end
      else if Ascii.eqb c BACKSLASH then
        match p', l with
        | d :: p'', x :: l' => same_letter d x && like p'' l'
        | _, _ => false
        end
      else match l with x :: l' => same_letter c x && like p' l' | [] => false end
  end.

(** The condition [content LIKE '%text%'] with the text escaped. *)
Definition like_text (text content : string) : bool :=
  like (PERCENT :: escape_like_bytes (bytes text) ++ [PERCENT]) (bytes content).

Definition window_eq (h n : list Ascii.ascii) : bool :=
  forallb (λ '(h, n), Ascii.eqb (ascii_lower h) n) (zip h n).

Section query.
Context `{UnicodeCase}.

Definition contains_case_insensitive_ascii (haystack needle : string) : bool :=
  if str_is_empty needle then true
  else if is_ascii haystack then
    let n := bytes needle in
    let h := bytes haystack in
    if bool_decide (length h < length n)%nat then false
    else existsb (λ start, window_eq (take (length n) (drop start h)) n) (seq 0 (length h + 1 - length n))
  else str_contains (to_lowercase haystack) needle.

Definition with_text_search (t : option string) (f : MemoryFilter) : MemoryFilter :=
  {| mf_context_ids := mf_context_ids f; mf_legacy_context_ids_any := mf_legacy_context_ids_any f;
     mf_explicit_context_filter := mf_explicit_context_filter f; mf_tags := mf_tags f;
     mf_agent_label := mf_agent_label f; mf_scope := mf_scope f; mf_origin_scope := mf_origin_scope f;
     mf_scopes_any := mf_scopes_any f; mf_time_range := mf_time_range f; mf_text_search := t;
     mf_has_embedding := mf_has_embedding f; mf_limit := mf_limit f; mf_memory_type := mf_memory_type f;
     mf_include_superseded := mf_include_superseded f; mf_entity := mf_entity f;
     mf_entities_any := mf_entities_any f; mf_entity_type := mf_entity_type f |}.
Definition normalize_filter (f : MemoryFilter) : MemoryFilter :=
  match mf_text_search f with
  | None => f
  | Some text =>
      let trimmed := to_lowercase (trim text) in
      with_text_search (if str_is_empty trimmed then None else Some trimmed) f
  end.

(** ** The filter in Rust *)

(** [if let Some(x) = filter && !ok(x) { return false; }]. *)
Definition check_opt {A} (o : option A) (ok : A → bool) : bool :=
  match o with Some x => ok x | None => true end.
(** The same for a list that counts only when it is not empty. *)
Definition check_list {A} (o : option (list A)) (ok : list A → bool) : bool :=
  match o with Some (x :: l) => ok (x :: l) | _ => true end.
Definition str_in (s : string) (l : list string) : bool := existsb (String.eqb s) l.

Definition origin_or_source (p : Provenance) : option string :=
  match origin_conversation p with Some o => Some o | None => source_conversation p end.
Definition in_time_range (created_at : DateTime) (range : TimeRange) : bool :=
  check_opt (tr_after range) (λ after, after <=? created_at)
  && check_opt (tr_before range) (λ before, created_at <? before).
Definition includes_superseded (f : MemoryFilter) : bool := default false (mf_include_superseded f).
Definition needs_entity_hydration (f : MemoryFilter) : bool :=
  is_some (mf_entity f) || is_some (mf_entities_any f) || is_some (mf_entity_type f).

Definition matches_non_access_filter (m : Memory) (f : MemoryFilter) (now : DateTime) : bool :=
  check_list (mf_tags f) (existsb (λ t, str_in t (m_tags m)))
  && check_opt (mf_agent_label f) (λ agent, bool_decide (source_agent (m_provenance m) = Some agent))
  && check_opt (mf_scope f) (λ scope, bool_decide (source_conversation (m_provenance m) = Some scope))
  && check_opt (mf_origin_scope f) (λ origin, bool_decide (origin_or_source (m_provenance m) = Some origin))
  && check_list (mf_scopes_any f) (λ scopes,
       match source_conversation (m_provenance m) with Some key => str_in key scopes | None => false end)
  && check_opt (mf_entity f) (λ entity, existsb (λ e, String.eqb (e_name e) entity) (m_entities m))
  && check_list (mf_entities_any f) (λ entities, existsb (λ e, str_in (e_name e) entities) (m_entities m))
  && check_opt (mf_entity_type f) (λ ty, existsb (λ e, String.eqb (EntityType.as_str (e_type e)) ty) (m_entities m))
  && check_opt (mf_time_range f) (in_time_range (m_created_at m))
  && check_opt (mf_text_search f) (contains_case_insensitive_ascii (m_content m))
  && check_opt (mf_has_embedding f) (Bool.eqb (m_has_embedding m))
  && check_opt (mf_memory_type f) (λ mt, bool_decide (m_memory_type m = mt))
  && (includes_superseded f || is_none (m_superseded_by m))
  && check_opt (m_expires_at m) (λ exp, now <? exp).

Definition matches_lifecycle_filter (m : Memory) (f : MemoryFilter) (now : DateTime) : bool :=
  (includes_superseded f || is_none (m_superseded_by m)) && check_opt (m_expires_at m) (λ exp, now <? exp).

Definition apply_access_policy_for_filter (m : Memory) (f : MemoryFilter) (caller : option string) (now : DateTime)
    : option Memory :=
  if negb (matches_lifecycle_filter m f now) then None
  else
    visible ← apply_access_policy m caller;
    if m_was_redacted visible && is_some (m_superseded_by m) then None
    else if m_was_redacted visible && mf_explicit_context_filter f then None
    else if negb (matches_non_access_filter visible f now) then None
    else if is_some (mf_text_search f) && negb (content_searchable_by visible caller) then None
    else Some visible.

(** ** The filter in SQL *)

(** The active contexts of a memory. *)
Definition active_contexts (s : Store) (id : MemoryId) : list (ContextId * ContextDefinition) :=
  omap (λ c, d ← reg_contexts (st_registry s) !! c;
             if bool_decide (cd_lifecycle d = ContextLifecycle.Active) then Some (c, d) else None)
    (memberships_of s id).
Definition governed_where (s : Store) (id : MemoryId) (context_ids : list ContextId) : bool :=
  let active := active_contexts s id in
  negb (bool_decide (active = []))
  && match context_ids with
     | [] => true
     | _ => forallb (λ attached, existsb (λ compatible,
              bool_decide (cd_kind (snd compatible) = cd_kind (snd attached))
              && bool_decide (fst compatible ∈ context_ids)) active) active
     end.
Definition legacy_where (s : Store) (id : MemoryId) (context_ids : list ContextId) : bool :=
  existsb (λ c, bool_decide (fst c ∈ context_ids)) (active_contexts s id).

(** The context conditions, and all the others. *)
Definition context_where (f : MemoryFilter) (s : Store) (id : MemoryId) : bool :=
  check_opt (mf_context_ids f) (governed_where s id) && check_list (mf_legacy_context_ids_any f) (legacy_where s id).
Definition row_where (f : MemoryFilter) (caller : option string) (now : DateTime) (s : Store) (id : MemoryId)
    (r : MemoryRow) : bool :=
  check_opt (r_expires_at r) (λ exp, now <? exp)
  && check_opt (mf_time_range f) (in_time_range (r_created_at r))
  && check_opt (mf_agent_label f) (λ agent, bool_decide (source_agent (r_provenance r) = Some agent))
  && check_opt (mf_scope f) (λ scope, bool_decide (source_conversation (r_provenance r) = Some scope))
  && check_opt (mf_origin_scope f) (λ origin, bool_decide (origin_or_source (r_provenance r) = Some origin))
  && check_list (mf_scopes_any f) (λ scopes,
       match source_conversation (r_provenance r) with Some key => str_in key scopes | None => false end)
  && check_opt (mf_text_search f) (λ text, like_text text (r_content r))
  && check_opt (mf_has_embedding f) (Bool.eqb (r_has_embedding r))
  && check_list (mf_tags f) (λ tags, existsb (λ t, str_in t tags) (r_tags r))
  && check_opt (mf_memory_type f) (λ mt, bool_decide (r_memory_type r = mt))
  && (includes_superseded f || is_none (r_superseded_by r))
  && check_opt (mf_entity f) (λ entity, existsb (λ e, String.eqb (e_name e) entity) (entities_of s id))
  && check_list (mf_entities_any f) (λ entities, existsb (λ e, str_in (e_name e) entities) (entities_of s id))
  && check_opt (mf_entity_type f) (λ ty, existsb (λ e, String.eqb (EntityType.as_str (e_type e)) ty) (entities_of s id))
  && (is_some caller || bool_decide (r_access_policy r = AccessPolicy.Public)).
Definition where_clause (f : MemoryFilter) (caller : option string) (now : DateTime) (s : Store) (id : MemoryId)
    (r : MemoryRow) : bool :=
  row_where f caller now s id r && context_where f s id.

(** ** Paged scans *)

(** [ORDER BY created_at DESC, id DESC]. *)
Definition cmp_newest : Memory → Memory → comparison :=
  then_with (cmp_desc (cmp_on m_created_at Z.compare)) (cmp_desc (cmp_on m_id N.compare)).

Definition select_memories (wanted : MemoryId → MemoryRow → bool) (s : Store) : list Memory :=
  sort_by cmp_newest
    (omap (λ '(id, r), if wanted id r then Some (row_to_memory id r) else None) (map_to_list (st_memories s))).
Definition fetch_page (wanted : MemoryId → MemoryRow → bool) (limit offset : Z) : tx (list Memory) :=
  reads (λ s, truncate limit (drop (Z.to_nat offset) (select_memories wanted s))).

Record ScanConfig := {
  sc_filter : MemoryFilter; sc_caller : option string; sc_now : DateTime; sc_page_size : Z }.

(** [extra] is the condition [run_with_extra_hydrated] adds in front of the
    filter. The accumulator says whether to go on. A result [None] means
    that the fuel did not suffice. *)
Fixpoint paged_scan_loop {A} (cfg : ScanConfig) (extra : MemoryRow → bool) (hydrate_entities : bool)
    (accumulate : A → list Memory → tx (A * bool)) (fuel : nat) (offset : Z) (acc : A) : tx (option A) :=
  match fuel with
  | O => mret None
  | S fuel' => λ s,
    (limit_i64 ← of_result (usize_to_i64 (sc_page_size cfg) "page_size");
     offset_i64 ← of_result (usize_to_i64 offset "scan offset");
     rows ← fetch_page (λ id r, extra r && where_clause (sc_filter cfg) (sc_caller cfg) (sc_now cfg) s id r)
              limit_i64 offset_i64;
     rows ← (if hydrate_entities || needs_entity_hydration (sc_filter cfg) then hydrate_entities_for_memories rows
             else mret rows);
     if bool_decide (rows = []) then mret (Some acc)
     else
       let visible := omap (λ m, apply_access_policy_for_filter m (sc_filter cfg) (sc_caller cfg) (sc_now cfg)) rows in
       '(acc, continue) ← (if bool_decide (visible = []) then mret (acc, true) else accumulate acc visible);
       if negb continue then mret (Some acc)
       else if len rows <? sc_page_size cfg then mret (Some acc)
       else
         let offset := Z.min (offset + sc_page_size cfg) USIZE_MAX in
         if MAX_SCAN_ROWS <=? offset then mret (Some acc)
         else paged_scan_loop cfg extra hydrate_entities accumulate fuel' offset acc) s
  end.

Definition scan_fuel (page_size : Z) : nat := S (Z.to_nat (MAX_SCAN_ROWS / page_size)).

(** [memories.into_iter().all(accumulate)]. *)
Fixpoint accumulate_memory_page {A} (accumulate : A → Memory → A * bool) (acc : A) (memories : list Memory) : A * bool :=
  match memories with
  | [] => (acc, true)
  | m :: rest => let '(acc, continue) := accumulate acc m in
                 if continue then accumulate_memory_page accumulate acc rest else (acc, false)
  end.

Definition push_listed (caller : option string) (limit : Z) (results : list Memory) (m : Memory) : list Memory * bool :=
  match apply_access_policy m caller with
  | None => (results, true)
  | Some m => let results := results ++ [m] in (results, len results <? limit)
  end.

Definition page_size_for (limit : Z) : Z := Z.max (Z.min (limit * OVERFETCH_FACTOR) USIZE_MAX) 1.

Definition list_with_paging (f : MemoryFilter) (caller : option string) (now : DateTime) : tx (option (list Memory)) :=
  let limit := default DEFAULT_LIST_LIMIT (mf_limit f) in
  if limit =? 0 then mret (Some [])
  else
    let cfg := {| sc_filter := f; sc_caller := caller; sc_now := now; sc_page_size := page_size_for limit |} in
    paged_scan_loop cfg (λ _, true) true
      (λ results page, mret (accumulate_memory_page (push_listed caller limit) results page))
      (scan_fuel (page_size_for limit)) 0 [].

Definition list_impl (f : MemoryFilter) (ctx : QueryContext) (now : DateTime) : tx (option (list Memory)) :=
  list_with_paging (normalize_filter f) (qc_principal ctx) now.
End query.

(** ** What the text conditions mean *)

Lemma like_rest l : like [PERCENT] l = true.
Proof. induction l as [|x l IH]; [done|exact IH]. Qed.

Lemma like_escaped t p l :
  like (escape_like_bytes t ++ p) l = true ↔
  ∃ a b, l = a ++ b ∧ map ascii_lower a = map ascii_lower t ∧ like p b = true.
Proof.
  revert l. induction t as [|c t IH]; intros l; cbn [escape_like_bytes flat_map app map].
  - split; [by exists [], l|]. intros (a & b & -> & Ha & Hp). by destruct a.
  - assert (Hc : ∀ x l', same_letter c x && like (escape_like_bytes t ++ p) l' = true ↔
      ∃ a b, x :: l' = a ++ b ∧ map ascii_lower a = ascii_lower c :: map ascii_lower t ∧ like p b = true).
    { intros x l'. rewrite andb_true_iff, IH. unfold same_letter. rewrite Ascii.eqb_eq. split.
      - intros (Hx & a & b & -> & Ha & Hp). exists (x :: a), b. cbn. by rewrite Hx, Ha.
      - intros (a & b & Hl & Ha & Hp). destruct a as [|y a]; [done|]. injection Hl as <- ->.
        injection Ha as Hy Ha. by eauto 10. }
    assert (Hnil : ¬ ∃ a b, @nil Ascii.ascii = a ++ b ∧ map ascii_lower a = ascii_lower c :: map ascii_lower t ∧ like p b = true).
    { intros (a & b & Hl & Ha & _). symmetry in Hl. apply app_eq_nil in Hl as [-> ->]. done. }
    fold (escape_like_bytes t).
    destruct (Ascii.eqb c BACKSLASH || Ascii.eqb c PERCENT || Ascii.eqb c UNDERSCORE) eqn:E; cbn [app like].
    + destruct l as [|x l']; [|apply Hc]. split; [done|]. intros Hx. by destruct Hnil.
    + apply orb_false_elim in E as [[-> ->]%orb_false_elim ->].
      destruct l as [|x l']; [|apply Hc]. split; [done|]. intros Hx. by destruct Hnil.
Qed.

(** [like] with a leading [%] searches every position. *)
Lemma like_percent p l : like (PERCENT :: p) l = true ↔ ∃ a b, l = a ++ b ∧ like p b = true.
Proof.
  induction l as [|x l IH]; cbn in *.
  - rewrite orb_false_r. split; [by exists [], []|]. intros (a & b & Hl & Hp).
    symmetry in Hl. by apply app_eq_nil in Hl as [-> ->].
  - rewrite orb_true_iff, IH. split.
    + intros [?|(a & b & -> & Hp)]; [by exists [], (x :: l)|by exists (x :: a), b].
    + intros (a & b & Hl & Hp). destruct a as [|y a]; cbn in Hl; [subst; by left|].
      injection Hl as <- ->. right. by exists a, b.
Qed.

(** The condition finds the text itself, up to ASCII case, wildcards included. *)
Lemma like_text_infix text content :
  like_text text content = true ↔
  is_infix (map ascii_lower (bytes text)) (map ascii_lower (bytes content)) = true.
Proof.
  unfold like_text. rewrite like_percent, is_infix_true. split.
  - intros (a & b & Hl & (x & y & -> & Hx & _)%like_escaped). rewrite Hl, !map_app, Hx.
    by exists (map ascii_lower a), (map ascii_lower y).
  - intros (a & b & Hl).
    apply map_eq_app in Hl as (a' & r & Hl & <- & Hr). apply map_eq_app in Hr as (x & y & -> & Hx & <-).
    exists a', (x ++ y). split; [done|]. apply like_escaped. exists x, y. by rewrite like_rest.
Qed.

Lemma window_eq_true h n :
  length h = length n → window_eq h n = true ↔ map ascii_lower h = n.
Proof.
  revert n. induction h as [|x h IH]; intros [|y n] Hl; try done.
  change (window_eq (x :: h) (y :: n)) with (Ascii.eqb (ascii_lower x) y && window_eq h n). cbn in Hl |- *.
  rewrite andb_true_iff, Ascii.eqb_eq, IH by lia. split; [by intros [-> ->]|by intros [= -> ->]].
Qed.

Lemma contains_ascii `{UnicodeCase} haystack needle :
  is_ascii haystack = true →
  contains_case_insensitive_ascii haystack needle = is_infix (bytes needle) (map ascii_lower (bytes haystack)).
Proof.
  intros Ha. unfold contains_case_insensitive_ascii.
  destruct (str_is_empty needle) eqn:Hn.
  { apply str_is_empty_true in Hn as ->. symmetry. apply is_infix_true. by exists [], (map ascii_lower (bytes haystack)). }
  rewrite Ha. set (n := bytes needle). set (h := bytes haystack). apply eq_true_iff_eq. rewrite is_infix_true.
  case_bool_decide as Hl.
  - split; [done|]. intros (a & b & He%(f_equal length)). rewrite length_map, !length_app in He. lia.
  - rewrite existsb_exists. split.
    + intros (start & Hs%in_seq & Hw). apply window_eq_true in Hw; [|rewrite length_take, length_drop; lia].
      exists (map ascii_lower (take start h)), (map ascii_lower (drop (length n) (drop start h))).
      transitivity (map ascii_lower (take start h) ++ map ascii_lower (take (length n) (drop start h))
                    ++ map ascii_lower (drop (length n) (drop start h))); [|by rewrite Hw].
      rewrite <- !map_app. by rewrite !take_drop.
    + intros (a & b & He). exists (length a).
      assert (Hlen := f_equal length He). rewrite length_map, !length_app in Hlen. split; [apply in_seq; lia|].
      apply window_eq_true; [rewrite length_take, length_drop; lia|].
      rewrite <- firstn_map, <- skipn_map, He, drop_app_length. by rewrite take_app_length.
Qed.

(** ** What a filtered query depends on *)

(** The filter with no criterion. *)
Definition unfiltered : MemoryFilter :=
  {| mf_context_ids := None; mf_legacy_context_ids_any := None; mf_explicit_context_filter := false;
     mf_tags := None; mf_agent_label := None; mf_scope := None; mf_origin_scope := None;
     mf_scopes_any := None; mf_time_range := None; mf_text_search := None; mf_has_embedding := None;
     mf_limit := None; mf_memory_type := None; mf_include_superseded := Some true; mf_entity := None;
     mf_entities_any := None; mf_entity_type := None |}.

Definition hydrated (s : Store) (id : MemoryId) (r : MemoryRow) : Memory :=
  with_entities (entities_of s id) (row_to_memory id r).

Section views.
Context `{UnicodeCase} (caller : option string) (now : DateTime).

(** What the caller can see of a memory at all. *)
Definition caller_view (m : Memory) : option Memory := apply_access_policy_for_filter m unfiltered caller now.

(** The filter on a view. *)
Definition sees (f : MemoryFilter) (v : Memory) : bool :=
  negb (m_was_redacted v && mf_explicit_context_filter f)
  && matches_non_access_filter v f now
  && (is_none (mf_text_search f) || content_searchable_by v caller).

Lemma matches_unfiltered v :
  matches_non_access_filter v unfiltered now = check_opt (m_expires_at v) (λ exp, now <? exp).
Proof. reflexivity. Qed.

(** A view repeats the lifecycle of its memory, but for a hidden expiry. *)
Lemma view_cases m v :
  m_was_redacted m = false → apply_access_policy m caller = Some v →
  (check_access_level m caller = AccessLevel.Full ∧ v = m) ∨
  (check_access_level m caller = AccessLevel.Redacted ∧ v = redacted m).
Proof. intros _. unfold apply_access_policy. destruct (check_access_level m caller); naive_solver. Qed.

Lemma redacted_expiry m :
  check_opt (m_expires_at m) (λ exp, now <? exp) = true →
  check_opt (m_expires_at (redacted m)) (λ exp, now <? exp) = true.
Proof. cbn. by destruct (fields_contain _ _). Qed.

Lemma matches_superseded v f :
  matches_non_access_filter v f now = true → includes_superseded f || is_none (m_superseded_by v) = true.
Proof. unfold matches_non_access_filter. rewrite !andb_true_iff. tauto. Qed.

(** The filtered view is the view, kept or dropped by the filter on it. *)
Lemma filter_view m f :
  m_was_redacted m = false →
  apply_access_policy_for_filter m f caller now = v ← caller_view m; if sees f v then Some v else None.
Proof.
  intros Hm. unfold caller_view, apply_access_policy_for_filter, matches_lifecycle_filter, sees.
  change (includes_superseded unfiltered) with true. cbn [orb andb].
  destruct (check_opt (m_expires_at m) _) eqn:Hexp; [|by rewrite andb_false_r].
  rewrite andb_true_r. cbn [negb].
  destruct (apply_access_policy m caller) as [v|] eqn:Hv; [|by case_match].
  assert (Hs : m_superseded_by v = m_superseded_by m) by (destruct (view_cases m v Hm Hv) as [[_ ->]|[_ ->]]; done).
  assert (Hexp' : check_opt (m_expires_at v) (λ exp, now <? exp) = true).
  { destruct (view_cases m v Hm Hv) as [[_ ->]|[_ ->]]; [done|by apply redacted_expiry]. }
  cbn [mbind option_bind]. rewrite matches_unfiltered, Hexp'. change (mf_explicit_context_filter unfiltered) with false.
  change (is_some (mf_text_search unfiltered)) with false. rewrite andb_false_r. cbn [negb andb].
  destruct (m_was_redacted v && is_some (m_superseded_by m)) eqn:Hrs; cbn [mbind option_bind]; [by case_match|].
  destruct (m_was_redacted v && mf_explicit_context_filter f) eqn:Hre; cbn [negb andb]; [by case_match|].
  destruct (matches_non_access_filter v f now) eqn:Hmatch; cbn [negb andb].
  - apply matches_superseded in Hmatch. rewrite Hs in Hmatch. rewrite Hmatch. cbn.
    by destruct (mf_text_search f), (content_searchable_by v caller).
  - by case_match.
Qed.

(** A redacted view is redacted for its caller. *)
Lemma redacted_level m :
  check_access_level m caller = AccessLevel.Redacted → check_access_level (redacted m) caller = AccessLevel.Redacted.
Proof.
  unfold check_access_level. cbn. destruct (m_access_policy m); [done|by repeat case_match|].
  destruct (normalize_caller caller); [|done]. destruct (fields_contain _ _); [done|].
  intros _. unfold is_owner. cbn. by rewrite bool_decide_eq_false_2.
Qed.

(** Applying the access policy once more does not change a view. *)
Lemma apply_policy_again m v : apply_access_policy m caller = Some v → apply_access_policy v caller = Some v.
Proof.
  unfold apply_access_policy at 1. destruct (check_access_level m caller) eqn:E; intros [= <-].
  - unfold apply_access_policy. by rewrite E.
  - unfold apply_access_policy. rewrite (redacted_level m E). f_equal. unfold redacted. cbn.
    by destruct (fields_contain RedactableField.Content _), (fields_contain RedactableField.Tags _),
      (fields_contain RedactableField.Provenance _), (fields_contain RedactableField.ExpiresAt _),
      (fields_contain RedactableField.Entities _).
Qed.

Lemma filtered_policy_again m f v :
  apply_access_policy_for_filter m f caller now = Some v → apply_access_policy v caller = Some v.
Proof.
  unfold apply_access_policy_for_filter. case_match; [done|]. intros (v' & Hv & Hif)%bind_Some.
  apply apply_policy_again in Hv. repeat case_match; naive_solver.
Qed.
End views.

(** ** SQL and Rust agree *)

Lemma existsb_str_in_comm l k : existsb (λ t, str_in t l) k = existsb (λ t, str_in t k) l.
Proof.
  apply eq_true_iff_eq. unfold str_in. rewrite !existsb_exists.
  split; intros (x & Hx & (y & Hy & <-%String.eqb_eq)%existsb_exists); exists x; (split; [done|]);
    apply existsb_exists; exists x; by rewrite String.eqb_refl.
Qed.

Lemma check_list_impl {A} (o : option (list A)) ok ok' :
  check_list o ok = true → (∀ l, ok l = true → ok' l = true) → check_list o ok' = true.
Proof. destruct o as [[|x l]|]; cbn; auto. Qed.
Lemma check_opt_impl {A} (o : option A) ok ok' :
  check_opt o ok = true → (∀ x, ok x = true → ok' x = true) → check_opt o ok' = true.
Proof. destruct o; cbn; auto. Qed.

Section agreement.
Context `{UnicodeCase} (caller : option string) (now : DateTime).

(** A view shows the fields of its row or their redacted form. *)
Record view_of (s : Store) (id : MemoryId) (r : MemoryRow) (v : Memory) : Prop := {
  vo_id : m_id v = id;
  vo_created : m_created_at v = r_created_at r;
  vo_embedding : m_has_embedding v = r_has_embedding r;
  vo_type : m_memory_type v = r_memory_type r;
  vo_superseded : m_superseded_by v = r_superseded_by r;
  vo_tags : m_tags v = r_tags r ∨ m_tags v = [];
  vo_provenance : m_provenance v = r_provenance r ∨ m_provenance v = provenance_default;
  vo_entities : m_entities v = entities_of s id ∨ m_entities v = [] }.

Lemma view_of_policy s id r v :
  apply_access_policy (hydrated s id r) caller = Some v → view_of s id r v.
Proof.
  unfold apply_access_policy. case_match; intros [= <-]; [split; cbn; auto|].
  split; cbn; try done; case_match; auto.
Qed.

(** Searchable content is shown. *)
Lemma searchable_content s id r v :
  apply_access_policy (hydrated s id r) caller = Some v → content_searchable_by v caller = true →
  m_content v = r_content r.
Proof.
  unfold apply_access_policy, content_searchable_by.
  destruct (check_access_level (hydrated s id r) caller) eqn:E; intros [= <-]; [done|].
  rewrite (redacted_level caller _ E). cbn. destruct (r_access_policy r); try done.
  cbn. unfold fields_contain. by intros ->.
Qed.

(** A condition that the hidden value fails holds of the row if of the view. *)
Lemma shown_provenance s id r v (P : Provenance → bool) :
  view_of s id r v → P provenance_default = false → P (m_provenance v) = true → P (r_provenance r) = true.
Proof. intros Hv Hd HP. destruct (vo_provenance _ _ _ _ Hv) as [<-|E]; congruence. Qed.
Lemma shown_entities s id r v (P : list Entity → bool) :
  view_of s id r v → P [] = false → P (m_entities v) = true → P (entities_of s id) = true.
Proof. intros Hv Hd HP. destruct (vo_entities _ _ _ _ Hv) as [<-|E]; congruence. Qed.
Lemma shown_tags s id r v (P : list string → bool) :
  view_of s id r v → P [] = false → P (m_tags v) = true → P (r_tags r) = true.
Proof. intros Hv Hd HP. destruct (vo_tags _ _ _ _ Hv) as [<-|E]; congruence. Qed.

(** A redacted reader has a name. *)
Lemma anonymous_sees_public s id r v :
  apply_access_policy (hydrated s id r) caller = Some v →
  is_some caller || bool_decide (r_access_policy r = AccessPolicy.Public) = true.
Proof.
  unfold apply_access_policy, check_access_level. cbn. destruct caller as [c|]; [done|]. cbn.
  by destruct (r_access_policy r).
Qed.

Lemma row_where_view f s id r v :
  apply_access_policy (hydrated s id r) caller = Some v →
  check_opt (r_expires_at r) (λ exp, now <? exp) = true → matches_non_access_filter v f now = true →
  row_where f caller now s id r = check_opt (mf_text_search f) (λ text, like_text text (r_content r)).
Proof.
  intros Hv Hexp Hm. pose proof (view_of_policy _ _ _ _ Hv) as Hvo. pose proof Hvo as [].
  unfold matches_non_access_filter in Hm. rewrite !andb_true_iff in Hm.
  destruct Hm as [[[[[[[[[[[[[M1 M2] M3] M4] M5] M6] M7] M8] M9] M10] M11] M12] M13] M14].
  pose proof (λ a, shown_provenance s id r v (λ p, bool_decide (source_agent p = Some a)) Hvo eq_refl) as S2.
  pose proof (λ a, shown_provenance s id r v (λ p, bool_decide (source_conversation p = Some a)) Hvo eq_refl) as S3.
  pose proof (λ a, shown_provenance s id r v (λ p, bool_decide (origin_or_source p = Some a)) Hvo eq_refl) as S4.
  pose proof (λ l, shown_provenance s id r v
    (λ p, match source_conversation p with Some key => str_in key l | None => false end) Hvo eq_refl) as S5.
  pose proof (λ a, shown_entities s id r v (existsb (λ e, String.eqb (e_name e) a)) Hvo eq_refl) as S6.
  pose proof (λ l, shown_entities s id r v (existsb (λ e, str_in (e_name e) l)) Hvo eq_refl) as S7.
  pose proof (λ a, shown_entities s id r v (existsb (λ e, String.eqb (EntityType.as_str (e_type e)) a)) Hvo eq_refl) as S8.
  pose proof (λ l, shown_tags s id r v (existsb (λ t, str_in t l)) Hvo eq_refl) as S1.
  apply (check_opt_impl _ _ _) with (1 := M2) in S2. apply (check_opt_impl _ _ _) with (1 := M3) in S3.
  apply (check_opt_impl _ _ _) with (1 := M4) in S4. apply (check_list_impl _ _ _) with (1 := M5) in S5.
  apply (check_opt_impl _ _ _) with (1 := M6) in S6. apply (check_list_impl _ _ _) with (1 := M7) in S7.
  apply (check_opt_impl _ _ _) with (1 := M8) in S8.
  assert (M1' : check_list (mf_tags f) (λ l, existsb (λ t, str_in t l) (m_tags v)) = true)
    by (eapply check_list_impl; [exact M1|]; intros l; by rewrite existsb_str_in_comm).
  apply (check_list_impl _ _ _) with (1 := M1') in S1.
  unfold row_where. rewrite (anonymous_sees_public _ _ _ _ Hv), Hexp.
  rewrite <- vo_created0, <- vo_embedding0, <- vo_type0, <- vo_superseded0, M9, M11, M12, M13.
  cbn beta in *. rewrite S1, S2, S3, S4, S5, S6, S7, S8. cbn [andb]. by rewrite !andb_true_r.
Qed.
End agreement.

Section reference.
Context `{UnicodeCase} (caller : option string) (now : DateTime).

Definition text_found (f : MemoryFilter) (v : Memory) : bool :=
  check_opt (mf_text_search f) (λ text, like_text text (m_content v)).

(** What a query with filter [f] shows of a row: its view, if the filter
    holds of the view and the contexts of the memory are asked for. *)
Definition shown (f : MemoryFilter) (s : Store) (id : MemoryId) (r : MemoryRow) : option Memory :=
  if context_where f s id
  then v ← caller_view caller now (hydrated s id r); if sees caller now f v && text_found f v then Some v else None
  else None.

Lemma caller_view_inv m v :
  caller_view caller now m = Some v →
  apply_access_policy m caller = Some v ∧ check_opt (m_expires_at m) (λ exp, now <? exp) = true.
Proof.
  unfold caller_view, apply_access_policy_for_filter, matches_lifecycle_filter. cbn [includes_superseded].
  destruct (_ && _) eqn:Hl; [|done]. apply andb_true_iff in Hl as [_ He]. cbn [negb].
  intros (v' & Hv & Hif)%bind_Some. repeat case_match; naive_solver.
Qed.

Lemma filtered_row f s id r :
  (if where_clause f caller now s id r then apply_access_policy_for_filter (hydrated s id r) f caller now else None)
  = shown f s id r.
Proof.
  unfold where_clause, shown. rewrite (filter_view caller now (hydrated s id r) f eq_refl).
  destruct (context_where f s id); [rewrite andb_true_r|by rewrite andb_false_r].
  destruct (caller_view caller now (hydrated s id r)) as [v|] eqn:Hv; cbn [mbind option_bind]; [|by case_match].
  apply caller_view_inv in Hv as [Hv Hexp].
  destruct (sees caller now f v) eqn:Hs; [|by case_match]. cbn [andb].
  unfold sees in Hs. rewrite !andb_true_iff in Hs. destruct Hs as [[_ Hm] Hc].
  rewrite (row_where_view caller now f s id r v Hv Hexp Hm). unfold text_found.
  destruct (mf_text_search f); [|done]. cbn in Hc |- *. by rewrite (searchable_content caller s id r v Hv Hc).
Qed.

Lemma shown_keys f s id r v : shown f s id r = Some v → m_id v = id ∧ m_created_at v = r_created_at r.
Proof.
  unfold shown. case_match; [|done]. intros (v' & Hv & Hif)%bind_Some.
  apply caller_view_inv in Hv as [Hv%view_of_policy _]. destruct Hv.
  case_match; [|done]. by injection Hif as <-.
Qed.

(** The reference: every memory shown, newest first. *)
Definition newest_first (m : gmap MemoryId Memory) : list Memory := sort_by cmp_newest (map_to_list m).*2.

#[global] Instance cmp_newest_total : TotalPreorder cmp_newest.
Proof. unfold cmp_newest. typeclasses eauto. Qed.

Lemma cmp_newest_id x y : cmp_newest x y = Eq → m_id x = m_id y.
Proof.
  unfold cmp_newest, then_with, cmp_desc, cmp_on. case_match; try done. by intros ?%N.compare_eq.
Qed.
Lemma cmp_newest_keys x y x' y' :
  m_id x = m_id x' → m_created_at x = m_created_at x' → m_id y = m_id y' → m_created_at y = m_created_at y' →
  cmp_newest x y = cmp_newest x' y'.
Proof. unfold cmp_newest, then_with, cmp_desc, cmp_on. by intros -> -> -> ->. Qed.

(** A partial map that keeps the order keeps a list sorted. *)
Lemma omap_sorted {B} (cmp : B → B → comparison) (g : B → option B) l :
  (∀ x y x' y', g x = Some x' → g y = Some y' → cmp x' y' = cmp x y) →
  StronglySorted (λ x y, cmp x y ≠ Gt) l → StronglySorted (λ x y, cmp x y ≠ Gt) (omap g l).
Proof.
  intros Hg. induction 1 as [|x l Hl IH Hx]; cbn; [constructor|].
  destruct (g x) as [v|] eqn:Hv; [|done]. constructor; [done|].
  apply list.Forall_forall. intros y (z & Hz & Hgz)%list_elem_of_omap.
  rewrite list.Forall_forall in Hx. by rewrite (Hg _ _ _ _ Hv Hgz); apply Hx.
Qed.

Lemma map_to_list_imap {A B} (h : MemoryId → A → option B) (m : gmap MemoryId A) :
  (map_to_list (map_imap h m)).*2 ≡ₚ omap (λ '(id, r), h id r) (map_to_list m).
Proof.
  induction m as [|id r m Hid IH] using map_ind; [by rewrite map_imap_empty, !map_to_list_empty|].
  rewrite (map_to_list_insert m id r Hid). cbn.
  destruct (h id r) as [v|] eqn:Hh.
  - rewrite (map_imap_insert_Some _ _ _ _ _ Hh), map_to_list_insert; [cbn; by rewrite IH|].
    by rewrite map_lookup_imap, Hid.
  - rewrite (map_imap_insert_None _ _ _ _ Hh), delete_id; [done|]. by rewrite map_lookup_imap, Hid.
Qed.

(** Selecting rows, sorting them and mapping each collects a map in order,
    when the comparator separates the rows and the map keeps it. *)
Lemma collect_sorted {A B} (cmp : B → B → comparison) `{!TotalPreorder cmp} (key : B → MemoryId)
    (row h : MemoryId → A → option B) (g : B → option B) (m : gmap MemoryId A) :
  (∀ x y, cmp x y = Eq → key x = key y) →
  (∀ id r x, row id r = Some x → key x = id) →
  (∀ x v, g x = Some v → key v = key x) →
  (∀ x y x' y', g x = Some x' → g y = Some y' → cmp x' y' = cmp x y) →
  (∀ id r, m !! id = Some r → row id r ≫= g = h id r) →
  omap g (sort_by cmp (omap (λ '(id, r), row id r) (map_to_list m))) = sort_by cmp (map_to_list (map_imap h m)).*2.
Proof.
  intros Heq Hrow Hkey Hcmp Hh. apply (sorted_unique cmp).
  - apply omap_sorted; [done|]. apply (sort_by_sorted cmp).
  - apply (sort_by_sorted cmp).
  - rewrite (sort_by_perm cmp), sort_by_perm, map_to_list_imap, omap_omap.
    erewrite list_omap_ext; [reflexivity|]. apply Forall_Forall2_diag, list.Forall_forall.
    intros [id r] Hin%elem_of_map_to_list. by apply Hh.
  - assert (Hin : ∀ x, x ∈ omap g (sort_by cmp (omap (λ '(id, r), row id r) (map_to_list m))) →
              ∃ r y, m !! key x = Some r ∧ row (key x) r = Some y ∧ g y = Some x).
    { intros x (y & Hy & Hgy)%list_elem_of_omap. rewrite (elem_of_sort_by cmp), list_elem_of_omap in Hy.
      destruct Hy as ([id r] & Hr%elem_of_map_to_list & Hy). exists r, y.
      by rewrite (Hkey _ _ Hgy), (Hrow _ _ _ Hy). }
    intros x y (rx & x0 & Hrx & Hx & Hgx)%Hin (ry & y0 & Hry & Hy & Hgy)%Hin Hxy%Heq. congruence.
Qed.

(** Filtering the sorted rows collects a map, newest first. *)
Lemma collect_newest (h : MemoryId → MemoryRow → option Memory) (wanted : MemoryId → MemoryRow → bool)
    (g : Memory → option Memory) s :
  (∀ m v, g m = Some v → m_id v = m_id m ∧ m_created_at v = m_created_at m) →
  (∀ id r, (if wanted id r then g (row_to_memory id r) else None) = h id r) →
  omap g (select_memories wanted s) = newest_first (map_imap h (st_memories s)).
Proof.
  intros Hg Hh. unfold select_memories, newest_first.
  apply (collect_sorted cmp_newest m_id (λ id r, if wanted id r then Some (row_to_memory id r) else None)).
  - apply cmp_newest_id.
  - intros id r x Hx. by destruct (wanted id r); simplify_eq.
  - intros x v Hv. by apply Hg in Hv as [-> _].
  - intros x y x' y' Hx Hy. destruct (Hg _ _ Hx), (Hg _ _ Hy). by apply cmp_newest_keys.
  - intros id r _. rewrite <- Hh. by destruct (wanted id r).
Qed.

Lemma filtered_keys s f m v :
  apply_access_policy_for_filter (with_entities (entities_of s (m_id m)) m) f caller now = Some v →
  m_id v = m_id m ∧ m_created_at v = m_created_at m.
Proof.
  unfold apply_access_policy_for_filter. case_match; [done|]. intros (v' & Hv & Hif)%bind_Some.
  assert (m_id v' = m_id m ∧ m_created_at v' = m_created_at m).
  { clear Hif. unfold apply_access_policy in Hv. case_match; simplify_eq; done. }
  repeat case_match; naive_solver.
Qed.

Definition narrowed (extra : MemoryRow → bool) (f : MemoryFilter) (s : Store) (id : MemoryId) (r : MemoryRow) :
    option Memory := if extra r then shown f s id r else None.

Lemma filtered_rows f extra s :
  omap (λ m, apply_access_policy_for_filter (with_entities (entities_of s (m_id m)) m) f caller now)
    (select_memories (λ id r, extra r && where_clause f caller now s id r) s)
  = newest_first (map_imap (narrowed extra f s) (st_memories s)).
Proof.
  apply collect_newest; [intros; by eapply filtered_keys|].
  intros id r. unfold narrowed. destruct (extra r); [|done]. apply filtered_row.
Qed.
End reference.

(** ** The paged scan *)

(** A scan reads whole pages until [MAX_SCAN_ROWS] rows are covered. *)
Definition scanned_rows (page_size : Z) : Z := (MAX_SCAN_ROWS + page_size - 1) / page_size * page_size.

Lemma scanned_rows_last ps k :
  0 < ps → k * ps < MAX_SCAN_ROWS ≤ k * ps + ps → scanned_rows ps = k * ps + ps.
Proof.
  intros Hp Hk. unfold scanned_rows.
  rewrite <- (Z.div_unique (MAX_SCAN_ROWS + ps - 1) ps (k + 1) (MAX_SCAN_ROWS - 1 - k * ps)); lia.
Qed.
Lemma scanned_rows_ge ps : 0 < ps → MAX_SCAN_ROWS ≤ scanned_rows ps.
Proof.
  intros Hp. unfold scanned_rows.
  pose proof (Z.div_mod (MAX_SCAN_ROWS + ps - 1) ps ltac:(lia)).
  pose proof (Z.mod_pos_bound (MAX_SCAN_ROWS + ps - 1) ps Hp). lia.
Qed.

(** The rows of a page and those the scan still covers. *)
Lemma scan_split {B} (rows : list B) ps k :
  0 < ps → 0 ≤ k → k * ps < MAX_SCAN_ROWS →
  take (Z.to_nat (scanned_rows ps - k * ps)) (drop (Z.to_nat (k * ps)) rows) =
  truncate ps (drop (Z.to_nat (k * ps)) rows) ++
  take (Z.to_nat (scanned_rows ps - (k + 1) * ps)) (drop (Z.to_nat ((k + 1) * ps)) rows).
Proof.
  intros Hps Hk Hlt. unfold truncate.
  assert (Hle : (k + 1) * ps ≤ scanned_rows ps).
  { destruct (Z.leb_spec MAX_SCAN_ROWS (k * ps + ps)); [rewrite (scanned_rows_last ps k); lia|].
    pose proof (scanned_rows_ge ps Hps). lia. }
  replace (Z.to_nat (scanned_rows ps - k * ps))
    with (Z.to_nat ps + Z.to_nat (scanned_rows ps - (k + 1) * ps))%nat by lia.
  replace (Z.to_nat ((k + 1) * ps)) with (Z.to_nat (k * ps) + Z.to_nat ps)%nat by lia.
  rewrite <- drop_drop. symmetry. apply take_take_drop.
Qed.
Lemma scan_short {B} (rows : list B) ps k :
  0 < ps → 0 ≤ k → len (truncate ps (drop (Z.to_nat (k * ps)) rows)) < ps →
  take (Z.to_nat (scanned_rows ps - (k + 1) * ps)) (drop (Z.to_nat ((k + 1) * ps)) rows) = [].
Proof.
  intros Hps Hk. unfold len, truncate. rewrite length_take, length_drop. intros Hl.
  rewrite (drop_ge rows) by lia. apply take_nil.
Qed.

Lemma accumulate_app {A} (f : A → Memory → A * bool) a l k :
  accumulate_memory_page f a (l ++ k) =
  let '(a', continue) := accumulate_memory_page f a l in
  if continue then accumulate_memory_page f a' k else (a', false).
Proof.
  revert a. induction l as [|m l IH]; intros a; cbn; [done|].
  destruct (f a m) as [a' []]; [apply IH|done].
Qed.

Section scan.
Context `{UnicodeCase} {A : Type} (cfg : ScanConfig) (extra : MemoryRow → bool) (hydrate_entities : bool)
  (f : A → Memory → A * bool) (s : Store).

Let ps := sc_page_size cfg.
Let wanted := λ id r, extra r && where_clause (sc_filter cfg) (sc_caller cfg) (sc_now cfg) s id r.
Let rows := select_memories wanted s.

Definition load (m : Memory) : Memory :=
  if hydrate_entities || needs_entity_hydration (sc_filter cfg) then with_entities (entities_of s (m_id m)) m else m.
Definition scan_view (m : Memory) : option Memory :=
  apply_access_policy_for_filter (load m) (sc_filter cfg) (sc_caller cfg) (sc_now cfg).

Lemma select_memories_plain w m : m ∈ select_memories w s → m_entities m = [].
Proof.
  unfold select_memories. rewrite (elem_of_sort_by cmp_newest), list_elem_of_omap.
  intros ([id r] & _ & Hm). case_match; [|done]. by injection Hm as <-.
Qed.

Lemma load_page l :
  (∀ m, m ∈ l → m_entities m = []) →
  (if hydrate_entities || needs_entity_hydration (sc_filter cfg) then hydrate_entities_for_memories l else mret l) s
  = Ok (map load l, s).
Proof.
  intros Hl. unfold load. destruct (hydrate_entities || _); [by apply hydrate_run|].
  unfold mret, tx_ret. by rewrite map_id.
Qed.

(** One turn of the loop. *)
Lemma scan_turn fuel offset a :
  0 < ps ≤ i64_max → 0 ≤ offset ≤ MAX_SCAN_ROWS →
  paged_scan_loop cfg extra hydrate_entities (λ a page, mret (accumulate_memory_page f a page)) (S fuel) offset a s =
  (let page := truncate ps (drop (Z.to_nat offset) rows) in
   let '(a', continue) := accumulate_memory_page f a (omap scan_view page) in
   if bool_decide (page = []) then Ok (Some a, s)
   else if negb continue || (len page <? ps) || (MAX_SCAN_ROWS <=? Z.min (offset + ps) USIZE_MAX)
   then Ok (Some a', s)
   else paged_scan_loop cfg extra hydrate_entities (λ a page, mret (accumulate_memory_page f a page)) fuel
          (Z.min (offset + ps) USIZE_MAX) a' s).
Proof.
  intros Hps Hoff. cbn [paged_scan_loop]. fold ps.
  assert (Hu : ∀ x c, x ≤ i64_max → usize_to_i64 x c = Ok x).
  { intros x c Hx. unfold usize_to_i64, i64_try_from. destruct (Z.leb_spec x i64_max); [done|lia]. }
  rewrite (Hu ps) by lia. rewrite (tx_bind_run _ _ s ps s) by done.
  rewrite (Hu offset) by (unfold MAX_SCAN_ROWS, i64_max in *; lia). rewrite (tx_bind_run _ _ s offset s) by done.
  set (page := truncate ps (drop (Z.to_nat offset) rows)).
  rewrite (tx_bind_run _ _ s page s) by done.
  assert (Hpage : ∀ m, m ∈ page → m_entities m = []).
  { intros m Hm. apply (select_memories_plain wanted). apply elem_of_truncate in Hm.
    by apply (subseteq_drop (Z.to_nat offset) rows). }
  rewrite (tx_bind_run _ _ s (map load page) s) by by apply load_page.
  assert (Hview : omap (λ m, apply_access_policy_for_filter m (sc_filter cfg) (sc_caller cfg) (sc_now cfg)) (map load page)
                  = omap scan_view page) by apply (omap_map load).
  rewrite Hview. clear Hview.
  destruct page as [|m page'] eqn:Epage; [done|]. rewrite <- Epage.
  rewrite (bool_decide_eq_false_2 (map load page = [])), (bool_decide_eq_false_2 (page = [])) by (by rewrite Epage).
  assert (Hlen : len (map load page) = len page) by (unfold len; by rewrite length_map). rewrite Hlen.
  destruct (omap scan_view page) as [|v vs] eqn:Evis.
  - rewrite bool_decide_eq_true_2 by done. rewrite (tx_bind_run _ _ s (a, true) s) by done. cbn [accumulate_memory_page negb orb].
    by destruct (len page <? ps), (MAX_SCAN_ROWS <=? _).
  - rewrite bool_decide_eq_false_2 by done. 
    destruct (accumulate_memory_page f a (v :: vs)) as [a' continue] eqn:Eacc.
    rewrite (tx_bind_run _ _ s (a', continue) s) by (by rewrite <- Eacc).
    by destruct continue, (len page <? ps), (MAX_SCAN_ROWS <=? _).
Qed.

(** The whole scan is one pass over the rows it covers. *)
Lemma scan_pass fuel k a :
  0 < ps ≤ i64_max → 0 ≤ k → k * ps < MAX_SCAN_ROWS ≤ k * ps + Z.of_nat fuel * ps →
  paged_scan_loop cfg extra hydrate_entities (λ a page, mret (accumulate_memory_page f a page)) fuel (k * ps) a s
  = Ok (Some (fst (accumulate_memory_page f a
      (omap scan_view (take (Z.to_nat (scanned_rows ps - k * ps)) (drop (Z.to_nat (k * ps)) rows))))), s).
Proof.
  intros Hps. revert k a. induction fuel as [|fuel IH]; intros k a Hk Hf; [lia|].
  rewrite scan_turn by lia. cbn zeta. set (page := truncate ps _).
  replace (Z.min (k * ps + ps) USIZE_MAX) with ((k + 1) * ps)
    by (unfold USIZE_MAX, i64_max, MAX_SCAN_ROWS in *; lia).
  set (rest := take (Z.to_nat (scanned_rows ps - (k + 1) * ps)) (drop (Z.to_nat ((k + 1) * ps)) rows)).
  assert (Hsplit : take (Z.to_nat (scanned_rows ps - k * ps)) (drop (Z.to_nat (k * ps)) rows) = page ++ rest)
    by (apply scan_split; lia).
  assert (Hshort : len page < ps → rest = []) by (intros Hl; apply scan_short; [lia|lia|done]).
  rewrite Hsplit, omap_app, accumulate_app.
  destruct (accumulate_memory_page f a (omap scan_view page)) as [a' continue] eqn:Eacc.
  case_bool_decide as Hnil.
  { rewrite Hnil in Eacc. injection Eacc as <- <-. rewrite Hshort by (rewrite Hnil; unfold len; cbn [length]; lia). done. }
  destruct continue; cbn [negb orb]; [|done].
  destruct (Z.ltb_spec (len page) ps) as [Hl|Hl]; [by rewrite Hshort|]. cbn [orb].
  destruct (Z.leb_spec MAX_SCAN_ROWS ((k + 1) * ps)) as [Hm|Hm].
  - unfold rest. rewrite (scanned_rows_last ps k) by lia. by replace (k * ps + ps - (k + 1) * ps) with 0 by lia.
  - apply IH; lia.
Qed.
End scan.

(** ** Listing *)

Lemma page_size_bounds limit context n :
  usize_to_i64 (page_size_for limit) context = Ok n → n = page_size_for limit ∧ 0 < page_size_for limit ≤ i64_max.
Proof.
  unfold usize_to_i64, i64_try_from. destruct (Z.leb_spec (page_size_for limit) i64_max); [|done]. intros [= <-].
  unfold page_size_for in *. lia.
Qed.
Lemma scan_fuel_enough ps : 0 < ps → MAX_SCAN_ROWS ≤ Z.of_nat (scan_fuel ps) * ps.
Proof.
  intros Hps. unfold scan_fuel. pose proof (Z.div_mod MAX_SCAN_ROWS ps ltac:(lia)).
  pose proof (Z.mod_pos_bound MAX_SCAN_ROWS ps Hps). pose proof (Z.div_pos MAX_SCAN_ROWS ps ltac:(done) Hps). nia.
Qed.

(** An accumulator that appends what it keeps, up to a limit. *)
Lemma push_all {B} (f : list B → Memory → list B * bool) (g : Memory → option B) limit results l :
  (∀ results m, f results m = match g m with
     | None => (results, true)
     | Some b => (results ++ [b], len (results ++ [b]) <? limit) end) →
  len results < limit → fst (accumulate_memory_page f results l) = truncate limit (results ++ omap g (l : list Memory)).
Proof.
  intros Hf. revert results. induction l as [|v l IH]; intros results Hr; cbn [accumulate_memory_page].
  - change (omap g []) with (@nil B). rewrite app_nil_r, truncate_all; [done|lia].
  - rewrite Hf. cbn. destruct (g v) as [b|]; [|by apply IH].
    assert (Hlen : len (results ++ [b]) = len results + 1) by (by rewrite len_app).
    destruct (Z.ltb_spec (len (results ++ [b])) limit).
    + rewrite IH by done. by rewrite <- (assoc_L (++)).
    + assert (Hlim : limit = len (results ++ [b])) by lia. cbn [fst].
      rewrite Hlim, (cons_middle b results (omap g l)), (assoc_L (++) results [b] (omap g l)). unfold truncate, len. rewrite Nat2Z.id.
      symmetry. apply take_app_length.
Qed.

Lemma omap_id_on {A} (g : A → option A) (l : list A) : (∀ v, v ∈ l → g v = Some v) → omap g l = l.
Proof.
  induction l as [|v l IH]; intros Hl; cbn; [done|]. rewrite (Hl v) by left. by rewrite IH by (intros; apply Hl; by right).
Qed.

Lemma push_listed_all caller limit l :
  (∀ v, v ∈ l → apply_access_policy v caller = Some v) → 0 < limit →
  fst (accumulate_memory_page (push_listed caller limit) [] l) = truncate limit l.
Proof.
  intros Hl Hlim. rewrite (push_all _ (λ m, apply_access_policy m caller) limit []) by done.
  cbn [app]. by rewrite omap_id_on.
Qed.

Lemma length_omap {A B} (g : A → option B) (l : list A) : (length (omap g l) ≤ length l)%nat.
Proof. induction l as [|x l IH]; cbn; [done|]. destruct (g x); cbn; lia. Qed.
Lemma length_select_memories wanted s : (length (select_memories wanted s) ≤ size (st_memories s))%nat.
Proof.
  unfold select_memories. rewrite (sort_by_length cmp_newest), <- length_map_to_list. apply length_omap.
Qed.

Section listing.
Context `{UnicodeCase}.

(** A listing scan in full, when the table fits the scan limit. *)
Lemma list_scan {A} cfg extra (f : A → Memory → A * bool) s a :
  0 < sc_page_size cfg ≤ i64_max → Z.of_nat (size (st_memories s)) ≤ MAX_SCAN_ROWS →
  paged_scan_loop cfg extra true (λ a page, mret (accumulate_memory_page f a page))
    (scan_fuel (sc_page_size cfg)) 0 a s
  = Ok (Some (fst (accumulate_memory_page f a
      (newest_first (map_imap (narrowed (sc_caller cfg) (sc_now cfg) extra (sc_filter cfg) s) (st_memories s))))), s).
Proof.
  intros Hps Hsize. set (ps := sc_page_size cfg) in *.
  pose proof (scan_fuel_enough ps ltac:(lia)) as Hfuel.
  pose proof (scan_pass cfg extra true f s (scan_fuel ps) 0 a Hps ltac:(lia)
                (conj (eq_refl : (0 * ps < MAX_SCAN_ROWS)) Hfuel)) as Hpass.
  change (0 * sc_page_size cfg) with 0 in Hpass. rewrite Hpass. clear Hpass. do 4 f_equal.
  rewrite <- filtered_rows. rewrite drop_0, take_ge; [done|].
  pose proof (scanned_rows_ge ps ltac:(lia)).
  pose proof (length_select_memories (λ id r, extra r && where_clause (sc_filter cfg) (sc_caller cfg) (sc_now cfg) s id r) s).
  fold ps. lia.
Qed.

Lemma newest_shown_policy caller now extra f s v :
  v ∈ newest_first (map_imap (narrowed caller now extra f s) (st_memories s)) → apply_access_policy v caller = Some v.
Proof.
  unfold newest_first. rewrite (elem_of_sort_by cmp_newest), list_elem_of_fmap.
  intros ([id v'] & -> & Hin%elem_of_map_to_list). rewrite map_lookup_imap in Hin.
  apply bind_Some in Hin as (r & _ & Hn). unfold narrowed, shown in Hn. do 2 (case_match; [|done]).
  apply bind_Some in Hn as (v0 & Hv & Hif). case_match; [|done]. injection Hif as <-.
  by apply caller_view_inv in Hv as [Hv%apply_policy_again _].
Qed.

End listing.

(** ** No oracle *)

Section oracle.
Context `{UnicodeCase}.

(** What a principal can see of the memory with an id. *)
Definition view_at (caller : option string) (now : DateTime) (s : Store) (id : MemoryId) : option Memory :=
  r ← st_memories s !! id; caller_view caller now (hydrated s id r).

(** The answer of a query, without the tables. *)
Definition answer {A} (r : result StoreError.t (A * Store)) : result StoreError.t A := fst <$> r.

Lemma shown_map_view caller now f s :
  map_imap (shown caller now f s) (st_memories s)
  = map_imap (λ id v, if context_where f s id && (sees caller now f v && text_found f v) then Some v else None)
      (map_imap (λ id r, caller_view caller now (hydrated s id r)) (st_memories s)).
Proof.
  apply map_eq. intros id. rewrite !map_lookup_imap. destruct (st_memories s !! id) as [r|]; [|done].
  cbn. unfold shown. destruct (caller_view caller now (hydrated s id r)), (context_where f s id); done.
Qed.

End oracle.

(** Two databases that differ in the redacted content, owner and tags of a
    memory, searched for the hidden word. *)
Definition vault (content owner : string) (tags : list string) : Store :=
  on_memories (λ _, {[7%N :=
    mkRow content tags {| source_agent := Some owner; source_conversation := None; origin_conversation := None;
                          source_user := None |}
      (AccessPolicy.Redacted [RedactableField.ExpiresAt]) 10 None false MemoryType.Semantic f0 0 None None f0 None 10
      f1 0 0 None None]}) empty_store.
Definition word_search : MemoryFilter := with_text_search (Some "Secret") unfiltered.

#[local] Existing Instance AsciiCase.



(** ** Text search *)

Section text_search.
Context `{UnicodeCase}.

(** On ASCII content the escaped LIKE condition of SQL and the matcher in
    Rust agree: both find exactly the literal text without regard to case,
    with no character of it acting as a wildcard. *)
Theorem text_search_agrees needle content (Ha : is_ascii content = true) :
  like_text needle content = contains_case_insensitive_ascii content (to_ascii_lowercase needle) ∧
  (like_text needle content = true ↔
   ∃ a b, bytes (to_ascii_lowercase content) = a ++ bytes (to_ascii_lowercase needle) ++ b).
Proof.
  assert (Hlike := like_text_infix needle content). rewrite contains_ascii by done.
  unfold to_ascii_lowercase. rewrite !bytes_of_bytes, <- is_infix_true. split; [|done].
  by apply eq_true_iff_eq.
Qed.

Definition cafe_upper : string := of_bytes (map byte [67; 65; 70; 195; 137]%N).
Definition cafe_lower : string := of_bytes (map byte [99; 97; 102; 195; 169]%N).

(** Beyond ASCII they disagree: the filter text is lower-cased with the
    Unicode tables, LIKE folds ASCII letters only, so a memory is not found by
    its own content when that has an upper-case letter outside ASCII. *)
Theorem non_ascii_text_search_misses v
    (Hcase : to_lowercase cafe_upper = cafe_lower) (Hv : m_content v = cafe_upper) :
  contains_case_insensitive_ascii (m_content v) cafe_lower = true ∧
  text_found (normalize_filter (with_text_search (Some cafe_upper) unfiltered)) v = false.
Proof.
  assert (Htrim : trim cafe_upper = cafe_upper) by (vm_compute; reflexivity). rewrite Hv. split.
  - unfold contains_case_insensitive_ascii.
    replace (str_is_empty cafe_lower) with false by (vm_compute; reflexivity).
    replace (is_ascii cafe_upper) with false by (vm_compute; reflexivity). rewrite Hcase. vm_compute. reflexivity.
  - unfold normalize_filter, text_found. cbn [mf_text_search with_text_search]. rewrite Htrim, Hcase.
    replace (str_is_empty cafe_lower) with false by (vm_compute; reflexivity).
    cbn [mf_text_search with_text_search check_opt]. rewrite Hv. vm_compute. reflexivity.
Qed.
End text_search.

Lemma text_search_agrees_witness :
  is_ascii "100%_Sure" = true ∧ like_text "0%_s" "100%_Sure" = true ∧ like_text "1_0" "100%_Sure" = false ∧
  contains_case_insensitive_ascii "100%_Sure" "0%_s" = true.
Proof.
  split; [reflexivity|]. split; [vm_compute; reflexivity|]. split; [vm_compute; reflexivity|].
  pose proof (text_search_agrees "0%_s" "100%_Sure" eq_refl) as [Heq _].
  change (to_ascii_lowercase "0%_s") with "0%_s" in Heq. rewrite <- Heq. vm_compute. reflexivity.
Defined.
