(* ===== verification/Search.v ===== *)
(** * Search: text, full-text and vector search, [src/src/store/search.rs]

    FTS5 ranking and the nearest-neighbour index are engines of SQLite: the
    classes [Fts] and [VectorIndex] stand for them, [VectorIndexLaws] states
    what their documentation promises. Everything around them (the escaping
    of the query, paging, overfetching, post-filtering) is the code's. *)
From Stdlib Require Import ZArith Lia.
From Stdlib Require Import Sorting.Sorted.
From stdpp Require Import base list option strings gmap sets sorting pretty.
From S2P Require Import Prelude Text Floats Lists Errors Types Context StoreTypes Ranking Store Membership Crud Revisions Operations Accounting Query.

(** ** Full-text queries *)

Definition QUOTE : Ascii.ascii := byte 34.
Definition SPACE : Ascii.ascii := byte 32.

(** [str::split_whitespace]: the non-empty parts between white space. *)
Definition flush (cur : list Ascii.ascii) : list (list Ascii.ascii) := match cur with [] => [] | _ => [cur] end.
Fixpoint split_whitespace_bytes (fuel : nat) (l cur : list Ascii.ascii) : list (list Ascii.ascii) :=
  match fuel with
  | O => flush cur
  | S fuel' =>
    match l with
    | [] => flush cur
    | c :: l' =>
      match strip_one white_space l with
      | Some r => flush cur ++ split_whitespace_bytes fuel' r []
      | None => split_whitespace_bytes fuel' l' (cur ++ [c])
      end
    end
  end.
Definition split_whitespace (s : string) : list (list Ascii.ascii) :=
  split_whitespace_bytes (length (bytes s)) (bytes s) [].

Definition quote_token (t : list Ascii.ascii) : list Ascii.ascii :=
  QUOTE :: flat_map (λ c, if Ascii.eqb c QUOTE then [QUOTE; QUOTE] else [c]) t ++ [QUOTE].
Fixpoint join_tokens (l : list (list Ascii.ascii)) : list Ascii.ascii :=
  match l with
  | [] => []
  | [t] => t
  | t :: l' => t ++ SPACE :: join_tokens l'
  end.
Definition sanitize_fts_query_with_context (query : string) (_context : option string) : option string :=
  let main_tokens := map quote_token (List.filter (λ t, negb (bool_decide (t = []))) (split_whitespace query)) in
  match main_tokens with [] => None | _ => Some (of_bytes (join_tokens main_tokens)) end.

(** FTS5 reads a query of quoted strings: a doubled quote is a quote, strings
    are separated by spaces, anything else outside a string is syntax. *)
Inductive fts_state := Outside | Inside (cur : list Ascii.ascii) | AtQuote (cur : list Ascii.ascii).
Fixpoint parse_strings (l : list Ascii.ascii) (st : fts_state) : option (list (list Ascii.ascii)) :=
  match l with
  | [] => match st with Outside => Some [] | Inside _ => None | AtQuote cur => Some [cur] end
  | c :: l' =>
    match st with
    | Outside => if Ascii.eqb c SPACE then parse_strings l' Outside
                 else if Ascii.eqb c QUOTE then parse_strings l' (Inside []) else None
    | Inside cur => parse_strings l' (if Ascii.eqb c QUOTE then AtQuote cur else Inside (cur ++ [c]))
    | AtQuote cur => if Ascii.eqb c QUOTE then parse_strings l' (Inside (cur ++ [QUOTE]))
                     else if Ascii.eqb c SPACE then cons cur <$> parse_strings l' Outside else None
    end
  end.

(** ** Engines *)

Record VectorHit := { vh_memory_id : MemoryId; vh_distance : f64 }.

(** [fts_match query contents] is the rank of every matching row, or [None]
    when the MATCH fails (the statement is fixed but for the filter and is
    taken to prepare). [knn] is the nearest-neighbour
    query over the given vectors, at most [limit] hits. *)
Class Fts := { fts_match : string → gmap MemoryId string → option (gmap MemoryId f64) }.
Class VectorIndex := { knn : list f64 → gmap MemoryId (list f64) → Z → list VectorHit }.

Definition cmp_hit : VectorHit → VectorHit → comparison := cmp_on vh_distance total_cmp.

(** The hits are the nearest vectors, nearest first. *)
Class VectorIndexLaws `{VectorIndex} : Prop := {
  knn_all e vs : map vh_memory_id (knn e vs (Z.of_nat (size vs))) ≡ₚ (map_to_list vs).*1;
  knn_sorted e vs : StronglySorted (λ x y, cmp_hit x y ≠ Gt) (knn e vs (Z.of_nat (size vs)));
  knn_prefix e vs k : 0 ≤ k → knn e vs k = truncate k (knn e vs (Z.of_nat (size vs))) }.

(** ** Searches *)

Section search.
Context `{UnicodeCase, Fts, VectorIndex}.

Definition found (m : Memory) (distance : option f64) : SearchResult :=
  {| sr_memory := m; sr_distance := distance; sr_retrieval_score := None; sr_reranker_score := None;
     sr_composite_score := None; sr_score_breakdown := None |}.

Definition push_text (caller : option string) (limit : Z) (results : list SearchResult) (m : Memory) :
    list SearchResult * bool :=
  if negb (content_searchable_by m caller) then (results, true)
  else match apply_access_policy m caller with
       | None => (results, true)
       | Some m => let results := results ++ [found m None] in (results, len results <? limit)
       end.

Definition text_search_scan (query : string) (f : MemoryFilter) (caller : option string) (now : DateTime)
    (limit page_size : Z) : tx (option (list SearchResult)) :=
  let cfg := {| sc_filter := f; sc_caller := caller; sc_now := now; sc_page_size := page_size |} in
  paged_scan_loop cfg (λ r, like_text query (r_content r)) true
    (λ results page, mret (accumulate_memory_page (push_text caller limit) results page))
    (scan_fuel page_size) 0 [].

Definition search_by_text_impl (query : string) (limit : Z) (f : MemoryFilter) (ctx : QueryContext) (now : DateTime) :
    tx (option (list SearchResult)) :=
  if limit =? 0 then mret (Some [])
  else text_search_scan query (normalize_filter f) (qc_principal ctx) now limit (page_size_for limit).

(** *** Full-text search *)

(** [ORDER BY fts.rank, m.created_at DESC, m.id DESC]. *)
Definition cmp_ranked : Memory * f64 → Memory * f64 → comparison :=
  then_with (cmp_on snd total_cmp) (cmp_on fst cmp_newest).

Definition fts_rows (fts_query : string) (f : MemoryFilter) (caller : option string) (now : DateTime) (s : Store) :
    option (list (Memory * f64)) :=
  ranks ← fts_match fts_query (r_content <$> st_memories s);
  Some (sort_by cmp_ranked
    (omap (λ '(id, r), if where_clause f caller now s id r then pair (row_to_memory id r) <$> ranks !! id else None)
       (map_to_list (st_memories s)))).

Definition hydrate_entities_for_ranked_memories (ranked : list (Memory * f64)) : tx (list (Memory * f64)) :=
  if bool_decide (ranked = []) then mret ranked
  else entity_map ← hydrate_entities_batch (map (λ p, m_id (fst p)) ranked);
       mret (map (λ '(m, rank), (match entity_map !! m_id m with Some l => with_entities l m | None => m end, rank)) ranked).

(** The loop over the rows of a page, up to the limit. *)
Fixpoint collect_visible (f : MemoryFilter) (caller : option string) (now : DateTime) (room : Z)
    (ranked : list (Memory * f64)) : list (Memory * f64) :=
  match ranked with
  | [] => []
  | (m, rank) :: rest =>
    if negb (content_searchable_by m caller) then collect_visible f caller now room rest
    else match apply_access_policy_for_filter m f caller now with
         | None => collect_visible f caller now room rest
         | Some v => if room <=? 1 then [(v, rank)] else (v, rank) :: collect_visible f caller now (room - 1) rest
         end
  end.

Definition push_ranked (caller : option string) (visible : list (Memory * f64)) : list SearchResult :=
  omap (λ '(m, rank), (λ m, found m (Some rank)) <$> apply_access_policy m caller) visible.

Fixpoint fts_page_loop (fts_query : string) (f : MemoryFilter) (caller : option string) (now : DateTime)
    (limit page_size : Z) (fuel : nat) (offset : Z) (results : list SearchResult) : tx (option (list SearchResult)) :=
  match fuel with
  | O => mret None
  | S fuel' =>
    offset_i64 ← of_result (usize_to_i64 offset "FTS offset");
    rows ← reads (λ s, truncate page_size <$> (drop (Z.to_nat offset_i64) <$> fts_rows fts_query f caller now s));
    match rows with
    | None => mret (Some [])
    | Some ranked =>
      let raw_row_count := len ranked in
      ranked ← (if needs_entity_hydration f then hydrate_entities_for_ranked_memories ranked else mret ranked);
      let visible := collect_visible f caller now (limit - len results) ranked in
      visible ← (if negb (bool_decide (visible = [])) && negb (needs_entity_hydration f)
                 then hydrate_entities_for_ranked_memories visible else mret visible);
      let results := results ++ push_ranked caller visible in
      if (limit <=? len results) || (raw_row_count <? page_size) then mret (Some results)
      else
        let offset := Z.min (offset + page_size) USIZE_MAX in
        if MAX_SCAN_ROWS <=? offset then mret (Some results)
        else fts_page_loop fts_query f caller now limit page_size fuel' offset results
    end
  end.

Definition fts_search_scan (fts_query : string) (f : MemoryFilter) (caller : option string) (now : DateTime) (limit : Z) :
    tx (option (list SearchResult)) :=
  let page_size := page_size_for limit in
  limit_i64 ← of_result (usize_to_i64 page_size "FTS page size");
  fts_page_loop fts_query f caller now limit limit_i64 (scan_fuel page_size) 0 [].

Definition search_by_fts_impl (query : string) (limit : Z) (f : MemoryFilter) (ctx : QueryContext)
    (context : option string) (now : DateTime) : tx (option (list SearchResult)) :=
  if limit =? 0 then mret (Some [])
  else match sanitize_fts_query_with_context query context with
       | None => search_by_text_impl query limit f ctx now
       | Some fts_query => fts_search_scan fts_query (normalize_filter f) (qc_principal ctx) now limit
       end.

(** *** Vector search *)

Definition within_distance (max_distance : option f64) (distance : f64) : bool :=
  check_opt max_distance (λ threshold, fleb distance threshold).

(** The rows of the hits. Their order is not observable: the results are
    sorted by distance and id in the end. *)
Definition hydrate_candidates (hits : list VectorHit) : tx (list (Memory * f64)) :=
  reads (λ s, omap (λ h, (λ r, (row_to_memory (vh_memory_id h) r, vh_distance h)) <$> st_memories s !! vh_memory_id h) hits).

Definition post_filter_results (f : MemoryFilter) (caller : option string) (now : DateTime) (max_distance : option f64)
    (hydrated : list (Memory * f64)) : tx (list SearchResult) :=
  rows ← (if needs_entity_hydration f then hydrate_entities_for_ranked_memories hydrated else mret hydrated);
  let visible := omap (λ '(m, distance),
    if negb (within_distance max_distance distance) then None
    else if negb (content_searchable_by m caller) then None
    else (λ m, (m, distance)) <$> apply_access_policy_for_filter m f caller now) rows in
  visible ← (if negb (bool_decide (visible = [])) && negb (needs_entity_hydration f)
             then hydrate_entities_for_ranked_memories visible else mret visible);
  mret (push_ranked caller visible).

(** [hits.filter(|hit| seen_ids.insert(hit.memory_id))]. *)
Fixpoint unseen (seen : gset MemoryId) (hits : list VectorHit) : list VectorHit * gset MemoryId :=
  match hits with
  | [] => ([], seen)
  | h :: rest =>
    if bool_decide (vh_memory_id h ∈ seen) then unseen seen rest
    else let '(new, seen) := unseen ({[vh_memory_id h]} ∪ seen) rest in (h :: new, seen)
  end.

Definition finish_search (limit : Z) (results : list SearchResult) : tx (option (list SearchResult)) :=
  mret (Some (truncate limit (sort_by cmp_search_result_distance_asc results))).

(** [embedding_search_loop] and [filtered_embedding_search_loop]: [search]
    is the candidate query of each. The second compares the number of hits
    with the candidate limit and has no separate stop for an empty batch;
    [governed] tells them apart. *)
Fixpoint vector_search_loop (governed : bool) (search : Store → Z → list VectorHit) (f : MemoryFilter)
    (caller : option string) (now : DateTime) (max_distance : option f64) (limit : Z) (fuel : nat)
    (fetch_size : Z) (seen : gset MemoryId) (results : list SearchResult) : tx (option (list SearchResult)) :=
  match fuel with
  | O => mret None
  | S fuel' =>
    let candidate_limit := Z.min fetch_size MAX_VEC_CANDIDATES in
    hits ← reads (λ s, search s candidate_limit);
    let returned := len hits in
    let '(new_results, seen) := unseen seen hits in
    if negb governed && bool_decide (new_results = []) && (returned <? fetch_size) then finish_search limit results
    else
      added ← (if bool_decide (new_results = []) then mret []
               else hydrated ← hydrate_candidates new_results;
                    post_filter_results f caller now max_distance hydrated);
      let results := results ++ added in
      if (limit <=? len results) || (returned <? (if governed then candidate_limit else fetch_size))
      then finish_search limit results
      else if MAX_VEC_CANDIDATES <=? fetch_size then finish_search limit results
      else vector_search_loop governed search f caller now max_distance limit fuel'
             (Z.min (fetch_size * 2) USIZE_MAX) seen results
  end.

Definition search_fuel : nat := 10.

Definition embedding_search_loop (emb : list f64) (limit : Z) (f : MemoryFilter) (caller : option string)
    (now : DateTime) (max_distance : option f64) : tx (option (list SearchResult)) :=
  vector_search_loop false (λ s k, knn emb (st_vectors s) k) f caller now max_distance limit search_fuel
    (Z.min (limit * OVERFETCH_FACTOR) USIZE_MAX) ∅ [].

(** The vectors of the rows that pass the filter. *)
Definition candidate_vectors (f : MemoryFilter) (caller : option string) (now : DateTime) (s : Store) :
    gmap MemoryId (list f64) :=
  map_imap (λ id v, r ← st_memories s !! id; if where_clause f caller now s id r then Some v else None) (st_vectors s).
(** [ORDER BY knn.distance, embedding_map.memory_id]. *)
Definition cmp_hit_id : VectorHit → VectorHit → comparison := then_with cmp_hit (cmp_on vh_memory_id N.compare).
Definition filtered_embedding_search_loop (emb : list f64) (limit : Z) (f : MemoryFilter) (caller : option string)
    (now : DateTime) (max_distance : option f64) : tx (option (list SearchResult)) :=
  vector_search_loop true (λ s k, sort_by cmp_hit_id (knn emb (candidate_vectors f caller now s) k))
    f caller now max_distance limit search_fuel (Z.min (limit * OVERFETCH_FACTOR) USIZE_MAX) ∅ [].

Definition search_by_embedding_impl (dimensions : Z) (emb : list f64) (limit : Z) (f : MemoryFilter)
    (ctx : QueryContext) (max_distance : option f64) (now : DateTime) : tx (option (list SearchResult)) :=
  if limit =? 0 then mret (Some [])
  else
    let f := normalize_filter f in
    _ ← of_result (validate_embedding_vector emb dimensions);
    if is_some (mf_context_ids f) || match mf_legacy_context_ids_any f with Some (_ :: _) => true | _ => false end
    then filtered_embedding_search_loop emb limit f (qc_principal ctx) now max_distance
    else embedding_search_loop emb limit f (qc_principal ctx) now max_distance.
End search.

(** ** The query of a full-text search is data *)

Lemma parse_quoted t cur l :
  parse_strings (flat_map (λ c, if Ascii.eqb c QUOTE then [QUOTE; QUOTE] else [c]) t ++ l) (Inside cur)
  = parse_strings l (Inside (cur ++ t)).
Proof.
  revert cur. induction t as [|c t IH]; intros cur; cbn [flat_map app]; [by rewrite app_nil_r|].
  rewrite (cons_middle c cur t), (assoc_L (++) cur [c] t), <- IH.
  destruct (Ascii.eqb c QUOTE) eqn:E; cbn [app parse_strings].
  - apply Ascii.eqb_eq in E as ->. by rewrite !Ascii.eqb_refl.
  - by rewrite E.
Qed.

Lemma parse_token t l : parse_strings (quote_token t ++ l) Outside = parse_strings l (AtQuote t).
Proof.
  unfold quote_token. cbn [app parse_strings]. rewrite <- (assoc_L (++)).
  replace (Ascii.eqb QUOTE SPACE) with false by done. rewrite Ascii.eqb_refl, parse_quoted.
  cbn [app parse_strings]. by rewrite Ascii.eqb_refl.
Qed.

Lemma parse_joined ts : ts ≠ [] → parse_strings (join_tokens (map quote_token ts)) Outside = Some ts.
Proof.
  induction ts as [|t ts IH]; [done|]. intros _. destruct ts as [|t' ts].
  - cbn [map join_tokens]. rewrite <- (app_nil_r (quote_token t)), parse_token. done.
  - cbn [map join_tokens] in IH |- *. rewrite parse_token. cbn [parse_strings].
    replace (Ascii.eqb SPACE QUOTE) with false by done. rewrite Ascii.eqb_refl, IH by done. done.
Qed.

(** The tokens of a query: its parts between white space, none empty. *)
Lemma split_whitespace_nonempty fuel l cur : Forall (λ t, t ≠ []) (split_whitespace_bytes fuel l cur).
Proof.
  assert (Hflush : ∀ cur, Forall (λ t, t ≠ []) (flush cur)) by (intros [|]; cbn; repeat constructor; done).
  revert l cur. induction fuel as [|fuel IH]; intros l cur; cbn [split_whitespace_bytes]; [done|].
  destruct l as [|c l]; [done|]. destruct (strip_one _ _); [|done]. apply list.Forall_app; auto.
Qed.

(** A full-text query is data. FTS5 reads the sanitized query as exactly
    the white-space separated parts of the user's text, quotes included, so
    no operator, column filter or prefix mark in the text acts as syntax; and
    there is no full-text query exactly when the text is blank. *)
Theorem fts_query_is_literal query context :
  match sanitize_fts_query_with_context query context with
  | Some q => parse_strings (bytes q) Outside = Some (split_whitespace query)
  | None => split_whitespace query = []
  end.
Proof.
  unfold sanitize_fts_query_with_context.
  assert (Hall : List.filter (λ t, negb (bool_decide (t = []))) (split_whitespace query) = split_whitespace query).
  { apply forallb_filter_id, forallb_forall. intros t Ht%list_elem_of_In.
    pose proof (split_whitespace_nonempty (length (bytes query)) (bytes query) []) as Hne.
    rewrite list.Forall_forall in Hne. by rewrite bool_decide_eq_false_2 by (by apply Hne). }
  rewrite Hall. destruct (split_whitespace query) as [|t ts] eqn:E; [done|].
  cbn [map]. rewrite bytes_of_bytes. change (quote_token t :: map quote_token ts) with (map quote_token (t :: ts)).
  by apply parse_joined.
Qed.

(** ** Text search against its reference *)

Section text_reference.
Context `{UnicodeCase, Fts, VectorIndex}.

(** A view is searchable exactly when its memory is. *)
Lemma searchable_view m v caller :
  apply_access_policy m caller = Some v → content_searchable_by v caller = content_searchable_by m caller.
Proof.
  unfold apply_access_policy, content_searchable_by.
  destruct (check_access_level m caller) eqn:E; intros [= <-]; [by rewrite E|].
  by rewrite (redacted_level caller m E).
Qed.

Definition searchable (caller : option string) (v : Memory) : option SearchResult :=
  if content_searchable_by v caller then Some (found v None) else None.

Theorem text_search_is_reference query limit f ctx now s
    (Hlimit : 0 ≤ limit) (Hsize : Z.of_nat (size (st_memories s)) ≤ MAX_SCAN_ROWS) :
  let caller := qc_principal ctx in
  let f' := normalize_filter f in
  search_by_text_impl query limit f ctx now s =
    if limit =? 0 then Ok (Some [], s)
    else match usize_to_i64 (page_size_for limit) "page_size" with
         | Err e => Err e
         | Ok _ => Ok (Some (truncate limit (omap (searchable caller) (newest_first
             (map_imap (narrowed caller now (λ r, like_text query (r_content r)) f' s) (st_memories s))))), s)
         end.
Proof.
  cbn zeta. set (caller := qc_principal ctx). set (f' := normalize_filter f). unfold search_by_text_impl.
  fold caller f'. destruct (Z.eqb_spec limit 0) as [|Hl]; [done|]. unfold text_search_scan.
  destruct (usize_to_i64 (page_size_for limit) "page_size") as [n|e] eqn:Eu.
  2: { cbn [paged_scan_loop scan_fuel sc_page_size]. unfold mbind, tx_bind. cbn. by rewrite Eu. }
  apply page_size_bounds in Eu as [-> Hps].
  rewrite list_scan by done. cbn [sc_caller sc_now sc_filter].
  rewrite (push_all _ (λ m, if content_searchable_by m caller
                            then (λ m, found m None) <$> apply_access_policy m caller else None) limit []).
  - cbn [app]. do 4 f_equal. apply list_omap_ext, Forall_Forall2_diag, list.Forall_forall.
    intros v Hv%newest_shown_policy. unfold searchable. rewrite Hv. done.
  - intros results m. unfold push_text. destruct (content_searchable_by m caller); [|done].
    cbn. by destruct (apply_access_policy m caller).
  - unfold len; cbn; lia.
Qed.
End text_reference.

(** ** Full-text search against its reference *)

Section fts_reference.
Context `{UnicodeCase, Fts, VectorIndex}.

(** Entities loaded after the filter, when it does not ask for them. *)
Lemma late_hydration l m f caller now :
  needs_entity_hydration f = false → m_was_redacted m = false →
  apply_access_policy_for_filter (with_entities l m) f caller now
  = v ← apply_access_policy_for_filter m f caller now; apply_access_policy (with_entities l v) caller.
Proof.
  intros Hneeds Hm. unfold needs_entity_hydration in Hneeds. rewrite !orb_false_iff in Hneeds.
  destruct Hneeds as [[He1 He2] He3].
  destruct (mf_entity f) eqn:F1; [done|]. destruct (mf_entities_any f) eqn:F2; [done|].
  destruct (mf_entity_type f) eqn:F3; [done|]. clear He1 He2 He3.
  assert (Hmatch : ∀ l v, matches_non_access_filter (with_entities l v) f now = matches_non_access_filter v f now).
  { intros l' v. unfold matches_non_access_filter. by rewrite F1, F2, F3. }
  assert (Hred : redacted (with_entities l (redacted m)) = redacted (with_entities l m)).
  { unfold redacted. cbn. by destruct (fields_contain RedactableField.Content _), (fields_contain RedactableField.Tags _),
      (fields_contain RedactableField.Provenance _), (fields_contain RedactableField.ExpiresAt _),
      (fields_contain RedactableField.Entities _). }
  assert (Hred' : matches_non_access_filter (redacted (with_entities l m)) f now
                  = matches_non_access_filter (redacted m) f now).
  { unfold matches_non_access_filter. by rewrite F1, F2, F3. }
  unfold apply_access_policy_for_filter.
  change (matches_lifecycle_filter (with_entities l m) f now) with (matches_lifecycle_filter m f now).
  destruct (matches_lifecycle_filter m f now); [|done]. cbn [negb].
  assert (Hlevel : ∀ x, check_access_level (with_entities l x) caller = check_access_level x caller) by done.
  destruct (check_access_level m caller) eqn:E.
  - assert (Hfull : ∀ x, check_access_level x caller = AccessLevel.Full → apply_access_policy x caller = Some x)
      by (intros x Hx; unfold apply_access_policy; by rewrite Hx).
    rewrite (Hfull m E), (Hfull (with_entities l m) E). cbn [mbind option_bind].
    cbn [m_was_redacted with_entities]. rewrite Hm. cbn [andb]. rewrite Hmatch.
    change (content_searchable_by (with_entities l m) caller) with (content_searchable_by m caller).
    destruct (matches_non_access_filter m f now); [|done]. cbn [negb].
    destruct (is_some (mf_text_search f) && _); [done|]. cbn [mbind option_bind]. by rewrite (Hfull (with_entities l m) E).
  - assert (Hr : ∀ x, check_access_level x caller = AccessLevel.Redacted → apply_access_policy x caller = Some (redacted x))
      by (intros x Hx; unfold apply_access_policy; by rewrite Hx).
    rewrite (Hr m E), (Hr (with_entities l m) E). cbn [mbind option_bind].
    change (m_was_redacted (redacted m)) with true. change (m_was_redacted (redacted (with_entities l m))) with true.
    cbn [andb m_superseded_by with_entities]. destruct (is_some (m_superseded_by m)); [done|].
    destruct (mf_explicit_context_filter f); [done|]. rewrite Hred'.
    destruct (matches_non_access_filter (redacted m) f now); [|done]. cbn [negb].
    change (content_searchable_by (redacted (with_entities l m)) caller) with (content_searchable_by (redacted m) caller).
    destruct (is_some (mf_text_search f) && _); [done|]. cbn [mbind option_bind].
    rewrite (Hr (with_entities l (redacted m)) (redacted_level caller m E)). by rewrite Hred.
  - assert (Hd : ∀ x, check_access_level x caller = AccessLevel.Denied → apply_access_policy x caller = None)
      by (intros x Hx; unfold apply_access_policy; by rewrite Hx).
    by rewrite (Hd m E), (Hd (with_entities l m) E).
Qed.

Lemma hydrate_ranked_run s ranked :
  (∀ p, p ∈ ranked → m_entities (fst p) = []) →
  hydrate_entities_for_ranked_memories ranked s
  = Ok (map (λ '(m, rank), (with_entities (entities_of s (m_id m)) m, rank)) ranked, s).
Proof.
  intros Hm. unfold hydrate_entities_for_ranked_memories. case_bool_decide as Hn; [by subst|].
  unfold mbind, tx_bind, hydrate_entities_batch, reads. cbn. unfold mret, tx_ret. do 2 f_equal.
  apply map_ext_in. intros [m rank] Hin%list_elem_of_In.
  rewrite lookup_collect, decide_True by (apply list_elem_of_fmap; by exists (m, rank)).
  destruct (entities_of s (m_id m)) eqn:E; [by rewrite with_no_entities by by apply (Hm (m, rank))|done].
Qed.

(** What a row contributes, before and after its entities are loaded. *)
Definition plain_view (f : MemoryFilter) (caller : option string) (now : DateTime) (p : Memory * f64) :
    option (Memory * f64) :=
  if content_searchable_by (fst p) caller
  then (λ v, (v, snd p)) <$> apply_access_policy_for_filter (fst p) f caller now else None.
Definition ranked_view (f : MemoryFilter) (caller : option string) (now : DateTime) (s : Store) (p : Memory * f64) :
    option (Memory * f64) :=
  plain_view f caller now (with_entities (entities_of s (m_id (fst p))) (fst p), snd p).
Definition as_result (p : Memory * f64) : SearchResult := found (fst p) (Some (snd p)).

Lemma collect_visible_all f caller now room l :
  1 ≤ room → collect_visible f caller now room l = truncate room (omap (plain_view f caller now) l).
Proof.
  revert room. induction l as [|[m rank] l IH]; intros room Hroom; cbn [collect_visible]; [symmetry; apply truncate_nil|].
  cbn. unfold plain_view at 1. cbn [fst snd].
  destruct (content_searchable_by m caller); cbn [negb]; [|by apply IH].
  destruct (apply_access_policy_for_filter m f caller now) as [v|]; cbn; [|by apply IH].
  unfold truncate. replace (Z.to_nat room) with (S (Z.to_nat (room - 1))) by lia. cbn [take].
  destruct (Z.leb_spec room 1); [by replace (Z.to_nat (room - 1)) with 0%nat by lia|].
  by rewrite IH by lia.
Qed.

Lemma push_ranked_views caller l :
  (∀ p, p ∈ l → apply_access_policy (fst p) caller = Some (fst p)) → push_ranked caller l = map as_result l.
Proof.
  unfold push_ranked. induction l as [|[m rank] l IH]; intros Hl; cbn; [done|].
  pose proof (Hl (m, rank) ltac:(left)) as Hm. cbn in Hm. rewrite Hm. cbn. by rewrite IH by (intros; apply Hl; by right).
Qed.

Lemma filter_id m f caller now v : apply_access_policy_for_filter m f caller now = Some v → m_id v = m_id m.
Proof.
  unfold apply_access_policy_for_filter. case_match; [done|]. intros (v' & Hv & Hif)%bind_Some.
  apply apply_access_policy_id in Hv. repeat case_match; congruence.
Qed.

Lemma plain_view_policy f caller now p q :
  plain_view f caller now p = Some q → apply_access_policy (fst q) caller = Some (fst q).
Proof.
  unfold plain_view. case_match; [|done]. intros (v & Hv & ->)%fmap_Some. by apply filtered_policy_again in Hv.
Qed.

Lemma plain_view_entities f caller now p q :
  plain_view f caller now p = Some q → m_entities (fst p) = [] → m_entities (fst q) = [].
Proof.
  unfold plain_view. case_match; [|done]. intros (v & Hv & ->)%fmap_Some Hp. cbn.
  unfold apply_access_policy_for_filter in Hv. case_match; [done|]. apply bind_Some in Hv as (v' & Hv' & Hif).
  assert (m_entities v' = []).
  { clear Hif. unfold apply_access_policy in Hv'. case_match; simplify_eq; [done|]. cbn. by case_match. }
  repeat case_match; naive_solver.
Qed.

(** Loading the entities of the kept views instead of the rows. *)
Definition load_view (s : Store) (caller : option string) (q : Memory * f64) : Memory * f64 :=
  (default (fst q) (apply_access_policy (with_entities (entities_of s (m_id (fst q))) (fst q)) caller), snd q).

Lemma late_policy caller v l :
  apply_access_policy v caller = Some v → is_Some (apply_access_policy (with_entities l v) caller).
Proof.
  unfold apply_access_policy. change (check_access_level (with_entities l v) caller) with (check_access_level v caller).
  destruct (check_access_level v caller); [by eexists..|done].
Qed.

Lemma late_views s f caller now ranked :
  needs_entity_hydration f = false → (∀ p, p ∈ ranked → m_was_redacted (fst p) = false) →
  omap (ranked_view f caller now s) ranked = map (load_view s caller) (omap (plain_view f caller now) ranked).
Proof.
  intros Hneeds Hm. rewrite map_omap. apply list_omap_ext, Forall_Forall2_diag, list.Forall_forall.
  intros [m rank] Hp. specialize (Hm _ Hp). cbn in Hm. unfold ranked_view, plain_view. cbn [fst snd].
  change (content_searchable_by (with_entities ?l m) caller) with (content_searchable_by m caller).
  destruct (content_searchable_by m caller); [|done]. rewrite (late_hydration _ m f caller now Hneeds Hm).
  destruct (apply_access_policy_for_filter m f caller now) as [v|] eqn:Hv; [|done]. cbn.
  assert (Hid : m_id v = m_id m) by (by apply (filter_id m f caller now v)).
  apply filtered_policy_again in Hv. unfold load_view. cbn. rewrite Hid.
  destruct (late_policy caller v (entities_of s (m_id m)) Hv) as [v' Hv']. rewrite Hv'. done.
Qed.

Lemma omap_total {A B} (g : A → option B) (h : A → B) (l : list A) :
  (∀ x, x ∈ l → g x = Some (h x)) → omap g l = map h l.
Proof.
  induction l as [|x l IH]; intros Hl; cbn; [done|]. rewrite (Hl x) by left. by rewrite IH by (intros; apply Hl; by right).
Qed.

(** One page, from its rows to the results it adds. *)
Lemma fts_page {A} (K : list SearchResult → tx A) s f caller now room ranked :
  1 ≤ room → (∀ p, p ∈ ranked → m_entities (fst p) = [] ∧ m_was_redacted (fst p) = false) →
  (ranked ← (if needs_entity_hydration f then hydrate_entities_for_ranked_memories ranked else mret ranked);
   let visible := collect_visible f caller now room ranked in
   visible ← (if negb (bool_decide (visible = [])) && negb (needs_entity_hydration f)
              then hydrate_entities_for_ranked_memories visible else mret visible);
   K (push_ranked caller visible)) s
  = K (map as_result (truncate room (omap (ranked_view f caller now s) ranked))) s.
Proof.
  intros Hroom Hplain. destruct (needs_entity_hydration f) eqn:Hneeds.
  - rewrite (tx_bind_run _ _ s _ s) by (apply hydrate_ranked_run; intros p Hp; by apply Hplain).
    cbn zeta. rewrite andb_false_r. rewrite (tx_bind_run _ _ s _ s) by done. apply (f_equal (λ x, K x s)).
    rewrite collect_visible_all, omap_map by done.
    assert (Hext : omap (λ x, plain_view f caller now (let '(m, rank) := x in (with_entities (entities_of s (m_id m)) m, rank))) ranked
                   = omap (ranked_view f caller now s) ranked).
    { apply list_omap_ext, Forall_Forall2_diag, list.Forall_forall. by intros [m rank] _. }
    rewrite Hext. apply push_ranked_views. intros q Hq%elem_of_truncate.
    apply list_elem_of_omap in Hq as (p & _ & Hp). by eapply plain_view_policy.
  - rewrite (tx_bind_run _ _ s ranked s) by done. cbn zeta. rewrite collect_visible_all by done.
    set (visible := truncate room _).
    assert (Hvis : ∀ q, q ∈ visible → m_entities (fst q) = []).
    { intros q Hq%elem_of_truncate. apply list_elem_of_omap in Hq as ([m rank] & Hp & Hq).
      destruct (Hplain _ Hp) as [He _]. by eapply plain_view_entities. }
    rewrite (tx_bind_run _ _ s (map (λ '(m, rank), (with_entities (entities_of s (m_id m)) m, rank)) visible) s).
    2: { rewrite andb_true_r. case_bool_decide as Hn; cbn [negb]; [by rewrite Hn|by apply hydrate_ranked_run]. }
    apply (f_equal (λ x, K x s)). unfold visible.
    rewrite (late_views s f caller now ranked Hneeds (λ p Hp, proj2 (Hplain p Hp))).
    rewrite <- map_truncate. fold visible. unfold push_ranked. rewrite omap_map, map_map.
    apply omap_total. intros q Hq%elem_of_truncate. apply list_elem_of_omap in Hq as (p & _ & Hp).
    apply plain_view_policy in Hp. destruct q as [v rank]. cbn in Hp |- *.
    destruct (late_policy caller v (entities_of s (m_id v)) Hp) as [v' Hv']. unfold load_view. cbn. by rewrite Hv'.
Qed.
#[local] Instance cmp_ranked_total : TotalPreorder cmp_ranked.
Proof. unfold cmp_ranked. typeclasses eauto. Qed.

Lemma truncate_app_room {A} limit (l k : list A) :
  len l ≤ limit → truncate limit (l ++ k) = l ++ truncate (limit - len l) k.
Proof.
  unfold truncate, len. intros Hl. rewrite take_app, take_ge by lia. do 2 f_equal. lia.
Qed.
Lemma truncate_app_full {A} n (l k : list A) : n ≤ len l → truncate n (l ++ k) = truncate n l.
Proof. unfold truncate, len. intros Hn. apply take_app_le. lia. Qed.

Lemma fts_rows_plain fts_query f caller now s rows :
  fts_rows fts_query f caller now s = Some rows →
  ∀ p, p ∈ rows → m_entities (fst p) = [] ∧ m_was_redacted (fst p) = false.
Proof.
  unfold fts_rows. intros (ranks & _ & [= <-])%bind_Some p. rewrite (elem_of_sort_by cmp_ranked), list_elem_of_omap.
  intros ([id r] & _ & Hp). case_match; [|done]. by apply fmap_Some in Hp as (rank & _ & ->).
Qed.

Lemma fts_loop fts_query f caller now s rows limit ps fuel k results :
  fts_rows fts_query f caller now s = Some rows →
  0 < ps ≤ i64_max → 0 ≤ k → k * ps < MAX_SCAN_ROWS ≤ k * ps + Z.of_nat fuel * ps → len results < limit →
  fts_page_loop fts_query f caller now limit ps fuel (k * ps) results s
  = Ok (Some (truncate limit (results ++ map as_result (omap (ranked_view f caller now s)
      (take (Z.to_nat (scanned_rows ps - k * ps)) (drop (Z.to_nat (k * ps)) rows))))), s).
Proof.
  intros Hrows Hps. revert k results. induction fuel as [|fuel IH]; intros k results Hk Hf Hlen; [lia|].
  cbn [fts_page_loop].
  rewrite (tx_bind_run _ _ s (k * ps) s).
  2: { unfold usize_to_i64, i64_try_from. destruct (Z.leb_spec (k * ps) i64_max); [done|unfold MAX_SCAN_ROWS, i64_max in *; lia]. }
  rewrite (tx_bind_run _ _ s (Some (truncate ps (drop (Z.to_nat (k * ps)) rows))) s)
    by (unfold reads; by rewrite Hrows).
  set (page := truncate ps _).
  set (rest := take (Z.to_nat (scanned_rows ps - (k + 1) * ps)) (drop (Z.to_nat ((k + 1) * ps)) rows)).
  rewrite (scan_split rows ps k) by lia. fold page rest. rewrite omap_app, map_app.
  set (X := map as_result (omap (ranked_view f caller now s) page)).
  set (Y := map as_result (omap (ranked_view f caller now s) rest)).
  assert (Hpage : ∀ p, p ∈ page → m_entities (fst p) = [] ∧ m_was_redacted (fst p) = false).
  { intros p Hp%elem_of_truncate. apply (fts_rows_plain _ _ _ _ _ _ Hrows). by apply (subseteq_drop (Z.to_nat (k * ps)) rows). }
  assert (Hshort : len page < ps → rest = []) by (intros Hl; apply scan_short; [lia|lia|done]).
  rewrite (fts_page (λ added, if (limit <=? len (results ++ added)) || (len page <? ps) then mret (Some (results ++ added))
    else if MAX_SCAN_ROWS <=? Z.min (k * ps + ps) USIZE_MAX then mret (Some (results ++ added))
    else fts_page_loop fts_query f caller now limit ps fuel (Z.min (k * ps + ps) USIZE_MAX) (results ++ added)))
    by (done || lia).
  rewrite map_truncate. fold X.
  replace (Z.min (k * ps + ps) USIZE_MAX) with ((k + 1) * ps)
    by (unfold USIZE_MAX, i64_max, MAX_SCAN_ROWS in *; lia).
  rewrite truncate_app_room by lia.
  destruct (Z.leb_spec limit (len (results ++ truncate (limit - len results) X))) as [Hfull|Hfull]; cbn [orb].
  { rewrite truncate_app_full; [done|]. unfold truncate, len in Hfull |- *. rewrite length_app, length_take in Hfull. lia. }
  assert (HX : len X < limit - len results).
  { unfold truncate, len in Hfull |- *. rewrite length_app, length_take in Hfull. unfold len in *. lia. }
  rewrite (truncate_all (limit - len results) X) by lia.
  assert (Hend : rest = [] → results ++ X = results ++ truncate (limit - len results) (X ++ Y)).
  { unfold Y. intros ->. cbn. by rewrite app_nil_r, truncate_all by lia. }
  destruct (Z.ltb_spec (len page) ps) as [Hl|Hl].
  { unfold mret, tx_ret. by rewrite Hend by by apply Hshort. }
  destruct (Z.leb_spec MAX_SCAN_ROWS ((k + 1) * ps)) as [Hm|Hm].
  { unfold mret, tx_ret. rewrite Hend; [done|]. unfold rest.
    rewrite (scanned_rows_last ps k) by lia. by replace (k * ps + ps - (k + 1) * ps) with 0 by lia. }
  rewrite IH by (rewrite ?len_app; lia). fold rest Y. rewrite truncate_app_room by (rewrite len_app; lia).
  rewrite (truncate_app_room (limit - len results) X Y) by lia.
  rewrite <- (assoc_L (++)). by replace (limit - len (results ++ X)) with (limit - len results - len X) by (rewrite len_app; lia).
Qed.

Lemma filter_policy m f caller now v :
  apply_access_policy_for_filter m f caller now = Some v → apply_access_policy m caller = Some v.
Proof.
  unfold apply_access_policy_for_filter. case_match; [done|]. intros (v' & Hv & Hif)%bind_Some.
  repeat case_match; congruence.
Qed.

Lemma ranked_view_keys f caller now s p q :
  ranked_view f caller now s p = Some q →
  m_id (fst q) = m_id (fst p) ∧ m_created_at (fst q) = m_created_at (fst p) ∧ snd q = snd p.
Proof.
  unfold ranked_view, plain_view. cbn [fst snd]. case_match; [|done].
  intros (v & Hv%filtered_keys & ->)%fmap_Some. naive_solver.
Qed.

Lemma length_fts_rows fts_query f caller now s rows :
  fts_rows fts_query f caller now s = Some rows → (length rows ≤ size (st_memories s))%nat.
Proof.
  unfold fts_rows. intros (ranks & _ & [= <-])%bind_Some. rewrite (sort_by_length cmp_ranked), <- length_map_to_list.
  apply length_omap.
Qed.

(** The reference: every searchable memory shown that matches, with its rank. *)
Definition ranked_shown (caller : option string) (now : DateTime) (f : MemoryFilter) (ranks : gmap MemoryId f64)
    (s : Store) (id : MemoryId) (r : MemoryRow) : option (Memory * f64) :=
  rank ← ranks !! id; v ← shown caller now f s id r;
  if content_searchable_by v caller then Some (v, rank) else None.

Lemma fts_rows_shown fts_query f caller now s ranks rows :
  fts_match fts_query (r_content <$> st_memories s) = Some ranks →
  fts_rows fts_query f caller now s = Some rows →
  omap (ranked_view f caller now s) rows
  = sort_by cmp_ranked (map_to_list (map_imap (ranked_shown caller now f ranks s) (st_memories s))).*2.
Proof.
  unfold fts_rows. intros ->. intros [= <-].
  apply (collect_sorted cmp_ranked (λ p, m_id (fst p))
    (λ id r, if where_clause f caller now s id r then pair (row_to_memory id r) <$> ranks !! id else None)).
  - intros x y. unfold cmp_ranked, then_with, cmp_on. case_match; try done. apply cmp_newest_id.
  - intros id r x Hx. case_match; [|done]. by apply fmap_Some in Hx as (rank & _ & ->).
  - intros x v Hv. by apply ranked_view_keys in Hv as (-> & _ & _).
  - intros x y x' y' (Hi & Hc & Hr)%ranked_view_keys (Hi' & Hc' & Hr')%ranked_view_keys.
    unfold cmp_ranked, then_with, cmp_on. rewrite Hr, Hr'. by rewrite (cmp_newest_keys _ _ (fst x) (fst y)).
  - intros id r _. unfold ranked_shown. rewrite <- filtered_row.
    destruct (where_clause f caller now s id r); cbn; [|by destruct (ranks !! id)].
    destruct (ranks !! id) as [rank|]; [|done]. cbn. unfold ranked_view, plain_view. cbn [fst snd].
    change (with_entities (entities_of s (m_id (row_to_memory id r))) (row_to_memory id r)) with (hydrated s id r).
    destruct (apply_access_policy_for_filter (hydrated s id r) f caller now) as [v|] eqn:Hv; cbn; [|by case_match].
    by rewrite (searchable_view (hydrated s id r) v caller) by (by eapply filter_policy).
Qed.

End fts_reference.

(** ** Vector search finds the nearest visible memories *)

Section vector.
Context `{UnicodeCase, Fts, VectorIndex}.
Context (f : MemoryFilter) (caller : option string) (now : DateTime) (max_distance : option f64) (s : Store).

(** The row of a hit, and what the hit contributes. *)
Definition hit_row (h : VectorHit) : option (Memory * f64) :=
  (λ r, (row_to_memory (vh_memory_id h) r, vh_distance h)) <$> st_memories s !! vh_memory_id h.
Definition within (p : Memory * f64) : bool := within_distance max_distance (snd p).
Definition hit_view (h : VectorHit) : option SearchResult :=
  p ← hit_row h; if within p then as_result <$> ranked_view f caller now s p else None.

Lemma post_filter_run rows :
  (∀ p, p ∈ rows → m_entities (fst p) = [] ∧ m_was_redacted (fst p) = false) →
  post_filter_results f caller now max_distance rows s
  = Ok (map as_result (omap (ranked_view f caller now s) (List.filter within rows)), s).
Proof.
  intros Hplain. unfold post_filter_results.
  set (keep := λ p : Memory * f64, if within p then plain_view f caller now p else None).
  assert (Hkeep : ∀ l : list (Memory * f64), omap (λ '(m, distance),
      if negb (within_distance max_distance distance) then None
      else if negb (content_searchable_by m caller) then None
      else (λ m, (m, distance)) <$> apply_access_policy_for_filter m f caller now) l = omap keep l).
  { intros l. apply list_omap_ext, Forall_Forall2_diag, list.Forall_forall. intros [m d] _.
    unfold keep, within, plain_view. cbn. by destruct (within_distance _ _), (content_searchable_by m caller). }
  assert (Hpolicy : ∀ (l : list (Memory * f64)) q, q ∈ omap keep l → apply_access_policy (fst q) caller = Some (fst q)).
  { intros l q (p & _ & Hp)%list_elem_of_omap. unfold keep in Hp. case_match; [|done]. by eapply plain_view_policy. }
  assert (Hfilter : ∀ (g : Memory * f64 → option (Memory * f64)) (l : list (Memory * f64)),
    omap (λ p, if within p then g p else None) l = omap g (List.filter within l)).
  { intros g l. induction l as [|p l IH]; cbn; [done|]. destruct (within p); cbn; by rewrite IH. }
  destruct (needs_entity_hydration f) eqn:Hneeds.
  - rewrite (tx_bind_run _ _ s _ s) by (apply hydrate_ranked_run; intros p Hp; by apply Hplain).
    cbn zeta. rewrite Hkeep, andb_false_r. rewrite (tx_bind_run _ _ s _ s) by done. unfold mret, tx_ret. do 2 f_equal.
    rewrite push_ranked_views by apply Hpolicy. f_equal. rewrite omap_map, <- Hfilter.
    apply list_omap_ext, Forall_Forall2_diag, list.Forall_forall. by intros [m rank] _.
  - rewrite (tx_bind_run _ _ s rows s) by done. cbn zeta. rewrite Hkeep.
    assert (Hvis : ∀ q, q ∈ omap keep rows → m_entities (fst q) = []).
    { intros q ([m d] & Hp & Hq)%list_elem_of_omap. destruct (Hplain _ Hp) as [He _]. unfold keep in Hq.
      case_match; [|done]. by eapply plain_view_entities. }
    rewrite (tx_bind_run _ _ s (map (λ '(m, rank), (with_entities (entities_of s (m_id m)) m, rank)) (omap keep rows)) s).
    2: { rewrite andb_true_r. case_bool_decide as Hn; cbn [negb]; [by rewrite Hn|by apply hydrate_ranked_run]. }
    unfold mret, tx_ret. do 2 f_equal.
    rewrite (late_views s f caller now (List.filter within rows) Hneeds).
    2: { intros p [Hp _]%list_elem_of_In%filter_In. by apply Hplain, list_elem_of_In. }
    unfold keep at 1. rewrite Hfilter. unfold push_ranked. rewrite omap_map, map_map.
    apply omap_total. intros q Hq. rewrite <- Hfilter in Hq. apply Hpolicy in Hq. destruct q as [v rank]. cbn in Hq |- *.
    destruct (late_policy caller v (entities_of s (m_id v)) Hq) as [v' Hv']. unfold load_view. cbn. by rewrite Hv'.
Qed.

(** A batch of new hits. *)
Lemma hits_run hits :
  (hydrated ← hydrate_candidates hits; post_filter_results f caller now max_distance hydrated) s
  = Ok (omap hit_view hits, s).
Proof.
  rewrite (tx_bind_run _ _ s (omap hit_row hits) s) by done. rewrite post_filter_run.
  - do 2 f_equal. rewrite map_omap, omap_filter, omap_omap. apply list_omap_ext, Forall_Forall2_diag, list.Forall_forall.
    intros h _. unfold hit_view. destruct (hit_row h) as [p|]; [|done]. cbn. by destruct (within p).
  - intros p (h & _ & Hp)%list_elem_of_omap. by apply fmap_Some in Hp as (r & _ & ->).
Qed.

(** ** The adaptive loop *)

Definition hit_ids (l : list VectorHit) : gset MemoryId := list_to_set (map vh_memory_id l).

Lemma unseen_spec seen hits :
  NoDup (map vh_memory_id hits) →
  unseen seen hits = (List.filter (λ h, negb (bool_decide (vh_memory_id h ∈ seen))) hits, seen ∪ hit_ids hits).
Proof.
  revert seen. induction hits as [|h hits IH]; intros seen Hnd; cbn [unseen List.filter].
  - f_equal. unfold hit_ids. set_solver.
  - apply NoDup_cons in Hnd as [Hh Hnd]. case_bool_decide as Hin; cbn [negb].
    + rewrite IH by done. f_equal. unfold hit_ids. cbn. set_solver.
    + rewrite IH by done. f_equal; [f_equal|unfold hit_ids; cbn; set_solver].
      apply filter_ext_in. intros h' Hh'%list_elem_of_In. f_equal. apply bool_decide_ext.
      assert (vh_memory_id h' ≠ vh_memory_id h); [|set_solver].
      intros Heq. apply Hh. rewrite <- Heq. apply list_elem_of_fmap. by exists h'.
Qed.

(** What a batch of the first [k] hits adds to the first [j]. *)
Lemma unseen_prefix (R hits : list VectorHit) (j k : nat) :
  NoDup (map vh_memory_id R) → (j ≤ k)%nat → hits ≡ₚ take k R →
  List.filter (λ h, negb (bool_decide (vh_memory_id h ∈ hit_ids (take j R)))) hits ≡ₚ drop j (take k R).
Proof.
  intros Hnd Hjk Hp.
  assert (Hsplit : take k R = take j R ++ drop j (take k R)).
  { rewrite <- (take_drop j (take k R)) at 1. by rewrite take_take, Nat.min_l by lia. }
  rewrite Hp, Hsplit at 1. rewrite List.filter_app.
  assert (Hnd' : NoDup (map vh_memory_id (take j R) ++ map vh_memory_id (drop j (take k R)))).
  { rewrite <- map_app, <- Hsplit, <- firstn_map. apply (sublist_NoDup (take k (map vh_memory_id R)) (map vh_memory_id R));
      [done|apply sublist_take]. }
  apply NoDup_app in Hnd' as (_ & Hdis & _). rewrite filter_none, filter_all; [done| |].
  - intros h Hh. apply negb_true_iff, bool_decide_eq_false_2. unfold hit_ids. rewrite elem_of_list_to_set.
    intros Hin. apply (Hdis _ Hin), list_elem_of_fmap. by exists h.
  - intros h Hh. apply negb_false_iff, bool_decide_eq_true_2. unfold hit_ids. rewrite elem_of_list_to_set.
    apply list_elem_of_fmap. by exists h.
Qed.

Section loop.
Context (governed : bool) (search : Store → Z → list VectorHit) (limit : Z) (R : list VectorHit).
Hypothesis Hsearch : ∀ k, 0 ≤ k → search s k ≡ₚ truncate k R.
Hypothesis Hids : NoDup (map vh_memory_id R).

(** Enough of the ranking was looked at. *)
Definition looked_at (k : nat) (results : list SearchResult) : Prop :=
  results ≡ₚ omap hit_view (take k R) ∧ (k ≤ Z.to_nat MAX_VEC_CANDIDATES)%nat ∧
  (limit ≤ len results ∨ take k R = take (Z.to_nat MAX_VEC_CANDIDATES) R).

Lemma short_batch F :
  0 ≤ F → let k := Z.to_nat (Z.min F MAX_VEC_CANDIDATES) in
  len (take k R) < F → take k R = take (Z.to_nat MAX_VEC_CANDIDATES) R.
Proof.
  cbn zeta. unfold len. intros HF Hlen. destruct (Z.le_gt_cases MAX_VEC_CANDIDATES F) as [Hm|Hm].
  - by rewrite Z.min_r.
  - rewrite Z.min_l in * by lia. rewrite length_take in Hlen. rewrite !take_ge; [done|lia..].
Qed.

Lemma batch_run F K results :
  1 ≤ F → (K ≤ Z.to_nat (Z.min F MAX_VEC_CANDIDATES))%nat → results ≡ₚ omap hit_view (take K R) →
  let k := Z.to_nat (Z.min F MAX_VEC_CANDIDATES) in
  let hits := search s (Z.min F MAX_VEC_CANDIDATES) in
  ∃ new, unseen (hit_ids (take K R)) hits = (new, hit_ids (take k R)) ∧ len hits = len (take k R) ∧
         results ++ omap hit_view new ≡ₚ omap hit_view (take k R).
Proof.
  cbn zeta. intros HF HK Hres.
  pose proof (Hsearch (Z.min F MAX_VEC_CANDIDATES) ltac:(unfold MAX_VEC_CANDIDATES in *; lia)) as Hhits. unfold truncate in Hhits.
  set (k := Z.to_nat (Z.min F MAX_VEC_CANDIDATES)) in *. set (hits := search s _) in *.
  assert (Hsplit : take k R = take K R ++ drop K (take k R)).
  { rewrite <- (take_drop K (take k R)) at 1. by rewrite take_take, Nat.min_l by lia. }
  assert (Hnd : NoDup (map vh_memory_id hits)).
  { rewrite Hhits, <- firstn_map. by apply (sublist_NoDup (take k (map vh_memory_id R)) (map vh_memory_id R)); [|apply sublist_take]. }
  rewrite unseen_spec by done. eexists. split_and!.
  - f_equal. unfold hit_ids. rewrite Hhits. rewrite Hsplit at 1. rewrite Hsplit at 2. rewrite map_app, list_to_set_app_L. set_solver.
  - unfold len. by rewrite Hhits.
  - rewrite (unseen_prefix R hits K k Hids HK Hhits), Hres, <- omap_app. by rewrite <- Hsplit.
Qed.

Lemma vector_loop fuel fetch_size K results :
  1 ≤ fetch_size → MAX_VEC_CANDIDATES ≤ fetch_size * 2 ^ Z.of_nat fuel →
  (K ≤ Z.to_nat (Z.min fetch_size MAX_VEC_CANDIDATES))%nat → results ≡ₚ omap hit_view (take K R) →
  ∃ k results',
    vector_search_loop governed search f caller now max_distance limit (S fuel) fetch_size (hit_ids (take K R)) results s
    = Ok (Some (truncate limit (sort_by cmp_search_result_distance_asc results')), s) ∧ looked_at k results'.
Proof.
  revert fetch_size K results. induction fuel as [|fuel IH]; intros F K results HF Hfuel HK Hres.
  all: destruct (batch_run F K results HF HK Hres) as (new & Hnew & Hlen & Hall).
  all: pose proof (short_batch F ltac:(lia)) as Hshort; cbn zeta in Hshort.
  all: cbn [vector_search_loop]; rewrite (tx_bind_run _ _ s _ s) by done; rewrite Hnew, Hlen.
  all: set (k := Z.to_nat (Z.min F MAX_VEC_CANDIDATES)) in *.
  all: assert (Hk : (k ≤ Z.to_nat MAX_VEC_CANDIDATES)%nat) by lia.
  all: destruct (negb governed && bool_decide (new = []) && (len (take k R) <? F)) eqn:Estop;
    [apply andb_true_iff in Estop as [[_ ->%bool_decide_eq_true]%andb_true_iff Hl%Z.ltb_lt];
     rewrite app_nil_r in Hall; exists k, results; split; [done|]; repeat split; auto|].
  all: rewrite (tx_bind_run _ _ s (omap hit_view new) s) by (case_bool_decide; [by subst|apply hits_run]).
  all: set (results' := results ++ omap hit_view new) in *.
  all: destruct ((limit <=? len results') || _) eqn:Edone;
    [exists k, results'; split; [done|]; repeat split; auto;
     apply orb_true_iff in Edone as [?%Z.leb_le|Hl%Z.ltb_lt]; [by left|right]; apply Hshort; destruct governed; lia|].
  - destruct (Z.leb_spec MAX_VEC_CANDIDATES F); [|cbn in Hfuel; lia].
    exists k, results'. repeat split; auto. right. unfold k. by rewrite Z.min_r.
  - destruct (Z.leb_spec MAX_VEC_CANDIDATES F) as [Hm|Hm].
    { exists k, results'. repeat split; auto. right. unfold k. by rewrite Z.min_r. }
    rewrite (Z.min_l (F * 2)) by (unfold USIZE_MAX, MAX_VEC_CANDIDATES in *; lia).
    apply (IH (F * 2) k results'); [lia| |lia|done].
    rewrite Nat2Z.inj_succ, Z.pow_succ_r in Hfuel by lia. lia.
Qed.
End loop.
End vector.

Section nearest.
Context `{UnicodeCase, Fts, VectorIndex}.

(** [a] is no farther than [b]. *)
Definition no_farther (a b : SearchResult) : Prop := cmp_distance (sr_distance a) (sr_distance b) ≠ Gt.

Lemma hit_view_distance f caller now max_distance s h r :
  hit_view f caller now max_distance s h = Some r → sr_distance r = Some (vh_distance h).
Proof.
  unfold hit_view, hit_row. intros (p & (row & _ & ->)%fmap_Some & Hif)%bind_Some. cbn in Hif. case_match; [|done].
  apply fmap_Some in Hif as (q & (_ & _ & Hq)%ranked_view_keys & ->). cbn in Hq |- *. by rewrite Hq.
Qed.

Lemma sorted_weaken {A} (R1 R2 : A → A → Prop) l : (∀ x y, R1 x y → R2 x y) → StronglySorted R1 l → StronglySorted R2 l.
Proof. intros HR. induction 1 as [|x l Hl IH Hx]; constructor; [done|]. eapply Forall_impl; [exact Hx|apply HR]. Qed.

Lemma distance_sorted l : StronglySorted no_farther (sort_by cmp_search_result_distance_asc l).
Proof.
  eapply sorted_weaken; [|apply sort_by_sorted; apply _]. intros x y.
  unfold no_farther, cmp_search_result_distance_asc, then_with. unfold cmp_on at 1. by destruct (cmp_distance _ _).
Qed.

(** Results of nearer hits are no farther. *)
Lemma views_no_farther f caller now max_distance s l1 l2 a b :
  StronglySorted (λ x y, cmp_hit x y ≠ Gt) (l1 ++ l2) →
  a ∈ omap (hit_view f caller now max_distance s) l1 → b ∈ omap (hit_view f caller now max_distance s) l2 →
  no_farther a b.
Proof.
  intros Hs (h1 & Hh1 & Ha)%list_elem_of_omap (h2 & Hh2 & Hb)%list_elem_of_omap. unfold no_farther.
  erewrite (hit_view_distance _ _ _ _ _ h1 a), (hit_view_distance _ _ _ _ _ h2 b) by done.
  exact (StronglySorted_app_1_elem_of _ _ _ h1 h2 Hs Hh1 Hh2).
Qed.

(** A returned list is the [limit] nearest of the candidates. *)
Definition nearest (limit : Z) (candidates results : list SearchResult) : Prop :=
  StronglySorted no_farther results ∧ len results = Z.min limit (len candidates) ∧
  ∃ dropped, candidates ≡ₚ results ++ dropped ∧ ∀ r d, r ∈ results → d ∈ dropped → no_farther r d.

Lemma looked_at_nearest f caller now max_distance s limit R k results :
  0 ≤ limit → StronglySorted (λ x y, cmp_hit x y ≠ Gt) R →
  looked_at f caller now max_distance s limit R k results →
  nearest limit (omap (hit_view f caller now max_distance s) (truncate MAX_VEC_CANDIDATES R))
    (truncate limit (sort_by cmp_search_result_distance_asc results)).
Proof.
  intros Hl HR (Hp & Hk & Hend). set (view := hit_view f caller now max_distance s) in *. unfold truncate.
  set (n := Z.to_nat MAX_VEC_CANDIDATES) in *. set (sorted := sort_by _ results). set (m := Z.to_nat limit).
  assert (Hsplit : take n R = take k R ++ drop k (take n R)).
  { rewrite <- (take_drop k (take n R)) at 1. by rewrite take_take, Nat.min_l by lia. }
  assert (Hsort : sorted ≡ₚ results) by apply sort_by_perm.
  assert (Hsorted : StronglySorted no_farther (take m sorted ++ drop m sorted)) by (rewrite take_drop; apply distance_sorted).
  assert (Hrest : len sorted < limit → drop k (take n R) = []).
  { intros Hlen. destruct Hend as [He|He]; [unfold len in *; rewrite Hsort in Hlen; lia|].
    apply (f_equal length) in Hsplit. rewrite length_app, He in Hsplit. apply nil_length_inv. lia. }
  assert (Hcand : omap view (take n R) ≡ₚ take m sorted ++ drop m sorted ++ omap view (drop k (take n R))).
  { rewrite Hsplit at 1. rewrite omap_app, <- Hp, <- Hsort, app_assoc, take_drop. done. }
  split; [by eapply StronglySorted_app_1_l|]. split.
  - unfold len in *. rewrite Hcand, !length_app, length_take, length_drop.
    destruct (Z.lt_ge_cases (Z.of_nat (length sorted)) limit) as [Hlt|Hge]; [rewrite (Hrest Hlt); cbn|]; lia.
  - eexists. split; [exact Hcand|]. intros r d Hr [Hd|Hd]%elem_of_app.
    + by eapply StronglySorted_app_1_elem_of.
    + apply elem_of_take in Hr as (i & Hr & _). apply list_elem_of_lookup_2 in Hr. rewrite Hsort, Hp in Hr.
      eapply views_no_farther; [|exact Hr|exact Hd]. rewrite <- Hsplit.
      rewrite <- (take_drop n R) in HR. by eapply StronglySorted_app_1_l.
Qed.

Definition governed_search (f : MemoryFilter) : bool :=
  is_some (mf_context_ids f) || match mf_legacy_context_ids_any f with Some (_ :: _) => true | _ => false end.
(** The vectors a search ranks: those of the rows the filter admits when it
    names contexts, all of them otherwise. *)
Definition searched_vectors (f : MemoryFilter) (caller : option string) (now : DateTime) (s : Store) :
    gmap MemoryId (list f64) :=
  if governed_search f then candidate_vectors f caller now s else st_vectors s.

(** C32. Vector search finds the nearest visible memories: given an index that
    answers nearest-neighbour queries exactly, a search for a valid embedding
    ends, writes nothing and returns the [limit] nearest, nearest first, of
    the results that the first [MAX_VEC_CANDIDATES] ranked vectors yield
    after the distance bound, the access policy and the filter; nothing it
    leaves out is nearer than what it returns. *)
Theorem vector_search_nearest `{!VectorIndexLaws} dimensions emb limit f ctx max_distance now s
    (Hlimit : 0 < limit) (Hemb : validate_embedding_vector emb dimensions = Ok ()) :
  let caller := qc_principal ctx in
  let f' := normalize_filter f in
  let vs := searched_vectors f' caller now s in
  ∃ results,
    search_by_embedding_impl dimensions emb limit f ctx max_distance now s = Ok (Some results, s) ∧
    nearest limit (omap (hit_view f' caller now max_distance s)
                     (truncate MAX_VEC_CANDIDATES (knn emb vs (Z.of_nat (size vs))))) results.
Proof.
  cbn zeta. set (caller := qc_principal ctx). set (f' := normalize_filter f). set (vs := searched_vectors f' caller now s).
  set (R := knn emb vs (Z.of_nat (size vs))).
  assert (Hids : NoDup (map vh_memory_id R)) by (unfold R; rewrite knn_all; apply NoDup_fst_map_to_list).
  assert (Hloop : ∀ governed search, (∀ k, 0 ≤ k → search s k ≡ₚ truncate k R) →
    ∃ results, vector_search_loop governed search f' caller now max_distance limit search_fuel
        (Z.min (limit * OVERFETCH_FACTOR) USIZE_MAX) ∅ [] s = Ok (Some results, s) ∧
      nearest limit (omap (hit_view f' caller now max_distance s) (truncate MAX_VEC_CANDIDATES R)) results).
  { intros governed search Hsearch.
    destruct (vector_loop f' caller now max_distance s governed search limit R Hsearch Hids 9
      (Z.min (limit * OVERFETCH_FACTOR) USIZE_MAX) 0 []) as (k & results & Hrun & Hlooked);
      [unfold OVERFETCH_FACTOR, USIZE_MAX; lia|unfold OVERFETCH_FACTOR, USIZE_MAX, MAX_VEC_CANDIDATES; lia|lia|done|].
    eexists. split; [exact Hrun|]. eapply looked_at_nearest; [lia|apply knn_sorted|exact Hlooked]. }
  unfold search_by_embedding_impl. fold caller f'. rewrite (proj2 (Z.eqb_neq limit 0)) by lia.
  rewrite (tx_bind_run _ _ s () s) by (by rewrite Hemb).
  change (is_some (mf_context_ids f') || _) with (governed_search f'). unfold searched_vectors in vs.
  destruct (governed_search f'); unfold filtered_embedding_search_loop, embedding_search_loop; apply Hloop;
    intros k Hk; unfold R; rewrite <- (knn_prefix emb vs k Hk); [apply sort_by_perm|done].
Qed.
End nearest.

(** ** Concrete engines *)

(** A MATCH that asks for every token of the query to occur in the content,
    all ranked alike. *)
Definition naive_fts (query : string) (contents : gmap MemoryId string) : option (gmap MemoryId f64) :=
  tokens ← parse_strings (bytes query) Outside;
  Some (map_imap (λ _ content,
    if forallb (λ t, like_text (of_bytes t) content) tokens then Some f0 else None) contents).
Definition NaiveFts : Fts := {| fts_match := naive_fts |}.

(** Exhaustive nearest-neighbour search by squared Euclidean distance. *)
Fixpoint squared_distance (a b : list f64) : f64 :=
  match a, b with
  | x :: a, y :: b => fadd (fmul (fsub x y) (fsub x y)) (squared_distance a b)
  | _, _ => f0
  end.
Definition exhaustive_knn (e : list f64) (vs : gmap MemoryId (list f64)) (k : Z) : list VectorHit :=
  truncate k (sort_by cmp_hit
    (map (λ '(id, v), {| vh_memory_id := id; vh_distance := squared_distance e v |}) (map_to_list vs))).
Definition ExhaustiveIndex : VectorIndex := {| knn := exhaustive_knn |}.

Lemma exhaustive_laws : @VectorIndexLaws ExhaustiveIndex.
Proof.
  assert (Hall : ∀ e vs, exhaustive_knn e vs (Z.of_nat (size vs)) = sort_by cmp_hit
    (map (λ '(id, v), {| vh_memory_id := id; vh_distance := squared_distance e v |}) (map_to_list vs))).
  { intros e vs. apply truncate_all. unfold len. rewrite (sort_by_length cmp_hit), length_map, length_map_to_list. lia. }
  split; intros e vs; cbn [knn ExhaustiveIndex]; rewrite ?Hall.
  - rewrite (sort_by_perm cmp_hit), map_map. erewrite map_ext; [reflexivity|by intros [id v]].
  - apply sort_by_sorted. unfold cmp_hit. apply _.
  - intros k Hk. done.
Qed.

#[local] Existing Instances AsciiCase NaiveFts ExhaustiveIndex exhaustive_laws.

(** A public note, a note whose content only ann sees, and a far one. *)
Definition note (content : string) (policy : AccessPolicy.t) (created : DateTime) : MemoryRow :=
  mkRow content [] {| source_agent := Some "ann"; source_conversation := None; origin_conversation := None;
                      source_user := None |} policy created None false MemoryType.Semantic f0 0 None None f0 None
    created f1 0 0 None None.
Definition library : Store :=
  on_vectors (λ _, {[1%N := [f0; f0]; 2%N := [f0; f0]; 3%N := [f1; f1]]})
    (on_memories (λ _, {[1%N := note "red apples" AccessPolicy.Public 10;
                         2%N := note "green apples" (AccessPolicy.Redacted []) 20;
                         3%N := note "Apples and pears" AccessPolicy.Public 30]}) empty_store).
Definition as_bob : QueryContext := {| qc_principal := Some "bob" |}.
Definition found_ids {E} (r : result E (option (list SearchResult) * Store)) : option (list MemoryId) :=
  match r with Ok (Some l, _) => Some (map (λ r, m_id (sr_memory r)) l) | _ => None end.

Lemma text_search_is_reference_witness :
  found_ids (search_by_text_impl "APPLES" 5 unfiltered as_bob 40 library) = Some [3; 1]%N.
Proof.
  pose proof (text_search_is_reference "APPLES" 5 unfiltered as_bob 40 library) as Hsearch. cbn zeta in Hsearch.
  rewrite Hsearch; [|vm_compute; discriminate|vm_compute; discriminate]. vm_compute. reflexivity.
Defined.


Lemma vector_search_nearest_witness :
  validate_embedding_vector [f0; f0] 2 = Ok () ∧
  ∃ results, search_by_embedding_impl 2 [f0; f0] 1 unfiltered as_bob None 40 library = Ok (Some results, library) ∧
             map (λ r, m_id (sr_memory r)) results = [1%N] ∧ len results = 1.
Proof.
  split; [vm_compute; reflexivity|].
  destruct (vector_search_nearest 2 [f0; f0] 1 unfiltered as_bob None 40 library) as (results & Hrun & Hnear);
    [reflexivity|vm_compute; reflexivity|].
  exists results. split; [exact Hrun|].
  assert (Hids : found_ids (search_by_embedding_impl 2 [f0; f0] 1 unfiltered as_bob None 40 library) = Some [1%N])
    by (vm_compute; reflexivity).
  rewrite Hrun in Hids. injection Hids as Hids. split; [exact Hids|]. destruct Hnear as (_ & Hlen & _).
  rewrite Hlen. vm_compute. reflexivity.
Defined.
