(* ===== verification/Stats.v ===== *)
(** * Stats: the statistics of [src/src/store/query.rs]

    [count_with_access_filter] scans what a filter selects page by page and
    counts by tag, label, type and scope what the caller may see. With it
    [count_impl] and the metadata migration report of [src/src/store/admin.rs]. *)
From Stdlib Require Import ZArith Lia.
From stdpp Require Import base list option strings gmap sets pretty sorting.
From S2P Require Import Prelude Text Lists Errors Types Context StoreTypes Store Membership Crud Admin Revisions Operations Vectors Integrity Accounting Query Search.

(** [u64::try_from] of an SQL integer. *)
Definition sqlite_u64 (value : Z) : result StoreError.t Z :=
  if 0 <=? value then Ok value
  else Err (StoreError.Database ("Integer " +:+ pretty value +:+ " out of range at index 0")).

(** [PRAGMA page_count] and [PRAGMA page_size] of the database file. *)
Class SqlitePages := { page_count : Store → Z; page_size : Store → Z }.

Record MemoryStats := {
  ms_total : Z;
  ms_with_embedding : Z;
  ms_without_embedding : Z;
  ms_expired : Z;
  ms_by_tag : list (string * Z);
  ms_by_agent_label : list (string * Z);
  ms_storage_bytes : option Z;
  ms_oldest_memory : option DateTime;
  ms_newest_memory : option DateTime;
  ms_scope_count : Z;
  ms_by_scope : list (string * Z);
  ms_by_memory_type : list (MemoryType.t * Z);
  ms_superseded_count : Z;
}.

(** *** Ordered maps of counts *)

(** The derived order of the enum. *)
Definition memory_type_index (t : MemoryType.t) : N :=
  match t with MemoryType.Semantic => 0 | MemoryType.Episodic => 1 | MemoryType.Procedural => 2 end.
Definition memory_type_of_index (n : N) : option MemoryType.t :=
  match n with 0 => Some MemoryType.Semantic | 1 => Some MemoryType.Episodic | 2 => Some MemoryType.Procedural | _ => None end%N.
#[export] Instance memory_type_countable : Countable MemoryType.t.
Proof. apply (inj_countable memory_type_index memory_type_of_index). by intros []. Defined.
Definition memory_type_cmp : MemoryType.t → MemoryType.t → comparison := cmp_on memory_type_index N.compare.

Section counts.
Context {K : Type} `{Countable K} (cmp : K → K → comparison).

(** [*counts.entry(key).or_insert(0) += 1]. *)
Definition bump (counts : gmap K Z) (key : K) : gmap K Z := partial_alter (λ n, Some (default 0 n + 1)) key counts.
(** [BTreeMap::into_iter]. *)
Definition btree_entries (counts : gmap K Z) : list (K * Z) := sort_by (cmp_on fst cmp) (map_to_list counts).
(** [b.1.cmp(&a.1).then_with(|| a.0.cmp(&b.0))]. *)
Definition most_frequent : K * Z → K * Z → comparison := then_with (cmp_desc (cmp_on snd Z.compare)) (cmp_on fst cmp).
Definition ranked_counts (counts : gmap K Z) : list (K * Z) := sort_by most_frequent (btree_entries counts).
End counts.

(** *** The scan *)

Record StatsScan := {
  ss_total : Z;
  ss_with_embedding : Z;
  ss_tag_counts : gmap string Z;
  ss_agent_counts : gmap string Z;
  ss_memory_type_counts : gmap MemoryType.t Z;
  ss_oldest : option DateTime;
  ss_newest : option DateTime;
  ss_scope_counts : gmap string Z;
  ss_superseded_count : Z;
}.
Definition stats_start : StatsScan :=
  {| ss_total := 0; ss_with_embedding := 0; ss_tag_counts := ∅; ss_agent_counts := ∅; ss_memory_type_counts := ∅;
     ss_oldest := None; ss_newest := None; ss_scope_counts := ∅; ss_superseded_count := 0 |}.

Definition compatibility_scope_label (memory_id : MemoryId) (visible_primary_contexts : gmap MemoryId string)
    (membership_presence : gset MemoryId) : string :=
  match visible_primary_contexts !! memory_id with
  | Some scope => scope
  | None => if bool_decide (memory_id ∈ membership_presence) then "[redacted]" else UNRESOLVED_CONTEXT_KEY
  end.

(** The key of the context a memory has at ordinal 0, when the caller may see
    that context. *)
Definition primary_key_row (s : Store) (caller : option string) (id : MemoryId) : option (MemoryId * string) :=
  context_id ← head (memberships_of s id);
  c ← reg_contexts (st_registry s) !! context_id;
  if context_visible (st_registry s) context_id c (default "" caller) then Some (id, cd_key c) else None.
Definition visible_primary_context_keys (caller : option string) (memory_ids : list MemoryId) : tx (gmap MemoryId string) :=
  if bool_decide (memory_ids = []) then mret ∅
  else reads (λ s, list_to_map (omap (primary_key_row s caller) memory_ids)).
Definition memory_context_membership_presence (memory_ids : list MemoryId) : tx (gset MemoryId) :=
  if bool_decide (memory_ids = []) then mret ∅
  else reads (λ s, list_to_set (List.filter (λ id, negb (bool_decide (memberships_of s id = []))) memory_ids)).

Definition count_memory (label : MemoryId → string) (a : StatsScan) (m : Memory) : StatsScan :=
  {| ss_total := saturating_add (ss_total a) 1;
     ss_with_embedding := if m_has_embedding m then saturating_add (ss_with_embedding a) 1 else ss_with_embedding a;
     ss_tag_counts := fold_left bump (m_tags m) (ss_tag_counts a);
     ss_agent_counts := match source_agent (m_provenance m) with
                        | Some agent => bump (ss_agent_counts a) agent
                        | None => ss_agent_counts a
                        end;
     ss_memory_type_counts := bump (ss_memory_type_counts a) (m_memory_type m);
     ss_oldest := Some (from_option (Z.min (m_created_at m)) (m_created_at m) (ss_oldest a));
     ss_newest := Some (from_option (Z.max (m_created_at m)) (m_created_at m) (ss_newest a));
     ss_scope_counts := if negb (m_was_redacted m)
                        then partial_alter (λ n, Some (saturating_add (default 0 n) 1)) (label (m_id m)) (ss_scope_counts a)
                        else ss_scope_counts a;
     ss_superseded_count := if negb (m_was_redacted m) && is_some (m_superseded_by m)
                            then saturating_add (ss_superseded_count a) 1 else ss_superseded_count a |}.

Definition count_page (caller : option string) (a : StatsScan) (memories : list Memory) : tx (StatsScan * bool) :=
  let memory_ids := map m_id memories in
  visible_primary_contexts ← visible_primary_context_keys caller memory_ids;
  membership_presence ← memory_context_membership_presence memory_ids;
  mret (fold_left (count_memory (λ id, compatibility_scope_label id visible_primary_contexts membership_presence)) memories a, true).

Definition sqlite_storage_bytes `{SqlitePages} : tx (option Z) :=
  count ← reads page_count;
  count ← of_result (sqlite_u64 count);
  size ← reads page_size;
  size ← of_result (sqlite_u64 size);
  mret (Some (saturating_mul count size)).

Definition expired_rows (now : DateTime) (s : Store) : Z :=
  len (List.filter (λ p, match r_expires_at (snd p) with Some expires_at => expires_at <=? now | None => false end)
         (map_to_list (st_memories s))).

(** [None] when the fuel of the scan does not suffice. *)
Definition count_with_access_filter `{UnicodeCase, SqlitePages} (f : MemoryFilter) (caller : option string) (now : DateTime)
    (top_tags_limit : Z) : tx (option MemoryStats) :=
  let cfg := {| sc_filter := f; sc_caller := caller; sc_now := now; sc_page_size := COUNT_PAGE_SIZE |} in
  scan ← paged_scan_loop cfg (λ _, true) false (count_page caller) (scan_fuel COUNT_PAGE_SIZE) 0 stats_start;
  match scan with
  | None => mret None
  | Some a =>
      expired ← reads (expired_rows now);
      expired ← of_result (sqlite_u64 expired);
      storage_bytes ← sqlite_storage_bytes;
      mret (Some {|
        ms_total := ss_total a; ms_with_embedding := ss_with_embedding a;
        ms_without_embedding := ss_total a - ss_with_embedding a; ms_expired := expired;
        ms_by_tag := truncate top_tags_limit (ranked_counts String.compare (ss_tag_counts a));
        ms_by_agent_label := ranked_counts String.compare (ss_agent_counts a);
        ms_storage_bytes := storage_bytes; ms_oldest_memory := ss_oldest a; ms_newest_memory := ss_newest a;
        ms_scope_count := Z.of_nat (size (ss_scope_counts a));
        ms_by_scope := btree_entries String.compare (ss_scope_counts a);
        ms_by_memory_type := ranked_counts memory_type_cmp (ss_memory_type_counts a);
        ms_superseded_count := ss_superseded_count a |})
  end.
Definition count_impl `{UnicodeCase, SqlitePages} (f : MemoryFilter) (ctx : QueryContext) (now : DateTime) (top_tags_limit : Z) :
    tx (option MemoryStats) :=
  count_with_access_filter (normalize_filter f) (qc_principal ctx) now top_tags_limit.

(** *** The metadata migration report *)

Record MetadataMigrationReport := {
  mm_total_memories : Z;
  mm_metadata_rows : Z;
  mm_missing_metadata : Z;
  mm_missing_summary : Z;
  mm_unresolved_scope : Z;
  mm_duplicate_candidates : Z;
  mm_oversized : Z;
  mm_code_derived : Z;
}.

(** [SELECT COUNT( * ) FROM memories … WHERE condition]. *)
Definition count_rows (condition : MemoryId → MemoryRow → bool) (s : Store) : Z :=
  len (List.filter (λ p, condition (fst p) (snd p)) (map_to_list (st_memories s))).
(** The SQL function [trim] removes spaces only. *)
Definition sql_blank (text : string) : bool := forallb (λ c, Ascii.eqb c (byte 32)) (bytes text).
Definition lacks_summary (s : Store) (id : MemoryId) (r : MemoryRow) : bool :=
  match m ← st_metadata s !! id; md_summary m with None => true | Some summary => sql_blank summary end.
Definition unresolved_scope (s : Store) (id : MemoryId) (r : MemoryRow) : bool :=
  match context_id ← head (memberships_of s id); reg_contexts (st_registry s) !! context_id with
  | None => true
  | Some c => String.eqb (cd_key c) UNRESOLVED_CONTEXT_KEY
  end.
(** [GROUP BY content HAVING COUNT( * ) > 1], the sum of [cnt - 1]. *)
Definition contents (s : Store) : list string := map (λ p, r_content (snd p)) (map_to_list (st_memories s)).
Definition occurrences {K} `{EqDecision K} (key : K) (keys : list K) : Z := len (List.filter (λ k, bool_decide (k = key)) keys).
Definition content_groups (s : Store) : list Z :=
  List.filter (λ cnt, 1 <? cnt) (map (λ content, occurrences content (contents s)) (remove_dups (contents s))).
Definition surplus_copies (s : Store) : Z := foldr Z.add 0 (map (λ cnt, cnt - 1) (content_groups s)).
Definition CODE_PATTERNS : list string := ["%```%"; "%fn %"; "%function %"; "%class %"; "%use %;%"].
Definition code_like (r : MemoryRow) : bool := existsb (λ pattern, like (bytes pattern) (bytes (r_content r))) CODE_PATTERNS.

Definition query_count (count : Store → Z) : tx Z := value ← reads count; of_result (sqlite_u64 value).
Definition metadata_migration_report_impl : tx MetadataMigrationReport :=
  total_memories ← query_count (λ s, Z.of_nat (size (st_memories s)));
  metadata_rows ← query_count (λ s, Z.of_nat (size (st_metadata s)));
  let missing_metadata := saturating_sub total_memories metadata_rows in
  missing_summary ← query_count (λ s, count_rows (lacks_summary s) s);
  unresolved ← query_count (λ s, count_rows (unresolved_scope s) s);
  duplicate_candidates ← query_count surplus_copies;
  oversized ← query_count (count_rows (λ _ r, LARGE_CONTENT_WARNING_THRESHOLD_BYTES <? byte_len (r_content r)));
  code_derived ← query_count (count_rows (λ _ r, code_like r));
  mret {| mm_total_memories := total_memories; mm_metadata_rows := metadata_rows; mm_missing_metadata := missing_metadata;
          mm_missing_summary := missing_summary; mm_unresolved_scope := unresolved;
          mm_duplicate_candidates := duplicate_candidates; mm_oversized := oversized; mm_code_derived := code_derived |}.

(** ** Counting *)

Section tally.
Context {K : Type} `{Countable K} (cmp : K → K → comparison).

(** The reference: each key once with how often it occurs. *)
Definition tallied (keys : list K) : list (K * Z) := map (λ k, (k, occurrences k keys)) (remove_dups keys).
Definition tally (keys : list K) : list (K * Z) := sort_by (most_frequent cmp) (tallied keys).
Definition tally_by_key (keys : list K) : list (K * Z) := sort_by (cmp_on fst cmp) (tallied keys).

Lemma occurrences_cons (k k' : K) keys : occurrences k (k' :: keys) = (if decide (k' = k) then 1 else 0) + occurrences k keys.
Proof.
  unfold occurrences. cbn [List.filter]. destruct (decide (k' = k)) as [->|Hk].
  - rewrite bool_decide_eq_true_2 by done. by rewrite len_cons.
  - by rewrite bool_decide_eq_false_2.
Qed.
Lemma occurrences_absent (k : K) keys : k ∉ keys → occurrences k keys = 0.
Proof.
  intros Hk. unfold occurrences. rewrite filter_none; [done|]. intros x Hx. apply bool_decide_eq_false_2. by intros ->.
Qed.
Lemma occurrences_le (k : K) keys : 0 ≤ occurrences k keys ≤ len keys.
Proof. unfold occurrences, len. pose proof (filter_length_le (λ x, bool_decide (x = k)) keys). lia. Qed.
Lemma bump_all keys (m : gmap K Z) k :
  fold_left bump keys m !! k = if decide (k ∈ keys) then Some (default 0 (m !! k) + occurrences k keys) else m !! k.
Proof.
  revert m. induction keys as [|k' keys IH]; intros m; cbn [fold_left]; [done|].
  rewrite IH, occurrences_cons. unfold bump. destruct (decide (k' = k)) as [->|Hk].
  - rewrite lookup_partial_alter_eq. rewrite (decide_True (P := k ∈ k :: keys)) by left.
    case_decide as Hin; f_equal; cbn; [lia|]. rewrite occurrences_absent by done. lia.
  - rewrite lookup_partial_alter_ne by done. case_decide as Hin.
    + by rewrite decide_True by by right.
    + rewrite decide_False; [done|]. by intros [?|]%elem_of_cons.
Qed.
Lemma counts_tallied keys : map_to_list (fold_left bump keys (∅ : gmap K Z)) ≡ₚ tallied keys.
Proof.
  apply NoDup_Permutation.
  - apply NoDup_map_to_list.
  - apply (NoDup_fmap_1 fst). unfold tallied. rewrite map_map. cbn. rewrite map_id. apply NoDup_remove_dups.
  - intros [k n]. rewrite elem_of_map_to_list, bump_all, lookup_empty. unfold tallied. rewrite list_elem_of_fmap.
    setoid_rewrite elem_of_remove_dups. case_decide as Hk; split.
    + intros [= <-]. by exists k.
    + by intros (? & [= -> ->] & _).
    + done.
    + by intros (? & [= -> ->] & ?).
Qed.
Lemma counts_size keys : size (fold_left bump keys (∅ : gmap K Z)) = length (remove_dups keys).
Proof. rewrite <- length_map_to_list, counts_tallied. unfold tallied. by rewrite length_map. Qed.

Context `{!TotalPreorder cmp} (cmp_eq : ∀ x y, cmp x y = Eq → x = y).
Lemma tallied_key keys x y : x ∈ tallied keys → y ∈ tallied keys → fst x = fst y → x = y.
Proof. unfold tallied. rewrite !list_elem_of_fmap. by intros (k & -> & _) (k' & -> & _) [= ->]. Qed.
Lemma btree_tally keys : btree_entries cmp (fold_left bump keys ∅) = tally_by_key keys.
Proof.
  unfold btree_entries, tally_by_key. apply (sort_by_proper _); [apply counts_tallied|]. intros x y. rewrite counts_tallied.
  intros Hx Hy Heq%cmp_eq. by apply (tallied_key keys).
Qed.
Lemma ranked_tally keys : ranked_counts cmp (fold_left bump keys ∅) = tally keys.
Proof.
  unfold ranked_counts, tally. rewrite btree_tally. unfold tally_by_key.
  apply (sort_by_proper _); [by rewrite (sort_by_perm _)|]. intros x y. rewrite !(elem_of_sort_by _). intros Hx Hy.
  unfold most_frequent, then_with. case_match; [|done..]. intros Heq%cmp_eq. by apply (tallied_key keys).
Qed.
End tally.

Lemma memory_type_cmp_eq x y : memory_type_cmp x y = Eq → x = y.
Proof. by destruct x, y. Qed.
#[export] Instance memory_type_cmp_total : TotalPreorder memory_type_cmp.
Proof. unfold memory_type_cmp. typeclasses eauto. Qed.

(** ** The scan as one pass *)

(** The label under which a memory is counted. *)
Definition scope_label (s : Store) (caller : option string) (id : MemoryId) : string :=
  match primary_key_row s caller id with
  | Some row => snd row
  | None => if bool_decide (memberships_of s id = []) then UNRESOLVED_CONTEXT_KEY else "[redacted]"
  end.

Lemma primary_key_row_fst s caller id row : primary_key_row s caller id = Some row → fst row = id.
Proof. unfold primary_key_row. intros (c & _ & (d & _ & Hif)%bind_Some)%bind_Some. case_match; [|done]. by injection Hif as <-. Qed.
Lemma primary_keys_lookup s caller ids id : id ∈ ids →
  (list_to_map (omap (primary_key_row s caller) ids) : gmap MemoryId string) !! id = snd <$> primary_key_row s caller id.
Proof.
  induction ids as [|i ids IH]; [by intros ?%elem_of_nil|]. intros Hin. cbn [omap list_omap].
  destruct (decide (id = i)) as [->|Hne].
  - destruct (primary_key_row s caller i) as [[j key]|] eqn:E; cbn.
    + apply primary_key_row_fst in E as Hj. cbn in Hj. subst j. apply lookup_insert_eq.
    + apply not_elem_of_list_to_map_1. rewrite list_elem_of_fmap. intros ([j key] & -> & (x & _ & Hx)%list_elem_of_omap).
      apply primary_key_row_fst in Hx as Hj. cbn in Hj, E. subst x. congruence.
  - apply elem_of_cons in Hin as [?|Hin]; [done|]. destruct (primary_key_row s caller i) as [[j key]|] eqn:E; [|by apply IH].
    apply primary_key_row_fst in E as Hj. cbn in Hj. subst j. cbn. rewrite lookup_insert_ne by done. by apply IH.
Qed.

Lemma fold_left_ext {A B} (f g : A → B → A) l a : (∀ a b, b ∈ l → f a b = g a b) → fold_left f l a = fold_left g l a.
Proof.
  revert a. induction l as [|b l IH]; intros a Hfg; cbn; [done|]. rewrite Hfg by left. apply IH. intros. apply Hfg. by right.
Qed.
Lemma count_memory_label l l' a m : l (m_id m) = l' (m_id m) → count_memory l a m = count_memory l' a m.
Proof. unfold count_memory. by intros ->. Qed.
Lemma count_page_run caller a page s :
  count_page caller a page s = Ok ((fold_left (count_memory (scope_label s caller)) page a, true), s).
Proof.
  unfold count_page, visible_primary_context_keys, memory_context_membership_presence.
  case_bool_decide as Hn; [by destruct page|]. unfold mbind, tx_bind, reads. cbn. unfold mret, tx_ret. do 3 f_equal.
  apply fold_left_ext. intros a' m Hm. apply count_memory_label. unfold compatibility_scope_label, scope_label.
  assert (Hid : m_id m ∈ map m_id page) by (apply list_elem_of_fmap; eauto).
  rewrite primary_keys_lookup by done. destruct (primary_key_row s caller (m_id m)); [done|]. cbn.
  destruct (decide (memberships_of s (m_id m) = [])) as [E|E].
  - rewrite (bool_decide_eq_true_2 (memberships_of _ _ = [])) by done. rewrite bool_decide_eq_false_2; [done|].
    rewrite elem_of_list_to_set, elem_of_List_filter. intros [_ Hb]. by rewrite bool_decide_eq_true_2 in Hb.
  - rewrite (bool_decide_eq_false_2 (memberships_of _ _ = [])) by done. rewrite bool_decide_eq_true_2; [done|].
    rewrite elem_of_list_to_set, elem_of_List_filter. split; [done|]. by rewrite bool_decide_eq_false_2.
Qed.

Lemma hydrate_same memories s r s' : hydrate_entities_for_memories memories s = Ok (r, s') → s' = s.
Proof. unfold hydrate_entities_for_memories, hydrate_entities_batch. case_bool_decide; intros Hr; inv_tx; done. Qed.
(** The scan depends on what the accumulator does to the tables it is run on. *)
Lemma scan_loop_ext `{UnicodeCase} {A} cfg extra hydrate (acc acc' : A → list Memory → tx (A * bool)) s :
  (∀ a page, acc a page s = acc' a page s) → (∀ a page r s', acc a page s = Ok (r, s') → s' = s) →
  ∀ fuel offset a, paged_scan_loop cfg extra hydrate acc fuel offset a s = paged_scan_loop cfg extra hydrate acc' fuel offset a s.
Proof.
  intros Hacc Hsame. induction fuel as [|fuel IH]; intros offset a; cbn [paged_scan_loop]; [done|].
  unfold mbind, tx_bind. destruct (of_result (usize_to_i64 _ "page_size") s) as [[l s1]|] eqn:E1; [|done].
  apply of_result_Ok in E1 as (? & _ & [= <- ->]).
  destruct (of_result (usize_to_i64 offset _) s) as [[o s1]|] eqn:E2; [|done].
  apply of_result_Ok in E2 as (? & _ & [= <- ->]). cbn.
  match goal with |- context [(if ?b then ?x else ?y) s] => destruct ((if b then x else y) s) as [[rows s1]|] eqn:E3 end; [|done].
  assert (s1 = s) as -> by (destruct (hydrate || _); [by apply hydrate_same in E3|by injection E3]).
  case_bool_decide; [done|]. case_bool_decide; cbn.
  - destruct (len rows <? _); [done|]. destruct (MAX_SCAN_ROWS <=? _); [done|]. apply IH.
  - rewrite <- Hacc. destruct (acc a _ s) as [[[a' continue] s1]|] eqn:E4; [|done]. apply Hsame in E4 as ->.
    destruct continue; cbn; [|done].
    destruct (len rows <? _); [done|]. destruct (MAX_SCAN_ROWS <=? _); [done|]. apply IH.
Qed.

(** ** What the counters hold *)

Section folds.
Context (label : MemoryId → string).
Definition all_tags (vs : list Memory) : list string := concat (map m_tags vs).
Definition all_agents (vs : list Memory) : list string := omap (λ v, source_agent (m_provenance v)) vs.
(** The labels of the memories that are shown in full. *)
Definition all_labels (vs : list Memory) : list string :=
  map (λ v, label (m_id v)) (List.filter (λ v, negb (m_was_redacted v)) vs).
Definition counted_if (p : Memory → bool) (vs : list Memory) : Z := len (List.filter p vs).
Definition shown_superseded (v : Memory) : bool := negb (m_was_redacted v) && is_some (m_superseded_by v).

Lemma counted_cons p v vs : counted_if p (v :: vs) = (if p v then 1 else 0) + counted_if p vs.
Proof. unfold counted_if. cbn. destruct (p v); [by rewrite len_cons|done]. Qed.
Lemma counted_bounds p vs : 0 ≤ counted_if p vs ≤ len vs.
Proof. unfold counted_if, len. pose proof (filter_length_le p vs). lia. Qed.

Let count := fold_left (count_memory label).
Lemma fold_total vs a : 0 ≤ ss_total a → ss_total a + len vs ≤ u64_max → ss_total (count vs a) = ss_total a + len vs.
Proof.
  unfold count. revert a. induction vs as [|v vs IH]; intros a Ha Hb; cbn [fold_left]; [rewrite len_nil; lia|]. rewrite len_cons in *.
  pose proof (len_nonneg vs). rewrite IH; cbn [count_memory ss_total]; unfold saturating_add in *; lia.
Qed.
Lemma fold_embedded vs a : 0 ≤ ss_with_embedding a → ss_with_embedding a + len vs ≤ u64_max →
  ss_with_embedding (count vs a) = ss_with_embedding a + counted_if m_has_embedding vs.
Proof.
  unfold count. revert a. induction vs as [|v vs IH]; intros a Ha Hb; cbn [fold_left]; [unfold counted_if; cbn; rewrite len_nil; lia|].
  rewrite len_cons in *. pose proof (len_nonneg vs). rewrite counted_cons, IH; cbn [count_memory ss_with_embedding];
    unfold saturating_add in *; destruct (m_has_embedding v); lia.
Qed.
Lemma fold_superseded vs a : 0 ≤ ss_superseded_count a → ss_superseded_count a + len vs ≤ u64_max →
  ss_superseded_count (count vs a) = ss_superseded_count a + counted_if shown_superseded vs.
Proof.
  unfold count. revert a. induction vs as [|v vs IH]; intros a Ha Hb; cbn [fold_left]; [unfold counted_if; cbn; rewrite len_nil; lia|].
  rewrite len_cons in *. pose proof (len_nonneg vs). rewrite counted_cons, IH; cbn [count_memory ss_superseded_count];
    unfold saturating_add, shown_superseded in *; destruct (_ && _); lia.
Qed.
Lemma fold_tags vs a : ss_tag_counts (count vs a) = fold_left bump (all_tags vs) (ss_tag_counts a).
Proof.
  unfold count, all_tags. revert a. induction vs as [|v vs IH]; intros a; cbn; [done|]. by rewrite IH, fold_left_app.
Qed.
Lemma fold_agents vs a : ss_agent_counts (count vs a) = fold_left bump (all_agents vs) (ss_agent_counts a).
Proof.
  unfold count, all_agents. revert a. induction vs as [|v vs IH]; intros a; cbn; [done|]. rewrite IH. cbn.
  by destruct (source_agent _).
Qed.
Lemma fold_types vs a : ss_memory_type_counts (count vs a) = fold_left bump (map m_memory_type vs) (ss_memory_type_counts a).
Proof. unfold count. revert a. induction vs as [|v vs IH]; intros a; cbn; [done|]. by rewrite IH. Qed.
Lemma fold_labels vs a : (∀ k, default 0 (ss_scope_counts a !! k) + len vs ≤ u64_max) →
  ss_scope_counts (count vs a) = fold_left bump (all_labels vs) (ss_scope_counts a).
Proof.
  unfold count, all_labels. revert a. induction vs as [|v vs IH]; intros a Hb; cbn [fold_left]; [done|].
  assert (Hl : ∀ k, default 0 (ss_scope_counts a !! k) + 1 + len vs ≤ u64_max) by (intros k; specialize (Hb k); rewrite len_cons in Hb; lia).
  pose proof (len_nonneg vs).
  assert (Hsat : ss_scope_counts (count_memory label a v) = if m_was_redacted v then ss_scope_counts a else bump (ss_scope_counts a) (label (m_id v))).
  { cbn. destruct (m_was_redacted v); [done|]. apply partial_alter_ext. intros x Hx. f_equal. specialize (Hl (label (m_id v))).
    rewrite Hx in Hl. unfold saturating_add. lia. }
  rewrite IH, Hsat; [cbn [List.filter]; by destruct (m_was_redacted v)|].
  intros k. rewrite Hsat. specialize (Hl k). destruct (m_was_redacted v); [lia|]. unfold bump.
  destruct (decide (label (m_id v) = k)) as [->|]; [rewrite lookup_partial_alter_eq; cbn; lia|rewrite lookup_partial_alter_ne by done; lia].
Qed.
(** On memories that come newest first. *)
Lemma fold_times vs a : StronglySorted (λ x y, cmp_newest x y ≠ Gt) vs →
  (∀ o, ss_oldest a = Some o → Forall (λ v, m_created_at v ≤ o) vs) → (∀ n, ss_newest a = Some n → Forall (λ v, m_created_at v ≤ n) vs) →
  ss_oldest (count vs a) = (match last vs with Some v => Some (m_created_at v) | None => ss_oldest a end)
  ∧ ss_newest (count vs a) = (match ss_newest a with Some n => Some n | None => m_created_at <$> head vs end).
Proof.
  unfold count. intros Hs. revert a. induction Hs as [|v vs Hs IH Hv]; intros a Ho Hn; cbn [fold_left].
  { cbn. by destruct (ss_newest a). }
  assert (Hle : Forall (λ w, m_created_at w ≤ m_created_at v) vs).
  { eapply list.Forall_impl; [exact Hv|]. intros w Hw. cbn in Hw. unfold cmp_newest, then_with, cmp_desc, cmp_on in Hw.
    destruct (Z.compare_spec (m_created_at w) (m_created_at v)); [lia|lia|done]. }
  assert (Hold : ss_oldest (count_memory label a v) = Some (m_created_at v)).
  { cbn. f_equal. destruct (ss_oldest a) as [o|]; [|done]. cbn. specialize (Ho o eq_refl). inversion Ho; subst. lia. }
  assert (Hnew : ss_newest (count_memory label a v) = match ss_newest a with Some n => Some n | None => Some (m_created_at v) end).
  { cbn. destruct (ss_newest a) as [n|]; [|done]. cbn. specialize (Hn n eq_refl). inversion Hn; subst. f_equal. lia. }
  destruct (IH (count_memory label a v)) as [IHo IHn].
  - intros o. rewrite Hold. by intros [= <-].
  - intros n. rewrite Hnew. destruct (ss_newest a) as [m|]; intros [= <-]; [|done]. specialize (Hn m eq_refl). by inversion Hn.
  - rewrite IHo, IHn, Hold, Hnew. split; [|by destruct (ss_newest a)]. rewrite last_cons. by destruct (last vs).
Qed.
Lemma count_entities l a v : count_memory label a (with_entities l v) = count_memory label a v.
Proof. reflexivity. Qed.
End folds.

(** ** The statistics against their reference *)

(** The statistics of a list of views, newest first. *)
Definition stats_of (label : MemoryId → string) (expired : Z) (storage_bytes : option Z) (top_tags_limit : Z) (views : list Memory) : MemoryStats :=
  {| ms_total := len views;
     ms_with_embedding := counted_if m_has_embedding views;
     ms_without_embedding := counted_if (λ v, negb (m_has_embedding v)) views;
     ms_expired := expired;
     ms_by_tag := truncate top_tags_limit (tally String.compare (all_tags views));
     ms_by_agent_label := tally String.compare (all_agents views);
     ms_storage_bytes := storage_bytes;
     ms_oldest_memory := m_created_at <$> last views;
     ms_newest_memory := m_created_at <$> head views;
     ms_scope_count := len (remove_dups (all_labels label views));
     ms_by_scope := tally_by_key String.compare (all_labels label views);
     ms_by_memory_type := tally memory_type_cmp (map m_memory_type views);
     ms_superseded_count := counted_if shown_superseded views |}.

Lemma counted_map p (g : Memory → Memory) vs : (∀ v, p (g v) = p v) → counted_if p (map g vs) = counted_if p vs.
Proof.
  intros Hp. induction vs as [|v vs IH]; [done|]. cbn [map]. by rewrite !counted_cons, Hp, IH.
Qed.
Lemma counted_split p vs : counted_if p vs + counted_if (λ v, negb (p v)) vs = len vs.
Proof.
  induction vs as [|v vs IH]; [done|]. rewrite !counted_cons, len_cons. destruct (p v); cbn; lia.
Qed.
Lemma stats_plain label expired storage top vs :
  stats_of label expired storage top (map (with_entities []) vs) = stats_of label expired storage top vs.
Proof.
  assert (Htags : all_tags (map (with_entities []) vs) = all_tags vs) by (unfold all_tags; by rewrite map_map).
  assert (Hagents : all_agents (map (with_entities []) vs) = all_agents vs) by (unfold all_agents; by rewrite omap_map).
  assert (Hlabels : all_labels label (map (with_entities []) vs) = all_labels label vs).
  { clear. unfold all_labels. induction vs as [|v vs IH]; [done|]. cbn. destruct (m_was_redacted v); cbn; [|f_equal]; apply IH. }
  unfold stats_of. rewrite !counted_map by done. rewrite Htags, Hagents, Hlabels, map_map.
  unfold len at 1. rewrite length_map. change (map (with_entities []) vs) with (with_entities [] <$> vs).
  rewrite fmap_last. by destruct (last vs), vs.
Qed.
Lemma stats_ext label expired storage top vs vs' : map (with_entities []) vs = map (with_entities []) vs' →
  stats_of label expired storage top vs = stats_of label expired storage top vs'.
Proof. intros He. by rewrite <- (stats_plain _ _ _ _ vs), He, stats_plain. Qed.

Lemma string_compare_same x y : String.compare x y = Eq → x = y.
Proof. apply String.compare_eq_iff. Qed.

Section statistics.
Context `{UnicodeCase, SqlitePages}.

Definition storage_estimate (s : Store) : Z := saturating_mul (page_count s) (page_size s).

(** The views of the rows the scan covers. *)
Definition scanned (f : MemoryFilter) (caller : option string) (now : DateTime) (s : Store) : list Memory :=
  omap (scan_view {| sc_filter := f; sc_caller := caller; sc_now := now; sc_page_size := COUNT_PAGE_SIZE |} false s)
    (take (Z.to_nat MAX_SCAN_ROWS) (select_memories (λ id r, where_clause f caller now s id r) s)).
Lemma scanned_length f caller now s : len (scanned f caller now s) ≤ MAX_SCAN_ROWS.
Proof.
  unfold scanned, len. pose proof (length_omap (scan_view {| sc_filter := f; sc_caller := caller; sc_now := now; sc_page_size := COUNT_PAGE_SIZE |} false s)
    (take (Z.to_nat MAX_SCAN_ROWS) (select_memories (λ id r, where_clause f caller now s id r) s))) as Hl.
  rewrite length_take in Hl. unfold MAX_SCAN_ROWS in *. lia.
Qed.
Lemma view_keys m f caller now v : apply_access_policy_for_filter m f caller now = Some v →
  m_id v = m_id m ∧ m_created_at v = m_created_at m.
Proof.
  unfold apply_access_policy_for_filter, apply_access_policy. case_match; [done|]. intros (v' & Hv & Hif)%bind_Some.
  repeat case_match; naive_solver.
Qed.
Lemma scanned_sorted f caller now s : StronglySorted (λ x y, cmp_newest x y ≠ Gt) (scanned f caller now s).
Proof.
  unfold scanned. apply (omap_sorted cmp_newest).
  - intros x y x' y' Hx Hy.
    assert (Hk : ∀ x x', scan_view {| sc_filter := f; sc_caller := caller; sc_now := now; sc_page_size := COUNT_PAGE_SIZE |} false s x = Some x' →
      m_id x' = m_id x ∧ m_created_at x' = m_created_at x).
    { intros z z' [Hi Hc]%view_keys. revert Hi Hc. unfold load. by case_match. }
    apply Hk in Hx as [??], Hy as [??]. by apply cmp_newest_keys.
  - apply StronglySorted_app_1_l with (drop (Z.to_nat MAX_SCAN_ROWS) (select_memories (λ id r, where_clause f caller now s id r) s)).
    rewrite take_drop. unfold select_memories. apply (sort_by_sorted cmp_newest).
Qed.
Lemma scan_counts f caller now s :
  paged_scan_loop {| sc_filter := f; sc_caller := caller; sc_now := now; sc_page_size := COUNT_PAGE_SIZE |} (λ _, true) false
    (count_page caller) (scan_fuel COUNT_PAGE_SIZE) 0 stats_start s
  = Ok (Some (fold_left (count_memory (scope_label s caller)) (scanned f caller now s) stats_start), s).
Proof.
  set (cfg := {| sc_filter := f |}). set (label := scope_label s caller).
  assert (Hall : ∀ page a, accumulate_memory_page (λ a m, (count_memory label a m, true)) a page = (fold_left (count_memory label) page a, true)).
  { induction page as [|m page IH]; intros a; cbn; [done|apply IH]. }
  rewrite (scan_loop_ext _ _ _ _ (λ a page, mret (accumulate_memory_page (λ a m, (count_memory label a m, true)) a page))).
  - pose proof (scan_pass cfg (λ _, true) false (λ a m, (count_memory label a m, true)) s (scan_fuel COUNT_PAGE_SIZE) 0 stats_start
      ltac:(done) ltac:(done) ltac:(done)) as Hpass.
    change (0 * sc_page_size cfg) with 0 in Hpass. rewrite Hpass, Hall. by rewrite drop_0.
  - intros a page. rewrite count_page_run, Hall. done.
  - intros a page r s'. rewrite count_page_run. by intros [= <- <-].
Qed.

Lemma sqlite_u64_run n s : 0 ≤ n → of_result (sqlite_u64 n) s = Ok (n, s).
Proof. intros Hn. unfold sqlite_u64. by rewrite (proj2 (Z.leb_le _ _)). Qed.
Lemma storage_run s : 0 ≤ page_count s → 0 ≤ page_size s → sqlite_storage_bytes s = Ok (Some (storage_estimate s), s).
Proof.
  intros Hc Hp. unfold sqlite_storage_bytes. erewrite tx_bind_run by reflexivity. erewrite tx_bind_run by by apply sqlite_u64_run.
  erewrite tx_bind_run by reflexivity. by erewrite tx_bind_run by by apply sqlite_u64_run.
Qed.

(** What is counted, for any number of memories. *)
Lemma count_run f ctx now top s : 0 ≤ page_count s → 0 ≤ page_size s →
  count_impl f ctx now top s
  = Ok (Some (stats_of (scope_label s (qc_principal ctx)) (expired_rows now s) (Some (storage_estimate s)) top
                (scanned (normalize_filter f) (qc_principal ctx) now s)), s).
Proof.
  intros Hc Hp. pose proof (scanned_length (normalize_filter f) (qc_principal ctx) now s) as Hmax.
  pose proof (scanned_sorted (normalize_filter f) (qc_principal ctx) now s) as Hsorted.
  set (vs := scanned _ _ _ _) in *. set (label := scope_label s (qc_principal ctx)).
  assert (Hlen : 0 + len vs ≤ u64_max) by (unfold MAX_SCAN_ROWS, u64_max in *; lia).
  unfold count_impl, count_with_access_filter. erewrite tx_bind_run by apply scan_counts. cbv beta iota. fold vs label.
  erewrite tx_bind_run by reflexivity. erewrite tx_bind_run by (apply sqlite_u64_run, len_nonneg).
  erewrite tx_bind_run by by apply storage_run. unfold mret, tx_ret. do 3 f_equal.
  destruct (fold_times label vs stats_start) as [Hold Hnew]; [done..|].
  unfold stats_of. rewrite fold_total, fold_embedded, fold_superseded, fold_tags, fold_agents, fold_types, fold_labels, Hold, Hnew by done.
  cbn [stats_start ss_total ss_with_embedding ss_tag_counts ss_agent_counts ss_memory_type_counts ss_scope_counts ss_superseded_count ss_oldest ss_newest].
  rewrite !(ranked_tally _ string_compare_same), (ranked_tally _ memory_type_cmp_eq), (btree_tally _ string_compare_same), counts_size.
  f_equal. pose proof (counted_split m_has_embedding vs). lia.
Qed.
(** A scan that reads no entities shows the same, but for the entities. *)
Lemma policy_entities l v v0 caller : apply_access_policy v0 caller = Some v →
  ∃ v', apply_access_policy (with_entities l v) caller = Some v' ∧ with_entities [] v' = with_entities [] v.
Proof.
  intros Hv. assert (Ha : apply_access_policy v caller = Some v) by by eapply apply_policy_again.
  unfold apply_access_policy in Ha |- *. change (check_access_level (with_entities l v) caller) with (check_access_level v caller).
  destruct (check_access_level v caller); [by eexists| |done]. eexists. split; [done|].
  injection Ha as Hr. rewrite <- Hr at 2. unfold with_entities, redacted. cbn. f_equal.
Qed.
Lemma scanned_entities f caller now s (Hsize : Z.of_nat (size (st_memories s)) ≤ MAX_SCAN_ROWS) :
  map (with_entities []) (scanned f caller now s)
  = map (with_entities []) (newest_first (map_imap (shown caller now f s) (st_memories s))).
Proof.
  pose proof (filtered_rows caller now f (λ _, true) s) as Hrows. unfold narrowed in Hrows. cbn [andb] in Hrows.
  change (λ (id : MemoryId) (r : MemoryRow), shown caller now f s id r) with (shown caller now f s) in Hrows.
  rewrite <- Hrows. unfold scanned. rewrite take_ge; [|pose proof (length_select_memories (λ id r, where_clause f caller now s id r) s); lia].
  pose proof (select_memories_plain s (λ id r, where_clause f caller now s id r)) as Hplain.
  assert (Hred : ∀ m, m ∈ select_memories (λ id r, where_clause f caller now s id r) s → m_was_redacted m = false).
  { intros m. unfold select_memories. rewrite (elem_of_sort_by cmp_newest), list_elem_of_omap. intros ([id r] & _ & Hm). case_match; [|done]. by injection Hm as <-. }
  clear Hrows Hsize. induction (select_memories _ s) as [|m rows IH]; [done|]. cbn.
  assert (Hrest : map (with_entities []) (omap (scan_view {| sc_filter := f; sc_caller := caller; sc_now := now; sc_page_size := COUNT_PAGE_SIZE |} false s) rows)
    = map (with_entities []) (omap (λ m, apply_access_policy_for_filter (with_entities (entities_of s (m_id m)) m) f caller now) rows)).
  { apply IH; intros; [apply Hplain|apply Hred]; by right. }
  unfold scan_view at 1, load. cbn. destruct (needs_entity_hydration f) eqn:En.
  - destruct (apply_access_policy_for_filter _ _ _ _); cbn; [by f_equal|done].
  - rewrite (late_hydration _ m) by (done || by apply Hred; left).
    destruct (apply_access_policy_for_filter m f caller now) as [v|] eqn:Hv; cbn; [|done].
    apply filtered_policy_again in Hv. destruct (policy_entities (entities_of s (m_id m)) v v caller Hv) as (v' & -> & Hsame).
    cbn. by f_equal.
Qed.

(** A memory more than the scan limit is not counted. *)
Lemma count_stops_at_the_scan_limit f ctx now top s stats s' : 0 ≤ page_count s → 0 ≤ page_size s →
  count_impl f ctx now top s = Ok (Some stats, s') → ms_total stats ≤ MAX_SCAN_ROWS.
Proof. intros Hc Hp. rewrite count_run by done. intros [= <- <-]. apply scanned_length. Qed.

(** C37. The statistics count what a listing shows. On tables within the scan
    limit the numbers of memories, embedded and superseded ones, of tags,
    labels, types and scopes, the oldest and the newest creation time are
    exactly those of the memories an unlimited listing with the same filter
    shows the caller: each in the caller's view, a redacted one without its
    hidden tags and its scope. Tags, labels and types come most frequent first,
    ties in their order, each once; the tags are cut at the limit, the rest
    is complete. No count overflows, the scan ends, and nothing is written.
    Only the number of expired rows and the size of the file are those of the
    whole store. *)
Theorem count_is_reference f ctx now top s (Hpages : 0 ≤ page_count s ∧ 0 ≤ page_size s)
    (Hsize : Z.of_nat (size (st_memories s)) ≤ MAX_SCAN_ROWS) :
  let caller := qc_principal ctx in
  count_impl f ctx now top s
  = Ok (Some (stats_of (scope_label s caller) (expired_rows now s) (Some (storage_estimate s)) top
                (newest_first (map_imap (shown caller now (normalize_filter f) s) (st_memories s)))), s).
Proof.
  destruct Hpages. cbn zeta. rewrite count_run by done. do 3 f_equal. by apply stats_ext, scanned_entities.
Qed.
End statistics.

Section statistics_witness.
#[local] Existing Instance AsciiCase.
#[local] Instance small_file : SqlitePages := { page_count _ := 12; page_size _ := 4096 }.
Lemma count_is_reference_witness :
  let s := vault "secret" "ann" ["red"; "blue"] in
  0 ≤ page_count s ∧ Z.of_nat (size (st_memories s)) ≤ MAX_SCAN_ROWS ∧
  ∃ stats, count_impl word_search {| qc_principal := Some "ann" |} 30 1 s = Ok (Some stats, s)
    ∧ ms_total stats = 1 ∧ ms_by_tag stats = [("blue", 1)] ∧ ms_by_scope stats = [(UNRESOLVED_CONTEXT_KEY, 1)]
    ∧ ms_storage_bytes stats = Some 49152.
Proof.
  cbn zeta. split; [vm_compute; discriminate|]. split; [vm_compute; discriminate|].
  rewrite (count_is_reference word_search {| qc_principal := Some "ann" |} 30 1 (vault "secret" "ann" ["red"; "blue"]));
    [|split; vm_compute; discriminate|vm_compute; discriminate].
  eexists. split; [reflexivity|]. vm_compute. split_and!; reflexivity.
Defined.
End statistics_witness.

(** ** The migration report *)

Section report.
Context {K : Type} `{EqDecision K}.
Lemma sum_indicator (k : K) ks : NoDup ks → k ∈ ks → foldr Z.add 0 (map (λ k', if decide (k = k') then 1 else 0) ks) = 1.
Proof.
  induction 1 as [|k' ks Hn Hnd IH]; [by intros ?%elem_of_nil|]. cbn. intros [->|Hin]%elem_of_cons.
  - rewrite decide_True by done. assert (H0 : foldr Z.add 0 (map (λ k, if decide (k' = k) then 1 else 0) ks) = 0); [|lia].
    clear -Hn. induction ks as [|x ks IH]; [done|]. cbn. apply not_elem_of_cons in Hn as [Hx Hn]. rewrite decide_False by done. by rewrite IH.
  - rewrite IH by done. rewrite decide_False; [lia|]. by intros ->.
Qed.
Lemma sum_add {A} (f g : A → Z) l : foldr Z.add 0 (map (λ x, f x + g x) l) = foldr Z.add 0 (map f l) + foldr Z.add 0 (map g l).
Proof. induction l as [|x l IH]; cbn; lia. Qed.
Lemma sum_occurrences (ks l : list K) : NoDup ks → (∀ k, k ∈ l → k ∈ ks) →
  foldr Z.add 0 (map (λ k, occurrences k l) ks) = len l.
Proof.
  intros Hnd. induction l as [|x l IH]; intros Hin.
  - clear. induction ks as [|k ks IH]; [done|]. cbn. by rewrite IH.
  - rewrite len_cons, <- IH by (intros; apply Hin; by right). rewrite <- (sum_indicator x ks) at 1 by (done || by apply Hin; left).
    rewrite <- sum_add. f_equal. apply map_ext. intros k. unfold occurrences. cbn [List.filter].
    destruct (decide (x = k)); [rewrite bool_decide_eq_true_2 by done; by rewrite len_cons|by rewrite bool_decide_eq_false_2].
Qed.
Lemma occurrences_pos (k : K) l : k ∈ l → 1 ≤ occurrences k l.
Proof.
  intros Hk. unfold occurrences. assert (Hin : k ∈ List.filter (λ k', bool_decide (k' = k)) l).
  { rewrite elem_of_List_filter. split; [done|]. by apply bool_decide_eq_true_2. }
  destruct (List.filter _ l); [by apply elem_of_nil in Hin|]. rewrite len_cons. pose proof (len_nonneg l0). lia.
Qed.
(** The copies beyond the first of each text. *)
Lemma surplus_sum (l ks : list K) : (∀ k, k ∈ ks → k ∈ l) →
  foldr Z.add 0 (map (λ cnt, cnt - 1) (List.filter (λ cnt, 1 <? cnt) (map (λ k, occurrences k l) ks)))
  = foldr Z.add 0 (map (λ k, occurrences k l) ks) - len ks.
Proof.
  induction ks as [|k ks IH]; intros Hin; [done|]. cbn [map List.filter foldr]. rewrite len_cons.
  pose proof (occurrences_pos k l ltac:(apply Hin; left)). destruct (Z.ltb_spec 1 (occurrences k l)); cbn [map foldr];
    rewrite IH by (intros; apply Hin; by right); lia.
Qed.
End report.

Lemma surplus_is_repeats s : surplus_copies s = Z.of_nat (size (st_memories s)) - len (remove_dups (contents s)).
Proof.
  unfold surplus_copies, content_groups. rewrite surplus_sum by (intros k; by rewrite elem_of_remove_dups).
  rewrite sum_occurrences by (apply NoDup_remove_dups || (intros k; by rewrite elem_of_remove_dups)).
  f_equal. unfold contents, len. by rewrite length_map, length_map_to_list.
Qed.

Section migration_report.
Context `{Render, UnicodeCase, Chrono}.
Lemma missing_rows s : (∀ id, dependents_ok s id) →
  len (List.filter (λ p, is_none (st_metadata s !! fst p)) (map_to_list (st_memories s)))
  = Z.of_nat (size (st_memories s)) - Z.of_nat (size (st_metadata s)).
Proof.
  intros Hok. assert (Hsub : dom (st_metadata s) ⊆ dom (st_memories s)).
  { intros id. rewrite !elem_of_dom. intros [m Hm]. destruct (st_memories s !! id) eqn:E; [done|].
    apply (proj1 (Hok id)) in E as (_ & E & _). congruence. }
  rewrite <- !(size_dom (D := gset MemoryId)). pose proof (size_difference _ _ Hsub) as Hd. pose proof (subseteq_size _ _ Hsub).
  enough (length (List.filter (λ p, is_none (st_metadata s !! fst p)) (map_to_list (st_memories s)))
          = size (dom (st_memories s) ∖ dom (st_metadata s))) as Hl by (unfold len; rewrite Hl; lia).
  rewrite <- (length_map fst), <- (size_list_to_set (C := gset MemoryId)) by (apply NoDup_map_filter, NoDup_fst_map_to_list).
  f_equal. apply set_eq. intros id. rewrite elem_of_list_to_set, elem_of_difference, !elem_of_dom, list_elem_of_fmap. split.
  - intros ([id' r] & -> & [Hin%elem_of_map_to_list Hn]%elem_of_List_filter). cbn in *. split; [eauto|].
    by destruct (st_metadata s !! id'); [|intros []].
  - intros [[r Hr] Hn]. exists (id, r). split; [done|]. rewrite elem_of_List_filter, elem_of_map_to_list. split; [done|]. cbn.
    destruct (st_metadata s !! id); [by destruct Hn|done].
Qed.

Lemma filter_len_le {A} (p q : A → bool) l : (∀ x, p x = true → q x = true) → len (List.filter p l) ≤ len (List.filter q l).
Proof.
  intros Hpq. induction l as [|x l IH]; cbn; [done|]. specialize (Hpq x).
  destruct (p x); [rewrite Hpq by done; rewrite !len_cons; lia|]. destruct (q x); rewrite ?len_cons; lia.
Qed.
Lemma surplus_nonneg s : 0 ≤ surplus_copies s.
Proof.
  unfold surplus_copies, content_groups. induction (map _ (remove_dups _)) as [|n l IH]; cbn; [done|].
  destruct (Z.ltb_spec 1 n); cbn; lia.
Qed.
Lemma query_count_run c s : 0 ≤ c s → query_count c s = Ok (c s, s).
Proof. intros Hc. unfold query_count. erewrite tx_bind_run by reflexivity. by apply sqlite_u64_run. Qed.

(** The report and the dry run of the migration agree: the memories without a
    metadata row are the candidates, the rows there are the ones it skips.
    The duplicates are the memories beyond the first of each content. *)
Theorem migration_report_agrees s (Hok : ∀ id, dependents_ok s id) :
  ∃ report, metadata_migration_report_impl s = Ok (report, s)
    ∧ mm_missing_metadata report = mo_candidate_count (snd (prepare_metadata_migration s))
    ∧ mm_metadata_rows report = mo_skipped_existing (snd (prepare_metadata_migration s))
    ∧ mm_duplicate_candidates report = mm_total_memories report - len (remove_dups (contents s))
    ∧ mm_missing_metadata report ≤ mm_missing_summary report.
Proof.
  unfold metadata_migration_report_impl. rewrite (tx_bind_run _ _ s _ s) by (apply query_count_run; lia).
  rewrite (tx_bind_run _ _ s _ s) by (apply query_count_run; lia). cbv zeta.
  do 2 rewrite (tx_bind_run _ _ s _ s) by (apply query_count_run, len_nonneg).
  rewrite (tx_bind_run _ _ s _ s) by apply query_count_run, surplus_nonneg.
  do 2 rewrite (tx_bind_run _ _ s _ s) by (apply query_count_run, len_nonneg).
  eexists. split; [reflexivity|]. pose proof (missing_rows s Hok) as Hmissing.
  pose proof (len_nonneg (List.filter (λ p, is_none (st_metadata s !! fst p)) (map_to_list (st_memories s)))) as Hnn.
  assert (Hcand : mo_candidate_count (snd (prepare_metadata_migration s)) = Z.of_nat (size (st_memories s)) - Z.of_nat (size (st_metadata s))).
  { cbn. rewrite <- Hmissing. unfold load_metadata_migration_candidates, len. rewrite length_map. by rewrite (sort_by_length cmp_oldest). }
  rewrite Hcand. cbn [mm_missing_metadata mm_metadata_rows mm_duplicate_candidates mm_total_memories mm_missing_summary].
  unfold saturating_sub. split_and!; [lia|done|apply surplus_is_repeats|].
  rewrite Z.max_l by lia. rewrite <- Hmissing. apply filter_len_le. intros [id r]. cbn. unfold lacks_summary.
  by destruct (st_metadata s !! id).
Qed.
End migration_report.
