(* ===== verification/Governance.v ===== *)
(** * Governance: what the administration of contexts preserves

    [context_op] lists the writing operations of ContextAdmin.v and
    LegacyScopes.v. A principal
    changes only contexts that it owns and that are not frozen, its own
    policies and, as operator, the kinds; nothing becomes shared with a
    reserved principal; the identity of a context never changes, and only an
    unused compatibility context ever goes away, by its owner's request. *)
From Stdlib Require Import ZArith Lia.
From stdpp Require Import base list option relations strings gmap sets pretty.
From S2P Require Import Prelude Text Floats Lists Errors Types Validation Context StoreTypes Ranking Store Membership Crud Revisions Operations Integrity ContextAdmin Admin LegacyScopes.

Inductive context_op :=
| CoCreate (d : ContextCreateDraft) (a : ContextAuditDraft) (now : DateTime)
| CoSetParent (id : ContextId) (parent : option ContextId) (p : string) (a : ContextAuditDraft) (now : DateTime)
| CoSetLifecycle (id : ContextId) (l : ContextLifecycle.t) (p : string) (a : ContextAuditDraft) (now : DateTime)
| CoGrant (id : ContextId) (grantee p : string) (a : ContextAuditDraft) (now : DateTime)
| CoRevoke (id : ContextId) (grantee p : string) (a : ContextAuditDraft) (now : DateTime)
| CoReplaceGrants (id : ContextId) (grantees : list string) (p : string) (a : ContextAuditDraft) (now : DateTime)
| CoUpdateDefinition (id : ContextId) (patch : ContextDefinitionPatch) (p : string) (a : ContextAuditDraft) (now : DateTime)
| CoUpsertKind (d : ContextKindDraft) (p : string) (a : ContextAuditDraft) (now : DateTime)
| CoKindPolicy (d : ContextKindPolicyDraft) (p : string) (a : ContextAuditDraft) (now : DateTime)
| CoAnchorPolicy (d : ContextAnchorPolicyDraft) (p : string) (a : ContextAuditDraft) (now : DateTime)
| CoReplaceMemberships (id : MemoryId) (cs : list ContextId) (p : string) (a : ContextAuditDraft) (now : DateTime)
| CoRegisterScope (fresh : nat → ContextId) (scope : ScopeDefinition) (p : string) (now : DateTime)
| CoRollbackLegacy (id : ContextId) (p : string).

Definition co_principal (o : context_op) : string :=
  match o with
  | CoCreate d _ _ => ccd_owner_principal d
  | CoSetParent _ _ p _ _ | CoSetLifecycle _ _ p _ _ | CoGrant _ _ p _ _ | CoRevoke _ _ p _ _
  | CoReplaceGrants _ _ p _ _ | CoUpdateDefinition _ _ p _ _ | CoUpsertKind _ p _ _ | CoKindPolicy _ p _ _
  | CoAnchorPolicy _ p _ _ | CoReplaceMemberships _ _ p _ _ | CoRegisterScope _ _ p _ | CoRollbackLegacy _ p => p
  end.

Section governance.
Context `{Render, UnicodeCase}.

Definition co_tx (o : context_op) : tx unit :=
  match o with
  | CoCreate d a now => forget (create_context_conn d a now)
  | CoSetParent id parent p a now => set_context_parent_conn id parent p a now
  | CoSetLifecycle id l p a now => set_context_lifecycle_conn id l p a now
  | CoGrant id grantee p a now => grant_context_use_conn id grantee p a now
  | CoRevoke id grantee p a now => revoke_context_use id grantee p a now
  | CoReplaceGrants id grantees p a now => replace_context_grants id grantees p a now
  | CoUpdateDefinition id patch p a now => update_context_definition id patch p a now
  | CoUpsertKind d p a now => upsert_context_kind d p a now
  | CoKindPolicy d p a now => upsert_context_kind_policy d p a now
  | CoAnchorPolicy d p a now => upsert_context_anchor_policy d p a now
  | CoReplaceMemberships id cs p a now => forget (replace_memory_contexts_conn id cs p a now)
  | CoRegisterScope fresh scope p now => register_legacy_scope_context fresh scope now p
  | CoRollbackLegacy id p => forget (rollback_unreferenced_legacy_context id p)
  end.
Definition run_context (s : Store) (o : context_op) : Store := snd (with_conn (co_tx o) s).

(** ** Who may change what *)

(** What the tables hold of one context. *)
Definition same_context (g g' : ContextRegistry) (i : ContextId) : Prop :=
  reg_contexts g' !! i = reg_contexts g !! i ∧ (∀ k, reg_grants g' !! (i, k) = reg_grants g !! (i, k))
  ∧ (∀ k, reg_aliases g' !! (i, k) = reg_aliases g !! (i, k))
  ∧ (∀ k, reg_identities g' !! (i, k) = reg_identities g !! (i, k))
  ∧ (∀ k, reg_hints g' !! (i, k) = reg_hints g !! (i, k))
  ∧ (∀ k, reg_relations g' !! (i, k) = reg_relations g !! (i, k)).
Definition same_policies (g g' : ContextRegistry) : Prop :=
  reg_kinds g' = reg_kinds g ∧ reg_kind_policies g' = reg_kind_policies g ∧ reg_anchor_policies g' = reg_anchor_policies g.
(** Nothing becomes shared with a reserved principal. *)
Definition no_new_reserved (g g' : ContextRegistry) : Prop :=
  ∀ i q, is_reserved_principal q = true → reg_grants g !! (i, q) = None → reg_grants g' !! (i, q) = None.

(** Closes a goal about parts of the tables that are left alone. *)
Ltac solve_same := repeat split; first [done | by intros ? ?].

(** Only one context changes. *)
Definition only (id : ContextId) (s s' : Store) : Prop :=
  (∀ i, i ≠ id → same_context (st_registry s) (st_registry s') i) ∧ same_policies (st_registry s) (st_registry s')
  ∧ no_new_reserved (st_registry s) (st_registry s').
#[local] Instance only_preorder id : PreOrder (only id).
Proof.
  split; [intros s; split_and!; [intros i _|..]; solve_same|]. intros s s' s'' (Hc & (Hk & Hp & Ha) & Hn) (Hc' & (Hk' & Hp' & Ha') & Hn'). split_and!.
  - intros i Hi. destruct (Hc i Hi) as (E1&E2&E3&E4&E5&E6), (Hc' i Hi) as (F1&F2&F3&F4&F5&F6).
    split_and!; [congruence|intros k..]; [rewrite F2|rewrite F3|rewrite F4|rewrite F5|rewrite F6]; done.
  - split_and!; congruence.
  - intros i q Hq H1'. by apply Hn', Hn.
Qed.

Definition same_registry (s s' : Store) : Prop := st_registry s = st_registry s'.
#[local] Instance same_registry_preorder : PreOrder same_registry.
Proof. split; [done|]. intros s s' s''. unfold same_registry. congruence. Qed.
Lemma same_only id s s' : same_registry s s' → only id s s'.
Proof. unfold same_registry, only. intros ->. split_and!; [intros i _|..]; solve_same. Qed.
Lemma steps_same_only id {A} (m : tx A) : steps same_registry m → steps (only id) m.
Proof. apply steps_weaken, same_only. Qed.
#[local] Hint Resolve steps_same_only | 10 : steps.

Lemma same_registry_writes (f : Store → Store) : (∀ s, st_registry (f s) = st_registry s) → steps same_registry (writes f).
Proof. intros Hf. apply steps_writes. intros s. unfold same_registry. by rewrite Hf. Qed.
Lemma same_registry_context_audit a c m now : steps same_registry (insert_context_audit a c m now).
Proof. by apply same_registry_writes. Qed.
Lemma same_registry_constraint ok t : steps same_registry (constraint ok t).
Proof. intros s u s' Hs. unfold constraint in Hs. destruct (ok _); by inv_tx. Qed.
#[local] Hint Resolve same_registry_context_audit same_registry_constraint : steps.

Lemma only_contexts id f s : (∀ t i, i ≠ id → f t !! i = t !! i) → only id s (on_contexts f s).
Proof. intros Hf. split_and!; [|solve_same..]. intros i Hi. by split_and!; [apply Hf|..]. Qed.
Lemma only_aliases id f s : (∀ t i k, i ≠ id → f t !! (i, k) = t !! (i, k)) → only id s (on_aliases f s).
Proof. intros Hf. split_and!; [|solve_same..]. intros i Hi. split_and!; try done. intros k. by apply Hf. Qed.
Lemma only_identities id f s : (∀ t i k, i ≠ id → f t !! (i, k) = t !! (i, k)) → only id s (on_identities f s).
Proof. intros Hf. split_and!; [|solve_same..]. intros i Hi. split_and!; try done. intros k. by apply Hf. Qed.
Lemma only_hints id f s : (∀ t i k, i ≠ id → f t !! (i, k) = t !! (i, k)) → only id s (on_hints f s).
Proof. intros Hf. split_and!; [|solve_same..]. intros i Hi. split_and!; try done. intros k. by apply Hf. Qed.
Lemma only_grants id f s : (∀ t i k, i ≠ id → f t !! (i, k) = t !! (i, k)) →
  (∀ t i q, is_reserved_principal q = true → t !! (i, q) = None → f t !! (i, q) = None) → only id s (on_grants f s).
Proof.
  intros Hf Hn. split_and!; [|solve_same|].
  - intros i Hi. split_and!; try done. intros k. by apply Hf.
  - intros i q. apply Hn.
Qed.

Lemma without_context_ne {K V} `{Countable K} (id : ContextId) (m : gmap (ContextId * K) V) (i : ContextId) k :
  i ≠ id → without_context id m !! (i, k) = m !! (i, k).
Proof.
  intros Hi. unfold without_context. apply option_eq. intros v. rewrite map_lookup_filter_Some. naive_solver.
Qed.
Lemma without_context_None {K V} `{Countable K} (id : ContextId) (m : gmap (ContextId * K) V) k :
  m !! k = None → without_context id m !! k = None.
Proof. intros Hk. unfold without_context. apply map_lookup_filter_None. by left. Qed.
Lemma insert_pair_ne {K V} `{Countable K} (m : gmap (ContextId * K) V) (id i : ContextId) k k' v :
  i ≠ id → <[(id, k') := v]> m !! (i, k) = m !! (i, k).
Proof. intros Hi. apply lookup_insert_ne. congruence. Qed.

Lemma only_update id f : steps (only id) (update_context id f).
Proof.
  intros s b s' Hs. unfold update_context in Hs. destruct (reg_contexts _ !! id); inv_tx; [|reflexivity].
  apply only_contexts. intros t i Hi. by rewrite lookup_alter_ne.
Qed.
Lemma only_insert_context c : steps (only (cd_id c)) (insert_context c).
Proof.
  unfold insert_context. steps_tac. apply only_contexts. intros t i Hi. by rewrite lookup_insert_ne.
Qed.
Lemma only_insert_alias id a : steps (only id) (insert_alias id a).
Proof. unfold insert_alias. steps_tac. apply only_aliases. intros. by apply insert_pair_ne. Qed.
Lemma only_insert_identity id owner kind i : steps (only id) (insert_identity id owner kind i).
Proof. unfold insert_identity. steps_tac. apply only_identities. intros. by apply insert_pair_ne. Qed.
Lemma only_insert_hint id h : steps (only id) (insert_hint id h).
Proof. unfold insert_hint. steps_tac. apply only_hints. intros. by apply insert_pair_ne. Qed.
Lemma only_drop_aliases id : steps (only id) (writes (on_aliases (without_context id))).
Proof. apply steps_writes. intros s. apply only_aliases. intros. by apply without_context_ne. Qed.
Lemma only_drop_identities id : steps (only id) (writes (on_identities (without_context id))).
Proof. apply steps_writes. intros s. apply only_identities. intros. by apply without_context_ne. Qed.
Lemma only_drop_hints id : steps (only id) (writes (on_hints (without_context id))).
Proof. apply steps_writes. intros s. apply only_hints. intros. by apply without_context_ne. Qed.
Lemma only_drop_grants id : steps (only id) (writes (on_grants (without_context id))).
Proof.
  apply steps_writes. intros s. apply only_grants; intros; [by apply without_context_ne|by apply without_context_None].
Qed.
Lemma only_delete_grant id q : steps (only id) (writes (on_grants (delete (id, q)))).
Proof.
  apply steps_writes. intros s. apply only_grants; intros.
  - rewrite lookup_delete_ne; [done|congruence].
  - apply lookup_delete_None. by right.
Qed.
Lemma only_put_grant id q v : is_reserved_principal q = false → steps (only id) (writes (on_grants <[(id, q) := v]>)).
Proof.
  intros Hq. apply steps_writes. intros s. apply only_grants; [intros; by apply insert_pair_ne|].
  intros t i q' Hq' Hn. rewrite lookup_insert_ne; [done|congruence].
Qed.
#[local] Hint Resolve only_update only_insert_context only_insert_alias only_insert_identity only_insert_hint
  only_drop_aliases only_drop_identities only_drop_hints only_drop_grants only_delete_grant : steps.

(** A normalized grantee is not reserved. *)
Lemma grantee_not_reserved g g' : normalize_explicit_grantee g = Ok g' → is_reserved_principal g' = false.
Proof.
  unfold normalize_explicit_grantee. destruct (str_is_empty (trim g) || _) eqn:E; [done|].
  intros [= <-]. by apply orb_false_elim in E as [_ ->].
Qed.
Lemma grantees_not_reserved seen l l' :
  normalize_explicit_grantees_from seen l = Ok l' → Forall (λ g, is_reserved_principal g = false) l'.
Proof.
  revert seen l'. induction l as [|g l IH]; intros seen l' Hl; cbn in Hl; [injection Hl as <-; constructor|].
  destruct (normalize_explicit_grantee g) as [g'|] eqn:Hg; cbn in Hl; [|done].
  case_bool_decide; [done|]. destruct (normalize_explicit_grantees_from _ l) as [gs|] eqn:Hgs; cbn in Hl; [|done].
  injection Hl as <-. constructor; [by eapply grantee_not_reserved|by eapply IH].
Qed.

(** The guard of every change of a context. *)
Definition owned_by (p : string) (id : ContextId) (s : Store) : Prop :=
  ∀ c, reg_contexts (st_registry s) !! id = Some c → cd_owner_principal c = p ∧ cd_frozen c = false.
Lemma require_mutable_inv id p s u s' :
  require_mutable_owned_context id p s = Ok (u, s') →
  s' = s ∧ owned_by p id s ∧ is_Some (reg_contexts (st_registry s) !! id).
Proof.
  unfold require_mutable_owned_context, context_owner_state. intros Hs. inv_tx.
  destruct (reg_contexts (st_registry s) !! id) as [c|] eqn:Hc; cbn in Hs; [|done].
  destruct (String.eqb_spec (cd_owner_principal c) p) as [Ho|]; cbn in Hs; [|done]. inv_tx.
  split; [done|]. split; [|by eexists]. intros c' Hc'. by simplify_eq.
Qed.
Lemma same_registry_require id p : steps same_registry (require_mutable_owned_context id p).
Proof. intros s u s' (-> & _)%require_mutable_inv. done. Qed.
#[local] Hint Resolve same_registry_require : steps.

(** The context an operation changes. *)
Definition co_target (o : context_op) : option ContextId :=
  match o with
  | CoCreate d _ _ => Some (ccd_id d)
  | CoSetParent id _ _ _ _ | CoSetLifecycle id _ _ _ _ | CoGrant id _ _ _ _ | CoRevoke id _ _ _ _
  | CoReplaceGrants id _ _ _ _ | CoUpdateDefinition id _ _ _ _ => Some id
  | _ => None
  end.

Lemma only_create d a now : steps (only (ccd_id d)) (create_context_conn d a now).
Proof.
  unfold create_context_conn, context_use_allowed. change (ccd_id d) with (cd_id (created_context d now)) at 1. steps_tac.
Qed.
Lemma only_set_parent id parent p a now : steps (only id) (set_context_parent_conn id parent p a now).
Proof. unfold set_context_parent_conn, context_use_allowed. steps_tac. Qed.
Lemma only_set_lifecycle id l p a now : steps (only id) (set_context_lifecycle_conn id l p a now).
Proof. unfold set_context_lifecycle_conn. steps_tac. Qed.
Lemma only_grant id g p a now : steps (only id) (grant_context_use_conn id g p a now).
Proof.
  unfold grant_context_use_conn. intros s u s' Hs.
  apply tx_bind_Ok in Hs as (? & ? & (? & _ & [= -> ->])%of_result_Ok & Hs).
  apply tx_bind_Ok in Hs as (? & ? & (g' & Hg%grantee_not_reserved & [= -> ->])%of_result_Ok & Hs).
  pose proof (only_put_grant id g' (granted id p now g') Hg).
  refine ((_ : steps (only id) _) _ _ _ Hs). steps_tac.
Qed.
Lemma only_revoke id g p a now : steps (only id) (revoke_context_use id g p a now).
Proof. unfold revoke_context_use. steps_tac. Qed.
Lemma only_replace_grants id gs p a now : steps (only id) (replace_context_grants id gs p a now).
Proof.
  unfold replace_context_grants. intros s u s' Hs. apply tx_bind_Ok in Hs as (l & s1 & Hl & Hs).
  apply of_result_Ok in Hl as (l' & Hl & [= -> ->]). apply grantees_not_reserved in Hl.
  revert s u s' Hs. change (steps (only id) (_ ← of_result (validate_audit_actor a p); _ ← require_mutable_owned_context id p;
    _ ← writes (on_grants (without_context id)); _ ← tx_fold (λ _, insert_grant id p now) () l'; insert_context_audit a (Some id) None now)).
  do 3 (apply steps_bind; [typeclasses eauto|eauto with steps typeclass_instances|intros _]).
  apply steps_bind; [typeclasses eauto| |intros _; eauto with steps typeclass_instances].
  apply steps_fold_in; [typeclasses eauto|]. intros ? g Hg. rewrite list.Forall_forall in Hl. specialize (Hl g Hg).
  unfold insert_grant. apply steps_bind; [typeclasses eauto|eauto with steps typeclass_instances|intros _]. by apply only_put_grant.
Qed.
Lemma only_update_definition id patch p a now : steps (only id) (update_context_definition id patch p a now).
Proof. unfold update_context_definition. steps_tac. Qed.

Lemma owned_update id p s u s' (k : tx unit) :
  (_ ← require_mutable_owned_context id p; k) s = Ok (u, s') → owned_by p id s.
Proof. intros (u' & s1 & (-> & Ho & _)%require_mutable_inv & _)%tx_bind_Ok. done. Qed.

Lemma some_context_None reg (q : ContextId → ContextDefinition → bool) i c :
  some_context reg q = false → reg_contexts reg !! i = Some c → q i c = false.
Proof.
  unfold some_context. intros Hs Hc. apply not_true_iff_false. intros Hq. apply not_true_iff_false in Hs. apply Hs.
  apply existsb_exists. exists (i, c). split; [|done]. by apply list_elem_of_In, elem_of_map_to_list.
Qed.

(** What a successful creation has checked, and its writes. *)
Record create_checks (d : ContextCreateDraft) (s : Store) : Prop := {
  cc_kind : ∃ k, reg_kinds (st_registry s) !! ContextKind.as_str (ccd_kind d) = Some k ∧ ckd_enabled k = true;
  cc_parent : ∀ p, ccd_parent_id d = Some p → context_usable (st_registry s) p (ccd_owner_principal d) true = true;
  cc_fresh : duplicate_context (st_registry s) d = false;
  cc_exact : exact_key_or_alias (st_registry s) d = false }.
Definition create_writes (d : ContextCreateDraft) (a : ContextAuditDraft) (now : DateTime) : tx unit :=
  _ ← insert_context (created_context d now);
  _ ← tx_fold (λ _, insert_alias (ccd_id d)) () (ccd_aliases d);
  _ ← tx_fold (λ _, insert_identity (ccd_id d) (ccd_owner_principal d) (ccd_kind d)) () (ccd_identities d);
  _ ← tx_fold (λ _, insert_hint (ccd_id d)) () (new_hints ∅ (ccd_resolver_hints d));
  insert_context_audit a (Some (ccd_id d)) None now.
Lemma create_inv d a now s c s' :
  create_context_conn d a now s = Ok (c, s') →
  validate_create_draft d a = Ok () ∧ create_checks d s ∧ create_writes d a now s = Ok ((), s').
Proof.
  unfold create_context_conn. intros Hs. apply tx_bind_Ok in Hs as (v & s0 & Hv & Hs).
  apply of_result_Ok in Hv as (v' & Hv & [= -> ->]). destruct v'.
  apply tx_bind_Ok in Hs as (row & s0 & [= -> ->]%reads_Ok & Hs).
  apply tx_bind_Ok in Hs as (enabled & s1 & Hk & Hs).
  assert (∃ k, reg_kinds (st_registry s) !! ContextKind.as_str (ccd_kind d) = Some k ∧ enabled = ckd_enabled k ∧ s1 = s)
    as (k & Hrow & -> & ->).
  { destruct (reg_kinds _ !! _) as [k|]; [|done]. inv_tx. by exists k. }
  apply tx_bind_Ok in Hs as (? & s1 & [Hen [= -> ->]]%throw_if_Ok & Hs). apply negb_false_iff in Hen.
  apply tx_bind_Ok in Hs as (? & s1 & Hp & Hs).
  assert (s1 = s ∧ ∀ p, ccd_parent_id d = Some p → context_usable (st_registry s) p (ccd_owner_principal d) true = true)
    as [-> Hparent].
  { destruct (ccd_parent_id d) as [p|]; cbn in Hp; [|by inv_tx]. unfold context_use_allowed in Hp. inv_tx.
    split; [done|]. intros p' [= <-]. by apply negb_false_iff. }
  apply tx_bind_Ok in Hs as (exact & s1 & [= -> ->]%reads_Ok & Hs).
  apply tx_bind_Ok in Hs as (? & s1 & [Hexact [= -> ->]]%throw_if_Ok & Hs). apply orb_false_elim in Hexact as [Hexact _].
  apply tx_bind_Ok in Hs as (ex & s1 & [= -> ->]%reads_Ok & Hs).
  apply tx_bind_Ok in Hs as (? & s1 & (? & _ & [= -> ->])%of_result_Ok & Hs).
  apply tx_bind_Ok in Hs as (dup & s1 & [= -> ->]%reads_Ok & Hs).
  apply tx_bind_Ok in Hs as (? & s1 & [Hdup [= -> ->]]%throw_if_Ok & Hs).
  split; [done|]. split; [by split; eauto|]. unfold create_writes. cbv zeta in Hs.
  inv_tx. repeat (erewrite tx_bind_run by eassumption). done.
Qed.
Lemma create_fresh d s : duplicate_context (st_registry s) d = false → reg_contexts (st_registry s) !! ccd_id d = None.
Proof.
  intros Hdup. apply eq_None_not_Some. intros [c Hc]. pose proof (some_context_None _ _ _ c Hdup Hc) as Hf. cbn in Hf.
  by rewrite bool_decide_eq_true_2 in Hf.
Qed.

(** An operation that succeeds on a context is its owner's, or new. *)
Lemma target_owned o id s u s' :
  co_target o = Some id → co_tx o s = Ok (u, s') → owned_by (co_principal o) id s.
Proof.
  destruct o; intros [= <-] Hs; cbn [co_tx co_principal] in *.
  - intros c Hc. unfold forget in Hs. apply tx_bind_Ok in Hs as (c' & s1 & (_ & Hchecks & _)%create_inv & _).
    by rewrite (create_fresh d s (cc_fresh _ _ Hchecks)) in Hc.
  - unfold set_context_parent_conn in Hs. apply tx_bind_Ok in Hs as (? & ? & (? & _ & [= -> ->])%of_result_Ok & Hs).
    by eapply owned_update.
  - unfold set_context_lifecycle_conn in Hs. apply tx_bind_Ok in Hs as (? & ? & (? & _ & [= -> ->])%of_result_Ok & Hs).
    by eapply owned_update.
  - unfold grant_context_use_conn in Hs. do 2 (apply tx_bind_Ok in Hs as (? & ? & (? & _ & [= -> ->])%of_result_Ok & Hs)).
    by eapply owned_update.
  - unfold revoke_context_use in Hs. do 2 (apply tx_bind_Ok in Hs as (? & ? & (? & _ & [= -> ->])%of_result_Ok & Hs)).
    by eapply owned_update.
  - unfold replace_context_grants in Hs. do 2 (apply tx_bind_Ok in Hs as (? & ? & (? & _ & [= -> ->])%of_result_Ok & Hs)).
    by eapply owned_update.
  - unfold update_context_definition in Hs. do 5 (apply tx_bind_Ok in Hs as (? & ? & (? & _ & [= -> ->])%of_result_Ok & Hs)).
    by eapply owned_update.
Qed.
Lemma target_only o id : co_target o = Some id → steps (only id) (co_tx o).
Proof.
  destruct o; intros [= <-]; cbn [co_tx];
    [ apply steps_forget; [typeclasses eauto|apply only_create] | apply only_set_parent | apply only_set_lifecycle
    | apply only_grant | apply only_revoke | apply only_replace_grants | apply only_update_definition ].
Qed.

(** What never changes of a context. *)
Definition stable (c c' : ContextDefinition) : Prop :=
  cd_id c' = cd_id c ∧ cd_owner_principal c' = cd_owner_principal c ∧ cd_kind c' = cd_kind c ∧ cd_key c' = cd_key c
  ∧ cd_frozen c' = cd_frozen c ∧ cd_created_at c' = cd_created_at c.
Definition keeps_identity (s s' : Store) : Prop :=
  ∀ i c, reg_contexts (st_registry s) !! i = Some c → ∃ c', reg_contexts (st_registry s') !! i = Some c' ∧ stable c c'.
#[local] Instance keeps_identity_preorder : PreOrder keeps_identity.
Proof.
  split; [intros s i c Hc; by exists c|]. intros s s' s'' H1' H2' i c Hc.
  destruct (H1' i c Hc) as (c' & Hc' & Hs). destruct (H2' i c' Hc') as (c'' & Hc'' & Hs'). exists c''. split; [done|].
  unfold stable in *. destruct_and!. split_and!; congruence.
Qed.
Lemma same_contexts_identity s s' :
  reg_contexts (st_registry s) = reg_contexts (st_registry s') → keeps_identity s s'.
Proof. intros Hs i c Hc. exists c. by rewrite <- Hs. Qed.
Lemma same_registry_identity s s' : same_registry s s' → keeps_identity s s'.
Proof. unfold same_registry. intros Hs. apply same_contexts_identity. by rewrite Hs. Qed.
Lemma steps_same_identity {A} (m : tx A) : steps same_registry m → steps keeps_identity m.
Proof. apply steps_weaken, same_registry_identity. Qed.
#[local] Hint Resolve steps_same_identity | 10 : steps.
Lemma identity_writes (f : Store → Store) :
  (∀ s, reg_contexts (st_registry (f s)) = reg_contexts (st_registry s)) → steps keeps_identity (writes f).
Proof. intros Hf. apply steps_writes. intros s. by apply same_contexts_identity. Qed.
Lemma identity_update id f : (∀ c, stable c (f c)) → steps keeps_identity (update_context id f).
Proof.
  intros Hf s b s' Hs i c Hc. unfold update_context in Hs. destruct (reg_contexts _ !! id) eqn:E; inv_tx; [|by exists c].
  cbn. destruct (decide (i = id)) as [->|]; [rewrite lookup_alter_eq, Hc; cbn; eauto|].
  rewrite lookup_alter_ne by done. by exists c.
Qed.
Lemma identity_insert_context c : steps keeps_identity (insert_context c).
Proof.
  intros s u s' Hs i c0 Hc. unfold insert_context in Hs. apply tx_bind_Ok in Hs as (? & s1 & Hok & Hs).
  unfold constraint in Hok. destruct (context_constraints c (st_registry s)) eqn:E; [|done]. inv_tx.
  unfold context_constraints in E. rewrite !andb_true_iff in E. destruct E as [[[E _] _] _].
  destruct (reg_contexts (st_registry s1) !! cd_id c) eqn:Hn; [done|]. cbn. rewrite lookup_insert_ne by congruence. by exists c0.
Qed.
Lemma identity_update_parent id parent now : steps keeps_identity (update_context id (set_parent parent now)).
Proof. by apply identity_update. Qed.
Lemma identity_update_lifecycle id l now : steps keeps_identity (update_context id (set_lifecycle l now)).
Proof. by apply identity_update. Qed.
Lemma identity_update_texts id n d g now : steps keeps_identity (update_context id (set_texts n d g now)).
Proof. by apply identity_update. Qed.
Lemma identity_grants f : steps keeps_identity (writes (on_grants f)).
Proof. by apply identity_writes. Qed.
Lemma identity_aliases f : steps keeps_identity (writes (on_aliases f)).
Proof. by apply identity_writes. Qed.
Lemma identity_identities f : steps keeps_identity (writes (on_identities f)).
Proof. by apply identity_writes. Qed.
Lemma identity_hints f : steps keeps_identity (writes (on_hints f)).
Proof. by apply identity_writes. Qed.
Lemma identity_kinds f : steps keeps_identity (writes (on_kinds f)).
Proof. by apply identity_writes. Qed.
Lemma identity_kind_policies f : steps keeps_identity (writes (on_kind_policies f)).
Proof. by apply identity_writes. Qed.
Lemma identity_anchor_policies f : steps keeps_identity (writes (on_anchor_policies f)).
Proof. by apply identity_writes. Qed.
#[local] Hint Resolve identity_insert_context identity_update_parent identity_update_lifecycle identity_update_texts
  identity_grants identity_aliases identity_identities identity_hints identity_kinds identity_kind_policies
  identity_anchor_policies : steps.

Lemma same_registry_row id f : steps same_registry (update_row id f).
Proof. intros s b s' Hs. unfold update_row in Hs. destruct (st_memories s !! id); by inv_tx. Qed.
Lemma same_registry_membership id row : steps same_registry (insert_membership id row).
Proof. intros s u s' Hs. unfold insert_membership in Hs. destruct (bool_decide _); by inv_tx. Qed.
Lemma same_registry_scope l : steps same_registry (primary_scope l).
Proof.
  intros s u s' Hs. unfold primary_scope in Hs. destruct l as [|c l]; [by inv_tx|].
  destruct (reg_contexts (st_registry s) !! c); by inv_tx.
Qed.
Lemma same_registry_memberships f : steps same_registry (writes (on_memberships f)).
Proof. by apply same_registry_writes. Qed.
Lemma same_registry_metadata f : steps same_registry (writes (on_metadata f)).
Proof. by apply same_registry_writes. Qed.
#[local] Hint Resolve same_registry_row same_registry_membership same_registry_scope same_registry_memberships
  same_registry_metadata : steps.
Lemma same_registry_default kind policy p : steps same_registry (validate_policy_default_sqlite kind policy p).
Proof. unfold validate_policy_default_sqlite, context_use_allowed. steps_tac. Qed.
Lemma same_registry_replace_memberships id cs p a now : steps same_registry (replace_memory_contexts_conn id cs p a now).
Proof.
  unfold replace_memory_contexts_conn, fetch_memory_by_id, require_usable, context_use_allowed, rewrite_memberships,
    rewrite_scope. steps_tac.
Qed.
#[local] Hint Resolve same_registry_default same_registry_replace_memberships : steps.

Lemma identity_update_described id n d now : steps keeps_identity (update_context id (described n d now)).
Proof. by apply identity_update. Qed.
Lemma identity_relations f : steps keeps_identity (writes (on_relations f)).
Proof. by apply identity_writes. Qed.
#[local] Hint Resolve identity_update_described identity_relations : steps.
Lemma identity_ensure fresh key n d p now : steps keeps_identity (ensure_private_legacy_scope_context fresh key n d p now).
Proof. unfold ensure_private_legacy_scope_context. steps_tac. Qed.
#[local] Hint Resolve identity_ensure : steps.

Lemma op_keeps_identity o : match o with CoRollbackLegacy _ _ => True | _ => steps keeps_identity (co_tx o) end.
Proof.
  destruct o; cbn [co_tx]; try (apply (steps_forget _));
    [ unfold create_context_conn, context_use_allowed, insert_alias, insert_identity, insert_hint
    | unfold set_context_parent_conn, context_use_allowed | unfold set_context_lifecycle_conn
    | unfold grant_context_use_conn | unfold revoke_context_use | unfold replace_context_grants, insert_grant
    | unfold update_context_definition, insert_alias, insert_identity, insert_hint
    | unfold upsert_context_kind, require_operator | unfold upsert_context_kind_policy, stored_policy_principal, require_operator
    | unfold upsert_context_anchor_policy, context_use_allowed, validate_anchor_kind |
    | unfold register_legacy_scope_context, relate, insert_relation, insert_alias, insert_hint | done ]; steps_tac.
Qed.

(** What a principal that is not entitled to it leaves alone. *)
Record respects (p : string) (s s' : Store) : Prop := {
  rs_contexts : ∀ i c, reg_contexts (st_registry s) !! i = Some c → cd_owner_principal c ≠ p ∨ cd_frozen c = true →
                same_context (st_registry s) (st_registry s') i;
  rs_kinds : p ≠ OPERATOR_PRINCIPAL → reg_kinds (st_registry s') = reg_kinds (st_registry s);
  rs_operator_policies : p ≠ OPERATOR_PRINCIPAL → ∀ q k,
                reg_kind_policies (st_registry s') !! ("operator", q, k) = reg_kind_policies (st_registry s) !! ("operator", q, k);
  rs_policies : ∀ q k, q ≠ p →
                reg_kind_policies (st_registry s') !! ("principal", q, k) = reg_kind_policies (st_registry s) !! ("principal", q, k);
  rs_anchors : ∀ i q, q ≠ p → reg_anchor_policies (st_registry s') !! (i, q) = reg_anchor_policies (st_registry s) !! (i, q);
  rs_reserved : no_new_reserved (st_registry s) (st_registry s') }.

Lemma same_context_refl g i : same_context g g i.
Proof. repeat split. Qed.
Lemma only_respects id p s s' : only id s s' → owned_by p id s → respects p s s'.
Proof.
  intros (Hc & (Hk & Hkp & Ha) & Hn) Ho. split; try congruence; [|done].
  intros i c Hi Hnot. destruct (decide (i = id)) as [->|]; [|by apply Hc].
  destruct (Ho c Hi) as [H1' H2']. destruct Hnot; congruence.
Qed.
Lemma same_respects p s s' : same_registry s s' → respects p s s'.
Proof. unfold same_registry. intros E. split; rewrite <- E; first [done | by intros ? ? | intros; apply same_context_refl]. Qed.

Lemma audit_run a c m now s u s' : insert_context_audit a c m now s = Ok (u, s') → st_registry s' = st_registry s.
Proof. unfold insert_context_audit. intros Hs. by inv_tx. Qed.

Ltac respects_tac := split; match goal with Hreg : st_registry _ = _ |- _ => rewrite Hreg end; cbn;
  first [done | by intros ? ? | intros; by apply lookup_insert_ne; congruence | intros; apply same_context_refl].

Lemma default_run kind policy p s u s' :
  validate_policy_default_sqlite kind policy p s = Ok (u, s') → st_registry s' = st_registry s.
Proof. intros Hs. symmetry. by refine ((_ : steps same_registry _) _ _ _ Hs); eauto with steps. Qed.

Lemma kind_respects d p a now s u s' : upsert_context_kind d p a now s = Ok (u, s') → respects p s s'.
Proof.
  unfold upsert_context_kind, require_operator. intros Hs. inv_tx. apply audit_run in Hs.
  match goal with Hp : negb (String.eqb p _) = false |- _ => apply negb_false_iff, String.eqb_eq in Hp end. respects_tac.
Qed.
Lemma kind_policy_respects d p a now s u s' : upsert_context_kind_policy d p a now s = Ok (u, s') → respects p s s'.
Proof.
  unfold upsert_context_kind_policy, stored_policy_principal, require_operator. intros Hs. inv_tx.
  destruct (kpd_layer d); inv_tx; apply audit_run in Hs;
    match goal with Hd : validate_policy_default_sqlite _ _ _ _ = _ |- _ => apply default_run in Hd; cbn in Hs; rewrite Hd in Hs end;
    cbn in Hs.
  - match goal with Hp : negb (String.eqb p _) = false |- _ => apply negb_false_iff, String.eqb_eq in Hp end. respects_tac.
  - respects_tac.
Qed.
Lemma same_registry_anchor_kind p kv : steps same_registry (validate_anchor_kind p kv).
Proof. unfold validate_anchor_kind. steps_tac. Qed.
#[local] Hint Resolve same_registry_anchor_kind : steps.

Lemma anchor_policy_respects d p a now s u s' : upsert_context_anchor_policy d p a now s = Ok (u, s') → respects p s s'.
Proof.
  unfold upsert_context_anchor_policy, context_use_allowed. intros Hs.
  apply tx_bind_Ok in Hs as (? & ? & (? & _ & [= -> ->])%of_result_Ok & Hs).
  apply tx_bind_Ok in Hs as (? & ? & [_ [= -> ->]]%throw_if_Ok & Hs).
  apply tx_bind_Ok in Hs as (? & ? & (? & _ & [= -> ->])%of_result_Ok & Hs).
  apply tx_bind_Ok in Hs as (? & ? & [= -> ->]%reads_Ok & Hs).
  apply tx_bind_Ok in Hs as (? & ? & [_ [= -> ->]]%throw_if_Ok & Hs).
  apply tx_bind_Ok in Hs as (? & s1 & Hf & Hs).
  assert (E1 : same_registry s s1) by (refine ((_ : steps same_registry _) _ _ _ Hf); steps_tac).
  apply tx_bind_Ok in Hs as (? & s2 & Hok & Hs). unfold constraint in Hok.
  destruct (context_exists _ _); [|done]. injection Hok as _ <-.
  apply tx_bind_Ok in Hs as (? & s3 & [= -> ->]%writes_Ok & Hs). apply audit_run in Hs. cbn in Hs. rewrite <- E1 in Hs.
  respects_tac.
Qed.

(** *** Legacy scopes *)

Lemma same_context_trans g g' g'' i : same_context g g' i → same_context g' g'' i → same_context g g'' i.
Proof.
  intros (E1&E2&E3&E4&E5&E6) (F1&F2&F3&F4&F5&F6).
  split_and!; [congruence|intros k..]; [rewrite F2|rewrite F3|rewrite F4|rewrite F5|rewrite F6]; done.
Qed.
#[local] Instance respects_preorder p : PreOrder (respects p).
Proof.
  split; [intros s; by apply same_respects|]. intros s s' s'' [R1 R2 R3 R4 R5 R6] [S1 S2 S3 S4 S5 S6]. split.
  - intros i c Hc Hn. pose proof (R1 i c Hc Hn) as Hsame. eapply same_context_trans; [exact Hsame|]. apply (S1 i c); [|done].
    destruct Hsame as [E _]. by rewrite E.
  - intros Hp. by rewrite S2, R2.
  - intros Hp q k. by rewrite S3, R3.
  - intros q k Hq. by rewrite S4, R4.
  - intros i q Hq. by rewrite S5, R5.
  - intros i q Hq Hg. apply S6, R6; done.
Qed.
(** What one operation of a principal leaves alone, and the contexts it goes on
    owning meanwhile. *)
Definition within (p : string) (s s' : Store) : Prop := respects p s s' ∧ keeps_identity s s'.
#[local] Instance within_preorder p : PreOrder (within p).
Proof.
  split; [intros s; split; reflexivity|]. intros s s' s'' [R K] [R' K']. split; [by transitivity s'|by transitivity s'].
Qed.
Definition owns (p : string) (id : ContextId) (s : Store) : Prop :=
  ∃ c, reg_contexts (st_registry s) !! id = Some c ∧ cd_owner_principal c = p ∧ cd_frozen c = false ∧ cd_kind c = ContextKind.custom.
Lemma owns_kept p id s s' : keeps_identity s s' → owns p id s → owns p id s'.
Proof.
  intros Hk (c & Hc & Ho & Hf & Hkind). destruct (Hk id c Hc) as (c' & Hc' & _ & Ho' & Hk' & _ & Hf' & _).
  exists c'. split_and!; [done|congruence..].
Qed.
Lemma owns_owned p id s : owns p id s → owned_by p id s.
Proof. intros (c & Hc & Ho & Hf & _) c' Hc'. by simplify_eq. Qed.
Lemma own_step {A} (m : tx A) p id s a s' :
  steps (only id) m → steps keeps_identity m → owns p id s → m s = Ok (a, s') → within p s s'.
Proof. intros Hm Hk Ho Hs. split; [|by eapply Hk]. eapply only_respects; [by eapply Hm|by apply owns_owned]. Qed.
Lemma same_within p s s' : same_registry s s' → within p s s'.
Proof. intros Hs. split; [by apply same_respects|by apply same_registry_identity]. Qed.

Lemma head_filter {A} (f : A → bool) l x : head (List.filter f l) = Some x → x ∈ l ∧ f x = true.
Proof.
  intros Hx. apply elem_of_List_filter. destruct (List.filter f l); [done|]. injection Hx as ->. left.
Qed.
Lemma owned_custom_spec reg p normalized id c : owned_custom reg p normalized = Some (id, c) →
  reg_contexts reg !! id = Some c ∧ cd_owner_principal c = p ∧ cd_kind c = ContextKind.custom.
Proof.
  intros [Hin%elem_of_map_to_list Hf]%head_filter. unfold same_owner_key, same_kind in Hf. cbn in Hf.
  apply andb_prop in Hf as [[Ho%String.eqb_eq Hk%bool_decide_eq_true]%andb_prop _]. done.
Qed.
Lemma only_update_described id n d now : steps (only id) (update_context id (described n d now)).
Proof. apply only_update. Qed.
Lemma ensure_run fresh key n d p now s id s' :
  ensure_private_legacy_scope_context fresh key n d p now s = Ok (id, s') → within p s s' ∧ owns p id s'.
Proof.
  intros Hs. assert (Hk : keeps_identity s s') by by eapply identity_ensure.
  unfold ensure_private_legacy_scope_context in Hs.
  apply tx_bind_Ok in Hs as (? & ? & [_ [= -> ->]]%throw_if_Ok & Hs).
  apply tx_bind_Ok in Hs as (existing & ? & [= -> ->]%reads_Ok & Hs).
  destruct (owned_custom _ _ _) as [[id' c]|] eqn:Hown.
  - apply owned_custom_spec in Hown as (Hc & Ho & Hkind).
    apply tx_bind_Ok in Hs as (? & ? & [[Hfr _]%orb_false_elim [= -> ->]]%throw_if_Ok & Hs).
    apply tx_bind_Ok in Hs as (? & ? & [_ [= -> ->]]%throw_if_Ok & Hs).
    apply tx_bind_Ok in Hs as (? & s1 & Hu & [= -> ->]%tx_ret_Ok).
    assert (Howns : owns p id' s) by by exists c. split; [|by eapply owns_kept]. split; [|done].
    eapply only_respects; [|by apply owns_owned]. destruct n as [n|]; [|inv_tx; reflexivity]. inv_tx. by eapply only_update.
  - apply tx_bind_Ok in Hs as (? & ? & [= -> ->]%reads_Ok & Hs).
    apply tx_bind_Ok in Hs as (? & ? & [_ [= -> ->]]%throw_if_Ok & Hs).
    apply tx_bind_Ok in Hs as (? & s1 & Hi & Hs). apply tx_bind_Ok in Hs as (? & s2 & Ha & [= -> ->]%tx_ret_Ok).
    apply audit_run in Ha. pose proof (only_insert_context _ _ _ _ Hi) as Honly. cbn [cd_id legacy_scope_context] in Honly.
    unfold insert_context in Hi. apply tx_bind_Ok in Hi as (? & s3 & Hok & [= -> ->]%writes_Ok). unfold constraint in Hok.
    destruct (context_constraints _ _) eqn:E; [|done]. injection Hok as _ <-. unfold context_constraints in E.
    rewrite !andb_true_iff in E. destruct E as [[[E _] _] _]. cbn [cd_id legacy_scope_context] in E.
    assert (Hn : reg_contexts (st_registry s) !! fresh = None) by (by destruct (reg_contexts (st_registry s) !! fresh)).
    split.
    + split; [|done]. transitivity (on_contexts <[fresh := legacy_scope_context fresh key n d p now]> s).
      * eapply only_respects; [exact Honly|]. intros c Hc. congruence.
      * apply same_respects. unfold same_registry. by rewrite Ha.
    + eexists. rewrite Ha. cbn. rewrite lookup_insert_eq. by split_and!.
Qed.
Lemma within_ensure fresh key n d p now : steps (within p) (ensure_private_legacy_scope_context fresh key n d p now).
Proof. intros s id s' [Hw _]%ensure_run. done. Qed.
#[local] Hint Resolve within_ensure : steps.

Lemma only_relations id f s : (∀ t i k, i ≠ id → f t !! (i, k) = t !! (i, k)) → only id s (on_relations f s).
Proof. intros Hf. split_and!; [|solve_same..]. intros i Hi. split_and!; try done. intros k. by apply Hf. Qed.
Lemma only_insert_relation id to now : steps (only id) (insert_relation id to now).
Proof.
  unfold insert_relation. steps_tac. apply only_relations. intros t i k Hi. apply lookup_partial_alter_ne. congruence.
Qed.
Lemma only_drop_relations id : steps (only id) (writes (on_relations (filter (λ kv, ¬ is_legacy_relation id kv)))).
Proof.
  apply steps_writes. intros s. apply only_relations. intros t i k Hi. apply option_eq. intros v. rewrite map_lookup_filter_Some.
  unfold is_legacy_relation. cbn. naive_solver.
Qed.
#[local] Hint Resolve only_update_described only_insert_relation only_drop_relations : steps.

Lemma identity_insert_alias id a : steps keeps_identity (insert_alias id a).
Proof. unfold insert_alias. steps_tac. Qed.
Lemma identity_insert_hint id h : steps keeps_identity (insert_hint id h).
Proof. unfold insert_hint. steps_tac. Qed.
#[local] Hint Resolve identity_insert_alias identity_insert_hint : steps.

(** Statements about an owned context, in sequence. *)
Lemma own_bind {A B} (m : tx A) (k : A → tx B) p id s b s' :
  (m ≫= k) s = Ok (b, s') → steps (only id) m → steps keeps_identity m → owns p id s →
  (∀ a s1, owns p id s1 → k a s1 = Ok (b, s') → within p s1 s') → within p s s'.
Proof.
  intros (a & s1 & Hm & Hs)%tx_bind_Ok Ho Hk Hown Hrest. pose proof (own_step m p id s a s1 Ho Hk Hown Hm) as Hw.
  transitivity s1; [done|]. eapply Hrest; [|exact Hs]. eapply owns_kept; [apply Hw|done].
Qed.
Lemma relate_within p id now l s u u' s' :
  owns p id s → tx_fold (λ _, relate id p now) u l s = Ok (u', s') → within p s s'.
Proof.
  revert s u. induction l as [|x l IH]; intros s u Ho Hs; cbn in Hs; [inv_tx; reflexivity|].
  apply tx_bind_Ok in Hs as (v & s2 & Hx & Hs). unfold relate in Hx. apply tx_bind_Ok in Hx as (rid & s1 & [Hw _]%ensure_run & Hx).
  assert (Ho1 : owns p id s1) by (eapply owns_kept; [apply Hw|done]).
  assert (Hw2 : within p s1 s2).
  { case_bool_decide; [inv_tx; reflexivity|]. eapply own_step; [apply only_insert_relation| |exact Ho1|exact Hx].
    unfold insert_relation. steps_tac. }
  transitivity s1; [done|]. transitivity s2; [done|]. eapply IH; [|exact Hs]. eapply owns_kept; [apply Hw2|done].
Qed.
Lemma register_within fresh scope now p s u s' :
  register_legacy_scope_context fresh scope now p s = Ok (u, s') → within p s s'.
Proof.
  unfold register_legacy_scope_context. intros Hs. apply tx_bind_Ok in Hs as (? & ? & (? & _ & [= -> ->])%of_result_Ok & Hs).
  apply tx_bind_Ok in Hs as (id & s1 & [Hw Ho]%ensure_run & Hs). transitivity s1; [done|].
  apply tx_bind_Ok in Hs as (parent & s2 & Hp & Hs).
  assert (Hw2 : within p s1 s2) by (refine ((_ : steps (within p) _) _ _ _ Hp); steps_tac).
  transitivity s2; [done|]. assert (Ho2 : owns p id s2) by (eapply owns_kept; [apply Hw2|done]).
  apply tx_bind_Ok in Hs as (? & ? & [_ [= -> ->]]%throw_if_Ok & Hs).
  apply tx_bind_Ok in Hs as (? & s3 & Hc & Hs).
  assert (s3 = s2) as -> by (destruct parent; cbn in Hc; by inv_tx).
  eapply (own_bind _ _ p id); [exact Hs|steps_tac..|exact Ho2|]. clear Hs. intros a1 t1 O1 Hs; cbv beta in Hs.
  eapply (own_bind _ _ p id); [exact Hs|steps_tac..|exact O1|]. clear Hs. intros a2 t2 O2 Hs; cbv beta in Hs.
  eapply (own_bind _ _ p id); [exact Hs|steps_tac..|exact O2|]. clear Hs. intros a3 t3 O3 Hs; cbv beta in Hs.
  eapply (own_bind _ _ p id); [exact Hs|steps_tac..|exact O3|]. clear Hs. intros a4 t4 O4 Hs; cbv beta in Hs.
  eapply (own_bind _ _ p id); [exact Hs|steps_tac..|exact O4|]. clear Hs. intros a5 t5 O5 Hs; cbv beta in Hs.
  eapply (own_bind _ _ p id); [exact Hs|steps_tac..|exact O5|]. clear Hs. intros a6 t6 O6 Hs; cbv beta in Hs.
  apply tx_bind_Ok in Hs as (? & t7 & Hr & Hs). transitivity t7; [by eapply relate_within|].
  apply same_within. unfold same_registry. symmetry. by eapply audit_run.
Qed.

(** What taking a context back does. *)
Lemma rollback_run id p s b s' : rollback_unreferenced_legacy_context id p s = Ok (b, s') →
  (b = false ∧ s' = s) ∨ (b = true ∧ unreferenced_legacy s id p = true ∧ st_registry s' = st_registry (on_contexts (delete id) s)).
Proof.
  unfold rollback_unreferenced_legacy_context. intros Hs. apply tx_bind_Ok in Hs as (r & ? & [= -> ->]%reads_Ok & Hs).
  destruct (unreferenced_legacy s id p); inv_tx; [right|by left]. by split_and!.
Qed.
Lemma has_rows_false {K V} `{Countable K} (id : ContextId) (m : gmap (ContextId * K) V) : has_rows id m = false → ∀ k, m !! (id, k) = None.
Proof.
  intros Hm k. apply eq_None_not_Some. intros [v Hv]. apply not_true_iff_false in Hm. apply Hm. unfold has_rows.
  apply existsb_exists. exists ((id, k), v). split; [by apply list_elem_of_In, elem_of_map_to_list|]. by apply bool_decide_eq_true.
Qed.
(** What is checked before a context is taken back. *)
Record unreferenced (s : Store) (id : ContextId) (p : string) : Prop := {
  un_owns : owns p id s;
  un_memberships : ∀ m l, st_memberships s !! m = Some l → id ∉ l;
  un_children : ∀ i c, reg_contexts (st_registry s) !! i = Some c → cd_parent_id c ≠ Some id;
  un_grants : ∀ k, reg_grants (st_registry s) !! (id, k) = None;
  un_relations : ∀ f t r, is_Some (reg_relations (st_registry s) !! (f, (t, r))) → f ≠ id ∧ t ≠ id;
  un_aliases : ∀ k, reg_aliases (st_registry s) !! (id, k) = None;
  un_identities : ∀ k, reg_identities (st_registry s) !! (id, k) = None;
  un_hints : ∀ k, reg_hints (st_registry s) !! (id, k) = None;
  un_anchors : ∀ k, reg_anchor_policies (st_registry s) !! (id, k) = None }.
Lemma unreferenced_spec s id p : unreferenced_legacy s id p = true → unreferenced s id p.
Proof.
  unfold unreferenced_legacy. destruct (reg_contexts _ !! id) as [c|] eqn:Hc; [|done]. rewrite !andb_true_iff, !negb_true_iff.
  intros [[[[[[[[[[[[[[Ho Hk] Hf] Hm] Hch] Hg] Hr] Ha] Hi] Hh] Han] _] _] _] _]. split; try by apply has_rows_false.
  - exists c. unfold same_kind in Hk. apply bool_decide_eq_true in Hk. apply String.eqb_eq in Ho. done.
  - intros m l Hl Hin. apply not_true_iff_false in Hm. apply Hm, existsb_exists. exists (m, l).
    split; [by apply list_elem_of_In, elem_of_map_to_list|]. by apply bool_decide_eq_true.
  - intros i c' Hc' Hp. pose proof (some_context_None _ _ _ _ Hch Hc') as Hf'. cbn in Hf'. by apply bool_decide_eq_false in Hf'.
  - intros f t r [v Hv]. apply not_true_iff_false in Hr.
    assert (Hno : ¬ (f = id ∨ t = id)); [|split; intros ->; apply Hno; auto]. intros Hor. apply Hr, existsb_exists.
    exists ((f, (t, r)), v). split; [by apply list_elem_of_In, elem_of_map_to_list|]. cbn. apply orb_true_iff.
    destruct Hor; [left|right]; by apply bool_decide_eq_true.
Qed.
Lemma rollback_respects id p s b s' : rollback_unreferenced_legacy_context id p s = Ok (b, s') → respects p s s'.
Proof.
  intros [[_ ->]|(_ & Hu & Hreg)]%rollback_run; [reflexivity|]. transitivity (on_contexts (delete id) s).
  - eapply only_respects; [|by apply owns_owned, un_owns, unreferenced_spec]. apply only_contexts. intros t i Hi. by apply lookup_delete_ne.
  - apply same_respects. done.
Qed.

Lemma co_respects o s u s' : co_tx o s = Ok (u, s') → respects (co_principal o) s s'.
Proof.
  intros Hs. destruct (co_target o) as [id|] eqn:Ht.
  { eapply only_respects; [by eapply target_only|by eapply target_owned]. }
  destruct o; try done; cbn [co_tx co_principal] in *.
  - by eapply kind_respects.
  - by eapply kind_policy_respects.
  - by eapply anchor_policy_respects.
  - apply same_respects. refine ((_ : steps same_registry _) _ _ _ Hs). apply (steps_forget _). eauto with steps.
  - by apply register_within in Hs as [? _].
  - unfold forget in Hs. apply tx_bind_Ok in Hs as (b & s1 & Hr & [= -> ->]%tx_ret_Ok). by eapply rollback_respects.
Qed.
Lemma run_respects o s : respects (co_principal o) s (run_context s o).
Proof.
  unfold run_context, with_conn. destruct (co_tx o s) as [[u s']|e] eqn:Hs; cbn; [by eapply co_respects|by apply same_respects].
Qed.
(** The owner took an unfrozen compatibility context back. *)
Definition taken_back (i : ContextId) (c : ContextDefinition) (os : list context_op) : Prop :=
  CoRollbackLegacy i (cd_owner_principal c) ∈ os ∧ cd_frozen c = false ∧ cd_kind c = ContextKind.custom.
Lemma run_keeps_identity o s i c : reg_contexts (st_registry s) !! i = Some c →
  taken_back i c [o] ∨ ∃ c', reg_contexts (st_registry (run_context s o)) !! i = Some c' ∧ stable c c'.
Proof.
  intros Hc. pose proof (op_keeps_identity o) as Hk.
  destruct o; try (right; by apply (steps_with_conn keeps_identity _ s Hk)). clear Hk. unfold run_context, with_conn. cbn [co_tx].
  destruct (forget _ s) as [[u s']|e] eqn:Hs; [|right; by exists c]. cbn [snd].
  unfold forget in Hs. apply tx_bind_Ok in Hs as (b & s1 & [[_ ->]|(_ & Hu & Hreg)]%rollback_run & [= _ ->]%tx_ret_Ok); [right; by exists c|].
  rewrite Hreg. cbn. apply unreferenced_spec, un_owns in Hu as (c0 & Hc0 & Ho & Hf & Hkind). destruct (decide (i = id)) as [->|Hne].
  - left. simplify_eq. split_and!; [left|done|done].
  - right. rewrite lookup_delete_ne by done. by exists c.
Qed.

Definition run_contexts (s : Store) (os : list context_op) : Store := fold_left run_context os s.
Definition never (p : string) (os : list context_op) : Prop := Forall (λ o, co_principal o ≠ p) os.

(** C3. Context governance. Along any sequence of administrative operations,
    failing ones included: the id, owner, kind, key and frozen mark of a
    context never change, and it goes away only if it is an unfrozen
    compatibility context its owner took back; as long as its owner does
    nothing (and, if it is frozen, whatever anybody does) a context keeps its
    whole definition, its parent and lifecycle, its grants, aliases,
    identities, hints and relations; as long as the operator does nothing the
    kinds and the operator policies stay; a principal's own policies and
    anchor overrides stay as long as it does nothing; and no context ever
    becomes granted to a reserved principal, to everybody in particular. *)
Theorem context_governance s os :
  let s' := run_contexts s os in
  (∀ i c, reg_contexts (st_registry s) !! i = Some c →
     (taken_back i c os ∨ ∃ c', reg_contexts (st_registry s') !! i = Some c' ∧ stable c c')
     ∧ (never (cd_owner_principal c) os ∨ cd_frozen c = true → same_context (st_registry s) (st_registry s') i))
  ∧ (never OPERATOR_PRINCIPAL os → reg_kinds (st_registry s') = reg_kinds (st_registry s)
     ∧ ∀ q k, reg_kind_policies (st_registry s') !! ("operator", q, k) = reg_kind_policies (st_registry s) !! ("operator", q, k))
  ∧ (∀ q, never q os →
     (∀ k, reg_kind_policies (st_registry s') !! ("principal", q, k) = reg_kind_policies (st_registry s) !! ("principal", q, k))
     ∧ ∀ i, reg_anchor_policies (st_registry s') !! (i, q) = reg_anchor_policies (st_registry s) !! (i, q))
  ∧ no_new_reserved (st_registry s) (st_registry s').
Proof.
  cbn zeta. revert s. induction os as [|o os IH]; intros s; [|change (run_contexts s (o :: os)) with (run_contexts (run_context s o) os)].
  { split_and!; [|done|done|by intros ? ?]. intros i c Hc. split; [right; by exists c|]. intros _. apply same_context_refl. }
  destruct (IH (run_context s o)) as (I1 & I2 & I3 & I4). clear IH. pose proof (run_respects o s) as [R1 R2 R3 R4 R5 R6].
  split_and!.
  - intros i c Hc. split.
    + destruct (run_keeps_identity o s i c Hc) as [(Hin & Hf & Hk)|(c1 & Hc1 & Hst)].
      { left. split_and!; [|done|done]. apply list_elem_of_singleton in Hin as ->. left. }
      destruct (I1 i c1 Hc1) as [[(Hin & Hf & Hk)|(c2 & Hc2 & Hst')] _].
      * left. unfold stable in Hst. destruct_and!. split_and!; [|congruence..]. right. congruence.
      * right. exists c2. split; [done|]. unfold stable in *. destruct_and!. split_and!; congruence.
    + intros Hnot. assert (Hsame : same_context (st_registry s) (st_registry (run_context s o)) i).
      { apply (R1 i c Hc). destruct Hnot as [Hn|]; [left|by right]. inversion Hn. congruence. }
      eapply same_context_trans; [exact Hsame|]. apply (I1 i c); [destruct Hsame as [E _]; by rewrite E|].
      destruct Hnot as [Hn|]; [left|by right]. by inversion Hn.
  - intros Hn. inversion Hn as [|? ? Ho Hn']; subst. destruct (I2 Hn') as [-> Hp]. rewrite R2 by congruence.
    split; [done|]. intros q k. rewrite Hp. by apply R3.
  - intros q Hn. inversion Hn as [|? ? Ho Hn']; subst. destruct (I3 q Hn') as [Hp Ha].
    split; [intros k; rewrite Hp|intros i; rewrite Ha]; [by apply R4|by apply R5].
  - intros i q Hq Hg. apply I4; [done|]. by apply R6.
Qed.
End governance.
