(* ===== verification/Maintenance.v ===== *)
(** * Maintenance: what eviction and reassignment do

    An eviction removes exactly the expired memories its caller may write (or
    all expired ones), and a reassignment moves exactly the selected memories
    its caller may write. *)
From Stdlib Require Import ZArith Lia.
From stdpp Require Import base list option strings gmap sets sorting pretty.
From S2P Require Import Prelude Text Floats Lists Errors Types Validation Context StoreTypes Ranking Store Membership Crud ContextAdmin Admin Revisions Operations Authorization Accounting Governance.

(** ** Eviction *)

(** The condition of the query is the access policy of the program. *)
Lemma expiry_authorized_sql_spec p id r : expiry_authorized_sql (Some p) r = has_write_access (row_to_memory id r) p.
Proof.
  unfold expiry_authorized_sql, has_write_access, write_access_allowed, any_eq. cbn.
  destruct (r_access_policy r) as [|allowed|].
  - by destruct (source_agent (r_provenance r)); rewrite ?orb_false_r, ?orb_true_r.
  - f_equal. induction allowed as [|x l IH]; cbn; [done|]. by rewrite IH, String.eqb_sym.
  - by rewrite orb_false_r.
Qed.

Section eviction.
Context `{Render, UnicodeCase} (scope : ExpiredCleanupScope.t) (now : DateTime) (audit : AuditDraft).
#[local] Notation actor := (ExpiredCleanupScope.actor scope).

(** What an eviction may remove: expired rows the actor may write, all
    expired rows for the operator. *)
Definition evictable (s : Store) (id : MemoryId) : bool :=
  match st_memories s !! id with
  | Some r => match r_expires_at r with Some at_ => at_ <=? now | None => false end
              && match ExpiredCleanupScope.authorization_principal scope with
                 | Some p => has_write_access (row_to_memory id r) p
                 | None => true
                 end
  | None => false
  end.
Definition candidate_rows (s : Store) : list (MemoryId * MemoryRow) :=
  sort_by cmp_expiry (List.filter (expired_row now (ExpiredCleanupScope.authorization_principal scope)) (map_to_list (st_memories s))).

Lemma expired_evictable s id r : st_memories s !! id = Some r →
  expired_row now (ExpiredCleanupScope.authorization_principal scope) (id, r) = evictable s id.
Proof.
  intros Hr. unfold expired_row, evictable. rewrite Hr. cbn. destruct (r_expires_at r); cbn; [|done]. f_equal.
  destruct scope; [done|]. apply expiry_authorized_sql_spec.
Qed.
Lemma elem_of_candidates s id r : (id, r) ∈ candidate_rows s ↔ st_memories s !! id = Some r ∧ evictable s id = true.
Proof.
  unfold candidate_rows. rewrite (elem_of_sort_by cmp_expiry), list_elem_of_In, filter_In, <- list_elem_of_In, elem_of_map_to_list.
  split; intros [Hr He]; (split; [done|]); by rewrite (expired_evictable s) in *.
Qed.
Lemma candidates_nodup s : NoDup (candidate_rows s).*1.
Proof.
  unfold candidate_rows. rewrite (sort_by_perm cmp_expiry). apply NoDup_map_filter, NoDup_fst_map_to_list.
Qed.

(** The store after the eviction of the rows [l], in that order. *)
Record evicted (l : list (MemoryId * MemoryRow)) (s s' : Store) : Prop := {
  ev_deleted id r : (id, r) ∈ l → st_memories s' !! id = None
    ∧ st_tombstones s' !! id = Some (tombstone_from_memory (row_to_memory id r) now (Some actor));
  ev_kept id r : st_memories s !! id = Some r → id ∉ l.*1 → ∃ r', st_memories s' !! id = Some r' ∧ maybe_cleared r r';
  ev_dependents id : id ∉ l.*1 → st_vectors s' !! id = st_vectors s !! id ∧ st_entities s' !! id = st_entities s !! id
    ∧ st_metadata s' !! id = st_metadata s !! id ∧ st_memberships s' !! id = st_memberships s !! id
    ∧ st_tombstones s' !! id = st_tombstones s !! id;
  ev_new id : st_memories s !! id = None → st_memories s' !! id = None;
  ev_audit : st_audit s' = st_audit s ++ map (λ p, {| au_memory_id := fst p; au_action := AuditAction.to_string (ad_action audit);
    au_caller_agent := ad_caller_agent audit; au_timestamp := ad_timestamp audit; au_details := ad_details audit |}) l;
  ev_registry : st_registry s' = st_registry s;
}.

Definition authorized_row (p : MemoryId * MemoryRow) : bool :=
  match ExpiredCleanupScope.authorization_principal scope with
  | Some a => has_write_access (row_to_memory (fst p) (snd p)) a
  | None => true
  end.
Lemma maybe_cleared_tombstone id r r' : maybe_cleared r r' →
  tombstone_from_memory (row_to_memory id r') now (Some actor) = tombstone_from_memory (row_to_memory id r) now (Some actor).
Proof. intros [->|(x & _ & ->)]; [done|]. unfold clear_superseded_by. by case_bool_decide. Qed.
Lemma evict_one_run n p r s :
  authorized_row p = true → st_memories s !! fst p = Some r → maybe_cleared (snd p) r →
  evict_one scope now audit n (envelope_of_row p) s = Ok (saturating_add n 1, purged (fst p) r actor now (Some audit) s).
Proof.
  intros Ha Hr Hc. unfold evict_one, authorized_row in *. unfold envelope_has_write_access, envelope_of_row. cbn.
  assert (match ExpiredCleanupScope.authorization_principal scope with
          | Some p0 => negb (write_access_allowed (r_provenance p.2) (r_access_policy p.2) p0) | None => false end = false) as ->.
  { destruct (ExpiredCleanupScope.authorization_principal scope); [|done].
    change (write_access_allowed _ _ _) with (has_write_access (row_to_memory p.1 p.2) s0). by rewrite Ha. }
  unfold insert_authorization_tombstone, mbind, tx_bind, writes. cbn.
  erewrite delete_memory_Some by (cbn; exact Hr). unfold purged, deleted_store. cbn.
  rewrite (maybe_cleared_tombstone (fst p) _ _ Hc). done.
Qed.

Lemma evicted_nil s : evicted [] s s.
Proof.
  split; try done.
  - by intros id r ?%elem_of_nil.
  - intros id r Hr _. exists r. split; [done|by left].
  - by rewrite app_nil_r.
Qed.
Lemma evicted_cons p r l s s' :
  st_memories s !! fst p = Some r → maybe_cleared (snd p) r → fst p ∉ l.*1 →
  evicted l (purged (fst p) r actor now (Some audit) s) s' → evicted (p :: l) s s'.
Proof.
  intros Hr Hc Hp [E1 E2 E3 E4 E5 E6]. set (s1 := purged (fst p) r actor now (Some audit) s) in *.
  assert (Hm1 : ∀ j, j ≠ fst p → st_memories s1 !! j = clear_superseded_by (fst p) <$> st_memories s !! j)
    by (intros j Hj; unfold s1; by rewrite purged_memories, lookup_fmap, lookup_delete_ne).
  assert (Hp1 : st_memories s1 !! fst p = None) by (unfold s1; by rewrite purged_memories, lookup_fmap, lookup_delete_eq).
  destruct (E3 (fst p) Hp) as (_ & _ & _ & _ & Ht). unfold s1 in Ht. rewrite purged_tombstones, lookup_insert_eq in Ht.
  split.
  - intros id r0 [<-|Hin]%elem_of_cons; [|by apply E1]. cbn in *. split; [by apply E4|].
    rewrite Ht. f_equal. by apply maybe_cleared_tombstone.
  - intros id r0 Hr0 [Hne Hni]%not_elem_of_cons. destruct (E2 id (clear_superseded_by (fst p) r0)) as (r' & Hr' & Hc').
    + by rewrite Hm1, Hr0.
    + done.
    + exists r'. split; [done|]. eapply maybe_cleared_trans; [apply maybe_clear_one|exact Hc'].
  - intros id [Hne Hni]%not_elem_of_cons. destruct (E3 id Hni) as (-> & -> & -> & -> & ->). cbn.
    rewrite !lookup_delete_ne, lookup_insert_ne by done. done.
  - intros id Hn. apply E4. destruct (decide (id = fst p)) as [->|Hne]; [done|by rewrite Hm1, Hn].
  - rewrite E5. cbn. by rewrite <- app_assoc.
  - by rewrite E6.
Qed.
Lemma evict_fold l : ∀ n s,
  NoDup l.*1 → (∀ p, p ∈ l → authorized_row p = true ∧ ∃ r, st_memories s !! fst p = Some r ∧ maybe_cleared (snd p) r) →
  n ≤ u64_max →
  ∃ s', tx_fold (evict_one scope now audit) n (map envelope_of_row l) s = Ok (Z.min (n + len l) u64_max, s') ∧ evicted l s s'.
Proof.
  induction l as [|p l IH]; intros n s Hnd Hl Hn; cbn [tx_fold map].
  - exists s. split; [|apply evicted_nil]. rewrite len_nil, Z.add_0_r, Z.min_l by lia. done.
  - apply NoDup_cons in Hnd as [Hp Hnd]. destruct (Hl p (list_elem_of_here _ _)) as (Ha & r & Hr & Hc).
    rewrite (tx_bind_run _ _ _ _ _ (evict_one_run n p r s Ha Hr Hc)).
    destruct (IH (saturating_add n 1) (purged (fst p) r actor now (Some audit) s) Hnd) as (s' & Hrun & He).
    + intros q Hq. destruct (Hl q (list_elem_of_further _ _ _ Hq)) as (Haq & rq & Hrq & Hcq). split; [done|].
      exists (clear_superseded_by (fst p) rq). rewrite purged_memories, lookup_fmap, lookup_delete_ne, Hrq.
      * split; [done|]. eapply maybe_cleared_trans; [exact Hcq|apply maybe_clear_one].
      * intros Heq. apply Hp. rewrite Heq. apply list_elem_of_fmap. by exists q.
    + unfold saturating_add. lia.
    + exists s'. split; [|by eapply evicted_cons]. rewrite Hrun. unfold saturating_add. rewrite len_cons. do 2 f_equal. 
      pose proof (len_nonneg l). lia.
Qed.

(** Eviction of expired memories. It never fails. It removes exactly the
    memories that have expired and that the principal may write (all expired
    ones, for the operator's cleanup), from the earliest expiry on, and
    returns their number. Each leaves a tombstone with its provenance and
    policy and one audit entry, in that order; every other memory stays with
    all its dependent rows (only references to evicted memories are cleared),
    and the contexts are not touched. *)
Theorem evict_expired_spec s :
  ∃ gone s', evict_expired_conn now scope audit s = Ok (Z.min (len gone) u64_max, s')
    ∧ NoDup gone.*1 ∧ StronglySorted (λ x y, cmp_expiry x y ≠ Gt) gone
    ∧ (∀ id r, (id, r) ∈ gone ↔ st_memories s !! id = Some r ∧ evictable s id = true)
    ∧ evicted gone s s'.
Proof.
  destruct (evict_fold (candidate_rows s) 0 s) as (s' & Hrun & He).
  - apply candidates_nodup.
  - intros [id r] Hin%elem_of_candidates. destruct Hin as [Hr Hev]. split; [|exists r; split; [done|by left]].
    unfold evictable in Hev. rewrite Hr in Hev. by apply andb_true_iff in Hev as [_ ?].
  - unfold u64_max. lia.
  - exists (candidate_rows s), s'. split_and!; [exact Hrun|apply candidates_nodup|apply (sort_by_sorted cmp_expiry)| |done].
    intros id r. apply elem_of_candidates.
Qed.
End eviction.

(** ** Reassignment *)

(** What a memory has in the tables. *)
Definition facts : Type := option MemoryRow * option (gset Entity) * option MemoryMetadata * list ContextId.
Definition facts_of (s : Store) (id : MemoryId) : facts :=
  (st_memories s !! id, st_entities s !! id, st_metadata s !! id, memberships_of s id).
(** A statement about the memory [id] that changes its facts by [g] and those
    of no other memory. *)
Definition acts {A} (m : tx A) (id : MemoryId) (g : facts → facts) : Prop := ∀ s a s',
  m s = Ok (a, s') → facts_of s' id = g (facts_of s id) ∧ ∀ j, j ≠ id → facts_of s' j = facts_of s j.
(** A loop that does so for every memory of a list. *)
Definition acts_on {A} (m : tx A) (ids : list MemoryId) (g : facts → facts) : Prop := ∀ s a s',
  m s = Ok (a, s') → ∀ j, facts_of s' j = if bool_decide (j ∈ ids) then g (facts_of s j) else facts_of s j.

Lemma acts_fold (f : MemoryId → tx unit) ids g :
  NoDup ids → (∀ id, acts (f id) id g) → acts_on (tx_fold (λ _, f) () ids) ids g.
Proof.
  intros Hnd Hf. induction ids as [|x l IH]; intros s u s' Hs j; cbn [tx_fold] in Hs.
  - inv_tx. by rewrite bool_decide_eq_false_2 by apply not_elem_of_nil.
  - apply NoDup_cons in Hnd as [Hx Hnd]. apply tx_bind_Ok in Hs as ([] & s1 & Hone & Hs).
    destruct (Hf x _ _ _ Hone) as [Hx1 Hj1]. rewrite (IH Hnd _ _ _ Hs j). destruct (decide (j = x)) as [->|Hne].
    + by rewrite (bool_decide_eq_false_2 (x ∈ l)), (bool_decide_eq_true_2 (x ∈ x :: l)) by (done || left).
    + rewrite Hj1 by done. repeat case_bool_decide; set_solver.
Qed.
Lemma acts_seq {A B} (m : tx A) (k : A → tx B) ids g h :
  acts_on m ids g → (∀ a, acts_on (k a) ids h) → acts_on (a ← m; k a) ids (λ x, h (g x)).
Proof.
  intros Hm Hk s b s' (a & s1 & H1' & H2')%tx_bind_Ok j. rewrite (Hk a _ _ _ H2' j), (Hm _ _ _ H1' j). by case_bool_decide.
Qed.
Lemma acts_row f id : acts (update_row id f) id (λ '(r, e, m, c), (f <$> r, e, m, c)).
Proof.
  intros s b s' Hs. unfold update_row in Hs. destruct (st_memories s !! id) as [r|] eqn:Hr; inv_tx.
  - split; [unfold facts_of; cbn; by rewrite lookup_alter_eq, Hr|]. intros j Hj. unfold facts_of. cbn. by rewrite lookup_alter_ne.
  - split; [unfold facts_of; by rewrite Hr|done].
Qed.
Lemma acts_quiet {A} (m : tx A) id : (∀ s a s', m s = Ok (a, s') → ∀ j, facts_of s' j = facts_of s j) → acts m id (λ x, x).
Proof. intros Hm s a s' Hs. split; [by eapply Hm|]. intros j _. by eapply Hm. Qed.
Lemma acts_bind_ret {A} (m : tx A) id g : acts m id g → acts (_ ← m; mret ()) id g.
Proof. intros Hm s u s' (a & s1 & H1' & H2')%tx_bind_Ok. inv_tx. by eapply Hm. Qed.
Lemma acts_increment `{Render} id action :
  acts (increment_record_revision_conn id action) id (λ '(r, e, m, c), ((λ r, set_record_revision (r_record_revision r + 1) r) <$> r, e, m, c)).
Proof.
  unfold increment_record_revision_conn. intros s u s' (b & s1 & H1' & [_ [= _ ->]]%throw_if_Ok)%tx_bind_Ok.
  exact (acts_row _ _ _ _ _ H1').
Qed.
Lemma acts_metadata f id : acts (writes (on_metadata (alter f id))) id (λ '(r, e, m, c), (r, e, f <$> m, c)).
Proof.
  intros s u s' [= _ ->]%writes_Ok. split; [unfold facts_of; cbn; by rewrite lookup_alter_eq|].
  intros j Hj. unfold facts_of. cbn. by rewrite lookup_alter_ne.
Qed.
Lemma acts_audit id a : acts (insert_optional_audit_draft id a) id (λ x, x).
Proof.
  apply acts_quiet. intros s u s' Hs j. unfold insert_optional_audit_draft, insert_audit_draft, insert_audit_entry in Hs.
  destruct a; cbn [when_some] in Hs; [apply writes_Ok in Hs as [= _ ->]|by inv_tx]. done.
Qed.
(** The loop over the numbered memberships. *)
Lemma insert_memberships_run id l : ∀ s u s',
  tx_fold (λ _, insert_membership id) () (imap (λ i c, (length (memberships_of s id) + i, c)%nat) l) s = Ok (u, s') →
  memberships_of s' id = memberships_of s id ++ l
  ∧ (∀ j, st_memories s' !! j = st_memories s !! j ∧ st_entities s' !! j = st_entities s !! j ∧ st_metadata s' !! j = st_metadata s !! j)
  ∧ ∀ j, j ≠ id → memberships_of s' j = memberships_of s j.
Proof.
  induction l as [|c l IH]; intros s u s' Hs; cbn [imap tx_fold] in Hs.
  - inv_tx. rewrite app_nil_r. done.
  - apply tx_bind_Ok in Hs as ([] & s1 & Hone & Hs). unfold insert_membership in Hone. case_bool_decide; inv_tx.
    assert (Hm1 : memberships_of (on_memberships <[id:=memberships_of s id ++ [c]]> s) id = memberships_of s id ++ [c]).
    { unfold memberships_of at 1. cbn. by rewrite lookup_insert_eq. }
    set (s1 := on_memberships <[id:=memberships_of s id ++ [c]]> s) in *.
    rewrite (imap_ext _ (λ i c, (length (memberships_of s1 id) + i, c)%nat)) in Hs
      by (intros; rewrite Hm1, length_app; cbn; f_equal; lia).
    apply IH in Hs as (E1 & E2 & E3).
    rewrite E1, Hm1, <- app_assoc. split_and!; [done|intros j; apply E2|]. intros j Hj. rewrite E3 by done.
    unfold memberships_of. cbn. by rewrite lookup_insert_ne.
Qed.
Lemma acts_move_memberships `{Render, UnicodeCase} params target scope id :
  acts (move_memberships params target scope id) id (λ '(r, e, m, c), (r, e, m, moved_memberships target c)).
Proof.
  unfold move_memberships, rewrite_memberships. intros s u s' (cs & s1 & [= -> ->]%reads_Ok & Hs)%tx_bind_Ok.
  apply tx_bind_Ok in Hs as ([] & s2 & Hrw & Hs). apply tx_bind_Ok in Hrw as ([] & s3 & [= ->]%writes_Ok & Hrw).
  assert (Hnil : memberships_of (on_memberships (delete id) s) id = []) by (unfold memberships_of; cbn; by rewrite lookup_delete_eq).
  change (imap pair _) with (imap (λ i (c : ContextId), (length (@nil ContextId) + i, c)%nat) (moved_memberships target (memberships_of s id))) in Hrw.
  rewrite <- Hnil in Hrw. apply insert_memberships_run in Hrw as (E1 & E2 & E3).
  unfold insert_context_audit in Hs. apply writes_Ok in Hs as [= _ Hs']. rewrite Hnil in E1. cbn in E1.
  assert (Hf : ∀ j, facts_of s' j = facts_of s2 j) by (by rewrite Hs').
  split; [rewrite Hf|intros j Hj; rewrite Hf]; unfold facts_of.
  - destruct (E2 id) as (-> & -> & ->). cbn. by rewrite E1.
  - destruct (E2 j) as (-> & -> & ->). cbn. rewrite E3 by done. unfold memberships_of. cbn. by rewrite lookup_delete_ne.
Qed.

Section reassign.
Context `{Render, UnicodeCase} (fresh : ContextId) (scan : list MemoryId → list MemoryId) (params : ReassignScopeApply).

(** The move of one memory to the context [target] with the key [scope]. *)
Definition moved_row (scope : string) (r : MemoryRow) : MemoryRow :=
  set_record_revision (r_record_revision r + 1) (set_provenance (move_provenance scope (r_provenance r)) r).
Definition moved_facts (target : ContextId) (scope : string) : facts → facts :=
  λ '(r, e, m, c), (moved_row scope <$> r, e, set_scope_key scope <$> m, moved_memberships target c).

Lemma acts_chunk target scope chunk : NoDup chunk → acts_on (reassign_chunk params target scope chunk) chunk (moved_facts target scope).
Proof.
  intros Hnd. unfold reassign_chunk. intros s u s' Hs j.
  refine (eq_trans ((acts_seq _ _ _ _ _ (acts_fold _ _ _ Hnd (λ id, acts_bind_ret _ _ _ (acts_row _ id))) (λ _,
    acts_seq _ _ _ _ _ (acts_fold _ _ _ Hnd (λ id, acts_increment id _)) (λ _,
    acts_seq _ _ _ _ _ (acts_fold _ _ _ Hnd (λ id, acts_metadata _ id)) (λ _,
    acts_seq _ _ _ _ _ (acts_fold _ _ _ Hnd (λ id, acts_move_memberships params target scope id)) (λ _,
    acts_fold _ _ _ Hnd (λ id, acts_audit id (ra_audit params))))))) s u s' Hs j) _).
  case_bool_decide; [|done]. unfold facts_of, moved_facts. cbn. by destruct (st_memories s !! j).
Qed.
Lemma acts_chunks target scope (ls : list (list MemoryId)) : NoDup (concat ls) →
  acts_on (tx_fold (λ _, reassign_chunk params target scope) () ls) (concat ls) (moved_facts target scope).
Proof.
  induction ls as [|l ls IH]; intros Hnd s u s' Hs j; cbn [tx_fold concat] in *.
  - inv_tx. by rewrite bool_decide_eq_false_2 by apply not_elem_of_nil.
  - apply NoDup_app in Hnd as (Hl & Hdis & Hnd). apply tx_bind_Ok in Hs as ([] & s1 & Hone & Hs).
    rewrite (IH Hnd _ _ _ Hs j), (acts_chunk target scope l Hl _ _ _ Hone j).
    specialize (Hdis j). repeat case_bool_decide; set_solver.
Qed.

(** What the reassignment selects, in the order of the scan. *)
Definition selected_ids (s : Store) : list MemoryId :=
  scan (map fst (List.filter (λ p, in_scope params (snd p)) (map_to_list (st_memories s)))).
Definition movable (s : Store) (id : MemoryId) : bool :=
  match st_memories s !! id with
  | Some r => in_scope params r && has_write_access (row_to_memory id r) (ra_principal params)
  | None => false
  end.
Lemma authorized_ids_run p l acc s :
  tx_fold (λ acc id, ok ← writable_by p id; mret (if ok : bool then acc ++ [id] else acc)) acc l s
  = Ok (acc ++ List.filter (λ id, writable s id p) l, s).
Proof.
  revert acc. induction l as [|x l IH]; intros acc; cbn [tx_fold List.filter]; [by rewrite app_nil_r|].
  erewrite tx_bind_run by (erewrite tx_bind_run by apply writable_by_run; reflexivity).
  rewrite IH. fold (writable s x p). destruct (writable s x p); [by rewrite <- app_assoc|done].
Qed.

(** A context a legacy scope may resolve to. *)
Definition legacy_target (reg : ContextRegistry) (key principal : string) (target : ContextId) (c : ContextDefinition) : Prop :=
  reg_contexts reg !! target = Some c ∧ cd_lifecycle c = ContextLifecycle.Active
  ∧ normalize_context_key (cd_key c) = normalize_context_key key ∧ context_visible reg target c principal = true.
Lemma owner_visible reg i c p : cd_owner_principal c = p → context_visible reg i c p = true.
Proof. intros <-. unfold context_visible. by rewrite String.eqb_refl. Qed.
Lemma owned_custom_inv reg p n i c : owned_custom reg p n = Some (i, c) →
  reg_contexts reg !! i = Some c ∧ cd_owner_principal c = p ∧ normalize_context_key (cd_key c) = n.
Proof.
  unfold owned_custom. intros Hh%head_Some_elem_of. apply list_elem_of_In, filter_In in Hh as [Hin Hs].
  apply list_elem_of_In, elem_of_map_to_list in Hin. unfold same_owner_key in Hs. cbn in Hs.
  rewrite !andb_true_iff, !String.eqb_eq in Hs. by destruct Hs as [[-> _] ->].
Qed.
Lemma elem_of_matching reg p n i : i ∈ matching_contexts reg p n →
  ∃ c, reg_contexts reg !! i = Some c ∧ normalize_context_key (cd_key c) = n ∧ cd_lifecycle c = ContextLifecycle.Active
       ∧ context_visible reg i c p = true.
Proof.
  unfold matching_contexts. rewrite (elem_of_sort_by N.compare), list_elem_of_fmap. intros ([j c] & -> & Hin).
  apply list_elem_of_In, filter_In in Hin as [Hin Hs]. apply list_elem_of_In, elem_of_map_to_list in Hin. cbn in *.
  rewrite !andb_true_iff, String.eqb_eq, bool_decide_eq_true in Hs. destruct Hs as [[? ?] ?]. by exists c.
Qed.
Lemma resolve_legacy_inv key p now s target s1 :
  resolve_or_create_private_legacy_context fresh key p now s = Ok (target, s1) →
  (∃ c, legacy_target (st_registry s1) key p target c) ∧ ∀ j, facts_of s1 j = facts_of s j.
Proof.
  unfold resolve_or_create_private_legacy_context. intros Hs. inv_tx.
  destruct (owned_custom (st_registry s) p (normalize_context_key key)) as [[i c]|] eqn:Ho.
  - apply owned_custom_inv in Ho as (Hc & Hp & Hk). case_bool_decide; inv_tx. split; [|done].
    exists c. split_and!; [done..|by apply owner_visible].
  - apply tx_bind_Ok in Hs as (l & s0 & [= Hl ->]%reads_Ok & Hs). destruct l as [|i [|i' l]]; [|inv_tx|by inv_tx].
    + unfold insert_context, constraint, insert_context_audit in Hs. inv_tx.
      match goal with Hc : (if ?b then _ else _) = _ |- _ => destruct b; inv_tx end. split; [|done].
      exists (private_legacy_context fresh key p now). unfold legacy_target. cbn. rewrite lookup_insert_eq. split_and!; [done..| |by apply owner_visible].
      unfold normalize_context_key. cbn. by rewrite trim_idemp.
    + split; [|done].
      match goal with Hl : [_] = matching_contexts _ _ _ |- _ => pose proof (list_elem_of_here i []) as Hi; rewrite Hl in Hi end.
      apply elem_of_matching in Hi as (c & ? & ? & ? & ?). by exists c.
Qed.

#[local] Existing Instance same_registry_preorder.
#[local] Hint Resolve same_registry_context_audit same_registry_row same_registry_membership same_registry_memberships
  same_registry_metadata : steps.
Lemma same_registry_chunk target scope chunk : steps same_registry (reassign_chunk params target scope chunk).
Proof.
  unfold reassign_chunk, move_memberships, rewrite_memberships, increment_record_revision_conn, insert_optional_audit_draft,
    insert_audit_draft, insert_audit_entry. by steps_tac.
Qed.

(** Reassigning a legacy scope. A successful reassignment returns exactly
    the memories whose provenance names the source scope (and the given
    origin, if any) and that the principal may write, each once. If there are
    any, the destination is an active context with the key of the target
    scope that the principal may see, created privately if there was none;
    each returned memory then names its key in provenance and metadata, keeps
    where it originally came from, has the destination as its primary context
    before its other contexts, and a higher record revision. Every other
    memory is exactly as it was, and without any selected memory the store
    does not change at all. *)
Theorem reassign_scope_spec s o s' (Hscan : ∀ l, scan l ≡ₚ l) (Hrun : apply_reassign_scope fresh scan params s = Ok (o, s')) :
  NoDup (ro_applied_ids o) ∧ (∀ id, id ∈ ro_applied_ids o ↔ movable s id = true)
  ∧ (if bool_decide (ro_applied_ids o = []) then s' = s
     else ∃ target c, legacy_target (st_registry s') (ra_to_scope params) (ra_principal params) target c
       ∧ ∀ id, facts_of s' id = if bool_decide (id ∈ ro_applied_ids o) then moved_facts target (cd_key c) (facts_of s id)
                                else facts_of s id).
Proof.
  unfold apply_reassign_scope in Hrun. apply tx_bind_Ok in Hrun as (l & s1 & [= -> ->]%reads_Ok & Hrun).
  fold (selected_ids s) in Hrun. rewrite (tx_bind_run _ _ _ _ _ (authorized_ids_run _ _ _ _)) in Hrun. cbn [app] in Hrun.
  set (ids := List.filter (λ id, writable s id (ra_principal params)) (selected_ids s)) in *.
  assert (Hsel : NoDup (selected_ids s) ∧ ∀ id, id ∈ selected_ids s ↔ ∃ r, st_memories s !! id = Some r ∧ in_scope params r = true).
  { unfold selected_ids. split.
    - rewrite Hscan. apply NoDup_map_filter, NoDup_fst_map_to_list.
    - intros id. rewrite Hscan, list_elem_of_fmap. split.
      + intros ([i r] & -> & [Hin%elem_of_map_to_list ?]%elem_of_List_filter). by exists r.
      + intros (r & Hr & Hi). exists (id, r). split; [done|]. by apply elem_of_List_filter; rewrite elem_of_map_to_list. }
  destruct Hsel as [Hnd Hsel].
  assert (Hids : NoDup ids) by (rewrite <- (map_id ids); apply NoDup_map_filter; by rewrite map_id).
  assert (Hin : ∀ id, id ∈ ids ↔ movable s id = true).
  { intros id. unfold ids, movable, writable. rewrite elem_of_List_filter, Hsel. destruct (st_memories s !! id) as [r|].
    - rewrite andb_true_iff. naive_solver.
    - naive_solver. }
  case_bool_decide as Hempty; [apply tx_ret_Ok in Hrun as [= -> ->]; rewrite Hempty in Hin; split_and!; [constructor|exact Hin|done]|].
  apply tx_bind_Ok in Hrun as (target & s2 & [(c & Hc) Hsame]%resolve_legacy_inv & Hrun).
  apply tx_bind_Ok in Hrun as (sc & s3 & Hsc & Hrun). unfold primary_scope in Hsc. rewrite (proj1 Hc) in Hsc.
  injection Hsc as <- <-. apply tx_bind_Ok in Hrun as ([] & s4 & Hchunks & [= -> ->]%tx_ret_Ok). cbn [ro_applied_ids].
  rewrite (bool_decide_eq_false_2 _ Hempty). split_and!; [done..|]. exists target, c.
  assert (Hreg : same_registry s2 s4) by (refine ((_ : steps same_registry _) _ _ _ Hchunks); apply steps_fold; [typeclasses eauto|];
    intros ? k; apply same_registry_chunk). unfold same_registry in Hreg. rewrite <- Hreg. split; [exact Hc|].
  pose proof (concat_chunks SQLITE_MAX_CHUNK ids ltac:(unfold SQLITE_MAX_CHUNK; lia)) as Hcc.
  intros id. rewrite (acts_chunks target (cd_key c) _ ltac:(by rewrite Hcc) _ _ _ Hchunks id), Hcc, Hsame. done.
Qed.
End reassign.

(** ** A concrete reassignment *)

#[local] Existing Instances plain_render AsciiCase plain_chrono.

Definition custom_enabled : ContextKindDefinition :=
  {| ckd_kind := ContextKind.custom; ckd_display_name := "Custom"; ckd_builtin := true; ckd_enabled := true;
     ckd_created_at := 0; ckd_updated_at := 0 |}.
(** Ann's memory in the scope [old] and another one's. *)
Definition in_old (agent : string) (id : MemoryId) : MemoryRow :=
  set_provenance {| source_agent := Some agent; source_conversation := Some "old"; origin_conversation := None; source_user := None |}
    (pm_row (from_memory edited None)).
Definition old_scope : Store :=
  on_kinds <[ContextKind.CUSTOM := custom_enabled]>
    (on_memories (λ _, {[1%N := in_old "ann" 1; 2%N := in_old "bob" 2]}) empty_store).
Definition to_new : ReassignScopeApply :=
  {| ra_from_scope := "old"; ra_to_scope := " team/New "; ra_origin_conversation := None; ra_principal := "ann"; ra_now := 5; ra_audit := None |}.

Lemma reassign_scope_spec_witness : ∃ o s', apply_reassign_scope 7 (λ l, l) to_new old_scope = Ok (o, s')
  ∧ ro_applied_ids o = [1%N]
  ∧ (source_conversation ∘ r_provenance <$> st_memories s' !! 1%N) = Some (Some "team/New")
  ∧ (cd_display_name <$> reg_contexts (st_registry s') !! 7%N) = Some "New "
  ∧ (∀ id, id ∈ ro_applied_ids o ↔ movable to_new old_scope id = true).
Proof.
  destruct (apply_reassign_scope 7 (λ l, l) to_new old_scope) as [[o s']|e] eqn:E; [|exfalso; vm_compute in E; discriminate E].
  exists o, s'. split; [reflexivity|]. pose proof (reassign_scope_spec 7 (λ l, l) to_new old_scope o s' (λ l, reflexivity l) E) as (_ & Hin & _).
  revert E. vm_compute. intros [= <- <-]. split_and!; try reflexivity. 
  vm_compute in Hin. exact Hin.
Defined.
