(* ===== verification/Hierarchy.v ===== *)
(** * Hierarchy: the context tables stay well-formed

    [wf_registry] says that rows refer to contexts that exist, that an owner
    has one context per kind and key and one per durable identity, and that
    the parent links are acyclic. Every administrative operation preserves it,
    the memory operations do not touch it, and both preserve the integrity of
    the memory tables. *)
From Stdlib Require Import ZArith Lia.
From stdpp Require Import base list option relations strings gmap sets pretty.
From S2P Require Import Prelude Text Floats Lists Errors Types Validation Context StoreTypes Ranking Store Membership Crud ContextAdmin Admin LegacyScopes Revisions Operations Vectors Integrity Governance.

(** ** The parent graph *)

Definition edge (contexts : gmap ContextId ContextDefinition) (c p : ContextId) : Prop :=
  ∃ d, contexts !! c = Some d ∧ cd_parent_id d = Some p.
Definition acyclic (contexts : gmap ContextId ContextDefinition) : Prop := ∀ c, ¬ tc (edge contexts) c c.

(** The walk up the parents collects the whole chain. *)
Lemma chain_closed fuel contexts seen cursor :
  seen ⊆ dom contexts → (size (dom contexts ∖ seen) < fuel)%nat →
  (∀ x y, x ∈ seen → edge contexts x y → y ∈ dom contexts → y ∈ seen ∨ cursor = Some y) →
  seen ⊆ chain fuel contexts seen cursor
  ∧ (∀ c, cursor = Some c → c ∈ dom contexts → c ∈ chain fuel contexts seen cursor)
  ∧ (∀ x y, x ∈ chain fuel contexts seen cursor → edge contexts x y → y ∈ dom contexts → y ∈ chain fuel contexts seen cursor).
Proof.
  revert seen cursor. induction fuel as [|fuel IH]; intros seen cursor Hsub Hf Hinv; [lia|]. cbn.
  destruct cursor as [c|].
  2: { split_and!; [done|done|]. intros x y Hx He Hy. by destruct (Hinv x y Hx He Hy). }
  case_bool_decide as Hc.
  { split_and!; [done|by intros ? [= <-]|]. intros x y Hx He Hy. destruct (Hinv x y Hx He Hy) as [|[= <-]]; done. }
  destruct (contexts !! c) as [d|] eqn:Hd.
  2: { split_and!; [done| |].
       - intros ? [= <-] Hdom. by apply elem_of_dom in Hdom as [? ?]; simplify_eq.
       - intros x y Hx He Hy. destruct (Hinv x y Hx He Hy) as [|[= <-]]; [done|].
         apply elem_of_dom in Hy as [? ?]; simplify_eq. }
  assert (Hcd : c ∈ dom contexts) by (by apply elem_of_dom_2 in Hd).
  destruct (IH ({[c]} ∪ seen) (cd_parent_id d)) as (I1 & I2 & I3).
  - set_solver.
  - assert (size (dom contexts ∖ ({[c]} ∪ seen)) < size (dom contexts ∖ seen))%nat by (apply subset_size; set_solver). lia.
  - intros x y Hx He Hy. apply elem_of_union in Hx as [->%elem_of_singleton|Hx].
    + destruct He as (d' & Hd' & Hp). simplify_eq. by right.
    + destruct (Hinv x y Hx He Hy) as [|[= <-]]; left; set_solver.
  - split_and!; [set_solver|intros ? [= <-] _; set_solver|done].
Qed.
Lemma ancestors_complete reg p c :
  rtc (edge (reg_contexts reg)) p c → c ∈ dom (reg_contexts reg) → (∀ x y, edge (reg_contexts reg) x y → y ∈ dom (reg_contexts reg)) →
  p ∈ dom (reg_contexts reg) → c ∈ ancestors_or_self reg p.
Proof.
  intros Hr Hc Hparents Hp. unfold ancestors_or_self.
  destruct (chain_closed (S (size (reg_contexts reg))) (reg_contexts reg) ∅ (Some p)) as (_ & I2 & I3).
  - set_solver.
  - rewrite difference_empty_L, size_dom. lia.
  - set_solver.
  - specialize (I2 p eq_refl Hp). clear Hc Hp. set (C := chain _ _ _ _) in *. clearbody C.
    induction Hr as [x|x y z He _ IH]; [done|]. apply IH. by eapply I3, Hparents.
Qed.

(** Redirecting the links of one node. *)
Lemma tc_redirect {A} (R R' : relation A) (id p : A) :
  (∀ x y, R' x y → (x ≠ id ∧ R x y) ∨ (x = id ∧ y = p)) →
  ∀ x y, tc R' x y → tc R x y ∨ (rtc R x id ∧ rtc R p y).
Proof.
  intros Hstep x y Htc. induction Htc as [x y Hxy|x y z Hxy _ IH].
  - destruct (Hstep x y Hxy) as [[_ HR]|[-> ->]]; [left; by apply tc_once|right; split; apply rtc_refl].
  - destruct (Hstep x y Hxy) as [[_ HR]|[-> ->]].
    + destruct IH as [IH|[I1 I2]]; [left; by eapply tc_l|right]. split; [by eapply rtc_l|done].
    + right. split; [apply rtc_refl|]. destruct IH as [IH|[_ I2]]; [by apply tc_rtc|done].
Qed.
Lemma acyclic_redirect contexts contexts' id parent :
  (∀ x y, edge contexts' x y → (x ≠ id ∧ edge contexts x y) ∨ (x = id ∧ parent = Some y)) →
  (∀ p, parent = Some p → ¬ rtc (edge contexts) p id) → acyclic contexts → acyclic contexts'.
Proof.
  intros Hedge Hp Ha x Hx. destruct parent as [p|].
  - destruct (tc_redirect (edge contexts) (edge contexts') id p) with x x as [Ht|[H1 H2]].
    + intros u v [?|[? [= ->]]]%Hedge; [by left|by right].
    + done.
    + by apply (Ha x).
    + apply (Hp p eq_refl). by transitivity x.
  - assert (Hsub : ∀ u v, edge contexts' u v → edge contexts u v) by (intros u v [[_ He]|[_ He]]%Hedge; done).
    apply (Ha x). revert Hx. generalize x at 2 4. intros y. induction 1 as [u v Huv|u v w Huv _ IH]; [by apply tc_once, Hsub|].
    eapply tc_l; [by apply Hsub|done].
Qed.

Section hierarchy.
Context `{Render, UnicodeCase}.

Definition some_row {K V} `{Countable K} (contexts : gmap ContextId ContextDefinition) (m : gmap (ContextId * K) V) : Prop :=
  ∀ i k, is_Some (m !! (i, k)) → is_Some (contexts !! i).
Record wf_registry (g : ContextRegistry) : Prop := {
  wr_ids : ∀ i c, reg_contexts g !! i = Some c → cd_id c = i;
  wr_kinds : ∀ i c, reg_contexts g !! i = Some c → is_Some (reg_kinds g !! ContextKind.as_str (cd_kind c));
  wr_parents : ∀ x y, edge (reg_contexts g) x y → y ∈ dom (reg_contexts g);
  wr_acyclic : acyclic (reg_contexts g);
  wr_unique : ∀ i j c d, reg_contexts g !! i = Some c → reg_contexts g !! j = Some d →
    cd_owner_principal c = cd_owner_principal d → cd_kind c = cd_kind d →
    normalize_context_key (cd_key c) = normalize_context_key (cd_key d) → i = j;
  wr_identity : ∀ i j c d k, reg_contexts g !! i = Some c → reg_contexts g !! j = Some d →
    is_Some (reg_identities g !! (i, k)) → is_Some (reg_identities g !! (j, k)) →
    cd_owner_principal c = cd_owner_principal d → cd_kind c = cd_kind d → i = j;
  wr_grants : some_row (reg_contexts g) (reg_grants g);
  wr_aliases : some_row (reg_contexts g) (reg_aliases g);
  wr_identities : some_row (reg_contexts g) (reg_identities g);
  wr_hints : some_row (reg_contexts g) (reg_hints g);
  wr_anchors : some_row (reg_contexts g) (reg_anchor_policies g);
  wr_relations : some_row (reg_contexts g) (reg_relations g);
  wr_related : ∀ f t r, is_Some (reg_relations g !! (f, (t, r))) → is_Some (reg_contexts g !! t) }.

Definition keeps_wf (s s' : Store) : Prop := wf_registry (st_registry s) → wf_registry (st_registry s').
#[local] Instance keeps_wf_preorder : PreOrder keeps_wf.
Proof. split; [by intros s ?|]. intros s s' s'' H1' H2' Hs. auto. Qed.
Lemma same_keeps_wf s s' : same_registry s s' → keeps_wf s s'.
Proof. unfold same_registry, keeps_wf. by intros ->. Qed.
Lemma steps_same_wf {A} (m : tx A) : steps same_registry m → steps keeps_wf m.
Proof. apply steps_weaken, same_keeps_wf. Qed.
#[local] Hint Resolve steps_same_wf | 10 : steps.

#[local] Existing Instances keeps_identity_preorder same_registry_preorder.

(** *** Rows about contexts *)

Lemma some_row_insert {K V} `{Countable K} (contexts : gmap ContextId ContextDefinition) (m : gmap (ContextId * K) V) (i : ContextId) (k : K) (v : V) :
  is_Some (contexts !! i) → some_row contexts m → some_row contexts (<[(i, k) := v]> m).
Proof.
  intros Hi Hm j k' Hj. destruct (decide ((i, k) = (j, k'))) as [[= <- <-]|Hne]; [done|].
  rewrite lookup_insert_ne in Hj by done. by eapply Hm.
Qed.
Lemma some_row_delete {K V} `{Countable K} (contexts : gmap ContextId ContextDefinition) (m : gmap (ContextId * K) V) (k : ContextId * K) :
  some_row contexts m → some_row contexts (delete k m).
Proof. intros Hm j k' [v Hj]. apply lookup_delete_Some in Hj as [_ Hj]. by eapply Hm. Qed.
Lemma some_row_without {K V} `{Countable K} (contexts : gmap ContextId ContextDefinition) (m : gmap (ContextId * K) V) (i : ContextId) :
  some_row contexts m → some_row contexts (without_context i m).
Proof. intros Hm j k [v Hj]. apply map_lookup_filter_Some in Hj as [Hj _]. by eapply Hm. Qed.
Lemma some_row_grows {K V} `{Countable K} (contexts contexts' : gmap ContextId ContextDefinition) (m : gmap (ContextId * K) V) :
  (∀ i, is_Some (contexts !! i) → is_Some (contexts' !! i)) → some_row contexts m → some_row contexts' m.
Proof. intros Hc Hm i k Hi. by eapply Hc, Hm. Qed.

Lemma constraint_run ok t s u s' : constraint ok t s = Ok (u, s') → ok (st_registry s) = true ∧ s' = s.
Proof. unfold constraint. destruct (ok _) eqn:E; intros Hs; [by inv_tx|done]. Qed.
Lemma exists_true i g : context_exists i g = true → is_Some (reg_contexts g !! i).
Proof. unfold context_exists. destruct (reg_contexts g !! i); [by eexists|done]. Qed.

(** A write behind a constraint. *)
Lemma wf_constrained ok t (f : Store → Store) :
  (∀ s, ok (st_registry s) = true → keeps_wf s (f s)) → steps keeps_wf (_ ← constraint ok t; writes f).
Proof. intros Hf s u s' (? & s1 & [Hok ->]%constraint_run & [= _ ->]%writes_Ok)%tx_bind_Ok. by apply Hf. Qed.

Lemma wf_insert_alias i a : steps keeps_wf (insert_alias i a).
Proof.
  apply wf_constrained. intros s [Hi%exists_true _]%andb_true_iff []. split; cbn; try done. by apply some_row_insert.
Qed.
Lemma wf_insert_hint i h : steps keeps_wf (insert_hint i h).
Proof.
  apply wf_constrained. intros s [Hi%exists_true _]%andb_true_iff []. split; cbn; try done. by apply some_row_insert.
Qed.
Lemma wf_insert_grant i p now g : steps keeps_wf (insert_grant i p now g).
Proof.
  apply wf_constrained. intros s [Hi%exists_true _]%andb_true_iff []. split; cbn; try done. by apply some_row_insert.
Qed.
Lemma wf_put_grant i k v : steps keeps_wf (_ ← constraint (context_exists i) "context_grants"; writes (on_grants <[(i, k) := v]>)).
Proof. apply wf_constrained. intros s Hi%exists_true []. split; cbn; try done. by apply some_row_insert. Qed.
Lemma wf_put_anchor i k v :
  steps keeps_wf (_ ← constraint (context_exists i) "context_anchor_overrides"; writes (on_anchor_policies <[(i, k) := v]>)).
Proof. apply wf_constrained. intros s Hi%exists_true []. split; cbn; try done. by apply some_row_insert. Qed.
Lemma wf_drop_aliases i : steps keeps_wf (writes (on_aliases (without_context i))).
Proof. apply steps_writes. intros s []. split; cbn; try done. by apply some_row_without. Qed.
Lemma wf_drop_hints i : steps keeps_wf (writes (on_hints (without_context i))).
Proof. apply steps_writes. intros s []. split; cbn; try done. by apply some_row_without. Qed.
Lemma wf_drop_grants i : steps keeps_wf (writes (on_grants (without_context i))).
Proof. apply steps_writes. intros s []. split; cbn; try done. by apply some_row_without. Qed.
Lemma wf_delete_grant i k : steps keeps_wf (writes (on_grants (delete (i, k)))).
Proof. apply steps_writes. intros s []. split; cbn; try done. by apply some_row_delete. Qed.
Lemma wf_drop_identities i : steps keeps_wf (writes (on_identities (without_context i))).
Proof.
  apply steps_writes. intros s []. split; cbn; try done; [|by apply some_row_without].
  intros j j' c d k Hc Hd [v Hj] [v' Hj']. apply map_lookup_filter_Some in Hj as [Hj _], Hj' as [Hj' _].
  by eapply wr_identity0; eauto.
Qed.
Lemma wf_policies f : steps keeps_wf (writes (on_kind_policies f)).
Proof. apply steps_writes. by intros s []. Qed.
Lemma wf_kinds k d : steps keeps_wf (writes (on_kinds (partial_alter (λ old, Some (d old)) k))).
Proof.
  apply steps_writes. intros s []. split; cbn; try done. intros i c Hc.
  destruct (decide (ContextKind.as_str (cd_kind c) = k)) as [->|]; [rewrite lookup_partial_alter_eq; by eexists|].
  rewrite lookup_partial_alter_ne by done. by eapply wr_kinds0.
Qed.
#[local] Hint Resolve wf_insert_alias wf_insert_hint wf_insert_grant wf_drop_aliases wf_drop_hints wf_drop_grants
  wf_delete_grant wf_drop_identities wf_policies wf_kinds : steps.

(** *** Identities *)

Definition has_owner (i : ContextId) (owner : string) (kind : ContextKind.t) (s : Store) : Prop :=
  ∃ c, reg_contexts (st_registry s) !! i = Some c ∧ cd_owner_principal c = owner ∧ cd_kind c = kind.
Lemma has_owner_kept i owner kind s s' : keeps_identity s s' → has_owner i owner kind s → has_owner i owner kind s'.
Proof.
  intros Hk (c & Hc & Ho & Hkind). destruct (Hk i c Hc) as (c' & Hc' & _ & Ho' & Hkind' & _). exists c'.
  split_and!; [done|congruence..].
Qed.
Lemma same_kind_true kind c : same_kind kind c = true ↔ cd_kind c = kind.
Proof. unfold same_kind. apply bool_decide_eq_true. Qed.

Lemma wf_insert_identity i owner kind x s u s' :
  insert_identity i owner kind x s = Ok (u, s') → has_owner i owner kind s → keeps_wf s s' ∧ keeps_identity s s'.
Proof.
  intros (u1 & s1 & [Hok ->]%constraint_run & [= _ ->]%writes_Ok)%tx_bind_Ok (ci & Hci & Hoi & Hki).
  apply andb_true_iff in Hok as [Hi%exists_true Hnew%negb_true_iff].
  assert (Hother : ∀ j d, reg_contexts (st_registry s) !! j = Some d → cd_owner_principal d = owner → cd_kind d = kind →
            ¬ is_Some (reg_identities (st_registry s) !! (j, identity_key x))).
  { intros j d Hd Ho Hkd [v Hv]. pose proof (some_context_None _ _ _ _ Hnew Hd) as Hf. cbn in Hf.
    rewrite Ho, String.eqb_refl, (proj2 (same_kind_true kind d) Hkd), Hv in Hf. done. }
  split; [|by intros j c Hc; exists c]. intros []. split; cbn; try done; [|by apply some_row_insert].
  intros j j' c d k Hc Hd [v Hj] [v' Hj'] Ho Hk.
  apply lookup_insert_Some in Hj as [[[= <- <-] _]|[Hne Hj]]; apply lookup_insert_Some in Hj' as [[Heq _]|[Hne' Hj']].
  - by injection Heq.
  - destruct (decide (i = j')) as [|Hij]; [done|]. simplify_eq. exfalso. by apply (Hother j' d); [..|by eexists].
  - injection Heq as <- <-. destruct (decide (j = i)) as [|Hij]; [done|]. simplify_eq. exfalso. by apply (Hother j c); [..|by eexists].
  - by eapply wr_identity0; eauto.
Qed.
Lemma wf_insert_identities i owner kind l s u s' :
  tx_fold (λ _, insert_identity i owner kind) u l s = Ok ((), s') → has_owner i owner kind s → keeps_wf s s' ∧ keeps_identity s s'.
Proof.
  revert s u. induction l as [|x l IH]; intros s u Hs Ho; cbn in Hs; [inv_tx; by split|].
  apply tx_bind_Ok in Hs as (? & s1 & Hx & Hs). destruct (wf_insert_identity _ _ _ _ _ _ _ Hx Ho) as [Hw Hk].
  destruct (IH _ _ Hs (has_owner_kept _ _ _ _ _ Hk Ho)) as [Hw' Hk']. split; [by transitivity s1|by transitivity s1].
Qed.

(** *** Contexts *)

Lemma wf_insert_context c s u s' :
  insert_context c s = Ok (u, s') →
  keeps_wf s s' ∧ has_owner (cd_id c) (cd_owner_principal c) (cd_kind c) s'.
Proof.
  intros (u1 & s1 & [Hok ->]%constraint_run & [= _ ->]%writes_Ok)%tx_bind_Ok.
  unfold context_constraints in Hok. rewrite !andb_true_iff in Hok. destruct Hok as [[[Hn Hkind] Hparent] Huniq%negb_true_iff].
  assert (Hnew : reg_contexts (st_registry s) !! cd_id c = None) by (by destruct (reg_contexts _ !! cd_id c)).
  split; [|exists c; split; [cbn; by rewrite lookup_insert_eq|done]]. intros Hwf. destruct Hwf.
  assert (Hgrow : ∀ i, is_Some (reg_contexts (st_registry s) !! i) → is_Some (<[cd_id c:=c]> (reg_contexts (st_registry s)) !! i)).
  { intros i [d Hd]. rewrite lookup_insert_ne by congruence. by exists d. }
  assert (Hedge : ∀ x y, edge (<[cd_id c:=c]> (reg_contexts (st_registry s))) x y →
     (x ≠ cd_id c ∧ edge (reg_contexts (st_registry s)) x y) ∨ (x = cd_id c ∧ cd_parent_id c = Some y)).
  { intros x y (d & Hd & Hp). apply lookup_insert_Some in Hd as [[<- <-]|[Hne Hd]]; [by right|left]. split; [done|]. by exists d. }
  assert (Hp : ∀ p, cd_parent_id c = Some p → is_Some (reg_contexts (st_registry s) !! p) ∧ p ≠ cd_id c).
  { intros p Hp. rewrite Hp in Hparent. apply andb_true_iff in Hparent as [H1' H2'%bool_decide_eq_true].
    destruct (reg_contexts (st_registry s) !! p) eqn:E; [|done]. split; [by eexists|done]. }
  split; cbn; try done.
  - intros i d [[<- <-]|[_ Hd]]%lookup_insert_Some; [done|by apply wr_ids0].
  - intros i d [[_ <-]|[_ Hd]]%lookup_insert_Some; [|by eapply wr_kinds0].
    by destruct (reg_kinds _ !! ContextKind.as_str (cd_kind c)).
  - intros x y [[_ He]|[-> Hy]]%Hedge; rewrite dom_insert; [apply elem_of_union_r; by eapply wr_parents0|].
    apply elem_of_union_r, elem_of_dom. by apply Hp.
  - eapply (acyclic_redirect _ _ (cd_id c) (cd_parent_id c)); [exact Hedge| |done].
    intros p Hpar Hr. destruct (Hp p Hpar) as [_ Hne]. apply rtc_inv_r in Hr as [?|(y & _ & He)]; [done|].
    apply wr_parents0, elem_of_dom in He as [? ?]. congruence.
  - intros i j a b [[<- <-]|[_ Ha]]%lookup_insert_Some [[<- <-]|[_ Hb]]%lookup_insert_Some Ho Hk Hkey; [done| | |by eauto].
    + pose proof (some_context_None _ _ _ _ Huniq Hb) as Hf. cbn in Hf. unfold same_owner_key in Hf.
      by rewrite Ho, Hkey, !String.eqb_refl, (proj2 (same_kind_true _ b) (eq_sym Hk)) in Hf.
    + pose proof (some_context_None _ _ _ _ Huniq Ha) as Hf. cbn in Hf. unfold same_owner_key in Hf.
      by rewrite Ho, Hkey, !String.eqb_refl, (proj2 (same_kind_true _ a) Hk) in Hf.
  - intros i j a b k [[<- <-]|[_ Ha]]%lookup_insert_Some [[<- <-]|[_ Hb]]%lookup_insert_Some Hi Hj Ho Hk; [done| | |by eauto].
    + apply wr_identities0 in Hi as [? ?]. congruence.
    + apply wr_identities0 in Hj as [? ?]. congruence.
  - by eapply some_row_grows.
  - by eapply some_row_grows.
  - by eapply some_row_grows.
  - by eapply some_row_grows.
  - by eapply some_row_grows.
  - by eapply some_row_grows.
  - intros from to r Hr. by eapply Hgrow, wr_related0.
Qed.

(** A changed row keeps its identity. *)
Lemma wf_alter id f s :
  (∀ c, stable c (f c)) →
  let contexts' := alter f id (reg_contexts (st_registry s)) in
  (∀ y, edge contexts' id y → y ∈ dom (reg_contexts (st_registry s))) → acyclic contexts' →
  keeps_wf s (on_contexts (alter f id) s).
Proof.
  cbn zeta. intros Hf Hpar Ha []. set (contexts := reg_contexts (st_registry s)) in *.
  assert (Hold : ∀ i c', alter f id contexts !! i = Some c' → ∃ c, contexts !! i = Some c ∧ stable c c').
  { intros i c' Hc'. destruct (decide (i = id)) as [->|].
    - rewrite lookup_alter_eq in Hc'. apply fmap_Some in Hc' as (c & Hc & ->). by exists c.
    - rewrite lookup_alter_ne in Hc' by done. by exists c'. }
  assert (Hgrow : ∀ i, is_Some (contexts !! i) → is_Some (alter f id contexts !! i)).
  { intros i Hi. destruct (decide (i = id)) as [->|]; [rewrite lookup_alter_eq; by apply fmap_is_Some|by rewrite lookup_alter_ne]. }
  split; cbn; fold contexts; try done.
  - intros i c' (c & Hc & Hi & _)%Hold. rewrite Hi. by apply wr_ids0.
  - intros i c' (c & Hc & _ & _ & Hk & _)%Hold. rewrite Hk. by eapply wr_kinds0.
  - intros x y He. rewrite dom_alter_L. destruct (decide (x = id)) as [->|Hne]; [by apply Hpar|].
    destruct He as (d & Hd & Hp). rewrite lookup_alter_ne in Hd by done. apply (wr_parents0 x). by exists d.
  - intros i j c d (c0 & Hc & Hs)%Hold (d0 & Hd & Hs')%Hold. destruct Hs as (_ & -> & -> & -> & _), Hs' as (_ & -> & -> & -> & _). by eapply wr_unique0.
  - intros i j c d k (c0 & Hc & Hs)%Hold (d0 & Hd & Hs')%Hold Hi Hj. destruct Hs as (_ & -> & -> & _), Hs' as (_ & -> & -> & _). by eapply wr_identity0.
  - by eapply some_row_grows.
  - by eapply some_row_grows.
  - by eapply some_row_grows.
  - by eapply some_row_grows.
  - by eapply some_row_grows.
  - by eapply some_row_grows.
  - intros from to r Hr. by eapply Hgrow, wr_related0.
Qed.
Lemma edge_alter f id contexts x y :
  edge (alter f id contexts) x y → (x ≠ id ∧ edge contexts x y) ∨ (x = id ∧ ∃ c, contexts !! id = Some c ∧ cd_parent_id (f c) = Some y).
Proof.
  intros (d & Hd & Hp). destruct (decide (x = id)) as [->|Hne].
  - rewrite lookup_alter_eq in Hd. apply fmap_Some in Hd as (c & Hc & ->). right. split; [done|]. by exists c.
  - rewrite lookup_alter_ne in Hd by done. left. split; [done|]. by exists d.
Qed.
Lemma wf_update id f : (∀ c, stable c (f c) ∧ cd_parent_id (f c) = cd_parent_id c) → steps keeps_wf (update_context id f).
Proof.
  intros Hf s b s' Hs. unfold update_context in Hs. destruct (reg_contexts _ !! id) eqn:E; inv_tx; [|reflexivity].
  assert (Hedge : ∀ x y, edge (alter f id (reg_contexts (st_registry s))) x y → edge (reg_contexts (st_registry s)) x y).
  { intros x y [[_ He]|[-> (c' & Hc' & Hp)]]%edge_alter; [done|]. exists c'. split; [done|]. by rewrite <- (proj2 (Hf c')). }
  intros Hwf. refine (wf_alter id f s (λ c, proj1 (Hf c)) _ _ Hwf).
  - intros y He%Hedge. by eapply wr_parents.
  - intros x Hx. apply (wr_acyclic _ Hwf x). revert Hx. generalize x at 2 4. intros y. 
    induction 1 as [u v Huv|u v w Huv _ IH]; [by apply tc_once, Hedge|]. eapply tc_l; [by apply Hedge|done].
Qed.

(** The new parent is not below the context. *)
Lemma wf_set_parent id parent now s :
  is_Some (reg_contexts (st_registry s) !! id) →
  (∀ p, parent = Some p → is_Some (reg_contexts (st_registry s) !! p) ∧ id ∉ ancestors_or_self (st_registry s) p) →
  keeps_wf s (on_contexts (alter (set_parent parent now) id) s).
Proof.
  intros Hid Hp Hwf. refine (wf_alter id _ s _ _ _ Hwf); [done| |].
  - intros y [[? _]|[_ (c & _ & Hy)]]%edge_alter; [done|]. cbn in Hy. apply elem_of_dom. by apply Hp.
  - eapply (acyclic_redirect _ _ id parent); [|
      |apply (wr_acyclic _ Hwf)].
    + intros x y [?|[-> (c & _ & Hy)]]%edge_alter; [by left|by right].
    + intros p Hpar Hr. destruct (Hp p Hpar) as [Hex Hnot]. apply Hnot.
      apply ancestors_complete; [done|by apply elem_of_dom|apply (wr_parents _ Hwf)|by apply elem_of_dom].
Qed.

Lemma context_usable_exists g i p b : context_usable g i p b = true → is_Some (reg_contexts g !! i).
Proof. unfold context_usable. destruct (reg_contexts g !! i); [by eexists|done]. Qed.

Lemma wf_set_parent_conn id parent p a now : steps keeps_wf (set_context_parent_conn id parent p a now).
Proof.
  intros s u s' Hs. unfold set_context_parent_conn in Hs.
  apply tx_bind_Ok in Hs as (? & ? & (? & _ & [= -> ->])%of_result_Ok & Hs).
  apply tx_bind_Ok in Hs as (? & ? & (-> & _ & Hid)%require_mutable_inv & Hs).
  apply tx_bind_Ok in Hs as (? & ? & [_ [= -> ->]]%throw_if_Ok & Hs).
  apply tx_bind_Ok in Hs as (? & s1 & Hchecks & Hs).
  assert (s1 = s ∧ ∀ q, parent = Some q → is_Some (reg_contexts (st_registry s) !! q) ∧ id ∉ ancestors_or_self (st_registry s) q)
    as [-> Hp].
  { destruct parent as [q|]; cbn in Hchecks; [|by inv_tx]. unfold context_use_allowed in Hchecks. inv_tx.
    split; [done|]. intros q' [= <-]. split; [by eapply context_usable_exists, negb_false_iff|].
    match goal with Hc : _ = bool_decide _ |- _ => symmetry in Hc; by apply bool_decide_eq_false in Hc end. }
  apply tx_bind_Ok in Hs as (b & s1 & Hu & Hs). unfold update_context in Hu. destruct Hid as [c Hc]. rewrite Hc in Hu.
  injection Hu as <- <-. inv_tx. apply audit_run in Hs. unfold keeps_wf. rewrite Hs. by apply wf_set_parent.
Qed.
Lemma wf_update_lifecycle id l now : steps keeps_wf (update_context id (set_lifecycle l now)).
Proof. by apply wf_update. Qed.
Lemma wf_update_texts id n d g now : steps keeps_wf (update_context id (set_texts n d g now)).
Proof. by apply wf_update. Qed.

(** *** Every operation *)

#[local] Hint Resolve same_registry_context_audit same_registry_constraint same_registry_require same_registry_row
  same_registry_membership same_registry_scope same_registry_memberships same_registry_metadata same_registry_default
  same_registry_replace_memberships same_registry_anchor_kind wf_update_lifecycle wf_update_texts
  wf_put_grant wf_put_anchor : steps.
#[local] Hint Resolve steps_same_identity | 10 : steps.
#[local] Hint Resolve identity_update_texts identity_aliases identity_identities identity_hints : steps.

Lemma wf_create d a now : steps keeps_wf (create_context_conn d a now).
Proof.
  intros s c s' (_ & _ & Hw)%create_inv. unfold create_writes in Hw.
  apply tx_bind_Ok in Hw as (? & s1 & Hc & Hw). apply wf_insert_context in Hc as [W1 Ho]. cbn in Ho.
  apply tx_bind_Ok in Hw as (? & s2 & Hal & Hw).
  assert (W2 : keeps_wf s1 s2) by (refine ((_ : steps keeps_wf _) _ _ _ Hal); steps_tac).
  assert (K2 : keeps_identity s1 s2) by (refine ((_ : steps keeps_identity _) _ _ _ Hal); unfold insert_alias; steps_tac).
  apply tx_bind_Ok in Hw as ([] & s3 & Hid & Hw).
  apply wf_insert_identities in Hid as [W3 _]; [|by eapply has_owner_kept].
  transitivity s1; [done|]. transitivity s2; [done|]. transitivity s3; [done|].
  refine ((_ : steps keeps_wf _) _ _ _ Hw). steps_tac.
Qed.

Lemma wf_update_definition id patch p a now : steps keeps_wf (update_context_definition id patch p a now).
Proof.
  intros s u s' Hs. unfold update_context_definition in Hs. cbv zeta in Hs.
  do 5 (apply tx_bind_Ok in Hs as (? & ? & (? & _ & [= -> ->])%of_result_Ok & Hs)).
  apply tx_bind_Ok in Hs as (? & ? & (-> & _ & [c Hc])%require_mutable_inv & Hs).
  apply tx_bind_Ok in Hs as (? & ? & [= -> ->]%reads_Ok & Hs). rewrite Hc in Hs.
  apply tx_bind_Ok in Hs as ([owner kind] & ? & [= -> -> ->]%tx_ret_Ok & Hs).
  assert (Ho : has_owner id (cd_owner_principal c) (cd_kind c) s) by (by exists c).
  apply tx_bind_Ok in Hs as (b & s1 & Hu & Hs).
  assert (W1 : keeps_wf s s1) by (by eapply wf_update_texts).
  apply (has_owner_kept _ _ _ s s1) in Ho; [|by eapply identity_update_texts].
  apply tx_bind_Ok in Hs as (? & s2 & Hd & Hs). assert (W2 : keeps_wf s1 s2) by (by eapply wf_drop_aliases).
  apply (has_owner_kept _ _ _ s1 s2) in Ho; [|by eapply identity_aliases].
  apply tx_bind_Ok in Hs as (? & s3 & Hal & Hs).
  assert (W3 : keeps_wf s2 s3) by (refine ((_ : steps keeps_wf _) _ _ _ Hal); steps_tac).
  apply (has_owner_kept _ _ _ s2 s3) in Ho; [|refine ((_ : steps keeps_identity _) _ _ _ Hal); unfold insert_alias; steps_tac].
  apply tx_bind_Ok in Hs as (? & s4 & Hdi & Hs). assert (W4 : keeps_wf s3 s4) by (by eapply wf_drop_identities).
  apply (has_owner_kept _ _ _ s3 s4) in Ho; [|by eapply identity_identities].
  apply tx_bind_Ok in Hs as ([] & s5 & Hid & Hs). apply wf_insert_identities in Hid as [W5 _]; [|done].
  transitivity s1; [done|]. transitivity s2; [done|]. transitivity s3; [done|]. transitivity s4; [done|].
  transitivity s5; [done|]. refine ((_ : steps keeps_wf _) _ _ _ Hs). steps_tac.
Qed.

(** Two writes behind their constraint, inside a longer transaction. *)
Lemma bind_assoc_run {A B C} (m : tx A) (k : A → tx B) (h : B → tx C) s :
  (x ← m; y ← k x; h y) s = (y ← (x ← m; k x); h y) s.
Proof. unfold mbind, tx_bind. by destruct (m s) as [[x s']|e]. Qed.
Lemma wf_constrained_bind ok t f (k : tx unit) :
  steps keeps_wf (_ ← constraint ok t; writes f) → steps keeps_wf k →
  steps keeps_wf (_ ← constraint ok t; _ ← writes f; k).
Proof.
  intros Hf Hk s u s' Hs. rewrite bind_assoc_run in Hs. revert s u s' Hs.
  change (steps keeps_wf (_ ← (_ ← constraint ok t; writes f); k)). by apply (steps_bind _).
Qed.

Lemma wf_grant id g p a now : steps keeps_wf (grant_context_use_conn id g p a now).
Proof.
  unfold grant_context_use_conn. do 3 (apply (steps_bind _); [steps_tac|intros ?]).
  apply wf_constrained_bind; [apply wf_put_grant|steps_tac].
Qed.
Lemma wf_anchor_policy d p a now : steps keeps_wf (upsert_context_anchor_policy d p a now).
Proof.
  unfold upsert_context_anchor_policy, context_use_allowed. do 6 (apply (steps_bind _); [steps_tac|intros ?]).
  apply wf_constrained_bind; [apply wf_put_anchor|steps_tac].
Qed.

(** *** Legacy scopes *)

Lemma wf_steps_insert_context c : steps keeps_wf (insert_context c).
Proof. by intros s u s' [Hw _]%wf_insert_context. Qed.
Lemma wf_update_described id n d now : steps keeps_wf (update_context id (described n d now)).
Proof. by apply wf_update. Qed.
Lemma wf_drop_relations id : steps keeps_wf (writes (on_relations (filter (λ kv, ¬ is_legacy_relation id kv)))).
Proof.
  apply steps_writes. intros s []. split; cbn; try done.
  - intros i k [v Hv]. apply map_lookup_filter_Some in Hv as [Hv _]. by eapply wr_relations0.
  - intros f t r [v Hv]. apply map_lookup_filter_Some in Hv as [Hv _]. by eapply wr_related0.
Qed.
Lemma wf_insert_relation from to now : steps keeps_wf (insert_relation from to now).
Proof.
  apply wf_constrained. intros s [Hf%exists_true Ht%exists_true]%andb_true_iff []. split; cbn; try done.
  - intros i k Hi. destruct (decide ((i, k) = (from, (to, LEGACY_RELATED)))) as [[= -> _]|Hne]; [done|].
    rewrite lookup_partial_alter_ne in Hi by done. by eapply wr_relations0.
  - intros f t r Hi. destruct (decide ((f, (t, r)) = (from, (to, LEGACY_RELATED)))) as [[= _ -> _]|Hne]; [done|].
    rewrite lookup_partial_alter_ne in Hi by done. by eapply wr_related0.
Qed.
#[local] Hint Resolve wf_steps_insert_context wf_update_described wf_drop_relations wf_insert_relation : steps.
Lemma wf_ensure fresh key n d p now : steps keeps_wf (ensure_private_legacy_scope_context fresh key n d p now).
Proof. unfold ensure_private_legacy_scope_context. steps_tac. Qed.
#[local] Hint Resolve wf_ensure : steps.

Lemma wf_register fresh scope now p : steps keeps_wf (register_legacy_scope_context fresh scope now p).
Proof.
  intros s u s' Hs. unfold register_legacy_scope_context in Hs.
  apply tx_bind_Ok in Hs as (? & ? & (? & _ & [= -> ->])%of_result_Ok & Hs).
  apply tx_bind_Ok in Hs as (id & s1 & He & Hs). transitivity s1; [by eapply wf_ensure|].
  apply ensure_run in He as [_ Ho]. apply tx_bind_Ok in Hs as (parent & s2 & Hp & Hs).
  transitivity s2; [refine ((_ : steps keeps_wf _) _ _ _ Hp); steps_tac|].
  assert (Hex : is_Some (reg_contexts (st_registry s2) !! id) ∧ ∀ q, parent = Some q → is_Some (reg_contexts (st_registry s2) !! q)).
  { destruct (sd_parent scope) as [key|]; [|inv_tx; split; [|done]; by destruct Ho as (c & Hc & _); exists c].
    apply tx_bind_Ok in Hp as (q & s3 & [[_ Hk] (c & Hc & _)]%ensure_run & [= -> ->]%tx_ret_Ok).
    split; [|intros q' [= <-]; by exists c]. destruct Ho as (c0 & Hc0 & _). destruct (Hk id c0 Hc0) as (c1 & Hc1 & _). by exists c1. }
  apply tx_bind_Ok in Hs as (? & ? & [_ [= -> ->]]%throw_if_Ok & Hs).
  apply tx_bind_Ok in Hs as (? & s3 & Hcy & Hs).
  assert (s3 = s2 ∧ ∀ q, parent = Some q → id ∉ ancestors_or_self (st_registry s2) q) as [-> Hanc].
  { destruct parent as [q|]; cbn in Hcy; [|by inv_tx]. inv_tx. split; [done|]. intros q' [= <-].
    match goal with Hc : _ = bool_decide _ |- _ => symmetry in Hc; by apply bool_decide_eq_false in Hc end. }
  destruct Hex as [Hid Hpar]. apply tx_bind_Ok in Hs as (b & s4 & Hu & Hs).
  assert (W : keeps_wf s2 s4).
  { unfold update_context in Hu. destruct Hid as [c Hc]. rewrite Hc in Hu. injection Hu as _ <-. apply wf_set_parent; [by exists c|].
    intros q Hq. split; [by apply Hpar|by apply Hanc]. }
  transitivity s4; [exact W|]. refine ((_ : steps keeps_wf _) _ _ _ Hs). unfold relate. steps_tac.
Qed.

Lemma some_row_deleted {K V} `{Countable K} (contexts : gmap ContextId ContextDefinition) (m : gmap (ContextId * K) V) id :
  (∀ k, m !! (id, k) = None) → some_row contexts m → some_row (delete id contexts) m.
Proof.
  intros Hno Hm i k Hi. rewrite lookup_delete_ne; [by eapply Hm|]. intros <-. rewrite Hno in Hi. by destruct Hi.
Qed.
Lemma wf_rollback id p : steps keeps_wf (rollback_unreferenced_legacy_context id p).
Proof.
  intros s b s' [[_ ->]|(_ & Hu%unreferenced_spec & Hreg)]%rollback_run; [reflexivity|]. intros []. rewrite Hreg.
  split; cbn; try (by apply some_row_deleted; [apply Hu|]).
  - intros i c [_ Hc]%lookup_delete_Some. by apply wr_ids0.
  - intros i c [_ Hc]%lookup_delete_Some. by eapply wr_kinds0.
  - intros x y (c & [_ Hc]%lookup_delete_Some & Hp). rewrite dom_delete_L. apply elem_of_difference. split.
    + apply (wr_parents0 x). by exists c.
    + intros ->%elem_of_singleton. by eapply (un_children _ _ _ Hu).
  - intros x Hx. apply (wr_acyclic0 x). revert Hx. generalize x at 2 4. intros y.
    assert (Hsub : ∀ u v, edge (delete id (reg_contexts (st_registry s))) u v → edge (reg_contexts (st_registry s)) u v)
      by (intros u v (c & [_ Hc]%lookup_delete_Some & Hp); by exists c).
    induction 1 as [u v Huv|u v w Huv _ IH]; [by apply tc_once, Hsub|]. eapply tc_l; [by apply Hsub|done].
  - intros i j c d [_ Hc]%lookup_delete_Some [_ Hd]%lookup_delete_Some. by eapply wr_unique0.
  - intros i j c d k [_ Hc]%lookup_delete_Some [_ Hd]%lookup_delete_Some. by eapply wr_identity0.
  - apply some_row_deleted; [|done]. intros [t r]. apply eq_None_not_Some. intros Hs. by destruct (un_relations _ _ _ Hu id t r Hs).
  - intros f t r Hr. destruct (un_relations _ _ _ Hu f t r Hr) as [_ Ht]. rewrite lookup_delete_ne by done. by eapply wr_related0.
Qed.

Lemma op_keeps_wf o : steps keeps_wf (co_tx o).
Proof.
  destruct o; cbn [co_tx]; try (apply (steps_forget _));
    [ apply wf_create | apply wf_set_parent_conn | unfold set_context_lifecycle_conn; steps_tac | apply wf_grant
    | unfold revoke_context_use; steps_tac | unfold replace_context_grants; steps_tac | apply wf_update_definition
    | unfold upsert_context_kind, require_operator; steps_tac
    | unfold upsert_context_kind_policy, stored_policy_principal, require_operator; steps_tac
    | apply wf_anchor_policy | steps_tac | apply wf_register | apply wf_rollback ].
Qed.
End hierarchy.

(** ** The memory operations leave the context tables alone *)

Section system.
Context `{Render, UnicodeCase, Chrono} (dimensions : Z) (exp2 : f64 → f64).
#[local] Existing Instances keeps_identity_preorder same_registry_preorder.

Lemma reg_memories f : steps same_registry (writes (on_memories f)).
Proof. by apply same_registry_writes. Qed.
Lemma reg_vectors f : steps same_registry (writes (on_vectors f)).
Proof. by apply same_registry_writes. Qed.
Lemma reg_entities f : steps same_registry (writes (on_entities f)).
Proof. by apply same_registry_writes. Qed.
Lemma reg_audit f : steps same_registry (writes (on_audit f)).
Proof. by apply same_registry_writes. Qed.
Lemma reg_tombstones f : steps same_registry (writes (on_tombstones f)).
Proof. by apply same_registry_writes. Qed.
Lemma reg_require_row id : steps same_registry (require_row id).
Proof. intros s u s' Hs. unfold require_row in Hs. destruct (st_memories s !! id); by inv_tx. Qed.
Lemma reg_insert_row p : steps same_registry (insert_row p).
Proof. intros s u s' Hs. unfold insert_row in Hs. destruct (st_memories s !! pm_id p); by inv_tx. Qed.
Lemma reg_delete id : steps same_registry (delete_memory id).
Proof. intros s u s' Hs. unfold delete_memory in Hs. destruct (st_memories s !! id); by inv_tx. Qed.
Lemma reg_revision id : steps same_registry (select_embedding_revision id).
Proof. intros s u s' Hs. unfold select_embedding_revision in Hs. destruct (st_memories s !! id); by inv_tx. Qed.
#[local] Hint Resolve same_registry_context_audit same_registry_row same_registry_membership same_registry_scope
  same_registry_memberships same_registry_metadata reg_memories reg_vectors reg_entities reg_audit reg_tombstones
  reg_require_row reg_insert_row reg_delete reg_revision : steps.

Lemma reg_optional_audit id a : steps same_registry (insert_optional_audit_draft id a).
Proof. unfold insert_optional_audit_draft, insert_audit_draft, insert_audit_entry. steps_tac. Qed.
Lemma reg_audit_draft id a : steps same_registry (insert_audit_draft id a).
Proof. unfold insert_audit_draft, insert_audit_entry. steps_tac. Qed.
Lemma reg_tombstone m at_ by_ : steps same_registry (insert_tombstone m at_ by_).
Proof. apply reg_tombstones. Qed.
Lemma reg_upsert_vector id v : steps same_registry (upsert_vector dimensions id v).
Proof. unfold upsert_vector. steps_tac. Qed.
Lemma reg_insert_entities id l : steps same_registry (insert_entities id l).
Proof. unfold insert_entities. steps_tac. Qed.
Lemma reg_replace_entities id l : steps same_registry (replace_entities id l).
Proof. unfold replace_entities, insert_entities. steps_tac. Qed.
Lemma reg_upsert_metadata md : steps same_registry (upsert_metadata_conn md).
Proof. unfold upsert_metadata_conn. steps_tac. Qed.
Lemma reg_compatibility id u p : steps same_registry (validate_compatibility_cache_update id u p).
Proof. unfold validate_compatibility_cache_update, compatibility_scope_key. steps_tac. Qed.
Lemma reg_superseded sid : steps same_registry (validate_superseded_exists sid).
Proof. unfold validate_superseded_exists. steps_tac. Qed.
Lemma reg_profile p : steps same_registry (ensure_embedding_profile_matches p).
Proof. unfold ensure_embedding_profile_matches. steps_tac. Qed.
Lemma reg_mark old new : steps same_registry (mark_superseded old new).
Proof. unfold mark_superseded, fetch_memory_by_id. steps_tac. Qed.
Lemma reg_increment id action : steps same_registry (increment_record_revision_conn id action).
Proof. unfold increment_record_revision_conn. steps_tac. Qed.
Lemma reg_insert_contexts id cs p sc a now pr : steps same_registry (insert_memory_contexts_sqlite id cs p sc a now pr).
Proof. unfold insert_memory_contexts_sqlite, require_usable, context_use_allowed. steps_tac. Qed.
#[local] Hint Resolve reg_optional_audit reg_audit_draft reg_tombstone reg_upsert_vector reg_insert_entities
  reg_replace_entities reg_upsert_metadata reg_compatibility reg_superseded reg_profile reg_mark reg_increment
  reg_insert_contexts : steps.
Lemma reg_replace_contexts id cs p sc a now : steps same_registry (replace_memory_contexts_sqlite_tx id cs p sc a now).
Proof. unfold replace_memory_contexts_sqlite_tx. steps_tac. Qed.
#[local] Hint Resolve reg_replace_contexts : steps.
Lemma reg_update_inner id u now : steps same_registry (apply_update_inner id u now).
Proof. unfold apply_update_inner, update_columns. steps_tac. Qed.
Lemma reg_replace_governed id u patch cs p ca at_ : steps same_registry (replace_governed id u patch cs p ca at_).
Proof. unfold replace_governed. steps_tac. Qed.
Lemma reg_replace_if_unmodified id cs p ca at_ : steps same_registry (replace_governed_if_unmodified id cs p ca at_).
Proof. unfold replace_governed_if_unmodified, replacement_scope, get_metadata_conn. steps_tac. Qed.
Lemma reg_upsert_merged id patch m p : steps same_registry (upsert_merged_metadata id patch m p).
Proof. unfold upsert_merged_metadata, get_metadata_conn. steps_tac. Qed.
Lemma reg_write_embedding id e profile : steps same_registry (write_embedding dimensions id e profile).
Proof. unfold write_embedding. steps_tac. Qed.
Lemma reg_insert p : steps same_registry (insert dimensions p).
Proof. unfold insert. steps_tac. Qed.
Lemma reg_audit_update a u m : steps same_registry (audit_update a u m).
Proof. unfold audit_update. eauto with steps. Qed.
#[local] Hint Resolve reg_update_inner reg_replace_governed reg_replace_if_unmodified reg_upsert_merged
  reg_write_embedding reg_insert reg_audit_update : steps.
Lemma reg_insert_prepared p sup a : steps same_registry (insert_prepared_with_optional_supersession_and_audit dimensions p sup a).
Proof. unfold insert_prepared_with_optional_supersession_and_audit. steps_tac. Qed.
#[local] Hint Resolve reg_insert_prepared : steps.
Lemma reg_claim scope limit now before token : steps same_registry (claim_for_reembed_conn scope limit now before token).
Proof. unfold claim_for_reembed_conn. steps_tac. Qed.
#[local] Hint Resolve reg_claim : steps.
Lemma reg_release id rev token : steps same_registry (release_embedding_claim_impl id rev token).
Proof.
  intros s b s' Hs. unfold release_embedding_claim_impl in Hs. destruct (st_memories s !! id); [|by inv_tx].
  destruct (_ && _); by inv_tx.
Qed.

Lemma reg_envelope m at_ by_ : steps same_registry (insert_authorization_tombstone m at_ by_).
Proof. apply reg_tombstones. Qed.
Lemma reg_missing md : steps same_registry (insert_missing_metadata md).
Proof. unfold insert_missing_metadata. steps_tac. Qed.
#[local] Hint Resolve reg_envelope reg_missing : steps.
Lemma op_same_registry o : match o with OpReassignScope _ _ _ => True | _ => steps same_registry (op_tx dimensions exp2 o) end.
Proof.
  destruct o; unfold op_tx; try (apply (steps_forget _));
    [ unfold store_audited_impl; steps_tac | unfold store_with_supersession_audited_impl; steps_tac
    | unfold store_with_metadata_audited_impl; steps_tac
    | unfold store_with_metadata_contexts_audited_impl, insert_initial_memory_contexts_sqlite; steps_tac
    | unfold store_batch_audited_impl, check_len; steps_tac
    | unfold store_batch_with_supersession_audited_impl, batch_store_with_supersession_and_audit, check_len; steps_tac
    | unfold store_batch_with_metadata_audited_impl, check_len; steps_tac
    | unfold store_batch_with_metadata_contexts_audited_impl, insert_initial_memory_contexts_sqlite; steps_tac
    | unfold update_impl, apply_update, fetch_memory_by_id; steps_tac
    | apply (steps_authorize _); intros; steps_tac
    | apply (steps_authorize _); intros; steps_tac
    | unfold apply_authorized_update_with_metadata_contexts; apply (steps_bind _); [steps_tac | intros _; apply (steps_authorize _); intros; steps_tac]
    | unfold apply_authorized_update_if_unmodified_with_metadata;
      do 3 (apply (steps_bind _); [steps_tac | intros _]); apply (steps_authorize _); intros; steps_tac
    | unfold apply_delete, fetch_memory_by_id; steps_tac
    | unfold apply_authorized_delete, fetch_memory_by_id; steps_tac
    | apply (steps_authorize _); intros; steps_tac
    | unfold bulk_delete_ids, bulk_delete_one, fetch_memory_by_id; steps_tac
    | unfold bulk_update_ids, bulk_update_one, fetch_memory_by_id; steps_tac
    | unfold claim_for_reembed_with_scope_impl; steps_tac
    | apply reg_release
    | unfold set_embedding_impl; steps_tac
    | unfold record_search_impression_impl; steps_tac
    | unfold record_memory_use_impl, update_single_memory_use, fetch_memory_by_id; steps_tac
    | unfold mark_superseded_by_impl; steps_tac
    | apply (steps_authorize _); intros; steps_tac
    | unfold mark_superseded_if_unchanged, fetch_memory_by_id, consolidation_context_profile; steps_tac
    | apply reg_audit
    | unfold evict_expired_conn, evict_one; steps_tac
    | unfold upsert_metadata_audited_impl, fetch_memory_by_id, compatibility_scope_key; steps_tac
    | unfold migrate_metadata_audited_impl, insert_metadata_migration_row; steps_tac | done ].
Qed.
#[local] Existing Instance keeps_wf_preorder.
#[local] Hint Resolve steps_same_wf | 10 : steps.
(** A reassignment may create the private context of its target. *)
Lemma wf_reassign fresh scan params : steps keeps_wf (apply_reassign_scope fresh scan params).
Proof.
  assert (Hc : ∀ c, steps keeps_wf (insert_context c)) by (intros c s u s' Hs; by apply wf_insert_context in Hs as [? _]).
  unfold apply_reassign_scope, resolve_or_create_private_legacy_context, writable_by, fetch_memory_by_id, reassign_chunk,
    move_memberships, rewrite_memberships, insert_context_audit. steps_tac.
Qed.
Lemma op_keeps_registry o : steps keeps_wf (op_tx dimensions exp2 o).
Proof.
  pose proof (op_same_registry o) as Hs. destruct o; try by apply steps_same_wf. apply (@steps_forget _ keeps_wf_preorder), wf_reassign.
Qed.

(** ** The administration of contexts keeps the memory tables well-formed *)

Definition same_tables (s s' : Store) : Prop :=
  st_memories s = st_memories s' ∧ st_vectors s = st_vectors s' ∧ st_entities s = st_entities s'
  ∧ st_metadata s = st_metadata s' ∧ st_memberships s = st_memberships s'.
#[local] Instance same_tables_preorder : PreOrder same_tables.
Proof.
  split; [done|]. intros s s' s'' (E1&E2&E3&E4&E5) (F1&F2&F3&F4&F5). split_and!; congruence.
Qed.
Lemma tables_registry f : steps same_tables (writes (on_registry f)).
Proof. by apply steps_writes. Qed.
Lemma tables_kinds f : steps same_tables (writes (on_kinds f)).
Proof. by apply steps_writes. Qed.
Lemma tables_contexts f : steps same_tables (writes (on_contexts f)).
Proof. by apply steps_writes. Qed.
Lemma tables_grants f : steps same_tables (writes (on_grants f)).
Proof. by apply steps_writes. Qed.
Lemma tables_aliases f : steps same_tables (writes (on_aliases f)).
Proof. by apply steps_writes. Qed.
Lemma tables_identities f : steps same_tables (writes (on_identities f)).
Proof. by apply steps_writes. Qed.
Lemma tables_hints f : steps same_tables (writes (on_hints f)).
Proof. by apply steps_writes. Qed.
Lemma tables_kind_policies f : steps same_tables (writes (on_kind_policies f)).
Proof. by apply steps_writes. Qed.
Lemma tables_anchor_policies f : steps same_tables (writes (on_anchor_policies f)).
Proof. by apply steps_writes. Qed.
Lemma tables_relations f : steps same_tables (writes (on_relations f)).
Proof. by apply steps_writes. Qed.
Lemma tables_audit_rows f : steps same_tables (writes (on_context_audit f)).
Proof. by apply steps_writes. Qed.
Lemma tables_context_audit a c m now : steps same_tables (insert_context_audit a c m now).
Proof. by apply steps_writes. Qed.
Lemma tables_constraint ok t : steps same_tables (constraint ok t).
Proof. intros s u s' Hs. unfold constraint in Hs. destruct (ok _); by inv_tx. Qed.
Lemma tables_update id f : steps same_tables (update_context id f).
Proof. intros s b s' Hs. unfold update_context in Hs. destruct (reg_contexts _ !! id); by inv_tx. Qed.
#[local] Hint Resolve tables_kinds tables_contexts tables_grants tables_aliases tables_identities tables_hints
  tables_kind_policies tables_anchor_policies tables_context_audit tables_constraint tables_update : steps.
Lemma tables_require id p : steps same_tables (require_mutable_owned_context id p).
Proof. intros s u s' (-> & _)%require_mutable_inv. done. Qed.
Lemma tables_default kind policy p : steps same_tables (validate_policy_default_sqlite kind policy p).
Proof. unfold validate_policy_default_sqlite, context_use_allowed. steps_tac. Qed.
#[local] Hint Resolve tables_require tables_default tables_relations tables_audit_rows : steps.
Lemma tables_ensure fresh key n d p now : steps same_tables (ensure_private_legacy_scope_context fresh key n d p now).
Proof. unfold ensure_private_legacy_scope_context, insert_context. steps_tac. Qed.
#[local] Hint Resolve tables_ensure : steps.

Lemma same_tables_wf s s' : same_tables s s' → keeps_identity s s' → wf dimensions s → wf dimensions s'.
Proof.
  intros (E1&E2&E3&E4&E5) Hk [Hv Hd]. split; intros i.
  - specialize (Hv i). unfold vector_ok in *. by rewrite <- E1, <- E2.
  - destruct (Hd i) as (D1 & D2 & D3). unfold dependents_ok, memberships_of in *. rewrite <- E1, <- E3, <- E4, <- E5.
    split_and!; [done|done|]. eapply Forall_impl; [exact D3|]. intros c [d Hc]. destruct (Hk c d Hc) as (d' & Hc' & _). by exists d'.
Qed.

Lemma tables_context_op o :
  match o with CoReplaceMemberships _ _ _ _ _ => True | _ => steps same_tables (co_tx o) end.
Proof.
  destruct o; cbn [co_tx]; try (apply (steps_forget _));
    [ unfold create_context_conn, context_use_allowed, insert_context, insert_alias, insert_identity, insert_hint; steps_tac
    | unfold set_context_parent_conn, context_use_allowed; steps_tac | unfold set_context_lifecycle_conn; steps_tac
    | unfold grant_context_use_conn; steps_tac | unfold revoke_context_use; steps_tac
    | unfold replace_context_grants, insert_grant; steps_tac
    | unfold update_context_definition, insert_alias, insert_identity, insert_hint; steps_tac
    | unfold upsert_context_kind, require_operator; steps_tac
    | unfold upsert_context_kind_policy, stored_policy_principal, require_operator; steps_tac
    | unfold upsert_context_anchor_policy, context_use_allowed, validate_anchor_kind; steps_tac | done
    | unfold register_legacy_scope_context, relate, insert_relation, insert_alias, insert_hint; steps_tac
    | unfold rollback_unreferenced_legacy_context; steps_tac ].
Qed.

#[local] Existing Instances keeps_vectors_preorder keeps_dependents_preorder same_vectors_preorder same_dependents_preorder.
#[local] Hint Resolve steps_same_vectors steps_same_dependents | 10 : steps.
#[local] Hint Resolve same_vectors_memberships same_vectors_membership same_vectors_metadata same_vectors_scope
  same_vectors_context_audit same_dependents_scope same_dependents_context_audit same_dependents_row
  keeps_dependents_delete_memberships keeps_dependents_insert_membership : steps.
Lemma vectors_replace_memberships right allowed id cs p a now :
  steps (keeps_vectors dimensions right allowed) (replace_memory_contexts_conn id cs p a now).
Proof.
  unfold replace_memory_contexts_conn, fetch_memory_by_id, require_usable, context_use_allowed, rewrite_memberships,
    rewrite_scope, insert_context_audit. steps_tac.
  apply keeps_vectors_row. intros r. by split_and!.
Qed.
Lemma dependents_replace_memberships id cs p a now : steps keeps_dependents (replace_memory_contexts_conn id cs p a now).
Proof.
  unfold replace_memory_contexts_conn, fetch_memory_by_id, require_usable, context_use_allowed, rewrite_memberships,
    rewrite_scope, insert_context_audit. steps_tac.
  intros Hok j. destruct (Hok j) as (Hn&Hd). split; [|done]. cbn. intros Hx. destruct (Hn Hx) as (?&Hmd&?).
  split_and!; [done| |done]. destruct (decide (j = id)) as [->|]; [by rewrite lookup_alter_eq, Hmd | by rewrite lookup_alter_ne].
Qed.

(** No membership refers to a context that is taken back. *)
Lemma rollback_wf id p s b s' : rollback_unreferenced_legacy_context id p s = Ok (b, s') → wf dimensions s → wf dimensions s'.
Proof.
  intros Hs Hwf. assert (Ht : same_tables s s').
  { refine ((_ : steps same_tables _) _ _ _ Hs). unfold rollback_unreferenced_legacy_context. steps_tac. }
  destruct (rollback_run _ _ _ _ _ Hs) as [[_ ->]|(_ & Hu%unreferenced_spec & Hreg)]; [done|].
  destruct Ht as (E1&E2&E3&E4&E5), Hwf as [Hv Hd]. split; intros i.
  - specialize (Hv i). unfold vector_ok in *. by rewrite <- E1, <- E2.
  - destruct (Hd i) as (D1 & D2 & D3). unfold dependents_ok, memberships_of in *. rewrite <- E1, <- E3, <- E4, <- E5.
    split_and!; [done|done|]. rewrite Hreg. destruct (st_memberships s !! i) as [l|] eqn:Hl; [|constructor].
    apply list.Forall_forall. intros c Hc. cbn in *. rewrite list.Forall_forall in D3. rewrite lookup_delete_ne; [by apply D3|].
    intros <-. by eapply (un_memberships _ _ _ Hu).
Qed.
Lemma run_context_wf s o : wf dimensions s → wf dimensions (run_context s o).
Proof.
  intros Hwf. pose proof (tables_context_op o) as Ht. pose proof (op_keeps_identity o) as Hk.
  destruct o; try (eapply same_tables_wf; [exact (steps_with_conn same_tables _ s Ht)|exact (steps_with_conn keeps_identity _ s Hk)|exact Hwf]).
  - clear Ht Hk. destruct Hwf as [Hv Hd]. unfold run_context; cbn [co_tx]. split.
    + refine (steps_with_conn (keeps_vectors dimensions any_vector any_lease) _ _ _ Hv). apply (steps_forget _), vectors_replace_memberships.
    + refine (steps_with_conn keeps_dependents _ _ _ Hd). apply (steps_forget _), dependents_replace_memberships.
  - unfold run_context, with_conn. cbn [co_tx]. destruct (forget _ s) as [[u s']|e] eqn:Hs; [|done].
    unfold forget in Hs. apply tx_bind_Ok in Hs as (b & s1 & Hr & [= _ ->]%tx_ret_Ok). by eapply rollback_wf.
Qed.

Lemma run_context_registry s o : wf_registry (st_registry s) → wf_registry (st_registry (run_context s o)).
Proof. exact (@steps_with_conn keeps_wf keeps_wf_preorder _ _ s (op_keeps_wf o)). Qed.
Lemma run_contexts_registry s os : wf_registry (st_registry s) → wf_registry (st_registry (run_contexts s os)).
Proof. revert s. induction os as [|o os IH]; intros s Hs; [done|]. by apply (IH (run_context s o)), run_context_registry. Qed.

(** ** The whole store *)

Inductive system_op := Memories (o : operation) | Contexts (o : context_op).
Definition run_system (s : Store) (o : system_op) : Store :=
  match o with Memories o => run dimensions exp2 s o | Contexts o => run_context s o end.
Definition run_systems (s : Store) (os : list system_op) : Store := fold_left run_system os s.

(** C4. Integrity of the whole store. Under every interleaving of memory
    operations and context administration, failing ones included, the memory
    tables and the context tables stay well-formed: parents exist and the
    parent links are acyclic, so every walk up the hierarchy ends; an owner
    has at most one context per kind and normalized key and one per durable
    identity; grants, aliases, identities, hints, overrides, relations and memberships
    refer to contexts that exist. *)
Theorem system_integrity s os :
  wf dimensions s ∧ wf_registry (st_registry s) →
  wf dimensions (run_systems s os) ∧ wf_registry (st_registry (run_systems s os)).
Proof.
  revert s. induction os as [|o os IH]; intros s Hs; [done|].
  change (run_systems s (o :: os)) with (run_systems (run_system s o) os). apply IH. clear IH. destruct Hs as [Hwf Hreg].
  destruct o as [o|o]; cbn [run_system].
  - split; [by apply run_wf|]. exact (@steps_with_conn keeps_wf keeps_wf_preorder _ _ s (op_keeps_registry o) Hreg).
  - split; [by apply run_context_wf|by apply run_context_registry].
Qed.
End system.

(** ** A concrete run *)

#[local] Existing Instances plain_render AsciiCase plain_chrono.

Definition project : ContextKind.t := ContextKind.mk ContextKind.PROJECT.
(** The tables with the kind [project] registered. *)
Definition new_store : Store :=
  on_kinds (λ _, {[ContextKind.PROJECT := {| ckd_kind := project; ckd_display_name := "Project"; ckd_builtin := true;
    ckd_enabled := true; ckd_created_at := 0; ckd_updated_at := 0 |}]}) empty_store.
Definition by_ann : ContextAuditDraft := context_audit_draft_new "ann" "test".
Definition child_draft (id : ContextId) (key : string) (parent : option ContextId) : ContextCreateDraft :=
  let d := create_draft_private id project key key "ann" in
  {| ccd_id := id; ccd_kind := project; ccd_key := key; ccd_normalized_key := ccd_normalized_key d;
     ccd_display_name := key; ccd_description := None; ccd_owner_principal := "ann"; ccd_guidance := None;
     ccd_parent_id := parent; ccd_aliases := [("A " +:+ key, "a " +:+ key)]; ccd_identities := [];
     ccd_resolver_hints := ["Hint"; "hint "]; ccd_confirm_distinct_from := []; ccd_enforce_fuzzy_confirmation := false;
     ccd_frozen := false |}.
(** Two contexts, a refused cycle, a grant, and a refused grant to all. *)
Definition admin_ops : list context_op :=
  [CoCreate (child_draft 1 "root" None) by_ann 1; CoCreate (child_draft 2 "leaf" (Some 1%N)) by_ann 2;
   CoSetParent 1 (Some 2%N) "ann" by_ann 3; CoGrant 2 " bob " "ann" by_ann 4; CoGrant 2 "*" "ann" by_ann 5].
Definition system_ops : list system_op := map Contexts admin_ops ++ [Memories (OpStore edited None None)].

Example admin_run :
  let g := st_registry (run_contexts new_store admin_ops) in
  (cd_parent_id <$> reg_contexts g !! 1%N) = Some None ∧ (cd_parent_id <$> reg_contexts g !! 2%N) = Some (Some 1%N)
  ∧ is_some (reg_grants g !! (2%N, "bob")) = true ∧ is_some (reg_grants g !! (2%N, "*")) = false
  ∧ reg_aliases g !! (1%N, "a root") = Some "A root" ∧ size (reg_hints g) = 2%nat.
Proof. vm_compute. done. Qed.

Lemma new_store_wf : wf 1 new_store ∧ wf_registry (st_registry new_store).
Proof.
  split; [split; intros id; [done|]; split; [done|]; split; constructor|].
  split; cbn; try done.
  - by intros x y (d & Hd & _).
  - intros x Hx. inversion Hx as [? ? (d & Hd & _)|? ? ? (d & Hd & _)]; done.
  - by intros i k [? ?].
  - by intros i k [? ?].
  - by intros i k [? ?].
  - by intros i k [? ?].
  - by intros i k [? ?].
  - by intros i k [? ?].
  - by intros f t r [? ?].
Qed.

Lemma system_integrity_witness :
  (cd_parent_id <$> reg_contexts (st_registry (run_systems 1 (λ x, x) new_store system_ops)) !! 2%N) = Some (Some 1%N)
  ∧ wf_registry (st_registry (run_systems 1 (λ x, x) new_store system_ops)).
Proof.
  split; [vm_compute; reflexivity|]. apply (system_integrity 1 (λ x, x) new_store system_ops), new_store_wf.
Defined.
