(* ===== verification/Systems.v ===== *)
(** * Systems: histories of the whole store

    What a memory keeps over any sequence of memory operations and context
    administration ([Hierarchy.system_op]): the contract of its revisions. *)
From Stdlib Require Import ZArith Lia.
From stdpp Require Import base list option relations strings gmap sets.
From S2P Require Import Prelude Text Floats Lists Errors Types Validation Context StoreTypes Ranking Store Membership Crud Revisions Operations Integrity ContextAdmin Governance Hierarchy.

Section systems.
Context `{Render, UnicodeCase, Chrono} (dimensions : Z) (exp2 : f64 → f64).
#[local] Abbreviation run_system := (run_system dimensions exp2).
#[local] Abbreviation run_systems := (run_systems dimensions exp2).

Lemma same_tables_keeps s s' : same_tables s s' → keeps s s'.
Proof.
  intros (Hm & _ & He & Hd & Hc). apply same_evolves. intros id. unfold same_at, memberships_of. by rewrite Hm, He, Hd, Hc.
Qed.

Lemma only_rewrite_memberships id cs : steps (Revisions.only id) (rewrite_memberships id cs).
Proof.
  unfold rewrite_memberships. steps_tac. apply only_memberships. intros t j Hj. by rewrite lookup_delete_ne.
Qed.
Lemma only_rewrite_scope id key : steps (Revisions.only id) (rewrite_scope id key).
Proof.
  unfold rewrite_scope. steps_tac.
  - apply only_metadata. intros t j Hj. by rewrite lookup_alter_ne.
  - apply steps_only_row. intros r. split_and!; cbn; lia || done.
Qed.
Lemma bumps_rewrite_scope id key s x s' : rewrite_scope id key s = Ok (x, s') → bumps id s s'.
Proof.
  unfold rewrite_scope, update_row. intros Hrun. inv_tx. cbn in *. intros a b Ha Hb. rewrite Ha in *. inv_tx. cbn in Hb.
  rewrite lookup_alter_eq, Ha in Hb. cbn in Hb. simplify_eq. cbn. lia.
Qed.
Lemma keeps_replace_memberships id cs p a now : steps keeps (replace_memory_contexts_conn id cs p a now).
Proof.
  unfold replace_memory_contexts_conn, fetch_memory_by_id. intros s o s' Hrun. inv_tx.
  destruct (_ <$> _) as [m|]; [|by inv_tx]. destruct (negb _); inv_tx; [done|].
  match goal with
  | Hf : tx_fold _ _ _ ?s0 = Ok (_, ?s1), Hm : rewrite_memberships _ _ _ = Ok (_, ?s2), Hp : primary_scope _ _ = Ok (_, ?s3),
    Hs : rewrite_scope _ _ _ = Ok (_, ?s4), Ha : insert_context_audit _ _ _ _ _ = Ok (_, ?s5) |- _ =>
      assert (H01 : Revisions.only id s0 s1) by (refine ((_ : steps (Revisions.only id) _) _ _ _ Hf); steps_tac);
      pose proof (only_rewrite_memberships _ _ _ _ _ Hm) as H12;
      assert (H23 : Revisions.only id s2 s3) by (refine (steps_quiet_only _ _ (quiet_primary_scope _) _ _ _ Hp));
      pose proof (only_rewrite_scope _ _ _ _ _ Hs) as H34; pose proof (bumps_rewrite_scope _ _ _ _ _ Hs) as B34;
      assert (H45 : Revisions.only id s4 s5) by (refine ((_ : steps (Revisions.only id) _) _ _ _ Ha); unfold insert_context_audit; steps_tac)
  end.
  assert (H04 : Revisions.only id s _) by (etrans; [exact H01|etrans; [exact H12|exact H23]]).
  apply (only_keeps id); [etrans; [exact H04|etrans; [exact H34|exact H45]]|left].
  eapply (only_bumps id); [exact H04|etrans; [exact H34|exact H45]|]. by eapply (bumps_only id); [exact H34| |exact H45].
Qed.

#[local] Existing Instance same_tables_preorder.
Lemma run_system_evolves s o : evolves s (run_system s o).
Proof.
  destruct o as [o|o]; cbn [Hierarchy.run_system]; [apply run_evolves|]. apply keeps_evolves. unfold run_context.
  pose proof (tables_context_op o) as Ht. destruct o; try (apply same_tables_keeps; exact (steps_with_conn same_tables _ s Ht)).
  refine (steps_with_conn keeps _ s _). apply (steps_forget _), keeps_replace_memberships.
Qed.

(** A memory that exists all along a history. *)
Definition lives (id : MemoryId) (s : Store) (os : list system_op) : Prop :=
  ∀ n, is_Some (st_memories (run_systems s (take n os)) !! id).
Lemma lives_cons id s o os : lives id s (o :: os) ↔ is_Some (st_memories s !! id) ∧ lives id (run_system s o) os.
Proof.
  split.
  - intros Ha. split; [apply (Ha 0%nat)|]. intros n. apply (Ha (S n)).
  - intros [H0' Ha] [|n]; [done|]. apply (Ha n).
Qed.
Lemma run_systems_evolves os s id a b :
  lives id s os → st_memories s !! id = Some a → st_memories (run_systems s os) !! id = Some b →
  snap_le s (run_systems s os) id a b.
Proof.
  revert s a. induction os as [|o os IH]; intros s a Hal Ha Hb; cbn in *.
  - assert (a = b) as -> by congruence. apply snap_le_refl.
  - apply lives_cons in Hal as [_ Hal]. destruct (Hal 0%nat) as [c Hc]. cbn in Hc.
    apply (snap_le_trans _ (run_system s o) _ _ _ c); [by eapply run_system_evolves | by eapply IH].
Qed.

(** C1. The optimistic-concurrency contract of [record_revision]: over any
    sequence of memory operations and context administration during which a
    memory exists, its record revision never decreases, and if the revision is
    the same at the end then everything a user sees of it is the same:
    content, tags, provenance, access policy, expiry, importance, confidence,
    supersession, entities, metadata and governed memberships. In the same way
    the embedding revision never decreases and is the same only if the content
    is. *)
Theorem revision_contract os s id a b :
  lives id s os → st_memories s !! id = Some a → st_memories (run_systems s os) !! id = Some b →
  r_record_revision a ≤ r_record_revision b
  ∧ (r_record_revision a = r_record_revision b → visible s id a = visible (run_systems s os) id b)
  ∧ r_embedding_revision a ≤ r_embedding_revision b
  ∧ (r_embedding_revision a = r_embedding_revision b → r_content a = r_content b).
Proof.
  intros Hal Ha Hb. destruct (run_systems_evolves _ _ _ _ _ Hal Ha Hb) as [(?&?&?) ?]. done.
Qed.
End systems.

(** ** A concrete history *)

#[local] Existing Instances AsciiCase plain_render plain_chrono.
Definition rename_kind : context_op :=
  CoUpsertKind {| ckf_kind := project; ckf_display_name := "Projects"; ckf_enabled := true |} OPERATOR_PRINCIPAL
    (context_audit_draft_new OPERATOR_PRINCIPAL "context_kind_updated") 7.
Definition sample_history : list system_op := map Memories sample_ops ++ [Contexts rename_kind].

Lemma revision_contract_witness :
  (∃ a b, st_memories sample_store !! m_id edited = Some a
    ∧ st_memories (run_systems 1 (λ x, x) sample_store sample_history) !! m_id edited = Some b
    ∧ r_record_revision a ≤ r_record_revision b
    ∧ (r_record_revision a = r_record_revision b
       → visible sample_store (m_id edited) a
         = visible (run_systems 1 (λ x, x) sample_store sample_history) (m_id edited) b)).
Proof.
  eexists _, _. split; [vm_compute; reflexivity|]. split; [vm_compute; reflexivity|].
  refine ((λ H, conj (proj1 H) (proj1 (proj2 H))) (revision_contract 1 (λ x, x) sample_history sample_store
    (m_id edited) _ _ _ _ _)); [|vm_compute; reflexivity|vm_compute; reflexivity].
  intros [|[|[|[|n]]]]; vm_compute; eexists; reflexivity.
Defined.
