(* ===== verification/ContextSelect.v ===== *)
(** * ContextSelect: the contexts a selection covers

    [expand_context_definitions] of [src/src/store/context_store.rs]: the
    walks up from the selected contexts and up from the candidates below
    them. The loops in Rust carry fuel, two more than there are definitions,
    and [None] stands for running out of it, which the lemmas exclude. *)
From Stdlib Require Import ZArith Lia.
From stdpp Require Import base list option relations strings gmap sets pretty.
From S2P Require Import Prelude Text Floats Lists Errors Types Validation Context StoreTypes Ranking Store Membership Crud Revisions Operations Integrity ContextAdmin Governance Hierarchy.

(** ** Expansion in Rust *)

Definition expanding : Type := list ContextDefinition * gset ContextId.
Definition append_context_once (acc : expanding) (c : ContextDefinition) : expanding :=
  if bool_decide (cd_id c ∈ snd acc) then acc else (fst acc ++ [c], {[cd_id c]} ∪ snd acc).

Definition is_active (c : ContextDefinition) : bool := bool_decide (cd_lifecycle c = ContextLifecycle.Active).
(** [definitions.iter().map(|c| (c.id, c)).collect::<HashMap<_, _>>()]. *)
Definition definitions_by_id (definitions : list ContextDefinition) : gmap ContextId ContextDefinition :=
  list_to_map (reverse (map (λ c, (cd_id c, c)) definitions)).

Definition hierarchy_cycle : StoreError.t := StoreError.Conflict "context hierarchy contains a cycle".

Section expand.
Context `{Render} (by_id : gmap ContextId ContextDefinition).

Definition unavailable_parent (direct_id parent_id : ContextId) : StoreError.t :=
  StoreError.Conflict ("context " +:+ ulid direct_id +:+ " references unavailable parent " +:+ ulid parent_id).

(** The walk up from a selected context, adding active ancestors. *)
Fixpoint add_ancestors (fuel : nat) (direct_id : ContextId) (ancestors : gset ContextId) (cursor : option ContextId)
    (acc : expanding) : option (result StoreError.t expanding) :=
  match fuel with
  | O => None
  | S fuel' =>
    match cursor with
    | None => Some (Ok acc)
    | Some parent_id =>
      if bool_decide (parent_id ∈ ancestors) then Some (Err hierarchy_cycle)
      else match by_id !! parent_id with
           | None => Some (Err (unavailable_parent direct_id parent_id))
           | Some parent =>
             add_ancestors fuel' direct_id ({[parent_id]} ∪ ancestors) (cd_parent_id parent)
               (if is_active parent then append_context_once acc parent else acc)
           end
    end
  end.

Definition not_selectable (id : ContextId) : StoreError.t :=
  StoreError.NotFound ("context not found, archived, or not granted: " +:+ ulid id).
Definition archived_selection (id : ContextId) : StoreError.t :=
  StoreError.Conflict ("context " +:+ ulid id +:+ " is archived and cannot be selected").

Fixpoint add_selected (fuel : nat) (direct_ids : list ContextId) (acc : expanding) : option (result StoreError.t expanding) :=
  match direct_ids with
  | [] => Some (Ok acc)
  | id :: rest =>
    match by_id !! id with
    | None => Some (Err (not_selectable id))
    | Some direct =>
      if negb (is_active direct) then Some (Err (archived_selection id))
      else match add_ancestors fuel id ∅ (cd_parent_id direct) (append_context_once acc direct) with
           | Some (Ok acc) => add_selected fuel rest acc
           | r => r
           end
    end
  end.

(** Whether the walk up from [cursor] meets a selected context. *)
Fixpoint below_anchor (fuel : nat) (anchors visited : gset ContextId) (cursor : option ContextId) :
    option (result StoreError.t bool) :=
  match fuel with
  | O => None
  | S fuel' =>
    match cursor with
    | None => Some (Ok false)
    | Some parent_id =>
      if bool_decide (parent_id ∈ visited) then Some (Err hierarchy_cycle)
      else if bool_decide (parent_id ∈ anchors) then Some (Ok true)
      else below_anchor fuel' anchors ({[parent_id]} ∪ visited) (by_id !! parent_id ≫= cd_parent_id)
    end
  end.
Fixpoint add_descendants (fuel : nat) (anchors : gset ContextId) (candidates : list ContextDefinition) (acc : expanding) :
    option (result StoreError.t expanding) :=
  match candidates with
  | [] => Some (Ok acc)
  | c :: rest =>
    if negb (is_active c) then add_descendants fuel anchors rest acc
    else match below_anchor fuel anchors ∅ (cd_parent_id c) with
         | Some (Ok below) => add_descendants fuel anchors rest (if below then append_context_once acc c else acc)
         | Some (Err e) => Some (Err e)
         | None => None
         end
  end.
End expand.

Definition too_many_contexts : StoreError.t :=
  StoreError.Conflict ("context selection expands beyond the maximum of " +:+ pretty MAX_EFFECTIVE_CONTEXTS
                       +:+ " effective contexts").

Definition expand_context_definitions `{Render} (definitions : list ContextDefinition) (direct_ids : list ContextId)
    (include_descendants : bool) : option (result StoreError.t (list ContextDefinition)) :=
  if MAX_EFFECTIVE_CONTEXTS <? len (List.filter is_active definitions) then Some (Err too_many_contexts)
  else
    let by_id := definitions_by_id definitions in
    let fuel := S (S (length definitions)) in
    match add_selected by_id fuel direct_ids ([], ∅) with
    | Some (Ok acc) =>
      if include_descendants
      then match add_descendants by_id fuel (list_to_set direct_ids) definitions acc with
           | Some (Ok acc) => Some (Ok (fst acc))
           | Some (Err e) => Some (Err e)
           | None => None
           end
      else Some (Ok (fst acc))
    | Some (Err e) => Some (Err e)
    | None => None
    end.

(** ** Correctness of the expansion *)

Section expand_correct.
Context `{Render} (by_id : gmap ContextId ContextDefinition).
Hypothesis Hids : ∀ i c, by_id !! i = Some c → cd_id c = i.
Hypothesis Hacyclic : acyclic by_id.

Lemma edge_from i c y : by_id !! i = Some c → edge by_id i y ↔ cd_parent_id c = Some y.
Proof. intros Hc. split; [intros (d & Hd & Hp); by simplify_eq|intros Hp; by exists c]. Qed.
Lemma rtc_edge_inv i c x : by_id !! i = Some c → rtc (edge by_id) i x ↔ x = i ∨ ∃ p, cd_parent_id c = Some p ∧ rtc (edge by_id) p x.
Proof.
  intros Hc. split.
  - intros Hr. inversion Hr as [|? p ? He Hr']; subst; [by left|right]. exists p. split; [by apply (edge_from i c)|done].
  - intros [->|(p & Hp & Hr)]; [apply rtc_refl|]. eapply rtc_l; [by apply (edge_from i c)|done].
Qed.
Lemma tc_edge_inv i c x : by_id !! i = Some c → tc (edge by_id) i x ↔ ∃ p, cd_parent_id c = Some p ∧ rtc (edge by_id) p x.
Proof.
  intros Hc. split.
  - intros Ht. inversion Ht as [? ? He|? p ? He Ht']; subst; apply (edge_from i c _ Hc) in He; eexists; split;
      [exact He|apply rtc_refl|exact He|by apply tc_rtc].
  - intros (p & Hp & Hr). eapply tc_rtc_r; [by apply tc_once, (edge_from i c)|done].
Qed.

(** The accumulator holds rows of the table, each once. *)
Definition acc_ok (acc : expanding) : Prop :=
  snd acc = list_to_set (map cd_id (fst acc)) ∧ NoDup (map cd_id (fst acc)) ∧ ∀ c, c ∈ fst acc → by_id !! cd_id c = Some c.
Lemma append_ok acc c :
  acc_ok acc → by_id !! cd_id c = Some c →
  acc_ok (append_context_once acc c) ∧ ∀ x, x ∈ fst (append_context_once acc c) ↔ x ∈ fst acc ∨ x = c.
Proof.
  intros (Hset & Hnd & Hrows) Hc. unfold append_context_once. rewrite Hset. case_bool_decide as Hin.
  - split; [done|]. intros x. split; [by left|]. intros [Hx| ->]; [done|].
    apply elem_of_list_to_set, list_elem_of_fmap in Hin as (d & Hd & Hin). pose proof (Hrows d Hin) as Hrow.
    rewrite <- Hd in Hrow. by simplify_eq.
  - rewrite elem_of_list_to_set in Hin. cbn [fst snd]. split; [split_and!|].
    + cbn. rewrite map_app, list_to_set_app_L. cbn. set_solver.
    + cbn. rewrite map_app. apply NoDup_app. split_and!; [done| |apply NoDup_singleton].
      intros i Hi ->%list_elem_of_singleton. done.
    + cbn. intros x [Hx| ->%list_elem_of_singleton]%elem_of_app; [by apply Hrows|done].
    + intros x. rewrite elem_of_app, list_elem_of_singleton. done.
Qed.

(** A missing context at the top of a chain. *)
Definition missing_above (i y : ContextId) : Prop := rtc (edge by_id) i y ∧ by_id !! y = None.

Lemma add_ancestors_spec fuel i ancestors cursor acc :
  acc_ok acc → (∀ v p, v ∈ ancestors → cursor = Some p → tc (edge by_id) v p) → ancestors ⊆ dom by_id →
  (S (size (dom by_id ∖ ancestors)) < fuel)%nat ∨ (cursor = None ∧ (0 < fuel)%nat) →
  (∃ acc', add_ancestors by_id fuel i ancestors cursor acc = Some (Ok acc') ∧ acc_ok acc' ∧
     ∀ c, c ∈ fst acc' ↔ c ∈ fst acc ∨ (is_active c = true ∧ by_id !! cd_id c = Some c
                                       ∧ ∃ p, cursor = Some p ∧ rtc (edge by_id) p (cd_id c)))
  ∨ (∃ p y, add_ancestors by_id fuel i ancestors cursor acc = Some (Err (unavailable_parent i y))
      ∧ cursor = Some p ∧ missing_above p y).
Proof.
  revert ancestors cursor acc. induction fuel as [|fuel IH]; intros ancestors cursor acc Hacc Hvis Hsub Hf; [lia|]. cbn.
  destruct cursor as [p|].
  2: { left. exists acc. split_and!; [done..|]. intros c. split; [by left|]. by intros [?|(_ & _ & ? & ? & _)]. }
  case_bool_decide as Hin.
  { exfalso. by apply (Hacyclic p), (Hvis p p). }
  destruct (by_id !! p) as [parent|] eqn:Hp; [|right; exists p, p; split_and!; [done..|by split; [apply rtc_refl|]]].
  destruct Hf as [Hf|[? _]]; [|done].
  assert (Hpd : p ∈ dom by_id) by (by apply elem_of_dom_2 in Hp).
  assert (Hrow : by_id !! cd_id parent = Some parent) by (by rewrite (Hids _ _ Hp)).
  set (acc1 := if is_active parent then append_context_once acc parent else acc).
  assert (Hacc1 : acc_ok acc1 ∧ ∀ x, x ∈ fst acc1 ↔ x ∈ fst acc ∨ (is_active x = true ∧ x = parent)).
  { unfold acc1. destruct (is_active parent) eqn:Ea.
    - destruct (append_ok acc parent Hacc Hrow) as [Hok Hx]. split; [done|]. intros x. rewrite Hx. naive_solver.
    - split; [done|]. intros x. split; [by left|]. intros [?|[? ->]]; [done|congruence]. }
  destruct Hacc1 as [Hok1 Hx1].
  assert (Hlt : (size (dom by_id ∖ ({[p]} ∪ ancestors)) < size (dom by_id ∖ ancestors))%nat) by (apply subset_size; set_solver).
  destruct (IH ({[p]} ∪ ancestors) (cd_parent_id parent) acc1 Hok1) as [(acc' & Hrun & Hok' & Hx')|(q & y & Hrun & Hq & Hr & Hn)].
  - intros v q [->%elem_of_singleton|Hv]%elem_of_union Hq.
    + by apply tc_once, (edge_from p parent).
    + eapply tc_r; [by apply Hvis|by apply (edge_from p parent)].
  - set_solver.
  - left. lia.
  - left. exists acc'. split_and!; [done..|]. intros c. rewrite Hx', Hx1. split.
    + intros [[?|[Ha ->]]|(Ha & Hc & q & Hq & Hr)]; [by left|right|right].
      * split_and!; [done..|]. exists p. split; [done|]. rewrite (Hids _ _ Hp). apply rtc_refl.
      * split_and!; [done..|]. exists p. split; [done|]. apply (rtc_edge_inv p parent); [done|]. right. by exists q.
    + intros [?|(Ha & Hc & ? & [= <-] & Hr)]; [by left; left|].
      apply (rtc_edge_inv p parent _ Hp) in Hr as [Heq|(q & Hq & Hr)].
      * left. right. rewrite Heq in Hc. by simplify_eq.
      * right. split_and!; [done..|]. by exists q.
  - right. exists p, y. split_and!; [done..|]. split; [|done]. apply (rtc_edge_inv p parent); [done|]. right. by exists q.
Qed.

(** Why a selection can fail. *)
Inductive refused (direct_ids : list ContextId) : StoreError.t → Prop :=
  | refused_missing d : d ∈ direct_ids → by_id !! d = None → refused direct_ids (not_selectable d)
  | refused_archived d c : d ∈ direct_ids → by_id !! d = Some c → is_active c = false → refused direct_ids (archived_selection d)
  | refused_parent d y : d ∈ direct_ids → missing_above d y → d ≠ y → refused direct_ids (unavailable_parent d y).
#[local] Hint Constructors refused : core.

Lemma refused_mono d direct_ids e : refused direct_ids e → refused (d :: direct_ids) e.
Proof. intros Hr. inversion Hr; subst; eauto using list_elem_of_further. Qed.

(** What a selection covers by walking up: the active rows at or above it. *)
Definition above (direct_ids : list ContextId) (c : ContextDefinition) : Prop :=
  is_active c = true ∧ by_id !! cd_id c = Some c ∧ ∃ d, d ∈ direct_ids ∧ rtc (edge by_id) d (cd_id c).

Lemma add_selected_spec fuel direct_ids acc :
  acc_ok acc → (S (size (dom by_id)) < fuel)%nat →
  (∃ acc', add_selected by_id fuel direct_ids acc = Some (Ok acc') ∧ acc_ok acc'
     ∧ (∀ d, d ∈ direct_ids → ∃ c, by_id !! d = Some c ∧ is_active c = true)
     ∧ ∀ c, c ∈ fst acc' ↔ c ∈ fst acc ∨ above direct_ids c)
  ∨ ∃ e, add_selected by_id fuel direct_ids acc = Some (Err e) ∧ refused direct_ids e.
Proof.
  intros Hacc Hf. revert acc Hacc. induction direct_ids as [|d rest IH]; intros acc Hacc; cbn.
  { left. exists acc. split_and!; [done..|by intros ? ?%elem_of_nil|]. intros c. split; [by left|].
    intros [?|(_ & _ & ? & []%elem_of_nil & _)]; done. }
  destruct (by_id !! d) as [direct|] eqn:Hd; [|right; eexists; split; [done|eauto using list_elem_of_here]].
  destruct (is_active direct) eqn:Ha; cbn; [|right; eexists; split; [done|eauto using list_elem_of_here]].
  assert (Hrow : by_id !! cd_id direct = Some direct) by (by rewrite (Hids _ _ Hd)).
  destruct (append_ok acc direct Hacc Hrow) as [Hok1 Hx1].
  destruct (add_ancestors_spec fuel d ∅ (cd_parent_id direct) (append_context_once acc direct) Hok1)
    as [(acc' & -> & Hok' & Hx')|(p & y & -> & Hp & Hr & Hn)]; [set_solver|set_solver|left; by rewrite difference_empty_L| |].
  2: { right. eexists. split; [done|]. constructor 3; [apply list_elem_of_here| |by intros ->; congruence].
       split; [|done]. apply (rtc_edge_inv d direct); [done|]. right. by exists p. }
  destruct (IH acc' Hok') as [(acc2 & -> & Hok2 & Hall & Hx2)|(e & -> & He)]; [left|right; eauto using refused_mono].
  exists acc2. split_and!; [done..| |].
  - intros i [->|Hi]%elem_of_cons; [by exists direct|by apply Hall].
  - assert (Hup : ∀ c, by_id !! cd_id c = Some c → rtc (edge by_id) d (cd_id c) ↔ c = direct ∨ ∃ p, cd_parent_id direct = Some p ∧ rtc (edge by_id) p (cd_id c)).
    { intros c Hc. rewrite (rtc_edge_inv d direct) by done. split; (intros [He|He]; [left|by right]).
      - rewrite He in Hc. by simplify_eq.
      - subst c. by apply Hids. }
    intros c. rewrite Hx2, Hx', Hx1. unfold above. split.
    + intros [[[?| ->]|(Hc1 & Hc2 & Hc3)]|(Hc1 & Hc2 & i & Hi & Hr)]; [by left|right..].
      * split_and!; [done..|]. exists d. split; [apply list_elem_of_here|]. rewrite (Hids _ _ Hd). apply rtc_refl.
      * split_and!; [done..|]. exists d. split; [apply list_elem_of_here|]. apply Hup; [done|]. by right.
      * split_and!; [done..|]. exists i. split; [by apply list_elem_of_further|done].
    + intros [?|(Hc1 & Hc2 & i & [->|Hi]%elem_of_cons & Hr)]; [by left; left; left| |].
      * apply Hup in Hr as [->|Hr]; [by left; left; right|by left; right|done].
      * right. split_and!; [done..|]. by exists i.
Qed.

Lemma below_anchor_spec fuel (anchors visited : gset ContextId) cursor :
  (∀ v p, v ∈ visited → cursor = Some p → tc (edge by_id) v p) →
  (visited ⊆ dom by_id ∧ (S (size (dom by_id ∖ visited)) < fuel)%nat) ∨ (cursor = None ∧ (0 < fuel)%nat) →
  ∃ b, below_anchor by_id fuel anchors visited cursor = Some (Ok b)
     ∧ (b = true ↔ ∃ p a, cursor = Some p ∧ a ∈ anchors ∧ rtc (edge by_id) p a).
Proof.
  revert visited cursor. induction fuel as [|fuel IH]; intros visited cursor Hvis Hf; [lia|]. cbn.
  destruct cursor as [p|]; [|exists false; split; [done|]; split; [done|]; by intros (? & ? & ? & _)].
  case_bool_decide as Hin; [exfalso; by apply (Hacyclic p), (Hvis p p)|].
  case_bool_decide as Ha; [exists true; split; [done|]; split; [|done]; intros _; exists p, p; split_and!; [done..|apply rtc_refl]|].
  destruct Hf as [[Hsub Hf]|[? _]]; [|done].
  destruct (by_id !! p) as [parent|] eqn:Hp; cbn.
  - assert (Hpd : p ∈ dom by_id) by (by apply elem_of_dom_2 in Hp).
    assert (Hlt : (size (dom by_id ∖ ({[p]} ∪ visited)) < size (dom by_id ∖ visited))%nat) by (apply subset_size; set_solver).
    destruct (IH ({[p]} ∪ visited) (cd_parent_id parent)) as (b & -> & Hb).
    + intros v q [->%elem_of_singleton|Hv]%elem_of_union Hq.
      * by apply tc_once, (edge_from p parent).
      * eapply tc_r; [by apply Hvis|by apply (edge_from p parent)].
    + left. split; [set_solver|lia].
    + exists b. split; [done|]. rewrite Hb. split.
      * intros (q & a & Hq & Hqa & Hr). exists p, a. split_and!; [done..|]. apply (rtc_edge_inv p parent); [done|]. right. by exists q.
      * intros (? & a & [= <-] & Hqa & Hr). apply (rtc_edge_inv p parent _ Hp) in Hr as [->|(q & Hq & Hr)]; [done|]. by exists q, a.
  - destruct fuel as [|fuel]; [lia|]. exists false. split; [done|]. split; [done|].
    intros (? & a & [= <-] & Hqa & Hr). inversion Hr as [|? ? ? (row & Hrow & _)]; subst; [done|congruence].
Qed.

(** What a selection covers by walking down: the active rows strictly below it. *)
Definition below (direct_ids : list ContextId) (c : ContextDefinition) : Prop :=
  is_active c = true ∧ by_id !! cd_id c = Some c ∧ ∃ d, d ∈ direct_ids ∧ tc (edge by_id) (cd_id c) d.

Lemma add_descendants_spec fuel (direct_ids : list ContextId) candidates acc :
  acc_ok acc → (S (size (dom by_id)) < fuel)%nat → (∀ c, c ∈ candidates → by_id !! cd_id c = Some c) →
  ∃ acc', add_descendants by_id fuel (list_to_set direct_ids) candidates acc = Some (Ok acc') ∧ acc_ok acc'
     ∧ ∀ c, c ∈ fst acc' ↔ c ∈ fst acc ∨ (c ∈ candidates ∧ below direct_ids c).
Proof.
  intros Hacc Hf Hrows. revert acc Hacc. induction candidates as [|x rest IH]; intros acc Hacc; cbn.
  { exists acc. split_and!; [done..|]. intros c. split; [by left|]. by intros [?|[[]%elem_of_nil _]]. }
  assert (Hx : by_id !! cd_id x = Some x) by apply Hrows, list_elem_of_here.
  specialize (IH (λ c Hc, Hrows c (list_elem_of_further c x rest Hc))).
  destruct (is_active x) eqn:Ha; cbn.
  2: { destruct (IH acc Hacc) as (acc' & Hrun & Hok & Hin). exists acc'. split_and!; [done..|]. intros c. rewrite Hin.
       split; [by intros [?|[? ?]]; [left|right; split; [apply list_elem_of_further|]]|].
       intros [?|[[->|?]%elem_of_cons Hb]]; [by left| |by right]. destruct Hb as (Hb & _ & _). congruence. }
  destruct (below_anchor_spec fuel (list_to_set direct_ids) ∅ (cd_parent_id x)) as (b & -> & Hb); [set_solver|left; split; [set_solver|by rewrite difference_empty_L]|].
  assert (Hbelow : b = true ↔ below direct_ids x).
  { rewrite Hb. unfold below. split.
    - intros (p & a & Hp & Hin%elem_of_list_to_set & Hr). split_and!; [done..|]. exists a. split; [done|]. apply (tc_edge_inv _ x); [done|]. by exists p.
    - intros (_ & _ & a & Hin & Ht). apply (tc_edge_inv _ x _ Hx) in Ht as (p & Hp & Hr). exists p, a. by rewrite elem_of_list_to_set. }
  assert (Hstep : acc_ok (if b then append_context_once acc x else acc)
                  ∧ ∀ c, c ∈ fst (if b then append_context_once acc x else acc) ↔ c ∈ fst acc ∨ (c = x ∧ below direct_ids x)).
  { destruct b.
    - destruct (append_ok acc x Hacc Hx) as [Hok Hin]. split; [done|]. intros c. rewrite Hin. naive_solver.
    - split; [done|]. intros c. split; [by left|]. intros [?|[_ Hy]]; [done|]. apply Hbelow in Hy. done. }
  destruct Hstep as [Hok1 Hin1]. destruct (IH _ Hok1) as (acc' & -> & Hok & Hin). exists acc'. split_and!; [done..|].
  intros c. rewrite Hin, Hin1, elem_of_cons. naive_solver.
Qed.
End expand_correct.

(** ** The expansion of a list of definitions *)

Section expansion.
Context `{Render} (definitions : list ContextDefinition).
Hypothesis Hnodup : NoDup (map cd_id definitions).

Lemma pairs_nodup : NoDup (reverse (map (λ c, (cd_id c, c)) definitions)).*1.
Proof. rewrite reverse_Permutation. by rewrite <- list_fmap_compose. Qed.
Lemma definitions_by_id_lookup i c : definitions_by_id definitions !! i = Some c ↔ c ∈ definitions ∧ cd_id c = i.
Proof.
  unfold definitions_by_id. rewrite <- (elem_of_list_to_map _ _ _ pairs_nodup), elem_of_reverse, list_elem_of_fmap. naive_solver.
Qed.
Lemma definitions_by_id_size : (size (dom (definitions_by_id definitions)) ≤ length definitions)%nat.
Proof.
  unfold definitions_by_id. rewrite dom_list_to_map_L, size_list_to_set by apply pairs_nodup.
  by rewrite length_fmap, length_reverse, length_map.
Qed.
End expansion.

(** Expansion of a selection: for definitions with distinct ids and no cycle
    the loops terminate with the fuel they are given. The result names every
    context at most once and a context is in it exactly when it is a
    definition, is active, and is selected, above a selected context or, with
    descendants asked for, strictly below one; a failure says which of the
    reasons there was. *)
Lemma expand_context_definitions_spec `{Render} (definitions : list ContextDefinition) (direct_ids : list ContextId)
    (include_descendants : bool) (Hnodup : NoDup (map cd_id definitions)) (Hacyclic : acyclic (definitions_by_id definitions)) :
  let by_id := definitions_by_id definitions in
  match expand_context_definitions definitions direct_ids include_descendants with
  | None => False
  | Some (Ok l) =>
      NoDup (map cd_id l) ∧ len (List.filter is_active definitions) ≤ MAX_EFFECTIVE_CONTEXTS
      ∧ (∀ d, d ∈ direct_ids → ∃ c, c ∈ definitions ∧ cd_id c = d ∧ is_active c = true)
      ∧ ∀ c, c ∈ l ↔ c ∈ definitions ∧ is_active c = true ∧ ∃ d, d ∈ direct_ids
           ∧ (rtc (edge by_id) d (cd_id c) ∨ (include_descendants = true ∧ tc (edge by_id) (cd_id c) d))
  | Some (Err e) => (MAX_EFFECTIVE_CONTEXTS < len (List.filter is_active definitions) ∧ e = too_many_contexts) ∨ refused by_id direct_ids e
  end.
Proof.
  cbv zeta. unfold expand_context_definitions.
  destruct (MAX_EFFECTIVE_CONTEXTS <? len (List.filter is_active definitions)) eqn:Hmax.
  { left. split; [lia|reflexivity]. }
  set (by_id := definitions_by_id definitions) in *.
  assert (Hlk : ∀ i c, by_id !! i = Some c ↔ c ∈ definitions ∧ cd_id c = i) by by apply definitions_by_id_lookup.
  assert (Hids : ∀ i c, by_id !! i = Some c → cd_id c = i) by (intros i c Hc; apply Hlk in Hc; by destruct Hc).
  assert (Hself : ∀ c, by_id !! cd_id c = Some c ↔ c ∈ definitions) by (intros c; rewrite Hlk; naive_solver).
  assert (Hf : (S (size (dom by_id)) < S (S (length definitions)))%nat) by (apply le_n_S, le_n_S, definitions_by_id_size, Hnodup).
  destruct (add_selected_spec by_id Hids Hacyclic _ direct_ids ([], ∅) ltac:(split_and!; [done|apply NoDup_nil_2|by intros ? ?%elem_of_nil]) Hf)
    as [(acc & -> & Hok & Hall & Hin)|(e & -> & He)]; [|by right].
  assert (Hsel : ∀ d, d ∈ direct_ids → ∃ c, c ∈ definitions ∧ cd_id c = d ∧ is_active c = true).
  { intros d (c & Hc & Ha)%Hall. apply Hlk in Hc. destruct Hc as [? ?]. by exists c. }
  destruct include_descendants.
  - destruct (add_descendants_spec by_id Hids Hacyclic _ direct_ids definitions acc Hok Hf) as (acc' & -> & Hok' & Hin'); [by intros c ?; apply Hself|].
    split_and!; [apply Hok'|lia|done|]. intros c. rewrite Hin', Hin. unfold above, below. cbn. rewrite !Hself, elem_of_nil. naive_solver.
  - split_and!; [apply Hok|lia|done|]. intros c. rewrite Hin. unfold above. cbn. rewrite !Hself, elem_of_nil. naive_solver.
Qed.

(** ** Termination on any definitions *)

Section total.
Context `{Render} (by_id : gmap ContextId ContextDefinition).

Lemma walk_shrinks (seen : gset ContextId) p c : p ∉ seen → by_id !! p = Some c →
  (size (dom by_id ∖ ({[p]} ∪ seen)) < size (dom by_id ∖ seen))%nat.
Proof. intros Hp Hc. apply elem_of_dom_2 in Hc. apply subset_size. set_solver. Qed.
Lemma add_ancestors_total fuel i ancestors cursor acc :
  (size (dom by_id ∖ ancestors) < fuel)%nat → is_Some (add_ancestors by_id fuel i ancestors cursor acc).
Proof.
  revert ancestors cursor acc. induction fuel as [|fuel IH]; intros ancestors cursor acc Hf; [lia|]. cbn.
  destruct cursor as [p|]; [|by eexists]. case_bool_decide as Hp; [by eexists|]. destruct (by_id !! p) as [c|] eqn:Hc; [|by eexists].
  apply IH. pose proof (walk_shrinks _ _ _ Hp Hc). lia.
Qed.
Lemma add_selected_total fuel direct_ids acc : (size (dom by_id) < fuel)%nat → is_Some (add_selected by_id fuel direct_ids acc).
Proof.
  intros Hf. revert acc. induction direct_ids as [|i ids IH]; intros acc; cbn; [by eexists|].
  destruct (by_id !! i) as [c|]; [|by eexists]. destruct (is_active c); cbn; [|by eexists].
  destruct (add_ancestors_total fuel i ∅ (cd_parent_id c) (append_context_once acc c)) as [[acc'|e] ->]; [|apply IH|by eexists].
  by rewrite difference_empty_L.
Qed.
Lemma below_anchor_total fuel anchors visited cursor :
  (S (size (dom by_id ∖ visited)) < fuel)%nat → is_Some (below_anchor by_id fuel anchors visited cursor).
Proof.
  revert visited cursor. induction fuel as [|fuel IH]; intros visited cursor Hf; [lia|]. cbn.
  destruct cursor as [p|]; [|by eexists]. case_bool_decide as Hp; [by eexists|]. case_bool_decide; [by eexists|].
  destruct (by_id !! p) as [c|] eqn:Hc; cbn.
  - apply IH. pose proof (walk_shrinks _ _ _ Hp Hc). lia.
  - destruct fuel; [lia|]. by eexists.
Qed.
Lemma add_descendants_total fuel anchors candidates acc :
  (S (size (dom by_id)) < fuel)%nat → is_Some (add_descendants by_id fuel anchors candidates acc).
Proof.
  intros Hf. revert acc. induction candidates as [|c l IH]; intros acc; cbn; [by eexists|].
  destruct (is_active c); cbn; [|apply IH].
  destruct (below_anchor_total fuel anchors ∅ (cd_parent_id c)) as [[b|e] ->]; [|apply IH|by eexists]. by rewrite difference_empty_L.
Qed.
End total.
Lemma expand_context_definitions_total `{Render} (definitions : list ContextDefinition) ids flag :
  is_Some (expand_context_definitions definitions ids flag).
Proof.
  unfold expand_context_definitions. destruct (_ <? _); [by eexists|].
  assert (Hsize : (size (dom (definitions_by_id definitions)) ≤ length definitions)%nat).
  { unfold definitions_by_id. rewrite dom_list_to_map_L. etrans; [apply size_list_to_set_le|].
    by rewrite length_fmap, length_reverse, length_map. }
  destruct (add_selected_total (definitions_by_id definitions) (S (S (length definitions))) ids ([], ∅)) as [[acc|e] ->]; [lia| |by eexists].
  destruct flag; [|by eexists].
  destruct (add_descendants_total (definitions_by_id definitions) (S (S (length definitions))) (list_to_set ids) definitions acc) as [[?|?] ->];
    [lia|by eexists..].
Qed.
