(* ===== verification/Selection.v ===== *)
(** * Selection: the contexts a principal's selection covers

    [expand_context_selection] of [src/src/store/context_store.rs]: the check
    of the selected contexts, the recursive query that picks the rows, and the
    expansion in Rust ([ContextSelect]). A recursive common table expression
    is the closure of its start under its step, computed by as many rounds as
    the table has rows. [LIMIT] without [ORDER BY] takes rows SQLite chooses:
    the choice is the parameter [limit_rows]. *)
From Stdlib Require Import ZArith Lia.
From stdpp Require Import base list option relations strings gmap sets pretty.
From S2P Require Import Prelude Text Floats Lists Errors Types Validation Context StoreTypes Ranking Store Membership Crud Revisions Operations Integrity ContextAdmin Governance Hierarchy ContextSelect.

(** ** Recursive queries *)

Section closure.
Context {A} `{Countable A}.

Fixpoint closure (step : gset A → gset A) (n : nat) (rows : gset A) : gset A :=
  match n with
  | O => rows
  | S n => closure step n (rows ∪ step rows)
  end.

Context (step : gset A → gset A) (R : relation A) (U : gset A).
Hypothesis Hstep : ∀ X y, y ∈ step X ↔ ∃ x, x ∈ X ∧ R x y.
Hypothesis HU : ∀ x y, R x y → y ∈ U.

Lemma closure_stable n X : step X ⊆ X → closure step n X = X.
Proof. revert X. induction n as [|n IH]; intros X HX; cbn; [done|]. replace (X ∪ step X) with X by set_solver. by apply IH. Qed.
Lemma closure_closed n X : (size (U ∖ X) ≤ n)%nat → step (closure step n X) ⊆ closure step n X.
Proof.
  assert (Hsub : ∀ X, step X ⊆ U) by (intros Y y (x & _ & Hr)%Hstep; by apply HU in Hr).
  revert X. induction n as [|n IH]; intros X HX; cbn.
  - assert (U ∖ X = ∅) by (apply leibniz_equiv, size_empty_inv; lia). specialize (Hsub X). set_solver.
  - destruct (decide (step X ⊆ X)) as [Hs|Hs].
    + replace (X ∪ step X) with X by set_solver. by rewrite closure_stable.
    + apply IH. assert (size (U ∖ (X ∪ step X)) < size (U ∖ X))%nat; [|lia].
      apply subset_size. specialize (Hsub X). split; [set_solver|].
      intros Hss. apply Hs. intros y Hy. destruct (decide (y ∈ X)) as [|Hn]; [done|]. exfalso.
      assert (Hu : y ∈ U ∖ X) by set_solver. apply Hss in Hu. set_solver.
Qed.
Lemma closure_grows n X : X ⊆ closure step n X.
Proof. revert X. induction n as [|n IH]; intros X; cbn; [done|]. specialize (IH (X ∪ step X)). set_solver. Qed.

Lemma elem_of_closure n X y : (size (U ∖ X) ≤ n)%nat → y ∈ closure step n X ↔ ∃ x, x ∈ X ∧ rtc R x y.
Proof.
  intros HX. split.
  - clear HX. revert X. induction n as [|n IH]; intros X; cbn; [intros Hy; by exists y|].
    intros (x & [Hx|(z & Hz & Hr)%Hstep]%elem_of_union & Hxy)%IH; [by exists x|]. exists z. split; [done|]. by eapply rtc_l.
  - intros (x & Hx & Hr). assert (Hin : x ∈ closure step n X) by by apply closure_grows. clear Hx.
    induction Hr as [x|x z y Hxz _ IH]; [done|]. apply IH, (closure_closed n X HX), Hstep. by exists x.
Qed.
End closure.

(** ** The selection *)

Section select.
Context `{Render, UnicodeCase} (limit_rows : nat → gset ContextId → gset ContextId) (reg : ContextRegistry).

Definition visible_contexts (principal : string) : gmap ContextId ContextDefinition :=
  filter (λ row, context_visible reg (fst row) (snd row) principal = true) (reg_contexts reg).

Definition check_selected (principal : string) (context_ids : list ContextId) : result StoreError.t unit :=
  try_for_each (λ id, context ← ok_or (not_selectable id) (visible_contexts principal !! id);
                      bail_if (negb (is_active context)) (archived_selection id)) context_ids.

(** Visible rows whose parent is among [rows]. *)
Definition children_of (principal : string) (include_descendants : bool) (rows : gset ContextId) : gset ContextId :=
  if include_descendants
  then dom (filter (λ row, from_option (λ p, bool_decide (p ∈ rows)) false (cd_parent_id (snd row)) = true) (visible_contexts principal))
  else ∅.
(** Visible parents of the rows. *)
Definition parents_of (principal : string) (rows : gset ContextId) : gset ContextId :=
  list_to_set (omap (λ i, reg_contexts reg !! i ≫= cd_parent_id) (elements rows)) ∩ dom (visible_contexts principal).

Definition rounds : nat := size (reg_contexts reg).
Definition effective (principal : string) (context_ids : list ContextId) (include_descendants : bool) : gset ContextId :=
  closure (parents_of principal) rounds
    (closure (children_of principal include_descendants) rounds (list_to_set context_ids)).
Definition active_rows (rows : gset ContextId) : gset ContextId :=
  filter (λ i, from_option is_active false (reg_contexts reg !! i) = true) rows.
Definition expansion_limit : nat := Z.to_nat (MAX_EFFECTIVE_CONTEXTS + 1).
Definition selected_effective (principal : string) (context_ids : list ContextId) (include_descendants : bool) : gset ContextId :=
  closure (parents_of principal) rounds
    (limit_rows expansion_limit (active_rows (effective principal context_ids include_descendants))).

(** [ORDER BY context_row.kind, context_row.normalized_key, context_row.id]. *)
Definition cmp_context_row : ContextDefinition → ContextDefinition → comparison :=
  then_with (cmp_on (λ c, ContextKind.as_str (cd_kind c)) String.compare)
    (then_with (cmp_on (λ c, normalize_context_key (cd_key c)) String.compare) (cmp_on cd_id N.compare)).
Definition rows_of (ids : gset ContextId) : list ContextDefinition :=
  sort_by cmp_context_row (map snd (map_to_list (filter (λ row, fst row ∈ ids) (reg_contexts reg)))).

Definition expand_context_selection (context_ids : list ContextId) (principal : string) (include_descendants : bool) :
    option (result StoreError.t (list ContextDefinition)) :=
  match check_selected principal context_ids with
  | Err e => Some (Err e)
  | Ok _ => expand_context_definitions (rows_of (selected_effective principal context_ids include_descendants))
              context_ids include_descendants
  end.
End select.

(** ** Correctness *)

(** A choice of rows for [LIMIT n]: all of them when there are no more. *)
Definition limits (limit_rows : nat → gset ContextId → gset ContextId) : Prop := ∀ n rows,
  limit_rows n rows ⊆ rows ∧ ((size rows ≤ n)%nat → limit_rows n rows = rows) ∧ ((n < size rows)%nat → size (limit_rows n rows) = n).

(** The contexts a selection stands for, among the rows [table]. *)
Definition covers (table : gmap ContextId ContextDefinition) (context_ids : list ContextId) (include_descendants : bool) (c : ContextDefinition) : Prop :=
  is_active c = true ∧ table !! cd_id c = Some c ∧ ∃ d, d ∈ context_ids
  ∧ (rtc (edge table) d (cd_id c) ∨ (include_descendants = true ∧ tc (edge table) (cd_id c) d)).

Lemma edge_functional contexts x y z : edge contexts x y → edge contexts x z → y = z.
Proof. intros (c & Hc & Hy) (d & Hd & Hz). by simplify_eq. Qed.
Lemma edge_linear contexts x y z : rtc (edge contexts) x y → rtc (edge contexts) x z → rtc (edge contexts) y z ∨ rtc (edge contexts) z y.
Proof.
  intros Hy. revert z. induction Hy as [x|x w y Hw Hy IH]; intros z Hz; [by left|].
  inversion Hz as [|? w' ? Hw' Hz']; subst; [right; by eapply rtc_l|].
  pose proof (edge_functional _ _ _ _ Hw Hw') as ->. by apply IH.
Qed.
Lemma tc_edge_mono contexts contexts' x y : contexts ⊆ contexts' → tc (edge contexts) x y → tc (edge contexts') x y.
Proof.
  intros Hsub. assert (He : ∀ u v, edge contexts u v → edge contexts' u v).
  { intros u v (c & Hc & Hp). exists c. split; [by eapply lookup_weaken|done]. }
  induction 1 as [u v Huv|u v w Huv _ IH]; [by apply tc_once, He|]. eapply tc_l; [by apply He|done].
Qed.

Section correct.
Context `{Render, UnicodeCase}.
Context (reg : ContextRegistry) (Hwf : wf_registry reg) (principal : string) (context_ids : list ContextId) (flag : bool).
#[local] Notation T := (visible_contexts reg principal).

Lemma visible_lookup i c : T !! i = Some c ↔ reg_contexts reg !! i = Some c ∧ context_visible reg i c principal = true.
Proof. apply map_lookup_filter_Some. Qed.
Lemma visible_sub : T ⊆ reg_contexts reg.
Proof. apply map_filter_subseteq. Qed.
Lemma visible_ids i c : T !! i = Some c → cd_id c = i.
Proof. intros [Hc _]%visible_lookup. by apply (wr_ids _ Hwf). Qed.
Lemma visible_rounds (X : gset ContextId) : (size (dom T ∖ X) ≤ rounds reg)%nat.
Proof.
  unfold rounds. rewrite <- size_dom. apply subseteq_size. pose proof (subseteq_dom _ _ visible_sub). set_solver.
Qed.
Lemma visible_row i c : i ∈ dom T → reg_contexts reg !! i = Some c → T !! i = Some c.
Proof. intros [d Hd]%elem_of_dom Hc. pose proof Hd as [Hd' _]%visible_lookup. by simplify_eq. Qed.
Lemma edge_dom x y : edge T x y → x ∈ dom T.
Proof. intros (c & Hc & _). by apply elem_of_dom_2 in Hc. Qed.

Lemma check_selected_spec :
  match check_selected reg principal context_ids with
  | Ok _ => ∀ d, d ∈ context_ids → ∃ c, T !! d = Some c ∧ is_active c = true
  | Err e => refused T context_ids e
  end.
Proof.
  unfold check_selected. induction context_ids as [|d rest IH]; cbn; [by intros d ?%elem_of_nil|].
  destruct (T !! d) as [c|] eqn:Hd; cbn; [|constructor; [apply list_elem_of_here|done]].
  destruct (is_active c) eqn:Ha; cbn; [|econstructor 2; [apply list_elem_of_here|done..]].
  case_match; [|by apply refused_mono]. intros i [->|Hi]%elem_of_cons; [by exists c|by apply IH].
Qed.

Lemma elem_of_children X y : y ∈ children_of reg principal flag X ↔ ∃ x, x ∈ X ∧ (flag = true ∧ edge T y x).
Proof.
  unfold children_of. destruct flag; [|split; [set_solver|by intros (? & _ & ? & _)]].
  rewrite elem_of_dom. unfold is_Some. setoid_rewrite map_lookup_filter_Some. cbn. unfold edge. split.
  - intros (c & Hc & Hp). destruct (cd_parent_id c) as [p|] eqn:E; cbn in Hp; [|done]. apply bool_decide_eq_true in Hp. eauto 6.
  - intros (x & Hx & _ & c & Hc & Hp). exists c. rewrite Hp. cbn. by rewrite bool_decide_eq_true.
Qed.
Lemma elem_of_parents X y : y ∈ parents_of reg principal X ↔ ∃ x, x ∈ X ∧ (edge (reg_contexts reg) x y ∧ y ∈ dom T).
Proof.
  unfold parents_of. rewrite elem_of_intersection, elem_of_list_to_set, list_elem_of_omap. unfold edge. split.
  - intros [(x & Hx%elem_of_elements & (c & Hc & Hp)%bind_Some) Hy]. eauto 8.
  - intros (x & Hx & (c & Hc & Hp) & Hy). split; [|done]. exists x. rewrite elem_of_elements, Hc. done.
Qed.

(** The two closures. *)
Lemma elem_of_descendants (X : gset ContextId) x :
  x ∈ closure (children_of reg principal flag) (rounds reg) X ↔ ∃ d, d ∈ X ∧ (d = x ∨ (flag = true ∧ tc (edge T) x d)).
Proof.
  rewrite (elem_of_closure _ (λ x y, flag = true ∧ edge T y x) (dom T)); [|apply elem_of_children|intros ? ? [_ He]; by eapply edge_dom|apply visible_rounds].
  f_equiv. intros d. f_equiv. split.
  - intros Hr. revert x Hr. apply rtc_ind_r; [by left|]. intros y x _ [Hf He] [->|[_ Ht]]; right; (split; [done|]);
      [by apply tc_once|by eapply tc_l].
  - intros [->|[Hf Ht]]; [apply rtc_refl|]. induction Ht as [x d He|x y d He _ IH]; [by apply rtc_once|by eapply rtc_r].
Qed.
Lemma rtc_parents x y : x ∈ dom T → rtc (λ x y, edge (reg_contexts reg) x y ∧ y ∈ dom T) x y ↔ rtc (edge T) x y ∧ y ∈ dom T.
Proof.
  intros Hx. split.
  - intros Hr. induction Hr as [|x z y [(c & Hc & Hp) Hz] _ IH]; [by split; [apply rtc_refl|]|].
    destruct (IH Hz) as [? ?]. split; [|done]. eapply rtc_l; [|done]. exists c. split; [by apply visible_row|done].
  - intros [Hr Hy]. clear Hx. induction Hr as [|x z y (c & Hc & Hp) Hr IH]; [apply rtc_refl|].
    apply rtc_l with z; [|by apply IH]. split; [exists c; split; [by apply visible_lookup in Hc as [? _]|done]|].
    inversion Hr as [|? ? ? He]; subst; [done|by eapply edge_dom].
Qed.
Lemma elem_of_upwards X x : X ⊆ dom T →
  x ∈ closure (parents_of reg principal) (rounds reg) X ↔ x ∈ dom T ∧ ∃ y, y ∈ X ∧ rtc (edge T) y x.
Proof.
  intros HX. rewrite (elem_of_closure _ (λ x y, edge (reg_contexts reg) x y ∧ y ∈ dom T) (dom T));
    [|apply elem_of_parents|by intros ? ? [_ ?]|apply visible_rounds].
  split.
  - intros (y & Hy & Hr). apply rtc_parents in Hr as [? ?]; [|by apply HX]. eauto.
  - intros (Hx & y & Hy & Hr). exists y. split; [done|]. apply rtc_parents; [by apply HX|done].
Qed.

Hypothesis Hids : ∀ d, d ∈ context_ids → ∃ c, T !! d = Some c ∧ is_active c = true.

Lemma descendants_visible : closure (children_of reg principal flag) (rounds reg) (list_to_set context_ids) ⊆ dom T.
Proof.
  intros x (d & Hd%elem_of_list_to_set & [->|[_ Ht]])%elem_of_descendants.
  - destruct (Hids _ Hd) as (c & Hc & _). by apply elem_of_dom_2 in Hc.
  - inversion Ht; subst; by eapply edge_dom.
Qed.
Lemma elem_of_effective x : x ∈ effective reg principal context_ids flag ↔
  x ∈ dom T ∧ ∃ d, d ∈ context_ids ∧ (rtc (edge T) d x ∨ (flag = true ∧ tc (edge T) x d)).
Proof.
  unfold effective. rewrite elem_of_upwards by apply descendants_visible. f_equiv. split.
  - intros (y & (d & Hd%elem_of_list_to_set & Hy)%elem_of_descendants & Hr). exists d. split; [done|].
    destruct Hy as [->|[Hf Ht]]; [by left|].
    destruct (edge_linear _ _ _ _ (tc_rtc _ _ Ht) Hr) as [?|Hxd]; [by left|].
    inversion Hxd; subst; [left; apply rtc_refl|right; split; [done|by eapply tc_rtc_r; [apply tc_once|]]].
  - intros (d & Hd & [Hr|[Hf Ht]]); [exists d|exists x]; (split; [|first [done|apply rtc_refl]]);
      apply elem_of_descendants; exists d; rewrite elem_of_list_to_set; eauto.
Qed.
#[local] Notation actives := (active_rows reg (effective reg principal context_ids flag)).
Lemma elem_of_actives x : x ∈ actives ↔ ∃ c, cd_id c = x ∧ covers T context_ids flag c.
Proof.
  unfold active_rows, covers. rewrite elem_of_filter, elem_of_effective. split.
  - intros (Ha & Hx & d & Hd). pose proof Hx as [c Hc]%elem_of_dom. pose proof Hc as [Hc' _]%visible_lookup.
    rewrite Hc' in Ha. cbn in Ha. pose proof (visible_ids _ _ Hc) as Hi. exists c. rewrite Hi. eauto 10.
  - intros (c & <- & Ha & Hc & d & Hd). pose proof Hc as [Hc' _]%visible_lookup. rewrite Hc'. split; [done|].
    split; [by apply elem_of_dom_2 in Hc|eauto].
Qed.
Lemma actives_visible : actives ⊆ dom T.
Proof. intros x (c & <- & _ & Hc & _)%elem_of_actives. by apply elem_of_dom_2 in Hc. Qed.

(** The rows of a set of visible ids, as the query returns them. *)
Lemma elem_of_rows S c : S ⊆ dom T → c ∈ rows_of reg S ↔ cd_id c ∈ S ∧ T !! cd_id c = Some c.
Proof.
  intros HS. unfold rows_of. rewrite (elem_of_sort_by cmp_context_row), list_elem_of_fmap. split.
  - intros ([i x] & -> & Hx). apply elem_of_map_to_list, map_lookup_filter_Some in Hx as [Hx Hi]. cbn in *.
    rewrite (wr_ids _ Hwf _ _ Hx). split; [done|]. apply visible_row; [by apply HS|done].
  - intros [Hi [Hc _]%visible_lookup]. exists (cd_id c, c). split; [done|].
    by apply elem_of_map_to_list, map_lookup_filter_Some.
Qed.
Lemma rows_nodup S : NoDup (map cd_id (rows_of reg S)).
Proof.
  unfold rows_of. rewrite (sort_by_perm cmp_context_row), map_map.
  replace (map (λ x : ContextId * ContextDefinition, cd_id (snd x)) _) with (map_to_list (filter (λ row, fst row ∈ S) (reg_contexts reg))).*1.
  - apply NoDup_fst_map_to_list.
  - apply map_ext_in. intros [i c] Hin%list_elem_of_In. apply elem_of_map_to_list, map_lookup_filter_Some in Hin as [Hc _].
    symmetry. apply (wr_ids _ Hwf _ _ Hc).
Qed.

(** Counting the active rows. *)
Lemma active_rows_len S : S ⊆ dom T →
  len (List.filter is_active (rows_of reg S)) = Z.of_nat (size (active_rows reg S)).
Proof.
  intros HS. unfold len. f_equal. rewrite <- (length_map cd_id), <- (size_list_to_set (C := gset ContextId)).
  2: { apply NoDup_map_filter, rows_nodup. }
  f_equal. apply set_eq. intros i. unfold active_rows. rewrite elem_of_list_to_set, elem_of_filter, list_elem_of_fmap. split.
  - intros (c & -> & Hin). apply list_elem_of_In, filter_In in Hin as [Hin%list_elem_of_In Ha].
    apply elem_of_rows in Hin as [Hi Hc]; [|done]. apply visible_lookup in Hc as [Hc _]. by rewrite Hc.
  - intros [Ha Hi]. destruct (reg_contexts reg !! i) as [c|] eqn:Hc; cbn in Ha; [|done]. pose proof (wr_ids _ Hwf _ _ Hc) as Hid.
    exists c. split; [done|]. apply list_elem_of_In, filter_In. split; [|done]. apply list_elem_of_In, elem_of_rows; [done|].
    rewrite Hid. split; [done|]. apply visible_row; [by apply HS|done].
Qed.

(** The table the expansion works on: the visible rows in an upward closed set. *)
Context (S : gset ContextId) (HS : S ⊆ dom T) (Hup : ∀ x y, x ∈ S → edge T x y → y ∈ dom T → y ∈ S).
#[local] Notation D := (definitions_by_id (rows_of reg S)).
Lemma table_lookup i c : D !! i = Some c ↔ i ∈ S ∧ T !! i = Some c.
Proof.
  rewrite (definitions_by_id_lookup _ (rows_nodup S)), elem_of_rows by done. split; [by intros [? <-]|].
  intros [Hi Hc]. by rewrite (visible_ids _ _ Hc).
Qed.
Lemma table_edge x y : edge D x y ↔ x ∈ S ∧ edge T x y.
Proof. unfold edge. setoid_rewrite table_lookup. naive_solver. Qed.
Lemma table_rtc x y : x ∈ S → rtc (edge D) x y ↔ rtc (edge T) x y.
Proof.
  intros Hx. split.
  - clear Hx. induction 1 as [x|x z y [_ He]%table_edge _ IH]; [apply rtc_refl|by eapply rtc_l].
  - intros Hr. induction Hr as [x|x z y He Hr IH]; [apply rtc_refl|]. apply rtc_l with z; [by apply table_edge|].
    inversion Hr as [|? w ? He']; subst; [apply rtc_refl|]. apply IH, (Hup x); [done..|by eapply edge_dom].
Qed.
Lemma table_tc x y : x ∈ S → tc (edge D) x y ↔ tc (edge T) x y.
Proof.
  intros Hx. split.
  - clear Hx. induction 1 as [x y [_ He]%table_edge|x z y [_ He]%table_edge _ IH]; [by apply tc_once|by eapply tc_l].
  - intros Hr. induction Hr as [x y He|x z y He Hr IH]; [by apply tc_once, table_edge|]. apply tc_l with z; [by apply table_edge|].
    apply IH, (Hup x); [done..|]. inversion Hr; subst; by eapply edge_dom.
Qed.
Lemma visible_acyclic : acyclic T.
Proof. intros c Ht. by apply (wr_acyclic _ Hwf c), (tc_edge_mono _ _ _ _ visible_sub). Qed.
Lemma table_acyclic : acyclic D.
Proof.
  intros c Ht. assert (Hc : c ∈ S) by (inversion Ht as [? ? [? _]%table_edge|? ? ? [? _]%table_edge]; done).
  apply table_tc in Ht; [|done]. by apply visible_acyclic in Ht.
Qed.
Lemma table_refused e : list_to_set context_ids ⊆ S → refused D context_ids e → refused T context_ids e.
Proof.
  intros Hin Hr. inversion Hr as [d Hd Hn|d c Hd Hc Ha|d y Hd [Hdy Hn] Hne]; subst; assert (HdS : d ∈ S) by set_solver.
  - constructor; [done|]. destruct (Hids d Hd) as (c & Hc & _). assert (Hx : D !! d = Some c) by by apply table_lookup. congruence.
  - apply table_lookup in Hc as [_ Hc]. by econstructor 2.
  - constructor 3; [done| |done]. rewrite table_rtc in Hdy by done. split; [done|]. destruct (T !! y) as [c|] eqn:Hc; [|done].
    assert (Hy : y ∈ S); [|assert (Hx : D !! y = Some c) by (by apply table_lookup); congruence].
    clear Hn Hne Hr Hd. induction Hdy as [|d z y He Hzy IH]; [done|]. apply IH; [|done]. apply (Hup d); [done..|].
    inversion Hzy; subst; [by apply elem_of_dom_2 in Hc|by eapply edge_dom].
Qed.
End correct.

Section selection.
Context `{Render, UnicodeCase} (limit_rows : nat → gset ContextId → gset ContextId) (Hlimit : limits limit_rows).
Context (reg : ContextRegistry) (Hwf : wf_registry reg) (principal : string) (context_ids : list ContextId) (flag : bool).
#[local] Notation T := (visible_contexts reg principal).
Hypothesis Hids : ∀ d, d ∈ context_ids → ∃ c, T !! d = Some c ∧ is_active c = true.
#[local] Notation actives := (active_rows reg (effective reg principal context_ids flag)).
#[local] Notation capped := (limit_rows expansion_limit actives).
#[local] Notation S := (selected_effective limit_rows reg principal context_ids flag).

Lemma capped_actives : capped ⊆ actives.
Proof. apply Hlimit. Qed.
Lemma elem_of_selected x : x ∈ S ↔ x ∈ dom T ∧ ∃ y, y ∈ capped ∧ rtc (edge T) y x.
Proof.
  apply (elem_of_upwards reg Hwf principal). etrans; [apply capped_actives|]. by apply actives_visible.
Qed.
Lemma selected_visible : S ⊆ dom T.
Proof. by intros x [? _]%elem_of_selected. Qed.
Lemma selected_upward x y : x ∈ S → edge T x y → y ∈ dom T → y ∈ S.
Proof.
  intros (_ & z & Hz & Hr)%elem_of_selected He Hy. apply elem_of_selected. split; [done|]. exists z. split; [done|].
  by eapply rtc_r.
Qed.
Lemma capped_selected : capped ⊆ active_rows reg S.
Proof.
  intros x Hx. pose proof (capped_actives x Hx) as Ha. unfold active_rows in *. apply elem_of_filter in Ha as [Ha Hv].
  apply elem_of_filter. split; [done|]. apply elem_of_selected. apply (elem_of_effective reg Hwf) in Hv as [Hv _]; [|done].
  split; [done|]. exists x. split; [done|apply rtc_refl].
Qed.
Lemma selected_actives : active_rows reg S ⊆ actives.
Proof.
  intros x [Ha (Hx & y & Hy%capped_actives & Hr)%elem_of_selected]%elem_of_filter. apply elem_of_filter. split; [done|].
  apply elem_of_filter in Hy as [_ Hy]. unfold effective in *.
  apply (elem_of_upwards reg Hwf) in Hy as (Hyd & z & Hz & Hzy); [|by apply descendants_visible].
  apply (elem_of_upwards reg Hwf); [by apply descendants_visible|]. split; [done|]. exists z. split; [done|]. by etrans.
Qed.

(** The cap does not change which selections are too large. *)
Lemma cap_exact : (expansion_limit = Datatypes.S (Z.to_nat MAX_EFFECTIVE_CONTEXTS))%nat →
  (MAX_EFFECTIVE_CONTEXTS < len (List.filter is_active (rows_of reg S)) ↔ MAX_EFFECTIVE_CONTEXTS < Z.of_nat (size actives))
  ∧ (Z.of_nat (size actives) ≤ MAX_EFFECTIVE_CONTEXTS → active_rows reg S = actives).
Proof.
  intros Hl. rewrite (active_rows_len reg Hwf principal) by apply selected_visible.
  pose proof (subseteq_size _ _ capped_selected). pose proof (subseteq_size _ _ selected_actives).
  destruct (Hlimit expansion_limit actives) as (_ & Hall & Hcut). assert (0 ≤ MAX_EFFECTIVE_CONTEXTS) by (vm_compute; congruence).
  destruct (decide (size actives ≤ expansion_limit)%nat) as [Hle|Hgt].
  - specialize (Hall Hle). split; [rewrite Hall in *; lia|]. intros _. apply set_eq. intros x. split; [apply selected_actives|].
    intros Hx. apply capped_selected. by rewrite Hall.
  - specialize (Hcut ltac:(lia)). split; [lia|]. lia.
Qed.
End selection.

(** C33. Selecting contexts: over well-formed context tables, and however
    SQLite chooses the rows its [LIMIT] keeps, [expand_context_selection]
    terminates. When it succeeds, every selected context is visible to the
    principal and active, and the result holds, once each and at most
    [MAX_EFFECTIVE_CONTEXTS] of them, exactly the active contexts visible to
    the principal that are selected, above a selected one, or (with
    descendants asked for) below one along visible contexts. When it fails,
    either more contexts than the maximum are covered, or a selected context
    is not visible or archived, or a chain of parents leads to a context the
    principal cannot see, and the error names it. *)
Theorem selection_exact `{Render, UnicodeCase} (limit_rows : nat → gset ContextId → gset ContextId) (Hlimit : limits limit_rows)
    (reg : ContextRegistry) (Hwf : wf_registry reg) (principal : string) (context_ids : list ContextId) (flag : bool) :
  let T := visible_contexts reg principal in
  match expand_context_selection limit_rows reg context_ids principal flag with
  | None => False
  | Some (Ok l) =>
      (∀ d, d ∈ context_ids → ∃ c, T !! d = Some c ∧ is_active c = true)
      ∧ NoDup (map cd_id l) ∧ len l ≤ MAX_EFFECTIVE_CONTEXTS ∧ ∀ c, c ∈ l ↔ covers T context_ids flag c
  | Some (Err e) =>
      refused T context_ids e
      ∨ (e = too_many_contexts ∧ ∃ ids : gset ContextId, MAX_EFFECTIVE_CONTEXTS < Z.of_nat (size ids)
                                 ∧ ∀ i, i ∈ ids → ∃ c, cd_id c = i ∧ covers T context_ids flag c)
  end.
Proof.
  cbv zeta. unfold expand_context_selection. pose proof (check_selected_spec reg principal context_ids) as Hcheck.
  destruct (check_selected reg principal context_ids) as [u|e]; [|by left].
  set (S := selected_effective limit_rows reg principal context_ids flag).
  assert (HS : S ⊆ dom (visible_contexts reg principal)) by by apply selected_visible.
  assert (Hup : ∀ x y, x ∈ S → edge (visible_contexts reg principal) x y → y ∈ dom (visible_contexts reg principal) → y ∈ S)
    by (by intros x y; apply selected_upward).
  destruct (cap_exact limit_rows Hlimit reg Hwf principal context_ids flag Hcheck eq_refl) as [Hcap Hsame]. fold S in Hcap, Hsame.
  pose proof (expand_context_definitions_spec (rows_of reg S) context_ids flag (rows_nodup reg Hwf S)
                (table_acyclic reg Hwf principal S HS Hup)) as Hspec.
  assert (Hsel : Z.of_nat (size (active_rows reg (effective reg principal context_ids flag))) ≤ MAX_EFFECTIVE_CONTEXTS →
                 ∀ c, covers (visible_contexts reg principal) context_ids flag c → cd_id c ∈ S).
  { intros Hle c Hc. assert (Ha : cd_id c ∈ active_rows reg (effective reg principal context_ids flag)) by (apply (elem_of_actives reg Hwf); eauto).
    rewrite <- (Hsame Hle) in Ha. by apply elem_of_filter in Ha as [_ ?]. }
  assert (Hbig : MAX_EFFECTIVE_CONTEXTS < len (List.filter is_active (rows_of reg S)) →
                 ∃ ids : gset ContextId, MAX_EFFECTIVE_CONTEXTS < Z.of_nat (size ids)
                   ∧ ∀ i, i ∈ ids → ∃ c, cd_id c = i ∧ covers (visible_contexts reg principal) context_ids flag c).
  { intros Hgt%Hcap. eexists. split; [exact Hgt|]. intros i Hi. by apply (elem_of_actives reg Hwf) in Hi. }
  destruct (Z.lt_ge_cases MAX_EFFECTIVE_CONTEXTS (len (List.filter is_active (rows_of reg S)))) as [Hgt|Hle].
  { unfold expand_context_definitions. rewrite (proj2 (Z.ltb_lt _ _) Hgt). right. split; [done|]. by apply Hbig. }
  assert (Hle' : Z.of_nat (size (active_rows reg (effective reg principal context_ids flag))) ≤ MAX_EFFECTIVE_CONTEXTS) by lia.
  assert (HidsS : ∀ d, d ∈ context_ids → d ∈ S).
  { intros d Hd. destruct (Hcheck d Hd) as (c & Hc & Ha). rewrite <- (visible_ids reg Hwf _ _ _ Hc).
    apply (Hsel Hle'). split; [done|]. rewrite (visible_ids reg Hwf _ _ _ Hc). split; [done|]. exists d. split; [done|left; apply rtc_refl]. }
  destruct (expand_context_definitions _ _ _) as [[l|e]|]; [| |done].
  - destruct Hspec as (Hnd & Hmax & _ & Hin). split_and!; [done..| |].
    + etrans; [|exact Hmax]. unfold len. apply inj_le, submseteq_length, NoDup_submseteq; [by eapply NoDup_fmap_1|].
      intros c (Hc & Ha & _)%Hin. apply list_elem_of_In, filter_In. by rewrite <- list_elem_of_In.
    + intros c. rewrite Hin, (elem_of_rows reg Hwf principal S) by done. split.
      * intros ((Hi & Hc) & Ha & d & Hd & Hr). split_and!; [done..|]. exists d. split; [done|].
        rewrite (table_rtc reg Hwf principal S), (table_tc reg Hwf principal S) in Hr by auto. done.
      * intros Hcov. pose proof (Hsel Hle' c Hcov) as Hi. destruct Hcov as (Ha & Hc & d & Hd & Hr). split_and!; [done..|].
        exists d. split; [done|]. rewrite (table_rtc reg Hwf principal S), (table_tc reg Hwf principal S) by auto. done.
  - destruct Hspec as [[Hgt _]|Hr]; [lia|left]. apply (table_refused reg Hwf principal context_ids Hcheck S HS Hup); [|done].
    intros d Hd%elem_of_list_to_set. by apply HidsS.
Qed.

(** ** A concrete selection *)

#[local] Existing Instances plain_render AsciiCase plain_chrono.

(** The first rows in the order of their ids. *)
Definition first_rows (n : nat) (rows : gset ContextId) : gset ContextId := list_to_set (take n (elements rows)).
Lemma first_rows_limits : limits first_rows.
Proof.
  intros n rows. unfold first_rows. split_and!.
  - intros x (i & Hi)%elem_of_list_to_set%list_elem_of_lookup_1. apply lookup_take_Some in Hi as [Hi _].
    by apply elem_of_elements, list_elem_of_lookup_2 with i.
  - intros Hn. rewrite take_ge by exact Hn. by rewrite list_to_set_elements_L.
  - intros Hn. rewrite size_list_to_set by (eapply sublist_NoDup; [apply (NoDup_elements rows)|apply sublist_take]).
    rewrite length_take. unfold size, set_size in Hn. cbn in Hn. lia.
Qed.

(** A root, two branches, one archived below, and another owner's context. *)
Definition tree_ops : list context_op :=
  [CoCreate (child_draft 1 "root" None) by_ann 1; CoCreate (child_draft 2 "left" (Some 1%N)) by_ann 2;
   CoCreate (child_draft 3 "right" (Some 1%N)) by_ann 3; CoCreate (child_draft 4 "below" (Some 2%N)) by_ann 4;
   CoSetLifecycle 2 ContextLifecycle.Archived "ann" by_ann 5; CoCreate (child_draft 5 "deep" (Some 4%N)) by_ann 6].
Definition tree : ContextRegistry := st_registry (run_contexts new_store tree_ops).
Definition selected (ids : list ContextId) (flag : bool) : option (result StoreError.t (list ContextId)) :=
  (λ r, l ← r; Ok (map cd_id l)) <$> expand_context_selection first_rows tree ids "ann" flag.

Example selections :
  selected [1%N] true = Some (Ok [1%N; 4%N; 5%N; 3%N]) ∧ selected [4%N] false = Some (Ok [4%N; 1%N])
  ∧ selected [2%N] true = Some (Err (archived_selection 2%N)) ∧ selected [9%N] true = Some (Err (not_selectable 9%N)).
Proof. vm_compute. done. Qed.

Lemma selection_exact_witness :
  wf_registry tree ∧ ∃ l, expand_context_selection first_rows tree [4%N] "ann" false = Some (Ok l)
  ∧ ∀ c, c ∈ l ↔ covers (visible_contexts tree "ann") [4%N] false c.
Proof.
  assert (Hwf : wf_registry tree) by (apply run_contexts_registry, new_store_wf). split; [exact Hwf|].
  pose proof (selection_exact first_rows first_rows_limits tree Hwf "ann" [4%N] false) as Hs.
  destruct (expand_context_selection _ _ _ _ _) as [[l|e]|] eqn:E; [|vm_compute in E; discriminate E|destruct Hs].
  exists l. split; [reflexivity|]. apply Hs.
Defined.
