(* ===== verification/ContextReads.v ===== *)
(** * ContextReads: the readers of [src/src/store/context_store.rs]

    [ContextReader] for the SQLite store: listing and exact lookup of
    contexts, their records, the memberships of memories, kinds, policies,
    grants and the audit log. The listings are written with the row selection
    and the ORDER BY of their statements. *)
From Stdlib Require Import ZArith Lia Sorting.Sorted.
From stdpp Require Import base list option strings gmap sets.
From S2P Require Import Prelude Text Floats Lists Errors Types Context StoreTypes Ranking Store Membership Crud ContextAdmin Admin LegacyScopes Revisions Operations Integrity Governance Hierarchy ContextSelect Selection.

Definition MAX_CONTEXT_PAGE_SIZE : Z := 500.
Definition MAX_CONTEXT_AUDIT_PAGE_SIZE : Z := 500.

Definition sqlite_usize (value : Z) (field : string) : result StoreError.t Z :=
  ok_or (StoreError.Conflict (field +:+ " exceeds SQLite INTEGER: out of range integral type conversion attempted"))
    (i64_try_from value).

(** [LIMIT limit OFFSET offset]. *)
Definition page {A} (offset limit : Z) (l : list A) : list A := truncate limit (drop (Z.to_nat offset) l).

(** The policy check of the membership readers. *)
Definition memory_read_allowed (p : Provenance) (policy : AccessPolicy.t) (principal : string) : bool :=
  match policy with
  | AccessPolicy.Public => true
  | AccessPolicy.Redacted _ => negb (is_blank principal)
  | AccessPolicy.Restricted allowed => negb (is_blank principal) && (is_owner p principal || any_eq principal allowed)
  end.

Section reads.
Context `{Render, UnicodeCase}.

(** ** Contexts and their records *)

(** The rows a statement selects: visible, active unless archived rows are
    included, and matching. *)
Definition selected_rows (reg : ContextRegistry) (principal : string) (include_archived : bool)
    (matching : ContextId → ContextDefinition → bool) : list ContextDefinition :=
  map snd (List.filter (λ '(id, c), context_visible reg id c principal && (include_archived || is_active c) && matching id c)
             (map_to_list (reg_contexts reg))).

Definition get_context (id : ContextId) (principal : string) : tx (option ContextDefinition) :=
  fetch_context_authorized id principal.

Definition list_contexts (principal : string) (include_archived : bool) (offset limit : Z) : tx (list ContextDefinition) :=
  limit ← of_result (sqlite_usize (Z.min limit MAX_CONTEXT_PAGE_SIZE) "context page limit");
  offset ← of_result (sqlite_usize offset "context page offset");
  reads (λ s, page offset limit (sort_by cmp_context_row (selected_rows (st_registry s) principal include_archived (λ _ _, true)))).

(** [ORDER BY scheme, namespace, fingerprint]. *)
Definition cmp_identity_key : string * string * string → string * string * string → comparison :=
  then_with (cmp_on (λ k, fst (fst k)) String.compare)
    (then_with (cmp_on (λ k, snd (fst k)) String.compare) (cmp_on snd String.compare)).
Definition identity_of (row : (string * string * string) * string) : ContextIdentity :=
  let '(scheme, namespace, fingerprint) := fst row in
  {| ci_scheme := scheme; ci_namespace := if str_is_empty namespace then None else Some namespace;
     ci_fingerprint := fingerprint; ci_redacted_label := snd row |}.
(** The rows of a table about one context, without the context's id. *)
Definition rows_about {K V} `{Countable K} (id : ContextId) (m : gmap (ContextId * K) V) : list (K * V) :=
  omap (λ '((c, k), v), if bool_decide (c = id) then Some (k, v) else None) (map_to_list m).
Definition identities_of (reg : ContextRegistry) (id : ContextId) : list ContextIdentity :=
  map identity_of (sort_by (cmp_on fst cmp_identity_key) (rows_about id (reg_identities reg))).
Definition hints_of (reg : ContextRegistry) (id : ContextId) : list string :=
  map snd (sort_by (cmp_on fst String.compare) (rows_about id (reg_hints reg))).

Definition record_of (reg : ContextRegistry) (c : ContextDefinition) : ContextRecord :=
  {| cxr_context := c; cxr_aliases := aliases_of reg (cd_id c); cxr_identities := identities_of reg (cd_id c);
     cxr_hints := hints_of reg (cd_id c) |}.
Definition fetch_sqlite_context_record (c : ContextDefinition) : tx ContextRecord :=
  reads (λ s, record_of (st_registry s) c).

(** The batch: rows ordered by context are pushed at their context's
    position, the last one of a repeated id. *)
Definition positions (contexts : list ContextDefinition) : gmap ContextId nat :=
  list_to_map (reverse (imap (λ i c, (cd_id c, i)) contexts)).
Definition push_rows {A} (at_ : gmap ContextId nat) (push : A → ContextRecord → ContextRecord) (rows : list (ContextId * A))
    (records : list ContextRecord) : list ContextRecord :=
  fold_left (λ records '(id, a), match at_ !! id with Some i => alter (push a) i records | None => records end) rows records.
Definition push_alias (alias : string) (r : ContextRecord) : ContextRecord :=
  {| cxr_context := cxr_context r; cxr_aliases := cxr_aliases r ++ [alias]; cxr_identities := cxr_identities r; cxr_hints := cxr_hints r |}.
Definition push_identity (i : ContextIdentity) (r : ContextRecord) : ContextRecord :=
  {| cxr_context := cxr_context r; cxr_aliases := cxr_aliases r; cxr_identities := cxr_identities r ++ [i]; cxr_hints := cxr_hints r |}.
Definition push_hint (hint : string) (r : ContextRecord) : ContextRecord :=
  {| cxr_context := cxr_context r; cxr_aliases := cxr_aliases r; cxr_identities := cxr_identities r; cxr_hints := cxr_hints r ++ [hint] |}.
(** [WHERE context_id IN (...) ORDER BY context_id, <key>]. *)
Definition rows_in {K V} `{Countable K} (cmp : K → K → comparison) (ids : list ContextId) (m : gmap (ContextId * K) V) :
    list ((ContextId * K) * V) :=
  sort_by (then_with (cmp_on (λ r, fst (fst r)) N.compare) (cmp_on (λ r, snd (fst r)) cmp))
    (List.filter (λ r, bool_decide (fst (fst r) ∈ ids)) (map_to_list m)).
Definition bare_record (c : ContextDefinition) : ContextRecord :=
  {| cxr_context := c; cxr_aliases := []; cxr_identities := []; cxr_hints := [] |}.
Definition fetch_sqlite_context_records (contexts : list ContextDefinition) : tx (list ContextRecord) :=
  if bool_decide (contexts = []) then mret []
  else reads (λ s,
    let reg := st_registry s in
    let ids := map cd_id contexts in
    let at_ := positions contexts in
    let records := map bare_record contexts in
    let records := push_rows at_ push_alias (map (λ r, (fst (fst r), snd r)) (rows_in String.compare ids (reg_aliases reg))) records in
    let records := push_rows at_ push_identity
      (map (λ r, (fst (fst r), identity_of (snd (fst r), snd r))) (rows_in cmp_identity_key ids (reg_identities reg))) records in
    push_rows at_ push_hint (map (λ r, (fst (fst r), snd r)) (rows_in String.compare ids (reg_hints reg))) records).

Definition list_context_records (principal : string) (include_archived : bool) (offset limit : Z) : tx (list ContextRecord) :=
  contexts ← list_contexts principal include_archived offset limit;
  fetch_sqlite_context_records contexts.

Definition normalized_key_column (c : ContextDefinition) : string := normalize_context_key (cd_key c).
Definition key_or_alias (reg : ContextRegistry) (normalized_key : string) (id : ContextId) (c : ContextDefinition) : bool :=
  String.eqb (normalized_key_column c) normalized_key || is_some (reg_aliases reg !! (id, normalized_key)).
Definition lookup_matches (reg : ContextRegistry) (lookup : ContextExactLookup.t) (id : ContextId) (c : ContextDefinition) : bool :=
  match lookup with
  | ContextExactLookup.Id wanted => bool_decide (id = wanted)
  | ContextExactLookup.Key (Some kind) normalized_key => same_kind kind c && key_or_alias reg normalized_key id c
  | ContextExactLookup.Key None normalized_key => key_or_alias reg normalized_key id c
  | ContextExactLookup.Identity kind identity =>
      same_kind kind c && is_some (reg_identities reg !! (id, identity_key identity))
  end.
(** Kind and key are compared only where the statement lists them, but they
    are constant elsewhere. *)
Definition lookup_order (lookup : ContextExactLookup.t) : ContextDefinition → ContextDefinition → comparison :=
  let by_key := then_with (cmp_on normalized_key_column String.compare) (cmp_on cd_id N.compare) in
  match lookup with
  | ContextExactLookup.Key None _ => then_with (cmp_on (λ c, ContextKind.as_str (cd_kind c)) String.compare) by_key
  | _ => by_key
  end.
Definition find_context_records (principal : string) (include_archived : bool) (lookup : ContextExactLookup.t) : tx (list ContextRecord) :=
  rows ← reads (λ s, let reg := st_registry s in
    truncate 6 (sort_by (lookup_order lookup) (selected_rows reg principal include_archived (lookup_matches reg lookup))));
  tx_map fetch_sqlite_context_record rows.

(** ** Memberships *)

(** The visible memberships of a memory in ordinal order; the ordinal is the
    position in [st_memberships]. *)
Definition visible_memberships (s : Store) (memory_id : MemoryId) (principal : string) : list MemoryContext :=
  omap (λ '(ordinal, id), c ← reg_contexts (st_registry s) !! id;
          if context_visible (st_registry s) id c principal
          then Some {| mcx_memory_id := memory_id; mcx_context := c; mcx_ordinal := Z.of_nat ordinal |} else None)
    (imap pair (memberships_of s memory_id)).

Definition memory_not_found (id : MemoryId) : StoreError.t := StoreError.NotFound ("memory not found: " +:+ ulid id).
Definition get_memory_contexts (memory_id : MemoryId) (principal : string) (now : DateTime) : tx (list MemoryContext) :=
  memory ← fetch_memory_by_id memory_id;
  match memory with
  | None => throw (memory_not_found memory_id)
  | Some m =>
      _ ← throw_if (is_expired now m || bool_decide (check_access_level m (Some principal) = AccessLevel.Denied))
            (memory_not_found memory_id);
      reads (λ s, visible_memberships s memory_id principal)
  end.

Definition live_row (now : DateTime) (r : MemoryRow) : bool :=
  match r_expires_at r with None => true | Some expires_at => now <? expires_at end.
Definition readable_row (now : DateTime) (principal : string) (r : MemoryRow) : bool :=
  live_row now r && memory_read_allowed (r_provenance r) (r_access_policy r) principal.
Definition append_memory_context (memberships : gmap MemoryId (list MemoryContext)) (membership : option MemoryContext) :
    gmap MemoryId (list MemoryContext) :=
  match membership with
  | Some m => partial_alter (λ l, Some (default [] l ++ [m])) (mcx_memory_id m) memberships
  | None => memberships
  end.
(** The joined rows ordered by memory and ordinal, the unreadable ones
    dropped by [parse_sqlite_memory_context_batch_row]. *)
Definition batch_row (now : DateTime) (principal : string) (s : Store) (m : MemoryContext) : option MemoryContext :=
  r ← st_memories s !! mcx_memory_id m;
  if memory_read_allowed (r_provenance r) (r_access_policy r) principal then Some m else None.
Definition batch_rows (memory_ids : list MemoryId) (principal : string) (now : DateTime) (s : Store) : list MemoryContext :=
  concat (map (λ id, match st_memories s !! id with
                     | Some r => if live_row now r then visible_memberships s id principal else []
                     | None => []
                     end) (sort_by N.compare (remove_dups memory_ids))).
Definition get_memory_contexts_batch (memory_ids : list MemoryId) (principal : string) (now : DateTime) :
    tx (gmap MemoryId (list MemoryContext)) :=
  if bool_decide (memory_ids = []) then mret ∅
  else reads (λ s, fold_left append_memory_context (map (batch_row now principal s) (batch_rows memory_ids principal now s)) ∅).

Definition get_memory_context_presence_batch (memory_ids : list MemoryId) (principal : string) (now : DateTime) : tx (gset MemoryId) :=
  if bool_decide (memory_ids = []) then mret ∅
  else reads (λ s, list_to_set (List.filter (λ id,
    from_option (readable_row now principal) false (st_memories s !! id)
    && negb (bool_decide (memberships_of s id = []))) memory_ids)).

Definition count_memory_contexts_for_write (memory_id : MemoryId) (principal : string) : tx (option Z) :=
  memory ← fetch_memory_by_id memory_id;
  match memory with
  | None => mret None
  | Some m =>
      if negb (write_access_allowed (m_provenance m) (m_access_policy m) principal) then mret None
      else reads (λ s, Some (len (memberships_of s memory_id)))
  end.

(** ** Audit, kinds, policies and grants *)

Definition context_not_found (id : ContextId) : StoreError.t := StoreError.NotFound ("context not found: " +:+ ulid id).
(** Only the owner gets rows. *)
Definition owner_rows {A} (context_id : ContextId) (principal : string) (rows : Store → list A) : tx (list A) :=
  context ← fetch_context_authorized context_id principal;
  match context with
  | None => throw (context_not_found context_id)
  | Some c => if negb (String.eqb (cd_owner_principal c) principal) then mret [] else reads rows
  end.
Definition query_context_audit (context_id : ContextId) (principal : string) (limit : Z) : tx (list ContextAuditEvent) :=
  limit ← of_result (sqlite_usize (Z.min limit MAX_CONTEXT_AUDIT_PAGE_SIZE) "context audit limit");
  owner_rows context_id principal (λ s,
    truncate limit (sort_by (cmp_desc (cmp_on cae_id Z.compare))
      (List.filter (λ e, bool_decide (cae_context_id e = Some context_id)) (context_audit_rows s)))).
Definition list_context_grants (context_id : ContextId) (principal : string) : tx (list ContextGrant) :=
  owner_rows context_id principal (λ s,
    map snd (sort_by (cmp_on fst String.compare) (rows_about context_id (reg_grants (st_registry s))))).

(** [ORDER BY builtin DESC, kind]. *)
Definition cmp_kind_row : ContextKindDefinition → ContextKindDefinition → comparison :=
  then_with (cmp_desc (cmp_on (λ k, Z.b2z (ckd_builtin k)) Z.compare)) (cmp_on (λ k, ContextKind.as_str (ckd_kind k)) String.compare).
Definition list_context_kinds : tx (list ContextKindDefinition) :=
  reads (λ s, sort_by cmp_kind_row (map snd (map_to_list (reg_kinds (st_registry s))))).

(** A stored layer and kind parse: they were written from typed values. *)
Definition kind_policy_row (row : (string * string * string) * (ContextKindPolicy * DateTime)) : result StoreError.t ContextKindPolicyRecord :=
  let '(layer, principal, kind) := fst row in
  layer ← map_err (λ e : ParseEnumError, StoreError.Serialization (pe_what e +:+ ": " +:+ debug_str (pe_other e))) (ContextPolicyLayer.from_str layer);
  kind ← map_err StoreError.Serialization (ContextKind.new kind);
  Ok {| kpr_layer := layer; kpr_principal := principal; kpr_kind := kind; kpr_policy := fst (snd row); kpr_updated_at := snd (snd row) |}.
Definition list_context_kind_policies (principal : string) : tx (list ContextKindPolicyRecord) :=
  rows ← reads (λ s,
    sort_by (then_with (cmp_on (λ r, fst (fst (fst r))) String.compare) (cmp_on (λ r, snd (fst r)) String.compare))
      (List.filter (λ '((layer, p, _), _), String.eqb layer "operator" || (String.eqb layer "principal" && String.eqb p principal))
         (map_to_list (reg_kind_policies (st_registry s)))));
  of_result (try_map kind_policy_row rows).

Definition anchor_row_visible (reg : ContextRegistry) (principal : string) (id : ContextId) : bool :=
  match reg_contexts reg !! id with
  | Some c => is_active c && context_visible reg id c principal
  | None => false
  end.
Definition list_context_anchor_policies (principal : string) : tx (list ContextAnchorPolicyRecord) :=
  reads (λ s,
    map (λ '((id, p), (policy, at_)), {| apr_anchor_context_id := id; apr_principal := p; apr_policy := policy; apr_updated_at := at_ |})
      (sort_by (cmp_on (λ r, fst (fst r)) N.compare)
         (List.filter (λ '((id, p), _), String.eqb p principal && anchor_row_visible (st_registry s) principal id)
            (map_to_list (reg_anchor_policies (st_registry s)))))).
(** ** Legacy scopes *)

(** The own custom contexts and the frozen contexts of a migration that are
    active and were registered as scopes. *)
Definition registered_scope (s : Store) (id : ContextId) : bool :=
  existsb (λ e, bool_decide (cae_context_id e = Some id)
                && (String.eqb (cae_action e) "migrate_registered_scope" || String.eqb (cae_action e) "legacy_scope_register"))
    (context_audit_rows s).
Definition legacy_scope_row (s : Store) (principal : string) (row : ContextId * ContextDefinition) : bool :=
  let c := snd row in
  (String.eqb (cd_owner_principal c) principal && same_kind ContextKind.custom c && negb (cd_frozen c)
   || String.eqb (cd_owner_principal c) LEGACY_SYSTEM_PRINCIPAL && cd_frozen c)
  && is_active c && registered_scope s (fst row).
Definition cmp_scope_row : ContextId * ContextDefinition → ContextId * ContextDefinition → comparison :=
  then_with (cmp_on (λ row, normalized_key_column (snd row)) String.compare) (cmp_on fst N.compare).
(** [ORDER BY related.normalized_key]. *)
Definition related_keys (reg : ContextRegistry) (id : ContextId) : list string :=
  map cd_key (sort_by (cmp_on normalized_key_column String.compare)
    (omap (λ row, if String.eqb (snd (fst row)) LEGACY_RELATED then reg_contexts reg !! fst (fst row) else None)
       (rows_about id (reg_relations reg)))).
Definition scope_of (reg : ContextRegistry) (row : ContextId * ContextDefinition) : ScopeDefinition :=
  let '(id, c) := row in
  {| sd_scope_key := cd_key c; sd_display_name := cd_display_name c; sd_description := cd_description c;
     sd_aliases := aliases_of reg id; sd_matchers := hints_of reg id;
     sd_parent := parent ← cd_parent_id c; cd_key <$> reg_contexts reg !! parent; sd_related := related_keys reg id |}.
Definition list_legacy_scope_contexts (principal : string) : tx (list ScopeDefinition) :=
  reads (λ s, map (scope_of (st_registry s))
    (sort_by cmp_scope_row (List.filter (legacy_scope_row s principal) (map_to_list (reg_contexts (st_registry s)))))).
End reads.

(** ** What the readers return *)

Section facts.
Context `{Render, UnicodeCase}.

Lemma tx_map_reads {A B} (f : A → Store → B) (l : list A) s : tx_map (λ a, reads (f a)) l s = Ok (map (λ a, f a s) l, s).
Proof. induction l as [|a l IH]; cbn; [done|]. unfold mbind, tx_bind in *. cbn. by rewrite IH. Qed.

Lemma elem_of_selected_rows reg principal archived matching c : (∀ i c, reg_contexts reg !! i = Some c → cd_id c = i) →
  c ∈ selected_rows reg principal archived matching ↔
  reg_contexts reg !! cd_id c = Some c ∧ context_visible reg (cd_id c) c principal = true
  ∧ (archived || is_active c) = true ∧ matching (cd_id c) c = true.
Proof.
  intros Hids. unfold selected_rows. rewrite list_elem_of_fmap. split.
  - intros ([i d] & -> & Hin). apply elem_of_List_filter in Hin as [Hd Hf]. apply elem_of_map_to_list in Hd.
    cbn in *. rewrite (Hids _ _ Hd). apply andb_prop in Hf as [Hf Hm]. apply andb_prop in Hf as [Hv Ha]. done.
  - intros (Hc & Hv & Ha & Hm). exists (cd_id c, c). split; [done|]. apply elem_of_List_filter.
    split; [by apply elem_of_map_to_list|]. by rewrite Hv, Ha, Hm.
Qed.
Lemma selected_rows_ids reg principal archived matching : (∀ i c, reg_contexts reg !! i = Some c → cd_id c = i) →
  NoDup (map cd_id (selected_rows reg principal archived matching)).
Proof.
  intros Hids. unfold selected_rows. rewrite map_map.
  erewrite map_ext_in; [apply (NoDup_map_filter fst), (NoDup_fst_map_to_list (reg_contexts reg))|].
  intros [i c] Hin%list_elem_of_In. apply elem_of_List_filter in Hin as [Hin%elem_of_map_to_list _]. by apply Hids.
Qed.

Definition lookup_rows (reg : ContextRegistry) (principal : string) (archived : bool) (lookup : ContextExactLookup.t) :=
  truncate 6 (sort_by (lookup_order lookup) (selected_rows reg principal archived (lookup_matches reg lookup))).
Lemma find_run principal archived lookup s :
  find_context_records principal archived lookup s
  = Ok (map (record_of (st_registry s)) (lookup_rows (st_registry s) principal archived lookup), s).
Proof. unfold find_context_records, mbind, tx_bind. cbn. apply tx_map_reads. Qed.

(** A context a lookup may answer with. *)
Definition lookup_answers (reg : ContextRegistry) (principal : string) (archived : bool) (lookup : ContextExactLookup.t) (c : ContextDefinition) : Prop :=
  reg_contexts reg !! cd_id c = Some c ∧ context_visible reg (cd_id c) c principal = true
  ∧ (archived || is_active c) = true ∧ lookup_matches reg lookup (cd_id c) c = true.
Lemma lookup_rows_spec reg principal archived lookup : (∀ i c, reg_contexts reg !! i = Some c → cd_id c = i) →
  NoDup (map cd_id (lookup_rows reg principal archived lookup))
  ∧ (∀ c, c ∈ lookup_rows reg principal archived lookup → lookup_answers reg principal archived lookup c)
  ∧ (len (lookup_rows reg principal archived lookup) < 6 →
     ∀ c, lookup_answers reg principal archived lookup c → c ∈ lookup_rows reg principal archived lookup).
Proof.
  intros Hids. unfold lookup_rows. set (rows := sort_by _ _).
  assert (Hrows : ∀ c, c ∈ rows ↔ lookup_answers reg principal archived lookup c).
  { intros c. unfold rows. rewrite elem_of_sort_by. by apply elem_of_selected_rows. }
  split_and!.
  - rewrite map_truncate. apply NoDup_truncate. unfold rows. rewrite (sort_by_perm (lookup_order lookup)). by apply selected_rows_ids.
  - intros c Hc%elem_of_truncate. by apply Hrows.
  - intros Hlen c Hc. rewrite truncate_all; [by apply Hrows|]. revert Hlen. unfold len, truncate. rewrite length_take. lia.
Qed.

Lemma memory_read_allowed_spec m principal :
  memory_read_allowed (m_provenance m) (m_access_policy m) principal
  = negb (bool_decide (check_access_level m (Some principal) = AccessLevel.Denied)).
Proof.
  unfold memory_read_allowed, check_access_level, normalize_caller.
  destruct (m_access_policy m), (is_blank principal); cbn; try done; destruct (is_owner _ _); try done; by destruct (any_eq _ _).
Qed.
Lemma readable_row_spec now principal id r :
  readable_row now principal r = negb (is_expired now (row_to_memory id r)
    || bool_decide (check_access_level (row_to_memory id r) (Some principal) = AccessLevel.Denied)).
Proof.
  unfold readable_row, live_row. rewrite negb_orb. f_equal.
  - unfold is_expired. cbn. destruct (r_expires_at r); [|done]. apply Z.ltb_antisym.
  - by rewrite <- memory_read_allowed_spec.
Qed.

(** [get_memory_contexts], run. *)
Definition contexts_of (s : Store) (now : DateTime) (principal : string) (id : MemoryId) : list MemoryContext :=
  if from_option (readable_row now principal) false (st_memories s !! id) then visible_memberships s id principal else [].
Lemma get_memory_contexts_run id principal now s :
  get_memory_contexts id principal now s
  = if from_option (readable_row now principal) false (st_memories s !! id)
    then Ok (visible_memberships s id principal, s) else Err (memory_not_found id).
Proof.
  unfold get_memory_contexts, fetch_memory_by_id, mbind, tx_bind. cbn. destruct (st_memories s !! id) as [r|]; cbn; [|done].
  rewrite (readable_row_spec now principal id r). by destruct (_ || _).
Qed.
(** The order of the rows about one context among the rows of many. *)
Lemma StronglySorted_omap {A B} (R : A → A → Prop) (R' : B → B → Prop) (f : A → option B) l :
  StronglySorted R l → (∀ x y a b, R x y → f x = Some a → f y = Some b → R' a b) → StronglySorted R' (omap f l).
Proof.
  intros Hl Hf. induction Hl as [|x l Hl IH Hx]; cbn; [constructor|]. destruct (f x) as [a|] eqn:Ha; [|done].
  constructor; [done|]. apply list.Forall_forall. intros b (y & Hy & Hb)%list_elem_of_omap. rewrite list.Forall_forall in Hx. by eapply Hf; [apply Hx| |].
Qed.
Definition about {K V} (id : ContextId) (row : (ContextId * K) * V) : option (K * V) :=
  if bool_decide (fst (fst row) = id) then Some (snd (fst row), snd row) else None.
Lemma rows_about_omap {K V} `{Countable K} (id : ContextId) (m : gmap (ContextId * K) V) : rows_about id m = omap (about id) (map_to_list m).
Proof. unfold rows_about, about. induction (map_to_list m) as [|[[c k] v] l IH]; [done|]. cbn. by rewrite IH. Qed.
Lemma rows_in_about {K V} `{Countable K} (cmp : K → K → comparison) `{!TotalPreorder cmp} (ids : list ContextId) (m : gmap (ContextId * K) V) (id : ContextId) :
  (∀ x y, cmp x y = Eq → x = y) → id ∈ ids → omap (about id) (rows_in cmp ids m) = sort_by (cmp_on fst cmp) (rows_about id m).
Proof.
  intros Heq Hid. rewrite rows_about_omap. apply (sorted_unique (cmp_on fst cmp)).
  - eapply StronglySorted_omap; [apply sort_by_sorted, _|]. intros [[c k] v] [[c' k'] v'] a b. unfold about, then_with, cmp_on. cbn.
    intros Hle Ha Hb. repeat case_bool_decide; simplify_eq. cbn. by rewrite N.compare_refl in Hle.
  - apply sort_by_sorted, _.
  - rewrite sort_by_perm. unfold rows_in. rewrite sort_by_perm. apply reflexive_eq.
    induction (map_to_list m) as [|[[c k] v] l IH]; [done|]. cbn [List.filter].
    assert (Ha : (c, k, v).1.1 ∉ ids → about id (c, k, v) = None).
    { intros Hni. unfold about. rewrite bool_decide_false; [done|]. intros <-. by apply Hni. }
    case_bool_decide as Hin; cbn [omap list_omap]; [by rewrite IH|]. by rewrite Ha, IH.
  - intros [k v] [k' v'] Hx Hy Hk. unfold cmp_on in Hk. cbn in Hk. apply Heq in Hk as <-. apply list_elem_of_omap in Hx as ([[c i] w] & Hx & Ha), Hy as ([[c' i'] w'] & Hy & Hb).
    unfold about in *. repeat case_bool_decide; cbn in *; simplify_eq. unfold rows_in in Hx, Hy. apply elem_of_sort_by, elem_of_List_filter in Hx as [Hx%elem_of_map_to_list _], Hy as [Hy%elem_of_map_to_list _].
    by simplify_eq.
Qed.

Lemma push_rows_map {A} (at_ : gmap ContextId nat) (push : A → ContextRecord → ContextRecord) rows records :
  (∀ i r id, records !! i = Some r → at_ !! id = Some i ↔ id = cd_id (cxr_context r)) →
  (∀ a r, cxr_context (push a r) = cxr_context r) →
  push_rows at_ push rows records
  = map (λ r, fold_left (λ r a, push a r) (omap (λ row, if bool_decide (fst row = cd_id (cxr_context r)) then Some (snd row) else None) rows) r) records.
Proof.
  intros Hat Hpush. unfold push_rows. revert records Hat. induction rows as [|[id a] rows IH]; intros records Hat; cbn.
  { symmetry. rewrite <- (map_id records) at 2. by apply map_ext. }
  set (records' := match at_ !! id with Some i => alter (push a) i records | None => records end).
  assert (Hr : records' = map (λ r, if bool_decide (id = cd_id (cxr_context r)) then push a r else r) records).
  { apply list_eq. intros i. rewrite list_lookup_fmap. unfold records'. destruct (at_ !! id) as [j|] eqn:Hj.
    - destruct (decide (j = i)) as [->|Hne].
      + rewrite list_lookup_alter, decide_True by done. destruct (records !! i) as [r|] eqn:Hri; [|done]. cbn. apply (Hat i r id Hri) in Hj. by rewrite bool_decide_true.
      + rewrite list_lookup_alter, decide_False by done. destruct (records !! i) as [r|] eqn:Hri; [|done]. cbn.
        rewrite bool_decide_false; [done|]. intros Hid. apply (Hat i r id Hri) in Hid. congruence.
    - destruct (records !! i) as [r|] eqn:Hri; [|done]. cbn. rewrite bool_decide_false; [done|]. intros Hid. apply (Hat i r id Hri) in Hid. congruence. }
  rewrite IH.
  - rewrite Hr, map_map. apply map_ext. intros r. case_bool_decide as Hid; cbn; [|done]. by rewrite Hpush.
  - intros i r id'. rewrite Hr, list_lookup_fmap. intros (r0 & Hr0 & ->)%fmap_Some. rewrite (Hat i r0 id' Hr0). by destruct (bool_decide _); rewrite ?Hpush.
Qed.
Lemma positions_spec contexts : NoDup (map cd_id contexts) → ∀ i r id, map bare_record contexts !! i = Some r →
  positions contexts !! id = Some i ↔ id = cd_id (cxr_context r).
Proof.
  intros Hnd i r id (c & -> & Hc)%list_lookup_fmap_Some. cbn. unfold positions.
  assert (Hk : NoDup (reverse (imap (λ i c, (cd_id c, i)) contexts)).*1).
  { rewrite fmap_reverse, reverse_Permutation. replace (_ <$> _) with (map cd_id contexts); [done|].
    rewrite fmap_imap. symmetry. apply (imap_const cd_id). }
  rewrite <- elem_of_list_to_map by done. rewrite elem_of_reverse. split.
  - intros (j & c' & [= -> ->] & Hc')%elem_of_lookup_imap. by simplify_eq.
  - intros ->. apply elem_of_lookup_imap. by exists i, c.
Qed.
Lemma omap_about_map {K V A} (f : K * V → A) (rows : list ((ContextId * K) * V)) (id : ContextId) :
  omap (λ row : ContextId * A, if bool_decide (fst row = id) then Some (snd row) else None)
    (map (λ r, (fst (fst r), f (snd (fst r), snd r))) rows) = map f (omap (about id) rows).
Proof.
  induction rows as [|[[c k] v] rows IH]; [done|]. cbn [map omap list_omap]. unfold about at 1. cbn. rewrite IH.
  by case_bool_decide.
Qed.
Lemma omap_about_snd {K V} (rows : list ((ContextId * K) * V)) (id : ContextId) :
  omap (λ row : ContextId * V, if bool_decide (fst row = id) then Some (snd row) else None)
    (map (λ r, (fst (fst r), snd r)) rows) = map snd (omap (about id) rows).
Proof. exact (omap_about_map snd rows id). Qed.
Lemma fold_push_alias l r : fold_left (λ r a, push_alias a r) l r =
  {| cxr_context := cxr_context r; cxr_aliases := cxr_aliases r ++ l; cxr_identities := cxr_identities r; cxr_hints := cxr_hints r |}.
Proof. revert r. induction l as [|a l IH]; intros r; cbn; [rewrite app_nil_r; by destruct r|]. rewrite IH. cbn. by rewrite <- app_assoc. Qed.
Lemma fold_push_identity l r : fold_left (λ r a, push_identity a r) l r =
  {| cxr_context := cxr_context r; cxr_aliases := cxr_aliases r; cxr_identities := cxr_identities r ++ l; cxr_hints := cxr_hints r |}.
Proof. revert r. induction l as [|a l IH]; intros r; cbn; [rewrite app_nil_r; by destruct r|]. rewrite IH. cbn. by rewrite <- app_assoc. Qed.
Lemma fold_push_hint l r : fold_left (λ r a, push_hint a r) l r =
  {| cxr_context := cxr_context r; cxr_aliases := cxr_aliases r; cxr_identities := cxr_identities r; cxr_hints := cxr_hints r ++ l |}.
Proof. revert r. induction l as [|a l IH]; intros r; cbn; [rewrite app_nil_r; by destruct r|]. rewrite IH. cbn. by rewrite <- app_assoc. Qed.

Lemma cmp_identity_key_eq a b : cmp_identity_key a b = Eq → a = b.
Proof.
  destruct a as [[a1 a2] a3], b as [[b1 b2] b3]. unfold cmp_identity_key, then_with, cmp_on. cbn.
  destruct (String.compare a1 b1) eqn:E1; try done. destruct (String.compare a2 b2) eqn:E2; try done. intros E3.
  apply String.compare_eq_iff in E1, E2, E3. by subst.
Qed.
#[local] Instance cmp_identity_key_total : TotalPreorder cmp_identity_key.
Proof. unfold cmp_identity_key. apply _. Qed.
Lemma aliases_of_rows reg id : aliases_of reg id = map snd (sort_by (cmp_on fst String.compare) (rows_about id (reg_aliases reg))).
Proof. done. Qed.

Theorem records_batch_is_single contexts s (Hnd : NoDup (map cd_id contexts)) :
  fetch_sqlite_context_records contexts s = tx_map fetch_sqlite_context_record contexts s.
Proof.
  unfold fetch_sqlite_context_records. etrans; [|symmetry; apply (tx_map_reads (λ c s, record_of (st_registry s) c))].
  case_bool_decide as Hnil; [by subst|]. unfold reads. f_equal. f_equal. cbn zeta.
  pose proof (positions_spec contexts Hnd) as Hpos.
  assert (Hmap : ∀ (f : ContextRecord → ContextRecord) records, (∀ r, cxr_context (f r) = cxr_context r) →
    (∀ i r id, records !! i = Some r → positions contexts !! id = Some i ↔ id = cd_id (cxr_context r)) →
    ∀ i r id, map f records !! i = Some r → positions contexts !! id = Some i ↔ id = cd_id (cxr_context r)).
  { intros f records Hf Hrec i r id (r0 & -> & Hr0)%list_lookup_fmap_Some. rewrite Hf. by apply Hrec. }
  set (reg := st_registry s). set (ids := map cd_id contexts).
  rewrite (push_rows_map (positions contexts) push_alias) by done. set (f1 := λ r : ContextRecord, fold_left _ _ r).
  assert (Hf1 : ∀ r, cxr_context (f1 r) = cxr_context r) by (intros r; unfold f1; by rewrite fold_push_alias).
  rewrite (push_rows_map (positions contexts) push_identity) by eauto. set (f2 := λ r : ContextRecord, fold_left _ _ r).
  assert (Hf2 : ∀ r, cxr_context (f2 r) = cxr_context r) by (intros r; unfold f2; by rewrite fold_push_identity).
  rewrite (push_rows_map (positions contexts) push_hint) by eauto. rewrite !map_map.
  apply map_ext_in. intros c Hin%list_elem_of_In. rewrite fold_push_hint, Hf2, Hf1. unfold f2 at 1 2 3. rewrite fold_push_identity, Hf1.
  unfold f1. rewrite fold_push_alias. cbn. unfold record_of.
  assert (Hid : cd_id c ∈ ids) by (apply list_elem_of_fmap; eauto).
  rewrite !omap_about_snd, (omap_about_map identity_of).
  rewrite !rows_in_about; first done; eauto using cmp_identity_key_eq; try apply _; by intros ? ? ?%String.compare_eq_iff.
Qed.

Definition grouped (id : MemoryId) (l : list (option MemoryContext)) : list MemoryContext :=
  omap (λ o, o ≫= λ m, if bool_decide (mcx_memory_id m = id) then Some m else None) l.
Lemma append_memory_contexts l acc id :
  fold_left append_memory_context l acc !! id
  = match grouped id l with [] => acc !! id | rows => Some (default [] (acc !! id) ++ rows) end.
Proof.
  revert acc. induction l as [|o l IH]; intros acc; [done|]. cbn [fold_left]. rewrite IH. unfold grouped. cbn [omap list_omap].
  destruct o as [m|]; cbn; [|done]. case_bool_decide as Hm.
  - subst id. rewrite lookup_partial_alter_eq. cbn. destruct (omap _ l); [done|]. by rewrite <- app_assoc.
  - by rewrite lookup_partial_alter_ne.
Qed.
Lemma visible_memberships_id s id principal m : m ∈ visible_memberships s id principal → mcx_memory_id m = id.
Proof.
  unfold visible_memberships. intros ([i c] & _ & Hm)%list_elem_of_omap.
  destruct (reg_contexts _ !! c); cbn in Hm; [|done]. by destruct (context_visible _ _ _ _); simplify_eq.
Qed.
Lemma grouped_app id l k : grouped id (l ++ k) = grouped id l ++ grouped id k.
Proof. apply omap_app. Qed.
Lemma grouped_one s now principal id i :
  grouped id (map (batch_row now principal s) (match st_memories s !! i with
     | Some r => if live_row now r then visible_memberships s i principal else [] | None => [] end))
  = if bool_decide (i = id) then contexts_of s now principal id else [].
Proof.
  unfold contexts_of. destruct (st_memories s !! i) as [r|] eqn:Hr.
  2: { case_bool_decide as Hi; [|done]. subst. by rewrite Hr. }
  assert (Hrows : grouped id (map (batch_row now principal s) (visible_memberships s i principal))
    = if bool_decide (i = id) && memory_read_allowed (r_provenance r) (r_access_policy r) principal then visible_memberships s i principal else []).
  { pose proof (visible_memberships_id s i principal) as Hids. induction (visible_memberships s i principal) as [|m l IH]; [by destruct (_ && _)|].
    cbn [map]. unfold grouped in *. cbn [omap list_omap]. rewrite IH by (intros; apply Hids; by right).
    unfold batch_row at 1. rewrite (Hids m) by left. rewrite Hr. cbn.
    destruct (memory_read_allowed _ _ _); rewrite ?andb_true_r, ?andb_false_r; [|done]. cbn. rewrite (Hids m) by left. by case_bool_decide. }
  case_bool_decide as Hi; subst; rewrite ?Hr; cbn.
  - unfold readable_row. destruct (live_row now r); cbn; [|done]. by rewrite Hrows.
  - by destruct (live_row now r).
Qed.
Lemma grouped_batch s now principal id ids : NoDup ids →
  grouped id (map (batch_row now principal s) (concat (map (λ i, match st_memories s !! i with
     | Some r => if live_row now r then visible_memberships s i principal else [] | None => [] end) ids)))
  = if bool_decide (id ∈ ids) then contexts_of s now principal id else [].
Proof.
  induction 1 as [|i ids Hni Hnd IH]; [done|]. cbn [map concat]. rewrite map_app, grouped_app, IH, grouped_one.
  destruct (decide (i = id)) as [->|Hne].
  - rewrite bool_decide_true by done. rewrite (bool_decide_false (id ∈ ids)) by done. rewrite bool_decide_true by left. by rewrite app_nil_r.
  - rewrite (bool_decide_false (i = id)) by done. cbn [app]. rewrite (bool_decide_ext (id ∈ i :: ids) (id ∈ ids)); [done|]. rewrite elem_of_cons. naive_solver.
Qed.
Lemma batch_lookup s now principal id ids : ids ≠ [] →
  ∃ batch, get_memory_contexts_batch ids principal now s = Ok (batch, s)
  ∧ batch !! id = match (if bool_decide (id ∈ ids) then contexts_of s now principal id else []) with [] => None | l => Some l end.
Proof.
  intros Hids. unfold get_memory_contexts_batch. rewrite bool_decide_false by done. eexists. split; [done|].
  rewrite append_memory_contexts. unfold batch_rows. rewrite grouped_batch by (rewrite sort_by_perm; apply NoDup_remove_dups).
  rewrite lookup_empty. rewrite (bool_decide_ext _ (id ∈ ids)); [done|]. by rewrite sort_by_perm, elem_of_remove_dups.
Qed.

Lemma single_reader id principal now s :
  (is_ok (get_memory_contexts id principal now s) = true ↔
     ∃ m, fetch_memory_by_id id s = Ok (Some m, s) ∧ is_expired now m = false
          ∧ check_access_level m (Some principal) ≠ AccessLevel.Denied)
  ∧ ∀ l s' x, get_memory_contexts id principal now s = Ok (l, s') → x ∈ l →
      mcx_memory_id x = id
      ∧ ∃ context_id, memberships_of s id !! Z.to_nat (mcx_ordinal x) = Some context_id
        ∧ reg_contexts (st_registry s) !! context_id = Some (mcx_context x)
        ∧ context_visible (st_registry s) context_id (mcx_context x) principal = true.
Proof.
  rewrite get_memory_contexts_run. unfold fetch_memory_by_id, reads. split.
  - destruct (st_memories s !! id) as [r|] eqn:Hr; cbn; [|naive_solver]. rewrite (readable_row_spec now principal id r). split.
    + intros Hok. exists (row_to_memory id r). split; [done|]. destruct (is_expired _ _); [done|]. by case_bool_decide.
    + intros (m & [= <-] & -> & Hd). by rewrite bool_decide_false.
  - intros l s' x Hrun Hx. destruct (from_option _ _ _); [|done]. simplify_eq. split; [by eapply visible_memberships_id|].
    unfold visible_memberships in Hx. apply list_elem_of_omap in Hx as ([i c] & Hin & Hx). apply elem_of_lookup_imap in Hin as (j & c' & [= -> ->] & Hc).
    destruct (reg_contexts _ !! c') as [d|] eqn:Hd; cbn in Hx; [|done]. destruct (context_visible _ _ _ _) eqn:Hv; simplify_eq. cbn.
    exists c'. by rewrite Nat2Z.id.
Qed.

(** The readers of memberships agree, and respect the permissions of both
    the memory and the contexts: the batch holds, for each requested memory,
    what the single reader returns for it, unless that is an error or nothing;
    the presence batch holds the readable memories with a membership, visible
    or not; the single reader fails exactly for a memory that is absent,
    expired or denied to the principal, and returns only contexts the
    principal sees. *)
Theorem membership_readers_agree ids principal now s :
  ∃ batch present, get_memory_contexts_batch ids principal now s = Ok (batch, s)
  ∧ get_memory_context_presence_batch ids principal now s = Ok (present, s)
  ∧ ∀ id,
    batch !! id = match get_memory_contexts id principal now s with
                  | Ok (x :: l, _) => if bool_decide (id ∈ ids) then Some (x :: l) else None
                  | _ => None
                  end
    ∧ (id ∈ present ↔ id ∈ ids ∧ memberships_of s id ≠ [] ∧ is_ok (get_memory_contexts id principal now s) = true)
    ∧ (is_ok (get_memory_contexts id principal now s) = true ↔
         ∃ m, fetch_memory_by_id id s = Ok (Some m, s) ∧ is_expired now m = false
              ∧ check_access_level m (Some principal) ≠ AccessLevel.Denied)
    ∧ ∀ l s' x, get_memory_contexts id principal now s = Ok (l, s') → x ∈ l →
        mcx_memory_id x = id
        ∧ ∃ context_id, memberships_of s id !! Z.to_nat (mcx_ordinal x) = Some context_id
          ∧ reg_contexts (st_registry s) !! context_id = Some (mcx_context x)
          ∧ context_visible (st_registry s) context_id (mcx_context x) principal = true.
Proof.
  destruct (decide (ids = [])) as [->|Hids].
  - exists ∅, ∅. split_and!; [done|done|]. intros id. split; [by rewrite lookup_empty; destruct (get_memory_contexts _ _ _ _) as [[[] ?]|]|].
    split; [set_solver|apply single_reader].
  - assert (Hb : ∃ batch, get_memory_contexts_batch ids principal now s = Ok (batch, s)) by (destruct (batch_lookup s now principal 0%N ids Hids); naive_solver).
    destruct Hb as [batch Hb]. eexists batch, _. split; [done|]. unfold get_memory_context_presence_batch. rewrite bool_decide_false by done.
    split; [done|]. intros id. split; [|split; [|apply single_reader]].
    + destruct (batch_lookup s now principal id ids Hids) as (b & Hb' & Hl). assert (b = batch) as -> by congruence. rewrite Hl. unfold contexts_of.
      rewrite get_memory_contexts_run.
      destruct (from_option _ _ _); [|by case_bool_decide]. by case_bool_decide; destruct (visible_memberships s id principal).
    + rewrite elem_of_list_to_set, elem_of_List_filter, get_memory_contexts_run.
      destruct (from_option _ _ _); cbn; [|split; [by intros [? ?]|by intros (? & ? & ?)]].
      rewrite negb_true_iff, bool_decide_eq_false. naive_solver.
Qed.
End facts.
