(* ===== verification/ServerTypes.v ===== *)
(** * ServerTypes: callers and answers of the MCP server

    The data of [src/src/server/params.rs] and [src/src/server/mod.rs] that
    the tools share: who is asking ([src/src/http_auth.rs] and the anonymous
    policy), structured tool errors and warnings, and the view of a memory
    with the cards made of it. Answers are records; their JSON text is not
    modelled, and a timestamp stays an instant. *)
From Stdlib Require Import ZArith Lia.
From stdpp Require Import base list option strings gmap sets pretty.
From S2P Require Import Prelude Text Floats Lists Errors Types Validation Context StoreTypes Ranking Store Membership Crud Admin Search.

(** ** Callers *)

Module AnonymousPolicy.
Inductive t := PublicReadOnly | DenyAll | PublicReadWrite.
#[global] Instance eq_dec : EqDecision t.
Proof. solve_decision. Defined.
End AnonymousPolicy.

(** The headers of an HTTP request: the value of a name, when it has one
    that is visible ASCII. *)
Definition Headers : Type := string → option string.

Definition is_ascii_whitespace (c : Ascii.ascii) : bool :=
  existsb (Ascii.eqb c) (map byte [9; 10; 12; 13; 32]%N).
Fixpoint split_ascii_whitespace_bytes (l cur : list Ascii.ascii) : list (list Ascii.ascii) :=
  match l with
  | [] => flush cur
  | c :: l' => if is_ascii_whitespace c then flush cur ++ split_ascii_whitespace_bytes l' []
               else split_ascii_whitespace_bytes l' (cur ++ [c])
  end.
Definition split_ascii_whitespace (s : string) : list string := map of_bytes (split_ascii_whitespace_bytes (bytes s) []).

Definition bearer_token (headers : Headers) : option string :=
  value ← headers "authorization";
  match split_ascii_whitespace value with
  | [scheme; token] => if String.eqb (to_ascii_lowercase scheme) "bearer" then Some token else None
  | _ => None
  end.
Definition bearer_matches (headers : Headers) (expected : string) : bool :=
  match bearer_token headers with Some token => String.eqb token expected | None => false end.
Definition trusted_proxy_principal (headers : Headers) (header_name : string) : option string :=
  principal ← trim <$> headers header_name;
  if negb (str_is_empty principal) && negb (is_reserved_principal principal) then Some principal else None.

Module HttpPrincipalSource.
Inductive t := Fixed (principal : string) | TrustedProxyHeader (header_name : string).
End HttpPrincipalSource.

(** The authorization settings of [LocalHoldServer]. *)
Record ServerAuth := {
  sa_principal : option string;
  sa_anonymous_policy : AnonymousPolicy.t;
  sa_http_auth_token : option string;
  sa_http_principal_source : HttpPrincipalSource.t;
}.
(** [RequestContext]: the parts of the HTTP request, unless it came over
    stdio. *)
Definition RequestContext : Type := option Headers.

Section callers.
Context (server : ServerAuth).

(** [filter(|p| !p.is_empty() && !is_reserved_principal(p))] of a trimmed text. *)
Definition named_principal (principal : string) : option string :=
  let principal := trim principal in
  if negb (str_is_empty principal) && negb (is_reserved_principal principal) then Some principal else None.
Definition configured_mcp_principal : option string := sa_principal server ≫= named_principal.
Definition http_principal_for_context (context : RequestContext) : option string :=
  token ← sa_http_auth_token server;
  parts ← context;
  if negb (bearer_matches parts token) then None
  else match sa_http_principal_source server with
       | HttpPrincipalSource.Fixed principal => named_principal principal
       | HttpPrincipalSource.TrustedProxyHeader header_name => trusted_proxy_principal parts header_name
       end.
Definition principal_for_context (context : RequestContext) : option string :=
  if is_some context then http_principal_for_context context else configured_mcp_principal.
Definition anonymous_read_allowed : bool :=
  match sa_anonymous_policy server with
  | AnonymousPolicy.PublicReadOnly | AnonymousPolicy.PublicReadWrite => true
  | AnonymousPolicy.DenyAll => false
  end.
Definition read_allowed_for (principal : option string) : bool := is_some principal || anonymous_read_allowed.
Definition write_principal_for (principal : option string) : option string :=
  match principal with
  | Some p => Some p
  | None => match sa_anonymous_policy server with
            | AnonymousPolicy.PublicReadWrite => Some ANONYMOUS_PRINCIPAL
            | AnonymousPolicy.PublicReadOnly | AnonymousPolicy.DenyAll => None
            end
  end.
End callers.
Definition caller_context_for (principal : option string) : QueryContext := {| qc_principal := principal |}.

(** ** Tool errors, warnings and actions *)

Module ToolErrorCode.
Inductive t :=
| InvalidParams | NotFound | AccessDenied | AnonymousReadDenied | AnonymousWriteDenied | Unavailable | Conflict
| ContextRequired | ContextAmbiguous | Internal.
#[global] Instance eq_dec : EqDecision t.
Proof. solve_decision. Defined.
End ToolErrorCode.
Module RecommendedActionTool.
Inductive t := Read | ReadMany | Recall | Remember | ContextResolve | ContextCreate | AdminScopeRegister.
#[global] Instance eq_dec : EqDecision t.
Proof. solve_decision. Defined.
End RecommendedActionTool.
Module RecommendedActionPriority.
Inductive t := High | Normal | Low.
End RecommendedActionPriority.
Record RecommendedAction := {
  rx_tool : RecommendedActionTool.t;
  rx_priority : RecommendedActionPriority.t;
  rx_reason : string;
  rx_arguments : option Json;
}.
Record ToolError := {
  te_code : ToolErrorCode.t;
  te_field : option string;
  te_message : string;
  te_suggested_fix : option string;
  te_retryable : bool;
  te_details : option Json;
  te_recommended_actions : list RecommendedAction;
}.
Definition tool_error_with_details (code : ToolErrorCode.t) (field : option string) (message : string)
    (suggested_fix : option string) (retryable : bool) (details : option Json) (actions : list RecommendedAction) : ToolError :=
  {| te_code := code; te_field := field; te_message := message; te_suggested_fix := suggested_fix;
     te_retryable := retryable; te_details := details; te_recommended_actions := actions |}.
Definition tool_error (code : ToolErrorCode.t) (field : option string) (message : string) (suggested_fix : option string)
    (retryable : bool) : ToolError :=
  tool_error_with_details code field message suggested_fix retryable None [].

Definition anonymous_read_denied : ToolError :=
  tool_error ToolErrorCode.AnonymousReadDenied None "anonymous reads are disabled"
    (Some "Configure a trusted principal or enable anonymous public reads.") false.
Definition anonymous_write_denied : ToolError :=
  tool_error ToolErrorCode.AnonymousWriteDenied None "anonymous writes are disabled"
    (Some "Configure a trusted principal or enable anonymous public writes.") false.
Definition local_admin_denied : ToolError :=
  tool_error ToolErrorCode.AccessDenied None "tool requires local server admin context"
    (Some "Run this maintenance tool over a trusted local stdio session instead of HTTP principal delegation.") false.
Definition local_admin_error_for_context (server : ServerAuth) (context : RequestContext) : option ToolError :=
  if is_some context then Some local_admin_denied
  else if is_none (configured_mcp_principal server) then Some anonymous_write_denied
  else None.
Definition batch_len_tool_error (field_name : string) (n max_batch_size : Z) (suggested_fix : string) : option ToolError :=
  match validate_batch_len field_name n max_batch_size with
  | Ok _ => None
  | Err e => Some (tool_error ToolErrorCode.InvalidParams (Some (ve_field e)) (ve_message e) (Some suggested_fix) false)
  end.

Module QualityWarningSeverity.
Inductive t := Info | Warning | ActionRequired.
End QualityWarningSeverity.
Record QualityWarning := {
  qw_code : string;
  qw_severity : QualityWarningSeverity.t;
  qw_field : option string;
  qw_message : string;
  qw_suggested_fix : option string;
}.
Definition warning_guidance (code : string) : QualityWarningSeverity.t * option string * option string :=
  if String.eqb code "missing_scope" then
    (QualityWarningSeverity.ActionRequired, Some "scope",
     Some "Provide an explicit scope or context_hints that match a registered scope.")
  else if String.eqb code "duplicate_candidate" then
    (QualityWarningSeverity.Warning, Some "content", Some "Review duplicate_candidates before relying on this write.")
  else if String.eqb code "missing_summary" then
    (QualityWarningSeverity.Info, Some "summary",
     Some "Provide a compact durable summary when the original content is verbose.")
  else if String.eqb code "empty_tags" then
    (QualityWarningSeverity.Info, Some "tags", Some "Add stable classification tags when they will improve later retrieval.")
  else if String.eqb code "empty_entities" then
    (QualityWarningSeverity.Info, Some "entities",
     Some "Attach important people, projects, or artifacts as typed entities.")
  else if String.eqb code "oversized_content" then
    (QualityWarningSeverity.Warning, Some "content",
     Some "Store concise durable context instead of a large transcript or source dump.")
  else if String.eqb code "possible_code_dump" then
    (QualityWarningSeverity.Warning, Some "content", Some "Remember durable rationale or decisions instead of source text.")
  else if String.eqb code "unresolved_scope" then
    (QualityWarningSeverity.Warning, Some "context_hints", Some "Register a matching scope or pass an explicit scope key.")
  else if String.eqb code "empty_brief" then
    (QualityWarningSeverity.Info, Some "query", Some "Broaden the query or scope, or add memories for this context.")
  else if String.eqb code "contextless_maintenance_scope" then
    (QualityWarningSeverity.Warning, Some "context",
     Some "Supply an explicit context filter when memories without an active context must be excluded from the maintenance operation.")
  else (QualityWarningSeverity.Warning, None, None).
Definition quality_warning (code message : string) : QualityWarning :=
  let '(severity, field, suggested_fix) := warning_guidance code in
  {| qw_code := code; qw_severity := severity; qw_field := field; qw_message := message; qw_suggested_fix := suggested_fix |}.

Module NextAction.
Inductive t := None | Read | ReviewDuplicates | ClassifyScope | Continue | ReviewWarnings.
End NextAction.
Definition has_code (code : string) (warnings : list QualityWarning) : bool :=
  existsb (λ w, String.eqb (qw_code w) code) warnings.
Definition next_action_for_warnings (warnings : list QualityWarning) : NextAction.t :=
  if has_code "duplicate_candidate" warnings then NextAction.ReviewDuplicates
  else if has_code "missing_scope" warnings then NextAction.ClassifyScope
  else match warnings with [] => NextAction.None | _ => NextAction.ReviewWarnings end.
Definition recommended_action_priority_rank (p : RecommendedActionPriority.t) : Z :=
  match p with
  | RecommendedActionPriority.High => 0
  | RecommendedActionPriority.Normal => 1
  | RecommendedActionPriority.Low => 2
  end.
Definition sort_recommended_actions (actions : list RecommendedAction) : list RecommendedAction :=
  sort_by (cmp_on (λ a, recommended_action_priority_rank (rx_priority a)) Z.compare) actions.
Definition push_unique (values : list string) (value : string) : list string :=
  if bool_decide (value ∈ values) then values else values ++ [value].

Definition write_quality_warnings (content : string) (summary : option string) (unresolved_scope : bool) (tags : list string)
    (entity_count : Z) : list QualityWarning :=
  (if unresolved_scope
   then [quality_warning "missing_scope" ("no scope was supplied; memory was placed in " +:+ UNRESOLVED_CONTEXT_KEY)] else [])
  ++ (if match summary with None => true | Some s => is_blank s end
      then [quality_warning "missing_summary" "no summary supplied; recall cards will use deterministic excerpts"] else [])
  ++ (match tags with [] => [quality_warning "empty_tags" "no tags supplied"] | _ => [] end)
  ++ (if entity_count =? 0 then [quality_warning "empty_entities" "no entities supplied"] else [])
  ++ (if LARGE_CONTENT_WARNING_THRESHOLD_BYTES <? byte_len content
      then [quality_warning "oversized_content"
              "content is large for an agent memory; consider storing a concise durable summary"] else [])
  ++ (if looks_code_derived content
      then [quality_warning "possible_code_dump"
              "content looks code-derived; prefer remembering durable rationale instead of source text"] else []).

Module OperationStatus.
Inductive t := Applied | Partial | Preview | Queued | NoOp | Denied | NotFound.
#[global] Instance eq_dec : EqDecision t.
Proof. solve_decision. Defined.
End OperationStatus.
(** [affected] holds cards only in the summaries of other tools than those
    modelled: it is the list of their ids. *)
Record OperationSummary := {
  os_status : OperationStatus.t;
  os_changed : Z;
  os_matched : option Z;
  os_denied : option Z;
  os_capped : bool;
  os_next_action : NextAction.t;
  os_warnings : list QualityWarning;
  os_affected : list MemoryId;
}.
Definition operation_summary (status : OperationStatus.t) (changed : Z) (warnings : list QualityWarning)
    (next_action : NextAction.t) : OperationSummary :=
  {| os_status := status; os_changed := changed; os_matched := None; os_denied := None; os_capped := false;
     os_next_action := next_action; os_warnings := warnings; os_affected := [] |}.

(** ** Excerpts *)

Definition truncate_chars (value : string) (max_chars : Z) : string :=
  let chars := chars_bytes (bytes value) in
  if len chars <=? max_chars then value
  else of_bytes (concat (truncate (Z.max 0 (max_chars - 3)) chars) ++ bytes "...").
Definition compact_excerpt (content : string) : string :=
  truncate_chars (of_bytes (join_tokens (split_whitespace content))) 240.
Definition trim_optional_text (value : option string) : option string := trimmed_non_empty value.

(** ** Matches *)

Module MatchQuality.
Inductive t := Strong | Possible | Weak.
#[global] Instance eq_dec : EqDecision t.
Proof. solve_decision. Defined.
End MatchQuality.
Module MatchAction.
Inductive t := Read | Consider | Ignore.
End MatchAction.
Module MatchScoreBasis.
Inductive t := RerankerBlend | Retrieval | Association | Unavailable.
End MatchScoreBasis.
Record MatchAssessment := {
  ma_quality : MatchQuality.t;
  ma_action : MatchAction.t;
  ma_score : f64;
  ma_score_basis : MatchScoreBasis.t;
}.
Record MatchDiagnostics := {
  mx_retrieval_score : option f64;
  mx_reranker_score : option f64;
  mx_reranker_blend_weight : option f64;
  mx_vector_distance : option f64;
  mx_ranking_score : option f64;
}.
Definition match_diagnostics_default : MatchDiagnostics :=
  {| mx_retrieval_score := None; mx_reranker_score := None; mx_reranker_blend_weight := None; mx_vector_distance := None;
     mx_ranking_score := None |}.

Definition finite_unit_score (value : f64) : f64 := if is_finite value then fclamp value f0 f1 else f0.
Definition match_score (result : SearchResult) (reranker_blend_weight : f64) : f64 :=
  match sr_score_breakdown result with
  | Some breakdown => finite_unit_score (sb_query_relevance breakdown)
  | None =>
      let retrieval_score := default f0 (sr_retrieval_score result) in
      finite_unit_score
        match sr_reranker_score result with
        | None => retrieval_score
        | Some reranker_score => fma reranker_blend_weight reranker_score (fmul (fsub f1 reranker_blend_weight) retrieval_score)
        end
  end.
Definition match_score_basis (result : SearchResult) : MatchScoreBasis.t :=
  if is_some (sr_reranker_score result) then MatchScoreBasis.RerankerBlend
  else if is_some (sr_retrieval_score result) then MatchScoreBasis.Retrieval
  else MatchScoreBasis.Unavailable.
Definition match_quality (score : f64) : MatchQuality.t :=
  if fleb (f64_lit 1 2) score then MatchQuality.Strong
  else if fleb (f64_lit 2 10) score then MatchQuality.Possible
  else MatchQuality.Weak.
Definition match_action (quality : MatchQuality.t) : MatchAction.t :=
  match quality with
  | MatchQuality.Strong => MatchAction.Read
  | MatchQuality.Possible => MatchAction.Consider
  | MatchQuality.Weak => MatchAction.Ignore
  end.
Definition match_assessment (result : SearchResult) (reranker_blend_weight : f64) : MatchAssessment :=
  let score := match_score result reranker_blend_weight in
  let quality := match_quality score in
  {| ma_quality := quality; ma_action := match_action quality; ma_score := score; ma_score_basis := match_score_basis result |}.
Definition match_diagnostics (result : SearchResult) (reranker_blend_weight : f64) : MatchDiagnostics :=
  {| mx_retrieval_score := sr_retrieval_score result; mx_reranker_score := sr_reranker_score result;
     mx_reranker_blend_weight := (λ _, reranker_blend_weight) <$> sr_reranker_score result;
     mx_vector_distance := sr_distance result; mx_ranking_score := sr_composite_score result |}.

(** ** The view of a memory *)

Definition REDACTED_SCOPE : string := "[redacted]".
Record MemoryView := {
  mv_memory : Memory;
  mv_metadata : option MemoryMetadata;
  mv_contexts : list ContextDescriptor;
  mv_primary_context_key : option string;
  mv_has_context_memberships : bool;
}.
Section view.
Context (view : MemoryView).
Definition is_redacted : bool := m_was_redacted (mv_memory view).
Definition content_visible : bool := field_visible_in_view (mv_memory view) RedactableField.Content.
Definition provenance_visible : bool := field_visible_in_view (mv_memory view) RedactableField.Provenance.
Definition view_summary : option string := if negb content_visible then None else mv_metadata view ≫= md_summary.
Definition summary_or_excerpt : string := default (compact_excerpt (m_content (mv_memory view))) view_summary.
Definition view_scope : option string :=
  if negb provenance_visible then None
  else match mv_primary_context_key view with
       | Some key => Some key
       | None => if negb (mv_has_context_memberships view) then Some UNRESOLVED_CONTEXT_KEY else None
       end.
Definition card_scope : string :=
  default (if is_redacted || mv_has_context_memberships view then REDACTED_SCOPE else UNRESOLVED_CONTEXT_KEY) view_scope.
Definition view_unresolved_scope : bool := bool_decide (view_scope = Some UNRESOLVED_CONTEXT_KEY).
Definition view_agent_label : option string :=
  if negb provenance_visible then None
  else first_some (mv_metadata view ≫= md_agent_label) (source_agent (m_provenance (mv_memory view))).
Definition view_created_by_principal : option string :=
  if is_redacted then None else mv_metadata view ≫= md_created_by_principal.
Definition view_quality_flags : list string :=
  if is_redacted then [] else from_option md_quality_flags [] (mv_metadata view).
Definition updated_at_for_wire : DateTime :=
  if is_redacted then m_created_at (mv_memory view) else m_updated_at (mv_memory view).
End view.

Record RecallCard := {
  rc_id : MemoryId;
  rc_summary_or_excerpt : string;
  rc_scope : string;
  rc_contexts : list ContextDescriptor;
  rc_agent_label : option string;
  rc_created_at : DateTime;
  rc_updated_at : DateTime;
  rc_tags : list string;
  rc_entities : list Entity;
  rc_match : MatchAssessment;
  rc_diagnostics : MatchDiagnostics;
}.
Definition recall_card_from_view (view : MemoryView) (assessment : MatchAssessment) (diagnostics : MatchDiagnostics) : RecallCard :=
  let memory := mv_memory view in
  {| rc_id := m_id memory; rc_summary_or_excerpt := summary_or_excerpt view; rc_scope := card_scope view;
     rc_contexts := mv_contexts view; rc_agent_label := view_agent_label view; rc_created_at := m_created_at memory;
     rc_updated_at := updated_at_for_wire view; rc_tags := m_tags memory; rc_entities := m_entities memory;
     rc_match := assessment; rc_diagnostics := diagnostics |}.
Definition recall_card_from_memory_view (result : SearchResult) (view : MemoryView) (reranker_blend_weight : f64) : RecallCard :=
  recall_card_from_view view (match_assessment result reranker_blend_weight)
    (if m_was_redacted (sr_memory result) then match_diagnostics_default else match_diagnostics result reranker_blend_weight).

Record DuplicateCandidateCard := { dc_id : MemoryId; dc_summary_or_excerpt : string; dc_match : MatchAssessment }.
Definition duplicate_card_from_memory_view (result : SearchResult) (view : MemoryView) (reranker_blend_weight : f64) : DuplicateCandidateCard :=
  {| dc_id := m_id (mv_memory view); dc_summary_or_excerpt := summary_or_excerpt view;
     dc_match := match_assessment result reranker_blend_weight |}.

Record InventoryCard := {
  iv_id : MemoryId;
  iv_summary_or_excerpt : string;
  iv_scope : string;
  iv_contexts : list ContextDescriptor;
  iv_agent_label : option string;
  iv_created_at : DateTime;
  iv_updated_at : DateTime;
  iv_tags : list string;
  iv_entities : list Entity;
  iv_memory_type : MemoryType.t;
  iv_has_embedding : bool;
  iv_unresolved_scope : bool;
  iv_expired : bool;
  iv_superseded : bool;
  iv_quality_flags : list string;
}.
Definition inventory_card_from_view (view : MemoryView) (now : DateTime) : InventoryCard :=
  let memory := mv_memory view in
  {| iv_id := m_id memory; iv_summary_or_excerpt := summary_or_excerpt view; iv_scope := card_scope view;
     iv_contexts := mv_contexts view; iv_agent_label := view_agent_label view; iv_created_at := m_created_at memory;
     iv_updated_at := updated_at_for_wire view; iv_tags := m_tags memory; iv_entities := m_entities memory;
     iv_memory_type := m_memory_type memory; iv_has_embedding := m_has_embedding memory;
     iv_unresolved_scope := view_unresolved_scope view;
     iv_expired := match m_expires_at memory with Some expires_at => expires_at <=? now | None => false end;
     iv_superseded := is_some (m_superseded_by memory); iv_quality_flags := view_quality_flags view |}.

Record MemoryBase := {
  mb_id : MemoryId;
  mb_content : string;
  mb_tags : list string;
  mb_created_at : DateTime;
  mb_updated_at : DateTime;
  mb_memory_type : MemoryType.t;
  mb_importance : f64;
  mb_confidence : f64;
  mb_has_embedding : bool;
  mb_impression_count : Z;
  mb_superseded_by : option MemoryId;
  mb_entities : list Entity;
}.
Record MemoryEntry := { me_base : MemoryBase; me_expires_at : option DateTime; me_last_impressed_at : option DateTime }.
Definition memory_base_from (m : Memory) : MemoryBase :=
  let hide := m_was_redacted m in
  {| mb_id := m_id m; mb_content := m_content m; mb_tags := m_tags m; mb_created_at := m_created_at m;
     mb_updated_at := if hide then m_created_at m else m_updated_at m; mb_memory_type := m_memory_type m;
     mb_importance := Importance.value (m_importance m);
     mb_confidence := if hide then Confidence.value Confidence.DEFAULT else Confidence.value (m_confidence m);
     mb_has_embedding := m_has_embedding m; mb_impression_count := m_impression_count m;
     mb_superseded_by := if hide then None else m_superseded_by m; mb_entities := m_entities m |}.
Definition memory_entry_from (m : Memory) : MemoryEntry :=
  {| me_base := memory_base_from m; me_expires_at := m_expires_at m; me_last_impressed_at := m_last_impressed_at m |}.

Module ReadManyStatus.
Inductive t := Found | NotFound.
#[global] Instance eq_dec : EqDecision t.
Proof. solve_decision. Defined.
End ReadManyStatus.
Record ReadManyItemResponse := {
  ri_id : MemoryId;
  ri_status : ReadManyStatus.t;
  ri_memory : option MemoryEntry;
  ri_summary : option string;
  ri_scope : option string;
  ri_contexts : list ContextDescriptor;
  ri_agent_label : option string;
  ri_created_by_principal : option string;
  ri_quality_flags : list string;
  ri_unresolved_scope : bool;
  ri_activity_recorded : bool;
}.
Definition full_read_item_from_memory_view (id : MemoryId) (view : MemoryView) (activity_recorded : bool) : ReadManyItemResponse :=
  {| ri_id := id; ri_status := ReadManyStatus.Found;
     ri_memory := Some (memory_entry_from (sanitize_for_wire (mv_memory view)));
     ri_summary := view_summary view; ri_scope := view_scope view; ri_contexts := mv_contexts view;
     ri_agent_label := view_agent_label view; ri_created_by_principal := view_created_by_principal view;
     ri_quality_flags := view_quality_flags view; ri_unresolved_scope := view_unresolved_scope view;
     ri_activity_recorded := activity_recorded |}.
Definition not_found_item (id : MemoryId) : ReadManyItemResponse :=
  {| ri_id := id; ri_status := ReadManyStatus.NotFound; ri_memory := None; ri_summary := None; ri_scope := None;
     ri_contexts := []; ri_agent_label := None; ri_created_by_principal := None; ri_quality_flags := [];
     ri_unresolved_scope := false; ri_activity_recorded := false |}.
