(* ===== verification/Resilience.v ===== *)
(** * Resilience: retries and availability of the embedding provider,
    [src/src/embedding/retry.rs] and [src/src/embedding/resilient.rs]

    Durations are nanoseconds. One request is [retry_transient], on the
    outcomes its attempts get; requests, the probe task and the cancellation
    that share the [available] flag interleave in [step]. *)
From Stdlib Require Import ZArith Lia.
From stdpp Require Import base list option strings gmap relations.
From S2P Require Import Prelude Errors.

Definition JITTER_MIN_PER_MILLE : Z := 800.
Definition JITTER_MAX_PER_MILLE : Z := 1200.

(** [Duration::MAX]: 2^64 - 1 seconds and 999999999 nanoseconds. *)
Definition DURATION_MAX : Z := (2 ^ 64 - 1) * 10 ^ 9 + 999999999.
Definition U32_MAX : Z := 2 ^ 32 - 1.
Definition U128_MAX : Z := 2 ^ 128 - 1.

Record RetryPolicy := { rp_max_retries : Z; rp_initial_backoff : Z; rp_max_backoff : Z }.

(** The values a [RetryPolicy] can hold. *)
Definition policy_range (p : RetryPolicy) : Prop :=
  0 ≤ rp_max_retries p ≤ U32_MAX ∧ 0 ≤ rp_initial_backoff p ≤ DURATION_MAX ∧
  0 ≤ rp_max_backoff p ≤ DURATION_MAX.

(** [2_u32.saturating_pow(i)] and [Duration::saturating_mul]. *)
Definition pow2_saturating_u32 (i : Z) : Z := Z.min (2 ^ i) U32_MAX.
Definition duration_saturating_mul (d m : Z) : Z := Z.min (d * m) DURATION_MAX.

Definition scale_duration (duration per_mille : Z) : Z :=
  let millis := Z.min (duration / 10 ^ 6 * per_mille) U128_MAX / 1000 in
  Z.min millis (2 ^ 64 - 1) * 10 ^ 6.

Definition delay_with_jitter (p : RetryPolicy) (retry_index : Z) (retry_after : option Z) (jitter : Z) : option Z :=
  if match retry_after with Some delay => rp_max_backoff p <? delay | None => false end then None
  else
    let exponential := Z.min (duration_saturating_mul (rp_initial_backoff p) (pow2_saturating_u32 retry_index))
                             (rp_max_backoff p) in
    let jittered := Z.min (scale_duration exponential jitter) (rp_max_backoff p) in
    Some (match retry_after with Some provider_delay => Z.max provider_delay jittered | None => jittered end).

(** The attempt counter of a request is a [u32]. *)
Definition next_attempt (attempt : Z) : Z := Z.min (attempt + 1) U32_MAX.

(** What the loop does with the outcome of one attempt. *)
Inductive decision (A : Type) :=
| Return (a : A)
| Fail (e : EmbeddingError.t)
| Sleep (delay : Z).
Arguments Return {A} a.
Arguments Fail {A} e.
Arguments Sleep {A} delay.

Definition decide_attempt {A} (p : RetryPolicy) (attempt jitter : Z) (r : result EmbeddingError.t A) : decision A :=
  match r with
  | Ok a => Return a
  | Err error =>
    if negb (EmbeddingError.is_retryable error) || (rp_max_retries p <=? attempt) then Fail error
    else match delay_with_jitter p attempt (EmbeddingError.retry_after error) jitter with
         | None => Fail error
         | Some delay => Sleep delay
         end
  end.

(** [handle_embed_error]: the value of [available] afterwards. *)
Definition handle_embed_error (err : EmbeddingError.t) (available : bool) : bool :=
  match err with EmbeddingError.Transient _ => false | _ => available end.

(** A request on its own: [operation n] is the outcome of the n-th call of
    the inner provider, [jitter n] the random factor drawn after it. The
    result comes with the sleeps taken and the flag. *)
Fixpoint retry_transient {A} (p : RetryPolicy) (operation : nat → result EmbeddingError.t A) (jitter : nat → Z)
    (fuel n : nat) (attempt : Z) (available : bool) : option (result EmbeddingError.t A * list Z * bool) :=
  match fuel with
  | O => None
  | S fuel' =>
    match decide_attempt p attempt (jitter n) (operation n) with
    | Return a => Some (Ok a, [], available)
    | Fail e => Some (Err e, [], handle_embed_error e available)
    | Sleep d =>
      '(r, sleeps, available') ← retry_transient p operation jitter fuel' (S n) (next_attempt attempt) available;
      Some (r, d :: sleeps, available')
    end
  end.

(** [ResilientEmbedding::embed] and [embed_batch]. *)
Definition embed {A} (p : RetryPolicy) (operation : nat → result EmbeddingError.t A) (jitter : nat → Z)
    (fuel : nat) (available : bool) : option (result EmbeddingError.t A * list Z * bool) :=
  if available then retry_transient p operation jitter fuel 0 0 available
  else Some (Err EmbeddingError.Disabled, [], available).

(** The availability [new_with_clock] starts with and a probe restores. *)
Definition reached (health : result EmbeddingError.t ()) : bool :=
  match health with Ok _ | Err (EmbeddingError.RateLimited _ _) => true | Err _ => false end.

Definition health_check (inner : result EmbeddingError.t ()) (available : bool) : result EmbeddingError.t () :=
  if available then inner else Err EmbeddingError.Disabled.

(** ** Requests and the probe task sharing the flag *)

Inductive request {A} :=
| Calling (attempt : Z)
| Sleeping (attempt : Z)
| Done (r : result EmbeddingError.t A).
Arguments request A : clear implicits.

Definition is_done {A} (q : request A) : bool := match q with Done _ => true | _ => false end.

(** The probe task: between its timer and the next check, in the health
    check, between the recovery and its notification, ended. *)
Inductive probe := Waiting | Probing | Notifying | Stopped.

(** [rs_calls] counts the calls of the inner provider a request made;
    [rs_cancelled] is set when the wrapper is dropped. *)
Record ResilientState {A : Type} := mkResilient {
  rs_available : bool;
  rs_requests : gmap nat (request A);
  rs_calls : gmap nat nat;
  rs_probe : probe;
  rs_cancelled : bool;
  rs_notified : bool }.
Arguments ResilientState A : clear implicits.

Definition calls_of {A} (s : ResilientState A) (i : nat) : nat := default 0%nat (rs_calls s !! i).

Definition set_request {A} (i : nat) (q : request A) (s : ResilientState A) : ResilientState A :=
  {| rs_available := rs_available s; rs_requests := <[i := q]> (rs_requests s); rs_calls := rs_calls s;
     rs_probe := rs_probe s; rs_cancelled := rs_cancelled s; rs_notified := rs_notified s |}.
(** A request calls the inner provider. *)
Definition call_inner {A} (i : nat) (attempt : Z) (s : ResilientState A) : ResilientState A :=
  {| rs_available := rs_available s; rs_requests := <[i := Calling attempt]> (rs_requests s);
     rs_calls := <[i := S (calls_of s i)]> (rs_calls s);
     rs_probe := rs_probe s; rs_cancelled := rs_cancelled s; rs_notified := rs_notified s |}.
Definition set_available {A} (b : bool) (s : ResilientState A) : ResilientState A :=
  {| rs_available := b; rs_requests := rs_requests s; rs_calls := rs_calls s;
     rs_probe := rs_probe s; rs_cancelled := rs_cancelled s; rs_notified := rs_notified s |}.
Definition set_probe {A} (q : probe) (s : ResilientState A) : ResilientState A :=
  {| rs_available := rs_available s; rs_requests := rs_requests s; rs_calls := rs_calls s;
     rs_probe := q; rs_cancelled := rs_cancelled s; rs_notified := rs_notified s |}.
Definition notify_one {A} (s : ResilientState A) : ResilientState A :=
  {| rs_available := rs_available s; rs_requests := rs_requests s; rs_calls := rs_calls s;
     rs_probe := rs_probe s; rs_cancelled := rs_cancelled s; rs_notified := true |}.
Definition cancel {A} (s : ResilientState A) : ResilientState A :=
  {| rs_available := rs_available s; rs_requests := rs_requests s; rs_calls := rs_calls s;
     rs_probe := rs_probe s; rs_cancelled := true; rs_notified := rs_notified s |}.

(** The wrapper as [new_with_clock] builds it from the first health check. *)
Definition new_with_clock {A} (initial_health : result EmbeddingError.t ()) : ResilientState A :=
  {| rs_available := reached initial_health; rs_requests := ∅; rs_calls := ∅; rs_probe := Waiting;
     rs_cancelled := false; rs_notified := false |}.

(** What can happen next: a request starts, its attempt is answered, its
    sleep ends; the probe timer fires, the health check is answered, the
    notifier is signalled; the wrapper is dropped, the probe task ends. *)
Inductive event {A} :=
| EvStart (i : nat)
| EvReply (i : nat) (jitter : Z) (r : result EmbeddingError.t A)
| EvWake (i : nat)
| EvProbeTimer
| EvProbeReply (r : result EmbeddingError.t ())
| EvNotify
| EvDrop
| EvProbeCancelled.
Arguments event A : clear implicits.

Definition start_request {A} (i : nat) (s : ResilientState A) : ResilientState A :=
  if rs_available s then call_inner i 0 s else set_request i (Done (Err EmbeddingError.Disabled)) s.

Definition reply_request {A} (p : RetryPolicy) (i : nat) (attempt jitter : Z) (r : result EmbeddingError.t A)
    (s : ResilientState A) : ResilientState A :=
  match decide_attempt p attempt jitter r with
  | Return a => set_request i (Done (Ok a)) s
  | Fail e => set_available (handle_embed_error e (rs_available s)) (set_request i (Done (Err e)) s)
  | Sleep _ => set_request i (Sleeping attempt) s
  end.

(** One atomic step; [None] when the event cannot happen. Requests borrow
    the wrapper, so it is dropped only when none is in progress. [notifier]
    says whether a recovery notifier is configured. *)
Definition step_event {A} (p : RetryPolicy) (notifier : bool) (s : ResilientState A) (ev : event A) :
    option (ResilientState A) :=
  match ev with
  | EvStart i =>
    match rs_requests s !! i with
    | None => if rs_cancelled s then None else Some (start_request i s)
    | Some _ => None
    end
  | EvReply i jitter r =>
    match rs_requests s !! i with
    | Some (Calling attempt) => Some (reply_request p i attempt jitter r s)
    | _ => None
    end
  | EvWake i =>
    match rs_requests s !! i with
    | Some (Sleeping attempt) => Some (call_inner i (next_attempt attempt) s)
    | _ => None
    end
  | EvProbeTimer =>
    match rs_probe s with
    | Waiting => Some (if rs_available s then s else set_probe Probing s)
    | _ => None
    end
  | EvProbeReply r =>
    match rs_probe s with
    | Probing => Some (if reached r then set_probe Notifying (set_available true s) else set_probe Waiting s)
    | _ => None
    end
  | EvNotify =>
    match rs_probe s with
    | Notifying => Some (set_probe Waiting (if notifier then notify_one s else s))
    | _ => None
    end
  | EvDrop =>
    if bool_decide (map_Forall (λ _ q, is_done q = true) (rs_requests s)) then Some (cancel s) else None
  | EvProbeCancelled =>
    match rs_probe s with
    | Waiting | Probing => if rs_cancelled s then Some (set_probe Stopped s) else None
    | _ => None
    end
  end.

Fixpoint run_events {A} (p : RetryPolicy) (notifier : bool) (evs : list (event A)) (s : ResilientState A) :
    option (ResilientState A) :=
  match evs with
  | [] => Some s
  | ev :: evs' => s' ← step_event p notifier s ev; run_events p notifier evs' s'
  end.

(** ** Delays *)

Lemma delay_bounds p i ra j d :
  policy_range p → 0 ≤ i → 0 ≤ j → delay_with_jitter p i ra j = Some d →
  d ≤ rp_max_backoff p ∧ (∀ r, ra = Some r → r ≤ d) ∧
  (ra = None → d * 1000 ≤ rp_initial_backoff p * 2 ^ i * j).
Proof.
  intros (_ & Hinit & Hmax) Hi Hj Hd. unfold delay_with_jitter in Hd.
  destruct (match ra with Some delay => rp_max_backoff p <? delay | None => false end) eqn:E; [done|].
  injection Hd as <-.
  set (e := Z.min (duration_saturating_mul _ _) _) in *.
  assert (0 ≤ e ∧ e ≤ rp_initial_backoff p * 2 ^ i) as [He0 He].
  { unfold e, duration_saturating_mul, pow2_saturating_u32, DURATION_MAX, U32_MAX in *.
    pose proof (Z.pow_nonneg 2 i ltac:(lia)). split; [|nia].
    repeat apply Z.min_glb; nia. }
  assert (scale_duration e j * 1000 ≤ e * j) as Hscale.
  { unfold scale_duration.
    pose proof (Z.mul_div_le e (10 ^ 6) ltac:(lia)).
    pose proof (Z.mul_div_le (Z.min (e / 10 ^ 6 * j) U128_MAX) 1000 ltac:(lia)).
    assert (0 ≤ e / 10 ^ 6) by (apply Z.div_pos; lia). nia. }
  destruct ra as [r|]; split_and!.
  - apply Z.ltb_ge in E. lia.
  - intros r' [= <-]. lia.
  - done.
  - lia.
  - done.
  - intros _. nia.
Qed.

Lemma delay_none p i ra j :
  delay_with_jitter p i ra j = None ↔ ∃ r, ra = Some r ∧ rp_max_backoff p < r.
Proof.
  unfold delay_with_jitter. destruct ra as [r|].
  - destruct (Z.ltb_spec (rp_max_backoff p) r); split; try done; [eauto|].
    intros (? & [= <-] & ?). lia.
  - split; [done|]. intros (? & ? & _). done.
Qed.

(** ** One request *)

Lemma decide_attempt_inv {A} p attempt j (r : result EmbeddingError.t A) :
  match decide_attempt p attempt j r with
  | Return a => r = Ok a
  | Fail e => r = Err e ∧
      (EmbeddingError.is_retryable e = true →
       rp_max_retries p ≤ attempt ∨ ∃ ra, EmbeddingError.retry_after e = Some ra ∧ rp_max_backoff p < ra)
  | Sleep d => ∃ e, r = Err e ∧ EmbeddingError.is_retryable e = true ∧ attempt < rp_max_retries p ∧
      delay_with_jitter p attempt (EmbeddingError.retry_after e) j = Some d
  end.
Proof.
  unfold decide_attempt. destruct r as [a|e]; [done|].
  destruct (EmbeddingError.is_retryable e) eqn:Ee; cbn; [|split; [done|congruence]].
  destruct (Z.leb_spec (rp_max_retries p) attempt); [split; [done|auto]|].
  destruct (delay_with_jitter _ _ _ _) as [d|] eqn:Ed; [exists e; auto|].
  apply delay_none in Ed. split; [done|]. intros _. right. exact Ed.
Qed.

Lemma next_attempt_nat p n :
  policy_range p → Z.of_nat n < rp_max_retries p → next_attempt (Z.of_nat n) = Z.of_nat (S n).
Proof. unfold policy_range, next_attempt, U32_MAX. lia. Qed.

(** What a request that starts at attempt [n] returns. *)
Definition retry_result {A} (p : RetryPolicy) (operation : nat → result EmbeddingError.t A) (n : nat)
    (r : result EmbeddingError.t A) (sleeps : list Z) (available : bool) : Prop :=
  Z.of_nat (n + length sleeps) ≤ rp_max_retries p ∧
  operation (n + length sleeps)%nat = r ∧
  (∀ i d, sleeps !! i = Some d → ∃ e, operation (n + i)%nat = Err e ∧ EmbeddingError.is_retryable e = true ∧
     d ≤ rp_max_backoff p ∧ (∀ ra, EmbeddingError.retry_after e = Some ra → ra ≤ d) ∧
     (EmbeddingError.retry_after e = None →
      d * 1000 ≤ rp_initial_backoff p * 2 ^ Z.of_nat (n + i) * JITTER_MAX_PER_MILLE)) ∧
  (∀ e, r = Err e → EmbeddingError.is_retryable e = true →
     Z.of_nat (n + length sleeps) = rp_max_retries p ∨
     ∃ ra, EmbeddingError.retry_after e = Some ra ∧ rp_max_backoff p < ra) ∧
  (available = false ↔ ∃ source, r = Err (EmbeddingError.Transient source)).

Lemma retry_transient_spec {A} p (operation : nat → result EmbeddingError.t A) jitter fuel n :
  policy_range p → (∀ k, JITTER_MIN_PER_MILLE ≤ jitter k ≤ JITTER_MAX_PER_MILLE) →
  Z.of_nat n ≤ rp_max_retries p < Z.of_nat (n + fuel) →
  ∃ r sleeps available,
    retry_transient p operation jitter fuel n (Z.of_nat n) true = Some (r, sleeps, available) ∧
    retry_result p operation n r sleeps available.
Proof.
  intros Hp Hj. revert n. induction fuel as [|fuel IH]; intros n Hn; [lia|]. cbn [retry_transient].
  pose proof (decide_attempt_inv p (Z.of_nat n) (jitter n) (operation n)) as Hd.
  destruct (decide_attempt _ _ _ _) as [a|e|d].
  - eexists _, _, _; split; [done|]. unfold retry_result. cbn. rewrite Nat.add_0_r.
    split_and!; try done; try lia. split; [done|]. intros (? & ?). done.
  - destruct Hd as [He Hstop]. eexists _, _, _; split; [done|]. unfold retry_result. cbn. rewrite Nat.add_0_r.
    split_and!; try done; try lia.
    + intros e' [= <-] Hr. destruct (Hstop Hr); [left; lia|auto].
    + destruct e; cbn; split; try done; eauto; intros (? & [=]).
  - destruct Hd as (e & He & Hr & Hlt & Hdelay).
    rewrite (next_attempt_nat p n Hp Hlt).
    destruct (IH (S n) ltac:(lia)) as (r & sleeps & av & Hrun & Hlen & Hop & Hsl & Hstop & Hav).
    rewrite Hrun. cbn. eexists r, (d :: sleeps), av; split; [done|]. unfold retry_result.
    cbn [length]. rewrite Nat.add_succ_r. split_and!; try done.
    intros [|i] d' Hd'; cbn in Hd'.
    + injection Hd' as <-. rewrite Nat.add_0_r. exists e. pose proof (Hj n) as Hjn.
      destruct (delay_bounds p (Z.of_nat n) _ (jitter n) d Hp ltac:(lia)
                  ltac:(unfold JITTER_MIN_PER_MILLE in *; lia) Hdelay) as (H1 & H2 & H3).
      split_and!; try done. intros Hnone. specialize (H3 Hnone).
      pose proof (Z.pow_nonneg 2 (Z.of_nat n) ltac:(lia)). destruct Hp as (_ & ? & _).
      etrans; [exact H3|]. apply Z.mul_le_mono_nonneg_l; [apply Z.mul_nonneg_nonneg; lia|lia].
    + rewrite Nat.add_succ_r. apply (Hsl i d' Hd').
Qed.

(** C30. A request to an available provider always comes to an end, after at
    most [max_retries] retries. Its result is that of its last attempt; every
    earlier attempt failed with a transient or rate-limit error and was
    followed by a sleep that is at least the delay the provider asked for, at
    most the configured maximum, and without a provider delay within the
    jittered exponential backoff. A transient or rate-limit error is returned
    only when the retries are used up or the provider asks for a longer delay
    than the maximum, and the provider is marked unavailable exactly when the
    returned error is transient. *)
Theorem embed_retry_contract {A} p (operation : nat → result EmbeddingError.t A) jitter fuel
    (Hp : policy_range p) (Hj : ∀ k, JITTER_MIN_PER_MILLE ≤ jitter k ≤ JITTER_MAX_PER_MILLE)
    (Hfuel : rp_max_retries p < Z.of_nat fuel) :
  ∃ r sleeps available,
    embed p operation jitter fuel true = Some (r, sleeps, available) ∧
    Z.of_nat (length sleeps) ≤ rp_max_retries p ∧
    operation (length sleeps) = r ∧
    (∀ i d, sleeps !! i = Some d → ∃ e, operation i = Err e ∧ EmbeddingError.is_retryable e = true ∧
       d ≤ rp_max_backoff p ∧ (∀ ra, EmbeddingError.retry_after e = Some ra → ra ≤ d) ∧
       (EmbeddingError.retry_after e = None →
        d * 1000 ≤ rp_initial_backoff p * 2 ^ Z.of_nat i * JITTER_MAX_PER_MILLE)) ∧
    (∀ e, r = Err e → EmbeddingError.is_retryable e = true →
       Z.of_nat (length sleeps) = rp_max_retries p ∨
       ∃ ra, EmbeddingError.retry_after e = Some ra ∧ rp_max_backoff p < ra) ∧
    (available = false ↔ ∃ source, r = Err (EmbeddingError.Transient source)).
Proof.
  destruct (retry_transient_spec p operation jitter fuel 0 Hp Hj) as (r & sleeps & av & Hrun & Hres).
  { destruct Hp. lia. }
  exists r, sleeps, av. split; [exact Hrun|exact Hres].
Qed.

(** The defaults of [ResilientConfig]. *)
Definition default_policy : RetryPolicy :=
  {| rp_max_retries := 2; rp_initial_backoff := 500 * 10 ^ 6; rp_max_backoff := 30 * 10 ^ 9 |}.

(** Two failures, then a success. *)
Definition flaky (n : nat) : result EmbeddingError.t Z :=
  match n with
  | O => Err (EmbeddingError.Transient "down")
  | S O => Err (EmbeddingError.RateLimited "busy" (Some (4 * 10 ^ 9)))
  | _ => Ok 7
  end.

Example flaky_recovers :
  embed default_policy flaky (λ _, 1000) 3 true = Some (Ok 7, [500 * 10 ^ 6; 4 * 10 ^ 9], true).
Proof. reflexivity. Qed.

Lemma embed_retry_contract_witness :
  policy_range default_policy ∧
  ∃ r sleeps available, embed default_policy flaky (λ _, 1000) 3 true = Some (r, sleeps, available) ∧
    Z.of_nat (length sleeps) ≤ 2.
Proof.
  assert (Hp : policy_range default_policy) by (unfold policy_range; vm_compute; intuition discriminate).
  split; [exact Hp|].
  destruct (embed_retry_contract default_policy flaky (λ _, 1000) 3 Hp) as (r & sl & av & H1 & H2 & _).
  - intros _. unfold JITTER_MIN_PER_MILLE, JITTER_MAX_PER_MILLE. lia.
  - cbn. lia.
  - exists r, sl, av. split; [exact H1|exact H2].
Defined.

(** ** Interleaved requests *)

(** A property kept by every step holds at the end of every run. *)
Lemma run_events_ind {A} p notifier (P : list (event A) → ResilientState A → Prop) s evs s' :
  P [] s →
  (∀ evs t ev t', P evs t → step_event p notifier t ev = Some t' → P (evs ++ [ev]) t') →
  run_events p notifier evs s = Some s' → P evs s'.
Proof.
  intros H0 Hstep. change evs with ([] ++ evs) at 2. revert H0. generalize (@nil (event A)) as pre.
  revert s. induction evs as [|ev evs IH]; intros s pre H0 Hrun; cbn in Hrun.
  - injection Hrun as <-. by rewrite app_nil_r.
  - apply bind_Some in Hrun as (t & Ht & Hrun). rewrite cons_middle, (assoc_L (++)).
    apply (IH t); [by eapply Hstep|done].
Qed.

(** The case analysis of one step. *)
Ltac inv_step H :=
  unfold step_event, start_request, reply_request in H;
  repeat (case_match; simplify_eq/=; try discriminate).

(** How far a request got, against the calls it made. *)
Definition progress {A} (p : RetryPolicy) (q : option (request A)) (calls : nat) : Prop :=
  match q with
  | None => calls = 0%nat
  | Some (Calling a) => Z.of_nat calls = a + 1 ∧ 0 ≤ a ≤ rp_max_retries p
  | Some (Sleeping a) => Z.of_nat calls = a + 1 ∧ 0 ≤ a < rp_max_retries p
  | Some (Done _) => Z.of_nat calls ≤ rp_max_retries p + 1
  end.
Definition all_progress {A} (p : RetryPolicy) (s : ResilientState A) : Prop :=
  ∀ i, progress p (rs_requests s !! i) (calls_of s i).

Lemma set_request_progress {A} p i q (s : ResilientState A) :
  progress p (Some q) (calls_of s i) → all_progress p s → all_progress p (set_request i q s).
Proof.
  intros Hq Hs j. unfold calls_of. cbn.
  destruct (decide (i = j)) as [<-|]; [rewrite lookup_insert_eq|rewrite lookup_insert_ne by done];
    [exact Hq|apply Hs].
Qed.

Lemma call_inner_progress {A} p i a (s : ResilientState A) :
  Z.of_nat (calls_of s i) = a → 0 ≤ a ≤ rp_max_retries p → all_progress p s → all_progress p (call_inner i a s).
Proof.
  intros Hq Ha Hs j. unfold calls_of in *. cbn.
  destruct (decide (i = j)) as [<-|].
  - rewrite !lookup_insert_eq. cbn. unfold calls_of. lia.
  - rewrite !lookup_insert_ne by done. apply Hs.
Qed.

Lemma step_progress {A} p notifier (s s' : ResilientState A) ev :
  policy_range p → all_progress p s → step_event p notifier s ev = Some s' → all_progress p s'.
Proof.
  intros Hp Hs Hstep. destruct ev as [i|i j r|i| |r| | |]; cbn in Hstep.
  - pose proof (Hs i) as Hi. destruct (rs_requests s !! i) eqn:Ei; [done|].
    destruct (rs_cancelled s); [done|]. injection Hstep as <-. cbn in Hi. unfold start_request.
    destruct (rs_available s).
    + apply call_inner_progress; [lia|destruct Hp; lia|done].
    + apply set_request_progress; [cbn; destruct Hp; lia|done].
  - pose proof (Hs i) as Hi. destruct (rs_requests s !! i) as [[a|a|?]|]; try done.
    injection Hstep as <-. cbn in Hi. unfold reply_request.
    pose proof (decide_attempt_inv p a j r) as Hd. destruct (decide_attempt p a j r) as [?|e|d].
    + apply set_request_progress; [cbn; lia|done].
    + change (all_progress p (set_request i (Done (Err e)) s)). apply set_request_progress; [cbn; lia|done].
    + destruct Hd as (? & _ & _ & Hlt & _). apply set_request_progress; [cbn; lia|done].
  - pose proof (Hs i) as Hi. destruct (rs_requests s !! i) as [[a|a|?]|]; try done.
    injection Hstep as <-. cbn in Hi. unfold next_attempt.
    apply call_inner_progress; [unfold policy_range, U32_MAX in *; lia| |done].
    unfold policy_range, U32_MAX in *; lia.
  - inv_step Hstep; done.
  - inv_step Hstep; done.
  - inv_step Hstep; done.
  - inv_step Hstep; done.
  - inv_step Hstep; done.
Qed.

(** However requests, health probes and the end of the wrapper interleave,
    no request calls the provider more than [max_retries + 1] times. *)
Theorem resilient_call_budget {A} p notifier health evs (s : ResilientState A) i
    (Hp : policy_range p) (Hrun : run_events p notifier evs (new_with_clock health) = Some s) :
  Z.of_nat (calls_of s i) ≤ rp_max_retries p + 1.
Proof.
  assert (all_progress p s) as Hs.
  { apply (run_events_ind p notifier (λ _, all_progress p) _ _ _) in Hrun; [done|done|].
    intros ?????. by apply step_progress. }
  specialize (Hs i). unfold progress in Hs. destruct (rs_requests s !! i) as [[?|?|?]|]; try lia.
  destruct Hp. lia.
Qed.

(** The health check answers of a run that reached the provider. *)
Definition probe_reached {A} (ev : event A) : bool :=
  match ev with EvProbeReply r => reached r | _ => false end.

(** A run in which an open provider stays untouched. *)
Definition stays_open {A} (s s' : ResilientState A) : Prop :=
  rs_available s' = false ∧
  ∀ i, rs_requests s !! i = None →
    calls_of s' i = calls_of s i ∧
    (rs_requests s' !! i = None ∨ rs_requests s' !! i = Some (Done (Err EmbeddingError.Disabled))).

Lemma step_stays_open {A} p notifier (s t t' : ResilientState A) ev :
  probe_reached ev = false → stays_open s t → step_event p notifier t ev = Some t' → stays_open s t'.
Proof.
  intros Hev [Hav Hreq] Hstep. destruct ev as [i|i j r|i| |r| | |]; cbn in Hstep.
  - destruct (rs_requests t !! i) eqn:Ei; [done|]. destruct (rs_cancelled t); [done|].
    injection Hstep as <-. unfold start_request. rewrite Hav. split; [done|]. intros k Hk.
    destruct (Hreq k Hk) as [Hc Hq]. split; [exact Hc|]. cbn.
    destruct (decide (i = k)) as [<-|]; [rewrite lookup_insert_eq; auto|by rewrite lookup_insert_ne].
  - destruct (rs_requests t !! i) as [[a|a|?]|] eqn:Ei; try done. injection Hstep as <-.
    assert (Hi : ∀ k, rs_requests s !! k = None → i ≠ k).
    { intros k Hk ->. destruct (Hreq k Hk) as [_ [?|?]]; congruence. }
    unfold reply_request. destruct (decide_attempt p a j r) as [?|e|?]; (split; [|intros k Hk; cbn;
      rewrite lookup_insert_ne by auto; by apply Hreq]); cbn; try done.
    destruct e; cbn; done.
  - destruct (rs_requests t !! i) as [[a|a|?]|] eqn:Ei; try done. injection Hstep as <-. split; [done|].
    intros k Hk. assert (i ≠ k). { intros ->. destruct (Hreq k Hk) as [_ [?|?]]; congruence. }
    unfold calls_of at 1. cbn. rewrite !lookup_insert_ne by done. by apply Hreq.
  - inv_step Hstep; done.
  - cbn in Hev. rewrite Hev in Hstep. inv_step Hstep; done.
  - inv_step Hstep; done.
  - inv_step Hstep; done.
  - inv_step Hstep; done.
Qed.

(** Either the provider is still available, or some request has been
    answered with a transient error in the run. *)
Definition tripped {A} (evs : list (event A)) (s : ResilientState A) : Prop :=
  rs_available s = true ∨
  ∃ i j source, EvReply i j (Err (EmbeddingError.Transient source)) ∈ evs ∧
    rs_requests s !! i = Some (Done (Err (EmbeddingError.Transient source))).

Lemma done_is_final {A} p notifier (t t' : ResilientState A) ev i r :
  rs_requests t !! i = Some (Done r) → step_event p notifier t ev = Some t' →
  rs_requests t' !! i = Some (Done r).
Proof.
  intros Hi Hstep.
  assert (∀ k q, rs_requests t !! k = q → (∀ r, q ≠ Some (Done r)) → k ≠ i) as Hne.
  { intros k q Hk Hq ->. rewrite Hi in Hk. by apply (Hq r). }
  destruct ev as [k|k j r'|k| |r'| | |]; cbn in Hstep;
    try (destruct (rs_requests t !! k) as [[a|a|?]|] eqn:Ek; try done;
         pose proof (Hne k _ Ek ltac:(done))).
  - destruct (rs_cancelled t); [done|]. injection Hstep as <-. unfold start_request.
    destruct (rs_available t); cbn; by rewrite lookup_insert_ne.
  - injection Hstep as <-. unfold reply_request.
    destruct (decide_attempt p a j r'); cbn; by rewrite lookup_insert_ne.
  - injection Hstep as <-. cbn. by rewrite lookup_insert_ne.
  - inv_step Hstep; done.
  - inv_step Hstep; done.
  - inv_step Hstep; done.
  - inv_step Hstep; done.
  - inv_step Hstep; done.
Qed.

Lemma step_tripped {A} p notifier evs (t t' : ResilientState A) ev :
  tripped evs t → step_event p notifier t ev = Some t' → tripped (evs ++ [ev]) t'.
Proof.
  intros [Hav|(i & j & src & Hin & Hi)] Hstep.
  2: { right. exists i, j, src. split; [apply elem_of_app; by left|by eapply done_is_final]. }
  destruct (rs_available t') eqn:Hav'; [by left|]. right.
  destruct ev as [i|i j r|i| |r| | |]; cbn in Hstep.
  - destruct (rs_requests t !! i); [done|]. destruct (rs_cancelled t); [done|].
    injection Hstep as <-. unfold start_request in Hav'. rewrite Hav in Hav'. cbn in Hav'. congruence.
  - destruct (rs_requests t !! i) as [[a|a|?]|]; try done. injection Hstep as <-.
    unfold reply_request in Hav' |- *. pose proof (decide_attempt_inv p a j r) as Hd.
    destruct (decide_attempt p a j r) as [?|e|?]; cbn in Hav'; try congruence.
    destruct Hd as [-> _]. destruct e; cbn in Hav'; try congruence.
    exists i, j, source. split; [set_solver|]. cbn. by rewrite lookup_insert_eq.
  - destruct (rs_requests t !! i) as [[a|a|?]|]; try done. injection Hstep as <-. cbn in Hav'. congruence.
  - inv_step Hstep; congruence.
  - inv_step Hstep; congruence.
  - inv_step Hstep; congruence.
  - inv_step Hstep; congruence.
  - inv_step Hstep; congruence.
Qed.

(** A notification is due or was given. *)
Definition notification {A} (s : ResilientState A) : Prop := rs_notified s = true ∨ rs_probe s = Notifying.

Lemma step_notified {A} p notifier (t t' : ResilientState A) ev :
  step_event p notifier t ev = Some t' → notification t' → notification t ∨ probe_reached ev = true.
Proof.
  unfold notification. intros Hstep Ht'. destruct ev as [i|i j r|i| |r| | |]; cbn in Hstep |- *.
  all: inv_step Hstep; destruct Ht'; cbn in *; simplify_eq; auto; congruence.
Qed.


(** Request 0 exhausts its retries while request 1 is in flight, request 2
    finds the provider disabled, a probe restores it, and request 1
    succeeds. *)
Definition outage : list (event Z) :=
  [EvStart 0%nat; EvStart 1%nat;
   EvReply 0%nat 1000 (Err (EmbeddingError.Transient "down")); EvWake 0%nat;
   EvReply 0%nat 1000 (Err (EmbeddingError.RateLimited "busy" None)); EvWake 0%nat;
   EvReply 0%nat 1000 (Err (EmbeddingError.Transient "down"));
   EvStart 2%nat; EvProbeTimer; EvProbeReply (Ok ()); EvNotify;
   EvReply 1%nat 1000 (Ok 3)].

Definition after_outage : ResilientState Z :=
  default (new_with_clock (Ok ())) (run_events default_policy true outage (new_with_clock (Ok ()))).

Example outage_outcome :
  rs_requests after_outage =
    {[0%nat := Done (Err (EmbeddingError.Transient "down")); 1%nat := Done (Ok 3);
      2%nat := Done (Err EmbeddingError.Disabled)]} ∧
  (calls_of after_outage 0, calls_of after_outage 2, rs_available after_outage, rs_notified after_outage)
    = (3%nat, 0%nat, true, true).
Proof. by vm_compute. Qed.

Lemma resilient_call_budget_witness :
  run_events default_policy true outage (new_with_clock (Ok ())) = Some after_outage ∧
  Z.of_nat (calls_of after_outage 0) ≤ rp_max_retries default_policy + 1.
Proof.
  assert (Hrun : run_events default_policy true outage (new_with_clock (Ok ())) = Some after_outage)
    by (vm_compute; reflexivity).
  assert (Hp : policy_range default_policy) by (unfold policy_range; vm_compute; intuition discriminate).
  exact (conj Hrun (resilient_call_budget default_policy true (Ok ()) outage after_outage 0%nat Hp Hrun)).
Defined.

