(* ===== verification/BackgroundTasks.v ===== *)
(** * BackgroundTasks: admission and shutdown of background work,
    [src/src/background_tasks.rs]

    Every access of an atomic is one step, so clients that begin or drop an
    embed admission interleave with a running shutdown at the granularity of
    the code. A section under the [tasks] mutex is one step: the flag it reads
    is read once and the task set is touched by nobody else meanwhile. At
    most one shutdown runs at a time, as the engine calls it. *)
From Stdlib Require Import ZArith Lia.
From stdpp Require Import base list option strings gmap sets fin_maps relations.
From S2P Require Import Prelude Errors.

(** Where a client is. [Checked] and [Counted] are inside
    [begin_embed_admission], after the first load and after the increment;
    [Refused] is before the decrement of a late refusal. [HoldsAdmission] holds an
    [EmbedAdmission]. The others are inside its [drop], when it was the last:
    before the swap of the reset flag, before each of the two stores, before
    [notify_waiters]. *)
Inductive client :=
| Checked | Counted | Refused | HoldsAdmission
| Swapping | ClearingClosed | ClearingShutdown | NotifyingWaiters.
#[export] Instance client_eq_dec : EqDecision client.
Proof. solve_decision. Defined.

(** Where [shutdown_with_cleanup] is. In [wait_for_embed_admissions_until]:
    before a [Notified] future is created, when it exists, after [enable]
    (with its answer), and parked on it. Then the two stores and the take of
    a timeout, or the take, the drain of the taken tasks and the two stores
    of an orderly end. *)
Inductive shutdown_pc :=
| Idle
| BeforeNotified | Created | Enabled (already_notified : bool) | Parked
| TimingOutClosed | TimingOutReset | TimingOutTake
| Drained | Draining (taken : gmap nat bool) | ReopeningSpawns | ReopeningShutdown.

(** A task of the join set is [true] once it has finished. [bt_woken] says
    that [notify_waiters] was called since the current [Notified] was
    created. *)
Record State := mkState {
  bt_tasks : gmap nat bool;
  bt_shutting_down : bool;
  bt_admitted_spawns_closed : bool;
  bt_reset_after_admission_timeout : bool;
  bt_embed_admissions : Z;
  bt_clients : gmap nat client;
  bt_shutdown : shutdown_pc;
  bt_woken : bool }.

Definition new : State :=
  {| bt_tasks := ∅; bt_shutting_down := false; bt_admitted_spawns_closed := false;
     bt_reset_after_admission_timeout := false; bt_embed_admissions := 0; bt_clients := ∅;
     bt_shutdown := Idle; bt_woken := false |}.

Definition set_tasks (x : gmap nat bool) (s : State) : State :=
  mkState x (bt_shutting_down s) (bt_admitted_spawns_closed s) (bt_reset_after_admission_timeout s)
    (bt_embed_admissions s) (bt_clients s) (bt_shutdown s) (bt_woken s).
Definition set_shutting_down (x : bool) (s : State) : State :=
  mkState (bt_tasks s) x (bt_admitted_spawns_closed s) (bt_reset_after_admission_timeout s)
    (bt_embed_admissions s) (bt_clients s) (bt_shutdown s) (bt_woken s).
Definition set_closed (x : bool) (s : State) : State :=
  mkState (bt_tasks s) (bt_shutting_down s) x (bt_reset_after_admission_timeout s)
    (bt_embed_admissions s) (bt_clients s) (bt_shutdown s) (bt_woken s).
Definition set_reset (x : bool) (s : State) : State :=
  mkState (bt_tasks s) (bt_shutting_down s) (bt_admitted_spawns_closed s) x
    (bt_embed_admissions s) (bt_clients s) (bt_shutdown s) (bt_woken s).
Definition add_admissions (x : Z) (s : State) : State :=
  mkState (bt_tasks s) (bt_shutting_down s) (bt_admitted_spawns_closed s) (bt_reset_after_admission_timeout s)
    (bt_embed_admissions s + x) (bt_clients s) (bt_shutdown s) (bt_woken s).
Definition set_client (c : nat) (q : option client) (s : State) : State :=
  mkState (bt_tasks s) (bt_shutting_down s) (bt_admitted_spawns_closed s) (bt_reset_after_admission_timeout s)
    (bt_embed_admissions s) (partial_alter (λ _, q) c (bt_clients s)) (bt_shutdown s) (bt_woken s).
Definition set_shutdown (x : shutdown_pc) (s : State) : State :=
  mkState (bt_tasks s) (bt_shutting_down s) (bt_admitted_spawns_closed s) (bt_reset_after_admission_timeout s)
    (bt_embed_admissions s) (bt_clients s) x (bt_woken s).
Definition set_woken (x : bool) (s : State) : State :=
  mkState (bt_tasks s) (bt_shutting_down s) (bt_admitted_spawns_closed s) (bt_reset_after_admission_timeout s)
    (bt_embed_admissions s) (bt_clients s) (bt_shutdown s) x.

(** [reap_completed_tasks_locked] on the task set. *)
Definition reap_completed_tasks (tasks : gmap nat bool) : gmap nat bool :=
  filter (λ '(_, finished), finished = false) tasks.

(** [spawn_best_effort] and [spawn_admitted] of task [t], with the answer. *)
Definition spawn_best_effort (t : nat) (s : State) : bool * State :=
  let tasks := reap_completed_tasks (bt_tasks s) in
  if bt_shutting_down s then (false, set_tasks tasks s) else (true, set_tasks (<[t := false]> tasks) s).
Definition spawn_admitted (t : nat) (s : State) : bool * State :=
  if bt_admitted_spawns_closed s then (false, s)
  else (true, set_tasks (<[t := false]> (reap_completed_tasks (bt_tasks s))) s).

(** The first load of [begin_embed_admission]. *)
Definition begin_embed_admission (s : State) : result EngineError.t () :=
  if bt_shutting_down s then Err EngineError.ShuttingDown else Ok ().

Definition task_fresh (t : nat) (s : State) : Prop :=
  bt_tasks s !! t = None ∧ match bt_shutdown s with Draining taken => taken !! t = None | _ => True end.

Inductive step : State → State → Prop :=
(** [begin_embed_admission]. *)
| step_begin c s :
    bt_clients s !! c = None → begin_embed_admission s = Ok () → step s (set_client c (Some Checked) s)
| step_count c s :
    bt_clients s !! c = Some Checked → step s (add_admissions 1 (set_client c (Some Counted) s))
| step_recheck c s :
    bt_clients s !! c = Some Counted →
    step s (set_client c (Some (if bt_shutting_down s then Refused else HoldsAdmission)) s)
| step_refuse c s :
    bt_clients s !! c = Some Refused →
    step s (add_admissions (-1) (set_client c (if bt_embed_admissions s =? 1 then Some NotifyingWaiters else None) s))
(** [EmbedAdmission::drop]. *)
| step_drop c s :
    bt_clients s !! c = Some HoldsAdmission →
    step s (add_admissions (-1) (set_client c (if bt_embed_admissions s =? 1 then Some Swapping else None) s))
| step_swap c s :
    bt_clients s !! c = Some Swapping →
    step s (set_reset false
      (set_client c (Some (if bt_reset_after_admission_timeout s then ClearingClosed else NotifyingWaiters)) s))
| step_clear_closed c s :
    bt_clients s !! c = Some ClearingClosed → step s (set_closed false (set_client c (Some ClearingShutdown) s))
| step_clear_shutdown c s :
    bt_clients s !! c = Some ClearingShutdown →
    step s (set_shutting_down false (set_client c (Some NotifyingWaiters) s))
| step_notify c s :
    bt_clients s !! c = Some NotifyingWaiters → step s (set_woken true (set_client c None s))
(** Spawning, and a task of either set finishing. *)
| step_spawn_best_effort t s : task_fresh t s → step s (spawn_best_effort t s).2
| step_spawn_admitted c t s :
    bt_clients s !! c = Some HoldsAdmission → task_fresh t s → step s (spawn_admitted t s).2
| step_finish t s :
    bt_tasks s !! t = Some false → step s (set_tasks (<[t := true]> (bt_tasks s)) s)
| step_finish_taken t taken s :
    bt_shutdown s = Draining taken → taken !! t = Some false →
    step s (set_shutdown (Draining (<[t := true]> taken)) s)
(** [shutdown_with_cleanup]. *)
| step_shutdown s :
    bt_shutdown s = Idle → step s (set_shutting_down true (set_shutdown BeforeNotified s))
| step_notified s :
    bt_shutdown s = BeforeNotified → step s (set_woken false (set_shutdown Created s))
| step_enable s :
    bt_shutdown s = Created → step s (set_shutdown (Enabled (bt_woken s)) s)
| step_check_admissions already s :
    bt_shutdown s = Enabled already →
    step s (set_shutdown (if bt_embed_admissions s =? 0 then Drained
                          else if already then BeforeNotified else Parked) s)
| step_wake s :
    bt_shutdown s = Parked → bt_woken s = true → step s (set_shutdown BeforeNotified s)
| step_deadline s :
    bt_shutdown s = Parked → step s (set_shutdown TimingOutClosed s)
| step_timeout_closed s :
    bt_shutdown s = TimingOutClosed → step s (set_closed true (set_shutdown TimingOutReset s))
| step_timeout_reset s :
    bt_shutdown s = TimingOutReset → step s (set_reset true (set_shutdown TimingOutTake s))
| step_timeout_take s :
    bt_shutdown s = TimingOutTake → step s (set_tasks ∅ (set_shutdown Idle s))
| step_take s :
    bt_shutdown s = Drained → step s (set_tasks ∅ (set_shutdown (Draining (bt_tasks s)) s))
| step_join t taken s :
    bt_shutdown s = Draining taken → taken !! t = Some true →
    step s (set_shutdown (Draining (delete t taken)) s)
| step_drain_end taken s :
    bt_shutdown s = Draining taken → taken = ∅ → step s (set_shutdown ReopeningSpawns s)
| step_drain_deadline taken s :
    bt_shutdown s = Draining taken → step s (set_shutdown ReopeningSpawns s)
| step_reopen_spawns s :
    bt_shutdown s = ReopeningSpawns → step s (set_closed false (set_shutdown ReopeningShutdown s))
| step_reopen_shutdown s :
    bt_shutdown s = ReopeningShutdown → step s (set_shutting_down false (set_shutdown Idle s)).

Definition reachable (s : State) : Prop := rtc step new s.

(** ** The admission counter *)

(** A client that has incremented the counter and not decremented it. *)
Definition holds (q : client) : bool :=
  match q with Counted | Refused | HoldsAdmission => true | _ => false end.
Definition held (q : option client) : nat :=
  match q with Some q => if holds q then 1 else 0 | None => 0 end.
Definition holders (m : gmap nat client) : nat := size (filter (λ '(_, q), holds q = true) m).

Lemma holders_insert_fresh m c q : m !! c = None → holders (<[c := q]> m) = (held (Some q) + holders m)%nat.
Proof.
  intros Hc. unfold holders. cbn. destruct (holds q) eqn:Hq.
  - rewrite map_filter_insert_True by done. rewrite map_size_insert_None; [done|].
    apply map_lookup_filter_None. by left.
  - rewrite map_filter_insert_False by (cbn; congruence). by rewrite delete_id.
Qed.

Lemma holders_delete m c : (held (m !! c) + holders (delete c m))%nat = holders m.
Proof.
  destruct (m !! c) as [q|] eqn:Hc; [|by rewrite delete_id].
  rewrite <- (holders_insert_fresh (delete c m) c q) by apply lookup_delete_eq.
  by rewrite insert_delete_id.
Qed.

(** Moving a client changes the number of holders by what it held and holds. *)
Lemma holders_move m c q :
  (holders (partial_alter (λ _, q) c m) + held (m !! c))%nat = (holders m + held q)%nat.
Proof.
  assert (Hmove : partial_alter (λ _, q) c m = from_option (λ q, <[c := q]> (delete c m)) (delete c m) q).
  { apply map_eq. intros i. destruct (decide (c = i)) as [<-|].
    - rewrite lookup_partial_alter_eq. destruct q; cbn; by simplify_map_eq.
    - rewrite lookup_partial_alter_ne by done. destruct q; cbn; by simplify_map_eq. }
  rewrite Hmove, <- (holders_delete m c).
  destruct q as [q|]; cbn [from_option]; [rewrite (holders_insert_fresh _ c q) by apply lookup_delete_eq|];
    cbn [held]; lia.
Qed.

Lemma holders_0 m c q : holders m = 0%nat → m !! c = Some q → holds q = false.
Proof.
  intros H Hc. destruct (holds q) eqn:Hq; [|done].
  apply map_size_empty_inv in H.
  assert (Hin : filter (λ '(_, q), holds q = true) m !! c = Some q) by (apply map_lookup_filter_Some; done).
  rewrite H, lookup_empty in Hin. done.
Qed.

(** The counter counts the holders. *)
Definition counted (s : State) : Prop := bt_embed_admissions s = Z.of_nat (holders (bt_clients s)).

Lemma counted_move s c q d :
  counted s → d = Z.of_nat (held q) - Z.of_nat (held (bt_clients s !! c)) →
  counted (add_admissions d (set_client c q s)).
Proof. unfold counted. cbn. intros -> ->. pose proof (holders_move (bt_clients s) c q). lia. Qed.

Lemma counted_move_0 s c q :
  counted s → held q = held (bt_clients s !! c) → counted (set_client c q s).
Proof. unfold counted. cbn. intros -> Hq. pose proof (holders_move (bt_clients s) c q). lia. Qed.

Lemma step_counted s s' : step s s' → counted s → counted s'.
Proof.
  intros Hstep Hs. inversion Hstep; subst; try exact Hs.
  - apply counted_move_0; [done|]. by rewrite H.
  - apply counted_move; [done|]. by rewrite H.
  - apply counted_move_0; [done|]. rewrite H. by destruct (bt_shutting_down s).
  - apply counted_move; [done|]. rewrite H. by destruct (_ =? _).
  - apply counted_move; [done|]. rewrite H. by destruct (_ =? _).
  - change (counted (set_client c (Some (if bt_reset_after_admission_timeout s then ClearingClosed else NotifyingWaiters)) s)).
    apply counted_move_0; [done|]. rewrite H. by destruct (bt_reset_after_admission_timeout s).
  - apply (counted_move_0 s c (Some ClearingShutdown)); [done|]. by rewrite H.
  - apply (counted_move_0 s c (Some NotifyingWaiters)); [done|]. by rewrite H.
  - apply (counted_move_0 s c None); [done|]. by rewrite H.
  - unfold spawn_best_effort. by destruct (bt_shutting_down s).
  - unfold spawn_admitted. by destruct (bt_admitted_spawns_closed s).
Qed.

(** An invariant of [step] that holds at first holds in every reachable state. *)
Lemma rtc_invariant {S} (R : S → S → Prop) (P : S → Prop) s s' :
  (∀ s s', R s s' → P s → P s') → P s → rtc R s s' → P s'.
Proof. intros HP Hs H. induction H as [|? ? ? HR _ IH]; [done|]. apply IH. by eapply HP. Qed.

Lemma reachable_counted s : reachable s → counted s.
Proof. apply rtc_invariant; [apply step_counted|done]. Qed.

(** ** No lost wake-up *)

(** A client between its last decrement and [notify_waiters]. *)
Definition notifying (q : client) : bool :=
  match q with Swapping | ClearingClosed | ClearingShutdown | NotifyingWaiters => true | _ => false end.

Definition wakes (s : State) : Prop :=
  bt_shutdown s = Parked → bt_embed_admissions s = 0 →
  bt_woken s = true ∨ ∃ c q, bt_clients s !! c = Some q ∧ notifying q = true.

Lemma set_client_lookup_ne s c c' q : c ≠ c' → bt_clients (set_client c q s) !! c' = bt_clients s !! c'.
Proof. intros. cbn. by rewrite lookup_partial_alter_ne. Qed.
Lemma set_client_lookup s c q : bt_clients (set_client c q s) !! c = q.
Proof. cbn. by rewrite lookup_partial_alter_eq. Qed.

(** A move of a client that was not notifying, or still is, keeps the wake-up. *)
Lemma wakes_move s c q :
  wakes s →
  (∀ q', bt_clients s !! c = Some q' → notifying q' = true → from_option notifying false q = true) →
  wakes (set_client c q s).
Proof.
  intros Hs Hq Hp Ha. destruct (Hs Hp Ha) as [?|(c' & q' & Hc' & Hn)]; [by left|]. right.
  destruct (decide (c = c')) as [<-|].
  - destruct q as [q|]; [|by specialize (Hq _ Hc' Hn)].
    exists c, q. split; [apply set_client_lookup|by apply (Hq q')].
  - exists c', q'. by rewrite set_client_lookup_ne.
Qed.

(** The last decrement of the counter hands the wake-up to its client. *)
Lemma wakes_decrement s c q q1 :
  notifying q1 = true → bt_clients s !! c = Some q → notifying q = false → wakes s →
  wakes (add_admissions (-1) (set_client c (if bt_embed_admissions s =? 1 then Some q1 else None) s)).
Proof.
  intros Hq1 Hc Hq Hs Hp Ha. cbn in Ha. destruct (Z.eqb_spec (bt_embed_admissions s) 1) as [|]; [|lia].
  right. exists c, q1. split; [apply (set_client_lookup s c)|done].
Qed.

Lemma step_wakes s s' : step s s' → counted s → wakes s → wakes s'.
Proof.
  intros Hstep Hcnt Hs. inversion Hstep; subst; try exact Hs; try (intros Hp; discriminate Hp).
  - apply wakes_move; [done|]. congruence.
  - intros _ Ha. unfold counted in Hcnt. cbn in Ha. lia.
  - apply wakes_move; [done|]. rewrite H. by intros ? [= <-].
  - eapply wakes_decrement; done.
  - eapply wakes_decrement; done.
  - change (wakes (set_client c (Some (if bt_reset_after_admission_timeout s then ClearingClosed else NotifyingWaiters)) s)).
    apply wakes_move; [done|]. by destruct (bt_reset_after_admission_timeout s).
  - by apply (wakes_move s c (Some ClearingShutdown)).
  - by apply (wakes_move s c (Some NotifyingWaiters)).
  - by left.
  - unfold spawn_best_effort. by destruct (bt_shutting_down s).
  - unfold spawn_admitted. by destruct (bt_admitted_spawns_closed s).
  - intros Hp Ha. cbn in Hp, Ha. rewrite Ha in Hp. done.
Qed.

(** C27. No wake-up is lost: while a shutdown is parked on the admissions and
    none is left, it has been notified or some client is on its way to notify
    it, and the counter always counts the admissions held or being refused. *)
Theorem shutdown_is_woken s (Hr : reachable s) :
  bt_embed_admissions s = Z.of_nat (holders (bt_clients s)) ∧
  (bt_shutdown s = Parked → bt_embed_admissions s = 0 →
   bt_woken s = true ∨ ∃ c q, bt_clients s !! c = Some q ∧ notifying q = true).
Proof.
  apply (rtc_invariant step (λ s, counted s ∧ wakes s)) in Hr; [exact Hr| |split; done].
  intros t t' Hstep [Hc Hw]. split; [by eapply step_counted|by eapply step_wakes].
Qed.

(** ** Draining *)

(** Between the moment the counter was seen at zero and the end. *)
Definition draining (p : shutdown_pc) : Prop :=
  match p with Drained | Draining _ | ReopeningSpawns | ReopeningShutdown => True | _ => False end.
Definition past_take (p : shutdown_pc) : Prop :=
  match p with Draining _ | ReopeningSpawns | ReopeningShutdown => True | _ => False end.
(** Where a reset of the flags by the last admission may happen. *)
Definition reset_phase (p : shutdown_pc) : Prop := p = TimingOutTake ∨ p = Idle.

Definition clearing (q : client) : bool :=
  match q with ClearingClosed | ClearingShutdown => true | _ => false end.
(** No reset left over from a shutdown that timed out. *)
Definition settled (s : State) : Prop :=
  bt_reset_after_admission_timeout s = false ∧
  ∀ c q, bt_clients s !! c = Some q → clearing q = false.

(** Runs in which a shutdown starts only when earlier ones are settled. *)
Definition settled_step (s s' : State) : Prop :=
  step s s' ∧ (bt_shutdown s = Idle → bt_shutdown s' = BeforeNotified → settled s).

Record drain_inv (s : State) : Prop := {
  di_counted : counted s;
  di_reset : bt_reset_after_admission_timeout s = true → reset_phase (bt_shutdown s);
  di_clearing : ∀ c q, bt_clients s !! c = Some q → clearing q = true → reset_phase (bt_shutdown s);
  di_flag : ¬ reset_phase (bt_shutdown s) → bt_shutting_down s = true;
  di_admitted : draining (bt_shutdown s) → ∀ c, bt_clients s !! c ≠ Some HoldsAdmission;
  di_tasks : past_take (bt_shutdown s) → bt_tasks s = ∅ }.

(** A client moves and no clearing starts outside the reset phase. *)
Lemma drain_move s c q d :
  drain_inv s → counted (add_admissions d (set_client c q s)) →
  (from_option clearing false q = true → reset_phase (bt_shutdown s)) →
  (q = Some HoldsAdmission → ¬ draining (bt_shutdown s)) →
  drain_inv (add_admissions d (set_client c q s)).
Proof.
  intros [Hc Hr Hcl Hf Ha Ht] Hcnt Hq Hadm. split; try done.
  - intros c' q' Hc' Hq'. cbn in Hc'. destruct (decide (c = c')) as [<-|].
    + rewrite lookup_partial_alter_eq in Hc'. subst q. by apply Hq.
    + rewrite lookup_partial_alter_ne in Hc' by done. by eapply Hcl.
  - intros Hd c' Hc'. cbn in Hc'. destruct (decide (c = c')) as [<-|].
    + rewrite lookup_partial_alter_eq in Hc'. by apply Hadm.
    + rewrite lookup_partial_alter_ne in Hc' by done. by eapply (Ha Hd).
Qed.

Lemma drain_move_0 s c q :
  drain_inv s → held q = held (bt_clients s !! c) →
  (from_option clearing false q = true → reset_phase (bt_shutdown s)) →
  (q = Some HoldsAdmission → ¬ draining (bt_shutdown s)) →
  drain_inv (set_client c q s).
Proof.
  intros Hs Hheld Hq Hadm. pose proof (di_counted _ Hs) as Hc.
  destruct (drain_move s c q 0 Hs) as [? ? ? ? ? ?]; try done.
  - unfold counted. cbn. rewrite Z.add_0_r. by apply (counted_move_0 s c q).
  - split; try done. by apply counted_move_0.
Qed.

(** Setting the tasks outside the phases after the take. *)
Lemma drain_set_tasks s x :
  drain_inv s → (past_take (bt_shutdown s) → x = ∅) → drain_inv (set_tasks x s).
Proof. intros [] Hx. by split. Qed.

(** The shutdown moves within the phases before the take. *)
Lemma drain_shutdown s p :
  drain_inv s → (reset_phase p ↔ reset_phase (bt_shutdown s)) →
  (draining p → draining (bt_shutdown s)) → (past_take p → past_take (bt_shutdown s)) →
  drain_inv (set_shutdown p s).
Proof.
  intros [Hc Hr Hcl Hf Ha Ht] Hp Hd Hpt. split; cbn; try done.
  - intros H. apply Hp. by apply Hr.
  - intros c q H1 H2. apply Hp. by eapply Hcl.
  - intros Hn. apply Hf. by rewrite <- Hp.
  - intros H. apply Ha. by apply Hd.
  - intros H. apply Ht. by apply Hpt.
Qed.

Lemma drain_set_closed s x : drain_inv s → drain_inv (set_closed x s).
Proof. intros []. by split. Qed.
Lemma drain_set_woken s x : drain_inv s → drain_inv (set_woken x s).
Proof. intros []. by split. Qed.

(** The flags of a swap of the reset flag and of a store to [shutting_down]. *)
Lemma drain_set_reset s x : drain_inv s → (x = true → reset_phase (bt_shutdown s)) → drain_inv (set_reset x s).
Proof. intros [] Hx. by split. Qed.
Lemma drain_set_shutting_down s x :
  drain_inv s → (x = false → reset_phase (bt_shutdown s)) → drain_inv (set_shutting_down x s).
Proof. intros [] Hx. split; try done. cbn. intros Hp. destruct x; [done|]. by destruct Hp; apply Hx. Qed.

Lemma draining_not_reset p : draining p → ¬ reset_phase p.
Proof. unfold reset_phase. by destruct p; cbn; intros ? [?|?]. Qed.

(** The shutdown moves on within the orderly phases, or from the drained counter. *)
Lemma drain_flag_open s : drain_inv s → bt_shutting_down s = false → ¬ draining (bt_shutdown s).
Proof. intros Hs H Hd%draining_not_reset. apply (di_flag _ Hs) in Hd. congruence. Qed.

(** Steps of the clients. *)
Lemma drain_recheck s c :
  drain_inv s → bt_clients s !! c = Some Counted →
  drain_inv (set_client c (Some (if bt_shutting_down s then Refused else HoldsAdmission)) s).
Proof.
  intros Hs Hc. apply drain_move_0; [done| | |]; rewrite ?Hc; destruct (bt_shutting_down s) eqn:E; try done.
  intros _. by apply drain_flag_open.
Qed.
Lemma drain_swap s c :
  drain_inv s → bt_clients s !! c = Some Swapping →
  drain_inv (set_reset false
    (set_client c (Some (if bt_reset_after_admission_timeout s then ClearingClosed else NotifyingWaiters)) s)).
Proof.
  intros Hs Hc. apply (drain_set_reset (set_client _ _ s)); [|done].
  apply drain_move_0; [done| | |]; rewrite ?Hc; destruct (bt_reset_after_admission_timeout s) eqn:E; try done.
  intros _. by apply (di_reset _ Hs).
Qed.

(** Steps of the shutdown. *)
Lemma drain_start s :
  drain_inv s → bt_shutdown s = Idle → settled s → drain_inv (set_shutting_down true (set_shutdown BeforeNotified s)).
Proof.
  intros Hs Hp [Hr Hc]. destruct Hs. split; cbn; try done.
  - congruence.
  - intros c q H1 H2. rewrite (Hc _ _ H1) in H2. done.
Qed.
Lemma drain_checked s already :
  drain_inv s → bt_shutdown s = Enabled already →
  drain_inv (set_shutdown (if bt_embed_admissions s =? 0 then Drained
                           else if already then BeforeNotified else Parked) s).
Proof.
  intros Hs Hp. pose proof Hs as [Hc Hr Hcl Hf Ha Ht]. rewrite Hp in *.
  assert (Hn : ¬ reset_phase (Enabled already)) by (intros [|]; done).
  split; cbn; try done.
  - intros H. destruct (Hn (Hr H)).
  - intros c q H1 H2. destruct (Hn (Hcl c q H1 H2)).
  - intros _. by apply Hf.
  - intros Hd c Hadm. unfold counted in Hc. destruct (Z.eqb_spec (bt_embed_admissions s) 0) as [E|].
    + assert (H0 : holders (bt_clients s) = 0%nat) by lia. by apply (holders_0 _ c HoldsAdmission H0) in Hadm.
    + by destruct already.
  - destruct (_ =? _), already; done.
Qed.

Ltac next_phase Hs Hp :=
  apply drain_shutdown; [exact Hs|..]; rewrite Hp; unfold reset_phase; cbn; [split; intros [|]; done|tauto|tauto].

Lemma drain_timeout_reset s :
  drain_inv s → bt_shutdown s = TimingOutReset → drain_inv (set_reset true (set_shutdown TimingOutTake s)).
Proof.
  intros [Hc Hr Hcl Hf Ha Ht] Hp. split; cbn; try done.
  - intros _. by left.
  - intros ????. by left.
  - intros H. by destruct H; left.
Qed.
Lemma drain_timeout_take s :
  drain_inv s → bt_shutdown s = TimingOutTake → drain_inv (set_tasks ∅ (set_shutdown Idle s)).
Proof.
  intros [Hc Hr Hcl Hf Ha Ht] Hp. split; cbn; try done.
  - intros _. by right.
  - intros ????. by right.
  - intros H. destruct H. by right.
Qed.
Lemma drain_take s :
  drain_inv s → bt_shutdown s = Drained → drain_inv (set_tasks ∅ (set_shutdown (Draining (bt_tasks s)) s)).
Proof.
  intros [Hc Hr Hcl Hf Ha Ht] Hp. rewrite Hp in *.
  assert (Hn : ¬ reset_phase Drained) by (intros [|]; done).
  split; cbn; try done; try tauto.
  intros c q H1 H2. destruct (Hn (Hcl c q H1 H2)).
Qed.
Lemma drain_reopen s :
  drain_inv s → bt_shutdown s = ReopeningShutdown → drain_inv (set_shutting_down false (set_shutdown Idle s)).
Proof.
  intros [Hc Hr Hcl Hf Ha Ht] Hp. split; cbn; try done.
  - intros _. by right.
  - intros ????. by right.
  - intros H. destruct H. by right.
Qed.
Lemma drain_new : drain_inv new.
Proof. split; cbn; try done. intros H. destruct H. by right. Qed.

Lemma step_drain s s' :
  (bt_shutdown s = Idle → bt_shutdown s' = BeforeNotified → settled s) → step s s' → drain_inv s → drain_inv s'.
Proof.
  intros Hset Hstep Hs. pose proof (step_counted _ _ Hstep (di_counted _ Hs)) as Hc'.
  inversion Hstep; subst; eauto using drain_recheck, drain_swap, drain_checked, drain_start.
  - apply drain_move_0; [done|by rewrite H|done|done].
  - by apply drain_move.
  - apply drain_move; [done|done| |]; by destruct (_ =? _).
  - apply drain_move; [done|done| |]; by destruct (_ =? _).
  - apply (drain_set_closed (set_client _ _ s)), drain_move_0; [done|by rewrite H| |done].
    intros _. by eapply (di_clearing _ Hs).
  - apply (drain_set_shutting_down (set_client _ _ s)); [|intros _; by eapply (di_clearing _ Hs)].
    apply drain_move_0; [done|by rewrite H|done|done].
  - apply (drain_set_woken (set_client _ _ s)), drain_move_0; [done|by rewrite H|done|done].
  - unfold spawn_best_effort. destruct (bt_shutting_down s) eqn:E; cbn; apply drain_set_tasks; try done.
    + intros Hp. by rewrite (di_tasks _ Hs Hp).
    + intros Hp. destruct (drain_flag_open s Hs E). by destruct (bt_shutdown s).
  - unfold spawn_admitted. destruct (bt_admitted_spawns_closed s); [done|]. apply drain_set_tasks; [done|].
    intros Hp. destruct (di_admitted _ Hs) with c; [by destruct (bt_shutdown s)|done].
  - apply drain_set_tasks; [done|]. intros Hp. rewrite (di_tasks _ Hs Hp) in H. done.
  - next_phase Hs H.
  - apply drain_set_woken. next_phase Hs H.
  - next_phase Hs H.
  - next_phase Hs H.
  - next_phase Hs H.
  - apply drain_set_closed. next_phase Hs H.
  - by apply drain_timeout_reset.
  - by apply drain_timeout_take.
  - by apply drain_take.
  - next_phase Hs H.
  - next_phase Hs H.
  - next_phase Hs H.
  - apply drain_set_closed. next_phase Hs H.
  - by apply drain_reopen.
Qed.

(** States of runs in which every shutdown starts settled. *)
Definition settled_reachable (s : State) : Prop := rtc settled_step new s.


(** ** A run, and a reset that is lost *)

(** Takes one step by the given rule; only [step_shutdown] starts a shutdown. *)
Ltac go rule := eapply rtc_l; [apply rule; reflexivity|].
Ltac go_settled rule :=
  eapply rtc_l; [split; [apply rule; try reflexivity|first [discriminate|intros _; discriminate]]|].


(** Steps other than the start of a shutdown. *)
Definition quiet_step (s s' : State) : Prop :=
  step s s' ∧ ¬ (bt_shutdown s = Idle ∧ bt_shutdown s' = BeforeNotified).

(** No client and no shutdown is left, but the flag is set. *)
Definition stuck (s : State) : Prop :=
  bt_clients s = ∅ ∧ bt_shutdown s = Idle ∧ bt_shutting_down s = true.

Lemma stuck_stays s s' : quiet_step s s' → stuck s → stuck s'.
Proof.
  intros [Hstep Hq] (Hc & Hp & Hf).
  inversion Hstep; subst; try congruence; try (rewrite Hc in *; done).
  - unfold begin_embed_admission in *. by rewrite Hf in *.
  - unfold spawn_best_effort. by rewrite Hf.
  - done.
  - by destruct Hq.
Qed.

(** The reset after a timed-out shutdown can be lost: when the last
    admission is dropped between the deadline and the store of the reset
    flag, every client leaves, the shutdown ends, and every later
    [begin_embed_admission] is refused until another shutdown runs. *)
Theorem timeout_reset_can_be_lost :
  ∃ s, reachable s ∧ bt_clients s = ∅ ∧ bt_shutdown s = Idle ∧
    ∀ s', rtc quiet_step s s' → begin_embed_admission s' = Err EngineError.ShuttingDown.
Proof.
  assert (∃ s, reachable s ∧ stuck s) as (s & Hs & Hstuck).
  { eexists. split.
    - unfold reachable.
      go (step_begin 0%nat). go (step_count 0%nat). go (step_recheck 0%nat).
      go step_shutdown. go step_notified. go step_enable. go (step_check_admissions false).
      go step_deadline. go (step_drop 0%nat). go (step_swap 0%nat). go (step_notify 0%nat).
      go step_timeout_closed. go step_timeout_reset. go step_timeout_take. apply rtc_refl.
    - vm_compute. done. }
  pose proof Hstuck as (Hc & Hp & Hf). exists s. split_and!; try done.
  intros s' Hrun. apply (rtc_invariant quiet_step stuck) in Hrun as (_ & _ & Hf');
    [|apply stuck_stays|done].
  unfold begin_embed_admission. by rewrite Hf'.
Qed.

Lemma shutdown_is_woken_witness :
  ∃ s, reachable s ∧ bt_shutdown s = Parked ∧ bt_embed_admissions s = 0 ∧
    (bt_woken s = true ∨ ∃ c q, bt_clients s !! c = Some q ∧ notifying q = true).
Proof.
  assert (∃ s, reachable s ∧ (bt_shutdown s, bt_embed_admissions s) = (Parked, 0)) as (s & Hs & [= Hp Ha]).
  { eexists. split.
    - unfold reachable.
      go (step_begin 0%nat). go (step_count 0%nat). go (step_recheck 0%nat).
      go step_shutdown. go step_notified. go step_enable. go (step_check_admissions false).
      go (step_drop 0%nat). apply rtc_refl.
    - vm_compute. reflexivity. }
  exists s. split; [exact Hs|]. split; [exact Hp|]. split; [exact Ha|].
  exact (proj2 (shutdown_is_woken s Hs) Hp Ha).
Defined.
