(* ===== verification/Config.v ===== *)
(** * Config: the operational limits of [src/src/config/mod.rs]

    [LimitsConfig] with its defaults, its validation and the hard ceilings
    library callers are clamped to, and the default [SearchConfig] (the record
    is in Ranking.v). The reranker's section is in RerankerSettings.v, the
    other sections, the file and the environment are in Settings.v. *)
From Stdlib Require Import ZArith Lia.
From stdpp Require Import base list option strings pretty.
From S2P Require Import Prelude Text Floats Errors Types RerankerSettings Ranking.

Definition MAX_CANDIDATE_POOL_SIZE_CEILING : Z := 1000.
Definition MAX_CONSOLIDATION_NEIGHBOR_LIMIT_CEILING : Z := 100.
Definition MAX_CONSOLIDATION_CANDIDATE_LIMIT_CEILING : Z := 10000.

Record LimitsConfig := {
  lc_max_search_limit : Z;
  lc_max_candidate_pool_size : Z;
  lc_max_list_limit : Z;
  lc_max_content_length : Z;
  lc_max_tags_per_memory : Z;
  lc_max_tag_length : Z;
  lc_max_batch_size : Z;
  lc_max_reembed_limit : Z;
  lc_embedding_timeout_secs : Z;
  lc_max_concurrent_embedding_requests : Z;
  lc_embedding_batch_size : Z;
  lc_embedding_max_retries : Z;
  lc_embedding_retry_initial_backoff_ms : Z;
  lc_embedding_retry_max_backoff_ms : Z;
  lc_shutdown_timeout_secs : Z;
  lc_max_top_tags_limit : Z;
  lc_max_history_limit : Z;
  lc_consolidation_neighbor_limit : Z;
  lc_consolidation_candidate_limit : Z;
  lc_max_entities_per_memory : Z;
  lc_max_entity_field_length : Z;
}.
Definition limits_config_default : LimitsConfig :=
  {| lc_max_search_limit := 50; lc_max_candidate_pool_size := MAX_CANDIDATE_POOL_SIZE_CEILING;
     lc_max_list_limit := 500; lc_max_content_length := 65536; lc_max_tags_per_memory := 50;
     lc_max_tag_length := 256; lc_max_batch_size := 100; lc_max_reembed_limit := 100;
     lc_embedding_timeout_secs := 30; lc_max_concurrent_embedding_requests := 8; lc_embedding_batch_size := 32;
     lc_embedding_max_retries := 2; lc_embedding_retry_initial_backoff_ms := 500;
     lc_embedding_retry_max_backoff_ms := 30000; lc_shutdown_timeout_secs := 10; lc_max_top_tags_limit := 100;
     lc_max_history_limit := 500; lc_consolidation_neighbor_limit := 20; lc_consolidation_candidate_limit := 1000;
     lc_max_entities_per_memory := 50; lc_max_entity_field_length := 256 |}.

(** The fields that must be positive; [u64] and [usize] have the same range
    on the 64-bit target. *)
Definition positive_limits (c : LimitsConfig) : list (string * Z) :=
  [ ("limits.max_search_limit", lc_max_search_limit c);
    ("limits.max_candidate_pool_size", lc_max_candidate_pool_size c);
    ("limits.max_list_limit", lc_max_list_limit c);
    ("limits.max_content_length", lc_max_content_length c);
    ("limits.max_tags_per_memory", lc_max_tags_per_memory c);
    ("limits.max_tag_length", lc_max_tag_length c);
    ("limits.max_batch_size", lc_max_batch_size c);
    ("limits.max_reembed_limit", lc_max_reembed_limit c);
    ("limits.embedding_timeout_secs", lc_embedding_timeout_secs c);
    ("limits.max_concurrent_embedding_requests", lc_max_concurrent_embedding_requests c);
    ("limits.embedding_batch_size", lc_embedding_batch_size c);
    ("limits.embedding_retry_initial_backoff_ms", lc_embedding_retry_initial_backoff_ms c);
    ("limits.embedding_retry_max_backoff_ms", lc_embedding_retry_max_backoff_ms c);
    ("limits.shutdown_timeout_secs", lc_shutdown_timeout_secs c);
    ("limits.max_top_tags_limit", lc_max_top_tags_limit c);
    ("limits.max_history_limit", lc_max_history_limit c);
    ("limits.consolidation_neighbor_limit", lc_consolidation_neighbor_limit c);
    ("limits.consolidation_candidate_limit", lc_consolidation_candidate_limit c);
    ("limits.max_entities_per_memory", lc_max_entities_per_memory c);
    ("limits.max_entity_field_length", lc_max_entity_field_length c) ].

Definition validate_limits_config (c : LimitsConfig) : result EngineError.t unit :=
  _ ← try_for_each (λ '(field, value),
        bail_if (value =? 0) (EngineError.Config (field +:+ " must be greater than zero"))) (positive_limits c);
  _ ← bail_if (MAX_CANDIDATE_POOL_SIZE_CEILING <? lc_max_candidate_pool_size c)
        (EngineError.Config ("limits.max_candidate_pool_size must be <= " +:+ pretty MAX_CANDIDATE_POOL_SIZE_CEILING));
  _ ← bail_if (lc_max_candidate_pool_size c <? lc_max_search_limit c)
        (EngineError.Config "limits.max_candidate_pool_size must be >= limits.max_search_limit");
  _ ← bail_if (MAX_CONSOLIDATION_CANDIDATE_LIMIT_CEILING <? lc_consolidation_candidate_limit c)
        (EngineError.Config ("limits.consolidation_candidate_limit must be <= "
                             +:+ pretty MAX_CONSOLIDATION_CANDIDATE_LIMIT_CEILING));
  _ ← bail_if (MAX_CONSOLIDATION_NEIGHBOR_LIMIT_CEILING <? lc_consolidation_neighbor_limit c)
        (EngineError.Config ("limits.consolidation_neighbor_limit must be <= "
                             +:+ pretty MAX_CONSOLIDATION_NEIGHBOR_LIMIT_CEILING));
  _ ← bail_if (10 <? lc_embedding_max_retries c) (EngineError.Config "limits.embedding_max_retries must be <= 10");
  bail_if (lc_embedding_retry_max_backoff_ms c <? lc_embedding_retry_initial_backoff_ms c)
    (EngineError.Config "limits.embedding_retry_max_backoff_ms must be >= limits.embedding_retry_initial_backoff_ms").

Example defaults_are_valid : validate_limits_config limits_config_default = Ok ().
Proof. vm_compute. reflexivity. Qed.

Definition search_config_default : SearchConfig :=
  {| sc_rrf_k := 60; sc_rrf_semantic_weight := f1; sc_rrf_keyword_weight := f1; sc_default_mode := SearchMode.Auto;
     sc_semantic_candidate_k := 100; sc_keyword_candidate_k := 100; sc_rerank_top_m := 50;
     sc_relevance_weight := f64_of_Z 60; sc_activity_weight := f64_of_Z 10; sc_importance_weight := f64_of_Z 15;
     sc_activity_half_life_hours := f64_of_Z 720; sc_activity_saturation := f64_of_Z 8;
     sc_freshness_weight := f64_of_Z 10; sc_freshness_half_life_semantic_days := f64_of_Z 180;
     sc_freshness_half_life_episodic_days := f64_of_Z 14; sc_freshness_half_life_procedural_days := f64_of_Z 365;
     sc_confidence_weight := f64_of_Z 5; sc_relevance_floor := f64_lit 15 100; sc_relevance_floor_penalty := f64_lit 1 4;
     sc_superseded_penalty := f64_lit 5 100; sc_reranker := reranker_config_default;
     sc_duplicate_suppression_enabled := false; sc_duplicate_suppression_lambda := f64_lit 1 10 |}.
