(* ===== verification/RerankerModels.v ===== *)
(** * RerankerModels: the reranker's artifacts

    The provider policy ([src/src/reranker/policy.rs]), the pinned model files
    with their cache, download and verification
    ([src/src/reranker/download.rs]) and the operator's reports
    ([src/src/reranker/operator.rs]). The file system is a map from paths to
    contents; whether a call to it fails, and what the network answers, is
    left to the environment. *)
From Stdlib Require Import ZArith Lia.
From stdpp Require Import base list option strings gmap sets pretty.
From S2P Require Import Prelude Text Floats Lists Errors Types RerankerSettings Context.

(** ** Errors *)

Module IoKind.
Inductive t := NotFound | AlreadyExists | Interrupted | Other.
#[global] Instance eq_dec : EqDecision t.
Proof. solve_decision. Defined.
End IoKind.
Record IoError := { ie_kind : IoKind.t; ie_text : string }.
(** The boxed source of an error: a text, or an I/O error that can be told
    apart again. *)
Module ErrorSource.
Inductive t := Message (text : string) | Io (e : IoError).
Definition to_string (e : t) : string := match e with Message text => text | Io e => ie_text e end.
End ErrorSource.
Module RerankerError.
Inductive t :=
| Transient (source : ErrorSource.t)
| Permanent (source : ErrorSource.t)
| ProviderUnavailable (text : string)
| Unavailable.
Definition to_string (e : t) : string :=
  match e with
  | Transient source => "transient reranker error: " +:+ ErrorSource.to_string source
  | Permanent source => "permanent reranker error: " +:+ ErrorSource.to_string source
  | ProviderUnavailable text => "reranker execution provider unavailable: " +:+ text
  | Unavailable => "reranker is disabled"
  end.
Definition permanent (text : string) : t := Permanent (ErrorSource.Message text).
End RerankerError.
Abbreviation reranked := (result RerankerError.t).

(** What the reranker answers: the document and its score. *)
Record RerankerScore := { rks_index : Z; rks_score : f64 }.

(** ** Provider policy *)

(** The features this binary was compiled with; [cuda] implies [onnx]. *)
Class RerankerFeatures := { feature_reranker : bool; feature_reranker_cuda : bool }.

Section policy.
Context `{RerankerFeatures}.
Definition compiled_execution_providers : list RerankerExecutionProvider.t :=
  if feature_reranker_cuda then [RerankerExecutionProvider.Cuda; RerankerExecutionProvider.Cpu]
  else if feature_reranker then [RerankerExecutionProvider.Cpu] else [].
Definition cuda_not_compiled : RerankerError.t :=
  RerankerError.ProviderUnavailable "CUDA was requested but this binary was compiled without the `reranker-cuda` feature".
Definition execution_provider_candidates (requested : RerankerExecutionProvider.t) : reranked (list RerankerExecutionProvider.t) :=
  match requested with
  | RerankerExecutionProvider.Auto =>
      if feature_reranker_cuda then Ok [RerankerExecutionProvider.Cuda; RerankerExecutionProvider.Cpu]
      else if feature_reranker then Ok [RerankerExecutionProvider.Cpu]
      else Err (RerankerError.ProviderUnavailable "reranking was requested but this binary was compiled without the `reranker` feature")
  | RerankerExecutionProvider.Cpu =>
      if feature_reranker then Ok [RerankerExecutionProvider.Cpu]
      else Err (RerankerError.ProviderUnavailable "reranking was requested but this binary was compiled without the `reranker` feature")
  | RerankerExecutionProvider.Cuda =>
      if feature_reranker_cuda then Ok [RerankerExecutionProvider.Cuda] else Err cuda_not_compiled
  end.
End policy.
Definition validate_precision_policy (c : RerankerConfig) : reranked unit :=
  bail_if (bool_decide (rcf_precision c = RerankerPrecision.Fp16) && negb (bool_decide (rcf_execution_provider c = RerankerExecutionProvider.Cuda)))
    (RerankerError.permanent "reranker precision fp16 requires execution provider cuda; auto fallback and CPU execution are not supported").

(** ** Paths *)

Definition SLASH : Ascii.ascii := byte 47.
(** [Path::join] on Unix. *)
Definition path_join (base name : string) : string :=
  if starts_with [SLASH] (bytes name) then name
  else if str_is_empty base then name
  else if starts_with [SLASH] (rev (bytes base)) then base +:+ name
  else base +:+ "/" +:+ name.
(** [Path::parent] on Unix: empty parts and dots after the first part are no
    components; what is left ends at a component. *)
Definition no_component (part : list Ascii.ascii) : bool := bool_decide (part = []) || bool_decide (part = [byte 46]).
Fixpoint drop_no_components (parts : list (list Ascii.ascii)) : list (list Ascii.ascii) :=
  match parts with
  | [] => []
  | part :: rest => match rest with
                    | [] => parts
                    | _ => if no_component part then drop_no_components rest else parts
                    end
  end.
Definition path_of_parts (parts : list (list Ascii.ascii)) : string :=
  match parts with
  | [[]] => "/"
  | _ => concat_with "/" (map of_bytes parts)
  end.
Definition path_parent (path : string) : option string :=
  match drop_no_components (rev (split_bytes SLASH (bytes path) [])) with
  | [] | [[]] => None
  | last :: before => Some (match before with [] => "" | _ => path_of_parts (rev (drop_no_components before)) end)
  end.
(** [str::replace('/', "--")]. *)
Definition flat_name (name : string) : string := of_bytes (flat_map (λ c, if Ascii.eqb c SLASH then bytes "--" else [c]) (bytes name)).

(** ** The file system *)

Definition Bytes : Type := list Ascii.ascii.
(** [dk_calls] counts the calls made; it indexes what the environment does. *)
Record Disk := { dk_files : gmap string Bytes; dk_calls : nat }.
Record HttpResponse := {
  hr_success : bool;
  hr_status : string;
  hr_content_length : option Z;
  hr_body : list (result string Bytes);
}.
(** Whether the call of a number fails and how, the home directory, the answer
    of the network, the distinguishing part of a staging name, and the order
    in which a directory is listed. *)
Class DiskWorld := {
  dw_failure : nat → option IoError;
  dw_home : option string;
  dw_get : nat → string → result string HttpResponse;
  dw_suffix : nat → string;
  dw_listing : nat → list string → list string;
}.

Definition io (A : Type) : Type := Disk → reranked A * Disk.
#[export] Instance io_ret : MRet io := λ A a d, (Ok a, d).
#[export] Instance io_bind : MBind io := λ A B k m d,
  match m d with
  | (Ok a, d') => k a d'
  | (Err e, d') => (Err e, d')
  end.
Definition io_fail {A} (e : RerankerError.t) : io A := λ d, (Err e, d).
Definition io_lift {A} (r : reranked A) : io A := λ d, (r, d).
(** [match result { … }] on the outcome of a computation. *)
Definition io_attempt {A} (m : io A) : io (reranked A) := λ d, let '(r, d') := m d in (Ok r, d').

Section disk.
Context `{DiskWorld, Sha256Lib}.

Definition next_call (d : Disk) : Disk := {| dk_files := dk_files d; dk_calls := S (dk_calls d) |}.
Definition on_files (f : gmap string Bytes → gmap string Bytes) (d : Disk) : Disk :=
  {| dk_files := f (dk_files d); dk_calls := dk_calls d |}.
(** A call to the operating system: its failure, or what it does. *)
Definition sys_call {A} (act : Disk → result IoError A * Disk) : io (result IoError A) := λ d,
  match dw_failure (dk_calls d) with
  | Some e => (Ok (Err e), next_call d)
  | None => let '(r, d') := act d in (Ok r, next_call d')
  end.
Definition io_or {A} (f : IoError → RerankerError.t) (m : io (result IoError A)) : io A :=
  r ← m; io_lift (map_err f r).
Definition permanent_io (e : IoError) : RerankerError.t := RerankerError.Permanent (ErrorSource.Io e).
Definition not_found_io : IoError := {| ie_kind := IoKind.NotFound; ie_text := "No such file or directory (os error 2)" |}.
Definition already_exists_io : IoError := {| ie_kind := IoKind.AlreadyExists; ie_text := "File exists (os error 17)" |}.

(** [Path::is_file] and [Path::exists]: an error counts as absence. *)
Definition is_file (path : string) : io bool := λ d,
  match dw_failure (dk_calls d) with
  | Some _ => (Ok false, next_call d)
  | None => (Ok (is_some (dk_files d !! path)), next_call d)
  end.
Definition open_file (path : string) : io (result IoError Bytes) :=
  sys_call (λ d, (ok_or not_found_io (dk_files d !! path), d)).
Definition remove_file (path : string) : io (result IoError unit) :=
  sys_call (λ d, match dk_files d !! path with
                 | Some _ => (Ok (), on_files (delete path) d)
                 | None => (Err not_found_io, d)
                 end).
(** [create_new]. *)
Definition create_new_file (path : string) : io (result IoError unit) :=
  sys_call (λ d, match dk_files d !! path with
                 | Some _ => (Err already_exists_io, d)
                 | None => (Ok (), on_files <[path := []]> d)
                 end).
(** [create(true).truncate(false)]. *)
Definition open_or_create (path : string) : io (result IoError unit) :=
  sys_call (λ d, (Ok (), on_files (partial_alter (λ c, Some (default [] c)) path) d)).
Definition append_file (path : string) (chunk : Bytes) : io (result IoError unit) :=
  sys_call (λ d, (Ok (), on_files (alter (λ c, c ++ chunk) path) d)).
Definition rename_file (from to : string) : io (result IoError unit) :=
  sys_call (λ d, match dk_files d !! from with
                 | Some c => (Ok (), on_files (λ fs, <[to := c]> (delete from fs)) d)
                 | None => (Err not_found_io, d)
                 end).
(** A call whose only effect is that it may fail: creating a directory that
    is not part of the map, taking the lock, flushing and syncing. *)
Definition plain_call : io (result IoError unit) := sys_call (λ d, (Ok (), d)).
(** The names in a directory. *)
Definition names_in (dir : string) (fs : gmap string Bytes) : list string :=
  omap (λ path, rest ← strip_prefix (bytes (path_join dir "")) (bytes path);
                if bool_decide (SLASH ∈ rest) || bool_decide (rest = []) then None else Some (of_bytes rest))
       (map fst (map_to_list fs)).
Definition read_dir (dir : string) : io (result IoError (list string)) :=
  sys_call (λ d, (Ok (dw_listing (dk_calls d) (names_in dir (dk_files d))), d)).

Definition expand_tilde (path : string) : result EngineError.t string :=
  if String.eqb path "~" then
    ok_or (EngineError.Config "path starts with ~ but home directory cannot be determined") dw_home
  else match strip_prefix (bytes "~/") (bytes path) with
       | Some rest =>
           home ← ok_or (EngineError.Config "path starts with ~/ but home directory cannot be determined") dw_home;
           Ok (path_join home (of_bytes rest))
       | None => Ok path
       end.
Definition expanded (path : string) : io string :=
  io_lift (map_err (λ e, RerankerError.permanent (engine_error_text e)) (expand_tilde path)).

(** *** Hashes *)

Definition sha256_hex (content : Bytes) : string := hex_lower (sha256 content).
Definition eq_ignore_ascii_case (a b : string) : bool := String.eqb (to_ascii_lowercase a) (to_ascii_lowercase b).
(** The reader feeds the hash chunk by chunk, which hashes the whole; a read
    may fail on the way. *)
Definition sha256_reader (content : Bytes) : io string :=
  _ ← io_or (λ e, RerankerError.Transient (ErrorSource.Io e)) plain_call;
  mret (sha256_hex content).
Definition verify_file_sha256 (path expected_sha256 : string) : io bool :=
  content ← io_or permanent_io (open_file path);
  actual_sha256 ← sha256_reader content;
  mret (eq_ignore_ascii_case actual_sha256 expected_sha256).
Definition verify_file_sha256_optimistically (path expected_sha256 : string) : io bool :=
  r ← io_attempt (verify_file_sha256 path expected_sha256);
  match r with
  | Err (RerankerError.Permanent (ErrorSource.Io e)) as r =>
      if bool_decide (ie_kind e = IoKind.NotFound) then mret false else io_lift r
  | r => io_lift r
  end.
End disk.

(** ** Pinned artifacts *)

Definition HF_BASE_URL : string := "https://huggingface.co".
Definition BUILTIN_ARTIFACT_RELEASE : string := "https://github.com/gearboxlogic/localhold/releases/download/reranker-minilm-l6-v1".
Definition BUILTIN_ARTIFACT_VERSION : string := "fused-v1".
Definition BUILTIN_FP32_FILE : string := "ms-marco-MiniLM-L6-v2-fused-fp32.onnx".
Definition BUILTIN_FP16_FILE : string := "ms-marco-MiniLM-L6-v2-fused-fp16.onnx".
Definition BUILTIN_TOKENIZER_FILE : string := "tokenizer.json".
Definition DEFAULT_FP32_MODEL_SHA256 : string := "b9d62058f690b1c2dc693f92b966736be0753fc0ecc556d55db6488ac5d762ff".
Definition DEFAULT_FP16_MODEL_SHA256 : string := "ff56f422a6e1c017dbcde3e0db38e2816549707e16055a2a5ecbcc49cde25201".
Definition LEGACY_RAW_MODEL_SHA256 : string := "5d3e70fd0c9ff14b9b5169a51e957b7a9c74897afd0a35ce4bd318150c1d4d4a".
Definition DEFAULT_TOKENIZER_SHA256 : string := "d241a60d5e8f04cc1b2b3e9ef7a4921b27bf526d9f6050ab90f9267a1f9e5c66".
Definition MAX_DOWNLOAD_BYTES : Z := 500 * 1024 * 1024.
Definition CACHE_LOCK_FILE : string := ".download.lock".

Record ModelPaths := { mp_onnx_path : string; mp_tokenizer_path : string }.
Record DownloadPins := {
  dp_revision : string;
  dp_artifact : string;
  dp_model_sha256 : string;
  dp_tokenizer_sha256 : string;
  dp_cache_revision : string;
  dp_model_url : string;
  dp_tokenizer_url : string;
}.
Module ArtifactStatus.
Inductive t := Verified | Missing | HashMismatch | Unverifiable.
#[global] Instance eq_dec : EqDecision t.
Proof. solve_decision. Defined.
End ArtifactStatus.
Record ModelInspection := {
  mi_paths : ModelPaths;
  mi_model_sha256 : string;
  mi_tokenizer_sha256 : string;
  mi_model_status : ArtifactStatus.t;
  mi_tokenizer_status : ArtifactStatus.t;
}.
Definition is_verified (i : ModelInspection) : bool :=
  bool_decide (mi_model_status i = ArtifactStatus.Verified) && bool_decide (mi_tokenizer_status i = ArtifactStatus.Verified).

Definition fp16_needs_builtin : RerankerError.t :=
  RerankerError.permanent "the managed fp16 reranker artifact requires the builtin model and pins; use model_path for a custom FP16 artifact".
Definition custom_model_url (model revision : string) : string := HF_BASE_URL +:+ "/" +:+ model +:+ "/resolve/" +:+ revision +:+ "/onnx/model.onnx".
Definition custom_tokenizer_url (model revision : string) : string := HF_BASE_URL +:+ "/" +:+ model +:+ "/resolve/" +:+ revision +:+ "/tokenizer.json".
Definition or_default (value fallback : string) : string := if str_is_empty value then fallback else value.

Definition resolve_builtin_download_pins (c : RerankerConfig) : reranked DownloadPins :=
  let uses_managed_artifact := (str_is_empty (rcf_revision c) || String.eqb (rcf_revision c) DEFAULT_RERANKER_REVISION)
    && str_is_empty (rcf_model_sha256 c) && str_is_empty (rcf_tokenizer_sha256 c) in
  if uses_managed_artifact then
    let '(model_file, model_sha256) := match rcf_precision c with
      | RerankerPrecision.Fp32 => (BUILTIN_FP32_FILE, DEFAULT_FP32_MODEL_SHA256)
      | RerankerPrecision.Fp16 => (BUILTIN_FP16_FILE, DEFAULT_FP16_MODEL_SHA256)
      end in
    Ok {| dp_revision := DEFAULT_RERANKER_REVISION; dp_artifact := "fused"; dp_model_sha256 := model_sha256;
          dp_tokenizer_sha256 := DEFAULT_TOKENIZER_SHA256;
          dp_cache_revision := DEFAULT_RERANKER_REVISION +:+ "--" +:+ BUILTIN_ARTIFACT_VERSION +:+ "-" +:+ RerankerPrecision.to_string (rcf_precision c);
          dp_model_url := BUILTIN_ARTIFACT_RELEASE +:+ "/" +:+ model_file;
          dp_tokenizer_url := BUILTIN_ARTIFACT_RELEASE +:+ "/" +:+ BUILTIN_TOKENIZER_FILE |}
  else
    _ ← bail_if (bool_decide (rcf_precision c = RerankerPrecision.Fp16)) fp16_needs_builtin;
    let custom_revision := negb (str_is_empty (rcf_revision c)) && negb (String.eqb (rcf_revision c) DEFAULT_RERANKER_REVISION) in
    _ ← bail_if (custom_revision && (str_is_empty (rcf_model_sha256 c) || str_is_empty (rcf_tokenizer_sha256 c)))
          (RerankerError.permanent "overriding revision on the builtin reranker model requires explicit model_sha256 and tokenizer_sha256");
    let revision := or_default (rcf_revision c) DEFAULT_RERANKER_REVISION in
    Ok {| dp_revision := revision; dp_artifact := "custom";
          dp_model_sha256 := or_default (rcf_model_sha256 c) LEGACY_RAW_MODEL_SHA256;
          dp_tokenizer_sha256 := or_default (rcf_tokenizer_sha256 c) DEFAULT_TOKENIZER_SHA256;
          dp_cache_revision := revision; dp_model_url := custom_model_url (rcf_model c) revision;
          dp_tokenizer_url := custom_tokenizer_url (rcf_model c) revision |}.
Definition resolve_download_pins (c : RerankerConfig) : reranked DownloadPins :=
  if is_builtin_default_reranker_model (rcf_model c) then resolve_builtin_download_pins c
  else
    _ ← bail_if (bool_decide (rcf_precision c = RerankerPrecision.Fp16)) fp16_needs_builtin;
    _ ← bail_if (str_is_empty (rcf_revision c)) (RerankerError.permanent "reranker.revision must be set for custom auto-downloaded models");
    _ ← bail_if (str_is_empty (rcf_model_sha256 c)) (RerankerError.permanent "reranker.model_sha256 must be set for custom auto-downloaded models");
    _ ← bail_if (str_is_empty (rcf_tokenizer_sha256 c)) (RerankerError.permanent "reranker.tokenizer_sha256 must be set for custom auto-downloaded models");
    Ok {| dp_revision := rcf_revision c; dp_artifact := "custom"; dp_model_sha256 := rcf_model_sha256 c;
          dp_tokenizer_sha256 := rcf_tokenizer_sha256 c; dp_cache_revision := rcf_revision c;
          dp_model_url := custom_model_url (rcf_model c) (rcf_revision c);
          dp_tokenizer_url := custom_tokenizer_url (rcf_model c) (rcf_revision c) |}.

Record RerankerModelIdentity := {
  id_revision : string;
  id_artifact : string;
  id_precision : RerankerPrecision.t;
  id_model_sha256 : string;
  id_tokenizer_sha256 : string;
}.
Definition model_identity (c : RerankerConfig) : reranked RerankerModelIdentity :=
  _ ← validate_precision_policy c;
  if negb (str_is_empty (rcf_model_path c)) then
    Ok {| id_revision := or_default (rcf_revision c) "direct_file"; id_artifact := "direct_file"; id_precision := rcf_precision c;
          id_model_sha256 := or_default (rcf_model_sha256 c) "not_configured";
          id_tokenizer_sha256 := or_default (rcf_tokenizer_sha256 c) "not_configured" |}
  else
    pins ← resolve_download_pins c;
    Ok {| id_revision := dp_revision pins; id_artifact := dp_artifact pins; id_precision := rcf_precision c;
          id_model_sha256 := dp_model_sha256 pins; id_tokenizer_sha256 := dp_tokenizer_sha256 pins |}.

(** ** Download and cache *)

Section artifacts.
Context `{DiskWorld, Sha256Lib}.

Definition transient_io (e : IoError) : RerankerError.t := RerankerError.Transient (ErrorSource.Io e).
Definition remove_required (path : string) : io unit := io_or permanent_io (remove_file path).

(** [for _ in 0..16]: a name nobody uses. *)
Fixpoint create_temporary_download (attempts : nat) (model_dir file_name : string) : io string :=
  match attempts with
  | O => io_fail (RerankerError.Transient (ErrorSource.Message "could not allocate a unique reranker download staging file"))
  | S attempts => λ d,
      let path := path_join model_dir ("." +:+ file_name +:+ ".partial-" +:+ dw_suffix (dk_calls d)) in
      (r ← create_new_file path;
       match r with
       | Ok _ => mret path
       | Err e => if bool_decide (ie_kind e = IoKind.AlreadyExists) then create_temporary_download attempts model_dir file_name
                  else io_fail (permanent_io e)
       end) d
  end.

(** The read loop: what has been received is what has been written. *)
Fixpoint receive (tmp_path : string) (body : list (result string Bytes)) (total_bytes : Z) (received : Bytes) : io Bytes :=
  match body with
  | [] | Ok [] :: _ => mret received
  | Err e :: _ => io_fail (RerankerError.Transient (ErrorSource.Message e))
  | Ok chunk :: body =>
      total_bytes ← io_lift (ok_or (RerankerError.permanent "download size overflow")
                               (if total_bytes + len chunk <=? u64_max then Some (total_bytes + len chunk) else None));
      _ ← io_lift (bail_if (MAX_DOWNLOAD_BYTES <? total_bytes)
            (RerankerError.permanent ("download too large: " +:+ pretty total_bytes +:+ " bytes exceeds " +:+ pretty MAX_DOWNLOAD_BYTES)));
      _ ← io_or permanent_io (append_file tmp_path chunk);
      receive tmp_path body total_bytes (received ++ chunk)
  end.

Definition publish_verified_file (tmp_path dest expected_sha256 : string) : io unit :=
  r ← rename_file tmp_path dest;
  match r with
  | Ok _ => mret ()
  | Err rename_error =>
      let failed : io unit :=
        io_fail (RerankerError.permanent ("publishing verified reranker artifact " +:+ dest +:+ ": " +:+ ie_text rename_error)) in
      exists_ ← is_file dest;
      if negb exists_ then failed
      else verified ← io_attempt (verify_file_sha256 dest expected_sha256);
           match verified with
           | Ok true => remove_required tmp_path
           | _ => failed
           end
  end.
Definition store_download (tmp_path dest expected_sha256 : string) (body : list (result string Bytes)) : io unit :=
  received ← receive tmp_path body 0 [];
  _ ← io_or permanent_io plain_call;
  _ ← io_or permanent_io plain_call;
  let actual_sha256 := sha256_hex received in
  _ ← io_lift (bail_if (negb (eq_ignore_ascii_case actual_sha256 expected_sha256))
        (RerankerError.permanent ("download hash mismatch for " +:+ dest +:+ ": expected " +:+ expected_sha256 +:+ ", got " +:+ actual_sha256)));
  publish_verified_file tmp_path dest expected_sha256.
Definition download_too_large (content_length : Z) : RerankerError.t :=
  RerankerError.permanent ("download too large: " +:+ pretty content_length +:+ " bytes exceeds " +:+ pretty MAX_DOWNLOAD_BYTES).
Definition download_file (url model_dir file_name expected_sha256 : string) : io unit := λ d,
  match dw_get (dk_calls d) url with
  | Err e => (Err (RerankerError.Transient (ErrorSource.Message e)), next_call d)
  | Ok response =>
      (_ ← io_lift (bail_if (negb (hr_success response))
             (RerankerError.permanent ("HTTP " +:+ hr_status response +:+ " downloading " +:+ url)));
       _ ← io_lift (match hr_content_length response with
                    | Some length => bail_if (MAX_DOWNLOAD_BYTES <? length) (download_too_large length)
                    | None => Ok ()
                    end);
       let dest := path_join model_dir file_name in
       tmp_path ← create_temporary_download 16 model_dir file_name;
       stored ← io_attempt (store_download tmp_path dest expected_sha256 (hr_body response));
       _ ← (if is_ok stored then mret (Ok ()) else remove_file tmp_path : io (result IoError unit));
       io_lift stored) (next_call d)
  end.
Definition ensure_cached_file (url model_dir file_name expected_sha256 : string) : io unit :=
  let dest := path_join model_dir file_name in
  there ← is_file dest;
  cached ← (if (there : bool) then verify_file_sha256 dest expected_sha256 else mret false);
  if (cached : bool) then mret ()
  else
    there ← is_file dest;
    _ ← (if (there : bool) then remove_required dest else mret ());
    download_file url model_dir file_name expected_sha256.

Definition is_partial (file_name : string) : bool :=
  String.eqb file_name ".model.onnx.partial" || String.eqb file_name ".tokenizer.json.partial"
  || starts_with (bytes ".model.onnx.partial-") (bytes file_name) || starts_with (bytes ".tokenizer.json.partial-") (bytes file_name).
(** What cannot be removed is left with a warning. *)
Fixpoint remove_partials (model_dir : string) (names : list string) : io unit :=
  match names with
  | [] => mret ()
  | name :: names =>
      _ ← io_or permanent_io plain_call;
      _ ← (if is_partial name then remove_file (path_join model_dir name) else mret (Ok ()) : io (result IoError unit));
      remove_partials model_dir names
  end.
Definition remove_stale_partial_files (model_dir : string) : io unit :=
  names ← io_or permanent_io (read_dir model_dir);
  remove_partials model_dir names.

Definition model_dir_of (cache : string) (c : RerankerConfig) (pins : DownloadPins) : string :=
  path_join cache (flat_name (rcf_model c) +:+ "@" +:+ flat_name (dp_cache_revision pins)).
Definition MODEL_FILE : string := "model.onnx".
Definition TOKENIZER_FILE : string := "tokenizer.json".
Definition model_paths_in (model_dir : string) : ModelPaths :=
  {| mp_onnx_path := path_join model_dir MODEL_FILE; mp_tokenizer_path := path_join model_dir TOKENIZER_FILE |}.

Definition lock_error (e : IoError) : RerankerError.t :=
  if bool_decide (ie_kind e = IoKind.Interrupted) then transient_io e else permanent_io e.
(** The lock is held until the function returns. *)
Definition repair_cache (model_dir : string) (pins : DownloadPins) : io unit :=
  _ ← io_or permanent_io plain_call;
  _ ← io_or permanent_io (open_or_create (path_join model_dir CACHE_LOCK_FILE));
  _ ← io_or lock_error plain_call;
  _ ← remove_stale_partial_files model_dir;
  _ ← ensure_cached_file (dp_model_url pins) model_dir MODEL_FILE (dp_model_sha256 pins);
  ensure_cached_file (dp_tokenizer_url pins) model_dir TOKENIZER_FILE (dp_tokenizer_sha256 pins).
Definition resolve_downloaded_model_paths (c : RerankerConfig) (pins : DownloadPins) : io ModelPaths :=
  expanded_cache ← expanded (rcf_cache_dir c);
  let model_dir := model_dir_of expanded_cache c pins in
  let paths := model_paths_in model_dir in
  model_ok ← verify_file_sha256_optimistically (mp_onnx_path paths) (dp_model_sha256 pins);
  both_ok ← (if (model_ok : bool) then verify_file_sha256_optimistically (mp_tokenizer_path paths) (dp_tokenizer_sha256 pins) else mret false);
  if (both_ok : bool) then mret paths
  else _ ← repair_cache model_dir pins; mret paths.
(** A direct file has its tokenizer beside it. *)
Definition direct_paths (onnx_path : string) : ModelPaths :=
  {| mp_onnx_path := onnx_path; mp_tokenizer_path := path_join (default "." (path_parent onnx_path)) TOKENIZER_FILE |}.
Definition resolve_model_paths (c : RerankerConfig) : io ModelPaths :=
  if negb (str_is_empty (rcf_model_path c)) then
    onnx_path ← expanded (rcf_model_path c);
    mret (direct_paths onnx_path)
  else
    pins ← io_lift (resolve_download_pins c);
    resolve_downloaded_model_paths c pins.

Definition resolve_cached_model_paths (c : RerankerConfig) : io ModelPaths :=
  if negb (str_is_empty (rcf_model_path c)) then
    onnx_path ← expanded (rcf_model_path c);
    let paths := direct_paths onnx_path in
    model_there ← is_file onnx_path;
    both_there ← (if (model_there : bool) then is_file (mp_tokenizer_path paths) else mret false);
    if (both_there : bool) then mret paths else io_fail RerankerError.Unavailable
  else
    pins ← io_lift (resolve_download_pins c);
    cache ← expanded (rcf_cache_dir c);
    let paths := model_paths_in (model_dir_of cache c pins) in
    model_there ← is_file (mp_onnx_path paths);
    both_there ← (if (model_there : bool) then is_file (mp_tokenizer_path paths) else mret false);
    if negb both_there then io_fail RerankerError.Unavailable
    else
      model_ok ← verify_file_sha256 (mp_onnx_path paths) (dp_model_sha256 pins);
      both_ok ← (if (model_ok : bool) then verify_file_sha256 (mp_tokenizer_path paths) (dp_tokenizer_sha256 pins) else mret false);
      if (both_ok : bool) then mret paths
      else io_fail (RerankerError.permanent "cached reranker artifacts do not match their configured SHA-256 hashes").

Definition inspect_artifact (path expected_sha256 : string) : io ArtifactStatus.t :=
  there ← is_file path;
  if negb there then mret ArtifactStatus.Missing
  else if str_is_empty expected_sha256 then mret ArtifactStatus.Unverifiable
  else verified ← verify_file_sha256 path expected_sha256;
       mret (if (verified : bool) then ArtifactStatus.Verified else ArtifactStatus.HashMismatch).
Definition inspect_model_paths (c : RerankerConfig) : io ModelInspection :=
  found ← (if str_is_empty (rcf_model_path c) then
             pins ← io_lift (resolve_download_pins c);
             cache ← expanded (rcf_cache_dir c);
             mret (model_paths_in (model_dir_of cache c pins), dp_model_sha256 pins, dp_tokenizer_sha256 pins)
           else
             onnx_path ← expanded (rcf_model_path c);
             mret (direct_paths onnx_path, rcf_model_sha256 c, rcf_tokenizer_sha256 c));
  let '(paths, model_sha256, tokenizer_sha256) := found in
  model_status ← inspect_artifact (mp_onnx_path paths) model_sha256;
  tokenizer_status ← inspect_artifact (mp_tokenizer_path paths) tokenizer_sha256;
  mret {| mi_paths := paths; mi_model_sha256 := model_sha256; mi_tokenizer_sha256 := tokenizer_sha256;
          mi_model_status := model_status; mi_tokenizer_status := tokenizer_status |}.
End artifacts.

(** ** Operator reports *)

Definition MODELS_REPORT_SCHEMA_VERSION : Z := 1.
Record ModelArtifactReport := { mr_name : string; mr_path : string; mr_expected_sha256 : option string; mr_status : string }.
Record ModelsReport := {
  mo_schema_version : Z;
  mo_command : string;
  mo_model : string;
  mo_revision : string;
  mo_artifact : string;
  mo_precision : string;
  mo_source : string;
  mo_network_allowed : bool;
  mo_artifacts_changed : bool;
  mo_status : string;
  mo_artifacts : list ModelArtifactReport;
  mo_summary : string;
  mo_exit_code : Z;
}.
Definition confirmation_refused : ModelsReport :=
  {| mo_schema_version := MODELS_REPORT_SCHEMA_VERSION; mo_command := "fetch"; mo_model := "not_loaded"; mo_revision := "not_loaded";
     mo_artifact := "not_loaded"; mo_precision := "not_loaded"; mo_source := "not_loaded"; mo_network_allowed := false;
     mo_artifacts_changed := false; mo_status := "refused"; mo_artifacts := [];
     mo_summary := "refusing network-capable model fetch without explicit --yes confirmation"; mo_exit_code := 1 |}.
Definition invalid_configuration (command : string) (network_allowed : bool) : ModelsReport :=
  {| mo_schema_version := MODELS_REPORT_SCHEMA_VERSION; mo_command := command; mo_model := "not_loaded"; mo_revision := "not_loaded";
     mo_artifact := "not_loaded"; mo_precision := "not_loaded"; mo_source := "not_loaded"; mo_network_allowed := network_allowed;
     mo_artifacts_changed := false; mo_status := "error"; mo_artifacts := [];
     mo_summary := "effective configuration is invalid; run hold config validate for details"; mo_exit_code := 1 |}.

Definition aggregate_status (model tokenizer : ArtifactStatus.t) : string :=
  let any s := bool_decide (model = s) || bool_decide (tokenizer = s) in
  if any ArtifactStatus.Missing then "missing"
  else if any ArtifactStatus.HashMismatch then "hash_mismatch"
  else if any ArtifactStatus.Unverifiable then "unverifiable"
  else "verified".
Definition status_name (status : ArtifactStatus.t) : string :=
  match status with
  | ArtifactStatus.Verified => "verified"
  | ArtifactStatus.Missing => "missing"
  | ArtifactStatus.HashMismatch => "hash_mismatch"
  | ArtifactStatus.Unverifiable => "unverifiable"
  end.
Definition summary_for (status : string) (managed : bool) (command : string) : string :=
  if String.eqb status "verified" && String.eqb command "fetch" && managed
  then "managed reranker artifacts are present and match both configured SHA-256 hashes"
  else if String.eqb status "verified" then "reranker model and tokenizer match both configured SHA-256 hashes"
  else if String.eqb status "missing" then "one or more configured reranker artifacts are missing"
  else if String.eqb status "hash_mismatch" then "one or more reranker artifacts do not match their configured SHA-256 hashes"
  else if String.eqb status "unverifiable"
  then "direct reranker files require both model_sha256 and tokenizer_sha256 pins for offline verification"
  else "reranker artifact verification failed".
Definition artifact_report (name path expected_sha256 : string) (status : ArtifactStatus.t) : ModelArtifactReport :=
  {| mr_name := name; mr_path := path; mr_expected_sha256 := if str_is_empty expected_sha256 then None else Some expected_sha256;
     mr_status := status_name status |}.
Definition identity_fields (c : RerankerConfig) (identity : option RerankerModelIdentity) : string * string * string :=
  match identity with
  | None => (or_default (rcf_revision c) "not_resolved", if str_is_empty (rcf_model_path c) then "not_resolved" else "direct_file",
             RerankerPrecision.to_string (rcf_precision c))
  | Some i => (id_revision i, id_artifact i, RerankerPrecision.to_string (id_precision i))
  end.
Definition source_of (c : RerankerConfig) : string := if str_is_empty (rcf_model_path c) then "managed_cache" else "direct_file".
Definition report_from_inspection (command : string) (network_allowed artifacts_changed : bool) (c : RerankerConfig)
    (identity : RerankerModelIdentity) (i : ModelInspection) : ModelsReport :=
  let '(revision, artifact, precision) := identity_fields c (Some identity) in
  let aggregate := aggregate_status (mi_model_status i) (mi_tokenizer_status i) in
  {| mo_schema_version := MODELS_REPORT_SCHEMA_VERSION; mo_command := command; mo_model := rcf_model c; mo_revision := revision;
     mo_artifact := artifact; mo_precision := precision; mo_source := source_of c; mo_network_allowed := network_allowed;
     mo_artifacts_changed := artifacts_changed && String.eqb aggregate "verified"; mo_status := aggregate;
     mo_artifacts := [artifact_report "model" (mp_onnx_path (mi_paths i)) (mi_model_sha256 i) (mi_model_status i);
                      artifact_report "tokenizer" (mp_tokenizer_path (mi_paths i)) (mi_tokenizer_sha256 i) (mi_tokenizer_status i)];
     mo_summary := summary_for aggregate (str_is_empty (rcf_model_path c)) command;
     mo_exit_code := if String.eqb aggregate "verified" then 0 else 1 |}.
Definition report_from_error (command : string) (c : RerankerConfig) (network_allowed : bool) (identity : option RerankerModelIdentity)
    (error : RerankerError.t) : ModelsReport :=
  let '(revision, artifact, precision) := identity_fields c identity in
  {| mo_schema_version := MODELS_REPORT_SCHEMA_VERSION; mo_command := command; mo_model := rcf_model c; mo_revision := revision;
     mo_artifact := artifact; mo_precision := precision; mo_source := source_of c; mo_network_allowed := network_allowed;
     mo_artifacts_changed := false; mo_status := "error"; mo_artifacts := [];
     mo_summary := "model operation failed: " +:+ RerankerError.to_string error; mo_exit_code := 1 |}.

Section operator.
Context `{DiskWorld, Sha256Lib}.
Definition verify (c : RerankerConfig) : io ModelsReport :=
  match model_identity c with
  | Err error => mret (report_from_error "verify" c false None error)
  | Ok identity =>
      inspection ← io_attempt (inspect_model_paths c);
      mret (match inspection with
            | Ok i => report_from_inspection "verify" false false c identity i
            | Err error => report_from_error "verify" c false (Some identity) error
            end)
  end.
Definition fetch (c : RerankerConfig) : io ModelsReport :=
  match model_identity c with
  | Err error => mret (report_from_error "fetch" c true None error)
  | Ok identity =>
      before ← io_attempt (inspect_model_paths c);
      match before with
      | Err error => mret (report_from_error "fetch" c true (Some identity) error)
      | Ok before =>
          if negb (str_is_empty (rcf_model_path c)) then mret (report_from_inspection "fetch" true false c identity before)
          else
            let artifacts_changed := negb (is_verified before) in
            paths ← io_attempt (resolve_model_paths c);
            match paths with
            | Err error => mret (report_from_error "fetch" c true (Some identity) error)
            | Ok _ =>
                inspection ← io_attempt (inspect_model_paths c);
                mret (match inspection with
                      | Ok i => report_from_inspection "fetch" true artifacts_changed c identity i
                      | Err error => report_from_error "fetch" c true (Some identity) error
                      end)
            end
      end
  end.
End operator.
