(* ===== verification/RerankerArtifacts.v ===== *)
(** * RerankerArtifacts: what reaches the reranker is what was pinned

    A small logic of file-system computations, and with it: whatever the disk
    and the network answer, managed model files are used, and put into the
    cache, only with the pinned hash. *)
From Stdlib Require Import ZArith Lia.
From stdpp Require Import base list option strings gmap sets pretty.
From S2P Require Import Prelude Text Floats Lists Errors Types RerankerSettings Context RerankerModels.

Abbreviation Files := (gmap string Bytes).

(** ** A logic of the file system *)

Section logic.
Context `{DiskWorld, Sha256Lib}.

(** From files in [P], an answer comes with files in [Q], an error with files
    in [E]; the number of calls made does not matter. *)
Definition runs {A} (P : Files → Prop) (m : io A) (Q : A → Files → Prop) (E : Files → Prop) : Prop :=
  ∀ d, P (dk_files d) → match m d with
                        | (Ok a, d') => Q a (dk_files d')
                        | (Err _, d') => E (dk_files d')
                        end.
Lemma runs_ret {A} (a : A) (P : Files → Prop) (Q : A → Files → Prop) E : (∀ fs, P fs → Q a fs) → runs P (mret a) Q E.
Proof. intros HPQ d Hd. by apply HPQ. Qed.
Lemma runs_fail {A} e (P : Files → Prop) (Q : A → Files → Prop) (E : Files → Prop) : (∀ fs, P fs → E fs) → runs P (io_fail e) Q E.
Proof. intros HPE d Hd. by apply HPE. Qed.
Lemma runs_lift {A} (r : reranked A) (P : Files → Prop) (Q : A → Files → Prop) (E : Files → Prop) :
  (∀ fs, P fs → match r with Ok a => Q a fs | Err _ => E fs end) → runs P (io_lift r) Q E.
Proof. intros HQ d Hd. specialize (HQ _ Hd). unfold io_lift. by destruct r. Qed.
Lemma runs_bind {A B} (m : io A) (k : A → io B) P R Q E : runs P m R E → (∀ a, runs (R a) (k a) Q E) → runs P (m ≫= k) Q E.
Proof.
  intros Hm Hk d Hd. specialize (Hm d Hd). unfold mbind, io_bind. destruct (m d) as [[a|e] d']; [by apply Hk|done].
Qed.
Lemma runs_weaken {A} (m : io A) (P P' : Files → Prop) (Q Q' : A → Files → Prop) (E E' : Files → Prop) :
  runs P' m Q' E' → (∀ fs, P fs → P' fs) → (∀ a fs, Q' a fs → Q a fs) → (∀ fs, E' fs → E fs) → runs P m Q E.
Proof. intros Hm HP HQ HE d Hd. specialize (Hm d (HP _ Hd)). destruct (m d) as [[a|e] d']; [by apply HQ|by apply HE]. Qed.
Lemma runs_attempt {A} (m : io A) P Q E F :
  runs P m Q E → runs P (io_attempt m) (λ r fs, match r with Ok a => Q a fs | Err _ => E fs end) F.
Proof. intros Hm d Hd. specialize (Hm d Hd). unfold io_attempt. by destruct (m d) as [[a|e] d']. Qed.
Lemma runs_call {A} (act : Disk → result IoError A * Disk) (P : Files → Prop) (Q : result IoError A → Files → Prop) E :
  (∀ e fs, P fs → Q (Err e) fs) → (∀ d, P (dk_files d) → Q (fst (act d)) (dk_files (snd (act d)))) → runs P (sys_call act) Q E.
Proof.
  intros He Ha d Hd. unfold sys_call. destruct (dw_failure (dk_calls d)); [by apply He|]. specialize (Ha d Hd).
  by destruct (act d).
Qed.
Lemma runs_or {A} f (m : io (result IoError A)) P (Q : A → Files → Prop) E :
  runs P m (λ r fs, match r with Ok a => Q a fs | Err _ => E fs end) E → runs P (io_or f m) Q E.
Proof.
  intros Hm. eapply runs_bind; [exact Hm|]. intros r. apply runs_lift. by destruct r.
Qed.

(** *** Calls *)

Lemma runs_plain P (Q : unit → Files → Prop) (E : Files → Prop) f :
  (∀ fs, P fs → Q () fs) → (∀ fs, P fs → E fs) → runs P (io_or f plain_call) Q E.
Proof. intros HQ HE. apply runs_or, runs_call; [by intros _ fs ?; apply HE|]. intros d Hd. by apply HQ. Qed.
Lemma runs_is_file path P E : runs P (is_file path) (λ b fs, P fs ∧ (b = true → is_Some (fs !! path))) E.
Proof.
  intros d Hd. unfold is_file. destruct (dw_failure (dk_calls d)); [done|]. split; [done|]. cbn.
  intros Hs. by destruct (dk_files d !! path).
Qed.
Lemma runs_verify path sha P (E : Files → Prop) : (∀ fs, P fs → E fs) →
  runs P (verify_file_sha256 path sha)
    (λ b fs, P fs ∧ (b = true → ∃ c, fs !! path = Some c ∧ eq_ignore_ascii_case (sha256_hex c) sha = true)) E.
Proof.
  intros HE. unfold verify_file_sha256. eapply runs_bind with (R := λ c fs, P fs ∧ fs !! path = Some c).
  - apply runs_or, runs_call; [by intros _ fs ?; apply HE|]. intros d Hd. cbn. destruct (dk_files d !! path); cbn; [done|by apply HE].
  - intros c. eapply runs_bind with (R := λ hex fs, (P fs ∧ fs !! path = Some c) ∧ hex = sha256_hex c).
    + unfold sha256_reader. eapply runs_bind with (R := λ _ fs, P fs ∧ fs !! path = Some c); [|intros []; by apply runs_ret].
      apply runs_plain; [done|]. intros fs [? _]. by apply HE.
    + intros hex. apply runs_ret. intros fs [[HP Hc] ->]. split; [done|]. intros Hb. by exists c.
Qed.
Lemma runs_verify_optimistically path sha P (E : Files → Prop) : (∀ fs, P fs → E fs) →
  runs P (verify_file_sha256_optimistically path sha)
    (λ b fs, P fs ∧ (b = true → ∃ c, fs !! path = Some c ∧ eq_ignore_ascii_case (sha256_hex c) sha = true)) E.
Proof.
  intros HE. unfold verify_file_sha256_optimistically. eapply runs_bind.
  - eapply runs_attempt, (runs_verify path sha P P). done.
  - intros r. destruct r as [b|e]; [by apply runs_lift|]. destruct e as [| [|e] | |]; try (apply runs_lift; intros fs ?; by apply HE).
    case_bool_decide; [by apply runs_ret|]. apply runs_lift. intros fs ?. by apply HE.
Qed.
Lemma runs_remove path P (Q : result IoError unit → Files → Prop) E :
  (∀ e fs, P fs → Q (Err e) fs) → (∀ fs, P fs → Q (Ok ()) (delete path fs)) → runs P (remove_file path) Q E.
Proof.
  intros HE HQ. apply runs_call; [done|]. intros d Hd. destruct (dk_files d !! path); cbn; [by apply HQ|by apply HE].
Qed.
End logic.

(** ** Paths *)

Lemma app_inj_l (a b c : string) : a +:+ b = a +:+ c → b = c.
Proof. induction a as [|x a IH]; cbn; [done|]. intros [= Ha]. auto. Qed.
Lemma path_join_inj base n1 n2 : starts_with [SLASH] (bytes n1) = false → starts_with [SLASH] (bytes n2) = false →
  path_join base n1 = path_join base n2 → n1 = n2.
Proof.
  intros H1' H2'. unfold path_join. rewrite H1', H2'. destruct (str_is_empty base); [done|].
  destruct (starts_with [SLASH] (rev (bytes base))); [apply app_inj_l|]. intros He%app_inj_l. by apply (app_inj_l "/") in He.
Qed.

(** A file of a directory whose name starts with a dot. *)
Definition hidden (dir path : string) : Prop := ∃ name, starts_with [byte 46] (bytes name) = true ∧ path = path_join dir name.
Lemma hidden_not_artifact dir name : name = MODEL_FILE ∨ name = TOKENIZER_FILE → ¬ hidden dir (path_join dir name).
Proof.
  intros Hn (h & Hh & He). apply path_join_inj in He as <-.
  - by destruct Hn as [-> | ->].
  - by destruct Hn as [-> | ->].
  - destruct h as [|c h]; [done|]. unfold starts_with in *. cbn in *. apply bool_decide_eq_true in Hh.
    apply bool_decide_eq_false_2. congruence.
Qed.
Lemma artifacts_differ dir : path_join dir MODEL_FILE ≠ path_join dir TOKENIZER_FILE.
Proof. intros He. by apply path_join_inj in He. Qed.

(** ** Download and repair *)

Section repair.
Context `{DiskWorld, Sha256Lib} (dir : string).

(** The file at [path] has the hash [sha]. *)
Definition pinned (path sha : string) (fs : Files) : Prop :=
  ∃ c, fs !! path = Some c ∧ eq_ignore_ascii_case (sha256_hex c) sha = true.

(** A statement about the files that survives any change of hidden files, the
    removal of [dest] and its replacement by a file with the hash. *)
Record survives (dest sha : string) (J : Files → Prop) : Prop := {
  survives_hidden : ∀ path f fs, hidden dir path → J fs → J (partial_alter f path fs);
  survives_removal : ∀ fs, J fs → J (delete dest fs);
  survives_publication : ∀ c fs, eq_ignore_ascii_case (sha256_hex c) sha = true → J fs → J (<[dest := c]> fs);
}.

Section one.
Context (name sha : string) (Hname : name = MODEL_FILE ∨ name = TOKENIZER_FILE) (J : Files → Prop).
#[local] Abbreviation dest := (path_join dir name).
Context (HJ : survives dest sha J).

Lemma dest_not_hidden tmp : hidden dir tmp → tmp ≠ dest.
Proof. intros Ht ->. by apply (hidden_not_artifact dir name). Qed.

(** A staging file that holds [c]. *)
Definition staged (tmp : string) (c : Bytes) (fs : Files) : Prop := J fs ∧ fs !! tmp = Some c.

Lemma runs_create attempts : runs J (create_temporary_download attempts dir name)
  (λ tmp fs, hidden dir tmp ∧ staged tmp [] fs) J.
Proof.
  induction attempts as [|attempts IH]; [by apply runs_fail|].
  assert (Hrun : ∀ tmp, hidden dir tmp → runs J
    (r ← create_new_file tmp;
     match r with
     | Ok _ => mret tmp
     | Err e => if bool_decide (ie_kind e = IoKind.AlreadyExists) then create_temporary_download attempts dir name
                else io_fail (permanent_io e)
     end) (λ tmp fs, hidden dir tmp ∧ staged tmp [] fs) J).
  { intros tmp Htmp. eapply runs_bind with (R := λ r fs, match r with Ok _ => staged tmp [] fs | Err _ => J fs end).
    - apply runs_call; [done|]. intros d Hd. destruct (dk_files d !! tmp) eqn:E; cbn; [done|]. split.
      + by apply (survives_hidden _ _ _ HJ).
      + apply lookup_insert_eq.
    - intros [[]|e]; [by apply runs_ret|]. case_bool_decide; [exact IH|]. by apply runs_fail. }
  intros d Hd. apply (Hrun (path_join dir ("." +:+ name +:+ ".partial-" +:+ dw_suffix (dk_calls d)))); [|done].
  eexists. split; [|done]. by apply bool_decide_eq_true.
Qed.

Lemma runs_receive tmp body : hidden dir tmp → ∀ total received,
  runs (staged tmp received) (receive tmp body total received) (λ c fs, staged tmp c fs) J.
Proof.
  intros Htmp. induction body as [|[[|c chunk]|e] body IH]; intros total received; cbn [receive].
  - by apply runs_ret.
  - by apply runs_ret.
  - eapply runs_bind with (R := λ _ fs, staged tmp received fs).
    { apply runs_lift. intros fs [? ?]. by case_match. }
    intros total'. eapply runs_bind with (R := λ _ fs, staged tmp received fs).
    { apply runs_lift. intros fs [? ?]. by case_match. }
    intros []. eapply runs_bind with (R := λ _ fs, staged tmp (received ++ c :: chunk) fs); [|intros []; apply IH].
    apply runs_or, runs_call; [by intros _ fs [? _]|]. intros d [Hd Hc]. cbn. split.
    + by apply (survives_hidden _ _ _ HJ).
    + by rewrite lookup_alter_eq, Hc.
  - apply runs_fail. by intros fs [? _].
Qed.

Definition published (fs : Files) : Prop := J fs ∧ pinned dest sha fs.
Lemma runs_publish tmp c : hidden dir tmp → eq_ignore_ascii_case (sha256_hex c) sha = true →
  runs (staged tmp c) (publish_verified_file tmp dest sha) (λ _, published) J.
Proof.
  intros Htmp Hc. pose proof (dest_not_hidden tmp Htmp) as Hne. unfold publish_verified_file.
  eapply runs_bind with (R := λ r fs, match r with Ok _ => published fs | Err _ => J fs end).
  - apply runs_call; [by intros _ fs [? _]|]. intros d [Hd Ht]. rewrite Ht. cbn. split.
    + apply (survives_publication _ _ _ HJ); [done|]. by apply (survives_hidden _ _ _ HJ).
    + exists c. by rewrite lookup_insert_eq.
  - intros [[]|e]; [by apply runs_ret|]. eapply runs_bind; [apply runs_is_file|]. intros there.
    destruct there; [|apply runs_fail; by intros fs [? _]]. cbn [negb].
    eapply runs_bind; [eapply runs_weaken; [eapply runs_attempt, (runs_verify dest sha J J); done|by intros fs [? _]|done..]|].
    intros [[|]|e']; [| |apply runs_fail; done].
    + eapply runs_bind with (R := λ r fs, match r with Ok _ => published fs | Err _ => J fs end).
      * apply runs_remove; [by intros _ fs [? _]|]. intros fs [HJfs Hp]. specialize (Hp eq_refl) as (c' & Hc' & Hs). split.
        -- apply (survives_hidden _ _ _ HJ); [done|]. apply HJfs.
        -- exists c'. by rewrite lookup_delete_ne.
      * intros r. apply runs_lift. by destruct r as [[]|].
    + apply runs_fail. by intros fs [? _].
Qed.

Lemma runs_store tmp body : hidden dir tmp → runs (staged tmp []) (store_download tmp dest sha body) (λ _, published) J.
Proof.
  intros Htmp. unfold store_download. eapply runs_bind; [by apply runs_receive|]. intros c.
  eapply runs_bind with (R := λ _, staged tmp c); [apply runs_plain; [done|by intros fs [? _]]|]. intros [].
  eapply runs_bind with (R := λ _, staged tmp c); [apply runs_plain; [done|by intros fs [? _]]|]. intros [].
  eapply runs_bind with (R := λ _ fs, staged tmp c fs ∧ eq_ignore_ascii_case (sha256_hex c) sha = true).
  { apply runs_lift. intros fs Hs. destruct (eq_ignore_ascii_case _ _); cbn; [done|]. apply Hs. }
  intros []. intros d [Hs Hc]. by apply (runs_publish tmp c Htmp Hc d).
Qed.
Lemma runs_download url : runs J (download_file url dir name sha) (λ _, published) J.
Proof.
  assert (Hrun : ∀ response, runs J
    (_ ← io_lift (bail_if (negb (hr_success response))
           (RerankerError.permanent ("HTTP " +:+ hr_status response +:+ " downloading " +:+ url)));
     _ ← io_lift (match hr_content_length response with
                  | Some length => bail_if (MAX_DOWNLOAD_BYTES <? length) (download_too_large length)
                  | None => Ok ()
                  end);
     tmp_path ← create_temporary_download 16 dir name;
     stored ← io_attempt (store_download tmp_path dest sha (hr_body response));
     _ ← (if is_ok stored then mret (Ok ()) else remove_file tmp_path : io (result IoError unit));
     io_lift stored) (λ _, published) J).
  { intros response. eapply runs_bind with (R := λ _, J); [apply runs_lift; intros fs ?; by case_match|]. intros [].
    eapply runs_bind with (R := λ _, J); [apply runs_lift; intros fs ?; by case_match|]. intros [].
    eapply runs_bind; [apply runs_create|]. intros tmp.
    eapply runs_bind with (R := λ r fs, hidden dir tmp ∧ match r with Ok _ => published fs | Err _ => J fs end).
    { intros d [Htmp Hs]. pose proof (runs_attempt _ _ _ _ J (runs_store tmp (hr_body response) Htmp) d Hs) as Hr.
      by destruct (io_attempt _ d) as [[r|e] d']. }
    intros stored. eapply runs_bind with (R := λ _ fs, match stored with Ok _ => published fs | Err _ => J fs end).
    - destruct stored as [[]|e]; cbn; [apply runs_ret; by intros fs [_ ?]|]. apply runs_remove; [by intros _ fs [_ ?]|].
      intros fs [Htmp HJfs]. by apply (survives_hidden _ _ _ HJ).
    - intros _. apply runs_lift. by destruct stored as [[]|]. }
  intros d Hd. unfold download_file. destruct (dw_get (dk_calls d) url) as [response|e]; [|done]. by apply Hrun.
Qed.
Lemma runs_ensure url : runs J (ensure_cached_file url dir name sha) (λ _, published) J.
Proof.
  unfold ensure_cached_file. eapply runs_bind; [apply runs_is_file|]. intros there.
  eapply runs_bind with (R := λ b fs, J fs ∧ (b = true → pinned dest sha fs)).
  { destruct there.
    - eapply runs_weaken; [apply (runs_verify dest sha J J); done|by intros fs [? _]|done..].
    - apply runs_ret. by intros fs [? _]. }
  intros [|]; [apply runs_ret; intros fs [? Hp]; split; [done|by apply Hp]|].
  eapply runs_bind; [apply runs_is_file|]. intros there'.
  eapply runs_bind with (R := λ _, J); [|intros []; apply runs_download].
  destruct there'; [|apply runs_ret; by intros fs [[? _] _]].
  apply runs_or, runs_remove; [by intros _ fs [[? _] _]|]. intros fs [[? _] _]. by apply (survives_removal _ _ _ HJ).
Qed.
End one.

Lemma pinned_survives name name' sha sha' : name = MODEL_FILE ∨ name = TOKENIZER_FILE → path_join dir name ≠ path_join dir name' →
  survives (path_join dir name') sha' (pinned (path_join dir name) sha).
Proof.
  intros Hn Hne. split.
  - intros path f fs Hh (c & Hc & Hs). exists c. split; [|done]. rewrite lookup_partial_alter_ne; [done|]. intros ->.
    by apply (hidden_not_artifact dir name).
  - intros fs (c & Hc & Hs). exists c. by rewrite lookup_delete_ne.
  - intros c' fs _ (c & Hc & Hs). exists c. by rewrite lookup_insert_ne.
Qed.
Lemma survives_and dest sha J J' : survives dest sha J → survives dest sha J' → survives dest sha (λ fs, J fs ∧ J' fs).
Proof.
  intros [H1' H2' H3'] [H4' H5' H6']. split; [intros path f fs Hh []|intros fs []|intros c fs Hc []]; auto.
Qed.

(** What may become of a file of the cache: an artifact stays, goes or gets
    its pinned content; only hidden files change otherwise. *)
Definition allowed (pins : DownloadPins) (path : string) (before after : option Bytes) : Prop :=
  after = before ∨ hidden dir path
  ∨ ∃ sha, ((path = path_join dir MODEL_FILE ∧ sha = dp_model_sha256 pins) ∨ (path = path_join dir TOKENIZER_FILE ∧ sha = dp_tokenizer_sha256 pins))
      ∧ (after = None ∨ ∃ c, after = Some c ∧ eq_ignore_ascii_case (sha256_hex c) sha = true).
Definition keeps_to_pins (pins : DownloadPins) (before : Files) (fs : Files) : Prop := ∀ path, allowed pins path (before !! path) (fs !! path).

Lemma keeps_survives pins before name sha :
  (name = MODEL_FILE ∧ sha = dp_model_sha256 pins) ∨ (name = TOKENIZER_FILE ∧ sha = dp_tokenizer_sha256 pins) →
  survives (path_join dir name) sha (keeps_to_pins pins before).
Proof.
  intros Hn. assert (Hart : ∀ after, (after = None ∨ ∃ c, after = Some c ∧ eq_ignore_ascii_case (sha256_hex c) sha = true) →
    allowed pins (path_join dir name) (before !! path_join dir name) after).
  { intros after Ha. right. right. exists sha. split; [|done]. destruct Hn as [[-> ->]|[-> ->]]; auto. }
  split.
  - intros path f fs Hh Hk q. destruct (decide (q = path)) as [->|Hne]; [right; by left|].
    rewrite lookup_partial_alter_ne by done. apply Hk.
  - intros fs Hk q. destruct (decide (q = path_join dir name)) as [->|Hne]; [rewrite lookup_delete_eq; apply Hart; by left|].
    rewrite lookup_delete_ne by done. apply Hk.
  - intros c fs Hc Hk q. destruct (decide (q = path_join dir name)) as [->|Hne]; [rewrite lookup_insert_eq; apply Hart; eauto|].
    rewrite lookup_insert_ne by done. apply Hk.
Qed.
Lemma runs_partials pins before names : runs (keeps_to_pins pins before) (remove_partials dir names) (λ _, keeps_to_pins pins before) (keeps_to_pins pins before).
Proof.
  pose proof (keeps_survives pins before MODEL_FILE _ (or_introl (conj eq_refl eq_refl))) as Hs.
  induction names as [|name names IH]; cbn [remove_partials]; [by apply runs_ret|].
  eapply runs_bind with (R := λ _, keeps_to_pins pins before); [by apply runs_plain|]. intros [].
  eapply runs_bind with (R := λ _, keeps_to_pins pins before); [|intros _; exact IH].
  destruct (is_partial name) eqn:Ep; [|by apply runs_ret]. apply runs_remove; [done|]. intros fs Hk.
  apply (survives_hidden _ _ _ Hs); [|done]. exists name. split; [|done].
  revert Ep. unfold is_partial. rewrite !orb_true_iff, !String.eqb_eq. intros [[[-> | ->]|Hp]|Hp]; [reflexivity..| |].
  all: destruct name as [|c name]; [done|]; unfold starts_with in *; apply bool_decide_eq_true in Hp; cbn in Hp.
  all: injection Hp as -> _; by apply bool_decide_eq_true.
Qed.
Lemma runs_repair pins before :
  runs (keeps_to_pins pins before) (repair_cache dir pins)
    (λ _ fs, keeps_to_pins pins before fs ∧ pinned (path_join dir MODEL_FILE) (dp_model_sha256 pins) fs
             ∧ pinned (path_join dir TOKENIZER_FILE) (dp_tokenizer_sha256 pins) fs) (keeps_to_pins pins before).
Proof.
  set (J := keeps_to_pins pins before).
  assert (Hm : survives (path_join dir MODEL_FILE) (dp_model_sha256 pins) J) by (apply keeps_survives; auto).
  assert (Ht : survives (path_join dir TOKENIZER_FILE) (dp_tokenizer_sha256 pins) J) by (apply keeps_survives; auto).
  unfold repair_cache. eapply runs_bind with (R := λ _, J); [by apply runs_plain|]. intros [].
  eapply runs_bind with (R := λ _, J).
  { apply runs_or, runs_call; [done|]. intros d Hd. cbn. apply (survives_hidden _ _ _ Hm); [|done]. eexists. split; [|done]. done. }
  intros []. eapply runs_bind with (R := λ _, J); [by apply runs_plain|]. intros [].
  eapply runs_bind with (R := λ _, J).
  { unfold remove_stale_partial_files. eapply runs_bind with (R := λ _, J); [|intros; apply runs_partials].
    apply runs_or, runs_call; [done|]. done. }
  intros []. eapply runs_bind; [by apply (runs_ensure MODEL_FILE _ (or_introl eq_refl) J Hm)|]. intros [].
  eapply runs_weaken; [apply (runs_ensure TOKENIZER_FILE (dp_tokenizer_sha256 pins) (or_intror eq_refl)
      (λ fs, J fs ∧ pinned (path_join dir MODEL_FILE) (dp_model_sha256 pins) fs))|done| |by intros fs [? _]].
  - apply survives_and; [done|]. apply pinned_survives; [by left|apply artifacts_differ].
  - intros [] fs [[? ?] ?]. auto.
Qed.
End repair.

(** ** The artifacts that are used *)

Section guarantees.
Context `{DiskWorld, Sha256Lib}.

Definition both_pinned (paths : ModelPaths) (model_sha256 tokenizer_sha256 : string) (fs : Files) : Prop :=
  pinned (mp_onnx_path paths) model_sha256 fs ∧ pinned (mp_tokenizer_path paths) tokenizer_sha256 fs.

Lemma runs_expanded path p P E : expand_tilde path = Ok p → runs P (expanded path) (λ q fs, q = p ∧ P fs) E.
Proof. intros Hp. unfold expanded. apply runs_lift. by rewrite Hp. Qed.
Lemma runs_assuming {A} (φ : Prop) P (m : io A) Q E : (φ → runs P m Q E) → runs (λ fs, φ ∧ P fs) m Q E.
Proof. intros Hm d [Hφ Hd]. by apply Hm. Qed.
(** Both hashes checked one after the other, without a change in between. *)
Lemma runs_both (check : string → string → io bool) paths m t P :
  (∀ path sha (P : Files → Prop), runs P (check path sha) (λ b fs, P fs ∧ (b = true → pinned path sha fs)) P) →
  ∀ (k : bool → io ModelPaths) Q E, (∀ fs, P fs → E fs) →
  runs (λ fs, P fs ∧ both_pinned paths m t fs) (k true) Q E → runs P (k false) Q E →
  runs P (model_ok ← check (mp_onnx_path paths) m;
          both_ok ← (if (model_ok : bool) then check (mp_tokenizer_path paths) t else mret false); k both_ok) Q E.
Proof.
  intros Hcheck k Q E HE Htrue Hfalse.
  eapply runs_bind; [eapply runs_weaken; [apply (Hcheck _ _ P)|done..]|]. intros b.
  eapply runs_bind with (R := λ b' fs, P fs ∧ (b' = true → both_pinned paths m t fs)).
  - destruct b; [|apply runs_ret; by intros fs [? _]].
    eapply runs_weaken; [apply (Hcheck _ _ (λ fs, P fs ∧ (true = true → pinned (mp_onnx_path paths) m fs)))|done| |].
    + intros b' fs [[HP Hm] Ht]. split; [done|]. intros ->. split; auto.
    + intros fs [? _]. auto.
  - intros [|]; eapply runs_weaken; [exact Htrue| |done|done|exact Hfalse| |done|done]; intros fs [? Hb]; auto.
Qed.
Lemma check_verify path sha (P : Files → Prop) : runs P (verify_file_sha256 path sha) (λ b fs, P fs ∧ (b = true → pinned path sha fs)) P.
Proof. by apply (runs_verify path sha P P). Qed.
Lemma check_optimistic path sha (P : Files → Prop) :
  runs P (verify_file_sha256_optimistically path sha) (λ b fs, P fs ∧ (b = true → pinned path sha fs)) P.
Proof. by apply (runs_verify_optimistically path sha P P). Qed.

Section managed.
Context (c : RerankerConfig) (pins : DownloadPins) (cache : string) (before : Files)
  (Hmanaged : rcf_model_path c = "") (Hpins : resolve_download_pins c = Ok pins) (Hcache : expand_tilde (rcf_cache_dir c) = Ok cache).
#[local] Abbreviation dir := (model_dir_of cache c pins).
#[local] Abbreviation paths := (model_paths_in dir).
#[local] Abbreviation keeps := (keeps_to_pins dir pins before).
#[local] Abbreviation verified := (both_pinned paths (dp_model_sha256 pins) (dp_tokenizer_sha256 pins)).

Lemma runs_resolve : runs keeps (resolve_model_paths c) (λ p fs, keeps fs ∧ p = paths ∧ verified fs) keeps.
Proof.
  unfold resolve_model_paths. rewrite Hmanaged, Hpins. cbn [str_is_empty negb].
  eapply runs_bind with (R := λ p fs, p = pins ∧ keeps fs); [by apply runs_lift|]. intros p. apply runs_assuming. intros ->.
  unfold resolve_downloaded_model_paths. eapply runs_bind; [by apply (runs_expanded _ cache)|]. intros cache'. apply runs_assuming. intros ->.
  cbv zeta. apply (runs_both _ paths _ _ keeps check_optimistic (λ both_ok, if (both_ok : bool) then mret paths else _ ← repair_cache dir pins; mret paths));
    [done|apply runs_ret; intros fs [? ?]; by split_and!|].
  eapply runs_bind; [apply runs_repair|]. intros []. apply runs_ret. intros fs (? & ? & ?). by split_and!.
Qed.
Lemma runs_resolve_cached : runs (λ fs, fs = before) (resolve_cached_model_paths c) (λ p fs, fs = before ∧ p = paths ∧ verified fs) (λ fs, fs = before).
Proof.
  unfold resolve_cached_model_paths. rewrite Hmanaged, Hpins. cbn [str_is_empty negb].
  eapply runs_bind with (R := λ p fs, p = pins ∧ fs = before); [by apply runs_lift|]. intros p. apply runs_assuming. intros ->.
  eapply runs_bind; [by apply (runs_expanded _ cache)|]. intros cache'. apply runs_assuming. intros ->. cbv zeta.
  eapply runs_bind with (R := λ _ fs, fs = before); [eapply runs_weaken; [apply (runs_is_file _ (λ fs, fs = before) (λ fs, fs = before))|done|by intros b fs [? _]|done]|].
  intros there. eapply runs_bind with (R := λ _ fs, fs = before).
  { destruct there; [|by apply runs_ret]. eapply runs_weaken; [apply (runs_is_file _ (λ fs, fs = before) (λ fs, fs = before))|done|by intros b fs [? _]|done]. }
  intros [|]; cbn [negb]; [|by apply runs_fail].
  apply (runs_both _ paths _ _ (λ fs, fs = before) check_verify (λ both_ok, if (both_ok : bool) then mret paths else
    io_fail (RerankerError.permanent "cached reranker artifacts do not match their configured SHA-256 hashes"))); [done| |by apply runs_fail].
  apply runs_ret. intros fs [? ?]. by split_and!.
Qed.
Lemma runs_inspect_artifact path sha P : runs P (inspect_artifact path sha) (λ s fs, P fs ∧ (s = ArtifactStatus.Verified → pinned path sha fs)) P.
Proof.
  unfold inspect_artifact. eapply runs_bind; [apply (runs_is_file path P P)|]. intros there. destruct there; cbn [negb].
  - destruct (str_is_empty sha); [by apply runs_ret; intros fs [? _]|]. eapply runs_bind.
    + eapply runs_weaken; [apply (check_verify path sha P)|by intros fs [? _]|done..].
    + intros [|]; apply runs_ret; intros fs [? Hb]; split; auto. by intros.
  - by apply runs_ret; intros fs [? _].
Qed.
Lemma runs_inspect P : runs P (inspect_model_paths c) (λ i fs, P fs ∧ (is_verified i = true → verified fs)) P.
Proof.
  unfold inspect_model_paths. rewrite Hmanaged, Hpins. cbn [str_is_empty].
  eapply runs_bind with (R := λ found fs, found = (paths, dp_model_sha256 pins, dp_tokenizer_sha256 pins) ∧ P fs).
  { eapply runs_bind with (R := λ p fs, p = pins ∧ P fs); [by apply runs_lift|]. intros p. apply runs_assuming. intros ->.
    eapply runs_bind; [by apply (runs_expanded _ cache)|]. intros cache'. apply runs_assuming. intros ->. by apply runs_ret. }
  intros found. apply runs_assuming. intros ->. cbv beta iota.
  eapply runs_bind; [apply runs_inspect_artifact|]. intros model.
  eapply runs_bind; [eapply runs_weaken; [apply (runs_inspect_artifact _ _ (λ fs, P fs ∧ (model = ArtifactStatus.Verified → pinned (mp_onnx_path paths) (dp_model_sha256 pins) fs)))|done..|by intros fs [? _]]|].
  intros tokenizer. apply runs_ret. intros fs [[HP Hm] Ht]. split; [done|]. unfold is_verified. cbn.
  rewrite andb_true_iff, !bool_decide_eq_true. intros [-> ->]. split; auto.
Qed.
Lemma exit_code_verified command network changed identity i :
  mo_exit_code (report_from_inspection command network changed c identity i) = 0 → is_verified i = true.
Proof.
  unfold report_from_inspection. cbn. unfold aggregate_status, is_verified.
  destruct (mi_model_status i), (mi_tokenizer_status i); cbn; done.
Qed.
Lemma runs_fetch : runs keeps (fetch c) (λ report fs, keeps fs ∧ (mo_exit_code report = 0 → verified fs)) (λ _, False).
Proof.
  unfold fetch. destruct (model_identity c) as [identity|e]; [|by apply runs_ret].
  eapply runs_bind; [eapply runs_attempt, runs_inspect|]. intros [i|e]; [|by apply runs_ret].
  rewrite Hmanaged. cbn [str_is_empty negb].
  eapply runs_bind; [eapply runs_attempt, runs_weaken; [apply runs_resolve|by intros fs [? _]|done..]|]. intros [p|e]; [|by apply runs_ret].
  eapply runs_bind; [eapply runs_attempt, runs_weaken; [apply (runs_inspect keeps)|by intros fs [? _]|done..]|].
  intros [i'|e]; [|by apply runs_ret]. apply runs_ret. intros fs [Hk Hv]. split; [done|]. intros Hx%exit_code_verified. auto.
Qed.
Lemma runs_report : runs (λ fs, fs = before) (verify c) (λ report fs, fs = before ∧ (mo_exit_code report = 0 → verified fs)) (λ _, False).
Proof.
  unfold verify. destruct (model_identity c) as [identity|e]; [|by apply runs_ret].
  eapply runs_bind; [eapply runs_attempt, (runs_inspect (λ fs, fs = before))|]. intros [i|e]; [|by apply runs_ret].
  apply runs_ret. intros fs [Hk Hv]. split; [done|]. intros Hx%exit_code_verified. auto.
Qed.
End managed.

End guarantees.

(** ** Configurations *)

(** What the validation of a configuration accepts can be resolved: the checks
    at start-up and at download time agree, so no accepted configuration of a
    managed model fails for want of a pin, and no precision is refused later. *)
Theorem validated_configuration_resolves c (Hvalid : validate_reranker_config c = Ok ()) (Henabled : rcf_enabled c = true)
    (Hmanaged : rcf_model_path c = "") :
  is_ok (model_identity c) = true ∧ ∃ pins, resolve_download_pins c = Ok pins
    ∧ (rcf_model_sha256 c ≠ "" → dp_model_sha256 pins = rcf_model_sha256 c)
    ∧ (rcf_tokenizer_sha256 c ≠ "" → dp_tokenizer_sha256 pins = rcf_tokenizer_sha256 c)
    ∧ dp_model_sha256 pins ≠ "" ∧ dp_tokenizer_sha256 pins ≠ "".
Proof.
  unfold validate_reranker_config in Hvalid. rewrite Henabled, Hmanaged in Hvalid. cbv zeta in Hvalid.
  do 5 (apply bind_Ok in Hvalid as ([] & Hb & Hvalid); apply bail_if_Ok in Hb; revert Hb). intros Hfp16 Hcuda _ _ _.
  assert (Hprecision : validate_precision_policy c = Ok ()) by (apply bail_if_Ok; exact Hcuda).
  assert (Hpins : ∃ pins, resolve_download_pins c = Ok pins
    ∧ (rcf_model_sha256 c ≠ "" → dp_model_sha256 pins = rcf_model_sha256 c)
    ∧ (rcf_tokenizer_sha256 c ≠ "" → dp_tokenizer_sha256 pins = rcf_tokenizer_sha256 c)
    ∧ dp_model_sha256 pins ≠ "" ∧ dp_tokenizer_sha256 pins ≠ "").
  { cbn [str_is_empty andb] in Hvalid, Hfp16. unfold resolve_download_pins, resolve_builtin_download_pins, or_default.
    pose proof (str_is_empty_true (rcf_model_sha256 c)) as Hm. pose proof (str_is_empty_true (rcf_tokenizer_sha256 c)) as Ht.
    destruct (is_builtin_default_reranker_model (rcf_model c)), (bool_decide (rcf_precision c = RerankerPrecision.Fp16)) eqn:Ep,
      (str_is_empty (rcf_revision c)), (String.eqb (rcf_revision c) DEFAULT_RERANKER_REVISION),
      (str_is_empty (rcf_model_sha256 c)), (str_is_empty (rcf_tokenizer_sha256 c)); try discriminate.
    all: try (destruct (rcf_precision c)); eexists; (split; [reflexivity|]); cbn; naive_solver. }
  split; [|exact Hpins]. destruct Hpins as (pins & Hpins & _). unfold model_identity. by rewrite Hprecision, Hmanaged, Hpins.
Qed.

(** ** Witnesses *)

Section witness.
(** A toy hash, a disk that never fails and a network that sends two files. *)
#[local] Instance PlainHash : Sha256Lib := { sha256 l := l }.
Definition sent (url : string) : Bytes := if str_contains url "onnx" then bytes "abc" else bytes "xyz".
#[local] Instance WorkingDisk : DiskWorld :=
  {| dw_failure _ := None; dw_home := Some "/home/u"; dw_suffix _ := "1-0"; dw_listing _ l := l;
     dw_get _ url := Ok {| hr_success := true; hr_status := "200 OK"; hr_content_length := None; hr_body := [Ok (sent url)] |} |}.
Definition custom_model : RerankerConfig :=
  {| rcf_enabled := true; rcf_execution_provider := RerankerExecutionProvider.Auto; rcf_precision := RerankerPrecision.Fp32;
     rcf_required := true; rcf_model := "acme/ranker"; rcf_revision := "r1"; rcf_model_path := ""; rcf_model_sha256 := "616263";
     rcf_tokenizer_sha256 := "78797A"; rcf_pool_size := 50; rcf_blend_weight := f64_lit 7 10; rcf_cache_dir := "~/models" |}.
(** The model of another revision lies in the cache, with a stale download. *)
Definition stale_cache : Disk :=
  {| dk_files := {["/home/u/models/acme--ranker@r1/model.onnx" := bytes "old"; "/home/u/models/acme--ranker@r1/.model.onnx.partial-9" := bytes "a"]};
     dk_calls := 0 |}.

Lemma validated_configuration_resolves_witness :
  validate_reranker_config custom_model = Ok () ∧ ∃ pins, resolve_download_pins custom_model = Ok pins.
Proof.
  split; [vm_compute; reflexivity|].
  destruct (validated_configuration_resolves custom_model) as [_ (pins & Hp & _)]; [vm_compute; reflexivity|reflexivity..|]. eauto.
Defined.
End witness.
