(* ===== verification/RerankerRuntime.v ===== *)
(** * RerankerRuntime: sessions, inference and start-up of the reranker

    [OnnxReranker] ([src/src/reranker/onnx.rs]), its wrapper that tracks
    availability ([src/src/reranker/resilient.rs]) and the start-up with its
    fallback and retries ([src/src/reranker/runtime.rs]). The ONNX runtime
    and the tokenizer are parameters; each call to them may answer anew. *)
From Stdlib Require Import ZArith Lia.
From stdpp Require Import base list option strings gmap sets pretty.
From S2P Require Import Prelude Text Floats Lists Errors Types RerankerSettings Context RerankerModels.

(** One encoded pair: [get_ids], [get_attention_mask], [get_type_ids]. *)
Record Encoding := { en_ids : list Z; en_attention_mask : list Z; en_type_ids : list Z }.
(** What a session is run on: the shape and the tensors. *)
Record Tensors := {
  tn_shape : Z * Z;
  tn_input_ids : list Z;
  tn_attention_mask : list Z;
  tn_token_type_ids : option (list Z);
}.
(** The crates [ort] and [tokenizers]; the number is that of the call. *)
Class OnnxLib := {
  Session : Type;
  Tokenizer : Type;
  session_builder : nat → result string unit;
  cuda_provider : nat → result string unit;
  commit_from_file : nat → string → RerankerExecutionProvider.t → result string Session;
  session_inputs : Session → list string;
  session_run : nat → Session → Tensors → result string (list spec_float);
  tokenizer_from_file : nat → string → result string Tokenizer;
  get_truncation : Tokenizer → option Z;
  with_truncation : Tokenizer → Z → result string Tokenizer;
  encode_batch : nat → Tokenizer → string → list string → result string (list Encoding);
  (** [ORT_DYLIB_PATH] and [std::env::current_exe]. *)
  ort_dylib_path : option string;
  current_exe : option string;
  preload_dylib : nat → string → result string unit;
  (** [ort::execution_providers::cuda::preload_dylibs]. *)
  preload_cuda_dylibs : nat → string → result string unit;
  (** [ort::init().commit()], or [init_from]; [None] is a panic. *)
  commit_environment : nat → option string → option (result string bool);
  (** [tokio::task::spawn_blocking]: does the task end without a panic? *)
  joined : nat → result string unit;
  exp_f64 : f64 → f64;
}.

(** A call of a library: its answer at this time. *)
Definition lib_call {A} (f : nat → A) : io A := λ d, (Ok (f (dk_calls d)), next_call d).
Definition transient_text (text : string) : RerankerError.t := RerankerError.Transient (ErrorSource.Message text).

Section onnx.
Context `{DiskWorld, Sha256Lib, RerankerFeatures, OnnxLib}.

Record OnnxReranker := {
  on_session : Session;
  on_tokenizer : Tokenizer;
  on_execution_provider : RerankerExecutionProvider.t;
  on_has_token_type_ids : bool;
}.
Definition DEFAULT_MAX_LENGTH : Z := 512.

Definition lib_or {A} (f : string → RerankerError.t) (call : nat → result string A) : io A :=
  r ← lib_call call; io_lift (map_err f r).

(** ** The ONNX runtime *)

(** On Linux. *)
Definition dynamic_ort_library_name : string := "libonnxruntime.so".
Definition onnx_runtime_panic_guidance : string :=
  if feature_reranker_cuda
  then "ONNX Runtime initialization failed unexpectedly after loading its dynamic library; verify that ORT_DYLIB_PATH selects a compatible ONNX Runtime build"
  else "ONNX Runtime initialization failed unexpectedly".
Record DynamicOrtLibrary := { do_path : string; do_bundled_library_dir : option string }.
Definition is_absolute (path : string) : bool := starts_with [SLASH] (bytes path).
Definition unbundled (path : string) : DynamicOrtLibrary := {| do_path := path; do_bundled_library_dir := None |}.
Definition bundled_in (install_root : option string) (path : string) : io DynamicOrtLibrary :=
  match install_root with
  | Some install_root =>
      let bundled_library_dir := path_join install_root "lib" in
      let bundled := path_join bundled_library_dir path in
      there ← is_file bundled;
      mret (if (there : bool) then {| do_path := bundled; do_bundled_library_dir := Some bundled_library_dir |} else unbundled path)
  | None => mret (unbundled path)
  end.
Definition resolve_dynamic_ort_library (configured executable : option string) : io DynamicOrtLibrary :=
  let path := default dynamic_ort_library_name configured in
  if is_absolute path then mret (unbundled path)
  else match executable ≫= path_parent with
       | Some binary_dir =>
           let beside_binary := path_join binary_dir path in
           there ← is_file beside_binary;
           if (there : bool) then mret (unbundled beside_binary)
           else bundled_in (if is_none configured then path_parent binary_dir else None) path
       | None => mret (unbundled path)
       end.

Definition unavailable_library (directory text : string) : RerankerError.t :=
  RerankerError.ProviderUnavailable ("bundled CUDA runtime `" +:+ directory +:+ text).
Definition inspect_failed (directory : string) (e : IoError) : RerankerError.t :=
  RerankerError.ProviderUnavailable ("could not inspect bundled CUDA runtime `" +:+ directory +:+ "`: " +:+ ie_text e).
Fixpoint matching_libraries (directory prefix : string) (names : list string) : io (list string) :=
  match names with
  | [] => mret []
  | name :: names =>
      _ ← io_or (inspect_failed directory) plain_call;
      let path := path_join directory name in
      there ← is_file path;
      candidates ← matching_libraries directory prefix names;
      mret (if (there : bool) && starts_with (bytes prefix) (bytes name) then path :: candidates else candidates)
  end.
(** The candidates are sorted, which a single one does not show. *)
Definition find_unique_bundled_library (directory prefix : string) : io string :=
  names ← io_or (inspect_failed directory) (read_dir directory);
  candidates ← matching_libraries directory prefix names;
  match candidates with
  | [path] => mret path
  | [] => io_fail (unavailable_library directory ("` has no library matching `" +:+ prefix +:+ "*`; verify the release manifest"))
  | _ => io_fail (unavailable_library directory ("` has multiple libraries matching `" +:+ prefix +:+ "*`; verify the release manifest"))
  end.
Definition manifest_guidance : string := "; verify the release manifest and NVIDIA driver compatibility".
Definition preload_unique_bundled_library (directory prefix : string) : io unit :=
  path ← find_unique_bundled_library directory prefix;
  lib_or (λ error, RerankerError.ProviderUnavailable ("bundled CUDA dependency `" +:+ path +:+ "` could not be loaded: " +:+ error +:+ manifest_guidance))
    (λ n, preload_dylib n path).
Definition preload_bundled_cuda_dependencies (directory : string) : io unit :=
  _ ← preload_unique_bundled_library directory "libnvJitLink.so.";
  _ ← preload_unique_bundled_library directory "libnvrtc-builtins.so.";
  _ ← lib_or (λ error, RerankerError.ProviderUnavailable
        ("bundled CUDA 12 runtime in `" +:+ directory +:+ "` could not be loaded: " +:+ error +:+ manifest_guidance))
        (λ n, preload_cuda_dylibs n directory);
  preload_unique_bundled_library directory "libcudnn_cnn.so.".
Definition preload_dynamic_ort_library : io string :=
  let configured := value ← ort_dylib_path; if str_is_empty value then None else Some value in
  resolved ← resolve_dynamic_ort_library configured current_exe;
  _ ← match do_bundled_library_dir resolved with
      | Some directory => preload_bundled_cuda_dependencies directory
      | None => mret ()
      end;
  _ ← lib_or (λ error, RerankerError.ProviderUnavailable ("ONNX Runtime could not load `" +:+ do_path resolved
        +:+ "` or one of its dependencies: " +:+ error +:+ "; set ORT_DYLIB_PATH to the absolute library path or configure the platform loader"))
        (λ n, preload_dylib n (do_path resolved));
  mret (do_path resolved).
Definition incompatible_runtime (dynamic_ort_path : option string) (error : string) : RerankerError.t :=
  match dynamic_ort_path with
  | Some path => RerankerError.ProviderUnavailable ("compatible ONNX Runtime could not be initialized from `" +:+ path +:+ "`: " +:+ error
                   +:+ "; verify ORT_DYLIB_PATH and the runtime version")
  | None => RerankerError.permanent error
  end.
Definition initialize_ort : io unit :=
  dynamic_ort_path ← (if feature_reranker_cuda then path ← preload_dynamic_ort_library; mret (Some path) else mret None);
  initialized ← lib_call (λ n, commit_environment n dynamic_ort_path);
  initialized ← io_lift (ok_or (RerankerError.ProviderUnavailable onnx_runtime_panic_guidance) initialized);
  _ ← io_lift (map_err (incompatible_runtime dynamic_ort_path) initialized);
  mret ().

(** ** Sessions *)

Definition configure_cuda : io unit :=
  if feature_reranker_cuda then lib_or RerankerError.ProviderUnavailable cuda_provider
  else io_fail (RerankerError.ProviderUnavailable "CUDA was selected but this binary was compiled without the `reranker-cuda` feature").
Definition create_session (model_path : string) (provider : RerankerExecutionProvider.t) : io Session :=
  _ ← lib_or RerankerError.permanent session_builder;
  _ ← match provider with
      | RerankerExecutionProvider.Cpu => mret ()
      | RerankerExecutionProvider.Cuda => configure_cuda
      | RerankerExecutionProvider.Auto => io_fail (RerankerError.permanent "auto is a selection policy, not a concrete execution provider")
      end;
  lib_or RerankerError.permanent (λ n, commit_from_file n model_path provider).
Fixpoint try_candidates (model_path : string) (requested : RerankerExecutionProvider.t) (candidates : list RerankerExecutionProvider.t)
    (cuda_failure : option RerankerError.t) : io (Session * RerankerExecutionProvider.t) :=
  match candidates with
  | [] => io_fail (default (RerankerError.ProviderUnavailable "no reranker execution-provider candidate was available") cuda_failure)
  | candidate :: candidates =>
      r ← io_attempt (create_session model_path candidate);
      match r with
      | Ok session => mret (session, candidate)
      | Err error =>
          if bool_decide (requested = RerankerExecutionProvider.Auto) && bool_decide (candidate = RerankerExecutionProvider.Cuda)
          then try_candidates model_path requested candidates (Some error)
          else io_fail error
      end
  end.
Definition create_session_with_policy (model_path : string) (requested : RerankerExecutionProvider.t) (candidates : list RerankerExecutionProvider.t) :
    io (Session * RerankerExecutionProvider.t) := try_candidates model_path requested candidates None.

Definition new_onnx_reranker (c : RerankerConfig) : io OnnxReranker :=
  _ ← io_lift (validate_precision_policy c);
  candidates ← io_lift (execution_provider_candidates (rcf_execution_provider c));
  paths ← resolve_model_paths c;
  created ← create_session_with_policy (mp_onnx_path paths) (rcf_execution_provider c) candidates;
  let '(session, execution_provider) := created in
  tokenizer ← lib_or RerankerError.permanent (λ n, tokenizer_from_file n (mp_tokenizer_path paths));
  tokenizer ← match get_truncation tokenizer with
              | Some _ => mret tokenizer
              | None => io_lift (map_err RerankerError.permanent (with_truncation tokenizer DEFAULT_MAX_LENGTH))
              end;
  mret {| on_session := session; on_tokenizer := tokenizer; on_execution_provider := execution_provider;
          on_has_token_type_ids := bool_decide ("token_type_ids" ∈ session_inputs session) |}.

(** ** Inference *)

(** [1.0 / (1.0 + (-x).exp())]. *)
Definition sigmoid (x : f64) : f64 := fdiv f1 (fadd f1 (exp_f64 (fopp x))).
(** The values from [offset] on, overwritten; an index out of range would
    panic. *)
Fixpoint fill (tensor : list Z) (offset : nat) (values : list Z) : option (list Z) :=
  match values with
  | [] => Some tensor
  | v :: values => if decide (offset < length tensor)%nat then fill (<[offset := v]> tensor) (S offset) values else None
  end.
Fixpoint fill_rows (row : Encoding → list Z) (max_len : nat) (i : nat) (encodings : list Encoding) (tensor : list Z) : option (list Z) :=
  match encodings with
  | [] => Some tensor
  | e :: encodings => tensor ← fill tensor (i * max_len) (row e); fill_rows row max_len (S i) encodings tensor
  end.
Definition max_len_of (encodings : list Encoding) : nat := foldr Nat.max 0%nat (map (λ e, length (en_ids e)) encodings).
Definition tensor_of (row : Encoding → list Z) (encodings : list Encoding) : option (list Z) :=
  fill_rows row (max_len_of encodings) 0 encodings (replicate (length encodings * max_len_of encodings) 0).
(** [None] is a panic of the indexing. *)
Definition tensors_of (has_token_type_ids : bool) (encodings : list Encoding) : option Tensors :=
  input_ids ← tensor_of en_ids encodings;
  attention_mask ← tensor_of en_attention_mask encodings;
  token_type_ids ← (if has_token_type_ids then Some <$> tensor_of en_type_ids encodings else Some None);
  Some {| tn_shape := (len encodings, Z.of_nat (max_len_of encodings)); tn_input_ids := input_ids;
          tn_attention_mask := attention_mask; tn_token_type_ids := token_type_ids |}.

Definition stride_error (stride : Z) : RerankerError.t :=
  RerankerError.permanent ("unsupported ONNX reranker output stride " +:+ pretty stride +:+ ": expected 1 or 2 logits per pair").
Definition f64_at (logits : list spec_float) (i : nat) : option f64 := f32_to_f64 <$> logits !! i.
(** The logit of the pair [i]; [None] is a panic of the indexing. *)
Definition logit_of (logits : list spec_float) (stride : Z) (i : nat) : option (reranked f64) :=
  if stride =? 0 then Some (Err (RerankerError.permanent "ONNX model produced no logits"))
  else if stride =? 1 then Ok <$> f64_at logits i
  else if stride =? 2 then
    upper ← f64_at logits (i * 2 + 1); lower ← f64_at logits (i * 2); Some (Ok (fsub upper lower))
  else Some (Err (stride_error stride)).
Fixpoint scores_from (logits : list spec_float) (stride : Z) (i : nat) (pairs : nat) : option (reranked (list RerankerScore)) :=
  match pairs with
  | O => Some (Ok [])
  | S pairs =>
      logit ← logit_of logits stride i;
      match logit with
      | Err e => Some (Err e)
      | Ok logit =>
          rest ← scores_from logits stride (S i) pairs;
          Some (scores ← rest; Ok ({| rks_index := Z.of_nat i; rks_score := sigmoid logit |} :: scores))
      end
  end.
Definition scores_of (logits : list spec_float) (batch_size : nat) : option (reranked (list RerankerScore)) :=
  scores_from logits (len logits / Z.of_nat batch_size) 0 batch_size.

Definition panicked : RerankerError.t := transient_text "task panicked".
(** A panic ends the blocking task, which the caller sees as a join error. *)
Definition rerank_sync (inner : OnnxReranker) (query : string) (documents : list string) : io (list RerankerScore) :=
  if bool_decide (documents = []) then mret []
  else
    encodings ← lib_or transient_text (λ n, encode_batch n (on_tokenizer inner) query documents);
    if (max_len_of encodings =? 0)%nat then mret []
    else
      _ ← io_lift (bail_if (usize_max <? len encodings * Z.of_nat (max_len_of encodings))
            (RerankerError.permanent "batch too large for tensor allocation"));
      tensors ← io_lift (ok_or panicked (tensors_of (on_has_token_type_ids inner) encodings));
      logits ← lib_or transient_text (λ n, session_run n (on_session inner) tensors);
      scores ← io_lift (ok_or panicked (scores_of logits (length encodings)));
      io_lift scores.

Definition blocking {A} (m : io A) : io A := λ d,
  match joined (dk_calls d) with
  | Err e => (Err (transient_text e), next_call d)
  | Ok _ => m (next_call d)
  end.
Definition onnx_rerank (inner : OnnxReranker) (query : string) (documents : list string) : io (list RerankerScore) :=
  blocking (rerank_sync inner query documents).
Definition onnx_health_check (inner : OnnxReranker) : io unit :=
  blocking (_ ← rerank_sync inner "test query" ["test document"]; mret ()).

(** ** Availability *)

(** [available] is the shared flag; the probe task runs [probe] at its
    interval until it is cancelled. *)
Record ResilientReranker := { rs_inner : OnnxReranker; rs_available : bool }.
Definition with_available (available : bool) (r : ResilientReranker) : ResilientReranker :=
  {| rs_inner := rs_inner r; rs_available := available |}.
Definition new_resilient (inner : OnnxReranker) : io ResilientReranker :=
  health ← io_attempt (onnx_health_check inner);
  mret {| rs_inner := inner; rs_available := is_ok health |}.
Definition handle_error (e : RerankerError.t) (r : ResilientReranker) : ResilientReranker :=
  match e with RerankerError.Transient _ => with_available false r | _ => r end.
Definition resilient_rerank (query : string) (documents : list string) (r : ResilientReranker) : io (reranked (list RerankerScore) * ResilientReranker) :=
  if negb (rs_available r) then mret (Err RerankerError.Unavailable, r)
  else
    answer ← io_attempt (onnx_rerank (rs_inner r) query documents);
    mret (answer, match answer with Ok _ => r | Err e => handle_error e r end).
Definition resilient_health_check (r : ResilientReranker) : io unit :=
  if negb (rs_available r) then io_fail RerankerError.Unavailable else onnx_health_check (rs_inner r).
Definition probe (r : ResilientReranker) : io ResilientReranker :=
  if rs_available r then mret r
  else
    health ← io_attempt (onnx_health_check (rs_inner r));
    mret (if is_ok health then with_available true r else r).
Definition selected_execution_provider (r : ResilientReranker) : option RerankerExecutionProvider.t :=
  Some (on_execution_provider (rs_inner r)).
Definition active_execution_provider (r : ResilientReranker) : option RerankerExecutionProvider.t :=
  if rs_available r then selected_execution_provider r else None.

(** ** Start-up *)

Definition load_provider (c : RerankerConfig) : io ResilientReranker :=
  onnx ← blocking (new_onnx_reranker c);
  new_resilient onnx.
Definition with_execution_provider (p : RerankerExecutionProvider.t) (c : RerankerConfig) : RerankerConfig :=
  {| rcf_enabled := rcf_enabled c; rcf_execution_provider := p; rcf_precision := rcf_precision c; rcf_required := rcf_required c;
     rcf_model := rcf_model c; rcf_revision := rcf_revision c; rcf_model_path := rcf_model_path c; rcf_model_sha256 := rcf_model_sha256 c;
     rcf_tokenizer_sha256 := rcf_tokenizer_sha256 c; rcf_pool_size := rcf_pool_size c; rcf_blend_weight := rcf_blend_weight c;
     rcf_cache_dir := rcf_cache_dir c |}.
Definition with_model_path (path : string) (c : RerankerConfig) : RerankerConfig :=
  {| rcf_enabled := rcf_enabled c; rcf_execution_provider := rcf_execution_provider c; rcf_precision := rcf_precision c;
     rcf_required := rcf_required c; rcf_model := rcf_model c; rcf_revision := rcf_revision c; rcf_model_path := path;
     rcf_model_sha256 := rcf_model_sha256 c; rcf_tokenizer_sha256 := rcf_tokenizer_sha256 c; rcf_pool_size := rcf_pool_size c;
     rcf_blend_weight := rcf_blend_weight c; rcf_cache_dir := rcf_cache_dir c |}.
Definition required_failed (selected : option RerankerExecutionProvider.t) : RerankerError.t :=
  RerankerError.ProviderUnavailable (from_option RerankerExecutionProvider.to_string "no provider" selected
    +:+ " was selected but failed initial health inference while reranker.required = true").
Definition initialize (c : RerankerConfig) : io ResilientReranker :=
  initialized ← load_provider c;
  initialized ← (if bool_decide (rcf_execution_provider c = RerankerExecutionProvider.Auto)
                    && bool_decide (selected_execution_provider initialized = Some RerankerExecutionProvider.Cuda)
                    && is_none (active_execution_provider initialized)
                 then load_provider (with_execution_provider RerankerExecutionProvider.Cpu c)
                 else mret initialized);
  _ ← io_lift (bail_if (rcf_required c && is_none (active_execution_provider initialized))
        (required_failed (selected_execution_provider initialized)));
  mret initialized.

Definition MAX_RETRIES : nat := 3.
(** The delays slept so far, in seconds, with the answer. *)
Fixpoint initialize_attempts (c : RerankerConfig) (attempts : nat) (delay : Z) : io (list Z * reranked ResilientReranker) :=
  r ← io_attempt (initialize c);
  match attempts with
  | O => mret ([], r)
  | S attempts =>
      match r with
      | Ok initialized => mret ([], Ok initialized)
      | Err (RerankerError.Permanent _ | RerankerError.ProviderUnavailable _) => mret ([], r)
      | Err _ =>
          rest ← initialize_attempts c attempts (saturating_mul delay 2);
          mret (delay :: fst rest, snd rest)
      end
  end.
Definition initialize_with_retry_and_clock (c : RerankerConfig) : io (list Z * reranked ResilientReranker) :=
  _ ← io_lift (validate_precision_policy c);
  _ ← initialize_ort;
  initialize_attempts c MAX_RETRIES 2.
Definition initialize_cached_with_clock (c : RerankerConfig) : io ResilientReranker :=
  _ ← io_lift (validate_precision_policy c);
  _ ← io_lift (execution_provider_candidates (rcf_execution_provider c));
  paths ← resolve_cached_model_paths c;
  _ ← initialize_ort;
  initialize (with_model_path (mp_onnx_path paths) c).
Definition initialize_for_diagnostics_with_clock (c : RerankerConfig) (allow_downloads : bool) : io ResilientReranker :=
  if allow_downloads then
    _ ← io_lift (validate_precision_policy c);
    _ ← io_lift (execution_provider_candidates (rcf_execution_provider c));
    r ← initialize_with_retry_and_clock c;
    io_lift (snd r)
  else initialize_cached_with_clock c.
End onnx.

(** ** What start-up selects *)

Section startup.
Context `{DiskWorld, Sha256Lib, RerankerFeatures, OnnxLib}.

Lemma io_bind_Ok {A B} (m : io A) (k : A → io B) d b d' :
  (m ≫= k) d = (Ok b, d') ↔ ∃ a d1, m d = (Ok a, d1) ∧ k a d1 = (Ok b, d').
Proof.
  unfold mbind, io_bind. destruct (m d) as [[a|e] d1]; split.
  - intros Hk. by exists a, d1.
  - by intros (? & ? & [= <- <-] & ?).
  - done.
  - by intros (? & ? & ? & _).
Qed.
Lemma io_lift_Ok {A} (r : reranked A) d a d' : io_lift r d = (Ok a, d') ↔ r = Ok a ∧ d' = d.
Proof. unfold io_lift. split; [by intros [= -> ->]|by intros [-> ->]]. Qed.
Lemma io_attempt_Ok {A} (m : io A) d r d' : io_attempt m d = (Ok r, d') → m d = (r, d').
Proof. unfold io_attempt. destruct (m d). by intros [= -> ->]. Qed.
Lemma blocking_Ok {A} (m : io A) d a d' : blocking m d = (Ok a, d') → ∃ d1, m d1 = (Ok a, d').
Proof. unfold blocking. destruct (joined _); [eauto|done]. Qed.

Lemma try_candidates_picks path requested candidates failure d s p d' :
  try_candidates path requested candidates failure d = (Ok (s, p), d') → p ∈ candidates.
Proof.
  revert failure d. induction candidates as [|q candidates IH]; intros failure d; cbn; [done|].
  intros (r & d1 & _ & Hr)%io_bind_Ok. destruct r as [session|e].
  - injection Hr as <- <- <-. by left.
  - case_match; [|done]. right. by eapply IH.
Qed.

(** What a provider may be loaded as under a configuration. *)
Definition permitted (c : RerankerConfig) (p : RerankerExecutionProvider.t) : Prop :=
  (∃ candidates, execution_provider_candidates (rcf_execution_provider c) = Ok candidates ∧ p ∈ candidates)
  ∧ (rcf_precision c = RerankerPrecision.Fp16 → p = RerankerExecutionProvider.Cuda).
Lemma candidates_cuda requested candidates p : execution_provider_candidates requested = Ok candidates → p ∈ candidates →
  p ≠ RerankerExecutionProvider.Auto ∧ (requested ≠ RerankerExecutionProvider.Auto → p = requested)
  ∧ (p = RerankerExecutionProvider.Cuda → feature_reranker_cuda = true).
Proof.
  unfold execution_provider_candidates. destruct requested, feature_reranker_cuda, feature_reranker; intros [= <-]; set_solver.
Qed.
Lemma new_onnx_permitted c d inner d' : new_onnx_reranker c d = (Ok inner, d') → permitted c (on_execution_provider inner).
Proof.
  unfold new_onnx_reranker. intros ([] & d1 & [Hp ->]%io_lift_Ok & Hr)%io_bind_Ok. revert Hr.
  intros (candidates & d2 & [Hc ->]%io_lift_Ok & Hr)%io_bind_Ok. revert Hr.
  intros (paths & d3 & _ & Hr)%io_bind_Ok. revert Hr. intros ([session p] & d4 & Hs & Hr)%io_bind_Ok. revert Hr.
  intros (tokenizer & d5 & _ & Hr)%io_bind_Ok. revert Hr. intros (tokenizer' & d6 & _ & [= <- <-])%io_bind_Ok. cbn.
  apply try_candidates_picks in Hs. split; [eauto|]. intros Hfp. unfold validate_precision_policy in Hp. rewrite Hfp in Hp.
  apply bail_if_Ok in Hp. cbn in Hp. apply negb_false_iff, bool_decide_eq_true in Hp.
  destruct (candidates_cuda _ _ _ Hc Hs) as (_ & Hsame & _). by rewrite Hp in Hsame; apply Hsame.
Qed.
Lemma load_provider_permitted c d r d' : load_provider c d = (Ok r, d') → permitted c (on_execution_provider (rs_inner r)).
Proof.
  unfold load_provider. intros (inner & d1 & (d0 & Hnew)%blocking_Ok & Hr)%io_bind_Ok. revert Hr.
  unfold new_resilient. intros (health & d2 & _ & [= <- _])%io_bind_Ok. by eapply new_onnx_permitted.
Qed.

(** *** The ONNX runtime *)

Lemma is_file_Ok path d b d' : is_file path d = (Ok b, d') →
  dk_files d' = dk_files d ∧ (b = true → is_Some (dk_files d !! path)) ∧ (dw_failure (dk_calls d) = None → b = is_some (dk_files d !! path)).
Proof. unfold is_file. destruct (dw_failure _), (dk_files d !! path) eqn:E; intros [= <- <-]; split_and!; eauto; done. Qed.
Lemma runtime_library_choice configured executable d lib d' : resolve_dynamic_ort_library configured executable d = (Ok lib, d') →
  dk_files d' = dk_files d
  ∧ (∀ path, configured = Some path → do_bundled_library_dir lib = None ∧ (is_absolute path = true → do_path lib = path))
  ∧ (∀ dir, do_bundled_library_dir lib = Some dir → do_path lib = path_join dir dynamic_ort_library_name ∧ is_Some (dk_files d !! do_path lib)).
Proof.
  unfold resolve_dynamic_ort_library. destruct (is_absolute (default dynamic_ort_library_name configured)) eqn:Ea.
  { intros [= <- <-]. split_and!; [done| |done]. by intros path ->. }
  destruct (executable ≫= path_parent) as [binary_dir|]; [|intros [= <- <-]; split_and!; [done| |done]; intros path ->; cbn in Ea; by rewrite Ea].
  intros (there & d1 & (Hd1 & _)%is_file_Ok & Hr)%io_bind_Ok. revert Hr. destruct there.
  { intros [= <- <-]. split_and!; [done| |done]. intros path ->. cbn in Ea. by rewrite Ea. }
  unfold bundled_in. destruct configured as [path|]; cbn [is_none default] in *.
  { intros [= <- <-]. split_and!; [done| |done]. intros path' [= <-]. cbn in Ea. by rewrite Ea. }
  destruct (path_parent binary_dir) as [root|]; [|intros [= <- <-]; by split_and!].
  intros (there & d2 & (Hd2 & Hthere & _)%is_file_Ok & Hr)%io_bind_Ok. revert Hr. intros [= <- <-].
  split_and!; [congruence|done|]. destruct there; cbn; [|done]. intros dir [= <-]. rewrite <- Hd1. auto.
Qed.
Lemma sys_call_Ok {A} (act : Disk → result IoError A * Disk) f d a d' :
  io_or f (sys_call act) d = (Ok a, d') → ∃ d1, act d = (Ok a, d1) ∧ d' = next_call d1.
Proof.
  unfold io_or, sys_call, mbind, io_bind, io_lift. destruct (dw_failure _); [done|]. destruct (act d) as [[b|e] d1]; [|done].
  intros [= -> <-]. eauto.
Qed.
Lemma matching_libraries_Ok directory prefix names : (∀ n, dw_failure n = None) → ∀ d candidates d',
  matching_libraries directory prefix names d = (Ok candidates, d') →
  dk_files d' = dk_files d
  ∧ candidates = map (path_join directory)
      (filter (λ name, is_some (dk_files d !! path_join directory name) && starts_with (bytes prefix) (bytes name) = true) names).
Proof.
  intros Hok. induction names as [|name names IH]; intros d candidates d'; cbn [matching_libraries]; [by intros [= <- <-]|].
  intros ([] & d1 & (d0 & [= <-] & ->)%sys_call_Ok & Hr)%io_bind_Ok. revert Hr.
  intros (there & d2 & (Hd2 & _ & Hthere)%is_file_Ok & Hr)%io_bind_Ok. revert Hr.
  intros (rest & d3 & (Hd3 & ->)%IH & [= <- <-])%io_bind_Ok. split; [by rewrite Hd3, Hd2|].
  rewrite (Hthere (Hok _)), Hd2. cbn [next_call dk_files]. rewrite filter_cons. by case_decide as Hc; destruct (_ && _).
Qed.
(** The library of a prefix is the only one in its directory. *)
Lemma bundled_library_is_unique directory prefix d path d' (Hok : ∀ n, dw_failure n = None) (Hlist : ∀ n l, dw_listing n l ≡ₚ l) :
  find_unique_bundled_library directory prefix d = (Ok path, d') →
  dk_files d' = dk_files d
  ∧ ∀ name, name ∈ names_in directory (dk_files d) → starts_with (bytes prefix) (bytes name) = true →
      is_Some (dk_files d !! path_join directory name) → path_join directory name = path.
Proof.
  unfold find_unique_bundled_library. intros (names & d1 & (d0 & [= <- <-] & ->)%sys_call_Ok & Hr)%io_bind_Ok. revert Hr.
  intros (candidates & d2 & [Hd2 ->]%(matching_libraries_Ok _ _ _ Hok) & Hr)%io_bind_Ok. revert Hr.
  destruct (map _ _) as [|p [|]] eqn:Ec; [done| |done]. intros [= -> <-]. split; [done|]. intros name Hname Hpre [c Hc].
  assert (Hin : path_join directory name ∈ [path]); [|by apply list_elem_of_singleton in Hin].
  rewrite <- Ec. apply list_elem_of_fmap. exists name. split; [done|]. apply list_elem_of_filter. cbn [next_call dk_files].
  rewrite Hc, Hpre. split; [done|]. by rewrite Hlist.
Qed.

(** *** Retries *)

Definition final_error (e : RerankerError.t) : bool :=
  match e with RerankerError.Permanent _ | RerankerError.ProviderUnavailable _ => true | _ => false end.
(** The delays slept before an answer, when the remaining ones are [plan]. *)
Definition tried (plan delays : list Z) (c : RerankerConfig) (r : reranked ResilientReranker) : Prop :=
  delays `prefix_of` plan ∧ (∃ d1 d2, initialize c d1 = (r, d2))
  ∧ match r with Ok _ => True | Err e => delays = plan ∨ final_error e = true end.
Lemma tried_more c delay plan delays r : tried plan delays c r → tried (delay :: plan) (delay :: delays) c r.
Proof.
  intros (Hp & Hi & Hr). split; [by apply prefix_cons|]. split; [done|]. destruct r; [done|]. destruct Hr as [->|]; auto.
Qed.
Lemma attempts_tried c delay d delays r d' :
  initialize_attempts c 0 delay d = (Ok (delays, r), d') → tried [] delays c r.
Proof.
  cbn [initialize_attempts]. intros (x & d1 & Hi%io_attempt_Ok & [= <- <- <-])%io_bind_Ok.
  split; [done|]. split; [eauto|]. destruct x; auto.
Qed.
Lemma attempts_step c attempts delay plan : 
  (∀ d delays r d', initialize_attempts c attempts (saturating_mul delay 2) d = (Ok (delays, r), d') → tried plan delays c r) →
  ∀ d delays r d', initialize_attempts c (S attempts) delay d = (Ok (delays, r), d') → tried (delay :: plan) delays c r.
Proof.
  intros Hrest d delays r d'. cbn [initialize_attempts]. intros (x & d1 & Hi%io_attempt_Ok & Hr)%io_bind_Ok.
  assert (Hnow : match x with Ok _ => True | Err e => final_error e = true end → x = r → delays = [] → tried (delay :: plan) delays c r).
  { intros Hx <- ->. split; [apply prefix_nil|]. split; [eauto|]. destruct x; auto. }
  destruct x as [x|[x|x|x|]]; try (injection Hr as <- <- <-; by apply Hnow).
  all: revert Hr; intros ([rest r1] & d2 & Hr & [= <- <- <-])%io_bind_Ok; by eapply tried_more, Hrest.
Qed.

End startup.

(** ** What inference answers *)

Section inference.
Context `{DiskWorld, Sha256Lib, RerankerFeatures, OnnxLib}.

Lemma fill_middle pre old values post : length values = length old →
  fill (pre ++ old ++ post) (length pre) values = Some (pre ++ values ++ post).
Proof.
  revert pre old. induction values as [|v values IH]; intros pre [|o old] Hlen; try done. cbn [fill].
  rewrite decide_True by (rewrite !length_app; cbn; lia).
  replace (<[length pre:=v]> (pre ++ (o :: old) ++ post)) with ((pre ++ [v]) ++ old ++ post).
  - replace (S (length pre)) with (length (pre ++ [v])) by (rewrite length_app; cbn; lia).
    rewrite IH by (cbn in Hlen; lia). by rewrite <- (assoc_L (++)).
  - rewrite <- (assoc_L (++)). cbn. replace (length pre) with (length pre + 0)%nat at 1 by lia.
    by rewrite insert_app_r.
Qed.

(** A row followed by the padding. *)
Definition padded (row : Encoding → list Z) (max_len : nat) (e : Encoding) : list Z :=
  row e ++ replicate (max_len - length (row e)) 0.
Lemma padded_length row max_len e : (length (row e) ≤ max_len)%nat → length (padded row max_len e) = max_len.
Proof. intros Hl. unfold padded. rewrite length_app, length_replicate. lia. Qed.
Lemma fill_rows_padded row max_len encodings : Forall (λ e, length (row e) ≤ max_len)%nat encodings → ∀ i pre,
  length pre = (i * max_len)%nat →
  fill_rows row max_len i encodings (pre ++ replicate (length encodings * max_len) 0) = Some (pre ++ concat (map (padded row max_len) encodings)).
Proof.
  induction 1 as [|e encodings He Hall IH]; intros i pre Hpre; cbn [fill_rows length map concat].
  - done.
  - replace (S (length encodings) * max_len)%nat with (length (row e) + ((max_len - length (row e)) + length encodings * max_len))%nat by lia.
    rewrite !replicate_add, <- Hpre, fill_middle by by rewrite length_replicate. cbn [mbind option_bind].
    replace (pre ++ row e ++ replicate (max_len - length (row e)) 0 ++ replicate (length encodings * max_len) 0)
      with ((pre ++ padded row max_len e) ++ replicate (length encodings * max_len) 0) by (unfold padded; by rewrite <- !(assoc_L (++))).
    rewrite (IH (S i)); [by rewrite <- (assoc_L (++))|]. rewrite length_app, padded_length by done. lia.
Qed.
Lemma tensor_padded row encodings : Forall (λ e, length (row e) ≤ max_len_of encodings)%nat encodings →
  tensor_of row encodings = Some (concat (map (padded row (max_len_of encodings)) encodings)).
Proof. intros Hall. unfold tensor_of. by apply (fill_rows_padded row _ encodings Hall 0 []). Qed.
Lemma max_len_ge encodings e : e ∈ encodings → (length (en_ids e) ≤ max_len_of encodings)%nat.
Proof.
  unfold max_len_of. induction encodings as [|x encodings IH]; [by intros ?%elem_of_nil|]. cbn.
  intros [->|Hin]%elem_of_cons; [lia|]. specialize (IH Hin). lia.
Qed.

Lemma logit_in_range logits stride i pairs : (0 < pairs)%nat → 0 ≤ stride → stride * (Z.of_nat i + Z.of_nat pairs) ≤ len logits →
  is_Some (logit_of logits stride i).
Proof.
  intros Hp Hs Hl. unfold logit_of, f64_at, len in *.
  destruct (Z.eqb_spec stride 0); [eauto|]. destruct (Z.eqb_spec stride 1) as [->|].
  - destruct (lookup_lt_is_Some_2 logits i) as [x ->]; [lia|]. cbn. eauto.
  - destruct (Z.eqb_spec stride 2) as [->|]; [|eauto].
    destruct (lookup_lt_is_Some_2 logits (i * 2 + 1)) as [x ->]; [lia|]. destruct (lookup_lt_is_Some_2 logits (i * 2)) as [y ->]; [lia|].
    cbn. eauto.
Qed.
Lemma scores_in_order logits stride pairs : 0 ≤ stride → ∀ i, stride * (Z.of_nat i + Z.of_nat pairs) ≤ len logits →
  ∃ r, scores_from logits stride i pairs = Some r
    ∧ ∀ scores, r = Ok scores → map rks_index scores = map Z.of_nat (seq i pairs).
Proof.
  intros Hs. induction pairs as [|pairs IH]; intros i Hl; cbn [scores_from seq map].
  - eexists. split; [done|]. by intros scores [= <-].
  - destruct (logit_in_range logits stride i (S pairs)) as [[logit|e] ->]; [lia..| |]; cbn [mbind option_bind].
    + destruct (IH (S i)) as (r & -> & Hr); [lia|]. cbn. eexists. split; [done|]. destruct r as [rest|]; [|done].
      intros scores [= <-]. cbn. by rewrite Hr.
    + eexists. by split.
Qed.

Lemma logits_cover (logits : list spec_float) (batch_size : nat) :
  0 ≤ len logits / Z.of_nat batch_size ∧ len logits / Z.of_nat batch_size * (Z.of_nat 0 + Z.of_nat batch_size) ≤ len logits.
Proof.
  pose proof (len_nonneg logits). destruct (decide (batch_size = 0%nat)) as [->|Hb]; [rewrite Zdiv_0_r; lia|].
  pose proof (Z.mul_div_le (len logits) (Z.of_nat batch_size)). split; [apply Z.div_pos; lia|lia].
Qed.
Lemma io_bind_eq {A B} (m : io A) (k : A → io B) d :
  (m ≫= k) d = match m d with (Ok a, d') => k a d' | (Err e, d') => (Err e, d') end.
Proof. reflexivity. Qed.
Lemma lib_or_eq {A} f (call : nat → result string A) d :
  lib_or f call d = (map_err f (call (dk_calls d)), next_call d).
Proof. reflexivity. Qed.

(** Inference scores every document. With an encoding for each document
    whose parts have the same length, [rerank_sync] runs the session on the
    encodings row by row, each padded with zeros to the longest, never reads
    or writes out of range, whatever the session answers, and a successful
    answer carries one score for each document, in their order, or is empty
    when there is nothing to score. *)
Theorem inference_scores_every_document inner query documents d
    (Hencode : ∀ n encodings, encode_batch n (on_tokenizer inner) query documents = Ok encodings → length encodings = length documents
       ∧ Forall (λ e, length (en_attention_mask e) = length (en_ids e) ∧ length (en_type_ids e) = length (en_ids e)) encodings) :
  (∀ encodings n, encode_batch n (on_tokenizer inner) query documents = Ok encodings →
     let rows row := concat (map (padded row (max_len_of encodings)) encodings) in
     tensors_of (on_has_token_type_ids inner) encodings
     = Some {| tn_shape := (len encodings, Z.of_nat (max_len_of encodings)); tn_input_ids := rows en_ids; tn_attention_mask := rows en_attention_mask;
               tn_token_type_ids := if on_has_token_type_ids inner then Some (rows en_type_ids) else None |})
  ∧ (∀ logits batch_size, is_Some (scores_of logits batch_size))
  ∧ match rerank_sync inner query documents d with
    | (Ok scores, _) => scores = [] ∨ map rks_index scores = map Z.of_nat (seq 0 (length documents))
    | (Err e, _) => True
    end.
Proof.
  assert (Htensors : ∀ encodings n, encode_batch n (on_tokenizer inner) query documents = Ok encodings →
    let rows row := concat (map (padded row (max_len_of encodings)) encodings) in
    tensors_of (on_has_token_type_ids inner) encodings
    = Some {| tn_shape := (len encodings, Z.of_nat (max_len_of encodings)); tn_input_ids := rows en_ids; tn_attention_mask := rows en_attention_mask;
              tn_token_type_ids := if on_has_token_type_ids inner then Some (rows en_type_ids) else None |}).
  { intros encodings n [_ Hall]%Hencode. rewrite list.Forall_forall in Hall.
    assert (Hrow : ∀ row, (∀ e, e ∈ encodings → length (row e) = length (en_ids e)) →
      tensor_of row encodings = Some (concat (map (padded row (max_len_of encodings)) encodings))).
    { intros row Hrow. apply tensor_padded, list.Forall_forall. intros e He. rewrite Hrow by done. by apply max_len_ge. }
    unfold tensors_of. rewrite !Hrow by (done || intros e He; by apply Hall). cbn [mbind option_bind].
    by destruct (on_has_token_type_ids inner). }
  split; [exact Htensors|]. split.
  { intros logits batch_size. pose proof (logits_cover logits batch_size) as [Hs Hl].
    destruct (scores_in_order logits _ batch_size Hs 0 Hl) as (r & Hr & _). by exists r. }
  unfold rerank_sync. case_bool_decide; [by left|].
  rewrite io_bind_eq, lib_or_eq. set (n := dk_calls d).
  destruct (encode_batch n (on_tokenizer inner) query documents) as [encodings|e] eqn:Henc; cbn [map_err]; [|done].
  destruct (max_len_of encodings =? 0)%nat; [by left|]. rewrite io_bind_eq. unfold io_lift at 1. destruct (bail_if _ _) as [[]|e] eqn:Hsize; [|done].
  rewrite io_bind_eq. rewrite (Htensors encodings n Henc). unfold io_lift at 1. cbn [ok_or]. rewrite io_bind_eq, lib_or_eq.
  set (n' := dk_calls _). set (tensors := {| tn_shape := _ |}).
  destruct (session_run n' (on_session inner) tensors) as [logits|e] eqn:Hrun; cbn [map_err]; [|done].
  rewrite io_bind_eq.
  pose proof (logits_cover logits (length encodings)) as [Hs Hl].
  destruct (scores_in_order logits _ (length encodings) Hs 0 Hl) as (r & Hr & Hok). unfold scores_of. rewrite Hr. unfold io_lift. cbn [ok_or].
  destruct r as [scores|e]; [|done].
  right. rewrite Hok by done. by destruct (Hencode n encodings Henc) as [-> _].
Qed.
End inference.

(** ** Witnesses *)

Section witness.
#[local] Instance PlainHash : Sha256Lib := { sha256 l := l }.
#[local] Instance NoDisk : DiskWorld :=
  {| dw_failure _ := None; dw_home := None; dw_suffix _ := "0"; dw_listing _ l := l; dw_get _ _ := Err "offline" |}.
#[local] Instance CudaBuild : RerankerFeatures := { feature_reranker := true; feature_reranker_cuda := true }.
(** A GPU that is not there: the CUDA session cannot be built, the CPU one
    scores each pair 0 or 1. *)
#[local] Instance NoGpu : OnnxLib :=
  {| Session := RerankerExecutionProvider.t; Tokenizer := unit; session_builder _ := Ok (); cuda_provider _ := Err "no device";
     commit_from_file _ _ p := Ok p; session_inputs _ := ["input_ids"; "attention_mask"];
     session_run _ _ tensors := Ok (map f32_of_Z (take (Z.to_nat (fst (tn_shape tensors))) (tn_input_ids tensors)));
     tokenizer_from_file _ _ := Ok (); get_truncation _ := None; with_truncation _ _ := Ok ();
     encode_batch _ _ query documents := Ok (map (λ d, let ids := map (λ c, Z.of_N (byte_val c)) (bytes d) in
       {| en_ids := ids; en_attention_mask := map (λ _, 1) ids; en_type_ids := map (λ _, 0) ids |}) documents);
     ort_dylib_path := None; current_exe := None; preload_dylib _ _ := Ok ();
     preload_cuda_dylibs _ _ := Ok (); commit_environment _ _ := Some (Ok true); joined _ := Ok (); exp_f64 _ := f1 |}.
Definition direct_model (p : RerankerExecutionProvider.t) : RerankerConfig :=
  with_execution_provider p (with_model_path "/models/m.onnx" reranker_config_default).
Definition no_calls : Disk := {| dk_files := ∅; dk_calls := 0 |}.

Definition starts_on (requested p : RerankerExecutionProvider.t) : bool :=
  match fst (initialize (direct_model requested) no_calls) with
  | Ok r => bool_decide (on_execution_provider (rs_inner r) = p)
  | Err _ => false
  end.
Definition ends_at_once (requested : RerankerExecutionProvider.t) : bool :=
  match fst (initialize (direct_model requested) no_calls) with Ok _ => false | Err e => final_error e end.
Definition small_reranker : OnnxReranker :=
  {| on_session := RerankerExecutionProvider.Cpu; on_tokenizer := (); on_execution_provider := RerankerExecutionProvider.Cpu;
     on_has_token_type_ids := true |}.
Lemma inference_scores_every_document_witness :
  ∃ scores d', rerank_sync small_reranker "q" ["a"; "bcd"; ""] no_calls = (Ok scores, d') ∧ map rks_index scores = [0; 1; 2].
Proof.
  pose proof (inference_scores_every_document small_reranker "q" ["a"; "bcd"; ""] no_calls) as Hi.
  destruct Hi as (_ & _ & Hr).
  { intros n encodings [= <-]. split; [reflexivity|]. repeat constructor. }
  destruct (rerank_sync small_reranker "q" ["a"; "bcd"; ""] no_calls) as [[scores|e] d'] eqn:E; [|vm_compute in E; discriminate E].
  exists scores, d'. split; [reflexivity|]. destruct Hr as [->|Hr]; [vm_compute in E; discriminate E|exact Hr].
Defined.
End witness.
