(* ===== verification/HttpTransport.v ===== *)
(** * HttpTransport: the HTTP front of the server, [src/src/http_transport.rs]

    What a request passes before it reaches the MCP service: the body limit,
    the exact path, the bearer token and the principal of a trusted proxy;
    and the capped session manager as a step relation, whose steps are the
    calls to the inner session manager and the sections under the mutex of
    the activity map. The inner manager is of another package; of it the model
    uses that a call is atomic, that [create_session] makes an identifier
    that was never used, and that a closed session is gone whatever the call
    answers. *)
From Stdlib Require Import ZArith Lia.
From stdpp Require Import base list option strings gmap sets fin_maps relations.
From S2P Require Import RerankerModels Prelude Text Errors Types Membership ServerTypes Context Store EmbeddingSettings Config Settings.

(** ** The path of a request *)

Record HttpAuthRequirements := {
  har_bearer_token : string;
  har_trusted_proxy_header : option string;
}.
(** [Next] is the inner service. *)
Inductive Passed := Unauthorized | Next.
Definition require_http_auth (requirements : HttpAuthRequirements) (headers : Headers) : Passed :=
  if negb (bearer_matches headers (har_bearer_token requirements)) then Unauthorized
  else match har_trusted_proxy_header requirements with
       | Some header_name => if is_none (trusted_proxy_principal headers header_name) then Unauthorized else Next
       | None => Next
       end.

(** The request as the router sees it: the path, the declared length of the
    body, the headers. *)
Record HttpRequest := {
  hr_path : string;
  hr_content_length : option Z;
  hr_headers : Headers;
}.
Module HttpOutcome.
Inductive t := PayloadTooLarge | NotFound | Unauthorized | Service.
#[global] Instance eq_dec : EqDecision t.
Proof. solve_decision. Defined.
End HttpOutcome.

Definition http_auth_requirements (config : ServerConfig) : option HttpAuthRequirements :=
  token ← sv_http_auth_token config;
  Some {| har_bearer_token := token;
          har_trusted_proxy_header := if bool_decide (sv_http_principal_mode config = HttpPrincipalMode.TrustedProxy)
                                      then Some (sv_http_principal_header config) else None |}.
(** The layers of [build_router], from the outside in. *)
Definition route (config : ServerConfig) (request : HttpRequest) : HttpOutcome.t :=
  if match hr_content_length request with Some length => sv_max_body_bytes config <? length | None => false end
  then HttpOutcome.PayloadTooLarge
  else if negb (String.eqb (hr_path request) (sv_path config)) then HttpOutcome.NotFound
  else match http_auth_requirements config with
       | Some requirements => match require_http_auth requirements (hr_headers request) with
                              | Unauthorized => HttpOutcome.Unauthorized
                              | Next => HttpOutcome.Service
                              end
       | None => HttpOutcome.Service
       end.
Definition build_router `{Render} (authority : string → bool) (config : ServerConfig) : result EngineError.t (HttpRequest → HttpOutcome.t) :=
  _ ← validate_server_config authority config;
  Ok (route config).

(** ** The capped session manager *)

Definition SessionId : Type := string.
Record SessionActivity := mkSessionActivity { sa_last_seen : Z; sa_active_streams : Z }.
Definition activity_at (now : Z) : SessionActivity := mkSessionActivity now 0.

Module CappedSessionManagerError.
Inductive t := Capacity (max_sessions : Z) | Inner (error : string).
End CappedSessionManagerError.

Inductive admission := Create | Restore (id : SessionId).
(** Where a call is: waiting for [create_lock], holding it, knowing that the
    session to restore is absent, past [ensure_capacity], before the entry in
    the activity map of a new session; before the [touch] of a restored
    session that is there (with the lock) or of an answered call; with a new
    stream, before [track_stream]; after the inner [close_session]. The reaper:
    with the first clock reading, before the next session of its list, with
    the clock reading of the second look, before the inner [close_session],
    after it. *)
Inductive call :=
| Waiting (a : admission) | Locked (a : admission) | Absent (id : SessionId) | Accepted (a : admission) | Registering (id : SessionId)
| Present (id : SessionId) | Touching (id : SessionId) | Tracking (id : SessionId) | Closed (id : SessionId)
| Sweeping (now : Z) | Reaping (stale : list SessionId) | Rechecking (now : Z) (id : SessionId) (stale : list SessionId)
| ReapClosing (id : SessionId) (stale : list SessionId) | ReapRemoving (id : SessionId) (stale : list SessionId).
#[export] Instance admission_eq_dec : EqDecision admission.
Proof. solve_decision. Defined.
#[export] Instance call_eq_dec : EqDecision call.
Proof. solve_decision. Defined.
Definition holds_lock (q : call) : bool :=
  match q with Locked _ | Absent _ | Accepted _ | Registering _ | Present _ => true | _ => false end.

(** The live [ActivityStream]s are [ss_streams]; [ss_used] is history, the
    identifiers that were made or closed so far. *)
Record Sessions := mkSessions {
  ss_sessions : gset SessionId;
  ss_activity : gmap SessionId SessionActivity;
  ss_create_lock : option nat;
  ss_streams : gmap nat SessionId;
  ss_clock : Z;
  ss_calls : gmap nat call;
  ss_used : gset SessionId }.
Definition no_sessions : Sessions := mkSessions ∅ ∅ None ∅ 0 ∅ ∅.

Definition set_activity (f : gmap SessionId SessionActivity → gmap SessionId SessionActivity) (s : Sessions) : Sessions :=
  mkSessions (ss_sessions s) (f (ss_activity s)) (ss_create_lock s) (ss_streams s) (ss_clock s) (ss_calls s) (ss_used s).
Definition set_lock (l : option nat) (s : Sessions) : Sessions :=
  mkSessions (ss_sessions s) (ss_activity s) l (ss_streams s) (ss_clock s) (ss_calls s) (ss_used s).
Definition set_streams (f : gmap nat SessionId → gmap nat SessionId) (s : Sessions) : Sessions :=
  mkSessions (ss_sessions s) (ss_activity s) (ss_create_lock s) (f (ss_streams s)) (ss_clock s) (ss_calls s) (ss_used s).
Definition set_clock (now : Z) (s : Sessions) : Sessions :=
  mkSessions (ss_sessions s) (ss_activity s) (ss_create_lock s) (ss_streams s) now (ss_calls s) (ss_used s).
Definition set_call (c : nat) (q : option call) (s : Sessions) : Sessions :=
  mkSessions (ss_sessions s) (ss_activity s) (ss_create_lock s) (ss_streams s) (ss_clock s) (partial_alter (λ _, q) c (ss_calls s)) (ss_used s).
Definition issue (id : SessionId) (s : Sessions) : Sessions :=
  mkSessions ({[id]} ∪ ss_sessions s) (ss_activity s) (ss_create_lock s) (ss_streams s) (ss_clock s) (ss_calls s) ({[id]} ∪ ss_used s).
(** The inner [close_session]: whatever it answers, the session is gone. *)
Definition inner_close (id : SessionId) (s : Sessions) : Sessions :=
  mkSessions (ss_sessions s ∖ {[id]}) (ss_activity s) (ss_create_lock s) (ss_streams s) (ss_clock s) (ss_calls s) ({[id]} ∪ ss_used s).
(** A call ends, and drops the guard of [create_lock] if it has it. *)
Definition finish (c : nat) (q : call) (s : Sessions) : Sessions :=
  set_call c None (if holds_lock q then set_lock None s else s).

Section manager.
Context (max_sessions idle_timeout : Z).

Definition ensure_capacity (s : Sessions) : result CappedSessionManagerError.t unit :=
  bail_if (max_sessions <=? Z.of_nat (size (ss_sessions s))) (CappedSessionManagerError.Capacity max_sessions).
Definition register (id : SessionId) (s : Sessions) : Sessions := set_activity <[id := activity_at (ss_clock s)]> s.
Definition touch (id : SessionId) (s : Sessions) : Sessions :=
  set_activity (alter (λ a, mkSessionActivity (ss_clock s) (sa_active_streams a)) id) s.
Definition track_stream (id : SessionId) (handle : nat) (s : Sessions) : Sessions :=
  let activity := default (activity_at (ss_clock s)) (ss_activity s !! id) in
  set_streams <[handle := id]>
    (set_activity <[id := mkSessionActivity (ss_clock s) (Z.min usize_max (sa_active_streams activity + 1))]> s).
(** [poll_next] of an [ActivityStream] that has an item. *)
Definition poll_item (handle : nat) (s : Sessions) : Sessions :=
  match ss_streams s !! handle with Some id => touch id s | None => s end.
Definition drop_stream (handle : nat) (s : Sessions) : Sessions :=
  match ss_streams s !! handle with
  | Some id => set_streams (delete handle)
                 (set_activity (alter (λ a, mkSessionActivity (ss_clock s) (Z.max 0 (sa_active_streams a - 1))) id) s)
  | None => s
  end.
Definition is_stale (now : Z) (activity : SessionActivity) : bool :=
  (sa_active_streams activity =? 0) && (idle_timeout <=? Z.max 0 (now - sa_last_seen activity)).
Definition still_stale (now : Z) (id : SessionId) (s : Sessions) : bool :=
  match ss_activity s !! id with Some activity => is_stale now activity | None => false end.
Definition stale_ids (now : Z) (s : Sessions) : gset SessionId := dom (filter (λ '(_, activity), is_stale now activity = true) (ss_activity s)).

(** Whether the service restores sessions from a store of its own. *)
Context (restores : bool).
(** A client learns an identifier when the call that makes it returns; one
    that is restored is known before. *)
Definition known (id : SessionId) (s : Sessions) : Prop := restores = true ∨ ∀ c, ss_calls s !! c ≠ Some (Registering id).

Inductive step : Sessions → Sessions → Prop :=
(** [create_session] and [restore_session]. *)
| step_admit a c s : ss_calls s !! c = None → (if a is Restore _ then restores = true else True) → step s (set_call c (Some (Waiting a)) s)
| step_lock a c s : ss_calls s !! c = Some (Waiting a) → ss_create_lock s = None → step s (set_lock (Some c) (set_call c (Some (Locked a)) s))
| step_has_session id c s : ss_calls s !! c = Some (Locked (Restore id)) →
    step s (set_call c (Some (if bool_decide (id ∈ ss_sessions s) then Present id else Absent id)) s)
| step_present id c s : ss_calls s !! c = Some (Present id) → step s (finish c (Present id) (touch id s))
| step_capacity_create c s : ss_calls s !! c = Some (Locked Create) →
    step s (if ensure_capacity s is Ok _ then set_call c (Some (Accepted Create)) s else finish c (Locked Create) s)
| step_capacity_restore id c s : ss_calls s !! c = Some (Absent id) →
    step s (if ensure_capacity s is Ok _ then set_call c (Some (Accepted (Restore id))) s else finish c (Absent id) s)
| step_create id c s : ss_calls s !! c = Some (Accepted Create) → id ∉ ss_used s → step s (set_call c (Some (Registering id)) (issue id s))
| step_restore id c s : ss_calls s !! c = Some (Accepted (Restore id)) → step s (set_call c (Some (Registering id)) (issue id s))
| step_register id c s : ss_calls s !! c = Some (Registering id) → step s (finish c (Registering id) (register id s))
(** A failure of the inner manager, or a request that is dropped at an
    [await]. *)
| step_give_up q c s : ss_calls s !! c = Some q → match q with Waiting _ | Locked _ | Absent _ | Accepted _ => True | _ => False end →
    step s (finish c q s)
(** [initialize_session], [has_session] and [accept_message]: the inner call,
    then the [touch]. *)
| step_answer id c s : ss_calls s !! c = None → known id s → id ∈ ss_sessions s → step s (set_call c (Some (Touching id)) s)
| step_touch id c s : ss_calls s !! c = Some (Touching id) → step s (finish c (Touching id) (touch id s))
(** [create_stream], [create_standalone_stream] and [resume]. There are fewer
    live streams than a [usize] counts. *)
| step_open id c s : ss_calls s !! c = None → known id s → id ∈ ss_sessions s → step s (set_call c (Some (Tracking id)) s)
| step_track id handle c s : ss_calls s !! c = Some (Tracking id) → ss_streams s !! handle = None → Z.of_nat (size (ss_streams s)) < usize_max →
    step s (finish c (Tracking id) (track_stream id handle s))
| step_poll handle s : step s (poll_item handle s)
| step_drop handle s : step s (drop_stream handle s)
(** [close_session]: the inner call, which may fail or be given up once the
    session is gone, then the removal of the entry. *)
| step_close id c s : ss_calls s !! c = None → step s (set_call c (Some (Closed id)) (inner_close id s))
| step_close_failed id s : step s (inner_close id s)
| step_closed id c s : ss_calls s !! c = Some (Closed id) → step s (finish c (Closed id) (set_activity (delete id) s))
(** [reap_stale]: the map is iterated in any order. *)
| step_sweep c s : ss_calls s !! c = None → step s (set_call c (Some (Sweeping (ss_clock s))) s)
| step_collect now stale c s : ss_calls s !! c = Some (Sweeping now) → stale ≡ₚ elements (stale_ids now s) → step s (set_call c (Some (Reaping stale)) s)
| step_reaped c s : ss_calls s !! c = Some (Reaping []) → step s (finish c (Reaping []) s)
| step_next id stale c s : ss_calls s !! c = Some (Reaping (id :: stale)) → step s (set_call c (Some (Rechecking (ss_clock s) id stale)) s)
| step_recheck now id stale c s : ss_calls s !! c = Some (Rechecking now id stale) →
    step s (set_call c (Some (if still_stale now id s then ReapClosing id stale else Reaping stale)) s)
| step_reap_close id stale c s : ss_calls s !! c = Some (ReapClosing id stale) →
    step s (set_call c (Some (ReapRemoving id stale)) (inner_close id s))
| step_reap_remove id stale c s : ss_calls s !! c = Some (ReapRemoving id stale) →
    step s (set_call c (Some (Reaping stale)) (set_activity (delete id) s))
| step_tick now s : ss_clock s ≤ now → step s (set_clock now s).

Definition reachable (s : Sessions) : Prop := rtc step no_sessions s.

(** ** The cap *)

Lemma set_call_lookup c q s c' : ss_calls (set_call c q s) !! c' = if decide (c = c') then q else ss_calls s !! c'.
Proof. cbn. case_decide as E; [subst; by rewrite lookup_partial_alter_eq|by rewrite lookup_partial_alter_ne]. Qed.
Lemma finish_lookup c q s c' : ss_calls (finish c q s) !! c' = if decide (c = c') then None else ss_calls s !! c'.
Proof. unfold finish. rewrite set_call_lookup. by destruct (holds_lock q). Qed.
Lemma ensure_capacity_Ok s u : ensure_capacity s = Ok u → Z.of_nat (size (ss_sessions s)) < max_sessions.
Proof. unfold ensure_capacity. rewrite bail_if_Ok. lia. Qed.

Record capped (s : Sessions) : Prop := {
  capped_lock : ∀ c q, ss_calls s !! c = Some q → holds_lock q = true → ss_create_lock s = Some c;
  capped_size : Z.of_nat (size (ss_sessions s)) ≤ max_sessions;
  capped_admitted : ∀ c a, ss_calls s !! c = Some (Accepted a) → Z.of_nat (size (ss_sessions s)) < max_sessions;
}.
Lemma capped_move s c q : capped s → (∀ q', q = Some q' → holds_lock q' = true → ss_create_lock s = Some c) →
  (∀ a, q = Some (Accepted a) → Z.of_nat (size (ss_sessions s)) < max_sessions) → capped (set_call c q s).
Proof.
  intros [Hl Hs Ha] Hq Hadm. split; [|done|].
  - intros c' q'. rewrite set_call_lookup. case_decide; [subst; eauto|apply Hl].
  - intros c' a. rewrite set_call_lookup. case_decide; [subst; eauto|apply Ha].
Qed.
Lemma capped_plain s c q : holds_lock q = false → capped s → capped (set_call c (Some q) s).
Proof. intros Hq Hs. apply capped_move; [done|congruence|]. intros a [= ->]. done. Qed.
Lemma capped_finish s c q : capped s → ss_calls s !! c = Some q → capped (finish c q s).
Proof.
  intros Hs Hq. unfold finish. destruct (holds_lock q) eqn:Hh; [|by apply capped_move].
  pose proof (capped_lock s Hs c q Hq Hh) as Hlock. destruct Hs as [Hl Hsz Ha]. split; [|done|].
  - intros c' q'. rewrite set_call_lookup. case_decide; [done|]. intros Hc Hh'. cbn in Hc. specialize (Hl c' q' Hc Hh'). congruence.
  - intros c' a. rewrite set_call_lookup. case_decide; [done|]. apply Ha.
Qed.
Lemma capped_calls s s' : ss_calls s' = ss_calls s → ss_create_lock s' = ss_create_lock s →
  (size (ss_sessions s') ≤ size (ss_sessions s))%nat → capped s → capped s'.
Proof.
  intros Hc Hl Hsz [H1' H2' H3']. split; [rewrite Hc, Hl; done|lia|]. intros c a. rewrite Hc. intros Hq%H3'. lia.
Qed.
Lemma inner_close_size id s : (size (ss_sessions (inner_close id s)) ≤ size (ss_sessions s))%nat.
Proof. apply subseteq_size. cbn. set_solver. Qed.
Lemma capped_issue s c a id : capped s → ss_calls s !! c = Some (Accepted a) → capped (set_call c (Some (Registering id)) (issue id s)).
Proof.
  intros Hs Hc. pose proof (capped_lock s Hs c _ Hc eq_refl) as Hlock. pose proof (capped_admitted s Hs c a Hc) as Hlt.
  destruct Hs as [Hl Hsz Ha]. assert (Hsize : (size ({[id]} ∪ ss_sessions s) ≤ S (size (ss_sessions s)))%nat).
  { rewrite size_union_alt, size_singleton. pose proof (subseteq_size (ss_sessions s ∖ {[id]}) (ss_sessions s)). set_solver by lia. }
  split.
  - intros c' q'. rewrite set_call_lookup. case_decide; [by intros [= <-] _; subst|apply Hl].
  - cbn. lia.
  - intros c' a'. rewrite set_call_lookup. case_decide; [done|]. intros Hc'. cbn in Hc'. specialize (Hl c' _ Hc' eq_refl). congruence.
Qed.
Lemma capped_take_lock s c a : capped s → ss_create_lock s = None → capped (set_lock (Some c) (set_call c (Some (Locked a)) s)).
Proof.
  intros [Hl Hsz Ha] Hnone. split; [|done|].
  - intros c' q'. cbn [ss_calls set_lock]. rewrite set_call_lookup. case_decide; [by subst|]. intros Hc Hh. specialize (Hl c' q' Hc Hh). congruence.
  - intros c' a'. cbn [ss_calls set_lock]. rewrite set_call_lookup. case_decide; [done|]. apply Ha.
Qed.
(** A call that has the lock goes on. *)
Lemma capped_go_on s c q q' : capped s → ss_calls s !! c = Some q → holds_lock q = true →
  (∀ a, q' = Accepted a → Z.of_nat (size (ss_sessions s)) < max_sessions) → capped (set_call c (Some q') s).
Proof.
  intros Hs Hc Hh Ha. apply capped_move; [done| |].
  - intros _ _ _. by eapply capped_lock.
  - intros a [= ->]. by eapply Ha.
Qed.
Lemma capped_capacity s c q a : capped s → ss_calls s !! c = Some q → holds_lock q = true →
  capped (if ensure_capacity s is Ok _ then set_call c (Some (Accepted a)) s else finish c q s).
Proof.
  intros Hs Hc Hh. destruct (ensure_capacity s) as [u|e] eqn:E; [|by apply capped_finish].
  eapply capped_go_on; [done..|]. intros _ _. by eapply ensure_capacity_Ok.
Qed.
Lemma step_capped s s' : step s s' → capped s → capped s'.
Proof.
  intros Hstep Hs. inversion Hstep; subst; try (apply capped_finish; [|done]); try done; try (by apply capped_plain);
    try (by apply (capped_calls s)); try (apply capped_plain; [done|]; apply (capped_calls s); [done..|apply inner_close_size || done|done]).
  - by apply capped_take_lock.
  - eapply capped_go_on; [done..|]. intros a. by case_bool_decide.
  - by apply capped_capacity.
  - by apply capped_capacity.
  - by eapply capped_issue.
  - by eapply capped_issue.
  - unfold poll_item. destruct (ss_streams s !! handle); [by apply (capped_calls s)|done].
  - unfold drop_stream. destruct (ss_streams s !! handle); [by apply (capped_calls s)|done].
  - apply (capped_calls s); [done..|apply inner_close_size|done].
  - by apply capped_plain; [destruct (still_stale now id s)|].
Qed.

(** ** Every session is watched, every stream counted *)

Definition live (id : SessionId) (s : Sessions) : Z := Z.of_nat (size (filter (λ '(_, i), i = id) (ss_streams s))).
Definition entered (id : SessionId) (s : Sessions) : Prop :=
  ∃ activity, ss_activity s !! id = Some activity ∧ sa_active_streams activity = live id s.
(** What holds of a call under way, without restoring. *)
Definition call_ok (s : Sessions) (q : call) : Prop :=
  match q with
  | Tracking id => id ∈ ss_used s ∧ ∀ c, ss_calls s !! c ≠ Some (Registering id)
  | Closed id | ReapRemoving id _ => id ∈ ss_used s ∧ id ∉ ss_sessions s
  | Registering id => id ∈ ss_used s ∧ live id s = 0
  | Waiting (Restore _) | Locked (Restore _) | Accepted (Restore _) | Absent _ | Present _ => False
  | _ => True
  end.
Definition watched (s : Sessions) : Prop :=
  ss_sessions s ⊆ ss_used s
  ∧ (∀ handle id, ss_streams s !! handle = Some id → id ∈ ss_used s)
  ∧ (∀ c q, ss_calls s !! c = Some q → call_ok s q)
  ∧ (∀ id, id ∈ ss_sessions s → (∃ c, ss_calls s !! c = Some (Registering id)) ∨ entered id s).

Lemma live_insert id handle s : ss_streams s !! handle = None →
  ∀ i, Z.of_nat (size (filter (λ '(_, i'), i' = i) (<[handle := id]> (ss_streams s)))) = live i s + (if decide (i = id) then 1 else 0).
Proof.
  intros Hh i. unfold live. case_decide as E; [subst i|].
  - rewrite map_filter_insert_True by done. rewrite map_size_insert_None; [lia|]. apply map_lookup_filter_None. by left.
  - rewrite map_filter_insert_False by congruence. rewrite delete_id by done. lia.
Qed.
Lemma live_delete id handle s : ss_streams s !! handle = Some id →
  ∀ i, Z.of_nat (size (filter (λ '(_, i'), i' = i) (delete handle (ss_streams s)))) = live i s - (if decide (i = id) then 1 else 0).
Proof.
  intros Hh i. unfold live. rewrite map_filter_delete. case_decide as E; [subst i|].
  - rewrite map_size_delete_Some; [|exists id; by apply map_lookup_filter_Some].
    pose proof (map_size_ne_0_lookup_2 (filter (λ '(_, i'), i' = id) (ss_streams s)) handle) as Hne.
    assert (size (filter (λ '(_, i'), i' = id) (ss_streams s)) ≠ 0%nat) by (apply Hne; exists id; by apply map_lookup_filter_Some). lia.
  - rewrite delete_id; [lia|]. apply map_lookup_filter_None. right. intros i' Hi'. congruence.
Qed.

Lemma watched_move s c q : watched s → (∀ id, q ≠ Some (Registering id)) →
  (∀ id, ss_calls s !! c = Some (Registering id) → entered id s) → (∀ q', q = Some q' → call_ok s q') → watched (set_call c q s).
Proof.
  intros (Hu & Hh & Hc & He) Hq Hreg Hok.
  assert (Hmono : ∀ q', call_ok s q' → call_ok (set_call c q s) q').
  { intros [[]|[]| |[]| | | | | | | | | |]; try done. intros [Hi Hn]. split; [done|]. intros c'. rewrite set_call_lookup.
    case_decide; [apply Hq|apply Hn]. }
  split_and!; [done|done| |].
  - intros c' q'. rewrite set_call_lookup. case_decide; [intros ->; by apply Hmono, Hok|intros ?; by eapply Hmono, Hc].
  - intros id [(c' & Hc')|Hid]%He; [|by right]. destruct (decide (c = c')) as [<-|Hne]; [right; by apply Hreg|].
    left. exists c'. by rewrite set_call_lookup, decide_False.
Qed.
Lemma watched_finish s c q : watched s → ss_calls s !! c = Some q → (∀ id, q = Registering id → entered id s) → watched (finish c q s).
Proof.
  intros Hs Hc Hreg. assert (Hw : watched (set_call c None s)).
  { apply watched_move; [done|done| |done]. intros id. rewrite Hc. intros [= ->]. by apply Hreg. }
  unfold finish. by destruct (holds_lock q).
Qed.
(** The next point of a call that is not making an identifier. *)
Lemma watched_next s c q : watched s → (∀ id, ss_calls s !! c ≠ Some (Registering id)) → (∀ id, q ≠ Registering id) → call_ok s q →
  watched (set_call c (Some q) s).
Proof.
  intros Hs Hc Hq Hok. apply watched_move; [done| | |].
  - intros id [= ->]. by eapply Hq.
  - intros id Hr. by apply Hc in Hr.
  - by intros q' [= <-].
Qed.
Lemma watched_activity f s : watched s → (∀ id, id ∈ ss_sessions s → entered id s → entered id (set_activity f s)) → watched (set_activity f s).
Proof. intros (Hu & Hh & Hc & He) Hf. split_and!; [done|done|done|]. intros id Hid. destruct (He id Hid); [by left|right; by apply Hf]. Qed.
Lemma watched_touch id s : watched s → watched (touch id s).
Proof.
  intros Hs. apply watched_activity; [done|]. intros i _ (a & Ha & Hl). unfold entered. cbn.
  destruct (decide (id = i)) as [<-|].
  - rewrite lookup_alter_eq, Ha. eexists. split; [reflexivity|done].
  - rewrite lookup_alter_ne by done. eauto.
Qed.
Lemma watched_forget id s : watched s → id ∉ ss_sessions s → watched (set_activity (delete id) s).
Proof.
  intros Hs Hn. apply watched_activity; [done|]. intros i Hi (a & Ha & Hl). exists a. cbn. rewrite lookup_delete_ne by set_solver. done.
Qed.
Lemma watched_close id s : watched s → watched (inner_close id s).
Proof.
  intros (Hu & Hh & Hc & He). split_and!; cbn.
  - set_solver.
  - intros h i Hi%Hh. set_solver.
  - intros c q Hq%Hc. destruct q as [[]|[]| |[]| | | | | | | | | |]; cbn in *; try done; destruct Hq; split; set_solver.
  - intros i Hi. apply He. set_solver.
Qed.
Lemma watched_track id handle c s : watched s → ss_calls s !! c = Some (Tracking id) → ss_streams s !! handle = None →
  Z.of_nat (size (ss_streams s)) < usize_max → watched (track_stream id handle s).
Proof.
  intros (Hu & Hh & Hc & He) Htr Hnone Hlt. destruct (Hc c _ Htr) as [Hused Hnoreg]. split_and!; [done| | |].
  - intros h i. cbn. intros [[_ <-]|[_ Hi]]%lookup_insert_Some; [done|by eapply Hh].
  - intros c' q Hq. specialize (Hc c' q Hq). destruct q as [[]|[]| |[]| | | | | | | | | |]; try done.
    destruct Hc as [? Hl]. split; [done|]. unfold live. cbn. rewrite live_insert by done. rewrite Hl, decide_False; [done|].
    intros ->. by eapply Hnoreg.
  - intros i Hi. destruct (He i Hi) as [?|(a & Ha & Hl)]; [by left|right]. unfold entered, live. cbn. rewrite live_insert by done.
    case_decide as E; [subst i|].
    + rewrite lookup_insert_eq. eexists. split; [reflexivity|]. cbn. rewrite Ha. cbn. rewrite Hl.
      assert (live id s ≤ Z.of_nat (size (ss_streams s))); [|lia]. unfold live. apply inj_le, map_size_filter.
    + rewrite lookup_insert_ne by done. rewrite Z.add_0_r. eauto.
Qed.
Lemma watched_drop handle s : watched s → watched (drop_stream handle s).
Proof.
  intros (Hu & Hh & Hc & He). unfold drop_stream. destruct (ss_streams s !! handle) as [id|] eqn:Hid; [|done]. split_and!; [done| | |].
  - intros h i. cbn. intros [_ Hi]%lookup_delete_Some. by eapply Hh.
  - intros c' q Hq. specialize (Hc c' q Hq). destruct q as [[]|[]| |[]|i| | | | | | | | |]; try done.
    destruct Hc as [? Hl]. split; [done|]. pose proof (live_delete id handle s Hid i) as Hd. unfold live at 1. cbn. rewrite Hd.
    case_decide; unfold live in *; lia.
  - intros i Hi. destruct (He i Hi) as [?|(a & Ha & Hl)]; [by left|right]. pose proof (live_delete id handle s Hid i) as Hd.
    unfold entered. unfold live at 1. cbn. rewrite Hd. case_decide as E; [subst i|].
    + rewrite lookup_alter_eq, Ha. eexists. split; [reflexivity|]. cbn. rewrite Hl. unfold live in *. lia.
    + rewrite lookup_alter_ne by done. rewrite Z.sub_0_r. eauto.
Qed.
Lemma watched_register id c s : watched s → ss_calls s !! c = Some (Registering id) →
  watched (finish c (Registering id) (register id s)).
Proof.
  intros Hs Hc. assert (Hl : live id s = 0) by (destruct Hs as (_ & _ & Hq & _); by destruct (Hq c _ Hc)).
  assert (Hid : entered id (register id s)).
  { exists (activity_at (ss_clock s)). cbn. rewrite lookup_insert_eq. split; [done|]. symmetry. exact Hl. }
  apply watched_finish; [|done|by intros i [= <-]]. apply watched_activity; [done|]. intros i _ He. destruct (decide (id = i)) as [<-|Hne]; [done|].
  destruct He as (a & Ha & Hla). exists a. cbn. by rewrite lookup_insert_ne.
Qed.
Lemma watched_create id c s : watched s → ss_calls s !! c = Some (Accepted Create) → id ∉ ss_used s →
  watched (set_call c (Some (Registering id)) (issue id s)).
Proof.
  intros (Hu & Hh & Hc & He) Ha Hnew.
  assert (Hl : live id s = 0).
  { unfold live. replace (filter _ (ss_streams s)) with (∅ : gmap nat SessionId); [by rewrite map_size_empty|]. symmetry.
    apply map_empty. intros h. apply map_lookup_filter_None. right. intros i Hi ->. by apply Hh in Hi. }
  split_and!.
  - cbn. set_solver.
  - cbn. intros h i Hi%Hh. set_solver.
  - intros c' q. rewrite set_call_lookup. case_decide; [intros [= <-]; cbn; split; [set_solver|done]|].
    intros Hq%Hc. destruct q as [[]|[]| |[]| | | | | | | | | |]; cbn in *; try done; destruct Hq as [Hused Hq].
    + split; [set_solver|done].
    + split; [set_solver|]. intros c2. rewrite lookup_partial_alter. case_decide; [|apply Hq]. intros [= ->]. done.
    + split; set_solver.
    + split; set_solver.
  - intros i. cbn. intros [->%elem_of_singleton|Hi]%elem_of_union.
    + left. exists c. by rewrite lookup_partial_alter_eq.
    + destruct (He i Hi) as [[c' Hc']|?]; [left|by right]. exists c'. rewrite lookup_partial_alter_ne; [done|]. intros ->. congruence.
Qed.
Lemma watched_ok s c q : watched s → ss_calls s !! c = Some q → call_ok s q.
Proof. intros (_ & _ & Hc & _). apply Hc. Qed.
Ltac next := apply watched_next; [try done|intros ?; congruence|intros ?; try done|try done].
Lemma step_watched s s' : restores = false → step s s' → watched s → watched s'.
Proof.
  intros Hr Hstep Hs. inversion Hstep; subst; try (by next); try (by apply (watched_finish s)); try done;
    try match goal with H : ss_calls s !! _ = Some _ |- _ => pose proof (watched_ok s _ _ Hs H) as Hok; cbn in Hok; try done end.
  - destruct a as [|id]; [by next|congruence].
  - destruct a as [|id]; [|done]. apply (watched_next s c (Locked Create)); [done|intros ?; congruence|done|done].
  - destruct (ensure_capacity s); [by next|by apply (watched_finish s)].
  - by apply watched_create.
  - by apply watched_register.
  - apply (watched_finish s); [done|done|]. by intros id ->.
  - apply (watched_finish (touch id s)); [by apply watched_touch|done|done].
  - destruct H0 as [?|Hn]; [congruence|]. next. split; [|done]. destruct Hs as (Hu & _). by apply Hu.
  - apply (watched_finish (track_stream id handle s)); [by eapply watched_track|done|done].
  - unfold poll_item. destruct (ss_streams s !! handle); [by apply watched_touch|done].
  - by apply watched_drop.
  - apply watched_next; [by apply watched_close|cbn; congruence|done|cbn; split; set_solver].
  - by apply watched_close.
  - apply (watched_finish (set_activity (delete id) s)); [|done|done]. apply watched_forget; [done|apply Hok].
  - by destruct (still_stale now id s); next.
  - apply watched_next; [by apply watched_close|cbn; congruence|done|cbn; split; set_solver].
  - apply watched_next; [|cbn; congruence|done|done]. apply watched_forget; [done|apply Hok].
Qed.

Lemma reachable_invariant (P : Sessions → Prop) s : (∀ t t', step t t' → P t → P t') → P no_sessions → reachable s → P s.
Proof. intros HP H0' H. unfold reachable in H. induction H as [|? ? ? HR _ IH]; [done|]. apply IH. by eapply HP. Qed.
Lemma reachable_watched s : restores = false → reachable s → watched s.
Proof.
  intros Hr. apply reachable_invariant; [intros; by eapply step_watched|]. split_and!; cbn; [set_solver|done|done|set_solver].
Qed.
Lemma stale_is_unused s now id : watched s → id ∈ ss_sessions s → still_stale now id s = true →
  live id s = 0 ∧ ∃ activity, ss_activity s !! id = Some activity ∧ idle_timeout <= Z.max 0 (now - sa_last_seen activity).
Proof.
  intros Hs Hid. unfold still_stale. destruct (ss_activity s !! id) as [a|] eqn:Ha; [|done].
  unfold is_stale. intros [H0'%Z.eqb_eq Hidle%Z.leb_le]%andb_true_iff. split; [|by exists a].
  pose proof Hs as (_ & _ & Hc & He). destruct (He id Hid) as [[c Hr]|(a' & Ha' & Hl)]; [by destruct (Hc c _ Hr)|].
  rewrite Ha in Ha'. injection Ha' as <-. congruence.
Qed.

(** C16. The session table keeps to its cap and watches every session. However
    creations, restorations, requests, streams, closings and sweeps
    interleave, there are never more sessions than the cap. When no session
    is restored, each one has an entry in the activity map or the call that
    creates it is about to make it, the entry counts exactly the live streams,
    and at the moment the reaper decides to close a session it has no stream
    and has been idle for the timeout. *)
Theorem session_table_contract s (Hmax : 0 ≤ max_sessions) (Hs : reachable s) :
  Z.of_nat (size (ss_sessions s)) ≤ max_sessions
  ∧ (restores = false →
     (∀ id, id ∈ ss_sessions s → (∃ c, ss_calls s !! c = Some (Registering id)) ∨ entered id s)
     ∧ ∀ now id, id ∈ ss_sessions s → still_stale now id s = true →
         (∀ handle, ss_streams s !! handle ≠ Some id)
         ∧ ∃ activity, ss_activity s !! id = Some activity ∧ idle_timeout <= Z.max 0 (now - sa_last_seen activity)).
Proof.
  split.
  - assert (Hc : capped s); [|apply Hc]. revert Hs. apply reachable_invariant; [apply step_capped|]. split; cbn; [done|by rewrite size_empty|done].
  - intros Hr. pose proof (reachable_watched s Hr Hs) as Hw. split; [apply Hw|]. intros now id Hid Hst.
    destruct (stale_is_unused s now id Hw Hid Hst) as [Hl Ha]. split; [|done]. intros h Hh. unfold live in Hl.
    assert (Hz : size (filter (λ '(_, i), i = id) (ss_streams s)) = 0%nat) by lia.
    apply map_size_empty_inv in Hz. assert (Hin : filter (λ '(_, i), i = id) (ss_streams s) !! h = Some id) by by apply map_lookup_filter_Some.
    by rewrite Hz, lookup_empty in Hin.
Qed.

(** A sweep that meets no other call closes what is stale. *)
Lemma sweep_steps c stale s : ss_calls s !! c = Some (Reaping stale) → NoDup stale →
  ∃ s', rtc step s s' ∧ ss_calls s' !! c = Some (Reaping []) ∧ ss_streams s' = ss_streams s ∧ ss_clock s' = ss_clock s
    ∧ (∀ id, id ∈ ss_sessions s' → id ∈ ss_sessions s)
    ∧ ∀ id, id ∈ stale → id ∈ ss_sessions s' → still_stale (ss_clock s) id s = false.
Proof.
  revert s. induction stale as [|id stale IH]; intros s Hc Hnd.
  { exists s. split_and!; try done. by intros id ?%elem_of_nil. }
  apply NoDup_cons in Hnd as [Hnin Hnd].
  set (s1 := set_call c (Some (Rechecking (ss_clock s) id stale)) s).
  assert (H1' : rtc step s s1) by (apply rtc_once; by apply step_next).
  assert (Hc1 : ss_calls s1 !! c = Some (Rechecking (ss_clock s) id stale)) by (unfold s1; by rewrite set_call_lookup, decide_True).
  pose proof (step_recheck _ _ _ _ s1 Hc1) as Hre. change (still_stale (ss_clock s) id s1) with (still_stale (ss_clock s) id s) in Hre.
  destruct (still_stale (ss_clock s) id s) eqn:Hst.
  - set (s2 := set_call c (Some (ReapClosing id stale)) s1) in *.
    set (s3 := set_call c (Some (ReapRemoving id stale)) (inner_close id s2)).
    set (s4 := set_call c (Some (Reaping stale)) (set_activity (delete id) s3)).
    assert (H3' : step s2 s3) by (apply step_reap_close; unfold s2; by rewrite set_call_lookup, decide_True).
    assert (H4' : step s3 s4) by (apply step_reap_remove; unfold s3; by rewrite set_call_lookup, decide_True).
    destruct (IH s4) as (s' & Hrun & Hend & Hstr & Hck & Hsub & Hall); [unfold s4; by rewrite set_call_lookup, decide_True|done..|].
    exists s'. split_and!; try done.
    + etrans; [exact H1'|]. eapply rtc_l; [exact Hre|]. eapply rtc_l; [exact H3'|]. by eapply rtc_l.
    + intros i Hi%Hsub. cbn in Hi. set_solver.
    + intros i [->|Hi]%elem_of_cons Hin.
      * apply Hsub in Hin. cbn in Hin. set_solver.
      * specialize (Hall i Hi Hin). unfold still_stale in Hall. cbn in Hall. rewrite lookup_delete_ne in Hall by set_solver. done.
  - set (s2 := set_call c (Some (Reaping stale)) s1) in *.
    destruct (IH s2) as (s' & Hrun & Hend & Hstr & Hck & Hsub & Hall); [unfold s2; by rewrite set_call_lookup, decide_True|done..|].
    exists s'. split_and!; try done.
    + etrans; [exact H1'|]. by eapply rtc_l.
    + intros i [->|Hi]%elem_of_cons Hin; [done|by apply Hall].
Qed.
(** Abandoned sessions go away: from any state without calls under way a
    sweep leaves only sessions with a stream or seen within the timeout. *)
Lemma sweep_closes_abandoned s : restores = false → reachable s → ss_calls s = ∅ →
  ∃ s', rtc step s s' ∧ ss_calls s' !! 0%nat = Some (Reaping []) ∧ ss_streams s' = ss_streams s
    ∧ ∀ id, id ∈ ss_sessions s' → 0 < live id s' ∨ ∃ activity, ss_activity s !! id = Some activity ∧ ss_clock s - sa_last_seen activity < idle_timeout.
Proof.
  intros Hr Hs Hnone. pose proof (reachable_watched s Hr Hs) as (_ & _ & _ & He).
  set (s1 := set_call 0%nat (Some (Sweeping (ss_clock s))) s).
  set (s2 := set_call 0%nat (Some (Reaping (elements (stale_ids (ss_clock s) s)))) s1).
  assert (H1' : step s s1) by (apply step_sweep; by rewrite Hnone).
  assert (H2' : step s1 s2) by (apply (step_collect (ss_clock s)); [unfold s1; by rewrite set_call_lookup, decide_True|done]).
  destruct (sweep_steps 0%nat (elements (stale_ids (ss_clock s) s)) s2) as (s' & Hrun & Hend & Hstr & _ & Hsub & Hall);
    [unfold s2; by rewrite set_call_lookup, decide_True|apply NoDup_elements|].
  exists s'. split_and!; try done; [by eapply rtc_l, rtc_l|]. intros id Hid.
  destruct (He id (Hsub id Hid)) as [[c Hc]|(a & Ha & Hl)]; [by rewrite Hnone, lookup_empty in Hc|].
  destruct (is_stale (ss_clock s) a) eqn:Hst.
  - exfalso. assert (Hin : id ∈ elements (stale_ids (ss_clock s) s)).
    { apply elem_of_elements. unfold stale_ids. apply elem_of_dom. exists a. by apply map_lookup_filter_Some. }
    specialize (Hall id Hin Hid). unfold still_stale in Hall. cbn in Hall. rewrite Ha, Hst in Hall. done.
  - unfold is_stale in Hst. apply andb_false_iff in Hst as [Hn%Z.eqb_neq|Hi%Z.leb_gt].
    + left. unfold live in *. rewrite Hstr. cbn. lia.
    + right. exists a. split; [done|lia].
Qed.
End manager.

(** ** Who reaches the service *)

Section requests.
Context `{DiskWorld, Render, UrlLib} (url_error : string → string) (env_filter authority : string → bool) (data_local_dir : option string)
  (exists_file : string → bool) (read_to_string : string → result string string) (toml : string → result string Config).

Lemma required_auth config requirements : http_auth_requirements config = Some requirements →
  sv_http_auth_token config = Some (har_bearer_token requirements)
  ∧ har_trusted_proxy_header requirements
    = if bool_decide (sv_http_principal_mode config = HttpPrincipalMode.TrustedProxy) then Some (sv_http_principal_header config) else None.
Proof. unfold http_auth_requirements. destruct (sv_http_auth_token config); cbn; [|done]. by intros [= <-]. Qed.

(** C15. Behind a token only configured callers reach the tools. With any
    configuration that loads, the router is built, and a request that it
    passes on to the service is within the body limit and on the exact path;
    if a token is configured the request presented it and every tool sees the
    configured principal or, behind a trusted proxy, the one the proxy names,
    never a reserved one and never nobody; a request that does not present
    the token gets no further. Without a token, which the proxy mode does not
    allow, every request is anonymous. *)
Theorem http_requests_are_authenticated paths env c source request
  (Hload : load_from_sources_with_source url_error env_filter authority data_local_dir exists_file read_to_string toml paths env = Ok (c, source))
  (Hhttp : sv_transport (cf_server c) = Transport.Http) :
  let config := cf_server c in let headers := hr_headers request in
  let caller := principal_for_context (server_auth_of config) (Some headers) in
  build_router authority config = Ok (route config)
  ∧ (route config request = HttpOutcome.Service →
     hr_path request = sv_path config ∧ (∀ length, hr_content_length request = Some length → length ≤ sv_max_body_bytes config)
     ∧ match sv_http_auth_token config with
       | Some token => bearer_matches headers token = true ∧ ∃ p, caller = Some p ∧ p ≠ "" ∧ is_reserved_principal p = false
           ∧ match sv_http_principal_mode config with
             | HttpPrincipalMode.Fixed => p = sv_http_principal config
             | HttpPrincipalMode.TrustedProxy => trusted_proxy_principal headers (sv_http_principal_header config) = Some p
             end
       | None => sv_http_principal_mode config = HttpPrincipalMode.Fixed ∧ caller = None
       end)
  ∧ ∀ token, sv_http_auth_token config = Some token → bearer_matches headers token = false → route config request ≠ HttpOutcome.Service.
Proof.
  intros config headers caller. apply loaded_server in Hload as (c0 & Hn & Hv). fold config in Hn, Hv, Hhttp.
  split; [unfold build_router; by rewrite Hv|]. split.
  - unfold route. destruct (match hr_content_length request with Some _ => _ | None => _ end) eqn:Hlen; [done|].
    destruct (String.eqb (hr_path request) (sv_path config)) eqn:Hpath; [|done]. apply String.eqb_eq in Hpath. cbn [negb]. intros Hroute.
    split; [done|]. split; [intros len Hl; rewrite Hl in Hlen; by apply Z.ltb_ge|]. revert Hroute.
    destruct (http_auth_requirements config) as [requirements|] eqn:Hreq.
    + apply required_auth in Hreq as [Htok Hhdr]. rewrite Htok. unfold require_http_auth. fold headers.
      destruct (bearer_matches headers _) eqn:Hm; [|done]. cbn [negb]. rewrite Hhdr. intros Hroute. split; [done|].
      pose proof (matched_principal authority c0 config headers _ Hn Hv Htok Hm) as Hp.
      change (http_principal_for_context (server_auth_of config) (Some headers)) with caller in Hp. rewrite Hp. revert Hroute.
      destruct (sv_http_principal_mode config) eqn:Hmode.
      * intros _. eexists. split; [done|]. destruct (fixed_principal_named authority config Hv Hmode). done.
      * rewrite bool_decide_eq_true_2 by done.
        destruct (trusted_proxy_principal headers (sv_http_principal_header config)) as [p|] eqn:Ht; [|done]. intros _. exists p. split; [done|].
        unfold trusted_proxy_principal in Ht. destruct (trim <$> headers (sv_http_principal_header config)) as [q|]; [|done]. cbn in Ht.
        destruct (str_is_empty q) eqn:He, (is_reserved_principal q) eqn:Hr; try done. injection Ht as <-. split; [by apply str_is_empty_false|done].
    + intros _. unfold http_auth_requirements in Hreq. destruct (sv_http_auth_token config) eqn:Htok; [done|]. split.
      * destruct (sv_http_principal_mode config) eqn:Hmode; [done|]. by destruct (proxy_has_token authority config Hv Hhttp Hmode).
      * unfold caller, principal_for_context. cbn. unfold http_principal_for_context. cbn. by rewrite Htok.
  - intros token Htok Hm. unfold route. destruct (match hr_content_length request with Some _ => _ | None => _ end); [done|].
    destruct (String.eqb _ _); [|done]. unfold http_auth_requirements. rewrite Htok. cbn.
    unfold require_http_auth. cbn. fold headers. by rewrite Hm.
Qed.
End requests.

(** ** A stream that is opened while the reaper decides *)

Ltac computed := vm_compute; first [reflexivity|exact I].
Ltac go r := eapply rtc_l; [apply r; computed|].
Lemma no_one_registers (id : SessionId) (s : Sessions) :
  bool_decide (map_Forall (λ _ q, q ≠ Registering id) (ss_calls s)) = true → known false id s.
Proof. intros Hb%bool_decide_eq_true. right. intros c Hc. by apply (Hb c _ Hc). Qed.

(** The second look of the reaper and its [close_session] are two steps: a
    stream that is opened between them loses its session. *)
Lemma reaper_may_close_active_stream :
  ∃ s s', reachable 1 900 false s ∧ ss_calls s !! 1%nat = Some (ReapClosing "s" []) ∧ step 1 900 false s s'
    ∧ ss_streams s' !! 0%nat = Some "s" ∧ "s" ∈ ss_sessions s ∧ "s" ∉ ss_sessions s'.
Proof.
  eexists. eexists. split; [|split; [|split; [apply (step_reap_close 1 900 false "s" [] 1%nat)|]]].
  - unfold reachable. go (step_admit 1 900 false Create 0%nat). go (step_lock 1 900 false Create 0%nat). go (step_capacity_create 1 900 false 0%nat).
    eapply rtc_l; [apply (step_create 1 900 false "s" 0%nat); [computed|by apply (bool_decide_eq_true_1 _); vm_compute]|].
    go (step_register 1 900 false "s" 0%nat). eapply rtc_l; [apply (step_tick 1 900 false 900); vm_compute; discriminate|].
    go (step_sweep 1 900 false 1%nat).
    eapply rtc_l; [apply (step_collect 1 900 false 900 ["s"] 1%nat); [computed|by vm_compute]|].
    go (step_next 1 900 false "s" [] 1%nat). go (step_recheck 1 900 false 900 "s" [] 1%nat).
    eapply rtc_l; [apply (step_open 1 900 false "s" 2%nat); [computed|by apply no_one_registers; vm_compute|by apply (bool_decide_eq_true_1 _); vm_compute]|].
    eapply rtc_l; [apply (step_track 1 900 false "s" 0%nat 2%nat); computed|].
    apply rtc_refl.
  - computed.
  - computed.
  - split; [computed|]. split; apply (bool_decide_eq_true_1 _); by vm_compute.
Qed.

(** ** Witnesses *)

Lemma one_session_run : ∃ s, reachable 1 900 false s ∧ ss_sessions s = {["s"]} ∧ ss_streams s !! 0%nat = Some "s".
Proof.
  eexists. split; [|split].
  - unfold reachable. go (step_admit 1 900 false Create 0%nat). go (step_lock 1 900 false Create 0%nat). go (step_capacity_create 1 900 false 0%nat).
    eapply rtc_l; [apply (step_create 1 900 false "s" 0%nat); [computed|by apply (bool_decide_eq_true_1 _); vm_compute]|].
    go (step_register 1 900 false "s" 0%nat).
    eapply rtc_l; [apply (step_open 1 900 false "s" 2%nat); [computed|by apply no_one_registers; vm_compute|by apply (bool_decide_eq_true_1 _); vm_compute]|].
    eapply rtc_l; [apply (step_track 1 900 false "s" 0%nat 2%nat); computed|].
    apply rtc_refl.
  - computed.
  - computed.
Qed.
Lemma session_table_contract_witness :
  ∃ s, reachable 1 900 false s ∧ ss_sessions s = {["s"]} ∧ ss_streams s !! 0%nat = Some "s"
    ∧ Z.of_nat (size (ss_sessions s)) ≤ 1 ∧ ((∃ c, ss_calls s !! c = Some (Registering "s")) ∨ entered "s" s).
Proof.
  destruct one_session_run as (s & Hr & Hs & Hst). exists s. split; [exact Hr|]. split; [exact Hs|]. split; [exact Hst|].
  destruct (session_table_contract 1 900 false s ltac:(lia) Hr) as [Hcap Hwatched]. split; [exact Hcap|].
  apply (Hwatched eq_refl). rewrite Hs. by apply elem_of_singleton.
Defined.

Definition proxied_request : HttpRequest :=
  {| hr_path := "/mcp"; hr_content_length := Some 100;
     hr_headers name := if String.eqb name "authorization" then Some "bearer secret"
                        else if String.eqb name "x-localhold-principal" then Some " alice " else None |}.
Lemma http_requests_are_authenticated_witness :
  ∃ c source, proxy_config = Ok (c, source) ∧ route (cf_server c) proxied_request = HttpOutcome.Service
    ∧ hr_path proxied_request = sv_path (cf_server c)
    ∧ match sv_http_auth_token (cf_server c) with
      | Some token => bearer_matches (hr_headers proxied_request) token = true
      | None => sv_http_principal_mode (cf_server c) = HttpPrincipalMode.Fixed
      end.
Proof.
  destruct proxy_config as [[c source]|e] eqn:E.
  - exists c, source. split; [reflexivity|].
    assert (Hview : match proxy_config with
                    | Ok (c, _) => bool_decide (sv_transport (cf_server c) = Transport.Http)
                                   && bool_decide (route (cf_server c) proxied_request = HttpOutcome.Service)
                    | Err _ => false
                    end = true) by (vm_compute; reflexivity).
    rewrite E in Hview. apply andb_true_iff in Hview as [Hh%bool_decide_eq_true Hr%bool_decide_eq_true]. split; [exact Hr|].
    unfold proxy_config in E. pose proof (λ request, http_requests_are_authenticated _ _ _ _ _ _ _ _ _ c source request E Hh) as Hauth.
    specialize (Hauth proxied_request) as (_ & Hserved & _). destruct (Hserved Hr) as (Hp & _ & Hm). split; [exact Hp|].
    destruct (sv_http_auth_token (cf_server c)); [exact (proj1 Hm)|exact (proj1 Hm)].
  - exfalso. assert (is_ok proxy_config = true) as Hok by (vm_compute; reflexivity). rewrite E in Hok. discriminate.
Defined.
