(* ===== verification/EmbeddingClient.v ===== *)
(** * EmbeddingClient: the embedding endpoint, [src/src/embedding/openai.rs]

    Requests to an OpenAI-compatible endpoint with their credentials, the
    classification of failures, the bounded reading of an answer, the check,
    order and normalisation of the vectors, the health check, the disabled
    provider and what the configuration makes of them
    ([src/src/embedding/factory.rs], [src/src/embedding/noop.rs]). The
    exchange itself, the JSON decoder and the parser of HTTP dates are
    parameters. *)
From Stdlib Require Import ZArith Lia SpecFloat.
From stdpp Require Import base list option strings gmap pretty.
From S2P Require Import Prelude Text Floats Parsing Lists Errors Types StoreTypes Context Store EmbeddingSettings Config Resilience.

Definition MAX_EMBEDDING_RESPONSE_BODY_BYTES : Z := 16 * 1024 * 1024.
Definition MAX_MODELS_RESPONSE_BODY_BYTES : Z := 1024 * 1024.

(** ** binary32 vectors *)

Definition f32 : Type := spec_float.
Definition f32_sub : f32 → f32 → f32 := SFsub 24 128.
Definition f32_one : f32 := f32_of_Z 1.
(** [f32::EPSILON] = 2^-23. *)
Definition f32_epsilon : f32 := S754_finite false 8388608 (-46).

Definition squared_norm (embedding : list f32) : f32 := fold_left f32_add (map (λ x, f32_mul x x) embedding) (S754_zero true).
Definition normalize_l2 (embedding : list f32) : result EmbeddingError.t (list f32) :=
  let norm := f32_sqrt (squared_norm embedding) in
  _ ← bail_if (negb (is_finite norm)) (EmbeddingError.Permanent "embedding contains NaN or Inf values");
  _ ← bail_if (SFeqb norm (S754_zero false)) (EmbeddingError.Permanent "cannot normalize zero vector");
  Ok (if SFltb f32_epsilon (SFabs (f32_sub norm f32_one)) then map (λ val, f32_div val norm) embedding else embedding).
Definition validate_and_normalize (embedding : list f32) (expected_dimensions : Z) : result EmbeddingError.t (list f32) :=
  _ ← bail_if (negb (len embedding =? expected_dimensions))
        (EmbeddingError.Permanent ("expected " +:+ pretty expected_dimensions +:+ " dimensions, got " +:+ pretty (len embedding)));
  normalize_l2 embedding.

Record EmbeddingData := { ed_index : Z; ed_embedding : list f32 }.
(** One pass over the answer fills a slot per input. *)
Fixpoint place_embeddings (expected_count expected_dimensions : Z) (data : list EmbeddingData) (embeddings : list (option (list f32)))
  : result EmbeddingError.t (list (option (list f32))) :=
  match data with
  | [] => Ok embeddings
  | item :: data =>
      _ ← bail_if (expected_count <=? ed_index item)
            (EmbeddingError.Permanent ("embedding response index " +:+ pretty (ed_index item) +:+ " is out of range for "
                                       +:+ pretty expected_count +:+ " inputs"));
      _ ← bail_if (is_some (embeddings !!! Z.to_nat (ed_index item)))
            (EmbeddingError.Permanent ("duplicate embedding response index " +:+ pretty (ed_index item)));
      embedding ← validate_and_normalize (ed_embedding item) expected_dimensions;
      place_embeddings expected_count expected_dimensions data (<[Z.to_nat (ed_index item) := Some embedding]> embeddings)
  end.
Fixpoint all_embedded (index : Z) (embeddings : list (option (list f32))) : result EmbeddingError.t (list (list f32)) :=
  match embeddings with
  | [] => Ok []
  | embedding :: embeddings =>
      embedding ← ok_or (EmbeddingError.Permanent ("missing embedding response index " +:+ pretty index)) embedding;
      rest ← all_embedded (index + 1) embeddings;
      Ok (embedding :: rest)
  end.
Definition ordered_embeddings (data : list EmbeddingData) (expected_count expected_dimensions : Z) : result EmbeddingError.t (list (list f32)) :=
  _ ← bail_if (negb (len data =? expected_count))
        (EmbeddingError.Permanent ("expected " +:+ pretty expected_count +:+ " embeddings, got " +:+ pretty (len data)));
  embeddings ← place_embeddings expected_count expected_dimensions data (replicate (Z.to_nat expected_count) None);
  all_embedded 0 embeddings.

(** ** HTTP *)

Record ReqwestError := { re_is_decode : bool; re_text : string }.
Definition classify_reqwest_error (err : ReqwestError) : EmbeddingError.t :=
  if re_is_decode err then EmbeddingError.Permanent (re_text err) else EmbeddingError.Transient (re_text err).

Inductive EmbeddingInput := One (text : string) | Many (texts : list string).
Record EmbeddingRequest := {
  er_model : string;
  er_input : EmbeddingInput;
  er_encoding_format : string;
  er_dimensions : option Z;
}.
Module Method.
Inductive t := GET | POST.
End Method.
Record Request := {
  rq_method : Method.t;
  rq_url : string;
  rq_header : option (string * string);
  rq_json : option EmbeddingRequest;
}.
(** The body arrives in chunks, each of which may fail. [rp_retry_after] is
    the header's value when it is visible ASCII. *)
Record Response := {
  rp_status : Z;
  rp_retry_after : option string;
  rp_content_length : option Z;
  rp_chunks : list (result ReqwestError (list Ascii.ascii));
}.
Definition is_success (status : Z) : bool := (200 <=? status) && (status <=? 299).
Definition is_server_error (status : Z) : bool := (500 <=? status) && (status <=? 599).

Record OpenAiEmbedding := {
  oa_base_url : string;
  oa_model : string;
  oa_api_key : option string;
  oa_auth_mode : OpenAiAuthMode.t;
  oa_send_dimensions : bool;
  oa_health_check : EmbeddingHealthCheck.t;
  oa_dimensions : Z;
  oa_timeout : Z;
}.
(** Whether the HTTP client can be built is an argument. *)
Definition new_with_clock (client : result ReqwestError unit) (config : OpenAiCompatibleConfig) (dimensions timeout : Z) : result EmbeddingError.t OpenAiEmbedding :=
  _ ← map_err classify_reqwest_error client;
  Ok {| oa_base_url := trim_end_slashes (trim (oc_base_url config)); oa_model := oc_model config; oa_api_key := oc_api_key config;
        oa_auth_mode := oc_auth_mode config; oa_send_dimensions := oc_send_dimensions config; oa_health_check := oc_health_check config;
        oa_dimensions := dimensions; oa_timeout := timeout |}.

Section client.
Context `{Render} (self : OpenAiEmbedding).
Context (send : Request → result ReqwestError Response)
  (decode_embeddings : list Ascii.ascii → result string (list EmbeddingData)) (decode_models : list Ascii.ascii → result string (list string))
  (status_text : Z → string) (parse_http_date : string → option Z) (now : Z).

Definition classify_http_status (status : Z) (context : string) (retry_after : option Z) : EmbeddingError.t :=
  let message := "openai-compatible " +:+ context +:+ " failed with HTTP " +:+ status_text status in
  if status =? 429 then EmbeddingError.RateLimited message retry_after
  else if is_server_error status || (status =? 408) then EmbeddingError.Transient message
  else EmbeddingError.Permanent message.
(** Durations in nanoseconds, dates in nanoseconds since the epoch. *)
Definition parse_retry_after (retry_after : option string) : option Z :=
  value ← trim <$> retry_after;
  match parse_uint u64_max value with
  | Some seconds => Some (seconds * 10 ^ 9)
  | None => retry_at ← parse_http_date value; Some (Z.max 0 (retry_at - now))
  end.

Definition oversized_success_body (context : string) (max_bytes : Z) : EmbeddingError.t :=
  EmbeddingError.Permanent ("openai-compatible " +:+ context +:+ " exceeds the " +:+ pretty max_bytes +:+ "-byte response limit").
Fixpoint read_chunks (max_bytes : Z) (context : string) (chunks : list (result ReqwestError (list Ascii.ascii))) (body : list Ascii.ascii)
  : result EmbeddingError.t (list Ascii.ascii) :=
  match chunks with
  | [] => Ok body
  | chunk :: chunks =>
      chunk ← map_err classify_reqwest_error chunk;
      _ ← bail_if (max_bytes <? len body + len chunk) (oversized_success_body context max_bytes);
      read_chunks max_bytes context chunks (body ++ chunk)
  end.
Definition read_success_json {T} (decode : list Ascii.ascii → result string T) (response : Response) (max_bytes : Z) (context : string)
  : result EmbeddingError.t T :=
  _ ← bail_if (match rp_content_length response with Some length => max_bytes <? length | None => false end) (oversized_success_body context max_bytes);
  body ← read_chunks max_bytes context (rp_chunks response) [];
  map_err (λ error, EmbeddingError.Permanent ("failed to decode openai-compatible " +:+ context +:+ ": " +:+ error)) (decode body).

Definition endpoint (path : string) : string := oa_base_url self +:+ "/" +:+ of_bytes (drop_while (byte 47) (bytes path)).
Definition credential : option (string * string) :=
  api_key ← oa_api_key self;
  if str_is_empty api_key then None
  else Some match oa_auth_mode self with
            | OpenAiAuthMode.Bearer => ("authorization", "Bearer " +:+ api_key)
            | OpenAiAuthMode.ApiKey => ("api-key", api_key)
            end.
Definition request (method : Method.t) (path : string) (json : option EmbeddingRequest) : Request :=
  {| rq_method := method; rq_url := endpoint path; rq_header := credential; rq_json := json |}.
Definition embeddings_request (input : EmbeddingInput) : Request :=
  request Method.POST "embeddings"
    (Some {| er_model := oa_model self; er_input := input; er_encoding_format := "float";
             er_dimensions := if oa_send_dimensions self then Some (oa_dimensions self) else None |}).

Definition post_embeddings (input : EmbeddingInput) (expected_count : Z) (context : string) : result EmbeddingError.t (list (list f32)) :=
  response ← map_err classify_reqwest_error (send (embeddings_request input));
  _ ← bail_if (negb (is_success (rp_status response)))
        (classify_http_status (rp_status response) context (parse_retry_after (rp_retry_after response)));
  data ← read_success_json decode_embeddings response MAX_EMBEDDING_RESPONSE_BODY_BYTES "embedding response";
  ordered_embeddings data expected_count (oa_dimensions self).
Definition embed_impl (text : string) : result EmbeddingError.t (list f32) :=
  _ ← bail_if (is_blank text) (EmbeddingError.Permanent "cannot embed empty text");
  embeddings ← post_embeddings (One text) 1 "embedding request";
  ok_or (EmbeddingError.Permanent "empty embedding response") (head embeddings).
Definition embed_batch_impl (texts : list string) : result EmbeddingError.t (list (list f32)) :=
  match texts with
  | [] => Ok []
  | [text] => (λ embedding, [embedding]) <$> embed_impl text
  | _ =>
      _ ← bail_if (existsb is_blank texts) (EmbeddingError.Permanent "cannot embed empty text");
      post_embeddings (Many texts) (len texts) "batch embedding request"
  end.
Definition health_check_impl : result EmbeddingError.t unit :=
  if bool_decide (oa_health_check self = EmbeddingHealthCheck.Disabled) then Ok () else
  response ← map_err classify_reqwest_error (send (request Method.GET "models" None));
  _ ← bail_if (negb (is_success (rp_status response)))
        (classify_http_status (rp_status response) "health check" (parse_retry_after (rp_retry_after response)));
  models ← read_success_json decode_models response MAX_MODELS_RESPONSE_BODY_BYTES "model-list response";
  bail_if (negb (existsb (λ id, String.eqb id (oa_model self) || starts_with (bytes (oa_model self +:+ ":")) (bytes id)) models))
    (EmbeddingError.Permanent ("configured model " +:+ debug_str (oa_model self) +:+ " not found in OpenAI-compatible model list")).

(** [clock::timeout]: whether the deadline comes first is an argument. *)
Definition within_deadline {A} (elapsed : bool) (what : string) (r : result EmbeddingError.t A) : result EmbeddingError.t A :=
  if elapsed then Err (EmbeddingError.Transient (what +:+ " timed out")) else r.
Definition embed (elapsed : bool) (text : string) : result EmbeddingError.t (list f32) := within_deadline elapsed "embedding request" (embed_impl text).
Definition health_check (elapsed : bool) : result EmbeddingError.t unit := within_deadline elapsed "embedding health check" health_check_impl.
Definition embed_batch (elapsed : bool) (texts : list string) : result EmbeddingError.t (list (list f32)) :=
  within_deadline elapsed "embedding batch request" (embed_batch_impl texts).
End client.

(** ** Vectors that are not finite are refused *)

(** A NaN or positive infinity, and what is not negative. *)
Definition tainted (f : f32) : Prop := match f with S754_nan | S754_infinity false => True | _ => False end.
Definition unsigned (f : f32) : Prop := match f with S754_finite true _ _ | S754_infinity true => False | _ => True end.
Lemma round_unsigned m e l : unsigned (binary_round_aux 24 128 false m e l).
Proof. unfold binary_round_aux. destruct (shr_fexp _ _ _ _ _), (shr_fexp _ _ _ _ _). destruct (shr_m _); cbn; try done. by destruct (_ <=? _). Qed.
Lemma square_unsigned x : unsigned (f32_mul x x).
Proof. destruct x as [[]|[]| |[] m e]; cbn; try done; apply round_unsigned. Qed.
Lemma square_tainted x : is_finite x = false → tainted (f32_mul x x).
Proof. by destruct x as [[]|[]| |[] m e]. Qed.
Lemma add_unsigned x y : unsigned x → unsigned y → unsigned (f32_add x y).
Proof.
  destruct x as [[]|[]| |[] m e], y as [[]|[]| |[] m' e']; cbn [f32_add SFadd unsigned]; try done. intros _ _.
  unfold f32_add, SFadd, binary_normalize, binary_round. cbn [cond_Zopp]. cbv zeta. rewrite <- Pos2Z.inj_add.
  destruct (shl_align (_ + _) _ _). apply round_unsigned.
Qed.
Lemma add_tainted x y : unsigned x → unsigned y → tainted x ∨ tainted y → tainted (f32_add x y).
Proof. destruct x as [[]|[]| |[] m e], y as [[]|[]| |[] m' e']; cbn; tauto. Qed.
Lemma sum_tainted l acc : Forall unsigned l → unsigned acc → tainted acc ∨ Exists tainted l → tainted (fold_left f32_add l acc).
Proof.
  intros Hl. revert acc. induction Hl as [|x l Hx Hl IH]; intros acc Hacc Ht; cbn.
  - destruct Ht as [?|Ht]; [done|inversion Ht].
  - apply IH; [by apply add_unsigned|]. destruct Ht as [?|[?|?]%Exists_cons]; [left; apply add_tainted; auto..|by right].
Qed.
Lemma normalize_l2_finite v w : normalize_l2 v = Ok w → Forall (λ x, is_finite x = true) v ∧ length w = length v.
Proof.
  unfold normalize_l2. intros ([] & Hf%bail_if_Ok%negb_false_iff & Hv)%bind_Ok. apply bind_Ok in Hv as ([] & _ & [= <-]).
  split; [|case_match; [apply length_map|done]]. apply list.Forall_forall. intros x Hx. destruct (is_finite x) eqn:Hfx; [done|].
  assert (Ht : tainted (squared_norm v)).
  { apply sum_tainted; [|done|right].
    - apply list.Forall_forall. intros y Hy%list_elem_of_In%in_map_iff. destruct Hy as (z & <- & _). apply square_unsigned.
    - apply Exists_exists. exists (f32_mul x x). split; [|by apply square_tainted]. apply list_elem_of_In, (in_map (λ y, f32_mul y y)). by apply list_elem_of_In. }
  by destruct (squared_norm v) as [[]|[]| |[] m e].
Qed.
Lemma validate_and_normalize_Ok v d w : validate_and_normalize v d = Ok w →
  len v = d ∧ len w = d ∧ Forall (λ x, is_finite x = true) v ∧ normalize_l2 v = Ok w.
Proof.
  unfold validate_and_normalize. intros ([] & Hl%bail_if_Ok%negb_false_iff%Z.eqb_eq & Hv)%bind_Ok.
  destruct (normalize_l2_finite v w Hv) as [Hf Hlen]. unfold len in *. by rewrite Hlen.
Qed.

(** ** An answer is put into the order of the inputs *)

Definition slot (item : EmbeddingData) : nat := Z.to_nat (ed_index item).
Lemma all_embedded_Ok k slots vs : all_embedded k slots = Ok vs ↔ slots = map Some vs.
Proof.
  revert k vs. induction slots as [|o slots IH]; intros k vs; cbn.
  - split; [by intros [= <-]|]. by destruct vs.
  - destruct o as [v|]; cbn; [|split; [done|by destruct vs]]. rewrite bind_Ok. split.
    + intros (rest & Hr%IH & [= <-]). cbn. by rewrite Hr.
    + destruct vs as [|w vs]; [done|]. intros [= -> ->]. exists vs. split; [by apply IH|done].
Qed.
Lemma place_inv n d data slots slots' : Forall (λ item, 0 ≤ ed_index item) data → len slots = n →
  place_embeddings n d data slots = Ok slots' →
  len slots' = n ∧ NoDup (map slot data) ∧ (∀ i, i ∉ map slot data → slots' !! i = slots !! i)
  ∧ ∀ item, item ∈ data → ed_index item < n ∧ slots !!! slot item = None
      ∧ ∃ v, validate_and_normalize (ed_embedding item) d = Ok v ∧ slots' !! slot item = Some (Some v).
Proof.
  intros Hnn. revert slots. induction Hnn as [|item data Hi Hnn IH]; intros slots Hlen; cbn [place_embeddings map].
  - intros [= <-]. split_and!; [done|constructor|done|]. by intros ? ?%elem_of_nil.
  - intros ([] & Hlt%bail_if_Ok%Z.leb_gt & Hp)%bind_Ok. apply bind_Ok in Hp as ([] & Hnone%bail_if_Ok & Hp).
    apply bind_Ok in Hp as (v & Hv & Hp). fold (slot item) in *.
    destruct (IH (<[slot item:=Some v]> slots)) as (Hlen' & Hnd & Hout & Hin); [unfold len in *; by rewrite length_insert|done|].
    assert (Hs : (slot item < length slots)%nat) by (unfold slot, len in *; lia).
    assert (Hfree : slot item ∉ map slot data).
    { intros (item' & He & Hit)%list_elem_of_In%in_map_iff. apply list_elem_of_In in Hit. destruct (Hin item' Hit) as (_ & Hn & _).
      rewrite He, list_lookup_total_insert_eq in Hn by done. done. }
    split_and!; [done|by constructor| |].
    + intros i Hni%not_elem_of_cons. destruct Hni as [Hne Hni]. rewrite Hout, list_lookup_insert_ne by done. done.
    + intros item' [->|Hit]%elem_of_cons.
      * split; [done|]. split; [by destruct (slots !!! slot item)|]. exists v. split; [done|]. rewrite Hout by done. by apply list_lookup_insert_eq.
      * destruct (Hin item' Hit) as (? & Hn & Hv'). split; [done|]. split; [|done].
        rewrite list_lookup_total_insert_ne in Hn; [done|]. intros He. apply Hfree. rewrite He. apply list_elem_of_In, in_map. by apply list_elem_of_In.
Qed.
Lemma place_ok n d data slots f : Forall (λ item, 0 ≤ ed_index item < n) data → len slots = n → NoDup (map slot data) →
  (∀ item, item ∈ data → slots !!! slot item = None ∧ validate_and_normalize (ed_embedding item) d = Ok (f (slot item))) →
  is_ok (place_embeddings n d data slots) = true.
Proof.
  intros Hb. revert slots. induction Hb as [|item data Hi Hb IH]; intros slots Hlen Hnd Hall; cbn [place_embeddings map]; [done|].
  apply NoDup_cons in Hnd as [Hfree Hnd]. destruct (Hall item) as [Hnone Hv]; [by left|]. fold (slot item).
  assert (Hs : (slot item < length slots)%nat) by (unfold slot, len in *; lia).
  replace (n <=? ed_index item) with false by lia. cbn. rewrite Hnone. cbn. rewrite Hv. cbn.
  apply IH; [unfold len in *; by rewrite length_insert|done|]. intros item' Hit. destruct (Hall item') as [Hn' Hv']; [by right|]. split; [|done].
  rewrite list_lookup_total_insert_ne; [done|]. intros He. apply Hfree. rewrite He. apply list_elem_of_In, in_map. by apply list_elem_of_In.
Qed.
(** Distinct indices below the number of items are all of them. *)
Lemma indices_cover n (l : list nat) : NoDup l → length l = n → Forall (λ i, (i < n)%nat) l → ∀ i, (i < n)%nat → i ∈ l.
Proof.
  intros Hnd Hl Hb i Hi. assert (Hperm : l ≡ₚ seq 0 n).
  { apply submseteq_length_Permutation; [|rewrite length_seq; lia]. apply NoDup_submseteq; [done|]. intros x Hx.
    rewrite list.Forall_forall in Hb. apply elem_of_seq. specialize (Hb x Hx). lia. }
  rewrite Hperm. apply elem_of_seq. lia.
Qed.
(** The answer of an endpoint is taken exactly when it has one well-formed
    vector for each input, and it is taken in the order of the inputs. *)
Definition answers_in_order (data : list EmbeddingData) (n d : Z) (vs : list (list f32)) : Prop :=
  len data = n ∧ len vs = n ∧ NoDup (map slot data)
  ∧ ∀ item, item ∈ data → ed_index item < n ∧ ∃ v, vs !! slot item = Some v ∧ validate_and_normalize (ed_embedding item) d = Ok v.
Lemma ordered_embeddings_Ok data n d vs : Forall (λ item, 0 ≤ ed_index item) data →
  ordered_embeddings data n d = Ok vs ↔ answers_in_order data n d vs.
Proof.
  intros Hnn. unfold ordered_embeddings, answers_in_order. split.
  - intros ([] & Hlen%bail_if_Ok%negb_false_iff%Z.eqb_eq & Hp)%bind_Ok. apply bind_Ok in Hp as (slots & Hp & ->%all_embedded_Ok).
    assert (H0' : len (replicate (Z.to_nat n) (@None (list f32))) = n) by (unfold len in *; rewrite length_replicate; lia).
    destruct (place_inv _ _ _ _ _ Hnn H0' Hp) as (Hl & Hnd & _ & Hin). split; [done|]. split; [unfold len in *; by rewrite length_map in Hl|].
    split; [done|]. intros item Hit. destruct (Hin item Hit) as (Hlt & _ & v & Hv & Hs). split; [done|]. exists v. split; [|done].
    change (map Some vs) with (Some <$> vs) in Hs. rewrite list_lookup_fmap in Hs. destruct (vs !! slot item); [|done]. by injection Hs as ->.
  - intros (Hlen & Hvs & Hnd & Hall). apply bind_Ok. exists (). split; [apply bail_if_Ok, negb_false_iff; by apply Z.eqb_eq|].
    apply bind_Ok. set (slots0 := replicate (Z.to_nat n) (@None (list f32))).
    assert (Hl0 : len slots0 = n) by (unfold slots0, len in *; rewrite length_replicate; lia).
    assert (Hb : Forall (λ item, 0 ≤ ed_index item < n) data).
    { apply list.Forall_forall. intros item Hit. rewrite list.Forall_forall in Hnn. split; [by apply Hnn|by apply Hall]. }
    pose proof (place_ok n d data slots0 (λ i, vs !!! i) Hb Hl0 Hnd) as Hok.
    destruct (place_embeddings n d data slots0) as [slots|e] eqn:Hp.
    2: { discriminate Hok. intros item Hit. split.
         - unfold slots0. destruct (decide (slot item < Z.to_nat n)%nat) as [Hlt|Hge].
           + rewrite list_lookup_total_alt, lookup_replicate_2 by done. done.
           + by rewrite list_lookup_total_alt, lookup_ge_None_2 by (rewrite length_replicate; lia).
         - destruct (Hall item Hit) as (_ & v & Hv & Hn). by rewrite list_lookup_total_alt, Hv. }
    exists slots. split; [done|]. apply all_embedded_Ok. destruct (place_inv _ _ _ _ _ Hnn Hl0 Hp) as (Hl & _ & _ & Hin).
    apply list_eq. intros i. change (map Some vs) with (Some <$> vs). rewrite list_lookup_fmap.
    destruct (decide (i < length slots)%nat) as [Hi|Hi].
    + assert (Hmem : i ∈ map slot data).
      { apply (indices_cover (length data)); [done|by rewrite length_map| |unfold len in *; lia]. apply list.Forall_forall. intros j.
        intros (item & <- & Hit)%list_elem_of_In%in_map_iff. apply list_elem_of_In in Hit. rewrite list.Forall_forall in Hb.
        specialize (Hb item Hit). unfold slot, len in *. lia. }
      apply list_elem_of_In, in_map_iff in Hmem as (item & <- & Hit). apply list_elem_of_In in Hit.
      destruct (Hin item Hit) as (_ & _ & v & Hv & ->). destruct (Hall item Hit) as (_ & v' & -> & Hv'). rewrite Hv in Hv'. by injection Hv' as <-.
    + rewrite !lookup_ge_None_2; [done|unfold len in *; lia|lia].
Qed.
Lemma answers_in_order_perm data data' n d vs : data ≡ₚ data' → answers_in_order data n d vs → answers_in_order data' n d vs.
Proof.
  intros Hp (Hl & Hv & Hnd & Hall). split_and!; [unfold len in *; by rewrite <- Hp|done| |].
  - change (NoDup (slot <$> data')). rewrite <- Hp. exact Hnd.
  - intros item. rewrite <- Hp. apply Hall.
Qed.

(** ** The body is bounded *)

Lemma read_chunks_Ok max context chunks body b : read_chunks max context chunks body = Ok b → len body ≤ max →
  len b ≤ max ∧ ∃ parts, chunks = map Ok parts ∧ b = body ++ concat parts.
Proof.
  revert body. induction chunks as [|chunk chunks IH]; intros body; cbn [read_chunks].
  - intros [= <-] Hm. split; [done|]. exists []. by rewrite app_nil_r.
  - intros (part & Hc & Hr)%bind_Ok _. apply bind_Ok in Hr as ([] & Hlt%bail_if_Ok%Z.ltb_ge & Hr).
    destruct chunk as [part'|]; [|done]. injection Hc as ->.
    destruct (IH (body ++ part) Hr) as (Hb & parts & -> & ->); [unfold len in *; rewrite length_app; lia|].
    split; [done|]. exists (part :: parts). split; [done|]. cbn. by rewrite (assoc_L (++)).
Qed.
Lemma read_chunks_retryable max context chunks body e : read_chunks max context chunks body = Err e → EmbeddingError.is_retryable e = true →
  ∃ err, Err err ∈ chunks ∧ re_is_decode err = false.
Proof.
  revert body. induction chunks as [|chunk chunks IH]; intros body; cbn [read_chunks]; [done|]. destruct chunk as [part|err]; cbn.
  - destruct (max <? _); cbn; [by intros [= <-]|]. intros Hr He. destruct (IH _ Hr He) as (err & Hin & Hd). exists err. split; [by right|done].
  - intros [= <-] He. exists err. split; [by left|]. unfold classify_reqwest_error in He. by destruct (re_is_decode err).
Qed.

(** ** What an answer of the client means *)

Section contract.
Context `{Render} (self : OpenAiEmbedding).
Context (send : Request → result ReqwestError Response)
  (decode_embeddings : list Ascii.ascii → result string (list EmbeddingData)) (status_text : Z → string) (parse_http_date : string → option Z) (now : Z).
(** An index is decoded as a [usize]. *)
Context (decoded_indices : ∀ body data, decode_embeddings body = Ok data → Forall (λ item, 0 ≤ ed_index item) data).
#[local] Abbreviation post_embeddings := (post_embeddings self send decode_embeddings status_text parse_http_date now).
#[local] Abbreviation embed_batch := (embed_batch self send decode_embeddings status_text parse_http_date now).

(** The vector of an input: its own, of the right size, from finite numbers. *)
Definition vector_of (data : list EmbeddingData) (vs : list (list f32)) (i : nat) : Prop :=
  ∃ item v, item ∈ data ∧ ed_index item = Z.of_nat i ∧ vs !! i = Some v ∧ len v = oa_dimensions self
    ∧ Forall (λ x, is_finite x = true) (ed_embedding item) ∧ normalize_l2 (ed_embedding item) = Ok v.
Lemma answers_each data n vs i : Forall (λ item, 0 ≤ ed_index item) data → answers_in_order data n (oa_dimensions self) vs → Z.of_nat i < n →
  vector_of data vs i.
Proof.
  intros Hnn (Hl & Hv & Hnd & Hall) Hi. rewrite list.Forall_forall in Hnn. assert (Hmem : i ∈ map slot data).
  { apply (indices_cover (length data)); [done|by rewrite length_map| |unfold len in *; lia]. apply list.Forall_forall. intros j.
    intros (item & <- & Hit)%list_elem_of_In%in_map_iff. apply list_elem_of_In in Hit. specialize (Hnn item Hit).
    destruct (Hall item Hit) as [Hlt _]. unfold slot, len in *. lia. }
  apply list_elem_of_In, in_map_iff in Hmem as (item & <- & Hit). apply list_elem_of_In in Hit.
  destruct (Hall item Hit) as (_ & v & Hs & (_ & Hlen & Hf & Hn)%validate_and_normalize_Ok). exists item, v. specialize (Hnn item Hit).
  split_and!; try done. unfold slot. lia.
Qed.

(** What an answer came from, and what is worth another try. *)
Definition answered (input : EmbeddingInput) (n : Z) (vs : list (list f32)) : Prop :=
  ∃ response parts data, send (embeddings_request self input) = Ok response ∧ is_success (rp_status response) = true
    ∧ rp_chunks response = map Ok parts ∧ len (concat parts) ≤ MAX_EMBEDDING_RESPONSE_BODY_BYTES
    ∧ decode_embeddings (concat parts) = Ok data ∧ answers_in_order data n (oa_dimensions self) vs
    ∧ ∀ i, Z.of_nat i < n → vector_of data vs i.
Definition worth_a_retry (input : EmbeddingInput) : Prop :=
  match send (embeddings_request self input) with
  | Err err => re_is_decode err = false
  | Ok response => rp_status response = 429 ∨ rp_status response = 408 ∨ is_server_error (rp_status response) = true
      ∨ (is_success (rp_status response) = true ∧ ∃ err, Err err ∈ rp_chunks response ∧ re_is_decode err = false)
  end.
Lemma post_embeddings_Ok input n context vs : post_embeddings input n context = Ok vs → answered input n vs.
Proof.
  unfold EmbeddingClient.post_embeddings. intros (response & Hs & Hp)%bind_Ok. apply bind_Ok in Hp as ([] & Hok%bail_if_Ok%negb_false_iff & Hp).
  apply bind_Ok in Hp as (data & Hd & Ho). destruct (send (embeddings_request self input)) as [response'|] eqn:Hsend; [|done]. injection Hs as ->.
  unfold read_success_json in Hd. apply bind_Ok in Hd as ([] & _ & Hd). apply bind_Ok in Hd as (body & Hb & Hd).
  apply read_chunks_Ok in Hb as (Hlen & parts & Hparts & ->); [|done]. cbn [app] in *.
  destruct (decode_embeddings (concat parts)) as [data'|] eqn:Hdec; [|done]. injection Hd as ->.
  pose proof (decoded_indices _ _ Hdec) as Hnn. apply ordered_embeddings_Ok in Ho; [|done].
  exists response, parts, data. split_and!; try done. intros i Hi. by eapply answers_each.
Qed.
Lemma place_not_retryable n d data slots e : place_embeddings n d data slots = Err e → EmbeddingError.is_retryable e = false.
Proof.
  revert slots. induction data as [|item data IH]; intros slots; cbn [place_embeddings]; [done|].
  destruct (n <=? ed_index item); cbn; [by intros [= <-]|]. destruct (is_some _); cbn; [by intros [= <-]|].
  destruct (validate_and_normalize _ _) as [v|e'] eqn:Hv; cbn; [apply IH|]. intros [= <-]. revert Hv.
  unfold validate_and_normalize. destruct (negb _); cbn; [by intros [= <-]|]. unfold normalize_l2.
  destruct (negb _); cbn; [by intros [= <-]|]. destruct (SFeqb _ _); cbn; [by intros [= <-]|done].
Qed.
Lemma all_embedded_not_retryable k slots e : all_embedded k slots = Err e → EmbeddingError.is_retryable e = false.
Proof.
  revert k. induction slots as [|[v|] slots IH]; intros k; cbn; [done| |by intros [= <-]].
  destruct (all_embedded (k + 1) slots) eqn:E; cbn; [done|]. intros [= <-]. by eapply IH.
Qed.
Lemma post_embeddings_retryable input n context e : post_embeddings input n context = Err e → EmbeddingError.is_retryable e = true →
  worth_a_retry input.
Proof.
  unfold EmbeddingClient.post_embeddings, worth_a_retry. destruct (send (embeddings_request self input)) as [response|err] eqn:Hsend; cbn [map_err mbind result_bind].
  2: { unfold classify_reqwest_error. destruct (re_is_decode err); [by intros [= <-]|done]. }
  destruct (is_success (rp_status response)) eqn:Hok; cbn [negb bail_if mbind result_bind].
  - unfold read_success_json. destruct (match rp_content_length response with Some _ => _ | None => _ end); cbn; [by intros [= <-]|].
    destruct (read_chunks _ _ _ _) as [body|e'] eqn:Hb; cbn.
    + destruct (decode_embeddings body) as [data|]; cbn; [|by intros [= <-]]. unfold ordered_embeddings.
      destruct (negb (len data =? n)); cbn; [by intros [= <-]|]. destruct (place_embeddings _ _ _ _) as [slots|] eqn:Hp; cbn.
      * intros Ha%all_embedded_not_retryable. by rewrite Ha.
      * intros [= <-]. apply place_not_retryable in Hp. by rewrite Hp.
    + intros [= <-] He. right. right. right. split; [done|]. by eapply read_chunks_retryable.
  - unfold classify_http_status. intros [= <-]. destruct (Z.eqb_spec (rp_status response) 429); [by left|].
    destruct (is_server_error (rp_status response)); [by auto|]. destruct (Z.eqb_spec (rp_status response) 408); [by auto|done].
Qed.

Definition input_of (texts : list string) : EmbeddingInput := match texts with [text] => One text | _ => Many texts end.
Lemma batch_Ok texts vs : embed_batch false texts = Ok vs → texts ≠ [] → Forall (λ t, is_blank t = false) texts ∧ answered (input_of texts) (len texts) vs.
Proof.
  unfold EmbeddingClient.embed_batch, within_deadline, embed_batch_impl. destruct texts as [|text [|text' texts]]; [done| |].
  - unfold embed_impl. destruct (is_blank text) eqn:Hb; cbn; [done|]. destruct (post_embeddings (One text) 1 _) as [ws|] eqn:Hp; cbn; [|done].
    apply post_embeddings_Ok in Hp. intros Hh _. split; [by repeat constructor|].
    assert (Hl : len ws = 1) by (by destruct Hp as (? & ? & ? & _ & _ & _ & _ & _ & (_ & ? & _) & _)).
    destruct ws as [|w [|w' ws]]; [done| |unfold len in Hl; cbn in Hl; lia]. cbn in Hh. by injection Hh as <-.
  - intros ([] & Hb%bail_if_Ok & Hp)%bind_Ok _. split; [|by apply post_embeddings_Ok in Hp]. apply list.Forall_forall. intros t Ht.
    destruct (is_blank t) eqn:Hbt; [|done]. rewrite <- Hb. symmetry. apply existsb_exists. exists t. split; [by apply list_elem_of_In|done].
Qed.

(** C39. Every text gets its own vector. When a batch is answered, no text was
    blank, the endpoint answered with success and a body within the limit,
    and the answer held exactly one item for each text, whatever the order of
    the items: the vector of a text is the normalisation of the item with its
    index, has the configured number of dimensions and comes from finite
    numbers. A failure is worth a retry only when the deadline passed, the
    connection failed or the endpoint said that it is busy or broken: an
    answer that is wrong, too long or refused is not asked for again. *)
Theorem embedding_answer_contract elapsed texts :
  match embed_batch elapsed texts with
  | Ok vs => len vs = len texts
      ∧ (texts ≠ [] → Forall (λ t, is_blank t = false) texts ∧ answered (input_of texts) (len texts) vs)
  | Err e => EmbeddingError.is_retryable e = true → elapsed = true ∨ worth_a_retry (input_of texts)
  end.
Proof.
  destruct elapsed; [cbn; by left|]. destruct (embed_batch false texts) as [vs|e] eqn:Hb.
  - pose proof (batch_Ok texts vs Hb) as Hok. split; [|done]. destruct texts as [|t texts]; [by injection Hb as <-|].
    destruct (Hok ltac:(done)) as (_ & response & parts & data & _ & _ & _ & _ & _ & (_ & Hl & _) & _). done.
  - intros He. right. revert Hb. unfold EmbeddingClient.embed_batch, within_deadline, embed_batch_impl.
    destruct texts as [|text [|text' texts]]; [done| |].
    + unfold embed_impl. destruct (is_blank text); cbn; [intros [= <-]; done|].
      destruct (post_embeddings (One text) 1 _) as [ws|e'] eqn:Hp; cbn.
      * destruct ws; cbn; [|done]. by intros [= <-].
      * intros [= <-]. by eapply post_embeddings_retryable.
    + destruct (existsb _ _); cbn [bail_if mbind result_bind]; [by intros [= <-]|]. intros Hp. by eapply post_embeddings_retryable.
Qed.
End contract.

(** ** The configured provider *)

Definition active_embedding_profile (config : EmbeddingConfig.t) : option EmbeddingProfile :=
  match config with
  | EmbeddingConfig.OpenAiCompatible dimensions o => Some (openai_compatible (oc_base_url o) (oc_model o) dimensions)
  | EmbeddingConfig.Noop _ => None
  end.
(** [ResilientConfig] as far as it comes from the limits. *)
Definition resilient_policy (limits : LimitsConfig) : RetryPolicy :=
  {| rp_max_retries := lc_embedding_max_retries limits; rp_initial_backoff := lc_embedding_retry_initial_backoff_ms limits * 10 ^ 6;
     rp_max_backoff := lc_embedding_retry_max_backoff_ms limits * 10 ^ 6 |}.
Inductive Provider := NoopEmbedding | ResilientEmbedding (client : OpenAiEmbedding) (policy : RetryPolicy).
Definition noop_embed (text : string) : result EmbeddingError.t (list f32) := Err EmbeddingError.Disabled.
Definition noop_embed_batch (texts : list string) : result EmbeddingError.t (list (list f32)) := Err EmbeddingError.Disabled.
Definition noop_health_check : result EmbeddingError.t unit := Err EmbeddingError.Disabled.
Definition create_embedding_provider (client : result ReqwestError unit) (config : EmbeddingConfig.t) (limits : LimitsConfig) : Provider :=
  match config with
  | EmbeddingConfig.OpenAiCompatible dimensions o =>
      match new_with_clock client o dimensions (lc_embedding_timeout_secs limits * 10 ^ 9) with
      | Ok provider => ResilientEmbedding provider (resilient_policy limits)
      | Err _ => NoopEmbedding
      end
  | EmbeddingConfig.Noop _ => NoopEmbedding
  end.
(** [DeferredEmbedding]: the provider is made at the first request. *)
Definition deferred_provider (client : result ReqwestError unit) (config : EmbeddingConfig.t) (limits : LimitsConfig) (inner : option Provider)
  : Provider * option Provider :=
  let provider := default (create_embedding_provider client config limits) inner in (provider, Some provider).

(** ** Witness *)

Definition sample_client : OpenAiEmbedding :=
  {| oa_base_url := "http://localhost:8000/v1"; oa_model := "m"; oa_api_key := Some "k"; oa_auth_mode := OpenAiAuthMode.ApiKey;
     oa_send_dimensions := true; oa_health_check := EmbeddingHealthCheck.Models; oa_dimensions := 2; oa_timeout := 10 |}.
Definition sample_answer (request : Request) : result ReqwestError Response :=
  Ok {| rp_status := 200; rp_retry_after := None; rp_content_length := Some 2; rp_chunks := [Ok (bytes "{"); Ok (bytes "}")] |}.
(** The second text first. *)
Definition sample_data (body : list Ascii.ascii) : result string (list EmbeddingData) :=
  Ok [ {| ed_index := 1; ed_embedding := [f32_of_Z 3; f32_of_Z 4] |}; {| ed_index := 0; ed_embedding := [f32_of_Z 0; f32_of_Z (-1)] |} ].
Example sample_request :
  embeddings_request sample_client (Many ["a"; "b"])
  = {| rq_method := Method.POST; rq_url := "http://localhost:8000/v1/embeddings"; rq_header := Some ("api-key", "k");
       rq_json := Some {| er_model := "m"; er_input := Many ["a"; "b"]; er_encoding_format := "float"; er_dimensions := Some 2 |} |}.
Proof. reflexivity. Qed.
Definition sample_batch (texts : list string) : result EmbeddingError.t (list (list f32)) :=
  embed_batch sample_client sample_answer sample_data pretty (λ _, None) 0 false texts.
Example sample_batch_in_order :
  sample_batch ["a"; "b"] = Ok [[f32_of_Z 0; f32_of_Z (-1)]; [f32_div (f32_of_Z 3) (f32_of_Z 5); f32_div (f32_of_Z 4) (f32_of_Z 5)]].
Proof. vm_compute. reflexivity. Qed.
Lemma embedding_answer_contract_witness :
  ∃ vs, sample_batch ["a"; "b"] = Ok vs ∧ len vs = 2 ∧ answered sample_client sample_answer sample_data (Many ["a"; "b"]) 2 vs.
Proof.
  assert (Hidx : ∀ body data, sample_data body = Ok data → Forall (λ item, 0 ≤ ed_index item) data).
  { intros body data [= <-]. repeat constructor; cbn; lia. }
  pose proof (embedding_answer_contract sample_client sample_answer sample_data pretty (λ _, None) 0 Hidx false ["a"; "b"]) as Hc.
  fold (sample_batch ["a"; "b"]) in Hc. destruct (sample_batch ["a"; "b"]) as [vs|e] eqn:E.
  - exists vs. destruct Hc as [Hl Ha]. split; [reflexivity|]. split; [exact Hl|]. apply Ha. discriminate.
  - exfalso. assert (Hok : is_ok (sample_batch ["a"; "b"]) = true) by (vm_compute; reflexivity). rewrite E in Hok. discriminate.
Defined.
