(* ===== verification/EmbeddingStatus.v ===== *)
(** * EmbeddingStatus: the embedding report, [src/src/embedding/status.rs]

    What the operator's report reads in a SQLite file and how it judges it
    against the configuration: raw tables, any of which may be missing or
    damaged, counters, the lifecycle state and the exit code. The theorem
    ties the report to the store of Store.v. The inspection of PostgreSQL and
    the rendering are not modelled. *)
From Stdlib Require Import ZArith Lia.
From stdpp Require Import base list option strings gmap sets fin_maps pretty.
From S2P Require Import RerankerModels Prelude Text Floats Parsing Lists Errors Types Context StoreTypes Store EmbeddingSettings Config Settings Operations Vectors Integrity EmbeddingClient.

(** ** Data *)

Module EmbeddingStatusLevel.
Inductive t := Healthy | Degraded | Failed.
#[global] Instance eq_dec : EqDecision t.
Proof. solve_decision. Defined.
Definition to_string (l : t) : string := match l with Healthy => "healthy" | Degraded => "degraded" | Failed => "failed" end.
End EmbeddingStatusLevel.
Module EmbeddingState.
Inductive t := Disabled | NotInitialized | Ready | Rebuilding | Complete | ReindexRequired | Inconsistent | Unavailable.
#[global] Instance eq_dec : EqDecision t.
Proof. solve_decision. Defined.
Definition to_string (s : t) : string :=
  match s with
  | Disabled => "disabled" | NotInitialized => "not_initialized" | Ready => "ready" | Rebuilding => "rebuilding" | Complete => "complete"
  | ReindexRequired => "reindex_required" | Inconsistent => "inconsistent" | Unavailable => "unavailable"
  end.
End EmbeddingState.
Module EmbeddingProviderHealth.
Inductive t := Disabled | CheckDisabled | Healthy | RateLimited | Unavailable.
#[global] Instance eq_dec : EqDecision t.
Proof. solve_decision. Defined.
Definition to_string (h : t) : string :=
  match h with
  | Disabled => "disabled" | CheckDisabled => "check_disabled" | Healthy => "healthy" | RateLimited => "rate_limited" | Unavailable => "unavailable"
  end.
End EmbeddingProviderHealth.

Record EmbeddingCounts := mkEmbeddingCounts {
  ec_total_memories : Z;
  ec_embedded_memories : Z;
  ec_pending_memories : Z;
  ec_claimed_memories : Z;
  ec_mapped_memories : Z;
  ec_vector_rows : Z;
  ec_missing_vectors : Z;
  ec_unexpected_vectors : Z;
}.
Definition embedding_counts_default : EmbeddingCounts := mkEmbeddingCounts 0 0 0 0 0 0 0 0.
Definition is_consistent (c : EmbeddingCounts) : bool :=
  (ec_missing_vectors c =? 0) && (ec_unexpected_vectors c =? 0) && (ec_embedded_memories c =? ec_mapped_memories c)
  && (ec_mapped_memories c =? ec_vector_rows c) && (ec_total_memories c =? Z.min u64_max (ec_embedded_memories c + ec_pending_memories c)).
Record StorageSnapshot := {
  sn_vector_table_present : bool;
  sn_stored_profile : option EmbeddingProfile;
  sn_stored_dimensions : option Z;
  sn_counts : EmbeddingCounts;
}.
Inductive StorageObservation := Ready (snapshot : StorageSnapshot) | NotInitialized | Unavailable.
Record EmbeddingStatusReport := {
  es_schema_version : Z;
  es_status : EmbeddingStatusLevel.t;
  es_exit_code : Z;
  es_backend : string;
  es_state : EmbeddingState.t;
  es_provider_health : EmbeddingProviderHealth.t;
  es_configured_profile : option EmbeddingProfile;
  es_stored_profile : option EmbeddingProfile;
  es_stored_dimensions : option Z;
  es_counts : EmbeddingCounts;
  es_summary : string;
}.
Definition REPORT_SCHEMA_VERSION : Z := 1.
Definition EXIT_HEALTHY : Z := 0.
Definition EXIT_DEGRADED : Z := 2.
Definition EXIT_FAILED : Z := 1.

(** ** The judgement *)

Definition profiles_compatible (expected : EmbeddingProfile) (stored : option EmbeddingProfile) (vector_count : Z) : bool :=
  match stored with Some stored => bool_decide (stored = expected) | None => vector_count =? 0 end.
Definition classify_snapshot (configured : option EmbeddingProfile) (configured_dimensions : Z) (snapshot : StorageSnapshot)
  : EmbeddingStatusLevel.t * EmbeddingState.t * string :=
  if negb (is_consistent (sn_counts snapshot)) then
    (EmbeddingStatusLevel.Failed, EmbeddingState.Inconsistent,
     "embedding flags, mappings, or vector rows are inconsistent; run hold doctor before attempting recovery")
  else if sn_vector_table_present snapshot && is_none (sn_stored_dimensions snapshot) then
    (EmbeddingStatusLevel.Failed, EmbeddingState.ReindexRequired,
     "physical vector-table dimensions could not be read; back up the database and run `hold embeddings reindex --yes`")
  else if match sn_stored_dimensions snapshot with Some dimensions => negb (dimensions =? configured_dimensions) | None => false end then
    (EmbeddingStatusLevel.Failed, EmbeddingState.ReindexRequired,
     "physical vector-table dimensions differ from the configured embedding dimensions; back up the database and run `hold embeddings reindex --yes`")
  else match configured with
       | None => (EmbeddingStatusLevel.Healthy, EmbeddingState.Disabled, "noop embedding provider is selected; stored vectors are not used for retrieval")
       | Some configured =>
           if negb (profiles_compatible configured (sn_stored_profile snapshot) (ec_vector_rows (sn_counts snapshot))) then
             (EmbeddingStatusLevel.Failed, EmbeddingState.ReindexRequired,
              "stored vectors do not match the configured embedding profile; back up the database and run `hold embeddings reindex --yes`")
           else if is_none (sn_stored_profile snapshot) then
             (EmbeddingStatusLevel.Degraded, EmbeddingState.Ready,
              "vector storage is empty and compatible; normal server startup will record the configured profile")
           else if 0 <? ec_pending_memories (sn_counts snapshot) then
             (EmbeddingStatusLevel.Degraded, EmbeddingState.Rebuilding,
              "the stored profile is compatible and pending memories will be embedded by the running server")
           else (EmbeddingStatusLevel.Healthy, EmbeddingState.Complete,
                 "the configured profile matches storage and every memory has a current vector")
       end.

Definition exit_code (status : EmbeddingStatusLevel.t) : Z :=
  match status with
  | EmbeddingStatusLevel.Healthy => EXIT_HEALTHY
  | EmbeddingStatusLevel.Degraded => EXIT_DEGRADED
  | EmbeddingStatusLevel.Failed => EXIT_FAILED
  end.
Definition backend_name (backend : DatabaseBackend.t) : string :=
  match backend with DatabaseBackend.Sqlite => "sqlite" | DatabaseBackend.Postgres => "postgres" end.
Definition build_report (config : Config) (provider_health : EmbeddingProviderHealth.t) (observation : StorageObservation) : EmbeddingStatusReport :=
  let configured_profile := active_embedding_profile (cf_embedding config) in
  let '(status, state, stored_profile, stored_dimensions, counts, summary) :=
    match observation with
    | NotInitialized =>
        if is_none configured_profile then
          (EmbeddingStatusLevel.Healthy, EmbeddingState.Disabled, None, None, embedding_counts_default,
           "noop embedding provider is selected; no embedding storage is required")
        else
          (EmbeddingStatusLevel.Degraded, EmbeddingState.NotInitialized, None, None, embedding_counts_default,
           "database embedding storage is not initialized; normal server startup can initialize it")
    | Unavailable =>
        (EmbeddingStatusLevel.Failed, EmbeddingState.Unavailable, None, None, embedding_counts_default,
         "database embedding status could not be inspected safely")
    | Ready snapshot =>
        let '(status, state, summary) := classify_snapshot configured_profile (EmbeddingConfig.dimensions (cf_embedding config)) snapshot in
        (status, state, sn_stored_profile snapshot, sn_stored_dimensions snapshot, sn_counts snapshot, summary)
    end in
  let provider_down := bool_decide (provider_health = EmbeddingProviderHealth.Unavailable) && negb (bool_decide (status = EmbeddingStatusLevel.Failed)) in
  let status := if provider_down then EmbeddingStatusLevel.Degraded else status in
  let summary := if provider_down then summary +:+ "; the configured embedding provider is currently unavailable" else summary in
  {| es_schema_version := REPORT_SCHEMA_VERSION; es_status := status; es_exit_code := exit_code status; es_backend := backend_name (db_backend (cf_database config));
     es_state := state; es_provider_health := provider_health; es_configured_profile := configured_profile; es_stored_profile := stored_profile;
     es_stored_dimensions := stored_dimensions; es_counts := counts; es_summary := summary |}.

(** The client, when it can be built, answers a health check as [check] says. *)
Definition probe_provider (config : Config) (client : result ReqwestError unit) (check : OpenAiEmbedding → result EmbeddingError.t unit)
  : EmbeddingProviderHealth.t :=
  match cf_embedding config with
  | EmbeddingConfig.Noop _ => EmbeddingProviderHealth.Disabled
  | EmbeddingConfig.OpenAiCompatible dimensions o =>
      if bool_decide (oc_health_check o = EmbeddingHealthCheck.Disabled) then EmbeddingProviderHealth.CheckDisabled
      else match new_with_clock client o dimensions (lc_embedding_timeout_secs (cf_limits config) * 10 ^ 9) with
           | Err _ => EmbeddingProviderHealth.Unavailable
           | Ok provider =>
               match check provider with
               | Ok _ => EmbeddingProviderHealth.Healthy
               | Err (EmbeddingError.RateLimited _ _) => EmbeddingProviderHealth.RateLimited
               | Err _ => EmbeddingProviderHealth.Unavailable
               end
           end
  end.

(** ** The file *)

(** The tables of a SQLite file, when they exist; the vector table with its
    SQL text. *)
Record SqliteFile := {
  sf_memories : option (gmap MemoryId MemoryRow);
  sf_map : option (gmap MemoryId Z);
  sf_embeddings : option (string * gmap Z (list f64));
  sf_profile : option (option EmbeddingProfile);
}.
(** Whether the file and its write-ahead files exist, and what opening it gives. *)
Record SqlitePath := {
  sp_exists : bool;
  sp_wal_exists : bool;
  sp_shm_exists : bool;
  sp_open : result string SqliteFile;
}.
Definition sqlite_wal_state_requires_shm_creation (path : SqlitePath) : bool := sp_wal_exists path && negb (sp_shm_exists path).

Fixpoint after_first (p l : list Ascii.ascii) : option (list Ascii.ascii) :=
  if starts_with p l then Some (drop (length p) l) else match l with [] => None | _ :: l => after_first p l end.
Fixpoint until_char (c : Ascii.ascii) (l : list Ascii.ascii) : option (list Ascii.ascii) :=
  match l with [] => None | x :: l => if Ascii.eqb x c then Some [] else (λ r, x :: r) <$> until_char c l end.
Definition parse_vec_dimensions (sql : string) : option Z :=
  rest ← after_first (bytes "float[") (bytes sql);
  digits ← until_char (byte 93) rest;
  parse_uint usize_max (of_bytes digits).
Definition existing_embedding_dimensions (file : SqliteFile) : option Z := '(sql, _) ← sf_embeddings file; parse_vec_dimensions sql.

Definition count {V} (f : MemoryId → V → bool) (table : gmap MemoryId V) : Z := Z.of_nat (size (filter (λ '(k, v), f k v = true) table)).
Definition count_rows {K} `{Countable K} {V} (table : option (gmap K V)) : Z := match table with Some table => Z.of_nat (size table) | None => 0 end.
(** [LEFT JOIN] of a memory with its mapping and vector. *)
Definition has_vector_row (map : gmap MemoryId Z) (embeddings : gmap Z (list f64)) (id : MemoryId) : bool :=
  match map !! id with Some rowid => is_some (embeddings !! rowid) | None => false end.
Definition mapped_rowids (map : gmap MemoryId Z) : gset Z := map_img map.
Definition inspect_sqlite_consistency (memories : gmap MemoryId MemoryRow) (file : SqliteFile) (embedded : Z) : Z * Z :=
  let missing := match sf_map file, sf_embeddings file with
                 | Some map, Some (_, embeddings) => count (λ id row, r_has_embedding row && negb (has_vector_row map embeddings id)) memories
                 | _, _ => embedded
                 end in
  let unexpected_mappings := match sf_map file with
                             | Some map => count (λ id _, match memories !! id with Some row => negb (r_has_embedding row) | None => true end) map
                             | None => 0
                             end in
  let unmapped_vectors := match sf_embeddings file with
                          | Some (_, embeddings) =>
                              match sf_map file with
                              | Some map => Z.of_nat (size (filter (λ '(rowid, _), rowid ∉ mapped_rowids map) embeddings))
                              | None => Z.of_nat (size embeddings)
                              end
                          | None => 0
                          end in
  (missing, Z.min i64_max (unexpected_mappings + unmapped_vectors)).
Definition inspect_sqlite_storage_blocking (file : SqliteFile) : StorageObservation :=
  match sf_memories file with
  | None => NotInitialized
  | Some memories =>
      let embedded := count (λ _ row, r_has_embedding row) memories in
      let '(missing, unexpected) := inspect_sqlite_consistency memories file embedded in
      Ready {| sn_vector_table_present := is_some (sf_embeddings file); sn_stored_profile := profile ← sf_profile file; profile;
               sn_stored_dimensions := existing_embedding_dimensions file;
               sn_counts := {| ec_total_memories := Z.of_nat (size memories); ec_embedded_memories := embedded;
                               ec_pending_memories := count (λ _ row, negb (r_has_embedding row)) memories;
                               ec_claimed_memories := count (λ _ row, negb (r_has_embedding row) && is_some (r_embedding_claim_token row)) memories;
                               ec_mapped_memories := count_rows (sf_map file); ec_vector_rows := count_rows (snd <$> sf_embeddings file);
                               ec_missing_vectors := missing; ec_unexpected_vectors := unexpected |} |}
  end.
Definition inspect_sqlite_storage (path : SqlitePath) : StorageObservation :=
  if negb (sp_exists path) then NotInitialized
  else if sqlite_wal_state_requires_shm_creation path then Unavailable
  else match sp_open path with Ok file => inspect_sqlite_storage_blocking file | Err _ => Unavailable end.
Definition inspect (config : Config) (client : result ReqwestError unit) (check : OpenAiEmbedding → result EmbeddingError.t unit) (path : SqlitePath)
  : EmbeddingStatusReport := build_report config (probe_provider config client check) (inspect_sqlite_storage path).

(** ** Counting rows *)

Lemma count_0 {V} (f : MemoryId → V → bool) table : count f table = 0 ↔ ∀ k v, table !! k = Some v → f k v = false.
Proof.
  unfold count. split.
  - intros Hz k v Hk. destruct (f k v) eqn:Hf; [|done]. assert (Hs : size (filter (λ '(k, v), f k v = true) table) = 0%nat) by lia.
    apply map_size_empty_inv in Hs. assert (Hin : filter (λ '(k, v), f k v = true) table !! k = Some v) by by apply map_lookup_filter_Some.
    by rewrite Hs, lookup_empty in Hin.
  - intros Hf. replace (filter _ table) with (∅ : gmap MemoryId V); [by rewrite map_size_empty|]. symmetry. apply map_empty. intros k.
    apply map_lookup_filter_None. right. intros v Hk. by rewrite (Hf k v Hk).
Qed.
Lemma count_split {V} (f : MemoryId → V → bool) table : count f table + count (λ k v, negb (f k v)) table = Z.of_nat (size table).
Proof.
  unfold count. rewrite <- Nat2Z.inj_add. f_equal. rewrite <- (map_filter_union_complement (λ '(k, v), f k v = true) table) at 3.
  rewrite map_size_disj_union by apply map_disjoint_filter_complement. f_equal. f_equal. apply map_filter_ext. intros k v _. cbn.
  rewrite negb_true_iff. by destruct (f k v).
Qed.
Lemma count_nonneg {V} (f : MemoryId → V → bool) table : 0 ≤ count f table.
Proof. unfold count. lia. Qed.

(** ** What a healthy report says of any file *)

Definition healthy_file (file : SqliteFile) (memories : gmap MemoryId MemoryRow) (configured : EmbeddingProfile) (dimensions : Z) : Prop :=
  sf_profile file = Some (Some configured)
  ∧ (∀ sql embeddings, sf_embeddings file = Some (sql, embeddings) → parse_vec_dimensions sql = Some dimensions)
  ∧ ∀ id row, memories !! id = Some row → r_has_embedding row = true
      ∧ ∃ map sql embeddings rowid v, sf_map file = Some map ∧ sf_embeddings file = Some (sql, embeddings)
          ∧ map !! id = Some rowid ∧ embeddings !! rowid = Some v.
Lemma healthy_is_complete configured dimensions snapshot state text :
  classify_snapshot (Some configured) dimensions snapshot = (EmbeddingStatusLevel.Healthy, state, text) → state = EmbeddingState.Complete.
Proof.
  unfold classify_snapshot. destruct (negb _); [done|]. destruct (_ && _); [done|].
  destruct (match sn_stored_dimensions snapshot with Some _ => _ | None => _ end); [done|].
  destruct (negb _); [done|]. destruct (is_none _); [done|]. destruct (0 <? _); [done|]. by intros [= <- _].
Qed.
Lemma exit_0 config health observation : es_exit_code (build_report config health observation) = 0 →
  ∀ configured, active_embedding_profile (cf_embedding config) = Some configured →
  health ≠ EmbeddingProviderHealth.Unavailable ∧ ∃ snapshot text, observation = Ready snapshot
    ∧ classify_snapshot (Some configured) (EmbeddingConfig.dimensions (cf_embedding config)) snapshot
      = (EmbeddingStatusLevel.Healthy, EmbeddingState.Complete, text).
Proof.
  unfold build_report. intros He configured Hc. rewrite Hc in *. destruct observation as [snapshot| |]; cbn [is_none] in He.
  - destruct (classify_snapshot _ _ snapshot) as [[status state] text] eqn:Hcl. cbn in He.
    destruct (bool_decide_reflect (health = EmbeddingProviderHealth.Unavailable)) as [->|Hh].
    + destruct status; cbn in He; done.
    + split; [done|]. exists snapshot, text. destruct status; try done. by rewrite (healthy_is_complete _ _ _ _ _ Hcl) in Hcl.
  - by destruct (bool_decide _).
  - by destruct (bool_decide _).
Qed.
Lemma complete_snapshot configured dimensions snapshot text :
  classify_snapshot (Some configured) dimensions snapshot = (EmbeddingStatusLevel.Healthy, EmbeddingState.Complete, text) ↔
  is_consistent (sn_counts snapshot) = true ∧ sn_stored_profile snapshot = Some configured ∧ ec_pending_memories (sn_counts snapshot) <= 0
  ∧ (sn_vector_table_present snapshot = true → sn_stored_dimensions snapshot ≠ None)
  ∧ (∀ d, sn_stored_dimensions snapshot = Some d → d = dimensions)
  ∧ text = "the configured profile matches storage and every memory has a current vector".
Proof.
  unfold classify_snapshot. destruct (is_consistent _); cbn [negb]; [|split; [done|by intros [? _]]].
  destruct (sn_vector_table_present snapshot), (sn_stored_dimensions snapshot) as [d|]; cbn [is_none andb]; try (split; [done|naive_solver]).
  all: try (destruct (Z.eqb_spec d dimensions) as [->|]; cbn [negb]; [|split; [done|naive_solver]]).
  all: destruct (sn_stored_profile snapshot) as [p|]; cbn [profiles_compatible is_none];
    [|destruct (_ =? 0); cbn; (split; [done|by intros (_ & ? & _)])].
  all: case_bool_decide as Hp; cbn [negb]; [subst p|split; [done|intros (_ & [= ->] & _); done]].
  all: destruct (Z.ltb_spec 0 (ec_pending_memories (sn_counts snapshot))); [split; [done|intros (_ & _ & ? & _); lia]|].
  all: split; [intros [= <-]; split_and!; try done; naive_solver|by intros (_ & _ & _ & _ & _ & ->)].
Qed.
Lemma healthy_report_sound config health file memories configured :
  sf_memories file = Some memories → active_embedding_profile (cf_embedding config) = Some configured →
  es_exit_code (build_report config health (inspect_sqlite_storage_blocking file)) = 0 →
  health ≠ EmbeddingProviderHealth.Unavailable ∧ healthy_file file memories configured (EmbeddingConfig.dimensions (cf_embedding config)).
Proof.
  intros Hm Hc He. destruct (exit_0 _ _ _ He _ Hc) as (Hh & snapshot & text & Hs & Hcl). split; [done|].
  apply complete_snapshot in Hcl as (Hcons & Hprof & Hpend & Hdims & Hd & _).
  unfold inspect_sqlite_storage_blocking in Hs. rewrite Hm in Hs.
  destruct (inspect_sqlite_consistency _ _ _) as [missing unexpected] eqn:Hi. injection Hs as <-. cbn in Hcons, Hprof, Hpend, Hdims, Hd.
  pose proof (count_nonneg (λ _ row, negb (r_has_embedding row)) memories). assert (Hp0 : count (λ (_ : MemoryId) row, negb (r_has_embedding row)) memories = 0) by lia.
  pose proof (proj1 (count_0 _ _) Hp0) as Hall. unfold is_consistent in Hcons. cbn in Hcons.
  apply andb_true_iff in Hcons as [Hcons _]. apply andb_true_iff in Hcons as [Hcons _]. apply andb_true_iff in Hcons as [Hcons _].
  apply andb_true_iff in Hcons as [Hmiss _]. apply Z.eqb_eq in Hmiss. subst missing.
  unfold inspect_sqlite_consistency in Hi. injection Hi as Hmiss _. split_and!.
  - destruct (sf_profile file) as [p|]; cbn in Hprof; [by subst|done].
  - intros sql embeddings Hemb. unfold existing_embedding_dimensions in Hdims, Hd. rewrite Hemb in Hdims, Hd. cbn in Hdims, Hd.
    destruct (parse_vec_dimensions sql) as [d|]; [f_equal; by apply Hd|]. by destruct (Hdims eq_refl).
  - intros id row Hrow. pose proof (Hall id row Hrow) as Hemb%negb_false_iff. split; [done|].
    destruct (sf_map file) as [map|], (sf_embeddings file) as [[sql embeddings]|].
    2-4: rewrite count_0 in Hmiss; specialize (Hmiss id row Hrow); congruence.
    rewrite count_0 in Hmiss. specialize (Hmiss id row Hrow). rewrite Hemb in Hmiss. cbn in Hmiss. apply negb_false_iff in Hmiss.
    unfold has_vector_row in Hmiss. destruct (map !! id) as [rowid|] eqn:Hr; [|done]. destruct (embeddings !! rowid) as [v|] eqn:Hv; [|done].
    by exists map, sql, embeddings, rowid, v.
Qed.

(** ** What the report says of a well-formed store *)

Section well_formed.
Context (vector_dimensions : Z) (rowid : MemoryId → Z) `{!Inj (=) (=) rowid}.

(** The file of a store whose vectors have the row numbers [rowid]. *)
Definition file_of (sql : string) (s : Store) : SqliteFile :=
  {| sf_memories := Some (st_memories s); sf_map := Some (map_imap (λ id _, Some (rowid id)) (st_vectors s));
     sf_embeddings := Some (sql, kmap rowid (st_vectors s)); sf_profile := Some (st_profile s) |}.
#[local] Abbreviation tables_ok s := (∀ id, vector_ok vector_dimensions any_vector any_lease s id).

Lemma flag_is_vector s id row : tables_ok s → st_memories s !! id = Some row → r_has_embedding row = is_some (st_vectors s !! id).
Proof. intros Hok Hrow. specialize (Hok id). unfold vector_ok in Hok. rewrite Hrow in Hok. destruct (st_vectors s !! id); cbn; apply Hok. Qed.
Lemma vector_has_row s id : tables_ok s → is_Some (st_vectors s !! id) → is_Some (st_memories s !! id).
Proof.
  intros Hok Hv. specialize (Hok id). unfold vector_ok in Hok. destruct (st_memories s !! id); [done|]. rewrite Hok in Hv. by destruct Hv.
Qed.
Lemma map_of_lookup s id : map_imap (λ id (_ : list f64), Some (rowid id)) (st_vectors s) !! id = (λ _, rowid id) <$> st_vectors s !! id.
Proof. rewrite map_lookup_imap. by destruct (st_vectors s !! id). Qed.
Lemma embedded_count s : tables_ok s → count (λ _ row, r_has_embedding row) (st_memories s) = Z.of_nat (size (st_vectors s)).
Proof.
  intros Hok. unfold count. f_equal. rewrite <- !size_dom. f_equal. apply set_eq. intros id. rewrite !elem_of_dom. split.
  - intros [row [Hrow Hf]%map_lookup_filter_Some]. rewrite (flag_is_vector s id row Hok Hrow) in Hf. by destruct (st_vectors s !! id).
  - intros Hv. destruct (vector_has_row s id Hok Hv) as [row Hrow]. exists row. apply map_lookup_filter_Some. split; [done|].
    rewrite (flag_is_vector s id row Hok Hrow). by destruct Hv as [v ->].
Qed.
Lemma mapped_count s : size (map_imap (λ id (_ : list f64), Some (rowid id)) (st_vectors s)) = size (st_vectors s).
Proof. rewrite <- !size_dom. f_equal. apply set_eq. intros id. rewrite !elem_of_dom, map_of_lookup. by rewrite fmap_is_Some. Qed.
Lemma vector_rows_count s : size (kmap rowid (st_vectors s) : gmap Z (list f64)) = size (st_vectors s).
Proof. rewrite <- !length_map_to_list. rewrite map_to_list_kmap by done. apply length_fmap. Qed.
Lemma consistency_of sql s embedded : tables_ok s → inspect_sqlite_consistency (st_memories s) (file_of sql s) embedded = (0, 0).
Proof.
  intros Hok. unfold inspect_sqlite_consistency. cbn [sf_map sf_embeddings file_of].
  assert (H1' : count (λ id row, r_has_embedding row && negb (has_vector_row (map_imap (λ id _, Some (rowid id)) (st_vectors s)) (kmap rowid (st_vectors s)) id))
                 (st_memories s) = 0).
  { apply count_0. intros id row Hrow. rewrite (flag_is_vector s id row Hok Hrow). unfold has_vector_row. rewrite map_of_lookup.
    destruct (st_vectors s !! id) as [v|] eqn:Hv; cbn; [|done]. by rewrite lookup_kmap, Hv by done. }
  assert (H2' : count (λ id (_ : Z), match st_memories s !! id with Some row => negb (r_has_embedding row) | None => true end)
                  (map_imap (λ id _, Some (rowid id)) (st_vectors s)) = 0).
  { apply count_0. intros id r Hr. rewrite map_of_lookup in Hr. destruct (st_vectors s !! id) as [v|] eqn:Hv; [|done].
    destruct (vector_has_row s id Hok) as [row Hrow]; [by eexists|]. rewrite Hrow, (flag_is_vector s id row Hok Hrow), Hv. done. }
  assert (H3' : size (filter (λ '(r, _), r ∉ mapped_rowids (map_imap (λ id _, Some (rowid id)) (st_vectors s))) (kmap rowid (st_vectors s) : gmap Z (list f64))) = 0%nat).
  { apply map_size_empty_iff, map_empty. intros r. apply map_lookup_filter_None. right. intros v (id & -> & Hv)%lookup_kmap_Some Hn; [|done].
    apply Hn. unfold mapped_rowids. apply elem_of_map_img. exists id. by rewrite map_of_lookup, Hv. }
  rewrite H1', H2', H3'. reflexivity.
Qed.

Lemma report_of_ready config health snapshot configured : active_embedding_profile (cf_embedding config) = Some configured →
  es_exit_code (build_report config health (Ready snapshot)) = 0 ↔
  health ≠ EmbeddingProviderHealth.Unavailable
  ∧ classify_snapshot (Some configured) (EmbeddingConfig.dimensions (cf_embedding config)) snapshot
    = (EmbeddingStatusLevel.Healthy, EmbeddingState.Complete, "the configured profile matches storage and every memory has a current vector").
Proof.
  intros Hc. split.
  - intros He. destruct (exit_0 _ _ _ He _ Hc) as (Hh & snapshot' & text & [= <-] & Hcl). split; [done|].
    rewrite Hcl. by apply complete_snapshot in Hcl as (_ & _ & _ & _ & _ & ->).
  - intros [Hh Hcl]. unfold build_report. rewrite Hc, Hcl, (bool_decide_eq_false_2 _ Hh). done.
Qed.
Lemma report_counts config health snapshot : es_counts (build_report config health (Ready snapshot)) = sn_counts snapshot.
Proof. unfold build_report. by destruct (classify_snapshot _ _ _) as [[status state] text]. Qed.
Lemma report_state config health snapshot : is_consistent (sn_counts snapshot) = true →
  es_state (build_report config health (Ready snapshot)) ≠ EmbeddingState.Inconsistent.
Proof.
  intros Hc. unfold build_report. destruct (classify_snapshot _ _ _) as [[status state] text] eqn:Hcl. cbn. intros ->. revert Hcl.
  unfold classify_snapshot. rewrite Hc. cbn [negb]. repeat case_match; by intros [= <-].
Qed.

(** C40. The embedding report can be trusted. For any file with the
    memories table, damaged ones included, exit code 0 under a vector provider
    means that the recorded profile is the configured one, the vector table
    has the configured dimensions, the provider is not known to be
    unavailable, and every single memory is flagged and mapped to a vector that
    is there. For a file that the operations of the store have written (its
    tables are well-formed) the report never speaks of inconsistency, counts
    exactly, and exit code 0 is given whenever all this holds. *)
Theorem status_report_is_truthful config health configured
  (Hconf : active_embedding_profile (cf_embedding config) = Some configured) :
  let dimensions := EmbeddingConfig.dimensions (cf_embedding config) in
  (∀ file memories, sf_memories file = Some memories →
     es_exit_code (build_report config health (inspect_sqlite_storage_blocking file)) = 0 →
     health ≠ EmbeddingProviderHealth.Unavailable ∧ healthy_file file memories configured dimensions)
  ∧ ∀ sql s, (∀ id, vector_ok vector_dimensions any_vector any_lease s id) → Z.of_nat (size (st_memories s)) ≤ i64_max →
     let report := build_report config health (inspect_sqlite_storage_blocking (file_of sql s)) in
     es_state report ≠ EmbeddingState.Inconsistent
     ∧ ec_embedded_memories (es_counts report) = Z.of_nat (size (st_vectors s))
     ∧ ec_pending_memories (es_counts report) = Z.of_nat (size (st_memories s)) - Z.of_nat (size (st_vectors s))
     ∧ (es_exit_code report = 0 ↔
          health ≠ EmbeddingProviderHealth.Unavailable ∧ st_profile s = Some configured ∧ parse_vec_dimensions sql = Some dimensions
          ∧ ∀ id, is_Some (st_memories s !! id) → is_Some (st_vectors s !! id)).
Proof.
  intros dimensions. split; [intros file memories Hm He; by apply healthy_report_sound|]. intros sql s Hok Hsize report.
  pose proof (embedded_count s Hok) as Hemb. pose proof (count_split (λ _ row, r_has_embedding row) (st_memories s)) as Hsplit.
  pose proof (consistency_of sql s (count (λ _ row, r_has_embedding row) (st_memories s)) Hok) as Hcons.
  set (snapshot := {| sn_vector_table_present := true; sn_stored_profile := st_profile s; sn_stored_dimensions := parse_vec_dimensions sql;
         sn_counts := mkEmbeddingCounts (Z.of_nat (size (st_memories s))) (count (λ _ row, r_has_embedding row) (st_memories s))
                        (count (λ _ row, negb (r_has_embedding row)) (st_memories s))
                        (count (λ _ row, negb (r_has_embedding row) && is_some (r_embedding_claim_token row)) (st_memories s))
                        (Z.of_nat (size (st_vectors s))) (Z.of_nat (size (st_vectors s))) 0 0 |}).
  assert (Hobs : inspect_sqlite_storage_blocking (file_of sql s) = Ready snapshot).
  { unfold inspect_sqlite_storage_blocking. cbn [sf_memories file_of]. fold (file_of sql s). rewrite Hcons. unfold snapshot. do 2 f_equal. f_equal.
    - cbn. by rewrite mapped_count.
    - cbn. by rewrite vector_rows_count. }
  assert (His : is_consistent (sn_counts snapshot) = true).
  { unfold is_consistent. cbn. rewrite Hemb, !Z.eqb_refl. cbn. apply Z.eqb_eq. unfold i64_max, u64_max in *. lia. }
  unfold report. rewrite Hobs, report_counts. split; [by apply report_state|]. split; [exact Hemb|]. split; [cbn; lia|].
  rewrite (report_of_ready _ _ _ _ Hconf), complete_snapshot. cbn [sn_counts sn_stored_profile sn_stored_dimensions sn_vector_table_present snapshot].
  cbn [ec_pending_memories]. split.
  - intros (Hh & _ & Hp & Hpend & Hd & Hdim & _). split_and!; [done..| |].
    + destruct (parse_vec_dimensions sql) as [d|]; [f_equal; by apply Hdim|by destruct (Hd eq_refl)].
    + intros id [row Hrow]. pose proof (count_nonneg (λ _ row, negb (r_has_embedding row)) (st_memories s)).
      assert (Hz : count (λ _ row, negb (r_has_embedding row)) (st_memories s) = 0) by lia. rewrite count_0 in Hz.
      specialize (Hz id row Hrow). rewrite (flag_is_vector s id row Hok Hrow) in Hz. by destruct (st_vectors s !! id).
  - intros (Hh & Hp & Hd & Hall). split; [done|]. split_and!; try done; [|by rewrite Hd|by rewrite Hd; intros ? [= <-]].
    assert (Hz : count (λ _ row, negb (r_has_embedding row)) (st_memories s) = 0); [|lia]. apply count_0. intros id row Hrow.
    rewrite (flag_is_vector s id row Hok Hrow). destruct (Hall id) as [v ->]; [by eexists|]. done.
Qed.
End well_formed.

(** ** Witness *)

Definition sample_profile_config : Config :=
  {| cf_database := database_config_default None; cf_embedding := EmbeddingConfig.OpenAiCompatible 1 openai_compatible_config_default;
     cf_server := server_config_default; cf_limits := limits_config_default; cf_search := search_config_default |}.
Definition sample_vector_sql : string := "CREATE VIRTUAL TABLE memory_embeddings USING vec0(embedding float[1])".
(** A store with one memory and its vector, written under the configured
    profile. *)
Definition sample_store : Store :=
  run_all (H := plain_render) (H0 := AsciiCase) (H1 := plain_chrono) 1 (λ x, x)
    (on_profile (λ _, active_embedding_profile (cf_embedding sample_profile_config)) (on_registry (λ _, empty_registry) empty_store))
    [OpStore edited (Some [f1]) None].
Definition sample_rowid (id : MemoryId) : Z := Zpos (encode id).
Lemma sample_rowid_inj : Inj (=) (=) sample_rowid.
Proof. intros i j [= Hij]. by apply (inj encode). Qed.
Lemma status_report_is_truthful_witness :
  let report := build_report sample_profile_config EmbeddingProviderHealth.Healthy
                  (inspect_sqlite_storage_blocking (file_of sample_rowid sample_vector_sql sample_store)) in
  size (st_memories sample_store) = 1%nat ∧ es_exit_code report = 0 ∧ ec_embedded_memories (es_counts report) = Z.of_nat (size (st_vectors sample_store))
  ∧ ∀ id, is_Some (st_memories sample_store !! id) → is_Some (st_vectors sample_store !! id).
Proof.
  intros report. split; [vm_compute; reflexivity|].
  assert (Hwf : wf 1 sample_store).
  { unfold sample_store, run_all. cbn [foldl fold_left]. apply (run_wf (H := plain_render) (H0 := AsciiCase) (H1 := plain_chrono)). apply empty_store_wf. }
  destruct (status_report_is_truthful 1 sample_rowid (Inj0 := sample_rowid_inj) sample_profile_config EmbeddingProviderHealth.Healthy
              (openai_compatible "http://127.0.0.1:8000/v1" "nomic-embed-text" 1) eq_refl) as [_ Hstore].
  assert (Hsize : (Z.of_nat (size (st_memories sample_store)) <=? i64_max) = true) by (vm_compute; reflexivity).
  destruct (Hstore sample_vector_sql sample_store (proj1 Hwf) (proj1 (Z.leb_le _ _) Hsize)) as (_ & Hc & _ & Hexit). fold report in Hexit, Hc.
  assert (He : (es_exit_code report =? 0) = true) by (vm_compute; reflexivity). apply Z.eqb_eq in He.
  split; [exact He|]. split; [exact Hc|]. apply Hexit. exact He.
Defined.
