(* ===== verification/Engine.v ===== *)
(** * Engine: the business layer of [src/src/engine.rs]

    The engine validates input, builds audit drafts and calls the store. Each
    store call is a transaction of its own, and other sessions may commit
    between two of them: a [Session] is the store, the clock and the schedule
    of the operations the others commit before each of the engine's calls.
    A computation is [None] for a panic or for loops that run out of fuel. *)
From Stdlib Require Import ZArith Lia.
From stdpp Require Import base list option strings gmap sets pretty.
From S2P Require Import Stats Prelude Text Floats Lists Errors Types Context StoreTypes Validation Ranking Store Membership Crud ContextAdmin Admin Revisions Operations Integrity Governance Hierarchy Systems Query Config.

(** ** Computations *)

Record Session := mkSession {
  se_store : Store;
  se_now : DateTime;
  se_schedule : list (list system_op * DateTime);
}.
Definition engine (A : Type) : Type := Session → option (result EngineError.t A * Session).
#[export] Instance engine_ret : MRet engine := λ A a se, Some (Ok a, se).
#[export] Instance engine_bind : MBind engine := λ A B k m se,
  match m se with
  | Some (Ok a, se') => k a se'
  | Some (Err e, se') => Some (Err e, se')
  | None => None
  end.
Definition fail {A} (e : EngineError.t) : engine A := λ se, Some (Err e, se).
Definition panic {A} : engine A := λ _, None.
Definition of_option {A} (o : option A) : engine A := match o with Some a => mret a | None => panic end.
Definition of_engine_result {A} (r : result EngineError.t A) : engine A :=
  match r with Ok a => mret a | Err e => fail e end.
Definition clock_now : engine DateTime := λ se, Some (Ok (se_now se), se).

(** [e.into()] of a validation error. *)
Definition validated_as_engine {A} (r : validated A) : result EngineError.t A := map_err EngineError.Validation r.

Section calls.
Context `{Render, UnicodeCase, Chrono} (dimensions : Z) (exp2 : f64 → f64).

(** The others' turn before a call of the store. *)
Definition turn (se : Session) : Session :=
  match se_schedule se with
  | [] => se
  | (os, now) :: rest => mkSession (run_systems dimensions exp2 (se_store se) os) now rest
  end.
(** A call of the store whose error the caller handles; the transaction
    reads the clock. *)
Definition try_call {A} (m : DateTime → tx A) : engine (result StoreError.t A) := λ se,
  let se := turn se in
  let '(r, s) := with_conn (m (se_now se)) (se_store se) in
  Some (Ok r, mkSession s (se_now se) (se_schedule se)).
Definition call {A} (m : DateTime → tx A) : engine A :=
  r ← try_call m; of_engine_result (map_err EngineError.Store r).
End calls.

(** ** Operations *)

Record StoreMemoryInput := {
  si_content : string;
  si_tags : list string;
  si_source_agent : option string;
  si_source_user : option string;
  si_source_conversation : option string;
  si_origin_conversation : option string;
  si_access_policy : option AccessPolicy.t;
  si_ttl_seconds : option Z;
  si_memory_type : option MemoryType.t;
  si_importance : option f64;
  si_confidence : option f64;
  si_supersedes : option MemoryId;
  si_entities : list Entity;
}.
Record BulkUpdateFields := {
  bf_tags : option (list string);
  bf_importance : option Importance.t;
  bf_access_policy : option AccessPolicy.t;
}.
Record BulkDeleteResult := { bd_deleted : Z; bd_matched : Z; bd_capped : bool }.
Record BulkUpdateResult := { bu_updated : Z; bu_denied : Z; bu_matched : Z; bu_capped : bool }.

Section requests.
Context (limits : LimitsConfig).

Definition validate_update_fields (update : MemoryUpdate) : result EngineError.t unit :=
  validated_as_engine (
    _ ← match mu_content update with
        | Some content =>
            _ ← validate_non_blank "content" content;
            validate_content_length content (lc_max_content_length limits)
        | None => Ok ()
        end;
    _ ← validate_optional_string_array "tags" (mu_tags update);
    _ ← match mu_tags update with
        | Some tags => validate_tags "tags" tags (lc_max_tags_per_memory limits) (lc_max_tag_length limits)
        | None => Ok ()
        end;
    _ ← match mu_entities update with
        | Some entities => validate_entities_with_limits entities (lc_max_entities_per_memory limits)
                             (lc_max_entity_field_length limits)
        | None => Ok ()
        end;
    validate_optional_non_empty "source_conversation" (mu_source_conversation update)).

Definition with_tags (tags : option (list string)) (u : MemoryUpdate) : MemoryUpdate :=
  {| mu_content := mu_content u; mu_tags := tags; mu_access_policy := mu_access_policy u;
     mu_importance := mu_importance u; mu_expires_at := mu_expires_at u; mu_confidence := mu_confidence u;
     mu_source_conversation := mu_source_conversation u; mu_entities := mu_entities u |}.
Definition with_conversation (c : option string) (u : MemoryUpdate) : MemoryUpdate :=
  {| mu_content := mu_content u; mu_tags := mu_tags u; mu_access_policy := mu_access_policy u;
     mu_importance := mu_importance u; mu_expires_at := mu_expires_at u; mu_confidence := mu_confidence u;
     mu_source_conversation := c; mu_entities := mu_entities u |}.
Definition with_update_entities (es : option (list Entity)) (u : MemoryUpdate) : MemoryUpdate :=
  {| mu_content := mu_content u; mu_tags := mu_tags u; mu_access_policy := mu_access_policy u;
     mu_importance := mu_importance u; mu_expires_at := mu_expires_at u; mu_confidence := mu_confidence u;
     mu_source_conversation := mu_source_conversation u; mu_entities := es |}.

Definition prepare_update (update : MemoryUpdate) : result EngineError.t MemoryUpdate :=
  let update := with_tags (map trim <$> mu_tags update) update in
  conversation ← validated_as_engine (normalize_optional_non_empty "source_conversation" (mu_source_conversation update));
  let update := with_conversation conversation update in
  _ ← validate_update_fields update;
  Ok (with_update_entities (normalize_entities <$> mu_entities update) update).

(** [MemoryId::new()] is [id]; [try_seconds] is chrono's. *)
Definition build_memory `{Chrono} (try_seconds : Z → option Z) (id : MemoryId) (input : StoreMemoryInput) (now : DateTime) :
    result EngineError.t Memory :=
  validated_as_engine (
    _ ← validate_non_blank "content" (si_content input);
    _ ← validate_content_length (si_content input) (lc_max_content_length limits);
    let tags := map trim (si_tags input) in
    _ ← validate_string_array "tags" tags;
    _ ← validate_tags "tags" tags (lc_max_tags_per_memory limits) (lc_max_tag_length limits);
    _ ← validate_entities_with_limits (si_entities input) (lc_max_entities_per_memory limits)
          (lc_max_entity_field_length limits);
    source_agent ← normalize_optional_non_empty "source_agent" (si_source_agent input);
    source_user ← normalize_optional_non_empty "source_user" (si_source_user input);
    source_conversation ← normalize_optional_non_empty "source_conversation" (si_source_conversation input);
    origin_conversation ← normalize_optional_non_empty "origin_conversation" (si_origin_conversation input);
    expires_at ← match si_ttl_seconds input with
                 | Some ttl => Some <$> ttl_seconds_to_expiry try_seconds checked_add_signed ttl now
                 | None => Ok None
                 end;
    Ok {| m_id := id; m_content := si_content input; m_tags := tags;
          m_provenance := {| source_agent := source_agent; source_conversation := source_conversation;
                             origin_conversation := first_some origin_conversation source_conversation;
                             source_user := source_user |};
          m_access_policy := default AccessPolicy.Public (si_access_policy input);
          m_created_at := now; m_updated_at := now; m_record_revision := 0; m_expires_at := expires_at;
          m_has_embedding := false; m_memory_type := default MemoryType.Semantic (si_memory_type input);
          m_importance := Importance.new (default (f64_lit 1 2) (si_importance input));
          m_confidence := Confidence.new (default (f64_lit 4 5) (si_confidence input));
          m_impression_count := 0; m_last_impressed_at := None; m_superseded_by := None;
          m_activity_mass := f0; m_last_used_at := None; m_entities := normalize_entities (si_entities input);
          m_was_redacted := false |}).

Definition audit_draft (action : AuditAction.t) (caller : option string) (details : option Json) : engine AuditDraft :=
  now ← clock_now;
  mret {| ad_action := action; ad_caller_agent := caller; ad_timestamp := now; ad_details := details |}.

Definition with_limit (limit : option Z) (f : MemoryFilter) : MemoryFilter :=
  {| mf_context_ids := mf_context_ids f; mf_legacy_context_ids_any := mf_legacy_context_ids_any f;
     mf_explicit_context_filter := mf_explicit_context_filter f; mf_tags := mf_tags f; mf_agent_label := mf_agent_label f;
     mf_scope := mf_scope f; mf_origin_scope := mf_origin_scope f; mf_scopes_any := mf_scopes_any f;
     mf_time_range := mf_time_range f; mf_text_search := mf_text_search f; mf_has_embedding := mf_has_embedding f;
     mf_limit := limit; mf_memory_type := mf_memory_type f; mf_include_superseded := mf_include_superseded f;
     mf_entity := mf_entity f; mf_entities_any := mf_entities_any f; mf_entity_type := mf_entity_type f |}.

Section engine.
Context `{Render, UnicodeCase, Chrono} (dimensions : Z) (exp2 : f64 → f64).
#[local] Abbreviation call := (call dimensions exp2).

(** The store's scan runs on fuel; [list_is_reference] of Query.v shows it
    is enough. *)
Definition list_call (filter : MemoryFilter) (ctx : QueryContext) : engine (list Memory) :=
  memories ← call (list_impl filter ctx); of_option memories.
Definition list_memories (filter : MemoryFilter) (ctx : QueryContext) : engine (list Memory) :=
  list_call (with_limit ((λ l, Z.min l (lc_max_list_limit limits)) <$> mf_limit filter) filter) ctx.

Definition get_memories (ids : list MemoryId) (caller : option string) : engine (gmap MemoryId Memory) :=
  call (get_batch_by_ids ids caller).

Definition delete_memory (id : MemoryId) (principal : string) : engine WriteOutcome.t :=
  audit ← audit_draft AuditAction.Delete (Some principal) None;
  call (λ now, apply_authorized_delete id principal now (Some audit)).

Definition delete_memory_if_unmodified (id : MemoryId) (expected_revision : Z) (principal : string) :
    engine WriteOutcome.t :=
  audit ← audit_draft AuditAction.Delete (Some principal) (Some (JObj [("interactive", JBool true)]));
  call (λ now, apply_authorized_delete_if_unmodified id expected_revision principal now audit).

(** [fresh] and [scan]: the new context's id and the order of the store's
    scan. *)
Definition reassign_scope (fresh : ContextId) (scan : list MemoryId → list MemoryId) (from to : string)
    (origin : option string) (principal : string) : engine Z :=
  if String.eqb from to
  then fail (EngineError.Validation (validation_error_new "from_scope" "from_scope and to_scope must be different"))
  else
    audit ← audit_draft AuditAction.Reassign (Some principal)
      (Some (JObj [("from_scope", JStr from); ("to_scope", JStr to);
                   ("origin_conversation", match origin with Some o => JStr o | None => JNull end)]));
    outcome ← call (λ now, apply_reassign_scope fresh scan
      {| ra_from_scope := from; ra_to_scope := to; ra_origin_conversation := origin; ra_principal := principal;
         ra_now := now; ra_audit := Some audit |});
    mret (len (ro_applied_ids outcome)).

Definition evict_expired (principal : string) : engine Z :=
  audit ← audit_draft AuditAction.Delete (Some principal)
    (Some (JObj [("mode", JStr "authorized"); ("reason", JStr "expired")]));
  call (evict_expired_impl principal audit).
Definition evict_expired_all (principal : string) : engine Z :=
  audit ← audit_draft AuditAction.Delete (Some principal) (Some (JObj [("mode", JStr "all"); ("reason", JStr "expired")]));
  call (evict_expired_all_impl principal audit).

Definition upsert_metadata (metadata : MemoryMetadata) (principal : string) : engine unit :=
  audit ← audit_draft AuditAction.Update (Some principal) (Some (JObj [("metadata", JBool true)]));
  call (λ _, upsert_metadata_audited_impl metadata (Some audit)).

Definition bulk_delete (principal : string) (filter : MemoryFilter) (ctx : QueryContext) : engine BulkDeleteResult :=
  memories ← list_call (with_limit (Some (lc_max_list_limit limits)) filter) ctx;
  let matched := len memories in
  let all_ids := map m_id memories in
  audit ← audit_draft AuditAction.BulkDelete (Some principal) None;
  outcome ← call (λ now, bulk_delete_ids all_ids principal now (Some audit));
  mret {| bd_deleted := len (bo_applied_ids outcome); bd_matched := matched;
          bd_capped := lc_max_list_limit limits <=? matched |}.

Definition bulk_update (principal : string) (filter : MemoryFilter) (ctx : QueryContext) (fields : BulkUpdateFields) :
    engine BulkUpdateResult :=
  memories ← list_call (with_limit (Some (lc_max_list_limit limits)) filter) ctx;
  let matched := len memories in
  let update := {| mu_content := None; mu_tags := bf_tags fields; mu_access_policy := bf_access_policy fields;
                   mu_importance := bf_importance fields; mu_expires_at := None; mu_confidence := None;
                   mu_source_conversation := None; mu_entities := None |} in
  _ ← of_engine_result (validate_update_fields update);
  let all_ids := map m_id memories in
  now ← clock_now;
  audit ← audit_draft AuditAction.BulkUpdate (Some principal) None;
  outcome ← call (λ _, bulk_update_ids all_ids update principal now (Some audit));
  mret {| bu_updated := len (bo_applied_ids outcome); bu_denied := bo_denied outcome; bu_matched := matched;
          bu_capped := lc_max_list_limit limits <=? matched |}.

Definition migrate_metadata (dry_run : bool) (principal : string) : engine MetadataMigrationOutcome :=
  audit ← audit_draft AuditAction.Update (Some principal) (Some (JObj [("metadata_migration", JBool true)]));
  call (λ _, migrate_metadata_audited_impl dry_run (Some audit)).
Definition metadata_migration_report : engine MetadataMigrationReport := call (λ _, metadata_migration_report_impl).

(** [count_is_reference] of Stats.v shows that the fuel of the scan is enough. *)
Definition count_memories `{SqlitePages} (filter : MemoryFilter) (ctx : QueryContext) (top_tags_limit : Z) : engine MemoryStats :=
  let clamped := Z.min top_tags_limit (lc_max_top_tags_limit limits) in
  stats ← call (λ now, count_impl filter ctx now clamped);
  of_option stats.

Definition get_memory (id : MemoryId) (caller : option string) : engine (option Memory) := call (get_by_id id caller).

(** [half_life] is [search_config.activity_half_life_hours]. *)
Definition record_memory_use (half_life : f64) (ids : list MemoryId) (principal : string) (event_weight : f64) :
    engine RecordUseOutcome :=
  if bool_decide (ids = []) then mret record_use_default
  else
    now ← clock_now;
    call (λ _, record_memory_use_impl exp2 ids principal event_weight now half_life).

Definition engine_query_audit_log (memory_id : MemoryId) (limit : Z) : engine (list AuditEntry) :=
  call (λ _, query_audit_log memory_id (Z.min limit (lc_max_history_limit limits))).
End engine.
End requests.

(** ** Reasoning about computations

    A [logic] of computations that do not panic: two are used, for one
    session nobody disturbs ([quietly]) and for any session with any
    interference ([obeys]). *)

Class EngineLogic (P : ∀ A, engine A → (A → Prop) → Prop) : Prop := {
  logic_ret A (a : A) (Q : A → Prop) : Q a → P A (mret a) Q;
  logic_bind A B (m : engine A) (k : A → engine B) (Q : A → Prop) (Q' : B → Prop) :
    P A m Q → (∀ a, Q a → P B (k a) Q') → P B (m ≫= k) Q';
  logic_mono A (m : engine A) (Q Q' : A → Prop) : P A m Q → (∀ a, Q a → Q' a) → P A m Q'
}.
Lemma logic_option `{!EngineLogic P} {A} (o : option A) a (Q : A → Prop) : o = Some a → Q a → P A (of_option o) Q.
Proof. intros -> Ha. by apply logic_ret. Qed.

Section logics.
Context `{Render, UnicodeCase, Chrono} (dimensions : Z) (exp2 : f64 → f64).

(** The computation succeeds and leaves the session as it was. *)
Definition quietly (se : Session) : ∀ A, engine A → (A → Prop) → Prop := λ A m Q,
  ∃ a, m se = Some (Ok a, se) ∧ Q a.
#[export] Instance quietly_logic se : EngineLogic (quietly se).
Proof.
  split.
  - intros A a Q Ha. by exists a.
  - intros A B m k Q Q' (a & Hm & Ha) Hk. destruct (Hk a Ha) as (b & Hb & HQ).
    exists b. split; [|done]. unfold mbind, engine_bind. by rewrite Hm.
  - intros A m Q Q' (a & Hm & Ha) HQ. exists a. auto.
Qed.
Lemma quiet_call se A (m : DateTime → tx A) a (Q : A → Prop) :
  se_schedule se = [] → m (se_now se) (se_store se) = Ok (a, se_store se) → Q a →
  quietly se A (call dimensions exp2 m) Q.
Proof.
  intros Hq Hm Ha. exists a. split; [|done]. unfold call, mbind, engine_bind, try_call, turn, with_conn.
  rewrite Hq, Hm. cbn. by destruct se; cbn in *; subst.
Qed.

(** Between two sessions the store went through the operations the schedule
    holds and those of [mine], in some order. *)
Definition follows (mine : system_op → Prop) (se se' : Session) : Prop :=
  ∃ used os, se_schedule se = used ++ se_schedule se'
    ∧ se_store se' = run_systems dimensions exp2 (se_store se) os
    ∧ ∀ o, o ∈ os → o ∈ concat (map fst used) ∨ mine o.
#[export] Instance follows_preorder mine : PreOrder (follows mine).
Proof.
  split.
  - intros se. exists [], []. split_and!; [done..|]. intros o Ho. by apply not_elem_of_nil in Ho.
  - intros se1 se2 se3 (u1 & o1 & Hs1 & Hr1 & Ho1) (u2 & o2 & Hs2 & Hr2 & Ho2). exists (u1 ++ u2), (o1 ++ o2). split_and!.
    + by rewrite Hs1, Hs2, app_assoc.
    + unfold run_systems in *. by rewrite fold_left_app, <- Hr1.
    + intros o Ho. rewrite map_app, concat_app, elem_of_app. apply elem_of_app in Ho as [Ho|Ho].
      * destruct (Ho1 _ Ho); auto.
      * destruct (Ho2 _ Ho); auto.
Qed.
(** Whatever the others do, the computation ends, and follows. *)
Definition obeys (mine : system_op → Prop) : ∀ A, engine A → (A → Prop) → Prop := λ A m Q,
  ∀ se, ∃ r se', m se = Some (r, se') ∧ follows mine se se' ∧ ∀ a, r = Ok a → Q a.
#[export] Instance obeys_logic mine : EngineLogic (obeys mine).
Proof.
  split.
  - intros A a Q Ha se. exists (Ok a), se. split_and!; [done|reflexivity|]. by intros ? [= <-].
  - intros A B m k Q Q' Hm Hk se. destruct (Hm se) as ([a|e] & se1 & Hm1 & Hf1 & HQ).
    + destruct (Hk a (HQ a eq_refl) se1) as (r & se2 & Hk1 & Hf2 & HQ'). exists r, se2.
      split_and!; [|by etrans|done]. unfold mbind, engine_bind. by rewrite Hm1.
    + exists (Err e), se1. split_and!; [|done|done]. unfold mbind, engine_bind. by rewrite Hm1.
  - intros A m Q Q' Hm HQ se. destruct (Hm se) as (r & se1 & Hm1 & Hf & Hr). exists r, se1. eauto 6.
Qed.
Lemma obeys_fail mine A e (Q : A → Prop) : obeys mine A (fail e) Q.
Proof. intros se. exists (Err e), se. split_and!; [done|reflexivity|done]. Qed.
Lemma obeys_clock mine (Q : DateTime → Prop) : (∀ now, Q now) → obeys mine DateTime clock_now Q.
Proof. intros HQ se. exists (Ok (se_now se)), se. split_and!; [done|reflexivity|]. by intros ? [= <-]. Qed.
Lemma follows_turn mine se : follows mine se (turn dimensions exp2 se).
Proof.
  unfold turn, follows. destruct (se_schedule se) as [|[os now] rest] eqn:E.
  - exists [], []. split_and!; [by rewrite E|done|]. intros o Ho. by apply not_elem_of_nil in Ho.
  - exists [(os, now)], os. split_and!; [done|done|]. intros o Ho. left. cbn. by rewrite app_nil_r.
Qed.
(** A call that is one operation of the store. *)
Lemma obeys_try_call mine A (m : DateTime → tx A) (o : DateTime → operation) (Q : result StoreError.t A → Prop) :
  (∀ now, mine (Memories (o now))) → (∀ now, op_tx dimensions exp2 (o now) = forget (m now)) → (∀ r, Q r) →
  obeys mine _ (try_call dimensions exp2 m) Q.
Proof.
  intros Hmine Hop HQ se. set (t := turn dimensions exp2 se).
  destruct (with_conn (m (se_now t)) (se_store t)) as [r s] eqn:Hr.
  exists (Ok r), (mkSession s (se_now t) (se_schedule t)). split_and!.
  - unfold try_call. fold t. by rewrite Hr.
  - etrans; [apply follows_turn|]. fold t. exists [], [Memories (o (se_now t))]. split_and!; [done| |].
    + cbn. unfold run. rewrite Hop. unfold with_conn, forget, mbind, tx_bind in *.
      destruct (m (se_now t) (se_store t)) as [[a s1]|e]; by simplify_eq/=.
    + intros o' ->%list_elem_of_singleton. right. apply Hmine.
  - by intros ? [= <-].
Qed.
(** A call that only reads. *)
Lemma obeys_read mine A (m : DateTime → tx A) (Q : A → Prop) :
  (∀ now, steps eq (m now)) → (∀ now s a s', m now s = Ok (a, s') → Q a) → obeys mine A (call dimensions exp2 m) Q.
Proof.
  intros Hm HQ se. unfold call, try_call, mbind, engine_bind. set (t := turn dimensions exp2 se). unfold with_conn.
  assert (Ht : follows mine se t) by apply follows_turn.
  destruct (m (se_now t) (se_store t)) as [[a s]|e] eqn:Hr; cbn.
  - rewrite <- (Hm _ _ _ _ Hr). exists (Ok a), t. split_and!; [by destruct t|done|]. intros ? [= <-]. by eapply HQ.
  - exists (Err (EngineError.Store e)), t. split_and!; [by destruct t|done|done].
Qed.
End logics.

Section more_logic.
Context `{Render, UnicodeCase, Chrono} (dimensions : Z) (exp2 : f64 → f64).
Lemma follows_mono (mine mine' : system_op → Prop) se se' :
  (∀ o, mine o → mine' o) → follows dimensions exp2 mine se se' → follows dimensions exp2 mine' se se'.
Proof. intros Hm (used & os & Hs & Hr & Ho). exists used, os. split_and!; [done..|]. intros o Hin. destruct (Ho o Hin); auto. Qed.
Lemma call_run A (m : DateTime → tx A) se a :
  let t := turn dimensions exp2 se in
  m (se_now t) (se_store t) = Ok (a, se_store t) → call dimensions exp2 m se = Some (Ok a, t).
Proof.
  cbn zeta. intros Hm. unfold call, mbind, engine_bind, try_call, with_conn. rewrite Hm. cbn. by destruct (turn _ _ se).
Qed.
End more_logic.
