(* ===== verification/EngineConsolidation.v ===== *)
(** * EngineConsolidation: finding and merging duplicates

    [consolidate_memories] of [src/src/engine.rs] with the store's candidate
    listing (store/crud.rs) and neighbour query (store/search.rs). The
    breadth-first expansion runs on fuel two above the number of candidates,
    since a candidate enters the frontier of a component once. sqlite-vec's
    cosine distance is a parameter; a NaN distance is NULL in SQL and meets no
    condition, as the float comparisons here. *)
From Stdlib Require Import ZArith Lia Relations.
From stdpp Require Import base list option strings gmap sets pretty.
From S2P Require Import Integrity Governance Hierarchy Systems Prelude Text Floats Lists Errors Types Context StoreTypes Consolidation Ranking Store Membership Crud Revisions Operations Query Config Engine.

Class CosineDistance := { vec_distance_cosine : list f64 → list f64 → f64 }.

(** ** Candidates and neighbours in the store *)

(** The SQL condition on the writer. *)
Definition consolidation_writable (principal : string) (r : MemoryRow) : bool :=
  bool_decide (source_agent (r_provenance r) = Some principal)
  || match r_access_policy r with
     | AccessPolicy.Public => is_none (source_agent (r_provenance r))
     | AccessPolicy.Restricted allowed => any_eq principal allowed
     | AccessPolicy.Redacted _ => false
     end.
Definition consolidation_where (context_ids legacy_context_ids_any : option (list ContextId)) (principal : string)
    (now : DateTime) (s : Store) (id : MemoryId) (r : MemoryRow) : bool :=
  r_has_embedding r
  && is_none (r_superseded_by r)
  && check_opt (r_expires_at r) (λ exp, now <? exp)
  && is_some (st_vectors s !! id)
  && consolidation_writable principal r
  && check_opt context_ids (governed_where s id)
  && check_list legacy_context_ids_any (legacy_where s id).

Definition list_memories_with_embeddings (context_ids legacy_context_ids_any : option (list ContextId))
    (principal : string) (limit : Z) (now : DateTime) : tx (list MemoryWithEmbedding) :=
  limit_i64 ← of_result (usize_to_i64 limit "limit");
  memories ← reads (λ s, truncate limit_i64
               (select_memories (consolidation_where context_ids legacy_context_ids_any principal now s) s));
  if bool_decide (memories = []) then mret []
  else reads (λ s, omap (λ m, (λ embedding, {| we_memory := m; we_embedding := Some embedding;
                                               we_context_ids := memberships_of s (m_id m) |})
                               <$> st_vectors s !! m_id m) memories).

Definition cmp_similarity : MemoryId * f64 → MemoryId * f64 → comparison :=
  then_with (cmp_desc (cmp_on snd total_cmp)) (cmp_on fst N.compare).

Section neighbors.
Context `{CosineDistance} (dimensions : Z).

(** The rows of [ranked_candidates] above the threshold. *)
Definition ranked_candidate (source_memory_id : MemoryId) (candidate_ids : list MemoryId) (embedding : list f64)
    (min_cosine_similarity : f64) (s : Store) (p : MemoryId * list f64) : option (MemoryId * f64) :=
  row ← st_memories s !! fst p;
  let similarity := fsub f1 (vec_distance_cosine (snd p) embedding) in
  if bool_decide (fst p ∈ candidate_ids) && negb (fst p =? source_memory_id)%N && is_none (r_superseded_by row)
     && fleb min_cosine_similarity similarity && fleb similarity f1
  then Some (fst p, similarity) else None.
Definition find_embedding_neighbors_impl (source_memory_id : MemoryId) (candidate_ids : list MemoryId)
    (embedding : list f64) (min_cosine_similarity : f64) (limit : Z) : tx (list (MemoryId * f64)) :=
  if (limit =? 0) || bool_decide (candidate_ids = []) then mret []
  else
    _ ← of_result (validate_embedding_vector embedding dimensions);
    limit_i64 ← of_result (usize_to_i64 limit "neighbor limit");
    reads (λ s, truncate limit_i64 (sort_by cmp_similarity
      (omap (ranked_candidate source_memory_id candidate_ids embedding min_cosine_similarity s)
         (map_to_list (st_vectors s))))).
End neighbors.

(** ** Discovery *)

(** [candidate_ids_by_profile.entry(context_ids).or_default().push(id)]. *)
Definition candidate_ids_by_profile (memories : list MemoryWithEmbedding) : gmap (list ContextId) (list MemoryId) :=
  foldl (λ acc m, <[we_context_ids m := default [] (acc !! we_context_ids m) ++ [m_id (we_memory m)]]> acc) ∅ memories.

(** The state of one component: its members, the frontier, the pairs. *)
Definition component_state : Type := gset nat * list nat * list NeighborPair.

Section bfs.
Context (memories : list MemoryWithEmbedding) (similarity_threshold : f64).

(** The loop body of [collect_bfs_neighbors]; [None] is an index out of range. *)
Definition collect_neighbor (idx : gmap MemoryId nat) (current_idx : nat) (queried : gset nat) (st : component_state)
    (neighbor : MemoryId * f64) : option component_state :=
  let '(cluster_members, frontier, pairs) := st in
  let '(neighbor_id, cosine_similarity) := neighbor in
  match idx !! neighbor_id with
  | None => Some st
  | Some neighbor_idx =>
      neighbor_memory ← memories !! neighbor_idx;
      current ← memories !! current_idx;
      if negb (bool_decide (we_context_ids neighbor_memory = we_context_ids current)) then Some st
      else if bool_decide (neighbor_idx ∈ cluster_members) then Some st
      else if fltb cosine_similarity similarity_threshold then Some st
      else
        let pairs := pairs ++ [{| np_id_a := m_id (we_memory current); np_id_b := neighbor_id;
                                  np_similarity := cosine_similarity |}] in
        let cluster_members := {[neighbor_idx]} ∪ cluster_members in
        let frontier := if bool_decide (neighbor_idx ∈ queried) then frontier else frontier ++ [neighbor_idx] in
        Some (cluster_members, frontier, pairs)
  end.
Definition collect_bfs_neighbors (idx : gmap MemoryId nat) (current_idx : nat) (queried : gset nat)
    (st : component_state) (neighbors : list (MemoryId * f64)) : option component_state :=
  fold_option (collect_neighbor idx current_idx queried) st neighbors.
End bfs.

(** What [bfs_discover_pairs] carries from component to component. *)
Record Discovery := mkDiscovery {
  di_queried : gset nat;
  di_pairs : list NeighborPair;
  di_work : Z;
  di_capped : bool;
}.

Definition not_indexed : StoreError.t := StoreError.Conflict "consolidation candidate profile was not indexed".

Section consolidate.
Context `{Render, UnicodeCase, Chrono, CosineDistance} (dimensions : Z) (exp2 : f64 → f64) (limits : LimitsConfig).
#[local] Abbreviation call := (call dimensions exp2).
#[local] Abbreviation try_call := (try_call dimensions exp2).

Definition consolidation_candidate_limit : Z :=
  Z.min (lc_consolidation_candidate_limit limits) MAX_CONSOLIDATION_CANDIDATE_LIMIT_CEILING.
Definition consolidation_neighbor_limit : Z :=
  Z.min (lc_consolidation_neighbor_limit limits) MAX_CONSOLIDATION_NEIGHBOR_LIMIT_CEILING.

Section discover.
Context (memories : list MemoryWithEmbedding) (similarity_threshold : f64).

Definition distance_work_budget : Z := saturating_mul (len memories) consolidation_neighbor_limit.

(** [while let Some(current_idx) = frontier.pop_front()]. *)
Fixpoint expand_frontier (fuel : nat) (d : Discovery) (cluster_members : gset nat) (frontier : list nat) :
    engine (Discovery * gset nat) :=
  match fuel, frontier with
  | O, _ => panic
  | _, [] => mret (d, cluster_members)
  | S fuel, current_idx :: frontier =>
      if bool_decide (current_idx ∈ di_queried d) then expand_frontier fuel d cluster_members frontier
      else
        let d := mkDiscovery ({[current_idx]} ∪ di_queried d) (di_pairs d) (di_work d) (di_capped d) in
        current ← of_option (memories !! current_idx);
        match we_embedding current with
        | None => expand_frontier fuel d cluster_members frontier
        | Some current_emb =>
            match candidate_ids_by_profile memories !! we_context_ids current with
            | None => fail (EngineError.Store not_indexed)
            | Some candidate_ids =>
                let next_work := saturating_add (di_work d) (len candidate_ids) in
                if distance_work_budget <? next_work
                then mret (mkDiscovery (di_queried d) (di_pairs d) (di_work d) true, cluster_members)
                else
                  neighbors ← call (λ _, find_embedding_neighbors_impl dimensions (m_id (we_memory current)) candidate_ids
                                           current_emb similarity_threshold consolidation_neighbor_limit);
                  '(cluster_members, frontier, pairs) ←
                    of_option (collect_bfs_neighbors memories similarity_threshold (id_to_idx memories) current_idx
                      (di_queried d) (cluster_members, frontier, di_pairs d) neighbors);
                  expand_frontier fuel (mkDiscovery (di_queried d) pairs next_work (di_capped d)) cluster_members frontier
            end
        end
  end.

(** [for (start_idx, mem) in memories.iter().enumerate()]. *)
Fixpoint discover_from (d : Discovery) (clustered : gset nat) (starts : list (nat * MemoryWithEmbedding)) :
    engine Discovery :=
  match starts with
  | [] => mret d
  | (start_idx, mem) :: starts =>
      if bool_decide (start_idx ∈ clustered) || is_none (we_embedding mem) then discover_from d clustered starts
      else
        '(d, cluster_members) ← expand_frontier (S (S (length memories))) d {[start_idx]} [start_idx];
        if di_capped d then mret d else discover_from d (clustered ∪ cluster_members) starts
  end.

Definition bfs_discover_pairs : engine (list NeighborPair * bool) :=
  d ← discover_from (mkDiscovery ∅ [] 0 false) ∅ (zip (seq 0 (length memories)) memories);
  mret (di_pairs d, di_capped d).
End discover.

(** ** Merging *)

Definition snapshot_unavailable (who : string) : EngineError.t :=
  EngineError.Store (StoreError.Conflict ("consolidation " +:+ who +:+ " snapshot is unavailable")).
Definition json_f64 (v : f64) : Json := if is_finite v then JFloat v else JNull.

(** [Option::ok_or_else(…)?]. *)
Definition some_or_fail {A} (e : EngineError.t) (o : option A) : engine A :=
  match o with Some a => mret a | None => fail e end.

Definition merge_member (snapshots : gmap MemoryId ConsolidationSnapshot) (group : DuplicateGroup)
    (representative : ConsolidationSnapshot) (principal : string) (member_id : MemoryId) : engine bool :=
  member ← some_or_fail (snapshot_unavailable "member") (snapshots !! member_id);
  audit ← audit_draft AuditAction.Consolidate (Some principal)
            (Some (JObj [("representative_id", JStr (ulid (dg_representative_id group)));
                         ("similarity", json_f64 (dg_similarity group))]));
  outcome ← try_call (λ _, mark_superseded_if_unchanged member representative principal audit);
  match outcome with
  | Ok WriteOutcome.Applied => mret true
  | Ok (WriteOutcome.NotFound | WriteOutcome.Denied) => mret false
  | Err (StoreError.Conflict _) => mret false
  | Err e => fail (EngineError.Store e)
  end.
Fixpoint merge_members (snapshots : gmap MemoryId ConsolidationSnapshot) (group : DuplicateGroup)
    (representative : ConsolidationSnapshot) (principal : string) (member_ids : list MemoryId) : engine bool :=
  match member_ids with
  | [] => mret false
  | member_id :: member_ids =>
      merged ← merge_member snapshots group representative principal member_id;
      rest ← merge_members snapshots group representative principal member_ids;
      mret (merged || rest)
  end.
Definition merge_consolidation_group (snapshots : gmap MemoryId ConsolidationSnapshot) (principal : string)
    (group : DuplicateGroup) : engine bool :=
  representative ← some_or_fail (snapshot_unavailable "representative") (snapshots !! dg_representative_id group);
  merge_members snapshots group representative principal
    (List.filter (λ id, negb (id =? dg_representative_id group)%N) (dg_member_ids group)).
Fixpoint merge_consolidation_groups (snapshots : gmap MemoryId ConsolidationSnapshot) (principal : string)
    (groups : list DuplicateGroup) : engine bool :=
  match groups with
  | [] => mret false
  | group :: groups =>
      merged ← merge_consolidation_group snapshots principal group;
      rest ← merge_consolidation_groups snapshots principal groups;
      mret (merged || rest)
  end.

Definition snapshots_of (memories : list MemoryWithEmbedding) : gmap MemoryId ConsolidationSnapshot :=
  foldl (λ acc c, <[m_id (we_memory c) := consolidation_snapshot_from c]> acc) ∅ memories.

Definition usable_threshold (t : f64) : bool := is_finite t && fleb f0 t && fleb t f1.

Definition consolidate_memories (principal : string) (context_ids : list ContextId)
    (legacy_context_ids_any : option (list ContextId)) (similarity_threshold : f64) (limit : Z) (dry_run : bool) :
    engine ConsolidateResult :=
  if negb (usable_threshold similarity_threshold)
  then fail (EngineError.Validation (validation_error_new "similarity_threshold" "must be a finite number in [0.0, 1.0]"))
  else
    let candidate_limit := consolidation_candidate_limit in
    memories ← call (list_memories_with_embeddings (Some context_ids) legacy_context_ids_any principal
                       (saturating_add candidate_limit 1));
    let capped := candidate_limit <? len memories in
    let memories := truncate candidate_limit memories in
    let candidate_count := len memories in
    if candidate_count <? 2
    then mret {| cr_groups := []; cr_merged := false; cr_candidate_count := candidate_count; cr_capped := capped |}
    else
      '(pairs, distance_work_capped) ← bfs_discover_pairs memories similarity_threshold;
      let capped := capped || distance_work_capped in
      groups ← of_option (find_duplicate_groups_from_pairs memories pairs limit);
      if bool_decide (groups = []) || dry_run
      then mret {| cr_groups := groups; cr_merged := false; cr_candidate_count := candidate_count; cr_capped := capped |}
      else
        let snapshots := snapshots_of memories in
        merged ← merge_consolidation_groups snapshots principal groups;
        mret {| cr_groups := groups; cr_merged := merged; cr_candidate_count := candidate_count; cr_capped := capped |}.
End consolidate.

(** ** The expansion finds every neighbour *)

Section expansion.
Context (memories : list MemoryWithEmbedding) (similarity_threshold : f64).
#[local] Abbreviation idx := (id_to_idx memories).

Definition profile (i : nat) : option (list ContextId) := we_context_ids <$> memories !! i.
(** A neighbour the loop accepts: a candidate of the same profile, not below
    the threshold. *)
Definition accepted (neighbor : MemoryId * f64) (i j : nat) : Prop :=
  idx !! fst neighbor = Some j ∧ profile i = profile j ∧ fltb (snd neighbor) similarity_threshold = false.
Definition near (neighbors : list (MemoryId * f64)) (i j : nat) : Prop := ∃ p, p ∈ neighbors ∧ accepted p i j.

(** The answer of a query is connected to the memory asked about. *)
Definition linked (pairs : list NeighborPair) (neighbors : list (MemoryId * f64)) (i : nat) : Prop :=
  ∀ j, near neighbors i j → rst (edge idx pairs) i j.

Lemma edge_mono ps ps' i j : (∀ p, p ∈ ps → p ∈ ps') → edge idx ps i j → edge idx ps' i j.
Proof. intros Hps (p & Hp & ?). exists p. eauto. Qed.
Lemma linked_mono ps ps' l i : (∀ p, p ∈ ps → p ∈ ps') → linked ps l i → linked ps' l i.
Proof. intros Hps Hl j Hj. eapply rst_mono; [|by apply Hl]. intros. by eapply edge_mono. Qed.

(** What processing a list of neighbours of [i] does to the component. *)
Record grown (l : list (MemoryId * f64)) (i : nat) (x : MemoryId) (queried : gset nat) (st st' : component_state) : Prop := {
  gr_members : st.1.1 ⊆ st'.1.1;
  gr_pairs : ∀ p, p ∈ st.2 → p ∈ st'.2;
  gr_frontier : ∀ j, j ∈ st'.1.2 ↔ j ∈ st.1.2 ∨ j ∈ st'.1.1 ∧ j ∉ st.1.1 ∧ j ∉ queried;
  gr_new_member : ∀ j, j ∈ st'.1.1 → j ∈ st.1.1 ∨ near l i j ∧ rst (edge idx st'.2) i j;
  gr_new_pair : ∀ p, p ∈ st'.2 → p ∈ st.2 ∨ np_id_a p = x ∧ ∃ j, idx !! np_id_b p = Some j ∧ near l i j;
  gr_complete : ∀ j, near l i j → j ∈ st'.1.1;
  gr_size : (length st'.1.2 + size st.1.1 ≤ length st.1.2 + size st'.1.1)%nat;
}.
Lemma near_cons p l i j : near (p :: l) i j ↔ accepted p i j ∨ near l i j.
Proof. unfold near. setoid_rewrite elem_of_cons. naive_solver. Qed.
Lemma grown_nil i x queried st : grown [] i x queried st st.
Proof.
  split; auto.
  - intros j. naive_solver.
  - intros j (? & []%elem_of_nil & _).
Qed.
Lemma grown_trans p l i x queried st1 st2 st3 :
  grown [p] i x queried st1 st2 → grown l i x queried st2 st3 → grown (p :: l) i x queried st1 st3.
Proof.
  intros [m1 p1 f1 n1 q1 c1 s1] [m2 p2 f2 n2 q2 c2 s2].
  assert (Hn : ∀ j, near [p] i j ↔ accepted p i j).
  { intros j. rewrite near_cons. split; [|by left]. intros [?|(? & []%elem_of_nil & _)]. done. }
  split.
  - by etrans.
  - auto.
  - intros j. rewrite f2, f1. destruct (decide (j ∈ st2.1.1)); destruct (decide (j ∈ st1.1.1)); set_solver.
  - intros j Hj. rewrite near_cons. destruct (n2 j Hj) as [Hj2|[? ?]]; [|auto].
    destruct (n1 j Hj2) as [?|[?%Hn ?]]; [by left|right]. split; [by left|].
    eapply rst_mono; [|done]. intros. by eapply edge_mono.
  - intros q Hq. setoid_rewrite near_cons. destruct (q2 q Hq) as [Hq2|(? & j & ? & ?)]; [|naive_solver].
    destruct (q1 q Hq2) as [?|(? & j & ? & ?%Hn)]; naive_solver.
  - intros j [Hj%Hn|Hj]%near_cons; [|auto]. by apply m2, c1.
  - lia.
Qed.

Context (Hnd : NoDup (memory_ids memories)).

Lemma idx_of i m : memories !! i = Some m → idx !! m_id (we_memory m) = Some i.
Proof. intros Hm. apply id_to_idx_NoDup; [done|]. unfold memory_ids. by rewrite list_lookup_fmap, Hm. Qed.
Lemma lookup_idx y j : idx !! y = Some j → ∃ m, memories !! j = Some m.
Proof. intros Hj%id_to_idx_lt. by apply lookup_lt_is_Some. Qed.

Lemma collect_neighbor_ok i current queried st p :
  memories !! i = Some current →
  ∃ st', collect_neighbor memories similarity_threshold idx i queried st p = Some st'
    ∧ grown [p] i (m_id (we_memory current)) queried st st'.
Proof.
  intros Hi. destruct st as [[cl fr] ps], p as [y sim]. cbn.
  assert (Hsame : (∀ j, near [(y, sim)] i j → j ∈ cl) → grown [(y, sim)] i (m_id (we_memory current)) queried (cl, fr, ps) (cl, fr, ps)).
  { intros Hc. split; cbn; auto. intros j. naive_solver. }
  assert (Hone : ∀ j, near [(y, sim)] i j ↔ accepted (y, sim) i j).
  { intros j. rewrite near_cons. split; [|by left]. intros [?|(? & []%elem_of_nil & _)]. done. }
  destruct (idx !! y) as [j|] eqn:Hj.
  2:{ eexists. split; [done|]. apply Hsame. intros j (Hy & _)%Hone. cbn in Hy. congruence. }
  destruct (lookup_idx _ _ Hj) as [m Hm]. rewrite Hm, Hi. cbn.
  case_bool_decide as Hp; cbn.
  2:{ eexists. split; [done|]. apply Hsame. intros j' (Hy & Hp' & _)%Hone. cbn in Hy. rewrite Hj in Hy. simplify_eq.
      unfold profile in Hp'. rewrite Hm, Hi in Hp'. cbn in Hp'. congruence. }
  case_bool_decide as Hin.
  { eexists. split; [done|]. apply Hsame. intros j' (Hy & _)%Hone. cbn in Hy. congruence. }
  destruct (fltb sim similarity_threshold) eqn:Ht.
  { eexists. split; [done|]. apply Hsame. intros j' (_ & _ & Hs)%Hone. cbn in Hs. congruence. }
  assert (Ha : accepted (y, sim) i j).
  { split_and!; [done| |done]. unfold profile. rewrite Hm, Hi. cbn. by f_equal. }
  eexists. split; [done|]. split; cbn.
  - set_solver.
  - set_solver.
  - intros k. case_bool_decide; set_solver.
  - intros k [->%elem_of_singleton|?]%elem_of_union; [right|by left]. split; [by apply Hone|].
    apply rst_step. eexists. split; [apply elem_of_app; right; by left|]. split; [by apply idx_of|done].
  - intros q [?| ->%list_elem_of_singleton]%elem_of_app; [by left|right]. split; [done|]. exists j. split; [done|]. by apply Hone.
  - intros k (Hy & _)%Hone. cbn in Hy. rewrite Hj in Hy. simplify_eq. set_solver.
  - rewrite size_union by set_solver. rewrite size_singleton. case_bool_decide; rewrite ?length_app; cbn; lia.
Qed.
Lemma collect_ok i current queried l st :
  memories !! i = Some current →
  ∃ st', collect_bfs_neighbors memories similarity_threshold idx i queried st l = Some st'
    ∧ grown l i (m_id (we_memory current)) queried st st'.
Proof.
  intros Hi. unfold collect_bfs_neighbors. revert st. induction l as [|p l IH]; intros st; cbn.
  - exists st. split; [done|apply grown_nil].
  - destruct (collect_neighbor_ok i current queried st p Hi) as (st1 & -> & Hg1). cbn.
    destruct (IH st1) as (st2 & -> & Hg2). exists st2. split; [done|]. by eapply grown_trans.
Qed.
End expansion.

(** The profile index: the ids of the candidates of a profile, in order. *)
Definition profile_ids (memories : list MemoryWithEmbedding) (c : list ContextId) : list MemoryId :=
  memory_ids (List.filter (λ m, bool_decide (we_context_ids m = c)) memories).
Lemma profile_index_from (l : list MemoryWithEmbedding) (acc : gmap (list ContextId) (list MemoryId)) c :
  let index := foldl (λ acc m, <[we_context_ids m := default [] (acc !! we_context_ids m) ++ [m_id (we_memory m)]]> acc) acc l in
  default [] (index !! c) = default [] (acc !! c) ++ profile_ids l c
  ∧ (is_Some (acc !! c) ∨ profile_ids l c ≠ [] → is_Some (index !! c)).
Proof.
  cbn zeta. revert acc. induction l as [|m l IH]; intros acc; cbn.
  - unfold profile_ids. cbn. rewrite app_nil_r. split; [done|]. by intros [?|?].
  - destruct (IH (<[we_context_ids m := default [] (acc !! we_context_ids m) ++ [m_id (we_memory m)]]> acc)) as [-> Hs].
    unfold profile_ids in *. cbn. case_bool_decide as Hc; cbn.
    + subst c. rewrite lookup_insert_eq in *. cbn. split; [by rewrite <- app_assoc|]. intros _. apply Hs. by left.
    + rewrite lookup_insert_ne in * by done. done.
Qed.
Lemma profile_indexed memories i m :
  memories !! i = Some m →
  candidate_ids_by_profile memories !! we_context_ids m = Some (profile_ids memories (we_context_ids m)).
Proof.
  intros Hi. destruct (profile_index_from memories ∅ (we_context_ids m)) as [Hd Hs]. cbn zeta in *.
  fold (candidate_ids_by_profile memories) in *. rewrite lookup_empty in *. cbn in Hd.
  destruct Hs as [ids Hids].
  { right. intros Hn. unfold profile_ids, memory_ids in Hn. apply map_eq_nil in Hn.
    eapply not_elem_of_nil. rewrite <- Hn. apply elem_of_List_filter.
    split; [by eapply list_elem_of_lookup_2|]. by apply bool_decide_eq_true. }
  rewrite Hids in *. cbn in Hd. by subst.
Qed.
Lemma length_profile_ids memories c : len (profile_ids memories c) ≤ len memories.
Proof. unfold len, profile_ids, memory_ids. rewrite length_map. apply inj_le, List.filter_length_le. Qed.

Lemma size_below (X : gset nat) n : (∀ i, i ∈ X → (i < n)%nat) → (size X ≤ n)%nat.
Proof.
  intros HX. rewrite <- (size_set_seq (C := gset nat) 0 n). apply subseteq_size. intros i Hi. apply elem_of_set_seq.
  specialize (HX i Hi). lia.
Qed.

Section discovery.
Context `{Render, UnicodeCase, Chrono, CosineDistance} (dimensions : Z) (exp2 : f64 → f64) (limits : LimitsConfig).
Context (memories : list MemoryWithEmbedding) (similarity_threshold : f64) (Hnd : NoDup (memory_ids memories)).
Context (P : ∀ A, engine A → (A → Prop) → Prop) `{!EngineLogic P} (N : nat → list (MemoryId * f64) → Prop).
Context (Hquery : ∀ i m emb, memories !! i = Some m → we_embedding m = Some emb →
  P _ (call dimensions exp2 (λ _, find_embedding_neighbors_impl dimensions (m_id (we_memory m))
         (profile_ids memories (we_context_ids m)) emb similarity_threshold (consolidation_neighbor_limit limits))) (N i)).
#[local] Abbreviation idx := (id_to_idx memories).
#[local] Abbreviation n := (length memories).

Record good (d : Discovery) : Prop := {
  gd_queried : ∀ i, i ∈ di_queried d → (i < n)%nat;
  gd_sound : ∀ p, p ∈ di_pairs d → ∃ i m l j, memories !! i = Some m ∧ np_id_a p = m_id (we_memory m) ∧ N i l
    ∧ idx !! np_id_b p = Some j ∧ near memories similarity_threshold l i j;
  gd_complete : di_capped d = false → ∀ i m emb, i ∈ di_queried d → memories !! i = Some m → we_embedding m = Some emb →
    ∃ l, N i l ∧ linked memories similarity_threshold (di_pairs d) l i;
  gd_work : 0 ≤ di_work d ≤ Z.of_nat (size (di_queried d)) * len memories;
  gd_capped : len memories ≤ consolidation_neighbor_limit limits → di_capped d = false;
}.
(** The component that is being expanded from [start]. *)
Record expanding_from (start : nat) (d : Discovery) (cl : gset nat) (fr : list nat) : Prop := {
  ex_lt : ∀ j, j ∈ cl → (j < n)%nat;
  ex_connected : ∀ j, j ∈ cl → rst (edge idx (di_pairs d)) start j;
  ex_frontier : ∀ j, j ∈ fr → j ∈ cl;
  ex_open : ∀ j, j ∈ cl → j ∉ di_queried d → j ∈ fr;
}.

Lemma good_mark i d :
  good d → (i < n)%nat → i ∉ di_queried d →
  (∀ m emb, memories !! i = Some m → we_embedding m = Some emb → di_capped d = true) →
  good (mkDiscovery ({[i]} ∪ di_queried d) (di_pairs d) (di_work d) (di_capped d)).
Proof.
  intros [q s c w k] Hi Hni Hemb. split; cbn.
  - intros j [->%elem_of_singleton|Hj]%elem_of_union; auto.
  - done.
  - intros Hc j m emb [->%elem_of_singleton|Hj]%elem_of_union Hm He; [|by eauto].
    rewrite (Hemb m emb) in Hc by done. done.
  - rewrite size_union, size_singleton by set_solver. pose proof (len_nonneg memories). nia.
  - done.
Qed.
Lemma within_budget i d c :
  good d → (i < n)%nat → i ∉ di_queried d → len memories ≤ consolidation_neighbor_limit limits →
  saturating_add (di_work d) (len (profile_ids memories c)) ≤ distance_work_budget limits memories.
Proof.
  intros Hg Hi Hni Hk. pose proof (gd_work d Hg) as Hw. pose proof (length_profile_ids memories c) as Hl.
  assert (Hs : (size ({[i]} ∪ di_queried d : gset nat) ≤ n)%nat).
  { apply size_below. intros j [->%elem_of_singleton|Hj]%elem_of_union; [done|]. by apply (gd_queried d Hg). }
  rewrite size_union, size_singleton in Hs by set_solver.
  unfold distance_work_budget, saturating_add, saturating_mul. unfold len in *. nia.
Qed.

Lemma work_mark i d :
  good d → i ∉ di_queried d →
  di_work d + len memories ≤ Z.of_nat (size ({[i]} ∪ di_queried d)) * len memories ∧ 0 ≤ di_work d.
Proof.
  intros Hg Hi. pose proof (gd_work d Hg). rewrite size_union, size_singleton by set_solver.
  pose proof (len_nonneg memories). nia.
Qed.
Lemma queried_mark i d : good d → (i < n)%nat → ∀ j, j ∈ ({[i]} ∪ di_queried d : gset nat) → (j < n)%nat.
Proof. intros Hg Hi j [->%elem_of_singleton|Hj]%elem_of_union; [done|]. by apply (gd_queried d Hg). Qed.

Lemma good_out_of_budget i d c :
  good d → (i < n)%nat → i ∉ di_queried d →
  distance_work_budget limits memories < saturating_add (di_work d) (len (profile_ids memories c)) →
  good (mkDiscovery ({[i]} ∪ di_queried d) (di_pairs d) (di_work d) true).
Proof.
  intros Hg Hi Hq Hover. destruct (work_mark i d Hg Hq) as [Hw Hw0]. split; cbn.
  - by apply queried_mark.
  - apply (gd_sound d Hg).
  - done.
  - pose proof (len_nonneg memories). lia.
  - intros Hk. pose proof (within_budget i d c Hg Hi Hq Hk). lia.
Qed.

(** The state after the answer [l] for [i] has been processed. *)
Section answered.
Context (start i : nat) (m : MemoryWithEmbedding) (d : Discovery) (cl : gset nat) (fr : list nat) (l : list (MemoryId * f64)).
Context (st' : component_state) (c : list ContextId).
Context (Hg : good d) (Hq : i ∉ di_queried d) (Hm : memories !! i = Some m) (Hl : N i l).
Context (Hex : expanding_from start d cl (i :: fr)).
Context (Hgr : grown memories similarity_threshold l i (m_id (we_memory m)) ({[i]} ∪ di_queried d) (cl, fr, di_pairs d) st').
#[local] Abbreviation d' := (mkDiscovery ({[i]} ∪ di_queried d) st'.2
  (saturating_add (di_work d) (len (profile_ids memories c))) (di_capped d)).

Lemma expanding_answered : expanding_from start d' st'.1.1 st'.1.2.
Proof.
  destruct Hex as [e1 e2 e3 e4], Hgr as [m1 p1 f1 n1 q1 c1 s1]. cbn in *.
  assert (Hmono : ∀ j, j ∈ cl → rst (edge idx st'.2) start j).
  { intros j Hj. eapply rst_mono; [|by apply e2]. intros. by eapply edge_mono. }
  split; cbn.
  - intros j Hj. destruct (n1 j Hj) as [?|[(p & _ & Hi' & _) _]]; [auto|]. by eapply id_to_idx_lt.
  - intros j Hj. destruct (n1 j Hj) as [?|[_ Hr]]; [auto|]. eapply rst_trans; [|exact Hr]. apply Hmono, e3. by left.
  - intros j [Hj|[? _]]%f1; [|done]. apply m1, e3. by right.
  - intros j Hj Hnq. apply f1. destruct (decide (j ∈ cl)) as [Hc|]; [left|by right].
    destruct (elem_of_cons fr j i) as [Hd _]. destruct (Hd (e4 j Hc ltac:(set_solver))); set_solver.
Qed.
Lemma good_answered : good d'.
Proof.
  destruct (work_mark i d Hg Hq) as [Hw Hw0]. destruct expanding_answered as [x1 x2 x3 x4].
  destruct Hgr as [m1 p1 f1 n1 q1 c1 s1]. cbn in *. split; cbn.
  - apply queried_mark; [done|]. by eapply lookup_lt_Some.
  - intros p [Hp|(Ha & j & Hj & Hn)]%q1; [by apply (gd_sound d Hg)|]. by exists i, m, l, j.
  - intros Hc j mj emb Hj Hmj He. destruct (decide (j = i)) as [->|Hne].
    + exists l. split; [done|]. intros k Hk. eapply rst_trans; [apply rst_sym|]; apply x2.
      * apply m1, (ex_frontier _ _ _ _ Hex). by left.
      * by apply c1.
    + destruct (gd_complete d Hg Hc j mj emb) as (l' & ? & ?); [set_solver|done|done|]. exists l'. split; [done|].
      by eapply linked_mono.
  - pose proof (length_profile_ids memories c). pose proof (len_nonneg (profile_ids memories c)).
    unfold saturating_add, u64_max. lia.
  - apply (gd_capped d Hg).
Qed.
End answered.

Lemma expand_ok start fuel d cl fr :
  good d → di_capped d = false → expanding_from start d cl fr → (length fr + (n - size cl) < fuel)%nat →
  P _ (expand_frontier dimensions exp2 limits memories similarity_threshold fuel d cl fr) (λ r,
    good r.1 ∧ di_queried d ⊆ di_queried r.1 ∧ cl ⊆ r.2 ∧ (di_capped r.1 = false → r.2 ⊆ di_queried r.1)).
Proof.
  revert d cl fr. induction fuel as [|fuel IH]; intros d cl fr Hg Hc Hex Hf; [lia|].
  destruct fr as [|i fr]; cbn [expand_frontier].
  { apply logic_ret. cbn. split_and!; [done..|]. intros _ j Hj. destruct (decide (j ∈ di_queried d)); [done|].
    exfalso. eapply not_elem_of_nil. by apply (ex_open _ _ _ _ Hex). }
  cbn in Hf. case_bool_decide as Hq.
  { apply IH; [done|done| |lia]. destruct Hex as [e1 e2 e3 e4]. split; [done|done| |].
    - intros j Hj. apply e3. by right.
    - intros j Hj Hnq. destruct (elem_of_cons fr j i) as [Hd _]. destruct (Hd (e4 j Hj Hnq)) as [->|?]; done. }
  assert (Hi : (i < n)%nat) by (apply (ex_lt _ _ _ _ Hex), (ex_frontier _ _ _ _ Hex); by left).
  destruct (lookup_lt_is_Some_2 memories i Hi) as [m Hm].
  eapply (logic_bind _ _ _ _ (λ x, x = m)); [by eapply logic_option|]. intros ? ->.
  set (d1 := mkDiscovery ({[i]} ∪ di_queried d) (di_pairs d) (di_work d) (di_capped d)).
  destruct (we_embedding m) as [emb|] eqn:Hemb.
  2:{ eapply logic_mono; [apply (IH d1)|].
      - apply good_mark; [done..|]. intros ? ? ? ?. congruence.
      - done.
      - destruct Hex as [e1 e2 e3 e4]. split; [done|done| |]; cbn.
        + intros j Hj. apply e3. by right.
        + intros j Hj Hnq. destruct (elem_of_cons fr j i) as [Hd _]. destruct (Hd (e4 j Hj ltac:(set_solver))); set_solver.
      - lia.
      - cbn. intros [d2 cl2] (?&?&?&?). split_and!; [done| |done..]. set_solver. }
  rewrite (profile_indexed memories i m Hm). cbn zeta. case_match eqn:Hover.
  { apply logic_ret. cbn. split_and!; [|set_solver|done|done]. eapply (good_out_of_budget i d (we_context_ids m)); try done. apply Z.ltb_lt. exact Hover. }
  eapply logic_bind; [by apply Hquery|]. intros l Hl. cbn beta.
  destruct (collect_ok memories similarity_threshold Hnd i m ({[i]} ∪ di_queried d) l (cl, fr, di_pairs d) Hm)
    as ([[cl' fr'] ps'] & Hcollect & Hgr).
  eapply (logic_bind _ _ _ _ (λ x, x = (cl', fr', ps'))); [by eapply logic_option|]. intros ? ->.
  pose proof (good_answered start i m d cl fr l (cl', fr', ps') (we_context_ids m) Hg Hq Hm Hl Hex Hgr) as Hg'.
  pose proof (expanding_answered start i m d cl fr l (cl', fr', ps') (we_context_ids m) Hg Hq Hm Hl Hex Hgr) as Hex'.
  eapply logic_mono; [apply (IH _ _ _ Hg' Hc Hex')|].
  - pose proof (size_below _ _ (ex_lt _ _ _ _ Hex')). pose proof (gr_size _ _ _ _ _ _ _ _ Hgr). cbn in *. lia.
  - cbn. intros [d2 cl2] (?&?&?&?). split_and!; [done|set_solver| |done]. etrans; [|done]. apply (gr_members _ _ _ _ _ _ _ _ Hgr).
Qed.

Lemma good_init : good (mkDiscovery ∅ [] 0 false).
Proof.
  split; cbn; [| | |rewrite size_empty; lia|done].
  - intros i Hi. by apply not_elem_of_empty in Hi.
  - intros p Hp. by apply not_elem_of_nil in Hp.
  - intros _ i m emb Hi. by apply not_elem_of_empty in Hi.
Qed.
Lemma discover_ok starts : ∀ d clustered,
  good d → di_capped d = false → clustered ⊆ di_queried d →
  (∀ i m, (i, m) ∈ starts → memories !! i = Some m) →
  P _ (discover_from dimensions exp2 limits memories similarity_threshold d clustered starts) (λ d',
    good d' ∧ di_queried d ⊆ di_queried d' ∧
    (di_capped d' = false → ∀ i m, (i, m) ∈ starts → is_Some (we_embedding m) → i ∈ di_queried d')).
Proof.
  induction starts as [|[i m] starts IH]; intros d clustered Hg Hc Hcl Hin; cbn [discover_from].
  { apply logic_ret. split_and!; [done..|]. intros _ i m []%elem_of_nil. }
  assert (Hm : memories !! i = Some m) by (apply Hin; by left).
  assert (Hin' : ∀ i m, (i, m) ∈ starts → memories !! i = Some m) by (intros; apply Hin; by right).
  destruct (bool_decide (i ∈ clustered) || is_none (we_embedding m)) eqn:Hskip.
  { eapply logic_mono; [by apply (IH d clustered)|]. cbn. intros d' (Hg' & Hsub & Hall). split_and!; [done..|].
    intros Hc' j mj [[= -> ->]|Hj]%elem_of_cons He; [|by eapply Hall].
    apply Hsub, Hcl. destruct (we_embedding m); [|by destruct He].
    by rewrite orb_false_r, bool_decide_eq_true in Hskip. }
  eapply logic_bind; [apply (expand_ok i)|].
  - done.
  - done.
  - split.
    + intros j ->%elem_of_singleton. by eapply lookup_lt_Some.
    + intros j ->%elem_of_singleton. apply rst_refl.
    + intros j ->%list_elem_of_singleton. set_solver.
    + intros j ->%elem_of_singleton _. by left.
  - rewrite size_singleton. cbn. lia.
  - intros [d1 cl1] (Hg1 & Hsub1 & Hi1 & Hq1). cbn in *. destruct (di_capped d1) eqn:Hc1.
    + apply logic_ret. split_and!; [done..|congruence].
    + eapply logic_mono; [apply (IH d1); [done|done| |done]|].
      * apply union_least; [by etrans|auto].
      * cbn. intros d' (Hg' & Hsub & Hall). split_and!; [done|by etrans|].
        intros Hc' j mj [[= -> ->]|Hj]%elem_of_cons He; [|by eapply Hall]. set_solver.
Qed.

(** Every pair found is a link, the links of every candidate are covered, and
    few enough candidates are never capped. *)
Lemma bfs_discover_pairs_ok :
  P _ (bfs_discover_pairs dimensions exp2 limits memories similarity_threshold) (λ r,
    (∀ p, p ∈ r.1 → ∃ i m l j, memories !! i = Some m ∧ np_id_a p = m_id (we_memory m) ∧ N i l
       ∧ idx !! np_id_b p = Some j ∧ near memories similarity_threshold l i j)
    ∧ (r.2 = false → ∀ i m emb, memories !! i = Some m → we_embedding m = Some emb →
         ∃ l, N i l ∧ linked memories similarity_threshold r.1 l i)
    ∧ (len memories ≤ consolidation_neighbor_limit limits → r.2 = false)).
Proof.
  unfold bfs_discover_pairs. eapply logic_bind; [apply discover_ok|].
  - apply good_init.
  - done.
  - done.
  - intros i m. apply elem_of_zip_seq.
  - intros d (Hg & _ & Hall). apply logic_ret. cbn. split_and!; [apply (gd_sound d Hg)| |apply (gd_capped d Hg)].
    intros Hc i m emb Hm He. eapply (gd_complete d Hg Hc); [|done|done]. eapply Hall; [done|by apply elem_of_zip_seq|by eexists].
Qed.
End discovery.

(** ** The candidates *)

(** The SQL authorization condition is the write-access rule of the types. *)
Lemma consolidation_writable_access principal r :
  consolidation_writable principal r = write_access_allowed (r_provenance r) (r_access_policy r) principal.
Proof.
  unfold consolidation_writable, write_access_allowed. destruct (r_access_policy r); cbn; [|done|by rewrite orb_false_r].
  destruct (source_agent _) as [a|]; cbn; [by rewrite orb_false_r | by rewrite orb_true_r].
Qed.

Lemma elem_of_select_memories w s m :
  m ∈ select_memories w s ↔ ∃ id r, st_memories s !! id = Some r ∧ w id r = true ∧ m = row_to_memory id r.
Proof.
  unfold select_memories. rewrite (elem_of_sort_by cmp_newest), list_elem_of_omap. split.
  - intros ([id r] & Hin%elem_of_map_to_list & Hm). exists id, r. destruct (w id r); by simplify_eq.
  - intros (id & r & Hr & Hw & ->). exists (id, r). split; [by apply elem_of_map_to_list|]. by rewrite Hw.
Qed.
Lemma NoDup_select_memories w s : NoDup (map m_id (select_memories w s)).
Proof.
  unfold select_memories. rewrite (fmap_Permutation _ _ _ (sort_by_perm cmp_newest _)).
  apply (NoDup_omap_fst _ m_id); [|apply NoDup_fst_map_to_list].
  intros [id r] b. cbn. destruct (w id r); [|done]. by intros [= <-].
Qed.

Section candidates.
Context (context_ids legacy_context_ids_any : option (list ContextId)) (principal : string) (now : DateTime) (s : Store).
#[local] Abbreviation wanted := (consolidation_where context_ids legacy_context_ids_any principal now s).

Definition candidate_of (m : Memory) : option MemoryWithEmbedding :=
  (λ embedding, {| we_memory := m; we_embedding := Some embedding; we_context_ids := memberships_of s (m_id m) |})
    <$> st_vectors s !! m_id m.
(** Every memory the listing is about, newest first. *)
Definition eligible : list MemoryWithEmbedding := omap candidate_of (select_memories wanted s).

Lemma wanted_has_vector m : m ∈ select_memories wanted s → ∃ v, st_vectors s !! m_id m = Some v.
Proof.
  intros (id & r & _ & Hw & ->)%elem_of_select_memories. unfold consolidation_where in Hw.
  destruct (st_vectors s !! id) as [v|] eqn:Hv; [by exists v|]. cbn in Hw.
  by rewrite !andb_false_r in Hw.
Qed.
Lemma truncate_eligible limit : omap candidate_of (truncate limit (select_memories wanted s)) = truncate limit eligible.
Proof.
  assert (Hall : ∀ l, (∀ m, m ∈ l → ∃ v, st_vectors s !! m_id m = Some v) →
    ∀ k, omap candidate_of (take k l) = take k (omap candidate_of l)).
  { induction l as [|m l IH]; intros Hl k; [by destruct k|]. destruct (Hl m) as [v Hv]; [by left|].
    destruct k as [|k]; [done|]. cbn. destruct (candidate_of m) eqn:Hc; [|unfold candidate_of in Hc; by rewrite Hv in Hc].
    cbn. f_equal. apply IH. intros. apply Hl. by right. }
  apply Hall, wanted_has_vector.
Qed.
Lemma listing_run limit :
  limit ≤ i64_max → list_memories_with_embeddings context_ids legacy_context_ids_any principal limit now s = Ok (truncate limit eligible, s).
Proof.
  intros Hl. unfold list_memories_with_embeddings. unfold mbind, tx_bind, of_result, usize_to_i64, i64_try_from, reads.
  destruct (limit <=? i64_max) eqn:E; [|lia]. rewrite <- truncate_eligible.
  case_bool_decide as Hn; cbn; [by rewrite Hn|done].
Qed.
(** A candidate is an embedded, current, unexpired memory the principal may
    write. *)
Lemma elem_of_eligible c :
  c ∈ eligible ↔ ∃ id r v, st_memories s !! id = Some r ∧ st_vectors s !! id = Some v ∧ wanted id r = true
    ∧ c = {| we_memory := row_to_memory id r; we_embedding := Some v; we_context_ids := memberships_of s id |}.
Proof.
  unfold eligible. rewrite list_elem_of_omap. setoid_rewrite elem_of_select_memories. split.
  - intros (m & (id & r & Hr & Hw & ->) & Hc). unfold candidate_of in Hc. cbn in Hc.
    destruct (st_vectors s !! id) as [v|] eqn:Hv; [|done]. cbn in Hc. simplify_eq. by exists id, r, v.
  - intros (id & r & v & Hr & Hv & Hw & ->). exists (row_to_memory id r). split; [by exists id, r|].
    unfold candidate_of. cbn. by rewrite Hv.
Qed.
Lemma NoDup_eligible limit : NoDup (memory_ids (truncate limit eligible)).
Proof.
  rewrite <- truncate_eligible. unfold memory_ids.
  assert (Hl : NoDup (map m_id (truncate limit (select_memories wanted s)))).
  { rewrite map_truncate. apply NoDup_truncate, NoDup_select_memories. }
  revert Hl. generalize (truncate limit (select_memories wanted s)). intros l.
  induction l as [|m l IH]; cbn; [constructor|]. intros [Hm Hl]%NoDup_cons.
  destruct (candidate_of m) as [c0|] eqn:Hc0; cbn; [|by apply IH]. apply NoDup_cons. split; [|by apply IH].
  unfold candidate_of in Hc0. destruct (st_vectors s !! m_id m); [|done]. cbn in Hc0. simplify_eq. cbn.
  intros (c & Hc & Hin)%list_elem_of_fmap. apply list_elem_of_omap in Hin as (m' & Hm' & Hc'). apply Hm.
  unfold candidate_of in Hc'. destruct (st_vectors s !! m_id m'); [|done]. cbn in Hc'. simplify_eq. cbn in *.
  rewrite Hc. by apply list_elem_of_fmap_2.
Qed.
End candidates.

(** ** An undisturbed run *)

Lemma elem_of_profile_ids memories c y :
  y ∈ profile_ids memories c ↔ ∃ m, m ∈ memories ∧ we_context_ids m = c ∧ m_id (we_memory m) = y.
Proof.
  unfold profile_ids, memory_ids. rewrite list_elem_of_fmap. setoid_rewrite elem_of_List_filter.
  setoid_rewrite bool_decide_eq_true. naive_solver.
Qed.

Section similarity.
Context `{CosineDistance} (s : Store) (memories : list MemoryWithEmbedding) (similarity_threshold : f64) (neighbor_limit : Z).

(** The candidates of the profile of [m] within the threshold, most similar
    first, up to the limit. *)
Definition neighbors_of (m : MemoryWithEmbedding) : list (MemoryId * f64) :=
  match we_embedding m with
  | Some emb => truncate neighbor_limit (sort_by cmp_similarity
      (omap (ranked_candidate (m_id (we_memory m)) (profile_ids memories (we_context_ids m)) emb similarity_threshold s)
         (map_to_list (st_vectors s))))
  | None => []
  end.
(** [y] is among the neighbours of [x]. *)
Definition similar (x y : MemoryId) : Prop :=
  ∃ mx sim, mx ∈ memories ∧ m_id (we_memory mx) = x ∧ (y, sim) ∈ neighbors_of mx.
(** [x] and [y] have the same ordered profile and a cosine similarity between
    the threshold and one. *)
Definition alike (x y : MemoryId) : Prop :=
  ∃ mx my ex ey, mx ∈ memories ∧ my ∈ memories ∧ m_id (we_memory mx) = x ∧ m_id (we_memory my) = y ∧ x ≠ y
    ∧ we_context_ids mx = we_context_ids my ∧ we_embedding mx = Some ex ∧ we_embedding my = Some ey
    ∧ fleb similarity_threshold (fsub f1 (vec_distance_cosine ey ex)) = true
    ∧ fleb (fsub f1 (vec_distance_cosine ey ex)) f1 = true.

Lemma neighbors_run dimensions m emb :
  m ∈ memories → we_embedding m = Some emb → validate_embedding_vector emb dimensions = Ok () →
  0 ≤ neighbor_limit ≤ i64_max →
  find_embedding_neighbors_impl dimensions (m_id (we_memory m)) (profile_ids memories (we_context_ids m)) emb
    similarity_threshold neighbor_limit s = Ok (neighbors_of m, s).
Proof.
  intros Hm He Hv Hk. unfold find_embedding_neighbors_impl, neighbors_of. rewrite He.
  rewrite (bool_decide_eq_false_2 (profile_ids memories (we_context_ids m) = [])), orb_false_r.
  2:{ intros Hn. eapply not_elem_of_nil. rewrite <- Hn. apply elem_of_profile_ids. by exists m. }
  destruct (neighbor_limit =? 0) eqn:Hz.
  - apply Z.eqb_eq in Hz as ->. done.
  - unfold mbind, tx_bind, of_result, usize_to_i64, i64_try_from, reads. rewrite Hv.
    destruct (neighbor_limit <=? i64_max) eqn:E; [done|lia].
Qed.
Lemma ranked_candidate_inv x ids emb p y sim :
  ranked_candidate x ids emb similarity_threshold s p = Some (y, sim) ↔
  ∃ row, st_memories s !! y = Some row ∧ y = fst p ∧ y ∈ ids ∧ y ≠ x ∧ r_superseded_by row = None
    ∧ sim = fsub f1 (vec_distance_cosine (snd p) emb) ∧ fleb similarity_threshold sim = true ∧ fleb sim f1 = true.
Proof.
  unfold ranked_candidate. destruct p as [z v]. cbn. destruct (st_memories s !! z) as [row|] eqn:Hz; cbn.
  2:{ split; [done|]. intros (row & Hr & -> & _). congruence. }
  split.
  - case_match eqn:Hc; [|done]. intros [= <- <-]. rewrite !andb_true_iff in Hc. destruct Hc as ((((H1 & H2) & H3) & H4) & H5).
    apply bool_decide_eq_true in H1. apply negb_true_iff, N.eqb_neq in H2. exists row. split_and!; try done.
    by destruct (r_superseded_by row).
  - intros (row' & Hr & -> & Hin & Hne & Hs & -> & H4 & H5). rewrite Hz in Hr. simplify_eq.
    rewrite bool_decide_eq_true_2, Hs, H4, H5 by done. apply N.eqb_neq in Hne. by rewrite Hne.
Qed.
Lemma elem_of_neighbors m y sim :
  (y, sim) ∈ neighbors_of m → ∃ my, my ∈ memories ∧ m_id (we_memory my) = y ∧ we_context_ids my = we_context_ids m
    ∧ fltb sim similarity_threshold = false.
Proof.
  unfold neighbors_of. destruct (we_embedding m) as [emb|]; [|by intros []%not_elem_of_nil].
  intros Hin%elem_of_truncate. apply elem_of_sort_by, list_elem_of_omap in Hin as (p & _ & Hp).
  apply ranked_candidate_inv in Hp as (row & _ & _ & Hids & _ & _ & _ & Ht & _).
  apply elem_of_profile_ids in Hids as (my & ? & ? & ?). exists my. split_and!; [done..|]. by apply fleb_not_fltb.
Qed.

Context (Hnd : NoDup (memory_ids memories)).
Context (Hstored : ∀ m, m ∈ memories → ∃ row v, st_memories s !! m_id (we_memory m) = Some row ∧ r_superseded_by row = None
  ∧ st_vectors s !! m_id (we_memory m) = Some v ∧ we_embedding m = Some v).

(** When the limit is no less than the number of candidates, being a
    neighbour is being alike. *)
Lemma similar_alike x y : len memories ≤ neighbor_limit → similar x y ↔ alike x y.
Proof.
  intros Hk.
  assert (Hall : ∀ mx ex, mx ∈ memories → we_embedding mx = Some ex → ∀ y sim,
    (y, sim) ∈ neighbors_of mx ↔ ∃ v, st_vectors s !! y = Some v
      ∧ ranked_candidate (m_id (we_memory mx)) (profile_ids memories (we_context_ids mx)) ex similarity_threshold s (y, v)
        = Some (y, sim)).
  { intros mx ex Hmx He y' sim. unfold neighbors_of. rewrite He. rewrite truncate_all.
    - rewrite elem_of_sort_by, list_elem_of_omap. split.
      + intros ([z v] & Hz%elem_of_map_to_list & Hr). exists v.
        pose proof Hr as (row & _ & -> & _)%ranked_candidate_inv. done.
      + intros (v & Hv & Hr). exists (y', v). split; [by apply elem_of_map_to_list|done].
    - etrans; [|exact Hk]. unfold len. rewrite sort_by_length. etrans; [|apply (length_profile_ids memories (we_context_ids mx))].
      unfold len. apply inj_le. rewrite <- (length_map fst (omap _ _)). apply submseteq_length, NoDup_submseteq.
      + apply (NoDup_omap_fst _ fst); [|apply NoDup_fst_map_to_list].
        intros p [z sim'] Hp. by apply ranked_candidate_inv in Hp as (row & _ & -> & _).
      + intros z ([z' sim'] & -> & Hz)%list_elem_of_fmap. apply list_elem_of_omap in Hz as (p & _ & Hp).
        by apply ranked_candidate_inv in Hp as (row & _ & _ & Hids & _). }
  split.
  - intros (mx & sim & Hmx & <- & Hin). destruct (Hstored mx Hmx) as (rx & ex & _ & _ & _ & Hex).
    apply (Hall mx ex Hmx Hex) in Hin as (v & Hv & Hr).
    apply ranked_candidate_inv in Hr as (row & _ & _ & Hids & Hne & _ & -> & Ht & H1).
    apply elem_of_profile_ids in Hids as (my & Hmy & Hc & <-).
    destruct (Hstored my Hmy) as (ry & ey & _ & _ & Hvy & Hey). rewrite Hv in Hvy. simplify_eq.
    exists mx, my, ex, ey. split_and!; done || by apply not_eq_sym.
  - intros (mx & my & ex & ey & Hmx & Hmy & <- & <- & Hne & Hc & Hex & Hey & Ht & H1).
    eexists mx, _. split_and!; [done|done|]. apply (Hall mx ex Hmx Hex).
    destruct (Hstored my Hmy) as (ry & v & Hry & Hs & Hv & Hey'). rewrite Hey in Hey'. simplify_eq.
    exists v. split; [done|]. apply ranked_candidate_inv. exists ry. split_and!; [done|done| |by apply not_eq_sym|done|done|done|done].
    apply elem_of_profile_ids. by exists my.
Qed.

(** The pairs the expansion found connect what the neighbours connect. *)
Lemma found_duplicates pairs x y :
  (∀ p, p ∈ pairs → ∃ i m l j, memories !! i = Some m ∧ np_id_a p = m_id (we_memory m)
     ∧ (∃ m', memories !! i = Some m' ∧ l = neighbors_of m')
     ∧ id_to_idx memories !! np_id_b p = Some j ∧ near memories similarity_threshold l i j) →
  (∀ i m emb, memories !! i = Some m → we_embedding m = Some emb →
     ∃ l, (∃ m', memories !! i = Some m' ∧ l = neighbors_of m') ∧ linked memories similarity_threshold pairs l i) →
  duplicates memories pairs x y ↔ clos_refl_sym_trans MemoryId similar x y.
Proof.
  intros Hsound Hcomplete. split.
  - induction 1 as [x y (Hx & Hy & p & Hp & <- & <-)| | |]; [|by apply rst_refl|by apply rst_sym|by eapply rst_trans].
    destruct (Hsound p Hp) as (i & m & l & j & Hi & Ha & (m' & Hi' & ->) & Hj & ([z sim] & Hz & Hzj & _ & _)). simplify_eq.
    apply rst_step. exists m, sim. split_and!; [by eapply list_elem_of_lookup_2|done|].
    cbn in Hzj. apply id_to_idx_Some in Hj, Hzj. by simplify_eq.
  - induction 1 as [x y (mx & sim & Hmx & <- & Hin)| | |]; [|by apply rst_refl|by apply rst_sym|by eapply rst_trans].
    pose proof Hmx as [i Hi]%list_elem_of_lookup.
    destruct (Hstored mx Hmx) as (rx & ex & _ & _ & _ & Hex).
    destruct (Hcomplete i mx ex Hi Hex) as (l & (m' & Hi' & ->) & Hlinked). simplify_eq.
    destruct (elem_of_neighbors _ _ _ Hin) as (my & Hmy & <- & Hc & Ht).
    apply list_elem_of_lookup in Hmy as [j Hj].
    apply (rst_duplicates memories pairs i j); [done|unfold memory_ids; by rewrite list_lookup_fmap, ?Hi, ?Hj..|].
    apply Hlinked. eexists. split; [exact Hin|]. split_and!; [by apply idx_of| |done].
    unfold profile. rewrite Hi, Hj. cbn. by f_equal.
Qed.
End similarity.

(** Groups of at least two candidates that are classes of [R]-connected
    candidates; all such classes, when the limit allows as many. *)
Definition partitioned (memories : list MemoryWithEmbedding) (R : MemoryId → MemoryId → Prop) (limit : Z)
    (groups : list DuplicateGroup) : Prop :=
  (∀ g, g ∈ groups → 2 ≤ dg_member_count g ∧ len (dg_member_ids g) = dg_member_count g
     ∧ dg_representative_id g ∈ dg_member_ids g ∧
     ∀ x, x ∈ dg_member_ids g → ∀ y,
       y ∈ dg_member_ids g ↔ y ∈ memory_ids memories ∧ clos_refl_sym_trans MemoryId R x y) ∧
  (len memories ≤ limit → ∀ x y, x ∈ memory_ids memories → y ∈ memory_ids memories → x ≠ y →
     clos_refl_sym_trans MemoryId R x y → ∃ g, g ∈ groups ∧ x ∈ dg_member_ids g ∧ y ∈ dg_member_ids g).
Lemma partitioned_ext memories R S limit groups :
  (∀ x y, clos_refl_sym_trans MemoryId R x y ↔ clos_refl_sym_trans MemoryId S x y) →
  partitioned memories R limit groups → partitioned memories S limit groups.
Proof.
  intros HRS [H1 H2]. split.
  - intros g Hg. destruct (H1 g Hg) as (?&?&?&Hm). split_and!; [done..|]. intros x Hx y. by rewrite <- HRS, Hm.
  - intros Hl x y. rewrite <- HRS. by apply H2.
Qed.
Lemma closure_ext {A} (R S : A → A → Prop) x y :
  (∀ x y, R x y ↔ S x y) → clos_refl_sym_trans A R x y ↔ clos_refl_sym_trans A S x y.
Proof.
  intros HRS. split; induction 1 as [x y Hxy| | |]; eauto using rst_refl, rst_sym, rst_trans; apply rst_step, HRS, Hxy.
Qed.
Lemma partitioned_small memories R limit : len memories < 2 → partitioned memories R limit [].
Proof.
  intros Hs. split; [by intros g []%not_elem_of_nil|]. intros _ x y Hx Hy Hne. exfalso. unfold memory_ids, len in *.
  destruct memories as [|m [|m' l]]; cbn in *; [by apply not_elem_of_nil in Hx| |lia].
  apply list_elem_of_singleton in Hx, Hy. congruence.
Qed.

Section undisturbed.
Context `{Render, UnicodeCase, Chrono, CosineDistance} (dimensions : Z) (exp2 : f64 → f64) (limits : LimitsConfig).
Context (s : Store) (now : DateTime) (principal : string) (context_ids : list ContextId).
Context (legacy_context_ids_any : option (list ContextId)) (similarity_threshold : f64).
#[local] Abbreviation se := (mkSession s now []).
#[local] Abbreviation candidate_limit := (consolidation_candidate_limit limits).
#[local] Abbreviation neighbor_limit := (consolidation_neighbor_limit limits).
#[local] Abbreviation all_eligible := (eligible (Some context_ids) legacy_context_ids_any principal now s).
#[local] Abbreviation memories := (truncate candidate_limit all_eligible).
Context (Hcandidates : 0 ≤ lc_consolidation_candidate_limit limits) (Hneighbors : 0 ≤ lc_consolidation_neighbor_limit limits).
Context (Hvectors : ∀ id v, st_vectors s !! id = Some v → validate_embedding_vector v dimensions = Ok ()).

Lemma candidates_stored m :
  m ∈ memories → ∃ row v, st_memories s !! m_id (we_memory m) = Some row ∧ r_superseded_by row = None
    ∧ st_vectors s !! m_id (we_memory m) = Some v ∧ we_embedding m = Some v.
Proof.
  intros (id & r & v & Hr & Hv & Hw & ->)%elem_of_truncate%elem_of_eligible. exists r, v. cbn. split_and!; try done.
  unfold consolidation_where in Hw. rewrite !andb_true_iff in Hw. destruct Hw as ((((((_ & Hsup) & _) & _) & _) & _) & _).
  by destruct (r_superseded_by r).
Qed.
Lemma quiet_pairs :
  quietly se _ (bfs_discover_pairs dimensions exp2 limits memories similarity_threshold) (λ r,
    (r.2 = false → ∀ x y, duplicates memories r.1 x y
       ↔ clos_refl_sym_trans MemoryId (similar s memories similarity_threshold neighbor_limit) x y)
    ∧ (len memories ≤ neighbor_limit → r.2 = false)).
Proof.
  eapply logic_mono; [eapply (bfs_discover_pairs_ok dimensions exp2 limits memories similarity_threshold
    (NoDup_eligible _ _ _ _ _ _) (quietly se)
    (λ i l, ∃ m, memories !! i = Some m ∧ l = neighbors_of s memories similarity_threshold neighbor_limit m))|].
  - intros i m emb Hi He. apply list_elem_of_lookup_2 in Hi as Hm.
    destruct (candidates_stored m Hm) as (row & v & _ & _ & Hv & He'). simplify_eq.
    eapply quiet_call; [done| |by eexists]. cbn. apply neighbors_run; [done|done|by eapply Hvectors|].
    unfold consolidation_neighbor_limit, MAX_CONSOLIDATION_NEIGHBOR_LIMIT_CEILING, i64_max. lia.
  - intros [pairs capped] (Hsound & Hcomplete & Hc). cbn in *. split; [|done]. intros Hcap x y.
    apply found_duplicates; [apply NoDup_eligible|apply candidates_stored|done|by apply Hcomplete].
Qed.

End undisturbed.

(** ** Merging, with others writing *)

(** The effect of one supersession of [x] by [y]: only that row changes, and
    the audit log grows. *)
Definition superseded_in (t : Store) (x y : MemoryId) (row : MemoryRow) (audit : AuditDraft) : Store :=
  on_audit (λ log, log ++ [{| au_memory_id := x; au_action := AuditAction.to_string (ad_action audit);
                              au_caller_agent := ad_caller_agent audit; au_timestamp := ad_timestamp audit;
                              au_details := ad_details audit |}])
    (on_memories <[x := set_record_revision (r_record_revision row + 1) (set_superseded_by (Some y) row)]> t).

Section step.
Context `{Render, UnicodeCase, Chrono} (dimensions : Z) (exp2 : f64 → f64).

Lemma mark_superseded_inv t x y b t' :
  mark_superseded x y t = Ok (b, t') →
  match st_memories t !! x with
  | None => b = false ∧ t' = t
  | Some row => b = true ∧ r_superseded_by row = None
      ∧ t' = on_memories <[x := set_record_revision (r_record_revision row + 1) (set_superseded_by (Some y) row)]> t
  end.
Proof.
  unfold mark_superseded, fetch_memory_by_id. intros Hr. inv_tx.
  destruct (st_memories t !! x) as [row|] eqn:Hx; cbn in *; [|by inv_tx].
  destruct (is_some (r_superseded_by row)) eqn:Hs; cbn in *; inv_tx. unfold update_row in *. rewrite Hx in *. inv_tx.
  split_and!; [done|by destruct (r_superseded_by row)|]. unfold on_memories. f_equal.
  apply map_eq. intros j. destruct (decide (j = x)) as [->|Hj].
  - by rewrite lookup_alter_eq, lookup_insert_eq, Hx.
  - by rewrite lookup_alter_ne, lookup_insert_ne by done.
Qed.

(** One merge, whatever the store: nothing happens unless both memories are
    as their snapshots say and the principal may write the member. *)
Lemma consolidate_step t m c p a :
  let t' := run dimensions exp2 t (OpConsolidate m c p a) in
  t' = t ∨
  ∃ row row_c, st_memories t !! cs_memory_id m = Some row ∧ st_memories t !! cs_memory_id c = Some row_c
    ∧ r_record_revision row = cs_record_revision m ∧ r_record_revision row_c = cs_record_revision c
    ∧ memberships_of t (cs_memory_id m) = cs_context_ids m ∧ memberships_of t (cs_memory_id c) = cs_context_ids c
    ∧ cs_memory_id m ≠ cs_memory_id c ∧ cs_context_ids m = cs_context_ids c ∧ r_superseded_by row = None
    ∧ write_access_allowed (r_provenance row) (r_access_policy row) p = true
    ∧ t' = superseded_in t (cs_memory_id m) (cs_memory_id c) row a.
Proof.
  cbn zeta. unfold run, op_tx, with_conn. destruct (forget _ t) as [[u t']|e] eqn:Hrun; [|by left]. cbn.
  unfold forget in Hrun. apply tx_bind_Ok in Hrun as (o & t1 & Hrun & [= _ <-]%tx_ret_Ok).
  unfold mark_superseded_if_unchanged, fetch_memory_by_id, consolidation_context_profile in Hrun. inv_tx.
  destruct (st_memories t !! cs_memory_id m) as [row|] eqn:Hm; cbn in *; [|inv_tx; by left].
  destruct (st_memories t !! cs_memory_id c) as [row_c|] eqn:Hc; cbn in *; [|inv_tx; by left].
  destruct (has_write_access _ p) eqn:Hacc; cbn in *; [|inv_tx; by left]. inv_tx.
  match goal with Hs : mark_superseded _ _ _ = Ok _ |- _ => apply mark_superseded_inv in Hs; rewrite Hm in Hs; destruct Hs as (-> & Hs & ->) end.
  unfold insert_audit_draft, insert_audit_entry in *. inv_tx. right. exists row, row_c.
  repeat match goal with Hb : (_ || _) = false |- _ => apply orb_false_iff in Hb as [? ?] end.
  repeat match goal with Hb : negb _ = false |- _ => apply negb_false_iff in Hb end.
  repeat match goal with Hb : bool_decide _ = true |- _ => apply bool_decide_eq_true in Hb end.
  split_and!; try done; lia || by apply N.eqb_neq.
Qed.
End step.

Lemma snapshots_of_Some memories x sn :
  snapshots_of memories !! x = Some sn → ∃ m, m ∈ memories ∧ m_id (we_memory m) = x ∧ sn = consolidation_snapshot_from m.
Proof.
  unfold snapshots_of. assert (Hg : ∀ l (acc : gmap MemoryId ConsolidationSnapshot), foldl (λ acc c, <[m_id (we_memory c) := consolidation_snapshot_from c]> acc) acc l !! x = Some sn →
    (∃ m, m ∈ l ∧ m_id (we_memory m) = x ∧ sn = consolidation_snapshot_from m) ∨ acc !! x = Some sn).
  { induction l as [|m l IH]; intros acc; cbn; [by right|]. intros [(m' & ? & ?)|Ha]%IH; [left; exists m'; split; [by right|done]|].
    destruct (decide (m_id (we_memory m) = x)) as [<-|Hne].
    - rewrite lookup_insert_eq in Ha. simplify_eq. left. exists m. split; [by left|done].
    - rewrite lookup_insert_ne in Ha by done. by right. }
  intros [?|Hn]%Hg; [done|]. by rewrite lookup_empty in Hn.
Qed.

Section disturbed.
Context `{Render, UnicodeCase, Chrono, CosineDistance} (dimensions : Z) (exp2 : f64 → f64) (limits : LimitsConfig).
Context (principal : string).

(** The merges of [groups]: a member that is not the representative, by the
    representative, as they were discovered. *)
Definition merges (memories : list MemoryWithEmbedding) (groups : list DuplicateGroup) (o : system_op) : Prop :=
  ∃ g m c a, g ∈ groups ∧ m ∈ memories ∧ c ∈ memories ∧ m_id (we_memory m) ∈ dg_member_ids g
    ∧ m_id (we_memory c) = dg_representative_id g
    ∧ o = Memories (OpConsolidate (consolidation_snapshot_from m) (consolidation_snapshot_from c) principal a).
#[local] Abbreviation obeys := (obeys dimensions exp2).

Lemma merge_member_obeys memories groups g c x :
  g ∈ groups → c ∈ memories → m_id (we_memory c) = dg_representative_id g → x ∈ dg_member_ids g →
  obeys (merges memories groups) _ (merge_member dimensions exp2 (snapshots_of memories) g (consolidation_snapshot_from c)
    principal x) (λ _, True).
Proof.
  intros Hg Hc Hr Hx. unfold merge_member.
  destruct (snapshots_of memories !! x) as [sn|] eqn:Hsn; [|apply (logic_bind _ _ _ _ (λ _, False)); [apply obeys_fail|by intros]].
  apply snapshots_of_Some in Hsn as (m & Hm & <- & ->). cbn [some_or_fail].
  eapply (logic_bind _ _ _ _ (λ v, v = consolidation_snapshot_from m)); [by apply logic_ret|]. intros ? ->.
  eapply (logic_bind _ _ _ _ (λ _, True)).
  { unfold audit_draft. eapply (logic_bind _ _ _ _ (λ _, True)); [by apply obeys_clock|]. intros now _. by apply logic_ret. }
  intros audit _. eapply (logic_bind _ _ _ _ (λ _, True)).
  { apply (obeys_try_call _ _ _ _ _ (λ _, OpConsolidate (consolidation_snapshot_from m) (consolidation_snapshot_from c) principal audit));
      [|done|done]. intros _. by exists g, m, c, audit. }
  intros [[| |]|[]] _; by first [apply logic_ret | apply obeys_fail].
Qed.
Lemma merge_group_obeys memories groups g :
  g ∈ groups →
  obeys (merges memories groups) _ (merge_consolidation_group dimensions exp2 (snapshots_of memories) principal g) (λ _, True).
Proof.
  intros Hg. unfold merge_consolidation_group.
  destruct (snapshots_of memories !! dg_representative_id g) as [sn|] eqn:Hsn;
    [|apply (logic_bind _ _ _ _ (λ _, False)); [apply obeys_fail|by intros]].
  apply snapshots_of_Some in Hsn as (c & Hc & Hcr & ->). cbn [some_or_fail].
  eapply (logic_bind _ _ _ _ (λ v, v = consolidation_snapshot_from c)); [by apply logic_ret|]. intros ? ->.
  assert (Hin : ∀ x, x ∈ List.filter (λ id, negb (id =? dg_representative_id g)%N) (dg_member_ids g) → x ∈ dg_member_ids g).
  { intros x Hx. by apply elem_of_List_filter in Hx as [? _]. }
  revert Hin. generalize (List.filter (λ id, negb (id =? dg_representative_id g)%N) (dg_member_ids g)). intros l.
  induction l as [|x l IH]; intros Hin; cbn [merge_members]; [by apply logic_ret|].
  eapply logic_bind; [apply (merge_member_obeys memories groups g c x Hg Hc Hcr); apply Hin; by left|]. intros b _.
  eapply logic_bind; [apply IH; intros; apply Hin; by right|]. intros b' _. by apply logic_ret.
Qed.
Lemma merge_groups_obeys memories groups l :
  (∀ g, g ∈ l → g ∈ groups) →
  obeys (merges memories groups) _ (merge_consolidation_groups dimensions exp2 (snapshots_of memories) principal l) (λ _, True).
Proof.
  induction l as [|g l IH]; intros Hin; cbn [merge_consolidation_groups]; [by apply logic_ret|].
  eapply logic_bind; [apply merge_group_obeys, Hin; by left|]. intros b _.
  eapply logic_bind; [apply IH; intros; apply Hin; by right|]. intros b' _. by apply logic_ret.
Qed.

Lemma find_neighbors_reads x ids emb t k : steps eq (find_embedding_neighbors_impl dimensions x ids emb t k).
Proof. unfold find_embedding_neighbors_impl. intros s l s' Hs. case_match; inv_tx; done. Qed.

(** The store at the moment of a merge, against the store at discovery: the
    member and the representative are still the memories that were found. *)
Record safe_merge (found t : Store) (m c : MemoryWithEmbedding) (row row_c : MemoryRow) : Prop := {
  sm_member : st_memories t !! m_id (we_memory m) = Some row;
  sm_representative : st_memories t !! m_id (we_memory c) = Some row_c;
  sm_distinct : m_id (we_memory m) ≠ m_id (we_memory c);
  sm_revisions : r_record_revision row = m_record_revision (we_memory m)
    ∧ r_record_revision row_c = m_record_revision (we_memory c);
  sm_profiles : memberships_of t (m_id (we_memory m)) = memberships_of found (m_id (we_memory m))
    ∧ memberships_of t (m_id (we_memory c)) = memberships_of t (m_id (we_memory m));
  sm_current : r_superseded_by row = None;
  sm_writable : write_access_allowed (r_provenance row) (r_access_policy row) principal = true;
}.

Lemma still_visible id found pre a b :
  lives dimensions exp2 id found pre → st_memories found !! id = Some a →
  st_memories (run_systems dimensions exp2 found pre) !! id = Some b → r_record_revision b = r_record_revision a →
  visible (run_systems dimensions exp2 found pre) id b = visible found id a.
Proof.
  intros Hal Ha Hb Hrev. symmetry. destruct (run_systems_evolves dimensions exp2 pre found id a b Hal Ha Hb) as [_ Hv]. auto.
Qed.

Section run.
Context (context_ids : list ContextId) (legacy_context_ids_any : option (list ContextId)) (similarity_threshold : f64).
Context (limit : Z) (dry_run : bool) (se : Session).
#[local] Abbreviation t0 := (turn dimensions exp2 se).
#[local] Abbreviation found := (se_store t0).
#[local] Abbreviation candidates := (truncate (consolidation_candidate_limit limits)
  (eligible (Some context_ids) legacy_context_ids_any principal (se_now t0) found)).

(** A consolidation ends, whatever the others do; it follows the others'
    operations and the merges of the groups it reports. *)
Lemma consolidation_follows :
  usable_threshold similarity_threshold = true → 0 ≤ limit →
  ∃ r se' groups, consolidate_memories dimensions exp2 limits principal context_ids legacy_context_ids_any
      similarity_threshold limit dry_run se = Some (r, se')
    ∧ follows dimensions exp2 (λ o, dry_run = false ∧ merges candidates groups o) t0 se'
    ∧ ∀ res, r = Ok res → cr_groups res = groups.
Proof.
  intros Ht Hlimit. unfold consolidate_memories. rewrite Ht. cbn [negb].
  set (k := saturating_add (consolidation_candidate_limit limits) 1).
  assert (Hk : k ≤ i64_max).
  { unfold k, saturating_add, consolidation_candidate_limit, MAX_CONSOLIDATION_CANDIDATE_LIMIT_CEILING, i64_max. lia. }
  unfold mbind at 1, engine_bind at 1.
  erewrite (call_run dimensions exp2 _ _ se) by (apply listing_run, Hk). cbn zeta.
  set (memories := truncate (consolidation_candidate_limit limits) (truncate k _)).
  assert (Hmem : memories = candidates).
  { unfold memories, k, truncate, saturating_add. rewrite take_take. f_equal.
    unfold consolidation_candidate_limit, MAX_CONSOLIDATION_CANDIDATE_LIMIT_CEILING, u64_max. lia. }
  clearbody memories. rewrite <- Hmem.
  assert (Hnd : NoDup (memory_ids memories)) by (rewrite Hmem; apply NoDup_eligible).
  destruct (len memories <? 2).
  { eexists _, t0, []. split_and!; [done|reflexivity|]. by intros res [= <-]. }
  destruct (bfs_discover_pairs_ok dimensions exp2 limits memories similarity_threshold Hnd
              (obeys (λ _, False)) (λ _ _, True)) with (se := t0) as (r1 & t1 & Hbfs & Hf1 & _).
  { intros i m emb _ _. apply obeys_read; [intros _; apply find_neighbors_reads|done]. }
  unfold mbind at 1, engine_bind at 1. rewrite Hbfs. destruct r1 as [[pairs capped]|e].
  2:{ exists (Err e), t1, []. split_and!; [done| |done]. by eapply follows_mono; [|exact Hf1]. }
  destruct (duplicate_groups_classes memories pairs limit Hnd Hlimit) as (groups & -> & _). cbn [of_option].
  unfold mbind at 1, engine_bind at 1, mret at 1, engine_ret at 1.
  destruct (bool_decide (groups = []) || dry_run) eqn:Hdry.
  { eexists _, t1, groups. split_and!; [done| |by intros res [= <-]]. by eapply follows_mono; [|exact Hf1]. }
  apply orb_false_iff in Hdry as [_ ->].
  destruct (merge_groups_obeys memories groups groups (λ g Hg, Hg) t1) as (r2 & t2 & Hmerge & Hf2 & _).
  unfold mbind at 1, engine_bind at 1. rewrite Hmerge.
  exists (match r2 with Ok merged => Ok {| cr_groups := groups; cr_merged := merged; cr_candidate_count := len memories;
            cr_capped := (consolidation_candidate_limit limits <? len (truncate k
              (eligible (Some context_ids) legacy_context_ids_any principal (se_now t0) found))) || capped |}
          | Err e => Err e end), t2, groups.
  split_and!; [by destruct r2| |destruct r2; by intros res [= <-]].
  etrans; [by eapply follows_mono; [|exact Hf1]|]. eapply follows_mono; [|exact Hf2]. auto.
Qed.

(** The two memories of a merge, at the moment [t] of the merge, are what a
    reader saw of them at discovery, if they lived all along. *)
Definition unchanged_since (id : MemoryId) (pre : list system_op) (row : MemoryRow) : Prop :=
  lives dimensions exp2 id found pre →
  ∃ row0, st_memories found !! id = Some row0
    ∧ visible (run_systems dimensions exp2 found pre) id row = visible found id row0.

Lemma merge_is_safe m c a pre :
  m ∈ candidates → c ∈ candidates →
  let t := run_systems dimensions exp2 found pre in
  let t' := run_system dimensions exp2 t (Memories (OpConsolidate (consolidation_snapshot_from m) (consolidation_snapshot_from c) principal a)) in
  t' = t ∨ ∃ row row_c, safe_merge found t m c row row_c
    ∧ unchanged_since (m_id (we_memory m)) pre row ∧ unchanged_since (m_id (we_memory c)) pre row_c
    ∧ t' = superseded_in t (m_id (we_memory m)) (m_id (we_memory c)) row a.
Proof.
  intros (x & rx & vx & Hx & _ & _ & ->)%elem_of_truncate%elem_of_eligible.
  intros (y & ry & vy & Hy & _ & _ & ->)%elem_of_truncate%elem_of_eligible. cbn zeta. cbn [run_system].
  match goal with |- context [OpConsolidate ?sm ?sc _ _] =>
    destruct (consolidate_step dimensions exp2 (run_systems dimensions exp2 found pre) sm sc principal a) as [->|Hs] end; [by left|].
  destruct Hs as (row & row_c & Hm & Hc & Hrm & Hrc & Hcm & Hcc & Hne & Heq & Hs & Hw & ->). cbn in *.
  right. exists row, row_c. split_and!; [| | |done].
  - split; cbn; try done. split; [done|]. congruence.
  - intros Hal. exists rx. split; [done|]. by apply still_visible.
  - intros Hal. exists ry. split; [done|]. by apply still_visible.
Qed.

(** C19. Consolidation never merges on stale information. Whatever the other
    sessions commit between its calls, it ends, and the store it leaves is
    the one found, changed by the others' operations and by its own merges
    only (none in a dry run). Each merge belongs to a reported group, whose
    representative supersedes a member. It either changes nothing, or, at that
    moment, both memories still have the record revision and the ordered
    profile they had at discovery, the member is not yet superseded and the
    principal may write it, and only the member's row and the audit log
    change; what a reader sees of both memories is then what was seen at
    discovery, if they existed all along. *)
Theorem consolidation_merges_what_it_found
    (Hthreshold : usable_threshold similarity_threshold = true) (Hlimit : 0 ≤ limit) :
  ∃ r se' groups used os,
    consolidate_memories dimensions exp2 limits principal context_ids legacy_context_ids_any similarity_threshold limit
      dry_run se = Some (r, se')
    ∧ (∀ res, r = Ok res → cr_groups res = groups)
    ∧ se_schedule t0 = used ++ se_schedule se'
    ∧ se_store se' = run_systems dimensions exp2 found os
    ∧ ∀ pre o post, os = pre ++ o :: post →
        o ∈ concat (map fst used)
        ∨ dry_run = false ∧ ∃ g m c a, g ∈ groups ∧ m ∈ candidates ∧ c ∈ candidates
            ∧ m_id (we_memory m) ∈ dg_member_ids g ∧ m_id (we_memory c) = dg_representative_id g
            ∧ let t := run_systems dimensions exp2 found pre in
              run_system dimensions exp2 t o = t
              ∨ ∃ row row_c, safe_merge found t m c row row_c
                ∧ unchanged_since (m_id (we_memory m)) pre row ∧ unchanged_since (m_id (we_memory c)) pre row_c
                ∧ run_system dimensions exp2 t o = superseded_in t (m_id (we_memory m)) (m_id (we_memory c)) row a.
Proof.
  destruct consolidation_follows as (r & se' & groups & Hrun & (used & os & Hs & Hr & Ho) & Hg); [done..|].
  exists r, se', groups, used, os. split_and!; [done..|]. intros pre o post ->.
  destruct (Ho o) as [?|[Hdry (g & m & c & a & Hgg & Hm & Hc & Hmg & Hcg & ->)]]; [apply elem_of_app; right; by left|by left|].
  right. split; [done|]. exists g, m, c, a. split_and!; [done..|]. by apply merge_is_safe.
Qed.
End run.
End disturbed.

(** ** Concrete runs *)

(** A cosine distance for unit vectors, and a store with four notes of ann:
    two equal vectors and an orthogonal one in one context, and an equal one
    in another context. *)
Definition dot (a b : list f64) : f64 := foldl fadd f0 (zip_with fmul a b).
Definition UnitCosine : CosineDistance := {| vec_distance_cosine a b := fsub f1 (dot a b) |}.
#[local] Existing Instances AsciiCase plain_render plain_chrono UnitCosine.

Definition active_context (id : ContextId) : ContextDefinition :=
  {| cd_id := id; cd_kind := ContextKind.mk "project"; cd_key := "k"; cd_display_name := "k"; cd_description := None;
     cd_owner_principal := "ann"; cd_guidance := None; cd_parent_id := None;
     cd_lifecycle := ContextLifecycle.Active; cd_frozen := false; cd_created_at := 0; cd_updated_at := 0 |}.
Definition embedded_note (content : string) (at_ : DateTime) : MemoryRow :=
  mkRow content [] {| source_agent := Some "ann"; source_conversation := None; origin_conversation := None;
                      source_user := None |} AccessPolicy.Public at_ None true MemoryType.Semantic f0 0 None None f0 None
    at_ f1 0 0 None None.
Definition notebook : Store :=
  on_registry (λ r, mkRegistry (reg_kinds r) {[100%N := active_context 100; 200%N := active_context 200]} (reg_grants r)
      (reg_aliases r) (reg_identities r) (reg_hints r) (reg_kind_policies r) (reg_anchor_policies r) (reg_relations r))
    (on_memberships (λ _, {[1%N := [100%N]; 2%N := [100%N]; 3%N := [100%N]; 4%N := [200%N]]})
      (on_vectors (λ _, {[1%N := [f1; f0]; 2%N := [f1; f0]; 3%N := [f0; f1]; 4%N := [f1; f0]]})
        (on_memories (λ _, {[1%N := embedded_note "tea" 10; 2%N := embedded_note "Tea" 20; 3%N := embedded_note "rain" 30;
                             4%N := embedded_note "tea" 40]}) empty_store))).
Definition consolidate_notebook (dry_run : bool) (others : list (list system_op * DateTime)) :
    option (result EngineError.t ConsolidateResult * Session) :=
  consolidate_memories 2 (λ x, x) limits_config_default "ann" [] None (f64_lit 1 2) 10 dry_run (mkSession notebook 50 others).

Definition reported (r : option (result EngineError.t ConsolidateResult * Session)) : option (list (MemoryId * list MemoryId) * bool) :=
  match r with Some (Ok res, _) => Some (map (λ g, (dg_representative_id g, dg_member_ids g)) (cr_groups res), cr_merged res) | _ => None end.
Definition superseded_after (r : option (result EngineError.t ConsolidateResult * Session)) (id : MemoryId) : option MemoryId :=
  match r with Some (_, se) => row ← st_memories (se_store se) !! id; r_superseded_by row | None => None end.

(** Undisturbed, 1 is superseded by 2; when somebody edits 2 before the merge,
    nothing is. *)
Example merges_when_undisturbed :
  reported (consolidate_notebook false []) = Some ([(2%N, [1%N; 2%N])], true)
  ∧ superseded_after (consolidate_notebook false []) 1 = Some 2%N.
Proof. split; vm_compute; reflexivity. Qed.
Definition edits_2 : list (list system_op * DateTime) :=
  [([], 50); ([], 51); ([], 52); ([], 53); ([], 54); ([Memories (OpUpdate 2 sample_edit 55)], 55)].
Example keeps_when_edited :
  reported (consolidate_notebook false (take 5 edits_2)) = Some ([(2%N, [1%N; 2%N])], true)
  ∧ reported (consolidate_notebook false (drop 1 edits_2)) = Some ([(2%N, [1%N; 2%N])], false)
  ∧ superseded_after (consolidate_notebook false (drop 1 edits_2)) 1 = None.
Proof. split_and!; vm_compute; reflexivity. Qed.

Lemma notebook_vectors id v : st_vectors notebook !! id = Some v → validate_embedding_vector v 2 = Ok ().
Proof.
  assert (Hall : map_Forall (λ _ v, validate_embedding_vector v 2 = Ok ()) (st_vectors notebook)).
  { apply (bool_decide_unpack _). vm_compute. exact I. }
  apply (Hall id v).
Qed.


Lemma consolidation_merges_what_it_found_witness :
  superseded_after (consolidate_notebook false (take 5 edits_2)) 1 = Some 2%N
  ∧ ∃ r se', consolidate_notebook false (take 5 edits_2) = Some (r, se')
    ∧ ∃ groups, (∀ res, r = Ok res → cr_groups res = groups).
Proof.
  split; [vm_compute; reflexivity|].
  destruct (consolidation_merges_what_it_found 2 (λ x, x) limits_config_default "ann" [] None (f64_lit 1 2) 10 false
              (mkSession notebook 50 (take 5 edits_2))) as (r & se' & groups & used & os & Hrun & Hg & _);
    [vm_compute; reflexivity|discriminate|].
  exists r, se'. split; [exact Hrun|]. exists groups. exact Hg.
Defined.
