(* ===== verification/EngineSearch.v ===== *)
(** * EngineSearch: the search pipeline of [src/src/engine.rs]

    [search_memories]: the retrieval legs with their fallbacks, fusion,
    reranking, composite scoring, duplicate suppression and the final cut.
    The embedding provider, the availability of FTS5 and the cross-encoder are
    parameters. Impressions are recorded by background work after the answer;
    the model records them in the computation, after the others' next turn. *)
From Stdlib Require Import ZArith Lia Sorting.Sorted.
From stdpp Require Import base list option strings gmap sets pretty.
From S2P Require Import RerankerModels Integrity Governance Hierarchy Systems Prelude Text Floats Lists Errors Types Context StoreTypes Validation Ranking Store Membership Crud Revisions Operations Query Search Config Engine.

(** ** The pipeline *)

Record FusionMetadata := { fm_match_sources : list SearchMode.t; fm_rrf_score : f64 }.
Record SearchOutcome := {
  so_results : list SearchResult;
  so_search_mode : SearchMode.t;
  so_fusion_metadata : list FusionMetadata;
}.
Definition single_path (results : list SearchResult) (mode : SearchMode.t) : SearchOutcome :=
  {| so_results := results; so_search_mode := mode; so_fusion_metadata := [] |}.
Record CandidatePoolLimits := { cp_semantic : Z; cp_keyword : Z; cp_text : Z; cp_fused : Z }.

Inductive HybridPathCandidates :=
| Single (outcome : SearchOutcome)
| Both (semantic keyword : list SearchResult).
Definition hybrid_path_candidates (strict : bool) (semantic keyword : list SearchResult) : HybridPathCandidates :=
  if strict then Both semantic keyword
  else match semantic, keyword with
       | _ :: _, [] => Single (single_path semantic SearchMode.Semantic)
       | [], _ :: _ => Single (single_path keyword SearchMode.Keyword)
       | _, _ => Both semantic keyword
       end.

Record SearchRequest := {
  rq_query : string;
  rq_limit : Z;
  rq_filter : MemoryFilter;
  rq_ctx : QueryContext;
  rq_max_distance : option f64;
  rq_keywords : option string;
  rq_search_mode : option SearchMode.t;
  rq_context : option string;
}.

Definition concrete_zero_limit_search_mode (mode : SearchMode.t) : SearchMode.t :=
  match mode with
  | SearchMode.Auto | SearchMode.Hybrid => SearchMode.Hybrid
  | SearchMode.Semantic => SearchMode.Semantic
  | SearchMode.Text => SearchMode.Text
  | SearchMode.Keyword => SearchMode.Keyword
  end.

(** The collaborators of one search: the provider's answer to a text, whether
    FTS5 is available, and the cross-encoder's answer to a query and
    documents, if one is attached. *)
Class SearchProviders := {
  embed : string → result EmbeddingError.t (list f64);
  fts_available : bool;
  reranker : option (string → list string → result string (list RerankerScore));
}.

Definition fetch_embeddings_for_ids (ids : list MemoryId) : tx (gmap MemoryId (list f64)) :=
  reads (λ s, list_to_map (omap (λ id, pair id <$> st_vectors s !! id) ids)).

(** *** Reranking *)

Definition with_reranker_score (score : f64) (r : SearchResult) : SearchResult :=
  {| sr_memory := sr_memory r; sr_distance := sr_distance r; sr_retrieval_score := sr_retrieval_score r;
     sr_reranker_score := Some score; sr_composite_score := sr_composite_score r;
     sr_score_breakdown := sr_score_breakdown r |}.
(** The positions whose content may be sent, up to the pool size. *)
Definition eligible_indices (pool_size : Z) (results : list SearchResult) : list nat :=
  truncate pool_size (map fst (List.filter (λ p : nat * SearchResult,
    field_visible_in_view (sr_memory (snd p)) RedactableField.Content) (zip (seq 0 (length results)) results))).
Definition rerank_documents (pool_size : Z) (results : list SearchResult) : list string :=
  omap (λ i, (λ r, m_content (sr_memory r)) <$> results !! i) (eligible_indices pool_size results).
(** Writing a score back; an index past the documents is skipped. *)
Definition apply_score (indices : list nat) (results : list SearchResult) (s : RerankerScore) : list SearchResult :=
  match indices !! Z.to_nat (rks_index s) with
  | Some i => alter (with_reranker_score (rks_score s)) i results
  | None => results
  end.
Definition apply_reranker (rerank : string → list string → result string (list RerankerScore)) (rerank_top_m : Z)
    (query : string) (results : list SearchResult) : list SearchResult :=
  let pool_size := Z.min rerank_top_m (len results) in
  if pool_size =? 0 then results
  else
    let indices := eligible_indices pool_size results in
    if bool_decide (indices = []) then results
    else match rerank query (rerank_documents pool_size results) with
         | Ok scores => foldl (apply_score indices) results scores
         | Err _ => results
         end.

Section search.
Context `{Render, UnicodeCase, Chrono, Fts, VectorIndex, SearchProviders} (dimensions : Z) (exp2 ln_1p : f64 → f64).
Context (limits : LimitsConfig) (config : SearchConfig).
#[local] Abbreviation call := (call dimensions exp2).
#[local] Abbreviation try_call := (try_call dimensions exp2).

Definition base_candidate_pool_limit (user_limit : Z) : Z :=
  if user_limit =? 0 then 0
  else
    let pool := user_limit in
    let pool := if is_some reranker then Z.max pool (sc_rerank_top_m config) else pool in
    let pool := if sc_duplicate_suppression_enabled config then saturating_mul pool 2 else pool in
    Z.min pool (lc_max_candidate_pool_size limits).
Definition candidate_pool_limits (final_limit : Z) : CandidatePoolLimits :=
  let base := base_candidate_pool_limit final_limit in
  let max_pool := lc_max_candidate_pool_size limits in
  let semantic := Z.min (Z.max base (sc_semantic_candidate_k config)) max_pool in
  let keyword := Z.min (Z.max base (sc_keyword_candidate_k config)) max_pool in
  {| cp_semantic := semantic; cp_keyword := keyword; cp_text := keyword;
     cp_fused := Z.min (saturating_add semantic keyword) max_pool |}.

(** The store's searches; [None] is the fuel of their scans. *)
Definition search_by_embedding (emb : list f64) (limit : Z) (f : MemoryFilter) (ctx : QueryContext) (max_distance : option f64) :
    engine (list SearchResult) :=
  r ← call (search_by_embedding_impl dimensions emb limit f ctx max_distance); of_option r.
Definition search_by_fts (query : string) (limit : Z) (f : MemoryFilter) (ctx : QueryContext) (context : option string) :
    engine (list SearchResult) :=
  r ← call (search_by_fts_impl query limit f ctx context); of_option r.
Definition search_by_text (query : string) (limit : Z) (f : MemoryFilter) (ctx : QueryContext) : engine (list SearchResult) :=
  r ← call (search_by_text_impl query limit f ctx); of_option r.

Definition fusion_epsilon : f64 := f64_lit 1 1000000000.
(** Fused scores normalised by the greatest. *)
Definition normalized_fusion (fused : list FusedResult) : list SearchResult :=
  let max_rrf := foldl (λ acc f, fmax acc (fr_rrf_score f)) f0 fused in
  map (λ f, with_retrieval_score (fr_result f) (Some (fdiv (fr_rrf_score f) (fadd max_rrf fusion_epsilon)))) fused.

Definition search_hybrid_with_context (request : SearchRequest) (embed_query : string) (fts_context : option string)
    (strict : bool) : engine SearchOutcome :=
  let pools := candidate_pool_limits (rq_limit request) in
  let fts_query := default (rq_query request) (rq_keywords request) in
  match embed embed_query, fts_available with
  | Ok query_emb, true =>
      semantic_results ← search_by_embedding query_emb (cp_semantic pools) (rq_filter request) (rq_ctx request) (rq_max_distance request);
      fts_results ← search_by_fts fts_query (cp_keyword pools) (rq_filter request) (rq_ctx request) fts_context;
      match hybrid_path_candidates strict semantic_results fts_results with
      | Single outcome => mret outcome
      | Both semantic keyword =>
          let fused := reciprocal_rank_fusion semantic keyword (sc_rrf_k config) (sc_rrf_semantic_weight config)
                         (sc_rrf_keyword_weight config) (cp_fused pools) in
          mret {| so_results := normalized_fusion fused; so_search_mode := SearchMode.Hybrid;
                  so_fusion_metadata := map (λ f, {| fm_match_sources := fr_match_sources f; fm_rrf_score := fr_rrf_score f |}) fused |}
      end
  | Ok query_emb, false =>
      if strict then fail (EngineError.SearchUnavailable "hybrid search requires FTS5 keyword search support")
      else
        results ← search_by_embedding query_emb (cp_semantic pools) (rq_filter request) (rq_ctx request) (rq_max_distance request);
        mret (single_path results SearchMode.Semantic)
  | Err _, true =>
      if strict then fail (EngineError.SearchUnavailable "hybrid search requires embedding support")
      else
        results ← search_by_fts fts_query (cp_keyword pools) (rq_filter request) (rq_ctx request) fts_context;
        mret (single_path results SearchMode.Keyword)
  | Err e, false =>
      if strict then fail (EngineError.SearchUnavailable
        ("hybrid search requires both embedding and FTS5 support: embedding error: " +:+ EmbeddingError.to_string e))
      else
        results ← search_by_text (rq_query request) (cp_text pools) (rq_filter request) (rq_ctx request);
        mret (single_path results SearchMode.Text)
  end.

(** The embedded text: the query and a non-blank conversation context. *)
Definition embed_query_of (request : SearchRequest) : string :=
  match rq_context request with
  | Some ctx => if is_blank ctx then rq_query request else rq_query request +:+ " " +:+ ctx
  | None => rq_query request
  end.
Definition fts_context_of (request : SearchRequest) : option string :=
  match rq_context request with Some ctx => if is_blank ctx then None else Some ctx | None => None end.

(** The first stage, by mode; [request] has the clamped limit. *)
Definition retrieve (request : SearchRequest) (search_mode : SearchMode.t) : engine SearchOutcome :=
  let pools := candidate_pool_limits (rq_limit request) in
  let embed_query := embed_query_of request in
  let fts_context := fts_context_of request in
  match search_mode with
  | SearchMode.Semantic =>
      match embed embed_query with
      | Err e => fail (EngineError.SearchUnavailable
          ("semantic search requires embedding support: " +:+ EmbeddingError.to_string e))
      | Ok query_emb =>
          results ← search_by_embedding query_emb (cp_semantic pools) (rq_filter request) (rq_ctx request) (rq_max_distance request);
          mret (single_path results SearchMode.Semantic)
      end
  | SearchMode.Keyword =>
      if negb fts_available then fail (EngineError.SearchUnavailable "keyword search requires FTS5 support")
      else
        results ← search_by_fts (default (rq_query request) (rq_keywords request)) (cp_keyword pools) (rq_filter request)
                    (rq_ctx request) fts_context;
        mret (single_path results SearchMode.Keyword)
  | SearchMode.Text =>
      results ← search_by_text (rq_query request) (cp_text pools) (rq_filter request) (rq_ctx request);
      mret (single_path results SearchMode.Text)
  | SearchMode.Auto => search_hybrid_with_context request embed_query fts_context false
  | SearchMode.Hybrid => search_hybrid_with_context request embed_query fts_context true
  end.

Definition engine_record_search_impression (ids : list MemoryId) : engine unit :=
  if bool_decide (ids = []) then mret ()
  else _ ← try_call (λ now, record_search_impression_impl ids now); mret ().

Definition with_request_limit (limit : Z) (r : SearchRequest) : SearchRequest :=
  {| rq_query := rq_query r; rq_limit := limit; rq_filter := rq_filter r; rq_ctx := rq_ctx r;
     rq_max_distance := rq_max_distance r; rq_keywords := rq_keywords r; rq_search_mode := rq_search_mode r;
     rq_context := rq_context r |}.

Definition search_memories_inner (request : SearchRequest) (record_impressions : bool) : engine SearchOutcome :=
  _ ← of_engine_result (validated_as_engine (validate_non_blank "query" (rq_query request)));
  _ ← of_engine_result (validated_as_engine (validate_max_distance (rq_max_distance request)));
  let request := with_request_limit (Z.min (rq_limit request) (lc_max_search_limit limits)) request in
  let final_limit := rq_limit request in
  let search_mode := default (sc_default_mode config) (rq_search_mode request) in
  if final_limit =? 0 then mret (single_path [] (concrete_zero_limit_search_mode search_mode))
  else
    outcome ← retrieve request search_mode;
    let results := seed_retrieval_scores (so_results outcome) in
    let results := match reranker with
                   | Some rerank => apply_reranker rerank (sc_rerank_top_m config) (rq_query request) results
                   | None => results
                   end in
    now ← clock_now;
    let results := apply_composite_scoring exp2 ln_1p results now config in
    results ← (if sc_duplicate_suppression_enabled config
               then embeddings ← try_call (λ _, fetch_embeddings_for_ids (map (λ r, m_id (sr_memory r)) results));
                    mret (match embeddings with
                          | Ok embeddings => apply_duplicate_suppression results embeddings
                                               (sc_duplicate_suppression_lambda config) now
                          | Err _ => results
                          end)
               else mret results);
    let results := truncate final_limit results in
    _ ← (if record_impressions then engine_record_search_impression (map (λ r, m_id (sr_memory r)) results) else mret ());
    mret {| so_results := results; so_search_mode := so_search_mode outcome;
            so_fusion_metadata := so_fusion_metadata outcome |}.
Definition search_memories (request : SearchRequest) : engine SearchOutcome := search_memories_inner request true.
Definition search_memories_read_only (request : SearchRequest) : engine SearchOutcome := search_memories_inner request false.
End search.

(** ** What one search of the store returns *)

(** The result shows the caller no more than the access policy: it is its own
    view. *)
Definition self_view (caller : option string) (m : Memory) : Prop := apply_access_policy m caller = Some m.
Definition all_memories (P : Memory → Prop) (results : list SearchResult) : Prop := ∀ r, r ∈ results → P (sr_memory r).

Lemma all_memories_nil P : all_memories P [].
Proof. intros r Hr. by apply not_elem_of_nil in Hr. Qed.
Lemma all_memories_app P l k : all_memories P l → all_memories P k → all_memories P (l ++ k).
Proof. intros Hl Hk r [?|?]%elem_of_app; auto. Qed.

(** A scan ends within its fuel and keeps what its accumulator keeps. *)
Lemma paged_scan_settles `{UnicodeCase} {A} cfg extra hydrate (accumulate : A → list Memory → tx (A * bool)) (Q : A → Prop) :
  0 < sc_page_size cfg →
  (∀ a page s r s', Q a → accumulate a page s = Ok (r, s') → Q (fst r)) →
  ∀ fuel offset a s x s', Q a → 0 ≤ offset < MAX_SCAN_ROWS →
    MAX_SCAN_ROWS ≤ offset + Z.of_nat fuel * sc_page_size cfg →
    paged_scan_loop cfg extra hydrate accumulate fuel offset a s = Ok (x, s') → ∃ b, x = Some b ∧ Q b.
Proof.
  intros Hps Hacc. induction fuel as [|fuel IH]; intros offset a s x s' Ha Ho Hf Hrun; [lia|].
  cbn [paged_scan_loop] in Hrun. apply tx_bind_Ok in Hrun as (l & s1 & _ & Hrun).
  apply tx_bind_Ok in Hrun as (o & s2 & _ & Hrun). apply tx_bind_Ok in Hrun as (rows & s3 & _ & Hrun).
  apply tx_bind_Ok in Hrun as (rows' & s4 & _ & Hrun).
  case_bool_decide; [inv_tx; eauto|]. apply tx_bind_Ok in Hrun as ((b & continue) & s5 & Hb & Hrun).
  assert (Hq : Q b).
  { case_bool_decide; [by inv_tx|]. by apply (Hacc _ _ _ _ _ Ha) in Hb. }
  cbn in Hrun. destruct continue; cbn in Hrun; [|inv_tx; eauto].
  case_match; [inv_tx; eauto|]. case_match eqn:Hmax; [inv_tx; eauto|]. apply Z.leb_gt in Hmax.
  eapply IH; [exact Hq| | |exact Hrun]; unfold MAX_SCAN_ROWS, USIZE_MAX in *; lia.
Qed.

Section leaves.
Context `{UnicodeCase, Fts, VectorIndex}.

Lemma page_accumulate_keeps {A} (f : A → Memory → A * bool) (Q : A → Prop) :
  (∀ a m, Q a → Q (fst (f a m))) → ∀ page a, Q a → Q (fst (accumulate_memory_page f a page)).
Proof.
  intros Hf. induction page as [|m page IH]; intros a Ha; cbn; [done|]. specialize (Hf a m Ha).
  destruct (f a m) as [b [|]]; cbn in *; auto.
Qed.
Lemma push_text_self caller limit results m :
  all_memories (self_view caller) results → all_memories (self_view caller) (fst (push_text caller limit results m)).
Proof.
  intros Hr. unfold push_text. destruct (content_searchable_by m caller); cbn; [|done].
  destruct (apply_access_policy m caller) as [v|] eqn:Hv; cbn; [|done]. apply all_memories_app; [done|].
  intros r ->%list_elem_of_singleton. cbn. by eapply apply_policy_again.
Qed.
Lemma text_settles query limit f ctx now s x s' :
  search_by_text_impl query limit f ctx now s = Ok (x, s') →
  ∃ results, x = Some results ∧ all_memories (self_view (qc_principal ctx)) results.
Proof.
  unfold search_by_text_impl, text_search_scan. case_match.
  { intros Hs. inv_tx. eexists. split; [done|apply all_memories_nil]. }
  assert (Hps : 0 < page_size_for limit) by (unfold page_size_for; lia).
  eapply (paged_scan_settles _ _ _ _ (all_memories (self_view (qc_principal ctx)))); [done| |apply all_memories_nil|done|].
  - intros a page s0 r s0' Ha Hacc. inv_tx. apply page_accumulate_keeps; [|done]. intros. by apply push_text_self.
  - cbn [sc_page_size]. pose proof (scan_fuel_enough _ Hps). lia.
Qed.

Lemma push_ranked_self caller visible : all_memories (self_view caller) (push_ranked caller visible).
Proof.
  intros r ([m rank] & _ & Hr)%list_elem_of_omap. destruct (apply_access_policy m caller) as [v|] eqn:Hv; [|done].
  cbn in Hr. simplify_eq. cbn. by eapply apply_policy_again.
Qed.
Lemma fts_settles_loop fts_query f caller now limit ps fuel : ∀ offset results s x s',
  0 < ps → all_memories (self_view caller) results → 0 ≤ offset < MAX_SCAN_ROWS →
  MAX_SCAN_ROWS ≤ offset + Z.of_nat fuel * ps →
  fts_page_loop fts_query f caller now limit ps fuel offset results s = Ok (x, s') →
  ∃ results', x = Some results' ∧ all_memories (self_view caller) results'.
Proof.
  induction fuel as [|fuel IH]; intros offset results s x s' Hps Hr Ho Hf Hrun; [lia|].
  cbn [fts_page_loop] in Hrun. apply tx_bind_Ok in Hrun as (o & s1 & _ & Hrun).
  apply tx_bind_Ok in Hrun as ([ranked|] & s2 & _ & Hrun); [|inv_tx; eexists; split; [done|apply all_memories_nil]].
  apply tx_bind_Ok in Hrun as (ranked' & s3 & _ & Hrun). apply tx_bind_Ok in Hrun as (visible & s4 & _ & Hrun).
  assert (Hres : all_memories (self_view caller) (results ++ push_ranked caller visible))
    by (apply all_memories_app; [done|apply push_ranked_self]).
  case_match; [inv_tx; eauto|]. case_match eqn:Hmax; [inv_tx; eauto|]. apply Z.leb_gt in Hmax.
  eapply IH; [exact Hps|exact Hres| | |exact Hrun]; unfold MAX_SCAN_ROWS, USIZE_MAX in *; lia.
Qed.
Lemma fts_settles query limit f ctx context now s x s' :
  search_by_fts_impl query limit f ctx context now s = Ok (x, s') →
  ∃ results, x = Some results ∧ all_memories (self_view (qc_principal ctx)) results.
Proof.
  unfold search_by_fts_impl. case_match; [intros Hs; inv_tx; eexists; split; [done|apply all_memories_nil]|].
  case_match; [|apply text_settles]. unfold fts_search_scan. intros (k & s1 & Hk & Hrun)%tx_bind_Ok.
  assert (Hps : 0 < page_size_for limit) by (unfold page_size_for; lia).
  inv_tx. unfold usize_to_i64, i64_try_from in *. destruct (page_size_for limit <=? i64_max); simplify_eq.
  eapply fts_settles_loop; [exact Hps|apply all_memories_nil|done| |exact Hrun]. pose proof (scan_fuel_enough _ Hps). lia.
Qed.

Lemma vector_settles_loop governed search f caller now max_distance limit fuel : ∀ fetch_size seen results s x s',
  1 ≤ fetch_size → MAX_VEC_CANDIDATES ≤ fetch_size * 2 ^ Z.of_nat fuel → all_memories (self_view caller) results →
  vector_search_loop governed search f caller now max_distance limit (S fuel) fetch_size seen results s = Ok (x, s') →
  ∃ results', x = Some results' ∧ all_memories (self_view caller) results'.
Proof.
  assert (Hfinish : ∀ results s x s', all_memories (self_view caller) results → finish_search limit results s = Ok (x, s') →
    ∃ results', x = Some results' ∧ all_memories (self_view caller) results').
  { intros results s x s' Hr Hs. unfold finish_search in Hs. inv_tx. eexists. split; [done|].
    intros r Hin%elem_of_truncate. apply elem_of_sort_by in Hin. auto. }
  induction fuel as [|fuel IH]; intros F seen results s x s' HF Hpow Hr Hrun; cbn [vector_search_loop] in Hrun.
  all: apply tx_bind_Ok in Hrun as (hits & s1 & _ & Hrun); destruct (unseen seen hits) as [new seen'].
  all: case_match; [by eapply Hfinish|].
  all: apply tx_bind_Ok in Hrun as (added & s2 & Hadd & Hrun).
  all: assert (Hres : all_memories (self_view caller) (results ++ added))
    by (apply all_memories_app; [done|]; case_bool_decide; [inv_tx; apply all_memories_nil|];
        unfold post_filter_results in Hadd; apply tx_bind_Ok in Hadd as (? & ? & _ & Hadd);
        apply tx_bind_Ok in Hadd as (? & ? & _ & Hadd); apply tx_bind_Ok in Hadd as (? & ? & _ & Hadd);
        inv_tx; apply push_ranked_self).
  all: case_match; [by eapply Hfinish|]; case_match eqn:Hmax; [by eapply Hfinish|].
  - exfalso. apply Z.leb_gt in Hmax. cbn in Hpow. lia.
  - apply Z.leb_gt in Hmax. eapply IH; [| |exact Hres|exact Hrun]; unfold USIZE_MAX, MAX_VEC_CANDIDATES in *; [lia|].
    rewrite Nat2Z.inj_succ, Z.pow_succ_r in Hpow by lia. lia.
Qed.
Lemma vector_settles dimensions emb limit f ctx max_distance now s x s' :
  0 ≤ limit → search_by_embedding_impl dimensions emb limit f ctx max_distance now s = Ok (x, s') →
  ∃ results, x = Some results ∧ all_memories (self_view (qc_principal ctx)) results.
Proof.
  intros Hl. unfold search_by_embedding_impl. case_match eqn:Hz; [intros Hs; inv_tx; eexists; split; [done|apply all_memories_nil]|].
  apply Z.eqb_neq in Hz. intros (u & s1 & _ & Hrun)%tx_bind_Ok.
  assert (HF : 4 ≤ Z.min (limit * OVERFETCH_FACTOR) USIZE_MAX) by (unfold OVERFETCH_FACTOR, USIZE_MAX; lia).
  case_match; [unfold filtered_embedding_search_loop in Hrun|unfold embedding_search_loop in Hrun].
  all: unfold search_fuel in Hrun; eapply vector_settles_loop; [| |apply all_memories_nil|exact Hrun]; [lia|].
  all: unfold MAX_VEC_CANDIDATES; cbn; lia.
Qed.
End leaves.

(** ** The pipeline changes scores and order only *)

Lemma all_memories_perm P l k : map sr_memory l ≡ₚ map sr_memory k → all_memories P k → all_memories P l.
Proof.
  intros Hp Hk r Hr. assert (Hin : sr_memory r ∈ map sr_memory k) by (rewrite <- Hp; by apply list_elem_of_fmap_2).
  apply list_elem_of_fmap in Hin as (r' & -> & Hr'). auto.
Qed.
Lemma seed_rows P l : all_memories P l → all_memories P (seed_retrieval_scores l).
Proof.
  intros Hl. unfold seed_retrieval_scores. intros r (r0 & -> & Hr0)%list_elem_of_fmap.
  destruct (sr_retrieval_score r0); cbn; auto.
Qed.
Lemma apply_score_memories P indices l s : all_memories P l → all_memories P (apply_score indices l s).
Proof.
  intros Hl. unfold apply_score. destruct (indices !! _) as [i|]; [|exact Hl]. intros r [k Hk]%list_elem_of_lookup.
  destruct (decide (k = i)) as [->|Hne].
  - rewrite list_lookup_alter_eq in Hk. destruct (l !! i) as [r0|] eqn:E; [|done]. cbn in Hk. simplify_eq. cbn.
    by eapply Hl, list_elem_of_lookup_2.
  - rewrite list_lookup_alter_ne in Hk by done. by eapply Hl, list_elem_of_lookup_2.
Qed.
Lemma apply_scores_memories P indices scores : ∀ l, all_memories P l → all_memories P (foldl (apply_score indices) l scores).
Proof. induction scores as [|s scores IH]; intros l Hl; cbn; [done|]. by apply IH, apply_score_memories. Qed.
Lemma reranker_memories P rerank top_m query l : all_memories P l → all_memories P (apply_reranker rerank top_m query l).
Proof.
  intros Hl. unfold apply_reranker. destruct (_ =? 0); [done|]. case_bool_decide; [done|].
  destruct (rerank _ _); [|done]. by apply apply_scores_memories.
Qed.
Lemma suppression_memories P l embeddings lambda now :
  all_memories P l → all_memories P (apply_duplicate_suppression l embeddings lambda now).
Proof.
  intros Hl. destruct (fleb lambda f0 || (length l <? 2)%nat) eqn:Hoff.
  { unfold apply_duplicate_suppression. by rewrite Hoff. }
  apply orb_false_iff in Hoff as [Hlambda Hlen%Nat.ltb_ge].
  destruct (suppression_selects l embeddings lambda now Hlambda Hlen) as (scored & selected & -> & Hsame & _).
  intros r Hr. apply elem_of_sort_by, list_elem_of_omap in Hr as (i & _ & Hi).
  destruct (Forall2_lookup_l _ _ _ _ _ Hsame Hi) as (r0 & Hr0 & Heq).
  assert (sr_memory r = sr_memory r0) as -> by (unfold same_item, with_composite_score in Heq; by simplify_eq).
  by eapply Hl, list_elem_of_lookup_2.
Qed.
Lemma fusion_memories P semantic keyword k sw kw limit :
  0 ≤ limit → all_memories P semantic → all_memories P keyword →
  all_memories P (normalized_fusion (reciprocal_rank_fusion semantic keyword k sw kw limit)).
Proof.
  intros Hl Hs Hk r (f & -> & Hf)%list_elem_of_fmap. cbn.
  destruct (rrf_spec semantic keyword k sw kw limit Hl) as (_ & _ & _ & Hall & _).
  destruct (Hall f Hf) as ([?|?] & _); auto.
Qed.
Lemma composite_sorted exp2 ln_1p l now config :
  StronglySorted (λ a b, cmp_search_result_score_desc now a b ≠ Gt) (apply_composite_scoring exp2 ln_1p l now config).
Proof. unfold apply_composite_scoring. destruct l; [constructor|]. apply sort_by_sorted. apply _. Qed.
Lemma suppression_sorted l embeddings lambda now :
  StronglySorted (λ a b, cmp_search_result_score_desc now a b ≠ Gt) l →
  StronglySorted (λ a b, cmp_search_result_score_desc now a b ≠ Gt) (apply_duplicate_suppression l embeddings lambda now).
Proof.
  intros Hl. unfold apply_duplicate_suppression. destruct (_ || _); [done|]. destruct (foldl _ _ _) as [scored selected].
  apply sort_by_sorted. apply _.
Qed.
Lemma truncate_sorted {A} (R : A → A → Prop) n (l : list A) : StronglySorted R l → StronglySorted R (truncate n l).
Proof.
  unfold truncate. generalize (Z.to_nat n). intros k Hl. revert k. induction Hl as [|x l Hl IH Hx]; intros [|k]; cbn; constructor; auto.
  by apply Forall_take.
Qed.

(** ** The contract of a search *)

(** The reranker is sent visible contents only. *)
Lemma rerank_documents_visible pool_size results d :
  d ∈ rerank_documents pool_size results →
  ∃ r, r ∈ results ∧ d = m_content (sr_memory r) ∧ field_visible_in_view (sr_memory r) RedactableField.Content = true.
Proof.
  unfold rerank_documents, eligible_indices. intros (i & Hi%elem_of_truncate & Hd)%list_elem_of_omap.
  apply list_elem_of_fmap in Hi as ([j r] & -> & Hin). apply elem_of_List_filter in Hin as [Hin Hv].
  cbn in *. destruct (results !! j) as [r'|] eqn:Hr; [|done]. cbn in Hd. simplify_eq.
  apply list_elem_of_lookup in Hin as [k Hk]. apply lookup_zip_Some in Hk as [Hk%lookup_seq Hk']. destruct Hk as [-> _]. cbn in *.
  simplify_eq. exists r. split_and!; [by eapply list_elem_of_lookup_2|done|done].
Qed.

(** Searches only read. *)
Section readers.
Context `{Render, UnicodeCase, Fts, VectorIndex}.
Lemma reads_paged_scan {A} cfg extra hydrate (accumulate : A → list Memory → tx (A * bool)) :
  (∀ a page, steps eq (accumulate a page)) →
  ∀ fuel offset a, steps eq (paged_scan_loop cfg extra hydrate accumulate fuel offset a).
Proof.
  intros Hacc. induction fuel as [|fuel IH]; intros offset a; [cbn; steps_tac|]. intros s x s' Hrun. cbn [paged_scan_loop] in Hrun.
  match type of Hrun with ?m s = _ => assert (Hm : steps eq m); [|exact (Hm _ _ _ Hrun)] end.
  clear Hrun. unfold fetch_page, hydrate_entities_for_memories, hydrate_entities_batch. steps_tac; try apply Hacc.
Qed.
Lemma reads_text_search query limit f ctx now : steps eq (search_by_text_impl query limit f ctx now).
Proof. unfold search_by_text_impl, text_search_scan. case_match; [steps_tac|]. apply reads_paged_scan. intros. steps_tac. Qed.
Lemma reads_ranked ranked : steps eq (hydrate_entities_for_ranked_memories ranked).
Proof. unfold hydrate_entities_for_ranked_memories, hydrate_entities_batch. steps_tac. Qed.
#[local] Hint Resolve reads_ranked : steps.
Lemma reads_fts_search query limit f ctx context now : steps eq (search_by_fts_impl query limit f ctx context now).
Proof.
  unfold search_by_fts_impl. case_match; [steps_tac|]. case_match; [|apply reads_text_search].
  unfold fts_search_scan. apply steps_bind; [apply _|steps_tac|]. intros ps. cbn beta.
  match goal with |- steps eq (fts_page_loop ?q ?g ?c ?t ?l ps ?n ?o ?rs) => generalize n, o, rs end.
  induction n as [|n IH]; intros o rs; cbn [fts_page_loop]; steps_tac.
Qed.
Lemma reads_vector_search dimensions emb limit f ctx max_distance now :
  steps eq (search_by_embedding_impl dimensions emb limit f ctx max_distance now).
Proof.
  assert (Hl : ∀ governed search g caller fuel fetch_size seen results,
    steps eq (vector_search_loop governed search g caller now max_distance limit fuel fetch_size seen results)).
  { intros governed search g caller. induction fuel as [|fuel IH]; intros fetch_size seen results; cbn [vector_search_loop];
      unfold finish_search, hydrate_candidates, post_filter_results, hydrate_entities_batch; steps_tac. }
  unfold search_by_embedding_impl, filtered_embedding_search_loop, embedding_search_loop. steps_tac.
Qed.
End readers.

Section contract.
Context `{Render, UnicodeCase, Chrono, Fts, VectorIndex, SearchProviders} (dimensions : Z) (exp2 ln_1p : f64 → f64).
Context (limits : LimitsConfig) (config : SearchConfig).

(** The only change a search makes. *)
Definition impression (o : system_op) : Prop := ∃ ids now, o = Memories (OpImpression ids now).
(** A logic that also says which errors can come out, and that nothing but
    impressions is written. *)
Definition answers (E : EngineError.t → Prop) : ∀ A, engine A → (A → Prop) → Prop := λ A m Q,
  ∀ se, ∃ r se', m se = Some (r, se') ∧ follows dimensions exp2 impression se se' ∧ match r with Ok a => Q a | Err e => E e end.
#[local] Instance answers_logic E : EngineLogic (answers E).
Proof.
  split.
  - intros A a Q Ha se. exists (Ok a), se. split_and!; [done|reflexivity|done].
  - intros A B m k Q Q' Hm Hk se. destruct (Hm se) as ([a|e] & se1 & Hm1 & Hf & HQ).
    + destruct (Hk a HQ se1) as (r & se2 & Hk1 & Hf2 & HQ'). exists r, se2.
      split_and!; [|by etrans|done]. unfold mbind, engine_bind. by rewrite Hm1.
    + exists (Err e), se1. split_and!; [|done|done]. unfold mbind, engine_bind. by rewrite Hm1.
  - intros A m Q Q' Hm HQ se. destruct (Hm se) as ([a|e] & se1 & Hm1 & Hf & Hr).
    + exists (Ok a), se1. auto.
    + by exists (Err e), se1.
Qed.
Lemma answers_fail E A e (Q : A → Prop) : E e → answers E A (fail e) Q.
Proof. intros He se. exists (Err e), se. split_and!; [done|reflexivity|done]. Qed.

Lemma answers_try_call E A (m : DateTime → tx A) (o : DateTime → operation) (Q : result StoreError.t A → Prop) :
  (∀ now, impression (Memories (o now))) → (∀ now s, run dimensions exp2 s (o now) = snd (with_conn (m now) s)) → (∀ r, Q r) →
  answers E _ (try_call dimensions exp2 m) Q.
Proof.
  intros Ho Hop HQ se. unfold try_call. set (t := turn dimensions exp2 se). specialize (Hop (se_now t) (se_store t)).
  destruct (with_conn (m (se_now t)) (se_store t)) as [r s] eqn:Hr. cbn in Hop.
  exists (Ok r), (mkSession s (se_now t) (se_schedule t)). split_and!; [done| |apply HQ].
  etrans; [apply follows_turn|]. fold t. exists [], [Memories (o (se_now t))]. split_and!; [done|cbn; by rewrite <- Hop|].
  intros o' ->%list_elem_of_singleton. right. apply Ho.
Qed.
Lemma answers_try_read E A (m : DateTime → tx A) (Q : result StoreError.t A → Prop) :
  (∀ now, steps eq (m now)) → (∀ r, Q r) → answers E _ (try_call dimensions exp2 m) Q.
Proof.
  intros Hm HQ se. unfold try_call. set (t := turn dimensions exp2 se). unfold with_conn.
  destruct (m (se_now t) (se_store t)) as [[a s]|e] eqn:Hr; cbn.
  - rewrite <- (Hm _ _ _ _ Hr). exists (Ok (Ok a)), t. split_and!; [by destruct t|apply follows_turn|apply HQ].
  - exists (Ok (Err e)), t. split_and!; [by destruct t|apply follows_turn|apply HQ].
Qed.
Lemma answers_search E (m : DateTime → tx (option (list SearchResult))) (P : Memory → Prop) :
  (∀ e, E (EngineError.Store e)) → (∀ now, steps eq (m now)) →
  (∀ now s x s', m now s = Ok (x, s') → ∃ results, x = Some results ∧ all_memories P results) →
  answers E _ (r ← call dimensions exp2 m; of_option r) (all_memories P).
Proof.
  intros HE Hr Hm. apply (logic_bind _ _ _ _ (λ x, ∃ results, x = Some results ∧ all_memories P results));
    [|intros x (results & -> & Hall); by apply logic_ret].
  intros se. unfold call, try_call, mbind, engine_bind. set (t := turn dimensions exp2 se). unfold with_conn.
  destruct (m (se_now t) (se_store t)) as [[x s']|e] eqn:Hrun; cbn.
  - rewrite <- (Hr _ _ _ _ Hrun). exists (Ok x), t. split_and!; [by destruct t|apply follows_turn|by apply (Hm _ _ _ _ Hrun)].
  - exists (Err (EngineError.Store e)), t. split_and!; [by destruct t|apply follows_turn|apply HE].
Qed.

(** The mode a search reports, given the requested one. *)
Definition reports (requested mode : SearchMode.t) (embedded : bool) : Prop :=
  match requested with
  | SearchMode.Auto =>
      match embedded, fts_available with
      | true, true => mode = SearchMode.Hybrid ∨ mode = SearchMode.Semantic ∨ mode = SearchMode.Keyword
      | true, false => mode = SearchMode.Semantic
      | false, true => mode = SearchMode.Keyword
      | false, false => mode = SearchMode.Text
      end
  | requested => mode = requested
  end.
(** The errors of a search: the store's, an invalid request, and, in the
    modes that insist on a collaborator, its unavailability. *)
Definition search_error (request : SearchRequest) (e : EngineError.t) : Prop :=
  match e with
  | EngineError.Store _ => True
  | EngineError.Validation _ =>
      is_blank (rq_query request) = true ∨ is_ok (validate_max_distance (rq_max_distance request)) = false
  | EngineError.SearchUnavailable _ =>
      match default (sc_default_mode config) (rq_search_mode request) with
      | SearchMode.Semantic => is_ok (embed (embed_query_of request)) = false
      | SearchMode.Keyword => fts_available = false
      | SearchMode.Hybrid => is_ok (embed (embed_query_of request)) = false ∨ fts_available = false
      | SearchMode.Auto | SearchMode.Text => False
      end
  | _ => False
  end.

Context (request : SearchRequest).
Context (Hpool : 0 ≤ lc_max_candidate_pool_size limits) (Hsemantic : 0 ≤ sc_semantic_candidate_k config)
  (Hkeyword : 0 ≤ sc_keyword_candidate_k config).
#[local] Abbreviation caller := (qc_principal (rq_ctx request)).
#[local] Abbreviation mode := (default (sc_default_mode config) (rq_search_mode request)).
#[local] Abbreviation limited n := (with_request_limit n request).

Lemma pools_nonneg (n : Z) : 0 ≤ cp_semantic (candidate_pool_limits limits config n) ∧ 0 ≤ cp_fused (candidate_pool_limits limits config n).
Proof. unfold candidate_pool_limits, saturating_add, u64_max. cbn. lia. Qed.

Lemma semantic_answers (emb : list f64) (n : Z) :
  answers (search_error request) _ (search_by_embedding dimensions exp2 emb (cp_semantic (candidate_pool_limits limits config n))
    (rq_filter request) (rq_ctx request) (rq_max_distance request)) (all_memories (self_view caller)).
Proof. apply answers_search; [done|intros; apply reads_vector_search|]. intros now s x s'. apply vector_settles. apply pools_nonneg. Qed.
Lemma keyword_answers query n context :
  answers (search_error request) _ (search_by_fts dimensions exp2 query n (rq_filter request) (rq_ctx request) context)
    (all_memories (self_view caller)).
Proof. apply answers_search; [done|intros; apply reads_fts_search|]. intros now s x s'. apply fts_settles. Qed.
Lemma text_answers query n :
  answers (search_error request) _ (search_by_text dimensions exp2 query n (rq_filter request) (rq_ctx request))
    (all_memories (self_view caller)).
Proof. apply answers_search; [done|intros; apply reads_text_search|]. intros now s x s'. apply text_settles. Qed.

Definition retrieved (outcome : SearchOutcome) : Prop :=
  all_memories (self_view caller) (so_results outcome)
  ∧ reports mode (so_search_mode outcome) (is_ok (embed (embed_query_of request))).

Lemma hybrid_answers (n : Z) (strict : bool) :
  mode = (if strict then SearchMode.Hybrid else SearchMode.Auto) →
  answers (search_error request) _ (search_hybrid_with_context dimensions exp2 limits config (limited n)
    (embed_query_of request) (fts_context_of request) strict) retrieved.
Proof.
  intros Hmode. unfold search_hybrid_with_context, retrieved, reports. rewrite Hmode. cbn [rq_limit rq_query rq_keywords with_request_limit rq_filter rq_ctx rq_max_distance].
  assert (Hunavailable : ∀ text, strict = true → is_ok (embed (embed_query_of request)) = false ∨ fts_available = false →
    search_error request (EngineError.SearchUnavailable text)).
  { intros text -> Hu. unfold search_error. by rewrite Hmode. }
  destruct (embed (embed_query_of request)) as [emb|e] eqn:Hemb; destruct fts_available eqn:Hfts; cbn [is_ok] in *.
  - eapply logic_bind; [apply semantic_answers|]. intros semantic Hs.
    eapply logic_bind; [apply keyword_answers|]. intros keyword Hk.
    unfold hybrid_path_candidates. destruct strict; [|destruct semantic, keyword]; apply logic_ret; cbn; split; auto; try done.
    all: apply fusion_memories; [apply pools_nonneg|done|done].
  - destruct strict; [apply answers_fail; auto|].
    eapply logic_bind; [apply semantic_answers|]. intros r Hr. by apply logic_ret.
  - destruct strict; [apply answers_fail; auto|].
    eapply logic_bind; [apply keyword_answers|]. intros r Hr. by apply logic_ret.
  - destruct strict; [apply answers_fail; auto|].
    eapply logic_bind; [apply text_answers|]. intros r Hr. by apply logic_ret.
Qed.
Lemma retrieve_answers (n : Z) :
  answers (search_error request) _ (retrieve dimensions exp2 limits config (limited n) mode) retrieved.
Proof.
  unfold retrieve. change (embed_query_of (limited n)) with (embed_query_of request).
  change (fts_context_of (limited n)) with (fts_context_of request). destruct mode eqn:Hmode.
  - by apply hybrid_answers.
  - destruct (embed _) as [emb|e] eqn:Hemb; [|apply answers_fail; unfold search_error; by rewrite Hmode, Hemb].
    eapply logic_bind; [apply semantic_answers|]. intros r Hr. apply logic_ret. unfold retrieved. rewrite Hmode. by cbn.
  - eapply logic_bind; [apply text_answers|]. intros r Hr. apply logic_ret. unfold retrieved. rewrite Hmode. by cbn.
  - destruct fts_available eqn:Hfts; cbn; [|apply answers_fail; unfold search_error; by rewrite Hmode].
    eapply logic_bind; [apply keyword_answers|]. intros r Hr. apply logic_ret. unfold retrieved. rewrite Hmode. by cbn.
  - by apply hybrid_answers.
Qed.

(** What an answered search returns. *)
Definition search_answered (outcome : SearchOutcome) : Prop :=
  len (so_results outcome) ≤ Z.min (rq_limit request) (lc_max_search_limit limits)
  ∧ (∀ res, res ∈ so_results outcome → apply_access_policy (sr_memory res) caller = Some (sr_memory res))
  ∧ (∃ now, StronglySorted (λ a b, cmp_search_result_score_desc now a b ≠ Gt) (so_results outcome))
  ∧ if Z.min (rq_limit request) (lc_max_search_limit limits) =? 0
    then so_results outcome = [] ∧ so_search_mode outcome = concrete_zero_limit_search_mode mode
    else reports mode (so_search_mode outcome) (is_ok (embed (embed_query_of request))).
Lemma search_answers record_impressions (Hlimit : 0 ≤ rq_limit request) (Hmax : 0 ≤ lc_max_search_limit limits) :
  answers (search_error request) _ (search_memories_inner dimensions exp2 ln_1p limits config request record_impressions) search_answered.
Proof.
  unfold search_answered. set (limit := Z.min (rq_limit request) (lc_max_search_limit limits)).
  unfold search_memories_inner, validated_as_engine.
  eapply (logic_bind _ _ _ _ (λ _, True)).
  { unfold validate_non_blank, bail_if. destruct (is_blank (rq_query request)) eqn:Hb; [apply answers_fail; by left|by apply logic_ret]. }
  intros _ _. eapply (logic_bind _ _ _ _ (λ _, True)).
  { destruct (validate_max_distance (rq_max_distance request)) eqn:Hd; [by apply logic_ret|]. apply answers_fail. right. by rewrite Hd. }
  intros _ _. cbn zeta. change (rq_limit (with_request_limit ?n request)) with n. fold limit.
  change (rq_search_mode (with_request_limit limit request)) with (rq_search_mode request).
  destruct (limit =? 0) eqn:Hzero.
  { apply logic_ret. apply Z.eqb_eq in Hzero. rewrite Hzero. split_and!; [done| |exists 0; constructor|done|done].
    intros res []%not_elem_of_nil. }
  eapply logic_bind; [apply retrieve_answers|]. intros outcome [Hviews Hmode].
  eapply (logic_bind _ _ _ _ (λ _, True)); [intros se; exists (Ok (se_now se)), se; split_and!; [done|reflexivity|done]|]. intros now _.
  set (scored := apply_composite_scoring _ _ _ _ _).
  assert (Hscored : all_memories (self_view caller) scored).
  { unfold scored. eapply all_memories_perm; [apply composite_perm|]. destruct reranker; [apply reranker_memories|]; by apply seed_rows. }
  assert (Hsorted : StronglySorted (λ a b, cmp_search_result_score_desc now a b ≠ Gt) scored) by apply composite_sorted.
  eapply (logic_bind _ _ _ _ (λ l, all_memories (self_view caller) l
    ∧ StronglySorted (λ a b, cmp_search_result_score_desc now a b ≠ Gt) l)).
  { destruct (sc_duplicate_suppression_enabled config); [|by apply logic_ret].
    eapply (logic_bind _ _ _ _ (λ _, True)); [by apply answers_try_read; [intros; unfold fetch_embeddings_for_ids; steps_tac|]|]. intros [embeddings|e] _; apply logic_ret; [|done].
    split; [by apply suppression_memories|by apply suppression_sorted]. }
  intros final [Hfinal Hfsorted]. eapply (logic_bind _ _ _ _ (λ _, True)).
  { destruct record_impressions; [|by apply logic_ret]. unfold engine_record_search_impression.
    case_bool_decide; [by apply logic_ret|].
    match goal with |- context [record_search_impression_impl ?ids] => eapply (logic_bind _ _ _ _ (λ _, True));
      [apply (answers_try_call _ _ _ (λ now, OpImpression ids now)); [intros now0; by exists ids, now0| |done]|] end.
    { intros now0 st. done. }
    intros r _. by apply logic_ret. }
  intros _ _. apply logic_ret. cbn. split_and!; [apply truncate_len; lia| |exists now; by apply truncate_sorted|done].
  intros res Hres%elem_of_truncate. by apply Hfinal.
Qed.

(** C35. The contract of a search, whatever the other sessions commit, whatever
    the embedding provider and the reranker answer: it ends without a panic
    and changes nothing but the impressions of memories;
    it returns at most the requested number of results and at most the
    configured one, best first; no result shows the caller more than its
    access policy allows (each result is its own view); and it reports the
    mode that ran. It fails only with a store error, on an invalid request, or
    when a mode that insists on a collaborator finds it missing: the automatic
    mode and the text mode never fail for a provider. *)
Theorem search_contract record_impressions se
    (Hlimit : 0 ≤ rq_limit request) (Hmax : 0 ≤ lc_max_search_limit limits) :
  ∃ r se', search_memories_inner dimensions exp2 ln_1p limits config request record_impressions se = Some (r, se')
    ∧ follows dimensions exp2 impression se se'
    ∧ match r with
      | Ok outcome =>
          len (so_results outcome) ≤ Z.min (rq_limit request) (lc_max_search_limit limits)
          ∧ (∀ res, res ∈ so_results outcome → apply_access_policy (sr_memory res) caller = Some (sr_memory res))
          ∧ (∃ now, StronglySorted (λ a b, cmp_search_result_score_desc now a b ≠ Gt) (so_results outcome))
          ∧ if Z.min (rq_limit request) (lc_max_search_limit limits) =? 0
            then so_results outcome = [] ∧ so_search_mode outcome = concrete_zero_limit_search_mode mode
            else reports mode (so_search_mode outcome) (is_ok (embed (embed_query_of request)))
      | Err e => search_error request e
      end.
Proof. by apply search_answers. Qed.
End contract.

(** ** Concrete searches *)

#[local] Existing Instances AsciiCase NaiveFts ExhaustiveIndex plain_render plain_chrono.

(** A provider that embeds every text as the origin, no FTS5, and a reranker
    that prefers the last document. *)
Definition PartialProviders : SearchProviders :=
  {| embed _ := Ok [f0; f0]; fts_available := false;
     reranker := Some (λ _ docs, Ok [{| rks_index := len docs - 1; rks_score := f1 |}; {| rks_index := 99; rks_score := f1 |}]) |}.
Definition FailingProviders : SearchProviders :=
  {| embed _ := Err EmbeddingError.Disabled; fts_available := false; reranker := None |}.
Definition apples (mode : SearchMode.t) : SearchRequest :=
  {| rq_query := "apples"; rq_limit := 2; rq_filter := unfiltered; rq_ctx := as_bob; rq_max_distance := None;
     rq_keywords := None; rq_search_mode := Some mode; rq_context := Some " " |}.
Definition search_library (p : SearchProviders) (mode : SearchMode.t) : option (result EngineError.t SearchOutcome * Session) :=
  search_memories 2 (λ x, x) (λ x, x) limits_config_default search_config_default (apples mode) (mkSession library 50 []).
Definition answered (r : option (result EngineError.t SearchOutcome * Session)) : option (list MemoryId * SearchMode.t) :=
  match r with Some (Ok o, _) => Some (map (λ r, m_id (sr_memory r)) (so_results o), so_search_mode o) | _ => None end.

Example automatic_modes :
  answered (search_library PartialProviders SearchMode.Auto) = Some ([1; 3]%N, SearchMode.Semantic)
  ∧ answered (search_library FailingProviders SearchMode.Auto) = Some ([3; 1]%N, SearchMode.Text).
Proof. split; vm_compute; reflexivity. Qed.

Lemma search_contract_witness :
  ∃ outcome se', search_library PartialProviders SearchMode.Auto = Some (Ok outcome, se')
    ∧ len (so_results outcome) ≤ 2 ∧ so_search_mode outcome = SearchMode.Semantic
    ∧ (∀ res, res ∈ so_results outcome → apply_access_policy (sr_memory res) (Some "bob") = Some (sr_memory res)).
Proof.
  assert (Hok : answered (search_library PartialProviders SearchMode.Auto) ≠ None) by (vm_compute; discriminate).
  destruct (@search_contract plain_render AsciiCase plain_chrono NaiveFts ExhaustiveIndex PartialProviders 2 (λ x, x) (λ x, x)
    limits_config_default search_config_default (apples SearchMode.Auto)) with (record_impressions := true)
    (se := mkSession library 50 []) as (r & se' & Hrun & Hr); [vm_compute; discriminate..|].
  change (search_library PartialProviders SearchMode.Auto = Some (r, se')) in Hrun.
  rewrite Hrun in Hok. destruct r as [outcome|e]; [|destruct (Hok eq_refl)].
  exists outcome, se'. destruct Hr as (_ & Hlen & Hviews & _ & Hmode). split; [exact Hrun|]. split; [exact Hlen|].
  split; [exact Hmode|exact Hviews].
Defined.
