(* ===== verification/Programs.v ===== *)
(** * Programs: concurrent tasks over the store

    The embedding orchestrator runs requests and background tasks that share
    the store, the embedding provider, two sets under mutexes and the task set
    of background_tasks.rs. [prog] is the code of one of them, cut at the
    accesses of what is shared; [System] is the running server and [step] lets
    any of them, another session, or the shutdown move. *)
From Stdlib Require Import ZArith Lia.
From stdpp Require Import base list option strings gmap sets relations.
From S2P Require Import Prelude Text Floats Errors Types Context StoreTypes Store Membership Crud ContextAdmin Revisions Operations Vectors Governance.

(** The identity of embedding work, [(MemoryId, i64)]. *)
Definition EmbedKey : Type := MemoryId * Z.
Record ActiveEmbedClaim := mkActiveEmbedClaim {
  ac_id : MemoryId;
  ac_embedding_revision : Z;
  ac_claim_token : string;
}.
#[export] Instance ActiveEmbedClaim_eq_dec : EqDecision ActiveEmbedClaim.
Proof. solve_decision. Defined.
#[export] Instance ActiveEmbedClaim_countable : Countable ActiveEmbedClaim.
Proof.
  refine (inj_countable' (λ c, (ac_id c, ac_embedding_revision c, ac_claim_token c))
    (λ '(id, rev, tok), mkActiveEmbedClaim id rev tok) _). by intros [].
Defined.

(** ** Programs *)

(** The accesses are: the clock, a transaction of the store, a claim of
    memories to re-embed (the store makes its token), the embedding provider,
    an embed admission, [inflight_embeds] and [active_claimed_embeds] with the
    drop of their guards, and the spawn of a task that takes guards along.
    A loop is a recursion over its list. *)
Inductive prog (A : Type) : Type :=
| Ret (a : A)
| ReadClock (k : DateTime → prog A)
| Transact (B : Type) (m : DateTime → tx B) (k : result StoreError.t B → prog A)
| ClaimForReembed (scope : ReembedClaimScope.t) (limit : Z) (k : result StoreError.t (list ReembedClaim) → prog A)
| HealthCheck (k : result EmbeddingError.t unit → prog A)
| Embed (text : string) (k : result EmbeddingError.t (list f64) → prog A)
| EmbedBatch (texts : list string) (k : result EmbeddingError.t (list (list f64)) → prog A)
| BeginEmbedAdmission (k : result EngineError.t unit → prog A)
| InsertInflight (key : EmbedKey) (k : bool → prog A)
| DropInflight (key : EmbedKey) (k : prog A)
| InsertActive (claim : ActiveEmbedClaim) (k : prog A)
| DropActive (claim : ActiveEmbedClaim) (k : prog A)
| Spawn (keys : gset EmbedKey) (claims : gset ActiveEmbedClaim) (task : prog unit) (k : bool → prog A).
Arguments Ret {A} a.
Arguments ReadClock {A} k.
Arguments Transact {A} B m k.
Arguments ClaimForReembed {A} scope limit k.
Arguments HealthCheck {A} k.
Arguments Embed {A} text k.
Arguments EmbedBatch {A} texts k.
Arguments BeginEmbedAdmission {A} k.
Arguments InsertInflight {A} key k.
Arguments DropInflight {A} key k.
Arguments InsertActive {A} claim k.
Arguments DropActive {A} claim k.
Arguments Spawn {A} keys claims task k.

Fixpoint prog_then {A B} (p : prog A) (f : A → prog B) : prog B :=
  match p with
  | Ret a => f a
  | ReadClock k => ReadClock (λ x, prog_then (k x) f)
  | Transact C m k => Transact C m (λ x, prog_then (k x) f)
  | ClaimForReembed scope limit k => ClaimForReembed scope limit (λ x, prog_then (k x) f)
  | HealthCheck k => HealthCheck (λ x, prog_then (k x) f)
  | Embed text k => Embed text (λ x, prog_then (k x) f)
  | EmbedBatch texts k => EmbedBatch texts (λ x, prog_then (k x) f)
  | BeginEmbedAdmission k => BeginEmbedAdmission (λ x, prog_then (k x) f)
  | InsertInflight key k => InsertInflight key (λ x, prog_then (k x) f)
  | DropInflight key k => DropInflight key (prog_then k f)
  | InsertActive claim k => InsertActive claim (prog_then k f)
  | DropActive claim k => DropActive claim (prog_then k f)
  | Spawn keys claims task k => Spawn keys claims task (λ x, prog_then (k x) f)
  end.
#[export] Instance prog_ret : MRet prog := λ A a, Ret a.
#[export] Instance prog_bind : MBind prog := λ A B f p, prog_then p f.

(** Rust's [?] on a computation that ends in an [EngineError]. *)
Notation fallible A := (prog (result EngineError.t A)).
Definition try_then {A B} (p : fallible A) (f : A → fallible B) : fallible B :=
  r ← p; match r with Ok a => f a | Err e => mret (Err e) end.
Notation "x ←? p ; q" := (try_then p (λ x, q)) (at level 20, p at level 100, q at level 200, right associativity).
Definition ok {A} (a : A) : fallible A := mret (Ok a).
Definition of_checked {A} (r : result EngineError.t A) : fallible A := mret r.

Definition read_clock : prog DateTime := ReadClock Ret.
Definition transact {B} (m : DateTime → tx B) : prog (result StoreError.t B) := Transact B m Ret.
Definition store_call {B} (m : DateTime → tx B) : fallible B :=
  r ← transact m; mret (map_err EngineError.Store r).

(** ** The running server *)

(** A task or a request, with the guards it owns. *)
Record Thread := mkThread {
  th_prog : prog unit;
  th_inflight : gset EmbedKey;
  th_active : gset ActiveEmbedClaim;
  th_spawned : bool;
}.

(** [shutdown_with_cleanup] with the cleanup of the orchestrator: the taken
    tasks are drained, or at the deadline the active claims are collected and
    released one by one and the tasks dropped. *)
Inductive ShutdownPhase :=
| Running
| Draining (tasks : gset nat)
| Releasing (tasks : gset nat) (claims : list ActiveEmbedClaim)
| Dropping (tasks : gset nat).
Definition taken (p : ShutdownPhase) : gset nat :=
  match p with Running => ∅ | Draining ts | Releasing ts _ | Dropping ts => ts end.

(** [sy_issued] and [sy_born] are history: the claim tokens this server has
    made and the ids of all memories there have been. *)
Record System := mkSystem {
  sy_store : Store;
  sy_inflight : gset EmbedKey;
  sy_active : gset ActiveEmbedClaim;
  sy_threads : gmap nat Thread;
  sy_shutdown : ShutdownPhase;
  sy_issued : gset string;
  sy_born : gset MemoryId;
}.
Definition with_store (st : Store) (s : System) : System :=
  mkSystem st (sy_inflight s) (sy_active s) (sy_threads s) (sy_shutdown s) (sy_issued s) (sy_born s ∪ dom (st_memories st)).
Definition with_inflight (x : gset EmbedKey) (s : System) : System :=
  mkSystem (sy_store s) x (sy_active s) (sy_threads s) (sy_shutdown s) (sy_issued s) (sy_born s).
Definition with_active (x : gset ActiveEmbedClaim) (s : System) : System :=
  mkSystem (sy_store s) (sy_inflight s) x (sy_threads s) (sy_shutdown s) (sy_issued s) (sy_born s).
Definition with_threads (x : gmap nat Thread) (s : System) : System :=
  mkSystem (sy_store s) (sy_inflight s) (sy_active s) x (sy_shutdown s) (sy_issued s) (sy_born s).
Definition with_shutdown (x : ShutdownPhase) (s : System) : System :=
  mkSystem (sy_store s) (sy_inflight s) (sy_active s) (sy_threads s) x (sy_issued s) (sy_born s).
Definition with_issued (token : string) (s : System) : System :=
  mkSystem (sy_store s) (sy_inflight s) (sy_active s) (sy_threads s) (sy_shutdown s) ({[token]} ∪ sy_issued s) (sy_born s).
Definition with_prog (p : prog unit) (th : Thread) : Thread :=
  mkThread p (th_inflight th) (th_active th) (th_spawned th).

(** What the world answers to one access. *)
Record Oracle := mkOracle {
  or_now : DateTime;
  or_token : string;
  or_health : result EmbeddingError.t unit;
  or_embed : result EmbeddingError.t (list f64);
  or_batch : result EmbeddingError.t (list (list f64));
  or_admission : result EngineError.t unit;
  or_accepted : bool;
  or_task : nat;
}.
(** Who moves next. *)
Inductive choice :=
| RequestArrives (t : nat) (p : prog unit)
| Runs (t : nat) (o : Oracle)
| OthersRun (o : operation)
| OthersAdminister (o : context_op)
| ShutdownTakes
| ShutdownDrained
| ShutdownCollects
| ShutdownReleases
| ShutdownDrops (t : nat)
| ShutdownEnds.

Section machine.
Context `{Render, UnicodeCase, Chrono} (dimensions : Z) (exp2 : f64 → f64).

(** One access of thread [t]. *)
Definition advance (o : Oracle) (t : nat) (th : Thread) (s : System) : System :=
  let go p s := with_threads (<[t := with_prog p th]> (sy_threads s)) s in
  match th_prog th with
  | Ret _ => with_threads (delete t (sy_threads s)) s
  | ReadClock k => go (k (or_now o)) s
  | Transact B m k =>
      let '(r, st) := with_conn (m (or_now o)) (sy_store s) in go (k r) (with_store st s)
  | ClaimForReembed scope limit k =>
      let '(r, st) := with_conn (claim_for_reembed_with_scope_impl scope limit (or_now o) (or_token o)) (sy_store s) in
      go (k r) (with_issued (or_token o) (with_store st s))
  | HealthCheck k => go (k (or_health o)) s
  | Embed _ k => go (k (or_embed o)) s
  | EmbedBatch _ k => go (k (or_batch o)) s
  | BeginEmbedAdmission k => go (k (or_admission o)) s
  | InsertInflight key k =>
      if bool_decide (key ∈ sy_inflight s) then go (k false) s
      else with_threads (<[t := mkThread (k true) ({[key]} ∪ th_inflight th) (th_active th) (th_spawned th)]> (sy_threads s))
             (with_inflight ({[key]} ∪ sy_inflight s) s)
  | DropInflight key k =>
      with_threads (<[t := mkThread k (th_inflight th ∖ {[key]}) (th_active th) (th_spawned th)]> (sy_threads s))
        (with_inflight (sy_inflight s ∖ {[key]}) s)
  | InsertActive claim k =>
      with_threads (<[t := mkThread k (th_inflight th) ({[claim]} ∪ th_active th) (th_spawned th)]> (sy_threads s))
        (with_active ({[claim]} ∪ sy_active s) s)
  | DropActive claim k =>
      with_threads (<[t := mkThread k (th_inflight th) (th_active th ∖ {[claim]}) (th_spawned th)]> (sy_threads s))
        (with_active (sy_active s ∖ {[claim]}) s)
  | Spawn keys claims task k =>
      if or_accepted o
      then with_threads
             (<[or_task o := mkThread task keys claims true]>
               (<[t := mkThread (k true) (th_inflight th ∖ keys) (th_active th ∖ claims) (th_spawned th)]> (sy_threads s))) s
      else go (k false) s
  end.

Definition release_claim (c : ActiveEmbedClaim) (st : Store) : Store :=
  snd (with_conn (release_embedding_claim_impl (ac_id c) (ac_embedding_revision c) (ac_claim_token c)) st).

Definition perform (c : choice) (s : System) : option System :=
  match c with
  | RequestArrives t p => Some (with_threads (<[t := mkThread p ∅ ∅ false]> (sy_threads s)) s)
  | Runs t o => th ← sy_threads s !! t; Some (advance o t th s)
  | OthersRun o => Some (with_store (run dimensions exp2 (sy_store s) o) s)
  | OthersAdminister o => Some (with_store (run_context (sy_store s) o) s)
  | ShutdownTakes =>
      match sy_shutdown s with
      | Running => Some (with_shutdown (Draining (dom (filter (λ x, th_spawned (snd x) = true) (sy_threads s)))) s)
      | _ => None
      end
  | ShutdownDrained =>
      match sy_shutdown s with
      | Draining ts => if bool_decide (ts ## dom (sy_threads s)) then Some (with_shutdown Running s) else None
      | _ => None
      end
  | ShutdownCollects =>
      match sy_shutdown s with
      | Draining ts => Some (with_shutdown (Releasing ts (elements (sy_active s))) s)
      | _ => None
      end
  | ShutdownReleases =>
      match sy_shutdown s with
      | Releasing ts (c :: cs) => Some (with_shutdown (Releasing ts cs) (with_store (release_claim c (sy_store s)) s))
      | Releasing ts [] => Some (with_shutdown (Dropping ts) s)
      | _ => None
      end
  | ShutdownDrops t =>
      match sy_shutdown s with
      | Dropping ts =>
          if bool_decide (t ∈ ts)
          then th ← sy_threads s !! t;
               Some (with_threads (delete t (sy_threads s))
                 (with_inflight (sy_inflight s ∖ th_inflight th) (with_active (sy_active s ∖ th_active th) s)))
          else None
      | _ => None
      end
  | ShutdownEnds =>
      match sy_shutdown s with
      | Dropping ts => if bool_decide (ts ## dom (sy_threads s)) then Some (with_shutdown Running s) else None
      | _ => None
      end
  end.

(** What the model assumes of the rest. The requests are those of [served].
    The provider answers a text with one of its [answers], and a batch of the
    right length text by text. A claim token is a new ULID, and so is the id
    of a new memory. Other sessions write vectors that are right and take
    leases under tokens of their own. *)
Context (served : prog unit → Prop) (answers : string → list f64 → Prop).
Definition thread_fresh (t : nat) (s : System) : Prop := sy_threads s !! t = None ∧ t ∉ taken (sy_shutdown s).
Definition token_fresh (token : string) (s : System) : Prop :=
  token ∉ sy_issued s ∧ ∀ id r, st_memories (sy_store s) !! id = Some r → r_embedding_claim_token r ≠ Some token.
Definition answers_fit {A} (p : prog A) (o : Oracle) (s : System) : Prop :=
  match p with
  | Embed text _ => ∀ v, or_embed o = Ok v → answers text v
  | EmbedBatch texts _ => ∀ vs, or_batch o = Ok vs → length vs = length texts → Forall2 answers texts vs
  | ClaimForReembed _ _ _ => token_fresh (or_token o) s
  | Spawn _ _ _ _ => or_accepted o = true → thread_fresh (or_task o) s
  | _ => True
  end.
Definition legal (c : choice) (s : System) : Prop :=
  match c with
  | RequestArrives t p => thread_fresh t s ∧ served p
  | Runs t o => ∀ th, sy_threads s !! t = Some th → answers_fit (th_prog th) o s
  | OthersRun o => writes_right answers (λ _ _ token, token ∉ sy_issued s) (sy_store s) o
  | _ => True
  end.
(** No id comes back after its memory was deleted. *)
Definition ids_fresh (s s' : System) : Prop := ∀ id,
  is_Some (st_memories (sy_store s') !! id) → is_Some (st_memories (sy_store s) !! id) ∨ id ∉ sy_born s.
Definition step (s s' : System) : Prop := ∃ c, legal c s ∧ perform c s = Some s' ∧ ids_fresh s s'.

(** A server starts on a store with right vectors and no claims of its own. *)
Definition started (st : Store) : System := mkSystem st ∅ ∅ ∅ Running ∅ (dom (st_memories st)).
Definition reachable (st : Store) (s : System) : Prop := rtc step (started st) s.
End machine.
