(* ===== verification/Orchestrator.v ===== *)
(** * Orchestrator: storing and embedding, [src/src/embedding/orchestrator/]

    The operations of the embedding orchestrator and the batch executor of
    embedding/batch.rs, as programs over what they share (Programs.v). A
    write is followed by a background task that embeds the content, or by the
    same work inline when the task is refused; work for one revision of a
    memory is coalesced through [inflight_embeds]; claims of memories to
    re-embed are released when no vector could be written. *)
From Stdlib Require Import ZArith Lia.
From stdpp Require Import base list option strings gmap sets pretty.
From S2P Require Import Prelude Text Floats Errors Types Context StoreTypes Store Membership Crud ContextAdmin Revisions Operations Vectors Programs.

(** ** The batch executor, [embedding/batch.rs] *)

Inductive BatchEmbeddingResult :=
| PerItem (results : list (result EmbeddingError.t (list f64)))
| BatchFailed (error : EmbeddingError.t).

Definition embed (text : string) : prog (result EmbeddingError.t (list f64)) := Embed text Ret.
Definition embed_batch (texts : list string) : prog (result EmbeddingError.t (list (list f64))) := EmbedBatch texts Ret.
Definition health_check : prog (result EmbeddingError.t unit) := HealthCheck Ret.

Fixpoint execute_individually (contents : list string) : prog (list (result EmbeddingError.t (list f64))) :=
  match contents with
  | [] => mret []
  | content :: contents =>
      r ← embed content;
      results ← execute_individually contents;
      mret (r :: results)
  end.
Definition execute_chunk (contents : list string) : prog BatchEmbeddingResult :=
  r ← embed_batch contents;
  match r with
  | Ok embeddings =>
      if len embeddings =? len contents then mret (PerItem (map Ok embeddings))
      else results ← execute_individually contents; mret (PerItem results)
  | Err (EmbeddingError.Permanent _) => results ← execute_individually contents; mret (PerItem results)
  | Err error => mret (BatchFailed error)
  end.

(** ** Work and its guards *)

Record EmbedWork := {
  ew_id : MemoryId;
  ew_content : string;
  ew_expected_revision : Z;
  ew_claim_token : option string;
}.
Record TrackedEmbedWork := {
  tw_work : EmbedWork;
  tw_inflight : EmbedKey;
  tw_active_claim : option ActiveEmbedClaim;
}.
Inductive RejectedSpawn := RunInline | ReleaseClaims.

Definition begin_inflight_embed (id : MemoryId) (expected_revision : Z) : prog (option EmbedKey) :=
  InsertInflight (id, expected_revision) (λ inserted, Ret (if inserted then Some (id, expected_revision) else None)).
Definition drop_inflight (key : EmbedKey) : prog unit := DropInflight key (Ret ()).
Definition track_active_claim (id : MemoryId) (embedding_revision : Z) (claim_token : string) : prog ActiveEmbedClaim :=
  let claim := mkActiveEmbedClaim id embedding_revision claim_token in
  InsertActive claim (Ret claim).
Definition drop_active (claim : ActiveEmbedClaim) : prog unit := DropActive claim (Ret ()).
(** The fields are dropped in the order of their declaration. *)
Definition drop_tracked (t : TrackedEmbedWork) : prog unit :=
  _ ← drop_inflight (tw_inflight t);
  match tw_active_claim t with Some claim => drop_active claim | None => mret () end.

(** [for x in l { f(x).await; }]. *)
Fixpoint for_each {A} (f : A → prog unit) (l : list A) : prog unit :=
  match l with [] => mret () | x :: l => _ ← f x; for_each f l end.

(** [admission.spawn(...)]: a refused future is dropped with its guards. *)
Definition spawn (tracked : list TrackedEmbedWork) (task : prog unit) : prog bool :=
  accepted ← Spawn (list_to_set (map tw_inflight tracked)) (list_to_set (omap tw_active_claim tracked)) task Ret;
  if accepted : bool then mret true else _ ← for_each drop_tracked tracked; mret false.

Section orchestrator.
Context `{Render} (dimensions : Z) (active_profile : option EmbeddingProfile) (embedding_batch_size : Z).

(** [BatchEmbeddingExecutor::new]. *)
Definition chunk_size : Z := Z.max embedding_batch_size 1.

Definition release_embedding_claim (id : MemoryId) (expected_revision : Z) (claim_token : string) : prog unit :=
  _ ← transact (λ _, release_embedding_claim_impl id expected_revision claim_token); mret ().
Definition release_work_claim (work : EmbedWork) : prog unit :=
  match ew_claim_token work with
  | Some token => release_embedding_claim (ew_id work) (ew_expected_revision work) token
  | None => mret ()
  end.
Definition apply_embedding_result (work : EmbedWork) (r : result EmbeddingError.t (list f64)) : prog unit :=
  match r with
  | Err _ => release_work_claim work
  | Ok embedding =>
      r ← transact (λ _, set_embedding_impl dimensions (ew_id work) embedding (ew_expected_revision work) active_profile);
      match r with
      | Ok () => mret ()
      | Err (StoreError.Conflict _) => release_work_claim work
      | Err _ => release_work_claim work
      end
  end.
Definition run_embed_task (id : MemoryId) (content : string) (expected_revision : Z) (claim_token : option string) : prog unit :=
  let work := {| ew_id := id; ew_content := content; ew_expected_revision := expected_revision; ew_claim_token := claim_token |} in
  r ← embed content;
  apply_embedding_result work r.

(** The results in order; work without a result is dropped. *)
Fixpoint apply_results (tracked : list TrackedEmbedWork) (results : list (result EmbeddingError.t (list f64))) : prog unit :=
  match tracked, results with
  | t :: tracked, r :: results =>
      _ ← apply_embedding_result (tw_work t) r;
      _ ← drop_tracked t;
      apply_results tracked results
  | tracked, _ => for_each drop_tracked tracked
  end.
Definition run_batch (tracked : list TrackedEmbedWork) : prog unit :=
  match tracked with
  | [] => mret ()
  | _ =>
      r ← execute_chunk (map (λ t, ew_content (tw_work t)) tracked);
      match r with
      | PerItem results => apply_results tracked results
      | BatchFailed _ => for_each (λ t, _ ← release_work_claim (tw_work t); drop_tracked t) tracked
      end
  end.

Fixpoint prepare_work (work : list EmbedWork) : prog (list TrackedEmbedWork) :=
  match work with
  | [] => mret []
  | w :: work =>
      inflight ← begin_inflight_embed (ew_id w) (ew_expected_revision w);
      match inflight with
      | None =>
          _ ← release_work_claim w;
          prepare_work work
      | Some inflight =>
          active_claim ← match ew_claim_token w with
                         | Some token => claim ← track_active_claim (ew_id w) (ew_expected_revision w) token; mret (Some claim)
                         | None => mret None
                         end;
          tracked ← prepare_work work;
          mret ({| tw_work := w; tw_inflight := inflight; tw_active_claim := active_claim |} :: tracked)
      end
  end.
Definition schedule_chunk (work : list EmbedWork) (rejected_spawn : RejectedSpawn) : prog Z :=
  tracked ← prepare_work work;
  match tracked with
  | [] => mret 0
  | _ =>
      let accepted := map tw_work tracked in
      let scheduled := len tracked in
      spawned ← spawn tracked (run_batch tracked);
      if spawned : bool then mret scheduled
      else
        match rejected_spawn with
        | RunInline =>
            tracked ← prepare_work accepted;
            let completed := len tracked in
            _ ← run_batch tracked;
            mret completed
        | ReleaseClaims =>
            _ ← for_each release_work_claim accepted;
            mret 0
        end
  end.
(** The loop takes chunks until the work is used up. *)
Fixpoint schedule_chunks (cs : list (list EmbedWork)) (rejected_spawn : RejectedSpawn) (scheduled : Z) : prog Z :=
  match cs with
  | [] => mret scheduled
  | chunk :: cs =>
      count ← schedule_chunk chunk rejected_spawn;
      schedule_chunks cs rejected_spawn (saturating_add scheduled count)
  end.
Definition schedule_batches (work : list EmbedWork) (rejected_spawn : RejectedSpawn) : prog Z :=
  schedule_chunks (chunks (Z.to_nat chunk_size) work) rejected_spawn 0.

Definition spawn_embed_batches_or_run_inline (work : list EmbedWork) : prog Z := schedule_batches work RunInline.
Definition claimed_work (claim : ReembedClaim) : EmbedWork :=
  {| ew_id := rc_id claim; ew_content := rc_content claim; ew_expected_revision := rc_embedding_revision claim;
     ew_claim_token := Some (rc_claim_token claim) |}.
Definition spawn_claimed_embed_batches_or_run_inline (claims : list ReembedClaim) : prog Z :=
  schedule_batches (map claimed_work claims) ReleaseClaims.

Definition spawn_embed_task_or_run_inline (id : MemoryId) (content : string) (expected_revision : Z) : prog bool :=
  inflight ← begin_inflight_embed id expected_revision;
  match inflight with
  | None => mret false
  | Some inflight =>
      let tracked := {| tw_work := {| ew_id := id; ew_content := content; ew_expected_revision := expected_revision;
                                      ew_claim_token := None |};
                        tw_inflight := inflight; tw_active_claim := None |} in
      spawned ← spawn [tracked] (_ ← run_embed_task id content expected_revision None; drop_inflight inflight);
      if spawned : bool then mret true
      else
        inflight ← begin_inflight_embed id expected_revision;
        match inflight with
        | None => mret false
        | Some inflight =>
            _ ← run_embed_task id content expected_revision None;
            _ ← drop_inflight inflight;
            mret true
        end
  end.
End orchestrator.

(** ** Store, then embed *)

Section writes.
Context `{Render, UnicodeCase, Chrono} (dimensions : Z) (active_profile : option EmbeddingProfile) (embedding_batch_size : Z).
#[local] Abbreviation spawn_embed_task_or_run_inline := (spawn_embed_task_or_run_inline dimensions active_profile).
#[local] Abbreviation spawn_embed_batches_or_run_inline :=
  (spawn_embed_batches_or_run_inline dimensions active_profile embedding_batch_size).

(** A successful write of one memory queues its embedding at revision 0. *)
Definition then_embed (memory : Memory) (write : fallible MemoryId) : fallible MemoryId :=
  let content := m_content memory in
  id ←? write;
  _ ← spawn_embed_task_or_run_inline id content 0;
  ok id.
Definition store_and_embed (memory : Memory) (supersedes : option MemoryId) (audit : AuditDraft) : fallible MemoryId :=
  then_embed memory
    match supersedes with
    | Some supersedes_id =>
        store_call (λ _, store_with_supersession_audited_impl dimensions memory None supersedes_id (Some audit))
    | None => store_call (λ _, store_audited_impl dimensions memory None (Some audit))
    end.
Definition store_and_embed_with_metadata (memory : Memory) (supersedes : option MemoryId) (metadata : MemoryMetadata)
    (audit : AuditDraft) : fallible MemoryId :=
  then_embed memory
    (store_call (λ _, store_with_metadata_audited_impl dimensions memory None supersedes metadata (Some audit))).
Definition store_and_embed_with_metadata_contexts (memory : Memory) (supersedes : option MemoryId)
    (metadata : MemoryMetadata) (context_ids : list ContextId) (audit : AuditDraft) (context_audit : ContextAuditDraft)
    : fallible MemoryId :=
  then_embed memory
    (store_call (λ now, store_with_metadata_contexts_audited_impl dimensions memory None supersedes metadata context_ids
                          audit context_audit now)).

Definition memory_for_store (memory : Memory) : MemoryWithEmbedding :=
  {| we_memory := memory; we_embedding := None; we_context_ids := [] |}.
Definition initial_work (id : MemoryId) (content : string) : EmbedWork :=
  {| ew_id := id; ew_content := content; ew_expected_revision := 0; ew_claim_token := None |}.
Definition check_batch_size (memories : list Memory) (max_batch_size : Z) : result EngineError.t unit :=
  _ ← bail_if (bool_decide (memories = []))
        (EngineError.Validation (validation_error_new "memories" "batch cannot be empty"));
  bail_if (max_batch_size <? len memories)
    (EngineError.Validation (validation_error_new "memories"
       ("batch size " +:+ pretty (len memories) +:+ " exceeds maximum of " +:+ pretty max_batch_size))).
(** A successful write of a batch queues the embeddings in chunks. *)
Definition then_embed_batch (memories : list Memory) (max_batch_size : Z)
    (write : list MemoryWithEmbedding → fallible (list MemoryId)) : fallible (list MemoryId) :=
  _ ←? of_checked (check_batch_size memories max_batch_size);
  let contents := map m_content memories in
  ids ←? write (map memory_for_store memories);
  _ ← spawn_embed_batches_or_run_inline (zip_with initial_work ids contents);
  ok ids.
Definition batch_store_and_embed (memories : list Memory) (supersedes_list : list (option MemoryId))
    (audits : list AuditDraft) (max_batch_size : Z) : fallible (list MemoryId) :=
  let has_any_supersession := existsb is_some supersedes_list in
  then_embed_batch memories max_batch_size (λ memories_for_store,
    if has_any_supersession
    then store_call (λ _, store_batch_with_supersession_audited_impl dimensions memories_for_store supersedes_list (Some audits))
    else store_call (λ _, store_batch_audited_impl dimensions memories_for_store (Some audits))).
Definition batch_store_and_embed_with_metadata (memories : list Memory) (supersedes_list : list (option MemoryId))
    (metadata : list MemoryMetadata) (audits : list AuditDraft) (max_batch_size : Z) : fallible (list MemoryId) :=
  then_embed_batch memories max_batch_size (λ memories_for_store,
    store_call (λ _, store_batch_with_metadata_audited_impl dimensions memories_for_store supersedes_list metadata (Some audits))).
Definition batch_store_and_embed_with_metadata_contexts (memories : list Memory) (supersedes_list : list (option MemoryId))
    (metadata : list MemoryMetadata) (context_ids : list (list ContextId)) (audits : list AuditDraft)
    (context_audits : list ContextAuditDraft) (max_batch_size : Z) : fallible (list MemoryId) :=
  then_embed_batch memories max_batch_size (λ memories,
    store_call (λ now, store_batch_with_metadata_contexts_audited_impl dimensions memories supersedes_list metadata
                         context_ids audits context_audits now)).

(** [embed_admission] is whether the caller holds one. *)
Definition maybe_reembed_after_update (embed_admission : bool) (id : MemoryId) (new_content : option string)
    (outcome : AuthorizedUpdateOutcome) : prog unit :=
  if negb (bool_decide (ao_outcome outcome = WriteOutcome.Applied)) then mret ()
  else
    match embed_admission, new_content, ao_reembed_revision outcome with
    | true, Some content, Some revision => _ ← spawn_embed_task_or_run_inline id content revision; mret ()
    | _, _, _ => mret ()
    end.
Definition then_reembed (embed_admission : bool) (id : MemoryId) (update : MemoryUpdate)
    (write : fallible AuthorizedUpdateOutcome) : fallible AuthorizedUpdateOutcome :=
  let new_content := mu_content update in
  outcome ←? write;
  _ ← maybe_reembed_after_update embed_admission id new_content outcome;
  ok outcome.
Definition update_and_maybe_reembed (embed_admission : bool) (id : MemoryId) (update : MemoryUpdate) (principal : string)
    (audit : AuditDraft) : fallible AuthorizedUpdateOutcome :=
  then_reembed embed_admission id update
    (store_call (λ now, update_authorized_audited_impl id update principal now (Some audit))).
Definition update_with_metadata_and_maybe_reembed (embed_admission : bool) (id : MemoryId) (update : MemoryUpdate)
    (metadata_patch : option MetadataPatch) (principal : string) (audit : AuditDraft) : fallible AuthorizedUpdateOutcome :=
  then_reembed embed_admission id update
    (store_call (λ now, apply_authorized_update_with_metadata id update metadata_patch principal now (Some audit))).
Definition update_with_metadata_contexts_and_maybe_reembed (embed_admission : bool) (id : MemoryId) (update : MemoryUpdate)
    (metadata_patch : option MetadataPatch) (context_ids : option (list ContextId)) (principal : string)
    (audit : AuditDraft) (context_audit : option ContextAuditDraft) : fallible AuthorizedUpdateOutcome :=
  then_reembed embed_admission id update
    (store_call (λ now, apply_authorized_update_with_metadata_contexts id update metadata_patch context_ids principal now
                          audit context_audit)).
End writes.
