(* ===== verification/EngineWrites.v ===== *)
(** * EngineWrites: the engine's writes that embed, [src/src/engine.rs]

    Storing one memory or a batch, updating with re-embedding, and re-embedding
    on request, as programs over the embedding orchestrator. [request] lists
    them: what the server may ask of the engine. *)
From Stdlib Require Import ZArith Lia.
From stdpp Require Import base list option strings gmap sets pretty.
From S2P Require Import Prelude Text Floats Errors Types Context StoreTypes Validation Store Membership Crud ContextAdmin Revisions Operations Query Config Engine Programs Orchestrator.

Inductive ReembedRequest :=
| Single (id : MemoryId) (principal : string)
| Bulk (limit : Z) (principal : string)
| Recovery (limit : Z).
Inductive ReembedOutcome :=
| Queued (count : Z)
| NotFound (id : MemoryId).

Section writes.
Context `{Render, UnicodeCase, Chrono} (dimensions : Z) (active_profile : option EmbeddingProfile) (limits : LimitsConfig).
#[local] Abbreviation spawn_embed_task_or_run_inline := (spawn_embed_task_or_run_inline dimensions active_profile).
#[local] Abbreviation embedding_batch_size := (lc_embedding_batch_size limits).

Definition begin_embed_admission : fallible unit := BeginEmbedAdmission Ret.
Definition timed_audit_draft (action : AuditAction.t) (caller : option string) (details : option Json) : prog AuditDraft :=
  now ← read_clock;
  mret {| ad_action := action; ad_caller_agent := caller; ad_timestamp := now; ad_details := details |}.

Definition supersedes_details (supersedes : option MemoryId) : option Json :=
  (λ id, JObj [("supersedes", JStr (ulid id))]) <$> supersedes.
Definition context_ids_details (ids : list ContextId) : Json := JObj [("context_ids", JArr (map (λ id, JStr (ulid id)) ids))].

(** *** Storing *)

Definition store_memory (memory : Memory) (supersedes : option MemoryId) : fallible MemoryId :=
  let principal := source_principal memory in
  _ ←? begin_embed_admission;
  audit ← timed_audit_draft AuditAction.Store principal (supersedes_details supersedes);
  store_and_embed dimensions active_profile memory supersedes audit.
Definition store_memory_with_metadata (memory : Memory) (supersedes : option MemoryId) (metadata : MemoryMetadata) :
    fallible MemoryId :=
  let principal := source_agent (m_provenance memory) in
  _ ←? begin_embed_admission;
  audit ← timed_audit_draft AuditAction.Store principal (supersedes_details supersedes);
  store_and_embed_with_metadata dimensions active_profile memory supersedes metadata audit.
Definition initial_contexts_audit (memory : Memory) (context_ids : list ContextId) : ContextAuditDraft :=
  {| cad_actor_principal := default ANONYMOUS_PRINCIPAL (source_principal memory);
     cad_action := "memory_contexts_initialized"; cad_context_id := None; cad_memory_id := Some (m_id memory);
     cad_details := Some (context_ids_details context_ids) |}.
Definition store_memory_with_metadata_contexts (memory : Memory) (supersedes : option MemoryId)
    (metadata : MemoryMetadata) (context_ids : list ContextId) : fallible MemoryId :=
  let principal := source_principal memory in
  _ ←? begin_embed_admission;
  audit ← timed_audit_draft AuditAction.Store principal (supersedes_details supersedes);
  store_and_embed_with_metadata_contexts dimensions active_profile memory supersedes metadata context_ids audit
    (initial_contexts_audit memory context_ids).

Definition validate_batch_companion_len (field label : string) (companion_len memories_len : Z) : result EngineError.t unit :=
  if companion_len =? memories_len then Ok ()
  else Err (EngineError.Validation (validation_error_new field
         (label +:+ " length (" +:+ pretty companion_len +:+ ") must match memories length (" +:+ pretty memories_len +:+ ")"))).
Fixpoint batch_store_audits (memories : list Memory) (supersedes_list : list (option MemoryId)) : prog (list AuditDraft) :=
  match memories, supersedes_list with
  | memory :: memories, supersedes :: supersedes_list =>
      audit ← timed_audit_draft AuditAction.Store (source_agent (m_provenance memory)) (supersedes_details supersedes);
      audits ← batch_store_audits memories supersedes_list;
      mret (audit :: audits)
  | _, _ => mret []
  end.
Definition batch_store (memories : list Memory) (supersedes_list : list (option MemoryId)) : fallible (list MemoryId) :=
  _ ←? of_checked (validate_batch_companion_len "supersedes" "supersedes list" (len supersedes_list) (len memories));
  _ ←? begin_embed_admission;
  audits ← batch_store_audits memories supersedes_list;
  batch_store_and_embed dimensions active_profile embedding_batch_size memories supersedes_list audits
    (lc_max_batch_size limits).
Definition batch_store_with_metadata (memories : list Memory) (supersedes_list : list (option MemoryId))
    (metadata : list MemoryMetadata) : fallible (list MemoryId) :=
  _ ←? of_checked (validate_batch_companion_len "supersedes" "supersedes list" (len supersedes_list) (len memories));
  _ ←? of_checked (validate_batch_companion_len "metadata" "metadata" (len metadata) (len memories));
  _ ←? begin_embed_admission;
  audits ← batch_store_audits memories supersedes_list;
  batch_store_and_embed_with_metadata dimensions active_profile embedding_batch_size memories supersedes_list metadata
    audits (lc_max_batch_size limits).
Definition batch_store_with_metadata_contexts (memories : list Memory) (supersedes_list : list (option MemoryId))
    (metadata : list MemoryMetadata) (context_ids : list (list ContextId)) : fallible (list MemoryId) :=
  _ ←? of_checked (validate_batch_companion_len "supersedes" "supersedes list" (len supersedes_list) (len memories));
  _ ←? of_checked (validate_batch_companion_len "metadata" "metadata" (len metadata) (len memories));
  _ ←? of_checked (validate_batch_companion_len "context" "context membership sets" (len context_ids) (len memories));
  _ ←? begin_embed_admission;
  audits ← batch_store_audits memories supersedes_list;
  let context_audits := zip_with initial_contexts_audit memories context_ids in
  batch_store_and_embed_with_metadata_contexts dimensions active_profile embedding_batch_size memories supersedes_list
    metadata context_ids audits context_audits (lc_max_batch_size limits).

(** *** Updating *)

(** An admission is needed when content changes; the answer is whether one is
    held. *)
Definition admission_for (content : option string) : fallible bool :=
  if is_some content then _ ←? begin_embed_admission; ok true else ok false.
Definition replaced_contexts_audit (id : MemoryId) (principal : string) (ids : list ContextId) : ContextAuditDraft :=
  {| cad_actor_principal := principal; cad_action := "memory_contexts_replaced"; cad_context_id := None;
     cad_memory_id := Some id; cad_details := Some (context_ids_details ids) |}.

Definition update_memory (id : MemoryId) (update : MemoryUpdate) (principal : string) : fallible AuthorizedUpdateOutcome :=
  embed_admission ←? admission_for (mu_content update);
  update ←? of_checked (prepare_update limits update);
  audit ← timed_audit_draft AuditAction.Update (Some principal) None;
  update_and_maybe_reembed dimensions active_profile embed_admission id update principal audit.
Definition update_memory_with_metadata (id : MemoryId) (update : MemoryUpdate) (metadata_patch : option MetadataPatch)
    (principal : string) : fallible AuthorizedUpdateOutcome :=
  embed_admission ←? admission_for (mu_content update);
  update ←? of_checked (prepare_update limits update);
  let details := if is_some metadata_patch then Some (JObj [("metadata", JBool true)]) else None in
  audit ← timed_audit_draft AuditAction.Update (Some principal) details;
  update_with_metadata_and_maybe_reembed dimensions active_profile embed_admission id update metadata_patch principal audit.
Definition update_memory_with_metadata_contexts (id : MemoryId) (update : MemoryUpdate)
    (metadata_patch : option MetadataPatch) (context_ids : option (list ContextId)) (principal : string) :
    fallible AuthorizedUpdateOutcome :=
  embed_admission ←? admission_for (mu_content update);
  update ←? of_checked (prepare_update limits update);
  audit ← timed_audit_draft AuditAction.Update (Some principal)
    (Some (JObj [("metadata", JBool (is_some metadata_patch)); ("contexts_replaced", JBool (is_some context_ids))]));
  let context_audit := replaced_contexts_audit id principal <$> context_ids in
  update_with_metadata_contexts_and_maybe_reembed dimensions active_profile embed_admission id update metadata_patch
    context_ids principal audit context_audit.

(** The optimistic updates call the store and queue the embedding here. *)
Definition then_queue (embed_admission : bool) (id : MemoryId) (new_content : option string)
    (write : fallible AuthorizedUpdateOutcome) : fallible AuthorizedUpdateOutcome :=
  outcome ←? write;
  _ ← match new_content, ao_reembed_revision outcome, embed_admission with
      | Some content, Some revision, true => _ ← spawn_embed_task_or_run_inline id content revision; mret ()
      | _, _, _ => mret ()
      end;
  ok outcome.
Definition update_memory_if_unmodified_with_metadata (id : MemoryId) (expected_revision : Z) (update : MemoryUpdate)
    (metadata_patch : option MetadataPatch) (principal : string) : fallible AuthorizedUpdateOutcome :=
  let new_content := mu_content update in
  embed_admission ←? admission_for new_content;
  update ←? of_checked (prepare_update limits update);
  let details := if is_some metadata_patch
                 then Some (JObj [("metadata", JBool true); ("interactive", JBool true)]) else None in
  audit ← timed_audit_draft AuditAction.Update (Some principal) details;
  then_queue embed_admission id new_content
    (store_call (λ now, apply_authorized_update_if_unmodified_with_metadata dimensions id expected_revision update
                          metadata_patch None None active_profile principal now audit None)).
Definition update_memory_if_unmodified_with_metadata_contexts (id : MemoryId) (expected_revision : Z)
    (update : MemoryUpdate) (metadata_patch : option MetadataPatch) (context_ids : option (list ContextId))
    (principal : string) : fallible AuthorizedUpdateOutcome :=
  let new_content := mu_content update in
  embed_admission ←? admission_for new_content;
  update ←? of_checked (prepare_update limits update);
  audit ← timed_audit_draft AuditAction.Update (Some principal)
    (Some (JObj [("metadata", JBool (is_some metadata_patch)); ("contexts_replaced", JBool (is_some context_ids));
                 ("interactive", JBool true)]));
  let context_audit := replaced_contexts_audit id principal <$> context_ids in
  then_queue embed_admission id new_content
    (store_call (λ now, apply_authorized_update_if_unmodified_with_metadata dimensions id expected_revision update
                          metadata_patch context_ids None active_profile principal now audit context_audit)).

(** *** Re-embedding *)

Definition claim_for_reembed (scope : ReembedClaimScope.t) (limit : Z) : fallible (list ReembedClaim) :=
  ClaimForReembed scope limit (λ r, Ret (map_err EngineError.Store r)).
Definition reembed (request : ReembedRequest) : fallible ReembedOutcome :=
  _ ←? of_checked (validated_as_engine
         match request with
         | Bulk limit _ | Recovery limit => validate_batch_len "limit" limit (lc_max_reembed_limit limits)
         | Single _ _ => Ok ()
         end);
  _ ←? (r ← health_check; mret (map_err EngineError.Embedding r));
  match request with
  | Single id principal =>
      found ←? store_call (λ _, get_for_reembed_impl id principal);
      match found with
      | None => ok (NotFound id)
      | Some (content, revision) =>
          _ ←? begin_embed_admission;
          queued ← spawn_embed_task_or_run_inline id content revision;
          ok (Queued (if queued : bool then 1 else 0))
      end
  | Bulk limit principal =>
      _ ←? begin_embed_admission;
      claims ←? claim_for_reembed (ReembedClaimScope.Authorized principal) limit;
      count ← spawn_claimed_embed_batches_or_run_inline dimensions active_profile embedding_batch_size claims;
      ok (Queued count)
  | Recovery limit =>
      _ ←? begin_embed_admission;
      claims ←? claim_for_reembed ReembedClaimScope.Recovery limit;
      count ← spawn_claimed_embed_batches_or_run_inline dimensions active_profile embedding_batch_size claims;
      ok (Queued count)
  end.

(** *** The requests *)

Inductive request :=
| RqStore (memory : Memory) (supersedes : option MemoryId)
| RqStoreWithMetadata (memory : Memory) (supersedes : option MemoryId) (metadata : MemoryMetadata)
| RqStoreWithMetadataContexts (memory : Memory) (supersedes : option MemoryId) (metadata : MemoryMetadata)
    (context_ids : list ContextId)
| RqBatchStore (memories : list Memory) (supersedes_list : list (option MemoryId))
| RqBatchStoreWithMetadata (memories : list Memory) (supersedes_list : list (option MemoryId)) (metadata : list MemoryMetadata)
| RqBatchStoreWithMetadataContexts (memories : list Memory) (supersedes_list : list (option MemoryId))
    (metadata : list MemoryMetadata) (context_ids : list (list ContextId))
| RqUpdate (id : MemoryId) (update : MemoryUpdate) (principal : string)
| RqUpdateWithMetadata (id : MemoryId) (update : MemoryUpdate) (patch : option MetadataPatch) (principal : string)
| RqUpdateWithMetadataContexts (id : MemoryId) (update : MemoryUpdate) (patch : option MetadataPatch)
    (context_ids : option (list ContextId)) (principal : string)
| RqUpdateIfUnmodified (id : MemoryId) (revision : Z) (update : MemoryUpdate) (patch : option MetadataPatch) (principal : string)
| RqUpdateIfUnmodifiedContexts (id : MemoryId) (revision : Z) (update : MemoryUpdate) (patch : option MetadataPatch)
    (context_ids : option (list ContextId)) (principal : string)
| RqReembed (r : ReembedRequest).

Definition answered {A} (p : fallible A) : prog unit := _ ← p; mret ().
Definition serve (r : request) : prog unit :=
  match r with
  | RqStore m sup => answered (store_memory m sup)
  | RqStoreWithMetadata m sup md => answered (store_memory_with_metadata m sup md)
  | RqStoreWithMetadataContexts m sup md cs => answered (store_memory_with_metadata_contexts m sup md cs)
  | RqBatchStore ms sup => answered (batch_store ms sup)
  | RqBatchStoreWithMetadata ms sup mds => answered (batch_store_with_metadata ms sup mds)
  | RqBatchStoreWithMetadataContexts ms sup mds cs => answered (batch_store_with_metadata_contexts ms sup mds cs)
  | RqUpdate id u p => answered (update_memory id u p)
  | RqUpdateWithMetadata id u patch p => answered (update_memory_with_metadata id u patch p)
  | RqUpdateWithMetadataContexts id u patch cs p => answered (update_memory_with_metadata_contexts id u patch cs p)
  | RqUpdateIfUnmodified id rev u patch p => answered (update_memory_if_unmodified_with_metadata id rev u patch p)
  | RqUpdateIfUnmodifiedContexts id rev u patch cs p =>
      answered (update_memory_if_unmodified_with_metadata_contexts id rev u patch cs p)
  | RqReembed r => answered (reembed r)
  end.
Definition is_request (p : prog unit) : Prop := ∃ r, p = serve r.
End writes.
