(* ===== verification/Foreground.v ===== *)
(** * Foreground: a request's program in the engine's session

    The engine's writes are programs over what the embedding orchestrator
    shares (Programs.v). A tool of the server awaits them between its other
    calls: [foreground] runs a program in the session of the tool. Its
    transactions take turns with the others like any call of the engine. What
    else a program meets (the provider, the admission, the coalescing set, the
    spawned tasks) is [Surroundings]; the transactions of the tasks it spawns
    are among the operations of the others. *)
From Stdlib Require Import ZArith Lia.
From stdpp Require Import base list option strings gmap sets pretty.
From S2P Require Import Integrity Governance Hierarchy Systems Prelude Text Floats Errors Types Context StoreTypes Store Membership Crud ContextAdmin Revisions Operations Vectors Config Engine Programs Orchestrator EngineWrites.

(** The answers may differ at every point of the session. *)
Class Surroundings := {
  su_token : Session → string;
  su_health : Session → result EmbeddingError.t unit;
  su_embed : Session → string → result EmbeddingError.t (list f64);
  su_embed_batch : Session → list string → result EmbeddingError.t (list (list f64));
  su_admission : Session → result EngineError.t unit;
  su_inserted : Session → EmbedKey → bool;
  su_accepted : Session → bool;
}.

Section foreground.
Context `{Render, UnicodeCase, Chrono, Surroundings} (dimensions : Z) (exp2 : f64 → f64).
#[local] Abbreviation turn := (turn dimensions exp2).

Definition in_transaction {A} (m : DateTime → tx A) (se : Session) : result StoreError.t A * Session :=
  let se := turn se in
  let '(r, s) := with_conn (m (se_now se)) (se_store se) in
  (r, mkSession s (se_now se) (se_schedule se)).
Fixpoint foreground_run {A} (p : prog A) (se : Session) : A * Session :=
  match p with
  | Ret a => (a, se)
  | ReadClock k => foreground_run (k (se_now se)) se
  | Transact B m k => let '(r, se) := in_transaction m se in foreground_run (k r) se
  | ClaimForReembed scope limit k =>
      let '(r, se) := in_transaction (λ now, claim_for_reembed_with_scope_impl scope limit now (su_token se)) se in
      foreground_run (k r) se
  | HealthCheck k => foreground_run (k (su_health se)) se
  | Embed text k => foreground_run (k (su_embed se text)) se
  | EmbedBatch texts k => foreground_run (k (su_embed_batch se texts)) se
  | BeginEmbedAdmission k => foreground_run (k (su_admission se)) se
  | InsertInflight key k => foreground_run (k (su_inserted se key)) se
  | DropInflight _ k => foreground_run k se
  | InsertActive _ k => foreground_run k se
  | DropActive _ k => foreground_run k se
  | Spawn _ _ _ k => foreground_run (k (su_accepted se)) se
  end.
Definition foreground {A} (p : fallible A) : engine A := λ se, Some (foreground_run p se).

Lemma foreground_then {A B} (p : prog A) (f : A → prog B) se :
  foreground_run (p ≫= f) se = let '(a, se') := foreground_run p se in foreground_run (f a) se'.
Proof.
  unfold mbind, prog_bind. revert se.
  induction p as [A a|A k IH|A C m k IH|A scope limit k IH|A k IH|A text k IH|A texts k IH
    |A k IH|A key k IH|A key k IH|A c k IH|A c k IH|A keys claims task IHt k IH]; intros se; cbn [prog_then foreground_run]; try apply IH; [done|..];
    destruct (in_transaction _ _); apply IH.
Qed.

(** ** What a program may do to the tables *)

(** Every transaction of [p] changes the tables as an operation in [mine]. *)
Definition does {B} (mine : operation → Prop) (m : DateTime → tx B) : Prop := ∃ o : DateTime → operation,
  (∀ now, mine (o now)) ∧ ∀ now s, run dimensions exp2 s (o now) = snd (with_conn (m now) s).
Fixpoint keeps_to {A} (mine : operation → Prop) (p : prog A) (Q : A → Prop) : Prop :=
  match p with
  | Ret a => Q a
  | ReadClock k => ∀ now, keeps_to mine (k now) Q
  | Transact B m k => does mine m ∧ ∀ r, keeps_to mine (k r) Q
  | ClaimForReembed scope limit k =>
      (∀ token, does mine (λ now, claim_for_reembed_with_scope_impl scope limit now token)) ∧ ∀ r, keeps_to mine (k r) Q
  | HealthCheck k => ∀ r, keeps_to mine (k r) Q
  | Embed _ k => ∀ r, keeps_to mine (k r) Q
  | EmbedBatch _ k => ∀ r, keeps_to mine (k r) Q
  | BeginEmbedAdmission k => ∀ r, keeps_to mine (k r) Q
  | InsertInflight _ k => ∀ b, keeps_to mine (k b) Q
  | DropInflight _ k => keeps_to mine k Q
  | InsertActive _ k => keeps_to mine k Q
  | DropActive _ k => keeps_to mine k Q
  | Spawn _ _ _ k => ∀ b, keeps_to mine (k b) Q
  end.
Lemma keeps_to_bind {A B} mine (p : prog A) (f : A → prog B) (Q : A → Prop) (R : B → Prop) :
  keeps_to mine p Q → (∀ a, Q a → keeps_to mine (f a) R) → keeps_to mine (p ≫= f) R.
Proof.
  unfold mbind, prog_bind. intros Hp Hf. revert Hp.
  induction p as [A a|A k IH|A C m k IH|A scope limit k IH|A k IH|A text k IH|A texts k IH
    |A k IH|A key k IH|A key k IH|A c k IH|A c k IH|A keys claims task IHt k IH]; cbn [prog_then keeps_to]; intros Hp; eauto;
    destruct Hp; split; eauto.
Qed.

Lemma keeps_to_mono {A} mine mine' (p : prog A) (Q Q' : A → Prop) :
  (∀ o, mine o → mine' o) → (∀ a, Q a → Q' a) → keeps_to mine p Q → keeps_to mine' p Q'.
Proof.
  intros Hm HQ. assert (Hd : ∀ B (m : DateTime → tx B), does mine m → does mine' m).
  { intros B m (o & Ho & Hr). exists o. auto. }
  induction p as [A a|A k IH|A C m k IH|A scope limit k IH|A k IH|A text k IH|A texts k IH
    |A k IH|A key k IH|A key k IH|A c k IH|A c k IH|A keys claims task IHt k IH]; cbn [keeps_to]; intros Hp; eauto;
    destruct Hp; split; eauto.
Qed.
Lemma does_operation {B} (mine : operation → Prop) (m : DateTime → tx B) (o : DateTime → operation) :
  (∀ now, mine (o now)) → (∀ now, op_tx dimensions exp2 (o now) = Operations.forget (m now)) → does mine m.
Proof.
  intros Ho Hop. exists o. split; [done|]. intros now s. unfold run. rewrite Hop. unfold with_conn, Operations.forget, mbind, tx_bind.
  by destruct (m now s) as [[a s1]|e].
Qed.

Definition memory_op (mine : operation → Prop) (o : system_op) : Prop := ∃ o', o = Memories o' ∧ mine o'.
Lemma follows_transaction {B} mine (m : DateTime → tx B) se :
  does mine m → follows dimensions exp2 (memory_op mine) se (snd (in_transaction m se)).
Proof.
  intros (o & Ho & Hr). unfold in_transaction. set (t := turn se).
  etrans; [apply (follows_turn dimensions exp2)|]. fold t. specialize (Hr (se_now t) (se_store t)).
  destruct (with_conn (m (se_now t)) (se_store t)) as [r s]. cbn in *.
  exists [], [Memories (o (se_now t))]. split_and!; [done|cbn; by rewrite <- Hr|].
  intros o' ->%list_elem_of_singleton. right. by exists (o (se_now t)).
Qed.
Lemma foreground_follows {A} mine (p : prog A) (Q : A → Prop) se :
  keeps_to mine p Q → follows dimensions exp2 (memory_op mine) se (snd (foreground_run p se)) ∧ Q (fst (foreground_run p se)).
Proof.
  revert se. induction p as [A a|A k IH|A C m k IH|A scope limit k IH|A k IH|A text k IH|A texts k IH
    |A k IH|A key k IH|A key k IH|A c k IH|A c k IH|A keys claims task IHt k IH]; cbn [keeps_to foreground_run]; intros se Hp;
    try (by apply IH); [done|..]; destruct Hp as [Hd Hp].
  - pose proof (follows_transaction mine m se Hd) as Hf. destruct (in_transaction _ _) as [r se']. destruct (IH r Q se' (Hp r)) as [Hf' HQ].
    split; [by etrans|done].
  - pose proof (follows_transaction mine _ se (Hd (su_token se))) as Hf. destruct (in_transaction _ _) as [r se']. destruct (IH r Q se' (Hp r)) as [Hf' HQ].
    split; [by etrans|done].
Qed.
Lemma obeys_foreground {A} mine (p : fallible A) (Q : A → Prop) :
  keeps_to mine p (λ r, ∀ a, r = Ok a → Q a) → obeys dimensions exp2 (memory_op mine) _ (foreground p) Q.
Proof.
  intros Hp se. destruct (foreground_follows mine p _ se Hp) as [Hf HQ]. unfold foreground.
  destruct (foreground_run p se) as [r se']. by exists r, se'.
Qed.
End foreground.

(** ** What the engine's writes do *)

Section writes.
Context `{Render, UnicodeCase, Chrono, Surroundings} (dimensions : Z) (exp2 : f64 → f64).
Context (active_profile : option EmbeddingProfile) (limits : LimitsConfig).
#[local] Abbreviation keeps_to := (keeps_to dimensions exp2).
#[local] Abbreviation does := (does dimensions exp2).
Context (mine : operation → Prop).
(** Embedding what was written. *)
Context (Hset : ∀ id e rev, mine (OpSetEmbedding id e rev active_profile)) (Hrelease : ∀ id rev token, mine (OpRelease id rev token)).
#[local] Abbreviation always := (λ _, True).

Lemma keeps_ret {A} (a : A) (Q : A → Prop) : Q a → keeps_to mine (mret a) Q.
Proof. done. Qed.
Lemma keeps_seq {A B} (p : prog A) (f : A → prog B) (Q : B → Prop) :
  keeps_to mine p always → (∀ a, keeps_to mine (f a) Q) → keeps_to mine (p ≫= f) Q.
Proof. intros Hp Hf. eapply keeps_to_bind; [exact Hp|]. auto. Qed.
Lemma keeps_transact {B} (m : DateTime → tx B) : does mine m → keeps_to mine (transact m) always.
Proof. intros Hm. by split. Qed.
Lemma keeps_try {A B} (p : fallible A) (f : A → fallible B) (Q : result EngineError.t B → Prop) :
  keeps_to mine p always → (∀ a, keeps_to mine (f a) Q) → (∀ e, Q (Err e)) → keeps_to mine (try_then p f) Q.
Proof. intros Hp Hf He. unfold try_then. apply keeps_seq; [exact Hp|]. intros [a|e]; [apply Hf|apply keeps_ret, He]. Qed.
Lemma keeps_store_call {B} (m : DateTime → tx B) : does mine m → keeps_to mine (store_call m) always.
Proof. intros Hm. apply keeps_seq; [by apply keeps_transact|]. done. Qed.
Lemma keeps_for_each {A} (f : A → prog unit) l : (∀ a, keeps_to mine (f a) always) → keeps_to mine (for_each f l) always.
Proof. intros Hf. induction l as [|a l IH]; cbn; [done|]. apply keeps_seq; auto. Qed.

Lemma keeps_release_work w : keeps_to mine (release_work_claim w) always.
Proof.
  unfold release_work_claim, release_embedding_claim. destruct (ew_claim_token w) as [token|]; [|done]. apply keeps_seq; [|done].
  apply keeps_transact, (does_operation _ _ _ _ (λ _, OpRelease (ew_id w) (ew_expected_revision w) token)); [by intros|done].
Qed.
Lemma keeps_apply w r : keeps_to mine (apply_embedding_result dimensions active_profile w r) always.
Proof.
  unfold apply_embedding_result. destruct r as [e|]; [|apply keeps_release_work].
  apply keeps_seq; [|intros [[]|[]]; try done; apply keeps_release_work].
  apply keeps_transact. exists (λ _, OpSetEmbedding (ew_id w) e (ew_expected_revision w) active_profile). by split.
Qed.
Lemma keeps_drop t : keeps_to mine (drop_tracked t) always.
Proof. unfold drop_tracked. apply keeps_seq; [done|]. intros _. by destruct (tw_active_claim t). Qed.
Lemma keeps_run_embed id content rev token : keeps_to mine (run_embed_task dimensions active_profile id content rev token) always.
Proof. unfold run_embed_task. apply keeps_seq; [done|]. intros r. apply keeps_apply. Qed.
Lemma keeps_individually contents : keeps_to mine (execute_individually contents) always.
Proof. induction contents as [|c cs IH]; cbn; [done|]. intros r. by apply keeps_seq. Qed.
Lemma keeps_chunk contents : keeps_to mine (execute_chunk contents) always.
Proof.
  unfold execute_chunk. apply keeps_seq; [done|]. intros [vs|[]]; try done; [case_match; [done|]|];
    (apply keeps_seq; [apply keeps_individually|done]).
Qed.
Lemma keeps_apply_results tracked results : keeps_to mine (apply_results dimensions active_profile tracked results) always.
Proof.
  revert results. induction tracked as [|t ts IH]; intros results; [by destruct results|]. destruct results as [|r rs]; cbn.
  - apply keeps_seq; [apply keeps_drop|]. intros _. apply keeps_for_each, keeps_drop.
  - apply keeps_seq; [apply keeps_apply|]. intros _. apply keeps_seq; [apply keeps_drop|]. auto.
Qed.
Lemma keeps_run_batch tracked : keeps_to mine (run_batch dimensions active_profile tracked) always.
Proof.
  unfold run_batch. destruct tracked; [done|]. apply keeps_seq; [apply keeps_chunk|]. intros [results|e]; [apply keeps_apply_results|].
  apply keeps_for_each. intros t'. apply keeps_seq; [apply keeps_release_work|]. intros _. apply keeps_drop.
Qed.
Lemma keeps_prepare ws : keeps_to mine (prepare_work ws) always.
Proof.
  induction ws as [|w ws IH]; cbn [prepare_work]; [done|]. apply keeps_seq; [done|]. intros [k|].
  - apply keeps_seq; [destruct (ew_claim_token w); done|]. intros c. apply keeps_seq; [exact IH|done].
  - apply keeps_seq; [apply keeps_release_work|]. intros _. exact IH.
Qed.
Lemma keeps_spawn tracked task : keeps_to mine (spawn tracked task) always.
Proof. intros b. cbn. destruct b; [done|]. apply keeps_seq; [apply keeps_for_each, keeps_drop|done]. Qed.
Lemma keeps_schedule bs ws rejected : keeps_to mine (schedule_batches dimensions active_profile bs ws rejected) always.
Proof.
  unfold schedule_batches. generalize 0. induction (chunks _ ws) as [|c cs IH]; intros n; cbn [schedule_chunks]; [done|].
  apply keeps_seq; [|intros count; apply IH]. unfold schedule_chunk. apply keeps_seq; [apply keeps_prepare|]. intros [|t ts]; [done|].
  apply keeps_seq; [apply keeps_spawn|]. intros [|]; [done|]. destruct rejected.
  - apply keeps_seq; [apply keeps_prepare|]. intros ts'. apply keeps_seq; [apply keeps_run_batch|done].
  - apply keeps_seq; [apply keeps_for_each, keeps_release_work|done].
Qed.
Lemma keeps_spawn_embed id content rev : keeps_to mine (spawn_embed_task_or_run_inline dimensions active_profile id content rev) always.
Proof.
  unfold spawn_embed_task_or_run_inline. apply keeps_seq; [done|]. intros [k|]; [|done].
  apply keeps_seq; [apply keeps_spawn|]. intros [|]; [done|]. apply keeps_seq; [done|]. intros [k'|]; [|done].
  apply keeps_seq; [apply keeps_run_embed|]. done.
Qed.
Lemma keeps_then_embed memory write : keeps_to mine write always → keeps_to mine (then_embed dimensions active_profile memory write) always.
Proof. intros Hw. apply keeps_try; [exact Hw| |done]. intros id. apply keeps_seq; [apply keeps_spawn_embed|done]. Qed.

(** *** The requests of the server's tools *)

Lemma keeps_timed action caller details :
  keeps_to mine (timed_audit_draft action caller details) (λ a, ad_caller_agent a = caller).
Proof. by intros now. Qed.
Lemma keeps_admission content : keeps_to mine (admission_for content) always.
Proof. unfold admission_for. destruct (is_some content); [|done]. by apply keeps_try. Qed.
Lemma keeps_store memory supersedes metadata context_ids :
  (∀ a now, ad_caller_agent a = source_principal memory →
     mine (OpStoreGoverned memory None supersedes metadata context_ids a (initial_contexts_audit memory context_ids) now)) →
  keeps_to mine (store_memory_with_metadata_contexts dimensions active_profile memory supersedes metadata context_ids) always.
Proof.
  intros Hm. unfold store_memory_with_metadata_contexts. apply keeps_try; [done| |done]. intros _.
  eapply keeps_to_bind; [apply keeps_timed|]. intros a Ha. apply keeps_then_embed, keeps_store_call.
  eapply (does_operation _ _ _ _ (λ now, OpStoreGoverned memory None supersedes metadata context_ids a _ now)); [|done].
  intros now. by apply Hm.
Qed.
Lemma keeps_audits memories supersedes_list :
  keeps_to mine (batch_store_audits memories supersedes_list) (λ audits, ∀ i a, audits !! i = Some a →
    ∃ m, memories !! i = Some m ∧ ad_caller_agent a = source_agent (m_provenance m)).
Proof.
  revert supersedes_list. induction memories as [|m ms IH]; intros supersedes_list; cbn [batch_store_audits]; [by intros i a|].
  destruct supersedes_list as [|sup sups]; [by intros i a|]. eapply keeps_to_bind; [apply keeps_timed|]. intros a0 Ha0.
  eapply keeps_to_bind; [apply IH|]. intros audits Ha. intros [|i] a Hi; [injection Hi as <-; by exists m|]. by apply (Ha i a).
Qed.
Lemma keeps_batch memories supersedes_list metadata context_ids :
  (∀ audits now, (∀ i a, audits !! i = Some a → ∃ m, memories !! i = Some m ∧ ad_caller_agent a = source_agent (m_provenance m)) →
     mine (OpStoreBatchGoverned (map memory_for_store memories) supersedes_list metadata context_ids audits
             (zip_with initial_contexts_audit memories context_ids) now)) →
  keeps_to mine (batch_store_with_metadata_contexts dimensions active_profile limits memories supersedes_list metadata context_ids) always.
Proof.
  intros Hm. unfold batch_store_with_metadata_contexts. do 4 (apply keeps_try; [done| |done]; intros _).
  eapply keeps_to_bind; [apply keeps_audits|]. intros audits Ha.
  unfold batch_store_and_embed_with_metadata_contexts, then_embed_batch. apply keeps_try; [done| |done]. intros _.
  apply keeps_try; [|intros ids; apply keeps_seq; [apply keeps_schedule|done]|done]. apply keeps_store_call.
  eapply (does_operation _ _ _ _ (λ now, OpStoreBatchGoverned _ _ _ _ _ _ now)); [|done]. intros now. by apply Hm.
Qed.
Lemma keeps_foreground_update id update patch context_ids principal :
  (∀ u a now, ad_caller_agent a = Some principal →
     mine (OpUpdateGoverned id u patch context_ids principal now a (replaced_contexts_audit id principal <$> context_ids))) →
  keeps_to mine (update_memory_with_metadata_contexts dimensions active_profile limits id update patch context_ids principal) always.
Proof.
  intros Hm. unfold update_memory_with_metadata_contexts. apply keeps_try; [apply keeps_admission| |done].
  intros adm. apply keeps_try; [done| |done]. intros u. eapply keeps_to_bind; [apply keeps_timed|]. intros a Ha. apply keeps_try; [|intros o|done].
  - apply keeps_store_call. eapply (does_operation _ _ _ _ (λ now', OpUpdateGoverned id u patch context_ids principal now' _ _)); [|done].
    intros now'. by apply Hm.
  - apply keeps_seq; [|done]. unfold maybe_reembed_after_update. case_match; [done|]. destruct adm, (mu_content u), (ao_reembed_revision o); try done.
    apply keeps_seq; [apply keeps_spawn_embed|done].
Qed.
Lemma keeps_update_if id rev update patch context_ids principal :
  (∀ u a now, ad_caller_agent a = Some principal →
     mine (OpUpdateIfUnmodified id rev u patch context_ids None active_profile principal now a (replaced_contexts_audit id principal <$> context_ids))) →
  keeps_to mine (update_memory_if_unmodified_with_metadata_contexts dimensions active_profile limits id rev update patch context_ids principal) always.
Proof.
  intros Hm. unfold update_memory_if_unmodified_with_metadata_contexts.
  apply keeps_try; [apply keeps_admission| |done].
  intros adm. apply keeps_try; [done| |done]. intros u. eapply keeps_to_bind; [apply keeps_timed|]. intros a Ha. apply keeps_try; [|intros o|done].
  - apply keeps_store_call. eapply (does_operation _ _ _ _ (λ now', OpUpdateIfUnmodified id rev u patch context_ids None active_profile principal now' _ _)); [|done].
    intros now'. by apply Hm.
  - apply keeps_seq; [|done]. destruct (mu_content update), (ao_reembed_revision o), adm; try done. apply keeps_seq; [apply keeps_spawn_embed|done].
Qed.
End writes.
