(* ===== verification/Server.v ===== *)
(** * Server: the tools of [src/src/server/mod.rs] that need no context selection

    A tool is a computation of the engine whose failure is an answer with a
    structured error or a protocol error. Here are the computations
    themselves, the views of memories, [read], [read_many], [forget],
    [admin_history], [admin_cleanup_expired], [admin_migrate_metadata] and
    [admin_reassign_scope]. Calls joined with [tokio::try_join!] are made in
    the order they are written. *)
From Stdlib Require Import ZArith Lia Sorting.Sorted.
From stdpp Require Import base list option strings gmap sets pretty.
From S2P Require Import Integrity Governance Hierarchy Systems Prelude Text Floats Lists Errors Types Validation Context StoreTypes Ranking Store Membership Crud ContextAdmin Admin Revisions Operations Search Authorization Accounting Config ContextReads ServerTypes Engine.

(** ** Computations *)

Module ErrorCode.
Inductive t := INVALID_PARAMS | INTERNAL_ERROR.
#[global] Instance eq_dec : EqDecision t.
Proof. solve_decision. Defined.
End ErrorCode.
(** [rmcp::ErrorData]; the server attaches no data. *)
Record ErrorData := { ed_code : ErrorCode.t; ed_message : string }.
Definition invalid_params (message : string) : ErrorData := {| ed_code := ErrorCode.INVALID_PARAMS; ed_message := message |}.
Definition internal_error (message : string) : ErrorData := {| ed_code := ErrorCode.INTERNAL_ERROR; ed_message := message |}.

Definition error_data_from (e : EngineError.t) : ErrorData :=
  match e with
  | EngineError.Validation _ => invalid_params (engine_error_text e)
  | EngineError.Store (StoreError.NotFound _) => invalid_params (engine_error_text e)
  | EngineError.Store (StoreError.Conflict _) => internal_error ("conflict: " +:+ engine_error_text e)
  | EngineError.Store _ => internal_error (engine_error_text e)
  | EngineError.ShuttingDown | EngineError.EmbeddingUnavailable _ | EngineError.SearchUnavailable _ | EngineError.Embedding _
  | EngineError.Config _ => internal_error (engine_error_text e)
  end.

(** [Result<CallToolResult, ErrorData>] with the answers that are errors on
    the failing side. *)
Inductive Failure := ToolFailure (e : ToolError) | ProtocolFailure (e : ErrorData).

Definition tool (A : Type) : Type := Session → option (result Failure A * Session).
#[export] Instance tool_ret : MRet tool := λ A a se, Some (Ok a, se).
#[export] Instance tool_bind : MBind tool := λ A B k m se,
  match m se with
  | Some (Ok a, se') => k a se'
  | Some (Err e, se') => Some (Err e, se')
  | None => None
  end.
Definition refuse {A} (e : Failure) : tool A := λ se, Some (Err e, se).
(** [return Ok(error)]. *)
Definition answer {A} (e : ToolError) : tool A := refuse (ToolFailure e).
Definition of_answer {A} (r : result ToolError A) : tool A := match r with Ok a => mret a | Err e => answer e end.
(** A computation of the engine whose error [f] turns into a failure. *)
Definition lift {A} (f : EngineError.t → Failure) (m : engine A) : tool A := λ se,
  match m se with Some (r, se') => Some (map_err f r, se') | None => None end.
(** [m.await?]. *)
Definition run_engine {A} : engine A → tool A := lift (λ e, ProtocolFailure (error_data_from e)).
(** The caller looks at the error itself. *)
Definition attempt {A} (m : engine A) : tool (result EngineError.t A) := λ se,
  match m se with Some (r, se') => Some (Ok r, se') | None => None end.
(** [value.map_err(EngineError::from)?]. *)
Definition of_validated {A} (r : validated A) : tool A :=
  match r with Ok a => mret a | Err e => refuse (ProtocolFailure (error_data_from (EngineError.Validation e))) end.
Definition answer_if (o : option ToolError) : tool unit := match o with Some e => answer e | None => mret () end.

Definition READ_EVENT_WEIGHT : f64 := f1.

(** ** Responses *)

Record ReadResponse := {
  rr_operation : OperationSummary;
  rr_memory : MemoryEntry;
  rr_summary : option string;
  rr_scope : option string;
  rr_contexts : list ContextDescriptor;
  rr_agent_label : option string;
  rr_created_by_principal : option string;
  rr_quality_flags : list string;
  rr_unresolved_scope : bool;
  rr_activity_recorded : bool;
}.
Record ReadManyResponse := { rm_operation : OperationSummary; rm_results : list ReadManyItemResponse }.
Record DeleteResponse := { dr_operation : OperationSummary; dr_deleted : bool }.
Record AuditEntryResponse := {
  aer_action : AuditAction.t;
  aer_principal : option string;
  aer_timestamp : DateTime;
  aer_details : option Json;
}.
Record HistoryResponse := { hr_entries : list AuditEntryResponse }.
Record EvictExpiredResponse := { ee_operation : OperationSummary; ee_deleted : Z }.
Record AdminMigrateMetadataResponse := {
  am_operation : OperationSummary; am_dry_run : bool; am_report : MetadataMigrationOutcome;
}.
Record ReassignScopeResponse := { rs_operation : OperationSummary; rs_reassigned : Z }.

Module AdminCleanupExpiredMode.
Inductive t := Authorized | All.
End AdminCleanupExpiredMode.
Record AdminReassignScopeParams := {
  ap_from_scope : string;
  ap_to_scope : string;
  ap_origin_scope : option string;
  ap_deprecated_origin_conversation : option string;
}.

Definition no_op : OperationSummary := operation_summary OperationStatus.NoOp 0 [] NextAction.None.
Definition memory_not_found_error `{Render} (id : MemoryId) : ToolError :=
  tool_error ToolErrorCode.NotFound (Some "id") ("memory not found: " +:+ ulid id)
    (Some "Check the memory ID or use recall to find a visible memory.") false.
Definition delete_denied_error `{Render} (id : MemoryId) : ToolError :=
  tool_error ToolErrorCode.AccessDenied (Some "id") ("access denied: principal cannot delete memory " +:+ ulid id)
    (Some "Use a trusted principal that owns or is allowed to delete this memory.") false.

Definition reject_removed_admin_field (present : bool) (removed replacement : string) : validated unit :=
  bail_if present (validation_error_new removed ("removed from admin API; use " +:+ replacement)).
Definition validated_by {A} (field : string) (r : checked A) : validated A := map_err (validation_error_new field) r.
Definition normalize_legacy_scope_value (field : string) (value : option string) : validated (option string) :=
  value ← normalize_optional_non_empty field value;
  _ ← match value with Some v => validated_by field (validate_legacy_scope_key v) | None => Ok () end;
  Ok value.

(** ** Tools *)

Section tools.
Context `{Render, UnicodeCase, Chrono} (dimensions : Z) (exp2 : f64 → f64).
Context (server : ServerAuth) (limits : LimitsConfig) (half_life : f64).
#[local] Abbreviation call := (call dimensions exp2).

Definition principal_or_anonymous (principal : option string) : string := default ANONYMOUS_PRINCIPAL principal.

Definition view_of (metadata : gmap MemoryId MemoryMetadata) (memberships : gmap MemoryId (list MemoryContext))
    (presence : gset MemoryId) (m : Memory) : MemoryView :=
  let visible := default [] (memberships !! m_id m) in
  {| mv_memory := m; mv_metadata := metadata !! m_id m;
     mv_contexts := if m_was_redacted m then [] else map (λ x, context_descriptor_from (mcx_context x)) visible;
     mv_primary_context_key := if m_was_redacted m then None
       else (λ x, cd_key (mcx_context x)) <$> List.find (λ x, mcx_ordinal x =? 0) visible;
     mv_has_context_memberships := bool_decide (m_id m ∈ presence) |}.
Definition memory_views (memories : list Memory) (principal : option string) : engine (list MemoryView) :=
  let ids := map m_id memories in
  metadata ← call (λ _, get_metadata_batch_impl ids);
  memberships ← call (get_memory_contexts_batch ids (principal_or_anonymous principal));
  presence ← call (get_memory_context_presence_batch ids (principal_or_anonymous principal));
  mret (map (view_of metadata memberships presence) memories).
Definition memory_view (m : Memory) (principal : option string) : engine MemoryView :=
  views ← memory_views [m] principal;
  match last views with
  | Some view => mret view
  | None => fail (EngineError.Store (StoreError.Conflict "memory view batch unexpectedly returned no row"))
  end.

(** The caller of a reading tool. *)
Definition reader (context : RequestContext) : tool (option string) :=
  let principal := principal_for_context server context in
  if negb (read_allowed_for server principal) then answer anonymous_read_denied else mret principal.
(** The caller of a writing tool. *)
Definition writer (context : RequestContext) : tool string :=
  match write_principal_for server (principal_for_context server context) with
  | Some principal => mret principal
  | None => answer anonymous_write_denied
  end.

(** [record_memory_use(..).unwrap_or_default()], for a trusted principal. *)
Definition record_reads (ids : list MemoryId) (principal : option string) : tool RecordUseOutcome :=
  match principal with
  | Some p =>
      outcome ← attempt (record_memory_use dimensions exp2 half_life ids p READ_EVENT_WEIGHT);
      mret (match outcome with Ok o => o | Err _ => record_use_default end)
  | None => mret record_use_default
  end.

Definition read (context : RequestContext) (id : MemoryId) : tool ReadResponse :=
  principal ← reader context;
  memory ← run_engine (get_memory dimensions exp2 id principal);
  match memory with
  | None => answer (memory_not_found_error id)
  | Some mem =>
      use_outcome ← record_reads [id] principal;
      view ← run_engine (memory_view mem principal);
      let item := full_read_item_from_memory_view id view (0 <? ru_recorded use_outcome) in
      match ri_memory item with
      | None => refuse (ProtocolFailure (internal_error "found read item omitted memory"))
      | Some memory =>
          mret {| rr_operation := no_op; rr_memory := memory; rr_summary := ri_summary item; rr_scope := ri_scope item;
                  rr_contexts := ri_contexts item; rr_agent_label := ri_agent_label item;
                  rr_created_by_principal := ri_created_by_principal item; rr_quality_flags := ri_quality_flags item;
                  rr_unresolved_scope := ri_unresolved_scope item; rr_activity_recorded := ri_activity_recorded item |}
      end
  end.

Definition read_many (context : RequestContext) (ids : list MemoryId) : tool ReadManyResponse :=
  principal ← reader context;
  _ ← answer_if (batch_len_tool_error "ids" (len ids) (lc_max_batch_size limits)
        "Pass one or more memory IDs, and split large read_many requests into smaller batches.");
  found_by_id ← run_engine (get_memories dimensions exp2 ids principal);
  let indexed := imap pair ids in
  let found := omap (λ '(i, id), (λ m, (i, id, m)) <$> found_by_id !! id) indexed in
  let missing := omap (λ '(i, id), match found_by_id !! id with Some _ => None | None => Some (i, not_found_item id) end) indexed in
  use_outcome ← record_reads (map (λ p, snd (fst p)) found) principal;
  let recorded : gset MemoryId := list_to_set (ru_recorded_ids use_outcome) in
  views ← run_engine (memory_views (map snd found) principal);
  let items := missing ++ zip_with (λ '(i, id, _) view,
    (i, full_read_item_from_memory_view id view (bool_decide (id ∈ recorded)))) found views in
  mret {| rm_operation := no_op; rm_results := map snd (sort_by (cmp_on fst Nat.compare) items) |}.

Definition forget_tool (context : RequestContext) (id : MemoryId) : tool DeleteResponse :=
  principal ← writer context;
  outcome ← run_engine (delete_memory dimensions exp2 id principal);
  match outcome with
  | WriteOutcome.NotFound => answer (memory_not_found_error id)
  | WriteOutcome.Denied => answer (delete_denied_error id)
  | WriteOutcome.Applied =>
      mret {| dr_operation := operation_summary OperationStatus.Applied 1 [] NextAction.None; dr_deleted := true |}
  end.

Definition get_tombstone (id : MemoryId) : engine (option MemoryTombstone) := call (λ _, fetch_tombstone_by_id id).
Definition audit_entry_response (redacted : bool) (e : AuditEntry) : AuditEntryResponse :=
  {| aer_action := ae_action e; aer_principal := if redacted then None else ae_caller_agent e;
     aer_timestamp := ae_timestamp e; aer_details := if redacted then None else ae_details e |}.
Definition history_access (id : MemoryId) (principal : option string) : tool AccessLevel.t :=
  memory ← run_engine (get_memory dimensions exp2 id principal);
  match memory with
  | Some m => mret (if m_was_redacted m then AccessLevel.Redacted else AccessLevel.Full)
  | None =>
      tombstone ← run_engine (get_tombstone id);
      mret (match tombstone with
            | Some t => tombstone_check_access_level t principal
            | None => AccessLevel.Denied
            end)
  end.
Definition admin_history (context : RequestContext) (id : MemoryId) (limit : Z) : tool HistoryResponse :=
  principal ← reader context;
  access ← history_access id principal;
  entries ← run_engine (engine_query_audit_log limits dimensions exp2 id limit);
  let entries := if bool_decide (access = AccessLevel.Denied) then [] else entries in
  let redacted := bool_decide (access = AccessLevel.Redacted) in
  mret {| hr_entries := map (audit_entry_response redacted) entries |}.

Definition admin_cleanup_expired (context : RequestContext) (mode : AdminCleanupExpiredMode.t) : tool EvictExpiredResponse :=
  _ ← answer_if (match mode with
                 | AdminCleanupExpiredMode.All => local_admin_error_for_context server context
                 | AdminCleanupExpiredMode.Authorized => None
                 end);
  principal ← writer context;
  deleted ← run_engine (match mode with
                        | AdminCleanupExpiredMode.Authorized => evict_expired dimensions exp2 principal
                        | AdminCleanupExpiredMode.All => evict_expired_all dimensions exp2 principal
                        end);
  mret {| ee_operation := operation_summary OperationStatus.Applied deleted [] NextAction.None; ee_deleted := deleted |}.

Definition admin_migrate_metadata (context : RequestContext) (dry_run : bool) : tool AdminMigrateMetadataResponse :=
  _ ← answer_if (local_admin_error_for_context server context);
  principal ← writer context;
  report ← run_engine (migrate_metadata dimensions exp2 dry_run principal);
  mret {| am_operation := operation_summary (if dry_run then OperationStatus.Preview else OperationStatus.Applied)
                            (mo_migrated report) [] NextAction.None;
          am_dry_run := dry_run; am_report := report |}.

(** [fresh] and [scan] as for the engine's operation. *)
Definition admin_reassign_scope (fresh : ContextId) (scan : list MemoryId → list MemoryId) (context : RequestContext)
    (params : AdminReassignScopeParams) : tool ReassignScopeResponse :=
  principal ← writer context;
  from_scope ← of_validated (normalize_non_empty "from_scope" (ap_from_scope params));
  to_scope ← of_validated (normalize_non_empty "to_scope" (ap_to_scope params));
  _ ← of_validated (validated_by "from_scope" (validate_legacy_scope_key from_scope));
  _ ← of_validated (validated_by "to_scope" (validate_implicit_legacy_context_key to_scope));
  _ ← of_validated (reject_removed_admin_field (is_some (ap_deprecated_origin_conversation params)) "origin_conversation" "origin_scope");
  origin_scope ← of_validated (normalize_legacy_scope_value "origin_scope" (ap_origin_scope params));
  reassigned ← run_engine (reassign_scope dimensions exp2 fresh scan from_scope to_scope origin_scope principal);
  mret {| rs_operation := operation_summary OperationStatus.Applied reassigned [] NextAction.None; rs_reassigned := reassigned |}.
End tools.

(** ** Running the computations *)

#[export] Instance nat_compare_total : TotalPreorder Nat.compare.
Proof. split; [intros; apply Nat.compare_antisym|]. intros x y z. rewrite !Nat.compare_gt_iff. lia. Qed.

(** Two selections of a list that complement each other, each with its own
    image: together a permutation of the list's image. *)
Lemma omap_split_perm {A B} (f g : A → option B) (h : A → B) (l : list A) :
  (∀ x, x ∈ l → (f x = Some (h x) ∧ g x = None) ∨ (f x = None ∧ g x = Some (h x))) → omap f l ++ omap g l ≡ₚ map h l.
Proof.
  induction l as [|x l IH]; intros Hx; [done|]. cbn [omap list_omap map].
  specialize (IH (λ y Hy, Hx y (list_elem_of_further _ _ _ Hy))). destruct (Hx x (list_elem_of_here _ _)) as [[-> ->]|[-> ->]].
  - cbn [app]. by rewrite IH.
  - by rewrite <- Permutation_middle, IH.
Qed.
Lemma increasing_sorted {B} (k : list (nat * B)) :
  (∀ i j x y, k !! i = Some x → k !! j = Some y → (i < j)%nat → (fst x < fst y)%nat) →
  StronglySorted (λ x y, cmp_on fst Nat.compare x y ≠ Gt) k.
Proof.
  induction k as [|x k IH]; intros Hm; constructor.
  - apply IH. intros a b p q Ha Hb Hab. apply (Hm (S a) (S b)); [done|done|lia].
  - rewrite list.Forall_forall. intros y [j Hj]%list_elem_of_lookup. unfold cmp_on. rewrite Nat.compare_gt_iff.
    specialize (Hm 0%nat (S j) x y eq_refl Hj ltac:(lia)). lia.
Qed.
(** Sorting by position puts numbered items back in order. *)
Lemma sort_numbered {A B} (h : nat * A → B) (l : list A) (items : list (nat * B)) :
  items ≡ₚ map (λ p, (fst p, h p)) (imap pair l) →
  map snd (sort_by (cmp_on fst Nat.compare) items) = map h (imap pair l).
Proof.
  intros Hp. set (k := map (λ p, (fst p, h p)) (imap pair l)) in *.
  assert (Hk : ∀ i x, k !! i = Some x → fst x = i).
  { intros i x. unfold k. rewrite list_lookup_fmap, list_lookup_imap. destruct (l !! i); cbn; [|done]. by intros [= <-]. }
  assert (Hs : sort_by (cmp_on fst Nat.compare) items = k); [|rewrite Hs; unfold k; by rewrite map_map].
  apply (sorted_unique (cmp_on fst Nat.compare)); [apply sort_by_sorted, _ | | |].
  - apply increasing_sorted. intros i j x y Hi%Hk Hj%Hk. by subst.
  - by rewrite sort_by_perm.
  - intros x y. rewrite !elem_of_sort_by, Hp. intros [i Hi]%list_elem_of_lookup [j Hj]%list_elem_of_lookup. unfold cmp_on.
    intros Heq%Nat.compare_eq. rewrite (Hk _ _ Hi), (Hk _ _ Hj) in Heq. congruence.
Qed.

Section runs.
Context `{Render, UnicodeCase, Chrono} (dimensions : Z) (exp2 : f64 → f64).
Context (server : ServerAuth) (limits : LimitsConfig) (half_life : f64).
#[local] Abbreviation turn := (turn dimensions exp2).
#[local] Abbreviation follows := (follows dimensions exp2).

Lemma tool_step {A B} (m : tool A) (k : A → tool B) se a se' : m se = Some (Ok a, se') → (m ≫= k) se = k a se'.
Proof. intros Hm. unfold mbind, tool_bind. by rewrite Hm. Qed.
Lemma tool_stop {A B} (m : tool A) (k : A → tool B) se e se' : m se = Some (Err e, se') → (m ≫= k) se = Some (Err e, se').
Proof. intros Hm. unfold mbind, tool_bind. by rewrite Hm. Qed.
Lemma run_engine_ok {A} (m : engine A) se a se' : m se = Some (Ok a, se') → run_engine m se = Some (Ok a, se').
Proof. intros Hm. unfold run_engine, lift. by rewrite Hm. Qed.
Lemma engine_step {A B} (m : engine A) (k : A → engine B) se a se' : m se = Some (Ok a, se') → (m ≫= k) se = k a se'.
Proof. intros Hm. unfold mbind, engine_bind. by rewrite Hm. Qed.

(** A call that reads and cannot fail. *)
Lemma call_total {A} (m : DateTime → tx A) se : (∀ now s, ∃ a, m now s = Ok (a, s)) → ∃ a, call dimensions exp2 m se = Some (Ok a, turn se).
Proof. intros Hm. destruct (Hm (se_now (turn se)) (se_store (turn se))) as [a Ha]. exists a. by apply call_run. Qed.

Lemma get_memory_run se id p :
  get_memory dimensions exp2 id p se = Some (Ok (from_option (λ m, apply_access_policy (with_entities (entities_of (se_store (turn se)) id) m) p) None
    (live_memory (se_store (turn se)) (se_now (turn se)) id)), turn se).
Proof.
  unfold get_memory. apply call_run. unfold get_by_id, fetch_memory_by_id, hydrate_entities_single, live_memory, mbind, tx_bind, reads.
  cbn. destruct (st_memories _ !! id); cbn; [|done]. by destruct (is_expired _ _).
Qed.
Lemma get_memories_run se ids p : ∃ found, get_memories dimensions exp2 ids p se = Some (Ok found, turn se)
  ∧ ∀ id, id ∈ ids → get_by_id id p (se_now (turn se)) (se_store (turn se)) = Ok (found !! id, se_store (turn se)).
Proof.
  destruct (get_batch_is_get ids p (se_now (turn se)) (se_store (turn se))) as (found & Hrun & Hf). exists found. split; [|intros; by apply Hf].
  by apply call_run.
Qed.

Lemma memory_views_run mine se ms p : ∃ metadata memberships presence se',
  memory_views dimensions exp2 ms p se = Some (Ok (map (view_of metadata memberships presence) ms), se') ∧ follows mine se se'.
Proof.
  unfold memory_views.
  destruct (call_total (λ _, get_metadata_batch_impl (map m_id ms)) se) as [md Hmd]; [intros; unfold get_metadata_batch_impl; case_bool_decide; by eexists|].
  destruct (call_total (get_memory_contexts_batch (map m_id ms) (principal_or_anonymous p)) (turn se)) as [mb Hmb];
    [intros; unfold get_memory_contexts_batch; case_bool_decide; by eexists|].
  destruct (call_total (get_memory_context_presence_batch (map m_id ms) (principal_or_anonymous p)) (turn (turn se))) as [pr Hpr];
    [intros; unfold get_memory_context_presence_batch; case_bool_decide; by eexists|].
  exists md, mb, pr, (turn (turn (turn se))). split.
  - by rewrite (engine_step _ _ _ _ _ Hmd), (engine_step _ _ _ _ _ Hmb), (engine_step _ _ _ _ _ Hpr).
  - do 2 (etrans; [apply follows_turn|]). apply follows_turn.
Qed.
Lemma memory_view_run mine se m p : ∃ metadata memberships presence se',
  memory_view dimensions exp2 m p se = Some (Ok (view_of metadata memberships presence m), se') ∧ follows mine se se'.
Proof.
  destruct (memory_views_run mine se [m] p) as (md & mb & pr & se' & Hv & Hf). exists md, mb, pr, se'. split; [|done].
  unfold memory_view. by rewrite (engine_step _ _ _ _ _ Hv).
Qed.

(** The only change a reading tool makes: the uses of the caller. *)
Definition uses (principal : option string) (o : system_op) : Prop :=
  ∃ p ids now, principal = Some p ∧ o = Memories (OpMemoryUse ids p READ_EVENT_WEIGHT now half_life).
Lemma record_reads_run se ids p : ∃ o se', record_reads dimensions exp2 half_life ids p se = Some (Ok o, se') ∧ follows (uses p) se se'.
Proof.
  unfold record_reads. destruct p as [p|]; [|exists record_use_default, se; split; [done|reflexivity]].
  assert (Ho : obeys dimensions exp2 (uses (Some p)) _ (record_memory_use dimensions exp2 half_life ids p READ_EVENT_WEIGHT) (λ _, True)).
  { unfold record_memory_use. case_bool_decide; [by apply logic_ret|]. eapply logic_bind; [by apply obeys_clock with (Q := λ _, True)|]. intros now _.
    unfold Engine.call. eapply (logic_bind _ _ _ _ (λ _, True)); [|intros r _; unfold of_engine_result; destruct r; cbn; [by apply logic_ret|by apply obeys_fail]].
    apply (obeys_try_call _ _ _ _ _ (λ _, OpMemoryUse ids p READ_EVENT_WEIGHT now half_life) (λ _, True)); [|done|done]. intros _. by exists p, ids, now. }
  destruct (Ho se) as (r & se' & Hr & Hf & _). eexists _, se'. split; [|exact Hf].
  erewrite tool_step; [|unfold attempt; by rewrite Hr]. done.
Qed.
End runs.

(** ** Correctness *)

Section correct.
Context `{Render, UnicodeCase, Chrono} (dimensions : Z) (exp2 : f64 → f64).
Context (server : ServerAuth) (limits : LimitsConfig) (half_life : f64).
#[local] Abbreviation turn := (turn dimensions exp2).
#[local] Abbreviation follows := (follows dimensions exp2).

Lemma reader_run context se :
  reader server context se
  = Some (let p := principal_for_context server context in
          if read_allowed_for server p then Ok p else Err (ToolFailure anonymous_read_denied), se).
Proof. unfold reader. by destruct (read_allowed_for _ _). Qed.
Lemma writer_run context se :
  writer server context se
  = Some (match write_principal_for server (principal_for_context server context) with
          | Some p => Ok p | None => Err (ToolFailure anonymous_write_denied) end, se).
Proof. unfold writer. by destruct (write_principal_for _ _). Qed.
Lemma answer_if_run o se :
  answer_if o se = Some (match o with Some e => Err (ToolFailure e) | None => Ok () end, se).
Proof. by destruct o. Qed.
Lemma batch_len_spec field n max_batch_size fix_ :
  batch_len_tool_error field n max_batch_size fix_ = None ↔ n ≠ 0 ∧ n ≤ max_batch_size.
Proof.
  unfold batch_len_tool_error, validate_batch_len, bail_if, mbind, result_bind.
  destruct (Z.eqb_spec n 0); cbn; [naive_solver|]. destruct (Z.ltb_spec max_batch_size n); cbn; naive_solver lia.
Qed.

(** The answer to one id: the caller's view of the memory, if there is one. *)
Definition answers (id : MemoryId) (o : option Memory) (item : ReadManyItemResponse) : Prop :=
  match o with
  | None => item = not_found_item id
  | Some m => ri_id item = id ∧ ri_status item = ReadManyStatus.Found
              ∧ ri_memory item = Some (memory_entry_from (sanitize_for_wire m))
  end.
Definition found_item metadata memberships presence (recorded : gset MemoryId) (found : gmap MemoryId Memory) (p : nat * MemoryId) :
    ReadManyItemResponse :=
  match found !! snd p with
  | Some m => full_read_item_from_memory_view (snd p) (view_of metadata memberships presence m) (bool_decide (snd p ∈ recorded))
  | None => not_found_item (snd p)
  end.
Lemma zip_views {A} (f : A → MemoryView → nat * ReadManyItemResponse) (g : A → Memory) v (l : list A) :
  zip_with f l (map v (map g l)) = map (λ x, f x (v (g x))) l.
Proof. induction l as [|x l IH]; [done|]. cbn. by rewrite IH. Qed.

(** [read_many] is the single reads, in the order of the request. Whatever
    the other sessions do meanwhile, it ends; it refuses, without having
    changed anything, exactly a caller who may not read or a batch that is
    empty or too large; otherwise it answers, with one item per requested id,
    in that order and repetitions included: at one moment, the one of its
    first call, each item is the caller's view of the memory, as a single read
    of that moment returns it, or not found where that returns nothing. The
    only change it makes is to record uses for a trusted caller. *)
Theorem read_many_is_reads context ids se :
  let p := principal_for_context server context in
  ∃ r se', read_many dimensions exp2 server limits half_life context ids se = Some (r, se')
  ∧ match r with
    | Err e => (∃ t, e = ToolFailure t) ∧ se' = se
               ∧ (read_allowed_for server p = false ∨ ids = [] ∨ lc_max_batch_size limits < len ids)
    | Ok response =>
        read_allowed_for server p = true ∧ 1 ≤ len ids ≤ lc_max_batch_size limits
        ∧ follows (uses half_life p) se se'
        ∧ let se1 := turn se in
          Forall2 (λ id item, ∃ o, get_by_id id p (se_now se1) (se_store se1) = Ok (o, se_store se1) ∧ answers id o item)
            ids (rm_results response)
    end.
Proof.
  cbn zeta. set (p := principal_for_context server context). unfold read_many.
  destruct (read_allowed_for server p) eqn:Hr.
  2: { exists (Err (ToolFailure anonymous_read_denied)), se. split; [by erewrite tool_stop by (by rewrite reader_run; fold p; cbn zeta; rewrite Hr)|eauto]. }
  erewrite tool_step by (by rewrite reader_run; fold p; cbn zeta; rewrite Hr).
  destruct (batch_len_tool_error _ _ _ _) as [e|] eqn:He.
  { exists (Err (ToolFailure e)), se. split; [by erewrite tool_stop by (by rewrite answer_if_run)|]. split_and!; [eauto|done|]. right.
    destruct (decide (len ids ≠ 0 ∧ len ids ≤ lc_max_batch_size limits)) as [Hb|Hb]; [by rewrite (proj2 (batch_len_spec _ _ _ _) Hb) in He|].
    destruct ids; [by left|right]. rewrite len_cons in *. pose proof (len_nonneg ids). lia. }
  apply batch_len_spec in He as [Hn0 Hmax]. erewrite tool_step by (by rewrite answer_if_run).
  destruct (get_memories_run dimensions exp2 se ids p) as (found & Hf & Hget). rewrite (tool_step _ _ _ _ _ (run_engine_ok _ _ _ _ Hf)).
  set (missing := omap _ (imap pair ids)). set (reads_found := omap _ (imap pair ids)).
  destruct (record_reads_run dimensions exp2 half_life (turn se) (map (λ q, snd (fst q)) reads_found) p) as (o & se2 & Ho & Hf2). rewrite (tool_step _ _ _ _ _ Ho).
  destruct (memory_views_run dimensions exp2 (uses half_life p) se2 (map snd reads_found) p) as (md & mb & pr & se3 & Hv & Hf3).
  rewrite (tool_step _ _ _ _ _ (run_engine_ok _ _ _ _ Hv)). eexists _, se3. split; [reflexivity|]. pose proof (len_nonneg ids).
  split_and!; [done|lia|done|etrans; [apply follows_turn|by etrans]|]. cbn [rm_results].
  rewrite (sort_numbered (found_item md mb pr (list_to_set (ru_recorded_ids o)) found) ids).
  - rewrite Forall2_fmap_r. rewrite <- (list_fmap_id ids) at 1. apply Forall2_same_length_lookup_2; [by rewrite length_fmap, length_imap|].
    intros i id q Hi Hq. rewrite list_lookup_imap in Hq. rewrite list_lookup_fmap in Hi. destruct (ids !! i) as [id'|] eqn:Hid; [|done].
    cbn in Hi, Hq. injection Hi as ->. injection Hq as <-. exists (found !! id). split; [by apply Hget; eapply list_elem_of_lookup_2|].
    unfold found_item, answers. cbn. by destruct (found !! id).
  - unfold missing, reads_found. rewrite (zip_views _ snd), map_omap. apply omap_split_perm.
    intros [i id] _. unfold found_item. cbn. destruct (found !! id); cbn; auto.
Qed.

(** What a caller sees of a memory whose content and provenance are hidden
    from it. *)
Definition hidden (o : option Memory) : Prop := ∀ m, o = Some m →
  m_was_redacted m = true ∧ field_visible_in_view m RedactableField.Content = false
  ∧ field_visible_in_view m RedactableField.Provenance = false.
Lemma hidden_item id m m' md md' mb mb' pr pr' b :
  hidden (Some m) → hidden (Some m') → sanitize_for_wire m = sanitize_for_wire m' →
  full_read_item_from_memory_view id (view_of md mb pr m) b = full_read_item_from_memory_view id (view_of md' mb' pr' m') b.
Proof.
  intros Hm Hm' Hs. destruct (Hm m eq_refl) as (Hr & Hc & Hp), (Hm' m' eq_refl) as (Hr' & Hc' & Hp').
  unfold full_read_item_from_memory_view, view_summary, view_scope, view_agent_label, view_created_by_principal, view_quality_flags,
    view_unresolved_scope, view_scope, content_visible, provenance_visible, is_redacted. cbn.
  by rewrite Hr, Hr', Hc, Hc', Hp, Hp', Hs.
Qed.
Lemma use_denied_run id p m now s w h :
  get_by_id id (Some p) now s = Ok (Some m, s) → m_was_redacted m = true →
  update_single_memory_use exp2 id p now w h s = Ok (UseDenied, s).
Proof.
  unfold get_by_id, update_single_memory_use, fetch_memory_by_id, hydrate_entities_single, reads, mbind, tx_bind. cbn.
  destruct (st_memories s !! id) as [r|]; cbn; [|by intros [= <-]].
  destruct (is_expired now _); cbn; [by intros [= <-]|]. intros [= Ha] Hr. unfold apply_access_policy in Ha.
  change (check_access_level (with_entities _ (row_to_memory id r)) (Some p)) with (check_access_level (row_to_memory id r) (Some p)) in Ha.
  destruct (check_access_level _ _) eqn:E; simplify_eq; by cbn in Hr.
Qed.
Lemma record_denied_run id p m now s :
  get_by_id id (Some p) now s = Ok (Some m, s) → m_was_redacted m = true →
  record_memory_use_impl exp2 [id] p READ_EVENT_WEIGHT now half_life s
  = Ok (accumulate_record_use_outcome record_use_default id UseDenied, s).
Proof.
  intros Hg Hr. unfold record_memory_use_impl. rewrite bool_decide_false, dedup_NoDup by (done || apply NoDup_singleton).
  unfold tx_fold, mbind, tx_bind. by rewrite (use_denied_run _ _ _ _ _ _ _ Hg Hr).
Qed.
Lemma quiet_record_reads se id p m :
  se_schedule se = [] → get_by_id id p (se_now se) (se_store se) = Ok (Some m, se_store se) → m_was_redacted m = true →
  ∃ o, record_reads dimensions exp2 half_life [id] p se = Some (Ok o, se) ∧ ru_recorded o = 0.
Proof.
  intros Hq Hg Hr. unfold record_reads. destruct p as [p|]; [|by exists record_use_default].
  exists (accumulate_record_use_outcome record_use_default id UseDenied). split; [|done].
  assert (Hm : record_memory_use dimensions exp2 half_life [id] p READ_EVENT_WEIGHT se
    = Some (Ok (accumulate_record_use_outcome record_use_default id UseDenied), se)).
  { unfold record_memory_use. rewrite bool_decide_false by done. rewrite (engine_step _ _ _ (se_now se) se) by done.
    destruct (quiet_call dimensions exp2 se _ (λ _, record_memory_use_impl exp2 [id] p READ_EVENT_WEIGHT (se_now se) half_life) _ (eq (accumulate_record_use_outcome record_use_default id UseDenied))
      Hq (record_denied_run _ _ _ _ _ Hg Hr) eq_refl) as (a & Ha & <-). exact Ha. }
  erewrite tool_step by (unfold attempt; by rewrite Hm). done.
Qed.
Lemma quiet_view se m p : se_schedule se = [] → ∃ md mb pr,
  memory_view dimensions exp2 m p se = Some (Ok (view_of md mb pr m), se).
Proof.
  intros Hq. assert (Ht : turn se = se) by (unfold Engine.turn; by rewrite Hq).
  unfold memory_view, memory_views.
  destruct (call_total dimensions exp2 (λ _, get_metadata_batch_impl (map m_id [m])) se) as [md Hmd]; [intros; by eexists|].
  destruct (call_total dimensions exp2 (get_memory_contexts_batch (map m_id [m]) (principal_or_anonymous p)) se) as [mb Hmb]; [intros; by eexists|].
  destruct (call_total dimensions exp2 (get_memory_context_presence_batch (map m_id [m]) (principal_or_anonymous p)) se) as [pr Hpr]; [intros; by eexists|].
  rewrite Ht in *. exists md, mb, pr. rewrite (engine_step _ _ se [view_of md mb pr m] se); [done|].
  by rewrite (engine_step _ _ _ _ _ Hmd), (engine_step _ _ _ _ _ Hmb), (engine_step _ _ _ _ _ Hpr).
Qed.


(** *** Who may use a tool *)

Lemma named_principal_Some q p : named_principal q = Some p → p ≠ "" ∧ is_reserved_principal p = false.
Proof.
  unfold named_principal. destruct (str_is_empty (trim q)) eqn:He, (is_reserved_principal (trim q)) eqn:Hr; cbn; try done.
  intros [= <-]. split; [|done]. intros Hp. by rewrite Hp in He.
Qed.
Lemma caller_is_named context p : principal_for_context server context = Some p → p ≠ "" ∧ is_reserved_principal p = false.
Proof.
  unfold principal_for_context. destruct context as [headers|]; cbn.
  - unfold http_principal_for_context. destruct (sa_http_auth_token server); cbn; [|done]. destruct (bearer_matches _ _); cbn; [|done].
    destruct (sa_http_principal_source server); [apply named_principal_Some|].
    unfold trusted_proxy_principal. destruct (headers header_name) as [v|]; cbn; [|done]. apply (named_principal_Some v).
  - unfold configured_mcp_principal. destruct (sa_principal server); cbn; [|done]. apply named_principal_Some.
Qed.


(** *** Forgetting *)

Lemma quiet_turn se : se_schedule se = [] → turn se = se.
Proof. intros Hq. unfold Engine.turn. by rewrite Hq. Qed.
Lemma quiet_history_access se id p : se_schedule se = [] →
  history_access dimensions exp2 id p se
  = Some (Ok (match get_by_id id p (se_now se) (se_store se) with
              | Ok (Some m, _) => if m_was_redacted m then AccessLevel.Redacted else AccessLevel.Full
              | _ => match st_tombstones (se_store se) !! id with
                     | Some t => tombstone_check_access_level t p | None => AccessLevel.Denied end
              end), se).
Proof.
  intros Hq. unfold history_access. pose proof (get_memory_run dimensions exp2 se id p) as Hg.
  assert (Hrun : get_by_id id p (se_now se) (se_store se)
    = Ok (from_option (λ m, apply_access_policy (with_entities (entities_of (se_store se) id) m) p) None (live_memory (se_store se) (se_now se) id), se_store se)).
  { unfold get_by_id, fetch_memory_by_id, hydrate_entities_single, live_memory, mbind, tx_bind, reads.
    cbn. destruct (st_memories _ !! id); cbn; [|done]. by destruct (is_expired _ _). }
  rewrite quiet_turn in Hg by done. rewrite (tool_step _ _ _ _ _ (run_engine_ok _ _ _ _ Hg)), Hrun.
  destruct (from_option _ _ _) as [m|]; [done|].
  rewrite (tool_step _ _ se (st_tombstones (se_store se) !! id) se); [done|]. apply run_engine_ok.
  pose proof (call_run dimensions exp2 _ (λ _, fetch_tombstone_by_id id) se (st_tombstones (se_store se) !! id)) as Ht.
  cbn zeta in Ht. rewrite quiet_turn in Ht by done. by apply Ht.
Qed.

End correct.

(** ** Witnesses *)

#[local] Existing Instance plain_render.
#[local] Existing Instance plain_chrono.
#[local] Existing Instance AsciiCase.

(** A server on stdio for [name], and two stores whose memory shows nothing
    but its tags; the second one also describes it. *)
Definition stdio_server (name : string) : ServerAuth :=
  {| sa_principal := Some name; sa_anonymous_policy := AnonymousPolicy.DenyAll; sa_http_auth_token := None;
     sa_http_principal_source := HttpPrincipalSource.Fixed "" |}.
Definition tags_only : AccessPolicy.t := AccessPolicy.Redacted [RedactableField.Tags].
Definition session_of (s : Store) : Session := mkSession s 30 [].
Definition plain_secret : Session :=
  session_of (run 1 (λ x, x) empty_store (OpStore (sample_memory "secret" (Some "ann") tags_only) None None)).
Definition described_secret : Session :=
  session_of (run 1 (λ x, x) (run 1 (λ x, x) empty_store (OpStore (sample_memory "other" (Some "eve") tags_only) None None))
    (OpMigrateMetadata false None)).
Definition view_in (se : Session) (caller : string) : option Memory :=
  match get_by_id 7%N (Some caller) (se_now se) (se_store se) with Ok (o, _) => o | Err _ => None end.

