(* ===== verification/ServerContexts.v ===== *)
(** * ServerContexts: context selection in [src/src/server/mod.rs]

    [resolve_context_selection], the step every tool that takes a context
    envelope starts with: exact references, hints and queries, fuzzy
    candidates, policy defaults, expansion and the policy checks. With it the
    tools [context_resolve] and [context_create]. The iteration order of a
    hash set of kinds is the parameter [hash_order], the rows a [LIMIT] keeps
    are [limit_rows] as in [Selection]. *)
From Stdlib Require Import ZArith Lia Sorting.Sorted.
From stdpp Require Import base list option strings gmap sets pretty.
From S2P Require Import Integrity Governance Hierarchy Systems Prelude Text Floats Lists Errors Types Validation Context StoreTypes Ranking Store Membership Crud ContextAdmin Admin Revisions Operations Search Authorization Accounting Config ContextSelect Selection ContextReads ServerTypes Engine Server.

(** ** Data *)

Record ContextPolicyState := {
  ps_kinds : list ContextKindDefinition;
  ps_kind_policies : list ContextKindPolicyRecord;
  ps_anchor_policies : list ContextAnchorPolicyRecord;
}.
Record ContextCandidate := { cc_context : ContextDescriptor; cc_score : f64; cc_matched_by : list string }.
Record ContextResolution := {
  cs_direct : list ContextDescriptor;
  cs_effective : list ContextDescriptor;
  cs_candidates : list ContextCandidate;
  cs_policy_guidance : list string;
  cs_broad_search : bool;
  cs_unresolved : bool;
  cs_recommended_actions : list RecommendedAction;
}.
Definition context_resolution_default : ContextResolution :=
  {| cs_direct := []; cs_effective := []; cs_candidates := []; cs_policy_guidance := []; cs_broad_search := false;
     cs_unresolved := false; cs_recommended_actions := [] |}.
Record ResolvedContextSelection := {
  rcs_resolution : ContextResolution;
  rcs_direct_ids : list ContextId;
  rcs_effective_ids : list ContextId;
  rcs_created_legacy_context : option ContextId;
}.
Definition envelope_default : ContextEnvelope :=
  {| ce_refs := []; ce_hints := []; ce_include_descendants := false; ce_allow_unresolved := false |}.

(** ** Policies *)

Definition context_policy_guidance : list string :=
  ["Contexts are relevance metadata and never grant memory access.";
   "Agent creation is enabled by default only for project contexts with a durable typed identity.";
   "Domain, organization, custom, and operator-defined context creation requires TUI policy opt-in."].
Definition ambiguity_guidance (policy : EffectiveContextPolicy) (ambiguity : string) : string :=
  "Policy ambiguity for " +:+ ContextKind.as_str (ep_kind policy) +:+ ": " +:+ ambiguity.
Definition policy_guidance_for (effective : list EffectiveContextPolicy) : list string :=
  fold_left (λ guidance policy,
    fold_left push_unique (map (ambiguity_guidance policy) (ep_ambiguities policy))
      (fold_left push_unique (ep_guidance policy) guidance)) effective context_policy_guidance.
Definition effective_policy_for (state : ContextPolicyState) (records : list ContextRecord) (kind : ContextKind.t)
    (active_context_ids : list ContextId) : EffectiveContextPolicy :=
  evaluate_effective_context_policy kind (ps_kinds state) (ps_kind_policies state) (ps_anchor_policies state) records active_context_ids.
(** The policies of all kinds, for the active contexts. *)
Definition policies_for (state : ContextPolicyState) (records : list ContextRecord) (ids : list ContextId) : list EffectiveContextPolicy :=
  map (λ definition, effective_policy_for state records (ckd_kind definition) ids) (ps_kinds state).

(** ** Similarity *)

Section similarity.
Context `{UnicodeCase}.
(** The same code as [context_tokens], [context_trigrams] and
    [normalized_set_overlap] of context.rs. *)
Definition normalized_tokens (value : string) : gset string := context_tokens value.
Definition trigrams (value : string) : gset string := context_trigrams value.
Definition set_overlap (left right : gset string) : f64 := normalized_set_overlap left right.
Definition context_text_similarity (left_tokens left_trigrams : gset string) (right : string) : f64 :=
  fmax (set_overlap left_tokens (normalized_tokens right)) (set_overlap left_trigrams (trigrams right)).

Definition surfaces_of (record : ContextRecord) : list (string * string) :=
  ("key", cd_key (cxr_context record)) :: ("display_name", cd_display_name (cxr_context record))
  :: map (pair "alias") (cxr_aliases record).
Definition record_similarity (record : ContextRecord) (query_tokens query_trigrams : gset string) : f64 * list string :=
  fold_left (λ '(best, matched_by) '(surface, value),
    let score := context_text_similarity query_tokens query_trigrams value in
    if fltb best score then (score, [surface])
    else if fltb (SFabs (fsub score best)) f_epsilon && fltb f0 score then (best, matched_by ++ [surface])
    else (best, matched_by)) (surfaces_of record) (f0, []).
Definition cmp_candidate_key : ContextCandidate → ContextCandidate → comparison :=
  then_with (cmp_desc (cmp_on cc_score total_cmp))
    (then_with (cmp_on (λ c, cdx_key (cc_context c)) String.compare) (cmp_on (λ c, cdx_id (cc_context c)) N.compare)).
Definition fuzzy_context_candidates (records : list ContextRecord) (query : string) (kind : option ContextKind.t) : list ContextCandidate :=
  let query_tokens := normalized_tokens query in
  let query_trigrams := trigrams query in
  let candidates := omap (λ record,
    let '(score, matched_by) := record_similarity record query_tokens query_trigrams in
    if fleb f_0_72 score
    then Some {| cc_context := context_descriptor_from (cxr_context record); cc_score := score; cc_matched_by := matched_by |}
    else None)
    (List.filter (λ record, match kind with None => true | Some k => bool_decide (cd_kind (cxr_context record) = k) end) records) in
  truncate 5 (sort_by cmp_candidate_key candidates).
End similarity.
Definition cmp_candidate : ContextCandidate → ContextCandidate → comparison :=
  then_with (cmp_desc (cmp_on cc_score total_cmp)) (cmp_on (λ c, cdx_id (cc_context c)) N.compare).
(** [dedup_by_key]: the neighbours with one context. *)
Definition dedup_candidates (l : list ContextCandidate) : list ContextCandidate :=
  map snd (dedup_by_id (map (λ c, (cdx_id (cc_context c), c)) l)).
Definition final_candidates (l : list ContextCandidate) : list ContextCandidate :=
  truncate MAX_CONTEXT_CONFIRMATIONS (dedup_candidates (sort_by cmp_candidate l)).

(** ** Errors *)

Section errors.
Context `{Render}.

Definition descriptor_json (c : ContextDescriptor) : Json :=
  JObj [("id", JStr (ulid (cdx_id c))); ("kind", JStr (ContextKind.as_str (cdx_kind c))); ("key", JStr (cdx_key c));
        ("display_name", JStr (cdx_display_name c))].
Definition candidate_json (c : ContextCandidate) : Json :=
  JObj [("context", descriptor_json (cc_context c)); ("score", JFloat (cc_score c)); ("matched_by", JArr (map JStr (cc_matched_by c)))].
Definition empty_envelope_json : Json :=
  JObj [("refs", JArr []); ("hints", JArr []); ("include_descendants", JBool false); ("allow_unresolved", JBool false)].
Definition context_resolution_error_with_guidance (code : ToolErrorCode.t) (field message : string) (candidates : list ContextCandidate)
    (policy_guidance : list string) : ToolError :=
  tool_error_with_details code (Some field) message
    (Some "Call context_resolve, then retry with an exact context ID, key, or typed identity.") false
    (Some (JObj [("candidates", JArr (map candidate_json candidates)); ("policy_guidance", JArr (map JStr policy_guidance));
                 ("retry", JObj [("context", empty_envelope_json); ("selected_candidate_id", JNull)])]))
    [{| rx_tool := RecommendedActionTool.ContextResolve; rx_priority := RecommendedActionPriority.High;
        rx_reason := "Resolve an authorized governed context before retrying the operation.";
        rx_arguments := Some (JObj [("context", empty_envelope_json); ("query", JNull); ("offset", JNum 0); ("limit", JNum 20)]) |}].
Definition context_resolution_error (code : ToolErrorCode.t) (field message : string) (candidates : list ContextCandidate) : ToolError :=
  context_resolution_error_with_guidance code field message candidates context_policy_guidance.
Definition context_expansion_error (field : string) (error : StoreError.t) : ToolError :=
  match error with
  | StoreError.NotFound message | StoreError.Conflict message =>
      tool_error ToolErrorCode.Conflict (Some field) message
        (Some "Resolve fewer active contexts, disable descendant expansion, or retry without unavailable or cyclic hierarchy members.") false
  | StoreError.Database _ | StoreError.Serialization _ | StoreError.MigrationFailed _ _ =>
      tool_error ToolErrorCode.Internal (Some field) "context hierarchy expansion failed in the persistence backend"
        (Some "Retry after checking backend health.") true
  end.
(** What the server answers when a reader of the store fails. *)
Definition backend_error (field : string) (e : EngineError.t) : ToolError :=
  tool_error ToolErrorCode.Internal (Some field) (engine_error_text e) (Some "Retry after checking backend health.") true.
Definition invalid_ref (field message fix_ : string) : ToolError :=
  tool_error ToolErrorCode.InvalidParams (Some field) message (Some fix_) false.
Definition certain_candidate (matched_by : string) (record : ContextRecord) : ContextCandidate :=
  {| cc_context := context_descriptor_from (cxr_context record); cc_score := f1; cc_matched_by := [matched_by] |}.
Definition ambiguous (field message matched_by : string) (records : list ContextRecord) : ToolError :=
  context_resolution_error ToolErrorCode.ContextAmbiguous field message (map (certain_candidate matched_by) records).
End errors.

Section lookup.
Context `{Render, UnicodeCase, UrlLib, Sha256Lib}.
Definition exact_context_lookup (reference : ContextReference) : result ToolError ContextExactLookup.t :=
  _ ← map_err (λ message, invalid_ref "context.refs" message
        "Use exactly one of id, kind+key, or kind+identity in each context ref.") (context_reference_validate reference);
  match cr_id reference with
  | Some id => Ok (ContextExactLookup.Id id)
  | None =>
      kind ← ok_or (invalid_ref "context.refs" "context kind is required for key and identity locators"
                      "Use exactly one of id, kind+key, or kind+identity.") (cr_kind reference);
      match cr_key reference with
      | Some key => Ok (ContextExactLookup.Key (Some kind) (normalize_context_key key))
      | None =>
          identity_input ← ok_or (invalid_ref "context.refs.identity" "context identity is required for an identity locator"
                                    "Use exactly one of id, kind+key, or kind+identity.") (cr_identity reference);
          identity ← map_err (λ message, invalid_ref "context.refs.identity" message
                       "Supply a policy-approved durable identity; local paths belong in context.hints.")
                       (normalize_context_identity identity_input);
          Ok (ContextExactLookup.Identity kind identity)
      end
  end.
End lookup.

(** ** Resolution *)

(** Loops of a tool. *)
Fixpoint tool_fold {A S} (f : S → A → tool S) (st : S) (l : list A) : tool S :=
  match l with
  | [] => mret st
  | a :: l => st ← f st a; tool_fold f st l
  end.
Definition diverge {A} : tool A := λ _, None.

(** The contexts selected so far: their ids in order and their records. *)
Record Selected := { sl_ids : list ContextId; sl_records : gmap ContextId ContextRecord }.
Definition nothing_selected : Selected := {| sl_ids := []; sl_records := ∅ |}.
Definition select_as (id : ContextId) (record : ContextRecord) (s : Selected) : Selected :=
  {| sl_ids := if bool_decide (id ∈ sl_ids s) then sl_ids s else sl_ids s ++ [id]; sl_records := <[id := record]> (sl_records s) |}.
Definition select (record : ContextRecord) (s : Selected) : Selected := select_as (cd_id (cxr_context record)) record s.

Section resolution.
Context `{Render, UnicodeCase, Chrono, UrlLib, Sha256Lib} (dimensions : Z) (exp2 : f64 → f64).
Context (limit_rows : nat → gset ContextId → gset ContextId) (hash_order : gset ContextKind.t → list ContextKind.t).
#[local] Abbreviation call := (call dimensions exp2).

(** A reader of the store, its errors answered as [backend_error]. *)
Definition ask {A} (m : DateTime → tx A) : tool A := lift (λ e, ToolFailure (backend_error "context" e)) (call m).
(** A reader whose errors the tool passes on. *)
Definition ask_engine {A} (m : DateTime → tx A) : tool A := run_engine (call m).

Definition context_policy_state (principal : string) : engine ContextPolicyState :=
  kinds ← call (λ _, list_context_kinds);
  kind_policies ← call (λ _, list_context_kind_policies principal);
  anchor_policies ← call (λ _, list_context_anchor_policies principal);
  mret {| ps_kinds := kinds; ps_kind_policies := kind_policies; ps_anchor_policies := anchor_policies |}.

(** The pages of 500 records from the [length records]-th on. *)
Fixpoint record_pages (fuel : nat) (principal : string) (records : list ContextRecord) : engine (option (list ContextRecord)) :=
  match fuel with
  | O => mret None
  | S fuel =>
      page ← call (λ _, list_context_records principal false (len records) 500);
      let records := records ++ page in
      if len page <? 500 then mret (Some records) else record_pages fuel principal records
  end.
(** The contexts there are once the others are done. *)
Definition final_contexts (se : Session) : nat :=
  size (reg_contexts (st_registry (run_systems dimensions exp2 (se_store se) (concat (map fst (se_schedule se)))))).
(** Every page but the last takes a turn of the others or 500 contexts. *)
Definition authorized_context_records (principal : string) : engine (list ContextRecord) := λ se,
  (records ← record_pages (S (length (se_schedule se) + final_contexts se)) principal []; of_option records) se.

Definition exact_context_records (principal : string) (include_archived : bool) (reference : ContextReference) : tool (list ContextRecord) :=
  lookup ← of_answer (exact_context_lookup reference);
  ask (λ _, find_context_records principal include_archived lookup).

Record RefsResolved := {
  rf_selected : Selected; rf_unresolved : bool; rf_unresolved_keys : list (string * option ContextKind.t);
}.
Definition resolve_ref (principal : string) (st : RefsResolved) (reference : ContextReference) : tool RefsResolved :=
  matches ← exact_context_records principal false reference;
  match matches with
  | [record] => mret {| rf_selected := select record (rf_selected st); rf_unresolved := rf_unresolved st;
                        rf_unresolved_keys := rf_unresolved_keys st |}
  | [] => mret {| rf_selected := rf_selected st; rf_unresolved := true;
                  rf_unresolved_keys := rf_unresolved_keys st ++ option_list ((λ key, (key, cr_kind reference)) <$> cr_key reference) |}
  | _ => answer (ambiguous "context.refs" "context locator matched multiple authorized contexts" "ambiguous_exact_locator" matches)
  end.
Definition resolve_refs (principal : string) (refs : list ContextReference) : tool RefsResolved :=
  tool_fold (resolve_ref principal) {| rf_selected := nothing_selected; rf_unresolved := false; rf_unresolved_keys := [] |} refs.

(** The hints and the query that are exact keys or aliases; the others. *)
Definition find_by_key (principal value : string) : tool (list ContextRecord) :=
  ask (λ _, find_context_records principal false (ContextExactLookup.Key None (normalize_context_key value))).
Definition resolve_value (principal : string) (st : Selected * list string) (value : string) : tool (Selected * list string) :=
  exact ← find_by_key principal value;
  match exact with
  | [record] => mret (select record (fst st), snd st)
  | [] => mret (fst st, snd st ++ [value])
  | _ => answer (ambiguous "context.hints" "context alias or hint matched multiple authorized contexts" "ambiguous_alias_or_hint" exact)
  end.
Definition lookup_values (envelope : ContextEnvelope) (query : option string) : list string :=
  ce_hints envelope ++ option_list (trimmed_non_empty query).

(** A record one of whose hints occurs in the value. *)
Definition hinted (value : string) (record : ContextRecord) : bool :=
  existsb (λ hint, let normalized_hint := normalize_context_key hint in
             negb (str_is_empty normalized_hint) && str_contains (normalize_context_key value) normalized_hint) (cxr_hints record).
Definition resolve_hint (records : list ContextRecord) (st : Selected * list ContextCandidate) (value : string) :
    result ToolError (Selected * list ContextCandidate) :=
  match List.filter (hinted value) records with
  | [record] => Ok (select record (fst st), snd st)
  | [] => Ok (fst st, snd st ++ fuzzy_context_candidates records value None)
  | matches => Err (ambiguous "context.hints" "context hint matched multiple authorized contexts" "ambiguous_hint" matches)
  end.

Definition is_nil {A} (l : list A) : bool := match l with [] => true | _ => false end.
Definition has_ambiguities (policy : EffectiveContextPolicy) : bool := negb (is_nil (ep_ambiguities policy)).
(** What the selection ends with when no context is selected. *)
Definition no_contexts (resolution : ContextResolution) : ResolvedContextSelection :=
  {| rcs_resolution := resolution; rcs_direct_ids := []; rcs_effective_ids := []; rcs_created_legacy_context := None |}.
Definition broad_selection (policy_guidance : list string) : ResolvedContextSelection :=
  no_contexts {| cs_direct := []; cs_effective := []; cs_candidates := []; cs_policy_guidance := policy_guidance; cs_broad_search := true;
                 cs_unresolved := false; cs_recommended_actions := [] |}.
Definition unresolved_selection (candidates : list ContextCandidate) (policy_guidance : list string) (actions : list RecommendedAction) :
    ResolvedContextSelection :=
  no_contexts {| cs_direct := []; cs_effective := []; cs_candidates := candidates; cs_policy_guidance := policy_guidance;
                 cs_broad_search := false; cs_unresolved := true; cs_recommended_actions := actions |}.
Definition select_candidate_action : RecommendedAction :=
  {| rx_tool := RecommendedActionTool.ContextResolve; rx_priority := RecommendedActionPriority.High;
     rx_reason := "Select one exact authorized candidate, or create a distinct context when policy permits."; rx_arguments := None |}.
(** A candidate makes the failure an ambiguity. *)
Definition unselected_code (candidates : list ContextCandidate) : ToolErrorCode.t :=
  if is_nil candidates then ToolErrorCode.ContextRequired else ToolErrorCode.ContextAmbiguous.

(** The default of one kind's policy, for a write that selects nothing. *)
Definition apply_default (principal : string) (st : Selected * list string) (policy : EffectiveContextPolicy) : tool (Selected * list string) :=
  let missing what := (fst st, if ep_required policy then snd st ++ ["required kind " +:+ ContextKind.as_str (ep_kind policy) +:+ what] else snd st) in
  if negb (ep_allowed policy) then mret (missing " is denied")
  else match ep_default_context_id policy with
       | None => mret (missing " has no default")
       | Some default_id =>
           defaults ← ask (λ _, find_context_records principal false (ContextExactLookup.Id default_id));
           mret (match defaults with
                 | [record] =>
                     if bool_decide (cd_kind (cxr_context record) = ep_kind policy) && negb (bool_decide (default_id ∈ sl_ids (fst st)))
                     then (select_as default_id record (fst st), snd st)
                     else missing " has no authorized active default"
                 | _ => missing " has no authorized active default"
                 end)
       end.
Definition policy_defaults (principal : string) (policies : list EffectiveContextPolicy) (candidates : list ContextCandidate) : tool Selected :=
  st ← tool_fold (apply_default principal) (nothing_selected, []) policies;
  if is_nil (snd st) then mret (fst st)
  else answer (context_resolution_error_with_guidance ToolErrorCode.ContextRequired "context" (String.concat "; " (snd st)) candidates
                 (policy_guidance_for policies)).

Inductive Choice := Finished (selection : ResolvedContextSelection) | Chosen (selected : Selected).
(** No reference, hint or query selected a context. *)
Definition choose_without_match (principal : string) (envelope : ContextEnvelope) (query : option string) (governed_write : bool)
    (state : ContextPolicyState) (candidates : list ContextCandidate) : tool Choice :=
  let policies := policies_for state [] [] in
  let policy_guidance := policy_guidance_for policies in
  if existsb has_ambiguities policies then
    answer (context_resolution_error_with_guidance ToolErrorCode.ContextAmbiguous "context" "effective context policy is ambiguous"
              candidates policy_guidance)
  else if governed_write && ce_allow_unresolved envelope && negb (existsb ep_required policies) then
    mret (Finished (unresolved_selection candidates policy_guidance []))
  else
    selected ← (if governed_write && is_nil (ce_refs envelope) && is_nil (ce_hints envelope) && is_none query
                then policy_defaults principal policies candidates else mret nothing_selected);
    if negb (is_nil (sl_ids selected)) then mret (Chosen selected)
    else if is_some query && negb governed_write then
      mret (Finished (unresolved_selection candidates policy_guidance [select_candidate_action]))
    else if governed_write || negb (is_nil (ce_refs envelope)) || negb (is_nil (ce_hints envelope)) then
      answer (context_resolution_error_with_guidance (unselected_code candidates) "context"
                "no unique authorized context could be selected" candidates policy_guidance)
    else mret (Finished (broad_selection policy_guidance)).

Definition expand_selection (field : string) (ids : list ContextId) (principal : string) (include_descendants : bool) :
    tool (list ContextDefinition) :=
  expanded ← ask_engine (λ _, reads (λ s, expand_context_selection limit_rows (st_registry s) ids principal include_descendants));
  match expanded with
  | Some (Ok contexts) => mret contexts
  | Some (Err e) => answer (context_expansion_error field e)
  | None => diverge
  end.

(** The checks of the effective policies, in order. *)
Definition check_policies (policies : list EffectiveContextPolicy) (governed_write : bool) (direct_kinds effective_kinds : gset ContextKind.t)
    (candidates : list ContextCandidate) : result ToolError unit :=
  let error code message := context_resolution_error_with_guidance code "context" message candidates (policy_guidance_for policies) in
  let kind_of policy := ContextKind.as_str (ep_kind policy) in
  _ ← match List.find has_ambiguities policies with
      | Some policy => Err (error ToolErrorCode.ContextAmbiguous
          ("effective policy for " +:+ kind_of policy +:+ " has conflicting active-anchor defaults"))
      | None => Ok ()
      end;
  _ ← match List.find (λ policy, bool_decide (ep_kind policy ∈ effective_kinds) && negb (ep_allowed policy)) policies with
      | Some policy => Err (error ToolErrorCode.AccessDenied ("effective policy denies context kind " +:+ kind_of policy))
      | None => Ok ()
      end;
  _ ← match List.find (λ policy, governed_write && ep_required policy && negb (bool_decide (ep_kind policy ∈ direct_kinds))) policies with
      | Some policy => Err (error ToolErrorCode.ContextRequired ("effective policy requires a " +:+ kind_of policy +:+ " context"))
      | None => Ok ()
      end;
  try_for_each (λ policy,
    match ep_allowed_companion_kinds policy with
    | Some allowed_companions =>
        match List.find (λ kind, negb (bool_decide (kind = ep_kind policy)) && negb (bool_decide (kind ∈ allowed_companions)))
                (hash_order effective_kinds) with
        | Some disallowed => Err (error ToolErrorCode.Conflict
            ("effective " +:+ kind_of policy +:+ " policy does not allow companion kind " +:+ ContextKind.as_str disallowed))
        | None => Ok ()
        end
    | None => Ok ()
    end) (List.filter (λ policy, bool_decide (ep_kind policy ∈ effective_kinds)) policies).

Definition kinds_of (contexts : list ContextDefinition) : gset ContextKind.t := list_to_set (map cd_kind contexts).
Definition selected_contexts (selected : Selected) : list ContextDefinition :=
  map cxr_context (omap (λ id, sl_records selected !! id) (sl_ids selected)).

(** Expansion of the chosen contexts under the effective policies. *)
Definition finish_selection (principal : string) (envelope : ContextEnvelope) (governed_write : bool) (state : ContextPolicyState)
    (candidates : list ContextCandidate) (selected : Selected) : tool ResolvedContextSelection :=
  initial ← expand_selection "context" (sl_ids selected) principal false;
  let direct_kinds := kinds_of (selected_contexts selected) in
  let initial_policies := policies_for state (map bare_record initial) (map cd_id initial) in
  let include_descendants := ce_include_descendants envelope
    || existsb (λ policy, bool_decide (ep_kind policy ∈ direct_kinds) && ep_include_descendants policy) initial_policies in
  effective ← (if include_descendants then expand_selection "context" (sl_ids selected) principal true else mret initial);
  let policies := policies_for state (map bare_record effective) (map cd_id effective) in
  _ ← of_answer (check_policies policies governed_write direct_kinds (kinds_of effective) candidates);
  mret {| rcs_resolution :=
            {| cs_direct := map context_descriptor_from (selected_contexts selected); cs_effective := map context_descriptor_from effective;
               cs_candidates := candidates; cs_policy_guidance := policy_guidance_for policies; cs_broad_search := false;
               cs_unresolved := false; cs_recommended_actions := [] |};
          rcs_direct_ids := sl_ids selected; rcs_effective_ids := map cd_id effective; rcs_created_legacy_context := None |}.

Definition envelope_error (message : string) : ToolError :=
  tool_error ToolErrorCode.InvalidParams (Some "context") message
    (Some "Reduce context locators and hints to the documented limits.") false.
Definition query_too_long : ToolError :=
  tool_error ToolErrorCode.InvalidParams (Some "query") ("context query accepts at most " +:+ pretty MAX_CONTEXT_SURFACE_LEN +:+ " bytes")
    (Some "Use a shorter context key, name, or hint.") false.

(** References, then hints and query, then the candidates of what is left. *)
Definition match_contexts (principal : string) (envelope : ContextEnvelope) (query : option string) :
    tool (Selected * bool * list ContextCandidate) :=
  refs ← resolve_refs principal (ce_refs envelope);
  values ← tool_fold (resolve_value principal) (rf_selected refs, []) (lookup_values envelope query);
  fuzzy_records ← (if is_nil (rf_unresolved_keys refs) && is_nil (snd values) then mret []
                   else lift (λ e, ToolFailure (backend_error "context" e)) (authorized_context_records principal));
  let candidates := concat (map (λ '(key, kind), fuzzy_context_candidates fuzzy_records key kind) (rf_unresolved_keys refs)) in
  hinted ← of_answer (try_fold (resolve_hint fuzzy_records) (fst values, candidates) (snd values));
  mret (fst hinted, rf_unresolved refs, final_candidates (snd hinted)).

Definition resolve_context_selection (principal : string) (envelope : option ContextEnvelope) (query : option string) (governed_write : bool) :
    tool ResolvedContextSelection :=
  let omitted := is_none envelope && is_none query in
  let envelope := default envelope_default envelope in
  _ ← of_answer (map_err envelope_error (validate_limits envelope));
  _ ← answer_if (match query with
                 | Some q => if MAX_CONTEXT_SURFACE_LEN <? byte_len q then Some query_too_long else None
                 | None => None
                 end);
  state ← lift (λ e, ToolFailure (backend_error "context" e)) (context_policy_state principal);
  let guidance := policy_guidance_for (policies_for state [] []) in
  if omitted && negb governed_write then mret (broad_selection guidance)
  else
    matched ← match_contexts principal envelope query;
    let '(selected, unresolved_ref, candidates) := matched in
    if unresolved_ref : bool then
      answer (context_resolution_error_with_guidance (unselected_code candidates) "context.refs"
                "one or more explicit context references did not resolve uniquely" candidates guidance)
    else
      choice ← (if is_nil (sl_ids selected) then choose_without_match principal envelope query governed_write state candidates
                else mret (Chosen selected));
      match choice with
      | Finished selection => mret selection
      | Chosen selected => finish_selection principal envelope governed_write state candidates selected
      end.

(** ** [context_resolve] *)

Record ContextResolveParams := {
  crp_context : ContextEnvelope;
  crp_query : option string;
  crp_offset : Z;
  crp_limit : option Z;
}.
Record ContextResolveResponse := {
  crr_resolution : ContextResolution;
  crr_catalog : list ContextDescriptor;
  crr_next_offset : option Z;
}.

Context (server : ServerAuth).

Definition context_resolve (context : RequestContext) (params : ContextResolveParams) : tool ContextResolveResponse :=
  request_principal ← reader server context;
  let principal := principal_or_anonymous request_principal in
  let query := trimmed_non_empty (crp_query params) in
  if is_none query && is_nil (ce_refs (crp_context params)) && is_nil (ce_hints (crp_context params)) then
    let limit := Z.max 1 (Z.min 500 (default 20 (crp_limit params))) in
    records ← ask_engine (λ _, list_context_records principal false (crp_offset params) limit);
    let catalog := map (λ record, context_descriptor_from (cxr_context record)) records in
    let next_offset := if len catalog =? limit then Some (saturating_add (crp_offset params) (len catalog)) else None in
    state ← run_engine (context_policy_state principal);
    mret {| crr_resolution := rcs_resolution (broad_selection (policy_guidance_for (policies_for state [] [])));
            crr_catalog := catalog; crr_next_offset := next_offset |}
  else
    selection ← resolve_context_selection principal (Some (crp_context params)) query false;
    mret {| crr_resolution := rcs_resolution selection; crr_catalog := []; crr_next_offset := None |}.

(** ** [context_create] *)

Record ContextCreateParams := {
  ccp_kind : ContextKind.t;
  ccp_key : string;
  ccp_display_name : string;
  ccp_description : option string;
  ccp_identity : option ContextIdentityInput;
  ccp_parent : option ContextReference;
  ccp_confirm_distinct_from : list ContextId;
}.
Record ContextIdentityDescriptor := { cid_scheme : string; cid_redacted_label : string }.
Definition identity_descriptor_from (i : ContextIdentity) : ContextIdentityDescriptor :=
  {| cid_scheme := ci_scheme i; cid_redacted_label := ci_redacted_label i |}.
Record ContextCreateResponse := {
  ccr_context : ContextDescriptor;
  ccr_created : bool;
  ccr_identity : option ContextIdentityDescriptor;
  ccr_policy_guidance : list string;
}.

Definition create_fields_error : ToolError :=
  tool_error ToolErrorCode.InvalidParams (Some "context_create") "context creation fields are blank or exceed their documented limits"
    (Some "Use a bounded stable key, display name, description, and at most five confirmation IDs.") false.
Definition confirmations_error : ToolError :=
  tool_error ToolErrorCode.InvalidParams (Some "confirm_distinct_from") "confirmation IDs must be unique"
    (Some "Submit each current candidate ID exactly once.") false.
Definition identity_error (message : string) : ToolError :=
  tool_error ToolErrorCode.InvalidParams (Some "identity") message
    (Some "Use git_remote, an approved absolute uri, or a namespaced_id; put local paths in resolver hints.") false.
Definition archived_error (record : ContextRecord) : ToolError :=
  tool_error_with_details ToolErrorCode.Conflict (Some "key") "exact context key, alias, or identity belongs to an archived context"
    (Some "Reactivate the reserved context in the TUI; agent tools cannot replace archived identities.") false
    (Some (JObj [("context", descriptor_json (context_descriptor_from (cxr_context record)));
                 ("lifecycle", JStr (ContextLifecycle.to_string (cd_lifecycle (cxr_context record))))])) [].
Definition guidance_details (policy_guidance : list string) : Json := JObj [("policy_guidance", JArr (map JStr policy_guidance))].
Definition exact_ambiguous (records : list ContextRecord) : ToolError :=
  ambiguous "key" "exact context key, alias, or identity matched multiple authorized contexts" "exact_key_or_identity" records.

(** The context there is already. *)
Definition reused (state : ContextPolicyState) (record : ContextRecord) : ContextCreateResponse :=
  {| ccr_context := context_descriptor_from (cxr_context record); ccr_created := false; ccr_identity := None;
     ccr_policy_guidance := policy_guidance_for [effective_policy_for state [] (cd_kind (cxr_context record)) []] |}.

(** Records by key or alias, then the other ones by identity. *)
Definition exact_definitions (principal : string) (kind : ContextKind.t) (normalized_key : string) (identity : option ContextIdentity) :
    tool (list ContextRecord) :=
  exact ← ask_engine (λ _, find_context_records principal true (ContextExactLookup.Key (Some kind) normalized_key));
  match identity with
  | None => mret exact
  | Some identity =>
      others ← ask_engine (λ _, find_context_records principal true (ContextExactLookup.Identity kind identity));
      mret (fold_left (λ exact record,
        if existsb (λ candidate, N.eqb (cd_id (cxr_context candidate)) (cd_id (cxr_context record))) exact
        then exact else exact ++ [record]) others exact)
  end.

Definition create_policy_check (policy : EffectiveContextPolicy) (identity : option ContextIdentity) : result ToolError unit :=
  let guidance := policy_guidance_for [policy] in
  _ ← bail_if (has_ambiguities policy)
        (tool_error_with_details ToolErrorCode.ContextAmbiguous (Some "kind") "effective context creation policy is ambiguous"
           (Some "Resolve the active anchor-policy conflict in the TUI before retrying.") false
           (Some (JObj [("policy_guidance", JArr (map JStr guidance)); ("ambiguities", JArr (map JStr (ep_ambiguities policy)))])) []);
  _ ← bail_if (negb (ep_allowed policy) || negb (ep_agent_creation policy))
        (tool_error_with_details ToolErrorCode.AccessDenied (Some "kind") "effective policy does not allow agent creation for this context kind"
           (Some "Use the TUI to enable agent creation within operator ceilings.") false (Some (guidance_details guidance)) []);
  _ ← bail_if (ep_require_identity policy && is_none identity)
        (tool_error_with_details ToolErrorCode.ContextRequired (Some "identity")
           "effective policy requires a durable typed identity for this context kind"
           (Some "Supply git_remote, an approved absolute uri, or a namespaced_id.") false (Some (guidance_details guidance)) []);
  match identity with
  | Some identity =>
      bail_if (negb (any_eq (ci_scheme identity) (ep_allowed_identity_schemes policy)))
        (tool_error_with_details ToolErrorCode.AccessDenied (Some "identity.scheme")
           "effective policy does not allow this identity scheme for the context kind"
           (Some "Use one of the identity schemes listed by effective policy.") false
           (Some (JObj [("allowed_identity_schemes", JArr (map JStr (ep_allowed_identity_schemes policy)));
                        ("policy_guidance", JArr (map JStr guidance))])) [])
  | None => Ok ()
  end.

Definition is_late_exact (kind : ContextKind.t) (normalized_key : string) (identity : option ContextIdentity) (record : ContextRecord) : bool :=
  bool_decide (cd_kind (cxr_context record) = kind)
  && (String.eqb (normalize_context_key (cd_key (cxr_context record))) normalized_key
      || existsb (λ alias, String.eqb (normalize_context_key alias) normalized_key) (cxr_aliases record)
      || match identity with Some i => bool_decide (i ∈ cxr_identities record) | None => false end).
Definition sorted_ids (ids : list ContextId) : list ContextId := sort_by N.compare ids.
Definition candidate_ids (candidates : list ContextCandidate) : list ContextId := sorted_ids (map (λ c, cdx_id (cc_context c)) candidates).
Definition confirm_json (ids : list ContextId) : Json := JObj [("confirm_distinct_from", JArr (map (λ id, JStr (ulid id)) ids))].
Definition confirm_error (candidates : list ContextCandidate) (policy_guidance : list string) : ToolError :=
  tool_error_with_details ToolErrorCode.ContextAmbiguous (Some "confirm_distinct_from")
    "similar authorized contexts require explicit distinctness confirmation"
    (Some "Review the candidates and repeat context_create with every current candidate ID in confirm_distinct_from.") false
    (Some (JObj [("candidates", JArr (map candidate_json candidates)); ("policy_guidance", JArr (map JStr policy_guidance));
                 ("retry", confirm_json (candidate_ids candidates));
                 ("note", JStr "Repeat the original request locally with this confirmation set; raw identity and parent locators are intentionally omitted.")])) [].
Definition changed_error (message : string) (candidates : list ContextCandidate) (policy_guidance : list string) : ToolError :=
  tool_error_with_details ToolErrorCode.ContextAmbiguous (Some "confirm_distinct_from") message
    (Some "Resolve the current candidates and retry with a fresh confirmation set.") true
    (Some (JObj [("candidates", JArr (map candidate_json candidates)); ("policy_guidance", JArr (map JStr policy_guidance));
                 ("retry", confirm_json (candidate_ids candidates))])) [].
Definition not_refreshed_error : ToolError :=
  tool_error ToolErrorCode.Internal (Some "confirm_distinct_from") "context candidates changed and could not be refreshed"
    (Some "Call context_resolve after checking backend health, then retry.") true.
Definition concurrent_error (message : string) (winners : list ContextRecord) : ToolError :=
  tool_error_with_details ToolErrorCode.Conflict (Some "key") "context creation conflicted with a concurrent exact definition"
    (Some "Resolve the exact key, alias, or identity and retry using the returned context.") true
    (Some (JObj [("candidates", JArr (map (λ record, descriptor_json (context_descriptor_from (cxr_context record))) winners));
                 ("reason", JStr message)])) [].
Definition create_audit (id : ContextId) (principal : string) (kind : ContextKind.t) (key : string) (identity : option ContextIdentity) :
    ContextAuditDraft :=
  {| cad_actor_principal := principal; cad_action := "context_created"; cad_context_id := Some id; cad_memory_id := None;
     cad_details := Some (JObj [("kind", JStr (ContextKind.as_str kind)); ("key", JStr key);
                                ("identity_scheme", match identity with Some i => JStr (ci_scheme i) | None => JNull end)]) |}.

Definition candidates_changed : string := "fuzzy context candidates changed".
(** The store refused the new context with a conflict. *)
Definition after_conflict (message : string) (draft : ContextCreateDraft) (identity : option ContextIdentity) (policy_guidance : list string) :
    tool ContextCreateResponse :=
  if starts_with (bytes candidates_changed) (bytes message) then
    current ← attempt (authorized_context_records (ccd_owner_principal draft));
    match current with
    | Err _ => answer not_refreshed_error
    | Ok records =>
        answer (changed_error message
          (fuzzy_context_candidates records (ccd_key draft +:+ " " +:+ ccd_display_name draft) (Some (ccd_kind draft))) policy_guidance)
    end
  else
    winners ← exact_definitions (ccd_owner_principal draft) (ccd_kind draft) (ccd_normalized_key draft) identity;
    match winners with
    | [winner] =>
        if bool_decide (cd_lifecycle (cxr_context winner) = ContextLifecycle.Active)
        then mret {| ccr_context := context_descriptor_from (cxr_context winner); ccr_created := false; ccr_identity := None;
                     ccr_policy_guidance := policy_guidance |}
        else answer (concurrent_error message winners)
    | _ => answer (concurrent_error message winners)
    end.

(** The limits of the fields, with key and name trimmed. *)
Definition create_fields_ok (key display_name : string) (params : ContextCreateParams) : bool :=
  negb (str_is_empty key || str_is_empty display_name || (MAX_CONTEXT_SURFACE_LEN <? byte_len key)
        || (MAX_CONTEXT_DISPLAY_NAME_LEN <? byte_len display_name)
        || match ccp_description params with Some v => MAX_CONTEXT_DESCRIPTION_LEN <? byte_len v | None => false end
        || (MAX_CONTEXT_CONFIRMATIONS <? len (ccp_confirm_distinct_from params))).

(** The part past the exact definitions; [fresh] is the new id. *)
Definition create_new (fresh : ContextId) (principal key display_name normalized_key : string) (identity : option ContextIdentity)
    (state : ContextPolicyState) (params : ContextCreateParams) : tool ContextCreateResponse :=
  parent_id ← match ccp_parent params with
              | Some parent =>
                  selection ← resolve_context_selection principal
                    (Some {| ce_refs := [parent]; ce_hints := []; ce_include_descendants := false; ce_allow_unresolved := false |}) None false;
                  mret (head (rcs_direct_ids selection))
              | None => mret None
              end;
  parent_effective ← match parent_id with
                     | Some id => expand_selection "parent" [id] principal false
                     | None => mret []
                     end;
  let policy := effective_policy_for state (map bare_record parent_effective) (ccp_kind params) (map cd_id parent_effective) in
  let policy_guidance := policy_guidance_for [policy] in
  _ ← of_answer (create_policy_check policy identity);
  active_records ← run_engine (authorized_context_records principal);
  match List.filter (is_late_exact (ccp_kind params) normalized_key identity) active_records with
  | [record] => mret (reused state record)
  | [] =>
      let candidates := fuzzy_context_candidates active_records (key +:+ " " +:+ display_name) (Some (ccp_kind params)) in
      let confirmed := dedup_adjacent (sorted_ids (ccp_confirm_distinct_from params)) in
      if negb (is_nil (candidate_ids candidates)) && negb (bool_decide (candidate_ids candidates = confirmed))
      then answer (confirm_error candidates policy_guidance)
      else
        let draft := {| ccd_id := fresh; ccd_kind := ccp_kind params; ccd_key := key; ccd_normalized_key := normalized_key;
          ccd_display_name := display_name; ccd_description := trim_optional_text (ccp_description params);
          ccd_owner_principal := principal; ccd_guidance := None; ccd_parent_id := parent_id; ccd_aliases := [];
          ccd_identities := option_list identity; ccd_resolver_hints := [];
          ccd_confirm_distinct_from := ccp_confirm_distinct_from params; ccd_enforce_fuzzy_confirmation := true; ccd_frozen := false |} in
        created ← run_engine (try_call dimensions exp2 (create_context_conn draft (create_audit fresh principal (ccp_kind params) key identity)));
        match created with
        | Ok created =>
            mret {| ccr_context := context_descriptor_from created; ccr_created := true;
                    ccr_identity := identity_descriptor_from <$> identity; ccr_policy_guidance := policy_guidance |}
        | Err (StoreError.Conflict message) => after_conflict message draft identity policy_guidance
        | Err e => refuse (ProtocolFailure (error_data_from (EngineError.Store e)))
        end
  | records => answer (exact_ambiguous records)
  end.

Definition context_create (fresh : ContextId) (context : RequestContext) (params : ContextCreateParams) : tool ContextCreateResponse :=
  principal ← writer server context;
  let key := trim (ccp_key params) in
  let display_name := trim (ccp_display_name params) in
  _ ← answer_if (if create_fields_ok key display_name params then None else Some create_fields_error);
  _ ← answer_if (if length (dedup_adjacent (sorted_ids (ccp_confirm_distinct_from params))) =? length (ccp_confirm_distinct_from params)
                 then None else Some confirmations_error)%nat;
  identity ← of_answer (map_err identity_error (match ccp_identity params with
                          | Some i => Some <$> normalize_context_identity i
                          | None => Ok None
                          end));
  state ← run_engine (context_policy_state principal);
  let normalized_key := normalize_context_key key in
  exact ← exact_definitions principal (ccp_kind params) normalized_key identity;
  match exact with
  | [record] =>
      if bool_decide (cd_lifecycle (cxr_context record) = ContextLifecycle.Archived) then answer (archived_error record)
      else mret (reused state record)
  | [] => create_new fresh principal key display_name normalized_key identity state params
  | records => answer (exact_ambiguous records)
  end.
End resolution.
