(* ===== verification/ServerSelection.v ===== *)
(** * ServerSelection: what [resolve_context_selection] guarantees

    The resolution of [ServerContexts] ends, changes nothing, and never
    answers with more than was asked for. *)
From Stdlib Require Import ZArith Lia.
From stdpp Require Import base list option strings gmap sets pretty.
From S2P Require Import Integrity Governance Hierarchy Systems Prelude Text Floats Lists Errors Types Validation Context StoreTypes Ranking Store Membership Crud ContextAdmin Admin Revisions Operations Search Authorization Accounting Config ContextSelect Selection ContextReads ServerTypes Engine Server ServerContexts.

(** ** Readers only read *)

Section readers.
Context `{Render, UnicodeCase}.

Lemma reads_find principal archived lookup : steps eq (find_context_records principal archived lookup).
Proof. intros s a s'. rewrite find_run. by intros [= _ <-]. Qed.
Lemma reads_kinds : steps eq list_context_kinds.
Proof. unfold list_context_kinds. steps_tac. Qed.
Lemma reads_kind_policies principal : steps eq (list_context_kind_policies principal).
Proof. unfold list_context_kind_policies. steps_tac. Qed.
Lemma reads_anchor_policies principal : steps eq (list_context_anchor_policies principal).
Proof. unfold list_context_anchor_policies. steps_tac. Qed.
Lemma reads_records principal archived offset limit : steps eq (list_context_records principal archived offset limit).
Proof. unfold list_context_records, list_contexts, fetch_sqlite_context_records. steps_tac. Qed.

Lemma push_rows_length {A} at_ push (rows : list (ContextId * A)) records : length (push_rows at_ push rows records) = length records.
Proof.
  unfold push_rows. revert records. induction rows as [|[i a] rows IH]; intros records; cbn; [done|]. rewrite IH.
  destruct (at_ !! i); [apply length_alter|done].
Qed.
Lemma selected_rows_size reg principal archived matching :
  (length (selected_rows reg principal archived matching) ≤ size (reg_contexts reg))%nat.
Proof. unfold selected_rows. rewrite length_map, List.filter_length_le. by rewrite length_map_to_list. Qed.
(** A full page lies within the table. *)
Lemma record_page principal offset s page s' : 0 ≤ offset → list_context_records principal false offset 500 s = Ok (page, s') →
  500 ≤ len page → offset + 500 ≤ Z.of_nat (size (reg_contexts (st_registry s))).
Proof.
  intros H0' Hrun Hlen. unfold list_context_records, list_contexts in Hrun. inv_tx.
  match goal with Hf : fetch_sqlite_context_records ?l _ = _ |- _ => assert (Hl : length page = length l) end.
  { unfold fetch_sqlite_context_records in *. case_bool_decide as Hn; inv_tx; [by rewrite Hn|]. by rewrite !push_rows_length, length_map. }
  pose proof (selected_rows_size (st_registry s) principal false (λ _ _, true)).
  unfold len, ContextReads.page, truncate in *. rewrite Hl in *. rewrite length_take, length_drop, sort_by_length in *.
  repeat match goal with Hs : sqlite_usize _ _ = Ok _ |- _ => unfold sqlite_usize, i64_try_from in Hs; destruct (_ <=? i64_max); cbn in Hs; [injection Hs as <-|done] end.
  unfold MAX_CONTEXT_PAGE_SIZE in *.
  lia.
Qed.
End readers.

(** ** A logic for tools that only read *)

Section logic.
Context `{Render, UnicodeCase, Chrono} (dimensions : Z) (exp2 : f64 → f64).
#[local] Abbreviation turn := (turn dimensions exp2).

Definition nobody (o : system_op) : Prop := False.
(** What the others' operations lead to. *)
Definition reach : Session → Session → Prop := follows dimensions exp2 nobody.
#[export] Instance reach_preorder : PreOrder reach := follows_preorder dimensions exp2 nobody.
Lemma reach_turn se : reach se (turn se).
Proof. apply follows_turn. Qed.
Lemma run_systems_registry s os : wf_registry (st_registry s) → wf_registry (st_registry (run_systems dimensions exp2 s os)).
Proof.
  revert s. induction os as [|o os IH]; intros s Hs; [done|]. apply (IH (run_system dimensions exp2 s o)). destruct o as [o|o].
  - exact (@steps_with_conn keeps_wf keeps_wf_preorder _ _ s (op_keeps_registry dimensions exp2 o) Hs).
  - by apply run_context_registry.
Qed.
Lemma reach_registry se se' : reach se se' → wf_registry (st_registry (se_store se)) → wf_registry (st_registry (se_store se')).
Proof. intros (used & os & _ & -> & _). apply run_systems_registry. Qed.

(** From any session the others make of [o], the tool ends in one they make
    of it too, with an answer that satisfies [Q] there or a structured error. *)
Definition settles (o : Session) {A} (m : tool A) (Q : Session → A → Prop) : Prop := ∀ se, reach o se →
  ∃ r se', m se = Some (r, se') ∧ reach se se' ∧ (∀ a, r = Ok a → Q se' a) ∧ ∀ e, r = Err e → ∃ t, e = ToolFailure t.

Lemma settles_ret o {A} (a : A) (Q : Session → A → Prop) : (∀ se, reach o se → Q se a) → settles o (mret a) Q.
Proof. intros HQ se Hse. exists (Ok a), se. split_and!; [done|reflexivity| |done]. intros ? [= <-]. by apply HQ. Qed.
Lemma settles_answer o {A} e (Q : Session → A → Prop) : settles o (answer e) Q.
Proof. intros se Hse. exists (Err (ToolFailure e)), se. split_and!; [done|reflexivity|done|]. intros ? [= <-]. by eexists. Qed.
Lemma settles_bind o {A B} (m : tool A) (k : A → tool B) (Q : A → Prop) (Q' : Session → B → Prop) :
  settles o m (λ _ a, Q a) → (∀ a, Q a → settles o (k a) Q') → settles o (m ≫= k) Q'.
Proof.
  intros Hm Hk se Hse. destruct (Hm se Hse) as ([a|e] & se1 & Hrun & Hr1 & HQ & He).
  - destruct (Hk a (HQ a eq_refl) se1) as (r & se2 & Hrun2 & Hr2 & HQ2); [by etrans|]. exists r, se2.
    rewrite (tool_step _ _ _ _ _ Hrun). split_and!; [done|by etrans|apply HQ2..].
  - exists (Err e), se1. rewrite (tool_stop _ _ _ _ _ Hrun). split_and!; [done|done|done|]. intros e' [= <-]. by apply He.
Qed.
Lemma settles_mono o {A} (m : tool A) (Q Q' : Session → A → Prop) : settles o m Q → (∀ se a, Q se a → Q' se a) → settles o m Q'.
Proof. intros Hm HQ se Hse. destruct (Hm se Hse) as (r & se' & ? & ? & ? & ?). exists r, se'. eauto 7. Qed.
Lemma settles_of_answer o {A} (r : result ToolError A) (Q : Session → A → Prop) :
  (∀ a se, r = Ok a → reach o se → Q se a) → settles o (of_answer r) Q.
Proof. destruct r as [a|e]; intros HQ; [apply settles_ret; intros; by apply HQ|apply settles_answer]. Qed.
(** An invariant of a loop, of what it has gone through. *)
Lemma settles_fold o {A S} (f : S → A → tool S) (I : list A → S → Prop) past st l :
  I past st → (∀ past st a, I past st → settles o (f st a) (λ _, I (past ++ [a]))) → settles o (tool_fold f st l) (λ _, I (past ++ l)).
Proof.
  intros Hst Hf. revert past st Hst. induction l as [|a l IH]; intros past st Hst; cbn.
  - apply settles_ret. by rewrite app_nil_r.
  - eapply settles_bind; [by apply Hf|]. intros st' Hst'. specialize (IH _ _ Hst'). by rewrite <- app_assoc in IH.
Qed.
Lemma settles_ask o {A} (m : DateTime → tx A) (Q : Session → A → Prop) :
  (∀ now, steps eq (m now)) → (∀ t a, reach o t → m (se_now t) (se_store t) = Ok (a, se_store t) → Q t a) → settles o (ask dimensions exp2 m) Q.
Proof.
  intros Hm HQ se Hse. unfold ask, lift, Engine.call, mbind, engine_bind, try_call. set (t := turn se).
  assert (Ht : reach o t) by (etrans; [exact Hse|apply reach_turn]). unfold with_conn.
  destruct (m (se_now t) (se_store t)) as [[a s]|e] eqn:Hr; cbn; eexists _, t.
  - pose proof (Hm _ _ _ _ Hr) as <-. split_and!; [by destruct t|apply reach_turn| |done]. intros ? [= <-]. by apply HQ.
  - split_and!; [by destruct t|apply reach_turn|done|]. intros ? [= <-]. by eexists.
Qed.
End logic.

(** ** The pages end *)

Section pages.
Context `{Render, UnicodeCase, Chrono} (dimensions : Z) (exp2 : f64 → f64).
#[local] Abbreviation turn := (turn dimensions exp2).
#[local] Abbreviation reach := (reach dimensions exp2).
#[local] Abbreviation final_contexts := (final_contexts dimensions exp2).

Lemma final_turn se : final_contexts (turn se) = final_contexts se.
Proof.
  unfold ServerContexts.final_contexts, Engine.turn. destruct (se_schedule se) as [|[os now] rest] eqn:Hs; [by rewrite Hs|].
  cbn. unfold run_systems. by rewrite fold_left_app.
Qed.
Lemma record_pages_ends fuel principal records se :
  (length (se_schedule se) + (final_contexts se - length records) < fuel)%nat →
  ∃ r se', record_pages dimensions exp2 fuel principal records se = Some (r, se') ∧ reach se se' ∧ r ≠ Ok None.
Proof.
  revert records se. induction fuel as [|fuel IH]; intros records se Hf; [lia|]. cbn [record_pages].
  unfold Engine.call, try_call, mbind, engine_bind, with_conn. set (t := turn se).
  destruct (list_context_records principal false (len records) 500 (se_store t)) as [[page s]|e] eqn:Hp.
  2: { eexists _, t. split_and!; [by destruct t|apply reach_turn|done]. }
  pose proof (reads_records _ _ _ _ _ _ _ Hp) as <-. cbn. assert (Ht : mkSession (se_store t) (se_now t) (se_schedule t) = t) by by destruct t.
  rewrite Ht. destruct (len page <? 500) eqn:Hlen.
  { eexists _, t. split_and!; [done|apply reach_turn|done]. }
  apply Z.ltb_ge in Hlen. destruct (IH (records ++ page) t) as (r & se' & Hr & Hreach & Hne).
  - unfold t. rewrite final_turn, length_app. destruct (se_schedule se) as [|[os now] rest] eqn:Hs.
    + assert (Hfull := record_page _ _ _ _ _ (len_nonneg records) Hp Hlen).
      assert (Hfin : final_contexts se = size (reg_contexts (st_registry (se_store t))))
        by (unfold t, ServerContexts.final_contexts, Engine.turn; by rewrite Hs).
      unfold t, Engine.turn in *. rewrite Hs in *. cbn in *. rewrite Hs. unfold len in *. cbn. lia.
    + unfold Engine.turn. rewrite Hs. cbn in *. lia.
  - exists r, se'. split_and!; [exact Hr|etrans; [apply reach_turn|done]|done].
Qed.
(** Listing all the contexts ends, whatever the others add meanwhile. *)
Lemma authorized_context_records_ends principal se :
  ∃ r se', authorized_context_records dimensions exp2 principal se = Some (r, se') ∧ reach se se'.
Proof.
  unfold authorized_context_records.
  destruct (record_pages_ends (S (length (se_schedule se) + final_contexts se)) principal [] se) as (r & se' & Hr & Hreach & Hne); [cbn; lia|].
  destruct r as [[records|]|e]; [| |]; try done; unfold mbind, engine_bind; rewrite Hr; by eexists _, _.
Qed.
Lemma settles_records o principal (f : EngineError.t → ToolError) (Q : Session → list ContextRecord → Prop) :
  (∀ se a, Q se a) → settles dimensions exp2 o (lift (λ e, ToolFailure (f e)) (authorized_context_records dimensions exp2 principal)) Q.
Proof.
  intros HQ se Hse. destruct (authorized_context_records_ends principal se) as (r & se' & Hr & Hreach). unfold lift. rewrite Hr.
  eexists _, se'. split_and!; [done|done|by intros|]. destruct r; cbn; [done|]. intros e' [= <-]. by eexists.
Qed.
End pages.

(** ** Matching *)

(** The selected contexts are distinct and have their records. *)
Definition sound (s : Selected) : Prop :=
  NoDup (sl_ids s) ∧ ∀ id, id ∈ sl_ids s → ∃ r, sl_records s !! id = Some r ∧ cd_id (cxr_context r) = id.
Lemma nothing_sound : sound nothing_selected.
Proof. split; [constructor|]. by intros id Hid%not_elem_of_nil. Qed.
Lemma select_as_sound id r s : cd_id (cxr_context r) = id → sound s → sound (select_as id r s).
Proof.
  intros Hid [Hnd Hs]. split; unfold select_as; cbn; case_bool_decide as Hin.
  - done.
  - apply NoDup_app. split_and!; [done| |apply NoDup_singleton]. intros x Hx ->%list_elem_of_singleton. done.
  - intros x Hx. destruct (decide (x = id)) as [->|Hne]; [exists r; by rewrite lookup_insert_eq|]. rewrite lookup_insert_ne by done. by apply Hs.
  - intros x Hx. destruct (decide (x = id)) as [->|Hne]; [exists r; by rewrite lookup_insert_eq|]. rewrite lookup_insert_ne by done. apply Hs. set_solver.
Qed.
Lemma select_as_ids id r s x : x ∈ sl_ids (select_as id r s) ↔ x = id ∨ x ∈ sl_ids s.
Proof. unfold select_as. cbn. case_bool_decide; set_solver. Qed.

Section matching.
Context `{Render, UnicodeCase, Chrono, UrlLib, Sha256Lib} (dimensions : Z) (exp2 : f64 → f64).
#[local] Abbreviation reach := (reach dimensions exp2).
Context (o : Session) (Hwf : wf_registry (st_registry (se_store o))) (principal : string).
#[local] Abbreviation settles := (settles dimensions exp2 o).

(** A reference that one context answers, at some moment. *)
Definition answered (ids : list ContextId) (reference : ContextReference) : Prop :=
  ∃ lookup t record, exact_context_lookup reference = Ok lookup ∧ reach o t
    ∧ find_context_records principal false lookup (se_store t) = Ok ([record], se_store t) ∧ cd_id (cxr_context record) ∈ ids.
Lemma answered_mono ids ids' reference : (∀ x, x ∈ ids → x ∈ ids') → answered ids reference → answered ids' reference.
Proof. intros Hsub (l & t & r & ? & ? & ? & ?). exists l, t, r. auto. Qed.

Definition refs_inv (past : list ContextReference) (st : RefsResolved) : Prop :=
  sound (rf_selected st) ∧ (rf_unresolved st = false → ∀ reference, reference ∈ past → answered (sl_ids (rf_selected st)) reference).
Lemma resolve_refs_settles refs : settles (resolve_refs dimensions exp2 principal refs) (λ _, refs_inv refs).
Proof.
  unfold resolve_refs. apply (settles_fold _ _ _ _ refs_inv []).
  { split; [apply nothing_sound|]. by intros _ r Hr%not_elem_of_nil. }
  intros past st reference [Hs Ha]. unfold resolve_ref, exact_context_records.
  eapply (settles_bind _ _ _ _ _ (λ records, ∃ lookup t, exact_context_lookup reference = Ok lookup ∧ reach o t
    ∧ find_context_records principal false lookup (se_store t) = Ok (records, se_store t))).
  { eapply (settles_bind _ _ _ _ _ (λ lookup, exact_context_lookup reference = Ok lookup)); [by apply settles_of_answer|]. intros lookup Hl.
    apply settles_ask; [intros; apply reads_find|]. intros t a Ht Hrun. by exists lookup, t. }
  intros records (lookup & t & Hl & Ht & Hrun). destruct records as [|record [|? ?]].
  - apply settles_ret. intros _ _. split; [done|]. done.
  - apply settles_ret. intros _ _. split; cbn [rf_selected rf_unresolved]; [by apply select_as_sound|]. intros Hu r [Hr| ->%list_elem_of_singleton]%elem_of_app.
    + eapply answered_mono; [|by apply Ha]. intros x Hx. apply select_as_ids. by right.
    + exists lookup, t, record. split_and!; [done..|]. apply select_as_ids. by left.
  - apply settles_answer.
Qed.

(** The steps after the references only add to what they selected. *)
Definition grown (s s' : Selected) : Prop := sound s' ∧ ∀ x, x ∈ sl_ids s → x ∈ sl_ids s'.
Lemma grown_select r s s' : grown s s' → grown s (select r s').
Proof. intros [Hs Hsub]. split; [by apply select_as_sound|]. intros x Hx. apply select_as_ids. right. by apply Hsub. Qed.
Lemma resolve_values_settles s values : sound s →
  settles (tool_fold (resolve_value dimensions exp2 principal) (s, []) values) (λ _ st, grown s (fst st)).
Proof.
  intros Hs. apply (settles_fold _ _ _ _ (λ _ st, grown s (fst st)) []); [by split|]. intros past st value Hg.
  unfold resolve_value, find_by_key. eapply (settles_bind _ _ _ _ _ (λ _, True)); [by apply settles_ask; [intros; apply reads_find|]|].
  intros [|record [|? ?]] _; [by apply settles_ret|apply settles_ret; intros; by apply grown_select|apply settles_answer].
Qed.
Lemma resolve_hints_grown records s st values st' : grown s (fst st) → try_fold (resolve_hint records) st values = Ok st' → grown s (fst st').
Proof.
  apply (try_fold_inv (λ st, grown s (fst st))). intros st1 value st2 _ Hg. unfold resolve_hint.
  destruct (List.filter (hinted value) records) as [|record [|? ?]]; intros [= <-]; [done|by apply grown_select].
Qed.
Lemma match_contexts_settles envelope query :
  settles (match_contexts dimensions exp2 principal envelope query) (λ _ m, let '(selected, unresolved, _) := m in
    sound selected ∧ (unresolved = false → ∀ reference, reference ∈ ce_refs envelope → answered (sl_ids selected) reference)).
Proof.
  unfold match_contexts. eapply settles_bind; [apply resolve_refs_settles|]. intros refs [Hs Ha].
  eapply settles_bind; [apply (resolve_values_settles _ _ Hs)|]. intros values Hv.
  eapply (settles_bind _ _ _ _ _ (λ _, True)).
  { destruct (_ && _); [by apply settles_ret|by apply settles_records]. }
  intros records _. eapply (settles_bind _ _ _ _ _ (λ st, grown (rf_selected refs) (fst st))).
  { apply settles_of_answer. intros st _ Hrun _. eapply resolve_hints_grown; [|exact Hrun]. exact Hv. }
  intros st [Hst Hsub]. apply settles_ret. intros _ _. split; [done|]. intros Hu reference Hin.
  eapply answered_mono; [exact Hsub|by apply Ha].
Qed.
End matching.

(** ** Choosing and finishing *)

(** An answer that selects nothing: a broad search for a read that names
    nothing, a deferred resolution for a write that asks for it, and an open
    question for a query. *)
Definition selects_nothing (envelope : ContextEnvelope) (query : option string) (governed_write : bool)
    (selection : ResolvedContextSelection) : Prop :=
  let resolution := rcs_resolution selection in
  ce_refs envelope = [] ∧ rcs_direct_ids selection = [] ∧ rcs_effective_ids selection = [] ∧ cs_direct resolution = [] ∧ cs_effective resolution = []
  ∧ if cs_broad_search resolution
    then governed_write = false ∧ ce_hints envelope = [] ∧ query = None ∧ cs_unresolved resolution = false
    else cs_unresolved resolution = true ∧ if governed_write then ce_allow_unresolved envelope = true else query ≠ None.
(** A policy the effective contexts satisfy. *)
Definition policy_holds (governed_write : bool) (direct_kinds effective_kinds : gset ContextKind.t) (policy : EffectiveContextPolicy) : Prop :=
  ep_ambiguities policy = []
  ∧ (governed_write = true → ep_required policy = true → ep_kind policy ∈ direct_kinds)
  ∧ (ep_kind policy ∈ effective_kinds → ep_allowed policy = true
     ∧ ∀ companions, ep_allowed_companion_kinds policy = Some companions → ∀ kind, kind ∈ effective_kinds → kind = ep_kind policy ∨ kind ∈ companions).

Section finishing.
Context `{Render, UnicodeCase, Chrono, UrlLib, Sha256Lib} (dimensions : Z) (exp2 : f64 → f64).
Context (limit_rows : nat → gset ContextId → gset ContextId) (hash_order : gset ContextKind.t → list ContextKind.t).
Hypothesis Hhash : ∀ kinds, hash_order kinds ≡ₚ elements kinds.
#[local] Abbreviation reach := (reach dimensions exp2).
Context (o : Session) (Hwf : wf_registry (st_registry (se_store o))) (principal : string).
#[local] Abbreviation settles := (settles dimensions exp2 o).

Lemma is_nil_true {A} (l : list A) : is_nil l = true ↔ l = [].
Proof. by destruct l. Qed.
Lemma find_none {A} (f : A → bool) l : List.find f l = None → ∀ x, x ∈ l → f x = false.
Proof. intros Hf x Hx. by apply (List.find_none f l Hf), list_elem_of_In. Qed.

Lemma policy_defaults_settles policies candidates :
  settles (policy_defaults dimensions exp2 principal policies candidates) (λ _, sound).
Proof.
  unfold policy_defaults. eapply settles_bind; [apply (settles_fold _ _ _ _ (λ _ st, sound (fst st)) []); [apply nothing_sound|]|].
  - intros past st policy Hs. unfold apply_default. destruct (ep_allowed policy); cbn [negb]; [|by apply settles_ret].
    destruct (ep_default_context_id policy) as [id|]; [|by apply settles_ret].
    eapply (settles_bind _ _ _ _ _ (λ records, ∀ r, r ∈ records → cd_id (cxr_context r) = id)).
    { apply settles_ask; [intros; apply reads_find|]. intros t records Ht. rewrite find_run. intros [= <-] r (c & -> & Hc)%list_elem_of_fmap.
      apply lookup_rows_spec in Hc as (_ & _ & _ & Hm); [|by apply wr_ids, (reach_registry dimensions exp2 o)].
      cbn in *. by apply bool_decide_eq_true in Hm. }
    intros records Hr. apply settles_ret. intros _ _. destruct records as [|record [|? ?]]; [done| |done].
    destruct (_ && _); [|done]. cbn [fst]. apply select_as_sound; [apply Hr; left|done].
  - intros st Hs. destruct (is_nil _); [by apply settles_ret|apply settles_answer].
Qed.
Lemma choose_settles envelope query governed state candidates : ce_refs envelope = [] →
  settles (choose_without_match dimensions exp2 principal envelope query governed state candidates) (λ _ choice,
    match choice with
    | Finished selection => selects_nothing envelope query governed selection
    | Chosen selected => sound selected ∧ sl_ids selected ≠ []
    end).
Proof.
  intros Hrefs. unfold choose_without_match. destruct (existsb has_ambiguities _); [apply settles_answer|].
  destruct (governed && ce_allow_unresolved envelope && _) eqn:Hdefer.
  { apply andb_prop in Hdefer as [[-> Ha]%andb_prop _]. by apply settles_ret. }
  eapply (settles_bind _ _ _ _ _ sound).
  { destruct (governed && is_nil (ce_refs envelope) && _ && _); [apply policy_defaults_settles|apply settles_ret; intros; apply nothing_sound]. }
  intros selected Hs. destruct (is_nil (sl_ids selected)) eqn:Hnil; cbn [negb].
  2: { apply settles_ret. intros _ _. split; [done|]. intros He%is_nil_true. by rewrite Hnil in He. }
  destruct (is_some query && negb governed) eqn:Hq.
  { apply andb_prop in Hq as [Hq ->%negb_true_iff]. apply settles_ret. intros _ _. split_and!; try done. by destruct query. }
  destruct (_ || _) eqn:Hany; [apply settles_answer|]. apply settles_ret. intros _ _.
  apply orb_false_elim in Hany as [[-> _]%orb_false_elim Hh%negb_false_iff%is_nil_true]. split_and!; try done.
  destruct query; [by cbn in Hq|done].
Qed.

Lemma expand_settles ids flag : settles (expand_selection dimensions exp2 limit_rows "context" ids principal flag) (λ se l,
  expand_context_selection limit_rows (st_registry (se_store se)) ids principal flag = Some (Ok l)).
Proof.
  intros se Hse. unfold expand_selection, ask_engine. set (t := turn dimensions exp2 se).
  assert (Hrun := call_run dimensions exp2 _ (λ _, reads (λ s, expand_context_selection limit_rows (st_registry s) ids principal flag)) se _ eq_refl).
  rewrite (tool_step _ _ _ _ _ (run_engine_ok _ _ _ _ Hrun)). fold t.
  destruct (expand_context_selection limit_rows (st_registry (se_store t)) ids principal flag) as [[l|e]|] eqn:He.
  - exists (Ok l), t. split_and!; [done|apply reach_turn| |done]. by intros ? [= <-].
  - exists (Err (ToolFailure (context_expansion_error "context" e))), t. split_and!; [done|apply reach_turn|done|]. intros ? [= <-]. by eexists.
  - exfalso. unfold expand_context_selection in He. destruct (check_selected _ _ _); [|done].
    match type of He with expand_context_definitions ?l _ _ = _ => destruct (expand_context_definitions_total l ids flag) as [? Hx] end. congruence.
Qed.

Lemma check_policies_holds policies governed direct_kinds effective_kinds candidates :
  check_policies hash_order policies governed direct_kinds effective_kinds candidates = Ok () →
  ∀ policy, policy ∈ policies → policy_holds governed direct_kinds effective_kinds policy.
Proof.
  unfold check_policies, mbind, result_bind. intros Hc policy Hp.
  destruct (List.find has_ambiguities policies) eqn:H1'; [done|]. cbn in Hc.
  destruct (List.find _ policies) eqn:H2' in Hc; [done|]. cbn in Hc. destruct (List.find _ policies) eqn:H3' in Hc; [done|]. cbn in Hc.
  apply try_for_each_Ok in Hc. rewrite list.Forall_forall in Hc. pose proof (find_none _ _ H1' _ Hp) as Ha. pose proof (find_none _ _ H2' _ Hp) as Hb. pose proof (find_none _ _ H3' _ Hp) as Hd.
  cbn in Hb, Hd. split_and!.
  - unfold has_ambiguities in Ha. apply negb_false_iff, is_nil_true in Ha. done.
  - intros -> Hr. rewrite Hr in Hd. cbn in Hd. by apply negb_false_iff, bool_decide_eq_true in Hd.
  - intros Hk. rewrite (bool_decide_true _ Hk) in Hb. cbn in Hb. apply negb_false_iff in Hb. split; [done|]. intros companions Hcomp kind Hkind.
    assert (Hin : policy ∈ List.filter (λ policy, bool_decide (ep_kind policy ∈ effective_kinds)) policies)
      by (apply elem_of_List_filter; split; [done|by apply bool_decide_eq_true]).
    assert (Hone := Hc policy Hin). cbn in Hone. rewrite Hcomp in Hone. destruct (List.find _ (hash_order effective_kinds)) eqn:Hf; [done|].
    assert (Hko : kind ∈ hash_order effective_kinds) by (rewrite Hhash; by apply elem_of_elements).
    pose proof (find_none _ _ Hf _ Hko) as Hn. cbn in Hn. apply andb_false_iff in Hn as [Hn|Hn]; apply negb_false_iff, bool_decide_eq_true in Hn; auto.
Qed.

Lemma selected_contexts_ids selected : sound selected → map cd_id (selected_contexts selected) = sl_ids selected.
Proof.
  intros [_ Hs]. unfold selected_contexts. induction (sl_ids selected) as [|i ids IH]; [done|]. cbn.
  destruct (Hs i) as (r & Hr & Hi); [left|]. rewrite Hr. cbn. f_equal; [exact Hi|]. apply IH. intros x Hx. apply Hs. by right.
Qed.

(** What a selection of contexts says, in the session it is answered in. *)
Definition selects (envelope : ContextEnvelope) (governed_write : bool) (state : ContextPolicyState) (se : Session)
    (selection : ResolvedContextSelection) : Prop :=
  let resolution := rcs_resolution selection in
  cs_broad_search resolution = false ∧ cs_unresolved resolution = false
  ∧ map cdx_id (cs_direct resolution) = rcs_direct_ids selection
  ∧ ∃ flag effective, (ce_include_descendants envelope = true → flag = true)
    ∧ expand_context_selection limit_rows (st_registry (se_store se)) (rcs_direct_ids selection) principal flag = Some (Ok effective)
    ∧ rcs_effective_ids selection = map cd_id effective ∧ cs_effective resolution = map context_descriptor_from effective
    ∧ ∀ policy, policy ∈ policies_for state (map bare_record effective) (map cd_id effective) →
        policy_holds governed_write (list_to_set (map cdx_kind (cs_direct resolution))) (kinds_of effective) policy.
Lemma finish_settles envelope governed state candidates selected : sound selected →
  settles (finish_selection dimensions exp2 limit_rows hash_order principal envelope governed state candidates selected)
    (λ se selection, rcs_direct_ids selection = sl_ids selected ∧ selects envelope governed state se selection).
Proof.
  intros Hs. unfold finish_selection. set (kinds := kinds_of (selected_contexts selected)).
  assert (Hend : ∀ se effective flag, reach o se → (ce_include_descendants envelope = true → flag = true) →
    expand_context_selection limit_rows (st_registry (se_store se)) (sl_ids selected) principal flag = Some (Ok effective) →
    ∃ r, (_ ← of_answer (check_policies hash_order (policies_for state (map bare_record effective) (map cd_id effective)) governed kinds (kinds_of effective) candidates);
          mret {| rcs_resolution := {| cs_direct := map context_descriptor_from (selected_contexts selected);
              cs_effective := map context_descriptor_from effective; cs_candidates := candidates;
              cs_policy_guidance := policy_guidance_for (policies_for state (map bare_record effective) (map cd_id effective));
              cs_broad_search := false; cs_unresolved := false; cs_recommended_actions := [] |};
            rcs_direct_ids := sl_ids selected; rcs_effective_ids := map cd_id effective; rcs_created_legacy_context := None |}) se = Some (r, se)
      ∧ (∀ a, r = Ok a → rcs_direct_ids a = sl_ids selected ∧ selects envelope governed state se a) ∧ ∀ e, r = Err e → ∃ t, e = ToolFailure t).
  { intros se effective flag Hse Hflag He. destruct (check_policies _ _ _ _ _ _) as [[]|e] eqn:Hc.
    2: { eexists. split; [by apply tool_stop|]. split; [done|]. intros ? [= <-]. by eexists. }
    eexists. split; [reflexivity|]. split; [|done]. intros ? [= <-]. split; [done|]. unfold selects. cbn.
    split_and!; [done|done|by rewrite map_map, selected_contexts_ids|]. exists flag, effective. split_and!; try done.
    intros policy Hp. rewrite map_map. by apply (check_policies_holds _ _ _ _ _ Hc). }
  intros se Hse. destruct (expand_settles (sl_ids selected) false se Hse) as ([initial|e] & t & Hrun & Hreach & HQ & Herr).
  2: { exists (Err e), t. rewrite (tool_stop _ _ _ _ _ Hrun). split_and!; [done|done|done|]. intros ? [= <-]. by apply Herr. }
  rewrite (tool_step _ _ _ _ _ Hrun). assert (Ht : reach o t) by by etrans. destruct (ce_include_descendants envelope || _) eqn:Hinc.
  - destruct (expand_settles (sl_ids selected) true t Ht) as ([effective|e] & t' & Hrun' & Hreach' & HQ' & Herr').
    + rewrite (tool_step _ _ _ _ _ Hrun'). destruct (Hend t' effective true) as (r & Hr & Hok); [by etrans|done|by apply HQ'|].
      exists r, t'. split_and!; [exact Hr|by etrans|apply Hok..].
    + exists (Err e), t'. rewrite (tool_stop _ _ _ _ _ Hrun'). split_and!; [done|by etrans|done|]. intros ? [= <-]. by apply Herr'.
  - rewrite (tool_step _ _ t initial t) by done. destruct (Hend t initial false) as (r & Hr & Hok); [done| |by apply HQ|].
    + intros Hd. by rewrite Hd in Hinc.
    + exists r, t. split_and!; [exact Hr|done|apply Hok..].
Qed.
End finishing.

(** ** The contract *)

Section contract.
Context `{Render, UnicodeCase, Chrono, UrlLib, Sha256Lib} (dimensions : Z) (exp2 : f64 → f64).
#[local] Abbreviation turn := (turn dimensions exp2).
Context (limit_rows : nat → gset ContextId → gset ContextId) (hash_order : gset ContextKind.t → list ContextKind.t).
#[local] Abbreviation reach := (reach dimensions exp2).

Lemma call_ends {A} (m : DateTime → tx A) se : (∀ now, steps eq (m now)) → ∃ r, call dimensions exp2 m se = Some (r, turn se).
Proof.
  intros Hm. unfold call, try_call, mbind, engine_bind, with_conn. set (t := turn se).
  destruct (m (se_now t) (se_store t)) as [[a s]|e] eqn:Hr; cbn; eexists.
  - pose proof (Hm _ _ _ _ Hr) as <-. by destruct t.
  - by destruct t.
Qed.
Lemma policy_state_ends principal se : ∃ r se1, context_policy_state dimensions exp2 principal se = Some (r, se1) ∧ reach se se1.
Proof.
  unfold context_policy_state.
  assert (Hreach : reach se (turn se) ∧ reach se (turn (turn se)) ∧ reach se (turn (turn (turn se)))) by (split_and!; repeat (etrans; [|apply reach_turn]); reflexivity).
  destruct (call_ends (λ _, list_context_kinds) se) as [[kinds|e] Hk]; [intros; apply reads_kinds| |].
  2: { eexists _, (turn se). split; [|apply Hreach]. unfold mbind, engine_bind. by rewrite Hk. }
  rewrite (engine_step _ _ _ _ _ Hk).
  destruct (call_ends (λ _, list_context_kind_policies principal) (turn se)) as [[kps|e] Hp]; [intros; apply reads_kind_policies| |].
  2: { eexists _, (turn (turn se)). split; [|apply Hreach]. unfold mbind, engine_bind. by rewrite Hp. }
  rewrite (engine_step _ _ _ _ _ Hp).
  destruct (call_ends (λ _, list_context_anchor_policies principal) (turn (turn se))) as [[aps|e] Ha]; [intros; apply reads_anchor_policies| |].
  2: { eexists _, (turn (turn (turn se))). split; [|apply Hreach]. unfold mbind, engine_bind. by rewrite Ha. }
  rewrite (engine_step _ _ _ _ _ Ha). eexists _, _. split; [reflexivity|apply Hreach].
Qed.

(** What an answer of the resolution says, in the session it is given in. *)
Definition resolved (o : Session) (principal : string) (envelope : ContextEnvelope) (query : option string) (governed_write : bool)
    (state : ContextPolicyState) (se : Session) (selection : ResolvedContextSelection) : Prop :=
  let ids := rcs_direct_ids selection in
  if is_nil ids then selects_nothing envelope query governed_write selection
  else NoDup ids
       ∧ (∀ reference, reference ∈ ce_refs envelope → answered dimensions exp2 o principal ids reference)
       ∧ (∀ id, id ∈ ids → ∃ c, visible_contexts (st_registry (se_store se)) principal !! id = Some c ∧ is_active c = true)
       ∧ selects limit_rows principal envelope governed_write state se selection.

Lemma resolved_selects o principal envelope query governed state se selection selected :
  wf_registry (st_registry (se_store o)) → reach o se →
  sound selected → sl_ids selected ≠ [] → (∀ reference, reference ∈ ce_refs envelope → answered dimensions exp2 o principal (sl_ids selected) reference) →
  rcs_direct_ids selection = sl_ids selected → selects limit_rows principal envelope governed state se selection →
  resolved o principal envelope query governed state se selection.
Proof.
  intros Hwf Hreach Hs Hne Ha Hids Hsel. unfold resolved. rewrite Hids. destruct (is_nil (sl_ids selected)) eqn:Hn; [by apply is_nil_true in Hn|].
  split_and!; [apply Hs|done| |done]. destruct Hsel as (_ & _ & _ & flag & effective & _ & He & _). rewrite Hids in He.
  unfold expand_context_selection in He. assert (Hspec := check_selected_spec (st_registry (se_store se)) principal (sl_ids selected)).
  by destruct (check_selected _ _ _).
Qed.

Lemma selection_run principal envelope query governed_write se :
  (∀ kinds, hash_order kinds ≡ₚ elements kinds) → wf_registry (st_registry (se_store se)) →
  ∃ r se', resolve_context_selection dimensions exp2 limit_rows hash_order principal envelope query governed_write se = Some (r, se')
  ∧ reach se se'
  ∧ match r with
    | Err e => ∃ t, e = ToolFailure t
    | Ok selection => ∃ state se1, context_policy_state dimensions exp2 principal se = Some (Ok state, se1)
        ∧ resolved se principal (default envelope_default envelope) query governed_write state se' selection
    end.
Proof.
  intros Hhash Hwf. set (env := default envelope_default envelope).
  unfold resolve_context_selection. fold env.
  destruct (validate_limits env) as [[]|msg]; [|exists (Err (ToolFailure (envelope_error msg))), se; split_and!; [done|reflexivity|by eexists]].
  rewrite (tool_step _ _ se () se) by done.
  destruct (match query with Some q => _ | None => None end) as [e|]; [exists (Err (ToolFailure e)), se; split_and!; [done|reflexivity|by eexists]|].
  rewrite (tool_step _ _ se () se) by done.
  destruct (policy_state_ends principal se) as ([state|e] & se1 & Hstate & Hr1).
  2: { eexists (Err (ToolFailure _)), se1. split_and!; [|exact Hr1|by eexists]. apply tool_stop. unfold lift. by rewrite Hstate. }
  rewrite (tool_step _ _ se state se1) by (unfold lift; by rewrite Hstate).
  assert (Hsettles : settles dimensions exp2 se
    (matched ← match_contexts dimensions exp2 principal env query;
     let '(selected, unresolved_ref, candidates) := matched in
     if unresolved_ref : bool then
       answer (context_resolution_error_with_guidance (unselected_code candidates) "context.refs"
         "one or more explicit context references did not resolve uniquely" candidates (policy_guidance_for (policies_for state [] [])))
     else
       choice ← (if is_nil (sl_ids selected) then choose_without_match dimensions exp2 principal env query governed_write state candidates
                 else mret (Chosen selected));
       match choice with
       | Finished selection => mret selection
       | Chosen selected => finish_selection dimensions exp2 limit_rows hash_order principal env governed_write state candidates selected
       end) (λ se' selection, reach se se' → resolved se principal env query governed_write state se' selection)).
  { eapply settles_bind; [by apply match_contexts_settles|]. intros [[selected unresolved] candidates] [Hs Ha].
    destruct unresolved; [apply settles_answer|]. specialize (Ha eq_refl).
    eapply (settles_bind _ _ _ _ _ (λ choice, match choice with
      | Finished selection => selects_nothing env query governed_write selection
      | Chosen selected => sound selected ∧ sl_ids selected ≠ [] ∧ ∀ reference, reference ∈ ce_refs env → answered dimensions exp2 se principal (sl_ids selected) reference end)).
    { destruct (is_nil (sl_ids selected)) eqn:Hn.
      - apply is_nil_true in Hn. assert (Hrefs : ce_refs env = []).
        { destruct (ce_refs env) as [|r l]; [done|]. destruct (Ha r) as (? & ? & ? & _ & _ & _ & Hin); [left|]. rewrite Hn in Hin. by apply not_elem_of_nil in Hin. }
        eapply settles_mono; [by apply choose_settles|]. intros _ [selection|chosen]; [done|]. intros [? ?]. split_and!; [done..|].
        rewrite Hrefs. by intros r Hr%not_elem_of_nil.
      - apply settles_ret. intros _ _. split_and!; [done| |done]. intros He%is_nil_true. congruence. }
    intros [selection|chosen] Hc.
    - apply settles_ret. intros se' _ _. unfold resolved. assert (Hd : rcs_direct_ids selection = []) by apply Hc. by rewrite Hd.
    - destruct Hc as (Hsc & Hne & Hac). eapply settles_mono; [by apply finish_settles|]. intros se' selection [Hids Hsel] Hreach.
      by eapply resolved_selects. }
  destruct (is_none envelope && is_none query && negb governed_write) eqn:Homit.
  { apply andb_prop in Homit as [[He Hq]%andb_prop ->%negb_true_iff]. unfold env. destruct envelope; [done|]. destruct query; [done|].
    eexists (Ok _), se1. split_and!; [reflexivity|done|]. exists state, se1. split; [done|]. by unfold resolved. }
  destruct (Hsettles se1 Hr1) as (r & se' & Hrun & Hr2 & HQ & He). exists r, se'. assert (Hreach : reach se se') by by etrans.
  split_and!; [exact Hrun|done|]. destruct r as [selection|e]; [|by apply He]. exists state, se1. split; [done|]. by apply HQ.
Qed.

(** C11. Selecting contexts for a tool. Over well-formed context tables, and
    whatever the other sessions do meanwhile, the resolution ends, changes
    nothing, and refuses with a structured error or answers. An answer never
    broadens what was asked for: it selects nothing only for a read that names
    nothing (a broad search), for a governed write that asks to be deferred,
    or for a query still open, and never when there is a reference. Otherwise
    the selected contexts are distinct, each reference was answered by exactly
    one of them, and at the moment of the answer each of them is visible to
    the principal and active; the effective contexts are the expansion of the
    selection at that moment, with descendants if they were asked for; and
    every policy read at the start holds of them: none is ambiguous, the kinds
    among them are allowed and admit each other, and a governed write selects
    every required kind. *)
Theorem context_selection_contract principal envelope query governed_write se :
  (∀ kinds, hash_order kinds ≡ₚ elements kinds) → wf_registry (st_registry (se_store se)) →
  ∃ r se', resolve_context_selection dimensions exp2 limit_rows hash_order principal envelope query governed_write se = Some (r, se')
  ∧ reach se se'
  ∧ match r with
    | Err e => ∃ t, e = ToolFailure t
    | Ok selection => ∃ state se1, context_policy_state dimensions exp2 principal se = Some (Ok state, se1)
        ∧ resolved se principal (default envelope_default envelope) query governed_write state se' selection
    end.
Proof. apply selection_run. Qed.
End contract.

(** ** A concrete selection *)

#[local] Existing Instances plain_render AsciiCase plain_chrono plain_url plain_digest.

Definition tree_session : Session := mkSession (run_contexts new_store tree_ops) 10 [].
Definition select_below : ContextEnvelope :=
  {| ce_refs := [{| cr_id := Some 4%N; cr_kind := None; cr_key := None; cr_identity := None |}]; ce_hints := [];
     ce_include_descendants := false; ce_allow_unresolved := false |}.
Definition kind_order (kinds : gset ContextKind.t) : list ContextKind.t := elements kinds.
Definition resolved_below := resolve_context_selection 1 (λ x, x) first_rows kind_order "ann" (Some select_below) None true tree_session.

Lemma context_selection_contract_witness :
  match resolved_below with
  | Some (Ok selection, se') => rcs_direct_ids selection = [4%N] ∧ reach 1 (λ x, x) tree_session se'
      ∧ ∃ state se1, context_policy_state 1 (λ x, x) "ann" tree_session = Some (Ok state, se1)
        ∧ resolved 1 (λ x, x) first_rows tree_session "ann" select_below None true state se' selection
  | _ => False
  end.
Proof.
  destruct (context_selection_contract 1 (λ x, x) first_rows kind_order "ann" (Some select_below) None true tree_session) as (r & se' & Hrun & Hreach & Hr).
  - intros kinds. reflexivity.
  - apply run_contexts_registry, new_store_wf.
  - assert (Hids : match resolved_below with Some (Ok selection, _) => rcs_direct_ids selection = [4%N] | _ => False end) by (vm_compute; reflexivity).
    unfold resolved_below in *. rewrite Hrun in Hids. rewrite Hrun. destruct r as [selection|e]; [|destruct Hids]. split; [exact Hids|]. split; [exact Hreach|exact Hr].
Defined.

(** The candidates are ordered by score before the neighbours with one
    context are merged, so a context that is similar to two hints with
    different scores, and another one between them, is named twice. *)
Definition three_hints : ContextEnvelope :=
  {| ce_refs := []; ce_hints := ["below a"; "a rightz"; "belows"]; ce_include_descendants := false; ce_allow_unresolved := false |}.
Lemma candidate_named_twice :
  match match_contexts 1 (λ x, x) "ann" three_hints None tree_session with
  | Some (Ok (_, candidates), _) => map (λ c, cdx_id (cc_context c)) candidates = [4%N; 3%N; 4%N]
  | _ => False
  end.
Proof. vm_compute. reflexivity. Qed.
