(* ===== verification/ServerCreate.v ===== *)
(** * ServerCreate: the duplicates [context_create] asks about

    The tool computes the similar contexts the caller must confirm, and the
    store computes them again when it creates the context. The two
    computations are written separately; they agree. *)
From Stdlib Require Import ZArith Lia.
From stdpp Require Import base list option strings gmap sets pretty.
From S2P Require Import Integrity Governance Hierarchy Systems Prelude Text Floats Lists Errors Types Validation Context StoreTypes Ranking Store Membership Crud ContextAdmin Admin Revisions Operations Search Authorization Accounting Config ContextSelect Selection ContextReads ServerTypes Engine Server ServerContexts ServerSelection.

(** ** Scores *)

Section scores.
Context `{UnicodeCase}.

Lemma fltb_nan_r a b : fltb a b = true → is_nan b = false.
Proof. destruct b; try done. by destruct a. Qed.
Lemma fmax_keeps a b : is_nan a = false → fmax a b = if fltb a b then b else a.
Proof.
  intros Ha. unfold fmax. rewrite Ha. destruct (is_nan b) eqn:Hb; [|done].
  destruct (fltb a b) eqn:E; [|done]. apply fltb_nan_r in E. congruence.
Qed.
Lemma best_score (score : string → f64) (l : list (string * string)) best matched :
  is_nan best = false →
  fst (fold_left (λ '(best, matched_by) '(surface, value),
    let s := score value in
    if fltb best s then (s, [surface])
    else if fltb (SFabs (fsub s best)) f_epsilon && fltb f0 s then (best, matched_by ++ [surface])
    else (best, matched_by)) l (best, matched)) = foldl fmax best (map score (map snd l)).
Proof.
  revert best matched. induction l as [|[surface value] l IH]; intros best matched Hb; [done|]. cbn [fold_left map foldl snd].
  rewrite (fmax_keeps best (score value) Hb). cbn zeta. destruct (fltb best (score value)) eqn:E; [by apply IH, (fltb_nan_r best)|].
  destruct (_ && _); by apply IH.
Qed.
Lemma record_similarity_score record query :
  fst (record_similarity record (normalized_tokens query) (trigrams query))
  = similarity_score (similarity_query_new query) (cd_key (cxr_context record)) (cd_display_name (cxr_context record)) (cxr_aliases record).
Proof.
  unfold record_similarity. rewrite (best_score (context_text_similarity (normalized_tokens query) (trigrams query))) by done.
  assert (Hal : map snd (map (pair "alias") (cxr_aliases record)) = cxr_aliases record)
    by (induction (cxr_aliases record) as [|a l IH]; [done|]; cbn; by rewrite IH).
  unfold similarity_score, surfaces_of. cbn [map snd]. by rewrite Hal.
Qed.
End scores.

(** ** Lists *)

Lemma dedup_by_id_distinct {A} (l : list (ContextId * A)) : NoDup (map fst l) → dedup_by_id l = l.
Proof.
  induction l as [|x l IH]; intros Hnd; [done|]. cbn. apply NoDup_cons in Hnd as [Hx Hnd]. rewrite IH by done.
  destruct l as [|y l]; [done|]. rewrite bool_decide_false; [done|]. intros Heq. apply Hx. cbn. rewrite Heq. left.
Qed.
Lemma distinct_by_id {A} (l : list (ContextId * A)) x y : NoDup (map fst l) → x ∈ l → y ∈ l → fst x = fst y → x = y.
Proof.
  intros Hnd Hx Hy Heq. destruct x as [i a], y as [j b]. cbn in Heq. subst j. f_equal.
  apply (elem_of_list_to_map_1 (M := gmap ContextId)) in Hx; [|done]. apply (elem_of_list_to_map_1 (M := gmap ContextId)) in Hy; [|done]. congruence.
Qed.

(** ** The candidates *)

(** All the records the principal may use, as the tool lists them. *)
Definition all_rows `{UnicodeCase} (reg : ContextRegistry) (principal : string) : list ContextDefinition :=
  sort_by cmp_context_row (selected_rows reg principal false (λ _ _, true)).
Definition all_records `{UnicodeCase} (reg : ContextRegistry) (principal : string) : list ContextRecord := map (record_of reg) (all_rows reg principal).

Section agree.
Context `{Render, UnicodeCase} (reg : ContextRegistry).
Hypothesis Hids : ∀ i c, reg_contexts reg !! i = Some c → cd_id c = i.
Context (d : ContextCreateDraft).
#[local] Abbreviation principal := (ccd_owner_principal d).

Definition draft_query : string := ccd_key d +:+ " " +:+ ccd_display_name d.
Definition similar (c : ContextDefinition) : f64 :=
  similarity_score (similarity_query_new draft_query) (cd_key c) (cd_display_name c) (aliases_of reg (cd_id c)).
(** The id, key and score of a similar context of the kind. *)
Definition similar_row (row : ContextId * ContextDefinition) : option (ContextId * (string * f64)) :=
  if same_kind (ccd_kind d) (snd row) && is_active (snd row) && context_visible reg (fst row) (snd row) principal
     && fleb f_0_72 (similar (snd row))
  then Some (fst row, (cd_key (snd row), similar (snd row))) else None.
Definition candidate_row (c : ContextCandidate) : ContextId * (string * f64) := (cdx_id (cc_context c), (cdx_key (cc_context c), cc_score c)).
Definition candidate_of (record : ContextRecord) : option ContextCandidate :=
  let '(score, matched_by) := record_similarity record (normalized_tokens draft_query) (trigrams draft_query) in
  if fleb f_0_72 score
  then Some {| cc_context := context_descriptor_from (cxr_context record); cc_score := score; cc_matched_by := matched_by |} else None.
Definition of_kind (record : ContextRecord) : bool := bool_decide (cd_kind (cxr_context record) = ccd_kind d).
Lemma candidate_of_row c : candidate_row <$> candidate_of (record_of reg c)
  = if fleb f_0_72 (similar c) then Some (cd_id c, (cd_key c, similar c)) else None.
Proof.
  unfold candidate_of. pose proof (record_similarity_score (record_of reg c) draft_query) as Hs.
  destruct (record_similarity _ _ _) as [score matched]. cbn [fst] in Hs. subst score. unfold similar. cbn. by destruct (fleb _ _).
Qed.
Lemma tool_candidates (usable : ContextId * ContextDefinition → bool) (l : list (ContextId * ContextDefinition)) :
  (∀ i c, usable (i, c) = context_visible reg i c principal && is_active c) → (∀ i c, (i, c) ∈ l → cd_id c = i) →
  map candidate_row (omap candidate_of (List.filter of_kind (map (record_of reg) (map snd (List.filter usable l))))) = omap similar_row l.
Proof.
  intros Hu. induction l as [|[i c] l IH]; intros Hl; [done|]. specialize (IH (λ i c Hi, Hl i c (list_elem_of_further _ _ _ Hi))).
  pose proof (Hl i c (list_elem_of_here _ _)) as Hi. cbn [List.filter omap list_omap]. rewrite Hu. unfold similar_row at 1. cbn [fst snd].
  destruct (context_visible reg i c principal); cbn [andb]; [|by rewrite andb_false_r].
  destruct (is_active c); cbn [andb]; [|by rewrite andb_false_r].
  cbn [map List.filter snd]. assert (of_kind (record_of reg c) = same_kind (ccd_kind d) c) as -> by done.
  destruct (same_kind (ccd_kind d) c); cbn [andb]; [|exact IH]. cbn [omap list_omap].
  pose proof (candidate_of_row c) as Hc. destruct (candidate_of (record_of reg c)), (fleb f_0_72 (similar c)); cbn in Hc; simplify_eq; [|exact IH].
  cbn [map]. rewrite IH. f_equal. exact Hc.
Qed.
Lemma store_candidates (l : list (ContextId * ContextDefinition)) : (∀ i c, (i, c) ∈ l → cd_id c = i) →
  (∀ i c, (i, c) ∈ l → same_kind (ccd_kind d) c = true → is_active c = true → context_visible reg i c principal = true →
     String.eqb (normalize_context_key (cd_key c)) (ccd_normalized_key d) = false) →
  omap (λ '(id, key, display_name, aliases),
    let is_exact := String.eqb (normalize_context_key key) (ccd_normalized_key d) in
    let score := similarity_score (similarity_query_new (ccd_key d +:+ " " +:+ ccd_display_name d)) key display_name aliases in
    if negb is_exact && fleb f_0_72 score then Some (id, (key, score)) else None)
    (omap (λ '(id, c), if same_kind (ccd_kind d) c && bool_decide (cd_lifecycle c = ContextLifecycle.Active) && context_visible reg id c principal
       then Some (id, cd_key c, cd_display_name c, aliases_of reg id) else None) l)
  = omap similar_row l.
Proof.
  induction l as [|[i c] l IH]; intros Hl Hex; [done|].
  specialize (IH (λ i c Hi, Hl i c (list_elem_of_further _ _ _ Hi)) (λ i c Hi, Hex i c (list_elem_of_further _ _ _ Hi))).
  cbn [omap list_omap]. unfold similar_row at 1. cbn [fst snd]. pose proof (Hl i c (list_elem_of_here _ _)) as Hi.
  specialize (Hex i c (list_elem_of_here _ _)). change (bool_decide (cd_lifecycle c = ContextLifecycle.Active)) with (is_active c).
  destruct (same_kind (ccd_kind d) c); cbn [andb]; [|exact IH]. destruct (is_active c); cbn [andb]; [|exact IH].
  destruct (context_visible reg i c principal); cbn [andb]; [|exact IH]. cbn [omap list_omap]. rewrite (Hex eq_refl eq_refl eq_refl). cbn [negb andb].
  cbv beta zeta in IH. unfold similar, draft_query. rewrite Hi. destruct (fleb _ _); [|exact IH]. f_equal. exact IH.
Qed.

Definition cmp_row : ContextId * (string * f64) → ContextId * (string * f64) → comparison :=
  then_with (cmp_desc (cmp_on (λ x, snd (snd x)) total_cmp))
    (then_with (cmp_on (λ x, fst (snd x)) String.compare) (cmp_on fst N.compare)).
Lemma cmp_row_id x y : cmp_row x y = Eq → fst x = fst y.
Proof. unfold cmp_row, then_with, cmp_desc, cmp_on. repeat case_match; try done. by intros ?%N.compare_eq. Qed.
Lemma similar_ids (l : list (ContextId * ContextDefinition)) : NoDup (map fst l) → NoDup (map fst (omap similar_row l)).
Proof. apply NoDup_omap_fst. intros p b. unfold similar_row. destruct (_ && _); [|done]. by intros [= <-]. Qed.

(** The store's candidates. *)
Definition similar_contexts : list ContextId :=
  map fst (truncate MAX_CONTEXT_CONFIRMATIONS (sort_by cmp_row (omap similar_row (map_to_list (reg_contexts reg))))).
Lemma tool_asks : candidate_ids (fuzzy_context_candidates (all_records reg principal) draft_query (Some (ccd_kind d))) = sorted_ids similar_contexts.
Proof.
  unfold candidate_ids, similar_contexts. f_equal.
  change (λ c, cdx_id (cc_context c)) with (λ c, fst (candidate_row c)). rewrite <-(map_map candidate_row fst). f_equal.
  unfold fuzzy_context_candidates. rewrite map_truncate. f_equal. rewrite (sort_by_map candidate_row cmp_row).
  set (l := map_to_list (reg_contexts reg)). assert (Hperm : map candidate_row (omap candidate_of (List.filter of_kind (all_records reg principal))) ≡ₚ omap similar_row l).
  { unfold all_records, all_rows. rewrite sort_by_perm. apply reflexive_eq, tool_candidates.
    - intros i c. cbn. by rewrite !andb_true_r.
    - intros i c Hin%elem_of_map_to_list. by apply Hids. }
  apply sort_by_proper; [apply _|exact Hperm|]. intros x y Hx Hy Heq. rewrite Hperm in Hx, Hy.
  apply (distinct_by_id (omap similar_row l)); [|done..|by apply cmp_row_id]. apply similar_ids, NoDup_fst_map_to_list.
Qed.
Lemma store_asks : (∀ i c, reg_contexts reg !! i = Some c → same_kind (ccd_kind d) c = true → is_active c = true →
    context_visible reg i c principal = true → String.eqb (normalize_context_key (cd_key c)) (ccd_normalized_key d) = false) →
  fuzzy_candidates d (existing_contexts reg d) = similar_contexts.
Proof.
  intros Hex. unfold fuzzy_candidates, existing_contexts, similar_contexts. cbv beta zeta.
  pose proof (store_candidates (map_to_list (reg_contexts reg))) as Hs. cbv beta zeta in Hs. rewrite Hs; clear Hs.
  - rewrite dedup_by_id_distinct; [done|]. rewrite sort_by_perm. apply similar_ids, NoDup_fst_map_to_list.
  - intros i c Hin%elem_of_map_to_list. by apply Hids.
  - intros i c Hin%elem_of_map_to_list. by apply Hex.
Qed.
End agree.

(** ** In a session *)

Section session.
Context `{Render, UnicodeCase, Chrono} (dimensions : Z) (exp2 : f64 → f64).

Lemma all_records_page reg principal k :
  map (record_of reg) (drop k (all_rows reg principal)) = drop k (all_records reg principal).
Proof. unfold all_records. symmetry. apply skipn_map. Qed.
Lemma quiet_records_page principal k se :
  (∀ i c, reg_contexts (st_registry (se_store se)) !! i = Some c → cd_id c = i) → se_schedule se = [] → Z.of_nat k ≤ i64_max →
  call dimensions exp2 (λ _, list_context_records principal false (Z.of_nat k) 500) se
  = Some (Ok (truncate 500 (drop k (all_records (st_registry (se_store se)) principal))), se).
Proof.
  intros Hids Hq Hk. unfold call, try_call, mbind, engine_bind, with_conn. rewrite (quiet_turn _ _ _ Hq).
  assert (Hrun : list_context_records principal false (Z.of_nat k) 500 (se_store se)
    = Ok (truncate 500 (drop k (all_records (st_registry (se_store se)) principal)), se_store se)); [|rewrite Hrun; by destruct se].
  set (reg := st_registry (se_store se)). set (rows := truncate 500 (drop k (all_rows reg principal))).
  assert (Hlist : list_contexts principal false (Z.of_nat k) 500 (se_store se) = Ok (rows, se_store se)).
  { unfold list_contexts, mbind, tx_bind, of_result, sqlite_usize, i64_try_from. cbn.
    apply Z.leb_le in Hk. rewrite Hk. cbn. unfold reads, ContextReads.page. by rewrite Nat2Z.id. }
  unfold list_context_records, mbind, tx_bind. rewrite Hlist.
  rewrite records_batch_is_single.
  - unfold fetch_sqlite_context_record. rewrite (tx_map_reads (λ c s, record_of (st_registry s) c)). unfold rows.
    by rewrite map_truncate, all_records_page.
  - unfold rows. rewrite map_truncate. apply NoDup_truncate. rewrite <-skipn_map.
    assert (Hnd : NoDup (map cd_id (all_rows reg principal))) by (unfold all_rows; rewrite (sort_by_perm cmp_context_row); by apply selected_rows_ids).
    rewrite <-(take_drop k (map cd_id _)) in Hnd. by apply NoDup_app in Hnd as (_ & _ & Hnd).
Qed.
Lemma quiet_record_pages principal fuel k se :
  (∀ i c, reg_contexts (st_registry (se_store se)) !! i = Some c → cd_id c = i) → se_schedule se = [] →
  let records := all_records (st_registry (se_store se)) principal in
  len records ≤ i64_max → (k ≤ length records)%nat → (length records - k < fuel)%nat →
  record_pages dimensions exp2 fuel principal (take k records) se = Some (Ok (Some records), se).
Proof.
  intros Hids Hq records Hmax. revert k. induction fuel as [|fuel IH]; intros k Hk Hf; [lia|]. cbn [record_pages].
  assert (Hlen : len (take k records) = Z.of_nat k) by (unfold len; rewrite length_take; lia). rewrite Hlen.
  rewrite (engine_step _ _ se (truncate 500 (drop k records)) se) by (apply quiet_records_page; [done..|unfold len in *; lia]).
  cbn zeta. assert (Hnext : take k records ++ truncate 500 (drop k records) = take (k + 500) records)
    by (unfold truncate; apply take_take_drop).
  rewrite Hnext. destruct (_ <? 500) eqn:E.
  - apply Z.ltb_lt in E. unfold len, truncate in E. rewrite length_take, length_drop in E. rewrite take_ge; [done|]. unfold len in *. lia.
  - apply Z.ltb_ge in E. unfold len, truncate in E. rewrite length_take, length_drop in E. apply IH; unfold len in *; lia.
Qed.
(** Undisturbed, the tool lists every context the principal may use. *)
Lemma quiet_records principal se :
  (∀ i c, reg_contexts (st_registry (se_store se)) !! i = Some c → cd_id c = i) → se_schedule se = [] →
  Z.of_nat (size (reg_contexts (st_registry (se_store se)))) ≤ i64_max →
  authorized_context_records dimensions exp2 principal se = Some (Ok (all_records (st_registry (se_store se)) principal), se).
Proof.
  intros Hids Hq Hmax. unfold authorized_context_records. set (records := all_records _ principal).
  assert (Hlen : (length records ≤ size (reg_contexts (st_registry (se_store se))))%nat).
  { unfold records, all_records, all_rows. rewrite length_map, sort_by_length. apply selected_rows_size. }
  rewrite (engine_step _ _ se (Some records) se); [done|].
  apply (quiet_record_pages principal _ 0 se Hids Hq); fold records; unfold len; [lia..|].
  unfold final_contexts. rewrite Hq. cbn. lia.
Qed.

(** The duplicates [context_create] asks about are the ones the store
    checks. In an undisturbed session over well-formed context tables the tool
    lists its records in a finite number of pages; when none of them is exact
    for the new context, the candidates the tool computes from the records are
    the candidates [create_context] computes from its rows in the same
    transaction as the insertion, though the two score, order and cut them
    separately. So a confirmation set is accepted by the store exactly when it
    is the set of candidates the tool has shown: the refusal "candidates
    changed" is never an answer to an undisturbed caller who confirmed them. *)
Theorem create_candidates_agree (d : ContextCreateDraft) identity se :
  let reg := st_registry (se_store se) in
  (∀ i c, reg_contexts reg !! i = Some c → cd_id c = i) → se_schedule se = [] → Z.of_nat (size (reg_contexts reg)) ≤ i64_max →
  ∃ records, authorized_context_records dimensions exp2 (ccd_owner_principal d) se = Some (Ok records, se)
  ∧ (List.filter (is_late_exact (ccd_kind d) (ccd_normalized_key d) identity) records = [] →
     let candidates := candidate_ids (fuzzy_context_candidates records (ccd_key d +:+ " " +:+ ccd_display_name d) (Some (ccd_kind d))) in
     candidates = sorted_ids (fuzzy_candidates d (existing_contexts reg d))
     ∧ (ccd_enforce_fuzzy_confirmation d = true →
        (validate_fuzzy_confirmation d (existing_contexts reg d) = Ok ()
         ↔ candidates = dedup_adjacent (sorted_ids (ccd_confirm_distinct_from d))))).
Proof.
  intros reg Hids Hq Hmax. exists (all_records reg (ccd_owner_principal d)). split; [by apply quiet_records|].
  intros Hnone. cbn zeta. pose proof (tool_asks reg Hids d) as Ht. unfold draft_query in Ht. rewrite Ht.
  rewrite <-store_asks; [|done|].
  - split; [done|]. intros He. unfold validate_fuzzy_confirmation. rewrite He. unfold bail_if, sorted_ids. cbn [negb].
    case_bool_decide as Heq; cbn; [by split|]. split; [done|]. intros ?. by destruct Heq.
  - intros i c Hc Hkind Hactive Hvisible. destruct (String.eqb _ _) eqn:E; [|done]. exfalso.
    assert (Hin : record_of reg c ∈ List.filter (is_late_exact (ccd_kind d) (ccd_normalized_key d) identity) (all_records reg (ccd_owner_principal d))).
    { apply elem_of_List_filter. split.
      - apply list_elem_of_fmap_2. unfold all_rows. apply elem_of_sort_by, elem_of_selected_rows; [done|].
        by rewrite (Hids i c Hc).
      - unfold is_late_exact. cbn. unfold same_kind in Hkind. by rewrite Hkind, E. }
    rewrite Hnone in Hin. by apply not_elem_of_nil in Hin.
Qed.
End session.

(** ** A concrete draft *)

#[local] Existing Instances plain_render AsciiCase plain_chrono plain_url plain_digest.

(** The second context named [below]. *)
Definition twin_draft (confirmed : list ContextId) : ContextCreateDraft :=
  let d := child_draft 9 "below a" None in
  {| ccd_id := 9; ccd_kind := ccd_kind d; ccd_key := "below a"; ccd_normalized_key := normalize_context_key "below a";
     ccd_display_name := "a below"; ccd_description := None; ccd_owner_principal := "ann"; ccd_guidance := None;
     ccd_parent_id := None; ccd_aliases := []; ccd_identities := []; ccd_resolver_hints := [];
     ccd_confirm_distinct_from := confirmed; ccd_enforce_fuzzy_confirmation := true; ccd_frozen := false |}.

Lemma create_candidates_agree_witness :
  ∃ records, authorized_context_records 1 (λ x, x) "ann" tree_session = Some (Ok records, tree_session)
  ∧ candidate_ids (fuzzy_context_candidates records "below a a below" (Some project)) = [4%N]
  ∧ validate_fuzzy_confirmation (twin_draft [4%N]) (existing_contexts tree (twin_draft [4%N])) = Ok ().
Proof.
  destruct (create_candidates_agree 1 (λ x, x) (twin_draft [4%N]) None tree_session) as (records & Hrun & Hagree).
  - apply wr_ids, run_contexts_registry, new_store_wf.
  - reflexivity.
  - apply Z.leb_le. vm_compute. reflexivity.
  - assert (Hlist : match authorized_context_records 1 (λ x, x) "ann" tree_session with
                    | Some (Ok l, _) => List.filter (is_late_exact project (ccd_normalized_key (twin_draft [])) None) l = []
                    | _ => False end) by (vm_compute; reflexivity).
    cbn [ccd_owner_principal twin_draft] in Hrun. rewrite Hrun in Hlist. destruct (Hagree Hlist) as [Hids Hstore].
    exists records. split; [exact Hrun|]. cbn [ccd_key ccd_display_name ccd_kind twin_draft] in Hids, Hstore.
    assert (Hfour : sorted_ids (fuzzy_candidates (twin_draft [4%N]) (existing_contexts tree (twin_draft [4%N]))) = [4%N]) by (vm_compute; reflexivity).
    split; [exact (eq_trans Hids Hfour)|]. apply (Hstore eq_refl). exact (eq_trans Hids Hfour).
Defined.
