(* ===== verification/ServerScopes.v ===== *)
(** * ServerScopes: legacy scopes in [src/src/server/mod.rs]

    A legacy scope is a key, an alias, a text containing a registered matcher,
    or a list of hints. [resolve_scope] finds the scope it stands for,
    [resolve_legacy_context_selection] the governed context behind it, which a
    write creates when there is none. With them the hierarchy of scope keys,
    the filters of the admin tools and the tools of the scope registry. *)
From Stdlib Require Import ZArith Lia.
From stdpp Require Import base list option strings gmap sets pretty.
From S2P Require Import Integrity Governance Hierarchy Systems Prelude Text Floats Lists Errors Types Validation Context StoreTypes Ranking Store Membership Crud ContextAdmin Admin LegacyScopes Revisions Operations Search Authorization Accounting Config ContextSelect Selection ContextReads ServerTypes Engine Server ServerContexts.

(** ** Scope keys *)

(** [&s[..s.rfind('/')?]]. *)
Fixpoint before_last_slash (l : list Ascii.ascii) : option (list Ascii.ascii) :=
  match l with
  | [] => None
  | a :: l' =>
      match before_last_slash l' with
      | Some p => Some (a :: p)
      | None => if Ascii.eqb a slash then Some [] else None
      end
  end.
Fixpoint scope_ancestors (fuel : nat) (s : list Ascii.ascii) : list string :=
  match fuel with
  | O => []
  | S fuel =>
      match before_last_slash s with
      | None => []
      | Some s => match s with [] => [] | _ => [of_bytes s] end ++ scope_ancestors fuel s
      end
  end.
(** Each round shortens the key. *)
Definition expand_scope_hierarchy (scope : string) : list string :=
  if str_is_empty scope then [] else scope :: scope_ancestors (length (bytes scope)) (bytes scope).

Definition MAX_LEGACY_SCOPE_DEPTH : Z := 32.
Definition MAX_EXPANDED_LEGACY_SCOPES : Z := 256.
Definition scope_depth_error : ValidationError :=
  validation_error_new "scope" ("legacy scope hierarchy depth must be at most " +:+ pretty MAX_LEGACY_SCOPE_DEPTH).
Definition scope_expansion_error : ValidationError :=
  validation_error_new "scope"
    ("expanded legacy scope selection must contain at most " +:+ pretty MAX_EXPANDED_LEGACY_SCOPES +:+ " unique values").
Definition add_scope (st : gset string * list string) (ancestor : string) : validated (gset string * list string) :=
  let '(seen, expanded) := st in
  if bool_decide (ancestor ∈ seen) then Ok st
  else if MAX_EXPANDED_LEGACY_SCOPES <=? len expanded then Err scope_expansion_error
  else Ok ({[ancestor]} ∪ seen, expanded ++ [ancestor]).
Definition add_scope_key (st : gset string * list string) (key : string) : validated (gset string * list string) :=
  _ ← bail_if (MAX_LEGACY_SCOPE_DEPTH <? len (split_on slash key)) scope_depth_error;
  try_fold add_scope st (expand_scope_hierarchy key).
Definition expand_scope_keys (scope_keys : list string) : validated (list string) :=
  st ← try_fold add_scope_key (∅, []) scope_keys;
  Ok (snd st).

Definition with_scopes_any (scopes : option (list string)) (f : MemoryFilter) : MemoryFilter :=
  {| mf_context_ids := mf_context_ids f; mf_legacy_context_ids_any := mf_legacy_context_ids_any f;
     mf_explicit_context_filter := mf_explicit_context_filter f; mf_tags := mf_tags f; mf_agent_label := mf_agent_label f;
     mf_scope := mf_scope f; mf_origin_scope := mf_origin_scope f; mf_scopes_any := scopes;
     mf_time_range := mf_time_range f; mf_text_search := mf_text_search f; mf_has_embedding := mf_has_embedding f;
     mf_limit := mf_limit f; mf_memory_type := mf_memory_type f; mf_include_superseded := mf_include_superseded f;
     mf_entity := mf_entity f; mf_entities_any := mf_entities_any f; mf_entity_type := mf_entity_type f |}.
Definition maybe_expand_scope_hierarchy (filter : MemoryFilter) (expand : bool) : validated MemoryFilter :=
  match expand, mf_scopes_any filter with
  | true, Some scope_keys =>
      expanded ← expand_scope_keys scope_keys;
      Ok (if len expanded =? len scope_keys then filter else with_scopes_any (Some expanded) filter)
  | _, _ => Ok filter
  end.

Definition normalize_bounded_legacy_values (field : string) (values : option (list string)) (max_entries : Z) : validated (list string) :=
  values ← normalize_optional_string_array field values;
  let values := default [] values in
  _ ← bail_if (max_entries <? len values) (validation_error_new field ("accepts at most " +:+ pretty max_entries +:+ " entries"));
  _ ← bail_if (existsb (λ v, MAX_CONTEXT_SURFACE_LEN <? byte_len v) values)
        (validation_error_new field ("each value accepts at most " +:+ pretty MAX_CONTEXT_SURFACE_LEN +:+ " bytes"));
  Ok values.
Definition normalize_legacy_scope_values (field : string) (values : option (list string)) : validated (list string) :=
  values ← normalize_bounded_legacy_values field values MAX_CONTEXT_REFS;
  _ ← try_for_each (λ v, validated_by field (validate_legacy_scope_key v)) values;
  Ok values.
Definition normalize_legacy_context_hints (values : list string) : validated (list string) :=
  normalize_bounded_legacy_values "context_hints" (Some values) MAX_CONTEXT_HINTS.
Definition normalize_text_search (text_search : option string) : validated (option string) :=
  _ ← validate_optional_non_empty "text_search" text_search;
  Ok text_search.

(** ** Resolving a scope *)

Module ScopeResolvedBy.
Inductive t := Explicit | Alias | Matcher | Unresolved.
#[global] Instance eq_dec : EqDecision t.
Proof. solve_decision. Defined.
End ScopeResolvedBy.
Record ScopeResolution := {
  sn_scope : string;
  sn_unresolved_scope : bool;
  sn_resolved_by : ScopeResolvedBy.t;
  sn_matched_hint : option string;
  sn_matched_value : option string;
}.
Definition scope_resolved (scope : string) (by_ : ScopeResolvedBy.t) (hint value : option string) : ScopeResolution :=
  {| sn_scope := scope; sn_unresolved_scope := false; sn_resolved_by := by_; sn_matched_hint := hint; sn_matched_value := value |}.
Definition scope_unresolved (hint : option string) : ScopeResolution :=
  {| sn_scope := UNRESOLVED_CONTEXT_KEY; sn_unresolved_scope := true; sn_resolved_by := ScopeResolvedBy.Unresolved;
     sn_matched_hint := hint; sn_matched_value := None |}.
(** [iter().find_map(f)]. *)
Definition find_map {A B} (f : A → option B) (l : list A) : option B := head (omap f l).
Definition pick_scope (registry : list ScopeDefinition) (scope : string) : ScopeResolution :=
  match List.find (λ entry, String.eqb (sd_scope_key entry) scope) registry with
  | Some entry => scope_resolved (sd_scope_key entry) ScopeResolvedBy.Explicit None (Some (sd_scope_key entry))
  | None =>
      match find_map (λ entry, pair entry <$> List.find (String.eqb scope) (sd_aliases entry)) registry with
      | Some (entry, alias) => scope_resolved (sd_scope_key entry) ScopeResolvedBy.Alias (Some scope) (Some alias)
      | None =>
          match find_map (λ entry, pair entry <$> List.find (str_contains scope) (sd_matchers entry)) registry with
          | Some (entry, matcher) => scope_resolved (sd_scope_key entry) ScopeResolvedBy.Matcher (Some scope) (Some matcher)
          | None => scope_resolved scope ScopeResolvedBy.Explicit None None
          end
      end
  end.
Definition match_hints (registry : list ScopeDefinition) (context_hints : list string) : ScopeResolution :=
  match find_map (λ entry, find_map (λ matcher,
          (λ hint, (entry, hint, matcher)) <$> List.find (λ hint, str_contains hint matcher) context_hints) (sd_matchers entry)) registry with
  | Some (entry, hint, matcher) => scope_resolved (sd_scope_key entry) ScopeResolvedBy.Matcher (Some hint) (Some matcher)
  | None => scope_unresolved (head context_hints)
  end.
Definition canonicalize_legacy_scope_resolution (resolution : ScopeResolution) (selection : ResolvedContextSelection) : ScopeResolution :=
  match cs_direct (rcs_resolution selection) with
  | primary :: _ =>
      {| sn_scope := cdx_key primary; sn_unresolved_scope := sn_unresolved_scope resolution; sn_resolved_by := sn_resolved_by resolution;
         sn_matched_hint := sn_matched_hint resolution; sn_matched_value := sn_matched_value resolution |}
  | [] => resolution
  end.

Module LegacyContextResolutionMode.
Inductive t := Read | Write | PreviewWrite.
#[global] Instance eq_dec : EqDecision t.
Proof. solve_decision. Defined.
End LegacyContextResolutionMode.
Definition mode_governed_write (mode : LegacyContextResolutionMode.t) : bool :=
  match mode with
  | LegacyContextResolutionMode.Write | LegacyContextResolutionMode.PreviewWrite => true
  | LegacyContextResolutionMode.Read => false
  end.
Definition mode_persists_creation (mode : LegacyContextResolutionMode.t) : bool :=
  bool_decide (mode = LegacyContextResolutionMode.Write).

Section scopes.
Context `{Render, UnicodeCase, Chrono, UrlLib, Sha256Lib} (dimensions : Z) (exp2 : f64 → f64).
Context (limit_rows : nat → gset ContextId → gset ContextId) (hash_order : gset ContextKind.t → list ContextKind.t).
#[local] Abbreviation call := (call dimensions exp2).
#[local] Abbreviation try_call := (try_call dimensions exp2).
#[local] Abbreviation resolve_context_selection := (resolve_context_selection dimensions exp2 limit_rows hash_order).

(** [engine.rs] over the store's registry. *)
Definition list_scopes_for_principal (principal : string) : engine (list ScopeDefinition) :=
  call (λ _, list_legacy_scope_contexts principal).
Definition register_scope_for_principal (fresh : nat → ContextId) (scope : ScopeDefinition) (principal : string) : engine unit :=
  call (λ now, register_legacy_scope_context fresh scope now principal).

Definition resolve_scope (principal : string) (explicit_scope : option string) (context_hints : list string) : engine ScopeResolution :=
  explicit_scope ← of_engine_result (validated_as_engine (normalize_legacy_scope_value "scope" explicit_scope));
  if is_none explicit_scope && is_nil context_hints then mret (scope_unresolved None)
  else
    registry ← list_scopes_for_principal principal;
    mret (match explicit_scope with
          | Some scope => pick_scope registry scope
          | None => match_hints registry context_hints
          end).

(** ** From a scope to a context *)

Definition scope_internal_error (message fix_ : string) : ToolError :=
  tool_error ToolErrorCode.Internal (Some "scope") message (Some fix_) true.
Definition store_health_error (e : StoreError.t) : ToolError :=
  scope_internal_error (store_error_text e) "Retry after checking backend health.".
(** A call of the store whose error becomes [f error]. *)
Definition ask_store {A} (f : StoreError.t → ToolError) (m : DateTime → tx A) : tool A :=
  r ← run_engine (try_call m); of_answer (map_err f r).
Definition find_by_scope_key (principal : string) (include_archived : bool) (kind : option ContextKind.t) (normalized : string) :
    tool (list ContextRecord) :=
  ask_store store_health_error (λ _, find_context_records principal include_archived (ContextExactLookup.Key kind normalized)).
Definition scope_candidate (matched_by : string) (record : ContextRecord) : ContextCandidate :=
  {| cc_context := context_descriptor_from (cxr_context record); cc_score := f1; cc_matched_by := [matched_by] |}.
Definition envelope_of_ids (ids : list ContextId) : ContextEnvelope :=
  {| ce_refs := map (λ id, {| cr_id := Some id; cr_kind := None; cr_key := None; cr_identity := None |}) ids;
     ce_hints := []; ce_include_descendants := false; ce_allow_unresolved := false |}.

Definition legacy_context_draft (fresh : ContextId) (principal scope : string) : ContextCreateDraft :=
  {| ccd_id := fresh; ccd_kind := ContextKind.custom; ccd_key := scope; ccd_normalized_key := normalize_context_key scope;
     ccd_display_name := legacy_scope_display_name scope;
     ccd_description := Some "Private compatibility context created from a legacy scope input.";
     ccd_owner_principal := principal; ccd_guidance := Some "Migrate callers from scope to the shared context envelope.";
     ccd_parent_id := None; ccd_aliases := []; ccd_identities := []; ccd_resolver_hints := []; ccd_confirm_distinct_from := [];
     ccd_enforce_fuzzy_confirmation := false; ccd_frozen := false |}.
Definition legacy_context_audit (fresh : ContextId) (principal scope : string) : ContextAuditDraft :=
  {| cad_actor_principal := principal; cad_action := "legacy_scope_context_created"; cad_context_id := Some fresh;
     cad_memory_id := None; cad_details := Some (JObj [("scope_key", JStr scope)]) |}.

Definition policy_error (code : ToolErrorCode.t) (message fix_ : string) (policy_guidance : list string) : ToolError :=
  tool_error_with_details code (Some "scope") message (Some fix_) false (Some (guidance_details policy_guidance)) [].
(** May a legacy scope create a custom context? *)
Definition implicit_creation_check (state : ContextPolicyState) : result ToolError unit :=
  let explicit_custom_policies :=
    List.filter (λ record, bool_decide (kpr_kind record = ContextKind.custom)) (ps_kind_policies state) in
  let effective_policy := effective_policy_for state [] ContextKind.custom [] in
  let policy_guidance := policy_guidance_for [effective_policy] in
  _ ← bail_if (negb (ep_allowed effective_policy)
               || existsb (λ record, bool_decide (kp_agent_creation (kpr_policy record) = Some false)) explicit_custom_policies)
        (policy_error ToolErrorCode.AccessDenied "effective policy denies implicit legacy custom-context creation"
           "Select an existing context or ask an operator to adjust the explicit custom-context creation policy." policy_guidance);
  bail_if (existsb (λ record, bool_decide (kp_require_identity (kpr_policy record) = Some true)) explicit_custom_policies)
    (policy_error ToolErrorCode.ContextRequired "effective policy requires a durable identity and legacy scope cannot supply one"
       "Use context_create with a durable identity, then retry the write with a context reference." policy_guidance).

(** The checks a preview makes in place of the selection. *)
Definition companion_check (policy_guidance : list string) (direct_kinds : gset ContextKind.t) (policy : EffectiveContextPolicy) :
    result ToolError unit :=
  match ep_allowed_companion_kinds policy with
  | Some allowed_companions =>
      match List.find (λ kind, negb (bool_decide (kind = ep_kind policy)) && negb (bool_decide (kind ∈ allowed_companions))) (hash_order direct_kinds) with
      | Some disallowed =>
          Err (context_resolution_error_with_guidance ToolErrorCode.Conflict "scope"
                 ("effective " +:+ ContextKind.as_str (ep_kind policy) +:+ " policy does not allow companion kind " +:+ ContextKind.as_str disallowed)
                 [] policy_guidance)
      | None => Ok ()
      end
  | None => Ok ()
  end.
Definition preview_check (policies : list EffectiveContextPolicy) (direct_kinds : gset ContextKind.t) : result ToolError unit :=
  let policy_guidance := policy_guidance_for policies in
  let refuse_if (p : EffectiveContextPolicy → bool) code (message : string → string) : result ToolError unit :=
    match List.find p policies with
    | Some policy => Err (context_resolution_error_with_guidance code "scope" (message (ContextKind.as_str (ep_kind policy))) [] policy_guidance)
    | None => Ok ()
    end in
  let direct policy := bool_decide (ep_kind policy ∈ direct_kinds) in
  _ ← refuse_if has_ambiguities ToolErrorCode.ContextAmbiguous
        (λ kind, "effective policy for " +:+ kind +:+ " has conflicting active-anchor defaults");
  _ ← refuse_if (λ policy, direct policy && negb (ep_allowed policy)) ToolErrorCode.AccessDenied
        (λ kind, "effective policy denies context kind " +:+ kind);
  _ ← refuse_if (λ policy, ep_required policy && negb (direct policy)) ToolErrorCode.ContextRequired
        (λ kind, "effective policy requires a " +:+ kind +:+ " context");
  try_for_each (companion_check policy_guidance direct_kinds) (List.filter direct policies).
Definition preview_selection (state : ContextPolicyState) (fresh : ContextId) (principal scope : string) : result ToolError ResolvedContextSelection :=
  let draft := legacy_context_draft fresh principal scope in
  let direct := {| cdx_id := fresh; cdx_kind := ccd_kind draft; cdx_key := ccd_key draft; cdx_display_name := ccd_display_name draft |} in
  let policies := policies_for state [] [] in
  _ ← preview_check policies {[cdx_kind direct]};
  Ok {| rcs_resolution := {| cs_direct := [direct]; cs_effective := [direct]; cs_candidates := [];
                             cs_policy_guidance := policy_guidance_for policies; cs_broad_search := false; cs_unresolved := false;
                             cs_recommended_actions := [] |};
        rcs_direct_ids := [fresh]; rcs_effective_ids := [fresh]; rcs_created_legacy_context := None |}.

(** Creates the context, or finds the one another caller created: the id, and
    whether it is ours. *)
Definition create_or_refresh (fresh : ContextId) (principal scope : string) : tool (ContextId * option ContextId) :=
  created ← run_engine (try_call (create_context_conn (legacy_context_draft fresh principal scope) (legacy_context_audit fresh principal scope)));
  match created with
  | Ok _ => mret (fresh, Some fresh)
  | Err error =>
      exact ← find_by_scope_key principal false None (normalize_context_key scope);
      match map (λ record, cd_id (cxr_context record)) exact with
      | [existing] => mret (existing, None)
      | _ => answer (tool_error ToolErrorCode.Conflict (Some "scope") (store_error_text error)
               (Some "Resolve the scope again; another caller may have created its compatibility context.") true)
      end
  end.

(** [rollback_created_legacy_contexts]: from the last one on, each once. *)
Fixpoint rollback_each (seen : gset ContextId) (context_ids : list ContextId) (principal : string) : engine unit :=
  match context_ids with
  | [] => mret ()
  | context_id :: rest =>
      if bool_decide (context_id ∈ seen) then rollback_each seen rest principal
      else _ ← call (λ _, rollback_unreferenced_legacy_context context_id principal);
           rollback_each ({[context_id]} ∪ seen) rest principal
  end.
Definition rollback_created_legacy_contexts (context_ids : list ContextId) (principal : string) : engine unit :=
  rollback_each ∅ (rev context_ids) principal.
Definition rollback_created_legacy_context (context_id : option ContextId) (principal : string) : engine unit :=
  rollback_created_legacy_contexts (option_list context_id) principal.

(** [m], and on failure [cleanup] before the failure is passed on. *)
Definition or_cleanup {A} (m : tool A) (cleanup : tool unit) : tool A := λ se,
  match m se with
  | Some (Err e, se') => (_ ← cleanup; refuse e) se'
  | r => r
  end.
Definition with_created (created : option ContextId) (selection : ResolvedContextSelection) : ResolvedContextSelection :=
  {| rcs_resolution := rcs_resolution selection; rcs_direct_ids := rcs_direct_ids selection;
     rcs_effective_ids := rcs_effective_ids selection; rcs_created_legacy_context := created |}.
Definition cleanup_failed (e : EngineError.t) : Failure :=
  ToolFailure (scope_internal_error (engine_error_text e)
    "Retry after checking backend health; the compatibility context may require operator cleanup.").
(** The selection of the one context, the new one taken back when it fails. *)
Definition select_scope_context (principal : string) (mode : LegacyContextResolutionMode.t) (found : ContextId * option ContextId) :
    tool ResolvedContextSelection :=
  let '(id, created) := found in
  selection ← or_cleanup
    (resolve_context_selection principal (Some (envelope_of_ids [id])) None (mode_governed_write mode))
    (lift cleanup_failed (rollback_created_legacy_context created principal));
  mret (with_created created selection).

Definition mark_unresolved (selection : ResolvedContextSelection) : ResolvedContextSelection :=
  let r := rcs_resolution selection in
  {| rcs_resolution := {| cs_direct := cs_direct r; cs_effective := cs_effective r; cs_candidates := cs_candidates r;
                          cs_policy_guidance := cs_policy_guidance r; cs_broad_search := cs_broad_search r; cs_unresolved := true;
                          cs_recommended_actions := cs_recommended_actions r |};
     rcs_direct_ids := rcs_direct_ids selection; rcs_effective_ids := rcs_effective_ids selection;
     rcs_created_legacy_context := rcs_created_legacy_context selection |}.
Definition compatibility_label_error (governed_write : bool) : ToolError :=
  context_resolution_error ToolErrorCode.ContextRequired "scope"
    (if governed_write
     then "inbox/unresolved is a compatibility label, not a governed context; explicitly defer with context.allow_unresolved=true"
     else "inbox/unresolved is a compatibility label for contextless memories and cannot be used as a governed context filter") [].
Definition hints_unresolved_error : ToolError :=
  context_resolution_error ToolErrorCode.ContextRequired "scope"
    "legacy scope hints did not resolve; select a governed context or explicitly defer with context.allow_unresolved=true" [].

(** No context has the key: a preview answers the selection a write would
    make, a write creates the context. *)
Definition adopt_new_scope (fresh : ContextId) (principal scope : string) (mode : LegacyContextResolutionMode.t) :
    tool (ResolvedContextSelection + ContextId * option ContextId) :=
  _ ← of_answer (map_err (λ message, tool_error ToolErrorCode.InvalidParams (Some "scope") message
        (Some "Use a legacy scope key of at most 512 bytes whose final path segment is at most 256 bytes.") false)
      (validate_implicit_legacy_context_key scope));
  state ← lift (λ e, ToolFailure (scope_internal_error (engine_error_text e) "Retry after checking context-policy storage."))
            (context_policy_state dimensions exp2 principal);
  _ ← of_answer (implicit_creation_check state);
  _ ← (if bool_decide (mode = LegacyContextResolutionMode.PreviewWrite) then
         archived_exact ← find_by_scope_key principal true (Some ContextKind.custom) (normalize_context_key scope);
         answer_if (if is_nil archived_exact then None
                    else Some (tool_error ToolErrorCode.Conflict (Some "scope")
                                 "legacy scope key or alias is reserved by an archived compatibility context"
                                 (Some "Reactivate the archived context in the TUI before retrying the write.") false))
       else mret ());
  if mode_persists_creation mode then found ← create_or_refresh fresh principal scope; mret (inr found)
  else selection ← of_answer (preview_selection state fresh principal scope); mret (inl selection).

Definition resolve_legacy_context_selection (fresh : ContextId) (principal : string) (resolution : ScopeResolution)
    (mode : LegacyContextResolutionMode.t) : tool ResolvedContextSelection :=
  let governed_write := mode_governed_write mode in
  let scope := sn_scope resolution in
  let normalized := normalize_context_key scope in
  if String.eqb normalized (normalize_context_key UNRESOLVED_CONTEXT_KEY) && bool_decide (sn_resolved_by resolution = ScopeResolvedBy.Explicit)
  then answer (compatibility_label_error governed_write)
  else if sn_unresolved_scope resolution then
    if governed_write then answer hints_unresolved_error
    else selection ← resolve_context_selection principal None None false; mret (mark_unresolved selection)
  else
    matches ← find_by_scope_key principal false None normalized;
    match matches with
    | [record] => select_scope_context principal mode (cd_id (cxr_context record), None)
    | [] =>
        if governed_write then
          adopted ← adopt_new_scope fresh principal scope mode;
          match adopted with
          | inl selection => mret selection
          | inr found => select_scope_context principal mode found
          end
        else
          records ← lift (λ e, ToolFailure (backend_error "scope" e)) (authorized_context_records dimensions exp2 principal);
          answer (context_resolution_error ToolErrorCode.ContextRequired "scope"
                    "explicit legacy scope does not resolve to an active authorized context"
                    (fuzzy_context_candidates records scope None))
    | _ => answer (context_resolution_error ToolErrorCode.ContextAmbiguous "scope"
                     "legacy scope matched multiple visible governed contexts" (map (scope_candidate "legacy_scope") matches))
    end.
End scopes.
