(* ===== verification/ScopeKeys.v ===== *)
(** * ScopeKeys: the hierarchy of legacy scope keys

    What the expansion of ServerScopes.v answers: which ancestors a scope key
    has, and which keys a filter on several of them stands for. *)
From Stdlib Require Import ZArith Lia.
From stdpp Require Import base list option strings gmap sets pretty sorting.
From S2P Require Import Prelude Text Lists Errors Types Validation Context StoreTypes ServerTypes ServerScopes.

(** ** One key *)

Definition slashes (l : list Ascii.ascii) : nat := length (List.filter (Ascii.eqb slash) l).
(** [p] ends in [l] before a slash. *)
Definition cut_at_slash (l p : list Ascii.ascii) : Prop := ∃ rest, l = p ++ slash :: rest.

Lemma before_last_slash_spec l :
  match before_last_slash l with Some p => ∃ rest, l = p ++ slash :: rest ∧ slash ∉ rest | None => slash ∉ l end.
Proof.
  induction l as [|a l IH]; cbn [before_last_slash]; [by intros ?%elem_of_nil|].
  destruct (before_last_slash l) as [p|].
  - destruct IH as (rest & -> & Hr). by exists rest.
  - destruct (Ascii.eqb_spec a slash) as [->|Ha]; [by exists l|]. intros [?|?]%elem_of_cons; [by subst|done].
Qed.
(** A cut is the last one, or a cut of what is before it. *)
Lemma cut_before_last l q : before_last_slash l = Some q → ∀ p, cut_at_slash l p ↔ p = q ∨ cut_at_slash q p.
Proof.
  intros Hq p. pose proof (before_last_slash_spec l) as Hl. rewrite Hq in Hl. destruct Hl as (rest & -> & Hrest). split.
  - intros (rest' & He). apply app_eq_inv in He as [(k & -> & He)|(k & -> & He)]; destruct k as [|c k]; cbn in He;
      try (rewrite app_nil_r; by left); injection He as <- He.
    + right. by exists k.
    + destruct Hrest. rewrite He. apply elem_of_app. right. by left.
  - intros [->|(rest' & ->)]; [by exists rest|]. exists (rest' ++ slash :: rest). by simplify_list_eq.
Qed.
Lemma slashes_cut p rest : slashes (p ++ slash :: rest) = S (slashes p + slashes rest).
Proof. unfold slashes. rewrite List.filter_app, length_app. cbn. lia. Qed.

Lemma scope_ancestors_spec fuel l s : (length l ≤ fuel)%nat →
  s ∈ scope_ancestors fuel l ↔ s ≠ "" ∧ cut_at_slash l (bytes s).
Proof.
  revert l. induction fuel as [|fuel IH]; intros l Hl; cbn.
  { destruct l; cbn in Hl; [|lia]. split; [by intros ?%elem_of_nil|]. by intros [_ [[|] ?]]; destruct (bytes s). }
  pose proof (before_last_slash_spec l) as Hspec. destruct (before_last_slash l) as [q|] eqn:Hq.
  - destruct Hspec as (rest & Heq & Hrest). rewrite elem_of_app, IH.
    2: { subst l. rewrite length_app in Hl. cbn in Hl. lia. }
    rewrite (cut_before_last l q Hq). destruct q as [|c q].
    + rewrite elem_of_nil. split; [naive_solver|]. intros [Hs [Hb|Hc]]; [|naive_solver]. destruct s; [done|]. discriminate.
    + rewrite list_elem_of_singleton. split.
      * intros [->|[Hs Hc]]; [|naive_solver]. rewrite bytes_of_bytes. split; [done|by left].
      * intros [Hs [Hb|Hc]]; [|naive_solver]. left. by rewrite <- Hb, of_bytes_bytes.
  - split; [by intros ?%elem_of_nil|]. intros [_ [rest ->]]. destruct Hspec. apply elem_of_app. right. by left.
Qed.
Lemma scope_ancestors_length fuel l : (length (scope_ancestors fuel l) ≤ slashes l)%nat.
Proof.
  revert l. induction fuel as [|fuel IH]; intros l; cbn; [lia|].
  pose proof (before_last_slash_spec l) as Hl. destruct (before_last_slash l) as [q|]; cbn; [|lia].
  destruct Hl as (rest & -> & _). rewrite slashes_cut, length_app. specialize (IH q).
  assert (length (match q with [] => [] | _ => [of_bytes q] end) ≤ 1)%nat by (destruct q; cbn; lia). lia.
Qed.
Lemma scope_ancestors_sorted fuel l :
  StronglySorted (λ a b, byte_len b < byte_len a) (scope_ancestors fuel l) ∧ ∀ s, s ∈ scope_ancestors fuel l → byte_len s < len l.
Proof.
  revert l. induction fuel as [|fuel IH]; intros l; cbn; [split; [constructor|by intros ? ?%elem_of_nil]|].
  pose proof (before_last_slash_spec l) as Hl. destruct (before_last_slash l) as [q|]; [|split; [constructor|by intros ? ?%elem_of_nil]].
  destruct Hl as (rest & -> & _). destruct (IH q) as [Hs Hb].
  assert (Hq : len q < len (q ++ slash :: rest)) by (autorewrite with lh_rw; pose proof (len_nonneg rest); lia).
  destruct q as [|c q]; cbn [app] in *.
  - split; [exact Hs|]. intros s Hin%Hb. lia.
  - assert (Hlen : byte_len (of_bytes (c :: q)) = len (c :: q)) by (unfold byte_len; by rewrite bytes_of_bytes). split.
    + constructor; [exact Hs|]. apply Forall_forall. intros s Hin%Hb. lia.
    + intros s [->|Hin%Hb]%elem_of_cons; cbn [app] in *; lia.
Qed.

(** How deep a key is: [key.split('/').count()]. *)
Definition scope_depth (key : string) : Z := len (split_on slash key).
Lemma split_count l cur : length (split_bytes slash l cur) = S (slashes l).
Proof.
  revert cur. induction l as [|a l IH]; intros cur; [done|]. unfold slashes. cbn [split_bytes List.filter]. rewrite Ascii.eqb_sym.
  destruct (Ascii.eqb slash a); cbn [length]; by rewrite IH.
Qed.
Lemma scope_depth_slashes key : scope_depth key = 1 + Z.of_nat (slashes (bytes key)).
Proof. unfold scope_depth, split_on, len. rewrite length_map, split_count. lia. Qed.

(** [s] is [key], or the part of it before some slash. *)
Definition level_of (key s : string) : Prop := s = key ∨ ∃ rest, key = s +:+ "/" +:+ rest.
Lemma level_of_cut key s : (∃ rest, key = s +:+ "/" +:+ rest) ↔ cut_at_slash (bytes key) (bytes s).
Proof.
  assert (Happ : ∀ a b, bytes (a +:+ b) = bytes a ++ bytes b).
  { intros a b. induction a as [|c a IH]; [done|]. exact (f_equal (cons c) IH). }
  split.
  - intros (rest & ->). exists (bytes rest). by rewrite Happ.
  - intros (rest & Hk). exists (of_bytes rest). apply (inj bytes). rewrite Happ, Hk. f_equal.
    change (slash :: rest = slash :: bytes (of_bytes rest)). by rewrite bytes_of_bytes.
Qed.
Lemma hierarchy_levels key s : s ∈ expand_scope_hierarchy key ↔ s ≠ "" ∧ level_of key s.
Proof.
  unfold expand_scope_hierarchy, level_of. rewrite level_of_cut. destruct (str_is_empty key) eqn:He.
  - destruct key; [|done]. split; [by intros ?%elem_of_nil|]. intros [Hs [->|[rest Hr]]]; [done|]. by destruct (bytes s).
  - rewrite elem_of_cons, scope_ancestors_spec by done. split; [|naive_solver].
    intros [->|[Hs Hc]]; [|naive_solver]. split; [by intros ->|by left].
Qed.
Lemma hierarchy_sorted key : StronglySorted (λ a b, byte_len b < byte_len a) (expand_scope_hierarchy key).
Proof.
  unfold expand_scope_hierarchy. destruct (str_is_empty key); [constructor|].
  destruct (scope_ancestors_sorted (length (bytes key)) (bytes key)) as [Hs Hb]. constructor; [exact Hs|]. by apply Forall_forall.
Qed.
Lemma hierarchy_depth key : len (expand_scope_hierarchy key) ≤ scope_depth key.
Proof.
  rewrite scope_depth_slashes. unfold expand_scope_hierarchy. destruct (str_is_empty key); [rewrite len_nil; lia|].
  rewrite len_cons. pose proof (scope_ancestors_length (length (bytes key)) (bytes key)). unfold len. lia.
Qed.

(** ** Several keys *)

Lemma dedup_from_ext (seen seen' l : list string) : (∀ x, x ∈ seen ↔ x ∈ seen') → dedup_from seen l = dedup_from seen' l.
Proof.
  revert seen seen'. induction l as [|x l IH]; intros seen seen' Hs; cbn; [done|].
  destruct (decide (x ∈ seen)) as [Hx|Hx], (decide (x ∈ seen')) as [Hx'|Hx']; try (exfalso; set_solver); [by apply IH|].
  f_equal. apply IH. set_solver.
Qed.
Lemma dedup_from_app (seen l k : list string) : dedup_from seen (l ++ k) = dedup_from seen l ++ dedup_from (seen ++ l) k.
Proof.
  revert seen. induction l as [|x l IH]; intros seen; cbn [app dedup_from]; [by rewrite app_nil_r|].
  destruct (decide (x ∈ seen)) as [Hx|Hx]; rewrite IH; cbn; [f_equal|do 2 f_equal]; apply dedup_from_ext; set_solver.
Qed.

(** The keys a filter on [keys] stands for. *)
Definition all_levels (keys : list string) : list string := concat (map expand_scope_hierarchy keys).
Definition fits (l : list string) : bool := len (dedup l) <=? MAX_EXPANDED_LEGACY_SCOPES.

Lemma add_scope_collected done st a : fst st = list_to_set done → snd st = dedup done → fits done = true →
  ∃ st', add_scope st a = (if fits (done ++ [a]) then Ok st' else Err scope_expansion_error)
    ∧ fst st' = list_to_set (done ++ [a]) ∧ snd st' = dedup (done ++ [a]).
Proof.
  destruct st as [seen ex]; cbn [fst snd]. intros -> -> Hfits. unfold fits, dedup in *. rewrite dedup_from_app. cbn [app dedup_from].
  unfold add_scope, dedup. destruct (decide (a ∈ done)) as [Ha|Ha].
  - rewrite bool_decide_true by set_solver. rewrite app_nil_r, Hfits. eexists. split; [done|]. split; cbn; [set_solver|done].
  - rewrite bool_decide_false by set_solver. rewrite len_app, len_cons, len_nil.
    exists ({[a]} ∪ list_to_set done, dedup_from [] done ++ [a]). split; [|split; cbn; [set_solver|done]].
    destruct (Z.leb_spec MAX_EXPANDED_LEGACY_SCOPES (len (dedup_from [] done)));
      destruct (Z.leb_spec (len (dedup_from [] done) + (1 + 0)) MAX_EXPANDED_LEGACY_SCOPES); try lia; done.
Qed.
(** Once too long, it stays too long. *)
Lemma fits_app l k : fits (l ++ k) = true → fits l = true.
Proof. unfold fits, dedup. rewrite dedup_from_app, len_app. pose proof (len_nonneg (dedup_from ([] ++ l) k)). lia. Qed.
Lemma add_level_collected l : ∀ done st, fst st = list_to_set done → snd st = dedup done → fits done = true →
  ∃ st', try_fold add_scope st l = (if fits (done ++ l) then Ok st' else Err scope_expansion_error)
    ∧ fst st' = list_to_set (done ++ l) ∧ snd st' = dedup (done ++ l).
Proof.
  induction l as [|a l IH]; intros done st Hs Hx Hfits; cbn [try_fold].
  { rewrite app_nil_r, Hfits. by exists st. }
  destruct (add_scope_collected done st a Hs Hx Hfits) as (st1 & -> & Hs1 & Hx1).
  replace (done ++ a :: l) with ((done ++ [a]) ++ l) by (by rewrite <- (assoc_L (++))).
  destruct (fits (done ++ [a])) eqn:Ha; cbn.
  - by apply IH.
  - destruct (fits ((done ++ [a]) ++ l)) eqn:Hl; [by rewrite (fits_app _ _ Hl) in Ha|].
    by exists (list_to_set ((done ++ [a]) ++ l), dedup ((done ++ [a]) ++ l)).
Qed.
Lemma add_key_collected done st key : fst st = list_to_set done → snd st = dedup done → fits done = true →
  ∃ st', add_scope_key st key = (if MAX_LEGACY_SCOPE_DEPTH <? scope_depth key then Err scope_depth_error
      else if fits (done ++ expand_scope_hierarchy key) then Ok st' else Err scope_expansion_error)
    ∧ fst st' = list_to_set (done ++ expand_scope_hierarchy key) ∧ snd st' = dedup (done ++ expand_scope_hierarchy key).
Proof.
  intros Hs Hx Hfits. destruct (add_level_collected (expand_scope_hierarchy key) done st Hs Hx Hfits) as (st' & Hst & Hs' & Hx').
  exists st'. split; [|done]. unfold add_scope_key, scope_depth. by destruct (_ <? _).
Qed.

(** What the expansion of [keys] answers, after [done]. *)
Definition expansion_of (done keys : list string) (r : validated (gset string * list string)) : Prop :=
  match r with
  | Ok st => snd st = dedup (done ++ all_levels keys) ∧ fits (done ++ all_levels keys) = true
      ∧ ∀ key, key ∈ keys → scope_depth key ≤ MAX_LEGACY_SCOPE_DEPTH
  | Err e => (e = scope_depth_error ∧ ∃ key, key ∈ keys ∧ MAX_LEGACY_SCOPE_DEPTH < scope_depth key)
      ∨ (e = scope_expansion_error ∧ fits (done ++ all_levels keys) = false)
  end.
Lemma expansion_collected keys : ∀ done st, fst st = list_to_set done → snd st = dedup done → fits done = true →
  expansion_of done keys (try_fold add_scope_key st keys).
Proof.
  induction keys as [|key keys IH]; intros done st Hs Hx Hfits; cbn [try_fold].
  { unfold expansion_of, all_levels. cbn. rewrite app_nil_r. split_and!; [done|done|]. by intros key ?%elem_of_nil. }
  destruct (add_key_collected done st key Hs Hx Hfits) as (st1 & -> & Hs1 & Hx1). destruct (Z.ltb_spec MAX_LEGACY_SCOPE_DEPTH (scope_depth key)).
  { left. split; [done|]. exists key. split; [by left|lia]. }
  unfold expansion_of, all_levels in *. cbn [map concat]. rewrite (assoc_L (++)).
  destruct (fits (done ++ expand_scope_hierarchy key)) eqn:Hfit; cbn [mbind result_bind].
  - specialize (IH _ st1 Hs1 Hx1 Hfit). destruct (try_fold _ _ _) as [st2|e].
    + destruct IH as (-> & -> & Hd). split_and!; [done|done|]. intros k [->|Hk]%elem_of_cons; [lia|auto].
    + destruct IH as [[-> (k & Hk & Hd)]|[-> Hf]]; [|by right]. left. split; [done|]. exists k. split; [by right|done].
  - right. split; [done|]. destruct (fits (_ ++ concat _)) eqn:Hl; [|done]. by rewrite (fits_app _ _ Hl) in Hfit.
Qed.

(** The expansion of legacy scope keys. A key stands for itself and its
    ancestors: the non-empty texts it starts with up to a slash, each once, the
    longest first, at most one per segment. A filter on several keys stands
    for all of them, each text once in the order of its first occurrence, and
    never for more than 256; it is refused just when a key is deeper than 32
    segments or the texts are more than 256, and nothing is cut off
    silently. *)
Theorem scope_expansion keys :
  (∀ key, (∀ s, s ∈ expand_scope_hierarchy key ↔ s ≠ "" ∧ level_of key s)
     ∧ StronglySorted (λ a b, byte_len b < byte_len a) (expand_scope_hierarchy key)
     ∧ len (expand_scope_hierarchy key) ≤ scope_depth key)
  ∧ match expand_scope_keys keys with
    | Ok expanded => expanded = dedup (all_levels keys) ∧ len expanded ≤ MAX_EXPANDED_LEGACY_SCOPES
        ∧ ∀ key, key ∈ keys → scope_depth key ≤ MAX_LEGACY_SCOPE_DEPTH
    | Err e => (e = scope_depth_error ∧ ∃ key, key ∈ keys ∧ MAX_LEGACY_SCOPE_DEPTH < scope_depth key)
        ∨ (e = scope_expansion_error ∧ MAX_EXPANDED_LEGACY_SCOPES < len (dedup (all_levels keys)))
    end.
Proof.
  split; [intros key; split_and!; [apply hierarchy_levels|apply hierarchy_sorted|apply hierarchy_depth]|].
  pose proof (expansion_collected keys [] (∅, []) eq_refl eq_refl eq_refl) as He. unfold expansion_of, fits in He. cbn [app] in He.
  unfold expand_scope_keys. destruct (try_fold add_scope_key (∅, []) keys) as [[seen expanded]|e]; cbn in He |- *.
  - destruct He as (-> & Hfits & Hd). split_and!; [done|lia|done].
  - destruct He as [?|[-> Hf]]; [by left|]. right. split; [done|lia].
Qed.

(** The update of a filter compares the numbers of keys only: with a key given
    twice, the expansion that adds an ancestor is dropped. *)
Lemma expansion_skipped :
  expand_scope_keys ["a/b"; "a/b"] = Ok ["a/b"; "a"]
  ∧ let f := with_scopes_any (Some ["a/b"; "a/b"]) memory_filter_default in maybe_expand_scope_hierarchy f true = Ok f.
Proof. split; vm_compute; reflexivity. Qed.
