(* ===== verification/ServerSearch.v ===== *)
(** * ServerSearch: recall and brief in [src/src/server/mod.rs]

    The tools that search: [recall], [brief] and the duplicate candidates a
    write reports. They select contexts, run the engine's search and show each
    result as a card of the caller's view. *)
From Stdlib Require Import ZArith Lia.
From stdpp Require Import base list option strings gmap sets pretty.
From S2P Require Import Integrity Governance Hierarchy Systems Prelude Text Floats Lists Errors Types Validation Context StoreTypes Ranking Store Membership Crud ContextAdmin Admin LegacyScopes Revisions Operations Search Authorization Accounting Config ContextSelect Selection ContextReads ServerTypes Engine EngineSearch Server ServerContexts ServerScopes.

(** ** Data *)

Record RecallParams := {
  rp_query : string;
  rp_limit : Z;
  rp_context : option ContextEnvelope;
  rp_scope : option string;
  rp_context_hints : list string;
  rp_tags : option (list string);
  rp_entity : option string;
  rp_include_weak : bool;
  rp_search_mode : option SearchMode.t;
  rp_literal_terms : option string;
  rp_query_context : option string;
}.
Record RecallResponse := {
  rl_search_mode : SearchMode.t;
  rl_count : Z;
  rl_weak_result_count : Z;
  rl_scope_resolution : option ScopeResolution;
  rl_context_resolution : ContextResolution;
  rl_warnings : list QualityWarning;
  rl_results : list RecallCard;
}.
Record BriefParams := {
  bp_query : option string;
  bp_context : option ContextEnvelope;
  bp_scope : option string;
  bp_context_hints : list string;
  bp_limit : Z;
}.
Record BriefResponse := {
  br_relevant : list RecallCard;
  br_decisions : list RecallCard;
  br_wip : list RecallCard;
  br_lessons : list RecallCard;
  br_stale_candidates : list RecallCard;
  br_suggested_reads : list MemoryId;
  br_recommended_actions : list RecommendedAction;
  br_scope_resolution : option ScopeResolution;
  br_context_resolution : ContextResolution;
  br_warnings : list QualityWarning;
}.

(** A filter on contexts and nothing else. *)
Definition context_filter (context_ids : option (list ContextId)) (explicit : bool) (tags : option (list string)) (entity : option string) :
    MemoryFilter :=
  let f := memory_filter_default in
  {| mf_context_ids := context_ids; mf_legacy_context_ids_any := mf_legacy_context_ids_any f; mf_explicit_context_filter := explicit;
     mf_tags := tags; mf_agent_label := mf_agent_label f; mf_scope := mf_scope f; mf_origin_scope := mf_origin_scope f;
     mf_scopes_any := mf_scopes_any f; mf_time_range := mf_time_range f; mf_text_search := mf_text_search f;
     mf_has_embedding := mf_has_embedding f; mf_limit := mf_limit f; mf_memory_type := mf_memory_type f;
     mf_include_superseded := mf_include_superseded f; mf_entity := entity; mf_entities_any := mf_entities_any f;
     mf_entity_type := mf_entity_type f |}.

Definition combined_context_error : ToolError :=
  tool_error ToolErrorCode.InvalidParams (Some "context") "context cannot be combined with legacy scope or context_hints"
    (Some "Use the shared context envelope alone, or use only legacy scope/context_hints.") false.
Definition combines_contexts (context : option ContextEnvelope) (scope : option string) (context_hints : list string) : bool :=
  is_some context && (is_some scope || negb (is_nil context_hints)).

(** Weak cards are counted unless asked for. *)
Definition sort_card (include_weak : bool) (st : Z * list RecallCard) (card : RecallCard) : Z * list RecallCard :=
  let '(weak, results) := st in
  if bool_decide (ma_quality (rc_match card) = MatchQuality.Weak) && negb include_weak
  then (saturating_add weak 1, results) else (weak, results ++ [card]).
Definition is_weak_card (card : RecallCard) : bool := bool_decide (ma_quality (rc_match card) = MatchQuality.Weak).
Definition has_tag (tag : string) (card : RecallCard) : bool := existsb (String.eqb tag) (rc_tags card).

Section actions.
Context `{Render}.
Definition brief_recommended_actions (suggested_reads : list MemoryId) (unresolved_context_hints no_matches : bool)
    (stale_only_query : option string) : list RecommendedAction :=
  let action tool priority reason arguments : RecommendedAction :=
    {| rx_tool := tool; rx_priority := priority; rx_reason := reason; rx_arguments := arguments |} in
  sort_recommended_actions (
    match suggested_reads with
    | [id] => [action RecommendedActionTool.Read RecommendedActionPriority.High "One relevant memory is worth reading in full."
                 (Some (JObj [("id", JStr (ulid id))]))]
    | _ :: _ => [action RecommendedActionTool.ReadMany RecommendedActionPriority.High "Several relevant memories are worth reading in full."
                   (Some (JObj [("ids", JArr (map (λ id, JStr (ulid id)) suggested_reads))]))]
    | [] => []
    end
    ++ (if unresolved_context_hints
        then [action RecommendedActionTool.AdminScopeRegister RecommendedActionPriority.High
                "Context hints did not resolve to a registered scope." None] else [])
    ++ (if no_matches
        then [action RecommendedActionTool.Remember RecommendedActionPriority.Normal
                "No relevant or stale memories matched this brief." None] else [])
    ++ match stale_only_query with
       | Some query => [action RecommendedActionTool.Recall RecommendedActionPriority.Low
                          "Only weak or stale candidates matched; inspect weak recall results if needed."
                          (Some (JObj [("query", JStr query); ("include_weak", JBool true)]))]
       | None => []
       end).
End actions.

Section search.
Context `{Render, UnicodeCase, Chrono, UrlLib, Sha256Lib, Fts, VectorIndex, SearchProviders} (dimensions : Z) (exp2 ln_1p : f64 → f64).
Context (limit_rows : nat → gset ContextId → gset ContextId) (hash_order : gset ContextKind.t → list ContextKind.t).
Context (server : ServerAuth) (limits : LimitsConfig) (config : SearchConfig) (blend_weight : f64).
#[local] Abbreviation resolve_context_selection := (resolve_context_selection dimensions exp2 limit_rows hash_order).
#[local] Abbreviation search_memories := (search_memories dimensions exp2 ln_1p limits config).
#[local] Abbreviation memory_views := (memory_views dimensions exp2).

(** The results and the views of their memories. *)
Definition viewed_results (outcome : SearchOutcome) (principal : option string) : engine (list (SearchResult * MemoryView)) :=
  views ← memory_views (map sr_memory (so_results outcome)) principal;
  mret (zip (so_results outcome) views).

Definition duplicate_candidates (content : string) (context_ids : option (list ContextId)) (principal : option string) :
    engine (list DuplicateCandidateCard) :=
  if match context_ids with Some [] => true | _ => false end then mret []
  else
    outcome ← search_memories
      {| rq_query := compact_excerpt content; rq_limit := 3; rq_filter := context_filter context_ids true None None;
         rq_ctx := caller_context_for principal; rq_max_distance := None; rq_keywords := None;
         rq_search_mode := Some SearchMode.Auto; rq_context := None |};
    viewed ← viewed_results outcome principal;
    mret (map (λ '(result, view), duplicate_card_from_memory_view result view blend_weight) viewed).

(** What [recall] and [brief] search in: the envelope, a legacy scope read, or
    everything the caller may see. *)
Definition read_selection (request_principal : option string) (context : option ContextEnvelope) (scope : option string)
    (context_hints : list string) : tool (option ScopeResolution * ResolvedContextSelection * list QualityWarning) :=
  let principal := principal_or_anonymous request_principal in
  match context with
  | Some envelope => selection ← resolve_context_selection principal (Some envelope) None false; mret (None, selection, [])
  | None =>
      if is_some scope || negb (is_nil context_hints) then
        resolution ← run_engine (resolve_scope dimensions exp2 principal scope context_hints);
        selection ← resolve_legacy_context_selection dimensions exp2 limit_rows hash_order 0%N principal resolution
                      LegacyContextResolutionMode.Read;
        let resolution := canonicalize_legacy_scope_resolution resolution selection in
        mret (Some resolution, selection,
              (if sn_unresolved_scope resolution
               then [quality_warning "unresolved_scope" "legacy context hints did not resolve; broad authorized search was applied"] else [])
              ++ [quality_warning "legacy_scope_adapter" "legacy scope filtering was adapted to governed context membership"])
      else selection ← resolve_context_selection principal None None false; mret (None, selection, [])
  end.
Definition selection_filter (selection : ResolvedContextSelection) (tags : option (list string)) (entity : option string) : MemoryFilter :=
  context_filter (Some (rcs_effective_ids selection)) (negb (is_nil (rcs_effective_ids selection))) tags entity.

Definition recall (context : RequestContext) (params : RecallParams) : tool RecallResponse :=
  request_principal ← reader server context;
  tags ← of_validated (normalize_optional_string_array "tags" (rp_tags params));
  entity ← of_validated (normalize_optional_non_empty "entity" (rp_entity params));
  context_hints ← of_validated (normalize_legacy_context_hints (rp_context_hints params));
  _ ← answer_if (if combines_contexts (rp_context params) (rp_scope params) context_hints then Some combined_context_error else None);
  selected ← read_selection request_principal (rp_context params) (rp_scope params) context_hints;
  let '(scope_resolution, selection, warnings) := selected in
  keywords ← of_validated (normalize_optional_non_empty "literal_terms" (rp_literal_terms params));
  query_context ← of_validated (normalize_optional_non_empty "query_context" (rp_query_context params));
  outcome ← run_engine (search_memories
    {| rq_query := rp_query params; rq_limit := rp_limit params; rq_filter := selection_filter selection tags entity;
       rq_ctx := caller_context_for request_principal; rq_max_distance := None; rq_keywords := keywords;
       rq_search_mode := rp_search_mode params; rq_context := query_context |});
  viewed ← run_engine (viewed_results outcome request_principal);
  let cards := map (λ '(result, view), recall_card_from_memory_view result view blend_weight) viewed in
  let '(weak, results) := fold_left (sort_card (rp_include_weak params)) cards (0, []) in
  mret {| rl_search_mode := so_search_mode outcome; rl_count := len results; rl_weak_result_count := weak;
          rl_scope_resolution := scope_resolution; rl_context_resolution := rcs_resolution selection; rl_warnings := warnings;
          rl_results := results |}.

Definition brief (context : RequestContext) (params : BriefParams) : tool BriefResponse :=
  request_principal ← reader server context;
  let supplied_query := trimmed_non_empty (bp_query params) in
  let query := default "project memory decisions wip lessons" (bp_query params) in
  context_hints ← of_validated (normalize_legacy_context_hints (bp_context_hints params));
  _ ← answer_if (if combines_contexts (bp_context params) (bp_scope params) context_hints then Some combined_context_error else None);
  selected ← read_selection request_principal (bp_context params) (bp_scope params) context_hints;
  let '(scope_resolution, selection, warnings) := selected in
  outcome ← run_engine (search_memories
    {| rq_query := query; rq_limit := bp_limit params; rq_filter := selection_filter selection None None;
       rq_ctx := caller_context_for request_principal; rq_max_distance := None; rq_keywords := None;
       rq_search_mode := None; rq_context := None |});
  viewed ← run_engine (viewed_results outcome request_principal);
  let cards := map (λ '(result, view), recall_card_from_memory_view result view blend_weight) viewed in
  let stale := List.filter is_weak_card cards in
  let relevant := List.filter (λ card, negb (is_weak_card card)) cards in
  let suggested_reads := map rc_id (truncate 5 relevant) in
  let no_matches := is_nil relevant && is_nil stale in
  let unresolved_context_hints :=
    match scope_resolution with Some r => sn_unresolved_scope r | None => false end && negb (is_nil context_hints) in
  let stale_only_query := if is_nil relevant && negb (is_nil stale) then supplied_query else None in
  mret {| br_relevant := relevant; br_decisions := List.filter (has_tag "decision") relevant; br_wip := List.filter (has_tag "wip") relevant;
          br_lessons := List.filter (has_tag "lesson") relevant; br_stale_candidates := stale; br_suggested_reads := suggested_reads;
          br_recommended_actions := brief_recommended_actions suggested_reads unresolved_context_hints no_matches stale_only_query;
          br_scope_resolution := scope_resolution; br_context_resolution := rcs_resolution selection;
          br_warnings := warnings ++ (if no_matches then [quality_warning "empty_brief" "no visible memories matched the brief request"] else []) |}.
End search.
