(* ===== verification/ServerWrites.v ===== *)
(** * ServerWrites: the tools that write memories, [src/src/server/mod.rs]

    [remember], [remember_many], [revise] and [handoff]. A write prepares its
    memories first: it validates them, selects their contexts (creating one
    for an unknown legacy scope), looks for duplicates; then it stores them in
    one transaction. What it created is taken back when it fails. The ids it
    draws ([MemoryId::new()], [ContextId::new()]) are arguments. *)
From Stdlib Require Import ZArith Lia.
From stdpp Require Import base list option strings gmap sets pretty.
From S2P Require Import Integrity Governance Hierarchy Systems Prelude Text Floats Lists Errors Types Validation Context StoreTypes Ranking Store Membership Crud ContextAdmin Admin LegacyScopes Revisions Operations Search Authorization Accounting Config ContextSelect Selection ContextReads ServerTypes Engine EngineSearch Programs Orchestrator EngineWrites Foreground Server ServerContexts ServerScopes ServerSearch.

(** ** Inputs *)

Record EntityInput := { en_name : string; en_entity_type : string }.
Module EntityInputItem.
Inductive t := Name (name : string) | Structured (entity : EntityInput).
End EntityInputItem.
Definition entity_input_from (item : EntityInputItem.t) : EntityInput :=
  match item with
  | EntityInputItem.Name name => {| en_name := name; en_entity_type := "unknown" |}
  | EntityInputItem.Structured entity => entity
  end.
Definition entity_try_from (entity : EntityInput) : validated Entity :=
  parts ← normalize_entity_parts (en_name entity) (en_entity_type entity);
  let '(name, entity_type) := parts in
  Ok {| e_name := name; e_type := entity_type |}.
Definition normalize_entity_inputs (entities : list EntityInputItem.t) : validated (list Entity) :=
  try_map entity_try_from (map entity_input_from entities).
Definition normalize_optional_entity_inputs (entities : option (list EntityInputItem.t)) : validated (option (list Entity)) :=
  match entities with Some es => Some <$> normalize_entity_inputs es | None => Ok None end.

Module AccessPolicyShorthand.
Inductive t := Public.
End AccessPolicyShorthand.
Module AccessPolicyInput.
Inductive t := Shorthand (s : AccessPolicyShorthand.t) | Structured (policy : AccessPolicy.t).
End AccessPolicyInput.
Definition access_policy_from (input : AccessPolicyInput.t) : AccessPolicy.t :=
  match input with
  | AccessPolicyInput.Shorthand AccessPolicyShorthand.Public => AccessPolicy.Public
  | AccessPolicyInput.Structured policy => policy
  end.
Definition normalize_optional_access_policy (policy : option AccessPolicyInput.t) : option AccessPolicy.t := access_policy_from <$> policy.

Record MemoryInput := {
  mi_content : string;
  mi_tags : list string;
  mi_source_agent : option string;
  mi_source_conversation : option string;
  mi_origin_conversation : option string;
  mi_source_user : option string;
  mi_ttl_seconds : option Z;
  mi_access_policy : option AccessPolicyInput.t;
  mi_memory_type : option MemoryType.t;
  mi_importance : option f64;
  mi_confidence : option f64;
  mi_supersedes : option MemoryId;
  mi_entities : list EntityInputItem.t;
}.
Definition store_memory_input_try_from (params : MemoryInput) : validated StoreMemoryInput :=
  entities ← normalize_entity_inputs (mi_entities params);
  Ok {| si_content := mi_content params; si_tags := mi_tags params; si_source_agent := mi_source_agent params;
        si_source_user := mi_source_user params; si_source_conversation := mi_source_conversation params;
        si_origin_conversation := mi_origin_conversation params;
        si_access_policy := normalize_optional_access_policy (mi_access_policy params);
        si_ttl_seconds := mi_ttl_seconds params; si_memory_type := mi_memory_type params; si_importance := mi_importance params;
        si_confidence := mi_confidence params; si_supersedes := mi_supersedes params; si_entities := entities |}.

Record RememberParams := {
  rm_content : string;
  rm_summary : option string;
  rm_context : option ContextEnvelope;
  rm_scope : option string;
  rm_context_hints : list string;
  rm_agent_label : option string;
  rm_tags : list string;
  rm_entities : list EntityInputItem.t;
  rm_memory_type : option MemoryType.t;
  rm_importance : option f64;
  rm_confidence : option f64;
  rm_access_policy : option AccessPolicyInput.t;
}.
Module RememberManyItem.
Inductive t := Content (content : string) | Structured (params : RememberParams).
End RememberManyItem.
Definition remember_params_from (item : RememberManyItem.t) : RememberParams :=
  match item with
  | RememberManyItem.Content content =>
      {| rm_content := content; rm_summary := None; rm_context := None; rm_scope := None; rm_context_hints := []; rm_agent_label := None;
         rm_tags := []; rm_entities := []; rm_memory_type := None; rm_importance := None; rm_confidence := None;
         rm_access_policy := None |}
  | RememberManyItem.Structured params => params
  end.
Record ReviseParams := {
  rv_id : MemoryId;
  rv_content : option string;
  rv_summary : option string;
  rv_agent_label : option string;
  rv_context : option ContextEnvelope;
  rv_scope : option string;
  rv_context_hints : list string;
  rv_tags : option (list string);
  rv_access_policy : option AccessPolicyInput.t;
  rv_importance : option f64;
  rv_confidence : option f64;
  rv_entities : option (list EntityInputItem.t);
}.
Record HandoffCandidate := {
  ho_content : string;
  ho_summary : option string;
  ho_context : option ContextEnvelope;
  ho_scope : option string;
  ho_context_hints : list string;
  ho_tags : list string;
  ho_entities : list EntityInputItem.t;
  ho_memory_type : option MemoryType.t;
}.
Module HandoffCandidateItem.
Inductive t := Content (content : string) | Structured (candidate : HandoffCandidate).
End HandoffCandidateItem.
Definition handoff_candidate_from (item : HandoffCandidateItem.t) : HandoffCandidate :=
  match item with
  | HandoffCandidateItem.Content content =>
      {| ho_content := content; ho_summary := None; ho_context := None; ho_scope := None; ho_context_hints := []; ho_tags := [];
         ho_entities := []; ho_memory_type := None |}
  | HandoffCandidateItem.Structured candidate => candidate
  end.

(** ** Answers *)

(** What [remember] answers, and [remember_many] for each item. *)
Record RememberManyItemResponse := {
  mr_id : MemoryId;
  mr_scope : string;
  mr_unresolved_scope : bool;
  mr_scope_resolution : ScopeResolution;
  mr_context_resolution : option ContextResolution;
  mr_contexts : list ContextDescriptor;
  mr_duplicate_candidates : list DuplicateCandidateCard;
  mr_warnings : list QualityWarning;
}.
Record RememberResponse := { rsp_operation : OperationSummary; rsp_item : RememberManyItemResponse }.
Record RememberManyResponse := { rmr_operation : OperationSummary; rmr_memories : list RememberManyItemResponse }.
Record UpdateResponse := {
  ur_operation : OperationSummary;
  ur_updated : bool;
  ur_scope_resolution : option ScopeResolution;
  ur_context_resolution : option ContextResolution;
  ur_contexts : list ContextDescriptor;
}.
Record HandoffSuggestion := {
  hs_content : string;
  hs_scope : string;
  hs_unresolved_scope : bool;
  hs_scope_resolution : ScopeResolution;
  hs_context_resolution : option ContextResolution;
  hs_contexts : list ContextDescriptor;
  hs_warnings : list QualityWarning;
  hs_id : option MemoryId;
  hs_duplicate_candidates : list DuplicateCandidateCard;
  hs_next_action : NextAction.t;
}.
Record HandoffResponse := { hf_operation : OperationSummary; hf_committed : bool; hf_suggested_writes : list HandoffSuggestion }.

(** ** Preparing a write *)

Record PreparedRemember := {
  pr_memory : Memory;
  pr_supersedes : option MemoryId;
  pr_metadata : MemoryMetadata;
  pr_scope_resolution : ScopeResolution;
  pr_context_resolution : ContextResolution;
  pr_direct_context_ids : list ContextId;
  pr_duplicate_candidates : list DuplicateCandidateCard;
  pr_warnings : list QualityWarning;
  pr_created_legacy_context : option ContextId;
}.
(** [PrepareRememberError::into_tool_result] of an invalid field. *)
Definition invalid_item (item_index : option nat) (suggested_fix : string) (error : ValidationError) : Failure :=
  let field := match item_index with
               | None => ve_field error
               | Some index => "memories[" +:+ pretty (Z.of_nat index) +:+ "]." +:+ ve_field error
               end in
  ToolFailure (tool_error ToolErrorCode.InvalidParams (Some field) (validation_error_text error) (Some suggested_fix) false).
Definition of_result_by {E A} (f : E → Failure) (r : result E A) : tool A := match r with Ok a => mret a | Err e => refuse (f e) end.

(** The provenance's conversation and origin. *)
Definition placed_in (scope : string) (m : Memory) : Memory :=
  let p := m_provenance m in
  {| m_id := m_id m; m_content := m_content m; m_tags := m_tags m;
     m_provenance := {| source_agent := source_agent p; source_conversation := Some scope; origin_conversation := Some scope;
                        source_user := source_user p |};
     m_access_policy := m_access_policy m; m_created_at := m_created_at m; m_updated_at := m_updated_at m;
     m_record_revision := m_record_revision m; m_expires_at := m_expires_at m; m_has_embedding := m_has_embedding m;
     m_memory_type := m_memory_type m; m_importance := m_importance m; m_confidence := m_confidence m;
     m_impression_count := m_impression_count m; m_last_impressed_at := m_last_impressed_at m; m_superseded_by := m_superseded_by m;
     m_activity_mass := m_activity_mass m; m_last_used_at := m_last_used_at m; m_entities := m_entities m;
     m_was_redacted := m_was_redacted m |}.
Definition selection_scope (selection : ResolvedContextSelection) : string :=
  match cs_direct (rcs_resolution selection) with context :: _ => cdx_key context | [] => UNRESOLVED_CONTEXT_KEY end.
Definition remember_memory_input (params : RememberParams) (principal : string) : MemoryInput :=
  {| mi_content := rm_content params; mi_tags := rm_tags params; mi_source_agent := Some principal;
     mi_source_conversation := Some UNRESOLVED_CONTEXT_KEY; mi_origin_conversation := Some UNRESOLVED_CONTEXT_KEY;
     mi_source_user := None; mi_ttl_seconds := None; mi_access_policy := rm_access_policy params;
     mi_memory_type := rm_memory_type params; mi_importance := rm_importance params; mi_confidence := rm_confidence params;
     mi_supersedes := None; mi_entities := rm_entities params |}.
Definition adapter_fix : string := "Provide valid memory content and metadata.".
Definition code_of_warnings (warnings : list QualityWarning) : list string := map qw_code warnings.
(** A selection, the scope to show for it, and whether a legacy scope was
    adapted. *)
Definition Placement : Type := ResolvedContextSelection * ScopeResolution * bool.

Section writes.
Context `{Render, UnicodeCase, Chrono, UrlLib, Sha256Lib, Fts, VectorIndex, SearchProviders, Surroundings} (dimensions : Z) (exp2 ln_1p : f64 → f64).
Context (limit_rows : nat → gset ContextId → gset ContextId) (hash_order : gset ContextKind.t → list ContextKind.t).
Context (active_profile : option EmbeddingProfile) (try_seconds : Z → option Z).
Context (server : ServerAuth) (limits : LimitsConfig) (config : SearchConfig) (blend_weight : f64).
#[local] Abbreviation resolve_context_selection := (resolve_context_selection dimensions exp2 limit_rows hash_order).
#[local] Abbreviation resolve_scope := (resolve_scope dimensions exp2).
#[local] Abbreviation resolve_legacy_context_selection := (resolve_legacy_context_selection dimensions exp2 limit_rows hash_order).
#[local] Abbreviation rollback_created_legacy_contexts := (rollback_created_legacy_contexts dimensions exp2).
#[local] Abbreviation rollback_created_legacy_context := (rollback_created_legacy_context dimensions exp2).
#[local] Abbreviation duplicate_candidates := (duplicate_candidates dimensions exp2 ln_1p limits config blend_weight).
#[local] Abbreviation foreground := (foreground dimensions exp2).

(** A validated memory, at its id. *)
Definition built_memory (item_index : option nat) (fresh : MemoryId) (params : RememberParams) (principal : string) (now : DateTime) :
    tool (Memory * option MemoryId) :=
  input ← of_result_by (invalid_item item_index adapter_fix) (store_memory_input_try_from (remember_memory_input params principal));
  memory ← of_result_by (λ e, match e with
                              | EngineError.Validation error => invalid_item item_index adapter_fix error
                              | engine_error => ProtocolFailure (error_data_from engine_error)
                              end) (build_memory limits try_seconds fresh input now);
  mret (memory, si_supersedes input).

Definition placement (fresh : ContextId) (principal : string) (params : RememberParams) (context_hints : list string) : tool Placement :=
  match rm_context params with
  | Some envelope =>
      selection ← resolve_context_selection principal (Some envelope) None true;
      let unresolved := is_nil (rcs_direct_ids selection) in
      mret (selection, {| sn_scope := selection_scope selection; sn_unresolved_scope := unresolved;
                          sn_resolved_by := if unresolved then ScopeResolvedBy.Unresolved else ScopeResolvedBy.Explicit;
                          sn_matched_hint := None; sn_matched_value := None |}, false)
  | None =>
      if is_some (rm_scope params) || negb (is_nil context_hints) then
        scope_resolution ← run_engine (resolve_scope principal (rm_scope params) context_hints);
        selection ← resolve_legacy_context_selection fresh principal scope_resolution LegacyContextResolutionMode.Write;
        mret (selection, canonicalize_legacy_scope_resolution scope_resolution selection, true)
      else
        selection ← resolve_context_selection principal None None true;
        let scope := selection_scope selection in
        mret (selection, {| sn_scope := scope; sn_unresolved_scope := String.eqb scope UNRESOLVED_CONTEXT_KEY;
                            sn_resolved_by := ScopeResolvedBy.Explicit; sn_matched_hint := None;
                            sn_matched_value := Some "policy_default" |}, false)
  end.

(** [duplicate_candidates(..).unwrap_or_default()]. *)
Definition duplicates_or_none (content : string) (context_ids : option (list ContextId)) (principal : option string) :
    tool (list DuplicateCandidateCard) :=
  r ← attempt (duplicate_candidates content context_ids principal);
  mret (match r with Ok cards => cards | Err _ => [] end).

Definition prepare_remember (item_index : option nat) (fresh_memory : MemoryId) (fresh_context : ContextId) (params : RememberParams)
    (principal : string) (now : DateTime) : tool PreparedRemember :=
  let summary := trim_optional_text (rm_summary params) in
  let agent_label := trim_optional_text (rm_agent_label params) in
  context_hints ← of_result_by (invalid_item item_index "Use bounded non-blank context_hints.")
                    (normalize_legacy_context_hints (rm_context_hints params));
  _ ← answer_if (if combines_contexts (rm_context params) (rm_scope params) context_hints then Some combined_context_error else None);
  built ← built_memory item_index fresh_memory params principal now;
  let '(memory, supersedes) := built in
  placed ← placement fresh_context principal params context_hints;
  let '(selection, scope_resolution, used_legacy_adapter) := placed in
  let memory := placed_in (sn_scope scope_resolution) memory in
  let warnings := write_quality_warnings (m_content memory) summary (sn_unresolved_scope scope_resolution) (m_tags memory)
                    (len (m_entities memory))
    ++ (if used_legacy_adapter : bool
        then [quality_warning "legacy_scope_adapter"
                "legacy scope input was adapted to a private governed context; migrate this caller to the context envelope"] else []) in
  duplicates ← duplicates_or_none (m_content memory) (Some (rcs_effective_ids selection)) (Some principal);
  let warnings := warnings
    ++ (if is_nil duplicates then []
        else [quality_warning "duplicate_candidate"
                "similar memories already exist; review duplicate_candidates before relying on this write"]) in
  mret {| pr_memory := memory; pr_supersedes := supersedes;
          pr_metadata := {| md_memory_id := m_id memory; md_scope_key := Some (sn_scope scope_resolution); md_summary := summary;
                            md_agent_label := agent_label; md_created_by_principal := Some principal;
                            md_quality_flags := code_of_warnings warnings; md_schema_version := 1 |};
          pr_scope_resolution := scope_resolution; pr_context_resolution := rcs_resolution selection;
          pr_direct_context_ids := rcs_direct_ids selection; pr_duplicate_candidates := duplicates; pr_warnings := warnings;
          pr_created_legacy_context := rcs_created_legacy_context selection |}.

(** The validation alone, of a batch's item before any is prepared. *)
Definition prevalidate_remember (item_index : option nat) (fresh : MemoryId) (params : RememberParams) (principal : string) (now : DateTime) :
    tool unit :=
  _ ← built_memory item_index fresh params principal now; mret ().

(** ** [remember] and [remember_many] *)

Definition item_response (id : MemoryId) (p : PreparedRemember) : RememberManyItemResponse :=
  {| mr_id := id; mr_scope := sn_scope (pr_scope_resolution p); mr_unresolved_scope := sn_unresolved_scope (pr_scope_resolution p);
     mr_scope_resolution := pr_scope_resolution p; mr_context_resolution := Some (pr_context_resolution p);
     mr_contexts := cs_direct (pr_context_resolution p); mr_duplicate_candidates := pr_duplicate_candidates p;
     mr_warnings := pr_warnings p |}.
Definition remember (fresh_memory : MemoryId) (fresh_context : ContextId) (context : RequestContext) (params : RememberParams) :
    tool RememberResponse :=
  principal ← writer server context;
  now ← run_engine clock_now;
  prepared ← prepare_remember None fresh_memory fresh_context params principal now;
  id ← or_cleanup
    (run_engine (foreground (store_memory_with_metadata_contexts dimensions active_profile (pr_memory prepared)
       (pr_supersedes prepared) (pr_metadata prepared) (pr_direct_context_ids prepared))))
    (run_engine (rollback_created_legacy_context (pr_created_legacy_context prepared) principal));
  let warnings := pr_warnings prepared in
  mret {| rsp_operation := operation_summary OperationStatus.Applied 1 warnings (next_action_for_warnings warnings);
          rsp_item := item_response id prepared |}.

Fixpoint prevalidate_each (index : nat) (fresh : nat → MemoryId) (params : list RememberParams) (principal : string) (now : DateTime) :
    tool unit :=
  match params with
  | [] => mret ()
  | item :: params =>
      _ ← prevalidate_remember (Some index) (fresh index) item principal now;
      prevalidate_each (S index) fresh params principal now
  end.
(** [created]: what the items before created. *)
Fixpoint prepare_each (index : nat) (fresh_memory : nat → MemoryId) (fresh_context : nat → ContextId) (params : list RememberParams)
    (principal : string) (now : DateTime) (created : list ContextId) : tool (list PreparedRemember) :=
  match params with
  | [] => mret []
  | item :: params =>
      prepared ← or_cleanup
        (prepare_remember (Some index) (fresh_memory index) (fresh_context index) item principal now)
        (run_engine (rollback_created_legacy_contexts created principal));
      rest ← prepare_each (S index) fresh_memory fresh_context params principal now
        (created ++ option_list (pr_created_legacy_context prepared));
      mret (prepared :: rest)
  end.
Definition created_by_items (items : list PreparedRemember) : list ContextId := concat (map (λ p, option_list (pr_created_legacy_context p)) items).
(** [placeholder] are the ids of the responses before the store answers. *)
Definition remember_many (fresh_memory placeholder : nat → MemoryId) (fresh_context : nat → ContextId) (context : RequestContext)
    (memories : list RememberManyItem.t) : tool RememberManyResponse :=
  principal ← writer server context;
  _ ← answer_if (batch_len_tool_error "memories" (len memories) (lc_max_batch_size limits)
        "Split the remember_many request into smaller batches.");
  now ← run_engine clock_now;
  let params := map remember_params_from memories in
  _ ← prevalidate_each 0 fresh_memory params principal now;
  items ← prepare_each 0 fresh_memory fresh_context params principal now [];
  ids ← or_cleanup
    (run_engine (foreground (batch_store_with_metadata_contexts dimensions active_profile limits (map pr_memory items)
       (map pr_supersedes items) (map pr_metadata items) (map pr_direct_context_ids items))))
    (run_engine (rollback_created_legacy_contexts (created_by_items items) principal));
  let all_warnings := concat (map pr_warnings items) in
  mret {| rmr_operation := operation_summary OperationStatus.Applied (len ids) all_warnings (next_action_for_warnings all_warnings);
          rmr_memories := imap (λ i p, item_response (default (placeholder i) (ids !! i)) p) items |}.

(** ** [revise] *)

(** What a revision puts the memory in: the selection's direct contexts and
    scope, the revision it expects, what was created, and what to report. *)
Record Replacement := {
  rx_scope_update : option string;
  rx_context_ids : option (list ContextId);
  rx_expected_revision : option Z;
  rx_created : option ContextId;
  rx_scope_resolution : option ScopeResolution;
  rx_context_resolution : option ContextResolution;
  rx_warnings : list QualityWarning;
}.
Definition no_replacement : Replacement :=
  {| rx_scope_update := None; rx_context_ids := None; rx_expected_revision := None; rx_created := None; rx_scope_resolution := None;
     rx_context_resolution := None; rx_warnings := [] |}.
Definition unpreserved_error : ToolError :=
  tool_error ToolErrorCode.Conflict (Some "scope") "legacy scope cannot safely preserve every existing context membership"
    (Some "Restore visibility to every attached context, or use an explicit context envelope after confirming the complete replacement set.") false.
Definition no_direct_context_error : ToolError :=
  tool_error ToolErrorCode.ContextRequired (Some "scope") "legacy scope did not resolve to a direct context"
    (Some "Use context_resolve, then retry revise with an explicit context reference.") false.
Definition modify_denied_error (id : MemoryId) : ToolError :=
  tool_error ToolErrorCode.AccessDenied (Some "id") ("access denied: principal cannot modify memory " +:+ ulid id)
    (Some "Use a trusted principal that owns or is allowed to modify this memory.") false.
(** The selected context first, then the other memberships there are. *)
Definition replaced_contexts (selected_id : ContextId) (existing : list MemoryContext) : list ContextId :=
  selected_id :: List.filter (λ id, negb (bool_decide (id = selected_id)))
                   (map (λ m, cd_id (mcx_context m)) (List.filter (λ m, negb (mcx_ordinal m =? 0)) existing)).

(** A legacy scope replaces the primary context of the memory and preserves
    the other memberships, which the caller must all see. *)
Definition replace_primary (id : MemoryId) (principal : string) (selection : ResolvedContextSelection) :
    tool (Z * ResolvedContextSelection) :=
  memory ← run_engine (get_memory dimensions exp2 id (Some principal));
  match memory with
  | None => answer (memory_not_found_error id)
  | Some memory =>
      match optimistic_revision memory with
      | None => refuse (ProtocolFailure (error_data_from (EngineError.Store
                  (StoreError.Conflict ("memory " +:+ ulid id +:+ " has no optimistic revision")))))
      | Some expected_revision =>
          existing ← run_engine (call dimensions exp2 (get_memory_contexts id principal));
          stored_membership_count ← run_engine (call dimensions exp2 (λ _, count_memory_contexts_for_write id principal));
          _ ← answer_if (if bool_decide (stored_membership_count = Some (len existing)) then None else Some unpreserved_error);
          match rcs_direct_ids selection with
          | [] => answer no_direct_context_error
          | selected_id :: _ =>
              complete ← resolve_context_selection principal (Some (envelope_of_ids (replaced_contexts selected_id existing))) None true;
              mret (expected_revision, complete)
          end
      end
  end.
Definition replacement (fresh : ContextId) (principal : string) (params : ReviseParams) (context_hints : list string) : tool Replacement :=
  match rv_context params with
  | Some envelope =>
      selection ← resolve_context_selection principal (Some envelope) None true;
      mret {| rx_scope_update := Some (selection_scope selection); rx_context_ids := Some (rcs_direct_ids selection);
              rx_expected_revision := None; rx_created := None; rx_scope_resolution := None;
              rx_context_resolution := Some (rcs_resolution selection);
              rx_warnings := if is_nil (rcs_direct_ids selection)
                then [quality_warning "missing_scope"
                        ("context classification was explicitly deferred; memory was placed in " +:+ UNRESOLVED_CONTEXT_KEY)] else [] |}
  | None =>
      if is_some (rv_scope params) || negb (is_nil context_hints) then
        resolution ← run_engine (resolve_scope principal (rv_scope params) context_hints);
        selection ← resolve_legacy_context_selection fresh principal resolution LegacyContextResolutionMode.Write;
        let resolution := canonicalize_legacy_scope_resolution resolution selection in
        let created := rcs_created_legacy_context selection in
        replaced ← or_cleanup (replace_primary (rv_id params) principal selection)
                     (run_engine (rollback_created_legacy_context created principal));
        let '(expected_revision, complete) := replaced in
        mret {| rx_scope_update := Some (sn_scope resolution); rx_context_ids := Some (rcs_direct_ids complete);
                rx_expected_revision := Some expected_revision; rx_created := created; rx_scope_resolution := Some resolution;
                rx_context_resolution := Some (rcs_resolution complete);
                rx_warnings := [quality_warning "legacy_scope_adapter"
                  "legacy scope replaced only the compatibility-primary context; other memberships were preserved"] |}
      else mret no_replacement
  end.
Definition revision_patch (scope_update summary agent_label : option string) : option MetadataPatch :=
  let patch := {| mp_scope_key := scope_update; mp_summary := summary; mp_clear_summary := false; mp_agent_label := agent_label;
                  mp_clear_agent_label := false |} in
  if metadata_patch_is_empty patch then None else Some patch.
Definition revision_update (params : ReviseParams) (scope_update : option string) (tags : option (list string)) (entities : option (list Entity)) :
    MemoryUpdate :=
  {| mu_content := rv_content params; mu_tags := tags; mu_access_policy := normalize_optional_access_policy (rv_access_policy params);
     mu_importance := Importance.new <$> rv_importance params; mu_expires_at := None; mu_confidence := Confidence.new <$> rv_confidence params;
     mu_source_conversation := scope_update; mu_entities := entities |}.

Definition revise (fresh : ContextId) (context : RequestContext) (params : ReviseParams) : tool UpdateResponse :=
  principal ← writer server context;
  let id := rv_id params in
  let summary := trim_optional_text (rv_summary params) in
  let agent_label := trim_optional_text (rv_agent_label params) in
  context_hints ← of_validated (normalize_legacy_context_hints (rv_context_hints params));
  tags ← of_validated (normalize_optional_string_array "tags" (rv_tags params));
  entities ← of_validated (normalize_optional_entity_inputs (rv_entities params));
  _ ← answer_if (if combines_contexts (rv_context params) (rv_scope params) context_hints then Some combined_context_error else None);
  r ← replacement fresh principal params context_hints;
  let patch := revision_patch (rx_scope_update r) summary agent_label in
  let update := revision_update params (rx_scope_update r) tags entities in
  let roll_back := run_engine (rollback_created_legacy_context (rx_created r) principal) in
  update_outcome ← or_cleanup
    (run_engine (foreground
       match rx_expected_revision r with
       | Some expected_revision =>
           update_memory_if_unmodified_with_metadata_contexts dimensions active_profile limits id expected_revision update patch
             (rx_context_ids r) principal
       | None => update_memory_with_metadata_contexts dimensions active_profile limits id update patch (rx_context_ids r) principal
       end)) roll_back;
  _ ← (if bool_decide (ao_outcome update_outcome = WriteOutcome.Applied) then mret () else roll_back);
  match ao_outcome update_outcome with
  | WriteOutcome.NotFound => answer (memory_not_found_error id)
  | WriteOutcome.Denied => answer (modify_denied_error id)
  | WriteOutcome.Applied =>
      contexts ← run_engine (call dimensions exp2 (get_memory_contexts id principal));
      mret {| ur_operation := operation_summary OperationStatus.Applied 1 (rx_warnings r) (next_action_for_warnings (rx_warnings r));
              ur_updated := true; ur_scope_resolution := rx_scope_resolution r; ur_context_resolution := rx_context_resolution r;
              ur_contexts := map (λ m, context_descriptor_from (mcx_context m)) contexts |}
  end.

(** ** [handoff] *)

Record PreparedHandoffWrite := {
  pw_memory : Memory;
  pw_supersedes : option MemoryId;
  pw_metadata : MemoryMetadata;
  pw_context_ids : list ContextId;
}.
Record PreparedHandoff := { ph_suggestion : HandoffSuggestion; ph_write : option PreparedHandoffWrite; ph_created : option ContextId }.

Definition handoff_memory_input (c : HandoffCandidate) (author : option string) : MemoryInput :=
  {| mi_content := ho_content c; mi_tags := ho_tags c; mi_source_agent := author;
     mi_source_conversation := Some UNRESOLVED_CONTEXT_KEY; mi_origin_conversation := Some UNRESOLVED_CONTEXT_KEY;
     mi_source_user := None; mi_ttl_seconds := None; mi_access_policy := None; mi_memory_type := ho_memory_type c;
     mi_importance := None; mi_confidence := None; mi_supersedes := None; mi_entities := ho_entities c |}.
Definition handoff_placement (fresh : ContextId) (principal : string) (commit : bool) (c : HandoffCandidate) (context_hints : list string) :
    tool Placement :=
  match ho_context c with
  | Some envelope =>
      selection ← resolve_context_selection principal (Some envelope) None true;
      let scope := selection_scope selection in
      mret (selection, {| sn_scope := scope; sn_unresolved_scope := String.eqb scope UNRESOLVED_CONTEXT_KEY;
                          sn_resolved_by := ScopeResolvedBy.Explicit; sn_matched_hint := None; sn_matched_value := None |}, false)
  | None =>
      if is_some (ho_scope c) || negb (is_nil context_hints) then
        scope_resolution ← run_engine (resolve_scope principal (ho_scope c) context_hints);
        selection ← resolve_legacy_context_selection fresh principal scope_resolution
          (if commit then LegacyContextResolutionMode.Write else LegacyContextResolutionMode.PreviewWrite);
        mret (selection, canonicalize_legacy_scope_resolution scope_resolution selection, true)
      else
        selection ← resolve_context_selection principal None None true;
        let unresolved := is_nil (rcs_direct_ids selection) in
        mret (selection, {| sn_scope := selection_scope selection; sn_unresolved_scope := unresolved;
                            sn_resolved_by := if unresolved then ScopeResolvedBy.Unresolved else ScopeResolvedBy.Explicit;
                            sn_matched_hint := None; sn_matched_value := None |}, false)
  end.
(** [author] is the principal, or nobody for an anonymous preview. *)
Definition prepare_handoff (fresh_memory : MemoryId) (fresh_context : ContextId) (author : option string) (commit : bool) (c : HandoffCandidate) :
    tool PreparedHandoff :=
  let metadata_summary := trim_optional_text (ho_summary c) in
  context_hints ← of_validated (normalize_legacy_context_hints (ho_context_hints c));
  _ ← answer_if (if combines_contexts (ho_context c) (ho_scope c) context_hints then Some combined_context_error else None);
  now ← run_engine clock_now;
  input ← of_validated (store_memory_input_try_from (handoff_memory_input c author));
  memory ← run_engine (of_engine_result (build_memory limits try_seconds fresh_memory input now));
  placed ← handoff_placement fresh_context (principal_or_anonymous author) commit c context_hints;
  let '(selection, scope_resolution, used_legacy_adapter) := placed in
  let scope := sn_scope scope_resolution in
  let memory := placed_in scope memory in
  let warnings := write_quality_warnings (m_content memory) (ho_summary c) (sn_unresolved_scope scope_resolution) (m_tags memory)
                    (len (m_entities memory))
    ++ (if used_legacy_adapter : bool
        then [quality_warning "legacy_scope_adapter" "legacy scope input was adapted to governed context membership"] else []) in
  duplicates ← duplicates_or_none (m_content memory) (Some (rcs_effective_ids selection)) author;
  let warnings := warnings
    ++ (if is_nil duplicates then []
        else [quality_warning "duplicate_candidate"
                "similar memories already exist; review existing memories before committing this handoff candidate"]) in
  mret {| ph_suggestion := {| hs_content := ho_content c; hs_scope := scope; hs_unresolved_scope := sn_unresolved_scope scope_resolution;
                              hs_scope_resolution := scope_resolution; hs_context_resolution := Some (rcs_resolution selection);
                              hs_contexts := cs_direct (rcs_resolution selection); hs_warnings := warnings; hs_id := None;
                              hs_duplicate_candidates := duplicates; hs_next_action := next_action_for_warnings warnings |};
          ph_write := if commit
            then Some {| pw_memory := memory; pw_supersedes := si_supersedes input;
                         pw_metadata := {| md_memory_id := m_id memory; md_scope_key := Some scope; md_summary := metadata_summary;
                                           md_agent_label := None; md_created_by_principal := author;
                                           md_quality_flags := code_of_warnings warnings; md_schema_version := 1 |};
                         pw_context_ids := rcs_direct_ids selection |}
            else None;
          ph_created := rcs_created_legacy_context selection |}.
Fixpoint prepare_handoffs (index : nat) (fresh_memory : nat → MemoryId) (fresh_context : nat → ContextId) (author : option string)
    (commit : bool) (candidates : list HandoffCandidate) (created : list ContextId) : tool (list PreparedHandoff) :=
  match candidates with
  | [] => mret []
  | c :: candidates =>
      prepared ← or_cleanup (prepare_handoff (fresh_memory index) (fresh_context index) author commit c)
                   (run_engine (rollback_created_legacy_contexts created (principal_or_anonymous author)));
      rest ← prepare_handoffs (S index) fresh_memory fresh_context author commit candidates (created ++ option_list (ph_created prepared));
      mret (prepared :: rest)
  end.
Definition with_id (id : option MemoryId) (s : HandoffSuggestion) : HandoffSuggestion :=
  {| hs_content := hs_content s; hs_scope := hs_scope s; hs_unresolved_scope := hs_unresolved_scope s;
     hs_scope_resolution := hs_scope_resolution s; hs_context_resolution := hs_context_resolution s; hs_contexts := hs_contexts s;
     hs_warnings := hs_warnings s; hs_id := first_some id (hs_id s); hs_duplicate_candidates := hs_duplicate_candidates s;
     hs_next_action := hs_next_action s |}.
(** Stores what was prepared; the suggestions with their ids. *)
Definition commit_handoffs (principal : string) (prepared : list PreparedHandoff) : tool (list HandoffSuggestion * Z) :=
  let writes := omap ph_write prepared in
  ids ← or_cleanup
    (run_engine (foreground (batch_store_with_metadata_contexts dimensions active_profile limits (map pw_memory writes)
       (map pw_supersedes writes) (map pw_metadata writes) (map pw_context_ids writes))))
    (run_engine (rollback_created_legacy_contexts (concat (map (λ p, option_list (ph_created p)) prepared)) principal));
  if len ids =? len writes
  then mret (imap (λ i p, with_id (ids !! i) (ph_suggestion p)) prepared, len ids)
  else refuse (ProtocolFailure (internal_error "handoff batch store returned an unexpected ID count")).

Definition handoff (fresh_memory : nat → MemoryId) (fresh_context : nat → ContextId) (context : RequestContext)
    (candidates : list HandoffCandidateItem.t) (commit : bool) : tool HandoffResponse :=
  let request_principal := principal_for_context server context in
  write_principal ← (if commit then principal ← writer server context; mret (Some principal)
                     else _ ← reader server context; mret None);
  _ ← answer_if (batch_len_tool_error "candidates" (len candidates) (lc_max_batch_size limits)
        "Pass one or more candidates, and split large handoff requests into smaller batches.");
  let author := first_some write_principal request_principal in
  prepared ← prepare_handoffs 0 fresh_memory fresh_context author commit (map handoff_candidate_from candidates) [];
  committed ← (if commit then commit_handoffs (principal_or_anonymous author) prepared
               else mret (map ph_suggestion prepared, 0));
  let '(suggested_writes, committed_count) := committed in
  let status := if commit then (if committed_count =? 0 then OperationStatus.NoOp else OperationStatus.Applied) else OperationStatus.Preview in
  let all_warnings := concat (map (λ p, hs_warnings (ph_suggestion p)) prepared) in
  mret {| hf_operation := operation_summary status committed_count all_warnings (if commit then NextAction.None else NextAction.Continue);
          hf_committed := commit; hf_suggested_writes := suggested_writes |}.
End writes.
