(* ===== verification/ServerAdmin.v ===== *)
(** * ServerAdmin: the admin tools that filter or list, [src/src/server/mod.rs]

    A filter of an admin tool names contexts by an envelope or by legacy
    scopes, which may be expanded to their ancestors. With the filters the
    tools [admin_scope_register], [admin_scope_list], [admin_list],
    [admin_count], [admin_bulk_delete], [admin_bulk_update],
    [admin_consolidate] and [admin_reembed], and the report of the metadata
    migration. *)
From Stdlib Require Import ZArith Lia.
From stdpp Require Import base list option strings gmap sets pretty.
From S2P Require Import Stats Integrity Governance Hierarchy Systems Prelude Text Floats Lists Errors Types Validation Consolidation Context StoreTypes Ranking Store Membership Crud ContextAdmin Admin LegacyScopes Revisions Operations Search Authorization Accounting Config ContextSelect Selection ContextReads ServerTypes Engine EngineConsolidation Programs Orchestrator EngineWrites Foreground Server ServerContexts ServerScopes ServerSearch ServerWrites.

(** ** Data *)

(** The fields removed from the API are kept as whether they are present. *)
Record AdminFilterFields := {
  af_tags : option (list string);
  af_agent_label : option string;
  af_context : option ContextEnvelope;
  af_scope : option string;
  af_scopes : option (list string);
  af_origin_scope : option string;
  af_memory_type : option MemoryType.t;
  af_include_superseded : option bool;
  af_entity : option string;
  af_entity_type : option string;
  af_deprecated_source_agent : bool;
  af_deprecated_source_conversation : bool;
  af_deprecated_origin_conversation : bool;
  af_deprecated_scope_keys_any : bool;
}.
Record CommonFilterFields := {
  cf_tags : option (list string);
  cf_agent_label : option string;
  cf_scope : option string;
  cf_origin_scope : option string;
  cf_scopes_any : option (list string);
  cf_context_ids : option (list ContextId);
  cf_legacy_context_ids_any : option (list ContextId);
  cf_explicit_context_filter : bool;
  cf_principal : option string;
  cf_memory_type : option MemoryType.t;
  cf_include_superseded : option bool;
  cf_entity : option string;
  cf_entity_type : option string;
}.
Record AdminScopeRegisterParams := {
  sg_scope_key : string;
  sg_display_name : string;
  sg_description : option string;
  sg_aliases : list string;
  sg_matchers : list string;
  sg_parent : option string;
  sg_related : list string;
}.
Record ScopeEntry := {
  se_scope_key : string;
  se_display_name : string;
  se_description : option string;
  se_aliases : list string;
  se_matchers : list string;
  se_parent : option string;
  se_related : list string;
}.
Definition scope_entry_from (scope : ScopeDefinition) : ScopeEntry :=
  {| se_scope_key := sd_scope_key scope; se_display_name := sd_display_name scope; se_description := sd_description scope;
     se_aliases := sd_aliases scope; se_matchers := sd_matchers scope; se_parent := sd_parent scope; se_related := sd_related scope |}.
Record AdminListParams := {
  al_filter : AdminFilterFields;
  al_text_search : option string;
  al_has_embedding : option bool;
  al_limit : option Z;
  al_expand_scopes : option bool;
}.
Record AdminListResponse := { ar_count : Z; ar_memories : list InventoryCard; ar_warnings : list QualityWarning }.
(** [top_tags_limit] is 10 when the request leaves it out. *)
Definition default_top_tags_limit : Z := 10.
Record AdminCountParams := { an_filter : AdminFilterFields; an_top_tags_limit : Z; an_expand_scopes : option bool }.
Record TagCount := { tc_tag : string; tc_count : Z }.
Record AgentCount := { agc_agent_label : string; agc_count : Z }.
Record ScopeCount := { scc_scope : string; scc_count : Z }.
Record MemoryTypeCount := { mtc_memory_type : MemoryType.t; mtc_count : Z }.
Record CountResponse := {
  cn_total : Z;
  cn_with_embedding : Z;
  cn_without_embedding : Z;
  cn_expired : Z;
  cn_by_tag : list TagCount;
  cn_by_agent_label : list AgentCount;
  cn_storage_bytes : option Z;
  cn_oldest_memory : option DateTime;
  cn_newest_memory : option DateTime;
  cn_scope_count : Z;
  cn_by_scope : list ScopeCount;
  cn_by_memory_type : list MemoryTypeCount;
  cn_superseded_count : Z;
}.
Definition count_response (stats : MemoryStats) : CountResponse :=
  {| cn_total := ms_total stats; cn_with_embedding := ms_with_embedding stats; cn_without_embedding := ms_without_embedding stats;
     cn_expired := ms_expired stats;
     cn_by_tag := map (λ '(tag, count), {| tc_tag := tag; tc_count := count |}) (ms_by_tag stats);
     cn_by_agent_label := map (λ '(agent_label, count), {| agc_agent_label := agent_label; agc_count := count |}) (ms_by_agent_label stats);
     cn_storage_bytes := ms_storage_bytes stats; cn_oldest_memory := ms_oldest_memory stats; cn_newest_memory := ms_newest_memory stats;
     cn_scope_count := ms_scope_count stats;
     cn_by_scope := map (λ '(scope, count), {| scc_scope := scope; scc_count := count |}) (ms_by_scope stats);
     cn_by_memory_type := map (λ '(memory_type, count), {| mtc_memory_type := memory_type; mtc_count := count |}) (ms_by_memory_type stats);
     cn_superseded_count := ms_superseded_count stats |}.
Record AdminBulkDeleteParams := { ad_filter : AdminFilterFields; ad_text_search : option string; ad_expand_scopes : option bool }.
Record BulkDeleteResponse := { bdr_operation : OperationSummary; bdr_deleted : Z; bdr_matched : Z; bdr_capped : bool }.
Record AdminBulkUpdateParams := {
  au_filter : AdminFilterFields;
  au_text_search : option string;
  au_set_tags : option (list string);
  au_importance : option f64;
  au_access_policy : option AccessPolicyInput.t;
  au_expand_scopes : option bool;
}.
Record BulkUpdateResponse := { bur_operation : OperationSummary; bur_updated : Z; bur_denied : Z; bur_matched : Z; bur_capped : bool }.
Record AdminConsolidateParams := {
  ac_context : option ContextEnvelope;
  ac_scope : option string;
  ac_scopes : option (list string);
  ac_deprecated_scope_keys_any : bool;
  ac_similarity_threshold : f64;
  ac_limit : Z;
  ac_dry_run : bool;
}.
Record ConsolidateResponse := {
  con_operation : OperationSummary;
  con_groups : list DuplicateGroup;
  con_merged : bool;
  con_candidate_count : Z;
  con_capped : bool;
}.
Record ReembedResponse := { re_operation : OperationSummary; re_queued : Z }.

(** ** Filters *)

(** [AdminFilterError::into_tool_result] of an engine error. *)
Definition admin_filter_failure (e : EngineError.t) : Failure :=
  match e with
  | EngineError.Validation error =>
      ToolFailure (tool_error ToolErrorCode.InvalidParams (Some (ve_field error)) (validation_error_text error)
        (Some "Correct the invalid administrative filter and retry.") false)
  | e => ProtocolFailure (error_data_from e)
  end.
Definition filter_validated {A} (r : validated A) : tool A := of_result_by admin_filter_failure (validated_as_engine r).

(** [ValidatedFilter::try_from]. *)
Definition validate_and_normalize_filter (fields : CommonFilterFields) : validated (MemoryFilter * QueryContext) :=
  principal ← normalize_optional_non_empty "principal" (cf_principal fields);
  agent_label ← normalize_optional_non_empty "agent_label" (cf_agent_label fields);
  scope ← normalize_legacy_scope_value "scope" (cf_scope fields);
  origin_scope ← normalize_legacy_scope_value "origin_scope" (cf_origin_scope fields);
  scopes_any ← match cf_scopes_any fields with
               | Some values => Some <$> normalize_legacy_scope_values "scopes_any" (Some values)
               | None => Ok None
               end;
  tags ← normalize_optional_string_array "tags" (cf_tags fields);
  entity ← normalize_optional_non_empty "entity" (cf_entity fields);
  entity_type ← normalize_optional_non_empty "entity_type" (cf_entity_type fields);
  let f := memory_filter_default in
  Ok ({| mf_context_ids := cf_context_ids fields; mf_legacy_context_ids_any := cf_legacy_context_ids_any fields;
         mf_explicit_context_filter := cf_explicit_context_filter fields; mf_tags := tags; mf_agent_label := agent_label;
         mf_scope := scope; mf_origin_scope := origin_scope; mf_scopes_any := scopes_any; mf_time_range := mf_time_range f;
         mf_text_search := mf_text_search f; mf_has_embedding := mf_has_embedding f; mf_limit := mf_limit f;
         mf_memory_type := cf_memory_type fields; mf_include_superseded := cf_include_superseded fields; mf_entity := entity;
         mf_entities_any := mf_entities_any f; mf_entity_type := entity_type |}, {| qc_principal := principal |}).
(** The fields a tool sets on the validated filter. *)
Definition with_inventory (text_search : option string) (has_embedding : option bool) (limit : option Z) (f : MemoryFilter) : MemoryFilter :=
  {| mf_context_ids := mf_context_ids f; mf_legacy_context_ids_any := mf_legacy_context_ids_any f;
     mf_explicit_context_filter := mf_explicit_context_filter f; mf_tags := mf_tags f; mf_agent_label := mf_agent_label f;
     mf_scope := mf_scope f; mf_origin_scope := mf_origin_scope f; mf_scopes_any := mf_scopes_any f;
     mf_time_range := mf_time_range f; mf_text_search := text_search; mf_has_embedding := has_embedding;
     mf_limit := limit; mf_memory_type := mf_memory_type f; mf_include_superseded := mf_include_superseded f;
     mf_entity := mf_entity f; mf_entities_any := mf_entities_any f; mf_entity_type := mf_entity_type f |}.
Definition with_context_ids (ids : option (list ContextId)) (f : MemoryFilter) : MemoryFilter :=
  {| mf_context_ids := ids; mf_legacy_context_ids_any := mf_legacy_context_ids_any f;
     mf_explicit_context_filter := mf_explicit_context_filter f; mf_tags := mf_tags f; mf_agent_label := mf_agent_label f;
     mf_scope := mf_scope f; mf_origin_scope := mf_origin_scope f; mf_scopes_any := mf_scopes_any f;
     mf_time_range := mf_time_range f; mf_text_search := mf_text_search f; mf_has_embedding := mf_has_embedding f;
     mf_limit := mf_limit f; mf_memory_type := mf_memory_type f; mf_include_superseded := mf_include_superseded f;
     mf_entity := mf_entity f; mf_entities_any := mf_entities_any f; mf_entity_type := mf_entity_type f |}.

Section admin.
Context `{Render, UnicodeCase, Chrono, UrlLib, Sha256Lib, CosineDistance, Surroundings} (dimensions : Z) (exp2 : f64 → f64).
Context (limit_rows : nat → gset ContextId → gset ContextId) (hash_order : gset ContextKind.t → list ContextKind.t).
Context (active_profile : option EmbeddingProfile) (server : ServerAuth) (limits : LimitsConfig).
#[local] Abbreviation call := (call dimensions exp2).
#[local] Abbreviation resolve_context_selection := (resolve_context_selection dimensions exp2 limit_rows hash_order).

(** A store reader of the filter resolution. *)
Definition filter_key_matches (principal value : string) : tool (list ContextRecord) :=
  lift admin_filter_failure
    (call (λ _, find_context_records principal false (ContextExactLookup.Key None (normalize_context_key value)))).
Definition resolve_admin_context_id (principal : string) (context_id : ContextId) : tool ResolvedContextSelection :=
  resolve_context_selection principal (Some (envelope_of_ids [context_id])) None false.
Definition scope_ambiguous (message matched_by : string) (records : list ContextRecord) : ToolError :=
  context_resolution_error ToolErrorCode.ContextAmbiguous "scope" message (map (scope_candidate matched_by) records).
Definition resolve_direct_admin_legacy_context (principal value : string) : tool ResolvedContextSelection :=
  exact_matches ← filter_key_matches principal value;
  match exact_matches with
  | [exact] => resolve_admin_context_id principal (cd_id (cxr_context exact))
  | [] =>
      resolution ← lift admin_filter_failure (resolve_scope dimensions exp2 principal (Some value) []);
      resolve_legacy_context_selection dimensions exp2 limit_rows hash_order 0%N principal resolution LegacyContextResolutionMode.Read
  | _ => answer (scope_ambiguous "legacy scope resolves to multiple governed contexts" "legacy_scope" exact_matches)
  end.
Definition resolve_generated_admin_ancestor (principal value : string) : tool (option ResolvedContextSelection) :=
  generated_matches ← filter_key_matches principal value;
  match generated_matches with
  | [generated] => selection ← resolve_admin_context_id principal (cd_id (cxr_context generated)); mret (Some selection)
  | [] => mret None
  | _ => answer (scope_ambiguous "generated ancestor resolves to multiple governed contexts" "legacy_scope_ancestor" generated_matches)
  end.
(** One value of the filter, its contexts added once each. *)
Definition add_admin_value (principal : string) (directly_requested : gset string) (ids : list ContextId) (value : string) :
    tool (list ContextId) :=
  selection ← (if bool_decide (normalize_context_key value ∈ directly_requested)
               then selection ← resolve_direct_admin_legacy_context principal value; mret (Some selection)
               else resolve_generated_admin_ancestor principal value);
  mret (match selection with
        | None => ids
        | Some selection => fold_left (λ ids id, if bool_decide (id ∈ ids) then ids else ids ++ [id]) (rcs_effective_ids selection) ids
        end).
Definition resolve_admin_legacy_context_ids (principal : string) (values : list string) (expand_legacy_scopes : bool) : tool (list ContextId) :=
  let directly_requested : gset string := list_to_set (map normalize_context_key values) in
  values ← (if expand_legacy_scopes then filter_validated (expand_scope_keys values) else mret values);
  ids ← tool_fold (add_admin_value principal directly_requested) [] values;
  _ ← answer_if (if is_nil ids
        then Some (context_resolution_error ToolErrorCode.ContextRequired "scope" "legacy scope filter resolved to no governed contexts" [])
        else None);
  mret ids.

(** The contexts a filter asks for: together or any of them, and whether it
    asks. *)
Definition filter_contexts (fields : AdminFilterFields) (principal : string) (scope : option string) (scopes : list string)
    (expand_legacy_scopes : bool) : tool (option (list ContextId) * option (list ContextId) * bool) :=
  match af_context fields with
  | Some envelope =>
      selection ← resolve_context_selection principal (Some envelope) None false;
      let ids := rcs_effective_ids selection in
      mret (Some ids, None, negb (is_nil ids))
  | None =>
      match scopes, scope with
      | _ :: _, _ =>
          ids ← resolve_admin_legacy_context_ids principal (option_list scope ++ scopes) expand_legacy_scopes;
          mret (None, Some ids, true)
      | [], Some scope =>
          ids ← resolve_admin_legacy_context_ids principal [scope] expand_legacy_scopes;
          mret (Some ids, None, true)
      | [], None => mret (Some [], None, false)
      end
  end.
Definition common_filter_from_admin (fields : AdminFilterFields) (principal : option string) (expand_legacy_scopes : bool) :
    tool CommonFilterFields :=
  _ ← filter_validated (reject_removed_admin_field (af_deprecated_source_agent fields) "source_agent" "agent_label");
  _ ← filter_validated (reject_removed_admin_field (af_deprecated_source_conversation fields) "source_conversation" "scope");
  _ ← filter_validated (reject_removed_admin_field (af_deprecated_origin_conversation fields) "origin_conversation" "origin_scope");
  _ ← filter_validated (reject_removed_admin_field (af_deprecated_scope_keys_any fields) "scope_keys_any" "scopes");
  scope ← filter_validated (normalize_legacy_scope_value "scope" (af_scope fields));
  scopes ← filter_validated (normalize_legacy_scope_values "scopes" (af_scopes fields));
  _ ← filter_validated (bail_if (is_some (af_context fields) && (is_some scope || negb (is_nil scopes)))
        (validation_error_new "context" "context cannot be combined with legacy scope or scopes"));
  contexts ← filter_contexts fields (principal_or_anonymous principal) scope scopes expand_legacy_scopes;
  let '(context_ids, legacy_context_ids_any, explicit_context_filter) := contexts in
  agent_label ← filter_validated (normalize_optional_non_empty "agent_label" (af_agent_label fields));
  origin_scope ← filter_validated (normalize_legacy_scope_value "origin_scope" (af_origin_scope fields));
  mret {| cf_tags := af_tags fields; cf_agent_label := agent_label; cf_scope := None; cf_origin_scope := origin_scope;
          cf_scopes_any := None; cf_context_ids := context_ids; cf_legacy_context_ids_any := legacy_context_ids_any;
          cf_explicit_context_filter := explicit_context_filter; cf_principal := principal; cf_memory_type := af_memory_type fields;
          cf_include_superseded := af_include_superseded fields; cf_entity := af_entity fields; cf_entity_type := af_entity_type fields |}.

(** ** The scope registry *)

Definition scope_definition_of (params : AdminScopeRegisterParams) : validated ScopeDefinition :=
  scope_key ← normalize_non_empty "scope_key" (sg_scope_key params);
  display_name ← normalize_non_empty "display_name" (sg_display_name params);
  aliases ← normalize_optional_string_array "aliases" (Some (sg_aliases params));
  matchers ← normalize_optional_string_array "matchers" (Some (sg_matchers params));
  related ← normalize_optional_string_array "related" (Some (sg_related params));
  description ← normalize_optional_non_empty "description" (sg_description params);
  parent ← normalize_optional_non_empty "parent" (sg_parent params);
  Ok {| sd_scope_key := scope_key; sd_display_name := display_name; sd_description := description; sd_aliases := default [] aliases;
        sd_matchers := default [] matchers; sd_parent := parent; sd_related := default [] related |}.
Definition admin_scope_register (fresh : nat → ContextId) (context : RequestContext) (params : AdminScopeRegisterParams) : tool ScopeEntry :=
  principal ← writer server context;
  scope ← of_validated (scope_definition_of params);
  _ ← of_answer (map_err (λ message, tool_error ToolErrorCode.InvalidParams (Some "admin_scope_register") message
        (Some "Reduce legacy scope keys, descriptions, aliases, matchers, and related entries to the documented context limits.") false)
      (validate_legacy_scope_definition scope));
  _ ← run_engine (register_scope_for_principal dimensions exp2 fresh scope principal);
  mret (scope_entry_from scope).
Definition admin_scope_list (context : RequestContext) : tool (list ScopeEntry) :=
  request_principal ← reader server context;
  scopes ← run_engine (list_scopes_for_principal dimensions exp2 (principal_or_anonymous request_principal));
  mret (map scope_entry_from scopes).

(** ** Listing and bulk maintenance *)

Definition admin_list (context : RequestContext) (params : AdminListParams) : tool AdminListResponse :=
  request_principal ← reader server context;
  let expand_scopes := default true (al_expand_scopes params) in
  common ← common_filter_from_admin (al_filter params) request_principal expand_scopes;
  validated ← of_validated (validate_and_normalize_filter common);
  let '(filter, ctx) := validated in
  text_search ← of_validated (normalize_text_search (al_text_search params));
  filter ← of_validated (maybe_expand_scope_hierarchy (with_inventory text_search (al_has_embedding params) (al_limit params) filter) expand_scopes);
  now ← run_engine clock_now;
  memories ← run_engine (list_memories limits dimensions exp2 filter ctx);
  views ← run_engine (memory_views dimensions exp2 memories request_principal);
  let cards := map (λ view, inventory_card_from_view view now) views in
  mret {| ar_count := len cards; ar_memories := cards; ar_warnings := [] |}.

Definition admin_count `{SqlitePages} (context : RequestContext) (params : AdminCountParams) : tool CountResponse :=
  request_principal ← reader server context;
  let expand_scopes := default true (an_expand_scopes params) in
  common ← common_filter_from_admin (an_filter params) request_principal expand_scopes;
  validated ← of_validated (validate_and_normalize_filter common);
  let '(filter, ctx) := validated in
  filter ← of_validated (maybe_expand_scope_hierarchy filter expand_scopes);
  stats ← run_engine (count_memories limits dimensions exp2 filter ctx (an_top_tags_limit params));
  mret (count_response stats).

Definition admin_migration_report (context : RequestContext) : tool MetadataMigrationReport :=
  _ ← answer_if (local_admin_error_for_context server context);
  run_engine (metadata_migration_report dimensions exp2).

(** The filter of a bulk operation: without an explicit context filter it
    covers memories in no context as well. *)
Definition maintenance_filter (fields : AdminFilterFields) (principal : string) (text_search : option string) (expand_scopes : bool) :
    tool (MemoryFilter * QueryContext * bool) :=
  common ← common_filter_from_admin fields (Some principal) expand_scopes;
  validated ← of_validated (validate_and_normalize_filter common);
  let '(filter, _) := validated in
  let includes_contextless := negb (cf_explicit_context_filter common) in
  let filter := if includes_contextless then with_context_ids None filter else filter in
  text_search ← of_validated (normalize_text_search text_search);
  filter ← of_validated (maybe_expand_scope_hierarchy
    (with_inventory text_search (mf_has_embedding filter) (mf_limit filter) filter) expand_scopes);
  mret (filter, {| qc_principal := Some principal |}, includes_contextless).
Definition maintenance_warnings (includes_contextless : bool) : list QualityWarning :=
  if includes_contextless
  then [quality_warning "contextless_maintenance_scope"
          "No context filter was supplied, so this maintenance operation also considered memories with no active context, including explicitly deferred and archived-only rows that broad admin reads omit."]
  else [].
Definition maintenance_summary (changed matched : Z) (denied : option Z) (capped : bool) (warnings : list QualityWarning) : OperationSummary :=
  {| os_status := OperationStatus.Applied; os_changed := changed; os_matched := Some matched; os_denied := denied; os_capped := capped;
     os_next_action := next_action_for_warnings warnings; os_warnings := warnings; os_affected := [] |}.
Definition admin_bulk_delete (context : RequestContext) (params : AdminBulkDeleteParams) : tool BulkDeleteResponse :=
  principal ← writer server context;
  filtered ← maintenance_filter (ad_filter params) principal (ad_text_search params) (default true (ad_expand_scopes params));
  let '(filter, ctx, includes_contextless) := filtered in
  result ← run_engine (bulk_delete limits dimensions exp2 principal filter ctx);
  mret {| bdr_operation := maintenance_summary (bd_deleted result) (bd_matched result) None (bd_capped result) (maintenance_warnings includes_contextless);
          bdr_deleted := bd_deleted result; bdr_matched := bd_matched result; bdr_capped := bd_capped result |}.
Definition admin_bulk_update (context : RequestContext) (params : AdminBulkUpdateParams) : tool BulkUpdateResponse :=
  principal ← writer server context;
  filtered ← maintenance_filter (au_filter params) principal (au_text_search params) (default true (au_expand_scopes params));
  let '(filter, ctx, includes_contextless) := filtered in
  set_tags ← of_validated (normalize_optional_string_array "set_tags" (au_set_tags params));
  result ← run_engine (bulk_update limits dimensions exp2 principal filter ctx
    {| bf_tags := set_tags; bf_importance := Importance.new <$> au_importance params;
       bf_access_policy := normalize_optional_access_policy (au_access_policy params) |});
  mret {| bur_operation := maintenance_summary (bu_updated result) (bu_matched result) (Some (bu_denied result)) (bu_capped result)
                             (maintenance_warnings includes_contextless);
          bur_updated := bu_updated result; bur_denied := bu_denied result; bur_matched := bu_matched result; bur_capped := bu_capped result |}.

(** ** [admin_consolidate] and [admin_reembed] *)

Definition combined_scopes_error : ToolError :=
  tool_error ToolErrorCode.InvalidParams (Some "context") "context cannot be combined with legacy scope or scopes"
    (Some "Use the shared context envelope alone, or use only legacy scope/scopes.") false.
Definition consolidation_contexts (principal : string) (context : option ContextEnvelope) (scope : option string) (scopes : list string) :
    tool (list ContextId * option (list ContextId)) :=
  match context with
  | Some envelope =>
      selection ← resolve_context_selection principal (Some envelope) None false;
      mret (rcs_effective_ids selection, None)
  | None =>
      match scopes, scope with
      | _ :: _, _ => ids ← resolve_admin_legacy_context_ids principal (option_list scope ++ scopes) false; mret ([], Some ids)
      | [], Some scope => ids ← resolve_admin_legacy_context_ids principal [scope] false; mret (ids, None)
      | [], None => mret ([], None)
      end
  end.
Definition consolidate_summary (dry_run : bool) (result : ConsolidateResult) : OperationSummary :=
  {| os_status := if dry_run then OperationStatus.Preview else OperationStatus.Applied;
     os_changed := if negb dry_run && cr_merged result then 1 else 0; os_matched := None; os_denied := None;
     os_capped := cr_capped result; os_next_action := if dry_run then NextAction.Continue else NextAction.None; os_warnings := [];
     os_affected := [] |}.
Definition admin_consolidate (context : RequestContext) (params : AdminConsolidateParams) : tool ConsolidateResponse :=
  principal ← writer server context;
  _ ← of_validated (reject_removed_admin_field (ac_deprecated_scope_keys_any params) "scope_keys_any" "scopes");
  scope ← of_validated (normalize_legacy_scope_value "scope" (ac_scope params));
  scopes ← of_validated (normalize_legacy_scope_values "scopes" (ac_scopes params));
  _ ← answer_if (if is_some (ac_context params) && (is_some scope || negb (is_nil scopes)) then Some combined_scopes_error else None);
  contexts ← consolidation_contexts principal (ac_context params) scope scopes;
  let '(context_ids, legacy_context_ids_any) := contexts in
  result ← run_engine (consolidate_memories dimensions exp2 limits principal context_ids legacy_context_ids_any
    (ac_similarity_threshold params) (ac_limit params) (ac_dry_run params));
  mret {| con_operation := consolidate_summary (ac_dry_run params) result; con_groups := cr_groups result; con_merged := cr_merged result;
          con_candidate_count := cr_candidate_count result; con_capped := cr_capped result |}.

Definition reembed_not_found_error (id : MemoryId) : ToolError :=
  tool_error ToolErrorCode.NotFound (Some "id") ("memory not found or not authorized: " +:+ ulid id)
    (Some "Check the memory ID and principal access before retrying.") false.
Definition admin_reembed (context : RequestContext) (id : option MemoryId) (limit : option Z) : tool ReembedResponse :=
  principal ← writer server context;
  let bulk_limit := default (lc_max_reembed_limit limits) limit in
  _ ← answer_if (if is_none id
        then batch_len_tool_error "limit" bulk_limit (lc_max_reembed_limit limits)
               "Pass a positive limit within max_reembed_limit, or split re-embed work into smaller batches."
        else None);
  outcome ← run_engine (foreground dimensions exp2 (reembed dimensions active_profile limits
    match id with Some id => Single id principal | None => Bulk bulk_limit principal end));
  match outcome with
  | Queued queued => mret {| re_operation := operation_summary OperationStatus.Queued queued [] NextAction.None; re_queued := queued |}
  | NotFound id => answer (reembed_not_found_error id)
  end.
End admin.
