(* ===== verification/ServerEffects.v ===== *)
(** * ServerEffects: what the tools may do to the tables

    A logic of tools under interference ([works]), and what the tools that
    search or write change: a search only the impressions of memories, a write
    only in the name of its caller. *)
From Stdlib Require Import ZArith Lia.
From stdpp Require Import base list option strings gmap sets pretty.
From S2P Require Import Integrity Governance Hierarchy Systems Prelude Text Floats Lists Errors Types Validation Context StoreTypes Ranking Store Membership Crud ContextAdmin Admin LegacyScopes Revisions Operations Search Authorization Accounting Config ContextSelect Selection ContextReads ServerTypes Engine EngineSearch Programs Orchestrator EngineWrites Foreground Server ServerContexts ServerSelection ServerScopes ServerSearch ServerWrites.

Section logic.
Context `{Render, UnicodeCase, Chrono} (dimensions : Z) (exp2 : f64 → f64).
#[local] Abbreviation follows := (follows dimensions exp2).
#[local] Abbreviation turn := (turn dimensions exp2).

(** From well-formed context tables the tool ends, whatever the others do;
    the tables change by what the others do and by operations in [mine]. *)
Definition works (mine : system_op → Prop) {A} (m : tool A) (Q : A → Prop) : Prop := ∀ se, wf_registry (st_registry (se_store se)) →
  ∃ r se', m se = Some (r, se') ∧ follows mine se se' ∧ ∀ a, r = Ok a → Q a.
#[local] Abbreviation always := (λ _, True).
Context (mine : system_op → Prop).

Lemma follows_registry se se' : follows mine se se' → wf_registry (st_registry (se_store se)) → wf_registry (st_registry (se_store se')).
Proof. intros (used & os & _ & -> & _). apply run_systems_registry. Qed.
Lemma works_ret {A} (a : A) (Q : A → Prop) : Q a → works mine (mret a) Q.
Proof. intros Ha se _. exists (Ok a), se. split_and!; [done|reflexivity|]. by intros ? [= <-]. Qed.
Lemma works_refuse {A} e (Q : A → Prop) : works mine (refuse e) Q.
Proof. intros se _. by exists (Err e), se. Qed.
Lemma works_bind {A B} (m : tool A) (k : A → tool B) (Q : A → Prop) (Q' : B → Prop) :
  works mine m Q → (∀ a, Q a → works mine (k a) Q') → works mine (m ≫= k) Q'.
Proof.
  intros Hm Hk se Hwf. destruct (Hm se Hwf) as ([a|e] & se1 & Hr1 & Hf1 & HQ).
  - destruct (Hk a (HQ a eq_refl) se1) as (r & se2 & Hr2 & Hf2 & HQ2); [by eapply follows_registry|].
    exists r, se2. rewrite (tool_step _ _ _ _ _ Hr1). split_and!; [done|by etrans|done].
  - exists (Err e), se1. by rewrite (tool_stop _ _ _ _ _ Hr1).
Qed.
Lemma works_seq {A B} (m : tool A) (k : A → tool B) (Q : B → Prop) :
  works mine m always → (∀ a, works mine (k a) Q) → works mine (m ≫= k) Q.
Proof. intros Hm Hk. eapply works_bind; eauto. Qed.
Lemma works_mono {A} (mine' : system_op → Prop) (m : tool A) (Q Q' : A → Prop) :
  (∀ o, mine' o → mine o) → works mine' m Q → (∀ a, Q a → Q' a) → works mine m Q'.
Proof. intros Hmine Hm HQ se Hwf. destruct (Hm se Hwf) as (r & se' & Hr & Hf & Hq). exists r, se'. split_and!; [done|by eapply follows_mono|auto]. Qed.
Lemma works_any {A} (m : tool A) (Q : A → Prop) : works mine m Q → works mine m always.
Proof. intros Hm. by eapply works_mono. Qed.
Lemma works_lift {A} f (m : engine A) (Q : A → Prop) : obeys dimensions exp2 mine A m Q → works mine (lift f m) Q.
Proof.
  intros Hm se _. destruct (Hm se) as (r & se' & Hr & Hf & HQ). exists (map_err f r), se'. unfold lift. rewrite Hr.
  split_and!; [done|done|]. destruct r; cbn; [|done]. intros ? [= <-]. by apply HQ.
Qed.
Lemma works_engine {A} (m : engine A) (Q : A → Prop) : obeys dimensions exp2 mine A m Q → works mine (run_engine m) Q.
Proof. apply works_lift. Qed.
Lemma works_attempt {A} (m : engine A) : obeys dimensions exp2 mine A m always → works mine (attempt m) always.
Proof. intros Hm se _. destruct (Hm se) as (r & se' & Hr & Hf & _). exists (Ok r), se'. unfold attempt. by rewrite Hr. Qed.
Lemma works_by {E A} (f : E → Failure) (r : result E A) (Q : A → Prop) : (∀ a, r = Ok a → Q a) → works mine (of_result_by f r) Q.
Proof. destruct r as [a|e]; cbn; intros HQ; [by apply works_ret, HQ|apply works_refuse]. Qed.
Lemma works_validated {A} (r : validated A) (Q : A → Prop) : (∀ a, r = Ok a → Q a) → works mine (of_validated r) Q.
Proof. destruct r as [a|e]; cbn; intros HQ; [by apply works_ret, HQ|apply works_refuse]. Qed.
Lemma works_answered {A} (r : result ToolError A) (Q : A → Prop) : (∀ a, r = Ok a → Q a) → works mine (of_answer r) Q.
Proof. destruct r as [a|e]; cbn; intros HQ; [by apply works_ret, HQ|apply works_refuse]. Qed.
Lemma works_answer_if o : works mine (answer_if o) always.
Proof. destruct o; [apply works_refuse|by apply works_ret]. Qed.
Lemma works_cleanup {A} (m : tool A) (c : tool unit) (Q : A → Prop) : works mine m Q → works mine c always → works mine (or_cleanup m c) Q.
Proof.
  intros Hm Hc se Hwf. destruct (Hm se Hwf) as ([a|e] & se1 & Hr1 & Hf1 & HQ); unfold or_cleanup; rewrite Hr1; [by exists (Ok a), se1|].
  destruct (Hc se1) as ([[]|e'] & se2 & Hr2 & Hf2 & _); [by eapply follows_registry|..].
  - exists (Err e), se2. rewrite (tool_step _ _ _ _ _ Hr2). split_and!; [done|by etrans|done].
  - exists (Err e'), se2. rewrite (tool_stop _ _ _ _ _ Hr2). split_and!; [done|by etrans|done].
Qed.

(** A call of the store: a reader, or an operation of [mine]. *)
Lemma obeys_try_read {A} (m : DateTime → tx A) : (∀ now, steps eq (m now)) → obeys dimensions exp2 mine _ (try_call dimensions exp2 m) always.
Proof.
  intros Hm se. unfold try_call. set (t := turn se). unfold with_conn.
  destruct (m (se_now t) (se_store t)) as [[a s]|e] eqn:Hr; cbn.
  - rewrite <- (Hm _ _ _ _ Hr). exists (Ok (Ok a)), t. split_and!; [by destruct t|apply follows_turn|done].
  - exists (Ok (Err e)), t. split_and!; [by destruct t|apply follows_turn|done].
Qed.
Lemma obeys_try_context {A} (m : DateTime → tx A) (o : DateTime → context_op) :
  (∀ now, mine (Contexts (o now))) → (∀ now, co_tx (o now) = Operations.forget (m now)) →
  obeys dimensions exp2 mine _ (try_call dimensions exp2 m) always.
Proof.
  intros Ho Hop se. unfold try_call. set (t := turn se). destruct (with_conn (m (se_now t)) (se_store t)) as [r s] eqn:Hr.
  exists (Ok r), (mkSession s (se_now t) (se_schedule t)). split_and!; [done| |done].
  etrans; [apply follows_turn|]. fold t. exists [], [Contexts (o (se_now t))]. split_and!; [done| |].
  - cbn. unfold run_context. rewrite Hop. unfold with_conn, Operations.forget, mbind, tx_bind in *.
    destruct (m (se_now t) (se_store t)) as [[a s1]|e]; by simplify_eq/=.
  - intros o' ->%list_elem_of_singleton. right. apply Ho.
Qed.
Lemma obeys_call {A} (m : DateTime → tx A) :
  obeys dimensions exp2 mine _ (try_call dimensions exp2 m) always → obeys dimensions exp2 mine _ (call dimensions exp2 m) always.
Proof.
  intros Hm. unfold call. eapply logic_bind; [exact Hm|]. intros [a|e] _; [by apply logic_ret|by apply obeys_fail].
Qed.
Lemma obeys_reads {A} (m : DateTime → tx A) : (∀ now, steps eq (m now)) → obeys dimensions exp2 mine _ (call dimensions exp2 m) always.
Proof. intros Hm. by apply obeys_call, obeys_try_read. Qed.
End logic.

(** ** Selecting contexts *)

Section scopes.
Context `{Render, UnicodeCase, Chrono, UrlLib, Sha256Lib} (dimensions : Z) (exp2 : f64 → f64).
Context (limit_rows : nat → gset ContextId → gset ContextId) (hash_order : gset ContextKind.t → list ContextKind.t).
Context (Hhash : ∀ kinds, hash_order kinds ≡ₚ elements kinds).
#[local] Abbreviation works := (works dimensions exp2).
#[local] Abbreviation always := (λ _, True).

Lemma works_reach {A} mine (m : tool A) :
  (∀ se, wf_registry (st_registry (se_store se)) → ∃ r se', m se = Some (r, se') ∧ reach dimensions exp2 se se') → works mine m always.
Proof. intros Hm se Hwf. destruct (Hm se Hwf) as (r & se' & Hr & Hf). exists r, se'. split_and!; [done|by eapply follows_mono; [|exact Hf]|done]. Qed.
(** Every answer of the tool satisfies [Q]. *)
Definition yields {A} (m : tool A) (Q : A → Prop) : Prop := ∀ se a se', m se = Some (Ok a, se') → Q a.
Lemma yields_ret {A} (a : A) (Q : A → Prop) : Q a → yields (mret a) Q.
Proof. by intros Ha se ? ? [= <- <-]. Qed.
Lemma yields_answer {A} e (Q : A → Prop) : yields (answer e) Q.
Proof. by intros se ? ?. Qed.
Lemma yields_bind {A B} (m : tool A) (k : A → tool B) (Q : A → Prop) (R : B → Prop) :
  yields m Q → (∀ a, Q a → yields (k a) R) → yields (m ≫= k) R.
Proof.
  intros Hm Hk se b se'. unfold mbind, tool_bind. destruct (m se) as [[[a|e] se1]|] eqn:Hr; [|done..]. intros Hb. by eapply (Hk a); [eapply Hm|].
Qed.
Lemma yields_seq {A B} (m : tool A) (k : A → tool B) (R : B → Prop) : (∀ a, yields (k a) R) → yields (m ≫= k) R.
Proof. intros Hk. apply (yields_bind m k (λ _, True)); [by intros ???|auto]. Qed.
Lemma works_yields {A} mine (m : tool A) (Q R : A → Prop) : works mine m Q → yields m R → works mine m (λ a, Q a ∧ R a).
Proof. intros Hm Hy se Hwf. destruct (Hm se Hwf) as (r & se' & Hr & Hf & HQ). exists r, se'. split_and!; [done|done|]. intros a ->. eauto. Qed.

(** Selecting contexts creates none. *)
#[local] Abbreviation unborn := (λ s, rcs_created_legacy_context s = None).
Lemma selection_unborn principal envelope query governed :
  yields (resolve_context_selection dimensions exp2 limit_rows hash_order principal envelope query governed) unborn.
Proof.
  unfold resolve_context_selection. do 3 (apply yields_seq; intros ?). case_match; [by apply yields_ret|].
  apply yields_seq. intros [[selected [|]] candidates]; [apply yields_answer|].
  apply (yields_bind _ _ (λ c, match c with Finished s => rcs_created_legacy_context s = None | Chosen _ => True end)).
  - case_match; [|by apply yields_ret]. unfold choose_without_match. case_match; [apply yields_answer|]. case_match; [by apply yields_ret|].
    apply yields_seq. intros sel. case_match; [by apply yields_ret|]. case_match; [by apply yields_ret|].
    case_match; [apply yields_answer|by apply yields_ret].
  - intros [s|sel] Hc; [by apply yields_ret|]. unfold finish_selection. do 3 (apply yields_seq; intros ?). by apply yields_ret.
Qed.
Lemma works_selection mine principal envelope query governed :
  works mine (resolve_context_selection dimensions exp2 limit_rows hash_order principal envelope query governed) unborn.
Proof.
  apply (works_mono _ _ _ mine _ (λ s, True ∧ rcs_created_legacy_context s = None)); [done| |by intros s [_ Hs]].
  apply works_yields; [|apply selection_unborn]. apply works_reach. intros se Hwf.
  destruct (selection_run dimensions exp2 limit_rows hash_order principal envelope query governed se Hhash Hwf) as (r & se' & Hr & Hf & _). eauto.
Qed.
Lemma works_records mine f principal : works mine (lift f (authorized_context_records dimensions exp2 principal)) always.
Proof.
  apply works_reach. intros se _. destruct (authorized_context_records_ends dimensions exp2 principal se) as (r & se' & Hr & Hf).
  exists (map_err f r), se'. unfold lift. by rewrite Hr.
Qed.
Lemma works_policy_state mine f principal : works mine (lift f (context_policy_state dimensions exp2 principal)) always.
Proof.
  apply works_reach. intros se _. destruct (policy_state_ends dimensions exp2 principal se) as (r & se' & Hr & Hf).
  exists (map_err f r), se'. unfold lift. by rewrite Hr.
Qed.
Lemma works_find_scope mine principal archived kind key : works mine (find_by_scope_key dimensions exp2 principal archived kind key) always.
Proof.
  unfold find_by_scope_key, ask_store. apply works_seq; [|intros r; by apply works_answered].
  apply works_engine, obeys_try_read. intros now. apply reads_find.
Qed.
Lemma obeys_resolve_scope mine principal scope hints : obeys dimensions exp2 mine _ (resolve_scope dimensions exp2 principal scope hints) always.
Proof.
  unfold resolve_scope. eapply (logic_bind _ _ _ _ always).
  { unfold validated_as_engine. destruct (normalize_legacy_scope_value _ _); cbn; [by apply logic_ret|by apply obeys_fail]. }
  intros o _. case_match; [by apply logic_ret|]. eapply (logic_bind _ _ _ _ always); [|intros; by apply logic_ret].
  apply obeys_reads. intros now. unfold list_legacy_scope_contexts. steps_tac.
Qed.

(** The compatibility contexts of [p]: made for a legacy scope, private to it. *)
Definition adopts (p : string) (o : system_op) : Prop :=
  (∃ fresh scope now, o = Contexts (CoCreate (legacy_context_draft fresh p scope) (legacy_context_audit fresh p scope) now))
  ∨ ∃ id, o = Contexts (CoRollbackLegacy id p).
Lemma obeys_rollbacks mine p ids : (∀ o, adopts p o → mine o) →
  obeys dimensions exp2 mine _ (rollback_created_legacy_contexts dimensions exp2 ids p) always.
Proof.
  intros Hp. unfold rollback_created_legacy_contexts. generalize (rev ids) as l, (∅ : gset ContextId) as seen.
  induction l as [|id l IH]; intros seen; cbn [rollback_each]; [by apply logic_ret|]. case_bool_decide; [apply IH|].
  eapply (logic_bind _ _ _ _ always); [|intros _ _; apply IH].
  apply obeys_call, (obeys_try_context _ _ _ _ (λ _, CoRollbackLegacy id p)); [|done]. intros _. apply Hp. right. by exists id.
Qed.
(** A legacy scope's context is the drawn one, made by a write. *)
#[local] Abbreviation own_child := (λ fresh mode s, ∀ id, rcs_created_legacy_context s = Some id → id = fresh ∧ mode_persists_creation mode = true).
Lemma works_legacy mine fresh p resolution mode : (mode_persists_creation mode = true → ∀ o, adopts p o → mine o) →
  works mine (resolve_legacy_context_selection dimensions exp2 limit_rows hash_order fresh p resolution mode) (own_child fresh mode).
Proof.
  intros Hp. unfold resolve_legacy_context_selection. case_match; [apply works_refuse|]. case_match.
  { case_match; [apply works_refuse|]. eapply works_bind; [apply works_selection|]. intros s Hs. apply works_ret. cbn. by rewrite Hs. }
  assert (Hselect : ∀ found, (∀ id, snd found = Some id → id = fresh ∧ mode_persists_creation mode = true) →
    works mine (select_scope_context dimensions exp2 limit_rows hash_order p mode found) (own_child fresh mode)).
  { intros [id created] Hc. unfold select_scope_context. apply works_seq; [|intros s; by apply works_ret].
    apply works_cleanup; [eapply works_any, works_selection|]. apply works_lift. unfold rollback_created_legacy_context.
    destruct created as [c|]; cbn in Hc; [by apply obeys_rollbacks, Hp, (Hc c)|]. by refine (logic_ret _ () _ _). }
  apply works_seq; [apply works_find_scope|]. intros [|record [|]]; [|by apply Hselect|apply works_refuse]. case_match.
  2: { apply works_seq; [apply works_records|]. intros r. apply works_refuse. }
  eapply (works_bind _ _ _ _ _ (λ a, match a with inl s => rcs_created_legacy_context s = None
      | inr found => ∀ id, snd found = Some id → id = fresh ∧ mode_persists_creation mode = true end));
    [|intros [s|found] Ha; [apply works_ret; by rewrite Ha|by apply Hselect]].
  unfold adopt_new_scope. apply works_seq; [by apply works_answered|]. intros _. apply works_seq; [apply works_policy_state|]. intros state.
  apply works_seq; [by apply works_answered|]. intros _. apply works_seq.
  { destruct (bool_decide (mode = _)); [|by apply works_ret]. apply works_seq; [apply works_find_scope|]. intros l. apply works_answer_if. }
  intros _. destruct (mode_persists_creation mode) eqn:Hmode.
  2: { eapply works_bind; [|intros s Hs; apply works_ret, Hs]. apply works_answered. unfold preview_selection. by intros s (_ & _ & [= <-])%bind_Ok. }
  eapply works_bind; [|intros found Hfound; apply works_ret, Hfound]. unfold create_or_refresh.
  apply works_seq; [|intros [c|e]; [by apply works_ret; intros ? [= <-]|]].
  - apply works_engine. apply (obeys_try_context _ _ _ _ (λ now, CoCreate (legacy_context_draft fresh p (sn_scope resolution))
      (legacy_context_audit fresh p (sn_scope resolution)) now)); [|done]. intros now. apply Hp; [done|]. left. eauto.
  - apply works_seq; [apply works_find_scope|]. intros l. destruct (map _ l) as [|? [|]]; [apply works_refuse|by apply works_ret|apply works_refuse].
Qed.
End scopes.

(** ** Searching *)

Lemma principal_is_trimmed server context p : write_principal_for server (principal_for_context server context) = Some p → trim p = p ∧ is_blank p = false.
Proof.
  assert (Hn : ∀ q p, named_principal q = Some p → trim p = p ∧ is_blank p = false).
  { intros q p'. unfold named_principal. destruct (str_is_empty (trim q)) eqn:He; cbn; [done|]. destruct (is_reserved_principal _); cbn; [done|].
    intros [= <-]. unfold is_blank. rewrite trim_idemp. by rewrite He. }
  destruct (principal_for_context server context) as [q|] eqn:Hq; cbn.
  - intros [= <-]. unfold principal_for_context in Hq. destruct context as [headers|]; cbn in Hq.
    + unfold http_principal_for_context in Hq. destruct (sa_http_auth_token server); cbn in Hq; [|done]. destruct (bearer_matches _ _); cbn in Hq; [|done].
      destruct (sa_http_principal_source server); [by eapply Hn|]. unfold trusted_proxy_principal in Hq.
      destruct (headers header_name) as [v|]; cbn in Hq; [|done]. by apply (Hn v).
    + unfold configured_mcp_principal in Hq. destruct (sa_principal server); cbn in Hq; [|done]. by eapply Hn.
  - destruct (sa_anonymous_policy server); cbn; try done. intros [= <-]. by vm_compute.
Qed.

Section search.
Context `{Render, UnicodeCase, Chrono, UrlLib, Sha256Lib, Fts, VectorIndex, SearchProviders} (dimensions : Z) (exp2 ln_1p : f64 → f64).
Context (limit_rows : nat → gset ContextId → gset ContextId) (hash_order : gset ContextKind.t → list ContextKind.t).
Context (server : ServerAuth) (limits : LimitsConfig) (config : SearchConfig) (blend_weight : f64).
Context (Hhash : ∀ kinds, hash_order kinds ≡ₚ elements kinds).
Context (Hpool : 0 ≤ lc_max_candidate_pool_size limits) (Hsemantic : 0 ≤ sc_semantic_candidate_k config)
  (Hkeyword : 0 ≤ sc_keyword_candidate_k config) (Hmax : 0 ≤ lc_max_search_limit limits).
#[local] Abbreviation works := (works dimensions exp2).
#[local] Abbreviation always := (λ _, True).
Context (mine : system_op → Prop) (Himpression : ∀ o, impression o → mine o).

Lemma obeys_search request : 0 ≤ rq_limit request →
  obeys dimensions exp2 mine _ (search_memories dimensions exp2 ln_1p limits config request) always.
Proof.
  intros Hl se. destruct (search_answers dimensions exp2 ln_1p limits config request Hpool Hsemantic Hkeyword true Hl Hmax se)
    as (r & se' & Hr & Hf & _). exists r, se'. split_and!; [done|by eapply follows_mono|done].
Qed.
Lemma obeys_viewed outcome p : obeys dimensions exp2 mine _ (viewed_results dimensions exp2 outcome p) always.
Proof.
  unfold viewed_results. eapply (logic_bind _ _ _ _ always); [|intros; by apply logic_ret]. intros se.
  destruct (memory_views_run dimensions exp2 mine se (map sr_memory (so_results outcome)) p) as (md & mb & pr & se' & Hr & Hf). eauto 6.
Qed.
Lemma works_duplicates content ids p : works mine (duplicates_or_none dimensions exp2 ln_1p limits config blend_weight content ids p) always.
Proof.
  unfold duplicates_or_none. apply works_seq; [|intros r; by apply works_ret]. apply works_attempt. unfold duplicate_candidates.
  case_match; [by apply logic_ret|]. eapply (logic_bind _ _ _ _ always); [by apply obeys_search|]. intros o _.
  eapply (logic_bind _ _ _ _ always); [apply obeys_viewed|]. intros v _. by apply logic_ret.
Qed.
Lemma works_reader context : works mine (reader server context) always.
Proof. unfold reader. case_match; [apply works_refuse|by apply works_ret]. Qed.
Lemma works_read_selection p context scope hints :
  works mine (read_selection dimensions exp2 limit_rows hash_order p context scope hints) always.
Proof.
  unfold read_selection. destruct context as [envelope|].
  { apply works_seq; [by eapply works_any, works_selection|]. intros s. by apply works_ret. }
  case_match; [|apply works_seq; [by eapply works_any, works_selection|]; intros s; by apply works_ret].
  apply works_seq; [apply works_engine, obeys_resolve_scope|]. intros r. apply works_seq; [by eapply works_any, works_legacy|]. intros s. by apply works_ret.
Qed.
Lemma works_recall context params : 0 ≤ rp_limit params →
  works mine (recall dimensions exp2 ln_1p limit_rows hash_order server limits config blend_weight context params) always.
Proof.
  intros Hl. unfold recall. apply works_seq; [apply works_reader|]. intros p. do 3 (apply works_seq; [by apply works_validated|]; intros ?).
  apply works_seq; [apply works_answer_if|]. intros _. apply works_seq; [apply works_read_selection|]. intros [[r s] w].
  do 2 (apply works_seq; [by apply works_validated|]; intros ?). apply works_seq; [by apply works_engine, obeys_search|]. intros o.
  apply works_seq; [apply works_engine, obeys_viewed|]. intros v. cbv zeta. destruct (fold_left _ _ _). by apply works_ret.
Qed.
Lemma works_brief context params : 0 ≤ bp_limit params →
  works mine (brief dimensions exp2 ln_1p limit_rows hash_order server limits config blend_weight context params) always.
Proof.
  intros Hl. unfold brief. apply works_seq; [apply works_reader|]. intros p. cbv zeta. apply works_seq; [by apply works_validated|]. intros h.
  apply works_seq; [apply works_answer_if|]. intros _. apply works_seq; [apply works_read_selection|]. intros [[r s] w].
  apply works_seq; [by apply works_engine, obeys_search|]. intros o.
  apply works_seq; [apply works_engine, obeys_viewed|]. intros v. by apply works_ret.
Qed.
End search.
