(* ===== verification/Attribution.v ===== *)
(** * Attribution: in whose name the tools write

    The four tools that write memories ([remember], [remember_many], [revise],
    [handoff] of src/src/server/mod.rs), in the logic of ServerEffects.v:
    without a principal to write for they are refused before they touch
    anything, and with one everything they do to the tables (the memories and
    their metadata, the updates, both audit trails, the contexts adopted for
    legacy scopes) is done in its name, whatever the other sessions, the
    provider and the reranker do. *)
From Stdlib Require Import ZArith Lia.
From stdpp Require Import base list option strings gmap sets pretty.
From S2P Require Import Integrity Governance Hierarchy Systems Prelude Text Floats Lists Errors Types Validation Context StoreTypes Ranking Store Membership Crud ContextAdmin Admin LegacyScopes Revisions Operations Search Authorization Accounting Config ContextSelect Selection ContextReads ServerTypes Engine EngineSearch Programs Orchestrator EngineWrites Foreground Server ServerContexts ServerSelection ServerScopes ServerSearch ServerWrites ServerEffects.

Section writes.
Context `{Render, UnicodeCase, Chrono, UrlLib, Sha256Lib, Fts, VectorIndex, SearchProviders, Surroundings} (dimensions : Z) (exp2 ln_1p : f64 → f64).
Context (limit_rows : nat → gset ContextId → gset ContextId) (hash_order : gset ContextKind.t → list ContextKind.t).
Context (active_profile : option EmbeddingProfile) (try_seconds : Z → option Z).
Context (server : ServerAuth) (limits : LimitsConfig) (config : SearchConfig) (blend_weight : f64).
#[local] Abbreviation works := (works dimensions exp2).
#[local] Abbreviation always := (λ _, True).

(** A memory of [p] with its metadata. *)
Definition written_by (p : string) (m : Memory) (md : MemoryMetadata) : Prop :=
  source_agent (m_provenance m) = Some p ∧ md_created_by_principal md = Some p.
(** What a tool may do for [p]: adopt legacy scopes, write and update memories
    in the name of [p], embed what was written, count impressions. *)
Definition in_the_name_of (p : string) (o : system_op) : Prop :=
  match o with
  | Contexts _ => adopts p o
  | Memories (OpStoreGoverned m _ _ md _ a ca _) => written_by p m md ∧ ad_caller_agent a = Some p ∧ cad_actor_principal ca = p
  | Memories (OpStoreBatchGoverned ms _ mds _ audits cas _) =>
      (∀ m, m ∈ ms → source_agent (m_provenance (we_memory m)) = Some p) ∧ (∀ md, md ∈ mds → md_created_by_principal md = Some p)
      ∧ (∀ a, a ∈ audits → ad_caller_agent a = Some p) ∧ ∀ ca, ca ∈ cas → cad_actor_principal ca = p
  | Memories (OpUpdateGoverned _ _ _ _ q _ a ca) | Memories (OpUpdateIfUnmodified _ _ _ _ _ _ _ q _ a ca) =>
      q = p ∧ ad_caller_agent a = Some p ∧ ∀ c, ca = Some c → cad_actor_principal c = p
  | Memories (OpSetEmbedding _ _ _ _) | Memories (OpRelease _ _ _) | Memories (OpImpression _ _) => True
  | _ => False
  end.
Lemma adopts_named p o : adopts p o → in_the_name_of p o.
Proof. intros Ho. pose proof Ho as [(f & s & now & ->)|(id & ->)]; exact Ho. Qed.
Lemma impression_named p o : impression o → in_the_name_of p o.
Proof. by intros (ids & now & ->). Qed.


Lemma build_memory_agent fresh input now m p : trim p = p → si_source_agent input = Some p →
  build_memory limits try_seconds fresh input now = Ok m → source_agent (m_provenance m) = Some p.
Proof.
  intros Hp Hin. unfold build_memory, validated_as_engine. intros Hb. destruct (_ ≫= _) as [m'|e] eqn:Hm; cbn in Hb; [|done]. injection Hb as ->.
  revert Hm. rewrite Hin. do 5 (intros (? & _ & Hm)%bind_Ok; revert Hm). intros (agent & Ha & Hm)%bind_Ok. revert Hm.
  do 4 (intros (? & _ & Hm)%bind_Ok; revert Hm). intros [= <-]. cbn.
  apply normalize_optional_non_empty_Ok in Ha as [-> _]. cbn. by rewrite Hp.
Qed.

(** *** [remember] *)

#[local] Abbreviation prepare_remember := (prepare_remember dimensions exp2 ln_1p limit_rows hash_order try_seconds limits config blend_weight).
#[local] Abbreviation resolve_legacy_context_selection := (resolve_legacy_context_selection dimensions exp2 limit_rows hash_order).
Context (Hhash : ∀ kinds, hash_order kinds ≡ₚ elements kinds).
Context (Hpool : 0 ≤ lc_max_candidate_pool_size limits) (Hsemantic : 0 ≤ sc_semantic_candidate_k config)
  (Hkeyword : 0 ≤ sc_keyword_candidate_k config) (Hmax : 0 ≤ lc_max_search_limit limits).
Context (p : string) (Hp : trim p = p) (Hblank : is_blank p = false).
#[local] Abbreviation mine := (in_the_name_of p).

Lemma named_impression o : impression o → mine o.
Proof. apply impression_named. Qed.
Lemma named_adoption o : adopts p o → mine o.
Proof. apply adopts_named. Qed.
Lemma agent_is_principal m : source_agent (m_provenance m) = Some p → source_principal m = Some p.
Proof. intros Hm. unfold source_principal. by rewrite Hm, Hblank. Qed.

(** The source agent of a validated input is the caller. *)
Lemma works_built item_index fresh params now :
  works mine (built_memory try_seconds limits item_index fresh params p now) (λ built, source_agent (m_provenance (fst built)) = Some p).
Proof.
  unfold built_memory. eapply (works_bind _ _ _ _ _ (λ i, si_source_agent i = Some p)).
  { apply works_by. unfold store_memory_input_try_from. by intros i (es & _ & [= <-])%bind_Ok. }
  intros i Hi. eapply (works_bind _ _ _ _ _ (λ m, source_agent (m_provenance m) = Some p)); [|intros m Hm; by apply works_ret].
  apply works_by. intros m. by apply build_memory_agent.
Qed.
Lemma works_placement fresh params hints :
  works mine (placement dimensions exp2 limit_rows hash_order fresh p params hints)
    (λ placed, ∀ id, rcs_created_legacy_context (fst (fst placed)) = Some id → id = fresh).
Proof.
  unfold placement. case_match; [|case_match].
  - eapply works_bind; [by apply works_selection|]. intros s Hs. apply works_ret. cbn. by rewrite Hs.
  - apply works_seq; [apply works_engine, obeys_resolve_scope|]. intros r.
    eapply works_bind; [apply works_legacy; [done|intros _; apply named_adoption]|]. intros s Hs. apply works_ret. intros id Hid. by apply Hs.
  - eapply works_bind; [by apply works_selection|]. intros s Hs. apply works_ret. cbn. by rewrite Hs.
Qed.
(** What the preparation of a write answers. *)
Definition prepared_by (fresh : ContextId) (pr : PreparedRemember) : Prop :=
  written_by p (pr_memory pr) (pr_metadata pr) ∧ ∀ id, pr_created_legacy_context pr = Some id → id = fresh.
Lemma works_prepare item_index fresh_memory fresh params now :
  works mine (prepare_remember item_index fresh_memory fresh params p now) (prepared_by fresh).
Proof.
  unfold prepare_remember. apply works_seq; [by apply works_by|]. intros hints. apply works_seq; [apply works_answer_if|]. intros _.
  eapply works_bind; [apply works_built|]. intros [m sup] Hm. eapply works_bind; [apply works_placement|]. intros [[s r] adapted] Hs.
  cbv zeta. apply works_seq; [by apply works_duplicates; [..|apply named_impression]|]. intros cards. by apply works_ret.
Qed.
Lemma works_rollbacks ids : works mine (run_engine (rollback_created_legacy_contexts dimensions exp2 ids p)) always.
Proof. apply works_engine, obeys_rollbacks, named_adoption. Qed.
Lemma works_rollback created : works mine (run_engine (rollback_created_legacy_context dimensions exp2 created p)) always.
Proof. apply works_rollbacks. Qed.
(** A program of the engine whose transactions are in the name of [p]. *)
Lemma works_foreground {A} (prog : fallible A) :
  keeps_to dimensions exp2 (λ o, mine (Memories o)) prog always → works mine (run_engine (foreground dimensions exp2 prog)) always.
Proof.
  intros Hk. apply (works_mono _ _ _ (memory_op (λ o, mine (Memories o))) _ always); [by intros o (o' & -> & Ho)| |done].
  apply works_engine, obeys_foreground. by eapply keeps_to_mono; [| |exact Hk].
Qed.
Lemma works_remember fresh_memory fresh context params : write_principal_for server (principal_for_context server context) = Some p →
  works mine (remember dimensions exp2 ln_1p limit_rows hash_order active_profile try_seconds server limits config blend_weight
    fresh_memory fresh context params) always.
Proof.
  intros Hw. unfold remember, writer. rewrite Hw. eapply (works_bind _ _ _ _ _ (λ q, q = p)); [by apply works_ret|]. intros ? ->.
  apply works_seq; [by apply works_engine, obeys_clock|]. intros now. eapply works_bind; [apply works_prepare|]. intros pr [[Hm Hmd] _].
  apply works_seq; [|intros id; by apply works_ret]. apply works_cleanup; [|apply works_rollback].
  apply works_foreground, keeps_store; [done..|]. intros a now' Ha. cbn in *. rewrite agent_is_principal in Ha by done.
  split_and!; [done..|]. unfold initial_contexts_audit. cbn. by rewrite agent_is_principal.
Qed.

(** *** [remember_many] *)

Lemma works_batch memories sups mds ids :
  (∀ m, m ∈ memories → source_agent (m_provenance m) = Some p) → (∀ md, md ∈ mds → md_created_by_principal md = Some p) →
  works mine (run_engine (foreground dimensions exp2
    (batch_store_with_metadata_contexts dimensions active_profile limits memories sups mds ids))) always.
Proof.
  intros Hm Hmd. apply works_foreground, keeps_batch; [done..|]. intros audits now Ha. cbn. split_and!; [|done|..].
  - intros w (m & -> & Hin)%list_elem_of_fmap. by apply Hm.
  - intros a (i & Hi)%list_elem_of_lookup. destruct (Ha i a Hi) as (m & Hlook & ->). apply Hm. by eapply list_elem_of_lookup_2.
  - intros ca (i & Hi)%list_elem_of_lookup. apply lookup_zip_with_Some in Hi as (m & cs & -> & Hlook & _). cbn.
    rewrite agent_is_principal; [done|]. by eapply Hm, list_elem_of_lookup_2.
Qed.
Lemma works_prevalidate_each index fresh params now : works mine (prevalidate_each try_seconds limits index fresh params p now) always.
Proof.
  revert index. induction params as [|item params IH]; intros index; cbn [prevalidate_each]; [by apply works_ret|]. apply works_seq; [|auto].
  unfold prevalidate_remember. apply works_seq; [eapply works_any, works_built|]. intros _. by apply works_ret.
Qed.
Lemma works_prepare_each index fresh_memory fresh_context params now created :
  works mine (prepare_each dimensions exp2 ln_1p limit_rows hash_order try_seconds limits config blend_weight index fresh_memory fresh_context
    params p now created) (λ items, ∀ pr, pr ∈ items → written_by p (pr_memory pr) (pr_metadata pr)).
Proof.
  revert index created. induction params as [|item params IH]; intros index created; cbn [prepare_each].
  { apply works_ret. by intros pr ?%elem_of_nil. }
  eapply works_bind; [apply works_cleanup; [apply works_prepare|apply works_rollbacks]|]. intros pr [Hpr _].
  eapply works_bind; [apply IH|]. intros rest Hrest. apply works_ret. intros pr' [->|Hin]%elem_of_cons; auto.
Qed.
Lemma works_remember_many fresh_memory placeholder fresh_context context memories :
  write_principal_for server (principal_for_context server context) = Some p →
  works mine (remember_many dimensions exp2 ln_1p limit_rows hash_order active_profile try_seconds server limits config blend_weight
    fresh_memory placeholder fresh_context context memories) always.
Proof.
  intros Hw. unfold remember_many, writer. rewrite Hw. eapply (works_bind _ _ _ _ _ (λ q, q = p)); [by apply works_ret|]. intros ? ->.
  apply works_seq; [apply works_answer_if|]. intros _. apply works_seq; [by apply works_engine, obeys_clock|]. intros now. cbv zeta.
  apply works_seq; [apply works_prevalidate_each|]. intros _. eapply works_bind; [apply works_prepare_each|]. intros items Hitems.
  apply works_seq; [|intros ids; by apply works_ret]. apply works_cleanup; [apply works_batch|apply works_rollbacks].
  - intros m (pr & -> & Hin)%list_elem_of_fmap. by apply Hitems.
  - intros md (pr & -> & Hin)%list_elem_of_fmap. by apply Hitems.
Qed.

(** *** [revise] *)

Lemma works_reads ops {A} (m : DateTime → tx A) : (∀ now, steps eq (m now)) → works ops (run_engine (call dimensions exp2 m)) always.
Proof. intros Hm. by apply works_engine, obeys_reads. Qed.
Lemma works_get_contexts ops id : works ops (run_engine (call dimensions exp2 (get_memory_contexts id p))) always.
Proof. apply works_reads. intros now. unfold get_memory_contexts. steps_tac. Qed.
Lemma works_replace_primary ops id selection : works ops (replace_primary dimensions exp2 limit_rows hash_order id p selection) always.
Proof.
  unfold replace_primary. apply works_seq. { apply works_reads. intros now. unfold get_by_id. steps_tac. }
  intros [m|]; [|apply works_refuse]. destruct (optimistic_revision m) as [rev|]; [|apply works_refuse].
  apply works_seq; [apply works_get_contexts|]. intros existing.
  apply works_seq. { apply works_reads. intros now. unfold count_memory_contexts_for_write. steps_tac. }
  intros count. apply works_seq; [apply works_answer_if|]. intros _. destruct (rcs_direct_ids selection); [apply works_refuse|].
  apply works_seq; [by eapply works_any, works_selection|]. intros complete. by apply works_ret.
Qed.
Lemma works_replacement fresh params hints : works mine (replacement dimensions exp2 limit_rows hash_order fresh p params hints) always.
Proof.
  unfold replacement. case_match; [|case_match; [|by apply works_ret]].
  - apply works_seq; [by eapply works_any, works_selection|]. intros s. by apply works_ret.
  - apply works_seq; [apply works_engine, obeys_resolve_scope|]. intros r.
    apply works_seq; [eapply works_any, works_legacy; [done|intros _; apply named_adoption]|]. intros s. cbv zeta.
    apply works_seq; [apply works_cleanup; [apply works_replace_primary|apply works_rollback]|]. intros [rev complete]. by apply works_ret.
Qed.
Lemma works_revise fresh context params : write_principal_for server (principal_for_context server context) = Some p →
  works mine (revise dimensions exp2 limit_rows hash_order active_profile server limits fresh context params) always.
Proof.
  intros Hw. unfold revise, writer. rewrite Hw. eapply (works_bind _ _ _ _ _ (λ q, q = p)); [by apply works_ret|]. intros ? ->. cbv zeta.
  do 3 (apply works_seq; [by apply works_validated|]; intros ?). apply works_seq; [apply works_answer_if|]. intros _.
  apply works_seq; [apply works_replacement|]. intros r. apply works_seq; [|intros o; apply works_seq].
  - apply works_cleanup; [|apply works_rollback]. apply works_foreground. destruct (rx_expected_revision r).
    + apply keeps_update_if; [done..|]. intros u au now Ha. cbn. split_and!; [done..|]. by intros c (ids & _ & ->)%fmap_Some_1.
    + apply keeps_foreground_update; [done..|]. intros u au now Ha. cbn. split_and!; [done..|]. by intros c (ids & _ & ->)%fmap_Some_1.
  - destruct (bool_decide _); [by apply works_ret|apply works_rollback].
  - intros _. destruct (ao_outcome o); [|apply works_refuse..]. apply works_seq; [apply works_get_contexts|]. intros cs. by apply works_ret.
Qed.
End writes.

(** *** [handoff] *)

Section handoffs.
Context `{Render, UnicodeCase, Chrono, UrlLib, Sha256Lib, Fts, VectorIndex, SearchProviders, Surroundings} (dimensions : Z) (exp2 ln_1p : f64 → f64).
Context (limit_rows : nat → gset ContextId → gset ContextId) (hash_order : gset ContextKind.t → list ContextKind.t).
Context (active_profile : option EmbeddingProfile) (try_seconds : Z → option Z).
Context (server : ServerAuth) (limits : LimitsConfig) (config : SearchConfig) (blend_weight : f64).
Context (Hhash : ∀ kinds, hash_order kinds ≡ₚ elements kinds).
Context (Hpool : 0 ≤ lc_max_candidate_pool_size limits) (Hsemantic : 0 ≤ sc_semantic_candidate_k config)
  (Hkeyword : 0 ≤ sc_keyword_candidate_k config) (Hmax : 0 ≤ lc_max_search_limit limits).
#[local] Abbreviation works := (works dimensions exp2).
#[local] Abbreviation always := (λ _, True).
#[local] Abbreviation rollbacks := (rollback_created_legacy_contexts dimensions exp2).
(** The caller, and whether its candidates are stored. *)
Context (author : option string) (commit : bool).
(** A preview only counts impressions. *)
Definition handoff_op (o : system_op) : Prop := if commit then in_the_name_of (principal_or_anonymous author) o else impression o.
#[local] Abbreviation principal := (principal_or_anonymous author).

Lemma handoff_impression o : impression o → handoff_op o.
Proof. unfold handoff_op. destruct commit; [apply impression_named|done]. Qed.
Lemma handoff_adoption o : commit = true → adopts principal o → handoff_op o.
Proof. unfold handoff_op. intros ->. apply adopts_named. Qed.
Lemma works_handoff_rollbacks created : (commit = false → created = []) → works handoff_op (run_engine (rollbacks created principal)) always.
Proof.
  intros Hc. apply works_engine. destruct commit eqn:Hcommit.
  - apply obeys_rollbacks. intros o. by apply handoff_adoption.
  - rewrite (Hc eq_refl). by refine (logic_ret _ () _ _).
Qed.
Lemma works_handoff_placement fresh c hints :
  works handoff_op (handoff_placement dimensions exp2 limit_rows hash_order fresh principal commit c hints)
    (λ placed, commit = false → rcs_created_legacy_context (fst (fst placed)) = None).
Proof.
  unfold handoff_placement. case_match; [|case_match].
  - eapply works_bind; [by apply works_selection|]. intros s Hs. by apply works_ret.
  - apply works_seq; [apply works_engine, obeys_resolve_scope|]. intros r. eapply works_bind.
    + apply works_legacy; [done|]. intros Hmode o. apply handoff_adoption. by destruct commit.
    + intros s Hs. apply works_ret. cbn. intros Hcommit. destruct (rcs_created_legacy_context s) as [id|] eqn:Hid; [|done].
      destruct (Hs id Hid) as [_ Hmode]. by rewrite Hcommit in Hmode.
  - eapply works_bind; [by apply works_selection|]. intros s Hs. by apply works_ret.
Qed.
Context (Hauthor : commit = true → ∃ p, author = Some p ∧ trim p = p ∧ is_blank p = false).
Definition prepared_handoff (h : PreparedHandoff) : Prop :=
  (∀ w, ph_write h = Some w → written_by principal (pw_memory w) (pw_metadata w)) ∧ (commit = false → ph_created h = None).
Lemma works_prepare_handoff fresh_memory fresh c :
  works handoff_op (prepare_handoff dimensions exp2 ln_1p limit_rows hash_order try_seconds limits config blend_weight fresh_memory fresh
    author commit c) prepared_handoff.
Proof.
  unfold prepare_handoff. cbv zeta. apply works_seq; [by apply works_validated|]. intros hints. apply works_seq; [apply works_answer_if|].
  intros _. apply works_seq; [by apply works_engine, obeys_clock|]. intros now.
  eapply (works_bind _ _ _ _ _ (λ i, si_source_agent i = author)).
  { apply works_validated. unfold store_memory_input_try_from. by intros i (es & _ & [= <-])%bind_Ok. }
  intros i Hi. eapply (works_bind _ _ _ _ _ (λ m, commit = true → source_agent (m_provenance m) = Some principal)).
  { apply works_engine. unfold of_engine_result. destruct (build_memory _ _ _ _ _) as [m|e] eqn:Hm; [|by apply obeys_fail].
    apply logic_ret. intros Hcommit. destruct (Hauthor Hcommit) as (p & Hp & Htrim & _). rewrite Hp in *. cbn.
    by eapply build_memory_agent. }
  intros m Hm. eapply works_bind; [apply works_handoff_placement|]. intros [[s r] adapted] Hs.
  apply works_seq; [by apply works_duplicates; [..|apply handoff_impression]|]. intros cards. apply works_ret. split; cbn; [|by apply Hs].
  intros w Hw. destruct commit eqn:Hcommit; [|done]. injection Hw as <-. split; cbn; [by apply Hm|].
  destruct (Hauthor eq_refl) as (p & -> & _). done.
Qed.
Lemma works_prepare_handoffs index fresh_memory fresh_context candidates created : (commit = false → created = []) →
  works handoff_op (prepare_handoffs dimensions exp2 ln_1p limit_rows hash_order try_seconds limits config blend_weight index fresh_memory
    fresh_context author commit candidates created) (λ hs, ∀ h, h ∈ hs → prepared_handoff h).
Proof.
  revert index created. induction candidates as [|c cs IH]; intros index created Hcreated; cbn [prepare_handoffs].
  { apply works_ret. by intros h ?%elem_of_nil. }
  eapply works_bind; [apply works_cleanup; [apply works_prepare_handoff|by apply works_handoff_rollbacks]|]. intros h Hh.
  eapply works_bind; [apply IH|].
  { intros Hcommit. destruct Hh as [_ Hh]. by rewrite Hcreated, Hh. }
  intros hs Hhs. apply works_ret. intros h' [->|Hin]%elem_of_cons; auto.
Qed.
Lemma works_commit hs : commit = true → (∀ h, h ∈ hs → prepared_handoff h) →
  works handoff_op (commit_handoffs dimensions exp2 active_profile limits principal hs) always.
Proof.
  intros Hcommit Hhs. destruct (Hauthor Hcommit) as (p & Hp & Htrim & Hblank). unfold handoff_op. rewrite Hcommit, Hp in *. cbn in *.
  assert (Hw : ∀ w, w ∈ omap ph_write hs → written_by p (pw_memory w) (pw_metadata w)).
  { intros w (h & Hin & Hw)%list_elem_of_omap. destruct (Hhs h Hin) as [Hwritten _]. specialize (Hwritten w Hw). by rewrite Hp in Hwritten. }
  unfold commit_handoffs. cbv zeta. apply works_seq.
  - apply works_cleanup; [apply works_batch; [done|..]|apply works_rollbacks].
    + intros m (w & -> & Hin)%list_elem_of_fmap. by apply Hw.
    + intros md (w & -> & Hin)%list_elem_of_fmap. by apply Hw.
  - intros ids. destruct (len ids =? _); [by apply works_ret|apply works_refuse].
Qed.
End handoffs.

(** ** The tools that write *)

Section attribution.
Context `{Render, UnicodeCase, Chrono, UrlLib, Sha256Lib, Fts, VectorIndex, SearchProviders, Surroundings} (dimensions : Z) (exp2 ln_1p : f64 → f64).
Context (limit_rows : nat → gset ContextId → gset ContextId) (hash_order : gset ContextKind.t → list ContextKind.t).
Context (active_profile : option EmbeddingProfile) (try_seconds : Z → option Z).
Context (server : ServerAuth) (limits : LimitsConfig) (config : SearchConfig) (blend_weight : f64).
Context (fresh_memory placeholder : nat → MemoryId) (fresh_context : nat → ContextId) (context : RequestContext).

Inductive WriteRequest :=
| Remember (params : RememberParams)
| RememberMany (memories : list RememberManyItem.t)
| Revise (params : ReviseParams)
| Handoff (candidates : list HandoffCandidateItem.t) (commit : bool).
Inductive WriteResponse :=
| Remembered (r : RememberResponse)
| RememberedMany (r : RememberManyResponse)
| Revised (r : UpdateResponse)
| HandedOff (r : HandoffResponse).
Definition serve_write (request : WriteRequest) : tool WriteResponse :=
  match request with
  | Remember params => r ← remember dimensions exp2 ln_1p limit_rows hash_order active_profile try_seconds server limits config blend_weight
      (fresh_memory 0) (fresh_context 0) context params; mret (Remembered r)
  | RememberMany memories => r ← remember_many dimensions exp2 ln_1p limit_rows hash_order active_profile try_seconds server limits config
      blend_weight fresh_memory placeholder fresh_context context memories; mret (RememberedMany r)
  | Revise params => r ← revise dimensions exp2 limit_rows hash_order active_profile server limits (fresh_context 0) context params;
      mret (Revised r)
  | Handoff candidates commit => r ← handoff dimensions exp2 ln_1p limit_rows hash_order active_profile try_seconds server limits config
      blend_weight fresh_memory fresh_context context candidates commit; mret (HandedOff r)
  end.
(** Only the preview of a handoff stores nothing. *)
Definition is_preview (request : WriteRequest) : bool := match request with Handoff _ commit => negb commit | _ => false end.

Lemma works_handoff candidates (commit : bool) :
  (∀ kinds, hash_order kinds ≡ₚ elements kinds) → 0 ≤ lc_max_candidate_pool_size limits → 0 ≤ sc_semantic_candidate_k config →
  0 ≤ sc_keyword_candidate_k config → 0 ≤ lc_max_search_limit limits →
  let author : option string := first_some (if commit then write_principal_for server (principal_for_context server context) else None)
                  (principal_for_context server context) in
  (commit = true → is_some author = true) →
  works dimensions exp2 (handoff_op author commit)
    (handoff dimensions exp2 ln_1p limit_rows hash_order active_profile try_seconds server limits config blend_weight fresh_memory
       fresh_context context candidates commit) (λ _, True).
Proof.
  intros Hhash Hpool Hsemantic Hkeyword Hmax author Hsome. unfold handoff. cbv zeta.
  assert (Hauthor : commit = true → ∃ p, author = Some p ∧ trim p = p ∧ is_blank p = false).
  { intros ->. subst author. destruct (write_principal_for _ _) as [p|] eqn:Hp; cbn.
    - exists p. split; [done|]. by eapply principal_is_trimmed.
    - destruct (principal_for_context server context); cbn in *; [done|]. by discriminate (Hsome eq_refl). }
  eapply (works_bind _ _ _ _ _ (λ w, first_some w (principal_for_context server context) = author)).
  { subst author. destruct commit.
    - unfold writer. eapply (works_bind _ _ _ _ _ (λ q, write_principal_for server (principal_for_context server context) = Some q)).
      + destruct (write_principal_for _ _); [by apply works_ret|apply works_refuse].
      + intros q ->. by apply works_ret.
    - apply works_seq; [apply works_reader|]. intros _. by apply works_ret. }
  intros w ->. apply works_seq; [apply works_answer_if|]. intros _.
  eapply works_bind; [by apply works_prepare_handoffs|]. intros hs Hhs.
  apply works_seq; [|intros [ws n]; by apply works_ret]. destruct commit; [|by apply works_ret]. by apply works_commit.
Qed.

(** C9. Every write of a tool is its caller's. Without a principal to write
    for, the four writing tools are refused and leave the session as it was.
    With one, whatever the other sessions commit, whatever the provider, the
    reranker and the admission answer, the tool ends, and all it did to the
    tables is in that name: the memories it stored and their metadata and
    audit rows name the principal as their author, the updates and both their
    audit rows are the principal's, and so are the contexts it made (or took
    back) for legacy scopes; beyond that it may only have stored embeddings
    and counted impressions. The preview of a handoff counts impressions and
    does nothing else. *)
Theorem writes_are_attributed request se
    (Hhash : ∀ kinds, hash_order kinds ≡ₚ elements kinds) (Hwf : wf_registry (st_registry (se_store se)))
    (Hpool : 0 ≤ lc_max_candidate_pool_size limits) (Hsemantic : 0 ≤ sc_semantic_candidate_k config)
    (Hkeyword : 0 ≤ sc_keyword_candidate_k config) (Hmax : 0 ≤ lc_max_search_limit limits) :
  if is_preview request then
    ∃ r se', serve_write request se = Some (r, se') ∧ follows dimensions exp2 impression se se'
  else match write_principal_for server (principal_for_context server context) with
       | None => serve_write request se = Some (Err (ToolFailure anonymous_write_denied), se)
       | Some p => ∃ r se', serve_write request se = Some (r, se') ∧ follows dimensions exp2 (in_the_name_of p) se se'
       end.
Proof.
  assert (Hends : ∀ mine, works dimensions exp2 mine (serve_write request) (λ _, True) →
    ∃ r se', serve_write request se = Some (r, se') ∧ follows dimensions exp2 mine se se').
  { intros mine Hm. destruct (Hm se Hwf) as (r & se' & Hr & Hf & _). eauto. }
  destruct (is_preview request) eqn:Hpreview.
  { destruct request as [| | |candidates []]; try done. apply Hends, works_seq; [|intros r; by apply works_ret].
    by apply (works_handoff candidates false). }
  destruct (write_principal_for server _) as [p|] eqn:Hp.
  - destruct (principal_is_trimmed _ _ _ Hp) as [Htrim Hblank].
    apply Hends. destruct request as [params|memories|params|candidates commit]; apply works_seq; try (intros r; by apply works_ret).
    + by apply works_remember.
    + by apply works_remember_many.
    + by apply works_revise.
    + destruct commit; [|done]. pose proof (works_handoff candidates true) as Hw. cbv zeta in Hw. rewrite Hp in Hw. by apply Hw.
  - destruct request as [params|memories|params|candidates []]; try done; cbn [serve_write]; apply tool_stop;
      unfold remember, remember_many, revise, handoff, writer; rewrite Hp; reflexivity.
Qed.
End attribution.

(** ** A write into a new legacy scope *)

#[local] Existing Instances plain_render AsciiCase plain_chrono plain_url plain_digest NaiveFts ExhaustiveIndex PartialProviders.
(** The provider is disabled, nothing is in flight. *)
#[local] Instance QuietSurroundings : Surroundings :=
  {| su_token _ := "token"; su_health _ := Ok (); su_embed _ _ := Err EmbeddingError.Disabled; su_embed_batch _ _ := Err EmbeddingError.Disabled;
     su_admission _ := Ok (); su_inserted _ _ := true; su_accepted _ := true |}.
Definition note (scope : string) : RememberParams :=
  {| rm_content := "apples ripen in autumn"; rm_summary := Some " fruit "; rm_context := None; rm_scope := Some scope; rm_context_hints := [];
     rm_agent_label := None; rm_tags := ["fruit"]; rm_entities := []; rm_memory_type := None; rm_importance := None; rm_confidence := None;
     rm_access_policy := None |}.
Definition serve_plain (server : ServerAuth) (request : WriteRequest) (se : Session) : option (result Failure WriteResponse * Session) :=
  serve_write 1 (λ x, x) (λ x, x) first_rows kind_order None (λ s, Some s) server limits_config_default search_config_default f0
    (λ i, N.of_nat (7 + i)) (λ _, 0%N) (λ i, N.of_nat (40 + i)) None request se.
(** The kind of legacy scopes is registered. *)
Definition register_custom : context_op :=
  CoUpsertKind {| ckf_kind := ContextKind.custom; ckf_display_name := "Custom"; ckf_enabled := true |} OPERATOR_PRINCIPAL
    (context_audit_draft_new OPERATOR_PRINCIPAL "context_kind_created") 5.
Definition quiet_session : Session := mkSession (run_contexts new_store [register_custom]) 10 [].

(** The audit rows' actors and the new memory's author and scope. *)
Definition traces (r : option (result Failure WriteResponse * Session)) :=
  match r with
  | Some (Ok (Remembered _), se) => Some (map au_caller_agent (st_audit (se_store se)), map cae_actor_principal (context_audit_rows (se_store se)),
      (λ row, (source_agent (r_provenance row), source_conversation (r_provenance row))) <$> st_memories (se_store se) !! 7%N)
  | _ => None
  end.
Definition ann_notes := serve_plain (stdio_server "ann") (Remember (note "Garden/Fruit")) quiet_session.

(** The scope's context and the memory are stored and audited as ann's. *)
Lemma writes_are_attributed_witness :
  traces ann_notes = Some ([Some "ann"], [OPERATOR_PRINCIPAL; "ann"; "ann"], Some (Some "ann", Some "Garden/Fruit"))
  ∧ ∃ r se', ann_notes = Some (r, se') ∧ follows 1 (λ x, x) (in_the_name_of "ann") quiet_session se'.
Proof.
  split; [vm_compute; reflexivity|].
  apply (writes_are_attributed 1 (λ x, x) (λ x, x) first_rows kind_order None (λ s, Some s) (stdio_server "ann") limits_config_default
    search_config_default f0 (λ i, N.of_nat (7 + i)) (λ _, 0%N) (λ i, N.of_nat (40 + i)) None (Remember (note "Garden/Fruit")) quiet_session).
  - intros kinds. reflexivity.
  - apply run_contexts_registry, new_store_wf.
  - vm_compute. discriminate.
  - vm_compute. discriminate.
  - vm_compute. discriminate.
  - vm_compute. discriminate.
Defined.
