(* ===== verification/Compensation.v ===== *)
(** * Compensation: a failed write leaves nothing behind

    The writing tools of src/src/server/mod.rs make contexts for legacy scopes
    before they store, and take them back when the write fails. In a session
    where nobody else commits, a write that fails leaves the tables as they
    were, but for the counters of impressions and the numbers of the context
    audit it used up. *)
From Stdlib Require Import ZArith Lia.
From stdpp Require Import base list option strings gmap sets pretty.
From S2P Require Import Integrity Governance Hierarchy Systems Prelude Text Floats Lists Errors Types Validation Context StoreTypes Ranking Store Membership Crud ContextAdmin Admin LegacyScopes Revisions Operations Search Authorization Accounting Config ContextSelect Selection ContextReads ServerTypes Engine EngineSearch Programs Orchestrator EngineWrites Foreground Server ServerContexts ServerSelection ServerScopes ServerSearch ServerWrites ServerEffects Attribution.

(** ** The tables but for counters and gaps *)

Definition unimpressed (r : MemoryRow) : MemoryRow := set_last_impressed_at None (set_impression_count 0 r).
Definition strip (s : Store) : Store := on_memories (fmap unimpressed) (on_context_audit (λ log, map Some (omap id log)) s).
Definition unchanged (s s' : Store) : Prop := strip s = strip s'.
#[export] Instance unchanged_equivalence : Equivalence unchanged.
Proof. split; [done|by intros s s' H|]. intros s1 s2 s3. unfold unchanged. congruence. Qed.

Lemma unchanged_tables s s' : unchanged s s' →
  st_vectors s = st_vectors s' ∧ st_entities s = st_entities s' ∧ st_metadata s = st_metadata s' ∧ st_memberships s = st_memberships s'
  ∧ st_audit s = st_audit s' ∧ st_tombstones s = st_tombstones s' ∧ st_profile s = st_profile s' ∧ st_registry s = st_registry s'
  ∧ unimpressed <$> st_memories s = unimpressed <$> st_memories s' ∧ context_audit_rows s = context_audit_rows s'.
Proof.
  unfold unchanged, strip. destruct s, s'. cbn. unfold context_audit_rows. cbn. intros [= -> -> -> -> -> -> -> -> -> Hlog]. split_and!; try done.
  assert (Hinj : ∀ l l' : list ContextAuditEvent, map Some l = map Some l' → l = l'); [|by apply Hinj].
  intros l. induction l as [|a l IH]; intros [|b l']; cbn; try done. intros [= -> Hl]. f_equal. by apply IH.
Qed.
Lemma unchanged_intro s s' :
  st_vectors s = st_vectors s' → st_entities s = st_entities s' → st_metadata s = st_metadata s' → st_memberships s = st_memberships s' →
  st_audit s = st_audit s' → st_tombstones s = st_tombstones s' → st_profile s = st_profile s' → st_registry s = st_registry s' →
  unimpressed <$> st_memories s = unimpressed <$> st_memories s' → context_audit_rows s = context_audit_rows s' → unchanged s s'.
Proof.
  unfold unchanged, strip, context_audit_rows. destruct s, s'. cbn. intros -> -> -> -> -> -> -> -> Hm Hl. unfold on_memories, on_context_audit. cbn. by f_equal; [|f_equal].
Qed.

Section impressions.
Context `{Render, UnicodeCase, Chrono} (dimensions : Z) (exp2 : f64 → f64).

Lemma unchanged_impression ids now : steps unchanged (record_search_impression_impl ids now).
Proof.
  unfold record_search_impression_impl. destruct (bool_decide _); [apply steps_ret; typeclasses eauto|].
  apply steps_fold; [typeclasses eauto|]. intros _ id. apply steps_bind; [typeclasses eauto| |intros b; apply steps_ret; typeclasses eauto].
  intros s b s'. unfold update_row. destruct (st_memories s !! id) as [row|] eqn:Hrow; intros [= <- <-]; [|reflexivity].
  apply unchanged_intro; try done. cbn. apply map_eq. intros i. rewrite !lookup_fmap.
  destruct (decide (i = id)) as [->|Hne]; [|by rewrite lookup_alter_ne].
  rewrite lookup_alter_eq, Hrow. cbn. done.
Qed.
Lemma run_impressions os s : (∀ o, o ∈ os → impression o) → unchanged s (run_systems dimensions exp2 s os).
Proof.
  revert s. induction os as [|o os IH]; intros s Hos; [reflexivity|]. destruct (Hos o) as (ids & now & ->); [by left|].
  transitivity (run dimensions exp2 s (OpImpression ids now)); [|apply IH; intros o Ho; apply Hos; by right].
  unfold run. apply steps_with_conn; [typeclasses eauto|]. apply unchanged_impression.
Qed.
End impressions.

(** ** Adopting a context and taking it back *)

(** Does anything in the tables name the context [id]? *)
Definition mentioned (s : Store) (id : ContextId) : bool :=
  let reg := st_registry s in
  existsb (λ kv : MemoryId * list ContextId, bool_decide (id ∈ snd kv)) (map_to_list (st_memberships s))
  || some_context reg (λ _ (child : ContextDefinition), bool_decide (cd_parent_id child = Some id))
  || has_rows id (reg_grants reg)
  || existsb (λ kv, bool_decide (fst (fst kv) = id) || bool_decide (fst (snd (fst kv)) = id)) (map_to_list (reg_relations reg))
  || has_rows id (reg_aliases reg) || has_rows id (reg_identities reg) || has_rows id (reg_hints reg)
  || has_rows id (reg_anchor_policies reg)
  || existsb (λ kv, defaults_to id (fst (snd kv))) (map_to_list (reg_kind_policies reg))
  || existsb (λ kv, existsb (λ p, defaults_to id (snd p)) (ap_kinds (fst (snd kv)))) (map_to_list (reg_anchor_policies reg))
  || existsb (about_context id) (context_audit_rows s).
Lemma mentioned_unchanged s s' id : unchanged s s' → mentioned s id = mentioned s' id.
Proof. intros (_&_&_&Hm&_&_&_&Hr&_&Hl)%unchanged_tables. unfold mentioned. cbv zeta. by rewrite Hm, Hr, Hl. Qed.

Lemma some_context_false reg (q : ContextId → ContextDefinition → bool) :
  (∀ i c, reg_contexts reg !! i = Some c → q i c = false) → some_context reg q = false.
Proof.
  intros Hq. apply not_true_iff_false. unfold some_context. intros ([i c] & Hin & Hc)%existsb_exists.
  apply list_elem_of_In, elem_of_map_to_list in Hin. by rewrite (Hq i c Hin) in Hc.
Qed.

(** [id] was made for a legacy scope of [p]. *)
Definition adopted (p : string) (id : ContextId) (s s' : Store) : Prop := ∃ c e,
  (cd_owner_principal c = p ∧ cd_kind c = ContextKind.custom ∧ cd_frozen c = false ∧ cd_parent_id c = None)
  ∧ (about_context id e = true ∧ (∀ id', id' ≠ id → about_context id' e = false) ∧ created_for_legacy p e = true)
  ∧ reg_contexts (st_registry s) !! id = None
  ∧ unchanged (on_context_audit (λ log, log ++ [Some e]) (on_contexts <[id := c]> s)) s'.
Lemma adopted_unchanged p id s s1 s2 : adopted p id s s1 → unchanged s1 s2 → adopted p id s s2.
Proof. intros (c & e & Hc & He & Hid & Hs) Hu. exists c, e. do 3 (split; [assumption|]). by transitivity s1. Qed.

Lemma create_adopts `{Render, UnicodeCase} p id scope now s c s' :
  create_context_conn (legacy_context_draft id p scope) (legacy_context_audit id p scope) now s = Ok (c, s') → adopted p id s s'.
Proof.
  remember (legacy_context_draft id p scope) as d eqn:Hd. unfold create_context_conn. intros Hs. inv_tx.
  match goal with H : match ?k with _ => _ end s = Ok _ |- _ => destruct k; [injection H as _ <-|done] end.
  repeat match goal with H : tx_fold _ _ _ _ = Ok _ |- _ => cbn in H; injection H as <- | H : when_some _ _ _ = Ok _ |- _ => cbn in H; injection H as <- end.
  match goal with H : insert_context _ _ = Ok _ |- _ => unfold insert_context in H; apply tx_bind_Ok in H as ([] & t & Hc & Hi) end.
  unfold constraint in Hc. destruct (context_constraints _ _) eqn:Hk; [|done]. injection Hc as <-. injection Hi as <-.
  match goal with H : insert_context_audit _ _ _ _ _ = Ok _ |- _ => injection H as <- end.
  unfold context_constraints in Hk. rewrite !andb_true_iff in Hk. destruct Hk as [[[Hk _] _] _].
  eassert (Hu : unchanged _ _) by reflexivity.
  exists (created_context (legacy_context_draft id p scope) now). eexists. split; [done|]. split; [|split; [|exact Hu]].
  - split; [by apply bool_decide_eq_true|]. split; [|by unfold created_for_legacy; cbn; rewrite String.eqb_refl].
    intros id' Hne. apply bool_decide_eq_false. cbn. congruence.
  - cbn in Hk. by destruct (reg_contexts (st_registry s) !! id).
Qed.

Lemma unreferenced_unchanged s s' id p : unchanged s s' → unreferenced_legacy s id p = unreferenced_legacy s' id p.
Proof. intros (_&_&_&Hm&_&_&_&Hr&_&Hl)%unchanged_tables. unfold unreferenced_legacy. cbv zeta. by rewrite Hm, Hr, Hl. Qed.
Lemma rows_app_event s e : context_audit_rows (on_context_audit (λ log, log ++ [Some e]) s) = context_audit_rows s ++ [e].
Proof. unfold context_audit_rows. cbn. by rewrite omap_app. Qed.
Lemma filter_none_existsb {A} (f : A → bool) l : existsb f l = false → List.filter f l = [].
Proof. induction l as [|a l IH]; cbn; [done|]. intros [-> Hl]%orb_false_iff. by apply IH. Qed.
(** Dropping the event of an adoption leaves the rows of before. *)
Lemma drop_others p id log : existsb (about_context id) (omap (λ x, x) log) = false →
  omap (λ x, x) (map (drop_creation_audit id p) log) = omap (λ x, x) log.
Proof.
  induction log as [|[e|] log IH]; cbn; [done| |exact IH]. intros [He Hl]%orb_false_iff. rewrite He. cbn. f_equal. by apply IH.
Qed.
Lemma drop_creation p id log rows e : omap (λ x, x) log = rows ++ [e] → about_context id e = true → created_for_legacy p e = true →
  existsb (about_context id) rows = false → omap (λ x, x) (map (drop_creation_audit id p) log) = rows.
Proof.
  intros Hlog He Hc Hrows. assert (Hcommute : omap (λ x, x) (map (drop_creation_audit id p) log) = omap (λ e, drop_creation_audit id p (Some e)) (omap (λ x, x) log)).
  { clear. induction log as [|[e|] log IH]; cbn; [done| |exact IH]. destruct (_ && _); cbn; by rewrite IH. }
  rewrite Hcommute, Hlog, omap_app. cbn. rewrite He, Hc. cbn. rewrite app_nil_r. clear Hcommute Hlog.
  induction rows as [|r rows IH]; cbn; [done|]. cbn in Hrows. apply orb_false_iff in Hrows as [-> Hrows]. cbn. f_equal. by apply IH.
Qed.
Lemma adopted_unreferenced p id s s' : mentioned s id = false → adopted p id s s' → unreferenced_legacy s' id p = true.
Proof.
  intros Hm (c & e & (Ho & Hk & Hf & Hp) & (He & _ & Hc) & _ & Hu). rewrite <- (unreferenced_unchanged _ _ _ _ Hu).
  unfold mentioned in Hm. rewrite !orb_false_iff in Hm. destruct Hm as [[[[[[[[[[Hm1 Hm2] Hm3] Hm4] Hm5] Hm6] Hm7] Hm8] Hm9] Hm10] Hm11].
  unfold unreferenced_legacy. rewrite rows_app_event. change (context_audit_rows (on_contexts _ s)) with (context_audit_rows s).
  cbn [st_registry on_context_audit on_contexts on_registry reg_contexts reg_grants reg_relations reg_aliases reg_identities reg_hints
    reg_anchor_policies reg_kind_policies st_memberships].
  rewrite lookup_insert_eq, Ho, String.eqb_refl, Hf, Hm1, Hm3, Hm4, Hm5, Hm6, Hm7, Hm8, Hm9, Hm10.
  unfold same_kind. rewrite bool_decide_true by done. rewrite some_context_false.
  - rewrite List.filter_app, filter_none_existsb by done. cbn. rewrite He. cbn. by rewrite Hc.
  - intros i c'. cbn. destruct (decide (i = id)) as [->|Hne].
    + rewrite lookup_insert_eq. intros [= <-]. by rewrite Hp.
    + rewrite lookup_insert_ne by done. intros Hi. exact (some_context_None _ _ _ _ Hm2 Hi).
Qed.
Lemma rollback_adopted p id s s' : mentioned s id = false → adopted p id s s' →
  ∃ s'', rollback_unreferenced_legacy_context id p s' = Ok (true, s'') ∧ unchanged s s''.
Proof.
  intros Hm Ha. pose proof (adopted_unreferenced p id s s' Hm Ha) as Hun. destruct Ha as (c & e & _ & (He & _ & Hc) & Hid & Hu).
  apply unchanged_tables in Hu as (H1&H2&H3&H4&H5&H6&H7&H8&H9&H10). rewrite rows_app_event in H10.
  exists (on_context_audit (map (drop_creation_audit id p)) (on_contexts (delete id) s')). split.
  { unfold rollback_unreferenced_legacy_context, mbind, tx_bind, reads, writes. by rewrite Hun. }
  unfold mentioned in Hm. apply orb_false_iff in Hm as [_ Hrows].
  apply unchanged_intro; try done; cbn in *.
  - rewrite <- H8. cbn. rewrite delete_insert_id by done. by destruct (st_registry s).
  - symmetry. by eapply drop_creation; [exact (eq_sym H10)|..].
Qed.
Lemma adopted_mentioned p id id' s s' : adopted p id s s' → id' ≠ id → mentioned s id' = mentioned s' id'.
Proof.
  intros (c & e & (_ & _ & _ & Hp) & (_ & He & _) & Hid & Hu) Hne. rewrite <- (mentioned_unchanged _ _ _ Hu).
  unfold mentioned. rewrite rows_app_event. change (context_audit_rows (on_contexts _ s)) with (context_audit_rows s).
  rewrite existsb_app. cbn [existsb]. rewrite (He id' Hne), !orb_false_r. cbn.
  do 9 f_equal. f_equal. unfold some_context. cbn. apply eq_true_iff_eq. rewrite !existsb_exists. split.
  - intros ([i d] & Hin & Hd). exists (i, d). split; [|done]. apply list_elem_of_In, elem_of_map_to_list.
    apply list_elem_of_In, elem_of_map_to_list in Hin. rewrite lookup_insert_ne; [done|]. intros ->. congruence.
  - intros ([i d] & Hin & Hd). apply list_elem_of_In, elem_of_map_to_list in Hin. destruct (decide (i = id)) as [->|Hi].
    + rewrite lookup_insert_eq in Hin. injection Hin as <-. rewrite Hp in Hd. done.
    + rewrite lookup_insert_ne in Hin by done. exists (i, d). split; [|done]. by apply list_elem_of_In, elem_of_map_to_list.
Qed.

(** ** Sessions with a stack of adoptions *)

(** From [s0] the contexts of [stack] were adopted, the first one last. *)
Fixpoint pending (p : string) (s0 : Store) (stack : list ContextId) (s : Store) : Prop :=
  match stack with
  | [] => unchanged s0 s
  | id :: stack => ∃ t, pending p s0 stack t ∧ adopted p id t s
  end.
Lemma pending_unchanged p s0 stack s s' : pending p s0 stack s → unchanged s s' → pending p s0 stack s'.
Proof.
  destruct stack as [|id stack]; cbn; intros Hp Hu; [by transitivity s|]. destruct Hp as (t & Ht & Ha). exists t. split; [done|].
  by eapply adopted_unchanged.
Qed.
Lemma pending_mentioned p s0 stack s id : pending p s0 stack s → id ∉ stack → mentioned s0 id = mentioned s id.
Proof.
  revert s. induction stack as [|i stack IH]; cbn; intros s Hp Hin; [by apply mentioned_unchanged|]. destruct Hp as (t & Ht & Ha).
  rewrite not_elem_of_cons in Hin. destruct Hin. rewrite (IH t) by done. by eapply adopted_mentioned.
Qed.

Section quiet.
Context `{Render, UnicodeCase, Chrono} (dimensions : Z) (exp2 : f64 → f64).
#[local] Abbreviation follows := (follows dimensions exp2).

(** Nobody else commits. *)
Definition quiet (se : Session) : Prop := se_schedule se = [].
(** From a quiet session and tables in [P] the tool ends; its answers leave
    the tables in [Q], its failures in [E]. *)
Definition leaves (P : Store → Prop) {A} (m : tool A) (Q : A → Store → Prop) (E : Store → Prop) : Prop :=
  ∀ se, quiet se → wf_registry (st_registry (se_store se)) → P (se_store se) →
  ∃ r se', m se = Some (r, se') ∧ quiet se' ∧ wf_registry (st_registry (se_store se'))
    ∧ match r with Ok a => Q a (se_store se') | Err _ => E (se_store se') end.

Lemma leaves_ret {A} P (a : A) (Q : A → Store → Prop) E : (∀ s, P s → Q a s) → leaves P (mret a) Q E.
Proof. intros HQ se Hq Hwf HP. exists (Ok a), se. auto. Qed.
Lemma leaves_refuse {A} P e (Q : A → Store → Prop) (E : Store → Prop) : (∀ s, P s → E s) → leaves P (refuse e) Q E.
Proof. intros HE se Hq Hwf HP. exists (Err e), se. auto. Qed.
Lemma leaves_bind {A B} P (m : tool A) (k : A → tool B) Q R E :
  leaves P m Q E → (∀ a, leaves (Q a) (k a) R E) → leaves P (m ≫= k) R E.
Proof.
  intros Hm Hk se Hq Hwf HP. destruct (Hm se Hq Hwf HP) as ([a|e] & se1 & Hr & Hq1 & Hwf1 & HQ).
  - destruct (Hk a se1 Hq1 Hwf1 HQ) as (r & se2 & Hr2 & Hrest). exists r, se2. by rewrite (tool_step _ _ _ _ _ Hr).
  - exists (Err e), se1. by rewrite (tool_stop _ _ _ _ _ Hr).
Qed.
Lemma leaves_mono {A} (P P' : Store → Prop) (m : tool A) (Q Q' : A → Store → Prop) (E E' : Store → Prop) :
  (∀ s, P' s → P s) → leaves P m Q E → (∀ a s, Q a s → Q' a s) → (∀ s, E s → E' s) → leaves P' m Q' E'.
Proof.
  intros HP Hm HQ HE se Hq Hwf Hs. destruct (Hm se Hq Hwf (HP _ Hs)) as (r & se' & Hr & Hq' & Hwf' & Hend).
  exists r, se'. split_and!; [done..|]. destruct r; auto.
Qed.
Lemma leaves_cleanup {A} P (m : tool A) (c : tool unit) Q E1 E :
  leaves P m Q E1 → leaves E1 c (λ _, E) E → leaves P (or_cleanup m c) Q E.
Proof.
  intros Hm Hc se Hq Hwf HP. unfold or_cleanup. destruct (Hm se Hq Hwf HP) as ([a|e] & se1 & Hr & Hq1 & Hwf1 & HQ); rewrite Hr.
  - by exists (Ok a), se1.
  - destruct (leaves_bind E1 c (λ _, refuse e : tool A) (λ _, E) Q E Hc) with (se := se1) as (r & se2 & Hr2 & Hrest); [|done..|].
    { intros _. by apply leaves_refuse. }
    by exists r, se2.
Qed.
(** What only counts impressions. *)
Lemma leaves_works {A} (P : Store → Prop) (m : tool A) (Q : A → Prop) :
  (∀ s s', P s → unchanged s s' → P s') → works dimensions exp2 impression m Q → leaves P m (λ a s, Q a ∧ P s) P.
Proof.
  intros Hstable Hm se Hq Hwf HP. destruct (Hm se Hwf) as (r & se' & Hr & Hf & HQ). exists r, se'.
  pose proof (follows_registry dimensions exp2 impression se se' Hf Hwf) as Hwf'.
  destruct Hf as (used & os & Hsch & Hst & Hos). unfold quiet in *. rewrite Hq in Hsch. symmetry in Hsch. apply app_nil in Hsch as [-> Hq'].
  assert (Hu : unchanged (se_store se) (se_store se')).
  { rewrite Hst. apply run_impressions. intros o Ho. destruct (Hos o Ho) as [Hin|Hi]; [by apply elem_of_nil in Hin|done]. }
  split_and!; [done..|]. destruct r as [a|e]; [split; [auto|]|]; by eapply Hstable.
Qed.
Lemma leaves_seq {A B} P (m : tool A) (k : A → tool B) Q E : leaves P m (λ _, P) E → (∀ a, leaves P (k a) Q E) → leaves P (m ≫= k) Q E.
Proof. intros Hm Hk. by eapply leaves_bind. Qed.

(** *** Calls of the store *)

(** A transaction of the context tables, its error left to the caller. *)
Lemma leaves_try_context {A} P (m : DateTime → tx A) (o : DateTime → context_op) (Q : result StoreError.t A → Store → Prop) E :
  (∀ now, co_tx (o now) = Operations.forget (m now)) →
  (∀ now s, P s → match m now s with Ok (a, s') => Q (Ok a) s' | Err e => Q (Err e) s end) →
  leaves P (run_engine (try_call dimensions exp2 m)) Q E.
Proof.
  intros Hop HQ se Hq Hwf HP. unfold run_engine, lift, try_call, turn. unfold quiet in Hq. rewrite Hq. specialize (HQ (se_now se) _ HP).
  pose proof (run_context_registry (se_store se) (o (se_now se)) Hwf) as Hwf'. unfold run_context in Hwf'. rewrite Hop in Hwf'.
  unfold with_conn, Operations.forget, mbind, tx_bind in *. destruct (m (se_now se) (se_store se)) as [[a s]|e]; cbn in *.
  - by exists (Ok (Ok a)), (mkSession s (se_now se) (se_schedule se)).
  - by exists (Ok (Err e)), (mkSession (se_store se) (se_now se) (se_schedule se)).
Qed.
Lemma leaves_context {A} P (m : DateTime → tx A) (o : DateTime → context_op) (Q : A → Store → Prop) (E : Store → Prop) :
  (∀ now, co_tx (o now) = Operations.forget (m now)) →
  (∀ now s, P s → match m now s with Ok (a, s') => Q a s' | Err e => E s end) →
  leaves P (run_engine (call dimensions exp2 m)) Q E.
Proof.
  intros Hop HQ se Hq Hwf HP.
  destruct (leaves_try_context P m o (λ r s, match r with Ok a => Q a s | Err _ => E s end) E Hop) with (se := se) as (r & se' & Hr & Hrest); [|done..|].
  { intros now s Hs. specialize (HQ now s Hs). by destruct (m now s) as [[a s']|e]. }
  unfold run_engine, lift, call, mbind, engine_bind in *. destruct (try_call dimensions exp2 m se) as [[[[a|e]|e] se1]|]; cbn in *; try done;
    injection Hr as <- <-; eexists _, _; (split; [done|]); done.
Qed.

Lemma leaves_rollback_each p s0 base ids : ∀ seen, NoDup (ids ++ base) → (∀ id, id ∈ ids → mentioned s0 id = false ∧ id ∉ seen) →
  leaves (pending p s0 (ids ++ base)) (run_engine (rollback_each dimensions exp2 seen ids p)) (λ _, pending p s0 base) (λ _, False).
Proof.
  induction ids as [|id ids IH]; intros seen Hnd Hids; cbn [rollback_each app].
  { intros se Hq Hwf HP. by exists (Ok ()), se. }
  destruct (Hids id) as [Hm Hseen]; [by left|]. rewrite bool_decide_false by done. apply NoDup_cons in Hnd as [Hnin Hnd].
  intros se Hq Hwf HP.
  destruct (leaves_context (pending p s0 (id :: ids ++ base)) (λ _, rollback_unreferenced_legacy_context id p) (λ _, CoRollbackLegacy id p)
    (λ _, pending p s0 (ids ++ base)) (λ _, False)) with (se := se) as (r & se1 & Hr & Hq1 & Hwf1 & Hp1); [done| |done..|].
  { intros now s (t & Ht & Ha). rewrite (pending_mentioned p s0 (ids ++ base) t id Ht Hnin) in Hm.
    destruct (rollback_adopted p id t s Hm Ha) as (s' & -> & Hu). by eapply pending_unchanged. }
  destruct r as [b|e]; [|done]. destruct (IH ({[id]} ∪ seen) Hnd) with (se := se1) as (r2 & se2 & Hr2 & Hrest); [|done..|].
  { intros i Hi. destruct (Hids i) as [Hmi Hsi]; [by right|]. split; [done|]. intros [->%elem_of_singleton|?]%elem_of_union; [|done].
    apply Hnin, elem_of_app. by left. }
  exists r2, se2. split; [|done]. unfold run_engine, lift, mbind, engine_bind in *.
  destruct (call dimensions exp2 _ se) as [[[a|e] se']|]; cbn in Hr; try done. injection Hr as -> ->. done.
Qed.
(** Taking back what was created, from the last one on. *)
Lemma leaves_rollbacks p s0 base created : NoDup (rev created ++ base) → (∀ id, id ∈ created → mentioned s0 id = false) →
  leaves (pending p s0 (rev created ++ base)) (run_engine (rollback_created_legacy_contexts dimensions exp2 created p)) (λ _, pending p s0 base) (λ _, False).
Proof.
  intros Hnd Hm. apply leaves_rollback_each; [done|]. intros id Hid%list_elem_of_In%in_rev%list_elem_of_In. split; [by apply Hm|set_solver].
Qed.
End quiet.

(** ** The legacy scope of a write *)

Section scopes.
Context `{Render, UnicodeCase, Chrono, UrlLib, Sha256Lib} (dimensions : Z) (exp2 : f64 → f64).
Context (limit_rows : nat → gset ContextId → gset ContextId) (hash_order : gset ContextKind.t → list ContextKind.t).
Context (Hhash : ∀ kinds, hash_order kinds ≡ₚ elements kinds).
#[local] Abbreviation always := (λ _, True).
(** The caller, the tables before the request, what was adopted so far. *)
Context (p : string) (s0 : Store) (stack : list ContextId) (Hstack : NoDup stack).
#[local] Abbreviation P := (pending p s0 stack).

Lemma leaves_reads {A} (m : tool A) (Q : A → Prop) : works dimensions exp2 impression m Q → leaves P m (λ a s, Q a ∧ P s) P.
Proof. apply (leaves_works dimensions exp2). intros s s'. apply pending_unchanged. Qed.
Lemma leaves_reads_then {A B} (m : tool A) (Q : A → Prop) (k : A → tool B) R :
  works dimensions exp2 impression m Q → (∀ a, Q a → leaves P (k a) R P) → leaves P (m ≫= k) R P.
Proof.
  intros Hm Hk. eapply leaves_bind; [by apply leaves_reads|]. intros a se Hq Hwf [HQ HP]. by apply Hk.
Qed.

Lemma leaves_then {A B} (m : tool A) (k : A → tool B) R :
  works dimensions exp2 impression m always → (∀ a, leaves P (k a) R P) → leaves P (m ≫= k) R P.
Proof. intros Hm Hk. eapply leaves_reads_then; [exact Hm|]. auto. Qed.

(** The answer of a selection and the tables it leaves. *)
Definition selected (fresh : ContextId) (selection : ResolvedContextSelection) (s : Store) : Prop :=
  pending p s0 (option_list (rcs_created_legacy_context selection) ++ stack) s
  ∧ ∀ id, rcs_created_legacy_context selection = Some id → id = fresh.
Lemma selected_unborn fresh selection s : rcs_created_legacy_context selection = None → P s → selected fresh selection s.
Proof. intros Hn Hs. unfold selected. by rewrite Hn. Qed.

Context (fresh : ContextId) (Hfresh : mentioned s0 fresh = false) (Hnew : fresh ∉ stack).
Lemma leaves_select_scope mode id created : created = None ∨ created = Some fresh →
  leaves (pending p s0 (option_list created ++ stack)) (select_scope_context dimensions exp2 limit_rows hash_order p mode (id, created))
    (selected fresh) P.
Proof.
  intros Hc. unfold select_scope_context. eapply leaves_bind.
  - eapply leaves_cleanup.
    + eapply (leaves_mono _ _ _ _ (λ _, pending p s0 (option_list created ++ stack))); [exact (λ s H, H)|..];
        [apply (leaves_works dimensions exp2); [intros s s'; apply pending_unchanged|by apply works_selection]|by intros a s [_ Hs]|exact (λ s H, H)].
    + intros se Hq Hwf HP.
      assert (Hr : leaves (pending p s0 (rev (option_list created) ++ stack))
        (run_engine (rollback_created_legacy_contexts dimensions exp2 (option_list created) p)) (λ _, P) (λ _, False)).
      { apply leaves_rollbacks; destruct Hc as [->| ->]; cbn; [done|by apply NoDup_cons|by intros ? ?%elem_of_nil|].
        by intros i ->%list_elem_of_singleton. }
      destruct (Hr se Hq Hwf) as (r & se' & Hrun & Hq' & Hwf' & Hend); [by destruct Hc as [->| ->]|].
      destruct r as [[]|e]; [|done]. exists (Ok ()), se'. split_and!; [|done..].
      unfold run_engine, lift, rollback_created_legacy_context in *.
      destruct (rollback_created_legacy_contexts dimensions exp2 (option_list created) p se) as [[[[]|e] se1]|]; by simplify_eq/=.
  - intros s. apply leaves_ret. intros st Hst. split; [exact Hst|]. cbn. destruct Hc as [->| ->]; [done|]. by intros ? [= ->].
Qed.
Lemma leaves_create scope :
  leaves P (create_or_refresh dimensions exp2 fresh p scope) (λ found s, pending p s0 (option_list (snd found) ++ stack) s ∧ (snd found = None ∨ snd found = Some fresh)) P.
Proof.
  unfold create_or_refresh. eapply leaves_bind.
  - apply (leaves_try_context _ _ P _ (λ now, CoCreate (legacy_context_draft fresh p scope) (legacy_context_audit fresh p scope) now)
      (λ r s, match r with Ok _ => pending p s0 (fresh :: stack) s | Err _ => P s end) P); [done|].
    intros now s Hs. destruct (create_context_conn _ _ now s) as [[c s']|e] eqn:Hc; [|exact Hs]. exists s. split; [exact Hs|].
    by eapply create_adopts.
  - intros [c|e].
    + apply leaves_ret. intros s Hs. split; [exact Hs|by right].
    + eapply leaves_reads_then; [by apply works_find_scope|]. intros l _. destruct (map _ l) as [|i [|]]; [by apply leaves_refuse| |by apply leaves_refuse].
      apply leaves_ret. intros s Hs. split; [exact Hs|by left].
Qed.
Lemma leaves_ret_unborn selection : rcs_created_legacy_context selection = None → leaves P (mret selection) (selected fresh) P.
Proof. intros Hn. apply leaves_ret. intros s. by apply selected_unborn. Qed.
Lemma leaves_selection envelope query governed :
  leaves P (resolve_context_selection dimensions exp2 limit_rows hash_order p envelope query governed) (selected fresh) P.
Proof.
  eapply leaves_mono; [|apply leaves_reads, works_selection; done| |]; [done| |done]. intros a s [Hn Hs]. by apply selected_unborn.
Qed.
Lemma leaves_legacy resolution mode :
  leaves P (resolve_legacy_context_selection dimensions exp2 limit_rows hash_order fresh p resolution mode) (selected fresh) P.
Proof.
  unfold resolve_legacy_context_selection. case_match; [by apply leaves_refuse|]. case_match.
  { case_match; [by apply leaves_refuse|]. eapply leaves_reads_then; [by apply works_selection|]. intros s Hs. by apply leaves_ret_unborn. }
  eapply leaves_reads_then; [by apply works_find_scope|]. intros [|record [|]] _; [| |by apply leaves_refuse].
  2: { apply (leaves_select_scope mode _ None). by left. }
  case_match; [|eapply leaves_reads_then; [apply works_records|]; intros; by apply leaves_refuse].
  eapply (leaves_bind _ _ _ (λ a s, match a with inl selection => rcs_created_legacy_context selection = None ∧ P s
      | inr found => pending p s0 (option_list (snd found) ++ stack) s ∧ (snd found = None ∨ snd found = Some fresh) end)).
  - unfold adopt_new_scope. apply leaves_then; [by apply works_answered|]. intros _.
    apply leaves_then; [apply works_policy_state|]. intros state. apply leaves_then; [by apply works_answered|]. intros _.
    apply leaves_then.
    { destruct (bool_decide (mode = _)); [|by apply works_ret]. apply works_seq; [apply works_find_scope|]. intros l. apply works_answer_if. }
    intros _. destruct (mode_persists_creation mode).
    + eapply leaves_bind; [apply leaves_create|]. intros found. by apply leaves_ret.
    + eapply (leaves_reads_then _ (λ s, rcs_created_legacy_context s = None)); [|intros s Hs; by apply leaves_ret].
      apply works_answered. unfold preview_selection. by intros s (_ & _ & [= <-])%bind_Ok.
  - intros [selection|[id created]].
    + apply leaves_ret. intros s [Hn Hs]. by apply selected_unborn.
    + intros se Hq Hwf [Hp Hc]. by apply (leaves_select_scope mode id created Hc).
Qed.
End scopes.

(** ** Programs that fail before they write *)

Lemma tx_map_length {A B} (f : A → tx B) l s ys s' : tx_map f l s = Ok (ys, s') → length ys = length l.
Proof.
  revert s ys s'. induction l as [|x l IH]; intros s ys s'; cbn; [by intros [= <- _]|].
  intros Hs. apply tx_bind_Ok in Hs as (y & s1 & _ & Hs). apply tx_bind_Ok in Hs as (zs & s2 & Hz & Hs).
  injection Hs as <- _. cbn. f_equal. by eapply IH.
Qed.
Lemma zip_governed_length ms : ∀ sups mds ids audits cas, length sups = length ms → length mds = length ms → length ids = length ms →
  length audits = length ms → length cas = length ms → length (zip_governed ms sups mds ids audits cas) = length ms.
Proof.
  induction ms as [|m ms IH]; intros [|] [|] [|] [|] [|] H1 H2 H3 H4 H5; try done. cbn in *. f_equal. apply IH; lia.
Qed.

Section programs.
Context `{Render, UnicodeCase, Chrono, Surroundings} (dimensions : Z) (exp2 : f64 → f64).
Context (active_profile : option EmbeddingProfile) (limits : LimitsConfig).
#[local] Abbreviation foreground_run := (foreground_run dimensions exp2).

(** Writes nothing; always succeeds; writes nothing when it fails. *)
Definition plain {A} (p : prog A) : Prop := ∀ se, quiet se → se_store (snd (foreground_run p se)) = se_store se ∧ quiet (snd (foreground_run p se)).
Definition sure {A} (p : fallible A) : Prop := ∀ se, is_ok (fst (foreground_run p se)) = true.
Definition tidy {A} (p : fallible A) : Prop :=
  ∀ se, quiet se → is_ok (fst (foreground_run p se)) = false → se_store (snd (foreground_run p se)) = se_store se.

Lemma plain_seq {A B} (p : prog A) (k : A → prog B) : plain p → (∀ a, plain (k a)) → plain (p ≫= k).
Proof.
  intros Hp Hk se Hq. rewrite foreground_then. destruct (Hp se Hq) as [Hs Hq1]. destruct (foreground_run p se) as [a se1]. cbn in *.
  destruct (Hk a se1 Hq1) as [Hs2 Hq2]. split; [by rewrite Hs2|done].
Qed.
Lemma plain_ret {A} (a : A) : plain (mret a).
Proof. by intros se. Qed.
Lemma plain_audit action caller details : plain (timed_audit_draft action caller details).
Proof. by intros se. Qed.
Lemma plain_admission : plain begin_embed_admission.
Proof. by intros se. Qed.
Lemma plain_audits memories sups : plain (batch_store_audits memories sups).
Proof.
  revert sups. induction memories as [|m ms IH]; intros [|sup sups]; try apply plain_ret. cbn [batch_store_audits].
  apply plain_seq; [apply plain_audit|]. intros a. apply plain_seq; [apply IH|]. intros; apply plain_ret.
Qed.
Lemma sure_seq {A B} (p : prog A) (k : A → fallible B) : (∀ a, sure (k a)) → sure (p ≫= k).
Proof. intros Hk se. rewrite foreground_then. destruct (foreground_run p se) as [a se1]. apply Hk. Qed.
Lemma tidy_seq {A B} (p : prog A) (k : A → fallible B) : plain p → (∀ a, tidy (k a)) → tidy (p ≫= k).
Proof.
  intros Hp Hk se Hq. rewrite foreground_then. destruct (Hp se Hq) as [Hs Hq1]. destruct (foreground_run p se) as [a se1]. cbn in *.
  intros He. by rewrite (Hk a se1 Hq1 He).
Qed.
Lemma tidy_try {A B} (p : fallible A) (f : A → fallible B) : plain p → (∀ a, tidy (f a)) → tidy (try_then p f).
Proof. intros Hp Hf. apply tidy_seq; [exact Hp|]. intros [a|e]; [apply Hf|by intros se]. Qed.
Lemma tidy_then {A B} (p : fallible A) (f : A → fallible B) : tidy p → (∀ a, sure (f a)) → tidy (try_then p f).
Proof.
  intros Hp Hf se Hq. unfold try_then. rewrite foreground_then. specialize (Hp se Hq). destruct (foreground_run p se) as [[a|e] se1]; cbn in *.
  - intros He. by rewrite (Hf a se1) in He.
  - intros _. by apply Hp.
Qed.
Lemma tidy_call {B} (m : DateTime → tx B) : tidy (store_call m).
Proof.
  intros se Hq. unfold store_call, transact. rewrite foreground_then. cbn [Foreground.foreground_run].
  unfold in_transaction, turn. rewrite Hq. destruct (with_conn (m (se_now se)) (se_store se)) as [[b|e] s] eqn:Hr; cbn; [done|].
  intros _. by apply with_conn_Err in Hr.
Qed.
Lemma tidy_store memory sup md ids : tidy (store_memory_with_metadata_contexts dimensions active_profile memory sup md ids).
Proof.
  apply tidy_try; [apply plain_admission|]. intros _. apply tidy_seq; [apply plain_audit|]. intros a. apply tidy_then; [apply tidy_call|].
  intros id. by apply sure_seq.
Qed.
Lemma tidy_batch memories sups mds ids : tidy (batch_store_with_metadata_contexts dimensions active_profile limits memories sups mds ids).
Proof.
  unfold batch_store_with_metadata_contexts. do 3 (apply tidy_try; [apply plain_ret|]; intros _).
  apply tidy_try; [apply plain_admission|]. intros _. apply tidy_seq; [apply plain_audits|]. intros a.
  apply tidy_try; [apply plain_ret|]. intros _. apply tidy_then; [apply tidy_call|]. intros l. by apply sure_seq.
Qed.
(** What the successes of a program answer. *)
Definition succeeds_with {A} (p : fallible A) (Q : A → Prop) : Prop := ∀ se a, fst (foreground_run p se) = Ok a → Q a.
Lemma succeeds_seq {A B} (p : prog A) (k : A → fallible B) Q : (∀ a, succeeds_with (k a) Q) → succeeds_with (p ≫= k) Q.
Proof. intros Hk se b. rewrite foreground_then. destruct (foreground_run p se) as [a se1]. apply Hk. Qed.
Lemma succeeds_try {A B} (p : fallible A) (f : A → fallible B) (Q : A → Prop) R :
  succeeds_with p Q → (∀ a, Q a → succeeds_with (f a) R) → succeeds_with (try_then p f) R.
Proof.
  intros Hp Hf se b. unfold try_then. rewrite foreground_then. specialize (Hp se). destruct (foreground_run p se) as [[a|e] se1]; cbn in *; [|done].
  by apply Hf, Hp.
Qed.
Lemma succeeds_any {A} (p : fallible A) : succeeds_with p (λ _, True).
Proof. by intros se a. Qed.
Lemma batch_ids_len memories sups mds ids audits cas now s l s' :
  store_batch_with_metadata_contexts_audited_impl dimensions memories sups mds ids audits cas now s = Ok (l, s') → len l = len memories.
Proof.
  unfold store_batch_with_metadata_contexts_audited_impl. cbv zeta. intros Hs. apply tx_bind_Ok in Hs as (? & ? & Hlen & Hs).
  apply throw_if_Ok in Hlen as [Hlen _]. apply negb_false_iff in Hlen. rewrite !andb_true_iff in Hlen.
  apply tx_bind_Ok in Hs as (? & ? & _ & Hs). apply tx_map_length in Hs. unfold len in *. rewrite Hs. f_equal. apply zip_governed_length; lia.
Qed.
Lemma batch_succeeds memories sups mds ids :
  succeeds_with (batch_store_with_metadata_contexts dimensions active_profile limits memories sups mds ids) (λ l, len l = len memories).
Proof.
  unfold batch_store_with_metadata_contexts. do 4 (eapply succeeds_try; [apply succeeds_any|]; intros _ _).
  apply succeeds_seq. intros audits. unfold batch_store_and_embed_with_metadata_contexts, then_embed_batch.
  eapply succeeds_try; [apply succeeds_any|]. intros _ _. apply (succeeds_try _ _ (λ l, len l = len memories)).
  - intros se l. unfold store_call, transact. rewrite foreground_then. cbn [Foreground.foreground_run]. unfold in_transaction.
    match goal with |- context [with_conn ?m ?s] => destruct (with_conn m s) as [[x|e] s'] eqn:Hr end; cbn; [|done].
    intros [= ->]. apply with_conn_Ok, batch_ids_len in Hr. unfold len in *. by rewrite Hr, length_map.
  - intros l Hl. apply succeeds_seq. intros _ se a [= <-]. done.
Qed.
Lemma leaves_foreground {A} mine (P : Store → Prop) (prog : fallible A) (Q : A → Prop) :
  works dimensions exp2 mine (run_engine (foreground dimensions exp2 prog)) (λ _, True) → tidy prog → succeeds_with prog Q →
  leaves P (run_engine (foreground dimensions exp2 prog)) (λ a _, Q a) P.
Proof.
  intros Hw Ht HQ se Hq Hwf HP. destruct (Hw se Hwf) as (r & se' & Hr & Hf & _). exists r, se'.
  pose proof (follows_registry dimensions exp2 mine se se' Hf Hwf) as Hwf'. destruct Hf as (used & os & Hsch & _). unfold quiet in *.
  rewrite Hq in Hsch. symmetry in Hsch. apply app_nil in Hsch as [_ Hq']. split_and!; [done..|]. specialize (Ht se Hq). specialize (HQ se).
  unfold run_engine, lift, foreground in Hr. destruct (foreground_run prog se) as [[a|e] se1]; cbn in *; injection Hr as <- <-; [by apply HQ|].
  by rewrite Ht.
Qed.

(** *** Updates *)

Lemma governed_refused id u patch cs q now audit ca s o s' :
  apply_authorized_update_with_metadata_contexts id u patch cs q now audit ca s = Ok (o, s') →
  ao_outcome o ≠ WriteOutcome.Applied → s' = s ∧ ao_reembed_revision o = None.
Proof.
  unfold apply_authorized_update_with_metadata_contexts. intros Hrun Ho.
  apply tx_bind_Ok in Hrun as ([]&?&Hc&Hrun). apply throw_if_Ok in Hc as [_ [= ->]].
  apply authorize_inv in Hrun as [(_ & -> & ->)|(r & Hr & [(_ & -> & ->)|(_ & Hk)])]; [done..|].
  inv_tx. match goal with Hv : (if _ then _ else _) _ = Ok ((), _) |- _ => apply optional_validate_inv in Hv; subst end.
  match goal with Hi : apply_update_inner _ _ _ _ = _ |- _ => apply apply_update_inner_inv in Hi; rewrite Hr in Hi; by destruct Hi as [? _] end.
Qed.
Lemma unmodified_refused id rev u patch cs profile q now audit ca s o s' :
  apply_authorized_update_if_unmodified_with_metadata dimensions id rev u patch cs None profile q now audit ca s = Ok (o, s') →
  ao_outcome o ≠ WriteOutcome.Applied → s' = s ∧ ao_reembed_revision o = None.
Proof.
  intros Hrun Ho. apply update_if_unmodified_inv in Hrun as [(_ & -> & ->)|(r & _ & [(_ & -> & ->)|(_ & _ & _ & o1 & s2 & s3 & s4 & s5 & Hcopy & Hap & _)])];
    [done..|]. apply tx_ret_Ok in Hcopy as [= -> _]. done.
Qed.
(** Writes nothing unless it answers that it did. *)
Definition cautious (p : fallible AuthorizedUpdateOutcome) : Prop := ∀ se, quiet se →
  match fst (foreground_run p se) with
  | Ok o => ao_outcome o ≠ WriteOutcome.Applied → se_store (snd (foreground_run p se)) = se_store se
  | Err _ => se_store (snd (foreground_run p se)) = se_store se
  end.
Lemma cautious_seq {A} (p : prog A) (k : A → fallible AuthorizedUpdateOutcome) : plain p → (∀ a, cautious (k a)) → cautious (p ≫= k).
Proof.
  intros Hp Hk se Hq. rewrite foreground_then. destruct (Hp se Hq) as [Hs Hq1]. destruct (foreground_run p se) as [a se1]. cbn in *.
  specialize (Hk a se1 Hq1). rewrite Hs in Hk. exact Hk.
Qed.
Lemma cautious_try {A} (p : fallible A) (f : A → fallible AuthorizedUpdateOutcome) : plain p → (∀ a, cautious (f a)) → cautious (try_then p f).
Proof. intros Hp Hf. apply cautious_seq; [exact Hp|]. intros [a|e]; [apply Hf|by intros se]. Qed.
Lemma cautious_call (m : DateTime → tx AuthorizedUpdateOutcome) (queue : AuthorizedUpdateOutcome → prog unit) :
  (∀ now s o s', m now s = Ok (o, s') → ao_outcome o ≠ WriteOutcome.Applied → s' = s ∧ ao_reembed_revision o = None) →
  (∀ o, ao_outcome o ≠ WriteOutcome.Applied → ao_reembed_revision o = None → queue o = mret ()) →
  cautious (try_then (store_call m) (λ o, _ ← queue o; ok o)).
Proof.
  intros Hm Hqueue se Hq. unfold try_then, store_call, transact. rewrite !foreground_then. cbn [Foreground.foreground_run].
  unfold in_transaction, turn. rewrite Hq. destruct (with_conn (m (se_now se)) (se_store se)) as [[o|e] s] eqn:Hr.
  - cbn [map_err]. change (Ret (Ok o)) with (mret (Ok o) : prog (result EngineError.t AuthorizedUpdateOutcome)). cbn.
    destruct (foreground_run (_ ← queue o; ok o) _) as [r se1] eqn:Hrun. cbn. rewrite foreground_then in Hrun.
    destruct (foreground_run (queue o) _) as [u se2] eqn:Hqrun. injection Hrun as <- <-. intros Ho.
    apply with_conn_Ok in Hr. destruct (Hm _ _ _ _ Hr Ho) as [-> Hrev]. rewrite (Hqueue o Ho Hrev) in Hqrun. by injection Hqrun as _ <-.
  - cbn. by apply with_conn_Err in Hr.
Qed.
Lemma plain_admission_for content : plain (admission_for content).
Proof. unfold admission_for. destruct (is_some content); [|apply plain_ret]. by intros se Hq; cbn; destruct (su_admission se). Qed.
Lemma cautious_update id update patch cs q :
  cautious (update_memory_with_metadata_contexts dimensions active_profile limits id update patch cs q).
Proof.
  apply cautious_try; [apply plain_admission_for|]. intros adm. apply cautious_try; [apply plain_ret|]. intros u.
  apply cautious_seq; [apply plain_audit|]. intros a. apply cautious_call; [intros now s o s'; apply governed_refused|].
  intros o Ho _. unfold maybe_reembed_after_update. by rewrite bool_decide_false.
Qed.
Lemma cautious_update_if id rev update patch cs q :
  cautious (update_memory_if_unmodified_with_metadata_contexts dimensions active_profile limits id rev update patch cs q).
Proof.
  apply cautious_try; [apply plain_admission_for|]. intros adm. apply cautious_try; [apply plain_ret|]. intros u.
  apply cautious_seq; [apply plain_audit|]. intros a. apply cautious_call; [intros now s o s'; apply unmodified_refused|].
  intros o _ Hrev. by destruct (mu_content update), (ao_reembed_revision o), adm.
Qed.
Lemma leaves_cautious mine (P : Store → Prop) prog :
  works dimensions exp2 mine (run_engine (foreground dimensions exp2 prog)) (λ _, True) → cautious prog →
  leaves P (run_engine (foreground dimensions exp2 prog)) (λ o s, ao_outcome o ≠ WriteOutcome.Applied → P s) P.
Proof.
  intros Hw Hc se Hq Hwf HP. destruct (Hw se Hwf) as (r & se' & Hr & Hf & _). exists r, se'.
  pose proof (follows_registry dimensions exp2 mine se se' Hf Hwf) as Hwf'. destruct Hf as (used & os & Hsch & _). unfold quiet in *.
  rewrite Hq in Hsch. symmetry in Hsch. apply app_nil in Hsch as [_ Hq']. split_and!; [done..|]. specialize (Hc se Hq).
  unfold run_engine, lift, foreground in Hr. destruct (foreground_run prog se) as [[a|e] se1]; cbn in *; injection Hr as <- <-.
  - intros Ho. by rewrite Hc.
  - by rewrite Hc.
Qed.
End programs.

(** ** The tools *)

Section tools.
Context `{Render, UnicodeCase, Chrono, UrlLib, Sha256Lib, Fts, VectorIndex, SearchProviders, Surroundings} (dimensions : Z) (exp2 ln_1p : f64 → f64).
Context (limit_rows : nat → gset ContextId → gset ContextId) (hash_order : gset ContextKind.t → list ContextKind.t).
Context (active_profile : option EmbeddingProfile) (try_seconds : Z → option Z).
Context (server : ServerAuth) (limits : LimitsConfig) (config : SearchConfig) (blend_weight : f64).
Context (Hhash : ∀ kinds, hash_order kinds ≡ₚ elements kinds).
Context (Hpool : 0 ≤ lc_max_candidate_pool_size limits) (Hsemantic : 0 ≤ sc_semantic_candidate_k config)
  (Hkeyword : 0 ≤ sc_keyword_candidate_k config) (Hmax : 0 ≤ lc_max_search_limit limits).
Context (p : string) (s0 : Store).
#[local] Abbreviation always := (λ _, True).
#[local] Abbreviation works := (works dimensions exp2 impression).
#[local] Abbreviation pending := (pending p s0).

(** Whatever a program of the engine writes. *)
Lemma works_program {A} (prog : fallible A) :
  keeps_to dimensions exp2 always prog always → ServerEffects.works dimensions exp2 (memory_op always) (run_engine (foreground dimensions exp2 prog)) always.
Proof. intros Hk. apply works_engine, obeys_foreground. by eapply keeps_to_mono; [| |exact Hk]. Qed.
Lemma leaves_store P memory sup md ids :
  leaves P (run_engine (foreground dimensions exp2 (store_memory_with_metadata_contexts dimensions active_profile memory sup md ids))) (λ _ _, True) P.
Proof. eapply leaves_foreground; [by apply works_program, keeps_store|apply tidy_store|apply succeeds_any]. Qed.
Lemma leaves_batch P memories sups mds ids :
  leaves P (run_engine (foreground dimensions exp2 (batch_store_with_metadata_contexts dimensions active_profile limits memories sups mds ids)))
    (λ l _, len l = len memories) P.
Proof. eapply leaves_foreground; [by apply works_program, keeps_batch|apply tidy_batch|apply batch_succeeds]. Qed.

Section prepare.
Context (stack : list ContextId) (Hstack : NoDup stack) (fresh : ContextId) (Hfresh : mentioned s0 fresh = false) (Hnew : fresh ∉ stack).
#[local] Abbreviation P := (pending stack).
#[local] Abbreviation prepared := (λ created s, pending (option_list created ++ stack) s ∧ ∀ id, created = Some id → id = fresh).

(** The search for duplicates hides its failures. *)
Lemma leaves_duplicates stack' content ids principal :
  leaves (pending stack') (duplicates_or_none dimensions exp2 ln_1p limits config blend_weight content ids principal) (λ _, pending stack') (λ _, False).
Proof.
  intros se Hq Hwf HP.
  destruct (leaves_reads dimensions exp2 p s0 stack' (duplicates_or_none dimensions exp2 ln_1p limits config blend_weight content ids principal) always)
    with (se := se) as (r & se' & Hr & Hq' & Hwf' & Hend); [by apply works_duplicates|done..|].
  exists r, se'. split_and!; [done..|]. destruct r as [cards|e]; [by destruct Hend|].
  unfold duplicates_or_none, mbind, tool_bind, attempt in Hr. by destruct (duplicate_candidates _ _ _ _ _ _ _ _ _ se) as [[[l|e'] se1]|].
Qed.
Lemma leaves_assuming {A} (φ : Prop) P' (m : tool A) Q E : (φ → leaves P' m Q E) → leaves (λ s, P' s ∧ φ) m Q E.
Proof. intros Hm se Hq Hwf [HP Hφ]. by apply Hm. Qed.
Lemma leaves_scope {A} scope hints mode (k : ScopeResolution → ResolvedContextSelection → tool A) R :
  (∀ r selection, leaves (selected p s0 stack fresh selection) (k r selection) R P) →
  leaves P (resolution ← run_engine (resolve_scope dimensions exp2 p scope hints);
            selection ← resolve_legacy_context_selection dimensions exp2 limit_rows hash_order fresh p resolution mode;
            k resolution selection) R P.
Proof.
  intros Hk. apply (leaves_then dimensions exp2); [apply works_engine, obeys_resolve_scope|]. intros r.
  eapply leaves_bind; [by apply leaves_legacy|]. intros selection. apply Hk.
Qed.
Lemma leaves_placement params hints :
  leaves P (placement dimensions exp2 limit_rows hash_order fresh p params hints) (λ placed, prepared (rcs_created_legacy_context (fst (fst placed)))) P.
Proof.
  unfold placement. case_match; [|case_match; [apply leaves_scope; intros r selection; by apply leaves_ret|]].
  - eapply leaves_bind; [by apply leaves_selection|]. intros s. by apply leaves_ret.
  - eapply leaves_bind; [by apply leaves_selection|]. intros s. by apply leaves_ret.
Qed.
Lemma leaves_prepare item_index fresh_memory params now :
  leaves P (prepare_remember dimensions exp2 ln_1p limit_rows hash_order try_seconds limits config blend_weight item_index fresh_memory fresh params p now)
    (λ pr, prepared (pr_created_legacy_context pr)) P.
Proof.
  unfold prepare_remember. cbv zeta. apply (leaves_then dimensions exp2); [by apply works_by|]. intros h.
  apply (leaves_then dimensions exp2); [apply works_answer_if|]. intros _. apply (leaves_then dimensions exp2).
  { unfold built_memory. apply works_seq; [by apply works_by|]. intros i. apply works_seq; [by apply works_by|]. intros m. by apply works_ret. }
  intros [memory sup]. eapply leaves_bind; [apply leaves_placement|]. intros [[selection resolution] adapted]. cbn [fst].
  apply leaves_assuming. intros Hid. eapply leaves_bind; [eapply leaves_mono; [exact (λ s H, H)|apply leaves_duplicates|exact (λ _ s H, H)|done]|].
  intros cards. by apply leaves_ret.
Qed.
End prepare.

(** *** [remember] *)

Lemma leaves_rollback_all created : NoDup created → (∀ id, id ∈ created → mentioned s0 id = false) →
  leaves (pending (rev created)) (run_engine (rollback_created_legacy_contexts dimensions exp2 created p)) (λ _, pending []) (pending []).
Proof.
  intros Hnd Hm. pose proof (leaves_rollbacks dimensions exp2 p s0 [] created) as Hr. rewrite app_nil_r in Hr.
  eapply leaves_mono; [|apply Hr| |]; try done. by rewrite <- Permutation_rev.
Qed.
Lemma leaves_rollback_one created : (∀ id, created = Some id → mentioned s0 id = false) →
  leaves (pending (option_list created)) (run_engine (rollback_created_legacy_context dimensions exp2 created p)) (λ _, pending []) (pending []).
Proof.
  intros Hm. destruct created as [id|].
  - apply (leaves_rollback_all [id]); [apply NoDup_singleton|]. intros i ->%list_elem_of_singleton. by apply Hm.
  - apply (leaves_rollback_all []); [constructor|]. by intros i ?%elem_of_nil.
Qed.
Lemma leaves_remember fresh_memory fresh context params : mentioned s0 fresh = false →
  write_principal_for server (principal_for_context server context) = Some p →
  leaves (pending []) (remember dimensions exp2 ln_1p limit_rows hash_order active_profile try_seconds server limits config blend_weight
    fresh_memory fresh context params) (λ _ _, True) (pending []).
Proof.
  intros Hfresh Hw. unfold remember, writer. rewrite Hw. apply (leaves_reads_then dimensions exp2 p s0 [] _ (λ q, q = p)); [by apply works_ret|].
  intros ? ->. apply (leaves_then dimensions exp2); [by apply works_engine, obeys_clock|]. intros now.
  eapply leaves_bind; [apply leaves_prepare; [constructor|exact Hfresh|by intros ?%elem_of_nil]|]. intros pr.
  apply leaves_assuming. intros Hid. cbn beta. rewrite app_nil_r. eapply leaves_bind; [|intros id; by apply leaves_ret].
  eapply leaves_cleanup; [apply leaves_store|]. apply leaves_rollback_one. intros id ->%Hid. exact Hfresh.
Qed.

(** *** [remember_many] *)

(** The ids a request draws for its contexts. *)
Context (fresh_context : nat → ContextId) (Hinj : Inj (=) (=) fresh_context) (Hunmentioned : ∀ i, mentioned s0 (fresh_context i) = false).
(** [created] was drawn before [index]. *)
Definition drawn (index : nat) (created : list ContextId) : Prop := NoDup created ∧ ∀ id, id ∈ created → ∃ j, (j < index)%nat ∧ id = fresh_context j.
Lemma drawn_unmentioned index created id : drawn index created → id ∈ created → mentioned s0 id = false.
Proof. intros [_ Hd] Hid. destruct (Hd id Hid) as (j & _ & ->). apply Hunmentioned. Qed.
Lemma drawn_fresh index created : drawn index created → fresh_context index ∉ rev created.
Proof.
  intros [_ Hd] Hin%list_elem_of_In%in_rev%list_elem_of_In. destruct (Hd _ Hin) as (j & Hj & Heq%(inj fresh_context)). lia.
Qed.
Lemma drawn_rev index created : drawn index created → NoDup (rev created).
Proof. intros [Hnd _]. by rewrite <- Permutation_rev. Qed.
Lemma drawn_next index created o : drawn index created → (∀ id, o = Some id → id = fresh_context index) → drawn (S index) (created ++ option_list o).
Proof.
  intros Hd Ho. pose proof (drawn_fresh _ _ Hd) as Hfresh. destruct Hd as [Hnd Hd]. split.
  - apply NoDup_app. split_and!; [done| |destruct o; cbn; [apply NoDup_singleton|constructor]].
    intros id Hid Hin. destruct o as [i|]; cbn in Hin; [|by apply elem_of_nil in Hin]. apply list_elem_of_singleton in Hin as ->.
    rewrite (Ho i eq_refl) in Hid. apply Hfresh. by apply list_elem_of_In, (proj1 (in_rev _ _)), list_elem_of_In.
  - intros id [Hid|Hid]%elem_of_app; [destruct (Hd id Hid) as (j & Hj & ->); exists j; split; [lia|done]|].
    destruct o as [i|]; [|by apply elem_of_nil in Hid]. apply list_elem_of_singleton in Hid as ->. exists index. split; [lia|by apply Ho].
Qed.
Lemma pending_next created o s : pending (option_list o ++ rev created) s → pending (rev (created ++ option_list o)) s.
Proof. rewrite rev_app_distr. by destruct o. Qed.
Lemma leaves_rollback_drawn index created : drawn index created →
  leaves (pending (rev created)) (run_engine (rollback_created_legacy_contexts dimensions exp2 created p)) (λ _, pending []) (pending []).
Proof. intros Hd. apply leaves_rollback_all; [apply Hd|]. intros id. by eapply drawn_unmentioned. Qed.

(** All of a request's items, each after those before it. *)
Definition all_created (index : nat) (created : list ContextId) (s : Store) : Prop := pending (rev created) s ∧ ∃ n, drawn (index + n) created.
Lemma leaves_prepare_each index fresh_memory params now created : drawn index created →
  leaves (pending (rev created))
    (prepare_each dimensions exp2 ln_1p limit_rows hash_order try_seconds limits config blend_weight index fresh_memory fresh_context params p now created)
    (λ items, all_created index (created ++ created_by_items items)) (pending []).
Proof.
  revert index created. induction params as [|item params IH]; intros index created Hd; cbn [prepare_each].
  { apply leaves_ret. intros s Hs. unfold created_by_items. cbn. rewrite app_nil_r. split; [done|]. exists 0%nat. by rewrite Nat.add_0_r. }
  eapply leaves_bind.
  { eapply leaves_cleanup; [apply leaves_prepare; [by eapply drawn_rev|apply Hunmentioned|by apply drawn_fresh]|by eapply leaves_rollback_drawn]. }
  intros pr. apply leaves_assuming. intros Hid. cbn beta. eapply leaves_bind.
  { eapply leaves_mono; [intros s; apply pending_next|apply IH; by apply drawn_next|exact (λ _ s H, H)|done]. }
  intros rest. apply leaves_ret. intros s [Hs [n Hn]]. unfold created_by_items in *. cbn [map concat]. rewrite (assoc_L (++)). split; [done|].
  exists (S n). by rewrite Nat.add_succ_r.
Qed.
Lemma leaves_remember_many fresh_memory placeholder context memories :
  write_principal_for server (principal_for_context server context) = Some p →
  leaves (pending []) (remember_many dimensions exp2 ln_1p limit_rows hash_order active_profile try_seconds server limits config blend_weight
    fresh_memory placeholder fresh_context context memories) (λ _ _, True) (pending []).
Proof.
  intros Hw. unfold remember_many, writer. rewrite Hw. apply (leaves_reads_then dimensions exp2 p s0 [] _ (λ q, q = p)); [by apply works_ret|].
  intros ? ->. do 1 (apply (leaves_then dimensions exp2); [apply works_answer_if|]). intros _.
  apply (leaves_then dimensions exp2); [by apply works_engine, obeys_clock|]. intros now. cbv zeta.
  apply (leaves_then dimensions exp2).
  { generalize 0%nat. induction (map remember_params_from memories) as [|item params IH]; intros index; cbn [prevalidate_each]; [by apply works_ret|].
    apply works_seq; [|auto]. unfold prevalidate_remember, built_memory. apply works_seq; [|intros; by apply works_ret].
    apply works_seq; [by apply works_by|]. intros i. apply works_seq; [by apply works_by|]. intros m. by apply works_ret. }
  intros _. eapply leaves_bind.
  { apply (leaves_prepare_each 0 fresh_memory _ now []). split; [constructor|by intros id ?%elem_of_nil]. }
  intros items. unfold all_created. apply leaves_assuming. intros [n Hn]. cbn [app] in *.
  assert (Hstore : leaves (pending (rev (created_by_items items))) (or_cleanup
      (run_engine (foreground dimensions exp2 (batch_store_with_metadata_contexts dimensions active_profile limits (map pr_memory items)
         (map pr_supersedes items) (map pr_metadata items) (map pr_direct_context_ids items))))
      (run_engine (rollback_created_legacy_contexts dimensions exp2 (created_by_items items) p))) (λ _ _, True) (pending [])).
  { eapply leaves_cleanup; [|by eapply leaves_rollback_drawn]. eapply leaves_mono; [|apply leaves_batch| |]; done. }
  eapply leaves_bind; [exact Hstore|]. intros ids. by apply leaves_ret.
Qed.

(** *** The commit of a [handoff] *)

#[local] Abbreviation prepare_handoff := (prepare_handoff dimensions exp2 ln_1p limit_rows hash_order try_seconds limits config blend_weight).
#[local] Abbreviation prepare_handoffs := (prepare_handoffs dimensions exp2 ln_1p limit_rows hash_order try_seconds limits config blend_weight).
Lemma leaves_prepare_handoff stack fresh_memory fresh c : NoDup stack → mentioned s0 fresh = false → fresh ∉ stack →
  leaves (pending stack) (prepare_handoff fresh_memory fresh (Some p) true c)
    (λ h s, pending (option_list (ph_created h) ++ stack) s ∧ ∀ id, ph_created h = Some id → id = fresh) (pending stack).
Proof.
  intros Hstack Hfresh Hnew. unfold ServerWrites.prepare_handoff. cbv zeta. cbn [principal_or_anonymous default].
  apply (leaves_then dimensions exp2); [by apply works_validated|]. intros h. apply (leaves_then dimensions exp2); [apply works_answer_if|]. intros _.
  apply (leaves_then dimensions exp2); [by apply works_engine, obeys_clock|]. intros now.
  apply (leaves_then dimensions exp2); [by apply works_validated|]. intros i. apply (leaves_then dimensions exp2).
  { apply works_engine. unfold of_engine_result. destruct (build_memory _ _ _ _ _); [by apply logic_ret|by apply obeys_fail]. }
  intros m. eapply (leaves_bind _ _ _ (λ placed s, selected p s0 stack fresh (fst (fst placed)) s)).
  - unfold handoff_placement. case_match; [|case_match; [by apply leaves_scope; [..|intros r selection; by apply leaves_ret]|]].
    + eapply leaves_bind; [by apply leaves_selection|]. intros s. by apply leaves_ret.
    + eapply leaves_bind; [by apply leaves_selection|]. intros s. by apply leaves_ret.
  - intros [[selection resolution] adapted]. cbn [fst]. unfold selected. apply leaves_assuming. intros Hid.
    eapply leaves_bind; [eapply leaves_mono; [exact (λ s H, H)|apply leaves_duplicates|exact (λ _ s H, H)|done]|].
    intros cards. by apply leaves_ret.
Qed.
Definition created_by_candidates (hs : list PreparedHandoff) : list ContextId := concat (map (λ h, option_list (ph_created h)) hs).
Lemma leaves_prepare_handoffs index fresh_memory candidates created : drawn index created →
  leaves (pending (rev created)) (prepare_handoffs index fresh_memory fresh_context (Some p) true candidates created)
    (λ hs, all_created index (created ++ created_by_candidates hs)) (pending []).
Proof.
  revert index created. induction candidates as [|c candidates IH]; intros index created Hd; cbn [ServerWrites.prepare_handoffs].
  { apply leaves_ret. intros s Hs. unfold created_by_candidates. cbn. rewrite app_nil_r. split; [done|]. exists 0%nat. by rewrite Nat.add_0_r. }
  eapply leaves_bind.
  { eapply leaves_cleanup; [apply leaves_prepare_handoff; [by eapply drawn_rev|apply Hunmentioned|by apply drawn_fresh]|by eapply leaves_rollback_drawn]. }
  intros h. apply leaves_assuming. intros Hid. cbn beta. eapply leaves_bind.
  { eapply leaves_mono; [intros s; apply pending_next|apply IH; by apply drawn_next|exact (λ _ s H, H)|done]. }
  intros rest. apply leaves_ret. intros s [Hs [n Hn]]. unfold created_by_candidates in *. cbn [map concat]. rewrite (assoc_L (++)). split; [done|].
  exists (S n). by rewrite Nat.add_succ_r.
Qed.
Lemma leaves_commit index hs : drawn index (created_by_candidates hs) →
  leaves (pending (rev (created_by_candidates hs))) (commit_handoffs dimensions exp2 active_profile limits p hs) (λ _ _, True) (pending []).
Proof.
  intros Hd. unfold commit_handoffs. cbv zeta. eapply (leaves_bind _ _ _ (λ l _, len l = len (omap ph_write hs))).
  - eapply leaves_cleanup; [|by eapply leaves_rollback_drawn]. eapply leaves_mono; [|apply leaves_batch| |]; [done| |done].
    intros l s ->. unfold len. by rewrite length_map.
  - intros l se Hq Hwf ->. rewrite Z.eqb_refl. by exists (Ok (imap (λ i h, with_id (l !! i) (ph_suggestion h)) hs, len (omap ph_write hs))), se.
Qed.
Lemma leaves_handoff fresh_memory context candidates :
  write_principal_for server (principal_for_context server context) = Some p →
  leaves (pending []) (handoff dimensions exp2 ln_1p limit_rows hash_order active_profile try_seconds server limits config blend_weight
    fresh_memory fresh_context context candidates true) (λ _ _, True) (pending []).
Proof.
  intros Hw. unfold handoff, writer. cbv zeta. rewrite Hw. apply (leaves_reads_then dimensions exp2 p s0 [] _ (λ q, q = Some p)).
  { eapply (works_bind _ _ _ _ _ (λ q, q = p)); [by apply works_ret|]. intros ? ->. by apply works_ret. }
  intros ? ->. cbn [first_some principal_or_anonymous default]. apply (leaves_then dimensions exp2); [apply works_answer_if|]. intros _.
  eapply leaves_bind.
  { apply (leaves_prepare_handoffs 0 fresh_memory _ []). split; [constructor|by intros id ?%elem_of_nil]. }
  intros hs. unfold all_created. apply leaves_assuming. intros [n Hn]. cbn [app] in *.
  eapply leaves_bind; [by eapply leaves_commit|]. intros [ws k]. by apply leaves_ret.
Qed.

(** *** [revise] *)

Lemma leaves_update P prog : ServerEffects.works dimensions exp2 (memory_op always) (run_engine (foreground dimensions exp2 prog)) always →
  cautious dimensions exp2 prog → leaves P (run_engine (foreground dimensions exp2 prog)) (λ o s, ao_outcome o ≠ WriteOutcome.Applied → P s) P.
Proof. apply leaves_cautious. Qed.
(** The re-read of [id] after its update. *)
Definition reread_failure (id : MemoryId) : Failure := ProtocolFailure (error_data_from (EngineError.Store (memory_not_found id))).
Lemma reread_fails id se e se' : run_engine (call dimensions exp2 (get_memory_contexts id p)) se = Some (Err e, se') → e = reread_failure id.
Proof.
  unfold run_engine, lift, call, try_call, mbind, engine_bind, with_conn. set (t := turn dimensions exp2 se).
  assert (Hget : ∀ now s e, get_memory_contexts id p now s = Err e → e = memory_not_found id).
  { intros now s e0. unfold get_memory_contexts, fetch_memory_by_id, mbind, tx_bind, reads. destruct (row_to_memory id <$> _); [|by intros [= <-]].
    destruct (is_expired _ _ || _); cbn; by intros [= <-]. }
  specialize (Hget (se_now t) (se_store t)). destruct (get_memory_contexts id p (se_now t) (se_store t)) as [[a s]|e0]; cbn; [done|].
  intros [= <- _]. by rewrite (Hget e0 eq_refl).
Qed.
Lemma leaves_replacement fresh params hints : mentioned s0 fresh = false →
  leaves (pending []) (replacement dimensions exp2 limit_rows hash_order fresh p params hints)
    (λ r s, pending (option_list (rx_created r)) s ∧ ∀ id, rx_created r = Some id → id = fresh) (pending []).
Proof.
  intros Hfresh. unfold replacement. case_match; [|case_match; [|by apply leaves_ret]].
  - apply (leaves_then dimensions exp2); [by eapply works_any, works_selection|]. intros s. by apply leaves_ret.
  - apply leaves_scope; [constructor|done|by intros ?%elem_of_nil|]. intros r s. unfold selected. apply leaves_assuming. intros Hid. rewrite app_nil_r.
    cbv zeta. eapply leaves_bind.
    + eapply leaves_cleanup; [|apply leaves_rollback_one; by intros id ->%Hid].
      eapply (leaves_mono _ _ _ _ (λ _, pending (option_list (rcs_created_legacy_context s)))); [exact (λ s H, H)|..];
        [apply (leaves_reads dimensions exp2); by apply works_replace_primary|by intros a st [_ Hs]|exact (λ s H, H)].
    + intros [rev complete]. by apply leaves_ret.
Qed.

(** As [leaves], with a look at the failure. *)
Definition ends (P : Store → Prop) {A} (m : tool A) (E : Failure → Store → Prop) : Prop :=
  ∀ se, quiet se → wf_registry (st_registry (se_store se)) → P (se_store se) →
  ∃ r se', m se = Some (r, se') ∧ match r with Ok _ => True | Err e => E e (se_store se') end.
Lemma ends_leaves {A} P (m : tool A) Q E0 (E : Failure → Store → Prop) : (∀ e s, E0 s → E e s) → leaves P m Q E0 → ends P m E.
Proof.
  intros HE Hm se Hq Hwf HP. destruct (Hm se Hq Hwf HP) as (r & se' & Hr & _ & _ & Hend). exists r, se'. split; [done|]. destruct r; [done|auto].
Qed.
Lemma ends_bind {A B} P (m : tool A) (k : A → tool B) Q E0 (E : Failure → Store → Prop) : (∀ e s, E0 s → E e s) →
  leaves P m Q E0 → (∀ a, ends (Q a) (k a) E) → ends P (m ≫= k) E.
Proof.
  intros HE Hm Hk se Hq Hwf HP. destruct (Hm se Hq Hwf HP) as ([a|e] & se1 & Hr & Hq1 & Hwf1 & HQ).
  - destruct (Hk a se1 Hq1 Hwf1 HQ) as (r & se2 & Hr2 & Hend). exists r, se2. by rewrite (tool_step _ _ _ _ _ Hr).
  - exists (Err e), se1. rewrite (tool_stop _ _ _ _ _ Hr). auto.
Qed.
Lemma ends_assuming {A} (φ : Prop) P' (m : tool A) E : (φ → ends P' m E) → ends (λ s, P' s ∧ φ) m E.
Proof. intros Hm se Hq Hwf [HP Hφ]. by apply Hm. Qed.
Lemma ends_given {A} (φ : Prop) P' (m : tool A) E : (φ → ends P' m E) → ends (λ s, φ ∧ P' s) m E.
Proof. intros Hm se Hq Hwf [Hφ HP]. by apply Hm. Qed.
#[local] Abbreviation left_or_reread id := (λ e s, pending [] s ∨ e = reread_failure id).
Lemma ends_revise fresh context params : mentioned s0 fresh = false →
  write_principal_for server (principal_for_context server context) = Some p →
  ends (pending []) (revise dimensions exp2 limit_rows hash_order active_profile server limits fresh context params) (left_or_reread (rv_id params)).
Proof.
  intros Hfresh Hw. unfold revise, writer. rewrite Hw. cbv zeta.
  assert (Hstep : ∀ A B (m : tool A) (k : A → tool B), works m always → (∀ a, ends (pending []) (k a) (left_or_reread (rv_id params))) →
    ends (pending []) (m ≫= k) (left_or_reread (rv_id params))).
  { intros A B m k Hm Hk. eapply ends_bind; [|by apply (leaves_reads dimensions exp2 _ _ _ _ always)|]; [by left|]. intros a se Hq Hwf [_ Hs]. by apply Hk. }
  eapply ends_bind; [|apply (leaves_reads dimensions exp2 _ _ _ _ (λ q, q = p)); by apply works_ret|]; [by left|].
  intros q. apply ends_given. intros ->. do 3 (apply Hstep; [by apply works_validated|]; intros ?). apply Hstep; [apply works_answer_if|]. intros _.
  eapply ends_bind; [|by apply leaves_replacement|]; [by left|]. intros r. apply ends_assuming. intros Hid.
  assert (Hback : leaves (pending (option_list (rx_created r))) (run_engine (rollback_created_legacy_context dimensions exp2 (rx_created r) p)) (λ _, pending []) (pending [])).
  { apply leaves_rollback_one. by intros id ->%Hid. }
  eapply (ends_bind _ _ _ (λ o s, ao_outcome o ≠ WriteOutcome.Applied → pending (option_list (rx_created r)) s) (pending [])); [by left| |].
  { eapply leaves_cleanup; [|exact Hback]. destruct (rx_expected_revision r).
    - apply leaves_update; [by apply works_program, keeps_update_if|apply cautious_update_if].
    - apply leaves_update; [by apply works_program, keeps_foreground_update|apply cautious_update]. }
  intros o. eapply (ends_bind _ _ _ (λ _ s, ao_outcome o ≠ WriteOutcome.Applied → pending [] s) (pending [])); [by left| |].
  - case_bool_decide as Hap; [by apply leaves_ret|]. intros se Hq Hwf Hs. destruct (Hback se Hq Hwf (Hs Hap)) as (x & se' & Hx & Hq' & Hwf' & Hend).
    exists x, se'. split_and!; [done..|]. destruct x; [by intros _|done].
  - intros _. destruct (ao_outcome o).
    + intros se Hq Hwf _. destruct (works_get_contexts dimensions exp2 p impression (rv_id params) se Hwf) as ([cs|e] & se' & Hr & _).
      * rewrite (tool_step _ _ _ _ _ Hr). eexists (Ok _), se'. split; [reflexivity|exact I].
      * rewrite (tool_stop _ _ _ _ _ Hr). exists (Err e), se'. split; [done|]. right. by eapply reread_fails.
    + apply (ends_leaves _ _ (λ _ _, True) (pending [])); [by left|]. apply leaves_refuse. intros s Hs. by apply Hs.
    + apply (ends_leaves _ _ (λ _ _, True) (pending [])); [by left|]. apply leaves_refuse. intros s Hs. by apply Hs.
Qed.
End tools.

Section compensation.
Context `{Render, UnicodeCase, Chrono, UrlLib, Sha256Lib, Fts, VectorIndex, SearchProviders, Surroundings} (dimensions : Z) (exp2 ln_1p : f64 → f64).
Context (limit_rows : nat → gset ContextId → gset ContextId) (hash_order : gset ContextKind.t → list ContextKind.t).
Context (active_profile : option EmbeddingProfile) (try_seconds : Z → option Z).
Context (server : ServerAuth) (limits : LimitsConfig) (config : SearchConfig) (blend_weight : f64).
Context (fresh_memory placeholder : nat → MemoryId) (fresh_context : nat → ContextId) (context : RequestContext).
#[local] Abbreviation serve_write := (serve_write dimensions exp2 ln_1p limit_rows hash_order active_profile try_seconds server limits config
  blend_weight fresh_memory placeholder fresh_context context).

(** C10. A write that fails leaves nothing behind. When nobody else commits and
    the ids drawn for contexts are new, a [remember], [remember_many],
    [handoff] or [revise] that answers an error (a refused caller, an invalid
    item, an ambiguous or denied context, a failing store, a batch of which
    only the last item is bad) leaves every table as it was: the contexts it
    had made for legacy scopes, in whatever order, are gone again together
    with the record of their creation, and only counters of impressions and
    numbers of the context audit are used up. The exception is a [revise]
    whose update is done and whose re-read of the memory is then refused. *)
Theorem failed_write_is_undone request se e se'
    (Hhash : ∀ kinds, hash_order kinds ≡ₚ elements kinds) (Hwf : wf_registry (st_registry (se_store se)))
    (Hpool : 0 ≤ lc_max_candidate_pool_size limits) (Hsemantic : 0 ≤ sc_semantic_candidate_k config)
    (Hkeyword : 0 ≤ sc_keyword_candidate_k config) (Hmax : 0 ≤ lc_max_search_limit limits)
    (Hquiet : quiet se) (Hinj : Inj (=) (=) fresh_context) (Hnew : ∀ i, mentioned (se_store se) (fresh_context i) = false)
    (Hfails : serve_write request se = Some (Err e, se')) :
  unchanged (se_store se) (se_store se') ∨ ∃ params, request = Revise params ∧ e = reread_failure (rv_id params).
Proof.
  assert (Hdone : leaves (unchanged (se_store se)) (serve_write request) (λ _ _, True) (unchanged (se_store se)) → unchanged (se_store se) (se_store se')).
  { intros Hl. destruct (Hl se Hquiet Hwf) as (r & se1 & Hr & _ & _ & Hend); [reflexivity|]. rewrite Hfails in Hr. by injection Hr as <- <-. }
  destruct (is_preview request) eqn:Hpreview.
  { left. apply Hdone. destruct request as [| | |candidates []]; try done. eapply leaves_bind; [|intros r; by apply leaves_ret].
    apply (leaves_works dimensions exp2 _ _ (λ _, True)); [intros s s' Hs Hu; by transitivity s|]. by apply (works_handoff dimensions exp2 ln_1p _ _ _ _ _ _ _ _ _ _ _ _ false). }
  destruct (write_principal_for server (principal_for_context server context)) as [p|] eqn:Hp.
  2: { left. assert (Hrefused : serve_write request se = Some (Err (ToolFailure anonymous_write_denied), se)).
       { destruct request as [params|memories|params|candidates []]; try done; cbn [Attribution.serve_write]; apply tool_stop;
           unfold remember, remember_many, revise, handoff, writer; rewrite Hp; reflexivity. }
       rewrite Hrefused in Hfails. by injection Hfails as _ <-. }
  destruct request as [params|memories|params|candidates []]; try done.
  1,2,4: left; apply Hdone; eapply leaves_bind; [|intros r; by apply leaves_ret].
  - by apply (leaves_remember dimensions exp2 ln_1p _ _ _ _ _ _ _ _ Hhash Hpool Hsemantic Hkeyword Hmax p).
  - by apply (leaves_remember_many dimensions exp2 ln_1p _ _ _ _ _ _ _ _ Hhash Hpool Hsemantic Hkeyword Hmax p).
  - by apply (leaves_handoff dimensions exp2 ln_1p _ _ _ _ _ _ _ _ Hhash Hpool Hsemantic Hkeyword Hmax p).
  - destruct (ends_revise dimensions exp2 limit_rows hash_order active_profile server limits Hhash p (se_store se) (fresh_context 0) context params
      (Hnew 0%nat) Hp se Hquiet Hwf) as (r & se1 & Hr & Hend); [reflexivity|]. cbn [Attribution.serve_write] in Hfails. destruct r as [r|e1].
    + by rewrite (tool_step _ _ _ _ _ Hr) in Hfails.
    + rewrite (tool_stop _ _ _ _ _ Hr) in Hfails. injection Hfails as <- <-. destruct Hend as [Hs| ->]; [by left|]. right. by exists params.
Qed.
End compensation.

(** ** A batch whose last item is bad *)

#[local] Existing Instances plain_render AsciiCase plain_chrono plain_url plain_digest NaiveFts ExhaustiveIndex PartialProviders.
#[local] Existing Instance QuietSurroundings.
Definition bad_batch : WriteRequest :=
  RememberMany [RememberManyItem.Structured (note "Garden/Fruit"); RememberManyItem.Structured (note "inbox/unresolved")].
Definition bad_run := serve_plain (stdio_server "ann") bad_batch quiet_session.

(** The first item's context was made (the audit used up a number) and is gone. *)
Lemma failed_write_is_undone_witness :
  match bad_run with
  | Some (Err _, se') => unchanged (se_store quiet_session) (se_store se') ∧ map is_some (st_context_audit (se_store se')) = [true; false]
  | _ => False
  end.
Proof.
  assert (Hgap : match bad_run with
    | Some (Err _, se') => map is_some (st_context_audit (se_store se')) = [true; false] | _ => False end) by (vm_compute; reflexivity).
  destruct bad_run as [[[r|e] se']|] eqn:Hrun; try contradiction Hgap. split; [|exact Hgap].
  destruct (failed_write_is_undone 1 (λ x, x) (λ x, x) first_rows kind_order None (λ s, Some s) (stdio_server "ann") limits_config_default
    search_config_default f0 (λ i, N.of_nat (7 + i)) (λ _, 0%N) (λ i, N.of_nat (40 + i)) None bad_batch quiet_session e se')
    as [Hu|(params & Hparams & _)].
  - intros kinds. reflexivity.
  - apply run_contexts_registry, new_store_wf.
  - vm_compute. discriminate.
  - vm_compute. discriminate.
  - vm_compute. discriminate.
  - vm_compute. discriminate.
  - reflexivity.
  - intros i j Hij. lia.
  - intros i. vm_compute. reflexivity.
  - exact Hrun.
  - exact Hu.
  - discriminate Hparams.
Defined.

(** ** A revision that reports a failure after it was done *)

Definition shared_with_bob : Session :=
  mkSession (run 1 (λ x, x) new_store (OpStore (sample_memory "secret" (Some "ann") (AccessPolicy.Restricted ["bob"])) None None)) 30 [].
Definition withdraw : ReviseParams :=
  {| rv_id := m_id (sample_memory "secret" (Some "ann") (AccessPolicy.Restricted ["bob"])); rv_content := None; rv_summary := None;
     rv_agent_label := None; rv_context := None; rv_scope := None; rv_context_hints := []; rv_tags := None;
     rv_access_policy := Some (AccessPolicyInput.Structured (AccessPolicy.Restricted [])); rv_importance := None; rv_confidence := None;
     rv_entities := None |}.
Lemma revise_fails_after_its_commit :
  match serve_plain (stdio_server "bob") (Revise withdraw) shared_with_bob with
  | Some (Err e, se') => e = reread_failure (rv_id withdraw)
      ∧ r_access_policy <$> st_memories (se_store se') !! rv_id withdraw = Some (AccessPolicy.Restricted [])
  | _ => False
  end.
Proof. vm_compute. split; reflexivity. Qed.
