(* ===== verification/ProgramLogic.v ===== *)
(** * ProgramLogic: reasoning about concurrent programs

    [safe] says what a program may do: write only right vectors, drop only
    guards it owns, answer for the leases it takes until they are released or
    the vector is written. [inv] is the invariant of the running server:
    each thread is safe for what it owns, what they own is disjoint, and
    every lease this server took has a thread that answers for it. A server
    whose requests are safe keeps the invariant, whatever the interleaving,
    the other sessions and the shutdown do. *)
From Stdlib Require Import ZArith Lia.
From stdpp Require Import base list option strings gmap sets relations.
From S2P Require Import Prelude Text Floats Errors Types Context StoreTypes Store Membership Crud ContextAdmin Revisions Operations Vectors Integrity Concurrency Governance Hierarchy Programs.

(** ** Facts and leases *)

(** [(id, revision, content)]: the memory has this content as long as its
    embedding revision is this one. *)
Definition Fact : Type := MemoryId * Z * string.
Definition fact_holds (s : Store) (f : Fact) : Prop := ∀ r,
  st_memories s !! f.1.1 = Some r →
  f.1.2 ≤ r_embedding_revision r ∧ (r_embedding_revision r = f.1.2 → r_content r = f.2).
Definition facts_hold (s : Store) (fs : list Fact) : Prop := ∀ f, f ∈ fs → fact_holds s f.
Definition learned (s : Store) (fs : list Fact) : Prop :=
  ∀ f, f ∈ fs → fact_holds s f ∧ is_Some (st_memories s !! f.1.1).

(** The row of the memory carries this lease. *)
Definition leased (s : Store) (c : ActiveEmbedClaim) : Prop := ∃ r,
  st_memories s !! ac_id c = Some r ∧ r_embedding_revision r = ac_embedding_revision c
  ∧ r_embedding_claim_token r = Some (ac_claim_token c).

Definition active_claim (c : ReembedClaim) : ActiveEmbedClaim :=
  mkActiveEmbedClaim (rc_id c) (rc_embedding_revision c) (rc_claim_token c).
Definition claim_fact (c : ReembedClaim) : Fact := (rc_id c, rc_embedding_revision c, rc_content c).

(** Rows keep their revision order. *)
Definition rows_evolve (s s' : Store) : Prop := ∀ id a b,
  st_memories s !! id = Some a → st_memories s' !! id = Some b → row_le a b.
Lemma evolves_rows s s' : evolves s s' → rows_evolve s s'.
Proof. intros He id a b Ha Hb. by destruct (He id a b Ha Hb). Qed.
Lemma fact_stable s s' f :
  rows_evolve s s' → (is_Some (st_memories s' !! f.1.1) → is_Some (st_memories s !! f.1.1)) →
  fact_holds s f → fact_holds s' f.
Proof.
  intros He Hp Hf r' Hr'. destruct Hp as [r Hr]; [eauto|]. destruct (Hf r Hr) as [Hle Hc].
  destruct (He _ _ _ Hr Hr') as (_ & Hle' & Hc'). split; [lia|]. intros Heq. rewrite <- Hc' by lia. apply Hc. lia.
Qed.

(** ** What a program owns *)

(** Keys in flight, active claims, the leases it answers for and the facts it
    has learned; and whether it is a spawned task, which the shutdown may
    drop at any point. *)
Record Owned := mkOwned {
  ow_inflight : gset EmbedKey;
  ow_active : gset ActiveEmbedClaim;
  ow_leases : gset ActiveEmbedClaim;
  ow_facts : list Fact;
  ow_task : bool;
}.
Definition set_leases (l : gset ActiveEmbedClaim) (g : Owned) : Owned :=
  mkOwned (ow_inflight g) (ow_active g) l (ow_facts g) (ow_task g).
Definition add_facts (fs : list Fact) (g : Owned) : Owned :=
  mkOwned (ow_inflight g) (ow_active g) (ow_leases g) (fs ++ ow_facts g) (ow_task g).
Definition set_inflight (k : gset EmbedKey) (g : Owned) : Owned :=
  mkOwned k (ow_active g) (ow_leases g) (ow_facts g) (ow_task g).
Definition set_active (c : gset ActiveEmbedClaim) (g : Owned) : Owned :=
  mkOwned (ow_inflight g) c (ow_leases g) (ow_facts g) (ow_task g).
(** What a spawn gives away, and what stays. *)
Definition given (keys : gset EmbedKey) (claims : gset ActiveEmbedClaim) (g : Owned) : Owned :=
  mkOwned keys claims (ow_leases g ∩ claims) (ow_facts g) true.
Definition kept (keys : gset EmbedKey) (claims : gset ActiveEmbedClaim) (g : Owned) : Owned :=
  mkOwned (ow_inflight g ∖ keys) (ow_active g ∖ claims) (ow_leases g ∖ claims) (ow_facts g) (ow_task g).
Definition finished {A : Type} (_ : A) (g : Owned) : Prop := ow_inflight g = ∅ ∧ ow_active g = ∅ ∧ ow_leases g = ∅.

Section logic.
Context `{Render, UnicodeCase, Chrono} (dimensions : Z) (exp2 : f64 → f64) (answers : string → list f64 → Prop).

Definition tables_ok (s : Store) : Prop := ∀ id, vector_ok dimensions any_vector any_lease s id.
(** The transaction changes the store like an operation that writes right
    vectors and takes no lease. *)
Definition is_operation {B} (fs : list Fact) (m : DateTime → tx B) : Prop := ∃ o : DateTime → operation,
  (∀ now s, run dimensions exp2 s (o now) = snd (with_conn (m now) s))
  ∧ ∀ now s allowed, facts_hold s fs → writes_right answers allowed s (o now).
Definition transaction_safe {B} (g : Owned) (m : DateTime → tx B) (post : result StoreError.t B → Owned → Prop) : Prop :=
  is_operation (ow_facts g) m ∧
  ∀ now s r s', tables_ok s → facts_hold s (ow_facts g) → with_conn (m now) s = (r, s') →
    ∃ l fs, l ⊆ ow_leases g ∧ (∀ c, c ∈ ow_leases g → c ∈ l ∨ ¬ leased s' c) ∧ learned s' fs
      ∧ post r (add_facts fs (set_leases l g)).
Definition new_claims (claims : list ReembedClaim) (g : Owned) : Prop :=
  NoDup (map rc_id claims) ∧ ∀ c, c ∈ claims → active_claim c ∉ ow_leases g ∧ active_claim c ∉ ow_active g.

Fixpoint safe {A : Type} (p : prog A) (g : Owned) (post : A → Owned → Prop) {struct p} : Prop :=
  match p with
  | Ret a => post a g
  | ReadClock k => ∀ now, safe (k now) g post
  | Transact B m k => transaction_safe g m (λ r g', safe (k r) g' post)
  | ClaimForReembed scope limit k =>
      ow_task g = false ∧ (∀ e, safe (k (Err e)) g post) ∧
      ∀ claims, new_claims claims g →
        safe (k (Ok claims))
          (add_facts (map claim_fact claims) (set_leases (ow_leases g ∪ list_to_set (map active_claim claims)) g)) post
  | HealthCheck k => ∀ r, safe (k r) g post
  | Embed text k => ∀ r, (∀ v, r = Ok v → answers text v) → safe (k r) g post
  | EmbedBatch texts k =>
      ∀ r, (∀ vs, r = Ok vs → length vs = length texts → Forall2 answers texts vs) → safe (k r) g post
  | BeginEmbedAdmission k => ∀ r, safe (k r) g post
  | InsertInflight key k =>
      (key ∉ ow_inflight g → safe (k true) (set_inflight ({[key]} ∪ ow_inflight g) g) post) ∧ safe (k false) g post
  | DropInflight key k => key ∈ ow_inflight g ∧ safe k (set_inflight (ow_inflight g ∖ {[key]}) g) post
  | InsertActive claim k =>
      claim ∈ ow_leases g ∧ claim ∉ ow_active g ∧ safe k (set_active ({[claim]} ∪ ow_active g) g) post
  | DropActive claim k =>
      claim ∈ ow_active g ∧ (ow_task g = true → claim ∉ ow_leases g)
      ∧ safe k (set_active (ow_active g ∖ {[claim]}) g) post
  | Spawn keys claims task k =>
      keys ⊆ ow_inflight g ∧ claims ⊆ ow_active g
      ∧ safe task (given keys claims g) finished
      ∧ safe (k true) (kept keys claims g) post ∧ safe (k false) g post
  end.

Lemma safe_mono {A : Type} (p : prog A) g (post post' : A → Owned → Prop) :
  safe p g post → (∀ a g', post a g' → post' a g') → safe p g post'.
Proof.
  intros Hs Hp. revert g Hs. induction p as [A a|A k IH|A B m k IH|A scope limit k IH|A k IH|A text k IH|A texts k IH
    |A k IH|A key k IH|A key k IH|A c k IH|A c k IH|A keys claims task IHt k IH]; cbn; intros g Hs.
  - by apply Hp.
  - intros x. by eapply IH.
  - destruct Hs as [Ho Hs]. split; [done|]. intros now s r s' Ht Hf Hr.
    destruct (Hs now s r s' Ht Hf Hr) as (l & fs & ? & ? & ? & ?). exists l, fs. split_and!; [done..|]. by eapply IH.
  - destruct Hs as (? & He & Hs). split_and!; [done|intros e; by eapply IH|]. intros cs Hcs. eapply IH; [done|]. by apply Hs.
  - intros x. by eapply IH.
  - intros x Hx. eapply IH; [done|]. by apply Hs.
  - intros x Hx. eapply IH; [done|]. by apply Hs.
  - intros x. by eapply IH.
  - destruct Hs as [Ht Hf]. split; [|by eapply IH]. intros Hk. eapply IH; [done|]. by apply Ht.
  - destruct Hs. split; [done|]. by eapply IH.
  - destruct Hs as (? & ? & ?). split_and!; [done..|]. by eapply IH.
  - destruct Hs as (? & ? & ?). split_and!; [done..|]. by eapply IH.
  - destruct Hs as (? & ? & ? & ? & ?). split_and!; [done..| |]; by eapply IH.
Qed.
Lemma safe_bind {A B : Type} (p : prog A) (f : A → prog B) g post :
  safe p g (λ a g', safe (f a) g' post) → safe (p ≫= f) g post.
Proof.
  unfold mbind, prog_bind. revert g. induction p as [A a|A k IH|A C m k IH|A scope limit k IH|A k IH|A text k IH|A texts k IH
    |A k IH|A key k IH|A key k IH|A c k IH|A c k IH|A keys claims task IHt k IH]; cbn; intros g Hs.
  - done.
  - intros x. apply IH, Hs.
  - destruct Hs as [Ho Hs]. split; [done|]. intros now s r s' Ht Hf Hr.
    destruct (Hs now s r s' Ht Hf Hr) as (l & fs & ? & ? & ? & ?). exists l, fs. split_and!; [done..|]. by apply IH.
  - destruct Hs as (? & He & Hs). split_and!; [done|intros e; by apply IH|]. intros cs Hcs. apply IH. by apply Hs.
  - intros x. apply IH, Hs.
  - intros x Hx. apply IH. by apply Hs.
  - intros x Hx. apply IH. by apply Hs.
  - intros x. apply IH, Hs.
  - destruct Hs as [Ht Hf]. split; [|by apply IH]. intros Hk. apply IH. by apply Ht.
  - destruct Hs. split; [done|]. by apply IH.
  - destruct Hs as (? & ? & ?). split_and!; [done..|]. by apply IH.
  - destruct Hs as (? & ? & ?). split_and!; [done..|]. by apply IH.
  - destruct Hs as (? & ? & ? & ? & ?). split_and!; [done..| |]; by apply IH.
Qed.

(** ** The invariant of the server *)

(** The leases a thread answers for, and what it knows. *)
Definition Annotation : Type := gset ActiveEmbedClaim * list Fact.
Implicit Types (x : Thread * Annotation) (ann : gmap nat (Thread * Annotation)).
Definition owned x : Owned := mkOwned (th_inflight x.1) (th_active x.1) x.2.1 x.2.2 (th_spawned x.1).
Definition claims_of x : gset ActiveEmbedClaim := x.2.1 ∪ th_active x.1.

Record thread_ok (s : System) x : Prop := {
  ok_safe : safe (th_prog x.1) (owned x) finished;
  ok_facts : ∀ f, f ∈ x.2.2 → fact_holds (sy_store s) f ∧ f.1.1 ∈ sy_born s;
  ok_spawned : th_spawned x.1 = true → x.2.1 ⊆ th_active x.1;
  ok_issued : ∀ c, c ∈ claims_of x → ac_claim_token c ∈ sy_issued s;
}.
(** Once the shutdown has collected the active claims, a lease of a taken
    task is still to be released or gone. *)
Definition shutdown_ok ann (s : System) : Prop := ∀ t x,
  t ∈ taken (sy_shutdown s) → ann !! t = Some x →
  th_spawned x.1 = true ∧
  match sy_shutdown s with
  | Releasing _ cs => ∀ c, c ∈ x.2.1 → c ∈ cs ∨ ¬ leased (sy_store s) c
  | Dropping _ => ∀ c, c ∈ x.2.1 → ¬ leased (sy_store s) c
  | _ => True
  end.
Record inv ann (s : System) : Prop := {
  i_ann : fst <$> ann = sy_threads s;
  i_tables : ∀ id, vector_ok dimensions answers any_lease (sy_store s) id;
  i_born : ∀ id, is_Some (st_memories (sy_store s) !! id) → id ∈ sy_born s;
  i_thread : ∀ t x, ann !! t = Some x → thread_ok s x;
  i_keys : ∀ k, k ∈ sy_inflight s ↔ ∃ t x, ann !! t = Some x ∧ k ∈ th_inflight x.1;
  i_keys_excl : ∀ t1 t2 x1 x2 k, ann !! t1 = Some x1 → ann !! t2 = Some x2 →
    k ∈ th_inflight x1.1 → k ∈ th_inflight x2.1 → t1 = t2;
  i_active : ∀ c, c ∈ sy_active s ↔ ∃ t x, ann !! t = Some x ∧ c ∈ th_active x.1;
  i_claims_excl : ∀ t1 t2 x1 x2 c, ann !! t1 = Some x1 → ann !! t2 = Some x2 →
    c ∈ claims_of x1 → c ∈ claims_of x2 → t1 = t2;
  i_leases : ∀ c, leased (sy_store s) c → ac_claim_token c ∈ sy_issued s →
    ∃ t x, ann !! t = Some x ∧ c ∈ x.2.1;
  i_shutdown : shutdown_ok ann s;
}.

(** *** What a step does to the store *)

Record store_moves (s s' : System) : Prop := {
  sm_tables : ∀ id, vector_ok dimensions answers any_lease (sy_store s') id;
  sm_rows : rows_evolve (sy_store s) (sy_store s');
  sm_ids : ids_fresh s s';
  sm_born : ∀ id, id ∈ sy_born s ∨ is_Some (st_memories (sy_store s') !! id) → id ∈ sy_born s';
  sm_issued : sy_issued s ⊆ sy_issued s';
  sm_leases : ∀ c, leased (sy_store s') c → leased (sy_store s) c ∨ ac_claim_token c ∉ sy_issued s;
}.
Lemma facts_move s s' f : store_moves s s' →
  fact_holds (sy_store s) f ∧ f.1.1 ∈ sy_born s → fact_holds (sy_store s') f ∧ f.1.1 ∈ sy_born s'.
Proof.
  intros Hm [Hf Hb]. split; [|apply Hm; by left].
  eapply fact_stable; [apply Hm| |done]. intros Hs. by destruct (sm_ids _ _ Hm _ Hs).
Qed.
Lemma thread_moves s s' x : store_moves s s' → thread_ok s x → thread_ok s' x.
Proof.
  intros Hm [Hs Hf Hp Hi]. split; [done| |done|].
  - intros f Hin. by eapply facts_move, Hf.
  - intros c Hc. by apply Hm, Hi.
Qed.
Lemma inv_store_moves ann s s' : inv ann s → sy_store s' = sy_store s → sy_issued s' = sy_issued s → sy_born s' = sy_born s →
  store_moves s s'.
Proof.
  intros Hi Hs Hiss Hb. split; rewrite ?Hs, ?Hiss, ?Hb; try done.
  - apply Hi.
  - intros id a b Ha Hb'. assert (a = b) as -> by congruence. reflexivity.
  - intros id Hid. left. by rewrite <- Hs.
  - intros id [?|?]; [done|]. by apply Hi.
  - auto.
Qed.
(** A lease that is gone stays gone. *)
Lemma gone_moves s s' x c : store_moves s s' → thread_ok s x → c ∈ x.2.1 →
  ¬ leased (sy_store s) c → ¬ leased (sy_store s') c.
Proof.
  intros Hm Hx Hc Hn Hl. destruct (sm_leases _ _ Hm c Hl) as [?|Hni]; [done|].
  apply Hni, Hx. unfold claims_of. set_solver.
Qed.

(** *** One thread moves *)

(** Thread [t] goes from [x] to [x']; what it owns changes, what the others
    own does not. *)
Record turn_taken (s s' : System) (t : nat) x x' : Prop := {
  tm_store : store_moves s s';
  tm_threads : sy_threads s' = <[t := x'.1]> (sy_threads s);
  tm_shutdown : sy_shutdown s' = sy_shutdown s;
  tm_ok : thread_ok s' x';
  tm_spawned : th_spawned x'.1 = th_spawned x.1;
  tm_keys : ∀ k, k ∈ sy_inflight s' ↔ (k ∈ sy_inflight s ∧ k ∉ th_inflight x.1) ∨ k ∈ th_inflight x'.1;
  tm_keys_new : ∀ k, k ∈ th_inflight x'.1 → k ∈ th_inflight x.1 ∨ k ∉ sy_inflight s;
  tm_active : ∀ c, c ∈ sy_active s' ↔ (c ∈ sy_active s ∧ c ∉ th_active x.1) ∨ c ∈ th_active x'.1;
  tm_claims_new : ∀ c, c ∈ claims_of x' → c ∈ claims_of x ∨ ac_claim_token c ∉ sy_issued s;
  tm_task : th_spawned x.1 = true → x'.2.1 ⊆ x.2.1;
  tm_leases : ∀ c, leased (sy_store s') c → ac_claim_token c ∈ sy_issued s' →
    c ∈ x'.2.1 ∨ leased (sy_store s) c ∧ ac_claim_token c ∈ sy_issued s ∧ c ∉ x.2.1;
}.
Lemma claims_issued ann s t x c : inv ann s → ann !! t = Some x → c ∈ claims_of x → ac_claim_token c ∈ sy_issued s.
Proof. intros Hi Ht. by apply (i_thread _ _ Hi t x Ht). Qed.
Ltac split_thread Ht := rewrite lookup_insert_Some in Ht; destruct Ht as [[<- <-]|[? Ht]].
Lemma inv_update ann s s' t x x' : inv ann s → ann !! t = Some x → turn_taken s s' t x x' → inv (<[t := x']> ann) s'.
Proof.
  intros Hi Hx Hm. destruct Hm as [Hst Hth Hsd Hok Hsp Hk Hkn Ha Hcn Htask Hl]. split.
  - rewrite fmap_insert, Hth. by rewrite (i_ann _ _ Hi).
  - apply Hst.
  - intros id Hid. apply Hst. by right.
  - intros t0 x0 Ht. split_thread Ht; [done|]. by eapply thread_moves, (i_thread _ _ Hi).
  - intros k. rewrite Hk, (i_keys _ _ Hi). split.
    + intros [[(t0 & x0 & Ht0 & Hin) Hni]|Hin]; [|exists t, x'; by rewrite lookup_insert_eq].
      exists t0, x0. rewrite lookup_insert_ne; [done|]. intros <-. by simplify_eq.
    + intros (t0 & x0 & Ht0 & Hin). split_thread Ht0; [by right|]. left. split; [by eauto|].
      intros Hin'. by assert (t = t0) by (by eapply (i_keys_excl _ _ Hi)).
  - intros t1 t2 x1 x2 k Ht1 Ht2 Hk1 Hk2.
    assert (∀ t3 x3, t ≠ t3 → ann !! t3 = Some x3 → k ∈ th_inflight x'.1 → k ∈ th_inflight x3.1 → False) as Hno.
    { intros t3 x3 Hne Ht3 Hin Hin3. destruct (Hkn k Hin) as [Hin'|Hni]; [by apply Hne; eapply (i_keys_excl _ _ Hi)|].
      apply Hni, (i_keys _ _ Hi). by eauto. }
    split_thread Ht1; split_thread Ht2; [done|by destruct (Hno t2 x2)|by destruct (Hno t1 x1)|by eapply (i_keys_excl _ _ Hi)].
  - intros c. rewrite Ha, (i_active _ _ Hi). split.
    + intros [[(t0 & x0 & Ht0 & Hin) Hni]|Hin]; [|exists t, x'; by rewrite lookup_insert_eq].
      exists t0, x0. rewrite lookup_insert_ne; [done|]. intros <-. by simplify_eq.
    + intros (t0 & x0 & Ht0 & Hin). split_thread Ht0; [by right|]. left. split; [by eauto|].
      intros Hin'. assert (t = t0); [|done]. eapply (i_claims_excl _ _ Hi); [done..| |]; apply elem_of_union; by right.
  - intros t1 t2 x1 x2 c Ht1 Ht2 Hc1 Hc2.
    assert (∀ t3 x3, t ≠ t3 → ann !! t3 = Some x3 → c ∈ claims_of x' → c ∈ claims_of x3 → False) as Hno.
    { intros t3 x3 Hne Ht3 Hin Hin3. destruct (Hcn c Hin) as [Hin'|Hni]; [by apply Hne; eapply (i_claims_excl _ _ Hi)|].
      by apply Hni; eapply claims_issued. }
    split_thread Ht1; split_thread Ht2; [done|by destruct (Hno t2 x2)|by destruct (Hno t1 x1)|by eapply (i_claims_excl _ _ Hi)].
  - intros c Hc Hiss. destruct (Hl c Hc Hiss) as [Hin|(Hc' & Hiss' & Hni)]; [exists t, x'; by rewrite lookup_insert_eq|].
    destruct (i_leases _ _ Hi c Hc' Hiss') as (t0 & x0 & Ht0 & Hin0). exists t0, x0.
    rewrite lookup_insert_ne; [done|]. intros <-. by simplify_eq.
  - intros t0 x0 Htk Ht0. rewrite Hsd in *. pose proof (i_shutdown _ _ Hi) as Hsh.
    split_thread Ht0.
    + destruct (Hsh t x Htk Hx) as [Hspx Hc]. split; [by rewrite Hsp|].
      specialize (Htask Hspx). destruct (sy_shutdown s); try done.
      * intros c Hin. destruct (Hc c) as [?|Hn]; [by apply Htask|by left|right]. eapply gone_moves; [done|by eapply (i_thread _ _ Hi)|by apply Htask|done].
      * intros c Hin. eapply gone_moves; [done|by eapply (i_thread _ _ Hi)|by apply Htask|by apply Hc, Htask].
    + destruct (Hsh t0 x0 Htk Ht0) as [Hspx Hc]. split; [done|]. destruct (sy_shutdown s); try done.
      * intros c Hin. destruct (Hc c Hin) as [?|Hn]; [by left|right]. eapply gone_moves; [done|by eapply (i_thread _ _ Hi)|done..].
      * intros c Hin. eapply gone_moves; [done|by eapply (i_thread _ _ Hi)|done|by apply Hc].
Qed.

(** *** Operations of the store *)

Definition leased_or (s : Store) (ok : string → Prop) (id : MemoryId) (rev : Z) (token : string) : Prop :=
  leased s (mkActiveEmbedClaim id rev token) ∨ ok token.
Lemma leased_after s s' ok c :
  (∀ id, vector_ok dimensions any_vector any_lease s id) →
  keeps_vectors dimensions any_vector (leased_or s ok) s s' →
  leased s' c → leased s c ∨ ok (ac_claim_token c).
Proof.
  intros Hs Hk (r & Hr & Hrev & Htok).
  assert (vector_ok dimensions any_vector (leased_or s ok) s' (ac_id c)) as Hv.
  { apply Hk. intros id. eapply vector_ok_mono; [| |apply Hs]; [done|].
    intros r0 token Hr0 Ht _. left. by exists r0. }
  unfold vector_ok in Hv. rewrite Hr in Hv. destruct (st_vectors s' !! ac_id c) as [v|].
  - destruct Hv as (_ & [_ Hn] & _). congruence.
  - destruct Hv as [_ Hl]. destruct (Hl _ Htok) as [Hl'|?]; [left|by right]. rewrite Hrev in Hl'. by destruct c.
Qed.
Lemma run_moves ann s st o s' :
  inv ann s → st = run dimensions exp2 (sy_store s) o →
  writes_right answers (λ _ _ token, token ∉ sy_issued s) (sy_store s) o →
  sy_store s' = st → sy_born s' = sy_born s ∪ dom (st_memories st) → sy_issued s ⊆ sy_issued s' → ids_fresh s s' →
  store_moves s s'.
Proof.
  intros Hi -> Hw Hst Hb Hiss Hids. split; rewrite ?Hst; try done.
  - eapply run_keeps_vectors; [|apply Hi]. by eapply writes_right_mono; [| |exact Hw].
  - apply evolves_rows, run_evolves.
  - intros id Hid. rewrite Hb. apply elem_of_union. destruct Hid as [?|[r Hr]]; [by left|right]. by apply elem_of_dom_2 in Hr.
  - intros c Hc. eapply (leased_after _ _ (λ token, token ∉ sy_issued s)); [| |exact Hc].
    + intros id. eapply vector_ok_mono; [| |apply Hi]; done.
    + apply run_keeps_vectors. eapply writes_right_mono; [| |exact Hw]; [done|]. intros ???. by right.
Qed.
Lemma with_conn_forget {B} (m : tx B) s : snd (with_conn (forget m) s) = snd (with_conn m s).
Proof. unfold with_conn, forget, mbind, tx_bind. by destruct (m s) as [[b s']|e]. Qed.

(** Context administration touches no content, vector or lease. *)
Lemma rows_evolve_refl s : rows_evolve s s.
Proof. intros id a b Ha Hb. assert (a = b) as -> by congruence. reflexivity. Qed.
Lemma only_rows id s s' : Revisions.only id s s' → rows_evolve s s'.
Proof.
  intros [Ho Hi] j a b Ha Hb. destruct (decide (j = id)) as [->|].
  - by rewrite Ha, Hb in Hi.
  - destruct (Ho j) as (E&_); [done|]. assert (a = b) as -> by congruence. reflexivity.
Qed.
Lemma only_replace_memberships_conn id cs p a now : steps (Revisions.only id) (replace_memory_contexts_conn id cs p a now).
Proof.
  unfold replace_memory_contexts_conn, fetch_memory_by_id, rewrite_memberships, rewrite_scope, insert_context_audit. steps_tac.
  - apply only_memberships. intros t j Hj. by rewrite lookup_delete_ne.
  - apply only_metadata. intros t j Hj. by rewrite lookup_alter_ne.
  - apply steps_only_row. intros r. split_and!; cbn; lia || done.
Qed.
Lemma same_tables_rows s s' : same_tables s s' → rows_evolve s s'.
Proof. intros [Hm _] id a b Ha Hb. rewrite <- Hm in Hb. assert (a = b) as -> by congruence. reflexivity. Qed.
Lemma same_tables_vectors right allowed s s' : same_tables s s' → keeps_vectors dimensions right allowed s s'.
Proof. intros (Hm & Hv & _) Hok id. specialize (Hok id). unfold vector_ok in *. by rewrite <- Hm, <- Hv. Qed.
(** A context operation leaves the tables or replaces memberships. *)
Lemma run_context_cases (P : Store → Prop) s o :
  P s → (∀ s', same_tables s s' → P s') →
  (∀ id cs p a now w s', replace_memory_contexts_conn id cs p a now s = Ok (w, s') → P s') → P (run_context s o).
Proof.
  intros H1' H2' H3'. pose proof (tables_context_op o) as Ht. unfold run_context, with_conn.
  destruct (co_tx o s) as [[u s']|e] eqn:E; cbn; [|done].
  destruct o; try (apply H2'; exact (Ht _ _ _ E)). cbn in E. apply forget_Ok in E as [x E]. by eapply H3'.
Qed.
Lemma run_context_rows s o : rows_evolve s (run_context s o).
Proof.
  apply run_context_cases; [apply rows_evolve_refl | apply same_tables_rows |].
  intros id cs p a now x s' E. eapply only_rows, only_replace_memberships_conn, E.
Qed.
Lemma run_context_keeps_vectors right allowed s o : keeps_vectors dimensions right allowed s (run_context s o).
Proof.
  apply run_context_cases; [by intros ? | apply same_tables_vectors |].
  intros id cs p a now x s' E. exact (vectors_replace_memberships dimensions right allowed _ _ _ _ _ _ _ _ E).
Qed.
Lemma run_context_moves ann s o :
  inv ann s → ids_fresh s (with_store (run_context (sy_store s) o) s) →
  store_moves s (with_store (run_context (sy_store s) o) s).
Proof.
  intros Hi Hids. split; cbn; try done.
  - apply run_context_keeps_vectors, Hi.
  - apply run_context_rows.
  - intros id Hid. apply elem_of_union. destruct Hid as [?|[r Hr]]; [by left|right]. by apply elem_of_dom_2 in Hr.
  - intros c Hc. eapply (leased_after _ _ (λ _, False)) in Hc as [?|[]]; [by left| |apply run_context_keeps_vectors].
    intros id. eapply vector_ok_mono; [| |apply Hi]; done.
Qed.

(** *** The accesses of a thread *)

(** Only what is owned matters for what a thread may do, and only changed
    parts have to be looked at. *)
Lemma inv_turn ann s s' t x x' : inv ann s → ann !! t = Some x → store_moves s s' →
  sy_threads s' = <[t := x'.1]> (sy_threads s) → sy_shutdown s' = sy_shutdown s →
  safe (th_prog x'.1) (owned x') finished →
  (∀ f, f ∈ x'.2.2 → f ∈ x.2.2 ∨ fact_holds (sy_store s') f ∧ f.1.1 ∈ sy_born s') →
  th_spawned x'.1 = th_spawned x.1 →
  (th_spawned x.1 = true → x'.2.1 ⊆ x.2.1 ∧ x'.2.1 ⊆ th_active x'.1) →
  (∀ k, k ∈ sy_inflight s' ↔ (k ∈ sy_inflight s ∧ k ∉ th_inflight x.1) ∨ k ∈ th_inflight x'.1) →
  (∀ k, k ∈ th_inflight x'.1 → k ∈ th_inflight x.1 ∨ k ∉ sy_inflight s) →
  (∀ c, c ∈ sy_active s' ↔ (c ∈ sy_active s ∧ c ∉ th_active x.1) ∨ c ∈ th_active x'.1) →
  (∀ c, c ∈ claims_of x' → c ∈ claims_of x ∨ ac_claim_token c ∉ sy_issued s ∧ ac_claim_token c ∈ sy_issued s') →
  (∀ c, leased (sy_store s') c → ac_claim_token c ∈ sy_issued s' →
    c ∈ x'.2.1 ∨ leased (sy_store s) c ∧ ac_claim_token c ∈ sy_issued s ∧ c ∉ x.2.1) →
  inv (<[t := x']> ann) s'.
Proof.
  intros Hi Hx Hst Hth Hsd Hsafe Hf Hsp Htask Hk Hkn Ha Hcn Hl. pose proof (i_thread _ _ Hi _ _ Hx) as Hok.
  eapply inv_update; [done..|]. split; try done.
  - split; [done| | |].
    + intros f Hin. destruct (Hf f Hin) as [?|?]; [|done]. by eapply facts_move, Hok.
    + rewrite Hsp. intros Ht. by apply Htask.
    + intros c Hc. destruct (Hcn c Hc) as [Hin|[_ ?]]; [|done]. by apply Hst, Hok.
  - intros c Hc. destruct (Hcn c Hc) as [?|[? _]]; auto.
  - intros Ht. by apply Htask.
Qed.
(** An access of nothing shared. *)
Lemma keys_stay ann s t x : inv ann s → ann !! t = Some x → ∀ k, k ∈ sy_inflight s ↔ (k ∈ sy_inflight s ∧ k ∉ th_inflight x.1) ∨ k ∈ th_inflight x.1.
Proof.
  intros Hi Hx k. split; [intros Hk; destruct (decide (k ∈ th_inflight x.1)); auto|].
  intros [[? _]|?]; [done|]. apply (i_keys _ _ Hi). eauto.
Qed.
Lemma active_stay ann s t x : inv ann s → ann !! t = Some x → ∀ c, c ∈ sy_active s ↔ (c ∈ sy_active s ∧ c ∉ th_active x.1) ∨ c ∈ th_active x.1.
Proof.
  intros Hi Hx c. split; [intros Hk; destruct (decide (c ∈ th_active x.1)); auto|].
  intros [[? _]|?]; [done|]. apply (i_active _ _ Hi). eauto.
Qed.
Lemma leases_stay ann s t x : inv ann s → ann !! t = Some x → ∀ c, leased (sy_store s) c → ac_claim_token c ∈ sy_issued s →
  c ∈ x.2.1 ∨ leased (sy_store s) c ∧ ac_claim_token c ∈ sy_issued s ∧ c ∉ x.2.1.
Proof. intros Hi Hx c Hc Ht. destruct (decide (c ∈ x.2.1)); auto. Qed.
Lemma spawned_stay ann s t x : inv ann s → ann !! t = Some x → th_spawned x.1 = true → x.2.1 ⊆ x.2.1 ∧ x.2.1 ⊆ th_active x.1.
Proof. intros Hi Hx Ht. split; [done|]. by apply (i_thread _ _ Hi _ _ Hx). Qed.

Lemma inv_goes ann s t x p : inv ann s → ann !! t = Some x → safe p (owned x) finished →
  inv (<[t := (with_prog p x.1, x.2)]> ann) (with_threads (<[t := with_prog p x.1]> (sy_threads s)) s).
Proof.
  intros Hi Hx Hs. eapply inv_turn; cbn; try done; try by auto.
  - by eapply inv_store_moves.
  - by eapply spawned_stay.
  - by eapply keys_stay.
  - by eapply active_stay.
  - by eapply leases_stay.
Qed.
Lemma inv_insert_inflight ann s t x key k : inv ann s → ann !! t = Some x → key ∉ sy_inflight s →
  safe k (set_inflight ({[key]} ∪ th_inflight x.1) (owned x)) finished →
  let th := mkThread k ({[key]} ∪ th_inflight x.1) (th_active x.1) (th_spawned x.1) in
  inv (<[t := (th, x.2)]> ann) (with_threads (<[t := th]> (sy_threads s)) (with_inflight ({[key]} ∪ sy_inflight s) s)).
Proof.
  intros Hi Hx Hk Hs th. eapply inv_turn; cbn; try done; try by auto.
  - by eapply inv_store_moves.
  - by eapply spawned_stay.
  - intros k'. rewrite elem_of_union, (keys_stay _ _ _ _ Hi Hx k'). set_solver.
  - set_solver.
  - by eapply active_stay.
  - by eapply leases_stay.
Qed.
Lemma inv_drop_inflight ann s t x key k : inv ann s → ann !! t = Some x → key ∈ th_inflight x.1 →
  safe k (set_inflight (th_inflight x.1 ∖ {[key]}) (owned x)) finished →
  let th := mkThread k (th_inflight x.1 ∖ {[key]}) (th_active x.1) (th_spawned x.1) in
  inv (<[t := (th, x.2)]> ann) (with_threads (<[t := th]> (sy_threads s)) (with_inflight (sy_inflight s ∖ {[key]}) s)).
Proof.
  intros Hi Hx Hk Hs th. eapply inv_turn; cbn; try done; try by auto.
  - by eapply inv_store_moves.
  - by eapply spawned_stay.
  - intros k'. rewrite elem_of_difference, (keys_stay _ _ _ _ Hi Hx k'). set_solver.
  - set_solver.
  - by eapply active_stay.
  - by eapply leases_stay.
Qed.
Lemma inv_insert_active ann s t x c k : inv ann s → ann !! t = Some x → c ∈ x.2.1 →
  safe k (set_active ({[c]} ∪ th_active x.1) (owned x)) finished →
  let th := mkThread k (th_inflight x.1) ({[c]} ∪ th_active x.1) (th_spawned x.1) in
  inv (<[t := (th, x.2)]> ann) (with_threads (<[t := th]> (sy_threads s)) (with_active ({[c]} ∪ sy_active s) s)).
Proof.
  intros Hi Hx Hc Hs th. eapply inv_turn; cbn; try done; try by auto.
  - by eapply inv_store_moves.
  - intros Ht. destruct (spawned_stay _ _ _ _ Hi Hx Ht). set_solver.
  - by eapply keys_stay.
  - intros c'. rewrite elem_of_union, (active_stay _ _ _ _ Hi Hx c'). set_solver.
  - unfold claims_of; cbn. intros c' Hc'. left. set_solver.
  - by eapply leases_stay.
Qed.
Lemma inv_drop_active ann s t x c k : inv ann s → ann !! t = Some x → c ∈ th_active x.1 →
  (th_spawned x.1 = true → c ∉ x.2.1) →
  safe k (set_active (th_active x.1 ∖ {[c]}) (owned x)) finished →
  let th := mkThread k (th_inflight x.1) (th_active x.1 ∖ {[c]}) (th_spawned x.1) in
  inv (<[t := (th, x.2)]> ann) (with_threads (<[t := th]> (sy_threads s)) (with_active (sy_active s ∖ {[c]}) s)).
Proof.
  intros Hi Hx Hc Hn Hs th. eapply inv_turn; cbn; try done; try by auto.
  - by eapply inv_store_moves.
  - intros Ht. specialize (Hn Ht). destruct (spawned_stay _ _ _ _ Hi Hx Ht). set_solver.
  - by eapply keys_stay.
  - intros c'. rewrite elem_of_difference, (active_stay _ _ _ _ Hi Hx c'). set_solver.
  - unfold claims_of; cbn. intros c' Hc'. left. set_solver.
  - by eapply leases_stay.
Qed.

Lemma with_store_born st s id : id ∈ sy_born s ∨ is_Some (st_memories st !! id) → id ∈ sy_born (with_store st s).
Proof. cbn. intros Hid. apply elem_of_union. destruct Hid as [?|[r Hr]]; [by left|right]. by apply elem_of_dom_2 in Hr. Qed.
Lemma inv_tables_ok ann s : inv ann s → tables_ok (sy_store s).
Proof. intros Hi id. eapply vector_ok_mono; [| |apply Hi]; done. Qed.
Lemma inv_facts_hold ann s t x : inv ann s → ann !! t = Some x → facts_hold (sy_store s) x.2.2.
Proof. intros Hi Hx f Hf. by apply (i_thread _ _ Hi _ _ Hx). Qed.

Lemma inv_transact ann s t x B (m : DateTime → tx B) k now r st :
  inv ann s → ann !! t = Some x → with_conn (m now) (sy_store s) = (r, st) → ids_fresh s (with_store st s) →
  transaction_safe (owned x) m (λ r g', safe (k r) g' finished) →
  ∃ l fs, let th := with_prog (k r) x.1 in
    inv (<[t := (th, (l, fs))]> ann) (with_threads (<[t := th]> (sy_threads s)) (with_store st s)).
Proof.
  intros Hi Hx Hr Hids [(o & Ho & Hw) Hs].
  pose proof (inv_facts_hold _ _ _ _ Hi Hx) as Hfs.
  destruct (Hs now _ _ _ (inv_tables_ok _ _ Hi) Hfs Hr) as (l & fs & Hl & Hgone & Hlearn & Hsafe).
  assert (store_moves s (with_threads (<[t := with_prog (k r) x.1]> (sy_threads s)) (with_store st s))) as Hm.
  { eapply (run_moves _ _ st (o now)); [done| |by apply Hw|done..].
    by rewrite Ho, Hr. }
  exists l, (fs ++ x.2.2). cbn. eapply inv_turn; cbn; try done; try by auto.
  - intros f [Hf|Hf]%elem_of_app; [right|by left]. destruct (Hlearn f Hf) as [? Hp].
    split; [done|]. apply with_store_born. by right.
  - intros Ht. split; [done|]. destruct (spawned_stay _ _ _ _ Hi Hx Ht). set_solver.
  - by eapply keys_stay.
  - by eapply active_stay.
  - unfold claims_of; cbn. intros c Hc. left. cbn in Hl. set_solver.
  - intros c Hc Hiss. destruct (sm_leases _ _ Hm c Hc) as [Hc'|Hn]; [|done]. cbn in Hgone.
    destruct (decide (c ∈ x.2.1)) as [Hin|?]; [|by right]. destruct (Hgone c Hin) as [?|?]; [by left|done].
Qed.

Lemma claim_learned scope limit now token s claims s' c :
  claim_for_reembed_with_scope_impl scope limit now token s = Ok (claims, s') → c ∈ claims →
  fact_holds s' (claim_fact c) ∧ is_Some (st_memories s' !! rc_id c) ∧ rc_claim_token c = token.
Proof.
  intros Hr Hc. apply claim_inv in Hr as (cands & -> & _ & Hin & _).
  apply list_elem_of_fmap in Hc as ([id r] & -> & Hp). destruct (Hin id r Hp) as (_ & _ & Hr').
  split_and!; cbn; [|by eauto|done]. intros r0 Hr0. cbn in *. by simplify_eq.
Qed.
Lemma claim_leases scope limit now token s claims s' c :
  claim_for_reembed_with_scope_impl scope limit now token s = Ok (claims, s') → leased s' c →
  leased s c ∨ c ∈ map active_claim claims.
Proof.
  intros Hr (r' & Hr' & Hrev & Htok). apply claim_inv in Hr as (cands & -> & _ & Hin & Hout).
  destruct (decide (ac_id c ∈ map fst cands)) as [Hid|Hid].
  - right. apply list_elem_of_fmap in Hid as ([id r] & Hid & Hp). destruct (Hin id r Hp) as (_ & _ & Hl). cbn in Hid.
    rewrite map_map. apply list_elem_of_fmap. exists (id, r). split; [|done]. rewrite Hid, Hl in Hr'. simplify_eq. cbn in *.
    destruct c as [id' rev' tok']; cbn in *. by simplify_eq.
  - left. exists r'. by rewrite <- Hout.
Qed.
Lemma inv_claim ann s t x scope limit now token k r st :
  inv ann s → ann !! t = Some x → token_fresh token s →
  with_conn (claim_for_reembed_with_scope_impl scope limit now token) (sy_store s) = (r, st) → ids_fresh s (with_store st s) →
  safe (ClaimForReembed scope limit k) (owned x) finished →
  ∃ l fs, let th := with_prog (k r) x.1 in
    inv (<[t := (th, (l, fs))]> ann)
      (with_threads (<[t := th]> (sy_threads s)) (with_issued token (with_store st s))).
Proof.
  intros Hi Hx [Hnew Hrows] Hr Hids (Hnt & He & Hs). cbn in Hnt.
  assert (∀ th, store_moves s (with_threads th (with_issued token (with_store st s)))) as Hm.
  { intros th. eapply (run_moves _ _ st (OpClaim scope limit now token)); [done| |by cbn; intros|done|done| |done].
    - unfold run. cbn [op_tx]. by rewrite with_conn_forget, Hr.
    - cbn. set_solver. }
  unfold with_conn in Hr. destruct (claim_for_reembed_with_scope_impl scope limit now token (sy_store s)) as [[claims st']|e] eqn:Hc;
    simplify_eq.
  - assert (∀ c, c ∈ claims → ac_claim_token (active_claim c) ∉ sy_issued s) as Hfresh.
    { intros c Hin. destruct (claim_learned _ _ _ _ _ _ _ _ Hc Hin) as (_ & _ & Ht). cbn. by rewrite Ht. }
    assert (new_claims claims (owned x)) as Hnc.
    { split.
      - apply claim_inv in Hc as (cands & -> & Hnd & _). rewrite map_map. exact Hnd.
      - intros c Hin. specialize (Hfresh c Hin). cbn.
        split; intros Hin'; apply Hfresh, (claims_issued _ _ _ _ _ Hi Hx); unfold claims_of; set_solver. }
    specialize (Hs claims Hnc).
    exists (x.2.1 ∪ list_to_set (map active_claim claims)), (map claim_fact claims ++ x.2.2). cbn.
    eapply inv_turn; cbn; try done; try by auto.
    + intros f [Hf|Hf]%elem_of_app; [right|by left]. apply list_elem_of_fmap in Hf as (c & -> & Hin).
      destruct (claim_learned _ _ _ _ _ _ _ _ Hc Hin) as (? & ? & _). split; [done|]. apply with_store_born. by right.
    + congruence.
    + by eapply keys_stay.
    + by eapply active_stay.
    + unfold claims_of; cbn. intros c [[?|Hin%elem_of_list_to_set]%elem_of_union|?]%elem_of_union; [left; set_solver| |left; set_solver].
      apply list_elem_of_fmap in Hin as (c0 & -> & Hin). right. split; [by apply Hfresh|].
      destruct (claim_learned _ _ _ _ _ _ _ _ Hc Hin) as (_ & _ & Ht). cbn. set_solver.
    + intros c Hl Hiss. destruct (claim_leases _ _ _ _ _ _ _ _ Hc Hl) as [Hl'|Hin].
      * assert (ac_claim_token c ≠ token) by (destruct Hl' as (r & Hr & _ & Ht); intros <-; by eapply Hrows).
        destruct (decide (c ∈ x.2.1)); [left; set_solver|right]. split_and!; [done|set_solver|done].
      * left. apply elem_of_union. right. by apply elem_of_list_to_set.
  - exists x.2.1, x.2.2. cbn. eapply inv_turn; cbn; try done; try by auto.
    + by eapply spawned_stay.
    + by eapply keys_stay.
    + by eapply active_stay.
    + intros c Hl Hiss. assert (ac_claim_token c ≠ token) by (destruct Hl as (r & Hr & _ & Ht); intros <-; by eapply Hrows).
      destruct (decide (c ∈ x.2.1)); [by left|right]. split_and!; [done|set_solver|done].
Qed.

(** *** Threads come and go *)

(** A thread ends, or is dropped with its guards once its leases are gone. *)
Lemma inv_remove ann s s' t x : inv ann s → ann !! t = Some x → store_moves s s' →
  sy_threads s' = delete t (sy_threads s) → sy_shutdown s' = sy_shutdown s →
  (∀ k, k ∈ sy_inflight s' ↔ k ∈ sy_inflight s ∧ k ∉ th_inflight x.1) →
  (∀ c, c ∈ sy_active s' ↔ c ∈ sy_active s ∧ c ∉ th_active x.1) →
  sy_store s' = sy_store s → sy_issued s' = sy_issued s →
  (∀ c, c ∈ x.2.1 → ¬ leased (sy_store s) c) → inv (delete t ann) s'.
Proof.
  intros Hi Hx Hst Hth Hsd Hk Ha Hstore Hiss Hgone. split.
  - by rewrite fmap_delete, Hth, (i_ann _ _ Hi).
  - apply Hst.
  - intros id Hid. apply Hst. by right.
  - intros t0 x0 Ht. apply lookup_delete_Some in Ht as [? Ht]. by eapply thread_moves, (i_thread _ _ Hi).
  - intros k. rewrite Hk, (i_keys _ _ Hi). split.
    + intros [(t0 & x0 & Ht0 & Hin) Hni]. exists t0, x0. rewrite lookup_delete_ne; [done|]. intros <-. by simplify_eq.
    + intros (t0 & x0 & Ht0 & Hin). apply lookup_delete_Some in Ht0 as [Hne Ht0]. split; [by eauto|].
      intros Hin'. apply Hne. by eapply (i_keys_excl _ _ Hi).
  - intros t1 t2 x1 x2 k [? Ht1]%lookup_delete_Some [? Ht2]%lookup_delete_Some. by eapply (i_keys_excl _ _ Hi).
  - intros c. rewrite Ha, (i_active _ _ Hi). split.
    + intros [(t0 & x0 & Ht0 & Hin) Hni]. exists t0, x0. rewrite lookup_delete_ne; [done|]. intros <-. by simplify_eq.
    + intros (t0 & x0 & Ht0 & Hin). apply lookup_delete_Some in Ht0 as [Hne Ht0]. split; [by eauto|].
      intros Hin'. apply Hne. eapply (i_claims_excl _ _ Hi); [done..| |]; apply elem_of_union; by right.
  - intros t1 t2 x1 x2 c [? Ht1]%lookup_delete_Some [? Ht2]%lookup_delete_Some. by eapply (i_claims_excl _ _ Hi).
  - intros c. rewrite Hstore, Hiss. intros Hc Htok. destruct (i_leases _ _ Hi c Hc Htok) as (t0 & x0 & Ht0 & Hin).
    exists t0, x0. rewrite lookup_delete_ne; [done|]. intros <-. simplify_eq. by eapply Hgone.
  - intros t0 x0 Htk [? Ht0]%lookup_delete_Some. rewrite Hsd, Hstore in *. by apply (i_shutdown _ _ Hi t0 x0).
Qed.
(** A request arrives. *)
Lemma inv_arrive ann s t p : inv ann s → thread_fresh t s → safe p (mkOwned ∅ ∅ ∅ [] false) finished →
  let th := mkThread p ∅ ∅ false in
  inv (<[t := (th, (∅, []))]> ann) (with_threads (<[t := th]> (sy_threads s)) s).
Proof.
  intros Hi [Hn Htk] Hs th.
  assert (ann !! t = None) as Hna.
  { rewrite <- (i_ann _ _ Hi), lookup_fmap in Hn. by destruct (ann !! t). }
  pose proof (inv_store_moves _ _ (with_threads (<[t := th]> (sy_threads s)) s) Hi eq_refl eq_refl eq_refl) as Hm.
  split; cbn.
  - by rewrite fmap_insert, (i_ann _ _ Hi).
  - apply Hi.
  - apply Hi.
  - intros t0 x0 Ht. split_thread Ht; [|by eapply thread_moves, (i_thread _ _ Hi)].
    split; cbn; try done; set_solver.
  - intros k. rewrite (i_keys _ _ Hi). split.
    + intros (t0 & x0 & Ht0 & Hin). exists t0, x0. rewrite lookup_insert_ne by congruence. done.
    + intros (t0 & x0 & Ht0 & Hin). split_thread Ht0; [set_solver|by eauto].
  - intros t1 t2 x1 x2 k Ht1 Ht2 H1' H2'. split_thread Ht1; [set_solver|]. split_thread Ht2; [set_solver|]. by eapply (i_keys_excl _ _ Hi).
  - intros k. rewrite (i_active _ _ Hi). split.
    + intros (t0 & x0 & Ht0 & Hin). exists t0, x0. rewrite lookup_insert_ne by congruence. done.
    + intros (t0 & x0 & Ht0 & Hin). split_thread Ht0; [set_solver|by eauto].
  - intros t1 t2 x1 x2 k Ht1 Ht2 H1' H2'. split_thread Ht1; [set_solver|]. split_thread Ht2; [set_solver|]. by eapply (i_claims_excl _ _ Hi).
  - intros c Hc Htok. destruct (i_leases _ _ Hi c Hc Htok) as (t0 & x0 & Ht0 & Hin).
    exists t0, x0. rewrite lookup_insert_ne by congruence. done.
  - intros t0 x0 Ht0 Hx0. cbn in Ht0. split_thread Hx0; [done|]. by apply (i_shutdown _ _ Hi t0 x0).
Qed.

(** A task is spawned: what [x] owned is split between [t] and [t2]. *)
Lemma inv_spawn ann s t x t2 keys claims task k : inv ann s → ann !! t = Some x → thread_fresh t2 s →
  safe (Spawn keys claims task k) (owned x) finished →
  let th := mkThread (k true) (th_inflight x.1 ∖ keys) (th_active x.1 ∖ claims) (th_spawned x.1) in
  let th2 := mkThread task keys claims true in
  inv (<[t2 := (th2, (x.2.1 ∩ claims, x.2.2))]> (<[t := (th, (x.2.1 ∖ claims, x.2.2))]> ann))
    (with_threads (<[t2 := th2]> (<[t := th]> (sy_threads s))) s).
Proof.
  intros Hi Hx [Hn Htk] (Hkeys & Hclaims & Hs2 & Hs1 & _) th th2. cbn in Hkeys, Hclaims.
  assert (ann !! t2 = None) as Hna.
  { rewrite <- (i_ann _ _ Hi), lookup_fmap in Hn. by destruct (ann !! t2). }
  assert (t2 ≠ t) as Hne by congruence.
  pose proof (i_thread _ _ Hi _ _ Hx) as [Hsafe Hfacts Hsp Hiss].
  (* every thread of the new map comes from one of the old *)
  assert (∀ t0 x0, <[t2 := (th2, (x.2.1 ∩ claims, x.2.2))]> (<[t := (th, (x.2.1 ∖ claims, x.2.2))]> ann) !! t0 = Some x0 →
    (t0 = t2 ∧ x0 = (th2, (x.2.1 ∩ claims, x.2.2))) ∨ (t0 = t ∧ x0 = (th, (x.2.1 ∖ claims, x.2.2)))
    ∨ (t0 ≠ t2 ∧ t0 ≠ t ∧ ann !! t0 = Some x0)) as Hcases.
  { intros t0 x0 Ht0. split_thread Ht0; [by left|]. split_thread Ht0; [by right; left|]. right; right. done. }
  assert (∀ t0 x0, t0 ≠ t → ann !! t0 = Some x0 →
    <[t2 := (th2, (x.2.1 ∩ claims, x.2.2))]> (<[t := (th, (x.2.1 ∖ claims, x.2.2))]> ann) !! t0 = Some x0) as Hother.
  { intros t0 x0 Ht0 Hx0. rewrite !lookup_insert_ne by congruence. done. }
  assert (∀ t0 x0, <[t2 := (th2, (x.2.1 ∩ claims, x.2.2))]> (<[t := (th, (x.2.1 ∖ claims, x.2.2))]> ann) !! t0 = Some x0 →
    ∃ o y, ann !! o = Some y ∧ th_inflight x0.1 ⊆ th_inflight y.1 ∧ claims_of x0 ⊆ claims_of y
      ∧ ((t0 = t2 ∧ o = t ∧ x0 = (th2, (x.2.1 ∩ claims, x.2.2))) ∨ (t0 = t ∧ o = t ∧ x0 = (th, (x.2.1 ∖ claims, x.2.2)))
         ∨ (t0 = o ∧ o ≠ t))) as Hfrom.
  { intros t0 x0 [(-> & ->)|[(-> & ->)|(? & ? & Ht0)]]%Hcases; [exists t, x|exists t, x|exists t0, x0].
    - split_and!; [done|done|unfold claims_of; cbn; clear - Hclaims; set_solver|by left].
    - split_and!; [done|cbn; clear; set_solver|unfold claims_of; cbn; clear; set_solver|by right; left].
    - split_and!; [done..|]. by right; right. }
  pose proof (inv_store_moves _ _ (with_threads (<[t2 := th2]> (<[t := th]> (sy_threads s))) s) Hi eq_refl eq_refl eq_refl) as Hm.
  split; cbn.
  - by rewrite !fmap_insert, (i_ann _ _ Hi).
  - apply Hi.
  - apply Hi.
  - intros t0 x0 [(-> & ->)|[(-> & ->)|(_ & _ & Ht0)]]%Hcases; [| |by eapply thread_moves, (i_thread _ _ Hi)].
    + split; cbn; [done|done|set_solver|]. intros c Hc. apply Hiss. unfold claims_of in *. cbn in *. set_solver.
    + split; cbn; [done|done| |].
      * intros Ht. specialize (Hsp Ht). set_solver.
      * intros c Hc. apply Hiss. unfold claims_of in *. cbn in *. set_solver.
  - intros k0. rewrite (i_keys _ _ Hi). split.
    + intros (t0 & x0 & Ht0 & Hin). destruct (decide (t0 = t)) as [->|?]; [|exists t0, x0; auto].
      simplify_eq. destruct (decide (k0 ∈ keys)).
      * exists t2, (th2, (x.2.1 ∩ claims, x.2.2)). by rewrite lookup_insert_eq.
      * exists t, (th, (x.2.1 ∖ claims, x.2.2)). rewrite lookup_insert_ne, lookup_insert_eq by done. cbn. set_solver.
    + intros (t0 & x0 & [(-> & ->)|[(-> & ->)|(_ & _ & Ht0)]]%Hcases & Hin); cbn in Hin;
        [exists t, x; set_solver | exists t, x; set_solver | eauto].
  - intros t3 t4 x3 x4 k0 H3' H4' Hk3 Hk4. destruct (Hfrom t3 x3 H3') as (o3 & y3 & Ho3 & Hk3' & _ & Hw3).
    destruct (Hfrom t4 x4 H4') as (o4 & y4 & Ho4 & Hk4' & _ & Hw4).
    assert (o3 = o4) as <- by (eapply (i_keys_excl _ _ Hi o3 o4 y3 y4 k0); auto).
    destruct Hw3 as [(-> & -> & ->)|[(-> & -> & ->)|[-> Hn3]]], Hw4 as [(-> & E4 & ->)|[(-> & E4 & ->)|[-> Hn4]]];
      try done; exfalso; cbn in Hk3, Hk4; clear - Hk3 Hk4; set_solver.
  - intros c. rewrite (i_active _ _ Hi). split.
    + intros (t0 & x0 & Ht0 & Hin). destruct (decide (t0 = t)) as [->|?]; [|exists t0, x0; auto].
      simplify_eq. destruct (decide (c ∈ claims)).
      * exists t2, (th2, (x.2.1 ∩ claims, x.2.2)). by rewrite lookup_insert_eq.
      * exists t, (th, (x.2.1 ∖ claims, x.2.2)). rewrite lookup_insert_ne, lookup_insert_eq by done. cbn. set_solver.
    + intros (t0 & x0 & [(-> & ->)|[(-> & ->)|(_ & _ & Ht0)]]%Hcases & Hin); cbn in Hin;
        [exists t, x; set_solver | exists t, x; set_solver | eauto].
  - intros t3 t4 x3 x4 c H3' H4' Hk3 Hk4. destruct (Hfrom t3 x3 H3') as (o3 & y3 & Ho3 & _ & Hk3' & Hw3).
    destruct (Hfrom t4 x4 H4') as (o4 & y4 & Ho4 & _ & Hk4' & Hw4).
    assert (o3 = o4) as <- by (eapply (i_claims_excl _ _ Hi o3 o4 y3 y4 c); auto).
    destruct Hw3 as [(-> & -> & ->)|[(-> & -> & ->)|[-> Hn3]]], Hw4 as [(-> & E4 & ->)|[(-> & E4 & ->)|[-> Hn4]]];
      try done; exfalso; unfold claims_of in Hk3, Hk4; cbn in Hk3, Hk4; clear - Hk3 Hk4; set_solver.
  - intros c Hc Htok. destruct (i_leases _ _ Hi c Hc Htok) as (t0 & x0 & Ht0 & Hin).
    destruct (decide (t0 = t)) as [->|?]; [|exists t0, x0; auto]. simplify_eq. destruct (decide (c ∈ claims)).
    + exists t2, (th2, (x.2.1 ∩ claims, x.2.2)). rewrite lookup_insert_eq. cbn. set_solver.
    + exists t, (th, (x.2.1 ∖ claims, x.2.2)). rewrite lookup_insert_ne, lookup_insert_eq by done. cbn. set_solver.
  - intros t0 x0 Ht0 [(-> & ->)|[(-> & ->)|(_ & _ & Hx0)]]%Hcases; cbn in *; [done| |by apply (i_shutdown _ _ Hi t0 x0)].
    destruct (i_shutdown _ _ Hi t x Ht0 Hx) as [? Hsh]. split; [done|]. destruct (sy_shutdown s); try done.
    + intros c Hc. apply Hsh. set_solver.
    + intros c Hc. apply Hsh. set_solver.
Qed.

(** *** Others and the shutdown *)

Lemma inv_elsewhere ann s s' : inv ann s → store_moves s s' →
  sy_threads s' = sy_threads s → sy_inflight s' = sy_inflight s → sy_active s' = sy_active s → sy_issued s' = sy_issued s →
  shutdown_ok ann s' → inv ann s'.
Proof.
  intros Hi Hm Ht Hk Ha Hiss Hsh. split; rewrite ?Hk, ?Ha, ?Ht; try apply Hi; try done.
  - apply Hm.
  - intros id Hid. apply Hm. by right.
  - intros t x Hx. by eapply thread_moves, (i_thread _ _ Hi).
  - intros c Hc Htok. rewrite Hiss in Htok. apply (i_leases _ _ Hi); [|done]. by destruct (sm_leases _ _ Hm c Hc).
Qed.
Lemma shutdown_moves ann s s' : inv ann s → store_moves s s' → sy_shutdown s' = sy_shutdown s → shutdown_ok ann s'.
Proof.
  intros Hi Hm Hsd t x. rewrite Hsd. intros Ht Hx. destruct (i_shutdown _ _ Hi t x Ht Hx) as [? Hsh]. split; [done|].
  pose proof (i_thread _ _ Hi t x Hx) as Hok. destruct (sy_shutdown s); try done.
  - intros c Hc. destruct (Hsh c Hc) as [?|?]; [by left|right]. by eapply gone_moves.
  - intros c Hc. eapply gone_moves; [done..|]. by apply Hsh.
Qed.

Lemma release_run c st : release_claim c st = run dimensions exp2 st (OpRelease (ac_id c) (ac_embedding_revision c) (ac_claim_token c)).
Proof. unfold release_claim, run. cbn [op_tx]. by rewrite with_conn_forget. Qed.
Lemma release_unleased c st r st' :
  tables_ok st →
  with_conn (release_embedding_claim_impl (ac_id c) (ac_embedding_revision c) (ac_claim_token c)) st = (r, st') → ¬ leased st' c.
Proof.
  intros Hok Hr (r' & Hr' & Hrev & Htok). unfold with_conn, release_embedding_claim_impl in Hr. specialize (Hok (ac_id c)).
  destruct (st_memories st !! ac_id c) as [r0|] eqn:E; [|by simplify_eq].
  destruct (negb (r_has_embedding r0) && (r_embedding_revision r0 =? ac_embedding_revision c)
    && bool_decide (r_embedding_claim_token r0 = Some (ac_claim_token c))) eqn:Hc; simplify_eq.
  - cbn in Hr'. rewrite lookup_alter_eq, E in Hr'. cbn in Hr'. by simplify_eq.
  - rewrite Hrev, Z.eqb_refl, (bool_decide_eq_true_2 _ Htok), !andb_true_r in Hc. apply negb_false_iff in Hc.
    unfold vector_ok in Hok. rewrite E in Hok. destruct (st_vectors st' !! ac_id c); [|by destruct Hok; congruence].
    destruct Hok as (_ & [_ Hn] & _). congruence.
Qed.

Context (served : prog unit → Prop) (Hserved : ∀ p, served p → safe p (mkOwned ∅ ∅ ∅ [] false) finished).

Lemma inv_advance ann s t th o : inv ann s → sy_threads s !! t = Some th →
  answers_fit answers (th_prog th) o s → ids_fresh s (advance o t th s) → ∃ ann', inv ann' (advance o t th s).
Proof.
  intros Hi Hth Hfit Hids.
  assert (∃ a, ann !! t = Some (th, a)) as [a Hx].
  { rewrite <- (i_ann _ _ Hi), lookup_fmap in Hth. destruct (ann !! t) as [[th0 a]|]; [|done]. cbn in Hth. simplify_eq. by exists a. }
  pose proof (ok_safe _ _ (i_thread _ _ Hi _ _ Hx)) as Hs. cbn [fst] in Hs. unfold advance in *.
  destruct (th_prog th) as [[]|k|B m k|scope limit k|k|text k|texts k|k|key k|key k|c k|c k|keys claims task k] eqn:Hp;
    cbn [answers_fit] in Hfit.
  - exists (delete t ann). destruct Hs as (Hk & Hc & Hl). cbn in Hk, Hc, Hl.
    eapply inv_remove; [done..| | | | | | | |]; cbn; try done.
    + by eapply inv_store_moves.
    + intros k. rewrite Hk. set_solver.
    + intros c. rewrite Hc. set_solver.
    + rewrite Hl. set_solver.
  - eexists. by eapply (inv_goes _ _ _ (th, a)).
  - destruct (with_conn (m (or_now o)) (sy_store s)) as [r st] eqn:Hr.
    destruct (inv_transact _ _ _ (th, a) B m k _ _ _ Hi Hx Hr Hids Hs) as (l & fs & Hi'). eexists. exact Hi'.
  - destruct (with_conn (claim_for_reembed_with_scope_impl scope limit (or_now o) (or_token o)) (sy_store s)) as [r st] eqn:Hr.
    destruct (inv_claim _ _ _ (th, a) _ _ _ _ k _ _ Hi Hx Hfit Hr Hids Hs) as (l & fs & Hi'). eexists. exact Hi'.
  - eexists. by eapply (inv_goes _ _ _ (th, a)).
  - eexists. eapply (inv_goes _ _ _ (th, a)); [done..|]. by apply Hs.
  - eexists. eapply (inv_goes _ _ _ (th, a)); [done..|]. by apply Hs.
  - eexists. by eapply (inv_goes _ _ _ (th, a)).
  - destruct Hs as [Hst Hsf]. case_bool_decide as Hin; eexists.
    + by eapply (inv_goes _ _ _ (th, a)).
    + eapply (inv_insert_inflight _ _ _ (th, a)); [done..|]. apply Hst. cbn. intros Hin'. apply Hin, (i_keys _ _ Hi). eauto.
  - destruct Hs as [Hk Hs]. eexists. by eapply (inv_drop_inflight _ _ _ (th, a)).
  - destruct Hs as (Hc & _ & Hs). eexists. by eapply (inv_insert_active _ _ _ (th, a)).
  - destruct Hs as (Hc & Hn & Hs). eexists. by eapply (inv_drop_active _ _ _ (th, a)).
  - destruct (or_accepted o).
    + eexists. eapply (inv_spawn _ _ _ (th, a)); [done|done|by apply Hfit|done].
    + destruct Hs as (_ & _ & _ & _ & Hs). eexists. by eapply (inv_goes _ _ _ (th, a)).
Qed.

Lemma inv_phase ann s p : inv ann s → shutdown_ok ann (with_shutdown p s) → inv ann (with_shutdown p s).
Proof. intros Hi Hsh. eapply inv_elsewhere; [done|by eapply inv_store_moves|done..]. Qed.
Lemma inv_step ann s s' : inv ann s → step dimensions exp2 served answers s s' → ∃ ann', inv ann' s'.
Proof.
  intros Hi ([t p|t o|o|o| | | | |t|] & Hlegal & Hp & Hids); cbn in Hlegal, Hp.
  - simplify_eq. destruct Hlegal as [Hf Hsv]. eexists. by apply inv_arrive, Hserved.
  - destruct (sy_threads s !! t) as [th|] eqn:Hth; [|done]. cbn in Hp. simplify_eq. by eapply inv_advance; [..|apply Hlegal|].
  - simplify_eq. exists ann. assert (store_moves s (with_store (run dimensions exp2 (sy_store s) o) s)) by (by eapply run_moves).
    eapply inv_elsewhere; [done..|]. by eapply shutdown_moves.
  - simplify_eq. exists ann. assert (store_moves s (with_store (run_context (sy_store s) o) s)) by (by eapply run_context_moves).
    eapply inv_elsewhere; [done..|]. by eapply shutdown_moves.
  - exists ann. destruct (sy_shutdown s) eqn:Hsd; simplify_eq. apply inv_phase; [done|].
    intros t x Ht Hx. cbn in *. split; [|done]. apply elem_of_dom in Ht as [th Hth].
    rewrite map_lookup_filter_Some, <- (i_ann _ _ Hi), lookup_fmap, Hx in Hth. cbn in Hth. by destruct Hth as [[= <-] ?].
  - exists ann. destruct (sy_shutdown s) eqn:Hsd; simplify_eq. case_bool_decide; simplify_eq. apply inv_phase; [done|].
    intros t x Ht. cbn in Ht. set_solver.
  - exists ann. destruct (sy_shutdown s) as [|ts|ts cs|ts] eqn:Hsd; simplify_eq. apply inv_phase; [done|].
    intros t x Ht Hx. cbn in *. destruct (i_shutdown _ _ Hi t x) as [Hsp _]; [by rewrite Hsd|done|]. split; [done|].
    intros c Hc. left. apply elem_of_elements, (i_active _ _ Hi). exists t, x. split; [done|].
    by apply (i_thread _ _ Hi _ _ Hx).
  - exists ann. destruct (sy_shutdown s) as [|ts|ts [|c cs]|ts] eqn:Hsd; simplify_eq.
    + apply inv_phase; [done|]. intros t x Ht Hx. cbn in *. destruct (i_shutdown _ _ Hi t x) as [Hsp Hc]; [by rewrite Hsd|done|].
      split; [done|]. rewrite Hsd in Hc. intros c Hin. destruct (Hc c Hin) as [Hn|?]; [by apply not_elem_of_nil in Hn|done].
    + set (s1 := with_store (release_claim c (sy_store s)) s).
      assert (store_moves s (with_shutdown (Releasing ts cs) s1)) as Hm.
      { eapply (run_moves _ _ _ (OpRelease (ac_id c) (ac_embedding_revision c) (ac_claim_token c)));
          [done|by rewrite <- release_run|done..]. }
      eapply inv_elsewhere; [done..|]. intros t x Ht Hx. cbn in *.
      destruct (i_shutdown _ _ Hi t x) as [Hsp Hc]; [by rewrite Hsd|done|]. split; [done|]. rewrite Hsd in Hc.
      intros c' Hin. destruct (decide (c' = c)) as [->|Hne].
      * right. unfold release_claim. destruct (with_conn _ _) as [r st'] eqn:Hr. cbn. eapply release_unleased; [by eapply inv_tables_ok|exact Hr].
      * destruct (Hc c' Hin) as [[?|?]%elem_of_cons|Hn]; [done|by left|right].
        eapply (gone_moves s (with_shutdown (Releasing ts cs) s1)); [exact Hm|by eapply (i_thread _ _ Hi)|done..].
  - destruct (sy_shutdown s) as [|ts|ts cs|ts] eqn:Hsd; simplify_eq. case_bool_decide as Hts; [|done].
    destruct (sy_threads s !! t) as [th|] eqn:Hth; [|done]. cbn in Hp. simplify_eq.
    assert (∃ a, ann !! t = Some (th, a)) as [a Hx].
    { rewrite <- (i_ann _ _ Hi), lookup_fmap in Hth. destruct (ann !! t) as [[th0 a]|]; [|done]. cbn in Hth. simplify_eq. by exists a. }
    exists (delete t ann). eapply inv_remove; [done..| | | | | | | |]; cbn; try done.
    + by eapply inv_store_moves.
    + intros k. set_solver.
    + intros c. set_solver.
    + destruct (i_shutdown _ _ Hi t (th, a)) as [_ Hgone]; [by rewrite Hsd|done|]. by rewrite Hsd in Hgone.
  - exists ann. destruct (sy_shutdown s) eqn:Hsd; simplify_eq. case_bool_decide; simplify_eq. apply inv_phase; [done|].
    intros t x Ht. cbn in Ht. set_solver.
Qed.

(** The invariant holds in every reachable state. *)
Lemma started_inv st : (∀ id, vector_ok dimensions answers any_lease st id) → inv ∅ (started st).
Proof.
  intros Hst. split; cbn; try done.
  - intros id [r Hr]. by apply elem_of_dom_2 in Hr.
  - intros k. split; [set_solver|]. intros (t & x & Hx & _). done.
  - intros c. split; [set_solver|]. intros (t & x & Hx & _). done.
Qed.
Lemma reachable_inv st s :
  (∀ id, vector_ok dimensions answers any_lease st id) → reachable dimensions exp2 served answers st s → ∃ ann, inv ann s.
Proof.
  intros Hst Hr. assert (∃ ann, inv ann (started st)) as Hi by (exists ∅; by apply started_inv).
  clear Hst. revert Hi. induction Hr as [s|s1 s2 s3 Hs _ IH]; [done|]. intros [ann Hi]. apply IH. by eapply inv_step.
Qed.
End logic.
