(* ===== verification/StoreFacts.v ===== *)
(** * StoreFacts: what a transaction tells its caller

    The requests that embed learn the content of a memory from the transaction
    they make: a store tells the content at revision 0, an update the content
    at the revision it returns, [get_for_reembed_impl] what it read. [tells]
    states this, and follows the statements of the transactions. *)
From Stdlib Require Import ZArith Lia.
From stdpp Require Import base list option strings gmap sets relations.
From S2P Require Import Prelude Text Floats Lists Errors Types Context StoreTypes Store Membership Crud ContextAdmin Admin Revisions Operations Programs Orchestrator ProgramLogic.

(** Memories stay, and their revisions keep order. *)
Definition rows_kept (s s' : Store) : Prop := ∀ id a,
  st_memories s !! id = Some a → ∃ b, st_memories s' !! id = Some b ∧ row_le a b.
#[export] Instance rows_kept_preorder : PreOrder rows_kept.
Proof.
  split; [intros s id a Ha; by exists a|]. intros s s' s'' K1 K2 id a Ha.
  destruct (K1 _ _ Ha) as (b & Hb & ?), (K2 _ _ Hb) as (c & Hc & ?). exists c. split; [done|]. by etrans.
Qed.
Lemma only_rows_kept id s s' : Revisions.only id s s' → rows_kept s s'.
Proof.
  intros [Ho Hi] j a Ha. destruct (decide (j = id)) as [->|Hj].
  - rewrite Ha in Hi. destruct (st_memories s' !! id) as [b|]; [by exists b|done].
  - destruct (Ho j Hj) as (E&_). exists a. by rewrite <- E.
Qed.
Lemma grows_rows_kept s s' : grows s s' → rows_kept s s'.
Proof. intros Hg id a Ha. destruct (Hg _ _ Ha) as (b & Hb & Hs). exists b. split; [done|]. apply Hs. set_solver. Qed.
Lemma steps_only_rows_kept id {A} (m : tx A) : steps (Revisions.only id) m → steps rows_kept m.
Proof. apply steps_weaken, only_rows_kept. Qed.
Lemma steps_quiet_rows_kept {A} (m : tx A) : steps quiet m → steps rows_kept m.
Proof. apply steps_weaken. intros s s' ?%quiet_grows. by apply grows_rows_kept. Qed.
#[export] Hint Resolve steps_quiet_rows_kept | 10 : steps.
#[export] Hint Resolve steps_only_rows_kept | 12 : steps.

Lemma learned_kept s s' fs : rows_kept s s' → learned s fs → learned s' fs.
Proof.
  intros Hk Hl f Hf. destruct (Hl f Hf) as [Hh [r Hr]]. destruct (Hk _ _ Hr) as (b & Hb & _ & Hle & Hc).
  destruct (Hh r Hr) as [Hle' Hc']. split; [|by eauto]. intros b' Hb'. simplify_eq. split; [lia|].
  intros Heq. rewrite <- Hc by lia. apply Hc'. lia.
Qed.

Section tells.
Context {A : Type}.
Implicit Types (T : A → list Fact).

(** A successful run keeps the rows, and its answer [a] teaches [T a]. *)
Definition tells T (m : tx A) : Prop := ∀ s a s', m s = Ok (a, s') → rows_kept s s' ∧ learned s' (T a).
(** What follows an answer hands it on. *)
Definition returns (a : A) (m : tx A) : Prop := ∀ s b s', m s = Ok (b, s') → b = a.
Lemma returns_ret a : returns a (mret a).
Proof. intros s b s' Hr. by inv_tx. Qed.
Lemma returns_throw a e : returns a (throw e).
Proof. intros s b s' Hr. inv_tx. Qed.
Lemma tells_then T (m : tx A) (k : A → tx A) : tells T m → (∀ a, steps rows_kept (k a)) → (∀ a, returns a (k a)) → tells T (m ≫= k).
Proof.
  intros Hm Hk Hr s b s' Hrun. apply tx_bind_Ok in Hrun as (a & s1 & H1 & H2). apply Hr in H2 as Hb. subst b.
  destruct (Hm _ _ _ H1) as [Hk1 Hl]. specialize (Hk a _ _ _ H2). split; [by etrans|]. by eapply learned_kept.
Qed.
Lemma tells_nothing T m : steps rows_kept m → (∀ a, T a = []) → tells T m.
Proof. intros Hm HT s a s' Hr. split; [by eapply Hm|]. rewrite HT. intros f Hf. by apply elem_of_nil in Hf. Qed.
Lemma tells_mono T T' m : (∀ s a s', m s = Ok (a, s') → T a = T' a) → tells T m → tells T' m.
Proof. intros HT Hm s a s' Hr. rewrite <- (HT _ _ _ Hr). by apply (Hm s). Qed.
End tells.
Lemma returns_bind {A B} (a : A) (m : tx B) (k : B → tx A) : (∀ b, returns a (k b)) → returns a (m ≫= k).
Proof. intros Hk s b s' Hr. apply tx_bind_Ok in Hr as (x & s1 & _ & Hr). by eapply Hk. Qed.
Lemma returns_let {A B} (a : A) (b : B) (k : B → tx A) : returns a (k b) → returns a (mret b ≫= k).
Proof. done. Qed.
Lemma tells_after {A B} (T : A → list Fact) (m : tx B) (k : B → tx A) :
  steps rows_kept m → (∀ b, tells T (k b)) → tells T (m ≫= k).
Proof.
  intros Hm Hk s a s' Hr. apply tx_bind_Ok in Hr as (b & s1 & H1 & H2). destruct (Hk b _ _ _ H2).
  split; [|done]. etrans; [by eapply Hm|done].
Qed.
Lemma tells_check {A} (T : A → list Fact) c e (k : () → tx A) :
  (c = false → tells T (k ())) → tells T (throw_if c e ≫= k).
Proof. intros Hk s a s' Hr. apply tx_bind_Ok in Hr as ([] & s1 & [Hc [= ->]]%throw_if_Ok & Hr). by eapply Hk. Qed.
Lemma tells_map {A B} (T : A → B → list Fact) (f : A → tx B) l :
  (∀ x, x ∈ l → tells (T x) (f x)) → tells (λ bs, concat (zip_with T l bs)) (tx_map f l).
Proof.
  induction l as [|x l IH]; intros Hf.
  - apply tells_nothing; [cbn; steps_tac|done].
  - cbn [tx_map]. intros s bs s' Hr. apply tx_bind_Ok in Hr as (b & s1 & H1 & Hr).
    apply tx_bind_Ok in Hr as (bs' & s2 & H2 & Hr). inv_tx. cbn.
    destruct (Hf x ltac:(by left) _ _ _ H1) as [K1 L1].
    destruct (IH ltac:(intros y Hy; apply Hf; by right) _ _ _ H2) as [K2 L2]. split; [by etrans|].
    intros g [Hg|Hg]%elem_of_app; [|by apply L2]. by apply (learned_kept _ _ _ K2 L1).
Qed.

Section store_facts.
Context `{Render, UnicodeCase, Chrono} (dimensions : Z).
#[local] Hint Resolve only_upsert_metadata only_upsert_merged only_replace_governed only_replace_if_unmodified
  quiet_audit_update quiet_insert_context quiet_context_audit_row : steps.
#[local] Hint Unfold insert_initial_memory_contexts_sqlite : steps.

Lemma rows_kept_mark old new : steps rows_kept (mark_superseded old new).
Proof. intros s b s' Hr. by eapply grows_rows_kept, grows_mark_superseded. Qed.
#[local] Hint Resolve rows_kept_mark : steps.
Lemma rows_kept_superseded sid : steps rows_kept (validate_superseded_exists sid).
Proof. unfold validate_superseded_exists. steps_tac. Qed.
#[local] Hint Resolve rows_kept_superseded : steps.

(** *** Stores *)

Definition new_fact (content : string) (id : MemoryId) : list Fact := [(id, 0, content)].
Definition same_rows (s s' : Store) : Prop := st_memories s = st_memories s'.
#[local] Instance same_rows_preorder : PreOrder same_rows.
Proof. split; [done | intros s s' s'' E1 E2; by etrans]. Qed.
Lemma same_rows_entities id l : steps same_rows (insert_entities id l).
Proof.
  unfold insert_entities. steps_tac; [|done]. intros s u s' Hr. unfold require_row in Hr.
  destruct (st_memories s !! id); inv_tx. reflexivity.
Qed.
Lemma insert_lookup p s id s' : insert dimensions p s = Ok (id, s') → st_memories s' !! id = Some (pm_row p).
Proof.
  unfold insert. intros Hr. inv_tx. unfold insert_row in *. destruct (st_memories s !! pm_id p); [done|]. inv_tx.
  match goal with He : insert_entities _ _ _ = _, Hv : when_some _ _ _ = _ |- _ =>
    apply same_rows_entities in He; unfold same_rows in He; rewrite <- He; clear He; revert Hv end.
  destruct (pm_embedding p); cbn; intros Hv; [unfold upsert_vector, require_row in Hv|]; inv_tx; cbn in *;
    rewrite ?lookup_insert_eq in *; inv_tx; apply lookup_insert_eq || done.
Qed.
Lemma tells_insert m e : tells (new_fact (m_content m)) (insert dimensions (from_memory m e)).
Proof.
  intros s id s' Hr. pose proof (insert_lookup _ _ _ _ Hr) as Hl. apply insert_inv in Hr as [Hid Hg].
  split; [by eapply grows_rows_kept, inserts_grows|]. clear Hid Hg.
  intros f ->%list_elem_of_singleton. cbn [fst]. split; [|by eauto]. intros r Hr. cbn [fst snd] in *.
  rewrite Hl in Hr. injection Hr as <-. cbn. done.
Qed.
Ltac returns_tac := repeat first [apply returns_let | apply returns_ret | apply returns_throw
  | match goal with
    | |- ∀ _, _ => intro
    | |- returns _ (_ ≫= _) => apply returns_bind
    | |- returns _ (match ?x with _ => _ end) => destruct x
    end].
Ltac then_tac := apply tells_then; [|intros; steps_tac | intros; returns_tac].

Lemma tells_insert_prepared m e sup a :
  tells (new_fact (m_content m)) (insert_prepared_with_optional_supersession_and_audit dimensions (from_memory m e) sup a).
Proof.
  unfold insert_prepared_with_optional_supersession_and_audit. apply tells_after; [steps_tac|intros _].
  then_tac. apply tells_insert.
Qed.
Lemma tells_store m a : tells (new_fact (m_content m)) (store_audited_impl dimensions m None a).
Proof. unfold store_audited_impl. then_tac. apply tells_insert. Qed.
Lemma tells_store_superseding m sup a :
  tells (new_fact (m_content m)) (store_with_supersession_audited_impl dimensions m None sup a).
Proof.
  unfold store_with_supersession_audited_impl. apply tells_after; [steps_tac|intros _]. then_tac. apply tells_insert.
Qed.
Lemma tells_store_metadata m sup md a :
  tells (new_fact (m_content m)) (store_with_metadata_audited_impl dimensions m None sup md a).
Proof.
  unfold store_with_metadata_audited_impl. apply tells_after; [steps_tac|intros _]. then_tac. apply tells_insert_prepared.
Qed.
Lemma tells_store_governed m sup md cs a ca now :
  tells (new_fact (m_content m)) (store_with_metadata_contexts_audited_impl dimensions m None sup md cs a ca now).
Proof.
  unfold store_with_metadata_contexts_audited_impl, insert_initial_memory_contexts_sqlite.
  apply tells_after; [steps_tac|intros p]. then_tac. apply tells_insert_prepared.
Qed.

(** *** Batches *)

(** The ids of a batch, with the contents in order. *)
Definition new_facts (contents : list string) (ids : list MemoryId) : list Fact := concat (zip_with new_fact contents ids).
Lemma new_facts_work contents ids w : w ∈ zip_with initial_work ids contents →
  (ew_id w, ew_expected_revision w, ew_content w) ∈ new_facts contents ids.
Proof.
  unfold new_facts. revert ids. induction contents as [|c cs IH]; intros [|id ids]; cbn; try by intros ?%elem_of_nil.
  intros [->|Hw]%elem_of_cons; [by left|right; by apply IH].
Qed.
(** A transaction per item teaches what the items teach. *)
Lemma tells_batch {A} (f : A → tx MemoryId) (l : list A) (content : A → string) cs :
  map content l = cs → (∀ x, x ∈ l → tells (new_fact (content x)) (f x)) → tells (new_facts cs) (tx_map f l).
Proof.
  intros <- Hf. eapply tells_mono; [|by eapply (tells_map (λ x, new_fact (content x)))].
  intros s ids s' _. cbn beta. unfold new_facts. clear. revert ids.
  induction l as [|x l IH]; intros [|id ids]; cbn; [done..|]. f_equal. apply IH.
Qed.
#[local] Abbreviation contents_of := (map (λ m, m_content (we_memory m))).
Definition plain_content (p : nat * PreparedMemoryRow) : string := r_content (pm_row (snd p)).
Lemma imap_contents ms : map plain_content (imap pair (map prepare ms)) = contents_of ms.
Proof.
  apply list_eq. intros i. rewrite !list_lookup_fmap, list_lookup_imap, list_lookup_fmap. by destruct (ms !! i).
Qed.
Lemma elem_of_imap_prepared ms p : p ∈ imap pair (map prepare ms) →
  ∃ m, m ∈ ms ∧ snd p = from_memory (we_memory m) (we_embedding m) ∧ plain_content p = m_content (we_memory m).
Proof.
  intros (i & pr & -> & Hp)%elem_of_lookup_imap_1. rewrite list_lookup_fmap in Hp. destruct (ms !! i) as [m|] eqn:Hm; [|done].
  cbn in Hp. simplify_eq. exists m. split_and!; [by eapply list_elem_of_lookup_2|done..].
Qed.
Ltac item_tac := intros p (m & Hm & Hp & Hc)%elem_of_imap_prepared; rewrite Hc, Hp.

Lemma tells_store_batch ms audits : tells (new_facts (contents_of ms)) (store_batch_audited_impl dimensions ms audits).
Proof.
  unfold store_batch_audited_impl, check_len. apply tells_after; [steps_tac|intros _].
  apply (tells_batch _ _ plain_content); [apply imap_contents|]. item_tac. then_tac. apply tells_insert.
Qed.
Lemma tells_store_batch_superseding ms sup audits :
  tells (new_facts (contents_of ms)) (store_batch_with_supersession_audited_impl dimensions ms sup audits).
Proof.
  unfold store_batch_with_supersession_audited_impl, batch_store_with_supersession_and_audit, check_len.
  do 3 (apply tells_after; [steps_tac|intros _]).
  apply (tells_batch _ _ plain_content); [apply imap_contents|]. item_tac.
  apply tells_after; [steps_tac|intros _]. then_tac. apply tells_insert.
Qed.
Lemma tells_store_batch_metadata ms sup mds audits :
  tells (new_facts (contents_of ms)) (store_batch_with_metadata_audited_impl dimensions ms sup mds audits).
Proof.
  unfold store_batch_with_metadata_audited_impl, check_len.
  do 4 (apply tells_after; [steps_tac|intros _]).
  apply (tells_batch _ _ plain_content); [apply imap_contents|]. item_tac.
  then_tac. apply tells_insert_prepared.
Qed.
Lemma zip_governed_memories_all ms ss ds cs as_ xs :
  len ss = len ms → len ds = len ms → len cs = len ms → len as_ = len ms → len xs = len ms →
  map (λ p, p.1.1.1.1.1) (zip_governed ms ss ds cs as_ xs) = ms.
Proof.
  revert ss ds cs as_ xs. induction ms as [|m ms IH]; intros [|s ss] [|d ds] [|c cs] [|a as_] [|x xs]; unfold len; cbn; try done; try lia.
  intros. f_equal. apply IH; unfold len; lia.
Qed.
Lemma tells_store_batch_governed ms sup mds cs audits cas now :
  tells (new_facts (contents_of ms)) (store_batch_with_metadata_contexts_audited_impl dimensions ms sup mds cs audits cas now).
Proof.
  unfold store_batch_with_metadata_contexts_audited_impl. apply tells_check. intros Hlen%negb_false_iff.
  apply tells_after; [steps_tac|intros _].
  apply (tells_batch _ _ (λ p, m_content (we_memory p.1.1.1.1.1))).
  - rewrite <- (zip_governed_memories_all ms sup mds cs audits cas) at 2 by lia. by rewrite map_map.
  - intros [[[[[m sid] md] cx] a] ca] _. cbn. unfold insert_initial_memory_contexts_sqlite, prepare.
    apply tells_after; [steps_tac|intros p]. then_tac. apply tells_insert_prepared.
Qed.

(** *** Updates *)

Definition revised_fact (id : MemoryId) (content : option string) (o : AuthorizedUpdateOutcome) : list Fact :=
  match content, ao_reembed_revision o with Some c, Some rev => [(id, rev, c)] | _, _ => [] end.
Lemma tells_authorize {A} (T : A → list Fact) id p refused (k : Memory → tx A) :
  (∀ o, T (refused o) = []) → (∀ m, tells T (k m)) → tells T (authorize id p refused k).
Proof.
  intros HT Hk s a s' Hr. apply authorize_inv in Hr as [(_ & -> & ->)|(r & _ & [(_ & -> & ->)|(_ & Hr)])]; [..|by eapply Hk];
    rewrite HT; (split; [done|]); intros f Hf; by apply elem_of_nil in Hf.
Qed.
Lemma tells_update_inner id u now : tells (revised_fact id (mu_content u)) (apply_update_inner id u now).
Proof.
  intros s o s' Hr. destruct (st_memories s !! id) as [r|] eqn:Hid.
  - rewrite (apply_update_inner_Some _ _ _ _ _ Hid) in Hr. injection Hr as <- <-.
    split; [by eapply only_rows_kept, updated_only|]. unfold revised_fact. cbn.
    destruct (mu_content u) as [c|] eqn:Hc; cbn; [|intros f Hf; by apply elem_of_nil in Hf].
    intros f ->%list_elem_of_singleton. cbn [fst]. unfold updated_store. cbn [st_memories on_entities on_vectors on_memories].
    rewrite lookup_insert_eq. split; [|by eauto]. intros r' Hr'. cbn in Hr'. rewrite lookup_insert_eq in Hr'. injection Hr' as <-.
    unfold revised_row. rewrite Hc. cbn. split; [lia|done].
  - rewrite (apply_update_inner_None _ _ _ _ Hid) in Hr. injection Hr as <- <-. split; [done|].
    unfold revised_fact. cbn. destruct (mu_content u); intros f Hf; by apply elem_of_nil in Hf.
Qed.
Lemma revised_fact_refused id c o : revised_fact id c (refused_update o) = [].
Proof. by destruct c. Qed.
#[local] Hint Resolve only_increment : steps.
Lemma tells_update_authorized id u p now a :
  tells (revised_fact id (mu_content u)) (update_authorized_audited_impl id u p now a).
Proof.
  unfold update_authorized_audited_impl. apply tells_authorize; [apply revised_fact_refused|intros m].
  apply tells_after; [steps_tac|intros _]. then_tac. apply tells_update_inner.
Qed.
Lemma tells_update_with_metadata id u patch p now a :
  tells (revised_fact id (mu_content u)) (apply_authorized_update_with_metadata id u patch p now a).
Proof.
  unfold apply_authorized_update_with_metadata. apply tells_authorize; [apply revised_fact_refused|intros m].
  apply tells_after; [steps_tac|intros _]. then_tac. apply tells_update_inner.
Qed.
Lemma tells_update_governed id u patch cs p now a ca :
  tells (revised_fact id (mu_content u)) (apply_authorized_update_with_metadata_contexts id u patch cs p now a ca).
Proof.
  unfold apply_authorized_update_with_metadata_contexts. apply tells_after; [steps_tac|intros _].
  apply tells_authorize; [apply revised_fact_refused|intros m].
  apply tells_after; [steps_tac|intros _]. then_tac. apply tells_update_inner.
Qed.
Lemma tells_update_if_unmodified id rev u patch cs profile p now a ca :
  tells (revised_fact id (mu_content u))
    (apply_authorized_update_if_unmodified_with_metadata dimensions id rev u patch cs None profile p now a ca).
Proof.
  unfold apply_authorized_update_if_unmodified_with_metadata. do 3 (apply tells_after; [steps_tac|intros _]).
  apply tells_authorize; [apply revised_fact_refused|intros m].
  do 2 (apply tells_after; [steps_tac|intros _]). then_tac. apply tells_update_inner.
Qed.

(** *** Reading for a re-embed *)

Definition found_fact (id : MemoryId) (o : option (string * Z)) : list Fact :=
  match o with Some (content, revision) => [(id, revision, content)] | None => [] end.
Lemma get_for_reembed_reads id p s o s' : get_for_reembed_impl id p s = Ok (o, s') → s' = s.
Proof.
  unfold get_for_reembed_impl. intros [(_ & _ & ->)|(r & Hr & [(_ & _ & ->)|(_ & Hk)])]%authorize_inv; [done..|].
  unfold select_embedding_revision in Hk. inv_tx. rewrite Hr in *. by inv_tx.
Qed.
Lemma tells_get_for_reembed id p : tells (found_fact id) (get_for_reembed_impl id p).
Proof.
  intros s o s' Hg. split; [by rewrite (get_for_reembed_reads _ _ _ _ _ Hg)|]. unfold get_for_reembed_impl in Hg.
  apply authorize_inv in Hg as [(_ & -> & ->)|(r & Hr & [(_ & -> & ->)|(_ & Hk)])];
    [intros f Hf; by apply elem_of_nil in Hf..|].
  unfold select_embedding_revision in Hk. inv_tx. rewrite Hr in *. inv_tx.
  intros f ->%list_elem_of_singleton. cbn. split; [|by eauto]. intros r' Hr'. cbn in Hr'. by simplify_eq.
Qed.
End store_facts.
