(* ===== verification/EmbeddingSafety.v ===== *)
(** * EmbeddingSafety: the requests that embed are safe

    Every program of Orchestrator.v, and with them every request of
    EngineWrites.v, is safe in the sense of ProgramLogic.v: it writes only the
    provider's answers to contents it has learned, drops only guards it owns,
    and gives back every lease it takes, on every branch. *)
From Stdlib Require Import ZArith Lia.
From stdpp Require Import base list option strings gmap sets relations pretty.
From S2P Require Import Prelude Text Floats Lists Errors Types Context StoreTypes Validation Store Membership Crud ContextAdmin Admin Revisions Operations Vectors Integrity Concurrency Governance Query Config Engine Programs Orchestrator EngineWrites ProgramLogic StoreFacts.

(** ** Rules *)

Section rules.
Context `{Render, UnicodeCase, Chrono} (dimensions : Z) (exp2 : f64 → f64) (answers : string → list f64 → Prop).
#[local] Abbreviation safe := (safe dimensions exp2 answers).
#[local] Abbreviation is_operation := (is_operation dimensions exp2 answers).

(** A program that ends in the state [g1], with an answer that satisfies [P]. *)
Definition leads {A : Type} (g1 : Owned) (P : A → Prop) (a : A) (g : Owned) : Prop := g = g1 ∧ P a.
Lemma safe_seq {A B : Type} (p : prog A) (f : A → prog B) g g1 P post :
  safe p g (leads g1 P) → (∀ a, P a → safe (f a) g1 post) → safe (p ≫= f) g post.
Proof. intros Hp Hf. apply safe_bind. eapply safe_mono; [exact Hp|]. intros a g' [-> Ha]. by apply Hf. Qed.
Lemma safe_ret {A : Type} (a : A) g g1 (P : A → Prop) : g = g1 → P a → safe (mret a) g (leads g1 P).
Proof. done. Qed.
Lemma leads_mono {A : Type} (p : prog A) g g1 g2 (P Q : A → Prop) :
  safe p g (leads g1 P) → g1 = g2 → (∀ a, P a → Q a) → safe p g (leads g2 Q).
Proof. intros Hp <- HP. eapply safe_mono; [exact Hp|]. intros a g' [-> Ha]. split; auto. Qed.
Lemma owned_eq k k' a a' l l' fs t : k = k' → a = a' → l = l' → mkOwned k a l fs t = mkOwned k' a' l' fs t.
Proof. by intros -> -> ->. Qed.
Lemma set_leases_same g : set_leases (ow_leases g) g = g.
Proof. by destruct g. Qed.
Lemma add_no_facts g : add_facts [] g = g.
Proof. by destruct g. Qed.

Lemma safe_embed text g : safe (embed text) g (leads g (λ r, ∀ v, r = Ok v → answers text v)).
Proof. intros r Hr. by split. Qed.
Lemma safe_embed_batch texts g :
  safe (embed_batch texts) g (leads g (λ r, ∀ vs, r = Ok vs → length vs = length texts → Forall2 answers texts vs)).
Proof. intros r Hr. by split. Qed.

(** *** Transactions *)

Lemma operation_of {B : Type} fs (m : DateTime → tx B) (o : DateTime → operation) :
  (∀ now, op_tx dimensions exp2 (o now) = forget (m now)) →
  (∀ now s allowed, facts_hold s fs → writes_right answers allowed s (o now)) → is_operation fs m.
Proof. intros Ho Hw. exists o. split; [|done]. intros now s. unfold run. by rewrite Ho, with_conn_forget. Qed.
Lemma operation_reads {B : Type} fs (m : DateTime → tx B) :
  (∀ now s b s', m now s = Ok (b, s') → s' = s) → is_operation fs m.
Proof.
  intros Hm. exists (λ now, OpImpression [] now). split; [|done]. intros now s. unfold with_conn.
  destruct (m now s) as [[b s']|e] eqn:E; cbn; [|done]. by rewrite (Hm _ _ _ _ E).
Qed.
Lemma safe_transact {B : Type} (m : DateTime → tx B) (T : B → list Fact) g post :
  is_operation (ow_facts g) m → (∀ now, tells T (m now)) →
  (∀ e, post (Err e) g) → (∀ b, post (Ok b) (add_facts (T b) g)) → safe (transact m) g post.
Proof.
  intros Ho HT He Hb. split; [done|]. intros now s r s' Ht Hf Hr.
  destruct r as [b|e].
  - apply with_conn_Ok in Hr. destruct (HT now _ _ _ Hr) as [_ Hl]. exists (ow_leases g), (T b).
    rewrite set_leases_same. split_and!; [done|by left|done|apply Hb].
  - exists (ow_leases g), []. rewrite set_leases_same, add_no_facts. split_and!; [done|by left| |apply He].
    intros f Hf'. by apply elem_of_nil in Hf'.
Qed.
Lemma safe_store_call {B : Type} (m : DateTime → tx B) (T : B → list Fact) g post :
  is_operation (ow_facts g) m → (∀ now, tells T (m now)) →
  (∀ e, post (Err e) g) → (∀ b, post (Ok b) (add_facts (T b) g)) → safe (store_call m) g post.
Proof.
  intros Ho HT He Hb. unfold store_call. apply safe_bind. eapply safe_transact; [done..| |].
  - intros e. apply He.
  - intros b. apply Hb.
Qed.
Lemma safe_try {A B : Type} (p : fallible A) (f : A → fallible B) g post :
  safe p g (λ r g', match r with Ok a => safe (f a) g' post | Err e => post (Err e) g' end) → safe (try_then p f) g post.
Proof. intros Hp. unfold try_then. apply safe_bind. eapply safe_mono; [exact Hp|]. by intros [a|e] g'. Qed.

(** ** The work of one embedding *)

Definition work_key (w : EmbedWork) : EmbedKey := (ew_id w, ew_expected_revision w).
Definition work_fact (w : EmbedWork) : Fact := (ew_id w, ew_expected_revision w, ew_content w).
Definition work_claim (w : EmbedWork) : option ActiveEmbedClaim :=
  mkActiveEmbedClaim (ew_id w) (ew_expected_revision w) <$> ew_claim_token w.
Definition work_claims (ws : list EmbedWork) : gset ActiveEmbedClaim := list_to_set (omap work_claim ws).
#[local] Arguments work_claims : simpl never.
Lemma work_claims_cons w ws : work_claims (w :: ws) = work_claims [w] ∪ work_claims ws.
Proof. unfold work_claims. cbn. destruct (work_claim w); set_solver. Qed.
Lemma elem_of_work_claims c ws : c ∈ work_claims ws ↔ ∃ w, w ∈ ws ∧ work_claim w = Some c.
Proof. unfold work_claims. rewrite elem_of_list_to_set, list_elem_of_omap. done. Qed.
Lemma work_claim_key w c : work_claim w = Some c → (ac_id c, ac_embedding_revision c) = work_key w.
Proof. unfold work_claim. destruct (ew_claim_token w); [|done]. by intros [= <-]. Qed.

(** After the work its lease is gone. *)
Definition settled (ws : list EmbedWork) (g : Owned) : Owned := set_leases (ow_leases g ∖ work_claims ws) g.
Lemma settled_nothing ws g : work_claims ws = ∅ → settled ws g = g.
Proof. intros E. unfold settled. rewrite E, difference_empty_L. apply set_leases_same. Qed.
Lemma settled_cons w ws g : settled ws (settled [w] g) = settled (w :: ws) g.
Proof. unfold settled, set_leases. cbn. apply owned_eq; [done..|].
  pose proof (work_claims_cons w ws). set_solver. Qed.

Lemma safe_release w g : safe (release_work_claim w) g (leads (settled [w] g) (λ _, True)).
Proof.
  unfold release_work_claim. destruct (ew_claim_token w) as [token|] eqn:Ht.
  2: { apply safe_ret; [|done]. symmetry. apply settled_nothing. unfold work_claims, work_claim. cbn. by rewrite Ht. }
  apply safe_bind. split.
  - by apply (operation_of _ _ (λ now, OpRelease (ew_id w) (ew_expected_revision w) token)).
  - intros now s r s' Hs _ Hr. exists (ow_leases g ∖ work_claims [w]), []. split_and!; [set_solver| | |].
    + intros c Hc. destruct (decide (c ∈ work_claims [w])) as [Hin|?]; [right|left; set_solver].
      unfold work_claims, work_claim in Hin. cbn in Hin. rewrite Ht in Hin. cbn in Hin.
      assert (c = mkActiveEmbedClaim (ew_id w) (ew_expected_revision w) token) as -> by set_solver.
      by eapply release_unleased; [|exact Hr].
    + intros f Hf. by apply elem_of_nil in Hf.
    + rewrite add_no_facts. apply safe_ret; done.
Qed.
Lemma set_embedding_unleased id v rev profile s x s' c :
  set_embedding_impl dimensions id v rev profile s = Ok (x, s') → ac_id c = id → ¬ leased s' c.
Proof.
  intros (r & Hr & _ & _ & ->)%set_embedding_inv Hid (r' & Hr' & _ & Htok). rewrite Hid in Hr'. cbn in Hr'.
  rewrite lookup_alter_eq, Hr in Hr'. cbn in Hr'. by simplify_eq.
Qed.
Lemma set_embedding_operation fs id v rev profile content :
  (id, rev, content) ∈ fs → answers content v →
  is_operation fs (λ _, set_embedding_impl dimensions id v rev profile).
Proof.
  intros Hf Hv. exists (λ _, OpSetEmbedding id v rev profile). split; [done|].
  intros now s allowed Hs r Hr Hrev. destruct (Hs _ Hf r Hr) as [_ Hc]. cbn in Hc. by rewrite (Hc Hrev).
Qed.
Context (active_profile : option EmbeddingProfile).
#[local] Abbreviation apply_embedding_result := (apply_embedding_result dimensions active_profile).
Lemma safe_apply w r g :
  work_fact w ∈ ow_facts g → (∀ v, r = Ok v → answers (ew_content w) v) →
  safe (apply_embedding_result w r) g (leads (settled [w] g) (λ _, True)).
Proof.
  intros Hf Hr. destruct r as [v|e]; [|apply safe_release]. apply safe_bind. split.
  - by apply (set_embedding_operation _ _ _ _ _ (ew_content w)); [|apply Hr].
  - intros now s r s' Hs _ Hrun. destruct r as [[]|e].
    + apply with_conn_Ok in Hrun. exists (ow_leases g ∖ work_claims [w]), []. split_and!; [set_solver| | |].
      * intros c Hc. destruct (decide (c ∈ work_claims [w])) as [Hin|?]; [right|left; set_solver].
        apply elem_of_work_claims in Hin as (w' & ->%list_elem_of_singleton & Hw).
        apply work_claim_key in Hw as [= Hid _]. by eapply set_embedding_unleased.
      * intros f Hf'. by apply elem_of_nil in Hf'.
      * rewrite add_no_facts. by apply safe_ret.
    + exists (ow_leases g), []. rewrite set_leases_same, add_no_facts. split_and!; [done|by left| |].
      * intros f Hf'. by apply elem_of_nil in Hf'.
      * destruct e; apply safe_release.
Qed.
Lemma safe_run_embed id content rev g : (id, rev, content) ∈ ow_facts g →
  safe (run_embed_task dimensions active_profile id content rev None) g (leads g (λ _, True)).
Proof.
  intros Hf. unfold run_embed_task. eapply safe_seq; [apply safe_embed|]. intros r Hr.
  eapply leads_mono; [by apply safe_apply| |done]. by apply settled_nothing.
Qed.

(** *** The batch executor *)

(** A result per content, each an answer to it. *)
Definition answered_each (contents : list string) (rs : list (result EmbeddingError.t (list f64))) : Prop :=
  Forall2 (λ c r, ∀ v, r = Ok v → answers c v) contents rs.
Lemma safe_individually contents g : safe (execute_individually contents) g (leads g (answered_each contents)).
Proof.
  induction contents as [|c cs IH]; cbn [execute_individually]; [apply safe_ret; [done|constructor]|].
  eapply safe_seq; [apply safe_embed|]. intros r Hr. eapply safe_seq; [exact IH|]. intros rs Hrs.
  apply safe_ret; [done|]. by constructor.
Qed.
Definition chunk_answered (contents : list string) (b : BatchEmbeddingResult) : Prop :=
  match b with PerItem rs => answered_each contents rs | BatchFailed _ => True end.
Lemma safe_chunk contents g : safe (execute_chunk contents) g (leads g (chunk_answered contents)).
Proof.
  unfold execute_chunk. eapply safe_seq; [apply safe_embed_batch|]. intros r Hr.
  assert (safe (results ← execute_individually contents; mret (PerItem results)) g (leads g (chunk_answered contents))) as Hone.
  { eapply safe_seq; [apply safe_individually|]. intros rs Hrs. by apply safe_ret. }
  destruct r as [vs|[]]; try done.
  destruct (len vs =? len contents) eqn:Hl; [|done]. apply safe_ret; [done|]. cbn. unfold answered_each, len in *.
  apply Forall2_fmap_r. eapply Forall2_impl; [apply Hr; [done|lia]|]. by intros c v Hv v' [= <-].
Qed.

(** ** Tracked work *)

Definition keys (ts : list TrackedEmbedWork) : gset EmbedKey := list_to_set (map tw_inflight ts).
Definition active_claims (ts : list TrackedEmbedWork) : gset ActiveEmbedClaim := list_to_set (omap tw_active_claim ts).
Definition tracked_ok (t : TrackedEmbedWork) : Prop :=
  tw_inflight t = work_key (tw_work t) ∧ tw_active_claim t = work_claim (tw_work t).
(** The program owns the guards of the work and knows its content. *)
Definition held (ts : list TrackedEmbedWork) (g : Owned) : Prop :=
  NoDup (map tw_inflight ts) ∧ keys ts ⊆ ow_inflight g ∧ active_claims ts ⊆ ow_active g
  ∧ ∀ t, t ∈ ts → tracked_ok t ∧ work_fact (tw_work t) ∈ ow_facts g.
Lemma keys_cons t ts : keys (t :: ts) = {[tw_inflight t]} ∪ keys ts.
Proof. done. Qed.
Lemma active_claims_cons t ts : active_claims (t :: ts) = active_claims [t] ∪ active_claims ts.
Proof. unfold active_claims. cbn. destruct (tw_active_claim t); set_solver. Qed.
Lemma elem_of_active_claims c ts : c ∈ active_claims ts ↔ ∃ t, t ∈ ts ∧ tw_active_claim t = Some c.
Proof. unfold active_claims. rewrite elem_of_list_to_set, list_elem_of_omap. done. Qed.
Lemma elem_of_keys k ts : k ∈ keys ts ↔ ∃ t, t ∈ ts ∧ k = tw_inflight t.
Proof. unfold keys. rewrite elem_of_list_to_set, list_elem_of_fmap. naive_solver. Qed.
#[local] Arguments keys : simpl never.
#[local] Arguments active_claims : simpl never.
Lemma active_work_claims ts : (∀ t, t ∈ ts → tracked_ok t) → active_claims ts = work_claims (map tw_work ts).
Proof.
  intros Hts. apply set_eq. intros c. rewrite elem_of_active_claims, elem_of_work_claims. split.
  - intros (t & Ht & Hc). exists (tw_work t). split; [by apply list_elem_of_fmap_2|]. by rewrite <- (proj2 (Hts t Ht)).
  - intros (w & (t & -> & Ht)%list_elem_of_fmap & Hc). exists t. split; [done|]. by rewrite (proj2 (Hts t Ht)).
Qed.
Lemma held_cons t ts g : held (t :: ts) g →
  held [t] g ∧ held ts g ∧ tw_inflight t ∉ keys ts ∧ active_claims [t] ## active_claims ts.
Proof.
  intros (Hnd & Hk & Hc & Hts). cbn in Hnd. apply NoDup_cons in Hnd as [Hni Hnd].
  rewrite keys_cons in Hk. rewrite active_claims_cons in Hc.
  assert (tw_inflight t ∉ keys ts) as Hnk by (unfold keys; by rewrite elem_of_list_to_set).
  split_and!; [| |done|].
  - split_and!; [apply NoDup_singleton|rewrite keys_cons; unfold keys at 1; cbn; set_solver|set_solver|].
    intros t' ->%list_elem_of_singleton. apply Hts. left.
  - split_and!; [done|set_solver|set_solver|]. intros t' Ht'. apply Hts. by right.
  - intros c (t1 & ->%list_elem_of_singleton & Hc1)%elem_of_active_claims (t2 & Ht2 & Hc2)%elem_of_active_claims.
    apply Hnk, elem_of_keys. exists t2. split; [done|].
    destruct (Hts t ltac:(by left)) as [[-> E1] _], (Hts t2 ltac:(by right)) as [[-> E2] _].
    rewrite E1 in Hc1. rewrite E2 in Hc2. apply work_claim_key in Hc1 as <-. by apply work_claim_key in Hc2 as <-.
Qed.
Lemma held_mono ts g g' : held ts g → keys ts ⊆ ow_inflight g' → active_claims ts ⊆ ow_active g' →
  ow_facts g' = ow_facts g → held ts g'.
Proof. intros (? & _ & _ & Hf) ? ? E. split_and!; [done..|]. by rewrite E. Qed.

(** The guards are dropped; the leases stay. *)
Definition dropped (ts : list TrackedEmbedWork) (g : Owned) : Owned :=
  mkOwned (ow_inflight g ∖ keys ts) (ow_active g ∖ active_claims ts) (ow_leases g) (ow_facts g) (ow_task g).
Definition done_with (ts : list TrackedEmbedWork) : Owned → Owned := kept (keys ts) (active_claims ts).
Lemma held_dropped t ts g : held (t :: ts) g → held ts (dropped [t] g).
Proof.
  intros (_ & Hh & Hnk & Hd)%held_cons. eapply held_mono; [exact Hh|..]; destruct Hh as (_ & Hk & Hc & _); cbn; [|set_solver|done].
  rewrite keys_cons. unfold keys at 2. cbn. set_solver.
Qed.
Lemma dropped_cons t ts g : dropped ts (dropped [t] g) = dropped (t :: ts) g.
Proof.
  unfold dropped. cbn. apply owned_eq; [|rewrite (active_claims_cons t ts); set_solver|done].
  rewrite !keys_cons. unfold keys at 1. cbn. set_solver.
Qed.
Lemma dropped_nil g : dropped [] g = g.
Proof. destruct g. unfold dropped, keys, active_claims. cbn. apply owned_eq; set_solver. Qed.
Lemma done_with_cons t ts g : done_with ts (done_with [t] g) = done_with (t :: ts) g.
Proof.
  unfold done_with, kept. cbn. rewrite (active_claims_cons t ts), !keys_cons. unfold keys at 1. cbn.
  apply owned_eq; set_solver.
Qed.
Lemma done_with_nil g : done_with [] g = g.
Proof. destruct g. unfold done_with, kept, keys, active_claims. cbn. apply owned_eq; set_solver. Qed.
Lemma settled_dropped t g : tracked_ok t → dropped [t] (settled [tw_work t] g) = done_with [t] g.
Proof.
  intros Ht. unfold dropped, settled, done_with, kept. cbn. rewrite (active_work_claims [t]); [done|].
  by intros t' ->%list_elem_of_singleton.
Qed.

Lemma safe_drop t g : held [t] g → (ow_task g = true → active_claims [t] ## ow_leases g) →
  safe (drop_tracked t) g (leads (dropped [t] g) (λ _, True)).
Proof.
  intros (_ & Hk & Hc & _) Ht. unfold drop_tracked. rewrite keys_cons in Hk.
  unfold active_claims in *. cbn in Hc, Ht. split; [set_solver|].
  destruct (tw_active_claim t) as [c|] eqn:Hact; cbn.
  - split; [set_solver|]. split; [intros E; specialize (Ht E); set_solver|]. split; [|done].
    unfold dropped, active_claims, keys, set_active, set_inflight. cbn. rewrite Hact. apply owned_eq; set_solver.
  - split; [|done]. unfold dropped, active_claims, keys, set_inflight. cbn. rewrite Hact. apply owned_eq; set_solver.
Qed.
Lemma safe_drop_all ts g : held ts g → (ow_task g = true → active_claims ts ## ow_leases g) →
  safe (for_each drop_tracked ts) g (leads (dropped ts g) (λ _, True)).
Proof.
  revert g. induction ts as [|t ts IH]; intros g Hh Ht; cbn [for_each].
  - apply safe_ret; [|done]. by rewrite dropped_nil.
  - rewrite active_claims_cons in Ht. pose proof (held_cons _ _ _ Hh) as (Hh1 & _).
    eapply safe_seq; [apply safe_drop; [done|]; intros E; specialize (Ht E); set_solver|]. intros _ _.
    eapply leads_mono; [apply IH; [by apply held_dropped|]| |done].
    + cbn. intros E. specialize (Ht E). set_solver.
    + apply dropped_cons.
Qed.
(** One item: its lease is gone, then its guards. *)
Lemma held_settled ws ts g : held ts g → held ts (settled ws g).
Proof. intros Hh. destruct Hh as (? & ? & ? & ?). by eapply held_mono. Qed.
Lemma held_done t ts g : held (t :: ts) g → held ts (done_with [t] g).
Proof. intros Hh. apply held_dropped in Hh. eapply held_mono; [exact Hh|..]; by destruct Hh as (? & ? & ? & ?). Qed.
Lemma safe_settled_drop t g : held [t] g →
  safe (drop_tracked t) (settled [tw_work t] g) (leads (done_with [t] g) (λ _, True)).
Proof.
  intros Hh. assert (tracked_ok t) as Hok by (apply Hh; left).
  eapply leads_mono; [apply safe_drop; [by apply held_settled|]|by apply settled_dropped|done].
  intros _. cbn. rewrite (active_work_claims [t]) by (by intros t' ->%list_elem_of_singleton). cbn. set_solver.
Qed.
Lemma safe_apply_results ts rs g : held ts g → answered_each (map (λ t, ew_content (tw_work t)) ts) rs →
  safe (apply_results dimensions active_profile ts rs) g (leads (done_with ts g) (λ _, True)).
Proof.
  revert rs g. induction ts as [|t ts IH]; intros rs g Hh Hrs; inversion Hrs as [|? r ? rs' Hr Hrs']; subst; cbn [apply_results].
  - apply safe_ret; [|done]. by rewrite done_with_nil.
  - pose proof (held_cons _ _ _ Hh) as (Hh1 & _).
    eapply safe_seq; [apply safe_apply; [apply Hh; left|done]|]. intros _ _.
    eapply safe_seq; [by apply safe_settled_drop|]. intros _ _.
    eapply leads_mono; [apply IH; [by eapply held_done|done]|apply done_with_cons|done].
Qed.
Lemma safe_batch_failed ts g : held ts g →
  safe (for_each (λ t, _ ← release_work_claim (tw_work t); drop_tracked t) ts) g (leads (done_with ts g) (λ _, True)).
Proof.
  revert g. induction ts as [|t ts IH]; intros g Hh; cbn [for_each].
  - apply safe_ret; [|done]. by rewrite done_with_nil.
  - pose proof (held_cons _ _ _ Hh) as (Hh1 & _).
    eapply safe_seq. { eapply safe_seq; [apply safe_release|]. intros _ _. by apply safe_settled_drop. } intros _ _.
    eapply leads_mono; [apply IH; by eapply held_done|apply done_with_cons|done].
Qed.
Lemma safe_run_batch ts g : held ts g →
  safe (run_batch dimensions active_profile ts) g (leads (done_with ts g) (λ _, True)).
Proof.
  intros Hh. unfold run_batch. destruct ts as [|t ts]; [apply safe_ret; [by rewrite done_with_nil|done]|].
  eapply safe_seq; [apply safe_chunk|]. intros [rs|e] Hr; [by apply safe_apply_results|by apply safe_batch_failed].
Qed.

(** ** Scheduling *)

(** The program may prepare this work: it knows the contents, and answers for
    the claims but has not tracked them. *)
Definition ready (ws : list EmbedWork) (g : Owned) : Prop :=
  (∀ w, w ∈ ws → work_fact w ∈ ow_facts g) ∧ NoDup (omap work_claim ws)
  ∧ work_claims ws ⊆ ow_leases g ∧ work_claims ws ## ow_active g.
(** The tracked work [ts] chosen among [ws]. *)
Definition chosen (ws : list EmbedWork) (g : Owned) (ts : list TrackedEmbedWork) : Prop :=
  map tw_work ts `sublist_of` ws ∧ (∀ t, t ∈ ts → tracked_ok t) ∧ NoDup (map tw_inflight ts) ∧ keys ts ## ow_inflight g.
Definition took (ws : list EmbedWork) (ts : list TrackedEmbedWork) (g : Owned) : Owned :=
  mkOwned (ow_inflight g ∪ keys ts) (ow_active g ∪ active_claims ts) (ow_leases g ∖ (work_claims ws ∖ active_claims ts))
    (ow_facts g) (ow_task g).

Lemma sublist_claims (ws ws' : list EmbedWork) : ws `sublist_of` ws' → omap work_claim ws `sublist_of` omap work_claim ws'.
Proof.
  induction 1 as [|w ws ws' _ IH|w ws ws' _ IH]; cbn; [done|..]; destruct (work_claim w); [by constructor|done|by constructor|done].
Qed.
Lemma chosen_claims ws g ts : chosen ws g ts → active_claims ts ⊆ work_claims ws.
Proof.
  intros (Hs & Hok & _). rewrite active_work_claims by done. intros c (w & Hw & Hc)%elem_of_work_claims.
  apply elem_of_work_claims. exists w. split; [|done]. by eapply elem_of_sublist.
Qed.
Lemma chosen_ready ws ts g : ready ws g → chosen ws g ts → ready (map tw_work ts) (dropped ts (took ws ts g)).
Proof.
  intros (Hf & Hnd & Hl & Ha) Hch. pose proof (chosen_claims _ _ _ Hch) as Hsub. destruct Hch as (Hs & Hok & _).
  split_and!; cbn.
  - intros w Hw. apply Hf. by eapply elem_of_sublist.
  - eapply sublist_NoDup; [exact Hnd|]. by apply sublist_claims.
  - rewrite <- active_work_claims by done. set_solver.
  - rewrite <- active_work_claims by done. set_solver.
Qed.
Lemma took_held ws ts g : ready ws g → chosen ws g ts → held ts (took ws ts g).
Proof.
  intros (Hf & _) (Hs & Hok & Hnd & Hk). split_and!; cbn; [done|set_solver..|].
  intros t Ht. split; [by apply Hok|]. apply Hf. eapply elem_of_sublist; [by apply list_elem_of_fmap_2|done].
Qed.
Lemma took_done ws ts g : ready ws g → chosen ws g ts → done_with ts (took ws ts g) = settled ws g.
Proof.
  intros (_ & _ & _ & Ha) Hch. pose proof (chosen_claims _ _ _ Hch) as Hsub. destruct Hch as (_ & _ & _ & Hk).
  unfold done_with, kept, settled, set_leases. cbn. apply owned_eq; [set_solver..|].
  apply set_eq. intros c. destruct (decide (c ∈ active_claims ts)); set_solver.
Qed.
Lemma took_dropped ws ts g : ready ws g → chosen ws g ts →
  settled (map tw_work ts) (dropped ts (took ws ts g)) = settled ws g.
Proof.
  intros (_ & _ & _ & Ha) Hch. pose proof (chosen_claims _ _ _ Hch) as Hsub. destruct Hch as (_ & Hok & _ & Hk).
  unfold settled, set_leases. cbn. rewrite <- active_work_claims by done. apply owned_eq; [set_solver..|].
  apply set_eq. intros c. destruct (decide (c ∈ active_claims ts)); set_solver.
Qed.

Lemma ready_cons w ws g : ready (w :: ws) g →
  work_claims [w] ## work_claims ws ∧ work_claims [w] ⊆ ow_leases g ∧ work_claims [w] ## ow_active g ∧ ready ws g.
Proof.
  intros (Hf & Hnd & Hl & Ha). rewrite (work_claims_cons w ws) in Hl, Ha.
  assert (NoDup (omap work_claim ws) ∧ work_claims [w] ## work_claims ws) as [Hnd' Hd].
  { unfold work_claims. cbn in *. destruct (work_claim w) as [c|]; [|split; [done|set_solver]].
    apply NoDup_cons in Hnd as [Hni Hnd]. split; [done|]. cbn. set_solver. }
  split_and!; [done|set_solver|set_solver|]. split_and!; [|done|set_solver|set_solver]. intros w' Hw'. apply Hf. by right.
Qed.
Lemma ready_mono ws g g' : ready ws g → ow_facts g' = ow_facts g → work_claims ws ⊆ ow_leases g' →
  work_claims ws ## ow_active g' → ready ws g'.
Proof. intros (Hf & ? & _ & _) E ? ?. split_and!; [by rewrite E|done..]. Qed.

(** Tracking the claim of one work. *)
Definition tracking (w : EmbedWork) (g : Owned) : Owned := set_active (work_claims [w] ∪ ow_active g) g.
Lemma safe_track w g : work_claims [w] ⊆ ow_leases g → work_claims [w] ## ow_active g →
  safe (match ew_claim_token w with
        | Some token => claim ← track_active_claim (ew_id w) (ew_expected_revision w) token; mret (Some claim)
        | None => mret None
        end) g (leads (tracking w g) (λ c, c = work_claim w)).
Proof.
  unfold tracking, work_claims, work_claim. cbn. destruct (ew_claim_token w) as [token|]; cbn; intros Hl Ha.
  - split; [set_solver|]. split; [set_solver|]. apply safe_ret; [|done]. unfold set_active. f_equal. set_solver.
  - apply safe_ret; [|done]. destruct g. unfold set_active. cbn. f_equal. set_solver.
Qed.
Lemma safe_prepare ws g : ready ws g →
  safe (prepare_work ws) g (λ ts g', g' = took ws ts g ∧ chosen ws g ts).
Proof.
  revert g. induction ws as [|w ws IH]; intros g Hr; cbn [prepare_work].
  { split; [|split_and!; [done|by intros t ?%elem_of_nil|constructor|unfold keys; set_solver]].
    destruct g. unfold took, keys, active_claims, work_claims. cbn. apply owned_eq; set_solver. }
  pose proof (ready_cons _ _ _ Hr) as (Hd & Hl & Ha & Hr'). apply safe_bind. split; cbn [begin_inflight_embed].
  - intros Hk. eapply safe_seq; [apply safe_track; cbn; [done|done]|]. intros c ->. apply safe_bind.
    eapply safe_mono; [apply IH; eapply ready_mono; [exact Hr'|done|apply Hr'|]|].
    { destruct Hr' as (_ & _ & _ & ?). cbn. set_solver. }
    intros ts g' [-> Hch]. pose proof (chosen_claims _ _ _ Hch) as Hsub. destruct Hch as (Hs & Hok & Hnd & Hks).
    set (t := {| tw_work := w; tw_inflight := (ew_id w, ew_expected_revision w); tw_active_claim := work_claim w |}).
    assert (active_claims [t] = work_claims [w]) as Ec by done.
    split; cbn.
    + unfold took. cbn. rewrite (active_claims_cons t ts), (work_claims_cons w ws), keys_cons, Ec. cbn.
      apply owned_eq; [set_solver..|]. apply set_eq. intros c. destruct (decide (c ∈ work_claims [w])); set_solver.
    + cbn in Hks. split_and!; [by constructor| | |].
      * intros t' [->|Ht']%elem_of_cons; [done|by apply Hok].
      * cbn. constructor; [|done]. intros Hin. apply (Hks (ew_id w, ew_expected_revision w)); [|set_solver].
        unfold keys. by apply elem_of_list_to_set.
      * rewrite keys_cons. cbn. set_solver.
  - eapply safe_seq; [apply safe_release|]. intros _ _.
    eapply safe_mono; [apply IH; eapply ready_mono; [exact Hr'|done|..]|].
    { destruct Hr' as (_ & _ & ? & _). cbn. set_solver. }
    { apply Hr'. }
    intros ts g' [-> Hch]. pose proof (chosen_claims _ _ _ Hch) as Hsub. destruct Hch as (Hs & Hok & Hnd & Hks).
    split.
    + unfold took, settled. cbn. rewrite (work_claims_cons w ws). apply owned_eq; [done..|].
      apply set_eq. intros c. destruct (decide (c ∈ work_claims [w])); set_solver.
    + split_and!; [by constructor|done..].
Qed.

Lemma safe_release_all ws g : safe (for_each release_work_claim ws) g (leads (settled ws g) (λ _, True)).
Proof.
  revert g. induction ws as [|w ws IH]; intros g; cbn [for_each].
  - apply safe_ret; [|done]. by rewrite settled_nothing.
  - eapply safe_seq; [apply safe_release|]. intros _ _. eapply leads_mono; [apply IH|apply settled_cons|done].
Qed.
Lemma safe_task ts g : held ts g → safe (run_batch dimensions active_profile ts) (given (keys ts) (active_claims ts) g) finished.
Proof.
  intros Hh. eapply safe_mono; [apply safe_run_batch; eapply held_mono; [exact Hh|done..]|].
  intros [] g' [-> _]. unfold finished, done_with, kept. cbn. split_and!; set_solver.
Qed.
Lemma safe_spawn ts task g : held ts g → ow_task g = false →
  safe task (given (keys ts) (active_claims ts) g) finished →
  safe (spawn ts task) g (λ accepted g', g' = if accepted : bool then done_with ts g else dropped ts g).
Proof.
  intros Hh Hn Ht. unfold spawn. apply safe_bind. split; [apply Hh|]. split; [apply Hh|]. split; [exact Ht|]. split; [done|].
  eapply safe_seq; [apply safe_drop_all; [done|congruence]|]. intros _ _. done.
Qed.
Lemma safe_schedule_chunk ws rejected g : ready ws g → ow_task g = false →
  safe (schedule_chunk dimensions active_profile ws rejected) g (leads (settled ws g) (λ _, True)).
Proof.
  intros Hr Hn. unfold schedule_chunk. apply safe_bind. eapply safe_mono; [by apply safe_prepare|].
  intros ts g' [-> Hch]. destruct ts as [|t ts0] eqn:Hts.
  { apply safe_ret; [|done]. by rewrite <- (took_done ws [] g), done_with_nil. }
  rewrite <- Hts in *. clear t ts0 Hts. pose proof (took_held _ _ _ Hr Hch) as Hh.
  apply safe_bind. eapply safe_mono; [by apply safe_spawn, safe_task|]. intros [] g' ->.
  { apply safe_ret; [by apply took_done|done]. }
  destruct rejected.
  - apply safe_bind. eapply safe_mono; [apply safe_prepare; by apply chosen_ready|]. intros ts2 g' [-> Hch2].
    pose proof (chosen_ready _ _ _ Hr Hch) as Hr2.
    eapply safe_seq; [apply safe_run_batch; by apply took_held|]. intros _ _.
    apply safe_ret; [|done]. rewrite took_done by done. by apply took_dropped.
  - eapply safe_seq; [apply safe_release_all|]. intros _ _. apply safe_ret; [|done]. by apply took_dropped.
Qed.
Lemma work_claims_app ws ws' : work_claims (ws ++ ws') = work_claims ws ∪ work_claims ws'.
Proof. unfold work_claims. rewrite omap_app, list_to_set_app_L. done. Qed.
Lemma ready_app ws ws' g : ready (ws ++ ws') g → ready ws g ∧ ready ws' (settled ws g).
Proof.
  intros (Hf & Hnd & Hl & Ha). rewrite work_claims_app in Hl, Ha. rewrite omap_app in Hnd.
  apply NoDup_app in Hnd as (Hnd & Hdis & Hnd').
  assert (work_claims ws ## work_claims ws').
  { intros c. unfold work_claims. rewrite !elem_of_list_to_set. apply Hdis. }
  split; split_and!; cbn; try done; try set_solver.
Qed.
Lemma safe_schedule_chunks cs rejected n g : ready (concat cs) g → ow_task g = false →
  safe (schedule_chunks dimensions active_profile cs rejected n) g (leads (settled (concat cs) g) (λ _, True)).
Proof.
  revert n g. induction cs as [|c cs IH]; intros n g Hr Hn; cbn [schedule_chunks concat].
  - apply safe_ret; [|done]. by rewrite settled_nothing.
  - cbn in Hr. apply ready_app in Hr as [Hr Hr']. eapply safe_seq; [by apply safe_schedule_chunk|]. intros k _.
    eapply leads_mono; [by apply IH| |done]. unfold settled, set_leases. cbn. rewrite work_claims_app.
    apply owned_eq; [done..|]. set_solver.
Qed.
Context (embedding_batch_size : Z).
Lemma safe_schedule ws rejected g : ready ws g → ow_task g = false →
  safe (schedule_batches dimensions active_profile embedding_batch_size ws rejected) g (leads (settled ws g) (λ _, True)).
Proof.
  intros Hr Hn. unfold schedule_batches. assert (0 < Z.to_nat (chunk_size embedding_batch_size))%nat by (unfold chunk_size; lia).
  eapply leads_mono; [apply safe_schedule_chunks; [by rewrite concat_chunks|done]| |done]. by rewrite concat_chunks.
Qed.

(** ** Requests *)

(** Between its steps a request owns nothing. *)
Definition idle (g : Owned) : Prop := ow_inflight g = ∅ ∧ ow_active g = ∅ ∧ ow_leases g = ∅ ∧ ow_task g = false.
Definition idles {A : Type} (_ : A) (g : Owned) : Prop := idle g.
Lemma idle_add_facts fs g : idle g → idle (add_facts fs g).
Proof. done. Qed.
Lemma idle_finished {A : Type} (a : A) g : idle g → finished a g.
Proof. intros (? & ? & ? & _). done. Qed.
Lemma leads_idles {A : Type} (p : prog A) g P : idle g → safe p g (leads g P) → safe p g idles.
Proof. intros Hi Hp. eapply safe_mono; [exact Hp|]. by intros a g' [-> _]. Qed.
Lemma idle_seq {A B : Type} (p : prog A) (f : A → prog B) g :
  safe p g idles → (∀ a g', idle g' → safe (f a) g' idles) → safe (p ≫= f) g idles.
Proof. intros Hp Hf. apply safe_bind. eapply safe_mono; [exact Hp|]. intros a g'. apply Hf. Qed.
Lemma idle_try {A B : Type} (p : fallible A) (f : A → fallible B) g :
  safe p g idles → (∀ a g', idle g' → safe (f a) g' idles) → safe (try_then p f) g idles.
Proof. intros Hp Hf. apply idle_seq; [done|]. intros [a|e] g' Hi; [by apply Hf|done]. Qed.
Lemma idle_checked {A B : Type} (r : result EngineError.t A) (f : A → fallible B) g : idle g →
  (∀ a, r = Ok a → safe (f a) g idles) → safe (try_then (of_checked r) f) g idles.
Proof. intros Hi Hf. destruct r as [a|e]; [by apply Hf|done]. Qed.
Lemma idle_admission {B : Type} (f : () → fallible B) g : idle g →
  (∀ a, safe (f a) g idles) → safe (try_then begin_embed_admission f) g idles.
Proof. intros Hi Hf. intros [a|e]; [apply Hf|done]. Qed.
Lemma idle_admission_for {B : Type} c (f : bool → fallible B) g : idle g →
  (∀ b, safe (f b) g idles) → safe (try_then (admission_for c) f) g idles.
Proof. intros Hi Hf. unfold admission_for. destruct (is_some c); [intros [[]|e]; [apply Hf|done]|apply Hf]. Qed.
Lemma idle_draft {B : Type} action caller details (f : AuditDraft → prog B) g :
  (∀ a, safe (f a) g idles) → safe (timed_audit_draft action caller details ≫= f) g idles.
Proof. intros Hf now. apply Hf. Qed.
Lemma idle_drafts {B : Type} ms sup (f : list AuditDraft → prog B) g :
  (∀ a, safe (f a) g idles) → safe (batch_store_audits ms sup ≫= f) g idles.
Proof.
  intros Hf. apply safe_bind. enough (safe (batch_store_audits ms sup) g (leads g (λ _, True))) as Hs.
  { eapply safe_mono; [exact Hs|]. intros a g' [-> _]. apply Hf. }
  clear Hf. revert sup. induction ms as [|m ms IH]; intros [|s sup]; try done.
  intros now. cbn. eapply safe_seq; [apply IH|]. intros l _. done.
Qed.
(** A write that teaches, and what is done with its answer. *)
Lemma idle_write {A B : Type} (m : DateTime → tx A) (T : A → list Fact) (f : A → fallible B) g : idle g →
  is_operation (ow_facts g) m → (∀ now, tells T (m now)) →
  (∀ a, safe (f a) (add_facts (T a) g) idles) → safe (try_then (store_call m) f) g idles.
Proof. intros Hi Ho HT Hf. apply safe_try. eapply safe_store_call; [done..| |]; [done|apply Hf]. Qed.

Lemma single_tracked t g : tracked_ok t → tw_active_claim t = None → tw_inflight t ∉ ow_inflight g →
  let g1 := set_inflight ({[tw_inflight t]} ∪ ow_inflight g) g in
  work_fact (tw_work t) ∈ ow_facts g → held [t] g1 ∧ done_with [t] g1 = g ∧ dropped [t] g1 = g.
Proof.
  intros Hok Hn Hk g1 Hf. assert (keys [t] = {[tw_inflight t]}) as Ek by (unfold keys; cbn; set_solver).
  assert (active_claims [t] = ∅) as Ea by (unfold active_claims; cbn; by rewrite Hn).
  split_and!.
  - unfold held. rewrite Ek, Ea. split_and!; [apply NoDup_singleton|cbn; set_solver|set_solver|].
    by intros t' ->%list_elem_of_singleton.
  - destruct g. unfold done_with, kept. rewrite Ek, Ea. cbn in *. apply owned_eq; set_solver.
  - destruct g. unfold dropped. rewrite Ek, Ea. cbn in *. apply owned_eq; set_solver.
Qed.
Lemma safe_begin {B : Type} id rev (f : option EmbedKey → prog B) g post :
  ((id, rev) ∉ ow_inflight g → safe (f (Some (id, rev))) (set_inflight ({[(id, rev)]} ∪ ow_inflight g) g) post) →
  safe (f None) g post → safe (begin_inflight_embed id rev ≫= f) g post.
Proof. intros Ht Hf. by split. Qed.
(** The embedding of one content, as a task or inline. *)
Lemma safe_embed_drop id content rev g post : (id, rev, content) ∈ ow_facts g → (id, rev) ∈ ow_inflight g →
  post () (set_inflight (ow_inflight g ∖ {[(id, rev)]}) g) →
  safe (_ ← run_embed_task dimensions active_profile id content rev None; drop_inflight (id, rev)) g post.
Proof. intros Hf Hk Hp. eapply safe_seq; [by apply safe_run_embed|]. intros _ _. by split. Qed.
Lemma safe_spawn_embed id content rev g : (id, rev, content) ∈ ow_facts g → ow_task g = false →
  safe (spawn_embed_task_or_run_inline dimensions active_profile id content rev) g (leads g (λ _, True)).
Proof.
  intros Hf Hn. unfold spawn_embed_task_or_run_inline. apply safe_begin; [intros Hk|by apply safe_ret].
  set (t := {| tw_work := {| ew_id := id; ew_content := content; ew_expected_revision := rev; ew_claim_token := None |};
               tw_inflight := (id, rev); tw_active_claim := None |}).
  destruct (single_tracked t g) as (Hh & Hd & Hdr); [done..|]. change (tw_inflight t) with (id, rev) in *. apply safe_bind.
  eapply safe_mono; [apply safe_spawn; [exact Hh|done|]|].
  - apply safe_embed_drop; [done|cbn; unfold keys; cbn; set_solver|]. unfold finished, keys, active_claims. cbn.
    split_and!; set_solver.
  - intros [] g' ->; [by apply safe_ret|].
    match goal with |- safe _ ?x _ => replace x with g by (symmetry; exact Hdr) end.
    apply safe_begin; [intros _|by apply safe_ret].
    eapply safe_seq; [by apply safe_run_embed|]. intros _ _. split; cbn; [set_solver|].
    split; [|done]. destruct g. unfold set_inflight. cbn in *. f_equal. set_solver.
Qed.

Lemma safe_then_embed memory (m : DateTime → tx MemoryId) g : idle g →
  is_operation (ow_facts g) m → (∀ now, tells (new_fact (m_content memory)) (m now)) →
  safe (then_embed dimensions active_profile memory (store_call m)) g idles.
Proof.
  intros Hi Ho HT. unfold then_embed. eapply idle_write; [done..|]. intros id.
  eapply safe_seq; [apply safe_spawn_embed; [left|apply Hi]|]. intros b _. done.
Qed.
Lemma safe_then_embed_batch memories mx write (m : DateTime → tx (list MemoryId)) g : idle g →
  write (map memory_for_store memories) = store_call m →
  is_operation (ow_facts g) m → (∀ now, tells (new_facts (map m_content memories)) (m now)) →
  safe (then_embed_batch dimensions active_profile embedding_batch_size memories mx write) g idles.
Proof.
  intros Hi Hw Ho HT. unfold then_embed_batch. apply idle_checked; [done|]. intros _ _. rewrite Hw.
  eapply idle_write; [done..|]. intros ids.
  assert (∀ w, w ∈ zip_with initial_work ids (map m_content memories) → work_claim w = None) as Hno.
  { intros w (k & id & c & -> & _)%elem_of_lookup_zip_with. done. }
  assert (omap work_claim (zip_with initial_work ids (map m_content memories)) = []) as Enil.
  { revert Hno. generalize (zip_with initial_work ids (map m_content memories)). clear.
    induction l as [|w l IH]; intros Hno; cbn; [done|]. rewrite (Hno w) by left. apply IH. intros w' Hw'. apply Hno. by right. }
  eapply safe_seq; [apply safe_schedule; [|apply Hi]|].
  - split_and!.
    + intros w Hin. apply elem_of_app. left. by apply new_facts_work.
    + rewrite Enil. constructor.
    + unfold work_claims. rewrite Enil. cbn. set_solver.
    + unfold work_claims. rewrite Enil. cbn. set_solver.
  - intros n _. rewrite settled_nothing by (unfold work_claims; by rewrite Enil). done.
Qed.
Lemma safe_reembed_after b id content o g : idle g →
  (∀ f, f ∈ revised_fact id content o → f ∈ ow_facts g) →
  safe (maybe_reembed_after_update dimensions active_profile b id content o) g (leads g (λ _, True)).
Proof.
  intros Hi Hf. unfold maybe_reembed_after_update. destruct (negb _); [by apply safe_ret|].
  destruct b, content as [c|], (ao_reembed_revision o) as [rev|] eqn:Hr; try (by apply safe_ret).
  eapply safe_seq; [apply safe_spawn_embed; [|apply Hi]|intros _ _; by apply safe_ret].
  apply Hf. unfold revised_fact. rewrite Hr. left.
Qed.
Lemma safe_then_reembed b id u (m : DateTime → tx AuthorizedUpdateOutcome) g : idle g →
  is_operation (ow_facts g) m → (∀ now, tells (revised_fact id (mu_content u)) (m now)) →
  safe (then_reembed dimensions active_profile b id u (store_call m)) g idles.
Proof.
  intros Hi Ho HT. unfold then_reembed. eapply idle_write; [done..|]. intros o.
  eapply safe_seq; [apply safe_reembed_after; [done|]|intros _ _; done]. intros f Hf. apply elem_of_app. by left.
Qed.
Lemma safe_then_queue b id content (m : DateTime → tx AuthorizedUpdateOutcome) g : idle g →
  is_operation (ow_facts g) m → (∀ now, tells (revised_fact id content) (m now)) →
  safe (then_queue dimensions active_profile b id content (store_call m)) g idles.
Proof.
  intros Hi Ho HT. unfold then_queue. eapply idle_write; [done..|]. intros o.
  eapply idle_seq; [|intros [] g' Hg; done].
  destruct content as [c|], (ao_reembed_revision o) as [rev|] eqn:Hr, b; try done.
  eapply idle_seq; [|intros ? g' Hg; done]. eapply leads_idles; [done|]. apply safe_spawn_embed; [|apply Hi].
  apply elem_of_app. left. unfold revised_fact. rewrite Hr. left.
Qed.

(** *** Each request *)

Ltac op_is o := apply (operation_of _ _ o); [done | intros now' s' allowed' _; cbn].
Lemma batch_without_vectors (memories : list Memory) : right_batch answers (map memory_for_store memories).
Proof. apply Forall_map, Forall_true. intros m v Hv. done. Qed.
Lemma contents_for_store (memories : list Memory) :
  map (λ m, m_content (we_memory m)) (map memory_for_store memories) = map m_content memories.
Proof. by rewrite map_map. Qed.

Lemma safe_store memory sup audit g : idle g →
  safe (store_and_embed dimensions active_profile memory sup audit) g idles.
Proof.
  intros Hi. destruct sup as [sup|]; apply safe_then_embed; try done.
  - op_is (λ _ : DateTime, OpStoreSuperseding memory None sup (Some audit)). done.
  - intros _. apply tells_store_superseding.
  - op_is (λ _ : DateTime, OpStore memory None (Some audit)). done.
  - intros _. apply tells_store.
Qed.
Lemma safe_store_metadata memory sup md audit g : idle g →
  safe (store_and_embed_with_metadata dimensions active_profile memory sup md audit) g idles.
Proof.
  intros Hi. apply safe_then_embed; [done| |].
  - op_is (λ _ : DateTime, OpStoreWithMetadata memory None sup md (Some audit)). done.
  - intros _. apply tells_store_metadata.
Qed.
Lemma safe_store_governed memory sup md cs audit ca g : idle g →
  safe (store_and_embed_with_metadata_contexts dimensions active_profile memory sup md cs audit ca) g idles.
Proof.
  intros Hi. apply safe_then_embed; [done| |].
  - op_is (λ now : DateTime, OpStoreGoverned memory None sup md cs audit ca now). done.
  - intros now. apply tells_store_governed.
Qed.
Lemma safe_batch memories sup audits mx g : idle g →
  safe (batch_store_and_embed dimensions active_profile embedding_batch_size memories sup audits mx) g idles.
Proof.
  intros Hi. unfold batch_store_and_embed. destruct (existsb is_some sup);
    (eapply safe_then_embed_batch; [done|reflexivity| |]).
  - op_is (λ _ : DateTime, OpStoreBatchSuperseding (map memory_for_store memories) sup (Some audits)). apply batch_without_vectors.
  - intros now. rewrite <- (contents_for_store memories). apply tells_store_batch_superseding.
  - op_is (λ _ : DateTime, OpStoreBatch (map memory_for_store memories) (Some audits)). apply batch_without_vectors.
  - intros now. rewrite <- (contents_for_store memories). apply tells_store_batch.
Qed.
Lemma safe_batch_metadata memories sup mds audits mx g : idle g →
  safe (batch_store_and_embed_with_metadata dimensions active_profile embedding_batch_size memories sup mds audits mx) g idles.
Proof.
  intros Hi. eapply safe_then_embed_batch; [done|reflexivity| |].
  - op_is (λ _ : DateTime, OpStoreBatchWithMetadata (map memory_for_store memories) sup mds (Some audits)).
    apply batch_without_vectors.
  - intros now. rewrite <- (contents_for_store memories). apply tells_store_batch_metadata.
Qed.
Lemma safe_batch_governed memories sup mds cs audits cas mx g : idle g →
  safe (batch_store_and_embed_with_metadata_contexts dimensions active_profile embedding_batch_size memories sup mds cs audits
          cas mx) g idles.
Proof.
  intros Hi. eapply safe_then_embed_batch; [done|reflexivity| |].
  - op_is (λ now : DateTime, OpStoreBatchGoverned (map memory_for_store memories) sup mds cs audits cas now).
    apply batch_without_vectors.
  - intros now. rewrite <- (contents_for_store memories). apply tells_store_batch_governed.
Qed.

Lemma prepare_update_content limits u u' : prepare_update limits u = Ok u' → mu_content u' = mu_content u.
Proof. unfold prepare_update. intros Hu. simpl_res. done. Qed.
Lemma safe_update b id u p audit g : idle g →
  safe (update_and_maybe_reembed dimensions active_profile b id u p audit) g idles.
Proof.
  intros Hi. apply safe_then_reembed; [done| |].
  - op_is (λ now : DateTime, OpUpdateAuthorized id u p now (Some audit)). done.
  - intros now. apply tells_update_authorized.
Qed.
Lemma safe_update_metadata b id u patch p audit g : idle g →
  safe (update_with_metadata_and_maybe_reembed dimensions active_profile b id u patch p audit) g idles.
Proof.
  intros Hi. apply safe_then_reembed; [done| |].
  - op_is (λ now : DateTime, OpUpdateWithMetadata id u patch p now (Some audit)). done.
  - intros now. apply tells_update_with_metadata.
Qed.
Lemma safe_update_governed b id u patch cs p audit ca g : idle g →
  safe (update_with_metadata_contexts_and_maybe_reembed dimensions active_profile b id u patch cs p audit ca) g idles.
Proof.
  intros Hi. apply safe_then_reembed; [done| |].
  - op_is (λ now : DateTime, OpUpdateGoverned id u patch cs p now audit ca). done.
  - intros now. apply tells_update_governed.
Qed.
Lemma safe_update_if_unmodified b id rev u patch cs p audit ca content g : idle g → mu_content u = content →
  safe (then_queue dimensions active_profile b id content
          (store_call (λ now, apply_authorized_update_if_unmodified_with_metadata dimensions id rev u patch cs None
                                active_profile p now audit ca))) g idles.
Proof.
  intros Hi <-. apply safe_then_queue; [done| |].
  - op_is (λ now : DateTime, OpUpdateIfUnmodified id rev u patch cs None active_profile p now audit ca).
    intros c _ v Hv. done.
  - intros now. apply tells_update_if_unmodified.
Qed.

(** Claimed work is ready: the claims are of different memories. *)
Lemma claimed_claims claims : omap work_claim (map claimed_work claims) = map active_claim claims.
Proof. induction claims as [|c cs IH]; cbn; [done|]. by f_equal. Qed.
Lemma claims_ready claims g : idle g → new_claims claims g →
  let g1 := add_facts (map claim_fact claims) (set_leases (ow_leases g ∪ list_to_set (map active_claim claims)) g) in
  ready (map claimed_work claims) g1 ∧ idle (settled (map claimed_work claims) g1).
Proof.
  intros (Hk & Ha & Hl & Hn) [Hnd _] g1.
  assert (work_claims (map claimed_work claims) = list_to_set (map active_claim claims)) as E.
  { unfold work_claims. by rewrite claimed_claims. }
  split; [split_and!|split_and!]; cbn [g1 settled set_leases add_facts ow_inflight ow_active ow_leases ow_task ow_facts];
    rewrite ?E, ?Ha, ?Hl; try done.
  - intros w (c & -> & Hc)%list_elem_of_fmap. apply elem_of_app. left. by apply (list_elem_of_fmap_2 claim_fact).
  - rewrite claimed_claims. apply (NoDup_fmap_1 ac_id). rewrite <- list_fmap_compose. exact Hnd.
  - clear. set_solver.
  - clear. set_solver.
Qed.
Lemma safe_claimed scope limit g : idle g →
  safe (claims ←? claim_for_reembed scope limit;
        count ← spawn_claimed_embed_batches_or_run_inline dimensions active_profile embedding_batch_size claims;
        ok (Queued count)) g idles.
Proof.
  intros Hi. apply safe_try. split; [apply Hi|]. split; [by intros e|]. intros claims Hc. cbn [safe map_err].
  destruct (claims_ready claims g Hi Hc) as [Hr Hi1]. unfold spawn_claimed_embed_batches_or_run_inline.
  eapply safe_seq; [apply safe_schedule; [exact Hr|apply Hi]|]. intros n _. done.
Qed.
End rules.

Section requests.
Context `{Render, UnicodeCase, Chrono} (dimensions : Z) (exp2 : f64 → f64) (answers : string → list f64 → Prop).
Context (active_profile : option EmbeddingProfile) (limits : LimitsConfig).
#[local] Abbreviation safe := (safe dimensions exp2 answers).

Lemma safe_reembed r g : idle g → safe (reembed dimensions active_profile limits r) g idles.
Proof.
  intros Hi. unfold reembed. apply idle_checked; [done|]. intros _ _. apply idle_try; [by apply safe_bind; intros [[]|e]|].
  intros _ g' Hg. destruct r as [id p|limit p|limit].
  - eapply (idle_write _ _ _ _ (found_fact id)); [done| |intros _; apply tells_get_for_reembed|].
    + apply operation_reads. intros _ s o s'. apply get_for_reembed_reads.
    + intros [[content rev]|]; [|done]. apply idle_admission; [done|]. intros _.
      eapply safe_seq; [apply safe_spawn_embed; [left|apply Hg]|]. by intros b _.
  - apply idle_admission; [done|]. intros _. by apply safe_claimed.
  - apply idle_admission; [done|]. intros _. by apply safe_claimed.
Qed.
Ltac request_tac final := repeat first
  [ final | apply idle_admission; [done|intros _] | apply idle_admission_for; [done|intros ?]
  | apply idle_draft; intros ? | apply idle_drafts; intros ? | apply idle_checked; [done|intros ? ?] ].
Lemma request_safe r : safe (serve dimensions active_profile limits r) (mkOwned ∅ ∅ ∅ [] false) finished.
Proof.
  assert (∀ {A : Type} (p : fallible A), safe p (mkOwned ∅ ∅ ∅ [] false) idles →
    safe (answered p) (mkOwned ∅ ∅ ∅ [] false) finished) as Hans.
  { intros A p Hp. apply safe_bind. eapply safe_mono; [exact Hp|]. intros a g. apply idle_finished. }
  assert (idle (mkOwned ∅ ∅ ∅ [] false)) as Hi by done. revert Hi Hans. generalize (mkOwned ∅ ∅ ∅ [] false). intros g Hi Hans.
  destruct r; cbn [serve]; apply Hans; clear Hans.
  - unfold store_memory. request_tac ltac:(by apply safe_store).
  - unfold store_memory_with_metadata. request_tac ltac:(by apply safe_store_metadata).
  - unfold store_memory_with_metadata_contexts. request_tac ltac:(by apply safe_store_governed).
  - unfold batch_store. request_tac ltac:(by apply safe_batch).
  - unfold batch_store_with_metadata. request_tac ltac:(by apply safe_batch_metadata).
  - unfold batch_store_with_metadata_contexts. request_tac ltac:(by apply safe_batch_governed).
  - unfold update_memory. request_tac ltac:(by apply safe_update).
  - unfold update_memory_with_metadata. request_tac ltac:(by apply safe_update_metadata).
  - unfold update_memory_with_metadata_contexts. request_tac ltac:(by apply safe_update_governed).
  - unfold update_memory_if_unmodified_with_metadata. request_tac ltac:(apply safe_update_if_unmodified; [done|by eapply prepare_update_content]).
  - unfold update_memory_if_unmodified_with_metadata_contexts. request_tac ltac:(apply safe_update_if_unmodified; [done|by eapply prepare_update_content]).
  - by apply safe_reembed.
Qed.
End requests.
