(* ===== verification/EmbeddingGuarantees.v ===== *)
(** * EmbeddingGuarantees: what the embedding orchestrator guarantees

    The requests are safe (EmbeddingSafety.v), so the server keeps the
    invariant of ProgramLogic.v whatever the interleaving. From it: a stored
    vector is the provider's answer to the content the memory has, an identity
    of embedding work has one worker, and no lease is left behind. Threads end,
    and a stored memory gets its vector. *)
From Stdlib Require Import ZArith Lia.
From stdpp Require Import base list option strings gmap sets relations pretty.
From S2P Require Import Prelude Text Floats Lists Errors Types Context StoreTypes Validation Store Membership Crud ContextAdmin Admin Revisions Operations Vectors Integrity Concurrency Governance Query Config Engine Programs Orchestrator EngineWrites ProgramLogic StoreFacts EmbeddingSafety.

(** ** The guarantees *)

Section guarantees.
Context `{Render, UnicodeCase, Chrono} (dimensions : Z) (exp2 : f64 → f64) (answers : string → list f64 → Prop).
Context (active_profile : option EmbeddingProfile) (limits : LimitsConfig).
#[local] Abbreviation reachable := (reachable dimensions exp2 (is_request dimensions active_profile limits) answers).
(** The vectors the server finds at its start are answers, too. *)
Definition right_at_start (st : Store) : Prop := ∀ id, vector_ok dimensions answers any_lease st id.

Lemma server_inv st s : right_at_start st → reachable st s → ∃ ann, inv dimensions exp2 answers ann s.
Proof. intros Hst Hr. eapply reachable_inv; [|done|exact Hr]. intros p [r ->]. apply request_safe. Qed.
Lemma inv_thread ann s t th : inv dimensions exp2 answers ann s → sy_threads s !! t = Some th → ∃ a, ann !! t = Some (th, a).
Proof.
  intros Hi Ht. rewrite <- (i_ann _ _ _ _ _ Hi), lookup_fmap in Ht. destruct (ann !! t) as [[th0 a]|]; [|done].
  cbn in Ht. simplify_eq. by exists a.
Qed.
Lemma inv_annotated ann s t x : inv dimensions exp2 answers ann s → ann !! t = Some x → sy_threads s !! t = Some x.1.
Proof. intros Hi Ht. by rewrite <- (i_ann _ _ _ _ _ Hi), lookup_fmap, Ht. Qed.

(** C5. A stored vector belongs to the content. Requests, background tasks,
    other sessions and a shutdown may interleave in any way: in every state
    the server reaches, the vector of a memory is an answer of the provider to
    the content the memory has now, with the configured dimension and finite
    components, and the memory is marked as embedded exactly when it has a
    vector. *)
Theorem embeddings_belong_to_content st s id :
  right_at_start st → reachable st s →
  match st_memories (sy_store s) !! id, st_vectors (sy_store s) !! id with
  | Some r, Some v => r_has_embedding r = true ∧ answers (r_content r) v ∧ good_vector dimensions v
  | Some r, None => r_has_embedding r = false
  | None, v => v = None
  end.
Proof.
  intros Hst Hr. destruct (server_inv _ _ Hst Hr) as [ann Hi]. pose proof (i_tables _ _ _ _ _ Hi id) as Ht.
  unfold vector_ok in Ht. destruct (st_memories _ !! id), (st_vectors _ !! id); try done.
  - by destruct Ht as (? & _ & ? & ?).
  - by destruct Ht.
Qed.

(** C7. One worker per identity of embedding work. In every state the server
    reaches, the keys in [inflight_embeds] and the claims in
    [active_claimed_embeds] are those of the guards of the running requests
    and tasks, and no two of them own the same; when nothing runs, both are
    empty. *)
Theorem one_worker_per_embedding st s :
  right_at_start st → reachable st s →
  (∀ k, k ∈ sy_inflight s ↔ ∃ t th, sy_threads s !! t = Some th ∧ k ∈ th_inflight th)
  ∧ (∀ c, c ∈ sy_active s ↔ ∃ t th, sy_threads s !! t = Some th ∧ c ∈ th_active th)
  ∧ (∀ t1 t2 th1 th2, sy_threads s !! t1 = Some th1 → sy_threads s !! t2 = Some th2 → t1 ≠ t2 →
       th_inflight th1 ## th_inflight th2 ∧ th_active th1 ## th_active th2)
  ∧ (sy_threads s = ∅ → sy_inflight s = ∅ ∧ sy_active s = ∅).
Proof.
  intros Hst Hr. destruct (server_inv _ _ Hst Hr) as [ann Hi].
  assert (∀ k, k ∈ sy_inflight s ↔ ∃ t th, sy_threads s !! t = Some th ∧ k ∈ th_inflight th) as Hk.
  { intros k. rewrite (i_keys _ _ _ _ _ Hi). split.
    - intros (t & x & Hx & Hin). exists t, x.1. split; [by eapply inv_annotated|done].
    - intros (t & th & Hth & Hin). destruct (inv_thread _ _ _ _ Hi Hth) as [a Ha]. by exists t, (th, a). }
  assert (∀ c, c ∈ sy_active s ↔ ∃ t th, sy_threads s !! t = Some th ∧ c ∈ th_active th) as Hc.
  { intros c. rewrite (i_active _ _ _ _ _ Hi). split.
    - intros (t & x & Hx & Hin). exists t, x.1. split; [by eapply inv_annotated|done].
    - intros (t & th & Hth & Hin). destruct (inv_thread _ _ _ _ Hi Hth) as [a Ha]. by exists t, (th, a). }
  split_and!; [done|done| |].
  - intros t1 t2 th1 th2 H1' H2' Hne. destruct (inv_thread _ _ _ _ Hi H1') as [a1 Ha1], (inv_thread _ _ _ _ Hi H2') as [a2 Ha2].
    split; intros x Hx1 Hx2; apply Hne.
    + by eapply (i_keys_excl _ _ _ _ _ Hi).
    + eapply (i_claims_excl _ _ _ _ _ Hi); [done..| |]; apply elem_of_union; by right.
  - intros Ht. split; apply set_eq; intros x; rewrite ?Hk, ?Hc, Ht; split; [|set_solver| |set_solver]; by intros (t & th & Hth & _).
Qed.

End guarantees.

(** *** A thread ends *)

Section ends.
Context `{Render, UnicodeCase, Chrono}.

(** Thread [t] takes [n] turns, with the answers [os]. *)
Fixpoint alone (os : nat → Oracle) (t n : nat) (s : System) : System :=
  match n with
  | O => s
  | S n => match sy_threads s !! t with
           | Some th => alone (λ i, os (S i)) t n (advance (os O) t th s)
           | None => s
           end
  end.
(** A turn leads to a program the code goes on with, or to the end. *)
Definition goes_on (p p' : prog unit) : Prop :=
  match p with
  | Ret _ => False
  | ReadClock k => ∃ x, p' = k x
  | Transact _ _ k => ∃ x, p' = k x
  | ClaimForReembed _ _ k => ∃ x, p' = k x
  | HealthCheck k => ∃ x, p' = k x
  | Embed _ k => ∃ x, p' = k x
  | EmbedBatch _ k => ∃ x, p' = k x
  | BeginEmbedAdmission k => ∃ x, p' = k x
  | InsertInflight _ k => ∃ x, p' = k x
  | DropInflight _ k | InsertActive _ k | DropActive _ k => p' = k
  | Spawn _ _ _ k => ∃ x, p' = k x
  end.
Lemma advance_self o t th s : or_task o ≠ t →
  match sy_threads (advance o t th s) !! t with
  | Some th' => goes_on (th_prog th) (th_prog th')
  | None => True
  end.
Proof.
  intros Ho. unfold advance. destruct (th_prog th); cbn [goes_on]; try destruct (with_conn _ _);
    try case_bool_decide; try destruct (or_accepted o); cbn [with_threads with_store with_issued with_inflight with_active sy_threads];
    rewrite ?lookup_delete_eq, ?(lookup_insert_ne _ (or_task o)) by done; rewrite ?lookup_insert_eq; cbn; eauto.
Qed.

(** Every request and every task ends. Whatever the clock, the store, the
    provider, the admission and the task set answer, a thread that gets its
    turns comes to its end. *)
Theorem thread_ends t th s os :
  sy_threads s !! t = Some th → (∀ i, or_task (os i) ≠ t) → ∃ n, sy_threads (alone os t n s) !! t = None.
Proof.
  revert s th os. cut (∀ (p : prog unit) s th os, th_prog th = p → sy_threads s !! t = Some th →
    (∀ i, or_task (os i) ≠ t) → ∃ n, sy_threads (alone os t n s) !! t = None); [by eauto|].
  fix IH 1. intros p s th os Hp Ht Ho. pose proof (advance_self (os O) t th s (Ho O)) as Hnext. rewrite Hp in Hnext.
  assert (∃ n, sy_threads (alone (λ i, os (S i)) t n (advance (os O) t th s)) !! t = None) as [n Hn].
  2: { exists (S n). cbn. by rewrite Ht. }
  destruct (sy_threads (advance (os O) t th s) !! t) as [th'|] eqn:Ht'; [|by exists O].
  destruct p; cbn [goes_on] in Hnext; try (destruct Hnext as [x Hx]; by eapply (IH _ _ _ _ Hx)); try by eapply (IH _ _ _ _ Hnext).
  done.
Qed.
End ends.

(** *** A stored memory gets its vector *)

Section liveness.
Context `{Render, UnicodeCase, Chrono} (dimensions : Z) (active_profile : option EmbeddingProfile) (limits : LimitsConfig).

Lemma store_new_run m a s : st_memories s !! m_id m = None →
  ∃ s', store_audited_impl dimensions m None a s = Ok (m_id m, s')
    ∧ st_memories s' !! m_id m = Some (pm_row (from_memory m None)) ∧ st_profile s' = st_profile s.
Proof.
  intros Hn. set (s1 := on_memories <[m_id m := pm_row (from_memory m None)]> s).
  assert (st_memories s1 !! m_id m = Some (pm_row (from_memory m None))) as Hr by apply lookup_insert_eq.
  assert (∃ s2, insert dimensions (from_memory m None) s = Ok (m_id m, s2) ∧ st_memories s2 = st_memories s1
    ∧ st_profile s2 = st_profile s) as (s2 & Hi & Hm & Hp).
  { unfold insert. rewrite (tx_bind_run _ _ s () s1) by (unfold insert_row; cbn; by rewrite Hn).
    rewrite (tx_bind_run _ _ s1 () s1) by done. unfold insert_entities. case_bool_decide; [by eexists|].
    assert (require_row (pm_id (from_memory m None)) s1 = Ok ((), s1)) as Hreq.
    { unfold require_row. change (pm_id (from_memory m None)) with (m_id m). by rewrite Hr. }
    erewrite tx_bind_run; [|rewrite (tx_bind_run _ _ _ _ _ Hreq); reflexivity]. by eexists. }
  unfold store_audited_impl. rewrite (tx_bind_run _ _ s _ s2 Hi).
  destruct a; (eexists; split; [reflexivity|]); cbn; by rewrite Hm.
Qed.
Lemma set_embedding_run id v r s :
  st_memories s !! id = Some r → validate_embedding_vector v dimensions = Ok () →
  (active_profile = None ∨ st_profile s = active_profile) →
  set_embedding_impl dimensions id v (r_embedding_revision r) active_profile s =
    Ok ((), on_memories (alter (λ r, set_embedding_claim_token None (set_embedding_claimed_at None (set_has_embedding true r))) id)
              (on_vectors <[id := v]> s)).
Proof.
  intros Hr Hv Hp. unfold set_embedding_impl. rewrite Hv. rewrite (tx_bind_run _ _ s () s) by done.
  rewrite (tx_bind_run _ _ s () s).
  2: { destruct active_profile as [p|]; [|done]. destruct Hp as [?|Hp]; [done|]. cbn. unfold ensure_embedding_profile_matches.
       rewrite (tx_bind_run _ _ s (Some p) s) by (unfold reads; by rewrite Hp).
       by rewrite bool_decide_eq_true_2. }
  rewrite (tx_bind_run _ _ s (Some (r_embedding_revision r)) s) by (unfold reads; by rewrite Hr).
  rewrite Z.eqb_refl. cbn. unfold upsert_vector, update_row, require_row, mbind, tx_bind. cbn. rewrite Hv. cbn. rewrite Hr. cbn.
  by rewrite Hr.
Qed.
(** What the turns of a thread do to the running system. *)
Definition now_at (s : System) (threads : gmap nat Thread) (inflight : gset EmbedKey) (st : Store) : Prop :=
  sy_threads s = threads ∧ sy_inflight s = inflight ∧ sy_store s = st.
Section turns.
Context (P : System → Prop) (t n : nat) (os : nat → Oracle) (s : System) (thr : gmap nat Thread) (inf : gset EmbedKey) (st : Store).
Context (p : prog unit) (K : gset EmbedKey) (A : gset ActiveEmbedClaim) (b : bool).
Context (Hs : now_at s thr inf st) (Ht : thr !! t = Some (mkThread p K A b)).
#[local] Abbreviation next := (alone (λ i, os (S i)) t n).
#[local] Abbreviation goes q := (<[t := mkThread q K A b]> thr).
Ltac turn Hp := destruct Hs as (<- & <- & <-); cbn [alone]; rewrite Ht; unfold advance; cbn [th_prog]; rewrite Hp.
Lemma turn_admission k r : p = BeginEmbedAdmission k → or_admission (os O) = r →
  (∀ s', now_at s' (goes (k r)) inf st → P (next s')) → P (alone os t (S n) s).
Proof. intros Hp <- HP. turn Hp. by apply HP. Qed.
Lemma turn_clock k : p = ReadClock k →
  (∀ s', now_at s' (goes (k (or_now (os O)))) inf st → P (next s')) → P (alone os t (S n) s).
Proof. intros Hp HP. turn Hp. by apply HP. Qed.
Lemma turn_embed text k r : p = Embed text k → or_embed (os O) = r →
  (∀ s', now_at s' (goes (k r)) inf st → P (next s')) → P (alone os t (S n) s).
Proof. intros Hp <- HP. turn Hp. by apply HP. Qed.
Lemma turn_transact {B} m (k : result StoreError.t B → prog unit) x st' : p = Transact B m k → m (or_now (os O)) st = Ok (x, st') →
  (∀ s', now_at s' (goes (k (Ok x))) inf st' → P (next s')) → P (alone os t (S n) s).
Proof. intros Hp Hm HP. revert Hm. turn Hp. intros Hm. unfold with_conn. rewrite Hm. by apply HP. Qed.
Lemma turn_insert key k : p = InsertInflight key k → key ∉ inf →
  (∀ s', now_at s' (<[t := mkThread (k true) ({[key]} ∪ K) A b]> thr) ({[key]} ∪ inf) st → P (next s')) → P (alone os t (S n) s).
Proof. intros Hp Hk HP. revert Hk. turn Hp. intros Hk. rewrite bool_decide_eq_false_2 by done. by apply HP. Qed.
Lemma turn_drop key k : p = DropInflight key k →
  (∀ s', now_at s' (<[t := mkThread k (K ∖ {[key]}) A b]> thr) (inf ∖ {[key]}) st → P (next s')) → P (alone os t (S n) s).
Proof. intros Hp HP. turn Hp. by apply HP. Qed.
Lemma turn_spawn keys claims task k : p = Spawn keys claims task k → or_accepted (os O) = true →
  (∀ s', now_at s' (<[or_task (os O) := mkThread task keys claims true]> (<[t := mkThread (k true) (K ∖ keys) (A ∖ claims) b]> thr)) inf st →
     P (next s')) → P (alone os t (S n) s).
Proof. intros Hp Ha HP. turn Hp. rewrite Ha. by apply HP. Qed.
Lemma turn_ends : p = Ret () → (∀ s', now_at s' (delete t thr) inf st → P (next s')) → P (alone os t (S n) s).
Proof. intros Hp HP. turn Hp. by apply HP. Qed.
End turns.

Definition embed_task (memory : Memory) : prog unit :=
  _ ← run_embed_task dimensions active_profile (m_id memory) (m_content memory) 0 None; drop_inflight (m_id memory, 0).
(** The request up to its end, … *)
Lemma store_request_turns (P : System → Prop) s thr inf st t t2 memory os (key := (m_id memory, 0)) :
  now_at s thr inf st →
  thr !! t = Some (mkThread (serve dimensions active_profile limits (RqStore memory None)) ∅ ∅ false) →
  t2 ≠ t → st_memories st !! m_id memory = None → key ∉ inf →
  (∀ i, or_admission (os i) = Ok () ∧ or_accepted (os i) = true ∧ or_task (os i) = t2) →
  (∀ s' st', now_at s' (<[t2 := mkThread (embed_task memory) ({[key]} ∪ ∅) ∅ true]> (delete t thr)) ({[key]} ∪ inf) st' →
     st_memories st' !! m_id memory = Some (pm_row (from_memory memory None)) → st_profile st' = st_profile st → P s') →
  P (alone os t 6 s).
Proof.
  intros Hs Ht Hne Hn Hk Hos HP. pose proof (Hos 4%nat) as (_ & Hacc & Ht2).
  eapply turn_admission; [exact Hs|exact Ht|reflexivity|apply Hos|]. clear s Hs. intros s Hs.
  eapply turn_clock; [exact Hs|apply lookup_insert_eq|reflexivity|]. clear s Hs. intros s Hs.
  rewrite insert_insert_eq in Hs.
  edestruct (store_new_run memory) as (st' & Hrun & Hrow & Hprof); [exact Hn|].
  eapply turn_transact; [exact Hs|apply lookup_insert_eq|reflexivity|exact Hrun|]. clear s Hs. intros s Hs.
  rewrite insert_insert_eq in Hs.
  eapply turn_insert; [exact Hs|apply lookup_insert_eq|reflexivity|exact Hk|]. clear s Hs. intros s Hs.
  rewrite insert_insert_eq in Hs.
  eapply turn_spawn; [exact Hs|apply lookup_insert_eq|reflexivity|exact Hacc|]. clear s Hs. intros s Hs.
  rewrite insert_insert_eq, Ht2 in Hs.
  eapply turn_ends; [exact Hs|rewrite lookup_insert_ne by done; apply lookup_insert_eq|reflexivity|]. clear s Hs. intros s Hs.
  apply (HP _ st'); [|done..]. rewrite delete_insert_ne, delete_insert_eq in Hs by done. exact Hs.
Qed.
(** … and its task. *)
Lemma embed_task_turns (P : System → Prop) s thr inf st t2 memory os v K (key := (m_id memory, 0)) :
  now_at s thr inf st → thr !! t2 = Some (mkThread (embed_task memory) K ∅ true) →
  st_memories st !! m_id memory = Some (pm_row (from_memory memory None)) →
  active_profile = None ∨ st_profile st = active_profile →
  validate_embedding_vector v dimensions = Ok () → or_embed (os O) = Ok v →
  (∀ s' st', now_at s' (delete t2 thr) (inf ∖ {[key]}) st' →
     (∃ r, st_memories st' !! m_id memory = Some r ∧ r_content r = m_content memory ∧ r_has_embedding r = true) →
     st_vectors st' !! m_id memory = Some v → P s') →
  P (alone os t2 4 s).
Proof.
  intros Hs Ht Hrow Hprof Hv He HP.
  eapply turn_embed; [exact Hs|exact Ht|reflexivity|exact He|]. clear s Hs. intros s Hs.
  eapply turn_transact; [exact Hs|apply lookup_insert_eq|reflexivity| |].
  { exact (set_embedding_run _ _ _ _ Hrow Hv Hprof). } clear s Hs. intros s Hs. rewrite insert_insert_eq in Hs.
  eapply turn_drop; [exact Hs|apply lookup_insert_eq|reflexivity|]. clear s Hs. intros s Hs. rewrite insert_insert_eq in Hs.
  eapply turn_ends; [exact Hs|apply lookup_insert_eq|reflexivity|]. clear s Hs. intros s Hs. rewrite delete_insert_eq in Hs.
  eapply HP; [exact Hs| |]; cbn.
  - rewrite lookup_alter_eq, Hrow. eexists. by split.
  - apply lookup_insert_eq.
Qed.

End liveness.

(** ** Concrete runs *)

#[local] Existing Instances AsciiCase plain_render plain_chrono.

Definition sample_vector (content : string) : list f64 := if String.eqb content "first" then [f1] else [f0].
Definition sample_answers (content : string) (v : list f64) : Prop := v = sample_vector content.
Definition sample_serve : request → prog unit := serve 1 None limits_config_default.
(** The provider answers the text of the access, or fails. *)
Definition sample_embedding (fails : bool) (p : option (prog unit)) : result EmbeddingError.t (list f64) :=
  match p with
  | Some (Embed text _) => if fails then Err (EmbeddingError.Transient "down") else Ok (sample_vector text)
  | _ => Err EmbeddingError.Disabled
  end.
Definition sample_oracle (e : result EmbeddingError.t (list f64)) (task : nat) : Oracle :=
  mkOracle 7 "token" (Ok ()) e (Err (EmbeddingError.Transient "down")) (Ok ()) true task.
(** A request, a turn of a thread, or the shutdown. *)
Inductive move := Ask (t : nat) (r : request) | Turn (t : nat) (fails : bool) (task : nat) | Stop (c : choice).
Definition choice_of (m : move) (s : System) : choice :=
  match m with
  | Ask t r => RequestArrives t (sample_serve r)
  | Turn t fails task => Runs t (sample_oracle (sample_embedding fails (th_prog <$> sy_threads s !! t)) task)
  | Stop c => c
  end.
Definition thread_freshb (t : nat) (s : System) : bool :=
  bool_decide (sy_threads s !! t = None) && bool_decide (t ∉ taken (sy_shutdown s)).
Definition token_freshb (token : string) (s : System) : bool :=
  bool_decide (token ∉ sy_issued s)
  && forallb (λ p, negb (bool_decide (r_embedding_claim_token (snd p) = Some token))) (map_to_list (st_memories (sy_store s))).
Definition ids_freshb (s s' : System) : bool :=
  forallb (λ p, bool_decide (is_Some (st_memories (sy_store s) !! fst p)) || negb (bool_decide (fst p ∈ sy_born s)))
    (map_to_list (st_memories (sy_store s'))).
Definition legalb (m : move) (s : System) : bool :=
  match m with
  | Ask t _ => thread_freshb t s
  | Turn t _ task =>
      match th_prog <$> sy_threads s !! t with
      | Some (ClaimForReembed _ _ _) => token_freshb "token" s
      | Some (Spawn _ _ _ _) => thread_freshb task s
      | _ => true
      end
  | Stop (RequestArrives _ _) | Stop (Runs _ _) | Stop (OthersRun _) => false
  | Stop _ => true
  end.
Definition play_one (s : System) (m : move) : option System :=
  s' ← perform 1 (λ x, x) (choice_of m s) s;
  if legalb m s && ids_freshb s s' then Some s' else None.
Fixpoint play (s : System) (ms : list move) : option System :=
  match ms with [] => Some s | m :: ms => s' ← play_one s m; play s' ms end.
#[local] Abbreviation sample_step := (step 1 (λ x, x) (is_request 1 None limits_config_default) sample_answers).

Lemma play_one_step s m s' : play_one s m = Some s' → sample_step s s'.
Proof.
  unfold play_one. destruct (perform 1 (λ x, x) (choice_of m s) s) as [s1|] eqn:Hp; [|done]. cbn.
  destruct (legalb m s) eqn:Hl; [|done]. cbn. destruct (ids_freshb s s1) eqn:Hi; [|done]. intros [= ->].
  exists (choice_of m s). split; [|split; [exact Hp|]].
  - destruct m as [t r|t fails task|c]; cbn in *.
    + apply andb_true_iff in Hl as [?%bool_decide_eq_true ?%bool_decide_eq_true]. split; [by split|by exists r].
    + intros th Hth. rewrite Hth in Hl. cbn in Hl. unfold answers_fit. destruct (th_prog th) eqn:Hprog; try done.
      * apply andb_true_iff in Hl as [Hn%bool_decide_eq_true Hr]. split; [done|]. intros id row Hrow Htok.
        rewrite forallb_forall in Hr. specialize (Hr (id, row)). cbn in Hr.
        rewrite bool_decide_eq_true_2 in Hr by done. discriminate Hr. by apply list_elem_of_In, elem_of_map_to_list.
      * rewrite Hth. cbn. rewrite Hprog. destruct fails; [done|]. by intros v [= <-].
      * intros _. by apply andb_true_iff in Hl as [?%bool_decide_eq_true ?%bool_decide_eq_true].
    + by destruct c.
  - intros id [r Hr]. unfold ids_freshb in Hi. rewrite forallb_forall in Hi. specialize (Hi (id, r)).
    cbn in Hi. apply orb_true_iff in Hi as [?%bool_decide_eq_true|?%negb_true_iff%bool_decide_eq_false]; [by left|by right|].
    by apply list_elem_of_In, elem_of_map_to_list.
Qed.
Lemma play_reachable st ms s : play (started st) ms = Some s →
  reachable 1 (λ x, x) (is_request 1 None limits_config_default) sample_answers st s.
Proof.
  unfold reachable. generalize (started st). clear. induction ms as [|m ms IH]; intros s0 Hp; cbn in Hp; [by simplify_eq|].
  destruct (play_one s0 m) as [s1|] eqn:H1; [|done]. eapply rtc_l; [by eapply play_one_step|by apply IH].
Qed.
Definition played (st : Store) (ms : list move) : System := default (started st) (play (started st) ms).
Lemma played_reachable st ms : reachable 1 (λ x, x) (is_request 1 None limits_config_default) sample_answers st (played st ms).
Proof.
  unfold played. destruct (play (started st) ms) as [s|] eqn:Hp; [by eapply play_reachable|apply rtc_refl].
Qed.
Lemma empty_right : right_at_start 1 sample_answers empty_store.
Proof. intros id. unfold vector_ok. done. Qed.

(** A store request and its task; an update overtakes the task, whose vector
    is refused. *)
Definition turns_of (t n : nat) (fails : bool) (task : nat) : list move := repeat (Turn t fails task) n.
Definition stored_moves (fails : bool) : list move := Ask 0 (RqStore edited None) :: turns_of 0 6 false 1 ++ turns_of 1 1 fails 9.
Definition overtaken_moves : list move :=
  stored_moves false ++ [Ask 2 (RqUpdate (m_id edited) sample_edit "ann")] ++ turns_of 2 6 false 3
  ++ turns_of 1 3 false 9 ++ turns_of 3 4 false 9.
Definition overtaken : System := played empty_store overtaken_moves.
(** The provider is down, the memory is claimed again, and the shutdown finds
    the task before it has run. *)
Definition claimed_moves : list move :=
  stored_moves true ++ turns_of 1 2 true 9 ++ [Ask 2 (RqReembed (Recovery 10))] ++ turns_of 2 7 false 3.
Definition claimed : System := played empty_store claimed_moves.
Definition shut_down : System :=
  played empty_store (claimed_moves ++ map Stop [ShutdownTakes; ShutdownCollects; ShutdownReleases; ShutdownReleases;
    ShutdownDrops 3; ShutdownEnds]).

#[local] Abbreviation sample_reachable := (reachable 1 (λ x, x) (is_request 1 None limits_config_default) sample_answers empty_store).

(** The vector that stays is that of the edited content. *)
Lemma embeddings_belong_to_content_witness :
  sample_reachable overtaken
  ∧ match st_memories (sy_store overtaken) !! m_id edited, st_vectors (sy_store overtaken) !! m_id edited with
    | Some r, Some v => r_has_embedding r = true ∧ sample_answers (r_content r) v ∧ good_vector 1 v
    | Some r, None => r_has_embedding r = false
    | None, v => v = None
    end
  ∧ r_content <$> st_memories (sy_store overtaken) !! m_id edited = Some "edited"
  ∧ st_vectors (sy_store overtaken) !! m_id edited = Some [f0].
Proof.
  split_and!; [apply played_reachable| |vm_compute; reflexivity|vm_compute; reflexivity].
  exact (embeddings_belong_to_content 1 (λ x, x) sample_answers None limits_config_default empty_store overtaken (m_id edited)
    empty_right (played_reachable _ _)).
Defined.

(** A second request for the key of a running task starts nothing. *)
Definition coalesced : System :=
  played empty_store (claimed_moves ++ [Ask 4 (RqReembed (Single (m_id edited) "ann"))] ++ turns_of 4 5 false 9).
Lemma one_worker_per_embedding_witness :
  sample_reachable coalesced ∧ dom (sy_threads coalesced) = {[3%nat]} ∧ sy_inflight coalesced = {[(m_id edited, 0)]}
  ∧ ∃ t th, sy_threads coalesced !! t = Some th ∧ (m_id edited, 0) ∈ th_inflight th.
Proof.
  split_and!; [apply played_reachable|vm_compute; reflexivity|vm_compute; reflexivity|].
  apply (one_worker_per_embedding 1 (λ x, x) sample_answers None limits_config_default empty_store coalesced
    empty_right (played_reachable _ _)). vm_compute. reflexivity.
Defined.


Definition arrived : System := played empty_store [Ask 0 (RqStore edited None)].
Lemma thread_ends_witness : ∃ n, sy_threads (alone (λ _, sample_oracle (Ok [f1]) 1) 0 n arrived) !! 0%nat = None.
Proof.
  apply (thread_ends 0 (mkThread (sample_serve (RqStore edited None)) ∅ ∅ false)); [reflexivity|done].
Defined.
